(* ===== verification/_CoqProject ===== *)
-Q . S2P
Prelude.v
GoTime.v
Order.v
Strconv.v
Paging.v
RateLimit.v
RateLimitMemory.v
JobTypes.v
JobStore.v
JobStoreInv.v
JobStoreSpec.v
JobBackoff.v
JobManager.v
JobSchedule.v
JobScheduleSpec.v
JobWorker.v
JobWorkerSpec.v
CacheStore.v
CacheStoreSpec.v
CacheLoad.v
CacheLoadSpec.v
SessionStore.v
SessionManager.v
SessionSpec.v
SessionRun.v
Strings.v
EditDistance.v
Cli.v
CliSpec.v
CliRoundTrip.v
CliExec.v
CliPolicy.v
CliExecSpec.v
CliRun.v
Digraph.v
CycleSearch.v
GenNode.v
GenLayout.v
GenLayoutSpec.v
GenCheck.v
GenArgs.v
GenUsage.v
GenUnionFind.v
GenFragment.v
GenFragmentSpec.v
GenBind.v
GenBindSpec.v
GenRun.v
MwOrder.v
MwOrderSpec.v
Router.v
RouterSpec.v
RouterRun.v
Migrate.v
MigrateSpec.v
MigrateRun.v
Password.v
Auth.v
AuthStore.v
PasswordVerifier.v
SessionAuth.v
AuthRun.v
AssetPath.v
AssetScan.v
AssetScanSpec.v
AssetRewrite.v
AssetGraph.v
AssetGraphSpec.v
AssetStore.v
AssetPlan.v
AssetPlanSpec.v
AssetBuildSpec.v
AssetRun.v
Query.v
QueryLex.v
QuerySpec.v
Faults.v
AssetCompile.v
GenFiles.v
GenFilesSpec.v
