(* ===== verification/Prelude.v ===== *)
(** * fabrik: a verification library

    Fabrik (github.com/gofabrik/fabrik) is a Go toolkit for server applications: a code
    generator that wires annotated declarations into a program, and the runtime packages
    the generated program calls (background jobs, sessions, authentication, caching, rate
    limits, migrations, a command line, a router). This library models the parts of it
    that carry logic of their own and proves what makes them correct. Paths below are
    under src/.

    ** How the parts interact

    At generation time, the directives' arguments are lexed and parsed (gen/args.go);
    every package emits nodes, whose dependencies come from the variables their Go text
    mentions (gen/node.go, graph.go); demands spread over the entry points
    (gen/usage.go); shared nodes are cut into build functions and scheduled
    (gen/fragment.go), validated (gen/validate.go) and laid out (gen/render.go); the
    fabrik command writes the result as one transaction (fabrik/internal/genfiles). The
    router's directives order the global middleware and resolve the chains of routes
    (router/directive); what a node needs is looked up by type or by path and built on
    first use (gen/gen.go). At run time a request passes the router (router), the session
    middleware (session), authentication on top of a session cell (auth), rate limits
    (ratelimit) and handlers, which read caches (cache) and enqueue jobs (jobs) that
    worker processes claim from the same store; scripts, style sheets and files are served
    under names that carry their hashes (assets). The command line (cli) starts all of it;
    migrations (migrations) prepare the database,
    and statements over structs (query) read and write it.

    The runtime packages share one shape: a manager over a small store interface. The
    interfaces are type classes or records of operations here (the store of RateLimit.v,
    CacheLoad.v, SessionManager.v, PasswordVerifier.v; the driver of Migrate.v; the mux of
    Router.v), the managers' theorems are proved against them, and the in-process stores
    are shown to implement them (RateLimitMemory.v, SessionRun.v, AuthRun.v,
    MigrateRun.v, RouterRun.v).

    ** Files and what they model

    - Shared: Prelude.v (results, 64-bit integers, lists), GoTime.v (time.Time and
      time.Duration), Order.v (sorting callbacks), Strconv.v, Strings.v (the
      standard library's text and path functions), Digraph.v and CycleSearch.v (dependency orders
      and the depth-first search that three parts of the generator write out).
    - Paging.v: paging/paging.go.
    - RateLimit.v, RateLimitMemory.v: ratelimit/ratelimit.go (the GCRA admission loop)
      and store_memory.go.
    - JobTypes.v, JobStore.v, JobStoreInv.v, JobStoreSpec.v: jobs/jobs.go, store.go and
      store_memory.go; JobBackoff.v: backoff.go; JobManager.v:
      manager.go, inspect.go, ops.go; JobSchedule.v, JobScheduleSpec.v: schedule.go,
      cron.go; JobWorker.v, JobWorkerSpec.v: worker.go as interleaved atomic actions.
    - CacheStore.v, CacheStoreSpec.v: cache/store_memory.go; CacheLoad.v,
      CacheLoadSpec.v: cache.go and load.go, the goroutines of one cache interleaved.
    - SessionStore.v: session/store_memory.go; SessionManager.v,
      SessionSpec.v, SessionRun.v: manager.go, bucket.go, commit.go, envelope.go,
      handle.go.
    - Cli.v, EditDistance.v, CliSpec.v, CliRoundTrip.v, CliPolicy.v:
      cli/cli.go, flag.go, arg.go, parse.go; CliExec.v, CliExecSpec.v: exec.go,
      complete.go; CliRun.v: a command line they are run on.
    - GenNode.v: Go syntax and gen/node.go, graph.go; GenLayout.v,
      GenLayoutSpec.v: render.go; GenCheck.v: validate.go; GenArgs.v: args.go; GenUsage.v: usage.go; GenUnionFind.v, GenFragment.v, GenFragmentSpec.v:
      fragment.go; GenBind.v, GenBindSpec.v: the bindings,
      scopes and emission of gen.go, scope.go, node.go; GenRun.v: a generated program and
      provider graphs they are run on.
    - MwOrder.v, MwOrderSpec.v: router/directive/ordering.go, middleware.go.
    - Router.v, RouterSpec.v, RouterRun.v: router/router.go, and runs of both.
    - AssetPath.v: the paths and names of assets/assets.go, hash.go, handler.go;
      AssetScan.v, AssetScanSpec.v: scan.go; AssetRewrite.v: rewrite.go; AssetGraph.v, AssetGraphSpec.v: graph.go; AssetStore.v: assets.go,
      asset.go, handler.go, manifest.go; AssetPlan.v, AssetPlanSpec.v,
      AssetBuildSpec.v: plan.go, build.go and the handlers; AssetRun.v: scans and a site they are run on;
      AssetCompile.v: compile.go and atomic.go over a file system that fails and crashes.
    - GenFiles.v, GenFilesSpec.v: fabrik/internal/genfiles/genfiles.go over a directory
      whose calls fail and stop; Faults.v: the monad and the logic of such programs.
    - Migrate.v, MigrateSpec.v, MigrateRun.v: migrations/migrations.go,
      driver.go.
    - Query.v: query (placeholders, fragments, identifiers, writes, reads, transactions);
      QueryLex.v: a lexer of PostgreSQL they are compared with; QuerySpec.v.
    - Password.v: auth/password/hasher.go; Auth.v: auth/claims.go,
      context.go, guard.go; AuthStore.v: auth/store; PasswordVerifier.v:
      auth/password/password.go; SessionAuth.v: auth/session; AuthRun.v: logins against
      the store and runs of them.

    Definitions keep the source's names where they are free; a struct is a record, a
    pointer that is compared or shared an index into a list or a map, an error a
    constructor of a sum, a mutex-protected method one step of a state function, and
    code that runs concurrently a step function over an explicit schedule.

    ** What the theorems show

    - Stores: invariants of every reachable state (jobs, sessions, cache, identities) and
      refinement of the map or list a client thinks of.
    - Concurrency: claimed jobs are exclusive, completion happens once, loads of a key
      run once and lose to deletions, cache loads that come back never deadlock, session
      updates are not lost, an upgraded password hash never overwrites a newer password.
    - Security: a login gets a fresh session, a logout deletes the request's before the
      response, guards admit exactly the granted, a login succeeds exactly for the password.
    - Rate: what a limiter admits conforms to the limit, as long as clock readings meet the
      store in order, and no arithmetic overflows.
    - Generator: planning ends with regions whose flows run in the order of their uses, cycles are reported exactly when
      there are some, definitions come before uses, components are the connected nodes,
      demand propagation is the least fixed point; bindings are built once in a flow, their
      resolution ends whatever they need of each other, and the validation pass leaves no
      trace.
    - Assets: the scanners end and what they find can be spliced, except on the inputs the
      findings name; the components of the reference graph are exact and ordered; planning
      ends, every name carries the hash of the content under it (or its cycle's), the
      published contents differ from their sources in the published names they refer to, and
      both handlers serve the contents under the URLs their mappers give; from a directory
      at rest a compile stopped at any call leaves the previous manifest or the new
      one with all it names, and one that nothing disturbs succeeds.
    - Generated files: a write is all or nothing however it is stopped and recovered,
      undisturbed it succeeds, and what was written passes the check.
    - Router: the middleware order meets every constraint whenever some order does; a
      request runs the globals, its scope's and its own middleware in that order; mounting
      changes nothing a route does; the first request closes registration.
    - Command line: the declaration check is exact, a rendered invocation parses back to
      the values written and succeeds exactly when they are acceptable,
      completion stands where the parser would.
    - SQL: for plain fragments (ASCII, no placeholder touching a word) numbering the
      placeholders is numbering the tokens of PostgreSQL's lexer and the generated writes are
      the intended statements with their arguments at their placeholders; a written row is read back, a failed transaction leaves nothing.
    - Migrations: a run applies a prefix of what is pending, a rerun resumes, and the
      status report is exactly the source's and the table's rows and foretells the run.
    - Declarations: what a manager registers stays consistent, every schedule with a kind,
      a handler and a valid spec.

    ** Bounds and fuel

    Integers are 64-bit with Go's wrap-around where the code computes on them (Paging.v,
    RateLimit.v, JobBackoff.v, GoTime.v), and theorems say when nothing wraps. Loops that
    are not structural take fuel, and each has a lemma that the fuel its caller passes is
    enough: the nodes of a graph for a depth-first search (CycleSearch.v), the unemitted
    nodes for a scheduler or a layout, the members of a band for its sort and the
    declarations for the removal of requires= cycles (MwOrder.v), the length of a string
    for its runes, the length of a script or sheet for its scan and the number of its nodes
    for Tarjan's recursion (AssetScan.v, AssetGraph.v), the bindings not yet running for a
    resolution (GenBind.v), the bytes of a statement (Query.v), a bound on the calls of a
    compile (AssetCompile.v), the retries a client can lose to others for a compare-and-swap loop
    (RateLimit.v, SessionManager.v).

    ** Not modelled, and why

    - The SQL stores (jobs, cache, ratelimit, session, auth and migrations on MySQL,
      PostgreSQL and SQLite): their logic is SQL text run by a server. The theorems about
      managers hold for them as far as they keep the interface's laws. A migration driver
      is assumed to apply a migration atomically; MySQL commits at each DDL statement, so
      what is proved of a failed migration does not carry over to it.
    - What the generator does with go/types (gen/inject.go, embedded.go and the Check and
      Emit methods of the directives), and the text it prints: a type is its printed form
      where gen.go only looks it up.
    - Packages over the network, files and reflection: the vendoring of assets, storage, mail, config, forms, validation, web,
      httpserver, the language server and the release tools.
    - Timers, tickers, signals and log lines; JSON, cron, Argon2, SHA-256 and checksum
      libraries are arguments of the definitions that use them. *)

From stdpp Require Export base numbers list gmap strings sorting fin_maps.
From Stdlib Require Export Lia ZArith Ascii.

#[export] Set Default Goal Selector "!".

(** ** Results: the value-or-error returns of the Go code *)

Inductive result (E A : Type) : Type :=
| Ok (a : A)
| Err (e : E).
Arguments Ok {E A} a.
Arguments Err {E A} e.

Declare Scope go_scope.
Delimit Scope go_scope with go.

Definition result_bind {E A B} (r : result E A) (f : A -> result E B) : result E B :=
  match r with Ok a => f a | Err e => Err e end.

Notation "'let?' x ':=' r 'in' k" := (result_bind r (fun x => k))
  (at level 10, x pattern, r at level 100, k at level 200) : go_scope.

(** [if err := c; err != nil { return err }]: an optional error stops the body. *)
Notation "'check?' c ';;' k" := (match c with Some e => Err e | None => k end)
  (at level 10, c at level 99, k at level 200) : go_scope.

Definition is_ok {E A} (r : result E A) : bool :=
  match r with Ok _ => true | Err _ => false end.

(** ** Machine integers: Go's [int] and [int64] on a 64-bit platform *)

Definition int64_min : Z := (-9223372036854775808)%Z.
Definition int64_max : Z := 9223372036854775807%Z.

Definition wrap64 (z : Z) : Z :=
  ((z + 9223372036854775808) mod 18446744073709551616 - 9223372036854775808)%Z.

Definition in_int64 (z : Z) : Prop := (int64_min <= z <= int64_max)%Z.

#[export] Instance in_int64_dec z : Decision (in_int64 z).
Proof. unfold in_int64. apply _. Defined.

Definition add64 (x y : Z) : Z := wrap64 (x + y).
Definition sub64 (x y : Z) : Z := wrap64 (x - y).
Definition mul64 (x y : Z) : Z := wrap64 (x * y).
(** Go's [/] and [%] on integers truncate toward zero. The single overflowing
    quotient, the minimum by -1, wraps. *)
Definition quo64 (x y : Z) : Z := wrap64 (Z.quot x y).
Definition rem64 (x y : Z) : Z := Z.rem x y.

Lemma wrap64_id z : in_int64 z -> wrap64 z = z.
Proof.
  unfold in_int64, int64_min, int64_max, wrap64. intros H.
  rewrite Z.mod_small; lia.
Qed.

Lemma wrap64_range z : in_int64 (wrap64 z).
Proof.
  unfold in_int64, int64_min, int64_max, wrap64.
  pose proof (Z.mod_pos_bound (z + 9223372036854775808) 18446744073709551616).
  lia.
Qed.

Lemma wrap64_fixed z : wrap64 z = z <-> in_int64 z.
Proof.
  split; [|apply wrap64_id]. intros <-. apply wrap64_range.
Qed.

Lemma mul64_id x y : in_int64 (x * y) -> mul64 x y = (x * y)%Z.
Proof. apply wrap64_id. Qed.

Lemma add64_id x y : in_int64 (x + y) -> add64 x y = (x + y)%Z.
Proof. apply wrap64_id. Qed.

Lemma sub64_id x y : in_int64 (x - y) -> sub64 x y = (x - y)%Z.
Proof. apply wrap64_id. Qed.

Lemma quo64_id x y : (0 <= x <= int64_max)%Z -> (0 < y)%Z -> quo64 x y = (x / y)%Z.
Proof.
  intros Hx Hy. unfold quo64. rewrite Z.quot_div_nonneg by lia.
  apply wrap64_id. unfold in_int64, int64_min, int64_max in *.
  pose proof (Z.div_pos x y). pose proof (Z.div_le_upper_bound x y x).
  nia.
Qed.

Lemma rem64_id x y : (0 <= x)%Z -> (0 < y)%Z -> rem64 x y = (x mod y)%Z.
Proof. intros. unfold rem64. apply Z.rem_mod_nonneg; lia. Qed.

Create Rewrite HintDb int64.
#[export] Hint Rewrite wrap64_id add64_id sub64_id mul64_id quo64_id rem64_id
  using (unfold in_int64, int64_min, int64_max in *; (lia || nia)) : int64.

(** Unfold the bounds and leave arithmetic to [lia]. *)
Ltac int_lia := unfold in_int64, int64_min, int64_max in *; lia.
Ltac int_nia := unfold in_int64, int64_min, int64_max in *; nia.

(** ** Boolean tests of the code as propositions *)

Ltac zbool :=
  repeat match goal with
  | H : (_ <? _)%Z = true |- _ => apply Z.ltb_lt in H
  | H : (_ <? _)%Z = false |- _ => apply Z.ltb_ge in H
  | H : (_ <=? _)%Z = true |- _ => apply Z.leb_le in H
  | H : (_ <=? _)%Z = false |- _ => apply Z.leb_gt in H
  | H : (_ =? _)%Z = true |- _ => apply Z.eqb_eq in H
  | H : (_ =? _)%Z = false |- _ => apply Z.eqb_neq in H
  | H : negb _ = true |- _ => apply negb_true_iff in H
  | H : negb _ = false |- _ => apply negb_false_iff in H
  | H : (_ && _) = true |- _ => apply andb_true_iff in H as [? ?]
  | H : (_ || _) = false |- _ => apply orb_false_iff in H as [? ?]
  end.

(** Case analysis on the scrutinee of the first [match] or [if] found. *)
Ltac go_case :=
  match goal with
  | |- context [match ?x with _ => _ end] =>
      lazymatch x with
      | context [match _ with _ => _ end] => fail
      | _ => destruct x eqn:?
      end
  | H : context [match ?x with _ => _ end] |- _ =>
      lazymatch x with
      | context [match _ with _ => _ end] => fail
      | _ => destruct x eqn:?
      end
  end.
Ltac go_cases := repeat (go_case; simplify_eq/=).

(** ** Lists *)

Lemma list_filter_ext {A} (P Q : A -> Prop) `{!forall x, Decision (P x), !forall x, Decision (Q x)}
    (l : list A) :
  (forall x, x ∈ l -> P x <-> Q x) -> filter P l = filter Q l.
Proof.
  induction l as [|x l IH]; intros Hl; [done|]. rewrite !filter_cons.
  assert (Hx : P x <-> Q x) by (apply Hl; left). rewrite IH by (intros; apply Hl; by right).
  repeat case_decide; tauto.
Qed.

Lemma filter_length_lt {A} (P Q : A -> Prop) `{!forall x, Decision (P x), !forall x, Decision (Q x)} l x :
  (forall y, Q y -> P y) -> x ∈ l -> P x -> ~ Q x -> length (filter Q l) < length (filter P l).
Proof.
  intros HQP Hx HP HQ. induction l as [|y l IH]; [by apply not_elem_of_nil in Hx|].
  assert (Hle : length (filter Q l) <= length (filter P l)).
  { clear -HQP. induction l as [|z l IH]; [done|]. rewrite !filter_cons.
    repeat case_decide; simpl; try lia. naive_solver. }
  rewrite !filter_cons. apply elem_of_cons in Hx as [->|Hx].
  - repeat case_decide; simpl; try done; lia.
  - specialize (IH Hx). repeat case_decide; simpl; try lia. naive_solver.
Qed.

Lemma filter_length_le {A} (P Q : A -> Prop) `{!forall x, Decision (P x), !forall x, Decision (Q x)} l :
  (forall y, Q y -> P y) -> length (filter Q l) <= length (filter P l).
Proof.
  intros HQP. induction l as [|z l IH]; [done|]. rewrite !filter_cons.
  repeat case_decide; simpl; try lia. naive_solver.
Qed.

Lemma elem_of_concat {A} (x : A) ls : x ∈ concat ls <-> exists l, l ∈ ls /\ x ∈ l.
Proof.
  rewrite list_elem_of_In, in_concat. split; intros (l & H1 & H2); exists l; by rewrite !list_elem_of_In in *.
Qed.

Lemma NoDup_key_inj {A B} (g : A -> B) (l : list A) x y :
  NoDup (g <$> l) -> x ∈ l -> y ∈ l -> g x = g y -> x = y.
Proof.
  intros Hd Hx Hy E. induction l as [|z l IH]; [by apply not_elem_of_nil in Hx|].
  rewrite fmap_cons, NoDup_cons in Hd. destruct Hd as [Hz Hd].
  apply elem_of_cons in Hx as [->|Hx], Hy as [->|Hy]; [done|..|by apply IH].
  - destruct Hz. rewrite E. by apply list_elem_of_fmap_2.
  - destruct Hz. rewrite <-E. by apply list_elem_of_fmap_2.
Qed.

(** ** Byte strings *)

Definition byte_of (a : Ascii.ascii) : Z := Z.of_N (Ascii.N_of_ascii a).

(** [lo <= b && b <= hi] on the byte values of two character literals. *)
Definition byte_in (lo hi a : Ascii.ascii) : bool :=
  ((byte_of lo <=? byte_of a) && (byte_of a <=? byte_of hi))%Z.

Fixpoint string_forall (p : Ascii.ascii -> bool) (s : string) : bool :=
  match s with
  | EmptyString => true
  | String a s => p a && string_forall p s
  end.

Lemma string_app_assoc (a b c : string) : ((a +:+ b) +:+ c = a +:+ (b +:+ c))%string.
Proof. induction a as [|x a IH]; [done|]. exact (f_equal (String x) IH). Qed.

(** [p ++ sep ++ k] determines [p] and [k] when the separator byte is not
    allowed in [p]: the namespacing scheme of the keyed stores. *)
Lemma namespaced_inj (p : Ascii.ascii -> bool) sep ns1 ns2 k1 k2 :
  p sep = false -> string_forall p ns1 = true -> string_forall p ns2 = true ->
  (ns1 +:+ String sep k1 = ns2 +:+ String sep k2)%string -> ns1 = ns2 /\ k1 = k2.
Proof.
  intros Hsep. revert ns2. induction ns1 as [|a ns1 IH]; intros [|b ns2]; cbn; intros H1 H2 E.
  - by simplify_eq.
  - simplify_eq. by rewrite Hsep in H2.
  - simplify_eq. by rewrite Hsep in H1.
  - simplify_eq. apply andb_true_iff in H1 as [_ H1], H2 as [_ H2].
    destruct (IH ns2 H1 H2) as [-> ->]; auto.
Qed.

(** ** Maps as the collection of their values *)

Lemma elem_of_rows {V} (R : gmap string V) r :
  r ∈ (map_to_list R).*2 <-> exists i, R !! i = Some r.
Proof.
  rewrite list_elem_of_fmap. split.
  - intros ([i r0] & -> & ?%elem_of_map_to_list). by exists i.
  - intros [i Hi]. exists (i, r). split; [done|]. by apply elem_of_map_to_list.
Qed.
