(* ===== verification/GoTime.v ===== *)
(** Go's [time.Time] and [time.Duration], as far as the packages use them.

    A [Time] is a wall-clock instant: its nanoseconds relative to the Unix
    epoch, an unbounded integer (Go keeps 64 bits of seconds beside the
    nanoseconds; no code here comes near that range, and monotonic readings are
    not modelled). The zero [Time] is midnight of 1 January of year 1. A
    [Duration] is an [int64] count of nanoseconds. *)

From S2P Require Import Prelude.

Local Open Scope Z_scope.

Abbreviation Time := Z.
Abbreviation Duration := Z.

Definition Millisecond : Duration := 1000000.
Definition Second : Duration := 1000000000.
Definition Minute : Duration := 60 * Second.
Definition Hour : Duration := 60 * Minute.

Definition zero_time : Time := -62135596800 * Second.

Definition IsZero (t : Time) : bool := t =? zero_time.
Definition After (t u : Time) : bool := u <? t.
Definition Before (t u : Time) : bool := t <? u.
Definition Equal (t u : Time) : bool := t =? u.
(** [t.Add(d)] *)
Definition Add (t : Time) (d : Duration) : Time := t + d.
(** [t.Sub(u)] saturates at the ends of [Duration]. *)
Definition Sub (t u : Time) : Duration := Z.max int64_min (Z.min int64_max (t - u)).
(** [t.UnixNano()] is meaningful only inside the [int64] domain; outside it wraps. *)
Definition UnixNano (t : Time) : Z := wrap64 t.
(** [time.Unix(0, n)] *)
Definition UnixOf (n : Z) : Time := n.

(** [t.Compare(u)] as used by sort callbacks. *)
Definition Compare (t u : Time) : comparison := t ?= u.

Lemma After_true t u : After t u = true <-> u < t.
Proof. apply Z.ltb_lt. Qed.
Lemma After_false t u : After t u = false <-> t <= u.
Proof. apply Z.ltb_ge. Qed.
Lemma Before_true t u : Before t u = true <-> t < u.
Proof. apply Z.ltb_lt. Qed.
Lemma Before_false t u : Before t u = false <-> u <= t.
Proof. apply Z.ltb_ge. Qed.
Lemma IsZero_true t : IsZero t = true <-> t = zero_time.
Proof. apply Z.eqb_eq. Qed.
Lemma IsZero_false t : IsZero t = false <-> t <> zero_time.
Proof. apply Z.eqb_neq. Qed.

(** Saturation keeps the sign of a difference. *)
Lemma Sub_pos t u : 0 < Sub t u <-> u < t.
Proof. unfold Sub. int_lia. Qed.
Lemma Sub_exact t u : in_int64 (t - u) -> Sub t u = t - u.
Proof. unfold Sub. int_lia. Qed.

Lemma UnixNano_roundtrip t : Equal (UnixOf (UnixNano t)) t = true <-> in_int64 t.
Proof. unfold Equal, UnixOf, UnixNano. rewrite Z.eqb_eq. apply wrap64_fixed. Qed.

(** Reads time tests of hypotheses as inequalities. *)
Ltac tbool :=
  unfold Equal in *;
  repeat match goal with
  | H : After _ _ = true |- _ => apply After_true in H
  | H : After _ _ = false |- _ => apply After_false in H
  | H : Before _ _ = true |- _ => apply Before_true in H
  | H : Before _ _ = false |- _ => apply Before_false in H
  | H : IsZero _ = true |- _ => apply IsZero_true in H
  | H : IsZero _ = false |- _ => apply IsZero_false in H
  end; zbool.
