(* ===== verification/Order.v ===== *)
(** Sorting with Go comparison callbacks ([slices.SortFunc], [sort.Slice],
    [cmp.Compare]).

    A callback is a function to [comparison]. [Cmp] collects what makes one a total
    preorder; the instances cover the callbacks of the code: integers, times and
    byte strings, reversed, taken through a field, and chained lexicographically. *)

From Stdlib Require Import String.
From S2P Require Import Prelude.

Class Cmp {A : Type} (c : A -> A -> comparison) : Prop := {
  cmp_anti x y : c x y = CompOpp (c y x);
  cmp_trans x y z : c x y <> Gt -> c y z <> Gt -> c x z <> Gt
}.

Arguments cmp_anti {A} c {_} x y.
Arguments cmp_trans {A} c {_} x y z.
#[export] Hint Mode Cmp + ! : typeclass_instances.

Definition cmp_Z : Z -> Z -> comparison := Z.compare.
Definition cmp_string : string -> string -> comparison := String.compare.
(** [cmp.Compare(b, a)] *)
Definition cmp_rev {A} (c : A -> A -> comparison) (x y : A) : comparison := c y x.
(** [cmp.Compare(a.f, b.f)] *)
Definition cmp_on {A B} (f : A -> B) (c : B -> B -> comparison) (x y : A) : comparison :=
  c (f x) (f y).
(** [if c := c1(a, b); c != 0 { return c }; return c2(a, b)] *)
Definition cmp_then {A} (c1 c2 : A -> A -> comparison) (x y : A) : comparison :=
  match c1 x y with Eq => c2 x y | c => c end.

#[export] Typeclasses Opaque cmp_Z cmp_string cmp_rev cmp_on cmp_then.

#[export] Instance cmp_Z_ok : Cmp cmp_Z.
Proof.
  unfold cmp_Z. constructor; intros; [apply Z.compare_antisym|].
  intros ?%Z.compare_gt_iff. by apply H, Z.compare_gt_iff; destruct (Z.compare_spec y z); lia || done.
Qed.

Lemma ascii_compare_trans_lt a b c :
  Ascii.compare a b = Lt -> Ascii.compare b c = Lt -> Ascii.compare a c = Lt.
Proof. unfold Ascii.compare. rewrite !N.compare_lt_iff. lia. Qed.

Lemma string_compare_trans_lt a b c :
  String.compare a b = Lt -> String.compare b c = Lt -> String.compare a c = Lt.
Proof.
  revert b c. induction a as [|x a IH]; intros [|y b] [|z c]; simpl; try done.
  destruct (Ascii.compare x y) eqn:E1; destruct (Ascii.compare y z) eqn:E2; try done.
  - apply Ascii.compare_eq_iff in E1, E2. subst.
    replace (Ascii.compare z z) with Eq; [apply IH|].
    symmetry. apply N.compare_refl.
  - apply Ascii.compare_eq_iff in E1. subst. by rewrite E2.
  - apply Ascii.compare_eq_iff in E2. subst. by rewrite E1.
  - by rewrite (ascii_compare_trans_lt _ _ _ E1 E2).
Qed.

Lemma string_compare_refl s : String.compare s s = Eq.
Proof.
  pose proof (String.compare_antisym s s) as H. by destruct (String.compare s s).
Qed.

#[export] Instance cmp_string_ok : Cmp cmp_string.
Proof.
  unfold cmp_string. constructor; [apply String.compare_antisym|].
  intros x y z H1 H2.
  destruct (String.compare x y) eqn:E1; [|destruct (String.compare y z) eqn:E2; [| |done]|done].
  - apply String.compare_eq_iff in E1. by subst.
  - apply String.compare_eq_iff in E2. subst. congruence.
  - by rewrite (string_compare_trans_lt _ _ _ E1 E2).
Qed.

#[export] Instance cmp_rev_ok {A} (c : A -> A -> comparison) `{!Cmp c} : Cmp (cmp_rev c).
Proof.
  unfold cmp_rev. constructor; intros; [apply (cmp_anti c)|]. by eapply (cmp_trans c).
Qed.

#[export] Instance cmp_on_ok {A B} (f : A -> B) (c : B -> B -> comparison) `{!Cmp c} :
  Cmp (cmp_on f c).
Proof. unfold cmp_on. constructor; intros; [apply (cmp_anti c)|]. by eapply (cmp_trans c). Qed.

Section cmp.
Context {A : Type} (c : A -> A -> comparison) `{!Cmp c}.

Lemma cmp_refl x : c x x = Eq.
Proof. pose proof (cmp_anti c x x) as H. by destruct (c x x). Qed.

Lemma cmp_Eq_sym x y : c x y = Eq -> c y x = Eq.
Proof. rewrite (cmp_anti c x y). by destruct (c y x). Qed.

Lemma cmp_Lt_Gt x y : c x y = Lt <-> c y x = Gt.
Proof. rewrite (cmp_anti c x y). by destruct (c y x). Qed.

Lemma cmp_trans_lt_l x y z : c x y = Lt -> c y z <> Gt -> c x z = Lt.
Proof.
  intros H1 H2. destruct (c x z) eqn:E; [|done|].
  - apply cmp_Eq_sym in E. exfalso. apply (cmp_trans c y z x); [done|congruence|].
    by apply cmp_Lt_Gt.
  - exfalso. by apply (cmp_trans c x y z); [congruence| |].
Qed.

Lemma cmp_trans_lt_r x y z : c x y <> Gt -> c y z = Lt -> c x z = Lt.
Proof.
  intros H1 H2. destruct (c x z) eqn:E; [|done|].
  - apply cmp_Eq_sym in E. exfalso. apply (cmp_trans c z x y); [congruence|done|].
    by apply cmp_Lt_Gt.
  - exfalso. by apply (cmp_trans c x y z); [|congruence|].
Qed.

(** The order a sort establishes. *)
Definition cmp_le (x y : A) : Prop := c x y <> Gt.

#[export] Instance cmp_le_dec x y : Decision (cmp_le x y).
Proof. unfold cmp_le. destruct (c x y); [left|left|right]; congruence. Defined.

#[export] Instance cmp_le_trans : Transitive cmp_le.
Proof. intros x y z. apply (cmp_trans c). Qed.

#[export] Instance cmp_le_total : Total cmp_le.
Proof. intros x y. unfold cmp_le. rewrite (cmp_anti c y x). destruct (c x y); auto. Qed.

(** [slices.SortFunc(l, c)]. Elements the callback calls equal are left in input
    order, which the callers do not rely on: their callbacks end in a unique key. *)
Definition sort_by (l : list A) : list A := merge_sort cmp_le l.

Lemma sort_by_perm l : sort_by l ≡ₚ l.
Proof. apply merge_sort_Permutation. Qed.

Lemma sort_by_sorted l : StronglySorted cmp_le (sort_by l).
Proof. apply (StronglySorted_merge_sort _ _). Qed.

Lemma elem_of_sort_by x l : x ∈ sort_by l <-> x ∈ l.
Proof. by rewrite sort_by_perm. Qed.
End cmp.

#[export] Instance cmp_then_ok {A} (c1 c2 : A -> A -> comparison) `{!Cmp c1, !Cmp c2} :
  Cmp (cmp_then c1 c2).
Proof.
  unfold cmp_then. constructor.
  - intros x y. rewrite (cmp_anti c1 x y). destruct (c1 y x); simpl; [|done..]. apply (cmp_anti c2).
  - intros x y z. destruct (c1 x y) eqn:E1; [|intros _|done].
    + destruct (c1 y z) eqn:E2; [| |done].
      * intros H1 H2. assert (c1 x z <> Gt) by (apply (cmp_trans c1 x y z); congruence).
        assert (c1 z x <> Gt).
        { apply (cmp_trans c1 z y x); rewrite ?(cmp_Eq_sym c1 _ _ E1), ?(cmp_Eq_sym c1 _ _ E2); done. }
        destruct (c1 x z) eqn:E3; [by apply (cmp_trans c2 x y z)|done|done].
      * intros _ _. rewrite (cmp_trans_lt_r c1 x y z); [done|congruence|done].
    + intros H2. rewrite (cmp_trans_lt_l c1 x y z); [done|done|]. by destruct (c1 y z).
Qed.

Lemma StronglySorted_filter {A} (R : A -> A -> Prop) (P : A -> Prop) `{!forall x, Decision (P x)} l :
  StronglySorted R l -> StronglySorted R (filter P l).
Proof.
  induction 1 as [|x l Hl IH HF]; [constructor|]. rewrite filter_cons. case_decide; [|done].
  constructor; [done|]. rewrite Forall_forall in HF |- *. intros y [_ ?]%list_elem_of_filter. auto.
Qed.
