(* ===== verification/Strconv.v ===== *)
(** The standard-library text conversions the code persists values with:
    [strconv.FormatInt] and [strconv.ParseInt] in base 10, [strings.CutPrefix],
    [strings.SplitN(s, sep, 2)], and [base64.RawURLEncoding]. *)

From S2P Require Import Prelude.

Local Open Scope Z_scope.

(** ** Decimal integers *)

Definition ascii_of (z : Z) : Ascii.ascii := Ascii.ascii_of_N (Z.to_N z).

Lemma byte_of_ascii_of z : 0 <= z < 256 -> byte_of (ascii_of z) = z.
Proof.
  intros H. unfold byte_of, ascii_of. rewrite Ascii.N_ascii_embedding; lia.
Qed.

Lemma ascii_of_byte_of a : ascii_of (byte_of a) = a.
Proof. unfold ascii_of, byte_of. rewrite N2Z.id. apply Ascii.ascii_N_embedding. Qed.

Lemma ascii_of_eq z a : z = byte_of a -> ascii_of z = a.
Proof. intros ->. apply ascii_of_byte_of. Qed.

Lemma byte_of_range a : 0 <= byte_of a < 256.
Proof. unfold byte_of. pose proof (Ascii.N_ascii_bounded a). lia. Qed.

(** The decimal digits of [0 <= z < 10 ^ fuel]. *)
Fixpoint digits (fuel : nat) (z : Z) : string :=
  match fuel with
  | O => EmptyString
  | S fuel =>
      (if z <? 10 then EmptyString else digits fuel (z / 10))
        +:+ String (ascii_of (48 + z mod 10)) EmptyString
  end.

(** [strconv.FormatInt(z, 10)]; an int64 has at most 19 digits. *)
Definition FormatInt (z : Z) : string :=
  if z <? 0 then String "-" (digits 20 (- z)) else digits 20 z.

Fixpoint parse_digits (acc : Z) (s : string) : option Z :=
  match s with
  | EmptyString => Some acc
  | String a s =>
      let d := byte_of a - 48 in
      if (0 <=? d) && (d <=? 9) then parse_digits (acc * 10 + d) s else None
  end.

(** [strconv.ParseInt(s, 10, 64)]: [None] is a syntax or range error. *)
Definition ParseInt (s : string) : option Z :=
  let signed (neg : bool) (s : string) :=
    match s with
    | EmptyString => None
    | _ => match parse_digits 0 s with
           | Some z => let v := if neg then - z else z in
                       if decide (in_int64 v) then Some v else None
           | None => None
           end
    end in
  match s with
  | EmptyString => None
  | String a rest =>
      if bool_decide (a = "-"%char) then signed true rest
      else if bool_decide (a = "+"%char) then signed false rest
      else signed false s
  end.

Lemma parse_digits_app acc s t :
  parse_digits acc (s +:+ t) = match parse_digits acc s with
                               | Some z => parse_digits z t
                               | None => None
                               end.
Proof.
  revert acc. induction s as [|a s IH]; intros acc; [done|].
  change (String a s +:+ t) with (String a (s +:+ t)). simpl. case_match; [apply IH|done].
Qed.

Lemma parse_digits_digits fuel z :
  0 <= z < 10 ^ Z.of_nat fuel -> (0 < fuel)%nat -> parse_digits 0 (digits fuel z) = Some z.
Proof.
  revert z. induction fuel as [|fuel IH]; intros z Hz Hf; [lia|]. simpl.
  rewrite parse_digits_app.
  pose proof (Z.mod_pos_bound z 10). pose proof (Z.div_mod z 10).
  assert (E : match parse_digits 0 (if z <? 10 then EmptyString else digits fuel (z / 10)) with
              | Some q => q = z / 10 | None => False end).
  { destruct (z <? 10) eqn:EZ; zbool; simpl; [by rewrite Z.div_small by lia|].
    rewrite Nat2Z.inj_succ, Z.pow_succ_r in Hz by lia.
    destruct fuel as [|fuel]; [simpl in Hz; lia|]. rewrite IH; [done| |lia].
    split; [apply Z.div_pos; lia|]. apply Z.div_lt_upper_bound; lia. }
  destruct (parse_digits 0 _) as [q|]; [|done]. subst q. simpl.
  rewrite byte_of_ascii_of by lia.
  rewrite (proj2 (Z.leb_le _ _)), (proj2 (Z.leb_le _ _)) by lia. simpl. f_equal. lia.
Qed.

Lemma digits_head fuel z :
  0 <= z -> (0 < fuel)%nat ->
  exists a s, digits fuel z = String a s /\ a <> "-"%char /\ a <> "+"%char.
Proof.
  revert z. induction fuel as [|fuel IH]; intros z Hz Hf; [lia|]. simpl.
  assert (Hd : forall q, 0 <= q < 10 -> ascii_of (48 + q) <> "-"%char /\ ascii_of (48 + q) <> "+"%char).
  { intros q Hq. split; intros E; apply (f_equal byte_of) in E;
      rewrite byte_of_ascii_of in E by lia;
      try change (byte_of "-") with 45 in E; try change (byte_of "+") with 43 in E; lia. }
  pose proof (Z.mod_pos_bound z 10).
  destruct (z <? 10) eqn:EZ.
  - eexists _, _. split; [reflexivity|]. apply Hd. lia.
  - destruct fuel as [|fuel]; [eexists _, _; split; [reflexivity|apply Hd; lia]|].
    destruct (IH (z / 10)) as (a & s & -> & ?); [apply Z.div_pos; lia|lia|].
    by eexists a, _.
Qed.

Lemma ParseInt_FormatInt z : in_int64 z -> ParseInt (FormatInt z) = Some z.
Proof.
  intros Hz. assert (10 ^ Z.of_nat 20 = 100000000000000000000) as Hp by done.
  unfold FormatInt, ParseInt. destruct (z <? 0) eqn:EZ; zbool.
  - rewrite bool_decide_true by done.
    destruct (digits_head 20 (- z)) as (a & s & E & _); [lia|lia|].
    rewrite E, <-E, parse_digits_digits by (unfold in_int64, int64_min, int64_max in *; lia).
    rewrite Z.opp_involutive. by rewrite decide_True.
  - destruct (digits_head 20 z) as (a & s & E & H1 & H2); [lia|lia|].
    rewrite E, (bool_decide_false _ H1), (bool_decide_false _ H2), <-E.
    rewrite parse_digits_digits by (unfold in_int64, int64_min, int64_max in *; lia).
    by rewrite decide_True.
Qed.

(** ** Cutting strings *)

(** [strings.CutPrefix] *)
Fixpoint CutPrefix (s prefix : string) : option string :=
  match prefix, s with
  | EmptyString, _ => Some s
  | String b prefix, String a s => if bool_decide (a = b) then CutPrefix s prefix else None
  | String _ _, EmptyString => None
  end.

Definition HasPrefix (s prefix : string) : bool :=
  match CutPrefix s prefix with Some _ => true | None => false end.

(** [strings.SplitN(s, sep, 2)] for a one-byte separator: [None] when it does not
    occur. *)
Fixpoint cut (sep : Ascii.ascii) (s : string) : option (string * string) :=
  match s with
  | EmptyString => None
  | String a s =>
      if bool_decide (a = sep) then Some (EmptyString, s)
      else match cut sep s with
           | Some (l, r) => Some (String a l, r)
           | None => None
           end
  end.

Lemma CutPrefix_app p s : CutPrefix (p +:+ s) p = Some s.
Proof.
  induction p as [|a p IH]; [by destruct s|].
  change (String a p +:+ s) with (String a (p +:+ s)). simpl. by rewrite bool_decide_true.
Qed.

Lemma string_forall_app p s t : string_forall p (s +:+ t) = string_forall p s && string_forall p t.
Proof.
  induction s as [|a s IH]; [done|]. change (String a s +:+ t) with (String a (s +:+ t)). simpl.
  by rewrite IH, andb_assoc.
Qed.

Lemma string_forall_impl (p q : Ascii.ascii -> bool) s :
  (forall a, p a = true -> q a = true) -> string_forall p s = true -> string_forall q s = true.
Proof. intros H. induction s as [|a s IH]; [done|]. cbn. intros [Ha Hs]%andb_true_iff. by rewrite (H a Ha), IH. Qed.

Lemma cut_app sep s t :
  string_forall (fun a => bool_decide (a <> sep)) s = true -> cut sep (s +:+ String sep t) = Some (s, t).
Proof.
  induction s as [|a s IH]; intros H.
  - change (EmptyString +:+ String sep t) with (String sep t). simpl. by rewrite bool_decide_true.
  - change (String a s +:+ String sep t) with (String a (s +:+ String sep t)). simpl in *.
    apply andb_true_iff in H as [H1%bool_decide_eq_true H2].
    rewrite bool_decide_false, IH by done. done.
Qed.

Lemma digits_forall (p : Ascii.ascii -> bool) fuel z :
  (forall q, 0 <= q < 10 -> p (ascii_of (48 + q)) = true) -> 0 <= z ->
  string_forall p (digits fuel z) = true.
Proof.
  intros Hp. revert z. induction fuel as [|fuel IH]; intros z Hz; [done|]. simpl.
  rewrite string_forall_app. pose proof (Z.mod_pos_bound z 10). simpl.
  rewrite Hp by lia. rewrite andb_true_r. case_match; [done|]. apply IH, Z.div_pos; lia.
Qed.

Lemma FormatInt_no_colon z :
  string_forall (fun a => bool_decide (a <> ":"%char)) (FormatInt z) = true.
Proof.
  assert (Hp : forall q, 0 <= q < 10 -> bool_decide (ascii_of (48 + q) <> ":"%char) = true).
  { intros q Hq. apply bool_decide_eq_true. intros E. apply (f_equal byte_of) in E.
    rewrite byte_of_ascii_of in E by lia. change (byte_of ":") with 58 in E. lia. }
  unfold FormatInt. destruct (z <? 0) eqn:EZ; zbool.
  - change (string_forall ?p (String "-" ?s)) with (p "-"%char && string_forall p s).
    rewrite digits_forall; [done|done|lia].
  - by apply digits_forall.
Qed.

(** ** base64.RawURLEncoding *)

Definition alphabet : list Ascii.ascii :=
  String.list_ascii_of_string "ABCDEFGHIJKLMNOPQRSTUVWXYZabcdefghijklmnopqrstuvwxyz0123456789-_".

Definition b64_char (v : Z) : Ascii.ascii := nth (Z.to_nat v) alphabet "A"%char.

(** The value of an alphabet character. *)
Fixpoint b64_index (l : list Ascii.ascii) (n : Z) (a : Ascii.ascii) : option Z :=
  match l with
  | [] => None
  | b :: l => if bool_decide (a = b) then Some n else b64_index l (n + 1) a
  end.
Definition b64_val (a : Ascii.ascii) : option Z := b64_index alphabet 0 a.

Fixpoint b64_encode (s : string) : string :=
  match s with
  | EmptyString => EmptyString
  | String a EmptyString =>
      let v := byte_of a in
      String (b64_char (v / 4)) (String (b64_char (v mod 4 * 16)) EmptyString)
  | String a (String b EmptyString) =>
      let v := byte_of a * 256 + byte_of b in
      String (b64_char (v / 1024)) (String (b64_char (v / 16 mod 64))
        (String (b64_char (v mod 16 * 4)) EmptyString))
  | String a (String b (String c s)) =>
      let v := byte_of a * 65536 + byte_of b * 256 + byte_of c in
      String (b64_char (v / 262144)) (String (b64_char (v / 4096 mod 64))
        (String (b64_char (v / 64 mod 64)) (String (b64_char (v mod 64)) (b64_encode s))))
  end.

(** The decoder skips CR and LF and, not being strict, ignores the unused low bits of
    a short last group. [None] is a [CorruptInputError]. *)
Fixpoint b64_values (s : string) : option (list Z) :=
  match s with
  | EmptyString => Some []
  | String a s =>
      if bool_decide (a = "010"%char) || bool_decide (a = "013"%char) then b64_values s
      else match b64_val a, b64_values s with
           | Some v, Some vs => Some (v :: vs)
           | _, _ => None
           end
  end.

Fixpoint b64_groups (vs : list Z) : option string :=
  match vs with
  | [] => Some EmptyString
  | [_] => None
  | [v1; v2] => Some (String (ascii_of (v1 * 4 + v2 / 16)) EmptyString)
  | [v1; v2; v3] =>
      let v := v1 * 4096 + v2 * 64 + v3 in
      Some (String (ascii_of (v / 1024)) (String (ascii_of (v / 4 mod 256)) EmptyString))
  | v1 :: v2 :: v3 :: v4 :: vs =>
      let v := v1 * 262144 + v2 * 4096 + v3 * 64 + v4 in
      match b64_groups vs with
      | Some s => Some (String (ascii_of (v / 65536)) (String (ascii_of (v / 256 mod 256))
                    (String (ascii_of (v mod 256)) s)))
      | None => None
      end
  end.

Definition b64_decode (s : string) : option string :=
  match b64_values s with Some vs => b64_groups vs | None => None end.

Lemma b64_val_char v :
  0 <= v < 64 -> b64_val (b64_char v) = Some v /\
  b64_char v <> "010"%char /\ b64_char v <> "013"%char.
Proof.
  intros H.
  assert (G : Forall (fun v => b64_val (b64_char v) = Some v /\
      b64_char v <> "010"%char /\ b64_char v <> "013"%char) (seqZ 0 64))
    by (apply (bool_decide_unpack _); vm_compute; exact I).
  rewrite Forall_forall in G. apply G, elem_of_seqZ. lia.
Qed.

Lemma b64_values_cons v s :
  0 <= v < 64 ->
  b64_values (String (b64_char v) s) =
    match b64_values s with Some vs => Some (v :: vs) | None => None end.
Proof.
  intros H. destruct (b64_val_char v H) as (E & H1 & H2). simpl.
  rewrite (bool_decide_false _ H1), (bool_decide_false _ H2). simpl. rewrite E. by case_match.
Qed.

Lemma b64_groups_long v1 v2 v3 v4 vs :
  b64_groups (v1 :: v2 :: v3 :: v4 :: vs) =
    (let v := v1 * 262144 + v2 * 4096 + v3 * 64 + v4 in
     match b64_groups vs with
     | Some s => Some (String (ascii_of (v / 65536)) (String (ascii_of (v / 256 mod 256))
                   (String (ascii_of (v mod 256)) s)))
     | None => None
     end).
Proof. done. Qed.

Lemma b64_roundtrip s : b64_decode (b64_encode s) = Some s.
Proof.
  unfold b64_decode.
  assert (G : forall n s, (String.length s <= n)%nat ->
    match b64_values (b64_encode s) with Some vs => b64_groups vs | None => None end = Some s);
    [|by eapply G].
  clear s. induction n as [|n IH]; intros [|a [|b [|c s]]] Hn; try done; simpl in Hn; try lia;
    pose proof (byte_of_range a) as Ha; try pose proof (byte_of_range b) as Hb;
    try pose proof (byte_of_range c) as Hc.
  - cbn [b64_encode]. rewrite !b64_values_cons by (zify; Z.to_euclidean_division_equations; lia).
    simpl. do 2 f_equal. apply ascii_of_eq.
    zify; Z.to_euclidean_division_equations; lia.
  - cbn [b64_encode]. rewrite !b64_values_cons by (zify; Z.to_euclidean_division_equations; lia).
    simpl. set (v := byte_of a * 256 + byte_of b).
    replace (v / 1024 * 4096 + v / 16 mod 64 * 64 + v mod 16 * 4) with (v * 4)
      by (zify; Z.to_euclidean_division_equations; lia).
    f_equal. f_equal; [|f_equal]; apply ascii_of_eq; unfold v;
      zify; Z.to_euclidean_division_equations; lia.
  - cbn [b64_encode]. rewrite !b64_values_cons by (zify; Z.to_euclidean_division_equations; lia).
    specialize (IH s ltac:(lia)). destruct (b64_values (b64_encode s)) as [vs|]; [|done].
    rewrite b64_groups_long. cbv zeta. rewrite IH.
    set (v := byte_of a * 65536 + byte_of b * 256 + byte_of c).
    replace (v / 262144 * 262144 + v / 4096 mod 64 * 4096 + v / 64 mod 64 * 64 + v mod 64) with v
      by (zify; Z.to_euclidean_division_equations; lia).
    f_equal. f_equal; [|f_equal; [|f_equal]]; apply ascii_of_eq; unfold v;
      zify; Z.to_euclidean_division_equations; lia.
Qed.

(** ** Bits as digits, for encodings that examples compute with *)

Fixpoint bits (p : positive) : string :=
  match p with
  | xH => EmptyString
  | xO p => String "0" (bits p)
  | xI p => String "1" (bits p)
  end.

Fixpoint ofBits (s : string) : positive :=
  match s with
  | EmptyString => xH
  | String c s => if Ascii.eqb c "1" then xI (ofBits s) else xO (ofBits s)
  end.

Lemma ofBits_bits p : ofBits (bits p) = p.
Proof. induction p as [p IH|p IH|]; simpl; by rewrite ?IH. Qed.
