(* ===== verification/Paging.v ===== *)
(** Page arithmetic: [paging/paging.go].

    [Of] clamps an untrusted page number; the accessors turn the page into the
    numbers a store query and its page controls need. All fields are Go [int]s
    and every operation is written at 64 bits. *)

From S2P Require Import Prelude.

Local Open Scope Z_scope.

Record Page := mkPage { Number : Z; Size : Z; Total : Z; Pages : Z }.

Definition Of (requested size total : Z) : Page :=
  let size := Z.max size 1 in
  let total := Z.max total 0 in
  let pages := quo64 total size in
  let pages := if negb (rem64 total size =? 0) then add64 pages 1 else pages in
  let number :=
    if (pages =? 0) || (requested <? 1) then 1
    else if pages <? requested then pages
    else requested in
  mkPage number size total pages.

Definition Limit (p : Page) : Z := Size p.
Definition Offset (p : Page) : Z := mul64 (sub64 (Number p) 1) (Size p).
Definition Empty (p : Page) : bool := Total p =? 0.
Definition HasPrev (p : Page) : bool := 1 <? Number p.
Definition HasNext (p : Page) : bool := Number p <? Pages p.
Definition Prev (p : Page) : Z := if HasPrev p then sub64 (Number p) 1 else Number p.
Definition Next (p : Page) : Z := if HasNext p then add64 (Number p) 1 else Number p.
Definition First (p : Page) : Z := if Empty p then 0 else add64 (Offset p) 1.
Definition Last (p : Page) : Z :=
  if Empty p then 0
  else if sub64 (Total p) (Offset p) <=? Size p then Total p
  else add64 (Offset p) (Size p).

(** ** Facts about a page built by [Of] *)

(** What [Of] promises of its result, in unbounded arithmetic. *)
Record page_ok (p : Page) : Prop := {
  ok_size : 1 <= Size p <= int64_max;
  ok_total : 0 <= Total p <= int64_max;
  ok_pages_lo : Total p <= Pages p * Size p;
  ok_pages_hi : (Pages p - 1) * Size p < Total p \/ (Total p = 0 /\ Pages p = 0);
  ok_number : 1 <= Number p <= Z.max 1 (Pages p)
}.

Lemma Of_ok requested size total :
  in_int64 requested -> in_int64 size -> in_int64 total ->
  page_ok (Of requested size total).
Proof.
  intros Hr Hs Ht. unfold Of.
  set (sz := Z.max size 1). set (tt := Z.max total 0).
  assert (Hsz : 1 <= sz <= int64_max) by (subst sz; int_lia).
  assert (Htt : 0 <= tt <= int64_max) by (subst tt; int_lia).
  rewrite quo64_id, rem64_id by int_lia.
  pose proof (Z.div_mod tt sz ltac:(lia)) as Hdm.
  pose proof (Z.mod_pos_bound tt sz ltac:(lia)) as Hmb.
  assert (0 <= tt / sz <= tt) by (split; [apply Z.div_pos; lia|apply Z.div_le_upper_bound; nia]).
  set (q := tt / sz) in *. set (m := tt mod sz) in *. clearbody q m.
  destruct (negb (m =? 0)) eqn:Em; zbool.
  - rewrite add64_id by int_nia.
    assert (q + 1 <> 0) by lia.
    destruct (q + 1 =? 0) eqn:E0; zbool; [lia|].
    constructor; simpl; [lia..| | |]; [nia|left; nia|].
    repeat case_match; simpl in *; zbool; lia.
  - constructor; simpl; [lia..| | |]; [nia| |].
    + destruct (decide (tt = 0)); [right; nia|left; nia].
    + repeat case_match; simpl in *; zbool; try lia; nia.
Qed.

Lemma Offset_exact p :
  page_ok p -> Offset p = (Number p - 1) * Size p /\ 0 <= Offset p <= Total p /\
  (0 < Total p -> Offset p < Total p).
Proof.
  intros [Hs Ht Hlo Hhi Hn]. unfold Offset.
  assert (Hle : (Number p - 1) * Size p <= Total p /\
                (0 < Total p -> (Number p - 1) * Size p < Total p)).
  { destruct (Z.le_gt_cases 1 (Pages p)).
    - destruct Hhi; [|lia]. split; nia.
    - assert (Number p = 1) as -> by lia. lia. }
  assert (0 <= (Number p - 1) * Size p) by nia.
  assert (Number p - 1 <= (Number p - 1) * Size p) by nia.
  rewrite (sub64_id (Number p) 1) by int_lia.
  rewrite mul64_id by int_lia. lia.
Qed.

Lemma Last_exact p :
  page_ok p -> Last p = Z.min (Total p) (Number p * Size p).
Proof.
  intros H. destruct (Offset_exact p H) as (Ho & Hb & Hlt).
  destruct H as [Hs Ht Hlo Hhi Hn]. unfold Last, Empty.
  destruct (Total p =? 0) eqn:E; zbool; [nia|].
  rewrite sub64_id by int_lia.
  destruct (_ <=? _) eqn:E2; zbool; [nia|].
  rewrite add64_id by int_nia. nia.
Qed.

Lemma First_exact p :
  page_ok p -> 0 < Total p -> First p = Offset p + 1.
Proof.
  intros H HT. destruct (Offset_exact p H) as (Ho & Hb & Hlt). destruct H.
  unfold First, Empty. destruct (Total p =? 0) eqn:E; zbool; [lia|].
  rewrite add64_id; int_lia.
Qed.

(** A page built from any three machine integers, however hostile, is a real
    page: its number lies between 1 and the page count, the page count is the
    ceiling of total over size, and the offset handed to the store is the exact
    unwrapped product, inside the result set. *)
Theorem Of_lands_on_a_real_page requested size total :
  in_int64 requested -> in_int64 size -> in_int64 total ->
  let p := Of requested size total in
  1 <= Number p <= Z.max 1 (Pages p) /\
  Pages p * Size p - Size p < Z.max 1 (Total p) <= Z.max 1 (Pages p * Size p) /\
  Offset p = (Number p - 1) * Size p /\
  0 <= Offset p < Z.max 1 (Total p) /\
  (1 <= requested <= Pages p -> Number p = requested).
Proof.
  intros Hr Hs Ht p. pose proof (Of_ok _ _ _ Hr Hs Ht) as H. fold p in H.
  destruct (Offset_exact p H) as (Ho & Hb & Hlt).
  assert (Hreq : 1 <= requested <= Pages p -> Number p = requested).
  { subst p. unfold Of. simpl. intros. repeat case_match; simpl in *; zbool; lia. }
  destruct H as [Hsz Htt Hlo Hhi Hn]. repeat split; [lia..|]; exact Hreq.
Qed.

Lemma Of_lands_on_a_real_page_witness :
  let p := Of 99 10 25 in
  1 <= Number p <= Z.max 1 (Pages p) /\
  Pages p * Size p - Size p < Z.max 1 (Total p) <= Z.max 1 (Pages p * Size p) /\
  Offset p = (Number p - 1) * Size p /\
  0 <= Offset p < Z.max 1 (Total p) /\
  (1 <= 99 <= Pages p -> Number p = 99).
Proof. apply (Of_lands_on_a_real_page 99 10 25); vm_compute; split; discriminate. Defined.

(** The pages of one result set, by requested number. *)
Lemma Of_in_range k size total :
  in_int64 size -> in_int64 total -> 1 <= k <= Pages (Of 1 size total) ->
  Of k size total = mkPage k (Z.max size 1) (Z.max total 0) (Pages (Of 1 size total)).
Proof.
  unfold Of. simpl. intros Hs Ht Hk.
  set (pages := if negb _ then _ else _) in *. f_equal.
  destruct (pages =? 0) eqn:E; zbool; [lia|]. simpl.
  destruct (k <? 1) eqn:E1; zbool; [lia|].
  destruct (pages <? k) eqn:E2; zbool; lia.
Qed.

(** The pages of a non-empty result partition its positions: every 1-based
    position is displayed ([First] to [Last]) by exactly one page number between
    1 and the page count, so no row is skipped or shown twice while paging. *)
Theorem pages_partition_the_items size total i :
  in_int64 size -> in_int64 total -> 1 <= i <= total ->
  exists! k, 1 <= k <= Pages (Of k size total) /\
    First (Of k size total) <= i <= Last (Of k size total).
Proof.
  intros Hs Ht Hi.
  pose proof (Of_ok 1 size total ltac:(int_lia) Hs Ht) as [Hsz Htt Hlo _ _].
  assert (HP : forall k, Pages (Of k size total) = Pages (Of 1 size total)) by reflexivity.
  change (Size (Of 1 size total)) with (Z.max size 1) in *.
  change (Total (Of 1 size total)) with (Z.max total 0) in *.
  assert (Hmax : Pages (Of 1 size total) <= int64_max).
  { unfold Of; simpl. case_match; apply wrap64_range. }
  pose proof (fun k => Of_in_range k size total Hs Ht) as Hin.
  pose proof (fun k Hk => Of_ok k size total Hk Hs Ht) as Hok.
  set (P := Pages (Of 1 size total)) in *. clearbody P.
  assert (Hrange : forall k, 1 <= k <= P ->
    First (Of k size total) = (k - 1) * Z.max size 1 + 1 /\
    Last (Of k size total) = Z.min total (k * Z.max size 1)).
  { intros k Hk. specialize (Hin k Hk). specialize (Hok k ltac:(int_lia)).
    rewrite First_exact, Last_exact by (exact Hok || (rewrite Hin; simpl; lia)).
    destruct (Offset_exact _ Hok) as (-> & _). rewrite Hin. simpl. lia. }
  clear Hin Hok. set (sz := Z.max size 1) in *. clearbody sz.
  pose proof (Z.div_mod (i - 1) sz ltac:(lia)) as Hdm.
  pose proof (Z.mod_pos_bound (i - 1) sz ltac:(lia)) as Hmb.
  pose proof (Z.div_pos (i - 1) sz ltac:(lia) ltac:(lia)).
  set (q := (i - 1) / sz) in *. set (m := (i - 1) mod sz) in *. clearbody q m.
  assert (Hk0 : 1 <= q + 1 <= P).
  { split; [lia|]. destruct (Z.le_gt_cases (q + 1) P); [done|]. exfalso.
    assert (P * sz <= q * sz) by (apply Z.mul_le_mono_nonneg_r; lia). lia. }
  exists (q + 1). split.
  - rewrite HP. destruct (Hrange _ Hk0) as [-> ->]. split; [lia|]. nia.
  - intros k. rewrite HP. intros [Hk HF]. destruct (Hrange k Hk) as [E1 E2].
    rewrite E1, E2 in HF.
    assert (q < k /\ k - 1 < q + 1) by (split; apply (Z.mul_lt_mono_pos_r sz); lia). lia.
Qed.

Lemma pages_partition_the_items_witness :
  exists! k, 1 <= k <= Pages (Of k 10 25) /\ First (Of k 10 25) <= 21 <= Last (Of k 10 25).
Proof.
  apply (pages_partition_the_items 10 25 21); [vm_compute; split; discriminate..|lia].
Defined.
