(* ===== verification/RateLimit.v ===== *)
(** Keyed GCRA rate limiting: [ratelimit/ratelimit.go] over the store contract of
    [ratelimit/store.go].

    The limiter keeps one number per key, the theoretical arrival time (TAT), in a
    [Store] reached by compare-and-swap. [admit_] is the retry loop of the Go
    method: one call of [admit_once] per iteration, with what other clients do to
    the store between the read and the swap as an explicit function, and the
    limiter's clock and the context as streams indexed by the attempt. *)

From S2P Require Import Prelude.
From S2P Require Import GoTime.

Local Open Scope Z_scope.

(** ** Limits *)

Record Limit := mkLimit { Rate : Z; Period : Duration; Burst : Z }.

Definition PerSecond (n : Z) : Limit := mkLimit n Second 0.
Definition PerMinute (n : Z) : Limit := mkLimit n Minute 0.
Definition PerHour (n : Z) : Limit := mkLimit n Hour 0.
Definition WithBurst (l : Limit) (b : Z) : Limit := mkLimit (Rate l) (Period l) b.

Definition capacity (l : Limit) : Z := if 0 <? Burst l then Burst l else Rate l.

Definition emission (l : Limit) : Duration :=
  let rate := Rate l in
  let interval := quo64 (Period l) rate in
  if negb (rem64 (Period l) rate =? 0) then add64 interval 1 else interval.

(** The errors of the package, one constructor per message. The first five wrap
    [ErrInvalidLimit]. *)
Inductive Error :=
| ErrRate
| ErrPeriod
| ErrBurst
| ErrEmission
| ErrWindow
| ErrNilStore
| ErrNilClock
| ErrHorizon
| ErrEmptyNamespace
| ErrNamespace (ns : string)
| ErrCount
| ErrExceedsCapacity (n capacity : Z)
| ErrCtx (e : string)
| ErrStore (e : string)
| ErrUnrepresentable (key : string)
| ErrBeyondHorizon (key : string) (wait horizon : Duration).

Definition Validate (l : Limit) : option Error :=
  if Rate l <=? 0 then Some ErrRate
  else if Period l <=? 0 then Some ErrPeriod
  else if Burst l <? 0 then Some ErrBurst
  else if emission l <=? 0 then Some ErrEmission
  else if quo64 int64_max (capacity l) <? emission l then Some ErrWindow
  else None.

(** ** Construction *)

Record Limiter := mkLimiter {
  limit : Limit;
  clockNil : bool;  (** the clock itself is an argument of [admit_] *)
  prefix : string;
  nsSet : bool;
  horizon : Duration
}.

Definition DefaultReservationHorizon : Duration := 24 * Hour.

Inductive Opt :=
| WithClock (isNil : bool)
| WithNamespace (ns : string)
| WithReservationHorizon (d : Duration).

Definition apply_opt (l : Limiter) (o : Opt) : Limiter :=
  match o with
  | WithClock isNil => mkLimiter (limit l) isNil (prefix l) (nsSet l) (horizon l)
  | WithNamespace ns => mkLimiter (limit l) (clockNil l) ns true (horizon l)
  | WithReservationHorizon d => mkLimiter (limit l) (clockNil l) (prefix l) (nsSet l) d
  end.

Definition ns_byte (b : Ascii.ascii) : bool :=
  byte_in "a" "z" b || byte_in "0" "9" b || bool_decide (b = "-"%char).

Definition validNamespace (ns : string) : option Error :=
  if bool_decide (ns = ""%string) then Some ErrEmptyNamespace
  else if string_forall ns_byte ns then None
  else Some (ErrNamespace ns).

Local Open Scope go_scope.

Definition New (lim : Limit) (storeNil : bool) (opts : list Opt) : result Error Limiter :=
  check? Validate lim ;;
  if storeNil then Err ErrNilStore else
  let l := fold_left apply_opt opts
             (mkLimiter lim false "" false DefaultReservationHorizon) in
  if clockNil l then Err ErrNilClock
  else if horizon l <=? 0 then Err ErrHorizon
  else if nsSet l then
    check? validNamespace (prefix l) ;;
    Ok (mkLimiter (limit l) (clockNil l) (prefix l +:+ ":") (nsSet l) (horizon l))
  else Ok l.

(** ** The store contract *)

(** [Store] of store.go: values are [int64]s with an absolute expiry. [live] is
    what the contract speaks about: the value of a key at an instant. *)
Class Store (S : Type) := {
  Get : S -> string -> Time -> S * result string (option Z);
  SetIfAbsent : S -> string -> Z -> Time -> Time -> S * result string bool;
  CompareAndSwap : S -> string -> Z -> Z -> Time -> Time -> S * result string bool;
  live : S -> string -> Time -> option Z
}.

Section contract.
Context {S : Type} `{Store S}.

(** Two states that no call at or after [now] can tell apart. *)
Definition same_from (now : Time) (s s' : S) : Prop :=
  forall k t, now <= t -> live s' k t = live s k t.

Definition same_except (key : string) (now : Time) (s s' : S) : Prop :=
  forall k t, k <> key -> now <= t -> live s' k t = live s k t.

(** The key holds [v], expiring at [exp]. *)
Definition holds_until (s : S) (key : string) (now : Time) (v : Z) (exp : Time) : Prop :=
  forall t, now <= t -> live s key t = if t <? exp then Some v else None.
End contract.

(** What store.go's comment asks of an implementation, for the calls that return
    no error: "entries expiring at or before now [are] absent to Get, replaceable
    by SetIfAbsent, and ineligible for CompareAndSwap". *)
Class LawfulStore (S : Type) `{Store S} : Prop := {
  Get_law s key now s' o : Get s key now = (s', Ok o) ->
    o = live s key now /\ same_from now s s';
  SetIfAbsent_law s key v now exp s' b : SetIfAbsent s key v now exp = (s', Ok b) ->
    (b = true <-> live s key now = None) /\
    (b = true -> holds_until s' key now v exp /\ same_except key now s s') /\
    (b = false -> same_from now s s');
  CompareAndSwap_law s key old v now exp s' b :
    CompareAndSwap s key old v now exp = (s', Ok b) ->
    (b = true <-> live s key now = Some old) /\
    (b = true -> holds_until s' key now v exp /\ same_except key now s s') /\
    (b = false -> same_from now s s')
}.

(** A store whose calls never fail (the in-process one). *)
Class ReliableStore (S : Type) `{Store S} : Prop := {
  Get_reliable s key now : exists o, snd (Get s key now) = Ok o;
  SetIfAbsent_reliable s key v now exp : exists b, snd (SetIfAbsent s key v now exp) = Ok b;
  CompareAndSwap_reliable s key old v now exp :
    exists b, snd (CompareAndSwap s key old v now exp) = Ok b
}.

(** ** Admission *)

Record Result := mkResult {
  Allowed : bool;
  RLimit : Z;
  Remaining : Z;
  RetryAfter : Duration;
  ResetAfter : Duration
}.

Definition unitsRemaining (burst fill emission : Duration) : Z :=
  let free := sub64 burst fill in
  if free <? 0 then 0 else quo64 free emission.

Inductive Decision :=
| DFail (e : Error)
| DDeny (r : Result)
| DWrite (newTAT : Time) (r : Result) (allowAt : Time).

(** The body of the retry loop between the store read and the store write. *)
Definition admit_decide (l : Limiter) (key : string) (n : Z) (reserve : bool)
    (now : Time) (stored : option Z) : Decision :=
  let emission := emission (limit l) in
  let burst := mul64 (capacity (limit l)) emission in
  let cost := mul64 n emission in
  let tat := match stored with
             | Some v => if After (UnixOf v) now then UnixOf v else now
             | None => now
             end in
  let newTAT := Add tat cost in
  if negb (Equal (UnixOf (UnixNano newTAT)) newTAT) then DFail (ErrUnrepresentable key) else
  let allowAt := Add newTAT (- burst) in
  let wait := Sub allowAt now in
  if negb reserve && (0 <? wait) then
    DDeny (mkResult false (capacity (limit l)) (unitsRemaining burst (Sub tat now) emission)
             wait (Sub tat now))
  else if reserve && (horizon l <? wait) then DFail (ErrBeyondHorizon key wait (horizon l))
  else DWrite newTAT
         (mkResult true (capacity (limit l)) (unitsRemaining burst (Sub newTAT now) emission)
            0 (Sub newTAT now))
         allowAt.

(** What the environment contributes to each attempt of one call. *)
Record Env (S : Type) := mkEnv {
  clock : nat -> Time;
  ctxErr : nat -> option string;
  interfere : nat -> S -> S  (** other clients, between our read and our write *)
}.
Arguments mkEnv {S}. Arguments clock {S}. Arguments ctxErr {S}. Arguments interfere {S}.

(** No cancellation and no other client, at a clock standing at [t]. *)
Definition quiet {S} (t : Time) : Env S :=
  mkEnv (fun _ => t) (fun _ => None) (fun _ s => s).

Section admit_.
Context {S : Type} `{Store S}.

(** An iteration up to its store write: answered already, or the write it is about to make. *)
Inductive Attempt :=
| ADone (res : result Error (Result * Time))
| AWrite (stored : option Z) (newTAT : Time) (r : Result) (allowAt : Time).

Definition admit_read (l : Limiter) (key : string) (n : Z) (reserve : bool) (now : Time) (s : S)
    : S * Attempt :=
  let '(s1, got) := Get s key now in
  (s1, match got with
       | Err e => ADone (Err (ErrStore e))
       | Ok stored =>
           match admit_decide l key n reserve now stored with
           | DFail e => ADone (Err e)
           | DDeny r => ADone (Ok (r, zero_time))
           | DWrite newTAT r allowAt => AWrite stored newTAT r allowAt
           end
       end).

(** The write; [None] is the Go [continue] after a lost race. *)
Definition admit_write (key : string) (now : Time) (stored : option Z) (newTAT : Time) (r : Result)
    (allowAt : Time) (s2 : S) : S * option (result Error (Result * Time)) :=
  let '(s3, ok) :=
    match stored with
    | Some v => CompareAndSwap s2 key v (UnixNano newTAT) now newTAT
    | None => SetIfAbsent s2 key (UnixNano newTAT) now newTAT
    end in
  (s3, match ok with
       | Err e => Some (Err (ErrStore e))
       | Ok false => None
       | Ok true => Some (Ok (r, allowAt))
       end).

(** One iteration, [others] happening between its read and its write. *)
Definition admit_once (l : Limiter) (key : string) (n : Z) (reserve : bool)
    (now : Time) (others : S -> S) (s : S)
    : S * option (result Error (Result * Time)) :=
  match admit_read l key n reserve now s with
  | (s1, ADone res) => (s1, Some res)
  | (s1, AWrite stored newTAT r allowAt) => admit_write key now stored newTAT r allowAt (others s1)
  end.

(** The [for] loop from attempt [i] on; [None] when the fuel ran out. *)
Fixpoint admit_loop (fuel : nat) (l : Limiter) (key : string) (n : Z) (reserve : bool)
    (e : Env S) (i : nat) (s : S) : S * option (result Error (Result * Time)) :=
  match fuel with
  | O => (s, None)
  | Datatypes.S fuel =>
      match ctxErr e i with
      | Some err => (s, Some (Err (ErrCtx err)))
      | None =>
          match admit_once l key n reserve (clock e i) (interfere e i) s with
          | (s', Some r) => (s', Some r)
          | (s', None) => admit_loop fuel l key n reserve e (Datatypes.S i) s'
          end
      end
  end.

Definition admit_ (fuel : nat) (l : Limiter) (key : string) (n : Z) (reserve : bool)
    (e : Env S) (s : S) : S * option (result Error (Result * Time)) :=
  if n <=? 0 then (s, Some (Err ErrCount))
  else if capacity (limit l) <? n then (s, Some (Err (ErrExceedsCapacity n (capacity (limit l)))))
  else admit_loop fuel l (prefix l +:+ key) n reserve e 0 s.

Definition AllowN (fuel : nat) (l : Limiter) (key : string) (n : Z) (e : Env S) (s : S)
    : S * option (result Error Result) :=
  let '(s', r) := admit_ fuel l key n false e s in
  (s', match r with
       | Some (Ok (res, _)) => Some (Ok res)
       | Some (Err err) => Some (Err err)
       | None => None
       end).

Definition Allow (fuel : nat) (l : Limiter) (key : string) (e : Env S) (s : S)
    : S * option (result Error Result) := AllowN fuel l key 1 e s.

(** A reservation is its [ReadyAt] instant. *)
Definition ReserveN (fuel : nat) (l : Limiter) (key : string) (n : Z) (e : Env S) (s : S)
    : S * option (result Error Time) :=
  let '(s', r) := admit_ fuel l key n true e s in
  (s', match r with
       | Some (Ok (_, at_)) => Some (Ok at_)
       | Some (Err err) => Some (Err err)
       | None => None
       end).

Definition Reserve (fuel : nat) (l : Limiter) (key : string) (e : Env S) (s : S)
    : S * option (result Error Time) := ReserveN fuel l key 1 e s.
End admit_.

(** [Reservation.DelayFrom] *)
Definition DelayFrom (readyAt t : Time) : Duration :=
  let d := Sub readyAt t in if 0 <? d then d else 0.

(** ** Facts about validated limits *)

Record limit_ok (l : Limit) : Prop := {
  lo_rate : 0 < Rate l;
  lo_emission : 0 < emission l;
  lo_emission_eq : emission l = (Period l + Rate l - 1) / Rate l;
  lo_capacity : 0 < capacity l;
  lo_window : capacity l * emission l <= int64_max
}.

(** The Go fields are machine integers. *)
Definition limit_fields (l : Limit) : Prop :=
  in_int64 (Rate l) /\ in_int64 (Period l) /\ in_int64 (Burst l).

Lemma emission_ceil l :
  limit_fields l -> 0 < Rate l -> 0 < Period l ->
  emission l = (Period l + Rate l - 1) / Rate l /\ 0 < emission l.
Proof.
  intros (Hr & Hp & _) Hr0 Hp0. unfold emission. cbv zeta.
  rewrite quo64_id, rem64_id by int_lia.
  pose proof (Z.div_mod (Period l) (Rate l) ltac:(lia)) as Hdm.
  pose proof (Z.mod_pos_bound (Period l) (Rate l) Hr0) as Hmb.
  pose proof (Z.div_pos (Period l) (Rate l) ltac:(lia) Hr0).
  set (q := Period l / Rate l) in *. set (m := Period l mod Rate l) in *. clearbody q m.
  assert (Hceil : (Period l + Rate l - 1) / Rate l = if decide (m = 0) then q else q + 1).
  { case_decide; symmetry.
    - apply (Z.div_unique_pos _ _ _ (Rate l - 1)); lia.
    - apply (Z.div_unique_pos _ _ _ (m - 1)); lia. }
  rewrite Hceil. destruct (m =? 0) eqn:E; zbool; simpl.
  - rewrite decide_True by done. split; [done|nia].
  - rewrite decide_False by done. rewrite add64_id by int_nia. lia.
Qed.

Lemma Validate_ok l : limit_fields l -> Validate l = None -> limit_ok l.
Proof.
  intros Hf. unfold Validate.
  destruct (Rate l <=? 0) eqn:E1; [done|]. destruct (Period l <=? 0) eqn:E2; [done|].
  destruct (Burst l <? 0) eqn:E3; [done|]. destruct (emission l <=? 0) eqn:E4; [done|].
  destruct (_ <? emission l) eqn:E5; [done|]. intros _. zbool.
  destruct (emission_ceil l Hf E1 E2) as [Hc Hpos].
  assert (Hcap : 0 < capacity l) by (unfold capacity; case_match; zbool; lia).
  destruct Hf as (Hr & Hp & Hb).
  rewrite quo64_id in E5 by int_lia. constructor; try done.
  pose proof (Z.mul_div_le int64_max (capacity l) Hcap). nia.
Qed.

(** The error branch for an interval that rounds to zero cannot be taken: the
    interval is rounded up. *)
Lemma Validate_no_ErrEmission l : limit_fields l -> Validate l <> Some ErrEmission.
Proof.
  intros Hf. unfold Validate.
  destruct (Rate l <=? 0) eqn:E1; [done|]. destruct (Period l <=? 0) eqn:E2; [done|].
  destruct (Burst l <? 0) eqn:E3; [done|]. zbool.
  destruct (emission_ceil l Hf E1 E2) as [_ Hpos].
  destruct (emission l <=? 0) eqn:E4; [zbool; lia|]. by case_match.
Qed.

(** ** The decision in unbounded arithmetic *)

(** The arrival time a request at [now] starts from. *)
Definition tat_at (stored : option Z) (now : Time) : Time :=
  match stored with Some v => Z.max v now | None => now end.

Lemma tat_at_ge stored now : now <= tat_at stored now.
Proof. destruct stored; simpl; lia. Qed.

Section decide.
Context (l : Limiter) (Hl : limit_ok (limit l)).
Let E := emission (limit l).
Let C := capacity (limit l).

Lemma admit_decide_spec key n reserve now stored :
  0 < n <= C ->
  admit_decide l key n reserve now stored =
    let tat := tat_at stored now in
    let newTAT := tat + n * E in
    if decide (in_int64 newTAT) then
      let wait := Sub (newTAT - C * E) now in
      if negb reserve && (0 <? wait) then
        DDeny (mkResult false C (unitsRemaining (C * E) (Sub tat now) E) wait (Sub tat now))
      else if reserve && (horizon l <? wait) then DFail (ErrBeyondHorizon key wait (horizon l))
      else DWrite newTAT
             (mkResult true C (unitsRemaining (C * E) (Sub newTAT now) E) 0 (Sub newTAT now))
             (newTAT - C * E)
    else DFail (ErrUnrepresentable key).
Proof.
  intros Hn. destruct Hl as [Hr He _ Hc Hw]. unfold admit_decide. fold E C.
  rewrite (mul64_id C E) by (subst E C; int_nia).
  rewrite (mul64_id n E) by (subst E C; int_nia).
  replace (match stored with Some v => if After (UnixOf v) now then UnixOf v else now
           | None => now end) with (tat_at stored now).
  2: { destruct stored as [v|]; simpl; [|done]. unfold UnixOf.
       destruct (After v now) eqn:EA; tbool; lia. }
  cbv zeta. unfold Add. rewrite Z.add_opp_r.
  set (nt := tat_at stored now + n * E). case_decide as Hd.
  - apply UnixNano_roundtrip in Hd. by rewrite Hd.
  - destruct (Equal _ nt) eqn:EQ; [|done]. by apply UnixNano_roundtrip in EQ.
Qed.

(** [unitsRemaining] counts the whole emissions left in the window. *)
Lemma unitsRemaining_spec fill k :
  0 <= fill <= int64_max -> 0 < k ->
  (k <= unitsRemaining (C * E) fill E <-> fill + k * E <= C * E).
Proof.
  intros Hf Hk. destruct Hl as [Hr He _ Hc Hw]. fold E in He, Hw; fold C in Hc, Hw. unfold unitsRemaining.
  rewrite sub64_id by int_nia. destruct (_ <? 0) eqn:E0; zbool; [nia|].
  rewrite quo64_id by int_lia.
  split; intros.
  - pose proof (Z.mul_div_le (C * E - fill) E He). nia.
  - apply Z.div_le_lower_bound; lia.
Qed.
End decide.

(** ** One attempt against a lawful store *)

Section attempts.
Context {S : Type} `{LawfulStore S}.

(** What an attempt that does not lose the race amounts to. [s1] is the store
    after our read, [s2] the store our write meets. *)
Definition atomic_step (l : Limiter) (key : string) (n : Z) (reserve : bool) (now : Time)
    (s s2 s' : S) (r : Result) (at_ : Time) : Prop :=
  (admit_decide l key n reserve now (live s key now) = DDeny r /\ at_ = zero_time /\
     same_from now s s') \/
  (exists T, admit_decide l key n reserve now (live s2 key now) = DWrite T r at_ /\
     holds_until s' key now T T /\ same_except key now s2 s').

Lemma admit_decide_write_repr l key n reserve now stored T r a :
  admit_decide l key n reserve now stored = DWrite T r a -> UnixNano T = T.
Proof.
  unfold admit_decide. cbv zeta. set (nt := Add _ (mul64 n _)).
  destruct (Equal _ nt) eqn:EQ; [|done]. simpl.
  repeat case_match; intros ?; simplify_eq. unfold Equal, UnixOf in EQ. by zbool.
Qed.

Lemma admit_once_ok l key n reserve now others s s' r a :
  admit_once l key n reserve now others s = (s', Some (Ok (r, a))) ->
  atomic_step l key n reserve now s (others (fst (Get s key now))) s' r a.
Proof.
  unfold admit_once, admit_read, admit_write. destruct (Get s key now) as [s1 [o|]] eqn:EG; [|done].
  destruct (Get_law _ _ _ _ _ EG) as [-> Hsame]. simpl.
  destruct (admit_decide _ _ _ _ _ _) as [e|r0|T r0 a0] eqn:ED; [done| |].
  - intros. simplify_eq. left. auto.
  - pose proof (admit_decide_write_repr _ _ _ _ _ _ _ _ _ ED) as HT.
    intros Hw. right. exists T.
    destruct (live s key now) as [v|] eqn:EL.
    + destruct (CompareAndSwap _ _ _ _ _ _) as [s3 [[]|]] eqn:EC; simplify_eq.
      destruct (CompareAndSwap_law _ _ _ _ _ _ _ _ EC) as (Hb & Hok & _).
      destruct (Hok eq_refl) as [? ?]. rewrite (proj1 Hb eq_refl). rewrite HT in *. auto.
    + destruct (SetIfAbsent _ _ _ _ _) as [s3 [[]|]] eqn:EC; simplify_eq.
      destruct (SetIfAbsent_law _ _ _ _ _ _ _ EC) as (Hb & Hok & _).
      destruct (Hok eq_refl) as [? ?]. rewrite (proj1 Hb eq_refl). rewrite HT in *. auto.
Qed.

(** A race is lost only to a client that changed the key's live value. *)
Lemma admit_once_lost l key n reserve now others s s' :
  admit_once l key n reserve now others s = (s', None) ->
  live (others (fst (Get s key now))) key now <> live s key now.
Proof.
  unfold admit_once, admit_read, admit_write. destruct (Get s key now) as [s1 [o|]] eqn:EG; [|done].
  destruct (Get_law _ _ _ _ _ EG) as [-> Hsame]. simpl.
  destruct (admit_decide _ _ _ _ _ _) as [e|r0|T r0 a0]; [done..|].
  destruct (live s key now) as [v|].
  - destruct (CompareAndSwap _ _ _ _ _ _) as [s3 [[]|]] eqn:EC; intros; simplify_eq.
    intros Hv. by apply (CompareAndSwap_law _ _ _ _ _ _ _ _ EC) in Hv.
  - destruct (SetIfAbsent _ _ _ _ _) as [s3 [[]|]] eqn:EC; intros; simplify_eq.
    intros Hv. by apply (SetIfAbsent_law _ _ _ _ _ _ _ EC) in Hv.
Qed.

(** The store at the start of attempt [j], after [j] lost races. *)
Inductive lost (l : Limiter) (key : string) (n : Z) (reserve : bool) (e : Env S) (s : S)
  : nat -> S -> Prop :=
| lost_O : lost l key n reserve e s 0 s
| lost_S j sj sj' :
    lost l key n reserve e s j sj -> ctxErr e j = None ->
    admit_once l key n reserve (clock e j) (interfere e j) sj = (sj', None) ->
    lost l key n reserve e s (Datatypes.S j) sj'.

Lemma admit_loop_ok fuel l key n reserve e i s0 s s' r a :
  lost l key n reserve e s0 i s ->
  admit_loop fuel l key n reserve e i s = (s', Some (Ok (r, a))) ->
  exists j sj, lost l key n reserve e s0 j sj /\ ctxErr e j = None /\
    atomic_step l key n reserve (clock e j) sj
      (interfere e j (fst (Get sj key (clock e j)))) s' r a.
Proof.
  revert i s. induction fuel as [|fuel IH]; intros i s Hl; [done|]. simpl.
  destruct (ctxErr e i) eqn:EC; [done|].
  destruct (admit_once _ _ _ _ _ _ _) as [s1 [res|]] eqn:EA.
  - intros. simplify_eq. exists i, s. split_and!; [done..|]. by apply admit_once_ok.
  - apply IH. by econstructor.
Qed.

Lemma admit_loop_terminates fuel l key n reserve e i s0 s :
  (exists j, (i <= j < i + fuel)%nat /\ forall sj, lost l key n reserve e s0 j sj ->
     live (interfere e j (fst (Get sj key (clock e j)))) key (clock e j)
     = live sj key (clock e j)) ->
  lost l key n reserve e s0 i s ->
  exists s' res, admit_loop fuel l key n reserve e i s = (s', Some res).
Proof.
  revert i s. induction fuel as [|fuel IH]; intros i s (j & Hj & Hquiet) Hl; [lia|]. simpl.
  destruct (ctxErr e i) eqn:EC; [eauto|].
  destruct (admit_once _ _ _ _ _ _ _) as [s1 [res|]] eqn:EA; [eauto|].
  apply IH; [|by econstructor]. exists j. split; [|done].
  assert (j <> i); [intros ->|lia].
  apply admit_once_lost in EA. by apply EA, Hquiet.
Qed.
End attempts.

(** Every grant or refusal that [AllowN] or [ReserveN] returns is atomic
    whatever other clients do between its reads and writes: after some number of
    lost races the decision returned is the one for the value the key has at the
    very moment of the write, the new arrival time is stored under that key, and
    no other key is touched; a refusal leaves the store as it is. *)
Theorem admission_is_atomic {S : Type} `{LawfulStore S}
    fuel l key n reserve (e : Env S) s s' r a :
  admit_ fuel l key n reserve e s = (s', Some (Ok (r, a))) ->
  exists j sj,
    lost l (prefix l +:+ key) n reserve e s j sj /\ ctxErr e j = None /\
    atomic_step l (prefix l +:+ key) n reserve (clock e j) sj
      (interfere e j (fst (Get sj (prefix l +:+ key) (clock e j)))) s' r a.
Proof.
  unfold admit_. do 2 (case_match; [done|]). apply admit_loop_ok. constructor.
Qed.

(** The retry loop of [admit_] stops. As soon as one attempt meets a store in
    which nobody changed the key's live value between its read and its write, it
    returns; the attempts before it only ever fail because another client did. *)
Theorem admit_retry_terminates {S : Type} `{LawfulStore S}
    j fuel l key n reserve (e : Env S) s :
  (j < fuel)%nat ->
  (forall sj, lost l (prefix l +:+ key) n reserve e s j sj ->
     live (interfere e j (fst (Get sj (prefix l +:+ key) (clock e j))))
       (prefix l +:+ key) (clock e j)
     = live sj (prefix l +:+ key) (clock e j)) ->
  exists s' res, admit_ fuel l key n reserve e s = (s', Some res).
Proof.
  intros Hj Hquiet. unfold admit_. do 2 (case_match; [eauto|]).
  apply (admit_loop_terminates _ _ _ _ _ _ _ s); [|constructor].
  exists j. split; [lia|done].
Qed.

Section arrival.
Context {S : Type} `{Store S}.

(** The key's arrival time is [T] (in the past when the key is idle): the shape
    every state written by the limiter has. *)
Definition tat_is (s : S) (K : string) (now : Time) (T : Time) : Prop :=
  holds_until s K now T T.

Lemma tat_is_later s K now now' T : now <= now' -> tat_is s K now T -> tat_is s K now' T.
Proof. intros Hle Ht t Hlt. apply Ht. lia. Qed.

Lemma tat_is_same s s' K now T : same_from now s s' -> tat_is s K now T -> tat_is s' K now T.
Proof. intros Hs Ht t Hlt. rewrite Hs by done. by apply Ht. Qed.

Lemma tat_is_at s K now T : tat_is s K now T -> tat_at (live s K now) now = Z.max T now.
Proof. intros Ht. rewrite (Ht now) by lia. case_match; zbool; simpl; lia. Qed.
End arrival.

(** ** Uncontended calls on a reliable store *)

Section sequential.
Context {S : Type} `{LawfulStore S} {HR : ReliableStore S}.
Context (l : Limiter) (Hl : limit_ok (limit l)).
Let E := emission (limit l).
Let C := capacity (limit l).

(** The effect of one uncontended call, by its decision. *)
Definition call_post (key : string) (now : Time) (d : Decision) (s s' : S)
    (res : result Error (Result * Time)) : Prop :=
  match d with
  | DFail e => res = Err e /\ same_from now s s'
  | DDeny r => res = Ok (r, zero_time) /\ same_from now s s'
  | DWrite T r a => res = Ok (r, a) /\ holds_until s' key now T T /\ same_except key now s s'
  end.

Lemma admit_quiet key n reserve now s :
  0 < n <= C ->
  let K := (prefix l +:+ key)%string in
  exists s' res, admit_ 1 l key n reserve (quiet now) s = (s', Some res) /\
    call_post K now (admit_decide l K n reserve now (live s K now)) s s' res.
Proof.
  intros Hn K. unfold admit_. fold C K.
  destruct (n <=? 0) eqn:E1; zbool; [lia|]. destruct (C <? n) eqn:E2; zbool; [lia|].
  cbn [admit_loop ctxErr quiet clock interfere].
  unfold admit_once, admit_read, admit_write. destruct (Get_reliable s K now) as [o Ho].
  destruct (Get s K now) as [s1 g] eqn:EG. simpl in Ho. subst g.
  destruct (Get_law _ _ _ _ _ EG) as [-> Hsame].
  destruct (admit_decide l K n reserve now (live s K now)) as [e|r|T r a] eqn:ED; simpl.
  1-2: by eauto.
  rewrite (admit_decide_write_repr _ _ _ _ _ _ _ _ _ ED).
  assert (Hlive : live s1 K now = live s K now) by (apply Hsame; lia).
  destruct (live s K now) as [v|] eqn:EL.
  - destruct (CompareAndSwap_reliable s1 K v T now T) as [b Hb].
    destruct (CompareAndSwap s1 K v T now T) as [s3 ok] eqn:EC. simpl in Hb. subst ok.
    destruct (CompareAndSwap_law _ _ _ _ _ _ _ _ EC) as (Hiff & Hok & _).
    rewrite (proj2 Hiff Hlive) in *. destruct (Hok eq_refl) as [Hh Hex].
    do 2 eexists. split; [done|]. split_and!; [done..|].
    intros k t Hk Ht. rewrite Hex, Hsame; auto.
  - destruct (SetIfAbsent_reliable s1 K T now T) as [b Hb].
    destruct (SetIfAbsent s1 K T now T) as [s3 ok] eqn:EC. simpl in Hb. subst ok.
    destruct (SetIfAbsent_law _ _ _ _ _ _ _ EC) as (Hiff & Hok & _).
    rewrite (proj2 Hiff Hlive) in *. destruct (Hok eq_refl) as [Hh Hex].
    do 2 eexists. split; [done|]. split_and!; [done..|].
    intros k t Hk Ht. rewrite Hex, Hsame; auto.
Qed.

(** One [AllowN] call as seen by its caller: denied, failed or admitted. *)
Lemma AllowN_quiet key n now s :
  0 < n <= C ->
  let K := (prefix l +:+ key)%string in
  let tat := tat_at (live s K now) now in
  exists s' res, AllowN 1 l key n (quiet now) s = (s', Some res) /\
    ((exists r, res = Ok r /\ Allowed r = true /\ tat + n * E <= now + C * E /\
        in_int64 (tat + n * E) /\ tat_is s' K now (tat + n * E) /\ same_except K now s s' /\
        Remaining r = unitsRemaining (C * E) (Sub (tat + n * E) now) E) \/
     (exists r, res = Ok r /\ Allowed r = false /\ now + C * E < tat + n * E /\
        in_int64 (tat + n * E) /\ same_from now s s' /\
        RetryAfter r = Sub (tat + n * E - C * E) now /\
        Remaining r = unitsRemaining (C * E) (Sub tat now) E) \/
     (res = Err (ErrUnrepresentable K) /\ ~ in_int64 (tat + n * E) /\ same_from now s s')).
Proof.
  intros Hn K tat. destruct (admit_quiet key n false now s Hn) as (s' & res & HA & HP).
  fold K in HP. rewrite (admit_decide_spec l Hl) in HP by done. cbv zeta in HP.
  fold tat E C in HP. unfold AllowN. rewrite HA.
  case_decide as Hd.
  2: { destruct HP as [-> ?]. do 2 eexists. split; [done|]. auto. }
  simpl in HP. destruct (0 <? Sub _ now) eqn:EW; zbool; simpl in HP.
  - destruct HP as [-> Hs]. do 2 eexists. split; [done|]. right; left.
    eexists. split; [done|]. simpl. apply (proj1 (Sub_pos _ _)) in EW. split_and!; try done. lia.
  - destruct HP as (-> & Hh & Hs). do 2 eexists. split; [done|]. left.
    eexists. split; [done|]. simpl. split_and!; try done.
    destruct (Z.lt_ge_cases now (tat + n * E - C * E)) as [Hlt|]; [|lia].
    apply (proj2 (Sub_pos _ _)) in Hlt. lia.
Qed.

(** A sequence of calls on one key, and the units admitted. *)
Definition granted (n : Z) (r : option (result Error Result)) : Z :=
  match r with Some (Ok res) => if Allowed res then n else 0 | _ => 0 end.

Fixpoint run (key : string) (calls : list (Time * Z)) (s : S) : S * Z :=
  match calls with
  | [] => (s, 0)
  | (t, n) :: calls =>
      let '(s1, r) := AllowN 1 l key n (quiet t) s in
      let '(s2, m) := run key calls s1 in
      (s2, granted n r + m)
  end.

Lemma AllowN_out_of_range key n now s :
  ~ 0 < n <= C -> exists e, AllowN 1 l key n (quiet now) s = (s, Some (Err e)).
Proof.
  intros Hn. unfold AllowN, admit_. fold C.
  destruct (n <=? 0) eqn:E1; zbool; [eauto|]. destruct (C <? n) eqn:E2; zbool; [eauto|]. lia.
Qed.

(** Once a key's arrival time is known, every unit admitted moves it, and it
    never leads the clock by more than the burst window. *)
Lemma run_from_tat key calls t0 t1 T s :
  t0 <= t1 -> StronglySorted Z.le (t0 :: calls.*1) -> Forall (fun c => c.1 <= t1) calls ->
  tat_is s (prefix l +:+ key) t0 T ->
  (run key calls s).2 = 0 \/
  Z.max T t0 + (run key calls s).2 * E <= t1 + C * E.
Proof.
  set (K := (prefix l +:+ key)%string).
  revert t0 T s. induction calls as [|[t n] calls IH]; intros t0 T s Ht01 Hsort Hall Htat.
  - left. done.
  - apply StronglySorted_inv in Hsort as [Hsort Hge]. inversion Hge as [|? ? Hle Hge']; subst.
    inversion Hall as [|? ? Hle1 Hall']; subst. simpl in *.
    pose proof (tat_is_later _ _ _ t _ Hle Htat) as Htat_t.
    destruct (decide (0 < n <= C)) as [Hn|Hn].
    2: { destruct (AllowN_out_of_range key n t s Hn) as [e ->].
         destruct (run key calls s) as [s2 m] eqn:ER. simpl.
         destruct (IH t T s Hle1 Hsort Hall' Htat_t) as [Hz|Hz]; rewrite ER in Hz; simpl in Hz;
           [left|right]; lia. }
    destruct (AllowN_quiet key n t s Hn) as (s' & res & -> & Hcases). fold K in Hcases.
    rewrite (tat_is_at _ _ _ _ Htat_t) in Hcases.
    destruct (run key calls s') as [s2 m] eqn:ER. simpl.
    destruct Hcases as [(r & -> & Ha & Hle2 & _ & Hh & _)|[(r & -> & Ha & _ & _ & Hs & _)|(-> & _ & Hs)]];
      simpl; rewrite ?Ha.
    + specialize (IH t _ s' Hle1 Hsort Hall' Hh). rewrite ER in IH. simpl in IH.
      destruct Hl. fold E in lo_emission0. right. nia.
    + specialize (IH t T s' Hle1 Hsort Hall' (tat_is_same _ _ _ _ _ Hs Htat_t)).
      rewrite ER in IH. simpl in IH. destruct IH; [left|right]; lia.
    + specialize (IH t T s' Hle1 Hsort Hall' (tat_is_same _ _ _ _ _ Hs Htat_t)).
      rewrite ER in IH. simpl in IH. destruct IH; [left|right]; lia.
Qed.

Lemma run_conforms key calls t0 t1 s :
  t0 <= t1 -> StronglySorted Z.le (t0 :: calls.*1) -> Forall (fun c => c.1 <= t1) calls ->
  (run key calls s).2 * E <= C * E + (t1 - t0).
Proof.
  set (K := (prefix l +:+ key)%string).
  revert t0 s. induction calls as [|[t n] calls IH]; intros t0 s Ht01 Hsort Hall.
  { simpl. destruct Hl. subst E C. nia. }
  apply StronglySorted_inv in Hsort as [Hsort Hge]. inversion Hge as [|? ? Hle Hge']; subst.
  inversion Hall as [|? ? Hle1 Hall']; subst. simpl in *.
  destruct (decide (0 < n <= C)) as [Hn|Hn].
  2: { destruct (AllowN_out_of_range key n t s Hn) as [e ->]. specialize (IH t s Hle1 Hsort Hall').
       destruct (run key calls s) as [s2 m] eqn:ER. simpl in *. lia. }
  destruct (AllowN_quiet key n t s Hn) as (s' & res & -> & Hcases). fold K in Hcases.
  pose proof (tat_at_ge (live s K t) t).
  destruct Hcases as [(r & -> & Ha & Hle2 & _ & Hh & _)|[(r & -> & Ha & _)|(-> & _)]].
  - pose proof (run_from_tat key calls t t1 _ s' Hle1 Hsort Hall' Hh) as HT.
    destruct (run key calls s') as [s2 m]. simpl in *. rewrite Ha. nia.
  - specialize (IH t s' Hle1 Hsort Hall'). destruct (run key calls s'). simpl in *.
    rewrite Ha. lia.
  - specialize (IH t s' Hle1 Hsort Hall'). destruct (run key calls s'). simpl in *. lia.
Qed.
End sequential.

(** ** Contended calls

    Any number of callers race on one key: the reads and the writes of their attempts
    interleave in any order, a refused write may be followed by a new attempt or not, and
    other clients may do to the store whatever does not change this key. The one thing
    asked is that the clock readings the store meets do not decrease. *)

Section contended.
Context {S : Type} `{LawfulStore S}.
Context (l : Limiter) (K : string).

(** The write a caller is about to make. *)
Record Pending := mkPending {
  p_units : Z; p_reserve : bool; p_now : Time;
  p_stored : option Z; p_newTAT : Time; p_result : Result; p_allowAt : Time
}.

(** The units an answer admits now; a reservation's are for later. *)
Definition admitted (n : Z) (reserve : bool) (answer : option (result Error (Result * Time))) : Z :=
  match answer with
  | Some (Ok (r, _)) => if Allowed r && negb reserve then n else 0
  | _ => 0
  end.

Definition answered {A} (answer : option (result Error A)) : Prop :=
  forall e, answer <> Some (Err (ErrStore e)).

(** [contended t s p t1 u]: from the clock [t], the store [s] and the pending writes [p],
    with no reading after [t1] and no failing store call, [u] units are admitted. *)
Inductive contended : Time -> S -> gmap nat Pending -> Time -> Z -> Prop :=
| con_done t s p t1 : t <= t1 -> contended t s p t1 0
| con_answer t s p t1 u n reserve now s' res :
    t <= now -> 0 < n <= capacity (limit l) ->
    admit_read l K n reserve now s = (s', ADone res) -> answered (Some res) ->
    contended now s' p t1 u -> contended t s p t1 (admitted n reserve (Some res) + u)
| con_read t s p t1 u c n reserve now s' stored newTAT r allowAt :
    t <= now -> 0 < n <= capacity (limit l) ->
    admit_read l K n reserve now s = (s', AWrite stored newTAT r allowAt) ->
    contended now s' (<[c := mkPending n reserve now stored newTAT r allowAt]> p) t1 u ->
    contended t s p t1 u
| con_write t s p t1 u c q s' answer :
    p !! c = Some q -> t <= p_now q ->
    admit_write K (p_now q) (p_stored q) (p_newTAT q) (p_result q) (p_allowAt q) s = (s', answer) ->
    answered answer ->
    contended (p_now q) s' (delete c p) t1 u ->
    contended t s p t1 (admitted (p_units q) (p_reserve q) answer + u)
| con_others t s p t1 u now s' :
    t <= now -> (forall t', now <= t' -> live s' K t' = live s K t') ->
    contended now s' p t1 u -> contended t s p t1 u.

Context (Hl : limit_ok (limit l)).
Let E := emission (limit l).
Let C := capacity (limit l).

(** A pending write is the one decided for the value that was read. *)
Definition pending_ok (p : gmap nat Pending) : Prop :=
  map_Forall (fun _ q => 0 < p_units q <= C /\
    admit_decide l K (p_units q) (p_reserve q) (p_now q) (p_stored q)
      = DWrite (p_newTAT q) (p_result q) (p_allowAt q)) p.

Lemma pending_ok_insert c n reserve now stored T r allowAt p :
  pending_ok p -> 0 < n <= C -> admit_decide l K n reserve now stored = DWrite T r allowAt ->
  pending_ok (<[c := mkPending n reserve now stored T r allowAt]> p).
Proof. intros Hp Hn HD. by apply map_Forall_insert_2. Qed.

Lemma admit_read_effect n reserve now s s' a :
  admit_read l K n reserve now s = (s', a) ->
  match a with
  | ADone res => answered (Some res) -> admitted n reserve (Some res) = 0 /\ same_from now s s'
  | AWrite stored newTAT r allowAt =>
      admit_decide l K n reserve now stored = DWrite newTAT r allowAt /\ same_from now s s'
  end.
Proof.
  unfold admit_read. destruct (Get s K now) as [s1 [o|e]] eqn:EG.
  2: { intros [= <- <-] Ha. by destruct (Ha e). }
  destruct (Get_law _ _ _ _ _ EG) as [_ Hs].
  destruct (admit_decide l K n reserve now o) as [e|r|T r a'] eqn:ED; intros [= <- <-]; [done| |done].
  intros _. split; [|done]. revert ED. unfold admit_decide. cbv zeta.
  repeat case_match; try done; by intros [= <-].
Qed.

(** A write that went through stored the decided arrival time over the live value. *)
Lemma admit_write_effect q s s' answer :
  0 < p_units q <= C ->
  admit_decide l K (p_units q) (p_reserve q) (p_now q) (p_stored q)
    = DWrite (p_newTAT q) (p_result q) (p_allowAt q) ->
  admit_write K (p_now q) (p_stored q) (p_newTAT q) (p_result q) (p_allowAt q) s = (s', answer) ->
  answered answer ->
  let u := admitted (p_units q) (p_reserve q) answer in
  (u = 0 /\ same_from (p_now q) s s') \/
  exists T, T = tat_at (live s K (p_now q)) (p_now q) + p_units q * E /\ tat_is s' K (p_now q) T /\
    ((u = 0 /\ p_reserve q = true) \/ u = p_units q /\ T <= p_now q + C * E).
Proof.
  intros Hn HD HW Ha. unfold admit_write in HW.
  rewrite (admit_decide_write_repr _ _ _ _ _ _ _ _ _ HD) in HW.
  assert (Hlive : answer = None /\ same_from (p_now q) s s' \/
    answer = Some (Ok (p_result q, p_allowAt q)) /\ live s K (p_now q) = p_stored q /\
    holds_until s' K (p_now q) (p_newTAT q) (p_newTAT q)).
  { destruct (p_stored q) as [v|].
    - destruct (CompareAndSwap _ _ _ _ _ _) as [s3 [[]|e]] eqn:EC; injection HW as <- <-;
        [..|by destruct (Ha e)]; destruct (CompareAndSwap_law _ _ _ _ _ _ _ _ EC) as (Hb & Hok & Hno);
        [right|left]; naive_solver.
    - destruct (SetIfAbsent _ _ _ _ _) as [s3 [[]|e]] eqn:EC; injection HW as <- <-;
        [..|by destruct (Ha e)]; destruct (SetIfAbsent_law _ _ _ _ _ _ _ EC) as (Hb & Hok & Hno);
        [right|left]; naive_solver. }
  destruct Hlive as [[-> Hs]|(-> & Hlive & Hh)]; [by left|right].
  rewrite <-Hlive in HD. rewrite (admit_decide_spec l Hl) in HD by done. cbv zeta in HD. fold E C in HD.
  exists (p_newTAT q). case_decide as Hin; [|done]. simpl.
  destruct (p_reserve q) eqn:Er; simpl in HD.
  - destruct (horizon l <? _); [done|]. injection HD as HT HR _. rewrite <-HR, HT. split; [done|].
    split; [done|]. by left.
  - destruct (0 <? Sub _ _) eqn:EW; [done|]. injection HD as HT HR _. rewrite <-HR, HT. simpl.
    split; [done|]. split; [done|]. right. split; [done|]. zbool.
    rewrite <-HT.
    destruct (Z.lt_ge_cases (p_now q) (tat_at (live s K (p_now q)) (p_now q) + p_units q * E - C * E))
      as [Hlt|]; [|lia]. apply (proj2 (Sub_pos _ _)) in Hlt. lia.
Qed.

Lemma tat_is_unchanged s s' now T :
  (forall t', now <= t' -> live s' K t' = live s K t') -> tat_is s K now T -> tat_is s' K now T.
Proof. intros Hs Ht t Hlt. rewrite Hs by done. by apply Ht. Qed.

Lemma same_at s s' now : same_from now s s' -> forall t', now <= t' -> live s' K t' = live s K t'.
Proof. intros Hs t' Ht'. by apply Hs. Qed.

(** Once the key's arrival time is known, every unit admitted moves it. *)
Lemma contended_from_tat t s p t1 u T :
  contended t s p t1 u -> pending_ok p -> tat_is s K t T ->
  t <= t1 /\ 0 <= u /\ (u = 0 \/ Z.max T t + u * E <= t1 + C * E).
Proof.
  destruct Hl as [_ He _ Hc _]. fold E in He; fold C in Hc.
  intros Hrun. revert T. induction Hrun as
    [t s p t1 Ht|t s p t1 u n reserve now s' res Ht Hn Hr Ha _ IH
    |t s p t1 u c n reserve now s' stored nT r aA Ht Hn Hr _ IH
    |t s p t1 u c q s' answer Hq Ht Hw Ha _ IH|t s p t1 u now s' Ht Hs _ IH]; intros T Hp HT.
  - split; [done|]. split; [done|by left].
  - destruct (admit_read_effect _ _ _ _ _ _ Hr Ha) as [-> Hs].
    destruct (IH T Hp) as (? & ? & ?); [|lia].
    apply (tat_is_unchanged s); [by apply same_at|by eapply tat_is_later].
  - destruct (admit_read_effect _ _ _ _ _ _ Hr) as [HD Hs].
    destruct (IH T) as (? & ? & ?); [by apply pending_ok_insert| |lia].
    apply (tat_is_unchanged s); [by apply same_at|by eapply tat_is_later].
  - destruct (Hp c q Hq) as [Hn HD]. pose proof (map_Forall_delete _ _ c Hp) as Hp'.
    pose proof (tat_is_later _ _ _ _ _ Ht HT) as HT'.
    destruct (admit_write_effect q s s' answer Hn HD Hw Ha) as [[-> Hs]|(T' & -> & HT2 & Hu)].
    + destruct (IH T Hp') as (? & ? & ?); [|lia].
      apply (tat_is_unchanged s); [by apply same_at|done].
    + rewrite (tat_is_at _ _ _ _ HT') in *. destruct (IH _ Hp' HT2) as (? & ? & ?).
      destruct Hu as [[-> _]|[-> ?]]; nia.
  - destruct (IH T Hp) as (? & ? & ?); [|lia].
    apply (tat_is_unchanged s); [done|by eapply tat_is_later].
Qed.

Lemma contended_conforms t s p t1 u :
  contended t s p t1 u -> pending_ok p -> t <= t1 /\ u * E <= C * E + (t1 - t).
Proof.
  pose proof Hl as [_ He _ Hc _]. fold E in He; fold C in Hc.
  intros Hrun. induction Hrun as
    [t s p t1 Ht|t s p t1 u n reserve now s' res Ht Hn Hr Ha _ IH
    |t s p t1 u c n reserve now s' stored nT r aA Ht Hn Hr _ IH
    |t s p t1 u c q s' answer Hq Ht Hw Ha Hrun IH|t s p t1 u now s' Ht Hs _ IH]; intros Hp.
  - split; [done|]. nia.
  - destruct (admit_read_effect _ _ _ _ _ _ Hr Ha) as [-> _]. destruct (IH Hp). lia.
  - destruct (admit_read_effect _ _ _ _ _ _ Hr) as [HD _].
    destruct (IH (pending_ok_insert c _ _ _ _ _ _ _ p Hp Hn HD)). lia.
  - destruct (Hp c q Hq) as [Hn HD]. pose proof (map_Forall_delete _ _ c Hp) as Hp'.
    destruct (admit_write_effect q s s' answer Hn HD Hw Ha) as [[-> _]|(T & HTeq & HT & Hu)].
    + destruct (IH Hp'). lia.
    + destruct (contended_from_tat _ _ _ _ _ T Hrun Hp' HT) as (? & ? & Hz).
      pose proof (tat_at_ge (live s K (p_now q)) (p_now q)).
      destruct Hu as [[-> _]|[-> ?]]; split; try lia; destruct Hz as [->|Hz]; nia.
  - destruct (IH Hp). lia.
Qed.
End contended.

(** ** Properties of the limiter *)

(** Arithmetic of a validated limit. [Validate] accepts a limit only if the
    emission interval is the positive ceiling of period over rate and every product
    [admit_] computes, the burst window and the cost of any permitted [n], is exact
    in 64 bits; and its "interval rounds to zero" error is never returned. *)
Theorem validated_limit_never_overflows l n :
  limit_fields l ->
  Validate l <> Some ErrEmission /\
  (Validate l = None -> 0 < n <= capacity l ->
    emission l = (Period l + Rate l - 1) / Rate l /\
    mul64 (capacity l) (emission l) = capacity l * emission l /\
    mul64 n (emission l) = n * emission l /\
    0 < mul64 n (emission l) <= mul64 (capacity l) (emission l) /\
    mul64 (capacity l) (emission l) <= int64_max).
Proof.
  intros Hf. split; [by apply Validate_no_ErrEmission|]. intros Hv Hn.
  destruct (Validate_ok l Hf Hv) as [Hr He Heq Hc Hw].
  rewrite !mul64_id by int_nia. split_and!; try done; nia.
Qed.

(** C7: rate conformance, the safety promise of GCRA. For a validated limit and any
    starting state of the store, the units [AllowN] admits on a key between [t0] and [t1]
    are at most the burst capacity plus one per emission interval elapsed: over calls made
    one after the other, and over any interleaving of the store reads and writes of any
    number of concurrent [AllowN] and [ReserveN] callers on the key, lost races and
    abandoned attempts included, among other clients that leave the key alone. No store
    call fails in these runs, and the clock readings the store meets do not decrease: a
    caller that stalls between its clock reading and its write while later readings are
    already in use is not covered, and can exceed the bound. *)
Theorem rate_conformance {S : Type} `{LawfulStore S} l :
  limit_fields (limit l) -> Validate (limit l) = None ->
  (forall K t0 t1 s u, contended l K t0 s ∅ t1 u ->
     u <= capacity (limit l) + (t1 - t0) / emission (limit l)) /\
  (ReliableStore S -> forall key calls t0 t1 s,
     t0 <= t1 -> StronglySorted Z.le (t0 :: calls.*1) -> Forall (fun c => c.1 <= t1) calls ->
     (run l key calls s).2 <= capacity (limit l) + (t1 - t0) / emission (limit l)).
Proof.
  intros Hf Hv. pose proof (Validate_ok _ Hf Hv) as Hok.
  assert (Hdiv : forall u d, u * emission (limit l) <= capacity (limit l) * emission (limit l) + d ->
    u <= capacity (limit l) + d / emission (limit l)).
  { intros u d Hu. destruct Hok as [_ He _ _ _].
    assert (u - capacity (limit l) <= d / emission (limit l)); [|lia].
    apply Z.div_le_lower_bound; lia. }
  split.
  - intros K t0 t1 s u Hrun. apply Hdiv.
    apply (contended_conforms l K Hok t0 s ∅ t1 u Hrun), map_Forall_empty.
  - intros HR key calls t0 t1 s Ht Hs Ha. apply Hdiv. by apply run_conforms.
Qed.

(** Retry timing is exact. When [AllowN] refuses at [now], asking again for
    the same [n] with no other call in between is refused before [now + RetryAfter]
    and granted from that instant on. *)
Theorem retry_after_is_exact {S : Type} `{LawfulStore S} `{!ReliableStore S}
    l key n now t T s s' r :
  limit_fields (limit l) -> Validate (limit l) = None ->
  0 <= now <= t -> t + capacity (limit l) * emission (limit l) <= int64_max ->
  tat_is s (prefix l +:+ key) now T ->
  AllowN 1 l key n (quiet now) s = (s', Some (Ok r)) -> Allowed r = false ->
  exists s'' r', AllowN 1 l key n (quiet t) s' = (s'', Some (Ok r')) /\
    (Allowed r' = true <-> now + RetryAfter r <= t) /\ 0 < RetryAfter r.
Proof.
  intros Hf Hv Hnow Hfit HT HA Hr. pose proof (Validate_ok _ Hf Hv) as Hok.
  destruct (decide (0 < n <= capacity (limit l))) as [Hn|Hn].
  2: { destruct (AllowN_out_of_range l key n now s Hn) as [e He]. congruence. }
  destruct (AllowN_quiet l Hok key n now s Hn) as (s1 & res & HA1 & Hcases).
  rewrite HA in HA1. simplify_eq. rewrite (tat_is_at _ _ _ _ HT) in Hcases.
  destruct Hcases as [(? & ? & ? & _)|[(r0 & ? & _ & Hlt & Hin & Hs & HRA & _)|(? & _)]];
    [simplify_eq; congruence| |done]. simplify_eq.
  pose proof (tat_is_later _ _ now t T ltac:(lia) (tat_is_same _ _ _ _ _ Hs HT)) as HT'.
  destruct (AllowN_quiet l Hok key n t s1 Hn) as (s2 & res2 & HA2 & Hcases2).
  rewrite (tat_is_at _ _ _ _ HT') in Hcases2.
  destruct Hok as [_ He _ Hc Hw].
  assert (HnE : 0 < n * emission (limit l) <= capacity (limit l) * emission (limit l)) by nia.
  set (cost := n * emission (limit l)) in *.
  set (burst := capacity (limit l) * emission (limit l)) in *. clearbody cost burst.
  rewrite HRA, Sub_exact by int_lia.
  destruct Hcases2 as [(r2 & -> & Ha & Hle & _)|[(r2 & -> & Ha & Hlt2 & _)|(_ & Hno & _)]].
  - do 2 eexists. split; [done|]. rewrite Ha. split; [|lia]. split; [intros _; lia|done].
  - do 2 eexists. split; [done|]. rewrite Ha. split; [|lia]. split; [done|intros; exfalso; lia].
  - exfalso. apply Hno. int_lia.
Qed.

(** The remaining count is exact. Whatever [AllowN] answers at [now], asking
    at once for [k] more units is granted exactly when [k] is at most the
    [Remaining] it reported. *)
Theorem remaining_is_exact {S : Type} `{LawfulStore S} `{!ReliableStore S}
    l key n k now T s s' r :
  limit_fields (limit l) -> Validate (limit l) = None ->
  0 <= now -> T <= int64_max ->
  now + 2 * (capacity (limit l) * emission (limit l)) <= int64_max ->
  tat_is s (prefix l +:+ key) now T ->
  T + capacity (limit l) * emission (limit l) <= int64_max ->
  AllowN 1 l key n (quiet now) s = (s', Some (Ok r)) -> 0 < k <= capacity (limit l) ->
  exists s'' r', AllowN 1 l key k (quiet now) s' = (s'', Some (Ok r')) /\
    (Allowed r' = true <-> k <= Remaining r).
Proof.
  intros Hf Hv Hnow HTmax Hfit HT HTfit HA Hk. pose proof (Validate_ok _ Hf Hv) as Hok.
  destruct (decide (0 < n <= capacity (limit l))) as [Hn|Hn].
  2: { destruct (AllowN_out_of_range l key n now s Hn) as [e He]. congruence. }
  destruct (AllowN_quiet l Hok key n now s Hn) as (s1 & res & HA1 & Hcases).
  rewrite HA in HA1. simplify_eq. rewrite (tat_is_at _ _ _ _ HT) in Hcases.
  destruct (AllowN_quiet l Hok key k now s1 Hk) as (s2 & res2 & HA2 & Hcases2).
  pose proof Hok as [_ He _ Hc Hw].
  assert (Hrem : exists tat', tat_at (live s1 (prefix l +:+ key) now) now = tat' /\
            now <= tat' /\ tat' + k * emission (limit l) <= int64_max /\
            Remaining r = unitsRemaining (capacity (limit l) * emission (limit l))
                            (Sub tat' now) (emission (limit l))).
  { destruct Hcases as [(r0 & ? & _ & Hle & _ & HT' & _ & HRem)
                       |[(r0 & ? & _ & Hlt & _ & Hs & _ & HRem)|(? & _)]];
      simplify_eq; rewrite HRem.
    - rewrite (tat_is_at _ _ _ _ HT'). eexists. split; [done|].
      rewrite Z.max_l by nia. split_and!; try done; nia.
    - rewrite (tat_is_at _ _ _ _ (tat_is_same _ _ _ _ _ Hs HT)).
      eexists. split; [done|]. split_and!; try done; nia. }
  destruct Hrem as (tat' & Heq & Hge & Hmax & ->). rewrite Heq in Hcases2.
  assert (HkE : 0 < k * emission (limit l)) by nia.
  assert (Hsub : Sub tat' now = tat' - now) by (apply Sub_exact; int_nia).
  pose proof (unitsRemaining_spec l Hok (Sub tat' now) k ltac:(rewrite Hsub; int_lia)
                ltac:(lia)) as Hu. rewrite Hsub in *.
  destruct Hcases2 as [(r2 & -> & Ha & Hle & _)|[(r2 & -> & Ha & Hlt2 & _)|(_ & Hno & _)]].
  - do 2 eexists. split; [done|]. rewrite Ha, Hu. split; [intros _; lia|done].
  - do 2 eexists. split; [done|]. rewrite Ha, Hu. split; [done|intros; exfalso; lia].
  - exfalso. apply Hno. int_lia.
Qed.

(** ** Namespaces *)

Lemma New_prefix lim opts l :
  New lim false opts = Ok l ->
  nsSet l = true -> exists ns, prefix l = (ns +:+ ":")%string /\
    string_forall ns_byte ns = true.
Proof.
  unfold New. destruct (Validate lim); [done|].
  set (l0 := fold_left apply_opt opts _). destruct (clockNil l0); [done|].
  destruct (horizon l0 <=? 0); [done|]. destruct (nsSet l0) eqn:En.
  - unfold validNamespace. case_bool_decide; [done|].
    destruct (string_forall ns_byte (prefix l0)) eqn:Ef; [|done].
    intros. simplify_eq/=. eauto.
  - intros. simplify_eq. congruence.
Qed.

(** Two limiters built with namespaces share a store without ever sharing a
    key: equal full keys mean equal namespaces and equal caller keys. *)
Theorem namespaces_do_not_collide lim1 lim2 opts1 opts2 l1 l2 k1 k2 :
  New lim1 false opts1 = Ok l1 -> New lim2 false opts2 = Ok l2 ->
  nsSet l1 = true -> nsSet l2 = true ->
  (prefix l1 +:+ k1 = prefix l2 +:+ k2)%string -> prefix l1 = prefix l2 /\ k1 = k2.
Proof.
  intros H1 H2 N1 N2 E.
  destruct (New_prefix _ _ _ H1 N1) as (n1 & P1 & F1).
  destruct (New_prefix _ _ _ H2 N2) as (n2 & P2 & F2).
  rewrite P1, P2, !string_app_assoc in E. rewrite P1, P2.
  destruct (namespaced_inj ns_byte ":"%char n1 n2 k1 k2 eq_refl F1 F2 E) as [-> ->]. done.
Qed.
