(* ===== verification/RateLimitMemory.v ===== *)
(** The in-process rate-limit store: [ratelimit/store_memory.go].

    The store is a map from keys to a value and its expiry. It is shown to obey
    the contract of [RateLimit.LawfulStore] and never to fail, so the properties
    of the limiter hold of it; the witnesses below evaluate them on it. *)

From S2P Require Import Prelude.
From S2P Require Import GoTime.
From S2P Require Import RateLimit.

Local Open Scope Z_scope.

Record memEntry := mkEntry { value : Z; expiresAt : Time }.

Abbreviation MemoryStore := (gmap string memEntry).

Definition NewMemoryStore : MemoryStore := ∅.

Definition mem_Get (s : MemoryStore) (key : string) (now : Time)
    : MemoryStore * result string (option Z) :=
  match s !! key with
  | None => (s, Ok None)
  | Some e =>
      if negb (After (expiresAt e) now) then (delete key s, Ok None)
      else (s, Ok (Some (value e)))
  end.

Definition mem_SetIfAbsent (s : MemoryStore) (key : string) (v : Z) (now exp : Time)
    : MemoryStore * result string bool :=
  let insert := (<[key := mkEntry v exp]> s, Ok true) in
  match s !! key with
  | Some e => if After (expiresAt e) now then (s, Ok false) else insert
  | None => insert
  end.

Definition mem_CompareAndSwap (s : MemoryStore) (key : string) (old v : Z) (now exp : Time)
    : MemoryStore * result string bool :=
  match s !! key with
  | None => (s, Ok false)
  | Some e =>
      if negb (After (expiresAt e) now) || negb (value e =? old) then (s, Ok false)
      else (<[key := mkEntry v exp]> s, Ok true)
  end.

(** [Sweep] deletes while ranging over the map; each entry's fate depends on that
    entry alone. *)
Definition Sweep (s : MemoryStore) (now : Time) : MemoryStore * Z :=
  let expired := filter (fun kv : string * memEntry => After (expiresAt kv.2) now = false) s in
  (filter (fun kv : string * memEntry => After (expiresAt kv.2) now = true) s,
   Z.of_nat (size expired)).

Definition mem_live (s : MemoryStore) (key : string) (t : Time) : option Z :=
  match s !! key with
  | Some e => if After (expiresAt e) t then Some (value e) else None
  | None => None
  end.

#[export] Instance memory_store : Store MemoryStore := {
  Get := mem_Get;
  SetIfAbsent := mem_SetIfAbsent;
  CompareAndSwap := mem_CompareAndSwap;
  live := mem_live
}.

Lemma mem_live_insert (s : MemoryStore) key now v exp :
  holds_until (<[key := mkEntry v exp]> s : MemoryStore) key now v exp /\
  same_except key now s (<[key := mkEntry v exp]> s : MemoryStore).
Proof.
  split.
  - intros t Ht. cbn. unfold mem_live. by rewrite lookup_insert_eq.
  - intros k t Hk Ht. cbn. unfold mem_live. by rewrite lookup_insert_ne.
Qed.

(** Dropping an entry that is expired at [now] cannot be observed from [now] on. *)
Lemma mem_live_delete (s : MemoryStore) key e now :
  s !! key = Some e -> expiresAt e <= now -> same_from now s (delete key s : MemoryStore).
Proof.
  intros He Hle k t Ht. cbn. unfold mem_live. rewrite lookup_delete.
  case_decide as Hk; [|done]. subst. rewrite He.
  case_match; tbool; [lia|done].
Qed.

(** A conditional write either changed nothing or wrote the entry. *)
Ltac refused_or_written :=
  split_and!; first [split; congruence | congruence | intros _; assumption | done].

#[export] Instance memory_lawful : LawfulStore MemoryStore.
Proof.
  constructor; cbn.
  - intros s key now s' o. unfold mem_Get, mem_live.
    destruct (s !! key) as [e|] eqn:Ek; [|by intros; simplify_eq].
    destruct (After (expiresAt e) now) eqn:EA; intros; simplify_eq/=; [done|].
    split; [done|]. apply (mem_live_delete _ _ e); [done|]. by tbool.
  - intros s key v now exp s' b. unfold mem_SetIfAbsent, mem_live.
    pose proof (mem_live_insert s key now v exp).
    destruct (s !! key) as [e|] eqn:Ek; [destruct (After (expiresAt e) now)|];
      intros; simplify_eq; refused_or_written.
  - intros s key old v now exp s' b. unfold mem_CompareAndSwap, mem_live.
    pose proof (mem_live_insert s key now v exp).
    destruct (s !! key) as [e|] eqn:Ek; [destruct (After (expiresAt e) now)|];
      simpl; [destruct (value e =? old) eqn:Ev; zbool|..];
      intros; simplify_eq/=; refused_or_written.
Qed.

#[export] Instance memory_reliable : ReliableStore MemoryStore.
Proof.
  constructor; cbn.
  - intros. unfold mem_Get. repeat case_match; eauto.
  - intros. unfold mem_SetIfAbsent. repeat case_match; eauto.
  - intros. unfold mem_CompareAndSwap. repeat case_match; eauto.
Qed.

(** [Sweep] is invisible to the limiter: from the sweep instant on every read
    answers as before, what it removes is counted exactly, and no expired entry is
    left behind. *)
Theorem sweep_is_invisible (s : MemoryStore) now :
  same_from now s (Sweep s now).1 /\
  Z.of_nat (size s) = Z.of_nat (size (Sweep s now).1) + (Sweep s now).2 /\
  map_Forall (fun _ e => now < expiresAt e) (Sweep s now).1.
Proof.
  unfold Sweep. simpl. split_and!.
  - intros k t Ht. cbn. unfold mem_live. rewrite map_lookup_filter.
    destruct (s !! k) as [e|]; simpl; [|done].
    unfold guard. case_decide as HA; simpl; [done|].
    apply not_true_is_false in HA. case_match; tbool; [lia|done].
  - rewrite <-Nat2Z.inj_add. f_equal.
    rewrite <-(map_filter_union_complement
      (fun kv : string * memEntry => After (expiresAt kv.2) now = true) s) at 1.
    rewrite map_size_disj_union by apply map_disjoint_filter_complement. f_equal. f_equal.
    apply map_filter_ext. intros k e _. simpl. by rewrite not_true_iff_false.
  - intros k e [_ HA]%map_lookup_filter_Some. simpl in HA. by tbool.
Qed.

(** ** The limiter on the in-process store *)

(** Ten a second with bursts of three, on an empty store, at an instant of 2024. *)
Definition demo_limit : Limit := WithBurst (PerSecond 10) 3.
Definition demo_limiter : Limiter := mkLimiter demo_limit false "api:" true (24 * Hour).
Definition demo_now : Time := 1700000000 * Second.
Definition demo_full : MemoryStore :=
  (AllowN 1 demo_limiter "u" 3 (quiet demo_now) NewMemoryStore).1.

Example demo_denied :
  exists r, (AllowN 1 demo_limiter "u" 1 (quiet demo_now) demo_full).2 = Some (Ok r) /\
    Allowed r = false /\ Remaining r = 0 /\ RetryAfter r = 100 * Millisecond.
Proof. eexists. vm_compute. split_and!; reflexivity. Qed.

Lemma demo_fields : limit_fields demo_limit.
Proof. unfold limit_fields, in_int64. vm_compute. split_and!; discriminate. Qed.

Lemma demo_tat : tat_is demo_full "api:u" demo_now (demo_now + 300 * Millisecond).
Proof. intros t Ht. reflexivity. Qed.

(** Another client that takes a unit of the same key between our first read and
    our first write. *)
Definition demo_race : Env MemoryStore :=
  mkEnv (fun _ => demo_now) (fun _ => None)
    (fun i s => match i with
                | O => (AllowN 1 demo_limiter "u" 1 (quiet demo_now) s).1
                | _ => s
                end).

Example demo_race_retries :
  (admit_ 1 demo_limiter "u" 1 false demo_race NewMemoryStore).2 = None /\
  exists r a, (admit_ 2 demo_limiter "u" 1 false demo_race NewMemoryStore).2 = Some (Ok (r, a)) /\
    Allowed r = true /\ Remaining r = 1.
Proof. split; [reflexivity|]. do 2 eexists. vm_compute. split_and!; reflexivity. Qed.

Lemma admission_is_atomic_witness :
  exists s' r a, admit_ 2 demo_limiter "u" 1 false demo_race NewMemoryStore
                 = (s', Some (Ok (r, a))) /\
  exists j sj,
    lost demo_limiter "api:u" 1 false demo_race NewMemoryStore j sj /\
    ctxErr demo_race j = None /\
    atomic_step demo_limiter "api:u" 1 false (clock demo_race j) sj
      (interfere demo_race j (fst (Get sj "api:u" (clock demo_race j)))) s' r a.
Proof.
  do 3 eexists. split; [vm_compute; reflexivity|].
  apply (admission_is_atomic 2 demo_limiter "u" 1 false demo_race NewMemoryStore).
  vm_compute. reflexivity.
Defined.

Lemma admit_retry_terminates_witness :
  exists s' res, admit_ 2 demo_limiter "u" 1 false demo_race NewMemoryStore = (s', Some res).
Proof.
  apply (admit_retry_terminates 1 2 demo_limiter "u" 1 false demo_race NewMemoryStore); [lia|].
  intros sj _. cbn [interfere demo_race]. destruct (Get _ _ _) as [s1 [o|e]] eqn:EG.
  - apply (Get_law _ _ _ _ _ EG). lia.
  - destruct (Get_reliable sj (prefix demo_limiter +:+ "u") (clock demo_race 1)) as [o Ho].
    rewrite EG in Ho. discriminate.
Defined.

Lemma validated_limit_never_overflows_witness :
  Validate demo_limit <> Some ErrEmission /\
  (Validate demo_limit = None -> 0 < 2 <= capacity demo_limit ->
    emission demo_limit = (Period demo_limit + Rate demo_limit - 1) / Rate demo_limit /\
    mul64 (capacity demo_limit) (emission demo_limit)
      = capacity demo_limit * emission demo_limit /\
    mul64 2 (emission demo_limit) = 2 * emission demo_limit /\
    0 < mul64 2 (emission demo_limit) <= mul64 (capacity demo_limit) (emission demo_limit) /\
    mul64 (capacity demo_limit) (emission demo_limit) <= int64_max).
Proof. apply (validated_limit_never_overflows demo_limit 2), demo_fields. Defined.

Definition demo_calls : list (Time * Z) :=
  [(demo_now, 3); (demo_now, 1); (demo_now + 150 * Millisecond, 1); (demo_now + 200 * Millisecond, 1)].

Example demo_run : (run demo_limiter "u" demo_calls NewMemoryStore).2 = 5.
Proof. vm_compute. reflexivity. Qed.

(** Two callers that each want two of the three units: both read the empty store, the
    first write wins, the second is refused, and the retry is denied. *)
Definition two_units (a : Attempt) : Pending :=
  match a with
  | AWrite stored newTAT r allowAt => mkPending 2 false demo_now stored newTAT r allowAt
  | ADone _ => mkPending 0 false 0 None 0 (mkResult false 0 0 0 0) 0
  end.
Definition demo_read (s : MemoryStore) := admit_read demo_limiter "api:u" 2 false demo_now s.
Definition demo_write (q : Pending) (s : MemoryStore) :=
  admit_write "api:u" (p_now q) (p_stored q) (p_newTAT q) (p_result q) (p_allowAt q) s.
Definition demo_pending : Pending := two_units (demo_read NewMemoryStore).2.

Lemma demo_contended : contended demo_limiter "api:u" demo_now NewMemoryStore ∅ demo_now 2.
Proof.
  eapply (con_read _ _ _ _ _ _ _ 0 2 false demo_now); [done|by split|vm_compute; reflexivity|].
  eapply (con_read _ _ _ _ _ _ _ 1 2 false demo_now); [done|by split|vm_compute; reflexivity|].
  refine (con_write _ _ _ _ _ _ 0 0 demo_pending (demo_write demo_pending NewMemoryStore).1
    (demo_write demo_pending NewMemoryStore).2 _ _ _ _ _); [by vm_compute|done|by vm_compute|by vm_compute|].
  refine (con_write _ _ _ _ _ _ 0 1 demo_pending (demo_write demo_pending NewMemoryStore).1
    None _ _ _ _ _); [by vm_compute|done|by vm_compute|done|].
  set (s := (demo_write demo_pending NewMemoryStore).1).
  refine (con_answer _ _ _ _ _ _ 0 2 false demo_now (demo_read s).1
    (match (demo_read s).2 with ADone r => r | _ => Err ErrCount end) _ _ _ _ _);
    [done|by split|by vm_compute|by vm_compute|].
  by apply con_done.
Qed.

Lemma rate_conformance_witness :
  2 <= capacity demo_limit + (demo_now - demo_now) / emission demo_limit /\
  (run demo_limiter "u" demo_calls NewMemoryStore).2
  <= capacity demo_limit + (demo_now + 200 * Millisecond - demo_now) / emission demo_limit.
Proof.
  destruct (rate_conformance (S := MemoryStore) demo_limiter) as [Hcon Hseq]; [apply demo_fields|reflexivity|].
  split; [exact (Hcon "api:u"%string demo_now demo_now NewMemoryStore 2 demo_contended)|].
  apply (Hseq _ "u"%string demo_calls demo_now).
  - vm_compute. discriminate.
  - repeat constructor; vm_compute; discriminate.
  - repeat constructor; vm_compute; discriminate.
Defined.

(** A caller that stalls between its clock reading and its write. With one unit per 100ms
    and no burst, it reads the clock at the start and finds the key absent; a second caller
    is admitted at once, a third 100ms later; 200ms in, a fourth caller's read drops the
    expired entry, and now the first caller's write, still at its old reading, goes
    through, and the fourth caller's after it: four units in 200ms, one over the bound. *)
Definition one_limiter : Limiter := mkLimiter (WithBurst (PerSecond 10) 1) false "" false Hour.
Definition one_read (now : Time) (s : MemoryStore) := admit_read one_limiter "u" 1 false now s.
Definition one_write (now : Time) (a : Attempt) (s : MemoryStore)
    : MemoryStore * option (result Error (Result * Time)) :=
  match a with
  | AWrite stored newTAT r allowAt => admit_write "u" now stored newTAT r allowAt s
  | ADone res => (s, Some res)
  end.

Lemma stale_reading_exceeds_the_bound :
  let at_ (ms : Z) := demo_now + ms * Millisecond in
  let '(s, stalled) := one_read (at_ 0) NewMemoryStore in
  let '(s, second) := one_read (at_ 0) s in
  let '(s, r2) := one_write (at_ 0) second s in
  let '(s, third) := one_read (at_ 100) s in
  let '(s, r3) := one_write (at_ 100) third s in
  let '(s, fourth) := one_read (at_ 200) s in
  let '(s, r1) := one_write (at_ 0) stalled s in
  let '(s, r4) := one_write (at_ 200) fourth s in
  admitted 1 false r1 + admitted 1 false r2 + admitted 1 false r3 + admitted 1 false r4
  > capacity (limit one_limiter) + (at_ 200 - at_ 0) / emission (limit one_limiter).
Proof. vm_compute. reflexivity. Qed.

Lemma retry_after_is_exact_witness :
  exists s' r, AllowN 1 demo_limiter "u" 1 (quiet demo_now) demo_full = (s', Some (Ok r)) /\
  exists s'' r', AllowN 1 demo_limiter "u" 1 (quiet (demo_now + 99 * Millisecond)) s'
                 = (s'', Some (Ok r')) /\
    (Allowed r' = true <-> demo_now + RetryAfter r <= demo_now + 99 * Millisecond) /\
    0 < RetryAfter r.
Proof.
  do 2 eexists. split; [vm_compute; reflexivity|].
  eapply (retry_after_is_exact demo_limiter "u" 1 demo_now (demo_now + 99 * Millisecond)
            (demo_now + 300 * Millisecond) demo_full);
    [apply demo_fields|reflexivity|vm_compute; split; discriminate|vm_compute; discriminate
    |apply demo_tat|vm_compute; reflexivity|reflexivity].
Defined.

Lemma remaining_is_exact_witness :
  exists s' r, AllowN 1 demo_limiter "u" 1 (quiet demo_now) demo_full = (s', Some (Ok r)) /\
  exists s'' r', AllowN 1 demo_limiter "u" 2 (quiet demo_now) s' = (s'', Some (Ok r')) /\
    (Allowed r' = true <-> 2 <= Remaining r).
Proof.
  do 2 eexists. split; [vm_compute; reflexivity|].
  eapply (remaining_is_exact demo_limiter "u" 1 2 demo_now (demo_now + 300 * Millisecond) demo_full);
    [apply demo_fields|reflexivity|vm_compute; discriminate..|apply demo_tat
    |vm_compute; discriminate|vm_compute; reflexivity|vm_compute; split; congruence].
Defined.

Lemma namespaces_do_not_collide_witness :
  exists l1 l2, New demo_limit false [WithNamespace "api"] = Ok l1 /\
    New demo_limit false [WithNamespace "api"] = Ok l2 /\
    prefix l1 = prefix l2 /\ "u"%string = "u"%string.
Proof.
  do 2 eexists. split; [reflexivity|]. split; [reflexivity|].
  eapply (namespaces_do_not_collide demo_limit demo_limit [WithNamespace "api"]
            [WithNamespace "api"]); reflexivity.
Defined.
