(* ===== verification/JobTypes.v ===== *)
(** The data of the background-job engine: [jobs/jobs.go] (states, policies,
    sentinel errors, identifiers) and the rows of [jobs/store.go]. *)

From S2P Require Import Prelude.
From S2P Require Import GoTime.

Local Open Scope Z_scope.

Inductive State :=
| StateAvailable
| StatePending
| StateRunning
| StateSucceeded
| StateFailed
| StateCancelled
| StateDiscarded.

#[export] Instance State_eq_dec : EqDecision State.
Proof. solve_decision. Defined.

#[export] Instance State_countable : Countable State.
Proof.
  refine {|
    encode s := match s with
      | StateAvailable => 1 | StatePending => 2 | StateRunning => 3 | StateSucceeded => 4
      | StateFailed => 5 | StateCancelled => 6 | StateDiscarded => 7 end%positive;
    decode p := match p with
      | 1 => Some StateAvailable | 2 => Some StatePending | 3 => Some StateRunning
      | 4 => Some StateSucceeded | 5 => Some StateFailed | 6 => Some StateCancelled
      | 7 => Some StateDiscarded | _ => None end%positive |}.
  by intros [].
Defined.

(** [State.Terminal] *)
Definition Terminal (s : State) : bool :=
  match s with
  | StateSucceeded | StateFailed | StateCancelled | StateDiscarded => true
  | _ => false
  end.

Inductive AttemptState :=
| AttemptSucceeded
| AttemptFailed
| AttemptTimedOut
| AttemptCancelled.

#[export] Instance AttemptState_eq_dec : EqDecision AttemptState.
Proof. solve_decision. Defined.

(** Go's [int] enumerations, out-of-range values included. *)
Definition TimeoutRetry : Z := 0.
Definition TimeoutFail : Z := 1.
Definition TimeoutDiscard : Z := 2.

Definition CatchUpOnce : Z := 0.
Definition CatchUpSkip : Z := 1.
Definition CatchUpAll : Z := 2.

(** The sentinel errors of the package that stores and the manager return, and the
    validation errors of the manager (their text left out). *)
Inductive Error :=
| ErrNotFound
| ErrJobRunning
| ErrJobTerminal
| ErrJobNotRetryable
| ErrDuplicate (existing kind handler key : string)
| ErrUnregistered
| ErrTypeAlreadyRegistered
| ErrKindAlreadyRegistered
| ErrHandlerAlreadyRegistered
| ErrScheduleAlreadyDeclared
| ErrInvalid (what : string)
| ErrBackoffNotSerializable
| ErrOther (what : string).

#[export] Instance Error_eq_dec : EqDecision Error.
Proof. solve_decision. Defined.

Definition ident_byte (c : Ascii.ascii) : bool :=
  byte_in "A" "Z" c || byte_in "a" "z" c || byte_in "0" "9" c ||
  bool_decide (c = "."%char \/ c = "_"%char \/ c = ":"%char \/ c = "/"%char \/ c = "-"%char).

Definition validIdent (what s : string) : option Error :=
  if bool_decide (s = ""%string) then Some (ErrInvalid what)
  else if (255 <? String.length s)%nat then Some (ErrInvalid what)
  else if string_forall ident_byte s then None
  else Some (ErrInvalid what).

Definition validOnTimeout (o : Z) : option Error :=
  if (o =? TimeoutRetry) || (o =? TimeoutFail) || (o =? TimeoutDiscard) then None
  else Some (ErrInvalid "OnTimeout").

Definition validCatchUp (c : Z) : option Error :=
  if (c =? CatchUpOnce) || (c =? CatchUpSkip) || (c =? CatchUpAll) then None
  else Some (ErrInvalid "CatchUp").

(** ** Rows *)

Record Job := mkJob {
  Kind : string;
  HandlerID : string;
  Payload : string;
  Queue : string;
  Priority : Z;
  AvailableAt : Time;
  MaxAttempts : Z;
  TimeoutMs : Z;
  OnTimeout : Z;
  BackoffSpec : option string;
  UniqueKey : string;
  ScheduledFor : Time;
  ScheduledForSet : bool
}.

Definition set_AvailableAt (t : Time) (j : Job) : Job :=
  mkJob (Kind j) (HandlerID j) (Payload j) (Queue j) (Priority j) t (MaxAttempts j)
    (TimeoutMs j) (OnTimeout j) (BackoffSpec j) (UniqueKey j) (ScheduledFor j)
    (ScheduledForSet j).
Definition set_MaxAttempts (n : Z) (j : Job) : Job :=
  mkJob (Kind j) (HandlerID j) (Payload j) (Queue j) (Priority j) (AvailableAt j) n
    (TimeoutMs j) (OnTimeout j) (BackoffSpec j) (UniqueKey j) (ScheduledFor j)
    (ScheduledForSet j).

Record InsertResult := mkInsertResult {
  ir_ID : string;
  ir_CreatedAt : Time;
  ir_Kind : string;
  ir_HandlerID : string;
  ir_ScheduledFor : Time;
  ir_Duplicate : bool
}.

(** A handler's routing identity, [HandlerKey], as the pair (kind, handler-id). *)
Definition HandlerKey : Type := string * string.

Record ClaimRequest := mkClaimRequest {
  cr_WorkerID : string;
  cr_Queues : list string;
  cr_Now : Time;
  cr_Lease : Duration;
  cr_Limit : Z;
  cr_QueueLimits : gmap string Z;
  cr_Handlers : gset (string * string)
}.

Record ClaimedJob := mkClaimedJob {
  cj_Job : Job;
  cj_ID : string;
  cj_Attempt : Z;
  cj_LockedUntil : Time
}.

(** [o_AttemptState = None] is Go's empty string: no ledger entry. *)
Record Outcome := mkOutcome {
  o_State : State;
  o_Attempt : Z;
  o_Error : string;
  o_AvailableAt : Time;
  o_AttemptState : option AttemptState;
  o_StartedAt : Time;
  o_FinishedAt : Time
}.

Record Attempt := mkAttempt {
  at_ID : string;
  at_JobID : string;
  at_Attempt : Z;
  at_WorkerID : string;
  at_State : AttemptState;
  at_Error : string;
  at_StartedAt : Time;
  at_FinishedAt : Time
}.

Record ScheduleRow := mkScheduleRow {
  s_Group : string;
  s_Name : string;
  s_Kind : string;
  s_Spec : string;
  s_Payload : string;
  s_OptionsJSON : string;
  s_NextRunAt : Time;
  s_LastRunAt : Time;
  s_LastRunSet : bool;
  s_UpdatedAt : Time
}.

(** [ExpectedLastRun] is a [sql.NullTime]: [None] when not valid. *)
Record ScheduleFire := mkScheduleFire {
  f_Group : string;
  f_Name : string;
  f_ExpectedLastRun : option Time;
  f_NewLastRun : Time;
  f_NewNextRun : Time;
  f_Now : Time;
  f_Jobs : list Job
}.

Record WorkerRow := mkWorkerRow {
  w_ID : string;
  w_Hostname : string;
  w_Queues : list string;
  w_StartedAt : Time;
  w_LastSeenAt : Time
}.
