(* ===== verification/JobStore.v ===== *)
(** The in-process job store: [jobs/store_memory.go].

    The state is the Go struct's: rows by id, the live unique-key index, the
    attempt ledger, workers and schedules. Each method runs under the store's mutex,
    so a method is one function on the state. [NewID] draws a UUID; here the ids
    are an arbitrary sequence [newID], drawn in order, which the theorems assume
    to have no repetition. *)

From S2P Require Import Prelude.
From S2P Require Import GoTime.
From S2P Require Import Order.
From S2P Require Import JobTypes.

Local Open Scope Z_scope.

Record memRow := mkRow {
  job : Job;
  id : string;
  state : State;
  attempt : Z;
  lockedBy : string;
  lockedUntil : Time;
  cancelRequested : bool;
  lastError : string;
  createdAt : Time;
  updatedAt : Time
}.

Record MemoryStore := mkStore {
  rows : gmap string memRow;
  uniq : gmap string string;
  attempts : gmap string (list Attempt);
  workers : gmap string WorkerRow;
  schedules : gmap string ScheduleRow;
  drawn : nat  (** ids drawn from [newID] so far *)
}.

Definition NewMemoryStore : MemoryStore := mkStore ∅ ∅ ∅ ∅ ∅ 0.

(** Field updates of the pointer-held structs. *)
Definition set_rows (f : gmap string memRow -> gmap string memRow) (s : MemoryStore) :=
  mkStore (f (rows s)) (uniq s) (attempts s) (workers s) (schedules s) (drawn s).
Definition set_uniq (f : gmap string string -> gmap string string) (s : MemoryStore) :=
  mkStore (rows s) (f (uniq s)) (attempts s) (workers s) (schedules s) (drawn s).
Definition set_attempts (f : gmap string (list Attempt) -> gmap string (list Attempt))
    (s : MemoryStore) :=
  mkStore (rows s) (uniq s) (f (attempts s)) (workers s) (schedules s) (drawn s).
Definition set_workers (f : gmap string WorkerRow -> gmap string WorkerRow) (s : MemoryStore) :=
  mkStore (rows s) (uniq s) (attempts s) (f (workers s)) (schedules s) (drawn s).
Definition set_schedules (f : gmap string ScheduleRow -> gmap string ScheduleRow)
    (s : MemoryStore) :=
  mkStore (rows s) (uniq s) (attempts s) (workers s) (f (schedules s)) (drawn s).

Definition NUL : Ascii.ascii := "000"%char.

Definition uniqKey (kind handler key : string) : string :=
  kind +:+ String NUL (handler +:+ String NUL key).
Definition schedKey (group name : string) : string := group +:+ String NUL name.

(** [uniqKey(r.Kind, r.HandlerID, r.UniqueKey)] *)
Definition jobKey (j : Job) : string := uniqKey (Kind j) (HandlerID j) (UniqueKey j).

Definition hasKey (j : Job) : bool := negb (bool_decide (UniqueKey j = ""%string)).

(** [freeUniq] *)
Definition freeUniq (r : memRow) (s : MemoryStore) : MemoryStore :=
  if negb (hasKey (job r)) then s
  else match uniq s !! jobKey (job r) with
       | Some holder => if bool_decide (holder = id r)
                        then set_uniq (delete (jobKey (job r))) s else s
       | None => s
       end.

Section store.
Context (newID : nat -> string).

(** [NewID()]: the next id, and the store having drawn it. *)
Definition NewID (s : MemoryStore) : string * MemoryStore :=
(newID (drawn s),
 mkStore (rows s) (uniq s) (attempts s) (workers s) (schedules s) (S (drawn s))).

(** ** Insert *)

(** The live job that already holds the key of [j], if any. *)
Definition liveHolder (s : MemoryStore) (j : Job) : option (string * memRow) :=
match uniq s !! jobKey j with
| Some existing =>
    match rows s !! existing with
    | Some r => if negb (Terminal (state r)) then Some (existing, r) else None
    | None => None
    end
| None => None
end.

(** The body of [insertLocked]'s loop. *)
Definition insertOne (now : Time) (j : Job) (s : MemoryStore) : MemoryStore * InsertResult :=
match (if hasKey j then liveHolder s j else None) with
| Some (existing, r) =>
    (s, mkInsertResult existing (createdAt r) (Kind j) (HandlerID j) zero_time true)
| None =>
    let '(i, s) := NewID s in
    let st := if After (AvailableAt j) now then StatePending else StateAvailable in
    let r := mkRow j i st 0 "" zero_time false "" now now in
    let s := set_rows <[i := r]> s in
    let s := if hasKey j then set_uniq <[jobKey j := i]> s else s in
    (s, mkInsertResult i now (Kind j) (HandlerID j) (ScheduledFor j) false)
end.

Fixpoint insertLocked (now : Time) (jobs : list Job) (s : MemoryStore)
  : MemoryStore * list InsertResult :=
match jobs with
| [] => (s, [])
| j :: jobs =>
    let '(s, r) := insertOne now j s in
    let '(s, rs) := insertLocked now jobs s in
    (s, r :: rs)
end.

Definition Insert (now : Time) (jobs : list Job) (s : MemoryStore)
  : MemoryStore * list InsertResult := insertLocked now jobs s.

(** ** Claim *)

Definition claimable (req : ClaimRequest) (r : memRow) : bool :=
(bool_decide (state r = StateAvailable) || bool_decide (state r = StatePending)) &&
negb (negb (IsZero (AvailableAt (job r))) && After (AvailableAt (job r)) (cr_Now req)) &&
(bool_decide (cr_Queues req = []) || bool_decide (Queue (job r) ∈ cr_Queues req)) &&
bool_decide ((Kind (job r), HandlerID (job r)) ∈ cr_Handlers req).

(** The sort callback: priority descending, available time ascending, id ascending. *)
Definition claim_cmp : memRow -> memRow -> comparison :=
cmp_then (cmp_on (fun r => Priority (job r)) (cmp_rev cmp_Z))
  (cmp_then (cmp_on (fun r => AvailableAt (job r)) cmp_Z) (cmp_on id cmp_string)).

(** The candidates in claim order, whatever order the map was ranged over in. *)
Definition candidates (req : ClaimRequest) (s : MemoryStore) : list memRow :=
sort_by claim_cmp
  (filter (fun r => claimable req r = true) ((map_to_list (rows s)).*2)).

(** Whether the queue's cap in [QueueLimits] is used up. *)
Definition queueFull (req : ClaimRequest) (perQueue : gmap string Z) (q : string) : bool :=
match cr_QueueLimits req !! q with
| Some qlim => (0 <=? qlim) && (qlim <=? default 0 (perQueue !! q))
| None => false
end.

Definition leased (req : ClaimRequest) (r : memRow) : memRow :=
mkRow (job r) (id r) StateRunning (attempt r) (cr_WorkerID req)
  (Add (cr_Now req) (cr_Lease req)) (cancelRequested r) (lastError r) (createdAt r)
  (cr_Now req).

(** The claiming loop, [n] jobs already taken. *)
Fixpoint claimLoop (req : ClaimRequest) (limit n : Z) (perQueue : gmap string Z)
  (cands : list memRow) (s : MemoryStore) : MemoryStore * list ClaimedJob :=
match cands with
| [] => (s, [])
| r :: cands =>
    if limit <=? n then (s, [])
    else if queueFull req perQueue (Queue (job r)) then
      claimLoop req limit n perQueue cands s
    else
      let s := set_rows <[id r := leased req r]> s in
      let perQueue :=
        <[Queue (job r) := default 0 (perQueue !! Queue (job r)) + 1]> perQueue in
      let '(s, out) := claimLoop req limit (n + 1) perQueue cands s in
      (s, mkClaimedJob (job r) (id r) (attempt r) (Add (cr_Now req) (cr_Lease req)) :: out)
end.

Definition Claim (req : ClaimRequest) (s : MemoryStore) : MemoryStore * list ClaimedJob :=
if bool_decide (cr_WorkerID req = ""%string) || bool_decide (cr_Handlers req = ∅) then (s, [])
else
  let limit := if cr_Limit req <=? 0 then 1 else cr_Limit req in
  claimLoop req limit 0 ∅ (candidates req s) s.

(** ** Lease operations *)

(** [r, ok := s.rows[jobID]; !ok || r.state != StateRunning || r.lockedBy != workerID] *)
Definition ownedRow (s : MemoryStore) (jobID workerID : string) : option memRow :=
match rows s !! jobID with
| Some r =>
    if bool_decide (state r = StateRunning) && bool_decide (lockedBy r = workerID)
    then Some r else None
| None => None
end.

Definition Heartbeat (jobID workerID : string) (now until : Time) (s : MemoryStore)
  : MemoryStore * result Error bool :=
match ownedRow s jobID workerID with
| None => (s, Err ErrNotFound)
| Some r =>
    (set_rows <[jobID := mkRow (job r) (id r) (state r) (attempt r) (lockedBy r) until
                           (cancelRequested r) (lastError r) (createdAt r) now]> s,
     Ok (cancelRequested r))
end.

(** Append one ledger entry, drawing its id. *)
Definition recordAttempt (jobID : string) (num : Z) (worker : string) (st : AttemptState)
  (err : string) (started finished : Time) (s : MemoryStore) : MemoryStore :=
let '(aid, s) := NewID s in
set_attempts (fun m =>
  <[jobID := default [] (m !! jobID)
             ++ [mkAttempt aid jobID num worker st err started finished]]> m) s.

Definition Complete (jobID workerID : string) (now : Time) (o : Outcome) (s : MemoryStore)
  : MemoryStore * result Error State :=
match ownedRow s jobID workerID with
| None => (s, Err ErrNotFound)
| Some r =>
    let '(applied, record, attemptNum) :=
      if cancelRequested r then
        (StateCancelled, Some AttemptCancelled,
         match o_AttemptState o with None => attempt r + 1 | Some _ => o_Attempt o end)
      else (o_State o, o_AttemptState o, o_Attempt o) in
    let s := match record with
             | Some st => recordAttempt jobID attemptNum workerID st (o_Error o)
                            (o_StartedAt o) (o_FinishedAt o) s
             | None => s
             end in
    let j := if bool_decide (applied = StatePending) || bool_decide (applied = StateAvailable)
             then set_AvailableAt (o_AvailableAt o) (job r) else job r in
    let r' := mkRow j (id r) applied
                (match record with Some _ => attemptNum | None => attempt r end)
                "" zero_time false (o_Error o) (createdAt r)
                (if After now (updatedAt r) then now else updatedAt r) in
    let s := set_rows <[jobID := r']> s in
    (if Terminal applied then freeUniq r' s else s, Ok applied)
end.

(** ** Sweep *)

Definition leaseExpired (now : Time) (r : memRow) : bool :=
bool_decide (state r = StateRunning) && negb (IsZero (lockedUntil r)) &&
negb (After (lockedUntil r) now).

(** The row a sweep leaves: cancelled, discarded or available again. *)
Definition sweptRow (now : Time) (r : memRow) : memRow :=
let attemptNum := attempt r + 1 in
let '(j, st, err) :=
  if cancelRequested r then (job r, StateCancelled, "cancelled"%string)
  else if MaxAttempts (job r) <=? attemptNum then
    (job r, StateDiscarded, "lease expired"%string)
  else (set_AvailableAt now (job r), StateAvailable, lastError r) in
mkRow j (id r) st attemptNum "" zero_time false err (createdAt r) now.

Definition sweepOne (now : Time) (r : memRow) (s : MemoryStore) : MemoryStore :=
let s := recordAttempt (id r) (attempt r + 1) (lockedBy r)
           (if cancelRequested r then AttemptCancelled else AttemptFailed)
           (if cancelRequested r then "cancelled after lease expiry" else "lease expired")
           (lockedUntil r) now s in
let s := set_rows <[id r := sweptRow now r]> s in
if Terminal (state (sweptRow now r)) then freeUniq r s else s.

(** [range s.rows] visits the rows in the order [order] of their ids. *)
Fixpoint sweepLoop (now : Time) (order : list string) (s : MemoryStore) : MemoryStore * Z :=
match order with
| [] => (s, 0)
| i :: order =>
    match rows s !! i with
    | Some r =>
        if leaseExpired now r then
          let '(s, n) := sweepLoop now order (sweepOne now r s) in (s, n + 1)
        else sweepLoop now order s
    | None => sweepLoop now order s
    end
end.

Definition SweepExpired (now : Time) (order : list string) (s : MemoryStore) : MemoryStore * Z :=
sweepLoop now order s.

(** ** Operator actions *)

Definition Get (i : string) (s : MemoryStore) : result Error memRow :=
match rows s !! i with Some r => Ok r | None => Err ErrNotFound end.

Definition Retry (jobID : string) (now : Time) (s : MemoryStore)
  : MemoryStore * option Error :=
match rows s !! jobID with
| None => (s, Some ErrNotFound)
| Some r =>
    if negb (Terminal (state r)) || bool_decide (state r = StateSucceeded)
    then (s, Some ErrJobNotRetryable)
    else
      let collision :=
        if hasKey (job r) then
          match uniq s !! jobKey (job r) with
          | Some holder =>
              if bool_decide (holder = id r) then None
              else match rows s !! holder with
                   | Some other => if negb (Terminal (state other)) then Some holder else None
                   | None => None
                   end
          | None => None
          end
        else None in
      match collision with
      | Some holder =>
          (s, Some (ErrDuplicate holder (Kind (job r)) (HandlerID (job r)) (UniqueKey (job r))))
      | None =>
          let j := if MaxAttempts (job r) <=? attempt r
                   then set_MaxAttempts (attempt r + 1) (job r) else job r in
          let r' := mkRow (set_AvailableAt now j) (id r) StateAvailable (attempt r) ""
                      zero_time false "" (createdAt r) now in
          let s := set_rows <[jobID := r']> s in
          (if hasKey (job r) then set_uniq <[jobKey (job r) := id r]> s else s, None)
      end
end.

Definition Cancel (jobID : string) (now : Time) (s : MemoryStore)
  : MemoryStore * result Error bool :=
match rows s !! jobID with
| None => (s, Err ErrNotFound)
| Some r =>
    if Terminal (state r) then (s, Err ErrJobTerminal)
    else if bool_decide (state r = StateRunning) then
      (set_rows <[jobID := mkRow (job r) (id r) (state r) (attempt r) (lockedBy r)
                             (lockedUntil r) true (lastError r) (createdAt r) now]> s,
       Ok false)
    else
      let r' := mkRow (job r) (id r) StateCancelled (attempt r) (lockedBy r) (lockedUntil r)
                  (cancelRequested r) (lastError r) (createdAt r) now in
      (freeUniq r' (set_rows <[jobID := r']> s), Ok true)
end.

Definition Delete (jobID : string) (s : MemoryStore) : MemoryStore * option Error :=
match rows s !! jobID with
| None => (s, Some ErrNotFound)
| Some r =>
    if bool_decide (state r = StateRunning) then (s, Some ErrJobRunning)
    else (freeUniq r (set_attempts (delete jobID) (set_rows (delete jobID) s)), None)
end.
End store.

(** ** Inspection *)

Record ListFilter := mkListFilter {
  lf_Queues : list string;
  lf_Kinds : list string;
  lf_States : list State;
  lf_Limit : Z;
  lf_Cursor : option (Time * string)  (** the decoded cursor, [None] when empty *)
}.

Definition DefaultListLimit : Z := 100.
Definition MaxListLimit : Z := 1000.

Definition NormalizeLimit (limit : Z) : Z :=
  if limit <=? 0 then DefaultListLimit
  else if MaxListLimit <? limit then MaxListLimit
  else limit.

Definition rowMatches (r : memRow) (f : ListFilter) : bool :=
  (bool_decide (lf_Queues f = []) || bool_decide (Queue (job r) ∈ lf_Queues f)) &&
  (bool_decide (lf_Kinds f = []) || bool_decide (Kind (job r) ∈ lf_Kinds f)) &&
  (bool_decide (lf_States f = []) || bool_decide (state r ∈ lf_States f)).

(** Creation time, then id. *)
Definition list_cmp : memRow -> memRow -> comparison :=
  cmp_then (cmp_on createdAt cmp_Z) (cmp_on id cmp_string).

(** The row comes strictly after the cursor. *)
Definition pastCursor (r : memRow) (c : option (Time * string)) : bool :=
  match c with
  | None => true
  | Some (t, i) =>
      negb (Before (createdAt r) t ||
            (Equal (createdAt r) t &&
             match cmp_string (id r) i with Gt => false | _ => true end))
  end.

(** The page of rows, and the (time, id) of the next cursor. *)
Definition List (f : ListFilter) (s : MemoryStore) : list memRow * option (Time * string) :=
  let limit := Z.to_nat (NormalizeLimit (lf_Limit f)) in
  let matched := sort_by list_cmp
    (filter (fun r => rowMatches r f = true /\ pastCursor r (lf_Cursor f) = true)
       ((map_to_list (rows s)).*2)) in
  if (limit <? length matched)%nat then
    (take limit matched,
     match matched !! (limit - 1)%nat with
     | Some r => Some (createdAt r, id r)
     | None => None
     end)
  else (matched, None).

(** The limit is applied in ledger order, before the sort. *)
Definition ListAttempts (jobID : string) (afterAttempt limit : Z) (s : MemoryStore)
    : list Attempt :=
  let later := filter (fun a => afterAttempt < at_Attempt a) (default [] (attempts s !! jobID)) in
  sort_by (cmp_on at_Attempt cmp_Z)
    (if 0 <? limit then take (Z.to_nat limit) later else later).

(** [counts[name][state]] over all rows, by queue name. *)
Definition queueCounts (rs : list memRow) (name : string) : State -> Z :=
  fun st => Z.of_nat (length (filter (fun r => Queue (job r) = name /\ state r = st) rs)).

Definition ListQueues (s : MemoryStore) : list (string * (State -> Z)) :=
  let rs := (map_to_list (rows s)).*2 in
  (fun name => (name, queueCounts rs name)) <$>
    sort_by cmp_string (elements (list_to_set (C := gset string) ((fun r => Queue (job r)) <$> rs))).

(** ** Workers *)

Definition UpsertWorker (w : WorkerRow) (s : MemoryStore) : MemoryStore :=
  let started := match workers s !! w_ID w with
                 | Some prev => w_StartedAt prev
                 | None => w_StartedAt w
                 end in
  set_workers <[w_ID w := mkWorkerRow (w_ID w) (w_Hostname w) (w_Queues w) started
                            (w_LastSeenAt w)]> s.

Definition RetireWorker (workerID : string) (s : MemoryStore) : MemoryStore :=
  set_workers (delete workerID) s.

Definition ListWorkers (s : MemoryStore) : list WorkerRow :=
  sort_by (cmp_on w_StartedAt cmp_Z) ((map_to_list (workers s)).*2).

Definition staleWorker (olderThan : Time) (w : WorkerRow) : bool :=
  negb (IsZero (w_LastSeenAt w)) && Before (w_LastSeenAt w) olderThan.

Definition SweepStaleWorkers (olderThan : Time) (s : MemoryStore) : MemoryStore * Z :=
  (set_workers (filter (fun kv : string * WorkerRow => staleWorker olderThan kv.2 = false)) s,
   Z.of_nat (size (filter (fun kv : string * WorkerRow => staleWorker olderThan kv.2 = true)
                     (workers s)))).

(** ** Schedules *)

(** What an upsert stores over the row that is there: a first declaration as it is,
    without a last run; a later one keeping the last run, and the next run too when the
    spec is the same. *)
Definition mergedSchedule (prev : option ScheduleRow) (row : ScheduleRow) : ScheduleRow :=
  match prev with
  | Some prev =>
      mkScheduleRow (s_Group row) (s_Name row) (s_Kind row) (s_Spec row) (s_Payload row)
        (s_OptionsJSON row)
        (if bool_decide (s_Spec prev = s_Spec row) then s_NextRunAt prev else s_NextRunAt row)
        (s_LastRunAt prev) (s_LastRunSet prev) (s_UpdatedAt row)
  | None =>
      mkScheduleRow (s_Group row) (s_Name row) (s_Kind row) (s_Spec row) (s_Payload row)
        (s_OptionsJSON row) (s_NextRunAt row) (s_LastRunAt row) false (s_UpdatedAt row)
  end.

Definition UpsertSchedule (row : ScheduleRow) (s : MemoryStore) : MemoryStore :=
  let key := schedKey (s_Group row) (s_Name row) in
  set_schedules <[key := mergedSchedule (schedules s !! key) row]> s.

Definition DeleteSchedule (group name : string) (s : MemoryStore) : MemoryStore :=
  set_schedules (delete (schedKey group name)) s.

Definition ListSchedules (group : string) (s : MemoryStore) : list ScheduleRow :=
  sort_by (cmp_on s_Name cmp_string)
    (filter (fun r => s_Group r = group) ((map_to_list (schedules s)).*2)).

Definition scheduleDue (now : Time) (r : ScheduleRow) : bool :=
  negb (IsZero (s_NextRunAt r)) && negb (After (s_NextRunAt r) now).

Definition DueSchedules (group : string) (now : Time) (s : MemoryStore) : list ScheduleRow :=
  sort_by (cmp_on s_Name cmp_string)
    (filter (fun r => s_Group r = group /\ scheduleDue now r = true)
       ((map_to_list (schedules s)).*2)).

(** [sched.LastRunSet != f.ExpectedLastRun.Valid || ...], negated. *)
Definition lastRunMatches (sched : ScheduleRow) (expected : option Time) : bool :=
  match expected with
  | Some t => s_LastRunSet sched && Equal (s_LastRunAt sched) t
  | None => negb (s_LastRunSet sched)
  end.

Definition FireSchedule (newID : nat -> string) (f : ScheduleFire) (s : MemoryStore)
    : MemoryStore * result Error (bool * list InsertResult) :=
  let key := schedKey (f_Group f) (f_Name f) in
  match schedules s !! key with
  | None => (s, Err ErrNotFound)
  | Some sched =>
      if negb (lastRunMatches sched (f_ExpectedLastRun f)) then (s, Ok (false, []))
      else
        let '(s, results) := insertLocked newID (f_Now f) (f_Jobs f) s in
        let sched' :=
          mkScheduleRow (s_Group sched) (s_Name sched) (s_Kind sched) (s_Spec sched)
            (s_Payload sched) (s_OptionsJSON sched) (f_NewNextRun f) (f_NewLastRun f)
            (negb (IsZero (f_NewLastRun f))) (f_Now f) in
        (set_schedules <[key := sched']> s, Ok (true, results))
  end.
