(* ===== verification/JobStoreInv.v ===== *)
(** The invariant of the in-process job store and its preservation by every
    operation of [JobStore].

    A well-formed store has: rows filed under their own, previously drawn ids; a
    unique-key index that lists exactly the live keyed jobs; leases (worker, deadline,
    cancellation flag) exactly on running jobs; execution counts below the job's cap
    while it can still run; and, per job, a ledger numbered 1, 2, ... up to the
    execution count. *)

From S2P Require Import Prelude.
From S2P Require Import GoTime.
From S2P Require Import Order.
From S2P Require Import JobTypes.
From S2P Require Import JobStore.

Local Open Scope Z_scope.

(** ** The unique-key index *)

Definition live_at (k : string) (r : memRow) : Prop :=
  hasKey (job r) = true /\ Terminal (state r) = false /\ jobKey (job r) = k.

Definition uniq_ok (R : gmap string memRow) (u : gmap string string) : Prop :=
  forall k i, u !! k = Some i <-> exists r, R !! i = Some r /\ live_at k r.

Definition same_key (j j' : Job) : Prop := jobKey j' = jobKey j /\ hasKey j' = hasKey j.

Definition freeKey (r : memRow) (u : gmap string string) : gmap string string :=
  if negb (hasKey (job r)) then u
  else if bool_decide (u !! jobKey (job r) = Some (id r)) then delete (jobKey (job r)) u else u.

Lemma freeUniq_eq r s : freeUniq r s = set_uniq (freeKey r) s.
Proof.
  unfold freeUniq, freeKey. destruct s as [R u A W Sc d]; simpl. unfold set_uniq; simpl.
  destruct (hasKey (job r)); simpl; [|done].
  destruct (u !! jobKey (job r)) as [h|]; [|by rewrite bool_decide_false].
  repeat case_bool_decide; naive_solver.
Qed.

Lemma uniq_functional R u k i1 i2 r1 r2 :
  uniq_ok R u -> R !! i1 = Some r1 -> R !! i2 = Some r2 ->
  live_at k r1 -> live_at k r2 -> i1 = i2.
Proof.
  intros Hu H1 H2 L1 L2.
  assert (u !! k = Some i1) by (apply Hu; eauto).
  assert (u !! k = Some i2) by (apply Hu; eauto). congruence.
Qed.

(** Membership after an update or a removal. *)
Lemma ex_insert {V} (R : gmap string V) i v j (P : V -> Prop) :
  (exists r, <[i := v]> R !! j = Some r /\ P r) <->
  (if decide (i = j) then P v else exists r, R !! j = Some r /\ P r).
Proof.
  rewrite lookup_insert. case_decide; [|done].
  split; [intros (? & [= <-] & ?); done|]. intros. by exists v.
Qed.

Lemma ex_delete {V} (R : gmap string V) i j (P : V -> Prop) :
  (exists r, delete i R !! j = Some r /\ P r) <->
  (if decide (i = j) then False else exists r, R !! j = Some r /\ P r).
Proof.
  rewrite lookup_delete. case_decide; [|done]. split; [|done]. by intros (? & ? & _).
Qed.

(** What an updated table contributes, read off the old index. *)
Lemma uniq_insert R u i v k j :
  uniq_ok R u ->
  (exists r, <[i := v]> R !! j = Some r /\ live_at k r) <->
  (if decide (i = j) then live_at k v else u !! k = Some j).
Proof. intros Hu. rewrite ex_insert. case_decide; [done|]. symmetry. apply Hu. Qed.

(** A row rewritten without changing what it contributes to the index. *)
Lemma uniq_update R u i r r' :
  uniq_ok R u -> R !! i = Some r -> (forall k, live_at k r' <-> live_at k r) ->
  uniq_ok (<[i := r']> R) u.
Proof.
  intros Hu Hi Hl k j. rewrite (uniq_insert R u) by done. case_decide; [subst|done].
  rewrite Hl, (Hu k j). split; [intros (? & ? & ?); congruence|eauto].
Qed.

(** Giving a key back leaves exactly the entries of the other rows. *)
Lemma freeKey_spec R u i r r' k j :
  uniq_ok R u -> R !! i = Some r -> id r' = i -> same_key (job r) (job r') ->
  freeKey r' u !! k = Some j <->
  (if decide (i = j) then False else exists r0, R !! j = Some r0 /\ live_at k r0).
Proof.
  intros Hu Hi Hid [Hk Hh].
  assert (Hown : u !! k = Some i -> hasKey (job r') = true /\ k = jobKey (job r')).
  { intros (r0 & ? & ? & _ & <-)%Hu. simplify_eq. by rewrite Hh, Hk. }
  assert (E : (if decide (i = j) then False else exists r0, R !! j = Some r0 /\ live_at k r0)
              <-> (if decide (i = j) then False else u !! k = Some j))
    by (case_decide; [done|]; symmetry; apply Hu).
  rewrite E. clear E. unfold freeKey. rewrite Hid.
  destruct (hasKey (job r')) eqn:EH; simpl.
  2: { case_decide; [subst|done]. split; [|done]. by intros [? _]%Hown. }
  case_bool_decide as Hb.
  - rewrite lookup_delete. destruct (decide (jobKey (job r') = k)) as [<-|Hne].
    + case_decide; [done|]. split; [done|]. congruence.
    + case_decide; [subst|done]. split; [|done]. intros [_ ?]%Hown. congruence.
  - case_decide; [subst|done]. split; [|done].
    intros Hk'. destruct (Hown Hk') as [_ ->]. done.
Qed.

(** A row ends (or is re-ended) and gives its key back. *)
Lemma uniq_free R u i r r' :
  uniq_ok R u -> R !! i = Some r -> id r' = i -> same_key (job r) (job r') ->
  Terminal (state r') = true -> uniq_ok (<[i := r']> R) (freeKey r' u).
Proof.
  intros Hu Hi Hid Hs Ht k j. rewrite (freeKey_spec R u i r) by done.
  rewrite ex_insert. case_decide; [|done]. split; [done|]. intros (_ & ? & _). congruence.
Qed.

Lemma uniq_delete R u i r :
  uniq_ok R u -> R !! i = Some r -> id r = i -> uniq_ok (delete i R) (freeKey r u).
Proof.
  intros Hu Hi Hid k j. rewrite (freeKey_spec R u i r r) by done. by rewrite ex_delete.
Qed.

(** A row becomes live under a key nobody holds. *)
Lemma uniq_take R u i r' :
  uniq_ok R u -> (forall r k, R !! i = Some r -> ~ live_at k r) ->
  Terminal (state r') = false ->
  (hasKey (job r') = true -> u !! jobKey (job r') = None) ->
  uniq_ok (<[i := r']> R) (if hasKey (job r') then <[jobKey (job r') := i]> u else u).
Proof.
  intros Hu Hi Ht Hfree k j. rewrite (uniq_insert R u) by done.
  assert (Hno : u !! k <> Some i) by (intros (r0 & ? & ?)%Hu; by eapply Hi).
  destruct (hasKey (job r')) eqn:EH.
  - specialize (Hfree eq_refl). rewrite lookup_insert. unfold live_at. rewrite EH, Ht.
    destruct (decide (jobKey (job r') = k)) as [<-|]; case_decide; subst; try done.
    + by rewrite Hfree; split; [intros [= ->]|].
    + split; [congruence|by intros (_ & _ & ?)].
  - unfold live_at. rewrite EH. case_decide; [subst|done].
    split; [done|by intros (? & _)].
Qed.

(** ** Rows and ledgers *)

Record row_ok (r : memRow) : Prop := {
  ro_running : state r = StateRunning -> lockedBy r <> ""%string;
  ro_idle : state r <> StateRunning ->
    lockedBy r = ""%string /\ lockedUntil r = zero_time /\ cancelRequested r = false;
  ro_attempt : 0 <= attempt r;
  ro_cap : Terminal (state r) = false -> attempt r < MaxAttempts (job r)
}.

Definition ledger_ok (R : gmap string memRow) (A : gmap string (list Attempt)) : Prop :=
  forall i, match R !! i with
            | Some r => at_Attempt <$> default [] (A !! i) = seqZ 1 (attempt r)
            | None => A !! i = None
            end.

Lemma ledger_update R A i r r' :
  ledger_ok R A -> R !! i = Some r -> attempt r' = attempt r -> ledger_ok (<[i := r']> R) A.
Proof.
  intros HA Hi Ha j. specialize (HA j). rewrite lookup_insert.
  case_decide; [subst|done]. rewrite Hi in HA. by rewrite Ha.
Qed.

Lemma ledger_record R A i r r' a :
  ledger_ok R A -> R !! i = Some r -> 0 <= attempt r -> attempt r' = attempt r + 1 ->
  at_Attempt a = attempt r + 1 ->
  ledger_ok (<[i := r']> R) (<[i := default [] (A !! i) ++ [a]]> A).
Proof.
  intros HA Hi H0 Ha Hn j. specialize (HA j). rewrite !lookup_insert.
  case_decide; [subst|done]. rewrite Hi in HA. simpl.
  rewrite fmap_app, HA, Ha, seqZ_app by lia. f_equal. simpl.
  rewrite Hn. replace (1 + attempt r) with (attempt r + 1) by lia. done.
Qed.

Section invariant.
Context (newID : nat -> string).

Record store_wf (s : MemoryStore) : Prop := {
  wf_ids : forall i r, rows s !! i = Some r ->
    id r = i /\ exists n, (n < drawn s)%nat /\ i = newID n;
  wf_uniq : uniq_ok (rows s) (uniq s);
  wf_rows : forall i r, rows s !! i = Some r -> row_ok r;
  wf_ledger : ledger_ok (rows s) (attempts s)
}.

Lemma empty_wf : store_wf NewMemoryStore.
Proof.
  constructor; simpl; [done| |done|done].
  intros k i. rewrite lookup_empty. split; [done|]. intros (r & Hr & _). done.
Qed.

(** The parts of a state the invariant does not read. *)
Lemma wf_ext s s' :
  store_wf s -> rows s' = rows s -> uniq s' = uniq s -> attempts s' = attempts s ->
  (drawn s <= drawn s')%nat -> store_wf s'.
Proof.
  intros [H1 H2 H3 H4] E1 E2 E3 Hd. constructor; rewrite ?E1, ?E2, ?E3; [|exact H2|exact H3|exact H4].
  intros i r Hi. destruct (H1 i r Hi) as (? & n & ? & ?). split; [done|]. exists n. split; [lia|done].
Qed.

(** The shape shared by the operations that rewrite one existing row. *)
Lemma wf_rewrite s s' i r r' :
  store_wf s -> rows s !! i = Some r ->
  rows s' = <[i := r']> (rows s) -> (drawn s <= drawn s')%nat ->
  id r' = id r -> row_ok r' ->
  uniq_ok (<[i := r']> (rows s)) (uniq s') ->
  ledger_ok (<[i := r']> (rows s)) (attempts s') ->
  store_wf s'.
Proof.
  intros [H1 H2 H3 H4] Hi ER Hd Hid Hok Hu Hl. constructor; rewrite ?ER; [| |clear Hl Hu|done]; [|exact Hu|].
  - intros j r0. rewrite lookup_insert. case_decide as Hj; intros Hr0.
    + simplify_eq. destruct (H1 j r Hi) as (? & n & ? & ?). split; [congruence|]. exists n. split; [lia|done].
    + destruct (H1 j r0 Hr0) as (? & n & ? & ?). split; [done|]. exists n. split; [lia|done].
  - intros j r0. rewrite lookup_insert. case_decide; intros; simplify_eq; eauto.
Qed.

Lemma ownedRow_Some s i w r :
  ownedRow s i w = Some r <-> rows s !! i = Some r /\ state r = StateRunning /\ lockedBy r = w.
Proof.
  unfold ownedRow. destruct (rows s !! i) as [r0|]; [|naive_solver].
  repeat case_bool_decide; simpl; naive_solver.
Qed.

(** ** Insert *)

(** A key that is listed is held by a live row. *)
Lemma liveHolder_None s j :
  store_wf s -> liveHolder s j = None -> uniq s !! jobKey j = None.
Proof.
  intros W. unfold liveHolder. destruct (uniq s !! jobKey j) as [h|] eqn:E; [|done].
  pose proof E as (r & -> & _ & -> & _)%(wf_uniq s W). done.
Qed.

Lemma liveHolder_Some s j i r :
  store_wf s -> liveHolder s j = Some (i, r) ->
  uniq s !! jobKey j = Some i /\ rows s !! i = Some r /\ live_at (jobKey j) r.
Proof.
  intros W. unfold liveHolder. destruct (uniq s !! jobKey j) as [h|] eqn:E; [|done].
  pose proof E as (r0 & E0 & L)%(wf_uniq s W). rewrite E0.
  pose proof L as (_ & -> & _). intros [= <- <-]. done.
Qed.

Context (newID_inj : Inj (=) (=) newID).

Lemma fresh_id s : store_wf s -> rows s !! newID (drawn s) = None.
Proof.
  intros W. destruct (rows s !! newID (drawn s)) as [r|] eqn:E; [|done].
  destruct (wf_ids s W _ _ E) as (_ & n & ? & ?%newID_inj). lia.
Qed.

Lemma insertOne_wf now j s :
  store_wf s -> 0 < MaxAttempts j -> store_wf (insertOne newID now j s).1.
Proof.
  intros W Hj. unfold insertOne.
  destruct (if hasKey j then liveHolder s j else None) as [[h rh]|] eqn:EL; [done|].
  assert (Hfree : hasKey j = true -> uniq s !! jobKey j = None).
  { intros Hk. rewrite Hk in EL. by apply liveHolder_None. }
  simpl. set (st := if After _ _ then _ else _).
  assert (Hst : Terminal st = false /\ st <> StateRunning) by (unfold st; by destruct (After _ _)).
  set (r := mkRow _ _ _ _ _ _ _ _ _ _).
  pose proof (fresh_id s W) as Hf.
  assert (Hu : uniq_ok (<[newID (drawn s) := r]> (rows s))
                 (if hasKey j then <[jobKey j := newID (drawn s)]> (uniq s) else uniq s)).
  { apply (uniq_take _ _ _ r); [apply W| |apply Hst|done]. intros ? ? ?. congruence. }
  destruct W as [H1 H2 H3 H4].
  assert (G : forall s', rows s' = <[newID (drawn s) := r]> (rows s) ->
     uniq s' = (if hasKey j then <[jobKey j := newID (drawn s)]> (uniq s) else uniq s) ->
     attempts s' = attempts s -> drawn s' = S (drawn s) -> store_wf s').
  { intros s' E1 E2 E3 E4. constructor; rewrite ?E1, ?E2, ?E3, ?E4; [| exact Hu | |].
    - intros i r0. rewrite lookup_insert. case_decide as Hi; intros Hr0; simplify_eq.
      + split; [done|]. exists (drawn s). split; [lia|done].
      + destruct (H1 i r0 Hr0) as (? & n & ? & ?). split; [done|]. exists n. split; [lia|done].
    - intros i r0. rewrite lookup_insert. case_decide; intros; simplify_eq; [|eauto].
      constructor; simpl; [by intros ?%Hst|done|lia|lia].
    - intros i. rewrite lookup_insert. specialize (H4 i). case_decide; [subst|done].
      rewrite Hf in H4. by rewrite H4. }
  destruct (hasKey j); by apply G.
Qed.

Lemma insertLocked_wf now jobs s :
  store_wf s -> Forall (fun j => 0 < MaxAttempts j) jobs ->
  store_wf (insertLocked newID now jobs s).1.
Proof.
  intros W Hj. revert s W. induction Hj as [|j jobs Hj _ IH]; intros s W; simpl; [done|].
  pose proof (insertOne_wf now j s W Hj) as W1.
  destruct (insertOne newID now j s) as [s1 r]. simpl in W1. specialize (IH s1 W1).
  by destruct (insertLocked newID now jobs s1).
Qed.

(** ** Claim and the lease operations *)

(** A live row rewritten into a live row of the same job keeps the index. *)
Lemma uniq_stays_live s i r r' :
  store_wf s -> rows s !! i = Some r -> same_key (job r) (job r') ->
  Terminal (state r) = false -> Terminal (state r') = false ->
  uniq_ok (<[i := r']> (rows s)) (uniq s).
Proof.
  intros W Hi [Hk Hh] Ht Ht'. apply (uniq_update _ _ _ r); [apply W|done|].
  intros k. unfold live_at. by rewrite Hk, Hh, Ht, Ht'.
Qed.

Lemma leased_wf req s r i :
  store_wf s -> rows s !! i = Some r -> Terminal (state r) = false ->
  cr_WorkerID req <> ""%string -> store_wf (set_rows <[i := leased req r]> s).
Proof.
  intros W Hi Ht Hw. pose proof (wf_rows s W i r Hi) as [? ? ? Hcap].
  apply (wf_rewrite s _ i r (leased req r)); try done; simpl.
  - constructor; simpl; try done. intros _. by apply Hcap.
  - by apply (uniq_stays_live _ _ r).
  - apply (ledger_update _ _ _ r); [apply W|done..].
Qed.

Lemma Heartbeat_wf i w now until s :
  store_wf s -> store_wf (Heartbeat i w now until s).1.
Proof.
  intros W. unfold Heartbeat. destruct (ownedRow s i w) as [r|] eqn:E; [|done].
  apply ownedRow_Some in E as (Hi & Hs & _). pose proof (wf_rows s W i r Hi) as [? ? ? ?].
  eapply (wf_rewrite s _ i r); [done|done|reflexivity|done|done|..]; simpl.
  - by constructor.
  - apply (uniq_stays_live _ _ r); simpl; rewrite ?Hs; done.
  - apply (ledger_update _ _ _ r); [apply W|done..].
Qed.

(** What a worker may report for an execution of a row at [n] recorded attempts. *)
Record outcome_ok (r : memRow) (o : Outcome) : Prop := {
  oo_left : o_State o <> StateRunning;
  oo_next : o_AttemptState o <> None -> o_Attempt o = attempt r + 1;
  oo_cap : Terminal (o_State o) = false ->
    (match o_AttemptState o with Some _ => attempt r + 1 | None => attempt r end)
      < MaxAttempts (job r)
}.

(** Rewriting a row with one more ledger entry, or none, and freeing the key of a
    row that ended: the common core of completion and sweep. *)
Lemma retire_wf s s' i r r' (rec : option Attempt) :
  store_wf s -> rows s !! i = Some r ->
  rows s' = <[i := r']> (rows s) -> (drawn s <= drawn s')%nat ->
  attempts s' = match rec with
                | Some a => <[i := default [] (attempts s !! i) ++ [a]]> (attempts s)
                | None => attempts s
                end ->
  uniq s' = (if Terminal (state r') then freeKey r' (uniq s) else uniq s) ->
  Terminal (state r) = false -> id r' = id r -> same_key (job r) (job r') -> row_ok r' ->
  match rec with
  | Some a => at_Attempt a = attempt r + 1 /\ attempt r' = attempt r + 1
  | None => attempt r' = attempt r
  end -> store_wf s'.
Proof.
  intros W Hi ER Hd EA EU Ht Hid Hk Hok Hrec.
  destruct (wf_ids s W i r Hi) as [Hri _].
  apply (wf_rewrite s _ i r r'); try done.
  - rewrite EU. destruct (Terminal (state r')) eqn:Ht'.
    + apply (uniq_free _ _ _ r); [apply W|done|congruence|done|done].
    + by apply (uniq_stays_live _ _ r).
  - rewrite EA. destruct rec as [a|].
    + destruct Hrec. apply (ledger_record _ _ _ r); [apply W|done| |done|done].
      by apply (wf_rows s W i).
    + apply (ledger_update _ _ _ r); [apply W|done|done].
Qed.

Lemma Complete_wf i w now o s :
  store_wf s -> (forall r, ownedRow s i w = Some r -> outcome_ok r o) ->
  store_wf (Complete newID i w now o s).1.
Proof.
  intros W Ho. unfold Complete. destruct (ownedRow s i w) as [r|] eqn:E; [|done].
  destruct (Ho r eq_refl) as [Hleft Hnext Hcap].
  apply ownedRow_Some in E as (Hi & Hs & _). pose proof (wf_rows s W i r Hi) as [_ _ H0 _].
  set (p := if cancelRequested r then _ else _).
  assert (Hp : p.1.1 <> StateRunning /\ (p.1.2 <> None -> p.2 = attempt r + 1) /\
     (Terminal p.1.1 = false ->
        (match p.1.2 with Some _ => attempt r + 1 | None => attempt r end) < MaxAttempts (job r))).
  { unfold p. destruct (cancelRequested r); simpl; [|by auto].
    repeat split; [done| |done]. intros _. destruct (o_AttemptState o); [by apply Hnext|done]. }
  clearbody p. destruct p as [[applied rec] num]; simpl in Hp. destruct Hp as (Hl & Hn & Hc).
  assert (Hm : forall t, MaxAttempts (set_AvailableAt t (job r)) = MaxAttempts (job r)) by done.
  set (j := if _ || _ then _ else _).
  assert (Hj : MaxAttempts j = MaxAttempts (job r) /\ same_key (job r) j).
  { unfold j. by destruct (_ || _). }
  clearbody j. destruct Hj as [Hj Hk]. set (r' := mkRow j _ _ _ _ _ _ _ _ _).
  assert (Hok : row_ok r').
  { constructor; simpl; [done|done| |].
    - destruct rec; [rewrite Hn by done; lia|done].
    - intros Ht. rewrite Hj. specialize (Hc Ht). destruct rec; [rewrite Hn by done|]; done. }
  assert (Ht0 : Terminal (state r) = false) by by rewrite Hs.
  simpl. destruct rec as [st|].
  - apply (retire_wf s _ i r r' (Some (mkAttempt (newID (drawn s)) i num w st (o_Error o)
      (o_StartedAt o) (o_FinishedAt o)))); try done;
      try (destruct (Terminal applied) eqn:Ht; rewrite ?freeUniq_eq; simpl; rewrite ?Ht; try done; lia).
    simpl. by rewrite Hn.
  - apply (retire_wf s _ i r r' None); try done;
      destruct (Terminal applied) eqn:Ht; rewrite ?freeUniq_eq; simpl; rewrite ?Ht; try done; lia.
Qed.

Lemma freeKey_same r r' u :
  id r' = id r -> same_key (job r) (job r') -> freeKey r' u = freeKey r u.
Proof. intros Hid [Hk Hh]. unfold freeKey. by rewrite Hid, Hk, Hh. Qed.

Lemma sweptRow_job now r :
  same_key (job r) (job (sweptRow now r)) /\ MaxAttempts (job (sweptRow now r)) = MaxAttempts (job r).
Proof. unfold sweptRow. by destruct (cancelRequested r), (MaxAttempts (job r) <=? attempt r + 1). Qed.

Lemma sweptRow_ok now r : row_ok r -> state r = StateRunning -> row_ok (sweptRow now r).
Proof.
  intros [_ _ ? _] Hs. unfold sweptRow.
  destruct (cancelRequested r); [|destruct (MaxAttempts (job r) <=? attempt r + 1) eqn:E]; constructor; simpl; try done; zbool; lia.
Qed.

Lemma sweepOne_wf now i r s :
  store_wf s -> rows s !! i = Some r -> leaseExpired now r = true ->
  store_wf (sweepOne newID now r s).
Proof.
  intros W Hi E. unfold leaseExpired in E. zbool.
  match goal with H : bool_decide (state r = _) = true |- _ => apply bool_decide_eq_true in H as Hs end.
  destruct (wf_ids s W i r Hi) as [Hri _]. destruct (sweptRow_job now r) as [Hk Hm].
  assert (Hid : id (sweptRow now r) = id r).
  { unfold sweptRow. by destruct (cancelRequested r), (MaxAttempts (job r) <=? attempt r + 1). }
  assert (Hat : attempt (sweptRow now r) = attempt r + 1).
  { unfold sweptRow. by destruct (cancelRequested r), (MaxAttempts (job r) <=? attempt r + 1). }
  eapply (retire_wf s _ i r (sweptRow now r) (Some _)); try done.
  - unfold sweepOne. simpl. rewrite Hri. case_match; rewrite ?freeUniq_eq; done.
  - unfold sweepOne. simpl. case_match; rewrite ?freeUniq_eq; simpl; lia.
  - unfold sweepOne. simpl. rewrite Hri. case_match; rewrite ?freeUniq_eq; reflexivity.
  - rewrite (freeKey_same r (sweptRow now r)) by done.
    unfold sweepOne. simpl. case_match; rewrite ?freeUniq_eq; done.
  - by rewrite Hs.
  - apply sweptRow_ok; [by eapply wf_rows|done].
  - done.
Qed.

Lemma SweepExpired_wf now order s :
  store_wf s -> store_wf (SweepExpired newID now order s).1.
Proof.
  unfold SweepExpired. revert s. induction order as [|i order IH]; intros s W; simpl; [done|].
  destruct (rows s !! i) as [r|] eqn:Hi; [|by apply IH].
  destruct (leaseExpired now r) eqn:He; [|by apply IH].
  specialize (IH _ (sweepOne_wf now i r s W Hi He)).
  by destruct (sweepLoop newID now order (sweepOne newID now r s)).
Qed.

Lemma Retry_wf i now s : store_wf s -> store_wf (Retry i now s).1.
Proof.
  intros W. unfold Retry. destruct (rows s !! i) as [r|] eqn:Hi; [|done].
  destruct (negb _ || _) eqn:Hr; [done|]. zbool.
  match goal with H : bool_decide _ = false |- _ => clear H end.
  destruct (wf_ids s W i r Hi) as [Hri _]. pose proof (wf_rows s W i r Hi) as [_ _ H0 _].
  destruct (if hasKey (job r) then _ else None) as [h|] eqn:EC; [done|].
  set (j := if MaxAttempts (job r) <=? attempt r then _ else _).
  assert (Hj : same_key (job r) j /\ attempt r < MaxAttempts j).
  { unfold j. destruct (MaxAttempts (job r) <=? attempt r) eqn:Em; zbool; repeat split; simpl; lia. }
  clearbody j. destruct Hj as [[Hk Hh] Hm]. simpl.
  set (r' := mkRow _ _ _ _ _ _ _ _ _ _).
  assert (G : forall s', rows s' = <[i := r']> (rows s) -> drawn s' = drawn s ->
    attempts s' = attempts s ->
    uniq s' = (if hasKey (job r') then <[jobKey (job r') := i]> (uniq s) else uniq s) ->
    store_wf s').
  { intros s' E1 E2 E3 E4. apply (wf_rewrite s s' i r r'); try done; [by rewrite E2| |].
    - rewrite E4. apply (uniq_take _ _ _ r'); [apply W| |done|].
      + intros r0 k ? (_ & ? & _). congruence.
      + change (hasKey (job r')) with (hasKey j). change (jobKey (job r')) with (jobKey j).
        rewrite Hh, Hk. intros EH. rewrite EH in EC.
        destruct (uniq s !! jobKey (job r)) as [h|] eqn:Eu; [|done].
        apply (wf_uniq s W) in Eu as (r0 & E0 & _ & Ht & _).
        rewrite E0, Ht in EC. case_bool_decide; simpl in EC; [|done].
        congruence.
    - rewrite E3. apply (ledger_update _ _ _ r); [apply W|done|done]. }
  change (hasKey (job r')) with (hasKey j) in G. change (jobKey (job r')) with (jobKey j) in G.
  rewrite Hh, Hk in G. destruct (hasKey (job r)); apply G; try done. by rewrite Hri.
Qed.

Lemma Cancel_wf i now s : store_wf s -> store_wf (Cancel i now s).1.
Proof.
  intros W. unfold Cancel. destruct (rows s !! i) as [r|] eqn:Hi; [|done].
  destruct (Terminal (state r)) eqn:Ht; [done|]. pose proof (wf_rows s W i r Hi) as [Hw Hd H0 Hc].
  case_bool_decide as Hs.
  - eapply (retire_wf s _ i r _ None); try done; simpl; by rewrite Ht.
  - simpl. rewrite freeUniq_eq. eapply (retire_wf s _ i r _ None); try done; simpl.
    constructor; simpl; try done. intros _. by apply Hd.
Qed.

Lemma Delete_wf i s : store_wf s -> store_wf (Delete i s).1.
Proof.
  intros W. unfold Delete. destruct (rows s !! i) as [r|] eqn:Hi; [|done].
  case_bool_decide; [done|]. simpl. rewrite freeUniq_eq.
  destruct (wf_ids s W i r Hi) as [Hri _]. pose proof W as [H1 H2 H3 H4].
  constructor; simpl.
  - intros j r0 [_ ?]%lookup_delete_Some. by apply H1.
  - by apply uniq_delete.
  - intros j r0 [_ ?]%lookup_delete_Some. by eapply H3.
  - intros j. specialize (H4 j). rewrite !lookup_delete. by case_decide.
Qed.

(** *** The claiming loop *)

Lemma candidates_spec req s r :
  r ∈ candidates req s <-> claimable req r = true /\ exists i, rows s !! i = Some r.
Proof.
  unfold candidates. by rewrite elem_of_sort_by, list_elem_of_filter, elem_of_rows.
Qed.

Lemma claimable_live req r : claimable req r = true -> Terminal (state r) = false /\ state r <> StateRunning.
Proof.
  unfold claimable. intros H. zbool.
  match goal with H : (bool_decide _ || bool_decide _) = true |- _ =>
    apply orb_true_iff in H as [H|H]; apply bool_decide_eq_true in H; rewrite H end; done.
Qed.

Lemma rows_ids_NoDup s : store_wf s -> NoDup (id <$> (map_to_list (rows s)).*2).
Proof.
  intros W.
  assert (E : id <$> (map_to_list (rows s)).*2 = (map_to_list (rows s)).*1).
  { rewrite <-list_fmap_compose. apply list_fmap_ext. intros n [i r] Hn.
    apply list_elem_of_lookup_2, elem_of_map_to_list in Hn. simpl. by apply (wf_ids s W). }
  rewrite E. apply NoDup_fst_map_to_list.
Qed.

Lemma candidates_NoDup req s : store_wf s -> NoDup (id <$> candidates req s).
Proof.
  intros W. unfold candidates.
  rewrite (sort_by_perm claim_cmp (filter _ _)).
  eapply sublist_NoDup; [by apply rows_ids_NoDup|]. apply fmap_sublist, sublist_filter.
Qed.

#[export] Instance claim_cmp_ok : Cmp claim_cmp.
Proof. unfold claim_cmp. apply _. Qed.

(** The rows are claimed in the order of the sort, which is strict on a store. *)
Definition claim_lt (r r' : memRow) : Prop := claim_cmp r r' = Lt.

#[export] Instance claim_lt_dec r r' : Decision (claim_lt r r').
Proof. unfold claim_lt. destruct (claim_cmp r r'); [right|left|right]; done. Defined.

Lemma claim_cmp_Eq r r' : claim_cmp r r' = Eq -> id r = id r'.
Proof.
  unfold claim_cmp, cmp_then, cmp_on, cmp_string.
  destruct (cmp_rev cmp_Z _ _); try done. destruct (cmp_Z _ _); try done.
  apply String.compare_eq_iff.
Qed.

Lemma candidates_sorted req s : store_wf s -> StronglySorted claim_lt (candidates req s).
Proof.
  intros W. pose proof (candidates_NoDup req s W) as HN.
  pose proof (sort_by_sorted claim_cmp (filter (fun r => claimable req r = true)
    ((map_to_list (rows s)).*2))) as HS.
  fold (candidates req s) in HS. induction HS as [|r l HS IH HF]; constructor.
  - apply IH. by inversion HN.
  - rewrite fmap_cons, NoDup_cons in HN. destruct HN as [Hnin _].
    rewrite Forall_forall in HF |- *. intros x Hx. specialize (HF x Hx).
    unfold claim_lt, cmp_le in *. destruct (claim_cmp r x) eqn:E; [|done|done].
    apply claim_cmp_Eq in E. destruct Hnin. rewrite E. by apply list_elem_of_fmap_2.
Qed.

(** The claimed jobs of queue [q] among [l]. *)
Definition count_queue (q : string) (l : list memRow) : Z :=
  Z.of_nat (length (filter (fun r => Queue (job r) = q) l)).

Definition claimed_of (req : ClaimRequest) (r : memRow) : ClaimedJob :=
  mkClaimedJob (job r) (id r) (attempt r) (Add (cr_Now req) (cr_Lease req)).

Definition lease_all (req : ClaimRequest) (l : list memRow) (R : gmap string memRow) :=
  foldl (fun R r => <[id r := leased req r]> R) R l.

(** What the loop picks: a part of the candidates within both limits, and whatever
    is left out came after a full batch or after a full share of its queue. *)
Definition picked (req : ClaimRequest) (limit n : Z) (pq : gmap string Z)
    (cands taken : list memRow) : Prop :=
  taken `sublist_of` cands /\
  n + Z.of_nat (length taken) <= Z.max n limit /\
  (forall q qlim, cr_QueueLimits req !! q = Some qlim -> 0 <= qlim ->
     default 0 (pq !! q) + count_queue q taken <= Z.max (default 0 (pq !! q)) qlim) /\
  (forall r, r ∈ cands -> r ∉ taken ->
     (limit <= n + Z.of_nat (length taken) /\ Forall (fun t => claim_lt t r) taken) \/
     exists qlim, cr_QueueLimits req !! Queue (job r) = Some qlim /\ 0 <= qlim /\
       qlim <= default 0 (pq !! Queue (job r)) +
         count_queue (Queue (job r)) (filter (fun t => claim_lt t r) taken)).

Lemma count_queue_cons q r l :
  count_queue q (r :: l) = (if decide (Queue (job r) = q) then 1 else 0) + count_queue q l.
Proof. unfold count_queue. rewrite filter_cons. case_decide; simpl; lia. Qed.

Lemma queueFull_spec req pq q :
  queueFull req pq q = true <->
  exists qlim, cr_QueueLimits req !! q = Some qlim /\ 0 <= qlim /\ qlim <= default 0 (pq !! q).
Proof.
  unfold queueFull. destruct (cr_QueueLimits req !! q) as [l|]; [|by split; [|intros (? & ? & _)]].
  rewrite andb_true_iff, !Z.leb_le. split; [eauto|]. by intros (? & [= <-] & ?).
Qed.

Lemma picked_skip req limit n pq r l taken :
  picked req limit n pq l taken -> queueFull req pq (Queue (job r)) = true ->
  picked req limit n pq (r :: l) taken.
Proof.
  intros (Hs & Hn & Hq & Hr) (qlim & E & H0 & Hf)%queueFull_spec.
  repeat split; [by apply sublist_cons|done|done|].
  intros r0 [->|Hin]%elem_of_cons Hnin; [|by apply Hr].
  right. exists qlim. repeat split; try done. unfold count_queue. lia.
Qed.

Lemma picked_take req limit n pq r l taken :
  Forall (claim_lt r) l -> n < limit -> queueFull req pq (Queue (job r)) = false ->
  picked req limit (n + 1)
    (<[Queue (job r) := default 0 (pq !! Queue (job r)) + 1]> pq) l taken ->
  picked req limit n pq (r :: l) (r :: taken).
Proof.
  intros HF Hn Hfull (Hs & Hlen & Hq & Hr).
  assert (Hpq : forall q, default 0 ((<[Queue (job r) := default 0 (pq !! Queue (job r)) + 1]> pq) !! q)
    = (if decide (Queue (job r) = q) then 1 else 0) + default 0 (pq !! q)).
  { intros q. rewrite lookup_insert. case_decide; subst; simpl; lia. }
  repeat split; [by apply sublist_skip|cbn [length]; lia| |].
  - intros q qlim E H0. specialize (Hq q qlim E H0). rewrite Hpq in Hq. rewrite count_queue_cons.
    case_decide as Hd; [|lia].
    assert (~ qlim <= default 0 (pq !! q)) as ?; [|lia].
    intros ?. assert (queueFull req pq (Queue (job r)) = true); [|congruence].
    apply queueFull_spec. rewrite Hd. eauto.
  - intros r0 [->|Hin]%elem_of_cons Hnin; [by destruct Hnin; left|].
    rewrite Forall_forall in HF. specialize (HF r0 Hin).
    rewrite elem_of_cons in Hnin. destruct (Hr r0 Hin) as [[??]|(qlim & E & H0 & Hc)]; [tauto| |].
    + left. split; [cbn [length]; lia|by constructor].
    + right. exists qlim. repeat split; try done. rewrite Hpq in Hc.
      rewrite filter_cons_True by done. rewrite count_queue_cons. lia.
Qed.

Lemma picked_nil req limit n pq cands :
  cands = [] \/ limit <= n -> picked req limit n pq cands [].
Proof.
  intros Hor. split; [apply sublist_nil_l|]. split; [simpl; lia|]. split.
  - intros. change (count_queue q []) with 0. lia.
  - intros r Hr _. destruct Hor as [->|?]; [by apply not_elem_of_nil in Hr|].
    left. split; [simpl; lia|done].
Qed.

Lemma claimLoop_picked req limit n pq cands s :
  StronglySorted claim_lt cands ->
  exists taken, picked req limit n pq cands taken /\
    claimLoop req limit n pq cands s =
      (set_rows (lease_all req taken) s, claimed_of req <$> taken).
Proof.
  intros HS. revert n pq s. induction HS as [|r l HS IH HF]; intros n pq s; simpl.
  { exists []. split; [apply picked_nil; by left|by destruct s]. }
  destruct (limit <=? n) eqn:EL; zbool.
  { exists []. split; [apply picked_nil; by right|by destruct s]. }
  destruct (queueFull req pq (Queue (job r))) eqn:EQ.
  - destruct (IH n pq s) as (taken & Hp & ->). exists taken. split; [by apply picked_skip|done].
  - destruct (IH (n + 1) (<[Queue (job r) := default 0 (pq !! Queue (job r)) + 1]> pq)
                (set_rows <[id r := leased req r]> s)) as (taken & Hp & ->).
    exists (r :: taken). split; [by apply picked_take|done].
Qed.

Lemma lease_all_wf req s taken :
  store_wf s -> cr_WorkerID req <> ""%string -> NoDup (id <$> taken) ->
  Forall (fun r => rows s !! id r = Some r /\ Terminal (state r) = false) taken ->
  store_wf (set_rows (lease_all req taken) s).
Proof.
  intros W Hw. revert s W. induction taken as [|r l IH]; intros s W HN HF; simpl; [by destruct s|].
  rewrite fmap_cons, NoDup_cons in HN. destruct HN as [Hnin HN].
  apply Forall_cons in HF as [[Hi Ht] HF].
  apply (IH (set_rows <[id r := leased req r]> s)); [by apply leased_wf|done|].
  rewrite Forall_forall in HF |- *. intros x Hx. destruct (HF x Hx). split; [|done].
  simpl. rewrite lookup_insert_ne; [done|]. intros E. destruct Hnin. rewrite E.
  by apply list_elem_of_fmap_2.
Qed.

(** The claim of a request, as the rows taken. *)
Lemma Claim_taken req s :
  store_wf s ->
  exists taken, Claim req s = (set_rows (lease_all req taken) s, claimed_of req <$> taken) /\
    NoDup (id <$> taken) /\ Forall (fun r => rows s !! id r = Some r /\ claimable req r = true) taken /\
    (taken <> [] -> cr_WorkerID req <> ""%string) /\
    (cr_WorkerID req <> ""%string -> cr_Handlers req <> ∅ ->
     picked req (if cr_Limit req <=? 0 then 1 else cr_Limit req) 0 ∅ (candidates req s) taken).
Proof.
  intros W. unfold Claim. destruct (_ || _) eqn:E.
  { exists []. split; [by destruct s|]. split; [apply NoDup_nil_2|]. do 2 (split; [done|]).
    intros Hw Hh. apply orb_true_iff in E as [E|E]; by apply bool_decide_eq_true in E. }
  zbool. destruct (claimLoop_picked req (if cr_Limit req <=? 0 then 1 else cr_Limit req) 0 ∅
    (candidates req s) s (candidates_sorted req s W)) as (taken & Hp & ->).
  exists taken. pose proof (proj1 Hp) as Hsub. split; [done|]. split; [|split; [|split; [|done]]].
  - eapply sublist_NoDup; [by apply candidates_NoDup|by apply fmap_sublist].
  - rewrite Forall_forall. intros r Hr. eapply elem_of_sublist in Hr; [|done].
    apply candidates_spec in Hr as (? & i & Hi).
    destruct (wf_ids s W i r Hi) as [-> _]. done.
  - intros _ ?. match goal with H : bool_decide (cr_WorkerID _ = _) = false |- _ =>
      by apply bool_decide_eq_false in H end.
Qed.

Lemma Claim_wf req s : store_wf s -> store_wf (Claim req s).1.
Proof.
  intros W. destruct (Claim_taken req s W) as (taken & -> & HN & HF & Hw & _). simpl.
  destruct taken as [|r l]; [by destruct s|]. apply lease_all_wf; [done|by apply Hw|done|].
  eapply Forall_impl; [exact HF|]. simpl. intros x [? ?%claimable_live]. tauto.
Qed.
End invariant.
