(* ===== verification/JobStoreSpec.v ===== *)
(** What the in-process job store promises: its invariant over every run of its
    methods, and the functional behaviour of claiming, completing, sweeping and
    listing. The lemmas come from [JobStoreInv]. *)

From S2P Require Import Prelude.
From S2P Require Import GoTime.
From S2P Require Import Order.
From S2P Require Import JobTypes.
From S2P Require Import JobStore.
From S2P Require Import JobStoreInv.

Local Open Scope Z_scope.

(** ** Strict order on the rows of a store

    The comparison callbacks end in the row's id, so on the rows of one store they
    order strictly, and sorting does not depend on the iteration order of the map. *)

Lemma rows_id_inj newID s r r' :
  store_wf newID s -> r ∈ (map_to_list (rows s)).*2 -> r' ∈ (map_to_list (rows s)).*2 ->
  id r = id r' -> r = r'.
Proof.
  intros W [i Hi]%elem_of_rows [i' Hi']%elem_of_rows E.
  destruct (wf_ids newID s W i r Hi) as [E1 _], (wf_ids newID s W i' r' Hi') as [E2 _]. congruence.
Qed.

#[export] Instance list_cmp_ok : Cmp list_cmp.
Proof. unfold list_cmp. apply _. Qed.

Lemma list_cmp_Eq r r' : list_cmp r r' = Eq -> id r = id r'.
Proof.
  unfold list_cmp, cmp_then, cmp_on, cmp_string. destruct (cmp_Z _ _); try done.
  apply String.compare_eq_iff.
Qed.

Lemma pastCursor_spec r c :
  pastCursor r (Some (createdAt c, id c)) = true <-> list_cmp c r = Lt.
Proof.
  unfold list_cmp, cmp_then, cmp_on, cmp_Z, pastCursor, Before, Equal.
  rewrite negb_true_iff, orb_false_iff, Z.ltb_ge.
  destruct (Z.compare_spec (createdAt c) (createdAt r)) as [E|E|E].
  - rewrite E, Z.eqb_refl. cbn [andb]. unfold cmp_string.
    rewrite (String.compare_antisym (id r) (id c)).
    destruct (String.compare (id c) (id r)); simpl; split; intros HH;
      (done || (by destruct HH) || (by split; [lia|])).
  - split; [done|]. intros _. split; [lia|]. by rewrite (proj2 (Z.eqb_neq _ _)) by lia.
  - split; [lia|done].
Qed.

(** ** Runs of the store *)

Section runs.
Context (newID : nat -> string).

(** One call of one method that changes state. *)
Inductive call :=
| CallInsert (now : Time) (jobs : list Job)
| CallClaim (req : ClaimRequest)
| CallHeartbeat (i w : string) (now until : Time)
| CallComplete (i w : string) (now : Time) (o : Outcome)
| CallSweep (now : Time) (order : list string)
| CallRetry (i : string) (now : Time)
| CallCancel (i : string) (now : Time)
| CallDelete (i : string)
| CallFire (f : ScheduleFire)
| CallUpsertSchedule (row : ScheduleRow)
| CallDeleteSchedule (g n : string)
| CallUpsertWorker (w : WorkerRow)
| CallRetireWorker (w : string)
| CallSweepWorkers (t : Time).

(** The store after the call. *)
Definition exec (c : call) (s : MemoryStore) : MemoryStore :=
match c with
| CallInsert now jobs => (Insert newID now jobs s).1
| CallClaim req => (Claim req s).1
| CallHeartbeat i w now until => (Heartbeat i w now until s).1
| CallComplete i w now o => (Complete newID i w now o s).1
| CallSweep now order => (SweepExpired newID now order s).1
| CallRetry i now => (Retry i now s).1
| CallCancel i now => (Cancel i now s).1
| CallDelete i => (Delete i s).1
| CallFire f => (FireSchedule newID f s).1
| CallUpsertSchedule row => UpsertSchedule row s
| CallDeleteSchedule g n => DeleteSchedule g n s
| CallUpsertWorker w => UpsertWorker w s
| CallRetireWorker w => RetireWorker w s
| CallSweepWorkers t => (SweepStaleWorkers t s).1
end.

(** What the manager and the worker keep to: the jobs inserted have a positive attempt
    cap, and a completion reports an outcome for the row's next execution. *)
Definition allowed (s : MemoryStore) (c : call) : Prop :=
match c with
| CallInsert _ jobs => Forall (fun j => 0 < MaxAttempts j) jobs
| CallFire f => Forall (fun j => 0 < MaxAttempts j) (f_Jobs f)
| CallComplete i w _ o => forall r, ownedRow s i w = Some r -> outcome_ok r o
| _ => True
end.

Definition store_step (s s' : MemoryStore) : Prop := exists c, allowed s c /\ s' = exec c s.

Definition reachable (s : MemoryStore) : Prop := rtc store_step NewMemoryStore s.

Context (newID_inj : Inj (=) (=) newID).

Lemma FireSchedule_wf f s :
  store_wf newID s -> Forall (fun j => 0 < MaxAttempts j) (f_Jobs f) ->
  store_wf newID (FireSchedule newID f s).1.
Proof.
  intros W Hj. unfold FireSchedule. destruct (schedules s !! _) as [sched|]; [|done].
  destruct (negb _); [done|].
  pose proof (insertLocked_wf newID newID_inj (f_Now f) (f_Jobs f) s W Hj) as W'.
  destruct (insertLocked _ _ _ _) as [s' rs]. by eapply (wf_ext newID s').
Qed.

Lemma step_wf s s' : store_wf newID s -> store_step s s' -> store_wf newID s'.
Proof.
  intros W ([] & Ha & ->); simpl in *; eauto using insertLocked_wf, Claim_wf, Heartbeat_wf,
    Complete_wf, SweepExpired_wf, Retry_wf, Cancel_wf, Delete_wf, FireSchedule_wf.
  all: eapply wf_ext; [exact W|done..].
Qed.

Lemma reachable_wf s : reachable s -> store_wf newID s.
Proof.
  unfold reachable. intros H.
  assert (G : forall s0, rtc store_step s0 s -> store_wf newID s0 -> store_wf newID s).
  { clear H. induction 1; eauto using step_wf. }
  apply (G _ H), empty_wf.
Qed.
End runs.

(** ** The rows after each operation *)

Section behaviour.
Context (newID : nat -> string).

Lemma lease_all_lookup req taken R i :
  NoDup (id <$> taken) ->
  (forall r, r ∈ taken -> lease_all req taken R !! id r = Some (leased req r)) /\
  (i ∉ id <$> taken -> lease_all req taken R !! i = R !! i).
Proof.
  intros HN. revert R. induction taken as [|r l IH]; intros R; [by split; [intros ? ?%not_elem_of_nil|]|].
  rewrite fmap_cons, NoDup_cons in HN. destruct HN as [Hnin HN].
  destruct (IH HN (<[id r := leased req r]> R)) as [H1 H2].
  change (lease_all req (r :: l) R) with (lease_all req l (<[id r := leased req r]> R)). split.
  - intros x [->|Hx]%elem_of_cons; [|by apply H1].
    assert (G : forall R', R' !! id r = Some (leased req r) ->
      lease_all req l R' !! id r = Some (leased req r)).
    { clear -Hnin. induction l as [|y l IHl]; intros R' HR'; [done|].
      rewrite fmap_cons, not_elem_of_cons in Hnin. destruct Hnin as [Hne Hnin].
      apply (IHl Hnin). by rewrite lookup_insert_ne. }
    apply G, lookup_insert_eq.
  - rewrite fmap_cons, not_elem_of_cons. intros [Hne Hni]. rewrite H2 by done.
    by rewrite lookup_insert_ne.
Qed.

Lemma leased_not_claimable req req' r : claimable req' (leased req r) = false.
Proof. done. Qed.

Lemma ownedRow_other s i w r :
  rows s !! i = Some r -> lockedBy r <> w -> ownedRow s i w = None.
Proof.
  intros Hi Hw. destruct (ownedRow s i w) as [r'|] eqn:E; [|done].
  apply ownedRow_Some in E as (? & _ & ?). congruence.
Qed.

Lemma ownedRow_idle s i w r :
  rows s !! i = Some r -> state r <> StateRunning -> ownedRow s i w = None.
Proof.
  intros Hi Hw. destruct (ownedRow s i w) as [r'|] eqn:E; [|done].
  apply ownedRow_Some in E as (? & ? & _). congruence.
Qed.

Lemma freeUniq_rows r s : rows (freeUniq r s) = rows s.
Proof. by rewrite freeUniq_eq. Qed.

Lemma freeUniq_attempts r s : attempts (freeUniq r s) = attempts s.
Proof. by rewrite freeUniq_eq. Qed.

Lemma updated_max now r : (if After now (updatedAt r) then now else updatedAt r) = Z.max (updatedAt r) now.
Proof. unfold After. destruct (updatedAt r <? now) eqn:?; zbool; lia. Qed.

Lemma freeUniq_uniq r s (b : bool) :
uniq (if b then freeUniq r s else s) =
  if b && hasKey (job r) && bool_decide (uniq s !! jobKey (job r) = Some (id r))
  then delete (jobKey (job r)) (uniq s) else uniq s.
Proof.
destruct b; [|done]. unfold freeUniq. destruct (hasKey (job r)); [|done]. simpl.
destruct (uniq s !! jobKey (job r)) as [h|]; repeat case_bool_decide; simpl; naive_solver.
Qed.

(** What an accepted completion leaves of the store, field by field. *)
Lemma Complete_owned i w now o s r :
  ownedRow s i w = Some r ->
  let applied := if cancelRequested r then StateCancelled else o_State o in
  let record := if cancelRequested r then Some AttemptCancelled else o_AttemptState o in
  let num := match o_AttemptState o with
             | None => if cancelRequested r then attempt r + 1 else o_Attempt o
             | Some _ => o_Attempt o end in
  let retried := bool_decide (applied = StatePending \/ applied = StateAvailable) in
  let s' := (Complete newID i w now o s).1 in
  let r' := mkRow (if retried then set_AvailableAt (o_AvailableAt o) (job r) else job r) (id r) applied
              (match record with Some _ => num | None => attempt r end) "" zero_time false
              (o_Error o) (createdAt r) (Z.max (updatedAt r) now) in
  (Complete newID i w now o s).2 = Ok applied /\
  rows s' = <[i := r']> (rows s) /\
  attempts s' = match record with
    | Some st => <[i := default [] (attempts s !! i) ++
        [mkAttempt (newID (drawn s)) i num w st (o_Error o) (o_StartedAt o) (o_FinishedAt o)]]> (attempts s)
    | None => attempts s end /\
  uniq s' = (if Terminal applied && hasKey (job r) && bool_decide (uniq s !! jobKey (job r) = Some (id r))
             then delete (jobKey (job r)) (uniq s) else uniq s) /\
  workers s' = workers s /\ schedules s' = schedules s.
Proof.
  intros E applied record num retried s' r'. subst s'. unfold Complete. rewrite E, updated_max.
  set (p := if cancelRequested r then (_, _, _) else _).
  assert (Hp : p = (applied, record, num)).
  { unfold p, applied, record, num. by destruct (cancelRequested r), (o_AttemptState o). }
  rewrite Hp. clear p Hp. cbv beta iota zeta. cbn [fst snd].
  assert (Hj : (if bool_decide (applied = StatePending) || bool_decide (applied = StateAvailable)
    then set_AvailableAt (o_AvailableAt o) (job r) else job r) = job r').
  { unfold r', retried. simpl. repeat case_bool_decide; simpl; naive_solver. }
  rewrite Hj. change (mkRow _ _ _ _ _ _ _ _ _ _) with r'.
  assert (Hkey : jobKey (job r') = jobKey (job r) /\ hasKey (job r') = hasKey (job r))
    by (subst r'; cbn [job]; clearbody retried; by destruct retried).
  destruct Hkey as [Hk Hh]. clearbody num. split; [done|]. rewrite freeUniq_uniq, Hk, Hh.
  split; [destruct record, (Terminal applied); by rewrite ?freeUniq_rows|].
  split; [destruct record, (Terminal applied); by rewrite ?freeUniq_attempts|].
  split; [by destruct record|].
  split; destruct record, (Terminal applied); by rewrite ?freeUniq_eq.
Qed.

(** ** Sweep *)

Lemma sweepOne_rows now r s :
  rows (sweepOne newID now r s) = <[id r := sweptRow now r]> (rows s).
Proof. unfold sweepOne. simpl. case_match; by rewrite ?freeUniq_rows. Qed.

(** The row of [i] holds an expired lease. *)
Definition expiredAt (now : Time) (R : gmap string memRow) (i : string) : bool :=
  match R !! i with Some r => leaseExpired now r | None => false end.

Lemma sweepLoop_rows now order s :
  store_wf newID s -> NoDup order ->
  (forall i, rows (sweepLoop newID now order s).1 !! i =
    if decide (i ∈ order)
    then (fun r => if leaseExpired now r then sweptRow now r else r) <$> rows s !! i
    else rows s !! i) /\
  (sweepLoop newID now order s).2 =
    Z.of_nat (length (filter (fun i => expiredAt now (rows s) i = true) order)).
Proof.
  intros W HN. revert s W. induction HN as [|i order Hi HN IH]; intros s W.
  { split; [|done]. intros i. rewrite decide_False; [done|]. apply not_elem_of_nil. }
  rewrite filter_cons. cbn [sweepLoop].
  assert (EE : expiredAt now (rows s) i =
    match rows s !! i with Some r => leaseExpired now r | None => false end) by done.
  destruct (rows s !! i) as [r|] eqn:E.
  2: { destruct (IH s W) as [H1 ->]. split; [|by rewrite decide_False by (by rewrite EE)]. intros j. rewrite H1.
    destruct (decide (j = i)) as [->|]; [by rewrite E; repeat case_decide|].
    repeat case_decide; set_solver. }
  destruct (leaseExpired now r) eqn:EX.
  2: { destruct (IH s W) as [H1 ->]. split; [|by rewrite decide_False by (by rewrite EE)]. intros j. rewrite H1.
    destruct (decide (j = i)) as [->|];
      [rewrite E; simpl; rewrite EX; by repeat case_decide|repeat case_decide; set_solver]. }
  destruct (wf_ids newID s W i r E) as [Hri _].
  destruct (IH _ (sweepOne_wf newID now i r s W E EX)) as [H1 H2].
  destruct (sweepLoop newID now order (sweepOne newID now r s)) as [s' n]. simpl in *.
  rewrite (decide_True _ _ EE). split.
  - intros j. rewrite H1, sweepOne_rows, Hri, lookup_insert.
    destruct (decide (i = j)) as [<-|Hne].
    + rewrite decide_False by done. rewrite decide_True by set_solver. rewrite E. simpl. by rewrite EX.
    + repeat case_decide; set_solver.
  - rewrite H2. cbn [length]. rewrite Nat2Z.inj_succ. unfold Z.succ. do 3 f_equal.
    apply list_filter_ext. intros j Hj. unfold expiredAt. rewrite sweepOne_rows, Hri.
    by rewrite lookup_insert_ne by congruence.
Qed.

(** ** Insert *)

(** What one insertion leaves behind: the row the result names is filed, and holds
    the job's key when it has one; a row that was there is not touched. *)
Definition inserted (now : Time) (R : gmap string memRow) (j : Job) (res : InsertResult)
    (R' : gmap string memRow) : Prop :=
  exists r, R' !! ir_ID res = Some r /\
    (hasKey j = true -> live_at (jobKey j) r) /\
    (if ir_Duplicate res then hasKey j = true
     else R !! ir_ID res = None /\
       r = mkRow j (ir_ID res)
             (if After (AvailableAt j) now then StatePending else StateAvailable)
             0 "" zero_time false "" now now).

Context (newID_inj : Inj (=) (=) newID).

Lemma insertOne_spec now j s :
  store_wf newID s ->
  let '(s', res) := insertOne newID now j s in
  inserted now (rows s) j res (rows s') /\ rows s ⊆ rows s' /\
  (ir_Duplicate res = true -> s' = s).
Proof.
  intros W. unfold insertOne.
  destruct (if hasKey j then liveHolder s j else None) as [[h rh]|] eqn:EL.
  - destruct (hasKey j) eqn:EH; [|done].
    apply (liveHolder_Some newID) in EL as (_ & HR & HL); [|done].
    split; [|done]. by exists rh.
  - simpl. pose proof (fresh_id newID newID_inj s W) as Hf.
    set (r := mkRow _ _ _ _ _ _ _ _ _ _).
    assert (ER : rows (if hasKey j then set_uniq <[jobKey j:=newID (drawn s)]>
        (set_rows <[newID (drawn s):=r]> (mkStore (rows s) (uniq s) (attempts s) (workers s)
          (schedules s) (S (drawn s))))
      else set_rows <[newID (drawn s):=r]> (mkStore (rows s) (uniq s) (attempts s) (workers s)
          (schedules s) (S (drawn s)))) = <[newID (drawn s) := r]> (rows s))
      by by destruct (hasKey j).
    split; [|split; [|done]].
    + exists r. simpl. rewrite ER, lookup_insert_eq. split; [done|]. split; [|done].
      intros HK. split; [done|]. split; [|done]. simpl. by destruct (After _ _).
    + rewrite ER. by apply insert_subseteq.
Qed.

Lemma insertLocked_spec now jobs s :
  store_wf newID s -> Forall (fun j => 0 < MaxAttempts j) jobs ->
  let '(s', res) := insertLocked newID now jobs s in
  Forall2 (fun j r => inserted now (rows s) j r (rows s')) jobs res /\ rows s ⊆ rows s'.
Proof.
  intros W HJ. revert s W. induction HJ as [|j jobs Hj HJ IH]; intros s W; [by split; [constructor|]|].
  simpl. pose proof (insertOne_spec now j s W) as H1.
  pose proof (insertOne_wf newID newID_inj now j s W Hj) as W1.
  destruct (insertOne newID now j s) as [s1 r1]. destruct H1 as (Hi & Hsub & _).
  specialize (IH s1 W1). destruct (insertLocked newID now jobs s1) as [s2 rs].
  destruct IH as [HF Hsub2]. split; [|by transitivity (rows s1)]. constructor.
  - destruct Hi as (r & Hr & Hk & Hd). exists r. split; [by eapply lookup_weaken|done].
  - eapply Forall2_impl; [exact HF|]. intros j' r' (r & Hr & Hk & Hd).
    exists r. split; [done|]. split; [done|]. destruct (ir_Duplicate r'); [done|].
    destruct Hd as [Hn ->]. split; [|done]. by eapply lookup_weaken_None.
Qed.
End behaviour.

(** ** Runs under a lease

    What a row keeps through any sequence of calls: its lease, as long as the holder does
    not complete it and no sweep comes after its end; and being at rest, as long as it is
    not claimed. *)

Section leases.
Context (newID : nat -> string).

(** The worker [w] holds the lease of the job [i]. *)
Definition held (i w : string) (s : MemoryStore) : Prop :=
exists r, rows s !! i = Some r /\ state r = StateRunning /\ lockedBy r = w.

Definition idle (i : string) (s : MemoryStore) : Prop :=
forall r, rows s !! i = Some r -> state r <> StateRunning.

(** A call other than the holder's completion and a sweep at or after the lease's end. *)
Definition leaves_lease (i w : string) (s : MemoryStore) (c : call) : Prop :=
match c with
| CallComplete j w' _ _ => ~ (j = i /\ w' = w)
| CallSweep now _ => forall r, rows s !! i = Some r -> now < lockedUntil r
| _ => True
end.

Definition lease_step (i w : string) (s s' : MemoryStore) : Prop :=
exists c, allowed s c /\ leaves_lease i w s c /\ s' = exec newID c s.

Definition is_claim (c : call) : bool := match c with CallClaim _ => true | _ => false end.

Definition unclaimed_step (s s' : MemoryStore) : Prop :=
exists c, is_claim c = false /\ s' = exec newID c s.

Lemma sweepLoop_keeps now order i r s :
  store_wf newID s -> rows s !! i = Some r -> leaseExpired now r = false ->
  rows (sweepLoop newID now order s).1 !! i = Some r.
Proof.
  intros W Hi He. revert s W Hi. induction order as [|j order IH]; intros s W Hi; [done|].
  cbn [sweepLoop]. destruct (rows s !! j) as [rj|] eqn:Ej; [|by apply IH].
  destruct (leaseExpired now rj) eqn:Ex; [|by apply IH].
  destruct (wf_ids newID s W j rj Ej) as [Hid _].
  specialize (IH _ (sweepOne_wf newID now j rj s W Ej Ex)).
  destruct (sweepLoop newID now order (sweepOne newID now rj s)) as [s' n]. apply IH.
  rewrite sweepOne_rows, Hid, lookup_insert_ne; [done|]. intros ->. congruence.
Qed.

Lemma Claim_keeps_running req i r s :
  store_wf newID s -> rows s !! i = Some r -> state r = StateRunning ->
  rows (Claim req s).1 !! i = Some r /\ i ∉ cj_ID <$> (Claim req s).2.
Proof.
  intros W Hi Hs. destruct (Claim_taken newID req s W) as (taken & -> & HN & HF & _ & _). simpl.
  assert (Hni : i ∉ id <$> taken).
  { intros (t & -> & Ht)%list_elem_of_fmap. rewrite Forall_forall in HF.
    destruct (HF t Ht) as [Ht' Hc]. rewrite Hi in Ht'. injection Ht' as <-.
    unfold claimable in Hc. rewrite Hs in Hc. done. }
  split; [by rewrite (proj2 (lease_all_lookup req taken (rows s) i HN) Hni)|].
  intros (x & -> & (t & -> & Ht)%list_elem_of_fmap)%list_elem_of_fmap.
  by apply Hni, (list_elem_of_fmap_2 id).
Qed.

Lemma Heartbeat_keeps j w' now until i w s :
  held i w s -> held i w (Heartbeat j w' now until s).1.
Proof.
  intros (r & Hr & Hs & Hl). unfold Heartbeat. destruct (ownedRow s j w') as [r'|] eqn:E; [|by exists r].
  apply ownedRow_Some in E as (Hj & Hs' & Hl'). unfold held. simpl.
  destruct (decide (j = i)) as [->|Hne]; [|exists r; by rewrite lookup_insert_ne].
  rewrite Hj in Hr. injection Hr as ->. rewrite lookup_insert_eq. by eexists.
Qed.

Lemma Complete_keeps j w' now o i w s :
  held i w s -> ~ (j = i /\ w' = w) -> held i w (Complete newID j w' now o s).1.
Proof.
  intros (r & Hr & Hs & Hl) Hne. destruct (ownedRow s j w') as [r'|] eqn:E.
  2: { unfold Complete. rewrite E. by exists r. }
  destruct (Complete_owned newID j w' now o s r' E) as (_ & HR & _). cbv zeta in HR.
  apply ownedRow_Some in E as (Hj & Hs' & Hl'). exists r. rewrite HR.
  rewrite lookup_insert_ne; [done|]. intros ->. apply Hne. split; [done|].
  congruence.
Qed.

Lemma Retry_keeps j now i w s : held i w s -> held i w (Retry j now s).1.
Proof.
  intros (r & Hr & Hs & Hl). unfold Retry. destruct (rows s !! j) as [rj|] eqn:Ej; [|by exists r].
  destruct (_ || _) eqn:E; [by exists r|]. apply orb_false_iff in E as [E _].
  assert (Hne : j <> i) by (intros ->; rewrite Hr in Ej; injection Ej as <-; by rewrite Hs in E).
  repeat case_match; exists r; simpl; by rewrite ?lookup_insert_ne.
Qed.

Lemma Cancel_keeps j now i w s : held i w s -> held i w (Cancel j now s).1.
Proof.
  intros (r & Hr & Hs & Hl). unfold Cancel. destruct (rows s !! j) as [rj|] eqn:Ej; [|by exists r].
  destruct (Terminal (state rj)) eqn:Et; [by exists r|]. unfold held.
  destruct (decide (j = i)) as [->|Hne].
  - rewrite Hr in Ej. injection Ej as <-. rewrite bool_decide_true by done. simpl.
    rewrite lookup_insert_eq. by eexists.
  - exists r. case_bool_decide; simpl; rewrite ?freeUniq_rows; simpl; by rewrite lookup_insert_ne.
Qed.

Lemma Delete_keeps j i w s : held i w s -> held i w (Delete j s).1.
Proof.
  intros (r & Hr & Hs & Hl). unfold Delete. destruct (rows s !! j) as [rj|] eqn:Ej; [|by exists r].
  case_bool_decide as Hd; [by exists r|]. exists r. simpl. rewrite freeUniq_rows. simpl.
  rewrite lookup_delete_ne; [done|]. intros ->. congruence.
Qed.

Lemma idle_rows i j r s s' :
  idle i s -> rows s' = <[j := r]> (rows s) -> state r <> StateRunning -> idle i s'.
Proof.
  intros H E Hr x. rewrite E, lookup_insert. case_decide; [|apply H]. by intros [= <-].
Qed.

Lemma idle_same i s s' : idle i s -> rows s' = rows s -> idle i s'.
Proof. intros H E x. rewrite E. apply H. Qed.

Lemma Insert_idle i now jobs s : idle i s -> idle i (insertLocked newID now jobs s).1.
Proof.
  revert s. induction jobs as [|j jobs IH]; intros s H; [done|]. simpl.
  assert (H1 : idle i (insertOne newID now j s).1).
  { unfold insertOne. destruct (if hasKey j then liveHolder s j else None) as [[h rh]|]; [done|].
    simpl. eapply idle_rows; [exact H|by destruct (hasKey j)|]. simpl. by destruct (After _ _). }
  destruct (insertOne newID now j s) as [s1 r1]. specialize (IH s1 H1).
  by destruct (insertLocked newID now jobs s1).
Qed.

Lemma Sweep_idle i now order s : idle i s -> idle i (sweepLoop newID now order s).1.
Proof.
  revert s. induction order as [|j order IH]; intros s H; [done|]. cbn [sweepLoop].
  destruct (rows s !! j) as [rj|]; [|by apply IH]. destruct (leaseExpired now rj); [|by apply IH].
  assert (H1 : idle i (sweepOne newID now rj s)).
  { eapply idle_rows; [exact H|apply sweepOne_rows|]. unfold sweptRow.
    by destruct (cancelRequested rj), (MaxAttempts (job rj) <=? attempt rj + 1). }
  specialize (IH _ H1). by destruct (sweepLoop newID now order _).
Qed.

Lemma Heartbeat_idle i j w now until s : idle i s -> idle i (Heartbeat j w now until s).1.
Proof.
  intros H. unfold Heartbeat. destruct (ownedRow s j w) as [r|] eqn:E; [|done].
  apply ownedRow_Some in E as (Hj & Hs & _). intros x. simpl. rewrite lookup_insert.
  case_decide as Hd; [|apply H]. subst j. by destruct (H r Hj).
Qed.

Lemma Cancel_idle i j now s : idle i s -> idle i (Cancel j now s).1.
Proof.
  intros H. unfold Cancel. destruct (rows s !! j) as [r|] eqn:E; [|done].
  destruct (Terminal (state r)); [done|]. case_bool_decide as Hs; simpl.
  - intros x. simpl. rewrite lookup_insert. case_decide as Hd; [|apply H]. subst j. by destruct (H r E).
  - eapply idle_rows; [exact H|by rewrite freeUniq_rows|done].
Qed.

Lemma Retry_idle i j now s : idle i s -> idle i (Retry j now s).1.
Proof.
  intros H. unfold Retry. destruct (rows s !! j) as [r|]; [|done]. destruct (_ || _); [done|].
  repeat case_match; simpl; (done || by eapply idle_rows).
Qed.

Lemma Delete_idle i j s : idle i s -> idle i (Delete j s).1.
Proof.
  intros H. unfold Delete. destruct (rows s !! j) as [r|]; [|done]. case_bool_decide; [done|].
  intros x. simpl. rewrite freeUniq_rows. simpl. rewrite lookup_delete. case_decide; [done|apply H].
Qed.

Lemma Complete_idle i j w now o s : idle i s -> idle i (Complete newID j w now o s).1.
Proof.
  intros H. destruct (ownedRow s j w) as [r|] eqn:E; [|by unfold Complete; rewrite E].
  destruct (Complete_owned newID j w now o s r E) as (_ & HR & _). cbv zeta in HR.
  apply ownedRow_Some in E as (Hj & Hs & _). intros x. rewrite HR, lookup_insert.
  destruct (decide (j = i)) as [Hd|]; [|apply H]. subst j. by destruct (H r Hj).
Qed.

Lemma unclaimed_step_idle i s s' : idle i s -> unclaimed_step s s' -> idle i s'.
Proof.
  intros H (c & Hc & ->). destruct c; simpl in *;
    eauto using Insert_idle, Sweep_idle, Heartbeat_idle, Complete_idle, Cancel_idle, Retry_idle,
      Delete_idle; [done|].
  unfold FireSchedule. destruct (schedules s !! _) as [sched|]; [|done].
  destruct (negb _); [done|]. pose proof (Insert_idle i (f_Now f) (f_Jobs f) s H) as HI.
  by destruct (insertLocked _ _ _ _).
Qed.

Lemma unclaimed_steps_idle i s s' : rtc unclaimed_step s s' -> idle i s -> idle i s'.
Proof. induction 1; eauto using unclaimed_step_idle. Qed.

Lemma idle_unowned i w s : idle i s -> ownedRow s i w = None.
Proof.
  intros H. destruct (ownedRow s i w) as [r|] eqn:E; [|done].
  apply ownedRow_Some in E as (Hj & Hs & _). by destruct (H r Hj).
Qed.

Context (newID_inj : Inj (=) (=) newID).

Lemma Insert_keeps now jobs i w s :
  store_wf newID s -> Forall (fun j => 0 < MaxAttempts j) jobs ->
  held i w s -> held i w (insertLocked newID now jobs s).1.
Proof.
  intros W HJ (r & Hr & H). pose proof (insertLocked_spec newID newID_inj now jobs s W HJ) as HI.
  destruct (insertLocked newID now jobs s) as [s' rs]. destruct HI as [_ Hsub].
  exists r. split; [by eapply lookup_weaken|done].
Qed.

Lemma lease_step_keeps i w s s' :
  store_wf newID s -> held i w s -> lease_step i w s s' -> store_wf newID s' /\ held i w s'.
Proof.
  intros W H (c & Ha & Hl & ->). split; [eapply step_wf; [done|exact W|by exists c]|].
  destruct c; simpl in *; eauto using Insert_keeps, Heartbeat_keeps, Complete_keeps, Retry_keeps,
    Cancel_keeps, Delete_keeps.
  - destruct H as (r & Hr & Hs & Hw). exists r.
    by rewrite (proj1 (Claim_keeps_running req i r s W Hr Hs)).
  - destruct H as (r & Hr & Hs & Hw). exists r. split; [|done]. specialize (Hl r Hr).
    apply sweepLoop_keeps; [done..|]. unfold leaseExpired, After.
    rewrite (proj2 (Z.ltb_lt _ _) Hl). by rewrite !andb_false_r.
  - unfold FireSchedule. destruct (schedules s !! _) as [sched|]; [|done].
    destruct (negb _); [done|]. pose proof (Insert_keeps (f_Now f) (f_Jobs f) i w s W Ha H) as HI.
    by destruct (insertLocked _ _ _ _).
Qed.

Lemma lease_steps_keep i w s s' :
  rtc (lease_step i w) s s' -> store_wf newID s -> held i w s -> store_wf newID s' /\ held i w s'.
Proof.
  induction 1 as [|x y z H _ IH]; intros W Hh; [done|].
  destruct (lease_step_keeps i w x y W Hh H). by apply IH.
Qed.
End leases.

(** ** Listing *)

Definition with_cursor (c : option (Time * string)) (f : ListFilter) : ListFilter :=
  mkListFilter (lf_Queues f) (lf_Kinds f) (lf_States f) (lf_Limit f) c.

(** A client that follows the cursors from page to page, at most [fuel] of them. *)
Fixpoint walk (fuel : nat) (f : ListFilter) (s : MemoryStore) : list memRow :=
  match fuel with
  | O => []
  | S fuel =>
      let '(page, next) := List f s in
      page ++ match next with
              | Some c => walk fuel (with_cursor (Some c) f) s
              | None => []
              end
  end.

(** All the rows the filter selects, oldest first. *)
Definition listing (f : ListFilter) (s : MemoryStore) : list memRow :=
  sort_by list_cmp (filter (fun r => rowMatches r f = true) ((map_to_list (rows s)).*2)).

Section listing.
Context (newID : nat -> string).

Definition list_lt (r r' : memRow) : Prop := list_cmp r r' = Lt.

Lemma sorted_unique l l' :
  (forall x y, x ∈ l -> y ∈ l' -> id x = id y -> x = y) ->
  StronglySorted (cmp_le list_cmp) l -> StronglySorted (cmp_le list_cmp) l' -> l ≡ₚ l' -> l = l'.
Proof.
  intros Hid H1 H2 HP. apply (StronglySorted_unique_strong (cmp_le list_cmp)); try done.
  intros x y Hx Hy Hxy Hyx. apply Hid; [done|done|]. apply list_cmp_Eq.
  unfold cmp_le in *. destruct (list_cmp x y) eqn:E; [done| |done].
  apply cmp_Lt_Gt in E; [done|apply _].
Qed.

Lemma listing_sorted f s : StronglySorted (cmp_le list_cmp) (listing f s).
Proof. apply sort_by_sorted. apply _. Qed.

Lemma elem_of_listing f s r :
  r ∈ listing f s <-> rowMatches r f = true /\ r ∈ (map_to_list (rows s)).*2.
Proof. unfold listing. by rewrite elem_of_sort_by, list_elem_of_filter. Qed.

Lemma past_listing f s c :
  store_wf newID s ->
  sort_by list_cmp (filter (fun r => rowMatches r f = true /\ pastCursor r c = true)
    ((map_to_list (rows s)).*2)) = filter (fun r => pastCursor r c = true) (listing f s).
Proof.
  intros W. apply sorted_unique.
  - intros x y [_ Hx]%elem_of_sort_by%list_elem_of_filter
      [_ [_ Hy]%elem_of_listing]%list_elem_of_filter. by apply (rows_id_inj newID s).
  - apply sort_by_sorted. apply _.
  - apply StronglySorted_filter, listing_sorted.
  - rewrite sort_by_perm. unfold listing. rewrite (sort_by_perm list_cmp (filter (fun r => rowMatches r f = true) _)).
    rewrite list_filter_filter. apply reflexive_eq, list_filter_ext. intros x _. tauto.
Qed.

Lemma listing_strict f s : store_wf newID s -> StronglySorted list_lt (listing f s).
Proof.
  intros W. pose proof (rows_ids_NoDup newID s W) as HN.
  assert (HN' : NoDup (id <$> listing f s)).
  { unfold listing. rewrite (sort_by_perm list_cmp _).
    eapply sublist_NoDup; [exact HN|]. apply fmap_sublist, sublist_filter. }
  clear HN. pose proof (listing_sorted f s) as HS. induction HS as [|r l HS IH HF]; constructor.
  - apply IH. by inversion HN'.
  - rewrite fmap_cons, NoDup_cons in HN'. rewrite Forall_forall in HF |- *. intros x Hx.
    specialize (HF x Hx). unfold list_lt, cmp_le in *.
    destruct (list_cmp r x) eqn:E; [|done|done]. apply list_cmp_Eq in E.
    destruct HN' as [[] _]. rewrite E. by apply list_elem_of_fmap_2.
Qed.

(** The rows past the cursor of [r] are those listed after [r]. *)
Lemma past_suffix pre r post :
  StronglySorted list_lt (pre ++ r :: post) ->
  filter (fun x => pastCursor x (Some (createdAt r, id r)) = true) (pre ++ r :: post) = post.
Proof.
  intros (Hx & Hpre & Hpost)%StronglySorted_app. apply StronglySorted_inv in Hpost as [Hpost HF].
  rewrite filter_app, filter_cons.
  rewrite (list_filter_ext _ (fun _ => False) pre), (list_filter_ext _ (fun _ => True) post).
  - assert (E : pastCursor r (Some (createdAt r, id r)) <> true).
    { rewrite pastCursor_spec, cmp_refl; [done|apply _]. }
    rewrite decide_False by done.
    assert (filter (fun _ => False) pre = []) as -> by (clear; induction pre; [done|]; by rewrite filter_cons).
    simpl. clear. induction post as [|x l IH]; [done|]. rewrite filter_cons. simpl. by rewrite IH.
  - intros x Hin. rewrite pastCursor_spec. rewrite Forall_forall in HF. specialize (HF x Hin). done.
  - intros x Hin. rewrite pastCursor_spec. split; [|done]. intros E.
    specialize (Hx x r Hin ltac:(by left)).
    apply cmp_Lt_Gt in E; [|apply _]. unfold list_lt in Hx. congruence.
Qed.

Lemma walk_from f s fuel pre suf :
  store_wf newID s -> listing f s = pre ++ suf ->
  suf = filter (fun x => pastCursor x (lf_Cursor f) = true) (listing f s) ->
  (length suf <= fuel)%nat -> (0 < fuel)%nat -> walk fuel f s = suf.
Proof.
  intros W. revert f pre suf. induction fuel as [|fuel IH]; intros f pre suf E Hs Hlen Hf; [lia|].
  simpl. unfold List. rewrite (past_listing f s _ W), <-Hs.
  set (limit := Z.to_nat (NormalizeLimit (lf_Limit f))).
  assert (Hl : (0 < limit)%nat).
  { subst limit. unfold NormalizeLimit, DefaultListLimit, MaxListLimit. repeat case_match; zbool; lia. }
  clearbody limit. destruct (limit <? length suf)%nat eqn:EL.
  2: { by rewrite app_nil_r. }
  apply Nat.ltb_lt in EL.
  destruct (lookup_lt_is_Some_2 suf (limit - 1)) as [r Hr]; [lia|]. rewrite Hr.
  assert (Es : suf = take (limit - 1) suf ++ r :: drop limit suf).
  { rewrite <-(take_drop (limit - 1) suf) at 1. f_equal.
    rewrite (drop_S _ r) by done. do 2 f_equal. lia. }
  transitivity (take limit suf ++ drop limit suf); [|apply take_drop]. f_equal.
  apply (IH (with_cursor (Some (createdAt r, id r)) f) (pre ++ take limit suf)).
  - change (listing (with_cursor _ f) s) with (listing f s). rewrite <-app_assoc. by rewrite take_drop.
  - change (listing (with_cursor _ f) s) with (listing f s). simpl.
    assert (E' : listing f s = (pre ++ take (limit - 1) suf) ++ r :: drop limit suf).
    { rewrite E. rewrite Es at 1. by rewrite app_assoc. }
    rewrite E'. symmetry. apply past_suffix. rewrite <-E'. by apply listing_strict.
  - rewrite length_drop. lia.
  - lia.
Qed.
End listing.

(** ** The contract *)

(** C1: In every store reached by a sequence of calls that keep to the rules of the
    manager and the worker (ids are drawn without repetition, inserted jobs have a
    positive attempt cap, a completion does not report the state running, numbers its
    attempt one past the row's count when it records one, and leaves the job live only
    while executions are left), two live jobs never share a unique key (kind, handler, key); every job's attempt ledger is numbered
    1, 2, ... up to its execution count without gap or repetition; a live job has
    executions left; and a lease is held exactly by the running jobs. *)
Theorem jobs_store_invariant newID s :
  Inj (=) (=) newID -> reachable newID s ->
  (forall i i' r r', rows s !! i = Some r -> rows s !! i' = Some r' ->
     UniqueKey (job r) <> ""%string -> Terminal (state r) = false -> Terminal (state r') = false ->
     Kind (job r) = Kind (job r') -> HandlerID (job r) = HandlerID (job r') ->
     UniqueKey (job r) = UniqueKey (job r') -> i = i') /\
  (forall i r, rows s !! i = Some r ->
     at_Attempt <$> default [] (attempts s !! i) = seqZ 1 (attempt r) /\
     (Terminal (state r) = false -> attempt r < MaxAttempts (job r)) /\
     (state r = StateRunning <-> lockedBy r <> ""%string)).
Proof.
  intros Hinj W%reachable_wf; [|done]. split.
  - intros i i' r r' Hr Hr' HK Ht Ht' E1 E2 E3.
    eapply (uniq_functional (rows s) (uniq s) (jobKey (job r))); [apply W|done|done|..].
    + split; [|done]. unfold hasKey. by rewrite bool_decide_false.
    + split; [unfold hasKey; by rewrite bool_decide_false by congruence|]. split; [done|].
      unfold jobKey. congruence.
  - intros i r Hr. pose proof (wf_rows newID s W i r Hr) as [H1 H2 H3 H4].
    pose proof (wf_ledger newID s W i) as HL. rewrite Hr in HL. split; [done|]. split; [done|].
    split; [done|]. intros Hl. destruct (decide (state r = StateRunning)) as [|Hn]; [done|].
    by destruct (H2 Hn).
Qed.

(** A claim takes only due jobs of the requested queues and handlers, leases each
    to the caller, never takes a job twice, leaves the other rows alone, and respects
    both the batch limit and every per-queue cap. It takes the best ones: an eligible
    job is left only when the batch was filled by jobs ordered before it, or its queue's
    cap was used up by jobs ordered before it. *)
Theorem claim_takes_the_best newID req s :
  store_wf newID s ->
  exists taken,
    (Claim req s).2 = claimed_of req <$> taken /\
    NoDup (id <$> taken) /\
    Forall (fun r => rows s !! id r = Some r /\ claimable req r = true /\
              rows (Claim req s).1 !! id r = Some (leased req r)) taken /\
    (forall i, i ∉ id <$> taken -> rows (Claim req s).1 !! i = rows s !! i) /\
    (cr_WorkerID req = ""%string \/ cr_Handlers req = ∅ -> taken = []) /\
    (cr_WorkerID req <> ""%string -> cr_Handlers req <> ∅ ->
     let limit := if cr_Limit req <=? 0 then 1 else cr_Limit req in
     Z.of_nat (length taken) <= limit /\
     (forall q qlim, cr_QueueLimits req !! q = Some qlim -> 0 <= qlim -> count_queue q taken <= qlim) /\
     (forall i r, rows s !! i = Some r -> claimable req r = true -> r ∉ taken ->
        (Z.of_nat (length taken) = limit /\ Forall (fun t => claim_lt t r) taken) \/
        exists qlim, cr_QueueLimits req !! Queue (job r) = Some qlim /\ 0 <= qlim /\
          qlim <= count_queue (Queue (job r)) (filter (fun t => claim_lt t r) taken))).
Proof.
  intros W. destruct (Claim_taken newID req s W) as (taken & HC & HN & HF & Hw & HP).
  exists taken. rewrite HC. split; [done|]. split; [done|].
  destruct (lease_all_lookup req taken (rows s) "" HN) as [HL _]. split; [|split; [|split]].
  - rewrite Forall_forall in HF |- *. intros r Hr. destruct (HF r Hr). split_and!; [done..|].
    by apply HL.
  - intros i Hi. by apply (lease_all_lookup req taken (rows s) i HN).
  - intros Hor. destruct taken as [|t l]; [done|]. exfalso.
    assert (cr_WorkerID req <> ""%string) by by apply Hw.
    destruct Hor as [?|E]; [done|]. apply Forall_cons in HF as [[_ Hc] _].
    unfold claimable in Hc. zbool. rewrite E in *.
    match goal with H : bool_decide (_ ∈ ∅) = true |- _ => apply bool_decide_eq_true in H end.
    set_solver.
  - intros H1 H2 limit. destruct (HP H1 H2) as (_ & Hlen & Hq & Hr). fold limit in Hlen, Hr.
    assert (0 < limit) by (unfold limit; case_match; zbool; lia).
    split; [lia|]. split.
    + intros q qlim Hql H0. specialize (Hq q qlim Hql H0). rewrite lookup_empty in Hq. simpl in Hq. lia.
    + intros i r Hi Hc Hnin. destruct (Hr r) as [[? ?]|(qlim & ? & ? & Hc')]; [|done| |].
      * apply candidates_spec. eauto.
      * left. split; [lia|done].
      * right. exists qlim. rewrite lookup_empty in Hc'. simpl in Hc'. done.
Qed.

(** C2: A claimed job belongs to its claimer alone for as long as the lease stands. A
    claim files the job as running, leased to the caller until the lease's end. From
    there on, through any sequence of calls in which the claimer does not complete the
    job and no sweep comes at or after the end of its lease (which its heartbeats move),
    the job stays running and leased to it; no claim, by whatever worker, hands it out;
    another worker's heartbeat or completion is refused and leaves the store exactly as
    it is; and the job cannot be deleted or retried. The store is any reached by calls
    that keep to the manager's and worker's rules ([allowed]). *)
Theorem claimed_jobs_are_exclusive newID req cj s :
  Inj (=) (=) newID -> reachable newID s -> cj ∈ (Claim req s).2 ->
  let i := cj_ID cj in
  let w := cr_WorkerID req in
  (exists r r', rows s !! i = Some r /\ state r <> StateRunning /\
     rows (Claim req s).1 !! i = Some r' /\ state r' = StateRunning /\ lockedBy r' = w /\
     lockedUntil r' = cr_Now req + cr_Lease req) /\
  forall s', rtc (lease_step newID i w) (Claim req s).1 s' ->
    (exists r, rows s' !! i = Some r /\ state r = StateRunning /\ lockedBy r = w) /\
    (forall req', i ∉ cj_ID <$> (Claim req' s').2) /\
    (forall w', w' <> w ->
       (forall now until, Heartbeat i w' now until s' = (s', Err ErrNotFound)) /\
       (forall now o, Complete newID i w' now o s' = (s', Err ErrNotFound))) /\
    Delete i s' = (s', Some ErrJobRunning) /\
    (forall now, Retry i now s' = (s', Some ErrJobNotRetryable)).
Proof.
  intros Hinj W%reachable_wf Hin i w; [|done]. pose proof (Claim_wf newID req s W) as W1.
  assert (H1 : exists r, rows s !! i = Some r /\ state r <> StateRunning /\
    rows (Claim req s).1 !! i = Some (leased req r)).
  { destruct (Claim_taken newID req s W) as (taken & HC & HN & HF & _ & _). rewrite HC in Hin |- *.
    apply list_elem_of_fmap in Hin as (r & Hi & Hr). unfold i. rewrite Hi. exists r.
    destruct (proj1 (Forall_forall _ _) HF r Hr) as [Hl Hc]. split; [done|].
    split; [|exact (proj1 (lease_all_lookup req taken (rows s) (id r) HN) r Hr)].
    intros E. unfold claimable in Hc. by rewrite E in Hc. }
  destruct H1 as (r & Hr & Hs & Hr'). split; [by exists r, (leased req r)|].
  intros s' Hrun. destruct (lease_steps_keep newID Hinj i w _ s' Hrun W1) as [W2 (r2 & H2 & S2 & L2)].
  { by exists (leased req r). }
  split; [by exists r2|]. split; [|split; [|split]].
  - intros req'. exact (proj2 (Claim_keeps_running newID req' i r2 s' W2 H2 S2)).
  - intros w' Hw'. assert (Hown : ownedRow s' i w' = None)
      by (apply (ownedRow_other _ _ _ r2); [done|congruence]).
    split; intros; [unfold Heartbeat|unfold Complete]; by rewrite Hown.
  - unfold Delete. by rewrite H2, bool_decide_true.
  - intros now. unfold Retry. by rewrite H2, S2.
Qed.

(** C37: Only the lease holder completes a job, and only once. Anybody else is refused and
    changes nothing. The holder's call, reporting a state other than running, applies one
    state, cancelled when cancellation was requested meanwhile and the reported one
    otherwise; the row is at rest again (no holder, no lease end, no cancellation
    request), carries the reported error and the attempt number, keeps every field of the
    job (only the due time of one that waits again is the reported one), and [updatedAt]
    never moves back; the ledger gains the one entry of the attempt, when one is recorded;
    the unique key is freed when the job has ended and held it; every other row, ledger
    and key and the workers and schedules are as before. Afterwards, whatever calls other
    than a claim follow, every completion or heartbeat of the job is refused and changes
    nothing. *)
Theorem completion_is_exactly_once newID i w now o s :
  o_State o <> StateRunning ->
  match ownedRow s i w with
  | None => Complete newID i w now o s = (s, Err ErrNotFound)
  | Some r =>
      let applied := if cancelRequested r then StateCancelled else o_State o in
      let record := if cancelRequested r then Some AttemptCancelled else o_AttemptState o in
      let num := match o_AttemptState o with
                 | None => if cancelRequested r then attempt r + 1 else o_Attempt o
                 | Some _ => o_Attempt o end in
      let j := job r in
      let ended := bool_decide (applied ∈ [StateSucceeded; StateFailed; StateCancelled; StateDiscarded]) in
      let waits := bool_decide (applied ∈ [StatePending; StateAvailable]) in
      let key := uniqKey (Kind j) (HandlerID j) (UniqueKey j) in
      let s' := (Complete newID i w now o s).1 in
      (Complete newID i w now o s).2 = Ok applied /\
      rows s' = <[i := mkRow
          (mkJob (Kind j) (HandlerID j) (Payload j) (Queue j) (Priority j)
             (if waits then o_AvailableAt o else AvailableAt j) (MaxAttempts j) (TimeoutMs j)
             (OnTimeout j) (BackoffSpec j) (UniqueKey j) (ScheduledFor j) (ScheduledForSet j))
          (id r) applied (if record then num else attempt r) "" zero_time false (o_Error o)
          (createdAt r) (Z.max (updatedAt r) now)]> (rows s) /\
      attempts s' = match record with
        | Some st => <[i := default [] (attempts s !! i) ++
            [mkAttempt (newID (drawn s)) i num w st (o_Error o) (o_StartedAt o) (o_FinishedAt o)]]>
            (attempts s)
        | None => attempts s end /\
      uniq s' = (if ended && bool_decide (UniqueKey j <> ""%string /\ uniq s !! key = Some (id r))
                 then delete key (uniq s) else uniq s) /\
      workers s' = workers s /\ schedules s' = schedules s /\
      (forall s2, rtc (unclaimed_step newID) s' s2 -> forall w' now',
         (forall until, Heartbeat i w' now' until s2 = (s2, Err ErrNotFound)) /\
         (forall o', Complete newID i w' now' o' s2 = (s2, Err ErrNotFound)))
  end.
Proof.
  intros Ho. destruct (ownedRow s i w) as [r|] eqn:E; [|by unfold Complete; rewrite E].
  destruct (Complete_owned newID i w now o s r E) as (HO & HR & HA & HU & HW & HS).
  cbv zeta in HR, HA, HU. cbv zeta. split; [done|].
  assert (Hidle : idle i (Complete newID i w now o s).1).
  { intros x. rewrite HR, lookup_insert_eq. intros [= <-]. simpl. by destruct (cancelRequested r). }
  split; [|split; [|split; [|split; [done|split; [done|]]]]].
  - rewrite HR. do 2 f_equal.
    generalize (if cancelRequested r then StateCancelled else o_State o). intros st.
    destruct (job r). by destruct st.
  - by rewrite HA.
  - rewrite HU. unfold hasKey, jobKey.
    generalize (if cancelRequested r then StateCancelled else o_State o). intros st.
    destruct st; simpl; repeat case_bool_decide; simpl; naive_solver.
  - intros s2 Hrun w' now'. pose proof (unclaimed_steps_idle newID i _ s2 Hrun Hidle) as H2.
    split; intros; [unfold Heartbeat|unfold Complete]; by rewrite idle_unowned.
Qed.

(** Whatever order the rows are visited in, a sweep takes every expired lease away
    and nothing else: each running job whose lease is over becomes cancelled when
    cancellation was requested, discarded when its executions are used up and available
    again otherwise, with one more execution on its ledger; the count returned is the
    number of those jobs, and no expired lease is left. *)
Theorem sweep_reclaims_every_expired_lease newID now order s :
  store_wf newID s -> NoDup order -> (forall i, is_Some (rows s !! i) -> i ∈ order) ->
  let s' := (SweepExpired newID now order s).1 in
  (forall i, rows s' !! i =
     (fun r => if leaseExpired now r then sweptRow now r else r) <$> rows s !! i) /\
  (forall i r, rows s' !! i = Some r -> leaseExpired now r = false) /\
  (forall i r, rows s !! i = Some r -> leaseExpired now r = true ->
     state (sweptRow now r) <> StateRunning /\ attempt (sweptRow now r) = attempt r + 1) /\
  (SweepExpired newID now order s).2 =
    Z.of_nat (length (filter (fun i => expiredAt now (rows s) i = true) order)).
Proof.
  intros W HN Hall s'. destruct (sweepLoop_rows newID now order s W HN) as [HR HC].
  assert (HR' : forall i, rows s' !! i =
    (fun r => if leaseExpired now r then sweptRow now r else r) <$> rows s !! i).
  { intros i. unfold s', SweepExpired. rewrite HR. case_decide as Hd; [done|].
    destruct (rows s !! i) eqn:E; [|done]. destruct Hd. apply Hall. by rewrite E. }
  split; [done|]. split; [|split; [|done]].
  - intros i r Hr. rewrite HR' in Hr. destruct (rows s !! i) as [r0|]; [|done].
    simpl in Hr. injection Hr as <-. destruct (leaseExpired now r0) eqn:E; [|done].
    unfold leaseExpired, sweptRow. destruct (cancelRequested r0), (MaxAttempts (job r0) <=? attempt r0 + 1); done.
  - intros i r _ _. unfold sweptRow.
    destruct (cancelRequested r), (MaxAttempts (job r) <=? attempt r + 1); done.
Qed.

(** An insert answers every job, in order, with a row that is filed afterwards: a
    new one holding exactly the job (pending until its due time), or, when a live job
    has the same kind, handler and key (an earlier one of the same batch included), that
    job, flagged as a duplicate. It never touches a row that was there. *)
Theorem insert_files_or_deduplicates newID now jobs s :
  Inj (=) (=) newID -> store_wf newID s -> Forall (fun j => 0 < MaxAttempts j) jobs ->
  let '(s', res) := Insert newID now jobs s in
  Forall2 (fun j r => inserted now (rows s) j r (rows s')) jobs res /\ rows s ⊆ rows s'.
Proof. intros. by apply insertLocked_spec. Qed.

(** Following the cursors from page to page visits every job the filter selects
    exactly once, in order of creation time and id: the concatenated pages are the whole
    listing, and at most as many pages are needed as there are jobs. *)
Theorem list_walk_is_the_listing newID f s :
  store_wf newID s -> lf_Cursor f = None ->
  walk (S (length (listing f s))) f s = listing f s /\
  NoDup (id <$> listing f s) /\
  (forall r, r ∈ listing f s <-> rowMatches r f = true /\ exists i, rows s !! i = Some r) /\
  StronglySorted list_lt (listing f s).
Proof.
  intros W Hc. split; [|split; [|split]].
  - apply (walk_from newID f s _ []); [done|done| |lia|lia].
    rewrite Hc. symmetry. rewrite (list_filter_ext _ (fun _ => True)) by done.
    generalize (listing f s). induction l as [|x l IH]; [done|]. by rewrite filter_cons, IH.
  - unfold listing. rewrite (sort_by_perm list_cmp _).
    eapply sublist_NoDup; [exact (rows_ids_NoDup newID s W)|]. apply fmap_sublist, sublist_filter.
  - intros r. by rewrite elem_of_listing, elem_of_rows.
  - by apply (listing_strict newID).
Qed.

(** Of any number of firings that expect the same last run of a schedule, one wins:
    once a firing has succeeded, every other with that expectation is refused, inserts
    nothing and leaves the store as it is. *)
Lemma FireSchedule_once newID f f' s s' rs :
  FireSchedule newID f s = (s', Ok (true, rs)) ->
  f_Group f' = f_Group f -> f_Name f' = f_Name f ->
  f_ExpectedLastRun f' = f_ExpectedLastRun f ->
  IsZero (f_NewLastRun f) = false -> f_ExpectedLastRun f <> Some (f_NewLastRun f) ->
  FireSchedule newID f' s' = (s', Ok (false, [])).
Proof.
  intros HF E1 E2 E3 Hz Hne. unfold FireSchedule in *. rewrite E1, E2, E3.
  destruct (schedules s !! _) as [sched|] eqn:ES; [|done].
  destruct (lastRunMatches sched _) eqn:EM; simpl in HF; [|done].
  destruct (insertLocked newID _ _ s) as [s1 rs1]. injection HF as <- _.
  simpl. rewrite lookup_insert_eq. unfold lastRunMatches. simpl. rewrite Hz.
  destruct (f_ExpectedLastRun f) as [t|]; [|done]. simpl.
  unfold Equal. rewrite (proj2 (Z.eqb_neq _ _)); [done|]. congruence.
Qed.

(** ** A concrete run

    Two keyed jobs and a delayed one are inserted, two are claimed by the worker [w],
    and a sweep later takes the lease of the first back. *)
Module Run.
Definition ids (n : nat) : string := Nat.iter n (String "a"%char) ""%string.

Lemma ids_length n : String.length (ids n) = n.
Proof. induction n as [|n IH]; [done|]. exact (f_equal S IH). Qed.

Lemma ids_inj : Inj (=) (=) ids.
Proof. intros n m E. by rewrite <-(ids_length n), <-(ids_length m), E. Qed.

Definition mk (key : string) (prio at_ : Z) : Job :=
  mkJob "mail" "send" "{}" "default" prio at_ 2 0 TimeoutRetry None key zero_time false.
Definition jobs : list Job := [mk "k1" 0 50; mk "k1" 0 50; mk "" 5 60; mk "" 0 900].
Definition s1 : MemoryStore := (Insert ids 100 jobs NewMemoryStore).1.
Definition req (w : string) : ClaimRequest :=
  mkClaimRequest w ["default"%string] 120 30 2 {["default"%string := 2]} {[("mail", "send")%string]}.
Definition s2 : MemoryStore := (Claim (req "w") s1).1.
Definition done_ : Outcome :=
  mkOutcome StateSucceeded 1 "" zero_time (Some AttemptSucceeded) 120 130.

(** The job is cancelled while it runs; a completed one is retried too early. *)
Definition cancelled : MemoryStore := (Cancel "a" 140 s2).1.
Definition completed : MemoryStore := (Retry "a" 131 (Complete ids "a" "w" 130 done_ s2).1).1.

Lemma jobs_capped : Forall (fun j => 0 < MaxAttempts j) jobs.
Proof. repeat constructor. Qed.

Lemma s1_reachable : reachable ids s1.
Proof. eapply rtc_l; [exists (CallInsert 100 jobs); split; [apply jobs_capped|done]|]. apply rtc_refl. Qed.

Lemma s2_reachable : reachable ids s2.
Proof. eapply rtc_r; [apply s1_reachable|]. by exists (CallClaim (req "w")). Qed.

Lemma s1_wf : store_wf ids s1.
Proof. apply reachable_wf; [apply ids_inj|apply s1_reachable]. Qed.
Lemma s2_wf : store_wf ids s2.
Proof. apply reachable_wf; [apply ids_inj|apply s2_reachable]. Qed.

Example inserted_three : size (rows s1) = 3%nat /\ uniq s1 !! jobKey (mk "k1" 0 50) = Some ""%string.
Proof. by vm_compute. Qed.

(** Higher priority first; the delayed job waits. *)
Example claimed_two : cj_ID <$> (Claim (req "w") s1).2 = ["a"%string; ""%string].
Proof. by vm_compute. Qed.

Lemma store_invariant_witness :
  reachable ids s2 /\
  (forall i r, rows s2 !! i = Some r ->
     at_Attempt <$> default [] (attempts s2 !! i) = seqZ 1 (attempt r)).
Proof.
  split; [apply s2_reachable|].
  pose proof (jobs_store_invariant ids s2 ids_inj s2_reachable) as [_ H].
  intros i r Hr. by destruct (H i r Hr).
Defined.

Lemma claim_witness :
  exists taken, (Claim (req "w") s1).2 = claimed_of (req "w") <$> taken /\ length taken = 2%nat.
Proof.
  destruct (claim_takes_the_best ids (req "w") s1 s1_wf) as (taken & H & _).
  exists taken. split; [exact H|].
  rewrite <-(length_fmap (claimed_of (req "w"))), <-H. by vm_compute.
Defined.

Lemma exclusive_witness : Heartbeat "a" "thief" 125 155 cancelled = (cancelled, Err ErrNotFound).
Proof.
  destruct (claimed_jobs_are_exclusive ids (req "w") (mkClaimedJob (mk "" 5 60) "a" 0 150) s1
    ids_inj s1_reachable) as (_ & H).
  - vm_compute. left.
  - destruct (H cancelled) as (_ & _ & H3 & _); [|by apply (H3 "thief"%string)].
    apply rtc_once. exists (CallCancel "a" 140). by split_and!.
Defined.

Lemma completion_witness :
  (Complete ids "a" "w" 130 done_ s2).2 = Ok StateSucceeded /\
  Complete ids "a" "w" 131 done_ completed = (completed, Err ErrNotFound).
Proof.
  pose proof (completion_is_exactly_once ids "a" "w" 130 done_ s2 ltac:(done)) as H.
  destruct (ownedRow s2 "a" "w") as [r|] eqn:E; [|by vm_compute in E].
  assert (Hc : cancelRequested r = false) by (vm_compute in E; by injection E as <-).
  destruct H as (HO & _ & _ & _ & _ & _ & H). rewrite Hc in HO. split; [exact HO|].
  apply (H completed). apply rtc_once. by exists (CallRetry "a" 131).
Defined.

Lemma sweep_witness :
  (SweepExpired ids 200 ["a"; ""; "aa"]%string s2).2 = 2 /\
  forall i r, rows (SweepExpired ids 200 ["a"; ""; "aa"]%string s2).1 !! i = Some r ->
    leaseExpired 200 r = false.
Proof.
  destruct (sweep_reclaims_every_expired_lease ids 200 ["a"; ""; "aa"]%string s2 s2_wf)
    as (_ & H & _ & ->).
  - by apply (bool_decide_unpack _).
  - intros i Hi. assert (Hd : i ∈ elements (dom (rows s2))) by (apply elem_of_elements, elem_of_dom, Hi).
    revert Hd. vm_compute. set_solver.
  - split; [by vm_compute|exact H].
Defined.

Lemma insert_witness : Forall2 (fun j r => inserted 100 ∅ j r (rows s1)) jobs (Insert ids 100 jobs NewMemoryStore).2.
Proof.
  pose proof (insert_files_or_deduplicates ids 100 jobs NewMemoryStore ids_inj
    (empty_wf ids) jobs_capped) as H.
  unfold s1. destruct (Insert ids 100 jobs NewMemoryStore) as [s' res]. exact (proj1 H).
Defined.

Lemma list_witness :
  id <$> walk 4 (mkListFilter [] [] [] 1 None) s1 = [""%string; "a"%string; "aa"%string].
Proof.
  pose proof (list_walk_is_the_listing ids (mkListFilter [] [] [] 1 None) s1 s1_wf eq_refl) as [H _].
  replace 4%nat with (S (length (listing (mkListFilter [] [] [] 1 None) s1))) by by vm_compute.
  rewrite H. by vm_compute.
Defined.

Definition sched : ScheduleRow := mkScheduleRow "g" "n" "mail" "every:60" "{}" "{}" 60 zero_time false 0.
Definition fire : ScheduleFire := mkScheduleFire "g" "n" None 60 120 61 [mk "" 0 60].
Definition s3 : MemoryStore := UpsertSchedule sched NewMemoryStore.

Example fire_once :
  (FireSchedule ids fire s3).2 <> Ok (false, []) /\
  (FireSchedule ids fire (FireSchedule ids fire s3).1).2 = Ok (false, []).
Proof.
  split; [by vm_compute|].
  assert (E : exists s' rs, FireSchedule ids fire s3 = (s', Ok (true, rs)))
    by (eexists _, _; vm_compute; reflexivity).
  destruct E as (s' & rs & E).
  pose proof (FireSchedule_once ids fire fire s3 s' rs E eq_refl eq_refl eq_refl
    eq_refl ltac:(done)) as H.
  rewrite E. simpl. by rewrite H.
Qed.
End Run.
