(* ===== verification/JobBackoff.v ===== *)
(** Retry backoffs: [jobs/backoff.go].

    Delays are int64 nanoseconds with Go's wrap-around; the jitter fraction is an
    IEEE binary64 number, computed on the Standard Library's executable
    specification of floats. The random draw and the JSON encoding are arguments. *)

From Stdlib Require Import Floats.SpecFloat.
From S2P Require Import Prelude.
From S2P Require Import GoTime.
From S2P Require Import JobTypes.

Local Open Scope Z_scope.

Definition float64 : Type := spec_float.

(** [float64(d)] *)
Definition float_of_int (d : Z) : float64 := binary_normalize 53 1024 d 0 false.

Definition float_mul (x y : float64) : float64 := SFmul 53 1024 x y.

(** [x > 0] *)
Definition float_pos (x : float64) : bool :=
  match x with
  | S754_infinity s => negb s
  | S754_finite s _ _ => negb s
  | _ => false
  end.

(** [time.Duration(x)]: truncation toward zero. Values outside int64 are
    implementation-defined in Go; they are wrapped here. *)
Definition int_of_float (x : float64) : Z :=
  match x with
  | S754_finite s m e =>
      let v := if 0 <=? e then Z.pos m * 2 ^ e else Z.pos m / 2 ^ (- e) in
      wrap64 (if s then - v else v)
  | _ => 0
  end.

Record ExponentialBackoff := mkExponentialBackoff {
  Base : Duration;
  Max : Duration;
  Jitter : float64
}.

(** The dynamic types a [Backoff] value has: the package's own, a pointer to it
    (perhaps nil), or a custom implementation. A nil interface is [None]. *)
Inductive Backoff :=
| BExponential (b : ExponentialBackoff)
| BExponentialPtr (b : option ExponentialBackoff)
| BCustom (next : Z -> Duration).

(** [b.Base << shift] *)
Definition shl64 (x shift : Z) : Z := wrap64 (Z.shiftl x shift).

(** The delay before jitter. *)
Definition clamped (b : ExponentialBackoff) (attempt : Z) : Duration :=
  let attempt := if attempt <? 1 then 1 else attempt in
  let shift := attempt - 1 in
  if shift <? 63 then
    let cand := shl64 (Base b) shift in
    if (0 <? cand) && (cand <? Max b) then cand else Max b
  else Max b.

(** [ExponentialBackoff.Next]. [draw n] is [rand.Int64N(n)], which panics ([None])
    when [n <= 0]. *)
Definition Next (draw : Z -> Z) (b : ExponentialBackoff) (attempt : Z) : option Duration :=
  let d := clamped b attempt in
  if float_pos (Jitter b) && (0 <? d) then
    let span := int_of_float (float_mul (float_of_int d) (Jitter b)) in
    if 0 <? span then
      let n := add64 (mul64 2 span) 1 in
      if n <=? 0 then None
      else Some (Z.max (add64 (sub64 d span) (draw n)) 0)
    else Some d
  else Some d.

(** 1s base, 1h cap; 0.2 is 7205759403792794 * 2^-55. *)
Definition DefaultBackoff : Backoff :=
  BExponential (mkExponentialBackoff 1000000000 3600000000000
    (S754_finite false 7205759403792794 (-55))).

Record backoffSpec := mkBackoffSpec {
  bs_Type : string;
  bs_Base : Duration;
  bs_Max : Duration;
  bs_Jitter : float64
}.

Section json.
Context (marshal : backoffSpec -> option string).
Context (unmarshal : string -> option backoffSpec).

Definition encodeBackoff (b : option Backoff) : result Error (option string) :=
let enc exp :=
  match marshal (mkBackoffSpec "exponential" (Base exp) (Max exp) (Jitter exp)) with
  | Some s => Ok (Some s)
  | None => Err (ErrOther "json")
  end in
match b with
| None => Ok None
| Some (BExponential exp) => enc exp
| Some (BExponentialPtr None) => Ok None
| Some (BExponentialPtr (Some exp)) => enc exp
| Some (BCustom _) => Err ErrBackoffNotSerializable
end.

Definition decodeBackoff (data : option string) : option Backoff :=
match data with
| None | Some EmptyString => None
| Some data =>
    match unmarshal data with
    | None => None
    | Some spec =>
        if bool_decide (bs_Type spec = "exponential"%string)
        then Some (BExponential (mkExponentialBackoff (bs_Base spec) (bs_Max spec) (bs_Jitter spec)))
        else None
    end
end.
End json.

(** The delay of any backoff, as the worker asks for it. *)
Definition next_of (draw : Z -> Z) (b : Backoff) (attempt : Z) : option Duration :=
  match b with
  | BExponential e => Next draw e attempt
  | BExponentialPtr (Some e) => Next draw e attempt
  | BExponentialPtr None => None
  | BCustom next => Some (next attempt)
  end.

(** ** Bounds *)

Lemma clamped_spec b attempt :
  0 < Base b -> 0 < Max b <= int64_max -> 1 <= attempt <= 63 -> in_int64 (Base b * 2 ^ (attempt - 1)) ->
  clamped b attempt = Z.min (Base b * 2 ^ (attempt - 1)) (Max b).
Proof.
  intros HB HM Ha Hi. unfold clamped, shl64.
  rewrite (proj2 (Z.ltb_ge attempt 1)), (proj2 (Z.ltb_lt (attempt - 1) 63)) by lia.
  rewrite Z.shiftl_mul_pow2 by lia. rewrite wrap64_id by done.
  pose proof (Z.pow_pos_nonneg 2 (attempt - 1)).
  rewrite (proj2 (Z.ltb_lt 0 _)) by nia. simpl. case_match; zbool; lia.
Qed.

Lemma clamped_range b attempt :
  0 < Max b -> 0 < clamped b attempt <= Max b.
Proof. intros HM. unfold clamped. repeat case_match; zbool; lia. Qed.

(** A retry delay is never negative, whatever the random draw: it stays within one
    jitter span of the clamped exponential delay, which is at most the configured
    maximum and, while base * 2^(attempt-1) fits a 64-bit integer, is exactly the
    smaller of the two. *)
Theorem backoff_delay_bounds draw b attempt :
  0 < Base b -> 0 < Max b <= int64_max / 4 -> 1 <= attempt <= 63 ->
  (forall n, 0 < n -> 0 <= draw n < n) ->
  let span := int_of_float (float_mul (float_of_int (clamped b attempt)) (Jitter b)) in
  span <= Max b ->
  exists d, Next draw b attempt = Some d /\ 0 <= d /\
    clamped b attempt - Z.max 0 span <= d <= clamped b attempt + Z.max 0 span /\
    clamped b attempt <= Max b /\
    (in_int64 (Base b * 2 ^ (attempt - 1)) ->
     clamped b attempt = Z.min (Base b * 2 ^ (attempt - 1)) (Max b)).
Proof.
  intros HB HM Ha Hd span Hs. pose proof (clamped_range b attempt) as HC.
  assert (HI : int64_max / 4 = 2305843009213693951) by done. rewrite HI in HM.
  assert (in_int64 (Max b)) by int_lia.
  assert (HX : in_int64 (Base b * 2 ^ (attempt - 1)) ->
     clamped b attempt = Z.min (Base b * 2 ^ (attempt - 1)) (Max b))
    by (intros; apply clamped_spec; int_lia).
  unfold Next. fold span.
  destruct (float_pos (Jitter b) && (0 <? clamped b attempt)) eqn:E1;
    [|exists (clamped b attempt); split_and!; (done || lia)].
  destruct (0 <? span) eqn:E2; [|exists (clamped b attempt); split_and!; (done || lia)]. zbool.
  rewrite mul64_id, (add64_id (2 * span)) by int_lia.
  specialize (Hd (2 * span + 1) ltac:(lia)).
  rewrite (proj2 (Z.leb_gt _ 0)) by lia.
  rewrite sub64_id, add64_id by int_lia.
  eexists. split; [reflexivity|]. split_and!; (done || lia).
Qed.

(** The shift wraps: a positive but wrong candidate can undercut the maximum. *)
Example backoff_wraps :
  let b := mkExponentialBackoff 2147483649 3600000000000 (S754_zero false) in
  Next (fun _ => 0) b 33 = Some 3600000000000 /\ Next (fun _ => 0) b 34 = Some 8589934592.
Proof. by vm_compute. Qed.

Lemma backoff_delay_bounds_witness :
  exists d, Next (fun n => n - 1) (mkExponentialBackoff 1000000000 3600000000000
      (S754_finite false 7205759403792794 (-55))) 3 = Some d /\ 0 <= d.
Proof.
  destruct (backoff_delay_bounds (fun n => n - 1) (mkExponentialBackoff 1000000000 3600000000000
      (S754_finite false 7205759403792794 (-55))) 3) as (d & H1 & H2 & _).
  - done.
  - by vm_compute.
  - lia.
  - intros; lia.
  - by vm_compute.
  - by exists d.
Defined.
