(* ===== verification/JobManager.v ===== *)
(** The manager: [jobs/manager.go], [jobs/cron.go], [jobs/ops.go] and
    [jobs/inspect.go].

    Registration state is the Go struct's maps, changed under its mutex, so each call
    is a function on the state. A Go type is its qualified name and reflect kind. What
    a message carries, its JSON encoding, the handlers and the clock readings are
    arguments. The store is the in-process one of [JobStore]. *)

From S2P Require Import Prelude.
From S2P Require Import GoTime.
From S2P Require Import Strconv.
From S2P Require Import JobTypes.
From S2P Require Import JobStore.
From S2P Require Import JobBackoff.
From S2P Require Import JobStoreInv.
From S2P Require Import JobStoreSpec.

Local Open Scope Z_scope.
Local Open Scope go_scope.

(** ** Types, configuration, state *)

Inductive rkind := RPointer | RStruct | ROther.
Record rtype := mkRtype { rt_name : string; rt_kind : rkind }.

#[export] Instance rkind_eq_dec : EqDecision rkind.
Proof. solve_decision. Defined.
#[export] Instance rtype_eq_dec : EqDecision rtype.
Proof. solve_decision. Defined.
#[export] Instance rtype_countable : Countable rtype.
Proof.
  refine (inj_countable'
    (fun t => (rt_name t, match rt_kind t with RPointer => 0 | RStruct => 1 | ROther => 2 end)%nat)
    (fun p => mkRtype p.1 (match p.2 with O => RPointer | 1%nat => RStruct | _ => ROther end)) _).
  by intros [n []].
Defined.

Record Config := mkConfig {
  DefaultQueue : string;
  cfg_DefaultBackoff : option Backoff;
  DefaultMaxAttempts : Z;
  SchedulerGroup : string;
  SchedulerInterval : Duration;
  StoreTimeout : Duration
}.

Section manager.
Context {Msg Fn : Type}.

(** [handlerEntry]: the payload decoder for the handler's message type, and the
    handler itself. *)
Record handlerEntry := mkEntry {
  he_decode : string -> result Error Msg;
  he_invoke : Fn
}.

Record Manager := mkManager {
  config : Config;
  kindByType : gmap rtype string;
  typeByKind : gmap string rtype;
  handlers : gmap (string * string) handlerEntry;
  kindHandlers : gmap string (list string);
  declared : gmap string ScheduleRow
}.

(** [New]: defaults and their validation. *)
Definition New (cfg : Config) : result Error Manager :=
let queue := if bool_decide (DefaultQueue cfg = ""%string) then "default"%string
             else DefaultQueue cfg in
check? validIdent "DefaultQueue" queue ;;
let backoff := match cfg_DefaultBackoff cfg with None => DefaultBackoff | Some b => b end in
if DefaultMaxAttempts cfg <? 0 then Err (ErrInvalid "DefaultMaxAttempts")
else
  let maxAtt := if DefaultMaxAttempts cfg =? 0 then 25 else DefaultMaxAttempts cfg in
  let timeout := if StoreTimeout cfg =? 0 then 30000000000
                 else if StoreTimeout cfg <? 0 then 0 else StoreTimeout cfg in
  Ok (mkManager (mkConfig queue (Some backoff) maxAtt (SchedulerGroup cfg)
                   (SchedulerInterval cfg) timeout) ∅ ∅ ∅ ∅ ∅).

(** ** Registration *)

Definition cronPrefix : string := "cron:".

Definition Register (typ : rtype) (kind : string) (m : Manager) : result Error Manager :=
check? validIdent "kind" kind ;;
if HasPrefix kind cronPrefix then Err (ErrInvalid "kind uses the reserved prefix")
else if bool_decide (rt_kind typ = RPointer) then Err (ErrInvalid "message type is a pointer")
else if bool_decide (rt_kind typ <> RStruct) then Err (ErrInvalid "message type is not a struct")
else match kindByType m !! typ with
     | Some existing => if bool_decide (existing = kind) then Ok m else Err ErrTypeAlreadyRegistered
     | None =>
         match typeByKind m !! kind with
         | Some _ => Err ErrKindAlreadyRegistered
         | None =>
             Ok (mkManager (config m) (<[typ := kind]> (kindByType m))
                   (<[kind := typ]> (typeByKind m)) (handlers m) (kindHandlers m) (declared m))
         end
     end.

(** [On[T](m, handlerID, fn)], [fn] not nil; [decode] decodes a payload into a [T]. *)
Definition On (typ : rtype) (handlerID : string) (decode : string -> result Error Msg) (fn : Fn)
  (m : Manager) : result Error Manager :=
check? validIdent "handler-id" handlerID ;;
match kindByType m !! typ with
| None => Err (ErrInvalid "type is not registered")
| Some kind =>
    match handlers m !! (kind, handlerID) with
    | Some _ => Err ErrHandlerAlreadyRegistered
    | None =>
        Ok (mkManager (config m) (kindByType m) (typeByKind m)
              (<[(kind, handlerID) := mkEntry decode fn]> (handlers m))
              (<[kind := default [] (kindHandlers m !! kind) ++ [handlerID]]> (kindHandlers m))
              (declared m))
    end
end.

Definition Handle (typ : rtype) (kind : string) (decode : string -> result Error Msg) (fn : Fn)
  (m : Manager) : result Error Manager :=
let? m := Register typ kind m in On typ kind decode fn m.

Context (TypeOf : Msg -> option rtype).

(** [resolve]: the kind and the handler ids of a message; nil and pointers refused. *)
Definition resolve (msg : Msg) (m : Manager) : result Error (string * list string) :=
match TypeOf msg with
| None => Err (ErrInvalid "nil message")
| Some t =>
    if bool_decide (rt_kind t = RPointer) then Err (ErrInvalid "message is a pointer")
    else match kindByType m !! t with
         | None => Err ErrUnregistered
         | Some kind => Ok (kind, default [] (kindHandlers m !! kind))
         end
end.

Definition handlerFor (k : string * string) (m : Manager) : option handlerEntry := handlers m !! k.

Definition handlerSet (m : Manager) : gset (string * string) := dom (handlers m).

(** ** Options *)

Record jobOpts := mkJobOpts {
  jo_queue : string;
  jo_priority : Z;
  jo_maxAttempts : Z;
  jo_backoff : option Backoff;
  jo_timeout : Duration;
  jo_onTimeout : Z;
  jo_uniqueKey : string;
  jo_after : Duration;
  jo_at : Time
}.

Definition no_opts : jobOpts := mkJobOpts "" 0 0 None 0 TimeoutRetry "" 0 zero_time.

Inductive Option_ :=
| OAfter (d : Duration)
| OAt (t : Time)
| OQueue (name : string)
| OPriority (p : Z)
| OMaxAttempts (n : Z)
| OWithBackoff (b : option Backoff)
| OTimeout (d : Duration)
| OTimeoutAction (a : Z)
| OUniqueKey (k : string).

Definition apply_option (o : jobOpts) (op : Option_) : jobOpts :=
let '(mkJobOpts q p n b t a u af at_) := o in
match op with
| OAfter d => mkJobOpts q p n b t a u d at_
| OAt t' => mkJobOpts q p n b t a u af t'
| OQueue name => mkJobOpts name p n b t a u af at_
| OPriority p' => mkJobOpts q p' n b t a u af at_
| OMaxAttempts n' => mkJobOpts q p n' b t a u af at_
| OWithBackoff b' => mkJobOpts q p n b' t a u af at_
| OTimeout d => mkJobOpts q p n b d a u af at_
| OTimeoutAction a' => mkJobOpts q p n b t a' u af at_
| OUniqueKey k => mkJobOpts q p n b t a k af at_
end.

Definition applyOpts (opts : list Option_) : jobOpts := foldl apply_option no_opts opts.
End manager.

Arguments handlerEntry : clear implicits.
Arguments Manager : clear implicits.

(** ** Building jobs *)

(** [strings.IndexByte(s, 0) >= 0] *)
Definition has_nul (s : string) : bool :=
  negb (string_forall (fun a => bool_decide (a <> NUL)) s).

Section build.
Context (marshal : backoffSpec -> option string).

(** [buildJobs]; [payload] is the result of [encodePayload(msg)], [None] when the JSON
    encoding fails; [now] is the clock. *)
Definition buildJobs (cfg : Config) (now : Time) (kind : string) (ids : list string)
  (payload : option string) (o : jobOpts) (scheduledFor : Time) (schedSet : bool)
  : result Error (list Job) :=
let? payload := match payload with Some p => Ok p | None => Err (ErrOther "json") end in
let? spec := encodeBackoff marshal (jo_backoff o) in
let avail := if negb (IsZero (jo_at o)) then jo_at o
             else if 0 <? jo_after o then Add now (jo_after o) else now in
let queue := if bool_decide (jo_queue o = ""%string) then DefaultQueue cfg else jo_queue o in
check? validIdent "queue" queue ;;
let maxAtt := if jo_maxAttempts o =? 0 then DefaultMaxAttempts cfg else jo_maxAttempts o in
if maxAtt <? 0 then Err (ErrInvalid "MaxAttempts")
else if negb (bool_decide (jo_uniqueKey o = ""%string)) &&
        (255 <? String.length (jo_uniqueKey o))%nat then Err (ErrInvalid "UniqueKey length")
else if negb (bool_decide (jo_uniqueKey o = ""%string)) && has_nul (jo_uniqueKey o)
     then Err (ErrInvalid "UniqueKey null byte")
else if jo_timeout o <? 0 then Err (ErrInvalid "Timeout")
else
  check? validOnTimeout (jo_onTimeout o) ;;
  let ms := quo64 (jo_timeout o) Millisecond in
  let timeoutMs := if (0 <? jo_timeout o) && (ms =? 0) then 1 else ms in
  Ok ((fun id => mkJob kind id payload queue (jo_priority o) avail maxAtt timeoutMs
                   (jo_onTimeout o) spec (jo_uniqueKey o) scheduledFor schedSet) <$> ids).
End build.

(** ** Enqueue and publish *)

Record EnqueueEvent := mkEnqueueEvent {
  ev_JobID : string;
  ev_Kind : string;
  ev_HandlerID : string;
  ev_Transactional : bool;
  ev_ScheduleName : string;
  ev_ScheduledFor : Time
}.

(** [fireEnqueueHooks]: the events an installed [OnEnqueue] hook receives. *)
Definition fireEnqueueHooks (results : list InsertResult) (kind : string)
    (transactional : bool) (scheduleName : string) : list EnqueueEvent :=
  (fun r => mkEnqueueEvent (ir_ID r) kind (ir_HandlerID r) transactional scheduleName
              (ir_ScheduledFor r))
    <$> filter (fun r => ir_Duplicate r = false) results.

Record PublishResult := mkPublishResult {
  pr_HandlerID : string;
  pr_JobID : string;
  pr_Duplicate : bool
}.

Definition toPublishResults (results : list InsertResult) : list PublishResult :=
  (fun r => mkPublishResult (ir_HandlerID r) (ir_ID r) (ir_Duplicate r)) <$> results.

Section enqueue.
Context {Msg Fn : Type} (TypeOf : Msg -> option rtype)
(encodePayload : Msg -> option string)
(marshal : backoffSpec -> option string) (newID : nat -> string).

(** [Enqueue]: the store after it, the id or the error, and the hook events.
    [now] is the clock at [buildJobs], [now'] the one at the insert. *)
Definition Enqueue (now now' : Time) (msg : Msg) (opts : list Option_) (m : Manager Msg Fn)
  (s : MemoryStore) : MemoryStore * result Error string * list EnqueueEvent :=
match resolve TypeOf msg m with
| Err e => (s, Err e, [])
| Ok (kind, ids) =>
    match ids with
    | [] => (s, Err (ErrInvalid "no handler"), [])
    | _ :: _ :: _ => (s, Err (ErrInvalid "several handlers"), [])
    | [h] =>
        match buildJobs marshal (config m) now kind ids (encodePayload msg) (applyOpts opts)
                zero_time false with
        | Err e => (s, Err e, [])
        | Ok rows =>
            let '(s', results) := Insert newID now' rows s in
            match results, rows with
            | r :: _, row :: _ =>
                if ir_Duplicate r
                then (s', Err (ErrDuplicate (ir_ID r) kind h (UniqueKey row)), [])
                else (s', Ok (ir_ID r), fireEnqueueHooks results kind false "")
            | _, _ => (s', Err (ErrOther "index out of range"), [])
            end
        end
    end
end.

Definition Publish (now now' : Time) (msg : Msg) (opts : list Option_) (m : Manager Msg Fn)
  (s : MemoryStore) : MemoryStore * result Error (list PublishResult) * list EnqueueEvent :=
match resolve TypeOf msg m with
| Err e => (s, Err e, [])
| Ok (kind, []) => (s, Ok [], [])
| Ok (kind, ids) =>
    match buildJobs marshal (config m) now kind ids (encodePayload msg) (applyOpts opts)
            zero_time false with
    | Err e => (s, Err e, [])
    | Ok rows =>
        let '(s', results) := Insert newID now' rows s in
        (s', Ok (toPublishResults results), fireEnqueueHooks results kind false "")
    end
end.
End enqueue.

(** ** Operator actions and inspection *)

Definition RetryJob (i : string) (now : Time) (s : MemoryStore) := Retry i now s.
Definition CancelJob (i : string) (now : Time) (s : MemoryStore) := Cancel i now s.
Definition DeleteJob (i : string) (s : MemoryStore) := Delete i s.

(** The list cursor: base64 of the creation instant in nanoseconds, a colon, the id. *)
Definition EncodeCursor (createdAt : Time) (i : string) : string :=
  b64_encode (FormatInt (UnixNano createdAt) +:+ String ":" i).

Definition DecodeCursor (c : string) : result Error (Time * string) :=
  if bool_decide (c = ""%string) then Ok (zero_time, ""%string)
  else match b64_decode c with
       | None => Err (ErrInvalid "cursor")
       | Some raw =>
           match cut ":" raw with
           | None => Err (ErrInvalid "malformed cursor")
           | Some (l, r) =>
               match ParseInt l with
               | None => Err (ErrInvalid "cursor timestamp")
               | Some nanos => Ok (UnixOf nanos, r)
               end
           end
       end.

Definition GetJob (i : string) (s : MemoryStore) := Get i s.

(** [ListJobs] through the string cursor of the filter. *)
Definition ListJobs (f : ListFilter) (cursor : string) (s : MemoryStore)
    : result Error (list memRow * string) :=
  let? c := DecodeCursor cursor in
  let '(rs, next) :=
    List (mkListFilter (lf_Queues f) (lf_Kinds f) (lf_States f) (lf_Limit f)
            (if bool_decide (cursor = ""%string) then None else Some c)) s in
  Ok (rs, match next with Some (t, i) => EncodeCursor t i | None => ""%string end).

Definition ListJobAttempts (i : string) (s : MemoryStore) : list Attempt :=
  ListAttempts i 0 MaxListLimit s.

(** ** What a built job looks like *)

Definition config_ok (cfg : Config) : Prop :=
  validIdent "DefaultQueue" (DefaultQueue cfg) = None /\ 0 < DefaultMaxAttempts cfg /\
  0 <= StoreTimeout cfg.

Lemma New_config_ok {Msg Fn} cfg (m : Manager Msg Fn) :
  New cfg = Ok m -> config_ok (config m).
Proof.
  unfold New. set (q := if bool_decide _ then _ else _).
  destruct (validIdent "DefaultQueue" q) eqn:E; [done|].
  destruct (DefaultMaxAttempts cfg <? 0) eqn:E1; [done|]. intros [= <-]. zbool.
  repeat split; simpl; [done|repeat case_match; zbool; lia..].
Qed.

Definition unique_key_ok (k : string) : Prop :=
  (String.length k <= 255)%nat /\ has_nul k = false.

Record job_valid (j : Job) : Prop := {
  jv_queue : validIdent "queue" (Queue j) = None;
  jv_attempts : 0 < MaxAttempts j;
  jv_timeout : 0 <= TimeoutMs j;
  jv_onTimeout : validOnTimeout (OnTimeout j) = None;
  jv_unique : unique_key_ok (UniqueKey j)
}.

Lemma validIdent_what what what' s : validIdent what s = None -> validIdent what' s = None.
Proof. unfold validIdent. repeat case_match; done. Qed.

Lemma buildJobs_spec marshal cfg now kind ids payload o sf ss js :
  config_ok cfg -> in_int64 (jo_timeout o) ->
  buildJobs marshal cfg now kind ids payload o sf ss = Ok js ->
  Forall2 (fun i j => Kind j = kind /\ HandlerID j = i /\ UniqueKey j = jo_uniqueKey o /\
             ScheduledFor j = sf /\ ScheduledForSet j = ss /\ job_valid j) ids js.
Proof.
  intros (Hq & Hm & _) Hto. unfold buildJobs.
  destruct payload as [pl|]; [|done]. cbn [result_bind].
  destruct (encodeBackoff marshal (jo_backoff o)) as [spec|]; [|done]. cbn [result_bind].
  set (queue := if bool_decide (jo_queue o = _) then _ else _).
  destruct (validIdent "queue" queue) eqn:EQ; [done|].
  set (maxAtt := if jo_maxAttempts o =? 0 then _ else _).
  destruct (maxAtt <? 0) eqn:EM; [done|].
  destruct (negb _ && (255 <? _)%nat) eqn:EL; [done|].
  destruct (negb _ && has_nul _) eqn:EN; [done|].
  destruct (jo_timeout o <? 0) eqn:ET; [done|].
  destruct (validOnTimeout (jo_onTimeout o)) eqn:EO; [done|].
  set (ms := if (0 <? jo_timeout o) && _ then _ else _).
  intros [= <-]. zbool.
  apply Forall2_fmap_r, Forall_Forall2_diag, Forall_forall. intros i _.
  split_and!; try done.
  assert (Hms : 0 <= ms).
  { unfold ms, Millisecond. rewrite quo64_id by int_lia.
    pose proof (Z.div_pos (jo_timeout o) 1000000). repeat case_match; lia. }
  assert (HM : 0 < maxAtt).
  { clear -EM Hm. unfold maxAtt in *. destruct (jo_maxAttempts o =? 0) eqn:E; zbool; lia. }
  constructor; simpl; try done.
  destruct (bool_decide (jo_uniqueKey o = "")) eqn:EU; simpl in EL, EN.
  - apply bool_decide_eq_true in EU. rewrite EU. by split; [simpl; lia|].
  - apply Nat.ltb_ge in EL. by split.
Qed.

(** ** Deduplication keys *)

Lemma ident_no_nul what s : validIdent what s = None -> has_nul s = false.
Proof.
  unfold validIdent, has_nul. repeat case_match; try done. intros _. apply negb_false_iff.
  match goal with H : string_forall ident_byte s = true |- _ => revert H end. clear.
  induction s as [|a s IH]; intros Hs; [done|]. simpl in *.
  apply andb_true_iff in Hs as [Ha Hs]. rewrite (IH Hs), andb_true_r. apply bool_decide_eq_true.
  intros ->. by vm_compute in Ha.
Qed.

(** The string the store deduplicates on determines the handler and the key: two
    jobs with valid kinds and handler ids collide only when kind, handler id and unique
    key are all the same. *)
Theorem dedup_key_is_injective k h u k' h' u' :
  validIdent "kind" k = None -> validIdent "kind" k' = None ->
  validIdent "handler-id" h = None -> validIdent "handler-id" h' = None ->
  uniqKey k h u = uniqKey k' h' u' -> k = k' /\ h = h' /\ u = u'.
Proof.
  intros Hk%ident_no_nul Hk'%ident_no_nul Hh%ident_no_nul Hh'%ident_no_nul.
  unfold has_nul in *. apply negb_false_iff in Hk, Hk', Hh, Hh'. unfold uniqKey.
  intros [-> E]%(namespaced_inj (fun a => bool_decide (a <> NUL))); [|done..].
  apply (namespaced_inj (fun a => bool_decide (a <> NUL))) in E as [-> ->]; done.
Qed.

Lemma dedup_key_witness :
  uniqKey "mail" "send" "a" <> uniqKey "mail" "sen" "da".
Proof.
  intros E. destruct (dedup_key_is_injective "mail" "send" "a" "mail" "sen" "da") as (_ & H & _);
    [by vm_compute..|exact E|discriminate].
Defined.

(** A list cursor decodes to the creation instant and id it was made from, so no
    page boundary is lost in the text form. *)
Theorem cursor_roundtrip t i :
  in_int64 t -> EncodeCursor t i <> ""%string /\ DecodeCursor (EncodeCursor t i) = Ok (t, i).
Proof.
  intros Ht.
  assert (HN : EncodeCursor t i <> ""%string).
  { unfold EncodeCursor, FormatInt, UnixNano. rewrite wrap64_id by done. intros E.
    destruct (t <? 0) eqn:EZ; zbool.
    - change (String "-" (digits 20 (- t)) +:+ String ":" i)
        with (String "-" (digits 20 (- t) +:+ String ":" i)) in E.
      cbn [b64_encode] in E. by destruct (digits 20 (- t) +:+ String ":" i) as [|? [|? ?]].
    - destruct (digits_head 20 t) as (a & s & Ed & _); [lia..|]. rewrite Ed in E.
      change (String a s +:+ String ":" i) with (String a (s +:+ String ":" i)) in E.
      cbn [b64_encode] in E. by destruct (s +:+ String ":" i) as [|? [|? ?]]. }
  split; [done|]. unfold DecodeCursor. rewrite bool_decide_false by done.
  unfold EncodeCursor, UnixNano. rewrite b64_roundtrip, wrap64_id by done.
  rewrite cut_app by apply FormatInt_no_colon. by rewrite ParseInt_FormatInt.
Qed.

Lemma cursor_roundtrip_witness : DecodeCursor "MTA6YWJj" = Ok (10, "abc"%string).
Proof.
  destruct (cursor_roundtrip 10 "abc") as [_ H]; [by vm_compute|].
  change "MTA6YWJj"%string with (EncodeCursor 10 "abc"). exact H.
Defined.

Local Close Scope go_scope.

(** ** What the manager promises its callers: registration keeps its maps consistent,
    an enqueued message is one durable, valid job, and a published one is a job per
    handler. *)

Local Open Scope Z_scope.

Section enqueue.
Context {Msg Fn : Type} (TypeOf : Msg -> option rtype)
(encodePayload : Msg -> option string)
(marshal : backoffSpec -> option string) (newID : nat -> string)
(newID_inj : Inj (=) (=) newID).

Implicit Types m : Manager Msg Fn.

(** The rows built for a message, as the insert sees them. *)
Lemma built_capped m now kind ids msg o sf ss rows :
  config_ok (config m) -> in_int64 (jo_timeout o) ->
  buildJobs marshal (config m) now kind ids (encodePayload msg) o sf ss = Ok rows ->
  Forall (fun j => 0 < MaxAttempts j) rows.
Proof.
  intros Hc Hto Hb. pose proof (buildJobs_spec _ _ _ _ _ _ _ _ _ _ Hc Hto Hb) as HF.
  clear Hb. induction HF as [|i j ids' js (_ & _ & _ & _ & _ & Hj) _ IH]; constructor; [apply Hj|done].
Qed.

(** Errors other than a duplicate. *)
Definition plain_error (e : Error) : Prop :=
  match e with ErrDuplicate _ _ _ _ => False | _ => True end.

Lemma resolve_plain msg m e : resolve TypeOf msg m = Err e -> plain_error e.
Proof. unfold resolve. intros. by repeat case_match; simplify_eq. Qed.

Lemma validIdent_plain what str e : validIdent what str = Some e -> plain_error e.
Proof. unfold validIdent. intros. by repeat case_match; simplify_eq. Qed.

Lemma buildJobs_plain cfg now kind ids payload o sf ss e :
  buildJobs marshal cfg now kind ids payload o sf ss = Err e -> plain_error e.
Proof.
  unfold buildJobs, encodeBackoff, validOnTimeout. intros H.
  repeat (case_match; simplify_eq/=; try done).
  all: try (by eapply validIdent_plain). all: naive_solver.
Qed.

(** What a result says about its job. *)
Lemma insertOne_result now j s :
  ir_Kind (insertOne newID now j s).2 = Kind j /\
  ir_HandlerID (insertOne newID now j s).2 = HandlerID j /\
  ir_ScheduledFor (insertOne newID now j s).2 =
    (if ir_Duplicate (insertOne newID now j s).2 then zero_time else ScheduledFor j).
Proof. unfold insertOne. by destruct (if hasKey j then _ else None) as [[]|]. Qed.

Lemma insertLocked_results now js s :
  Forall2 (fun j r => ir_HandlerID r = HandlerID j) js (insertLocked newID now js s).2.
Proof.
  revert s. induction js as [|j js IH]; intros s; [constructor|]. cbn [insertLocked].
  pose proof (insertOne_result now j s) as (_ & H & _).
  destruct (insertOne newID now j s) as [s1 r]. specialize (IH s1).
  destruct (insertLocked newID now js s1) as [s2 rs]. by constructor.
Qed.

(** A successful enqueue leaves exactly one new job, addressed to the single handler
    of the message's kind, valid (queue name, positive attempt cap, timeout, unique key)
    and reported by exactly one hook event. When the unique key is taken the caller gets
    the id of the live job holding it; a duplicate or any other error changes nothing and
    fires no hook. *)
Theorem enqueue_is_one_valid_job now now' msg opts m s :
  store_wf newID s -> config_ok (config m) -> in_int64 (jo_timeout (applyOpts opts)) ->
  match Enqueue TypeOf encodePayload marshal newID now now' msg opts m s with
  | (s', Ok i, evs) =>
      exists kind h r, resolve TypeOf msg m = Ok (kind, [h]) /\
        rows s !! i = None /\ rows s' !! i = Some r /\ rows s ⊆ rows s' /\
        Kind (job r) = kind /\ HandlerID (job r) = h /\ job_valid (job r) /\
        attempt r = 0 /\ Terminal (state r) = false /\
        evs = [mkEnqueueEvent i kind h false "" zero_time]
  | (s', Err (ErrDuplicate i kind h key), evs) =>
      s' = s /\ evs = [] /\
      exists r, rows s !! i = Some r /\ live_at (uniqKey kind h key) r
  | (s', Err _, evs) => s' = s /\ evs = []
  end.
Proof.
  intros W Hc Hto. unfold Enqueue.
  destruct (resolve TypeOf msg m) as [[kind hs]|e] eqn:ER.
  2: { pose proof (resolve_plain msg m e ER). by destruct e. }
  destruct hs as [|h [|]]; [done| |done].
  destruct (buildJobs _ _ _ _ _ _ _ _ _) as [js|e] eqn:EB.
  2: { pose proof (buildJobs_plain _ _ _ _ _ _ _ _ e EB). by destruct e. }
  pose proof (buildJobs_spec _ _ _ _ _ _ _ _ _ _ Hc Hto EB) as HF.
  apply Forall2_cons_inv_l in HF as (j & js' & (Hk & Hh & _ & Hsf & _ & Hj) & Hnil & ->).
  apply Forall2_nil_inv_l in Hnil as ->. simpl.
  pose proof (insertOne_spec newID newID_inj now' j s W) as HS.
  pose proof (insertOne_result now' j s) as (_ & Hrh & Hrs).
  destruct (insertOne newID now' j s) as [s' res]. simpl in Hrh, Hrs.
  destruct HS as ((r & Hr & Hlive & Hd) & Hsub & Hdup). cbn [insertLocked].
  destruct (ir_Duplicate res) eqn:ED.
  - split; [by apply Hdup|]. split; [done|]. exists r. rewrite <-(Hdup eq_refl).
    split; [done|]. specialize (Hlive Hd). unfold jobKey in Hlive. by rewrite Hk, Hh in Hlive.
  - destruct Hd as [Hnone ->]. exists kind, h, (mkRow j (ir_ID res)
       (if GoTime.After (AvailableAt j) now' then StatePending else StateAvailable)
       0 "" zero_time false "" now' now').
    split_and!; try done; simpl.
    + by case_match.
    + unfold fireEnqueueHooks. rewrite filter_cons_True by done. simpl.
      by rewrite Hrh, Hrs, Hh, Hsf.
Qed.

(** A published event is one job per handler registered for its kind, in
    registration order: each result names a filed job of that handler (new, or the live
    one with the same unique key), the store's invariant is kept, and the hooks fire for
    the new jobs only. A kind without handlers publishes nothing. *)
Theorem publish_fans_out_to_every_handler now now' msg opts m s :
  store_wf newID s -> config_ok (config m) -> in_int64 (jo_timeout (applyOpts opts)) ->
  match Publish TypeOf encodePayload marshal newID now now' msg opts m s with
  | (s', Ok prs, evs) =>
      exists kind hs, resolve TypeOf msg m = Ok (kind, hs) /\
        Forall2 (fun h pr => pr_HandlerID pr = h /\
          exists r, rows s' !! pr_JobID pr = Some r /\
            (if pr_Duplicate pr then live_at (uniqKey kind h (jo_uniqueKey (applyOpts opts))) r
             else rows s !! pr_JobID pr = None /\ Kind (job r) = kind /\
               HandlerID (job r) = h /\ job_valid (job r)))
          hs prs /\
        ev_JobID <$> evs = pr_JobID <$> filter (fun pr => pr_Duplicate pr = false) prs /\
        rows s ⊆ rows s' /\ store_wf newID s'
  | (s', Err _, evs) => s' = s /\ evs = []
  end.
Proof.
  intros W Hc Hto. unfold Publish.
  destruct (resolve TypeOf msg m) as [[kind hs]|e] eqn:ER; [|done].
  destruct hs as [|h0 hs0].
  { exists kind, []. split_and!; done. }
  set (hs := h0 :: hs0) in *.
  destruct (buildJobs _ _ _ _ _ _ _ _ _) as [js|e] eqn:EB; [|done].
  pose proof (buildJobs_spec _ _ _ _ _ _ _ _ _ _ Hc Hto EB) as HF.
  pose proof (built_capped _ _ _ _ _ _ _ _ _ Hc Hto EB) as Hcap.
  pose proof (insertLocked_spec newID newID_inj now' js s W Hcap) as HS.
  pose proof (insertLocked_wf newID newID_inj now' js s W Hcap) as W'.
  pose proof (insertLocked_results now' js s) as HR. unfold Insert.
  destruct (insertLocked newID now' js s) as [s' res]. simpl in HR, W'. destruct HS as [HS Hsub].
  exists kind, hs. split; [done|]. split; [|split; [|done]].
  - unfold toPublishResults. apply Forall2_fmap_r. clear -HF HS HR.
    revert res HS HR. induction HF as [|h j hs js (Hk & Hh & Hu & _ & _ & Hj) _ IH]; intros res HS HR.
    + apply Forall2_nil_inv_l in HS as ->. constructor.
    + apply Forall2_cons_inv_l in HS as (r & rs & (row & Hr & Hlive & Hd) & HS & ->).
      apply Forall2_cons_1 in HR as [HR1 HR]. constructor; [|by apply IH]. simpl.
      split; [congruence|]. exists row. split; [done|]. destruct (ir_Duplicate r).
      * specialize (Hlive Hd). unfold jobKey in Hlive. by rewrite Hk, Hh, Hu in Hlive.
      * destruct Hd as [? ->]. done.
  - unfold fireEnqueueHooks, toPublishResults. clear. induction res as [|r res IH]; [done|].
    rewrite fmap_cons, !filter_cons. simpl. destruct (ir_Duplicate r); simpl; [done|]. by f_equal.
Qed.
End enqueue.

(** ** Concrete messages *)

Definition demo_type : rtype := mkRtype "mail.Send" RStruct.
Definition demo_manager (hs : list string) : Manager unit unit :=
  mkManager (mkConfig "default" None 25 "" 0 0) {[demo_type := "mail"%string]}
    {["mail"%string := demo_type]} ∅ {["mail"%string := hs]} ∅.
Definition demo_TypeOf (_ : unit) : option rtype := Some demo_type.
Definition demo_encode (_ : unit) : option string := Some "{}"%string.
Definition demo_marshal (_ : backoffSpec) : option string := Some "{}"%string.

Lemma demo_config_ok hs : config_ok (config (demo_manager hs)).
Proof. by vm_compute. Qed.

Lemma demo_wf : store_wf Run.ids NewMemoryStore.
Proof. apply empty_wf. Qed.

Definition demo_enqueue :=
  Enqueue demo_TypeOf demo_encode demo_marshal Run.ids 10 11 tt [OUniqueKey "k"]
    (demo_manager ["send"%string]) NewMemoryStore.

Lemma enqueue_witness :
  demo_enqueue.1.2 = Ok ""%string /\
  exists r, rows demo_enqueue.1.1 !! ""%string = Some r /\ job_valid (job r).
Proof.
  pose proof (enqueue_is_one_valid_job demo_TypeOf demo_encode demo_marshal Run.ids Run.ids_inj
    10 11 tt [OUniqueKey "k"] (demo_manager ["send"%string]) NewMemoryStore demo_wf
    (demo_config_ok _) ltac:(by vm_compute)) as H.
  fold demo_enqueue in H.
  assert (E : exists s' evs, demo_enqueue = (s', Ok ""%string, evs))
    by (eexists _, _; vm_compute; reflexivity).
  destruct E as (s' & evs & E). rewrite E in H |- *. simpl.
  destruct H as (kind & h & r & _ & _ & Hr & _ & _ & _ & Hv & _).
  split; [reflexivity|]. exists r. split; [exact Hr|exact Hv].
Defined.

Definition demo_publish :=
  Publish demo_TypeOf demo_encode demo_marshal Run.ids 10 11 tt []
    (demo_manager ["send"; "audit"]%string) NewMemoryStore.

Lemma publish_witness :
  store_wf Run.ids demo_publish.1.1 /\ size (rows demo_publish.1.1) = 2%nat.
Proof.
  pose proof (publish_fans_out_to_every_handler demo_TypeOf demo_encode demo_marshal Run.ids
    Run.ids_inj 10 11 tt [] (demo_manager ["send"; "audit"]%string) NewMemoryStore demo_wf
    (demo_config_ok _) ltac:(by vm_compute)) as H.
  fold demo_publish in H. split; [|by vm_compute].
  assert (E : exists s' prs evs, demo_publish = (s', Ok prs, evs))
    by (eexists _, _, _; vm_compute; reflexivity).
  destruct E as (s' & prs & evs & E). rewrite E in H |- *. simpl.
  destruct H as (kind & hs & _ & _ & _ & _ & HW). exact HW.
Defined.
