(* ===== verification/JobSchedule.v ===== *)
(** Recurring schedules: [jobs/schedule.go] and [jobs/cron.go].

    The cron library is an argument: [cron expr] is [None] when [cron.ParseStandard]
    rejects the expression and otherwise its [Next] in the configured location. So are
    the JSON codec of the options and the clock readings. *)

From S2P Require Import Prelude.
From S2P Require Import GoTime.
From S2P Require Import Order.
From S2P Require Import Strconv.
From S2P Require Import JobTypes.
From S2P Require Import JobStore.
From S2P Require Import JobBackoff.
From S2P Require Import JobManager.

Local Open Scope Z_scope.
Local Open Scope go_scope.

Definition CatchUpAllMax : nat := 1000.

Record Spec := mkSpec { cron_ : string; every : Duration }.
Definition Cron (expr : string) : Spec := mkSpec expr 0.
Definition Every (d : Duration) : Spec := mkSpec "" d.

Definition spec_String (s : Spec) : string :=
  if 0 <? every s then "every:" +:+ FormatInt (every s) else "cron:" +:+ cron_ s.

Definition parseSpec (raw : string) : result Error Spec :=
  match CutPrefix raw "every:" with
  | Some rest => match ParseInt rest with
                 | None => Err (ErrInvalid "every spec")
                 | Some n => Ok (mkSpec "" n)
                 end
  | None => match CutPrefix raw "cron:" with
            | Some rest => Ok (mkSpec rest 0)
            | None => Err (ErrInvalid "unknown schedule spec")
            end
  end.

Record ScheduleOptions := mkScheduleOptions {
  so_Queue : string;
  so_Priority : Z;
  so_MaxAttempts : Z;
  so_Timeout : Duration;
  so_OnTimeout : Z;
  so_Singleton : bool;
  so_CatchUp : Z
}.

Section schedule.
Context (cron : string -> option (Time -> Time)).
Context (marshalOpts : ScheduleOptions -> option string)
(unmarshalOpts : string -> option ScheduleOptions).
Context (marshal : backoffSpec -> option string) (rawEncode : string -> option string).
Context (newID : nat -> string).
Context {Msg Fn : Type} (TypeOf : Msg -> option rtype) (encodePayload : Msg -> option string).

Implicit Types m : Manager Msg Fn.

Definition validate (s : Spec) : option Error :=
if 0 <? every s then None
else if every s <? 0 then Some (ErrInvalid "Every interval")
else if bool_decide (cron_ s = ""%string) then Some (ErrInvalid "empty schedule spec")
else match cron (cron_ s) with
     | None => Some (ErrInvalid "bad cron")
     | Some _ => None
     end.

(** [Spec.next]: the first tick after [t]. *)
Definition next (s : Spec) (t : Time) : result Error Time :=
if 0 <? every s then Ok (Add t (every s))
else match cron (cron_ s) with
     | None => Err (ErrInvalid "bad cron")
     | Some nxt => Ok (nxt t)
     end.

(** ** Declaring *)

Definition buildScheduleRow (now : Time) (name kind payload : string) (spec : Spec)
  (opts : ScheduleOptions) (m : Manager Msg Fn) : result Error ScheduleRow :=
match marshalOpts opts with
| None => Err (ErrOther "json")
| Some optsJSON =>
    let? first := next spec now in
    Ok (mkScheduleRow (SchedulerGroup (config m)) name kind (spec_String spec) payload optsJSON
          first zero_time false now)
end.

Definition declare (row : ScheduleRow) (m : Manager Msg Fn) : result Error (Manager Msg Fn) :=
match declared m !! s_Name row with
| Some _ => Err ErrScheduleAlreadyDeclared
| None => Ok (mkManager (config m) (kindByType m) (typeByKind m) (handlers m) (kindHandlers m)
                (<[s_Name row := row]> (declared m)))
end.

Definition Schedule (now : Time) (name : string) (spec : Spec) (msg : Msg)
  (opts : ScheduleOptions) (m : Manager Msg Fn) : result Error (Manager Msg Fn) :=
check? validIdent "schedule name" name ;;
check? validate spec ;;
let? r := resolve TypeOf msg m in
match r.2 with
| [] => Err (ErrInvalid "no handler")
| _ =>
    check? (if bool_decide (so_Queue opts = ""%string) then None
            else validIdent "queue" (so_Queue opts)) ;;
    if so_MaxAttempts opts <? 0 then Err (ErrInvalid "MaxAttempts")
    else if so_Timeout opts <? 0 then Err (ErrInvalid "Timeout")
    else
      check? validOnTimeout (so_OnTimeout opts) ;;
      check? validCatchUp (so_CatchUp opts) ;;
      let? payload := match encodePayload msg with
                      | Some p => Ok p | None => Err (ErrOther "json") end in
      let? row := buildScheduleRow now name r.1 payload spec opts m in
      declare row m
end.

(** Each cron has a kind of its own. *)
Definition cronKind (name : string) : string := cronPrefix +:+ name.

(** [RegisterCron], [fn] not nil; [decode] ignores the payload. *)
Definition RegisterCron (now : Time) (name schedule : string)
  (decode : string -> result Error Msg) (fn : Fn) (m : Manager Msg Fn)
  : result Error (Manager Msg Fn) :=
check? validIdent "cron name" name ;;
let spec := Cron schedule in
check? validate spec ;;
let kind := cronKind name in
let? row := buildScheduleRow now name kind "{}" spec
              (mkScheduleOptions "" 0 0 0 TimeoutRetry true CatchUpOnce) m in
let? m := declare row m in
Ok (mkManager (config m) (kindByType m) (typeByKind m)
      (<[(kind, name) := mkEntry decode fn]> (handlers m))
      (<[kind := [name]]> (kindHandlers m)) (declared m)).

(** [ReconcileSchedules]: upsert the declarations in name order, prune the rest of the
    group. The in-process store does not fail. *)
Definition ReconcileSchedules (m : Manager Msg Fn) (s : MemoryStore) : MemoryStore :=
let group := SchedulerGroup (config m) in
let decls := sort_by (cmp_on s_Name cmp_string) ((map_to_list (declared m)).*2) in
let s := foldl (fun s row => UpsertSchedule row s) s decls in
foldl (fun s r => match declared m !! s_Name r with
                  | Some _ => s
                  | None => DeleteSchedule group (s_Name r) s
                  end) s (ListSchedules group s).

(** ** Firing *)

(** The [CatchUpAll] loop, [room] ticks below the cap. *)
Fixpoint catchUpAll (room : nat) (s : Spec) (now t : Time)
  : result Error (list Time * Time * bool) :=
if After t now then Ok ([], t, false)
else match room with
     | O => let? n := next s now in Ok ([], n, true)
     | S room =>
         let? t' := next s t in
         let? r := catchUpAll room s now t' in
         Ok (t :: r.1.1, r.1.2, r.2)
     end.

(** [planFires]: the ticks to emit, the next run to persist, whether the cap was hit. *)
Definition planFires (s : Spec) (nextRun now : Time) (catchUp : Z)
  : result Error (list Time * Time * bool) :=
if catchUp =? CatchUpSkip then
  if After nextRun now then Ok ([], nextRun, false)
  else let? n := next s now in Ok ([], n, false)
else if catchUp =? CatchUpAll then catchUpAll CatchUpAllMax s now nextRun
else
  if After nextRun now then Ok ([], nextRun, false)
  else let? n := next s now in Ok ([nextRun], n, false).

Definition expectedLastRun (row : ScheduleRow) : option Time :=
if s_LastRunSet row then Some (s_LastRunAt row) else None.

(** [advanceSchedule], at clock [now']. *)
Definition advanceSchedule (now' : Time) (row : ScheduleRow) (n : Time) (s : MemoryStore)
  : MemoryStore :=
(FireSchedule newID
   (mkScheduleFire (s_Group row) (s_Name row) (expectedLastRun row)
      (if s_LastRunSet row then s_LastRunAt row else zero_time) n now' []) s).1.

Definition singletonKey (row : ScheduleRow) : string :=
"schedule:" +:+ (s_Group row +:+ (":" +:+ s_Name row)).

(** The jobs of every tick; [clock i] is the clock when tick [i] is built;
    the reading at an advance is the one after the last possible tick. *)
Fixpoint buildTicks (cfg : Config) (clock : nat -> Time) (i : nat) (row : ScheduleRow)
  (hs : list string) (o : jobOpts) (ticks : list Time) : result Error (list Job) :=
match ticks with
| [] => Ok []
| tick :: ticks =>
    let? js := buildJobs marshal cfg (clock i) (s_Kind row) hs (rawEncode (s_Payload row)) o
                 tick true in
    let? rest := buildTicks cfg clock (S i) row hs o ticks in
    Ok (js ++ rest)
end.

(** [fireSchedule]: the store after it and the enqueue events of the winner. *)
Definition fireSchedule (clock : nat -> Time) (row : ScheduleRow) (now : Time)
  (m : Manager Msg Fn) (s : MemoryStore) : MemoryStore * list EnqueueEvent :=
match parseSpec (s_Spec row) with
| Err _ => (s, [])
| Ok spec =>
    match unmarshalOpts (s_OptionsJSON row) with
    | None => (s, [])
    | Some opts =>
        match planFires spec (s_NextRunAt row) now (so_CatchUp opts) with
        | Err _ => (s, [])
        | Ok (ticks, n, _) =>
            match ticks with
            | [] => (advanceSchedule (clock (S CatchUpAllMax)) row n s, [])
            | _ =>
                match default [] (kindHandlers m !! s_Kind row) with
                | [] => (s, [])
                | hs =>
                    let o := mkJobOpts (so_Queue opts) (so_Priority opts) (so_MaxAttempts opts)
                               None (so_Timeout opts) (so_OnTimeout opts)
                               (if so_Singleton opts then singletonKey row else "") 0 zero_time in
                    match buildTicks (config m) clock 0 row hs o ticks with
                    | Err _ => (advanceSchedule (clock (S CatchUpAllMax)) row n s, [])
                    | Ok emitted =>
                        match FireSchedule newID
                                (mkScheduleFire (s_Group row) (s_Name row) (expectedLastRun row)
                                   now n now emitted) s with
                        | (s', Ok (true, results)) =>
                            (s', fireEnqueueHooks results (s_Kind row) false (s_Name row))
                        | (s', _) => (s', [])
                        end
                    end
                end
            end
        end
    end
end.

(** [schedulerTick] *)
Definition schedulerTick (clock : nat -> Time) (now : Time) (m : Manager Msg Fn)
  (s : MemoryStore) : MemoryStore * list EnqueueEvent :=
foldl (fun acc row => let '(s', evs) := fireSchedule clock row now m acc.1 in (s', acc.2 ++ evs))
  (s, []) (DueSchedules (SchedulerGroup (config m)) now s).
End schedule.
