(* ===== verification/JobScheduleSpec.v ===== *)
(** What the scheduler promises: specs survive their text form, a plan emits the
    missed ticks its policy asks for and always moves into the future, reconciliation
    makes the stored group equal to the declarations, and of the schedulers that race
    on one tick a single one inserts jobs. *)

From S2P Require Import Prelude.
From S2P Require Import GoTime.
From S2P Require Import Order.
From S2P Require Import Strconv.
From S2P Require Import JobTypes.
From S2P Require Import JobStore.
From S2P Require Import JobStoreInv.
From S2P Require Import JobStoreSpec.
From S2P Require Import JobBackoff.
From S2P Require Import JobManager.
From S2P Require Import JobSchedule.

Local Open Scope Z_scope.

(** A schedule spec read back from the text it is persisted as is the same spec. *)
Theorem spec_text_roundtrip :
  (forall d, 0 < d <= int64_max -> parseSpec (spec_String (Every d)) = Ok (Every d)) /\
  (forall e, parseSpec (spec_String (Cron e)) = Ok (Cron e)).
Proof.
  split.
  - intros d Hd. unfold spec_String, parseSpec, Every. cbn [every].
    rewrite (proj2 (Z.ltb_lt 0 d)) by lia. rewrite CutPrefix_app.
    by rewrite ParseInt_FormatInt by int_lia.
  - intros e. by destruct e.
Qed.

(** Consecutive ticks of a spec. *)
Definition tick_chain (cron : string -> option (Time -> Time)) (s : Spec) (l : list Time) : Prop :=
  forall i a b, l !! i = Some a -> l !! S i = Some b -> next cron s a = Ok b.

Section plan.
Context (cron : string -> option (Time -> Time)) (s : Spec).
Context (Hvalid : validate cron s = None).
Context (Hcron : forall nxt, cron (cron_ s) = Some nxt -> forall t, t < nxt t).

Lemma next_later t : exists t', next cron s t = Ok t' /\ t < t'.
Proof.
  revert Hvalid. unfold validate, next, Add. destruct (0 <? every s) eqn:E; zbool.
  - intros _. eexists. split; [reflexivity|]. lia.
  - destruct (every s <? 0); [done|]. destruct (bool_decide _); [done|].
    destruct (cron (cron_ s)) as [nxt|] eqn:EC; [|done]. intros _. eauto.
Qed.

Lemma tick_chain_cons t l :
  tick_chain cron s l -> (forall b, head l = Some b -> next cron s t = Ok b) ->
  tick_chain cron s (t :: l).
Proof.
  intros Hl Hb [|i] a b Ha Hb'; simpl in Ha, Hb'; [|by apply (Hl i)].
  injection Ha as <-. apply Hb. by destruct l.
Qed.

Lemma tick_chain_short l : (length l <= 1)%nat -> tick_chain cron s l.
Proof.
  intros Hl i a b _ Hb%lookup_lt_Some. lia.
Qed.

Lemma catchUpAll_spec room now t :
  exists ticks n capped, catchUpAll cron room s now t = Ok (ticks, n, capped) /\
    now < n /\ (length ticks <= room)%nat /\ StronglySorted Z.lt ticks /\
    Forall (fun x => t <= x <= now) ticks /\
    (forall b, head ticks = Some b -> b = t) /\
    (ticks = [] -> capped = false -> n = t) /\
    (now < t -> ticks = [] /\ n = t /\ capped = false) /\
    (t <= now -> (0 < room)%nat -> head ticks = Some t) /\
    (if capped then length ticks = room /\ tick_chain cron s ticks
     else tick_chain cron s (ticks ++ [n])).
Proof.
  revert t. induction room as [|room IH]; intros t; simpl; unfold After;
    (destruct (now <? t) eqn:E; zbool;
     [exists [], t, false; split_and!; first [done|solve [constructor]|intros; simpl in *; lia|
      apply tick_chain_short; simpl; lia]|]).
  - destruct (next_later now) as (n & -> & ?). exists [], n, true.
    split_and!; first [done|solve [constructor]|intros; simpl in *; lia|split; [done|apply tick_chain_short; simpl; lia]].
  - destruct (next_later t) as (t' & Ht & Hlt). rewrite Ht. cbn [result_bind].
    destruct (IH t') as (ticks & n & capped & -> & Hn & Hlen & HS & HF & Hhd & Hnil & Hgt & Hle & Hcap).
    cbn [result_bind fst snd]. exists (t :: ticks), n, capped.
    split_and!; try done; try (simpl; lia).
    + constructor; [done|]. eapply Forall_impl; [exact HF|]. simpl. intros; lia.
    + constructor; [lia|]. eapply Forall_impl; [exact HF|]. simpl. intros; lia.
    + by intros b [= <-].
    + destruct capped.
      * destruct Hcap as [Hc1 Hc2]. split; [simpl; lia|]. apply tick_chain_cons; [done|].
        intros b Hb. by rewrite (Hhd b Hb).
      * simpl. apply tick_chain_cons; [done|]. intros b Hb. destruct ticks as [|x l]; simpl in Hb.
        -- injection Hb as <-. by rewrite (Hnil eq_refl eq_refl).
        -- by rewrite (Hhd b Hb).
Qed.
End plan.

(** A plan always succeeds for a valid spec and moves the schedule into the future:
    its next run is after now. The ticks it emits are increasing, none is before the
    missed run or after now, and there are at most 1000: none when nothing is due or the
    policy skips, the missed run alone under catch-up-once, and under catch-up-all every
    tick from the missed run up to now, of which only a plan at the cap leaves some out. *)
Theorem plan_fires_into_the_future cron s nextRun now catchUp :
  validate cron s = None ->
  (forall nxt, cron (cron_ s) = Some nxt -> forall t, t < nxt t) ->
  exists ticks n capped, planFires cron s nextRun now catchUp = Ok (ticks, n, capped) /\
    now < n /\ (length ticks <= CatchUpAllMax)%nat /\ StronglySorted Z.lt ticks /\
    Forall (fun t => nextRun <= t <= now) ticks /\
    (now < nextRun -> ticks = [] /\ n = nextRun) /\
    (nextRun <= now -> catchUp <> CatchUpSkip -> head ticks = Some nextRun) /\
    (catchUp = CatchUpSkip -> ticks = []) /\
    (catchUp <> CatchUpAll -> (length ticks <= 1)%nat) /\
    (catchUp = CatchUpAll ->
     if capped then length ticks = CatchUpAllMax /\ tick_chain cron s ticks
     else tick_chain cron s (ticks ++ [n])).
Proof.
  intros Hv Hc. unfold planFires.
  destruct (next_later cron s Hv Hc now) as (n & Hn & Hlt).
  destruct (catchUp =? CatchUpSkip) eqn:E1; [|destruct (catchUp =? CatchUpAll) eqn:E2]; zbool.
  - subst. unfold After. destruct (now <? nextRun) eqn:E; zbool.
    + exists [], nextRun, false. split_and!; try done; simpl; lia || constructor.
    + rewrite Hn. exists [], n, false. split_and!; try done; simpl; lia || constructor.
  - destruct (catchUpAll_spec cron s Hv Hc CatchUpAllMax now nextRun)
      as (ticks & n' & capped & -> & H1 & H2 & H3 & H4 & _ & _ & H5 & H6 & H7).
    exists ticks, n', capped. split_and!; try done.
    + intros Hx. by destruct (H5 Hx) as (? & ? & _).
    + intros Hx _. apply H6; [done|]. unfold CatchUpAllMax. lia.
  - unfold After. destruct (now <? nextRun) eqn:E; zbool.
    + exists [], nextRun, false. split_and!; try done; simpl; lia || constructor.
    + rewrite Hn. exists [nextRun], n, false.
      split_and!; try done; try (simpl; lia); repeat constructor; lia.
Qed.

(** ** Registration and declarations *)

Record registry_ok {Msg Fn} (m : Manager Msg Fn) : Prop := {
  rg_types : forall t k, kindByType m !! t = Some k <-> typeByKind m !! k = Some t;
  rg_prefix : forall t k, kindByType m !! t = Some k -> HasPrefix k cronPrefix = false;
  rg_handlers : forall k h, is_Some (handlers m !! (k, h)) <-> h ∈ default [] (kindHandlers m !! k);
  rg_nodup : forall k, NoDup (default [] (kindHandlers m !! k));
  rg_kinds : forall k, is_Some (kindHandlers m !! k) ->
    (exists t, kindByType m !! t = Some k) \/
    (exists n, k = cronKind n /\ is_Some (declared m !! n));
  rg_declared : forall n row, declared m !! n = Some row ->
    s_Name row = n /\ s_Group row = SchedulerGroup (config m) /\ has_nul n = false
}.

Lemma HasPrefix_cronKind n : HasPrefix (cronKind n) cronPrefix = true.
Proof. unfold HasPrefix, cronKind. by rewrite CutPrefix_app. Qed.

Lemma cronKind_inj n n' : cronKind n = cronKind n' -> n = n'.
Proof. unfold cronKind, cronPrefix. intros E. by simplify_eq/=. Qed.

Section registry.
Context (cron : string -> option (Time -> Time)).
Context (marshalOpts : ScheduleOptions -> option string).
Context {Msg Fn : Type} (TypeOf : Msg -> option rtype) (encodePayload : Msg -> option string).

Implicit Types m : Manager Msg Fn.

Lemma New_registry cfg m : New cfg = Ok m -> registry_ok m.
Proof.
  unfold New. destruct (validIdent _ _); [done|].
  destruct (DefaultMaxAttempts cfg <? 0); [done|]. intros [= <-].
  constructor; simpl; intros *; rewrite ?lookup_empty; try done.
  - simpl. split; [by intros []|by intros ?%not_elem_of_nil].
  - simpl. constructor.
Qed.

Lemma Register_registry t k m m' : registry_ok m -> Register t k m = Ok m' -> registry_ok m'.
Proof.
  intros [H1 H2 H3 H4 H5 H6]. unfold Register.
  destruct (validIdent "kind" k); [done|]. destruct (HasPrefix k cronPrefix) eqn:EP; [done|].
  do 2 (case_bool_decide; [done|]).
  destruct (kindByType m !! t) as [k0|] eqn:EK; [case_bool_decide; [by intros [= <-]|done]|].
  destruct (typeByKind m !! k) as [t0|] eqn:ET; [done|]. intros [= <-]. constructor; simpl; try done.
  - intros t1 k1. rewrite !lookup_insert. repeat case_decide; subst; try done.
    + rewrite <-H1. split; [by intros [= <-]|]. congruence.
    + rewrite H1. split; [congruence|by intros [= <-]].
  - intros t1 k1. rewrite lookup_insert. case_decide; [by intros [= <-]|by apply H2].
  - intros k1 Hk1. destruct (H5 k1 Hk1) as [(t1 & Ht1)|?]; [|by right]. left. exists t1.
    rewrite lookup_insert_ne; [done|]. intros ->. congruence.
Qed.

Lemma On_registry t h dec fn m m' : registry_ok m -> On t h dec fn m = Ok m' -> registry_ok m'.
Proof.
  intros [H1 H2 H3 H4 H5 H6]. unfold On. destruct (validIdent "handler-id" h); [done|].
  destruct (kindByType m !! t) as [k|] eqn:EK; [|done].
  destruct (handlers m !! (k, h)) as [e|] eqn:EH; [done|]. intros [= <-]. constructor; simpl; try done.
  - intros k1 h1. rewrite !lookup_insert. destruct (decide (k = k1)) as [<-|Hne].
    + simpl. rewrite elem_of_app, list_elem_of_singleton. case_decide as Hd; simplify_eq.
      * split; [by right|by eexists].
      * rewrite H3. split; [by left|]. intros [?| ->]; [done|]. congruence.
    + rewrite decide_False by congruence. apply H3.
  - intros k1. rewrite lookup_insert. case_decide; [subst; simpl|done].
    apply NoDup_app. split; [done|]. split; [|apply NoDup_singleton].
    intros x Hx ->%list_elem_of_singleton. apply H3 in Hx as [? ?]. congruence.
  - intros k1. rewrite lookup_insert. case_decide; [subst|by apply H5]. left. by exists t.
Qed.

Lemma declare_spec row m m' :
  declare row m = Ok m' -> declared m !! s_Name row = None /\
  m' = mkManager (config m) (kindByType m) (typeByKind m) (handlers m) (kindHandlers m)
         (<[s_Name row := row]> (declared m)).
Proof. unfold declare. destruct (declared m !! s_Name row); [done|]. by intros [= <-]. Qed.

Lemma buildScheduleRow_spec now name kind payload spec opts m row :
  buildScheduleRow cron marshalOpts now name kind payload spec opts m = Ok row ->
  s_Name row = name /\ s_Group row = SchedulerGroup (config m).
Proof.
  unfold buildScheduleRow. destruct (marshalOpts opts); [|done].
  destruct (next cron spec now); [|done]. by intros [= <-].
Qed.

Lemma declare_registry row m m' :
  registry_ok m -> s_Group row = SchedulerGroup (config m) -> has_nul (s_Name row) = false ->
  declare row m = Ok m' -> registry_ok m'.
Proof.
  intros [H1 H2 H3 H4 H5 H6] Hg Hn [Hd ->]%declare_spec. constructor; simpl; try done.
  - intros k1 Hk1. destruct (H5 k1 Hk1) as [?|(n & -> & Hn')]; [by left|]. right. exists n.
    split; [done|]. rewrite lookup_insert. case_decide; [by eexists|done].
  - intros n r. rewrite lookup_insert. case_decide; [|by apply H6]. intros [= <-]. by subst.
Qed.

Lemma Schedule_registry now name spec msg opts m m' :
  registry_ok m ->
  Schedule cron marshalOpts TypeOf encodePayload now name spec msg opts m = Ok m' -> registry_ok m'.
Proof.
  intros H. unfold Schedule. destruct (validIdent "schedule name" name) eqn:EV; [done|].
  destruct (validate cron spec); [done|].
  destruct (resolve TypeOf msg m) as [[kind [|h hs]]|]; [done| |done]. simpl.
  destruct (if bool_decide (so_Queue opts = _) then _ else _); [done|].
  destruct (so_MaxAttempts opts <? 0); [done|]. destruct (so_Timeout opts <? 0); [done|].
  destruct (validOnTimeout _); [done|]. destruct (validCatchUp _); [done|].
  destruct (encodePayload msg) as [p|]; [|done]. simpl.
  destruct (buildScheduleRow _ _ _ _ _ _ _ _ _) as [row|] eqn:EB; [|done]. simpl.
  apply buildScheduleRow_spec in EB as [Hn Hg]. intros Hd.
  eapply declare_registry; [exact H|done| |exact Hd]. rewrite Hn. by eapply ident_no_nul.
Qed.

Lemma RegisterCron_registry now name expr dec fn m m' :
  registry_ok m -> RegisterCron cron marshalOpts now name expr dec fn m = Ok m' -> registry_ok m'.
Proof.
  intros H. unfold RegisterCron. destruct (validIdent "cron name" name) eqn:EV; [done|].
  destruct (validate cron (Cron expr)); [done|].
  destruct (buildScheduleRow _ _ _ _ _ _ _ _ _) as [row|] eqn:EB; [|done]. simpl.
  apply buildScheduleRow_spec in EB as [Hn Hg].
  destruct (declare row m) as [m1|] eqn:ED; [|done]. simpl. intros [= <-].
  apply ident_no_nul in EV.
  assert (H' : registry_ok m1) by (eapply declare_registry; [exact H|done|by rewrite Hn|exact ED]).
  apply declare_spec in ED as [Hd ->]. rewrite Hn in Hd. destruct H' as [H1 H2 H3 H4 H5 H6].
  simpl in *.
  assert (Hfree : kindHandlers m !! cronKind name = None).
  { destruct (kindHandlers m !! cronKind name) eqn:E; [|done].
    destruct (rg_kinds m H (cronKind name)) as [(t & Ht)|(n & Hc & Hn')]; [by rewrite E| |].
    - apply (rg_prefix m H) in Ht. by rewrite HasPrefix_cronKind in Ht.
    - apply cronKind_inj in Hc as <-. destruct Hn'; congruence. }
  constructor; simpl; try done.
  - intros k h. rewrite !lookup_insert. destruct (decide (cronKind name = k)) as [<-|Hne].
    + simpl. rewrite list_elem_of_singleton. case_decide as Hdd; simplify_eq.
      * split; [done|by eexists].
      * rewrite H3, Hfree. simpl. split; [by intros ?%not_elem_of_nil|]. congruence.
    + rewrite decide_False by congruence. apply H3.
  - intros k. rewrite lookup_insert. case_decide; [apply NoDup_singleton|done].
  - intros k. rewrite lookup_insert. case_decide; [subst|by apply H5].
    intros _. right. exists (s_Name row). split; [done|]. by rewrite lookup_insert_eq.
Qed.
End registry.

Section steps.
Context (cron : string -> option (Time -> Time)).
Context (marshalOpts : ScheduleOptions -> option string).
Context {Msg Fn : Type} (TypeOf : Msg -> option rtype) (encodePayload : Msg -> option string).

(** One successful registration or declaration. *)
Inductive manager_step (m m' : Manager Msg Fn) : Prop :=
| ms_register t k : Register t k m = Ok m' -> manager_step m m'
| ms_on t h dec fn : On t h dec fn m = Ok m' -> manager_step m m'
| ms_schedule now name spec msg opts :
    Schedule cron marshalOpts TypeOf encodePayload now name spec msg opts m = Ok m' ->
    manager_step m m'
| ms_cron now name expr dec fn :
    RegisterCron cron marshalOpts now name expr dec fn m = Ok m' -> manager_step m m'.

Lemma manager_steps_ok m m' : rtc manager_step m m' -> registry_ok m -> registry_ok m'.
Proof.
  induction 1 as [|m1 m2 m3 Hs _ IH]; [done|]. intros H1. apply IH.
  destruct Hs; eauto using Register_registry, On_registry, Schedule_registry, RegisterCron_registry.
Qed.
End steps.

(** *** What is declared *)

Section declarations.
Context (cron : string -> option (Time -> Time)).
Context (marshalOpts : ScheduleOptions -> option string).
Context {Msg Fn : Type} (TypeOf : Msg -> option rtype) (encodePayload : Msg -> option string).
Notation manager_step := (manager_step cron marshalOpts TypeOf encodePayload (Fn := Fn)).
Implicit Types m : Manager Msg Fn.















End declarations.


(** ** Reconciliation *)

(** Every schedule is filed under its group and name, and no name holds the separator. *)
Definition sched_ok (s : MemoryStore) : Prop :=
  forall key r, schedules s !! key = Some r ->
    key = schedKey (s_Group r) (s_Name r) /\ has_nul (s_Name r) = false.

Lemma schedKey_inj g n g' n' :
  has_nul n = false -> has_nul n' = false -> schedKey g n = schedKey g' n' -> g = g' /\ n = n'.
Proof.
  unfold has_nul, schedKey. intros Hn%negb_false_iff Hn'%negb_false_iff.
  revert g'. induction g as [|a g IH]; intros [|b g']; intros E; cbn in E; simplify_eq; try done.
  - rewrite string_forall_app in Hn. apply andb_true_iff in Hn as [_ Hn]. by simpl in Hn.
  - rewrite string_forall_app in Hn'. apply andb_true_iff in Hn' as [_ Hn']. by simpl in Hn'.
  - destruct (IH g') as [-> ->]; done.
Qed.

Lemma upsert_all_lookup l s key :
  NoDup ((fun r => schedKey (s_Group r) (s_Name r)) <$> l) ->
  schedules (foldl (fun s row => UpsertSchedule row s) s l) !! key =
    match list_find (fun r => schedKey (s_Group r) (s_Name r) = key) l with
    | Some (_, row) => Some (mergedSchedule (schedules s !! key) row)
    | None => schedules s !! key
    end.
Proof.
  revert s. induction l as [|r l IH]; intros s HN; [done|].
  rewrite fmap_cons, NoDup_cons in HN. destruct HN as [Hnin HN]. simpl foldl.
  rewrite (IH (UpsertSchedule r s) HN). unfold UpsertSchedule. simpl.
  destruct (decide (schedKey (s_Group r) (s_Name r) = key)) as [<-|Hne].
  - rewrite lookup_insert_eq.
    destruct (list_find _ l) as [[i x]|] eqn:EF; [|done].
    apply list_find_Some in EF as (Hx & E & _). destruct Hnin. rewrite <-E.
    apply (list_elem_of_fmap_2 (fun r => schedKey (s_Group r) (s_Name r))).
    by eapply list_elem_of_lookup_2.
  - rewrite lookup_insert_ne by done. by destruct (list_find _ l) as [[]|].
Qed.

Lemma prune_lookup {Msg Fn} (m : Manager Msg Fn) g l s key :
  schedules (foldl (fun s r => match declared m !! s_Name r with
                               | Some _ => s | None => DeleteSchedule g (s_Name r) s end) s l) !! key =
    if decide (Exists (fun r => declared m !! s_Name r = None /\ schedKey g (s_Name r) = key) l)
    then None else schedules s !! key.
Proof.
  revert s. induction l as [|r l IH]; intros s; cbn [foldl].
  { rewrite decide_False; [done|]. by intros ?%Exists_nil. }
  rewrite IH. destruct (decide (Exists _ l)) as [He|He].
  { rewrite decide_True; [done|]. by right. }
  destruct (declared m !! s_Name r) as [d|] eqn:ED.
  { rewrite decide_False; [done|]. intros [[? _]|?]%Exists_cons; [congruence|done]. }
  unfold DeleteSchedule. simpl. destruct (decide (schedKey g (s_Name r) = key)) as [Hk|Hk].
  - rewrite Hk, lookup_delete_eq, decide_True; [done|]. by left.
  - rewrite lookup_delete_ne, decide_False; [done| |done].
    intros [[_ ?]|?]%Exists_cons; done.
Qed.

Section reconcile.
Context {Msg Fn : Type} (m : Manager Msg Fn) (HR : registry_ok m).

Let g : string := SchedulerGroup (config m).

Definition declarations : list ScheduleRow :=
  sort_by (cmp_on s_Name cmp_string) ((map_to_list (declared m)).*2).

Definition row_key (r : ScheduleRow) : string := schedKey (s_Group r) (s_Name r).

Lemma elem_of_declarations row : row ∈ declarations <-> declared m !! s_Name row = Some row.
Proof.
  unfold declarations. rewrite elem_of_sort_by, elem_of_rows. split; [|by eauto].
  intros [n Hn]. by destruct (rg_declared m HR n row Hn) as [-> _].
Qed.

Lemma declarations_group row :
  row ∈ declarations -> s_Group row = g /\ has_nul (s_Name row) = false.
Proof. intros H%elem_of_declarations. by destruct (rg_declared m HR _ row H) as (_ & ? & ?). Qed.

Lemma declarations_NoDup : NoDup (row_key <$> declarations).
Proof.
  apply NoDup_fmap_2_strong.
  - intros x y Hx Hy E. destruct (declarations_group x Hx), (declarations_group y Hy).
    apply schedKey_inj in E as [_ E]; [|done..].
    apply elem_of_declarations in Hx, Hy. congruence.
  - unfold declarations. rewrite (sort_by_perm _ (map_to_list (declared m)).*2).
    apply (NoDup_fmap_1 s_Name).
    assert (E : s_Name <$> (map_to_list (declared m)).*2 = (map_to_list (declared m)).*1).
    { rewrite <-list_fmap_compose. apply list_fmap_ext. intros i [n r] Hi.
      apply list_elem_of_lookup_2, elem_of_map_to_list in Hi.
      by apply (rg_declared m HR) in Hi as [? _]. }
    rewrite E. apply NoDup_fst_map_to_list.
Qed.

Lemma upserted_lookup s g' n :
  has_nul n = false ->
  schedules (foldl (fun s row => UpsertSchedule row s) s declarations) !! schedKey g' n =
    match (if decide (g' = g) then declared m !! n else None) with
    | Some row => Some (mergedSchedule (schedules s !! schedKey g' n) row)
    | None => schedules s !! schedKey g' n
    end.
Proof.
  intros Hn. rewrite upsert_all_lookup by apply declarations_NoDup.
  destruct (list_find _ declarations) as [[i row]|] eqn:EF.
  - apply list_find_Some in EF as (Hi%list_elem_of_lookup_2 & E & _).
    destruct (declarations_group row Hi). apply schedKey_inj in E as [E1 E2]; [|done..].
    rewrite decide_True by congruence. apply elem_of_declarations in Hi. rewrite E2 in Hi. by rewrite Hi.
  - case_decide as Hgg; [|done]. destruct (declared m !! n) as [row|] eqn:ED; [|done].
    exfalso. apply list_find_None in EF. rewrite Forall_forall in EF.
    destruct (rg_declared m HR n row ED) as (<- & E & _).
    apply (EF row); [by apply elem_of_declarations|]. subst g'. by rewrite E.
Qed.

Lemma upserted_sched_ok s :
  sched_ok s -> sched_ok (foldl (fun s row => UpsertSchedule row s) s declarations).
Proof.
  intros HS key r. rewrite upsert_all_lookup by apply declarations_NoDup.
  destruct (list_find _ declarations) as [[i row]|] eqn:EF; [|apply HS].
  apply list_find_Some in EF as (Hi%list_elem_of_lookup_2 & E & _).
  destruct (declarations_group row Hi). intros [= <-].
  unfold mergedSchedule. destruct (schedules s !! key); by subst.
Qed.
End reconcile.

Lemma foldl_schedules_only {A} (f : MemoryStore -> A -> MemoryStore) l s :
  (forall s x, rows (f s x) = rows s /\ attempts (f s x) = attempts s /\ uniq (f s x) = uniq s /\
     workers (f s x) = workers s) ->
  let s' := foldl f s l in
  rows s' = rows s /\ attempts s' = attempts s /\ uniq s' = uniq s /\ workers s' = workers s.
Proof.
  intros Hf. revert s. induction l as [|x l IH]; intros s; [done|].
  destruct (IH (f s x)) as (E1 & E2 & E3 & E4), (Hf s x) as (F1 & F2 & F3 & F4). simpl. split_and!; congruence.
Qed.

(** Reconciling makes the stored schedules of the manager's group exactly its
    declarations, each merged with the row that was stored (its last run, and its next
    run when the spec is unchanged), prunes every other schedule of the group, and
    touches neither the other groups nor the jobs. *)
Theorem reconcile_makes_the_group_declared {Msg Fn} (m : Manager Msg Fn) s :
  registry_ok m -> sched_ok s ->
  let s' := ReconcileSchedules m s in
  let g := SchedulerGroup (config m) in
  (forall n, has_nul n = false ->
     schedules s' !! schedKey g n =
       (fun row => mergedSchedule (schedules s !! schedKey g n) row) <$> declared m !! n) /\
  (forall g' n, g' <> g -> has_nul n = false ->
     schedules s' !! schedKey g' n = schedules s !! schedKey g' n) /\
  rows s' = rows s /\ attempts s' = attempts s /\ uniq s' = uniq s /\ workers s' = workers s.
Proof.
  intros HR HS s' g. unfold ReconcileSchedules in s'. fold g in s'. fold (declarations m) in s'.
  set (s1 := foldl _ s (declarations m)) in s'.
  pose proof (upserted_lookup m HR s) as H1. fold s1 in H1.
  pose proof (upserted_sched_ok m HR s HS) as HS1. fold s1 in HS1.
  assert (HL : forall g' n, has_nul n = false -> schedules s' !! schedKey g' n =
    if decide (g' = g /\ declared m !! n = None) then None else schedules s1 !! schedKey g' n).
  { intros g' n Hn. unfold s'. rewrite prune_lookup.
    destruct (decide (Exists _ _)) as [Hd|Hd], (decide (g' = g /\ _)) as [Hx|Hx]; try done.
    - exfalso. apply Hx.
      apply Exists_exists in Hd as (r & Hr & HD & HK). unfold ListSchedules in Hr.
      apply elem_of_sort_by, list_elem_of_filter in Hr as [_ [key Hkey]%elem_of_rows].
      apply HS1 in Hkey as [_ Hr]. apply schedKey_inj in HK as [-> <-]; [done|done..].
    - destruct (schedules s1 !! schedKey g' n) as [r|] eqn:E; [|done]. exfalso. apply Hd.
      destruct Hx as [-> HD].
      destruct (HS1 _ _ E) as [E1 Hr]. apply schedKey_inj in E1 as [E1 ->]; [|done..].
      apply Exists_exists. exists r. split; [|by rewrite E1].
      unfold ListSchedules. rewrite elem_of_sort_by, list_elem_of_filter, elem_of_rows.
      split; [done|]. by eexists. }
  split; [|split].
  - intros n Hn. rewrite HL, H1 by done. rewrite (decide_True (P := g = SchedulerGroup (config m))) by done.
    destruct (declared m !! n) as [row|]; simpl; [by rewrite decide_False by naive_solver|].
    by rewrite decide_True.
  - intros g' n Hne Hn. rewrite HL, H1 by done. fold g. rewrite !decide_False by naive_solver. done.
  - unfold s'. pose proof (foldl_schedules_only (fun s row => UpsertSchedule row s) (declarations m) s
      ltac:(done)) as (E1 & E2 & E3 & E4). fold s1 in E1, E2, E3, E4.
    rewrite <-E1, <-E2, <-E3, <-E4. apply foldl_schedules_only.
    intros s0 r. by destruct (declared m !! s_Name r).
Qed.

(** ** Firing *)

Section firing.
Context (cron : string -> option (Time -> Time)).
Context (unmarshalOpts : string -> option ScheduleOptions).
Context (marshal : backoffSpec -> option string) (rawEncode : string -> option string).
Context (newID : nat -> string) {Msg Fn : Type}.

Implicit Types m : Manager Msg Fn.

Abbreviation fire := (fireSchedule cron unmarshalOpts marshal rawEncode newID).

(** Whatever a fire does to the store is one compare-and-swap on the row's last run;
    one that carries jobs records [now] as the last run. *)
Lemma fire_effect clock row now m s :
  fire clock row now m s = (s, []) \/
  exists f, f_Group f = s_Group row /\ f_Name f = s_Name row /\
    f_ExpectedLastRun f = expectedLastRun row /\ (f_Jobs f = [] \/ f_NewLastRun f = now) /\
    (fire clock row now m s).1 = (FireSchedule newID f s).1 /\
    ((FireSchedule newID f s).2 = Ok (false, []) -> (fire clock row now m s).2 = []).
Proof.
  unfold fireSchedule. destruct (parseSpec (s_Spec row)) as [spec|]; [|by left].
  destruct (unmarshalOpts (s_OptionsJSON row)) as [opts|]; [|by left].
  destruct (planFires cron spec (s_NextRunAt row) now (so_CatchUp opts)) as [[[ticks n] c]|]; [|by left].
  unfold advanceSchedule.
  set (adv := mkScheduleFire _ _ _ (if s_LastRunSet row then _ else _) n _ []).
  destruct ticks as [|t ts]; [right; exists adv; split_and!; try done; by left|].
  destruct (default [] (kindHandlers m !! s_Kind row)) as [|h hs]; [by left|].
  destruct (buildTicks _ _ _ _ _ _ _ _ _) as [js|]; [|right; exists adv; split_and!; try done; by left].
  right. set (f := mkScheduleFire _ _ _ now n now js). exists f. split_and!; try done; [by right|..];
    destruct (FireSchedule newID f s) as [s' [[[] rs]|]]; try done.
Qed.

Lemma FireSchedule_refused f s sched :
  schedules s !! schedKey (f_Group f) (f_Name f) = Some sched ->
  lastRunMatches sched (f_ExpectedLastRun f) = false ->
  FireSchedule newID f s = (s, Ok (false, [])).
Proof. intros H1 H2. unfold FireSchedule. by rewrite H1, H2. Qed.

(** An accepted compare-and-swap that inserted something. *)
Lemma FireSchedule_inserted f s :
  rows (FireSchedule newID f s).1 <> rows s ->
  f_Jobs f <> [] /\
  exists sched, schedules (FireSchedule newID f s).1 !! schedKey (f_Group f) (f_Name f) = Some sched /\
    s_LastRunAt sched = f_NewLastRun f /\ s_LastRunSet sched = negb (IsZero (f_NewLastRun f)).
Proof.
  unfold FireSchedule. destruct (schedules s !! _) as [sched|] eqn:ES; [|done].
  destruct (lastRunMatches sched _); simpl; [|done].
  destruct (insertLocked newID (f_Now f) (f_Jobs f) s) as [s1 rs] eqn:EI. simpl. intros Hne. split.
  - intros E. rewrite E in EI. simpl in EI. congruence.
  - eexists. rewrite lookup_insert_eq. split; [reflexivity|done].
Qed.
End firing.

(** When several schedulers hold the same due row and one of them has inserted jobs
    for it, the others, whatever their clocks and handlers, change nothing and fire no
    hook. *)
Theorem racing_schedulers_insert_once cron unmarshalOpts marshal rawEncode newID (Msg Fn : Type)
    clock clock' row now now' (m m' : Manager Msg Fn) s :
  IsZero now = false -> expectedLastRun row <> Some now ->
  let s1 := (fireSchedule cron unmarshalOpts marshal rawEncode newID clock row now m s).1 in
  rows s1 <> rows s ->
  fireSchedule cron unmarshalOpts marshal rawEncode newID clock' row now' m' s1 = (s1, []).
Proof.
  intros Hz Hne s1 Hrows.
  destruct (fire_effect cron unmarshalOpts marshal rawEncode newID clock row now m s)
    as [E|(f & Eg & En & Ee & Hj & E & _)]; [unfold s1 in Hrows; by rewrite E in Hrows|].
  fold s1 in E. rewrite E in Hrows. apply FireSchedule_inserted in Hrows as (Hjobs & sched & HS & Hl & Hset).
  destruct Hj as [|Hnow]; [done|]. rewrite <-E in HS. rewrite Hnow, Hz in Hset. rewrite Hnow in Hl.
  assert (HM : lastRunMatches sched (expectedLastRun row) = false).
  { unfold lastRunMatches. destruct (expectedLastRun row) as [t|] eqn:EE; [|by rewrite Hset].
    rewrite Hset. unfold Equal. apply Z.eqb_neq. congruence. }
  destruct (fire_effect cron unmarshalOpts marshal rawEncode newID clock' row now' m' s1)
    as [E'|(f' & Eg' & En' & Ee' & _ & E' & Hev)]; [done|].
  rewrite Eg, En in HS. rewrite <-Eg', <-En' in HS. rewrite <-Ee' in HM.
  rewrite (FireSchedule_refused newID f' s1 sched HS HM) in E', Hev.
  destruct (fireSchedule cron unmarshalOpts marshal rawEncode newID clock' row now' m' s1) as [s2 evs].
  simpl in E', Hev. by rewrite E', (Hev eq_refl).
Qed.

(** Distinct schedules can share a singleton key: the separator is legal in names and
    groups. *)
Example singleton_keys_collide :
  let row g n := mkScheduleRow g n "mail" "every:60" "{}" "{}" 60 zero_time false 0 in
  validIdent "schedule name" "b:c" = None /\ validIdent "schedule name" "c" = None /\
  singletonKey (row "a" "b:c")%string = singletonKey (row "a:b" "c")%string.
Proof. by vm_compute. Qed.

(** ** A concrete scheduler *)
Module Clockwork.
Definition cron : string -> option (Time -> Time) := fun _ => None.
Definition enc (_ : ScheduleOptions) : option string := Some "{}"%string.
Definition dec (_ : string) : option ScheduleOptions :=
  Some (mkScheduleOptions "" 0 0 0 TimeoutRetry false CatchUpOnce).
Definition marshal (_ : backoffSpec) : option string := Some "{}"%string.
Definition raw (s : string) : option string := Some s.

Definition cfg : Config := mkConfig "" None 0 "g" 0 0.
Definition T : rtype := mkRtype "mail.Send" RStruct.
Definition TypeOf (_ : unit) : option rtype := Some T.
Definition encode_ (_ : unit) : option string := Some "{}"%string.
Definition m0 : Manager unit unit :=
  mkManager (mkConfig "default" (Some DefaultBackoff) 25 "g" 0 30000000000) ∅ ∅ ∅ ∅ ∅.
Definition m1 : Manager unit unit :=
  mkManager (config m0) {[T := "mail"%string]} {["mail"%string := T]} ∅ ∅ ∅.
Definition m2 : Manager unit unit :=
  mkManager (config m0) {[T := "mail"%string]} {["mail"%string := T]}
    {[("mail", "send")%string := mkEntry (fun _ => Ok tt) tt]} {["mail"%string := ["send"%string]]} ∅.
Definition row : ScheduleRow := mkScheduleRow "g" "nightly" "mail" "every:60" "{}" "{}" 1060 zero_time false 1000.
Definition m3 : Manager unit unit :=
  mkManager (config m0) {[T := "mail"%string]} {["mail"%string := T]}
    {[("mail", "send")%string := mkEntry (fun _ => Ok tt) tt]} {["mail"%string := ["send"%string]]}
    {["nightly"%string := row]}.

Definition step : relation (Manager unit unit) := manager_step cron enc TypeOf encode_.

Lemma m3_reached : rtc step m0 m3.
Proof.
  eapply rtc_l; [apply (ms_register _ _ _ _ _ m1 T "mail"); by vm_compute|].
  eapply rtc_l; [apply (ms_on _ _ _ _ _ m2 T "send" (fun _ => Ok tt) tt); by vm_compute|].
  eapply rtc_l; [|apply rtc_refl].
  apply (ms_schedule _ _ _ _ _ m3 1000 "nightly" (Every 60) tt
    (mkScheduleOptions "" 0 0 0 TimeoutRetry false CatchUpOnce)). by vm_compute.
Qed.


Lemma m3_ok : registry_ok m3.
Proof. eapply manager_steps_ok; [apply m3_reached|]. apply (New_registry cfg). by vm_compute. Qed.

Lemma plan_witness :
  exists ticks n capped, planFires cron (Every 60) 1060 1200 CatchUpAll = Ok (ticks, n, capped) /\
    ticks = [1060; 1120; 1180] /\ 1200 < n.
Proof.
  destruct (plan_fires_into_the_future cron (Every 60) 1060 1200 CatchUpAll)
    as (ticks & n & capped & E & Hn & _).
  - by vm_compute.
  - done.
  - exists ticks, n, capped. split; [exact E|]. split; [|exact Hn].
    assert (E' : planFires cron (Every 60) 1060 1200 CatchUpAll = Ok ([1060; 1120; 1180], 1240, false))
      by by vm_compute.
    rewrite E in E'. by injection E'.
Defined.

Definition s0 : MemoryStore :=
  UpsertSchedule (mkScheduleRow "g" "orphan" "mail" "every:5" "{}" "{}" 1005 zero_time false 1000)
    NewMemoryStore.

Lemma s0_ok : sched_ok s0.
Proof.
  intros key r. unfold s0, UpsertSchedule. simpl. rewrite lookup_insert. case_decide; [|by rewrite lookup_empty].
  intros [= <-]. by subst.
Qed.

Lemma reconcile_witness :
  schedules (ReconcileSchedules m3 s0) !! schedKey "g" "orphan" = None /\
  is_Some (schedules (ReconcileSchedules m3 s0) !! schedKey "g" "nightly").
Proof.
  destruct (reconcile_makes_the_group_declared m3 s0 m3_ok s0_ok) as [H _]. split.
  - rewrite H by done. by vm_compute.
  - rewrite H by done. by eexists.
Defined.

Definition s1 : MemoryStore := ReconcileSchedules m3 s0.

Lemma race_witness :
  size (rows (fireSchedule cron dec marshal raw JobStoreSpec.Run.ids (fun _ => 1061) row 1061 m3 s1).1) = 1%nat /\
  let s2 := (fireSchedule cron dec marshal raw JobStoreSpec.Run.ids (fun _ => 1061) row 1061 m3 s1).1 in
  fireSchedule cron dec marshal raw JobStoreSpec.Run.ids (fun _ => 1062) row 1062 m3 s2 = (s2, []).
Proof.
  split; [by vm_compute|].
  apply (racing_schedulers_insert_once cron dec marshal raw JobStoreSpec.Run.ids unit unit
    (fun _ => 1061) (fun _ => 1062) row 1061 1062 m3 m3 s1).
  - by vm_compute.
  - by vm_compute.
  - intros E. apply (f_equal size) in E. vm_compute in E. discriminate.
Defined.

Lemma spec_text_witness : parseSpec "every:60000000000" = Ok (Every 60000000000).
Proof.
  destruct spec_text_roundtrip as [H _]. specialize (H 60000000000 ltac:(by vm_compute)).
  vm_compute in H |- *. exact H.
Defined.
End Clockwork.
