(* ===== verification/JobWorker.v ===== *)
(** The worker: [jobs/worker.go].

    One worker process is a poll loop, a goroutine per claimed job and, at shutdown, a
    drain. Their shared state is the Go struct's: the semaphore, the per-queue counters,
    the map of active runs with their phases. [exec1] performs one atomic action of one
    goroutine; a run of the worker is any interleaving of actions, between which other
    processes may change the store at will. The handler's behaviour, clocks and store
    failures are choices of the interleaving. *)

From S2P Require Import Prelude.
From S2P Require Import GoTime.
From S2P Require Import JobTypes.
From S2P Require Import JobStore.
From S2P Require Import JobBackoff.
From S2P Require Import JobManager.

Local Open Scope Z_scope.
Local Open Scope go_scope.

Record WorkerConfig := mkWorkerConfig {
  wc_ID : string;
  wc_Queues : list string;
  wc_Concurrency : Z;
  wc_PerQueue : gmap string Z;
  wc_PollInterval : Duration;
  wc_LeaseDuration : Duration;
  wc_HeartbeatInterval : Duration;
  wc_SweepInterval : Duration;
  wc_ShutdownTimeout : Duration
}.

Definition staleWorkerMultiplier : Z := 5.

(** The first queue name [validIdent] refuses. *)
Fixpoint first_invalid (qs : list string) : option Error :=
  match qs with
  | [] => None
  | q :: qs => match validIdent "queue" q with Some e => Some e | None => first_invalid qs end
  end.

(** [NewWorker]; [genID] is the generated id. The bounds on durations are compared in
    int64. *)
Definition NewWorker (defaultQueue genID : string) (cfg : WorkerConfig)
    : result Error WorkerConfig :=
  let i := if bool_decide (wc_ID cfg = ""%string) then genID else wc_ID cfg in
  let qs := match wc_Queues cfg with [] => [defaultQueue] | qs => qs end in
  check? first_invalid qs ;;
  let conc := if wc_Concurrency cfg <=? 0 then 1 else wc_Concurrency cfg in
  let poll := if wc_PollInterval cfg <=? 0 then Second else wc_PollInterval cfg in
  let lease := if wc_LeaseDuration cfg <=? 0 then 60 * Second else wc_LeaseDuration cfg in
  let hb := if wc_HeartbeatInterval cfg <=? 0 then quo64 lease 3 else wc_HeartbeatInterval cfg in
  let sweep := if wc_SweepInterval cfg <=? 0 then 30 * Second else wc_SweepInterval cfg in
  let shut := if wc_ShutdownTimeout cfg =? 0 then 30 * Second else wc_ShutdownTimeout cfg in
  if lease <? mul64 3 hb then Err (ErrInvalid "LeaseDuration")
  else Ok (mkWorkerConfig i qs conc (wc_PerQueue cfg) poll lease hb sweep shut).

(** ** Deciding an outcome *)

(** What the code asks of a handler's error: its text and two [errors.Is] tests. *)
Record RunErr := mkRunErr { re_text : string; re_canceled : bool; re_permanent : bool }.

Section decide.
Context (unmarshal : string -> option backoffSpec) (draw : Z -> Z) (default_ : Backoff).

Definition backoffFor (row : ClaimedJob) : Backoff :=
match decodeBackoff unmarshal (BackoffSpec (cj_Job row)) with
| Some b => b
| None => default_
end.

(** A retry after the backoff, from the clock [now]; [None] when the backoff panics. *)
Definition retry_at (row : ClaimedJob) (attemptNum : Z) (now : Time) : option Time :=
match next_of draw (backoffFor row) attemptNum with
| Some d => Some (Add now d)
| None => None
end.

Definition dispatchTimeout (row : ClaimedJob) (attemptNum : Z) (o : Outcome) (now : Time)
  : option Outcome :=
let with_ st at_ :=
  mkOutcome st (o_Attempt o) (o_Error o) at_ (Some AttemptTimedOut) (o_StartedAt o) (o_FinishedAt o) in
if OnTimeout (cj_Job row) =? TimeoutFail then Some (with_ StateFailed (o_AvailableAt o))
else if OnTimeout (cj_Job row) =? TimeoutDiscard then Some (with_ StateDiscarded (o_AvailableAt o))
else if MaxAttempts (cj_Job row) <=? attemptNum then Some (with_ StateDiscarded (o_AvailableAt o))
else match retry_at row attemptNum now with
     | Some t => Some (with_ StatePending t)
     | None => None
     end.

Definition decideOutcome (row : ClaimedJob) (attemptNum : Z) (runErr : option RunErr)
  (cancelByUser deadlineExceeded draining : bool) (started finished now : Time) : option Outcome :=
let err := match runErr with Some e => re_text e | None => ""%string end in
let o st n at_ ast := mkOutcome st n err at_ ast started finished in
if cancelByUser then Some (o StateCancelled attemptNum zero_time (Some AttemptCancelled))
else if deadlineExceeded then
  dispatchTimeout row attemptNum (o StateAvailable attemptNum zero_time None) now
else match runErr with
     | None => Some (o StateSucceeded attemptNum zero_time (Some AttemptSucceeded))
     | Some e =>
         if draining && re_canceled e then Some (o StateAvailable (cj_Attempt row) now None)
         else if re_permanent e then Some (o StateFailed attemptNum zero_time (Some AttemptFailed))
         else if MaxAttempts (cj_Job row) <=? attemptNum then
           Some (o StateDiscarded attemptNum zero_time (Some AttemptFailed))
         else match retry_at row attemptNum now with
              | Some t => Some (o StatePending attemptNum t (Some AttemptFailed))
              | None => None
              end
     end.
End decide.

(** ** Runs *)

Inductive Phase := phaseRegistered | phaseRunning | phaseResolving | phaseAbandoned.

#[export] Instance Phase_eq_dec : EqDecision Phase.
Proof. solve_decision. Defined.

(** Where a job's goroutine stands in [run] (and [park]). *)
Inductive PC :=
| AtStart                                        (** before [setCancels] *)
| AtLookup                                       (** before [handlerFor] and [decode] *)
| AtInvoke                                       (** before registered -> running *)
| AtPark (cause : string)                        (** before registered -> resolving *)
| Invoking (started : Time)                      (** the handler runs *)
| Returned (err : option RunErr) (deadline : bool) (started finished : Time)
                                                 (** before running -> resolving *)
| Committing (o : Outcome) (attempt : Z)         (** in [complete], at this attempt *)
| DeferActive                                    (** before [active.Delete] *)
| DeferBump                                      (** before [bumpQueueInFlight(-1)] *)
| DeferSem                                       (** before the semaphore receive *)
| Exited.

Record Run := mkRun {
  run_row : ClaimedJob;
  run_phase : Phase;
  run_published : bool;    (** [setCancels] done *)
  run_hbStopped : bool;    (** the heartbeat no longer runs *)
  run_cancelled : bool;    (** the handler's context is cancelled *)
  run_cancelByUser : bool;
  run_pc : PC
}.

Definition exited (r : Run) : bool := match run_pc r with Exited => true | _ => false end.

(** What the poll loop has read when it is about to claim. *)
Record Poll := mkPoll { p_available : Z; p_queues : list string; p_budget : gmap string Z }.

(** Handler invocations, completions sent and abandonments, newest first. *)
Inductive Event := EvInvoke (g : nat) | EvComplete (g : nat) | EvAbandon (g : nat).

#[export] Instance Event_eq_dec : EqDecision Event.
Proof. solve_decision. Defined.

Record WorkerState := mkWorkerState {
  ws_store : MemoryStore;
  ws_poll : option Poll;
  ws_runs : gmap nat Run;
  ws_next : nat;
  ws_active : gmap string nat;
  ws_sem : Z;
  ws_inflight : gmap string Z;
  ws_draining : bool;
  ws_abandoned : bool;
  ws_trace : list Event
}.

Definition set_store (st : MemoryStore) (s : WorkerState) : WorkerState :=
  mkWorkerState st (ws_poll s) (ws_runs s) (ws_next s) (ws_active s) (ws_sem s)
    (ws_inflight s) (ws_draining s) (ws_abandoned s) (ws_trace s).
Definition set_poll (p : option Poll) (s : WorkerState) : WorkerState :=
  mkWorkerState (ws_store s) p (ws_runs s) (ws_next s) (ws_active s) (ws_sem s)
    (ws_inflight s) (ws_draining s) (ws_abandoned s) (ws_trace s).
Definition set_run (g : nat) (r : Run) (s : WorkerState) : WorkerState :=
  mkWorkerState (ws_store s) (ws_poll s) (<[g := r]> (ws_runs s)) (ws_next s) (ws_active s)
    (ws_sem s) (ws_inflight s) (ws_draining s) (ws_abandoned s) (ws_trace s).
Definition log (e : Event) (s : WorkerState) : WorkerState :=
  mkWorkerState (ws_store s) (ws_poll s) (ws_runs s) (ws_next s) (ws_active s) (ws_sem s)
    (ws_inflight s) (ws_draining s) (ws_abandoned s) (e :: ws_trace s).

(** A run's fields after one action. *)
Definition at_pc (pc : PC) (r : Run) : Run :=
  mkRun (run_row r) (run_phase r) (run_published r) (run_hbStopped r) (run_cancelled r)
    (run_cancelByUser r) pc.
Definition to_phase (p : Phase) (r : Run) : Run :=
  mkRun (run_row r) p (run_published r) (run_hbStopped r) (run_cancelled r)
    (run_cancelByUser r) (run_pc r).

(** ** Actions *)

Section worker.
Context {Msg Fn : Type} (m : Manager Msg Fn) (newID : nat -> string)
(unmarshal : string -> option backoffSpec) (draw : Z -> Z) (default_ : Backoff)
(cfg : WorkerConfig) (hostname : string).

Definition queueInFlightCount (s : WorkerState) (q : string) : Z := default 0 (ws_inflight s !! q).

(** The loop of [eligibleQueues]: queues without a cap, and capped ones with room left
    together with that room. *)
Fixpoint eligible_from (s : WorkerState) (qs : list string) : list string * gmap string Z :=
match qs with
| [] => ([], ∅)
| q :: qs =>
    let '(queues, budget) := eligible_from s qs in
    match wc_PerQueue cfg !! q with
    | Some limit =>
        if limit <=? 0 then (q :: queues, budget)
        else
          let remaining := limit - queueInFlightCount s q in
          if remaining <=? 0 then (queues, budget) else (q :: queues, <[q := remaining]> budget)
    | None => (q :: queues, budget)
    end
end.

Definition eligibleQueues (s : WorkerState) : list string * gmap string Z :=
if bool_decide (wc_PerQueue cfg = ∅) then (wc_Queues cfg, ∅) else eligible_from s (wc_Queues cfg).

(** [tryClaim], up to its store call. *)
Definition tryClaim_read (s : WorkerState) : option Poll :=
let available := wc_Concurrency cfg - ws_sem s in
if available <=? 0 then None
else let '(queues, budget) := eligibleQueues s in
     match queues with
     | [] => None
     | _ => Some (mkPoll available queues budget)
     end.

(** One claimed row: a semaphore slot, the queue counter, the active entry, the
    goroutine. *)
Definition launch (row : ClaimedJob) (s : WorkerState) : WorkerState :=
let g := ws_next s in
let q := Queue (cj_Job row) in
mkWorkerState (ws_store s) (ws_poll s)
  (<[g := mkRun row phaseRegistered false false false false AtStart]> (ws_runs s)) (S g)
  (<[cj_ID row := g]> (ws_active s)) (ws_sem s + 1)
  (<[q := queueInFlightCount s q + 1]> (ws_inflight s)) (ws_draining s) (ws_abandoned s)
  (ws_trace s).

(** [tryClaim], from its store call on. *)
Definition tryClaim (now : Time) (p : Poll) (s : WorkerState) : WorkerState :=
let '(st, claimed) :=
  Claim (mkClaimRequest (wc_ID cfg) (p_queues p) now (wc_LeaseDuration cfg) (p_available p)
           (p_budget p) (handlerSet m)) (ws_store s) in
set_poll None (foldl (fun s row => launch row s) (set_store st s) claimed).

(** [abandon] of a run the drain has won. *)
Definition abandon (r : Run) : Run :=
mkRun (run_row r) phaseAbandoned (run_published r)
  (if run_published r then true else run_hbStopped r)
  (if run_published r then true else run_cancelled r) (run_cancelByUser r) (run_pc r).

(** The choices of an interleaving: which goroutine acts, and what it reads. *)
Inductive Action :=
| APoll
| AClaim (now : Time)
| ASweepExpired (now : Time) (order : list string)
| ASweepWorkers (now : Time)
| ARenew (now : Time)
| ASetCancels (g : nat)
| ALookup (g : nat)
| AInvoke (g : nat) (now : Time)
| AHeartbeat (g : nat) (now : Time)
| AReturn (g : nat) (err : option RunErr) (deadline : bool) (finished : Time)
| AResolve (g : nat) (now : Time)
| APark (g : nat) (now : Time)
| ACommit (g : nat) (now : Time) (fault : bool)
| ADefer (g : nat)
| ADrain
| ADrainVisit (jobID : string).

Definition maxCompleteAttempts : Z := 5.

(** The lookup and decoding of the handler. *)
Definition lookup_handler (row : ClaimedJob) : PC :=
match handlerFor (Kind (cj_Job row), HandlerID (cj_Job row)) m with
| None => AtPark "unregistered handler"
| Some entry => match he_decode entry (Payload (cj_Job row)) with
                | Err _ => AtPark "decode payload"
                | Ok _ => AtInvoke
                end
end.

(** The outcome [park] commits. *)
Definition park_outcome (row : ClaimedJob) (cause : string) (now : Time) : Outcome :=
mkOutcome StateFailed (cj_Attempt row + 1) cause zero_time (Some AttemptFailed) now now.

(** The actions of a run's own goroutine, as the run and the worker after them. *)
Definition run_action (a : Action) (g : nat) (r : Run) (s : WorkerState) : option WorkerState :=
let id := cj_ID (run_row r) in
match a, run_pc r with
| ASetCancels _, AtStart =>
    Some (set_run g (mkRun (run_row r) (run_phase r) true (run_hbStopped r) (run_cancelled r)
                       (run_cancelByUser r) AtLookup) s)
| ALookup _, AtLookup => Some (set_run g (at_pc (lookup_handler (run_row r)) r) s)
| AInvoke _ now, AtInvoke =>
    if bool_decide (run_phase r = phaseRegistered)
    then Some (log (EvInvoke g) (set_run g (at_pc (Invoking now) (to_phase phaseRunning r)) s))
    else Some (set_run g (at_pc DeferActive r) s)
| AHeartbeat _ now, Invoking _ | AHeartbeat _ now, Returned _ _ _ _ =>
    if run_hbStopped r then None
    else
      let '(st, res) := Heartbeat id (wc_ID cfg) now (Add now (wc_LeaseDuration cfg)) (ws_store s) in
      let stop byUser := mkRun (run_row r) (run_phase r) (run_published r) true true byUser (run_pc r) in
      match res with
      | Err _ => Some (set_run g (stop (run_cancelByUser r)) (set_store st s))
      | Ok true => Some (set_run g (stop true) (set_store st s))
      | Ok false => Some (set_store st s)
      end
| AReturn _ err deadline finished, Invoking started =>
    if deadline && (TimeoutMs (cj_Job (run_row r)) <=? 0) then None
    else Some (set_run g (at_pc (Returned err deadline started finished) r) s)
| AResolve _ now, Returned err deadline started finished =>
    let r := mkRun (run_row r) (run_phase r) (run_published r) true (run_cancelled r)
               (run_cancelByUser r) (run_pc r) in
    if bool_decide (run_phase r = phaseRunning)
    then match decideOutcome unmarshal draw default_ (run_row r) (cj_Attempt (run_row r) + 1) err
                 (run_cancelByUser r) deadline (ws_draining s) started finished now with
         | Some o => Some (set_run g (at_pc (Committing o 1) (to_phase phaseResolving r)) s)
         | None => None
         end
    else Some (set_run g (at_pc DeferActive r) s)
| APark _ now, AtPark cause =>
    if bool_decide (run_phase r = phaseRegistered)
    then Some (set_run g (at_pc (Committing (park_outcome (run_row r) cause now) 1)
                            (to_phase phaseResolving r)) s)
    else Some (set_run g (at_pc DeferActive r) s)
| ACommit _ now fault, Committing o k =>
    if fault then
      Some (log (EvComplete g)
              (set_run g (at_pc (if maxCompleteAttempts <=? k then DeferActive
                                 else Committing o (k + 1)) r) s))
    else
      let '(st, _) := Complete newID id (wc_ID cfg) now o (ws_store s) in
      Some (log (EvComplete g) (set_run g (at_pc DeferActive r) (set_store st s)))
| ADefer _, DeferActive =>
    Some (mkWorkerState (ws_store s) (ws_poll s) (<[g := at_pc DeferBump r]> (ws_runs s))
            (ws_next s) (delete id (ws_active s)) (ws_sem s) (ws_inflight s) (ws_draining s)
            (ws_abandoned s) (ws_trace s))
| ADefer _, DeferBump =>
    let q := Queue (cj_Job (run_row r)) in
    Some (mkWorkerState (ws_store s) (ws_poll s) (<[g := at_pc DeferSem r]> (ws_runs s))
            (ws_next s) (ws_active s) (ws_sem s)
            (<[q := queueInFlightCount s q - 1]> (ws_inflight s)) (ws_draining s)
            (ws_abandoned s) (ws_trace s))
| ADefer _, DeferSem =>
    Some (mkWorkerState (ws_store s) (ws_poll s) (<[g := at_pc Exited r]> (ws_runs s))
            (ws_next s) (ws_active s) (ws_sem s - 1) (ws_inflight s) (ws_draining s)
            (ws_abandoned s) (ws_trace s))
| _, _ => None
end.

Definition run_of (a : Action) : option nat :=
match a with
| ASetCancels g | ALookup g | AInvoke g _ | AHeartbeat g _ | AReturn g _ _ _ | AResolve g _
| APark g _ | ACommit g _ _ | ADefer g => Some g
| _ => None
end.

(** One visit of the drain's [Range]: the compare-and-swaps on the entry's phase. *)
Definition drain_visit (jobID : string) (s : WorkerState) : option WorkerState :=
match ws_active s !! jobID with
| None => None
| Some g =>
    match ws_runs s !! g with
    | None => None
    | Some r =>
        if bool_decide (run_phase r = phaseRegistered) || bool_decide (run_phase r = phaseRunning)
        then
          let s := log (EvAbandon g) (set_run g (abandon r) s) in
          Some (mkWorkerState (ws_store s) (ws_poll s) (ws_runs s) (ws_next s) (ws_active s)
                  (ws_sem s) (ws_inflight s) (ws_draining s) true (ws_trace s))
        else Some s
    end
end.

(** [-staleWorkerMultiplier * LeaseDuration], in int64. *)
Definition staleBefore (now : Time) : Time :=
Add now (mul64 (- staleWorkerMultiplier) (wc_LeaseDuration cfg)).

(** One action; [None] when it is not enabled. *)
Definition exec1 (a : Action) (s : WorkerState) : option WorkerState :=
match a with
| APoll => if ws_draining s then None else Some (set_poll (tryClaim_read s) s)
| AClaim now =>
    if ws_draining s then None
    else match ws_poll s with
         | None => None
         | Some p => Some (tryClaim now p s)
         end
| ASweepExpired now order =>
    if ws_draining s then None
    else Some (set_store (SweepExpired newID now order (ws_store s)).1 s)
| ASweepWorkers now =>
    if ws_draining s then None
    else Some (set_store (SweepStaleWorkers (staleBefore now) (ws_store s)).1 s)
| ARenew now =>
    if ws_draining s then None
    else Some (set_store (UpsertWorker (mkWorkerRow (wc_ID cfg) hostname (wc_Queues cfg) now now)
                            (ws_store s)) s)
| ADrain =>
    Some (mkWorkerState (ws_store s) None (ws_runs s) (ws_next s) (ws_active s) (ws_sem s)
            (ws_inflight s) true (ws_abandoned s) (ws_trace s))
| ADrainVisit jobID => if ws_draining s then drain_visit jobID s else None
| _ => match run_of a with
       | Some g => match ws_runs s !! g with
                   | Some r => run_action a g r s
                   | None => None
                   end
       | None => None
       end
end.

Fixpoint exec (l : list Action) (s : WorkerState) : option WorkerState :=
match l with
| [] => Some s
| a :: l => match exec1 a s with Some s => exec l s | None => None end
end.

(** [Start]: the worker registers itself, with nothing running. *)
Definition Start (now : Time) (st : MemoryStore) : WorkerState :=
mkWorkerState (UpsertWorker (mkWorkerRow (wc_ID cfg) hostname (wc_Queues cfg) now now) st)
  None ∅ 0 ∅ 0 ∅ false false [].

(** What [drain] returns once its deadline has passed: [true] is
    [context.DeadlineExceeded]. *)
Definition drain_incomplete (s : WorkerState) : bool :=
if bool_decide (map_Forall (fun _ r => exited r = true) (ws_runs s))
then ws_abandoned s else true.

(** A run of the worker: its own actions, interleaved with arbitrary changes other
    processes make to the store. *)
Inductive worker_step (s : WorkerState) : WorkerState -> Prop :=
| ws_own a s' : exec1 a s = Some s' -> worker_step s s'
| ws_env st : worker_step s (set_store st s).
End worker.
