(* ===== verification/JobWorkerSpec.v ===== *)
(** What the worker promises: it decides lawful outcomes, never runs more than its
    configured concurrency, and at shutdown an abandoned run neither starts its handler
    nor completes its job. *)

From S2P Require Import Prelude.
From S2P Require Import GoTime.
From S2P Require Import JobTypes.
From S2P Require Import JobStore.
From S2P Require Import JobStoreInv.
From S2P Require Import JobBackoff.
From S2P Require Import JobManager.
From S2P Require Import JobWorker.

Local Open Scope Z_scope.

(** ** Outcomes *)

(** Whatever a handler does (succeeds, fails, fails permanently, times out, is
    cancelled by an operator or by shutdown), the outcome the worker reports for a job
    it holds at its current execution is one the store's invariant accepts: never the
    running state, the next execution number whenever a ledger entry is written, and a
    retry only below the attempt cap. A success is reported exactly for a handler that
    returned no error in time without cancellation. *)
Theorem decided_outcome_is_lawful unmarshal draw default_ row err byUser deadline draining
    started finished now r o :
  attempt r = cj_Attempt row -> MaxAttempts (job r) = MaxAttempts (cj_Job row) ->
  attempt r < MaxAttempts (job r) ->
  decideOutcome unmarshal draw default_ row (cj_Attempt row + 1) err byUser deadline draining
    started finished now = Some o ->
  outcome_ok r o /\
  (o_State o = StateSucceeded <-> err = None /\ byUser = false /\ deadline = false) /\
  (o_State o = StateCancelled <-> byUser = true) /\
  (o_AttemptState o = None ->
     draining = true /\ byUser = false /\ deadline = false /\ o_State o = StateAvailable).
Proof.
  intros Ha Hm Hlt. unfold decideOutcome, dispatchTimeout.
  assert (HX : forall st n at_ ast e, st <> StateRunning ->
    (ast <> None -> n = attempt r + 1) ->
    (Terminal st = false -> match ast with Some _ => attempt r + 1 < MaxAttempts (job r)
                            | None => True end) ->
    outcome_ok r (mkOutcome st n e at_ ast started finished)).
  { intros st n at_ ast e H1 H2 H3. constructor; simpl; try done.
    intros Ht. specialize (H3 Ht). destruct ast; lia. }
  intros E. repeat (case_match; simplify_eq/=; try done); zbool;
    (split; [apply HX; naive_solver (lia || done)|]); naive_solver.
Qed.

(** ** Counting runs *)

Definition count_runs (P : Run -> bool) (R : gmap nat Run) : Z :=
  Z.of_nat (size (filter (fun kv : nat * Run => P kv.2 = true) R)).

Definition b2z (b : bool) : Z := if b then 1 else 0.

Lemma count_runs_fresh P R g r :
  R !! g = None -> count_runs P (<[g := r]> R) = count_runs P R + b2z (P r).
Proof.
  intros H. unfold count_runs. rewrite map_filter_insert. destruct (P r) eqn:E.
  - rewrite decide_True by done. rewrite map_size_insert_None; [simpl; lia|].
    apply map_lookup_filter_None. by left.
  - rewrite decide_False by (simpl; congruence). rewrite delete_id by done. simpl. lia.
Qed.

Lemma count_runs_update P R g r r' :
  R !! g = Some r -> count_runs P (<[g := r']> R) = count_runs P R - b2z (P r) + b2z (P r').
Proof.
  intros H. rewrite <-(insert_id R g r H) at 2.
  rewrite <-(insert_delete_eq R g r), <-(insert_delete_eq R g r').
  rewrite !count_runs_fresh by apply lookup_delete_eq. lia.
Qed.

Lemma count_runs_ext P Q R : (forall r, P r = Q r) -> count_runs P R = count_runs Q R.
Proof.
  intros H. unfold count_runs. do 2 f_equal. apply map_filter_ext. intros i x _. simpl. by rewrite H.
Qed.

(** A run holds its semaphore slot until the receive, and its queue's count until the
    decrement. *)
Definition occupied (r : Run) : bool := negb (exited r).
Definition counted (q : string) (r : Run) : bool :=
  bool_decide (Queue (cj_Job (run_row r)) = q) &&
  match run_pc r with DeferSem | Exited => false | _ => true end.

(** ** What a claim returns, whatever the store holds *)

Definition count_claimed (q : string) (l : list ClaimedJob) : Z :=
  Z.of_nat (length (filter (fun c => Queue (cj_Job c) = q) l)).

Lemma claimLoop_bounds req limit n pq cands s :
  Forall (fun r => claimable req r = true) cands ->
  let out := (claimLoop req limit n pq cands s).2 in
  n + Z.of_nat (length out) <= Z.max n limit /\
  (forall q qlim, cr_QueueLimits req !! q = Some qlim -> 0 <= qlim ->
     default 0 (pq !! q) + count_claimed q out <= Z.max (default 0 (pq !! q)) qlim) /\
  Forall (fun c => cr_Queues req = [] \/ Queue (cj_Job c) ∈ cr_Queues req) out.
Proof.
  intros HF. revert n pq s. induction HF as [|r l Hr HF IH]; intros n pq s; cbn [claimLoop].
  { cbn [snd length]. change (count_claimed ?q []) with 0. split_and!; [lia| |constructor].
    intros. change (count_claimed q []) with 0. lia. }
  destruct (limit <=? n) eqn:EL; zbool.
  { cbn [snd length]. split_and!; [lia| |constructor]. intros. change (count_claimed q []) with 0. lia. }
  destruct (queueFull req pq (Queue (job r))) eqn:EQ; [apply IH|].
  set (pq' := <[_ := _]> pq). specialize (IH (n + 1) pq' (set_rows <[id r := leased req r]> s)).
  destruct (claimLoop req limit (n + 1) pq' l _) as [s' out]. cbn [snd] in *.
  destruct IH as (H1 & H2 & H3). cbn [length]. split_and!; [lia| |constructor; [|done]].
  - intros q qlim E H0. specialize (H2 q qlim E H0). unfold pq' in H2. rewrite lookup_insert in H2.
    unfold count_claimed in *. rewrite filter_cons. cbn [cj_Job].
    destruct (decide (Queue (job r) = q)) as [Hq|Hq]; [|done].
    cbn [length default] in *. unfold queueFull in EQ. rewrite Hq, E in *. zbool.
    assert (qlim <=? default 0 (pq !! q) = false)
      by (rewrite (proj2 (Z.leb_le 0 qlim) H0) in EQ; exact EQ).
    zbool. simpl in H2. lia.
  - unfold claimable in Hr. zbool. simpl.
    match goal with H : (bool_decide (_ = []) || _) = true |- _ =>
      apply orb_true_iff in H as [H|H]; apply bool_decide_eq_true in H end; tauto.
Qed.

Lemma Claim_bounds req s :
  0 < cr_Limit req ->
  Z.of_nat (length (Claim req s).2) <= cr_Limit req /\
  (forall q qlim, cr_QueueLimits req !! q = Some qlim -> 0 <= qlim ->
     count_claimed q (Claim req s).2 <= qlim) /\
  Forall (fun c => cr_Queues req = [] \/ Queue (cj_Job c) ∈ cr_Queues req) (Claim req s).2.
Proof.
  intros Hl. unfold Claim. destruct (_ || _).
  { cbn [snd length]. split_and!; [lia| |constructor]. intros. change (count_claimed q []) with 0. lia. }
  rewrite (proj2 (Z.leb_gt _ _)) by done.
  destruct (claimLoop_bounds req (cr_Limit req) 0 ∅ (candidates req s) s) as (H1 & H2 & H3).
  - apply Forall_forall. intros r Hr. by apply candidates_spec in Hr as [? _].
  - split_and!; [lia| |done]. intros q qlim E H0. specialize (H2 q qlim E H0).
    rewrite lookup_empty in H2. simpl in H2. lia.
Qed.

(** ** Capacity *)

Section capacity.
Context {Msg Fn : Type} (m : Manager Msg Fn) (newID : nat -> string)
(unmarshal : string -> option backoffSpec) (draw : Z -> Z) (default_ : Backoff)
(cfg : WorkerConfig) (hostname : string).
Context (Hconc : 0 < wc_Concurrency cfg).

(** A cap that is in force. *)
Definition capped (q : string) (lim : Z) : Prop := wc_PerQueue cfg !! q = Some lim /\ 0 < lim.

Definition poll_ok (s : WorkerState) (p : Poll) : Prop :=
  0 < p_available p <= wc_Concurrency cfg - ws_sem s /\ p_queues p <> [] /\
  forall q lim, capped q lim -> q ∈ p_queues p ->
    exists b, p_budget p !! q = Some b /\ 0 <= b <= lim - queueInFlightCount s q.

Record cap_inv (s : WorkerState) : Prop := {
  ci_sem : ws_sem s = count_runs occupied (ws_runs s);
  ci_queue : forall q, queueInFlightCount s q = count_runs (counted q) (ws_runs s);
  ci_fresh : forall g, is_Some (ws_runs s !! g) -> (g < ws_next s)%nat;
  ci_conc : ws_sem s <= wc_Concurrency cfg;
  ci_cap : forall q lim, capped q lim -> queueInFlightCount s q <= lim;
  ci_poll : forall p, ws_poll s = Some p -> poll_ok s p
}.

Lemma eligible_from_spec s qs :
  let '(queues, budget) := eligible_from cfg s qs in
  (forall q, q ∈ queues -> q ∈ qs) /\
  forall q lim, capped q lim -> q ∈ queues ->
    exists b, budget !! q = Some b /\ 0 <= b <= lim - queueInFlightCount s q.
Proof.
  induction qs as [|q qs IH]; simpl; [split; [done|]; intros q lim _ Hq; by apply not_elem_of_nil in Hq|].
  destruct (eligible_from cfg s qs) as [queues budget]. destruct IH as [IH1 IH2].
  destruct (wc_PerQueue cfg !! q) as [limit|] eqn:EP.
  - destruct (limit <=? 0) eqn:EL; [|destruct (limit - _ <=? 0) eqn:ER]; zbool.
    + split; [set_solver|]. intros q' lim [Hc Hl] [->|Hq]%elem_of_cons; [simplify_eq; lia|].
      by apply IH2.
    + split; [set_solver|done].
    + split; [set_solver|]. intros q' lim [Hc Hl] Hq. rewrite lookup_insert. case_decide as Hd.
      * subst. simplify_eq. eexists. split; [reflexivity|]. lia.
      * apply elem_of_cons in Hq as [->|Hq]; [done|]. by apply IH2.
  - split; [set_solver|]. intros q' lim Hc [->|Hq]%elem_of_cons; [|by apply IH2].
    destruct Hc; congruence.
Qed.

Lemma tryClaim_read_ok s p : tryClaim_read cfg s = Some p -> poll_ok s p.
Proof.
  unfold tryClaim_read, eligibleQueues. destruct (_ <=? 0) eqn:E; [done|]. zbool. case_bool_decide as HP.
  - destruct (wc_Queues cfg) eqn:EQ; [done|]. intros [= <-]. split; [simpl; lia|]. split; [done|].
    intros q lim [Hc _]. by rewrite HP, lookup_empty in Hc.
  - pose proof (eligible_from_spec s (wc_Queues cfg)) as H.
    destruct (eligible_from cfg s (wc_Queues cfg)) as [[|q qs] budget]; [done|]. intros [= <-].
    split; [simpl; lia|]. split; [done|]. apply H.
Qed.

(** A run's own step changes one run, and the counters with it. *)
Lemma cap_update s s' g r r' :
  cap_inv s -> ws_runs s !! g = Some r -> run_row r' = run_row r ->
  ws_runs s' = <[g := r']> (ws_runs s) -> ws_next s' = ws_next s ->
  (ws_poll s' = ws_poll s \/ ws_poll s' = None) ->
  ws_sem s' = ws_sem s - b2z (occupied r) + b2z (occupied r') ->
  (forall q, queueInFlightCount s' q =
     queueInFlightCount s q - b2z (counted q r) + b2z (counted q r')) ->
  (occupied r' = true -> occupied r = true) ->
  (forall q, counted q r' = true -> counted q r = true) -> cap_inv s'.
Proof.
  intros [H1 H2 H3 H4 H5 H6] Hr Hrow ER EN EP ES EQ Ho Hc.
  assert (Hle : ws_sem s' <= ws_sem s).
  { rewrite ES. destruct (occupied r'), (occupied r); simpl; first [lia|by specialize (Ho eq_refl)]. }
  assert (Hleq : forall q, queueInFlightCount s' q <= queueInFlightCount s q).
  { intros q. rewrite EQ. specialize (Hc q). destruct (counted q r'), (counted q r); simpl; first [lia|by specialize (Hc eq_refl)]. }
  constructor.
  - rewrite ES, ER, (count_runs_update _ _ _ r) by done. lia.
  - intros q. rewrite EQ, ER, (count_runs_update _ _ _ r) by done. rewrite H2. lia.
  - intros g' Hg. rewrite EN. apply H3. rewrite ER, lookup_insert in Hg. case_decide; [subst|done].
    by rewrite Hr.
  - lia.
  - intros q lim Hq. specialize (H5 q lim Hq). specialize (Hleq q). lia.
  - intros p Hp. destruct EP as [EP|EP]; [|congruence]. rewrite EP in Hp.
    destruct (H6 p Hp) as (Ha & Hn & Hb). split; [lia|]. split; [done|]. intros q lim Hq Hin.
    destruct (Hb q lim Hq Hin) as (b & E & Hb'). exists b. split; [done|]. specialize (Hleq q). lia.
Qed.

(** Only the launch raises the counters. *)
Lemma launch_all s l :
  let s' := foldl (fun s row => launch row s) s l in
  ws_sem s' = ws_sem s + Z.of_nat (length l) /\
  (forall q, queueInFlightCount s' q = queueInFlightCount s q + count_claimed q l) /\
  ((forall g, is_Some (ws_runs s !! g) -> (g < ws_next s)%nat) ->
   count_runs occupied (ws_runs s') = count_runs occupied (ws_runs s) + Z.of_nat (length l) /\
   (forall q, count_runs (counted q) (ws_runs s') = count_runs (counted q) (ws_runs s) + count_claimed q l) /\
   (forall g, is_Some (ws_runs s' !! g) -> (g < ws_next s')%nat)).
Proof.
  assert (H0 : forall q, count_claimed q [] = 0) by done.
  revert s. induction l as [|row l IH]; intros s; cbv zeta; cbn [foldl length].
  { split_and!; [lia|intros; rewrite H0; lia|].
    intros H. split_and!; [lia| |done]. intros; rewrite H0; lia. }
  cbv zeta in IH. destruct (IH (launch row s)) as (H1 & H2 & H3). split; [rewrite H1; simpl; lia|].
  assert (HQ : forall q, count_claimed q (row :: l) =
    b2z (bool_decide (Queue (cj_Job row) = q)) + count_claimed q l).
  { intros q. unfold count_claimed. rewrite filter_cons.
    case_bool_decide; case_decide; try done; cbn [length b2z]; lia. }
  split.
  - intros q. rewrite H2, HQ. unfold launch, queueInFlightCount. cbn [ws_inflight].
    rewrite lookup_insert. case_bool_decide; case_decide; try done; subst; cbn [default b2z]; unfold Datatypes.id;
      unfold queueInFlightCount; lia.
  - intros HF. assert (Hnone : ws_runs s !! ws_next s = None).
    { destruct (ws_runs s !! ws_next s) eqn:E; [|done]. specialize (HF (ws_next s) ltac:(by rewrite E)). lia. }
    destruct H3 as (H3 & H4 & H5).
    { intros g. unfold launch. simpl. rewrite lookup_insert. case_decide; [lia|]. intros ?%HF. lia. }
    split_and!; [| |done].
    + rewrite H3. unfold launch. cbn [ws_runs]. rewrite count_runs_fresh by done. simpl. lia.
    + intros q. rewrite H4, HQ. unfold launch. cbn [ws_runs]. rewrite count_runs_fresh by done.
      unfold counted at 2. cbn [run_row run_pc]. rewrite andb_true_r. lia.
Qed.

Lemma tryClaim_cap now p s :
  cap_inv s -> ws_poll s = Some p -> cap_inv (tryClaim m cfg now p s).
Proof.
  intros [H1 H2 H3 H4 H5 H6] Hp. destruct (H6 p Hp) as (Ha & Hn & Hb). unfold tryClaim.
  set (req := mkClaimRequest _ _ _ _ _ _ _).
  destruct (Claim_bounds req (ws_store s)) as (C1 & C2 & C3); [simpl; lia|].
  destruct (Claim req (ws_store s)) as [st l]. cbn [snd cr_Limit cr_QueueLimits cr_Queues req] in C1, C2, C3.
  destruct (launch_all (set_store st s) l) as (L1 & L2 & L3).
  destruct L3 as (L3 & L4 & L5); [exact H3|]. cbn [set_store ws_sem ws_runs] in L1, L3, L4.
  change (queueInFlightCount (set_store st s)) with (queueInFlightCount s) in L2.
  constructor; simpl.
  - rewrite L1, L3. lia.
  - intros q. change (queueInFlightCount (set_poll None ?x) q) with (queueInFlightCount x q).
    rewrite L2, L4. by rewrite H2.
  - exact L5.
  - lia.
  - intros q lim Hq. change (queueInFlightCount (set_poll None ?x) q) with (queueInFlightCount x q).
    rewrite L2. specialize (H5 q lim Hq).
    destruct (decide (q ∈ p_queues p)) as [Hin|Hin].
    + destruct (Hb q lim Hq Hin) as (b & E & Hb'). specialize (C2 q b E). lia.
    + assert (count_claimed q l = 0) as ->; [|lia]. unfold count_claimed.
      replace (filter _ l) with (@nil ClaimedJob); [done|]. symmetry.
      clear -C3 Hin Hn. induction C3 as [|c l [Hc|Hc] C3 IH]; [done|done|].
      rewrite filter_cons, decide_False; [done|]. intros E. apply Hin. by rewrite <-E.
  - done.
Qed.

Lemma set_store_cap st s : cap_inv s -> cap_inv (set_store st s).
Proof. by intros [H1 H2 H3 H4 H5 H6]; constructor. Qed.

(** Changes of one run that keep its slot and its count. *)
Lemma cap_same s s' g r r' :
  cap_inv s -> ws_runs s !! g = Some r -> run_row r' = run_row r ->
  ws_runs s' = <[g := r']> (ws_runs s) -> ws_next s' = ws_next s ->
  ws_poll s' = ws_poll s -> ws_sem s' = ws_sem s -> ws_inflight s' = ws_inflight s ->
  occupied r' = occupied r -> (forall q, counted q r' = counted q r) -> cap_inv s'.
Proof.
  intros HI Hr Hrow ER EN EP ES EQ Ho Hc.
  eapply cap_update; [exact HI|exact Hr|exact Hrow|exact ER|exact EN|by left|..].
  - rewrite Ho. lia.
  - intros q. unfold queueInFlightCount. rewrite EQ, Hc. lia.
  - congruence.
  - congruence.
Qed.

(** The two deferred releases. *)
Lemma defer_bump_cap s g r :
  cap_inv s -> ws_runs s !! g = Some r -> run_pc r = DeferBump ->
  cap_inv (mkWorkerState (ws_store s) (ws_poll s) (<[g := at_pc DeferSem r]> (ws_runs s))
    (ws_next s) (ws_active s) (ws_sem s)
    (<[Queue (cj_Job (run_row r)) := queueInFlightCount s (Queue (cj_Job (run_row r))) - 1]>
       (ws_inflight s)) (ws_draining s) (ws_abandoned s) (ws_trace s)).
Proof.
  intros HI Hr EP. eapply (cap_update s _ g r (at_pc DeferSem r)); try done; [by left|..]; simpl.
  - unfold occupied, exited. simpl. rewrite EP. simpl. lia.
  - intros q. unfold queueInFlightCount, counted. cbn [ws_inflight run_row run_pc at_pc].
    rewrite EP, lookup_insert, andb_false_r, andb_true_r.
    case_bool_decide; case_decide; try done; subst; cbn [default b2z]; unfold Datatypes.id; lia.
  - unfold occupied, exited. by rewrite EP.
  - intros q. unfold counted. simpl. by rewrite andb_false_r.
Qed.

Lemma defer_sem_cap s g r :
  cap_inv s -> ws_runs s !! g = Some r -> run_pc r = DeferSem ->
  cap_inv (mkWorkerState (ws_store s) (ws_poll s) (<[g := at_pc Exited r]> (ws_runs s))
    (ws_next s) (ws_active s) (ws_sem s - 1) (ws_inflight s) (ws_draining s) (ws_abandoned s)
    (ws_trace s)).
Proof.
  intros HI Hr EP. eapply (cap_update s _ g r (at_pc Exited r)); try done; [by left|..]; simpl.
  - unfold occupied, exited. simpl. rewrite EP. simpl. lia.
  - intros q. unfold counted. cbn [run_row run_pc at_pc]. rewrite EP, !andb_false_r.
    change (queueInFlightCount _ q) with (queueInFlightCount s q) at 1. simpl. lia.
  - intros q. unfold counted. simpl. by rewrite andb_false_r.
Qed.

(** Closes a step that changes one run without releasing anything. *)
Ltac same_run HI Hr EP :=
  eapply cap_same; [exact HI|exact Hr| |reflexivity|reflexivity|reflexivity|reflexivity
    |reflexivity|unfold occupied, exited; simpl; by rewrite EP
    |intros; unfold counted; simpl; by rewrite EP]; reflexivity.

Lemma run_action_cap a g r s s' :
  cap_inv s -> ws_runs s !! g = Some r ->
  run_action m newID unmarshal draw default_ cfg a g r s = Some s' -> cap_inv s'.
Proof.
  intros HI Hr. unfold run_action, lookup_handler.
  destruct a, (run_pc r) eqn:EP; try done; intros E;
    repeat (case_match; try done); simplify_eq;
    first [ by apply set_store_cap | by apply (defer_bump_cap s g r) | by apply (defer_sem_cap s g r)
          | same_run HI Hr EP ].
Qed.

Lemma drain_visit_cap jobID s s' : cap_inv s -> drain_visit jobID s = Some s' -> cap_inv s'.
Proof.
  intros HI. unfold drain_visit. destruct (ws_active s !! jobID) as [g|]; [|done].
  destruct (ws_runs s !! g) as [r|] eqn:Hr; [|done].
  destruct (_ || _); [|by intros [= <-]]. intros [= <-].
  eapply (cap_same s _ g r (abandon r)); try done.
Qed.

Lemma exec1_cap a s s' :
  cap_inv s -> exec1 m newID unmarshal draw default_ cfg hostname a s = Some s' -> cap_inv s'.
Proof.
  intros HI. unfold exec1, run_of.
  assert (HA : forall g, match ws_runs s !! g with
    | Some r => run_action m newID unmarshal draw default_ cfg a g r s | None => None end = Some s' ->
    cap_inv s').
  { intros g. destruct (ws_runs s !! g) as [r|] eqn:Hr; [|done]. by apply (run_action_cap _ g r s). }
  destruct a; try apply HA; destruct (ws_draining s); try done.
  - intros [= <-]. destruct HI as [H1 H2 H3 H4 H5 H6]. constructor; try done.
    simpl. intros p Hp. apply (tryClaim_read_ok s p Hp).
  - destruct (ws_poll s) as [p|] eqn:Hp; [|done]. intros [= <-]. by apply tryClaim_cap.
  - intros [= <-]. by apply set_store_cap.
  - intros [= <-]. by apply set_store_cap.
  - intros [= <-]. by apply set_store_cap.
  - intros [= <-]. destruct HI as [H1 H2 H3 H4 H5 H6]. by constructor.
  - intros [= <-]. destruct HI as [H1 H2 H3 H4 H5 H6]. by constructor.
  - by apply drain_visit_cap.
Qed.

Lemma Start_cap now st : cap_inv (Start cfg hostname now st).
Proof.
  constructor; simpl; try done.
  - intros g [? ?]. by rewrite lookup_empty in *.
  - lia.
  - intros q lim [_ ?]. unfold queueInFlightCount. simpl. rewrite lookup_empty. simpl. lia.
Qed.
End capacity.

(** The states of a worker started on any store. *)
Definition worker_reaches {Msg Fn} (m : Manager Msg Fn) newID unmarshal draw default_ cfg hostname
    (s : WorkerState) : Prop :=
  exists now st, rtc (worker_step m newID unmarshal draw default_ cfg hostname)
                   (Start cfg hostname now st) s.

Lemma worker_reaches_ind {Msg Fn} (m : Manager Msg Fn) newID unmarshal draw default_ cfg hostname
    (P : WorkerState -> Prop) s :
  (forall now st, P (Start cfg hostname now st)) ->
  (forall a s s', P s -> exec1 m newID unmarshal draw default_ cfg hostname a s = Some s' -> P s') ->
  (forall st s, P s -> P (set_store st s)) ->
  worker_reaches m newID unmarshal draw default_ cfg hostname s -> P s.
Proof.
  intros H0 H1 H2 (now & st & H).
  assert (G : forall s0, rtc (worker_step m newID unmarshal draw default_ cfg hostname) s0 s ->
    P s0 -> P s).
  { clear H. induction 1 as [|s1 s2 s3 Hs _ IH]; [done|]. intros HP. apply IH.
    destruct Hs; eauto. }
  exact (G _ H (H0 now st)).
Qed.

(** In any interleaving of its polls, claims, runs, heartbeats and shutdown, with any
    interference of other processes on the store, a worker never has more jobs in
    execution than its concurrency, nor more of a queue than the queue's cap; its
    semaphore and queue counters are exactly the runs that hold them. *)
Theorem worker_respects_its_capacity {Msg Fn} (m : Manager Msg Fn) newID unmarshal draw default_
    cfg hostname s :
  0 < wc_Concurrency cfg ->
  worker_reaches m newID unmarshal draw default_ cfg hostname s ->
  ws_sem s = count_runs occupied (ws_runs s) /\
  count_runs occupied (ws_runs s) <= wc_Concurrency cfg /\
  (forall q, queueInFlightCount s q = count_runs (counted q) (ws_runs s)) /\
  (forall q lim, wc_PerQueue cfg !! q = Some lim -> 0 < lim ->
     count_runs (counted q) (ws_runs s) <= lim).
Proof.
  intros Hc HR.
  assert (HI : cap_inv cfg s).
  { revert HR. apply worker_reaches_ind.
    - intros now st. by apply Start_cap.
    - intros a s0 s1 H0. by apply exec1_cap.
    - intros st s0. apply set_store_cap. }
  destruct HI as [H1 H2 H3 H4 H5 _]. split_and!; [done|lia|done|].
  intros q lim Hq Hl. rewrite <-H2. by apply H5.
Qed.

(** ** Phases *)

(** What the trace and the position of a run say about its phase. *)
Record run_inv (t : list Event) (g : nat) (r : Run) : Prop := {
  ri_abandon : EvAbandon g ∈ t <-> run_phase r = phaseAbandoned;
  ri_complete : EvComplete g ∈ t -> run_phase r = phaseResolving;
  ri_pc : match run_pc r with
          | AtStart | AtLookup | AtInvoke | AtPark _ =>
              (run_phase r = phaseRegistered \/ run_phase r = phaseAbandoned) /\ EvInvoke g ∉ t
          | Invoking _ | Returned _ _ _ _ =>
              (run_phase r = phaseRunning \/ run_phase r = phaseAbandoned) /\ EvInvoke g ∈ t
          | Committing _ _ => run_phase r = phaseResolving
          | DeferActive | DeferBump | DeferSem | Exited =>
              run_phase r = phaseResolving \/ run_phase r = phaseAbandoned
          end
}.

Definition about (e : Event) : nat :=
  match e with EvInvoke g | EvComplete g | EvAbandon g => g end.

Record trace_inv (s : WorkerState) : Prop := {
  ti_runs : forall g r, ws_runs s !! g = Some r -> run_inv (ws_trace s) g r;
  ti_known : forall e, e ∈ ws_trace s -> (about e < ws_next s)%nat;
  ti_fresh : forall g, is_Some (ws_runs s !! g) <-> (g < ws_next s)%nat;
  ti_once : forall l1 g l2, ws_trace s = l1 ++ EvInvoke g :: l2 ->
    EvInvoke g ∉ l2 /\ EvAbandon g ∉ l2 /\ EvComplete g ∉ l2
}.

Lemma run_inv_other t e g r : about e <> g -> run_inv t g r -> run_inv (e :: t) g r.
Proof.
  intros Hne [H1 H2 H3].
  assert (Ha : forall e', about e' = g -> (e' ∈ e :: t <-> e' ∈ t)).
  { intros e' <-. rewrite elem_of_cons. split; [|by right]. intros [->|?]; [done|done]. }
  constructor.
  - by rewrite Ha.
  - by rewrite Ha.
  - destruct (run_pc r); rewrite ?Ha by done; done.
Qed.

Lemma once_cons e t :
  (forall l1 g l2, t = l1 ++ EvInvoke g :: l2 -> EvInvoke g ∉ l2 /\ EvAbandon g ∉ l2 /\ EvComplete g ∉ l2) ->
  (forall g, e = EvInvoke g -> EvInvoke g ∉ t /\ EvAbandon g ∉ t /\ EvComplete g ∉ t) ->
  forall l1 g l2, e :: t = l1 ++ EvInvoke g :: l2 -> EvInvoke g ∉ l2 /\ EvAbandon g ∉ l2 /\ EvComplete g ∉ l2.
Proof. intros Ht He [|x l1] g l2 E; simplify_eq/=; eauto. Qed.

Lemma is_Some_update {V} (R : gmap nat V) g r r' g' :
  R !! g = Some r -> is_Some (<[g := r']> R !! g') <-> is_Some (R !! g').
Proof. intros H. rewrite lookup_insert. case_decide; [subst|done]. rewrite H. by split; eexists. Qed.

(** A silent change of one run, and one that logs an event about it. *)
Lemma trace_silent s s' g r r' :
  trace_inv s -> ws_runs s !! g = Some r -> ws_runs s' = <[g := r']> (ws_runs s) ->
  ws_next s' = ws_next s -> ws_trace s' = ws_trace s -> run_inv (ws_trace s) g r' -> trace_inv s'.
Proof.
  intros [H1 H2 H3 H4] Hr ER EN ET HI. constructor; rewrite ?ER, ?ET, ?EN; try done.
  - intros g' r0. rewrite lookup_insert. case_decide; [subst; by intros [= <-]|by apply H1].
  - intros g'. by rewrite (is_Some_update _ _ r).
Qed.

Lemma trace_log s s' e g r r' :
  trace_inv s -> ws_runs s !! g = Some r -> ws_runs s' = <[g := r']> (ws_runs s) ->
  ws_next s' = ws_next s -> about e = g -> ws_trace s' = e :: ws_trace s ->
  run_inv (e :: ws_trace s) g r' ->
  (e = EvInvoke g -> EvInvoke g ∉ ws_trace s /\ EvAbandon g ∉ ws_trace s /\ EvComplete g ∉ ws_trace s) ->
  trace_inv s'.
Proof.
  intros [H1 H2 H3 H4] Hr ER EN Ha ET HI Hi. constructor; rewrite ?ER, ?ET, ?EN.
  - intros g' r0. rewrite lookup_insert. case_decide; [subst; by intros [= <-]|].
    intros Hg'. apply run_inv_other; [congruence|by apply H1].
  - intros e' [->|He]%elem_of_cons; [|by apply H2]. rewrite Ha. apply H3. by rewrite Hr.
  - intros g'. by rewrite (is_Some_update _ _ r).
  - apply once_cons; [done|]. intros g' ->. simpl in Ha. subst. by apply Hi.
Qed.

Section phases.
Context {Msg Fn : Type} (m : Manager Msg Fn) (newID : nat -> string)
(unmarshal : string -> option backoffSpec) (draw : Z -> Z) (default_ : Backoff)
(cfg : WorkerConfig) (hostname : string).

(** A step that keeps the phase and logs nothing. *)
Lemma run_inv_same_phase t g r r' :
  run_inv t g r -> run_phase r' = run_phase r ->
  match run_pc r' with
  | AtStart | AtLookup | AtInvoke | AtPark _ =>
      (run_phase r = phaseRegistered \/ run_phase r = phaseAbandoned) /\ EvInvoke g ∉ t
  | Invoking _ | Returned _ _ _ _ =>
      (run_phase r = phaseRunning \/ run_phase r = phaseAbandoned) /\ EvInvoke g ∈ t
  | Committing _ _ => run_phase r = phaseResolving
  | DeferActive | DeferBump | DeferSem | Exited =>
      run_phase r = phaseResolving \/ run_phase r = phaseAbandoned
  end -> run_inv t g r'.
Proof. intros [H1 H2 _] E H. constructor; rewrite E; try done. Qed.

Lemma set_store_trace st s : trace_inv s -> trace_inv (set_store st s).
Proof. by intros [H1 H2 H3 H4]; constructor. Qed.

(** A run whose phase is still the given one has logged neither abandonment nor, unless
    resolving, completion. *)
Lemma fresh_events t g r :
  run_inv t g r -> run_phase r <> phaseAbandoned -> run_phase r <> phaseResolving ->
  EvAbandon g ∉ t /\ EvComplete g ∉ t.
Proof. intros [H1 H2 _] Ha Hr. split; [by intros ?%H1|by intros ?%H2]. Qed.

(** A run wins the right to resolve. *)
Lemma to_resolving s s' g r r' :
  trace_inv s -> ws_runs s !! g = Some r -> ws_runs s' = <[g := r']> (ws_runs s) ->
  ws_next s' = ws_next s -> ws_trace s' = ws_trace s -> run_phase r' = phaseResolving ->
  run_phase r <> phaseAbandoned -> run_phase r <> phaseResolving ->
  match run_pc r' with Committing _ _ => True | _ => False end -> trace_inv s'.
Proof.
  intros HI Hr ER EN ET Hp Ha Hn Hpc.
  destruct (fresh_events _ _ _ (ti_runs s HI g r Hr) Ha Hn) as [Na Nc].
  eapply trace_silent; [exact HI|exact Hr|exact ER|exact EN|exact ET|].
  constructor; rewrite Hp; [naive_solver|done|]. by destruct (run_pc r').
Qed.

Lemma log_complete s s' g r r' :
  trace_inv s -> ws_runs s !! g = Some r -> run_phase r = phaseResolving ->
  run_phase r' = phaseResolving ->
  match run_pc r' with Committing _ _ | DeferActive => True | _ => False end ->
  ws_runs s' = <[g := r']> (ws_runs s) -> ws_next s' = ws_next s ->
  ws_trace s' = EvComplete g :: ws_trace s -> trace_inv s'.
Proof.
  intros HI Hr Hp Hp' Hpc ER EN ET. pose proof (ti_runs s HI g r Hr) as [HA HC _].
  eapply trace_log; [exact HI|exact Hr|exact ER|exact EN| |exact ET| |]; [done| |done].
  constructor; rewrite Hp'; [|done|destruct (run_pc r'); naive_solver].
  split; [|done]. intros [?|Hin]%elem_of_cons; [done|]. apply HA in Hin. congruence.
Qed.

Ltac silent HI Hr := eapply trace_silent; [exact HI|exact Hr|reflexivity|reflexivity|reflexivity|].

Lemma run_action_trace a g r s s' :
  trace_inv s -> ws_runs s !! g = Some r ->
  run_action m newID unmarshal draw default_ cfg a g r s = Some s' -> trace_inv s'.
Proof.
  intros HI Hr. pose proof (ti_runs s HI g r Hr) as HR. pose proof HR as [HA HC HP].
  unfold run_action, lookup_handler.
  destruct a, (run_pc r) eqn:EP; try done; intros E.
  all: repeat (case_match; try done); simplify_eq.
  all: repeat match goal with H : bool_decide (_ = _) = true |- _ => apply bool_decide_eq_true in H
       | H : bool_decide (_ = _) = false |- _ => apply bool_decide_eq_false in H end.
  all: try (by apply set_store_trace).
  all: try (silent HI Hr; apply (run_inv_same_phase _ _ r); [done|done|]; simpl; rewrite ?EP; naive_solver).
  - destruct (fresh_events _ _ _ HR) as [Na Nc]; [congruence..|].
    eapply trace_log; [exact HI|exact Hr|reflexivity|reflexivity| |reflexivity| |]; [done| |naive_solver].
    constructor; simpl; set_solver.
  - simpl in *. eapply to_resolving; [exact HI|exact Hr|reflexivity..|congruence|congruence|exact I].
  - simpl in *. eapply to_resolving; [exact HI|exact Hr|reflexivity..|congruence|congruence|exact I].
  - by apply (log_complete s _ g r (at_pc DeferActive r)).
  - by apply (log_complete s _ g r (at_pc (Committing o (attempt + 1)) r)).
  - by apply (log_complete s _ g r (at_pc DeferActive r)).
Qed.

Lemma drain_visit_trace jobID s s' : trace_inv s -> drain_visit jobID s = Some s' -> trace_inv s'.
Proof.
  intros HI. unfold drain_visit. destruct (ws_active s !! jobID) as [g|]; [|done].
  destruct (ws_runs s !! g) as [r|] eqn:Hr; [|done].
  pose proof (ti_runs s HI g r Hr) as HR. pose proof HR as [HA HC HP].
  destruct (bool_decide (run_phase r = phaseRegistered) || bool_decide (run_phase r = phaseRunning)) eqn:E;
    [|by intros [= <-]].
  apply orb_true_iff in E. rewrite !bool_decide_eq_true in E. intros [= <-].
  destruct (fresh_events _ _ _ HR) as [Na Nc]; [destruct E; congruence..|].
  eapply trace_log; [exact HI|exact Hr|reflexivity|reflexivity| |reflexivity| |done]; [done|].
  constructor; simpl; [set_solver|set_solver|]. destruct (run_pc r); simpl in *;
    first [by right|by destruct E; congruence|split; [by right|]; destruct HP as [_ HP]; set_solver].
Qed.

Lemma launch_trace row s : trace_inv s -> trace_inv (launch row s).
Proof.
  intros [H1 H2 H3 H4].
  assert (Hn : forall e, about e = ws_next s -> e ∉ ws_trace s).
  { intros e He Hin. apply H2 in Hin. lia. }
  constructor; simpl; [| | |done].
  - intros g r. rewrite lookup_insert. case_decide; [subst|by apply H1]. intros [= <-].
    constructor; simpl.
    + split; [|done]. intros Hin. by apply Hn in Hin.
    + intros Hin. by apply Hn in Hin.
    + split; [by left|]. by apply Hn.
  - intros e He. specialize (H2 e He). lia.
  - intros g. rewrite lookup_insert. case_decide; [subst; split; [lia|by eexists]|].
    rewrite H3. lia.
Qed.

Lemma trace_frame s s' :
  trace_inv s -> ws_runs s' = ws_runs s -> ws_next s' = ws_next s -> ws_trace s' = ws_trace s ->
  trace_inv s'.
Proof. intros [H1 H2 H3 H4] E1 E2 E3. constructor; rewrite ?E1, ?E2, ?E3; done. Qed.

Lemma tryClaim_trace now p s : trace_inv s -> trace_inv (tryClaim m cfg now p s).
Proof.
  intros HI. unfold tryClaim. destruct (Claim _ _) as [st l].
  apply (trace_frame (foldl (fun s row => launch row s) (set_store st s) l)); [|done..].
  apply (set_store_trace st) in HI. revert HI. generalize (set_store st s). clear s.
  induction l as [|row l IH]; intros s HI; [done|]. simpl. by apply IH, launch_trace.
Qed.

Lemma exec1_trace a s s' :
  trace_inv s -> exec1 m newID unmarshal draw default_ cfg hostname a s = Some s' -> trace_inv s'.
Proof.
  intros HI. unfold exec1, run_of.
  assert (HA : forall g, match ws_runs s !! g with
    | Some r => run_action m newID unmarshal draw default_ cfg a g r s | None => None end = Some s' ->
    trace_inv s').
  { intros g. destruct (ws_runs s !! g) as [r|] eqn:Hr; [|done]. by apply (run_action_trace _ g r s). }
  destruct a; try apply HA; destruct (ws_draining s); try done;
    try (intros [= <-]; by eapply trace_frame; [exact HI|..]).
  - destruct (ws_poll s) as [p|]; [|done]. intros [= <-]. by apply tryClaim_trace.
  - by apply drain_visit_trace.
Qed.

Lemma Start_trace now st : trace_inv (Start cfg hostname now st).
Proof.
  constructor; simpl; try done.
  - intros e He. by apply not_elem_of_nil in He.
  - intros g. rewrite lookup_empty. split; [by intros []|lia].
  - intros [|] ? ? ?; done.
Qed.
End phases.

(** Every claimed job's handler is invoked at most once, before any completion of its
    job is sent; a run the shutdown abandoned never sends a completion, and one abandoned
    before its handler started never starts it. *)
Theorem abandoned_runs_stay_abandoned {Msg Fn} (m : Manager Msg Fn) newID unmarshal draw default_
    cfg hostname s g :
  worker_reaches m newID unmarshal draw default_ cfg hostname s ->
  (EvAbandon g ∈ ws_trace s -> EvComplete g ∉ ws_trace s) /\
  (forall later earlier, ws_trace s = later ++ EvInvoke g :: earlier ->
     EvInvoke g ∉ later /\ EvInvoke g ∉ earlier /\ EvAbandon g ∉ earlier /\ EvComplete g ∉ earlier).
Proof.
  intros HR.
  assert (HI : trace_inv s).
  { revert HR. apply worker_reaches_ind.
    - intros now st. apply Start_trace.
    - intros a s0 s1 H0. by apply exec1_trace.
    - intros st s0. apply set_store_trace. }
  destruct HI as [H1 H2 H3 H4]. split.
  - intros Ha Hc. destruct (proj2 (H3 g) (H2 _ Ha)) as [r Hr].
    destruct (H1 g r Hr) as [HA HC _]. apply HA in Ha. apply HC in Hc. congruence.
  - intros later earlier E. destruct (H4 _ _ _ E) as (? & ? & ?). split; [|done].
    intros (l1 & l2 & ->)%list_elem_of_split. rewrite <-app_assoc in E.
    destruct (H4 _ _ _ E) as [Hn _]. apply Hn. set_solver.
Qed.

(** ** A concrete worker *)
Module Shop.
Definition ids (n : nat) : string := Nat.iter n (String "a"%char) ""%string.
Definition m : Manager unit unit :=
  mkManager (mkConfig "default" (Some DefaultBackoff) 25 "" 0 0) ∅ ∅
    {[("mail", "send")%string := mkEntry (fun _ => Ok tt) tt]} {["mail"%string := ["send"%string]]} ∅.
Definition cfg : WorkerConfig :=
  mkWorkerConfig "w" ["default"%string] 2 {["default"%string := 1]} 1 30 10 1 1.
Definition mk (key : string) : Job :=
  mkJob "mail" "send" "{}" "default" 0 50 5 0 TimeoutRetry None key zero_time false.
Definition no_spec (_ : string) : option backoffSpec := None.
Definition store : MemoryStore := (Insert ids 60 [mk "x"; mk "y"] NewMemoryStore).1.

Definition start : WorkerState := Start cfg "host" 90 store.
Definition run_ (l : list Action) : option WorkerState :=
  exec m ids no_spec (fun _ => 0) DefaultBackoff cfg "host" l start.

Lemma exec_reaches l s0 s :
  worker_reaches m ids no_spec (fun _ => 0) DefaultBackoff cfg "host" s0 ->
  exec m ids no_spec (fun _ => 0) DefaultBackoff cfg "host" l s0 = Some s ->
  worker_reaches m ids no_spec (fun _ => 0) DefaultBackoff cfg "host" s.
Proof.
  revert s0. induction l as [|a l IH]; intros s0 HR E; simpl in E; [by injection E as <-|].
  destruct (exec1 _ _ _ _ _ _ _ a s0) as [s1|] eqn:E1; [|done]. apply (IH s1); [|done].
  destruct HR as (now & st & H). exists now, st. eapply rtc_r; [exact H|]. by eapply ws_own.
Qed.

Lemma start_reaches : worker_reaches m ids no_spec (fun _ => 0) DefaultBackoff cfg "host" start.
Proof. exists 90, store. apply rtc_refl. Qed.

(** Two polls while the first job runs: the queue's cap of one keeps the second job
    waiting. *)
Definition two_polls : list Action :=
  [APoll; AClaim 100; ASetCancels 0; ALookup 0; AInvoke 0 101; APoll; AClaim 102].

Lemma capacity_witness :
  exists s, run_ (take 6 two_polls) = Some s /\
    count_runs (counted "default") (ws_runs s) <= 1 /\ ws_poll s = None.
Proof.
  assert (HE : exists s, run_ (take 6 two_polls) = Some s) by (eexists; vm_compute; reflexivity).
  destruct HE as [s E]. exists s. split; [exact E|]. split.
  - destruct (worker_respects_its_capacity m ids no_spec (fun _ => 0) DefaultBackoff cfg "host" s)
      as (_ & _ & _ & H).
    + done.
    + eapply exec_reaches; [apply start_reaches|exact E].
    + by apply H.
  - vm_compute in E. injection E as <-. reflexivity.
Defined.

(** The drain abandons the run before it starts its handler. *)
Definition early_drain : list Action :=
  [APoll; AClaim 100; ADrain; ADrainVisit ""; ASetCancels 0; ALookup 0; AInvoke 0 101; ADefer 0].

Lemma abandoned_witness :
  exists s, run_ early_drain = Some s /\
    EvAbandon 0 ∈ ws_trace s /\ EvComplete 0 ∉ ws_trace s.
Proof.
  assert (HE : exists s, run_ early_drain = Some s) by (eexists; vm_compute; reflexivity).
  destruct HE as [s E]. exists s. split; [exact E|].
  assert (HA : EvAbandon 0 ∈ ws_trace s) by (vm_compute in E; injection E as <-; left).
  split; [exact HA|].
  destruct (abandoned_runs_stay_abandoned m ids no_spec (fun _ => 0) DefaultBackoff cfg "host" s 0)
    as [H _]; [eapply exec_reaches; [apply start_reaches|exact E]|].
  by apply H.
Defined.

Definition claimed_row : memRow :=
  mkRow (mk "x") "i" StateRunning 0 "w" 130 false "" 60 100.

Lemma outcome_witness :
  exists o, decideOutcome no_spec (fun _ => 0) DefaultBackoff (mkClaimedJob (mk "x") "i" 0 130) 1
    (Some (mkRunErr "boom" false false)) false false false 100 110 111 = Some o /\ outcome_ok claimed_row o.
Proof.
  assert (E : exists o, decideOutcome no_spec (fun _ => 0) DefaultBackoff (mkClaimedJob (mk "x") "i" 0 130) 1
    (Some (mkRunErr "boom" false false)) false false false 100 110 111 = Some o)
    by (eexists; vm_compute; reflexivity).
  destruct E as [o E]. exists o. split; [exact E|].
  apply (decided_outcome_is_lawful no_spec (fun _ => 0) DefaultBackoff
    (mkClaimedJob (mk "x") "i" 0 130) (Some (mkRunErr "boom" false false)) false false false
    100 110 111 claimed_row o); [reflexivity|reflexivity|reflexivity|exact E].
Defined.

(** *** A lease identified by the worker alone

    A worker whose lease on a job lapsed can claim the same job again while the handler
    of the first claim still runs. *)
(** The first claim's completion is then accepted for the second claim: the ledger gets
    two entries numbered 1, and the job is over while its second handler runs. *)
Example stale_completion_is_accepted :
  let s1 := (SweepExpired ids 200 [""; "a"]%string
               (Claim (mkClaimRequest "w" ["default"%string] 100 30 1 ∅ {[("mail", "send")%string]}) store).1).1 in
  let s2 := (Claim (mkClaimRequest "w" ["default"%string] 201 30 1 ∅ {[("mail", "send")%string]})
               (set_rows (delete "a"%string) s1)).1 in
  let o := mkOutcome StateSucceeded 1 "" zero_time (Some AttemptSucceeded) 100 210 in
  let s3 := (Complete ids "" "w" 210 o s2).1 in
  (Complete ids "" "w" 210 o s2).2 = Ok StateSucceeded /\
  at_Attempt <$> ListAttempts "" 0 0 s3 = [1; 1].
Proof. by vm_compute. Qed.

(** And the first run's cleanup removes the second run's entry from the active map, so
    the drain does not see the second run: it is neither abandoned nor cancelled. *)
Definition cfg1 : WorkerConfig := mkWorkerConfig "w" ["default"%string] 2 ∅ 1 30 10 1 1.
Definition store1 : MemoryStore := (Insert ids 60 [mk "x"] NewMemoryStore).1.

Example drain_misses_the_reclaimed_run :
  match exec m ids no_spec (fun _ => 0) DefaultBackoff cfg1 "host"
    [APoll; AClaim 100; ASetCancels 0; ALookup 0; AInvoke 0 101;
     ASweepExpired 200 [""]%string; APoll; AClaim 201; ASetCancels 1; ALookup 1; AInvoke 1 202;
     AReturn 0 None false 205; AResolve 0 206; ACommit 0 207 false; ADefer 0; ADrain]
    (Start cfg1 "host" 90 store1) with
  | Some s => ws_active s = ∅ /\
      (run_phase <$> ws_runs s !! 1%nat) = Some phaseRunning /\
      (run_cancelled <$> ws_runs s !! 1%nat) = Some false
  | None => False
  end.
Proof. by vm_compute. Qed.
End Shop.
