(* ===== verification/CacheStore.v ===== *)
(** The in-process cache store: [cache/store_memory.go].

    The recency list is the Go one: elements with an identity of their own, most
    recently used first, and a map from keys to elements. A context is what the code
    asks of it, whether it is cancelled. *)

From S2P Require Import Prelude.
From S2P Require Import GoTime.

Local Open Scope Z_scope.
Local Open Scope go_scope.

Record Entry := mkEntry { Value : string; Expires : Time }.

Inductive Error :=
| ErrCanceled
| ErrZeroInstant
| ErrDomain
| ErrCodec.

Record memItem := mkItem { item_key : string; item_entry : Entry }.

(** A list element: its identity and its value. *)
Definition element : Type := nat * memItem.

Record MemoryStore := mkStore {
  items : gmap string nat;
  lru : list element;
  maxEntries : Z;
  nextElement : nat
}.

Definition NewMemoryStore (max : Z) : MemoryStore := mkStore ∅ [] max 0.

(** [expired]: the expiry instant counts as expired. *)
Definition expired (e : Entry) (now : Time) : bool :=
  negb (IsZero (Expires e)) && negb (Before now (Expires e)).

(** ** Argument checks *)

Definition checkNow (t : Time) : option Error :=
  if Before t int64_min || After t int64_max then Some ErrDomain else None.

Definition checkExpiry (t : Time) : option Error :=
  if IsZero t then None else checkNow t.

Definition opCtx (canceled : bool) : option Error := if canceled then Some ErrCanceled else None.

Definition opNow (canceled : bool) (now : Time) : option Error :=
  match opCtx canceled with
  | Some e => Some e
  | None => if IsZero now then Some ErrZeroInstant else checkNow now
  end.

Definition opExpiry (canceled : bool) (expires : Time) : option Error :=
  match opCtx canceled with
  | Some e => Some e
  | None => checkExpiry expires
  end.

(** ** The recency list *)

Definition elem_lookup (el : nat) (l : list element) : option memItem :=
  match list_find (fun x => x.1 = el) l with
  | Some (_, (_, it)) => Some it
  | None => None
  end.

Definition elem_remove (el : nat) (l : list element) : list element :=
  filter (fun x => x.1 <> el) l.

(** [remove] *)
Definition remove (el : nat) (m : MemoryStore) : MemoryStore :=
  match elem_lookup el (lru m) with
  | Some it => mkStore (delete (item_key it) (items m)) (elem_remove el (lru m)) (maxEntries m)
                 (nextElement m)
  | None => m
  end.

Definition MoveToFront (el : nat) (it : memItem) (m : MemoryStore) : MemoryStore :=
  mkStore (items m) ((el, it) :: elem_remove el (lru m)) (maxEntries m) (nextElement m).

(** ** Operations *)

Definition Get (canceled : bool) (key : string) (now : Time) (m : MemoryStore)
    : MemoryStore * result Error (option Entry) :=
  match opNow canceled now with
  | Some e => (m, Err e)
  | None =>
      match items m !! key with
      | None => (m, Ok None)
      | Some el =>
          match elem_lookup el (lru m) with
          | None => (m, Ok None)
          | Some it =>
              (if expired (item_entry it) now then remove el m else MoveToFront el it m,
               Ok (Some (item_entry it)))
          end
      end
  end.

Definition Set_ (canceled : bool) (key : string) (e : Entry) (m : MemoryStore)
    : MemoryStore * option Error :=
  match opExpiry canceled (Expires e) with
  | Some err => (m, Some err)
  | None =>
      match items m !! key with
      | Some el =>
          (match elem_lookup el (lru m) with
           | Some it => MoveToFront el (mkItem (item_key it) e) m
           | None => m
           end, None)
      | None =>
          let el := nextElement m in
          let m := mkStore (<[key := el]> (items m)) ((el, mkItem key e) :: lru m) (maxEntries m)
                     (S el) in
          (if (0 <? maxEntries m) && (maxEntries m <? Z.of_nat (length (lru m))) then
             match last (lru m) with
             | Some oldest => remove oldest.1 m
             | None => m
             end
           else m, None)
      end
  end.

Definition Delete (canceled : bool) (key : string) (m : MemoryStore) : MemoryStore * option Error :=
  match opCtx canceled with
  | Some e => (m, Some e)
  | None => (match items m !! key with Some el => remove el m | None => m end, None)
  end.

(** The sweep walks from the back; [els] are the elements still to visit, back first. *)
Fixpoint sweepFrom (els : list element) (now : Time) (m : MemoryStore) : MemoryStore * Z :=
  match els with
  | [] => (m, 0)
  | (el, it) :: els =>
      if expired (item_entry it) now then
        let '(m, n) := sweepFrom els now (remove el m) in (m, n + 1)
      else sweepFrom els now m
  end.

Definition Sweep (canceled : bool) (now : Time) (m : MemoryStore) : MemoryStore * result Error Z :=
  match opNow canceled now with
  | Some e => (m, Err e)
  | None => let '(m, n) := sweepFrom (reverse (lru m)) now m in (m, Ok n)
  end.
