(* ===== verification/CacheStoreSpec.v ===== *)
(** The recency list as a plain association list: the in-process cache store refines
    it, stays within its capacity, and keeps the keys that were used recently. *)

From S2P Require Import Prelude.
From S2P Require Import GoTime.
From S2P Require Import CacheStore.

Local Open Scope Z_scope.

(** ** The specification: entries by key, most recently used first *)

Abbreviation cache := (list (string * Entry)).

Definition spec_lookup (k : string) (l : cache) : option Entry :=
  match list_find (fun p => p.1 = k) l with Some (_, (_, e)) => Some e | None => None end.

Definition spec_remove (k : string) (l : cache) : cache := filter (fun p => p.1 <> k) l.

Definition spec_get (k : string) (now : Time) (l : cache) : cache * option Entry :=
  match spec_lookup k l with
  | None => (l, None)
  | Some e => (if expired e now then spec_remove k l else (k, e) :: spec_remove k l, Some e)
  end.

(** An insertion of a new key into a full cache drops the last entry. *)
Definition spec_set (max : Z) (k : string) (e : Entry) (l : cache) : cache :=
  let l' := (k, e) :: spec_remove k l in
  match spec_lookup k l with
  | Some _ => l'
  | None => if (0 <? max) && (max <? Z.of_nat (length l')) then take (length l' - 1) l' else l'
  end.

Definition spec_sweep (now : Time) (l : cache) : cache * Z :=
  (filter (fun p => expired p.2 now = false) l,
   Z.of_nat (length (filter (fun p => expired p.2 now = true) l))).

Definition abs (m : MemoryStore) : cache :=
  (fun x : element => (item_key x.2, item_entry x.2)) <$> lru m.

(** ** The representation invariant *)

Definition el_key (x : element) : string := item_key x.2.

Record lru_ok (m : MemoryStore) : Prop := {
  lo_ids : NoDup ((lru m).*1);
  lo_keys : NoDup (el_key <$> lru m);
  lo_items : forall k el, items m !! k = Some el <-> exists it, (el, it) ∈ lru m /\ item_key it = k;
  lo_fresh : forall x, x ∈ lru m -> (x.1 < nextElement m)%nat
}.

(** An element is determined by its identity, and by its key. *)
Lemma same_id m x y : lru_ok m -> x ∈ lru m -> y ∈ lru m -> x.1 = y.1 -> x = y.
Proof.
  intros H (i & Hi)%list_elem_of_lookup (j & Hj)%list_elem_of_lookup E.
  assert (i = j) as ->; [|congruence].
  apply (NoDup_lookup ((lru m).*1) i j x.1); [apply H|by rewrite list_lookup_fmap, Hi|].
  by rewrite list_lookup_fmap, Hj, E.
Qed.

Lemma same_key_el m x y : lru_ok m -> x ∈ lru m -> y ∈ lru m -> el_key x = el_key y -> x = y.
Proof.
  intros H (i & Hi)%list_elem_of_lookup (j & Hj)%list_elem_of_lookup E.
  assert (i = j) as ->; [|congruence].
  apply (NoDup_lookup (el_key <$> lru m) i j (el_key x)); [apply H|by rewrite list_lookup_fmap, Hi|].
  by rewrite list_lookup_fmap, Hj; simpl; rewrite E.
Qed.

Lemma elem_lookup_Some m el it : lru_ok m -> elem_lookup el (lru m) = Some it <-> (el, it) ∈ lru m.
Proof.
  intros H. unfold elem_lookup. split.
  - destruct (list_find (fun x => x.1 = el) (lru m)) as [[i [el' it']]|] eqn:E; [|done]. intros [= <-].
    apply list_find_Some in E as (Hi & <- & _). by eapply list_elem_of_lookup_2.
  - intros Hin. destruct (list_find (fun x => x.1 = el) (lru m)) as [[i [el' it']]|] eqn:E.
    + apply list_find_Some in E as (Hi%list_elem_of_lookup_2 & E & _). simpl in E. subst.
      f_equal. assert ((el, it') = (el, it)) as [=]; [|done]. by apply (same_id m).
    + apply list_find_None in E. rewrite Forall_forall in E. by destruct (E _ Hin).
Qed.

Lemma spec_lookup_Some m k e :
  lru_ok m -> spec_lookup k (abs m) = Some e <-> exists x, x ∈ lru m /\ el_key x = k /\ item_entry x.2 = e.
Proof.
  intros H. unfold spec_lookup, abs. rewrite list_find_fmap. split.
  - destruct (list_find ((fun p => p.1 = k) ∘ (fun x : element => (item_key x.2, item_entry x.2))) (lru m)) as [[i x]|] eqn:E; [|done]. simpl. intros [= <-].
    apply list_find_Some in E as (Hi & E & _). exists x. split; [by eapply list_elem_of_lookup_2|done].
  - intros (x & Hx & Hk & He). destruct (list_find ((fun p => p.1 = k) ∘ (fun x : element => (item_key x.2, item_entry x.2))) (lru m)) as [[i y]|] eqn:E.
    + apply list_find_Some in E as (Hi%list_elem_of_lookup_2 & E & _). simpl in *.
      f_equal. assert (y = x) as ->; [|done]. apply (same_key_el m); try done. unfold el_key in *. congruence.
    + apply list_find_None in E. rewrite Forall_forall in E. by destruct (E _ Hx).
Qed.

(** The element a key names, on both sides. *)
Lemma key_lookup m k :
  lru_ok m ->
  match items m !! k with
  | Some el => exists it, elem_lookup el (lru m) = Some it /\ (el, it) ∈ lru m /\ item_key it = k /\
                 spec_lookup k (abs m) = Some (item_entry it)
  | None => spec_lookup k (abs m) = None /\ k ∉ (abs m).*1
  end.
Proof.
  intros H. destruct (items m !! k) as [el|] eqn:E.
  - apply (lo_items m H) in E as (it & Hin & Hk). exists it. split_and!; try done.
    + by apply elem_lookup_Some.
    + apply spec_lookup_Some; [done|]. by exists (el, it).
  - assert (Hno : k ∉ (abs m).*1).
    { intros Hin. unfold abs in Hin. rewrite <-list_fmap_compose in Hin.
      apply list_elem_of_fmap in Hin as ([el it] & -> & Hin). simpl in E.
      assert (items m !! item_key it = Some el) by (apply (lo_items m H); by exists it). congruence. }
    split; [|done]. destruct (spec_lookup k (abs m)) as [e|] eqn:ES; [|done].
    apply spec_lookup_Some in ES as (x & Hx & Hk & _); [|done]. destruct Hno.
    unfold abs. rewrite <-list_fmap_compose. rewrite <-Hk. by apply (list_elem_of_fmap_2 el_key).
Qed.

(** ** The list operations *)

Lemma elem_remove_abs m el it :
  lru_ok m -> (el, it) ∈ lru m ->
  (fun x : element => (item_key x.2, item_entry x.2)) <$> elem_remove el (lru m) =
    spec_remove (item_key it) (abs m).
Proof.
  intros H Hin. unfold elem_remove, spec_remove, abs.
  assert (E : forall x, x ∈ lru m -> x.1 <> el <-> item_key x.2 <> item_key it).
  { intros x Hx. split; intros Hne E; apply Hne.
    - by assert (x = (el, it)) as -> by by apply (same_key_el m).
    - by assert (x = (el, it)) as -> by by apply (same_id m). }
  revert E. generalize (lru m). intros l. clear. induction l as [|x l IH]; intros E; [done|].
  rewrite fmap_cons, !filter_cons. cbn [fst].
  assert (Ex : x.1 <> el <-> item_key x.2 <> item_key it) by (apply E; left).
  specialize (IH ltac:(intros; apply E; by right)).
  case_decide; case_decide; try tauto. rewrite fmap_cons. by f_equal.
Qed.

Lemma elem_remove_sublist el l : elem_remove el l `sublist_of` l.
Proof. apply sublist_filter. Qed.

(** Removing one element. *)
Lemma remove_refines m el it :
  lru_ok m -> (el, it) ∈ lru m ->
  lru_ok (remove el m) /\ abs (remove el m) = spec_remove (item_key it) (abs m).
Proof.
  intros H Hin. unfold remove. rewrite (proj2 (elem_lookup_Some m el it H) Hin).
  split; [|by apply elem_remove_abs]. pose proof H as [H1 H2 H3 H4]. constructor; simpl.
  - eapply sublist_NoDup; [exact H1|]. apply fmap_sublist, elem_remove_sublist.
  - eapply sublist_NoDup; [exact H2|]. apply fmap_sublist, elem_remove_sublist.
  - intros k el'. rewrite lookup_delete_Some, H3. unfold elem_remove.
    setoid_rewrite list_elem_of_filter. split.
    + intros (Hne & it' & Hin' & Hk). exists it'. split; [split; [|done]|done]. simpl. intros ->.
      assert ((el, it') = (el, it)) as [= ->] by (by apply (same_id m)). done.
    + intros (it' & [Hne Hin'] & Hk). split; [|by exists it']. intros E. apply Hne. simpl.
      assert (E' : (el', it') = (el, it)); [|by injection E'].
      apply (same_key_el m); try done. unfold el_key. simpl. congruence.
  - intros x [_ Hx]%list_elem_of_filter. by apply H4.
Qed.

(** Moving an element to the front, perhaps with a new entry of the same key. *)
Lemma move_refines m el it it' :
  lru_ok m -> (el, it) ∈ lru m -> item_key it' = item_key it ->
  lru_ok (MoveToFront el it' m) /\
  abs (MoveToFront el it' m) = (item_key it, item_entry it') :: spec_remove (item_key it) (abs m).
Proof.
  intros H Hin Hk. unfold MoveToFront. split.
  2: { rewrite <-Hk. unfold abs at 1. cbn [lru]. rewrite fmap_cons. cbn [snd]. f_equal.
    rewrite Hk. by apply (elem_remove_abs m). }
  pose proof (elem_remove_sublist el (lru m)) as Hsub.
  assert (Hout : forall x, x ∈ elem_remove el (lru m) <-> x.1 <> el /\ x ∈ lru m).
  { intros x. unfold elem_remove. by rewrite list_elem_of_filter. }
  pose proof H as [H1 H2 H3 H4]. constructor; cbn [lru items maxEntries nextElement].
  - rewrite fmap_cons. apply NoDup_cons. split.
    + intros (x & Hx & [Hne _]%Hout)%list_elem_of_fmap. by destruct Hne.
    + eapply sublist_NoDup; [exact H1|]. by apply fmap_sublist.
  - rewrite fmap_cons. apply NoDup_cons. split.
    + intros (x & Hx & [Hne Hx']%Hout)%list_elem_of_fmap. apply Hne. unfold el_key in Hx. simpl in Hx.
      assert (x = (el, it)) as ->; [|done]. apply (same_key_el m); try done. unfold el_key. simpl. congruence.
    + eapply sublist_NoDup; [exact H2|]. by apply fmap_sublist.
  - intros k el'. rewrite H3. split.
    + intros (it0 & Hin0 & Hk0). destruct (decide (el' = el)) as [->|Hne].
      * exists it'. split; [by left|]. assert ((el, it0) = (el, it)) as [= ->] by (by apply (same_id m)). congruence.
      * exists it0. split; [|done]. right. by apply Hout.
    + intros (it0 & [E|[Hne Hin0]%Hout]%elem_of_cons & Hk0).
      * simplify_eq. exists it. split; [done|congruence].
      * by exists it0.
  - intros x [->|[_ Hx]%Hout]%elem_of_cons; [by apply (H4 (el, it))|by apply H4].
Qed.

Lemma drop_last {A} (l : list A) x : take (length (l ++ [x]) - 1) (l ++ [x]) = l.
Proof. rewrite length_app. simpl. rewrite take_app_le by lia. rewrite take_ge by lia. done. Qed.

(** ** The operations refine the specification *)

Lemma Get_refines c k now m :
  lru_ok m -> opNow c now = None ->
  lru_ok (Get c k now m).1 /\
  (abs (Get c k now m).1, (Get c k now m).2) =
    ((spec_get k now (abs m)).1, Ok (spec_get k now (abs m)).2).
Proof.
  intros H Hop. unfold Get, spec_get. rewrite Hop. pose proof (key_lookup m k H) as HK.
  destruct (items m !! k) as [el|].
  - destruct HK as (it & -> & Hin & Hk & ->). destruct (expired (item_entry it) now); simpl.
    + destruct (remove_refines m el it H Hin) as [? ->]. by rewrite Hk.
    + destruct (move_refines m el it it H Hin eq_refl) as [? ->]. by rewrite Hk.
  - by destruct HK as [-> _].
Qed.

(** A new element at the front, before any eviction. *)
Lemma push_ok m k e :
  lru_ok m -> items m !! k = None ->
  let m' := mkStore (<[k := nextElement m]> (items m)) ((nextElement m, mkItem k e) :: lru m)
              (maxEntries m) (S (nextElement m)) in lru_ok m'.
Proof.
  intros H Hk m'. pose proof (key_lookup m k H) as HK. rewrite Hk in HK. destruct HK as [_ Hno].
  pose proof H as [H1 H2 H3 H4].
  assert (Hnew : forall it, (nextElement m, it) ∉ lru m) by (intros it Hx%H4; simpl in Hx; lia).
  constructor; cbn [lru items maxEntries nextElement m'].
  - rewrite fmap_cons. apply NoDup_cons. split; [|done].
    intros (x & Hx & Hin)%list_elem_of_fmap. apply H4 in Hin. rewrite <-Hx in Hin. simpl in Hin. lia.
  - rewrite fmap_cons. apply NoDup_cons. split; [|done].
    intros (x & Hx & Hin)%list_elem_of_fmap. apply Hno. unfold abs. rewrite <-list_fmap_compose.
    apply list_elem_of_fmap. by exists x.
  - intros k' el. rewrite lookup_insert. case_decide as Hd; [subst k'|].
    + split.
      * intros [= <-]. eexists. split; [by left|done].
      * intros (it & [E|Hin]%elem_of_cons & Hk'); [by simplify_eq|].
        assert (items m !! k = Some el) by (apply H3; by exists it). congruence.
    + rewrite H3. split; intros (it & Hin & Hk'); exists it; (split; [|done]).
      * by right.
      * apply elem_of_cons in Hin as [E|]; [|done]. by simplify_eq.
  - intros x [->|Hx]%elem_of_cons; [simpl; lia|]. specialize (H4 x Hx). lia.
Qed.

Lemma filter_all {A} (P : A -> Prop) `{!forall x, Decision (P x)} (l : list A) :
  (forall x, x ∈ l -> P x) -> filter P l = l.
Proof.
  induction l as [|x l IH]; intros Hl; [done|]. rewrite filter_cons_True by (apply Hl; left).
  f_equal. apply IH. intros y Hy. apply Hl. by right.
Qed.

Lemma spec_remove_absent k l : k ∉ l.*1 -> spec_remove k l = l.
Proof.
  intros H. apply filter_all. intros [k' e] Hx. simpl. intros ->. apply H.
  by apply (list_elem_of_fmap_2 fst _ (k, e)).
Qed.

(** Removing the last entry of a list whose keys are distinct. *)
Lemma spec_remove_last l k e : NoDup ((l ++ [(k, e)]).*1) -> spec_remove k (l ++ [(k, e)]) = l.
Proof.
  rewrite fmap_app, NoDup_app. intros (_ & Hd & _). unfold spec_remove. rewrite filter_app.
  rewrite (filter_all _ l).
  - rewrite filter_cons_False by (simpl; tauto). by rewrite app_nil_r.
  - intros [k' e'] Hx. simpl. intros ->. apply (Hd k); [|by left].
    by apply (list_elem_of_fmap_2 fst _ (k, e')).
Qed.

Lemma lru_keys_abs m : (abs m).*1 = el_key <$> lru m.
Proof. unfold abs. by rewrite <-list_fmap_compose. Qed.

Lemma Set_refines c k e m :
  lru_ok m -> opExpiry c (Expires e) = None ->
  lru_ok (Set_ c k e m).1 /\ (Set_ c k e m).2 = None /\
  abs (Set_ c k e m).1 = spec_set (maxEntries m) k e (abs m).
Proof.
  intros H Hop. unfold Set_, spec_set. rewrite Hop. pose proof (key_lookup m k H) as HK.
  destruct (items m !! k) as [el|] eqn:Ek.
  - destruct HK as (it & -> & Hin & Hk & ->). simpl.
    destruct (move_refines m el it (mkItem (item_key it) e) H Hin eq_refl) as [? ->].
    split; [done|]. split; [done|]. by rewrite Hk.
  - destruct HK as [-> Hno]. rewrite spec_remove_absent by done. cbn [fst snd].
    set (m' := mkStore _ _ _ _). cbn [maxEntries m'].
    assert (Habs : abs m' = (k, e) :: abs m) by done.
    assert (Hlen : length (lru m') = length ((k, e) :: abs m)) by (unfold m', abs; simpl; by rewrite length_fmap).
    pose proof (push_ok m k e H Ek) as Hok. fold m' in Hok.
    rewrite <-Hlen. destruct ((0 <? maxEntries m) && _); [|done].
    destruct (last (lru m')) as [[el it]|] eqn:EL; [|apply last_None in EL; unfold m' in EL; simpl in EL; discriminate EL].
    apply last_Some in EL as [l EL]. cbn [fst].
    assert (Hin : (el, it) ∈ lru m') by (rewrite EL; set_solver).
    destruct (remove_refines m' el it Hok Hin) as [? RA]. split; [done|]. split; [done|].
    rewrite RA. rewrite <-Habs.
    assert (Habs' : abs m' = abs (mkStore (items m') l (maxEntries m) 0) ++ [(item_key it, item_entry it)])
      by (unfold abs; rewrite EL; simpl; by rewrite fmap_app).
    rewrite Habs', spec_remove_last.
    + rewrite EL, length_app. simpl. unfold abs. simpl.
      rewrite take_app_le by (rewrite length_fmap; lia). rewrite take_ge; [done|rewrite length_fmap; lia].
    + rewrite <-Habs', lru_keys_abs. apply Hok.
Qed.

Lemma Delete_refines k m :
  lru_ok m -> lru_ok (Delete false k m).1 /\ (Delete false k m).2 = None /\
  abs (Delete false k m).1 = spec_remove k (abs m).
Proof.
  intros H. unfold Delete. simpl. pose proof (key_lookup m k H) as HK.
  destruct (items m !! k) as [el|].
  - destruct HK as (it & _ & Hin & <- & _). by destruct (remove_refines m el it H Hin).
  - destruct HK as [_ Hno]. by rewrite spec_remove_absent.
Qed.

(** The sweep, over a list of elements of the store. *)
Lemma sweepFrom_refines els now m :
  lru_ok m -> NoDup els -> (forall x, x ∈ els -> x ∈ lru m) ->
  lru_ok (sweepFrom els now m).1 /\
  (forall x, x ∈ lru (sweepFrom els now m).1 <->
     x ∈ lru m /\ ~ (x ∈ els /\ expired (item_entry x.2) now = true)) /\
  lru (sweepFrom els now m).1 `sublist_of` lru m /\
  (sweepFrom els now m).2 = Z.of_nat (length (filter (fun x => expired (item_entry x.2) now = true) els)).
Proof.
  intros H HN. revert m H. induction HN as [|[el it] els Hn HN IH]; intros m H Hin.
  { simpl. split_and!; [done| |done|done]. intros x. split; [|tauto]. intros ?. split; [done|].
    intros [?%not_elem_of_nil _]. done. }
  simpl. destruct (expired (item_entry it) now) eqn:EX.
  2: { destruct (IH m H) as (H1 & H2 & H3 & H4); [intros; apply Hin; by right|]. split_and!; try done.
    - intros x. rewrite H2, elem_of_cons. split; [|naive_solver]. intros [Hx Hne]. split; [done|].
      intros [[->|?] ?]; [simpl in *; congruence|naive_solver].
    - rewrite H4, filter_cons_False; [done|]. simpl. congruence. }
  assert (Hel : (el, it) ∈ lru m) by (apply Hin; left).
  destruct (remove_refines m el it H Hel) as [HR _].
  assert (Hl : lru (remove el m) = elem_remove el (lru m)).
  { unfold remove. by rewrite (proj2 (elem_lookup_Some m el it H) Hel). }
  assert (Hmem : forall x, x ∈ lru (remove el m) <-> x ∈ lru m /\ x <> (el, it)).
  { intros x. rewrite Hl. unfold elem_remove. rewrite list_elem_of_filter. split; [|].
    - intros [Hne Hx]. split; [done|]. by intros ->.
    - intros [Hx Hne]. split; [|done]. intros E. apply Hne. by apply (same_id m). }
  destruct (IH (remove el m) HR) as (H1 & H2 & H3 & H4).
  { intros x Hx. apply Hmem. split; [apply Hin; by right|]. by intros ->. }
  destruct (sweepFrom els now (remove el m)) as [m' n]. cbn [fst snd] in *. split_and!; [done| | |].
  - intros x. rewrite H2, Hmem, elem_of_cons. split.
    + intros [[Hx Hne] Hno]. split; [done|]. intros [[->|?] ?]; [done|naive_solver].
    + intros [Hx Hno]. split; [split; [done|]|naive_solver]. intros ->. apply Hno. by split; [left|].
  - etrans; [exact H3|]. rewrite Hl. apply elem_remove_sublist.
  - rewrite H4, filter_cons_True by done. cbn [length]. by rewrite Nat2Z.inj_succ.
Qed.

Lemma sublist_filter_eq {A} (P : A -> Prop) `{!forall x, Decision (P x)} (l l' : list A) :
  l' `sublist_of` l -> NoDup l -> (forall x, x ∈ l' <-> x ∈ l /\ P x) -> l' = filter P l.
Proof.
  intros Hs. induction Hs as [|x l' l Hs IH|x l' l Hs IH]; intros HN HP; [done|..];
    apply NoDup_cons in HN as [Hx HN]; rewrite filter_cons.
  - rewrite decide_True by (apply HP; left). f_equal. apply IH; [done|]. intros y. split.
    + intros Hy. assert (y <> x) by (intros ->; apply Hx; by eapply elem_of_sublist).
      destruct (proj1 (HP y)) as [Hc ?]; [by right|]. split; [|done].
      by apply elem_of_cons in Hc as [|].
    + intros [Hy HPy]. assert (y <> x) by congruence.
      assert (Hc : y ∈ x :: l') by (apply HP; split; [by right|done]).
      by apply elem_of_cons in Hc as [|].
  - assert (Hxl : x ∉ l') by (intros ?; apply Hx; by eapply elem_of_sublist).
    rewrite decide_False.
    + apply IH; [done|]. intros y. rewrite HP, elem_of_cons. split; [|by intuition].
      intros [[->|?] ?]; [|done]. destruct Hxl. apply HP. by split; [left|].
    + intros HPx. apply Hxl, HP. by split; [left|].
Qed.

Lemma Sweep_refines now m :
  lru_ok m -> opNow false now = None ->
  lru_ok (Sweep false now m).1 /\ abs (Sweep false now m).1 = (spec_sweep now (abs m)).1 /\
  (Sweep false now m).2 = Ok (spec_sweep now (abs m)).2.
Proof.
  intros H Hop. unfold Sweep. rewrite Hop.
  assert (HNl : NoDup (lru m)) by (eapply NoDup_fmap_1; apply H).
  destruct (sweepFrom_refines (reverse (lru m)) now m H) as (H1 & H2 & H3 & H4).
  { by rewrite reverse_Permutation. }
  { intros x. by rewrite elem_of_reverse. }
  destruct (sweepFrom (reverse (lru m)) now m) as [m' n]. cbn [fst snd] in *.
  assert (HL : lru m' = filter (fun x => expired (item_entry x.2) now = false) (lru m)).
  { apply sublist_filter_eq; [done|done|]. intros x. rewrite H2, elem_of_reverse.
    destruct (expired (item_entry x.2) now); naive_solver. }
  split; [done|]. split.
  - unfold abs, spec_sweep. simpl. rewrite HL. generalize (lru m). induction l as [|x l IH]; [done|].
    rewrite fmap_cons, !filter_cons. cbn [snd]. case_decide; [rewrite fmap_cons; f_equal|]; exact IH.
  - rewrite H4. unfold spec_sweep, abs. cbn [snd]. do 2 f_equal.
    transitivity (length (filter (fun x : element => expired (item_entry x.2) now = true) (lru m))).
    + by rewrite (reverse_Permutation (lru m)).
    + generalize (lru m). induction l as [|x l IH]; [done|].
      rewrite fmap_cons, !filter_cons. cbn [snd]. case_decide; [cbn [length]; f_equal|]; exact IH.
Qed.

(** ** Runs *)

Inductive op :=
| OGet (canceled : bool) (k : string) (now : Time)
| OSet (canceled : bool) (k : string) (e : Entry)
| ODelete (canceled : bool) (k : string)
| OSweep (canceled : bool) (now : Time).

Inductive reply :=
| RGet (r : result Error (option Entry))
| RDone (err : option Error)
| RCount (r : result Error Z).

Definition run_op (o : op) (m : MemoryStore) : MemoryStore * reply :=
  match o with
  | OGet c k now => let '(m, r) := Get c k now m in (m, RGet r)
  | OSet c k e => let '(m, r) := Set_ c k e m in (m, RDone r)
  | ODelete c k => let '(m, r) := Delete c k m in (m, RDone r)
  | OSweep c now => let '(m, r) := Sweep c now m in (m, RCount r)
  end.

(** Refused arguments change nothing. *)
Definition spec_op (max : Z) (o : op) (l : cache) : cache * reply :=
  match o with
  | OGet c k now => match opNow c now with
                    | Some e => (l, RGet (Err e))
                    | None => let '(l, r) := spec_get k now l in (l, RGet (Ok r))
                    end
  | OSet c k e => match opExpiry c (Expires e) with
                  | Some err => (l, RDone (Some err))
                  | None => (spec_set max k e l, RDone None)
                  end
  | ODelete c k => match opCtx c with
                   | Some err => (l, RDone (Some err))
                   | None => (spec_remove k l, RDone None)
                   end
  | OSweep c now => match opNow c now with
                    | Some e => (l, RCount (Err e))
                    | None => let '(l, n) := spec_sweep now l in (l, RCount (Ok n))
                    end
  end.

Fixpoint run (ops : list op) (m : MemoryStore) : MemoryStore * list reply :=
  match ops with
  | [] => (m, [])
  | o :: ops => let '(m, r) := run_op o m in let '(m, rs) := run ops m in (m, r :: rs)
  end.

Fixpoint spec_run (max : Z) (ops : list op) (l : cache) : cache * list reply :=
  match ops with
  | [] => (l, [])
  | o :: ops => let '(l, r) := spec_op max o l in let '(l, rs) := spec_run max ops l in (l, r :: rs)
  end.

Lemma maxEntries_remove el m : maxEntries (remove el m) = maxEntries m.
Proof. unfold remove. by destruct (elem_lookup el (lru m)). Qed.

Lemma sweepFrom_max els now m : maxEntries (sweepFrom els now m).1 = maxEntries m.
Proof.
  revert m. induction els as [|[el it] els IH]; intros m; [done|]. simpl.
  destruct (expired (item_entry it) now); [|done]. specialize (IH (remove el m)).
  destruct (sweepFrom els now (remove el m)). simpl in *. by rewrite IH, maxEntries_remove.
Qed.

Lemma run_op_max o m : maxEntries (run_op o m).1 = maxEntries m.
Proof.
  destruct o as [c k now|c k e|c k|c now]; simpl.
  - unfold Get. by repeat (case_match; simplify_eq/=; rewrite ?maxEntries_remove).
  - unfold Set_. by repeat (case_match; simplify_eq/=; rewrite ?maxEntries_remove).
  - unfold Delete. by repeat (case_match; simplify_eq/=; rewrite ?maxEntries_remove).
  - unfold Sweep. destruct (opNow c now); [done|].
    pose proof (sweepFrom_max (reverse (lru m)) now m) as E.
    by destruct (sweepFrom (reverse (lru m)) now m).
Qed.

Lemma run_op_refines o m :
  lru_ok m ->
  lru_ok (run_op o m).1 /\ (abs (run_op o m).1, (run_op o m).2) = spec_op (maxEntries m) o (abs m).
Proof.
  intros H. destruct o as [c k now|c k e|c k|c now]; simpl.
  - destruct (opNow c now) as [err|] eqn:E; [unfold Get; by rewrite E|].
    destruct (Get_refines c k now m H E) as [H1 H2]. destruct (Get c k now m) as [m' r].
    destruct (spec_get k now (abs m)). simpl in *. by simplify_eq.
  - destruct (opExpiry c (Expires e)) as [err|] eqn:E; [unfold Set_; by rewrite E|].
    destruct (Set_refines c k e m H E) as (H1 & H2 & H3). destruct (Set_ c k e m) as [m' r].
    simpl in *. split; [done|]. by rewrite H2, H3.
  - destruct c; [done|]. destruct (Delete_refines k m H) as (H1 & H2 & H3).
    destruct (Delete false k m) as [m' r]. simpl in *. split; [done|]. by rewrite H2, H3.
  - destruct (opNow c now) as [err|] eqn:E; [unfold Sweep; by rewrite E|].
    destruct c; [done|]. destruct (Sweep_refines now m H E) as (H1 & H2 & H3).
    destruct (Sweep false now m) as [m' r]. cbn [fst snd] in *. split; [done|].
    rewrite H2, H3. reflexivity.
Qed.

Lemma run_refines ops m :
  lru_ok m ->
  lru_ok (run ops m).1 /\ maxEntries (run ops m).1 = maxEntries m /\
  (abs (run ops m).1, (run ops m).2) = spec_run (maxEntries m) ops (abs m).
Proof.
  revert m. induction ops as [|o ops IH]; intros m H; [done|]. cbn [run spec_run].
  destruct (run_op_refines o m H) as [H1 H2]. pose proof (run_op_max o m) as HM.
  destruct (run_op o m) as [m1 r1]. cbn [fst snd] in *. rewrite <-H2.
  destruct (IH m1 H1) as (H3 & H4 & H5). rewrite HM in H4, H5.
  destruct (run ops m1) as [m2 rs]. cbn [fst snd] in *. by rewrite <-H5.
Qed.

Lemma New_ok max : lru_ok (NewMemoryStore max).
Proof.
  constructor; simpl; [constructor|constructor| |by intros ? ?%not_elem_of_nil].
  intros k el. rewrite lookup_empty. split; [done|]. by intros (? & ?%not_elem_of_nil & _).
Qed.

(** *** Capacity *)

Lemma spec_remove_length k l : (length (spec_remove k l) <= length l)%nat.
Proof. apply length_filter. Qed.

Lemma spec_lookup_remove_length k l e :
  spec_lookup k l = Some e -> (length (spec_remove k l) < length l)%nat.
Proof.
  unfold spec_lookup. destruct (list_find _ l) as [[i [k' e']]|] eqn:E; [|done]. intros _.
  apply list_find_Some in E as (Hi%list_elem_of_lookup_2 & Hk & _).
  apply (length_filter_lt _ _ (k', e')); [done|]. simpl in *. tauto.
Qed.

Lemma spec_op_length max o l :
  (0 < max -> Z.of_nat (length l) <= max) -> 0 < max -> Z.of_nat (length (spec_op max o l).1) <= max.
Proof.
  intros Hl Hm. specialize (Hl Hm). destruct o as [c k now|c k e|c k|c now]; simpl.
  - destruct (opNow c now); [done|]. unfold spec_get.
    destruct (spec_lookup k l) as [e|] eqn:E; [|done]. simpl.
    pose proof (spec_lookup_remove_length k l e E). case_match; simpl; lia.
  - destruct (opExpiry c (Expires e)); [done|]. simpl. unfold spec_set.
    destruct (spec_lookup k l) as [e'|] eqn:E.
    + pose proof (spec_lookup_remove_length k l e' E). simpl. lia.
    + pose proof (spec_remove_length k l). rewrite (proj2 (Z.ltb_lt 0 max)) by done. cbn [andb].
      case_match eqn:EC; zbool; [|lia]. rewrite length_take. cbn [length]. lia.
  - destruct c; [done|]. simpl. pose proof (spec_remove_length k l). lia.
  - destruct (opNow c now); [done|]. unfold spec_sweep. simpl.
    pose proof (length_filter (fun p : string * Entry => expired p.2 now = false) l). lia.
Qed.

(** *** Recency *)

(** The key an operation uses, and whether it may take the entry of [k] away. *)
Definition uses (o : op) : list string :=
  match o with OGet _ k _ | OSet _ k _ => [k] | _ => [] end.

Definition spares (k : string) (o : op) : Prop :=
  match o with OSet _ k' _ | ODelete _ k' => k' <> k | _ => True end.

(** [k] is present, and everything more recent was used since. *)
Definition recent (T : gset string) (k : string) (e : Entry) (l : cache) : Prop :=
  exists pre post, l = pre ++ (k, e) :: post /\ NoDup (l.*1) /\ forall x, x ∈ pre.*1 -> x ∈ T.

Lemma spec_remove_keys k x l : x ∈ (spec_remove k l).*1 <-> x ∈ l.*1 /\ x <> k.
Proof.
  unfold spec_remove. rewrite !list_elem_of_fmap. setoid_rewrite list_elem_of_filter.
  split.
  - intros ([x' e] & -> & Hne & Hin). split; [by exists (x', e)|done].
  - intros [([x' e] & -> & Hin) Hne]. exists (x', e). done.
Qed.

Lemma spec_remove_NoDup k l : NoDup (l.*1) -> NoDup ((spec_remove k l).*1).
Proof. intros H. eapply sublist_NoDup; [exact H|]. apply fmap_sublist, sublist_filter. Qed.

Lemma move_NoDup k e l : NoDup (l.*1) -> NoDup (((k, e) :: spec_remove k l).*1).
Proof.
  intros H. rewrite fmap_cons. apply NoDup_cons. split; [|by apply spec_remove_NoDup].
  rewrite spec_remove_keys. tauto.
Qed.

Lemma recent_lookup T k e l : recent T k e l -> spec_lookup k l = Some e.
Proof.
  intros (pre & post & -> & HN & _). unfold spec_lookup.
  destruct (list_find _ _) as [[i [k' e']]|] eqn:E.
  - apply list_find_Some in E as (Hi & Hk & Hfst). simpl in Hk. subst k'. f_equal.
    rewrite fmap_app in HN. assert (i = length pre) as ->.
    { eapply (NoDup_lookup _ i (length pre) k); [exact HN| |].
      - rewrite <-fmap_app. by rewrite list_lookup_fmap, Hi.
      - rewrite lookup_app_r by (by rewrite length_fmap). by rewrite length_fmap, Nat.sub_diag. }
    rewrite list_lookup_middle in Hi by done. by injection Hi.
  - apply list_find_None in E. rewrite Forall_forall in E. destruct (E (k, e)); [set_solver|done].
Qed.

(** Using another key moves it, and only it, before [k]. *)
Lemma recent_move T k e k' e' l :
  k' <> k -> recent T k e l -> recent ({[k']} ∪ T) k e ((k', e') :: spec_remove k' l).
Proof.
  intros Hne (pre & post & -> & HN & HT).
  exists ((k', e') :: spec_remove k' pre), (spec_remove k' post). split_and!.
  - unfold spec_remove. rewrite filter_app, filter_cons_True by (simpl; congruence). done.
  - by apply move_NoDup.
  - intros x. rewrite fmap_cons. intros [->|Hx]%elem_of_cons; [set_solver|].
    apply spec_remove_keys in Hx as [Hx _]. set_solver.
Qed.

Lemma recent_self T k e l : recent T k e l -> recent T k e ((k, e) :: spec_remove k l).
Proof.
  intros (pre & post & -> & HN & HT). exists [], (spec_remove k (pre ++ (k, e) :: post)).
  split; [done|]. split; [by apply move_NoDup|]. intros x Hx. by apply not_elem_of_nil in Hx.
Qed.

Lemma recent_filter (P : string * Entry -> Prop) `{!forall x, Decision (P x)} T k e l :
  P (k, e) -> recent T k e l -> recent T k e (filter P l).
Proof.
  intros HP (pre & post & -> & HN & HT). exists (filter P pre), (filter P post). split_and!.
  - by rewrite filter_app, filter_cons_True.
  - eapply sublist_NoDup; [exact HN|]. apply fmap_sublist, sublist_filter.
  - intros x (y & -> & [_ Hy]%list_elem_of_filter)%list_elem_of_fmap. apply HT.
    by apply list_elem_of_fmap_2.
Qed.

Lemma recent_mono T T' k e l : T ⊆ T' -> recent T k e l -> recent T' k e l.
Proof. intros HT (pre & post & -> & HN & H). exists pre, post. split_and!; [done|done|set_solver]. Qed.

(** The eviction spares [k] while fewer than [max] other keys are in use. *)
Lemma recent_evict max T k e l :
  Z.of_nat (size T) < max -> k ∉ T -> recent T k e l -> max < Z.of_nat (length l) ->
  recent T k e (take (length l - 1) l).
Proof.
  intros Hmax Hk (pre & post & -> & HN & HT) Hlen.
  assert (Hpre : (length pre <= size T)%nat).
  { rewrite fmap_app, NoDup_app in HN. destruct HN as [HN _].
    rewrite <-(length_fmap fst pre), <-(size_list_to_set (C := gset string)) by done.
    apply subseteq_size. intros x. rewrite elem_of_list_to_set. apply HT. }
  destruct post as [|p post _] using rev_ind; [rewrite length_app in Hlen; simpl in Hlen; lia|].
  exists pre, post. split_and!; [|eapply sublist_NoDup; [exact HN|]; apply fmap_sublist, sublist_take|done].
  change ((k, e) :: post ++ [p]) with (((k, e) :: post) ++ [p]). rewrite app_assoc. apply drop_last.
Qed.

Lemma recent_step max T k e o l :
  0 < max -> IsZero (Expires e) = true -> spares k o -> recent T k e l -> k ∉ T ->
  let T' := (list_to_set (uses o) ∪ T) ∖ {[k]} in
  Z.of_nat (size T') < max -> recent T' k e (spec_op max o l).1.
Proof.
  intros Hm He Hsp HR HkT T' Hsize.
  assert (Hexp : forall now, expired e now = false) by (intros; unfold expired; by rewrite He).
  assert (HT : T ⊆ T') by (unfold T'; set_solver).
  assert (HRT : recent T' k e l) by (by eapply recent_mono).
  destruct o as [c k' now|c k' e'|c k'|c now]; simpl in *.
  - destruct (opNow c now); [done|]. unfold spec_get.
    destruct (decide (k' = k)) as [->|Hne].
    + rewrite (recent_lookup _ _ _ _ HR), Hexp. by apply recent_self.
    + destruct (spec_lookup k' l) as [e'|]; [|done]. simpl. destruct (expired e' now).
      * apply recent_filter; [simpl; congruence|done].
      * eapply recent_mono; [|by apply (recent_move T)]. unfold T'. set_solver.
  - destruct (opExpiry c (Expires e')); [done|]. simpl. unfold spec_set.
    assert (HM : recent T' k e ((k', e') :: spec_remove k' l)).
    { eapply recent_mono; [|by apply (recent_move T)]. unfold T'. set_solver. }
    destruct (spec_lookup k' l); [done|]. rewrite (proj2 (Z.ltb_lt 0 max)) by done. cbn [andb].
    destruct (max <? _) eqn:EC; zbool; [|done]. apply (recent_evict max); [done|unfold T'; set_solver|done|lia].
  - destruct c; [done|]. apply recent_filter; [simpl; congruence|done].
  - destruct (opNow c now); [done|]. unfold spec_sweep. simpl. apply recent_filter; [simpl; apply Hexp|done].
Qed.

(** C38: Whatever sequence of operations is performed, the store answers as a plain list
    of entries in order of last use does: a hit moves its entry to the front, an expired
    one is returned once and dropped, an insertion beyond the capacity drops the least
    recently used entry, refused arguments change nothing. Its internal map and list
    agree, and it never holds more entries than its capacity. *)
Theorem cache_store_refines_lru_list ops max :
  let m := (run ops (NewMemoryStore max)).1 in
  (abs m, (run ops (NewMemoryStore max)).2) = spec_run max ops [] /\
  lru_ok m /\ NoDup ((abs m).*1) /\
  (0 < max -> Z.of_nat (length (abs m)) <= max).
Proof.
  intros m. destruct (run_refines ops (NewMemoryStore max) (New_ok max)) as (H1 & H2 & H3).
  change (abs (NewMemoryStore max)) with (@nil (string * Entry)) in H3.
  change (maxEntries (NewMemoryStore max)) with max in H3. fold m in H1, H2, H3.
  split; [done|]. split; [done|]. split; [rewrite lru_keys_abs; apply H1|].
  intros Hm. assert (HS : abs m = (spec_run max ops []).1) by (by rewrite <-H3). rewrite HS. clear -Hm.
  assert (G : forall ops l, Z.of_nat (length l) <= max -> Z.of_nat (length (spec_run max ops l).1) <= max).
  { clear ops. induction ops as [|o ops IH]; intros l Hl; [done|]. cbn [spec_run].
    pose proof (spec_op_length max o l (fun _ => Hl) Hm). destruct (spec_op max o l) as [l' r].
    specialize (IH l' H). by destruct (spec_run max ops l'). }
  apply G. simpl. lia.
Qed.

Lemma recent_run k e ops T m :
  IsZero (Expires e) = true -> lru_ok m -> 0 < maxEntries m -> Forall (spares k) ops -> k ∉ T ->
  Z.of_nat (size ((list_to_set (concat (uses <$> ops)) ∪ T) ∖ {[k]} : gset string)) < maxEntries m ->
  recent T k e (abs m) ->
  spec_lookup k (abs (run ops m).1) = Some e /\ lru_ok (run ops m).1.
Proof.
  intros He O1 Hm HF. revert T m O1 Hm.
  induction HF as [|o ops Ho HF IH]; intros T m O1 Hm HkT Hs HR; cbn [run].
  { split; [by eapply recent_lookup|done]. }
  destruct (run_op_refines o m O1) as [O3 O4]. pose proof (run_op_max o m) as O5.
  set (T' := (list_to_set (uses o) ∪ T) ∖ {[k]} : gset string).
  assert (Hsub : forall X : gset string,
    X ⊆ (list_to_set (concat (uses <$> o :: ops)) ∪ T) ∖ {[k]} -> Z.of_nat (size X) < maxEntries m).
  { intros X HX. eapply Z.le_lt_trans; [|exact Hs]. by apply inj_le, subseteq_size. }
  rewrite fmap_cons in Hsub. cbn [concat] in Hsub. rewrite list_to_set_app_L in Hsub.
  pose proof (recent_step (maxEntries m) T k e o (abs m) Hm He Ho HR HkT) as HS.
  rewrite <-O4 in HS. cbn [fst] in HS. specialize (HS ltac:(apply Hsub; set_solver)).
  destruct (run_op o m) as [m2 r2]. cbn [fst snd] in *.
  specialize (IH T' m2 O3 ltac:(lia) ltac:(set_solver)). rewrite O5 in IH.
  destruct (run ops m2) as [m3 rs]. cbn [fst] in *. apply IH; [|done]. apply Hsub. set_solver.
Qed.

(** Right after its insertion an entry is the most recent one. *)
Lemma recent_set k e max l :
  NoDup ((spec_set max k e l).*1) -> 0 < max -> recent ∅ k e (spec_set max k e l).
Proof.
  intros HN Hm. unfold spec_set in *.
  assert (HE : forall post, NoDup (((k, e) :: post).*1) -> recent ∅ k e ((k, e) :: post)).
  { intros post HP. exists [], post. split_and!; [done|done|by intros ? ?%not_elem_of_nil]. }
  destruct (spec_lookup k l); [by apply HE|]. destruct (_ && _) eqn:EC; [|by apply HE].
  zbool. cbn [length] in *. destruct (spec_remove k l) as [|p l'] eqn:ER; [simpl in *; lia|].
  cbn [length] in *. rewrite Nat.sub_succ, Nat.sub_0_r in *. cbn [take] in *. by apply HE.
Qed.

(** An entry without expiry survives as long as it is not overwritten or deleted and
    fewer other keys than the capacity are used after it was stored: reading it then
    still returns it, whatever else was read, stored, deleted or swept meanwhile. *)
Theorem recently_used_entries_survive m k e ops now :
  lru_ok m -> 0 < maxEntries m -> opExpiry false (Expires e) = None -> IsZero (Expires e) = true ->
  Forall (spares k) ops ->
  Z.of_nat (size (list_to_set (concat (uses <$> ops)) ∖ {[k]} : gset string)) < maxEntries m ->
  opNow false now = None ->
  (Get false k now (run ops (Set_ false k e m).1).1).2 = Ok (Some e).
Proof.
  intros H Hm Hop He HF Hsize Hnow. destruct (Set_refines false k e m H Hop) as (H1 & _ & H2).
  pose proof (run_op_max (OSet false k e) m) as HM. simpl in HM.
  destruct (Set_ false k e m) as [m1 r1] eqn:ES. cbn [fst snd] in *.
  assert (HR : recent ∅ k e (abs m1)).
  { assert (HN : NoDup ((abs m1).*1)) by (rewrite lru_keys_abs; apply H1).
    rewrite H2 in HN |- *. by apply recent_set. }
  destruct (recent_run k e ops ∅ m1) as [HL HO];
    [done|done|lia|done|set_solver|by rewrite union_empty_r_L, HM|done|].
  destruct (Get_refines false k now _ HO Hnow) as [_ HG]. unfold spec_get in HG. rewrite HL in HG.
  simpl in HG. by injection HG.
Qed.

(** A store of two entries: [a] outlives [c] because it was read after [b] was stored. *)
Definition e0 (v : string) : Entry := mkEntry v zero_time.
Definition small_store : MemoryStore := (run [OSet false "a" (e0 "1"); OSet false "b" (e0 "2")] (NewMemoryStore 2)).1.

Example lru_evicts :
  (run [OGet false "a" 5; OSet false "c" (e0 "3"); OGet false "b" 6; OGet false "a" 7] small_store).2 =
    [RGet (Ok (Some (e0 "1"))); RDone None; RGet (Ok None); RGet (Ok (Some (e0 "1")))].
Proof. by vm_compute. Qed.

Lemma cache_run_witness : (0 < 2) /\ Z.of_nat (length (abs small_store)) <= 2.
Proof.
  split; [lia|].
  destruct (cache_store_refines_lru_list [OSet false "a" (e0 "1"); OSet false "b" (e0 "2")] 2)
    as (_ & _ & _ & H).
  apply H. lia.
Defined.

Lemma recently_used_witness :
  (Get false "a" 9 (run [OGet false "b" 5; OSet false "b" (e0 "3"); OSweep false 8]
     (Set_ false "a" (e0 "1") (NewMemoryStore 2)).1).1).2 = Ok (Some (e0 "1")).
Proof.
  apply (recently_used_entries_survive (NewMemoryStore 2) "a" (e0 "1")
    [OGet false "b" 5; OSet false "b" (e0 "3"); OSweep false 8] 9).
  - apply New_ok.
  - reflexivity.
  - reflexivity.
  - reflexivity.
  - repeat constructor; simpl; discriminate.
  - reflexivity.
  - reflexivity.
Defined.
