(* ===== verification/CacheLoad.v ===== *)
(** The typed cache and its deduplicated loads: [cache/cache.go] and [cache/load.go].

    The store is any implementation of the [Store] interface; the codec and the load
    function's results are arguments. Goroutines inside [GetOrLoad], [Delete] and [Set]
    of one [Cache] are interleaved action by action: a mutex-protected section, a channel
    operation, a store call or a call of [load] is one action. *)

From S2P Require Import Prelude.
From S2P Require Import GoTime.
From S2P Require Import CacheStore.

Local Open Scope Z_scope.

(** ** The [Store] interface *)

Class Store (St : Type) := {
  s_Get : bool -> string -> Time -> St -> St * result Error (option Entry);
  s_Set : bool -> string -> Entry -> St -> St * option Error;
  s_Delete : bool -> string -> St -> St * option Error
}.

(** What the loads rely on: a store may drop entries at any time, but it returns and
    keeps only what was set, and a successful deletion removes the entry. *)
Class LawfulStore (St : Type) `{Store St} := {
  store_inv : St -> Prop;
  contents : St -> gmap string Entry;
  get_inv c k now s : store_inv s -> store_inv (s_Get c k now s).1;
  set_inv c k e s : store_inv s -> store_inv (s_Set c k e s).1;
  delete_inv c k s : store_inv s -> store_inv (s_Delete c k s).1;
  get_contents c k now s : store_inv s -> contents (s_Get c k now s).1 ⊆ contents s;
  get_result c k now s e :
    store_inv s -> (s_Get c k now s).2 = Ok (Some e) -> contents s !! k = Some e;
  set_contents c k e s k' e' :
    store_inv s -> contents (s_Set c k e s).1 !! k' = Some e' ->
    contents s !! k' = Some e' \/ k' = k /\ e' = e;
  delete_contents c k s : store_inv s -> contents (s_Delete c k s).1 ⊆ contents s;
  delete_result c k s :
    store_inv s -> (s_Delete c k s).2 = None -> contents (s_Delete c k s).1 !! k = None
}.

(** ** The typed view *)

Definition ns_byte (a : Ascii.ascii) : bool :=
  byte_in "a" "z" a || byte_in "0" "9" a || bool_decide (a = "-"%char).

(** [namespaceRE.MatchString] *)
Definition validNamespace (ns : string) : bool :=
  negb (bool_decide (ns = ""%string)) && string_forall ns_byte ns.

(** [New], with the namespace the options set, if any. *)
Definition New (ns : option string) : option string :=
  match ns with
  | None => Some ""%string
  | Some ns => if validNamespace ns then Some ns else None
  end.

(** [Cache.key] *)
Definition key_of (ns k : string) : string :=
  if bool_decide (ns = ""%string) then k else ns +:+ String ":" k.

Inductive LoadErr := ECtx | EOther (what : string).

Section cache.
Context {St : Type} `{Store St} {T : Type}.
Context (Marshal : T -> option string) (Unmarshal : string -> option T).
Context (namespace : string).

Definition key (k : string) : string := key_of namespace k.

(** [lookup]: a cancelled context, a store fault or undecodable bytes are errors. *)
Definition lookup (canceled : bool) (k : string) (now : Time) (s : St)
  : St * result Error (option T) :=
let '(s, r) := s_Get canceled (key k) now s in
match r with
| Err e => (s, Err e)
| Ok None => (s, Ok None)
| Ok (Some e) =>
    if expired e now then (s, Ok None)
    else match Unmarshal (Value e) with
         | None => (s, Err ErrCodec)
         | Some v => (s, Ok (Some v))
         end
end.

Definition Get (canceled : bool) (k : string) (now : Time) (s : St) := lookup canceled k now s.

Definition entry_of (now : Time) (data : string) (ttl : Duration) : Entry :=
mkEntry data (if 0 <? ttl then Add now ttl else zero_time).

Definition Set_ (canceled : bool) (k : string) (v : T) (ttl : Duration) (now : Time) (s : St)
  : St * option Error :=
match Marshal v with
| None => (s, Some ErrCodec)
| Some data => s_Set canceled (key k) (entry_of now data ttl) s
end.

(** [lookupOrMiss]: faults count as misses, the caller's cancellation does not. *)
Definition lookupOrMiss (canceled : bool) (k : string) (now : Time) (s : St)
  : St * result LoadErr (option T) :=
let '(s, r) := lookup canceled k now s in
match r with
| Ok v => (s, Ok v)
| Err ErrCanceled => if canceled then (s, Err ECtx) else (s, Ok None)
| Err _ => (s, Ok None)
end.

(** ** Loads in progress *)

(** How the function a load runs ended. *)
Inductive Outcome :=
| OVal (v : T)
| OErr (e : LoadErr)
| OPanic.

Record activeLoad := mkLoad {
  al_sem : option nat;       (** the goroutine that holds [pubSem] *)
  al_invalidated : bool;
  al_done : option (Outcome * bool)  (** the result, and whether the runner was cancelled *)
}.

(** A goroutine's position. A stamp is the value of the event counter when [load] was
    called, or when [Delete] was. *)
Inductive Goroutine :=
| GEnter (k : string)                          (** [GetOrLoad], before its first lookup *)
| GJoin (k : string)                           (** before [once] takes the mutex *)
| GWait (k : string) (c : nat)                 (** waiting for [c.done] *)
| GRecheck (k : string) (c : nat)              (** running: before the second lookup *)
| GCtx (k : string) (c : nat)                  (** before the cancellation check *)
| GLoading (k : string) (c stamp : nat)        (** inside [load] *)
| GLoaded (k : string) (c stamp : nat) (v : T) (** before [publish] takes the semaphore *)
| GPublish (k : string) (c stamp : nat) (v : T) (** admitted: before the write *)
| GRelease (k : string) (c : nat) (o : Outcome) (** before releasing the semaphore *)
| GFinish (k : string) (c : nat) (o : Outcome) (** before deregistration *)
| GClose (c : nat) (o : Outcome) (runner : bool) (** deregistered: before closing [c.done] *)
| GReturned (o : Outcome)
| DLookup (k : string) (stamp : nat)           (** [Delete], before [invalidate] looks up *)
| DInvalidate (k : string) (stamp c : nat)     (** before taking the load's semaphore *)
| DRelease (k : string) (stamp c : nat)        (** marked; before the release *)
| DStore (k : string) (stamp : nat)            (** before [store.Delete] *)
| DDeleted (k : string) (stamp : nat)          (** returned nil *)
| DFailed
| SWrite (k : string) (v : T) (ttl : Duration) (** [Set], before its store write *)
| SReturned.

Record Sys := mkSys {
  store : St;
  calls : gmap string nat;
  loads : gmap nat activeLoad;
  gs : gmap nat Goroutine;
  clock : nat;                             (** events so far; also the next fresh name *)
  writes : gmap string (list (Entry * option nat))
    (** what was written to each full key since its last deletion, by a [Set] or by the
        load with this stamp *)
}.

Inductive Action :=
| ASpawnLoad (k : string)
| ASpawnDelete (k : string)
| ASpawnSet (k : string) (v : T) (ttl : Duration)
| AStep (g : nat) (canceled : bool) (now : Time) (res : Outcome) (ttl : Duration).

(** [retryable] for a waiting caller that is not cancelled. *)
Definition retryable (o : Outcome) (runnerCanceled : bool) : bool :=
match o with
| OErr ECtx => runnerCanceled
| _ => false
end.

Definition set_g (g : nat) (x : Goroutine) (y : Sys) : Sys :=
mkSys (store y) (calls y) (loads y) (<[g := x]> (gs y)) (clock y) (writes y).
Definition set_load (c : nat) (l : activeLoad) (y : Sys) : Sys :=
mkSys (store y) (calls y) (<[c := l]> (loads y)) (gs y) (clock y) (writes y).
Definition set_st (s : St) (y : Sys) : Sys :=
mkSys s (calls y) (loads y) (gs y) (clock y) (writes y).

Definition written (k : string) (y : Sys) : list (Entry * option nat) := default [] (writes y !! k).

(** Record that [key] was set to [v]. *)
Definition log_write (k : string) (v : T) (ttl : Duration) (now : Time) (who : option nat)
  (y : Sys) : Sys :=
match Marshal v with
| None => y
| Some data =>
    mkSys (store y) (calls y) (loads y) (gs y) (clock y)
      (<[key k := (entry_of now data ttl, who) :: written (key k) y]> (writes y))
end.

Definition log_delete (k : string) (y : Sys) : Sys :=
mkSys (store y) (calls y) (loads y) (gs y) (clock y) (delete (key k) (writes y)).

(** A new goroutine at [x], one event later. *)
Definition spawn (x : Goroutine) (y : Sys) : Sys :=
mkSys (store y) (calls y) (loads y) (<[clock y := x]> (gs y)) (S (clock y)) (writes y).

(** [once], under the mutex: wait for the key's load, or register a new one. *)
Definition join (g : nat) (k : string) (y : Sys) : Sys :=
match calls y !! key k with
| Some c => set_g g (GWait k c) y
| None =>
    let c := clock y in
    mkSys (store y) (<[key k := c]> (calls y)) (<[c := mkLoad None false None]> (loads y))
      (<[g := GRecheck k c]> (gs y)) (S c) (writes y)
end.

(** The deferred deregistration, by key. *)
Definition deregister (g : nat) (k : string) (c : nat) (o : Outcome) (canceled : bool) (y : Sys) : Sys :=
mkSys (store y) (delete (key k) (calls y)) (loads y) (<[g := GClose c o canceled]> (gs y)) (clock y)
  (writes y).

(** The next action of goroutine [g] at [x]; [None] when it is blocked. [canceled] is what
    the caller sees of its own context in this action; where a [select] has both branches
    ready, it says which one was taken. *)
Definition step (g : nat) (x : Goroutine) (canceled : bool) (now : Time) (res : Outcome)
  (ttl : Duration) (y : Sys) : option Sys :=
match x with
| GEnter k =>
    if canceled then Some (set_g g (GReturned (OErr ECtx)) y)
    else let '(s, r) := lookupOrMiss canceled k now (store y) in
         let y := set_st s y in
         match r with
         | Ok (Some v) => Some (set_g g (GReturned (OVal v)) y)
         | Ok None => Some (set_g g (GJoin k) y)
         | Err e => Some (set_g g (GReturned (OErr e)) y)
         end
| GJoin k => Some (join g k y)
| GWait k c =>
    if canceled then Some (set_g g (GReturned (OErr ECtx)) y)
    else match loads y !! c with
         | Some l =>
             match al_done l with
             | Some (o, runner) =>
                 if retryable o runner then Some (set_g g (GJoin k) y)
                 else Some (set_g g (GReturned o) y)
             | None => None
             end
         | None => None
         end
| GRecheck k c =>
    let '(s, r) := lookupOrMiss canceled k now (store y) in
    let y := set_st s y in
    match r with
    | Ok (Some v) => Some (set_g g (GFinish k c (OVal v)) y)
    | Ok None => Some (set_g g (GCtx k c) y)
    | Err e => Some (set_g g (GFinish k c (OErr e)) y)
    end
| GCtx k c =>
    if canceled then Some (set_g g (GFinish k c (OErr ECtx)) y)
    else Some (mkSys (store y) (calls y) (loads y) (<[g := GLoading k c (clock y)]> (gs y))
                 (S (clock y)) (writes y))
| GLoading k c stamp =>
    match res with
    | OVal v => if canceled then Some (set_g g (GFinish k c (OVal v)) y)
                else Some (set_g g (GLoaded k c stamp v) y)
    | o => Some (set_g g (GFinish k c o) y)
    end
| GLoaded k c stamp v =>
    match loads y !! c with
    | Some l =>
        match al_sem l with
        | Some _ => None
        | None =>
            let y := set_load c (mkLoad (Some g) (al_invalidated l) (al_done l)) y in
            Some (set_g g (if al_invalidated l then GRelease k c (OVal v)
                           else GPublish k c stamp v) y)
        end
    | None => None
    end
| GPublish k c stamp v =>
    let '(s, _) := Set_ canceled k v ttl now (store y) in
    Some (log_write k v ttl now (Some stamp) (set_st s (set_g g (GRelease k c (OVal v)) y)))
| GRelease k c o =>
    match loads y !! c with
    | Some l => Some (set_g g (GFinish k c o)
                        (set_load c (mkLoad None (al_invalidated l) (al_done l)) y))
    | None => None
    end
| GFinish k c o => Some (deregister g k c o canceled y)
| GClose c o runner =>
    match loads y !! c with
    | Some l => Some (set_g g (GReturned o)
                        (set_load c (mkLoad (al_sem l) (al_invalidated l) (Some (o, runner))) y))
    | None => None
    end
| DLookup k stamp =>
    match calls y !! key k with
    | None => Some (set_g g (DStore k stamp) y)
    | Some c => Some (set_g g (DInvalidate k stamp c) y)
    end
| DInvalidate k stamp c =>
    if canceled then Some (set_g g DFailed y)
    else match loads y !! c with
         | Some l =>
             match al_sem l with
             | Some _ => None
             | None => Some (set_g g (DRelease k stamp c)
                               (set_load c (mkLoad (Some g) true (al_done l)) y))
             end
         | None => None
         end
| DRelease k stamp c =>
    match loads y !! c with
    | Some l => Some (set_g g (DStore k stamp)
                        (set_load c (mkLoad None (al_invalidated l) (al_done l)) y))
    | None => None
    end
| DStore k stamp =>
    let '(s, e) := s_Delete canceled (key k) (store y) in
    let y := set_st s y in
    match e with
    | Some _ => Some (set_g g DFailed y)
    | None => Some (log_delete k (set_g g (DDeleted k stamp) y))
    end
| SWrite k v ttl =>
    let '(s, _) := Set_ canceled k v ttl now (store y) in
    Some (log_write k v ttl now None (set_st s (set_g g SReturned y)))
| GReturned _ | DDeleted _ _ | DFailed | SReturned => None
end.

Definition exec1 (a : Action) (y : Sys) : option Sys :=
match a with
| ASpawnLoad k => Some (spawn (GEnter k) y)
| ASpawnDelete k => Some (spawn (DLookup k (clock y)) y)
| ASpawnSet k v ttl => Some (spawn (SWrite k v ttl) y)
| AStep g canceled now res ttl =>
    match gs y !! g with
    | Some x => step g x canceled now res ttl y
    | None => None
    end
end.

Fixpoint exec (l : list Action) (y : Sys) : option Sys :=
match l with
| [] => Some y
| a :: l => match exec1 a y with Some y => exec l y | None => None end
end.

Definition initial (s : St) : Sys := mkSys s ∅ ∅ ∅ 0 ∅.
End cache.

Arguments Outcome : clear implicits.
Arguments Goroutine : clear implicits.
Arguments Sys : clear implicits.
Arguments Action : clear implicits.
