(* ===== verification/CacheLoadSpec.v ===== *)
(** The loads of a cache: one load per key at a time, deletions that win over the loads
    they overlap, and no deadlock, whatever the interleaving and the store. *)

From S2P Require Import Prelude.
From S2P Require Import GoTime.
From S2P Require Import CacheStore.
From S2P Require Import CacheStoreSpec.
From S2P Require Import CacheLoad.

Local Open Scope Z_scope.

(** What holds of some goroutine still does after goroutine [g] moves to [x']. *)
Lemma ex_moved {A} (G : gmap nat A) (P : A -> Prop) g x x' :
  G !! g = Some x -> (P x -> P x') ->
  (exists h z, G !! h = Some z /\ P z) -> exists h z, <[g := x']> G !! h = Some z /\ P z.
Proof.
  intros Hg Hx (h & z & Hh & Hz). destruct (decide (h = g)) as [->|Hne].
  - exists g, x'. rewrite lookup_insert_eq. naive_solver.
  - exists h, z. by rewrite lookup_insert_ne.
Qed.

Ltac lk :=
  repeat match goal with
  | H : <[_ := _]> _ !! _ = Some _ |- _ => apply lookup_insert_Some in H as [[<- <-]|[? H]]
  | H : delete _ _ !! _ = Some _ |- _ => apply lookup_delete_Some in H as [? H]
  end; simplify_eq/=.

Section spec.
Context {St : Type} `{LawfulStore St} {T : Type}.
Context (Marshal : T -> option string) (Unmarshal : string -> option T).
Context (namespace : string).

Local Abbreviation Goroutine := (Goroutine T).
Local Abbreviation activeLoad := (activeLoad (T := T)).
Local Abbreviation Sys := (Sys St T).
Local Abbreviation key := (key namespace).
Local Abbreviation step := (step Marshal Unmarshal namespace).
Local Abbreviation exec := (exec Marshal Unmarshal namespace).
Local Abbreviation exec1 := (exec1 Marshal Unmarshal namespace).

(** ** Positions *)

(** The load a goroutine runs, with its full key, until it is deregistered. *)
Definition runs (x : Goroutine) : option (string * nat) :=
match x with
| GRecheck k c | GCtx k c | GLoading k c _ | GLoaded k c _ _ | GPublish k c _ _
| GRelease k c _ | GFinish k c _ => Some (key k, c)
| _ => None
end.

(** The load a goroutine has to close. *)
Definition owns (x : Goroutine) : option nat :=
match x with
| GClose c _ _ => Some c
| _ => snd <$> runs x
end.

Definition holds (x : Goroutine) : option nat :=
match x with
| GPublish _ c _ _ | GRelease _ c _ | DRelease _ _ c => Some c
| _ => None
end.

Definition mentions (x : Goroutine) : option nat :=
match x with
| GWait _ c | DInvalidate _ _ c | DRelease _ _ c => Some c
| _ => owns x
end.

(** ** Registration, ownership and the semaphores *)

Record wf (C : gmap string nat) (L : gmap nat activeLoad) (G : gmap nat Goroutine) (n : nat) : Prop := {
  w_g g x : G !! g = Some x -> (g < n)%nat;
  w_l c l : L !! c = Some l -> (c < n)%nat;
  w_m g x c : G !! g = Some x -> mentions x = Some c -> is_Some (L !! c);
  w_calls k c : C !! k = Some c -> exists g x, G !! g = Some x /\ runs x = Some (k, c);
  w_runs g x k c : G !! g = Some x -> runs x = Some (k, c) -> C !! k = Some c;
  w_owns g1 g2 x1 x2 c :
    G !! g1 = Some x1 -> G !! g2 = Some x2 -> owns x1 = Some c -> owns x2 = Some c -> g1 = g2;
  w_pending c l :
    L !! c = Some l -> al_done l = None -> exists g x, G !! g = Some x /\ owns x = Some c;
  w_holds g x c :
    G !! g = Some x -> holds x = Some c -> exists l, L !! c = Some l /\ al_sem l = Some g;
  w_sem c l h :
    L !! c = Some l -> al_sem l = Some h -> exists x, G !! h = Some x /\ holds x = Some c
}.

Arguments w_g {C L G n}.
Arguments w_l {C L G n}.
Arguments w_m {C L G n}.
Arguments w_calls {C L G n}.
Arguments w_runs {C L G n}.
Arguments w_owns {C L G n}.
Arguments w_pending {C L G n}.
Arguments w_holds {C L G n}.
Arguments w_sem {C L G n}.

Lemma wf_clock C L G n : wf C L G n -> wf C L G (S n).
Proof.
  intros W. constructor; try apply W; intros.
  - pose proof (w_g W _ _ H1). lia.
  - pose proof (w_l W _ _ H1). lia.
Qed.

Lemma runs_owns x k c : runs x = Some (k, c) -> owns x = Some c.
Proof. by destruct x; simpl; intros; simplify_eq. Qed.

Lemma owns_mentions x c : owns x = Some c -> mentions x = Some c.
Proof. by destruct x; simpl; intros; simplify_eq. Qed.

Lemma holds_mentions x c : holds x = Some c -> mentions x = Some c.
Proof. by destruct x; simpl; intros; simplify_eq. Qed.

(** A goroutine that neither registers nor takes or gives back anything. *)
Lemma wf_move C L G n g x x' :
  wf C L G n -> G !! g = Some x ->
  runs x' = runs x -> owns x' = owns x -> holds x' = holds x ->
  (forall c, mentions x' = Some c -> mentions x = Some c \/ exists k, C !! k = Some c) ->
  wf C L (<[g := x']> G) n.
Proof.
  intros W Hg Hr Ho Hh Hm.
  assert (Hx : forall z h, <[g := x']> G !! h = Some z ->
    exists z0, G !! h = Some z0 /\ runs z = runs z0 /\ owns z = owns z0 /\ holds z = holds z0).
  { intros z h Hz. lk; [exists x|]; by repeat esplit. }
  constructor.
  - intros h z (z0 & Hz & _)%Hx. by eapply (w_g W).
  - intros; by eapply (w_l W).
  - intros h z c Hz Hc. lk; [|by eapply (w_m W)].
    destruct (Hm _ Hc) as [Hc'|[k Hk]]; [by eapply (w_m W)|].
    destruct (w_calls W _ _ Hk) as (h' & z & Hz & Hr').
    eapply (w_m W); [done|]. by apply owns_mentions, (runs_owns _ k).
  - intros k c Hc. eapply ex_moved; [done| |by eapply (w_calls W)]. by rewrite Hr.
  - intros h z k c (z0 & Hz & -> & _)%Hx. by eapply (w_runs W).
  - intros h1 h2 z1 z2 c (y1 & Hz1 & _ & -> & _)%Hx (y2 & Hz2 & _ & -> & _)%Hx. by eapply (w_owns W).
  - intros c l Hl Hd. eapply ex_moved; [done| |by eapply (w_pending W)]. by rewrite Ho.
  - intros h z c (z0 & Hz & _ & _ & ->)%Hx. by eapply (w_holds W).
  - intros c l h Hl Hs. destruct (w_sem W _ _ _ Hl Hs) as (z & Hz & Hc).
    destruct (decide (h = g)) as [->|]; [|by exists z; rewrite lookup_insert_ne].
    exists x'. rewrite lookup_insert_eq. split; [done|]. rewrite Hh. congruence.
Qed.

(** [spawn]: the new goroutine is at its entry. *)
Lemma wf_spawn C L G n x :
  wf C L G n -> mentions x = None -> wf C L (<[n := x]> G) (S n).
Proof.
  intros W Hm.
  assert (Ho : owns x = None) by (destruct (owns x) eqn:E; [|done]; apply owns_mentions in E; congruence).
  assert (Hr : runs x = None)
    by (destruct (runs x) as [[]|] eqn:E; [|done]; apply runs_owns in E; congruence).
  assert (Hh : holds x = None)
    by (destruct (holds x) eqn:E; [|done]; apply holds_mentions in E; congruence).
  assert (Hn : G !! n = None).
  { destruct (G !! n) eqn:E; [|done]. apply (w_g W) in E. lia. }
  assert (Hold : forall (P : Goroutine -> Prop),
    (exists h z, G !! h = Some z /\ P z) -> exists h z, <[n := x]> G !! h = Some z /\ P z).
  { intros P (h & z & Hz & HP). exists h, z. rewrite lookup_insert_ne; [done|congruence]. }
  constructor.
  - intros h z Hz. lk; [lia|]. apply (w_g W) in Hz. lia.
  - intros c l Hl. apply (w_l W) in Hl. lia.
  - intros h z c Hz Hc. lk; try congruence. by eapply (w_m W).
  - intros k c Hc. by eapply Hold, (w_calls W).
  - intros h z k c Hz Hc. lk; try congruence. by eapply (w_runs W).
  - intros h1 h2 z1 z2 c Hz1 Hz2 Hc1 Hc2. lk; try congruence. by eapply (w_owns W).
  - intros c l Hl Hd. by eapply Hold, (w_pending W).
  - intros h z c Hz Hc. lk; try congruence. by eapply (w_holds W).
  - intros c l h Hl Hs. destruct (w_sem W _ _ _ Hl Hs) as (z & Hz & Hc).
    exists z. split; [|done]. rewrite lookup_insert_ne; [done|]. congruence.
Qed.

(** Registering a new load under a free key. *)
Lemma wf_register C L G n g k :
  wf C L G n -> G !! g = Some (GJoin k) -> C !! key k = None ->
  wf (<[key k := n]> C) (<[n := mkLoad None false None]> L) (<[g := GRecheck k n]> G) (S n).
Proof.
  intros W Hg Hk.
  assert (Hn : L !! n = None).
  { destruct (L !! n) eqn:E; [|done]. apply (w_l W) in E. lia. }
  assert (Hmn : forall h z c, G !! h = Some z -> mentions z = Some c -> c <> n).
  { intros h z c Hz Hc ->. destruct (w_m W _ _ _ Hz Hc). congruence. }
  constructor.
  - intros h z Hz. lk; [apply (w_g W) in Hg; lia|]. apply (w_g W) in Hz. lia.
  - intros c l Hl. lk; [lia|]. apply (w_l W) in Hl. lia.
  - intros h z c Hz Hc. lk; [by rewrite lookup_insert_eq|].
    rewrite lookup_insert_ne by (intros ->; by eapply Hmn). by eapply (w_m W).
  - intros k' c Hc. lk; [exists g, (GRecheck k n); by rewrite lookup_insert_eq|].
    eapply ex_moved; [done| |by eapply (w_calls W)]. done.
  - intros h z k' c Hz Hr. lk; [by rewrite lookup_insert_eq|].
    pose proof (w_runs W _ _ _ _ Hz Hr). rewrite lookup_insert_ne; [done|congruence].
  - intros h1 h2 z1 z2 c Hz1 Hz2 Hc1 Hc2. lk; [done| | |by eapply (w_owns W)].
    + by destruct (Hmn _ _ _ Hz1 (owns_mentions _ _ Hc1)).
    + by destruct (Hmn _ _ _ Hz2 (owns_mentions _ _ Hc2)).
  - intros c l Hl Hd. lk; [exists g, (GRecheck k n); by rewrite lookup_insert_eq|].
    eapply ex_moved; [done| |by eapply (w_pending W)]. done.
  - intros h z c Hz Hc. lk. rewrite lookup_insert_ne; [by eapply (w_holds W)|].
    intros <-. by eapply (Hmn _ _ _ Hz); [apply holds_mentions|].
  - intros c l h Hl Hs. lk. destruct (w_sem W _ _ _ Hl Hs) as (z & Hz & Hc).
    exists z. split; [|done]. rewrite lookup_insert_ne; [done|]. intros ->. by simplify_eq.
Qed.

(** Deregistering the goroutine's own load. *)
Lemma wf_deregister C L G n g k c o o' b :
  wf C L G n -> G !! g = Some (GFinish k c o) ->
  wf (delete (key k) C) L (<[g := GClose c o' b]> G) n.
Proof.
  intros W Hg.
  assert (Hk : C !! key k = Some c) by by eapply (w_runs W).
  constructor.
  - intros h z Hz. lk; by eapply (w_g W).
  - intros; by eapply (w_l W).
  - intros h z c' Hz Hc. lk; [by eapply (w_m W g)|]. by eapply (w_m W).
  - intros k' c' Hc. lk. destruct (w_calls W _ _ Hc) as (h & z & Hz & Hr).
    exists h, z. rewrite lookup_insert_ne; [done|]. intros ->. simplify_eq/=.
  - intros h z k' c' Hz Hr. lk. pose proof (w_runs W _ _ _ _ Hz Hr) as Hk'.
    rewrite lookup_delete_ne; [done|]. intros <-.
    assert (c' = c) as -> by congruence.
    assert (h = g); [|done].
    eapply (w_owns W); [done|exact Hg| |done]. by eapply runs_owns.
  - intros h1 h2 z1 z2 c' Hz1 Hz2 Hc1 Hc2. lk; [done| | |by eapply (w_owns W)].
    + symmetry. eapply (w_owns W); [exact Hg|done..].
    + eapply (w_owns W); [exact Hg|done..].
  - intros c' l Hl Hd. eapply ex_moved; [done| |by eapply (w_pending W)]. done.
  - intros h z c' Hz Hc. lk. by eapply (w_holds W).
  - intros c' l h Hl Hs. destruct (w_sem W _ _ _ Hl Hs) as (z & Hz & Hc).
    exists z. split; [|done]. rewrite lookup_insert_ne; [done|]. intros ->. by simplify_eq.
Qed.

(** Taking a free semaphore: the goroutine moves to a position that holds it. *)
Lemma wf_acquire C L G n g x x' c l i :
  wf C L G n -> G !! g = Some x -> L !! c = Some l -> al_sem l = None ->
  runs x' = runs x -> owns x' = owns x -> holds x = None -> holds x' = Some c ->
  mentions x' = mentions x ->
  wf C (<[c := mkLoad (Some g) i (al_done l)]> L) (<[g := x']> G) n.
Proof.
  intros W Hg Hc Hfree Hr Ho Hh Hh' Hm.
  assert (Hx : forall z h, <[g := x']> G !! h = Some z ->
    exists z0, G !! h = Some z0 /\ runs z = runs z0 /\ owns z = owns z0 /\ mentions z = mentions z0).
  { intros z h Hz. lk; [exists x|]; by repeat esplit. }
  constructor.
  - intros h z (z0 & Hz & _)%Hx. by eapply (w_g W).
  - intros c' l' Hl'. lk; by eapply (w_l W).
  - intros h z c' (z0 & Hz & _ & _ & ->)%Hx Hm'. apply lookup_insert_is_Some'. right. by eapply (w_m W).
  - intros k c' Hc'. eapply ex_moved; [done| |by eapply (w_calls W)]. by rewrite Hr.
  - intros h z k c' (z0 & Hz & -> & _)%Hx. by eapply (w_runs W).
  - intros h1 h2 z1 z2 c' (y1 & Hz1 & _ & -> & _)%Hx (y2 & Hz2 & _ & -> & _)%Hx. by eapply (w_owns W).
  - intros c' l' Hl Hd. eapply ex_moved; [done|by rewrite Ho|]. lk; by eapply (w_pending W).
  - intros h z c' Hz Hc'. destruct (decide (h = g)) as [->|Hne].
    + rewrite lookup_insert_eq in Hz. simplify_eq. rewrite lookup_insert_eq. eauto.
    + rewrite lookup_insert_ne in Hz by done. destruct (w_holds W _ _ _ Hz Hc') as (l' & Hl' & Hs).
      exists l'. rewrite lookup_insert_ne; [done|]. congruence.
  - intros c' l' h Hl Hs. lk; [by exists x'; rewrite lookup_insert_eq|].
    destruct (w_sem W _ _ _ Hl Hs) as (z & Hz & Hc').
    exists z. split; [|done]. rewrite lookup_insert_ne; [done|]. congruence.
Qed.

(** Releasing it. *)
Lemma wf_release C L G n g x x' c l :
  wf C L G n -> G !! g = Some x -> L !! c = Some l -> holds x = Some c -> holds x' = None ->
  runs x' = runs x -> owns x' = owns x ->
  (forall c', mentions x' = Some c' -> mentions x = Some c') ->
  wf C (<[c := mkLoad None (al_invalidated l) (al_done l)]> L) (<[g := x']> G) n.
Proof.
  intros W Hg Hc Hh Hh' Hr Ho Hm.
  assert (Hx : forall z h, <[g := x']> G !! h = Some z ->
    exists z0, G !! h = Some z0 /\ runs z = runs z0 /\ owns z = owns z0
      /\ forall c', mentions z = Some c' -> mentions z0 = Some c').
  { intros z h Hz. lk; [exists x|]; by repeat esplit. }
  constructor.
  - intros h z (z0 & Hz & _)%Hx. by eapply (w_g W).
  - intros c' l' Hl'. lk; by eapply (w_l W).
  - intros h z c' (z0 & Hz & _ & _ & Hz0)%Hx Hm'. apply lookup_insert_is_Some'. right. by eapply (w_m W), Hz0.
  - intros k c' Hc'. eapply ex_moved; [done| |by eapply (w_calls W)]. by rewrite Hr.
  - intros h z k c' (z0 & Hz & -> & _)%Hx. by eapply (w_runs W).
  - intros h1 h2 z1 z2 c' (y1 & Hz1 & _ & -> & _)%Hx (y2 & Hz2 & _ & -> & _)%Hx. by eapply (w_owns W).
  - intros c' l' Hl Hd. eapply ex_moved; [done|by rewrite Ho|]. lk; by eapply (w_pending W).
  - intros h z c' Hz Hc'. lk; try congruence.
    destruct (w_holds W _ _ _ Hz Hc') as (l' & Hl' & Hs).
    exists l'. rewrite lookup_insert_ne; [done|]. intros ->.
    destruct (w_holds W _ _ _ Hg Hh) as (l0 & Hl0 & Hs0). congruence.
  - intros c' l' h Hl Hs. lk.
    destruct (w_sem W _ _ _ Hl Hs) as (z & Hz & Hc').
    exists z. split; [|done]. rewrite lookup_insert_ne; [done|]. congruence.
Qed.

(** Waking the waiters of a deregistered load. *)
Lemma wf_close C L G n g c o b l r x' :
  wf C L G n -> G !! g = Some (GClose c o b) -> L !! c = Some l -> mentions x' = None ->
  wf C (<[c := mkLoad (al_sem l) (al_invalidated l) (Some r)]> L) (<[g := x']> G) n.
Proof.
  intros W Hg Hc Hm.
  assert (Ho : owns x' = None)
    by (destruct (owns x') eqn:E; [|done]; apply owns_mentions in E; congruence).
  assert (Hr : runs x' = None)
    by (destruct (runs x') as [[]|] eqn:E; [|done]; apply runs_owns in E; congruence).
  assert (Hh : holds x' = None)
    by (destruct (holds x') eqn:E; [|done]; apply holds_mentions in E; congruence).
  constructor.
  - intros h z Hz. lk; by eapply (w_g W).
  - intros c' l' Hl'. lk; by eapply (w_l W).
  - intros h z c' Hz Hm'. apply lookup_insert_is_Some'. right. lk; try congruence. by eapply (w_m W).
  - intros k c' Hc'. eapply ex_moved; [done| |by eapply (w_calls W)]. done.
  - intros h z k c' Hz Hr'. lk; try congruence. by eapply (w_runs W).
  - intros h1 h2 z1 z2 c' Hz1 Hz2 Hc1 Hc2. lk; try congruence. by eapply (w_owns W).
  - intros c' l' Hl Hd. lk. destruct (w_pending W _ _ Hl Hd) as (h & z & Hz & Hz').
    exists h, z. split; [|done]. rewrite lookup_insert_ne; [done|]. intros ->. by simplify_eq/=.
  - intros h z c' Hz Hc'. lk; try congruence.
    destruct (w_holds W _ _ _ Hz Hc') as (l' & Hl' & Hs).
    destruct (decide (c = c')) as [->|]; [rewrite lookup_insert_eq|rewrite lookup_insert_ne by done];
      simplify_eq; eauto.
  - intros c' l' h Hl Hs.
    assert (exists l0, L !! c' = Some l0 /\ al_sem l0 = Some h) as (l0 & Hl0 & Hs0) by (lk; eauto).
    destruct (w_sem W _ _ _ Hl0 Hs0) as (z & Hz & Hc').
    exists z. split; [|done]. rewrite lookup_insert_ne; [done|]. intros ->. by simplify_eq.
Qed.

(** ** Every reachable state *)

Definition sys_wf (y : Sys) : Prop := wf (calls y) (loads y) (gs y) (clock y).

Lemma log_write_wf k v ttl now who y :
  sys_wf y -> sys_wf (log_write Marshal namespace k v ttl now who y).
Proof. unfold log_write. by destruct (Marshal v). Qed.

Ltac mentions_side := simpl; intros; simplify_eq; eauto.

Lemma load_step_wf g x canceled now res ttl y y' :
  sys_wf y -> gs y !! g = Some x -> step g x canceled now res ttl y = Some y' -> sys_wf y'.
Proof.
  intros W Hg. unfold CacheLoad.step.
  destruct x; intros E; repeat (go_case; simplify_eq/=); simplify_eq/=;
    try apply log_write_wf;
    try (by eapply wf_move; [done|done|done..|mentions_side]);
    try (by eapply wf_acquire; [done|done|done|done|done..]);
    try (by eapply wf_release; [done|done|done|done|done|done|done|mentions_side]);
    try (by eapply wf_deregister).
  - unfold join. destruct (calls y !! key k) eqn:Ek.
    + by eapply wf_move; [done|done|done..|mentions_side].
    + by apply wf_register.
  - apply wf_clock. by eapply wf_move; [done|done|done..|mentions_side].
  - by eapply wf_close.
Qed.

Lemma exec1_wf a y y' : sys_wf y -> exec1 a y = Some y' -> sys_wf y'.
Proof.
  intros W. destruct a; simpl; intros; simplify_eq; try by apply wf_spawn.
  destruct (gs y !! g) eqn:Hg; [|done]. by eapply load_step_wf.
Qed.

(** ** Deletions and the loads they overlap *)

(** Inside the load function or about to publish: the full key, the load and its stamp. *)
Definition loading (x : Goroutine) : option (string * nat * nat) :=
match x with
| GLoading k c s | GLoaded k c s _ | GPublish k c s _ => Some (key k, c, s)
| _ => None
end.

Definition publishing (x : Goroutine) : bool :=
match x with GPublish _ _ _ _ => true | _ => false end.

(** A deletion past its invalidation. *)
Definition fence (x : Goroutine) : option (string * nat) :=
match x with
| DRelease k t _ | DStore k t | DDeleted k t => Some (key k, t)
| _ => None
end.

(** A deletion that has found the load to invalidate. *)
Definition target (x : Goroutine) : option (string * nat * nat) :=
match x with
| DInvalidate k t c => Some (key k, t, c)
| _ => None
end.

Definition stamp_of (x : Goroutine) : option nat :=
match x with
| DLookup _ t | DInvalidate _ t _ | DRelease _ t _ | DStore _ t | DDeleted _ t => Some t
| _ => None
end.

Definition invalid (L : gmap nat activeLoad) (c : nat) : Prop :=
exists l, L !! c = Some l /\ al_invalidated l = true.

Record dl (L : gmap nat activeLoad) (G : gmap nat Goroutine) (n : nat) : Prop := {
  d_stamp g x t : G !! g = Some x -> stamp_of x = Some t -> (t < n)%nat;
  d_fence d dx g x k t c s :
    G !! d = Some dx -> G !! g = Some x -> fence dx = Some (k, t) ->
    loading x = Some (k, c, s) -> (s <= t)%nat -> invalid L c /\ publishing x = false;
  d_target d dx g x k t c c' s :
    G !! d = Some dx -> G !! g = Some x -> target dx = Some (k, t, c) ->
    loading x = Some (k, c', s) -> (s <= t)%nat -> c' = c
}.
Arguments d_stamp {L G n}.
Arguments d_fence {L G n}.
Arguments d_target {L G n}.

Lemma loading_runs x k c s : loading x = Some (k, c, s) -> runs x = Some (k, c).
Proof. by destruct x; simpl; intros; simplify_eq. Qed.

Lemma fence_stamp x k t : fence x = Some (k, t) -> stamp_of x = Some t.
Proof. by destruct x; simpl; intros; simplify_eq. Qed.

Lemma target_stamp x k t c : target x = Some (k, t, c) -> stamp_of x = Some t.
Proof. by destruct x; simpl; intros; simplify_eq. Qed.

Lemma loading_stamp x q : loading x = Some q -> stamp_of x = None.
Proof. by destruct x. Qed.

(** One goroutine moves: it may start loading with a new stamp, stay in its load or leave
    it, become the deletion of the loads [Hfence] speaks of, or pick its target. *)
Lemma dl_move L L' G n n' g x x' :
  dl L G n -> G !! g = Some x -> (n <= n')%nat ->
  (forall c, invalid L c -> invalid L' c) ->
  (forall t, stamp_of x' = Some t -> (t < n')%nat) ->
  (forall k c s, loading x' = Some (k, c, s) ->
     (n <= s)%nat \/
     loading x = Some (k, c, s) /\ (publishing x' = true -> publishing x = true \/ ~ invalid L c)) ->
  (forall h z k c s t, G !! h = Some z -> loading z = Some (k, c, s) -> fence x' = Some (k, t) ->
     (s <= t)%nat -> invalid L' c /\ publishing z = false) ->
  (forall h z k c c' s t, G !! h = Some z -> loading z = Some (k, c', s) ->
     target x' = Some (k, t, c) -> (s <= t)%nat -> c' = c) ->
  dl L' (<[g := x']> G) n'.
Proof.
  intros D Hg Hn HL Ht Hl Hf Htg. constructor.
  - intros h z t Hz Hz'. lk; [by apply Ht|]. pose proof (d_stamp D _ _ _ Hz Hz'). lia.
  - intros d dx h z k t c s Hd Hz Hf' Hl' Hs. lk.
    + apply fence_stamp in Hf'. apply loading_stamp in Hl'. congruence.
    + pose proof (fence_stamp _ _ _ Hf') as Hst. pose proof (d_stamp D _ _ _ Hd Hst).
      destruct (Hl _ _ _ Hl') as [?|[Hl0 Hp]]; [lia|].
      destruct (d_fence D _ _ _ _ _ _ _ _ Hd Hg Hf' Hl0 Hs) as [Hi Hp0]. split; [by apply HL|].
      destruct (publishing x'); [|done]. by destruct (Hp eq_refl) as [?|[]]; [congruence|].
    + by eapply Hf.
    + destruct (d_fence D _ _ _ _ _ _ _ _ Hd Hz Hf' Hl' Hs) as [Hi Hp0]. split; [by apply HL|done].
  - intros d dx h z k t c c' s Hd Hz Htg' Hl' Hs. lk.
    + apply target_stamp in Htg'. apply loading_stamp in Hl'. congruence.
    + pose proof (target_stamp _ _ _ _ Htg') as Hst. pose proof (d_stamp D _ _ _ Hd Hst).
      destruct (Hl _ _ _ Hl') as [?|[Hl0 _]]; [lia|]. exact (d_target D _ _ _ _ _ _ _ _ _ Hd Hg Htg' Hl0 Hs).
    + by eapply Htg.
    + exact (d_target D _ _ _ _ _ _ _ _ _ Hd Hz Htg' Hl' Hs).
Qed.

Definition sys_dl (y : Sys) : Prop := dl (loads y) (gs y) (clock y).

Lemma log_write_dl k v ttl now who y :
  sys_dl y -> sys_dl (log_write Marshal namespace k v ttl now who y).
Proof. unfold log_write. by destruct (Marshal v). Qed.

Lemma invalid_insert (L : gmap nat activeLoad) c l' :
  (forall l, L !! c = Some l -> al_invalidated l = true -> al_invalidated l' = true) ->
  forall c', invalid L c' -> invalid (<[c := l']> L) c'.
Proof.
  intros Hi c' (l & Hl & Hv). destruct (decide (c = c')) as [->|].
  - exists l'. rewrite lookup_insert_eq. eauto.
  - exists l. by rewrite lookup_insert_ne.
Qed.

(** The publishing goroutine holds its load's semaphore. *)
Lemma not_publishing y h z k c s l :
  sys_wf y -> gs y !! h = Some z -> loading z = Some (k, c, s) ->
  loads y !! c = Some l -> al_sem l = None -> publishing z = false.
Proof.
  intros W Hz Hl Hc Hs. destruct z; try done. simplify_eq/=.
  destruct (w_holds W _ _ _ Hz eq_refl) as (l' & ? & ?). congruence.
Qed.

Ltac dl_side :=
  simpl; intros; simplify_eq/=; first
    [ done | lia | by right | by eauto | by eapply d_stamp
    | by eapply Nat.lt_le_trans; [eapply d_stamp|]
    | by eapply invalid_insert; [intros; simplify_eq/=|]
    | idtac ].
Ltac dl_go D Hg := eapply dl_move; [exact D|exact Hg|simpl; lia| | | | |]; dl_side.

Lemma join_dl g k y : sys_wf y -> sys_dl y -> gs y !! g = Some (GJoin k) -> sys_dl (join namespace g k y).
Proof.
  intros W D Hg. unfold join. destruct (calls y !! key k) eqn:E; [by dl_go D Hg|].
  dl_go D Hg. apply invalid_insert; [|done]. intros l Hl. apply (w_l W) in Hl. lia.
Qed.

(** Once a deletion holds the semaphore and marks the load, no older load publishes. *)
Lemma invalidate_dl g k t c l y :
  sys_wf y -> sys_dl y -> gs y !! g = Some (DInvalidate k t c) -> loads y !! c = Some l ->
  al_sem l = None ->
  sys_dl (set_g g (DRelease k t c) (set_load c (mkLoad (Some g) true (al_done l)) y)).
Proof.
  intros W D Hg Hl Hs. dl_go D Hg.
  match goal with Hz : gs y !! ?h = Some ?z, Hld : loading ?z = Some (?k', ?c', ?s), Ht : (?s <= _)%nat |- _ =>
    pose proof (d_target D _ _ _ _ _ _ _ _ _ Hg Hz eq_refl Hld Ht); subst c';
    split; [exists (mkLoad (Some g) true (al_done l)); by rewrite lookup_insert_eq|];
    exact (not_publishing _ _ _ _ _ _ _ W Hz Hld Hl Hs)
  end.
Qed.

Lemma step_dl g x canceled now res ttl y y' :
  sys_wf y -> sys_dl y -> gs y !! g = Some x -> step g x canceled now res ttl y = Some y' -> sys_dl y'.
Proof.
  intros W D Hg. unfold CacheLoad.step.
  destruct x; intros E; repeat (go_case; simplify_eq/=); simplify_eq/=;
    try apply log_write_dl;
    try (dl_go D Hg; fail);
    try by apply join_dl.
  - dl_go D Hg.
    + eapply invalid_insert; [|done]. intros. simplify_eq/=. congruence.
    + right. split; [done|]. intros _. right. intros (l & ? & ?). congruence.
  - dl_go D Hg. pose proof (w_runs W _ _ _ _ ltac:(eassumption) (loading_runs _ _ _ _ ltac:(eassumption))).
    congruence.
  - dl_go D Hg. pose proof (w_runs W _ _ _ _ ltac:(eassumption) (loading_runs _ _ _ _ ltac:(eassumption))).
    congruence.
  - by apply invalidate_dl.
  - dl_go D Hg. destruct (d_fence D g _ h z _ _ _ _ Hg ltac:(done) eq_refl ltac:(done) ltac:(done)) as [? ->].
    split; [|done]. eapply invalid_insert; [intros; simplify_eq/=|]; done.
  - dl_go D Hg. by apply (d_fence D g _ h z _ _ _ _ Hg ltac:(done) eq_refl ltac:(done)).
Qed.

(** ** What the store holds *)

Record wr (y : Sys) : Prop := {
  r_inv : store_inv (store y);
  r_written k e : contents (store y) !! k = Some e -> exists who, (e, who) ∈ written k y;
  r_after d k t e s :
    gs y !! d = Some (DDeleted k t) -> (e, Some s) ∈ written (key k) y -> (t < s)%nat
}.

Definition not_deleted (x : Goroutine) : Prop := match x with DDeleted _ _ => False | _ => True end.

Lemma wr_move y s C L G n g x :
  wr y -> store_inv s -> contents s ⊆ contents (store y) -> G = <[g := x]> (gs y) -> not_deleted x ->
  wr (mkSys s C L G n (writes y)).
Proof.
  intros W Hs Hc -> Hx. constructor; simpl; [done| |].
  - intros k e He. apply (r_written y W). by eapply lookup_weaken.
  - intros d k t e st Hd. apply lookup_insert_Some in Hd as [[_ ->]|[_ Hd]]; [done|].
    exact (r_after y W _ _ _ _ _ Hd).
Qed.

Lemma wr_write k v ttl now who canceled y :
  wr y -> (forall st d k' t, who = Some st -> gs y !! d = Some (DDeleted k' t) -> key k' = key k -> (t < st)%nat) ->
  wr (log_write Marshal namespace k v ttl now who
        (set_st (Set_ Marshal namespace canceled k v ttl now (store y)).1 y)).
Proof.
  intros W Hwho. unfold log_write, Set_. destruct (Marshal v) as [data|]; [|by destruct y].
  set (e := entry_of now data ttl). constructor; simpl.
  - apply set_inv, W.
  - intros k' e' He'. unfold written; simpl.
    apply set_contents in He' as [He'|[-> ->]]; [|by exists who; rewrite lookup_insert_eq; left|apply W].
    destruct (r_written y W _ _ He') as [who' Hw]. exists who'.
    destruct (decide (k' = key k)) as [->|Hne]; [rewrite lookup_insert_eq; by right|].
    by rewrite lookup_insert_ne.
  - intros d k' t e' st Hd. unfold written; simpl. destruct (decide (key k' = key k)) as [Ek|Hne].
    + rewrite Ek, lookup_insert_eq. simpl. intros [[= _ Hst]|Hin]%elem_of_cons; [by eapply Hwho|].
      eapply (r_after y W); [done|]. by rewrite Ek.
    + rewrite lookup_insert_ne by done. exact (r_after y W _ _ _ _ _ Hd).
Qed.

Lemma wr_delete g k t canceled y :
  wr y -> (s_Delete canceled (key k) (store y)).2 = None ->
  wr (log_delete namespace k (set_g g (DDeleted k t) (set_st (s_Delete canceled (key k) (store y)).1 y))).
Proof.
  intros W Hok. constructor; simpl.
  - apply delete_inv, W.
  - intros k' e He. unfold written; simpl.
    rewrite lookup_delete_ne; [apply (r_written y W); eapply lookup_weaken; [done|]; apply delete_contents, W|].
    intros <-. rewrite (delete_result _ _ _ (r_inv y W) Hok) in He. done.
  - intros d k' t' e st Hd. unfold written; simpl. destruct (decide (key k' = key k)) as [->|Hne].
    + rewrite lookup_delete_eq. by intros ?%not_elem_of_nil.
    + rewrite lookup_delete_ne by done.
      apply lookup_insert_Some in Hd as [[_ [= -> ->]]|[_ Hd]]; [done|]. exact (r_after y W _ _ _ _ _ Hd).
Qed.

Lemma lookupOrMiss_wr canceled k now y :
  wr y -> store_inv (lookupOrMiss Unmarshal namespace canceled k now (store y)).1 /\
    contents (lookupOrMiss Unmarshal namespace canceled k now (store y)).1 ⊆ contents (store y).
Proof.
  intros W. pose proof (get_inv canceled (key k) now _ (r_inv y W)) as Hi.
  pose proof (get_contents canceled (key k) now _ (r_inv y W)) as Hc.
  unfold lookupOrMiss, lookup. destruct (s_Get _ _ _ _) as [s r]. by go_cases.
Qed.

Lemma step_wr g x canceled now res ttl y y' :
  sys_dl y -> wr y -> gs y !! g = Some x -> step g x canceled now res ttl y = Some y' -> wr y'.
Proof.
  intros D W Hg. unfold CacheLoad.step.
  pose proof (fun k => lookupOrMiss_wr canceled k now y W) as Hlk.
  destruct x; try specialize (Hlk k); intros E.
  all: try (repeat (go_case; simplify_eq/=); simplify_eq/=;
    try (by eapply (wr_move y); [exact W|apply W|done|done|done]);
    try (by eapply (wr_move y); [exact W|apply Hlk|apply Hlk|done|done]); fail).
  - unfold join in E. by go_cases; (eapply (wr_move y); [exact W|apply W|done|done|done]).
  - destruct (Set_ _ _ _ _ _ _ _ _) as [s r] eqn:Es. simplify_eq.
    assert (s = (Set_ Marshal namespace canceled k v ttl now (store y)).1) as -> by by rewrite Es.
    apply (wr_write k v ttl now (Some stamp) canceled (set_g g (GRelease k c (OVal v)) y)).
    + by destruct y; eapply (wr_move (mkSys _ _ _ _ _ _)); [exact W|apply W|done|done|done].
    + intros st d k' t [= <-] Hd Ek. simpl in Hd.
      apply lookup_insert_Some in Hd as [[_ ?]|[_ Hd]]; [done|].
      destruct (decide (stamp <= t)%nat) as [Hle|]; [|lia].
      destruct (d_fence D _ _ _ _ _ _ _ _ Hd Hg eq_refl ltac:(by rewrite Ek) Hle). done.
  - destruct (s_Delete _ _ _) as [s r] eqn:Es.
    assert (s = (s_Delete canceled (key k) (store y)).1) as -> by by rewrite Es.
    destruct r; simplify_eq.
    + eapply (wr_move y); [exact W|apply delete_inv, W|apply delete_contents, W|done|done].
    + apply (wr_delete g k stamp canceled y W). by rewrite Es.
  - destruct (Set_ _ _ _ _ _ _ _ _) as [s r] eqn:Es. simplify_eq.
    assert (s = (Set_ Marshal namespace canceled k v ttl0 now (store y)).1) as -> by by rewrite Es.
    apply (wr_write k v ttl0 now None canceled (set_g g SReturned y)); [|done].
    by destruct y; eapply (wr_move (mkSys _ _ _ _ _ _)); [exact W|apply W|done|done|done].
Qed.

Definition sys_ok (y : Sys) : Prop := sys_wf y /\ sys_dl y /\ wr y.

Lemma initial_ok s : store_inv s -> contents s = ∅ -> sys_ok (initial s).
Proof.
  intros Hs He. split_and!.
  - constructor; simpl; intros; simplify_map_eq.
  - constructor; simpl; intros; simplify_map_eq.
  - constructor; simpl; [done| |].
    + intros k e. by rewrite He, lookup_empty.
    + intros; simplify_map_eq.
Qed.

Lemma spawn_dl x y :
  sys_wf y -> sys_dl y -> loading x = None -> fence x = None -> target x = None ->
  (forall t, stamp_of x = Some t -> t = clock y) -> sys_dl (spawn x y).
Proof.
  intros W D Hl Hf Ht Hs.
  constructor; simpl.
  - intros h z t Hz Hz'. apply lookup_insert_Some in Hz as [[_ <-]|[_ Hz]].
    + apply Hs in Hz'. lia.
    + pose proof (d_stamp D _ _ _ Hz Hz'). lia.
  - intros d dx h z k t c s Hd Hz Hf' Hl' Hle.
    apply lookup_insert_Some in Hd as [[_ <-]|[_ Hd]], Hz as [[_ <-]|[_ Hz]]; try congruence.
    by eapply (d_fence D d _ h z).
  - intros d dx h z k t c c' s Hd Hz Hf' Hl' Hle.
    apply lookup_insert_Some in Hd as [[_ <-]|[_ Hd]], Hz as [[_ <-]|[_ Hz]]; try congruence.
    by eapply (d_target D d _ h z).
Qed.

Lemma exec1_ok a y y' : sys_ok y -> exec1 a y = Some y' -> sys_ok y'.
Proof.
  intros (W & D & R) E. split_and!; [by eapply exec1_wf| |].
  - destruct a; simplify_eq/=; try by apply spawn_dl; [..|intros; simplify_eq/=].
    destruct (gs y !! g) eqn:Hg; [|done]. by eapply step_dl.
  - destruct a; simplify_eq/=; try by eapply (wr_move y); [exact R|apply R|done|done|done].
    destruct (gs y !! g) eqn:Hg; [|done]. by eapply step_wr.
Qed.

Lemma exec_ok l y y' : sys_ok y -> exec l y = Some y' -> sys_ok y'.
Proof.
  revert y. induction l as [|a l IH]; simpl; intros y Hy E; [by simplify_eq|].
  destruct (exec1 a y) as [y1|] eqn:E1; [|done]. eapply IH; [|done]. by eapply exec1_ok.
Qed.

(** ** The theorems *)

(** C6: at most one goroutine of the cache is inside [load] (or on the way there) for a
    key, whatever the interleaving of loads, deletions and writes. *)
Theorem single_flight l s y g1 g2 x1 x2 k c1 c2 :
  store_inv s -> contents s = ∅ -> exec l (initial s) = Some y ->
  gs y !! g1 = Some x1 -> gs y !! g2 = Some x2 ->
  runs x1 = Some (k, c1) -> runs x2 = Some (k, c2) -> g1 = g2.
Proof.
  intros Hs He E H1 H2 R1 R2.
  destruct (exec_ok _ _ _ (initial_ok _ Hs He) E) as (W & _ & _).
  pose proof (w_runs W _ _ _ _ H1 R1) as C1. pose proof (w_runs W _ _ _ _ H2 R2) as C2.
  eapply (w_owns W g1 g2); [done|done|by eapply runs_owns|]. apply (runs_owns _ k). congruence.
Qed.

(** C5: once [Delete] has returned nil, an entry the store still has under the key was
    written by a [Set], or by a load whose function started after [Delete] was called. *)
Theorem delete_wins_over_running_loads l s y d k t e :
  store_inv s -> contents s = ∅ -> exec l (initial s) = Some y ->
  gs y !! d = Some (DDeleted k t) -> contents (store y) !! key k = Some e ->
  exists who, (e, who) ∈ written (key k) y /\ forall stamp, who = Some stamp -> (t < stamp)%nat.
Proof.
  intros Hs He E Hd Hc. destruct (exec_ok _ _ _ (initial_ok _ Hs He) E) as (_ & _ & R).
  destruct (r_written y R _ _ Hc) as [who Hw]. exists who. split; [done|].
  intros stamp ->. by eapply (r_after y R).
Qed.

Definition terminal (x : Goroutine) : bool :=
match x with GReturned _ | DDeleted _ _ | DFailed | SReturned => true | _ => false end.

(** A goroutine that is neither finished nor waiting can take its step. *)
Lemma step_blocked y g x now res ttl :
  sys_wf y -> gs y !! g = Some x -> step g x false now res ttl y = None ->
  terminal x = true \/
  exists c l, loads y !! c = Some l /\ holds x = None /\
    (owns x = None /\ al_done l = None /\ mentions x = Some c \/ exists h, al_sem l = Some h).
Proof.
  intros W Hg E. destruct (mentions x) as [c|] eqn:Hm.
  - destruct (w_m W _ _ _ Hg Hm) as [l Hl].
    destruct x; simplify_eq/=; rewrite ?Hl in E; try (by left); right; exists c, l; go_cases;
      rewrite ?Hl in *; simplify_eq; eauto 10.
  - destruct x; simplify_eq/=; try (by left); go_cases.
Qed.

Lemma holder_steps y h z c now res ttl :
  sys_wf y -> gs y !! h = Some z -> holds z = Some c -> step h z false now res ttl y <> None.
Proof.
  intros W Hz Hc E. destruct (step_blocked _ _ _ _ _ _ W Hz E) as [|(? & ? & ? & ? & _)]; [|congruence].
  by destruct z.
Qed.

(** C39: no interleaving of the cache's own waits deadlocks, on the condition that the
    load functions come back: a load is one step here, one that returns without waiting
    for another call of the cache. A load that calls [GetOrLoad] for its own key, or for a
    key whose load waits for it, waits for itself, as the comment of [GetOrLoad] says. On
    that condition, while some call has not returned, some goroutine can take a step,
    without any context being cancelled. *)
Theorem cache_loads_never_deadlock l s y g x now res ttl :
  store_inv s -> contents s = ∅ -> exec l (initial s) = Some y ->
  gs y !! g = Some x -> terminal x = false ->
  exists h y', exec1 (AStep h false now res ttl) y = Some y'.
Proof.
  intros Hs He E Hg Hx. destruct (exec_ok _ _ _ (initial_ok _ Hs He) E) as (W & _ & _).
  assert (Hgo : forall h z, gs y !! h = Some z -> step h z false now res ttl y <> None ->
    exists h y', exec1 (AStep h false now res ttl) y = Some y').
  { intros h z Hz Hn. exists h. simpl. rewrite Hz. destruct (step _ _ _ _ _ _ _); eauto; done. }
  assert (Hsem : forall c l h, loads y !! c = Some l -> al_sem l = Some h ->
    exists h y', exec1 (AStep h false now res ttl) y = Some y').
  { intros c l' h Hl Hh. destruct (w_sem W _ _ _ Hl Hh) as (z & Hz & Hc).
    eapply Hgo; [exact Hz|]. by eapply holder_steps. }
  destruct (step g x false now res ttl y) eqn:Es; [by eapply Hgo; [exact Hg|congruence]|].
  destruct (step_blocked _ _ _ _ _ _ W Hg Es) as [?|(c & l' & Hl & _ & [(_ & Hd & _)|[h Hh]])];
    [congruence| |by eapply Hsem].
  destruct (w_pending W _ _ Hl Hd) as (h & z & Hz & Ho).
  destruct (step h z false now res ttl y) eqn:Es'; [by eapply Hgo; [exact Hz|congruence]|].
  destruct (step_blocked _ _ _ _ _ _ W Hz Es') as [?|(c' & l2 & Hl2 & _ & [(? & _)|[h' Hh']])];
    [by destruct z|congruence|by eapply Hsem].
Qed.
End spec.

(** ** The in-process store is lawful *)

#[export] Instance memory_store : Store MemoryStore := {
  s_Get := CacheStore.Get;
  s_Set := CacheStore.Set_;
  s_Delete := CacheStore.Delete
}.

Definition memory_contents (m : MemoryStore) : gmap string Entry := list_to_map (abs m).

Lemma spec_lookup_cons k k' e l :
  spec_lookup k ((k', e) :: l) = if decide (k' = k) then Some e else spec_lookup k l.
Proof.
  unfold spec_lookup. simpl. case_decide; [done|].
  by destruct (list_find _ l) as [[? []]|].
Qed.

Lemma memory_contents_lookup m k : memory_contents m !! k = spec_lookup k (abs m).
Proof.
  unfold memory_contents. induction (abs m) as [|[k' e] l IH]; [done|].
  rewrite spec_lookup_cons. simpl. rewrite lookup_insert. by case_decide.
Qed.

Lemma spec_lookup_remove k k' l :
  spec_lookup k' (spec_remove k l) = if decide (k' = k) then None else spec_lookup k' l.
Proof.
  unfold spec_remove. induction l as [|[k0 e] l IH]; [by case_decide|].
  rewrite filter_cons. destruct (decide ((k0, e).1 <> k)) as [Hk|Hk]; simpl in Hk.
  - rewrite !spec_lookup_cons, IH. repeat case_decide; congruence.
  - rewrite spec_lookup_cons, IH. apply dec_stable in Hk. repeat case_decide; congruence.
Qed.

Lemma spec_lookup_take k n l e : spec_lookup k (take n l) = Some e -> spec_lookup k l = Some e.
Proof.
  revert n. induction l as [|[k0 e0] l IH]; intros [|n]; try done. simpl. rewrite !spec_lookup_cons.
  case_decide; [done|]. apply IH.
Qed.

Lemma move_front_lookup k k' e l : spec_lookup k' ((k, e) :: spec_remove k l) =
  if decide (k' = k) then Some e else spec_lookup k' l.
Proof. rewrite spec_lookup_cons, spec_lookup_remove. repeat case_decide; congruence. Qed.

Lemma memory_get c k now m : lru_ok m ->
  lru_ok (CacheStore.Get c k now m).1 /\
  memory_contents (CacheStore.Get c k now m).1 ⊆ memory_contents m /\
  forall e, (CacheStore.Get c k now m).2 = Ok (Some e) -> memory_contents m !! k = Some e.
Proof.
  intros H. destruct (opNow c now) eqn:E; [unfold CacheStore.Get; rewrite E; done|].
  destruct (Get_refines c k now m H E) as [H1 H2]. revert H2. unfold spec_get.
  destruct (spec_lookup k (abs m)) as [e|] eqn:Hk; simpl; intros [= H2 H3].
  - split_and!; [done| |].
    + apply map_subseteq_spec. intros k' e'. rewrite !memory_contents_lookup, H2.
      destruct (expired e now); rewrite ?move_front_lookup, ?spec_lookup_remove; case_decide; congruence.
    + rewrite H3, memory_contents_lookup. by intros e' [= <-].
  - split_and!; [done| |by rewrite H3].
    apply map_subseteq_spec. intros k' e'. by rewrite !memory_contents_lookup, H2.
Qed.

Lemma memory_set c k e m k' e' : lru_ok m ->
  memory_contents (CacheStore.Set_ c k e m).1 !! k' = Some e' ->
  memory_contents m !! k' = Some e' \/ k' = k /\ e' = e.
Proof.
  intros H. destruct (opExpiry c (Expires e)) eqn:E.
  - unfold CacheStore.Set_. rewrite E. by left.
  - destruct (Set_refines c k e m H E) as (_ & _ & Habs).
    assert (Hmv : spec_lookup k' ((k, e) :: spec_remove k (abs m)) = Some e' ->
      memory_contents m !! k' = Some e' \/ k' = k /\ e' = e).
    { rewrite move_front_lookup, memory_contents_lookup. case_decide; [|by left].
      intros [= <-]. by right. }
    rewrite memory_contents_lookup, Habs. unfold spec_set. go_cases; auto.
    intros ?%spec_lookup_take. auto.
Qed.

Lemma memory_set_ok c k e m : lru_ok m -> lru_ok (CacheStore.Set_ c k e m).1.
Proof.
  intros H. destruct (opExpiry c (Expires e)) eqn:E; [unfold CacheStore.Set_; by rewrite E|].
  apply (Set_refines c k e m H E).
Qed.

Lemma memory_delete c k m : lru_ok m ->
  lru_ok (CacheStore.Delete c k m).1 /\
  memory_contents (CacheStore.Delete c k m).1 ⊆ memory_contents m /\
  ((CacheStore.Delete c k m).2 = None -> memory_contents (CacheStore.Delete c k m).1 !! k = None).
Proof.
  intros H. destruct c; [done|]. destruct (Delete_refines k m H) as (H1 & _ & H2). split_and!; [done| |].
  - apply map_subseteq_spec. intros k' e'. rewrite !memory_contents_lookup, H2, spec_lookup_remove.
    by case_decide.
  - intros _. rewrite memory_contents_lookup, H2, spec_lookup_remove. by case_decide.
Qed.

#[export] Instance memory_lawful : LawfulStore MemoryStore.
Proof.
  refine {| store_inv := lru_ok; contents := memory_contents |}.
  all: intros.
  - by apply memory_get.
  - by apply memory_set_ok.
  - by apply memory_delete.
  - by apply memory_get.
  - eapply memory_get; [done|]. eassumption.
  - by eapply memory_set.
  - by apply memory_delete.
  - by apply memory_delete.
Defined.

(** ** A run *)

Definition str_marshal (v : string) : option string := Some v.
Definition str_unmarshal (s : string) : option string := Some s.
Definition ex_store : MemoryStore := NewMemoryStore 0.
Definition ex_exec (l : list (Action string)) : option (Sys MemoryStore string) :=
  CacheLoad.exec str_marshal str_unmarshal "" l (initial ex_store).

Definition go (g : nat) : Action string := AStep g false Second (OVal "v"%string) 0.

(** Two calls for one key, of which the first loads; a deletion overlaps the load. *)
Definition ex_overlap : list (Action string) :=
  [ASpawnLoad "k"; go 0; ASpawnLoad "k"; go 1; go 0; go 1; go 0; go 0; ASpawnDelete "k";
   go 4; go 0; go 4; go 4; go 4].

(** The overlapped load returns without storing its value; a later one stores it. *)
Definition ex_later : list (Action string) :=
  ex_overlap ++ [go 0; go 0; go 0; go 0; ASpawnLoad "k"] ++ replicate 7 (go 5).

Definition ex_state (l : list (Action string)) : Sys MemoryStore string :=
  default (initial ex_store) (ex_exec l).

Example ex_overlap_state :
  gs (ex_state ex_overlap) !! 0%nat = Some (GLoaded "k" 2 3 "v"%string) /\
  gs (ex_state ex_overlap) !! 1%nat = Some (GWait "k" 2) /\
  gs (ex_state ex_overlap) !! 4%nat = Some (DDeleted "k" 4).
Proof. by vm_compute. Qed.

Example ex_later_state :
  gs (ex_state ex_later) !! 0%nat = Some (GReturned (OVal "v"%string)) /\
  written "k" (ex_state ex_later) = [(mkEntry "v" zero_time, Some 7%nat)].
Proof. by vm_compute. Qed.

Lemma single_flight_witness :
  runs "" (GLoaded "k" 2 3 "v"%string) = Some ("k"%string, 2%nat) /\ 0%nat = 0%nat.
Proof.
  split; [reflexivity|].
  apply (single_flight str_marshal str_unmarshal "" ex_overlap ex_store (ex_state ex_overlap) 0 0
           (GLoaded "k" 2 3 "v"%string) (GLoaded "k" 2 3 "v"%string) "k" 2 2);
    [apply New_ok|vm_compute; reflexivity..].
Defined.

Lemma delete_wins_witness :
  contents (store (ex_state ex_later)) !! "k"%string = Some (mkEntry "v" zero_time) /\
  exists who, (mkEntry "v" zero_time, who) ∈ written "k" (ex_state ex_later) /\
    forall stamp, who = Some stamp -> (4 < stamp)%nat.
Proof.
  split; [vm_compute; reflexivity|].
  apply (delete_wins_over_running_loads str_marshal str_unmarshal "" ex_later ex_store
           (ex_state ex_later) 4 "k" 4); [apply New_ok|vm_compute; reflexivity..].
Defined.

Lemma never_deadlock_witness :
  gs (ex_state ex_overlap) !! 1%nat = Some (GWait "k" 2) /\
  exists h y', CacheLoad.exec1 str_marshal str_unmarshal "" (AStep h false Second OPanic 0)
                 (ex_state ex_overlap) = Some y'.
Proof.
  split; [vm_compute; reflexivity|].
  apply (cache_loads_never_deadlock str_marshal str_unmarshal "" ex_overlap ex_store
           (ex_state ex_overlap) 1 (GWait "k" 2)); [apply New_ok|vm_compute; reflexivity..].
Defined.
