(* ===== verification/SessionStore.v ===== *)
(** Session records and the in-process session store: [session/store.go] and
    [session/store_memory.go].

    A method is one step under the mutex. A method that samples the clock once per record
    takes the samples as a function of the session ID. Payload copies are values. *)

From S2P Require Import Prelude.
From S2P Require Import GoTime.

Local Open Scope Z_scope.

(** ** Records *)

Record Rec := mkRec {
  SID : string;
  Version : Z;                 (** [uint64] *)
  UserID : string;
  AbsoluteExpiry : Time;
  IdleExpiry : Time;
  Payload : string
}.

Inductive Error :=
| ErrNotFound
| ErrVersionConflict
| ErrAlreadyCommitted
| ErrCanceled
| EEmptySID
| EMalformed                   (** an undecodable payload envelope *)
| EEncode                      (** an unencodable one *)
| EGenerate                    (** the SID generator failed *)
| EMint (e : Error)            (** [session: mint: ...] *)
| EFn (what : string).         (** an error of an Update closure *)

(** [errors.Is(err, target)] for the two sentinels the manager tests. *)
Fixpoint is_conflict (e : Error) : bool :=
  match e with ErrVersionConflict => true | EMint e => is_conflict e | _ => false end.
Fixpoint is_not_found (e : Error) : bool :=
  match e with ErrNotFound => true | EMint e => is_not_found e | _ => false end.

Definition uint64_succ (v : Z) : Z := (v + 1) mod 18446744073709551616.

Record MemoryStore := mkMem {
  records : gmap string Rec;
  userIndex : gmap string (gset string)
}.

Definition NewMemoryStore : MemoryStore := mkMem ∅ ∅.

(** [expired]: the enabled deadlines, at the store's clock. *)
Definition expired (r : Rec) (now : Time) : bool :=
  if negb (IsZero (AbsoluteExpiry r)) && negb (Before now (AbsoluteExpiry r)) then true
  else if negb (IsZero (IdleExpiry r)) && negb (Before now (IdleExpiry r)) then true
  else false.

(** ** The user index *)

Definition userIndexAddLocked (u sid : string) (s : MemoryStore) : MemoryStore :=
  mkMem (records s) (<[u := {[sid]} ∪ default ∅ (userIndex s !! u)]> (userIndex s)).

Definition userIndexRemoveLocked (u sid : string) (s : MemoryStore) : MemoryStore :=
  match userIndex s !! u with
  | None => s
  | Some set =>
      let set := set ∖ {[sid]} in
      mkMem (records s)
        (if bool_decide (set = ∅) then delete u (userIndex s) else <[u := set]> (userIndex s))
  end.

Definition deleteLocked (sid : string) (s : MemoryStore) : MemoryStore :=
  match records s !! sid with
  | None => s
  | Some r =>
      let s := mkMem (delete sid (records s)) (userIndex s) in
      if bool_decide (UserID r = ""%string) then s else userIndexRemoveLocked (UserID r) sid s
  end.

(** ** The methods *)

(** Pruning re-checks under the write lock, at a later instant. *)
Definition Load (canceled : bool) (now now' : Time) (sid : string) (s : MemoryStore)
    : MemoryStore * result Error Rec :=
  if canceled then (s, Err ErrCanceled)
  else match records s !! sid with
       | None => (s, Err ErrNotFound)
       | Some r =>
           if expired r now then (if expired r now' then deleteLocked sid s else s, Err ErrNotFound)
           else (s, Ok r)
       end.

Definition with_version (v : Z) (r : Rec) : Rec :=
  mkRec (SID r) v (UserID r) (AbsoluteExpiry r) (IdleExpiry r) (Payload r).
Definition with_idle (t : Time) (r : Rec) : Rec :=
  mkRec (SID r) (Version r) (UserID r) (AbsoluteExpiry r) t (Payload r).

(** [Save]'s index maintenance: [prev] is the replaced record, if any. *)
Definition reindex (prev : option Rec) (r : Rec) (s : MemoryStore) : MemoryStore :=
  let s := match prev with
           | Some p => if negb (bool_decide (UserID p = ""%string)) && negb (bool_decide (UserID p = UserID r))
                       then userIndexRemoveLocked (UserID p) (SID r) s else s
           | None => s
           end in
  if negb (bool_decide (UserID r = ""%string))
     && match prev with Some p => negb (bool_decide (UserID p = UserID r)) | None => true end
  then userIndexAddLocked (UserID r) (SID r) s else s.

Definition Save (canceled : bool) (r : Rec) (s : MemoryStore) : MemoryStore * result Error Rec :=
  if canceled then (s, Err ErrCanceled)
  else if bool_decide (SID r = ""%string) then (s, Err EEmptySID)
  else
    let prev := records s !! SID r in
    let refused := match prev with
                   | Some p => negb (Version p =? Version r)
                   | None => negb (Version r =? 0)
                   end in
    if refused then (s, Err ErrVersionConflict)
    else
      let stored := with_version (uint64_succ (Version r)) r in
      (reindex prev stored (mkMem (<[SID r := stored]> (records s)) (userIndex s)), Ok stored).

Definition Delete (canceled : bool) (sid : string) (s : MemoryStore) : MemoryStore * option Error :=
  if canceled then (s, Some ErrCanceled) else (deleteLocked sid s, None).

Definition BumpTTL (canceled : bool) (now : Time) (sid : string) (until : Time) (s : MemoryStore)
    : MemoryStore * option Error :=
  if canceled then (s, Some ErrCanceled)
  else match records s !! sid with
       | None => (s, Some ErrNotFound)
       | Some r =>
           if expired r now then (s, Some ErrNotFound)
           else (mkMem (<[sid := with_idle until r]> (records s)) (userIndex s), None)
       end.

Definition live_at (at_ : string -> Time) (s : MemoryStore) (sid : string) : bool :=
  match records s !! sid with Some r => negb (expired r (at_ sid)) | None => false end.

(** The session IDs in some order. *)
Definition ListByUser (canceled : bool) (at_ : string -> Time) (u : string) (s : MemoryStore)
    : result Error (list string) :=
  if canceled then Err ErrCanceled
  else Ok (filter (fun sid => live_at at_ s sid = true) (elements (default ∅ (userIndex s !! u)))).

(** The loop over the user's set, whose entries the deletions remove on the way. *)
Fixpoint revokeLoop (sids : list string) (keep : gset string) (n : Z) (s : MemoryStore)
    : MemoryStore * Z :=
  match sids with
  | [] => (s, n)
  | sid :: sids =>
      if bool_decide (sid ∈ keep) then revokeLoop sids keep n s
      else revokeLoop sids keep (n + 1) (deleteLocked sid s)
  end.

Definition RevokeByUser (canceled : bool) (u : string) (except : list string) (s : MemoryStore)
    : MemoryStore * result Error Z :=
  if canceled then (s, Err ErrCanceled)
  else
    let '(s, n) := revokeLoop (elements (default ∅ (userIndex s !! u))) (list_to_set except) 0 s in
    (s, Ok n).

(** [Scan] stops at the first session ID [fn] refuses; the result is the IDs [fn] saw. *)
Fixpoint scanLoop (fn : string -> bool) (sids : list string) : list string :=
  match sids with
  | [] => []
  | sid :: sids => sid :: if fn sid then scanLoop fn sids else []
  end.

Definition Scan (canceled : bool) (at_ : string -> Time) (fn : string -> bool) (s : MemoryStore)
    : result Error (list string) :=
  if canceled then Err ErrCanceled
  else Ok (scanLoop fn (filter (fun p => expired p.2 (at_ p.1) = false) (map_to_list (records s))).*1).

Definition Sweep (canceled : bool) (at_ : string -> Time) (s : MemoryStore)
    : MemoryStore * result Error Z :=
  if canceled then (s, Err ErrCanceled)
  else
    let dead := (filter (fun p => expired p.2 (at_ p.1) = true) (map_to_list (records s))).*1 in
    (foldl (fun s sid => deleteLocked sid s) s dead, Ok (Z.of_nat (length dead))).

(** ** The in-process session store: its user index is exact in every reachable state, and
    a revocation ends exactly the user's sessions, for good. *)

Local Open Scope Z_scope.

(** ** The invariant *)

(** [sid] is listed under [u]. *)
Definition indexed (u sid : string) (s : MemoryStore) : Prop :=
  exists set, userIndex s !! u = Some set /\ sid ∈ set.

Definition owned_by (u : string) (o : option Rec) : Prop :=
  u <> ""%string /\ exists r, o = Some r /\ UserID r = u.

Record index_ok (s : MemoryStore) : Prop := {
  io_index u sid : indexed u sid s <-> owned_by u (records s !! sid);
  io_nonempty u set : userIndex s !! u = Some set -> set <> ∅;
  io_sid sid r : records s !! sid = Some r -> SID r = sid
}.

(** The index as a map, with the records out of the way. *)
Lemma indexed_add u sid s u' sid' :
  indexed u' sid' (userIndexAddLocked u sid s) <-> (u' = u /\ sid' = sid) \/ indexed u' sid' s.
Proof.
  unfold indexed, userIndexAddLocked. simpl. destruct (decide (u' = u)) as [->|Hne].
  - rewrite lookup_insert_eq. destruct (userIndex s !! u) as [set|] eqn:E; simpl; split.
    + intros (? & [= <-] & [->%elem_of_singleton|?]%elem_of_union); eauto.
    + intros [[_ ->]|(? & [= <-] & ?)]; eexists; (split; [done|]); set_solver.
    + intros (? & [= <-] & ?). left. set_solver.
    + intros [[_ ->]|(? & ? & ?)]; [|done]. eexists. split; [done|]. set_solver.
  - rewrite lookup_insert_ne by done. naive_solver.
Qed.

Lemma indexed_remove u sid s u' sid' :
  indexed u' sid' (userIndexRemoveLocked u sid s) <-> indexed u' sid' s /\ ~ (u' = u /\ sid' = sid).
Proof.
  unfold indexed, userIndexRemoveLocked. destruct (userIndex s !! u) as [set|] eqn:E; simpl.
  - destruct (decide (u' = u)) as [->|Hne].
    + rewrite E. case_bool_decide as Hs.
      * rewrite lookup_delete_eq. split; [by intros (? & ? & _)|].
        intros [(? & [= <-] & Hin) Hno]. exfalso.
        assert (sid' <> sid) by naive_solver. set_solver.
      * rewrite lookup_insert_eq. split.
        -- intros (? & [= <-] & Hin). split; [exists set; set_solver|]. intros [_ ->]. set_solver.
        -- intros [(? & [= <-] & Hin) Hno]. eexists. split; [done|].
           assert (sid' <> sid) by naive_solver. set_solver.
    + case_bool_decide; [rewrite lookup_delete_ne by done|rewrite lookup_insert_ne by done]; naive_solver.
  - split; [|naive_solver]. intros (set & Hset & Hin). split; [eauto|]. intros [-> ->]. congruence.
Qed.

Lemma add_nonempty u sid s :
  (forall u set, userIndex s !! u = Some set -> set <> ∅) ->
  forall u' set, userIndex (userIndexAddLocked u sid s) !! u' = Some set -> set <> ∅.
Proof.
  intros H u' set. simpl. rewrite lookup_insert_Some. intros [[_ <-]|[_ ?]]; [set_solver|by eapply H].
Qed.

Lemma remove_nonempty u sid s :
  (forall u set, userIndex s !! u = Some set -> set <> ∅) ->
  forall u' set, userIndex (userIndexRemoveLocked u sid s) !! u' = Some set -> set <> ∅.
Proof.
  intros H u' set. unfold userIndexRemoveLocked. destruct (userIndex s !! u); [|by apply H]. simpl.
  case_bool_decide.
  - rewrite lookup_delete_Some. intros [_ ?]. by eapply H.
  - rewrite lookup_insert_Some. intros [[_ <-]|[_ ?]]; [done|by eapply H].
Qed.

Lemma records_add u sid s : records (userIndexAddLocked u sid s) = records s.
Proof. done. Qed.
Lemma records_remove u sid s : records (userIndexRemoveLocked u sid s) = records s.
Proof. unfold userIndexRemoveLocked. by destruct (userIndex s !! u). Qed.

(** ** Every operation keeps it *)

Lemma records_deleteLocked sid s : records (deleteLocked sid s) = delete sid (records s).
Proof.
  unfold deleteLocked. destruct (records s !! sid) as [r|] eqn:E; [|by rewrite delete_id].
  case_bool_decide; [done|]. by rewrite records_remove.
Qed.

Lemma deleteLocked_ok sid s : index_ok s -> index_ok (deleteLocked sid s).
Proof.
  intros [H1 H2 H3].
  assert (Hrec := records_deleteLocked sid s).
  constructor.
  - intros u sid'. rewrite Hrec. unfold deleteLocked.
    destruct (records s !! sid) as [r|] eqn:E; [|by rewrite delete_id].
    assert (Hidx : forall u sid', indexed u sid' (mkMem (delete sid (records s)) (userIndex s)) <->
      owned_by u (records s !! sid')) by (intros; rewrite <-H1; done).
    destruct (decide (sid' = sid)) as [->|Hne].
    + rewrite lookup_delete_eq. split; [|intros (_ & ? & ? & _); done].
      case_bool_decide as Hu; [|rewrite indexed_remove]; rewrite Hidx, E; unfold owned_by; naive_solver.
    + rewrite lookup_delete_ne by done. case_bool_decide; [apply Hidx|].
      rewrite indexed_remove, Hidx. naive_solver.
  - unfold deleteLocked. destruct (records s !! sid); [|done]. case_bool_decide; [done|].
    by apply remove_nonempty.
  - intros sid' r. rewrite Hrec, lookup_delete_Some. intros [_ ?]. by apply H3.
Qed.

Lemma records_reindex prev r s : records (reindex prev r s) = records s.
Proof.
  unfold reindex. repeat case_match; simpl; by rewrite ?records_add, ?records_remove.
Qed.

Lemma owned_Some u r : owned_by u (Some r) <-> u <> ""%string /\ UserID r = u.
Proof. unfold owned_by. naive_solver. Qed.
Lemma owned_None u : ~ owned_by u None.
Proof. unfold owned_by. naive_solver. Qed.

(** Replacing one record moves its index entry. *)
Lemma reindex_ok r s :
  index_ok s ->
  index_ok (reindex (records s !! SID r) r (mkMem (<[SID r := r]> (records s)) (userIndex s))).
Proof.
  intros [H1 H2 H3]. set (s' := mkMem _ _).
  assert (Hidx : forall u sid, indexed u sid s' <-> owned_by u (records s !! sid)) by (intros; rewrite <-H1; done).
  constructor.
  - intros u sid. rewrite records_reindex. simpl. unfold reindex.
    destruct (decide (sid = SID r)) as [->|Hne].
    + rewrite lookup_insert_eq, owned_Some.
      destruct (records s !! SID r) as [p|] eqn:Ep.
      * assert (Hp : indexed u (SID r) s' <-> u <> ""%string /\ UserID p = u) by (by rewrite Hidx, Ep, owned_Some).
        repeat case_bool_decide; simpl; rewrite ?indexed_add, ?indexed_remove, Hp; first [intuition congruence | naive_solver].
      * assert (Hp : ~ indexed u (SID r) s') by (rewrite Hidx, Ep; apply owned_None).
        repeat case_bool_decide; simpl; rewrite ?indexed_add; first [intuition congruence | naive_solver].
    + rewrite lookup_insert_ne by done.
      repeat case_match; simpl; rewrite ?indexed_add, ?indexed_remove, ?Hidx; first [intuition congruence | naive_solver].
  - unfold reindex. repeat case_match; repeat (apply add_nonempty || apply remove_nonempty); done.
  - intros sid r'. rewrite records_reindex. simpl. rewrite lookup_insert_Some.
    intros [[<- <-]|[_ ?]]; [done|by apply H3].
Qed.

Lemma Save_ok c r s : index_ok s -> index_ok (Save c r s).1.
Proof.
  intros H. unfold Save. repeat (case_match; [done|]). apply (reindex_ok (with_version _ r)). done.
Qed.

Lemma Load_ok c now now' sid s : index_ok s -> index_ok (Load c now now' sid s).1.
Proof. intros H. unfold Load. repeat case_match; try done. by apply deleteLocked_ok. Qed.

Lemma BumpTTL_ok c now sid t s : index_ok s -> index_ok (BumpTTL c now sid t s).1.
Proof.
  intros [H1 H2 H3]. unfold BumpTTL. repeat case_match; try done. simpl.
  constructor; simpl; [|done|].
  - intros u sid'. change (indexed u sid' s <-> owned_by u (<[sid:=with_idle t r]> (records s) !! sid')).
    rewrite H1. destruct (decide (sid' = sid)) as [->|]; [|by rewrite lookup_insert_ne].
    rewrite lookup_insert_eq, H0, !owned_Some. done.
  - intros sid' r'. rewrite lookup_insert_Some. intros [[<- <-]|[_ ?]]; [|by apply H3]. simpl. by apply H3.
Qed.

Definition deleteAll (sids : list string) (s : MemoryStore) : MemoryStore :=
  foldl (fun s sid => deleteLocked sid s) s sids.

Lemma deleteAll_ok sids s : index_ok s -> index_ok (deleteAll sids s).
Proof.
  unfold deleteAll. revert s. induction sids as [|sid sids IH]; intros s H; [done|].
  cbn [foldl]. by apply IH, deleteLocked_ok.
Qed.

Lemma records_deleteAll sids s sid :
  records (deleteAll sids s) !! sid = if decide (sid ∈ sids) then None else records s !! sid.
Proof.
  unfold deleteAll. revert s. induction sids as [|x sids IH]; intros s; [done|].
  cbn [foldl]. rewrite IH, records_deleteLocked.
  destruct (decide (sid = x)) as [->|Hne].
  - rewrite lookup_delete_eq. by rewrite (decide_True (P := x ∈ x :: sids)) by left; case_decide.
  - rewrite lookup_delete_ne by done. repeat case_decide; set_solver.
Qed.

Lemma revokeLoop_eq sids keep n s :
  revokeLoop sids keep n s =
    (deleteAll (filter (.∉ keep) sids) s, n + Z.of_nat (length (filter (.∉ keep) sids))).
Proof.
  revert n s. induction sids as [|sid sids IH]; intros n s; simpl; [by rewrite Z.add_0_r|].
  rewrite filter_cons. case_bool_decide.
  - rewrite decide_False by tauto. apply IH.
  - rewrite decide_True by done. rewrite IH. cbn [deleteAll foldl length]. unfold deleteAll. f_equal. lia.
Qed.

(** ** Runs *)

Inductive Op :=
| OLoad (c : bool) (now now' : Time) (sid : string)
| OSave (c : bool) (r : Rec)
| ODelete (c : bool) (sid : string)
| OBumpTTL (c : bool) (now : Time) (sid : string) (until : Time)
| ORevokeByUser (c : bool) (u : string) (except : list string)
| OSweep (c : bool) (at_ : string -> Time).

Definition run_op (o : Op) (s : MemoryStore) : MemoryStore :=
  match o with
  | OLoad c now now' sid => (Load c now now' sid s).1
  | OSave c r => (Save c r s).1
  | ODelete c sid => (Delete c sid s).1
  | OBumpTTL c now sid t => (BumpTTL c now sid t s).1
  | ORevokeByUser c u ex => (RevokeByUser c u ex s).1
  | OSweep c at_ => (Sweep c at_ s).1
  end.

Definition run (ops : list Op) (s : MemoryStore) : MemoryStore := foldl (fun s o => run_op o s) s ops.

Lemma RevokeByUser_eq u except s :
  let sids := filter (.∉ (list_to_set except : gset string)) (elements (default ∅ (userIndex s !! u))) in
  RevokeByUser false u except s = (deleteAll sids s, Ok (Z.of_nat (length sids))).
Proof. unfold RevokeByUser. rewrite revokeLoop_eq. done. Qed.

Lemma run_op_ok o s : index_ok s -> index_ok (run_op o s).
Proof.
  intros H. destruct o; simpl.
  - by apply Load_ok.
  - by apply Save_ok.
  - destruct c; [done|]. by apply deleteLocked_ok.
  - by apply BumpTTL_ok.
  - destruct c; [done|]. rewrite RevokeByUser_eq. by apply deleteAll_ok.
  - destruct c; [done|]. by apply deleteAll_ok.
Qed.

Lemma run_ok ops s : index_ok s -> index_ok (run ops s).
Proof.
  unfold run. revert s. induction ops as [|o ops IH]; intros s H; [done|]. cbn [foldl]. by apply IH, run_op_ok.
Qed.

Lemma New_index_ok : index_ok NewMemoryStore.
Proof.
  constructor.
  - intros u sid. split; [intros (? & E & _)|intros (_ & ? & E & _)]; simpl in E; by rewrite lookup_empty in E.
  - intros u set. simpl; by rewrite lookup_empty.
  - intros sid r. simpl; by rewrite lookup_empty.
Qed.

(** The sessions listed under a user, when the index is exact. *)
Lemma elem_of_user_set s u sid :
  index_ok s -> sid ∈ default ∅ (userIndex s !! u) <-> owned_by u (records s !! sid).
Proof.
  intros H. rewrite <-(io_index s H). unfold indexed. destruct (userIndex s !! u); simpl; set_solver.
Qed.

(** ** The theorems *)

(** In every store reached by its methods, under any interleaving of requests, the
    user index lists a session under a user exactly when the session's record names that
    user, so [ListByUser] answers with the user's live sessions, each once. *)
Theorem user_index_is_exact ops u at_ sids :
  let s := run ops NewMemoryStore in
  ListByUser false at_ u s = Ok sids ->
  index_ok s /\ NoDup sids /\
  forall sid, sid ∈ sids <->
    u <> ""%string /\ exists r, records s !! sid = Some r /\ UserID r = u /\ expired r (at_ sid) = false.
Proof.
  intros s [= <-]. assert (H : index_ok s) by apply run_ok, New_index_ok. split; [done|].
  split; [apply NoDup_filter, NoDup_elements|]. intros sid.
  rewrite list_elem_of_filter, elem_of_elements, elem_of_user_set by done.
  unfold live_at, owned_by. destruct (records s !! sid) as [r|] eqn:E; [|naive_solver].
  destruct (expired r (at_ sid)) eqn:Ee; naive_solver.
Qed.

(** [RevokeByUser] ends exactly the user's sessions that are not excepted and counts
    them; every other record stays as it is. A revoked session stays revoked: a request
    that loaded it before cannot write it back. *)
Theorem revocation_is_exact_and_final ops u except n s' :
  let s := run ops NewMemoryStore in
  u <> ""%string -> RevokeByUser false u except s = (s', Ok n) ->
  (forall sid, records s' !! sid =
     match records s !! sid with
     | Some r => if decide (UserID r = u /\ sid ∉ except) then None else Some r
     | None => None
     end) /\
  n = Z.of_nat (size (filter (fun p => UserID p.2 = u /\ p.1 ∉ except) (records s))) /\
  (forall sid r, records s !! sid = Some r -> UserID r = u -> sid ∉ except -> forall w,
     SID w = sid -> Version w <> 0 -> sid <> ""%string -> Save false w s' = (s', Err ErrVersionConflict)).
Proof.
  intros s Hu. assert (H : index_ok s) by apply run_ok, New_index_ok.
  rewrite RevokeByUser_eq. set (sids := filter _ _). intros [= <- <-].
  assert (Hin : forall sid, sid ∈ sids <-> exists r, records s !! sid = Some r /\ UserID r = u /\ sid ∉ except).
  { intros sid. unfold sids. rewrite list_elem_of_filter, elem_of_elements, elem_of_user_set, elem_of_list_to_set by done.
    unfold owned_by. naive_solver. }
  assert (Hrec : forall sid, records (deleteAll sids s) !! sid =
    match records s !! sid with
    | Some r => if decide (UserID r = u /\ sid ∉ except) then None else Some r | None => None end).
  { intros sid. rewrite records_deleteAll. destruct (records s !! sid) as [r|] eqn:E; [|by case_decide].
    repeat case_decide; try done; exfalso; rewrite Hin in *; naive_solver. }
  split_and!; [done| |].
  - f_equal. rewrite <-(size_dom (D := gset string)).
    rewrite <-(size_list_to_set (C := gset string) sids) by apply NoDup_filter, NoDup_elements.
    f_equal. apply leibniz_equiv, set_equiv. intros sid. rewrite elem_of_list_to_set, Hin, elem_of_dom.
    split.
    + intros (r & Hr & Hp). exists r. by apply map_lookup_filter_Some.
    + intros [r [Hr Hp]%map_lookup_filter_Some]. by exists r.
  - intros sid r Hr Hur He w Hw Hv Hsid. unfold Save. rewrite Hw.
    rewrite bool_decide_eq_false_2 by done.
    rewrite Hrec, Hr, decide_True by done. destruct (Version w =? 0) eqn:Ev; [|done]. zbool. lia.
Qed.

(** ** Concrete runs *)

Definition rec_of (sid u : string) (v : Z) : Rec := mkRec sid v u Hour zero_time "{}".

Definition two_users : list Op :=
  [OSave false (rec_of "s1" "ann" 0); OSave false (rec_of "s2" "ann" 0);
   OSave false (rec_of "s3" "bob" 0); OSave false (rec_of "s3" "ann" 1);
   OSave false (rec_of "s3" "bob" 2)].

Lemma user_index_witness :
  let s := run two_users NewMemoryStore in
  ListByUser false (fun _ => Second) "ann" s = Ok ["s1"; "s2"]%string /\ index_ok s.
Proof.
  split; [vm_compute; reflexivity|].
  apply (user_index_is_exact two_users "ann" (fun _ => Second) ["s1"; "s2"]%string).
  vm_compute. reflexivity.
Defined.

Definition ann_revoked : MemoryStore :=
  Eval vm_compute in (RevokeByUser false "ann" ["s2"%string] (run two_users NewMemoryStore)).1.

Lemma revocation_witness :
  records ann_revoked !! "s1"%string = None /\ is_Some (records ann_revoked !! "s2"%string) /\
  Save false (rec_of "s1" "ann" 1) ann_revoked = (ann_revoked, Err ErrVersionConflict).
Proof.
  split_and!; [vm_compute; reflexivity|vm_compute; eauto|].
  refine (proj2 (proj2 (revocation_is_exact_and_final two_users "ann" ["s2"%string] 1 ann_revoked _ _))
    "s1"%string (rec_of "s1" "ann" 1) _ _ _ (rec_of "s1" "ann" 1) _ _ _).
  - done.
  - vm_compute. reflexivity.
  - vm_compute. reflexivity.
  - reflexivity.
  - set_solver.
  - reflexivity.
  - done.
  - done.
Defined.
