(* ===== verification/SessionManager.v ===== *)
(** The session manager: one request's state, its staged writes and lifecycle changes, the
    immediate updates, the commit at response start, and the out-of-band updates by session
    ID ([session/manager.go], [bucket.go], [commit.go], [envelope.go], [config.go]).

    The store is any implementation of [Store]; the JSON codec of the payload envelope is an
    argument. Between two actions of a request other clients may change the store, the clock
    moves and the SID generator draws: an [Env] says how. Every store call is recorded. *)

From S2P Require Import Prelude.
From S2P Require Import GoTime.
From S2P Require Import SessionStore.

Local Open Scope Z_scope.

(** What a store call sees of its context and of the store's clock. *)
Record Call := mkCall { canceled : bool; at_ : Time; later : Time }.

(** The [Store] interface, with the optional [TTLBumper]. *)
Class Store (St : Type) := {
  s_Load : Call -> string -> St -> St * result Error Rec;
  s_Save : Call -> Rec -> St -> St * result Error Rec;
  s_Delete : Call -> string -> St -> St * option Error;
  s_BumpTTL : option (Call -> string -> Time -> St -> St * option Error)
}.

(** ** Configuration *)

Record Config := mkConfig {
  cAbsoluteExpiry : Duration;
  cIdleExpiry : Duration;
  cIdleBumpInterval : Duration;
  cMaxRetries : Z
}.

Inductive ConfigError :=
| EAbsoluteNotPositive
| EIdleNegative
| EIdleExceedsAbsolute
| EBumpNegative
| EBumpExceedsIdle.

(** [validate]: every problem, in order. *)
Definition validate (c : Config) : list ConfigError :=
  (if cAbsoluteExpiry c <=? 0 then [EAbsoluteNotPositive] else []) ++
  (if cIdleExpiry c <? 0 then [EIdleNegative] else []) ++
  (if (0 <? cIdleExpiry c) && (0 <? cAbsoluteExpiry c) && (cAbsoluteExpiry c <? cIdleExpiry c)
   then [EIdleExceedsAbsolute] else []) ++
  (if cIdleBumpInterval c <? 0 then [EBumpNegative] else []) ++
  (if cIdleExpiry c <? cIdleBumpInterval c then [EBumpExceedsIdle] else []).

Definition defaultMaxRetries : Z := 3.

(** [New]: the manager's settings; a negative retry count disables retries. *)
Definition New (c : Config) : result (list ConfigError) Config :=
  match validate c with
  | [] => Ok (mkConfig (cAbsoluteExpiry c) (cIdleExpiry c) (cIdleBumpInterval c)
                (if cMaxRetries c <? 0 then 0
                 else if cMaxRetries c =? 0 then defaultMaxRetries else cMaxRetries c))
  | problems => Err problems
  end.

(** ** Request state *)

Record state := mkState {
  arrivedSID : string;  (** transport facts *)
  staleToken : bool;
  loaded : bool;
  exists_ : bool;
  record_ : Rec;
  cells : gmap string string;  (** the decoded cells of the established record *)
  cellsDecoded : bool;
  envErr : option Error;
  staged : option (gmap string (option string));  (** [None]: a nil map; a [None] value is a tombstone *)
  stagedSeq : gmap string nat;
  destroyed : bool;
  destroyedSID : string;
  renew : bool;
  promote : bool;
  promotedID : string;
  tokenNeeded : bool;
  responseStarted : bool
}.

Definition set_arrivedSID (v : string) (st : state) : state :=
  mkState v (staleToken st) (loaded st) (exists_ st) (record_ st) (cells st) (cellsDecoded st)
    (envErr st) (staged st) (stagedSeq st) (destroyed st) (destroyedSID st) (renew st)
    (promote st) (promotedID st) (tokenNeeded st) (responseStarted st).
Definition set_staleToken (v : bool) (st : state) : state :=
  mkState (arrivedSID st) v (loaded st) (exists_ st) (record_ st) (cells st) (cellsDecoded st)
    (envErr st) (staged st) (stagedSeq st) (destroyed st) (destroyedSID st) (renew st)
    (promote st) (promotedID st) (tokenNeeded st) (responseStarted st).
Definition set_loaded (v : bool) (st : state) : state :=
  mkState (arrivedSID st) (staleToken st) v (exists_ st) (record_ st) (cells st) (cellsDecoded st)
    (envErr st) (staged st) (stagedSeq st) (destroyed st) (destroyedSID st) (renew st)
    (promote st) (promotedID st) (tokenNeeded st) (responseStarted st).
Definition set_exists_ (v : bool) (st : state) : state :=
  mkState (arrivedSID st) (staleToken st) (loaded st) v (record_ st) (cells st) (cellsDecoded st)
    (envErr st) (staged st) (stagedSeq st) (destroyed st) (destroyedSID st) (renew st)
    (promote st) (promotedID st) (tokenNeeded st) (responseStarted st).
Definition set_record_ (v : Rec) (st : state) : state :=
  mkState (arrivedSID st) (staleToken st) (loaded st) (exists_ st) v (cells st) (cellsDecoded st)
    (envErr st) (staged st) (stagedSeq st) (destroyed st) (destroyedSID st) (renew st)
    (promote st) (promotedID st) (tokenNeeded st) (responseStarted st).
Definition set_cells (v : gmap string string) (st : state) : state :=
  mkState (arrivedSID st) (staleToken st) (loaded st) (exists_ st) (record_ st) v
    (cellsDecoded st) (envErr st) (staged st) (stagedSeq st) (destroyed st) (destroyedSID st)
    (renew st) (promote st) (promotedID st) (tokenNeeded st) (responseStarted st).
Definition set_cellsDecoded (v : bool) (st : state) : state :=
  mkState (arrivedSID st) (staleToken st) (loaded st) (exists_ st) (record_ st) (cells st) v
    (envErr st) (staged st) (stagedSeq st) (destroyed st) (destroyedSID st) (renew st)
    (promote st) (promotedID st) (tokenNeeded st) (responseStarted st).
Definition set_envErr (v : option Error) (st : state) : state :=
  mkState (arrivedSID st) (staleToken st) (loaded st) (exists_ st) (record_ st) (cells st)
    (cellsDecoded st) v (staged st) (stagedSeq st) (destroyed st) (destroyedSID st) (renew st)
    (promote st) (promotedID st) (tokenNeeded st) (responseStarted st).
Definition set_staged (v : option (gmap string (option string))) (st : state) : state :=
  mkState (arrivedSID st) (staleToken st) (loaded st) (exists_ st) (record_ st) (cells st)
    (cellsDecoded st) (envErr st) v (stagedSeq st) (destroyed st) (destroyedSID st) (renew st)
    (promote st) (promotedID st) (tokenNeeded st) (responseStarted st).
Definition set_stagedSeq (v : gmap string nat) (st : state) : state :=
  mkState (arrivedSID st) (staleToken st) (loaded st) (exists_ st) (record_ st) (cells st)
    (cellsDecoded st) (envErr st) (staged st) v (destroyed st) (destroyedSID st) (renew st)
    (promote st) (promotedID st) (tokenNeeded st) (responseStarted st).
Definition set_destroyed (v : bool) (st : state) : state :=
  mkState (arrivedSID st) (staleToken st) (loaded st) (exists_ st) (record_ st) (cells st)
    (cellsDecoded st) (envErr st) (staged st) (stagedSeq st) v (destroyedSID st) (renew st)
    (promote st) (promotedID st) (tokenNeeded st) (responseStarted st).
Definition set_destroyedSID (v : string) (st : state) : state :=
  mkState (arrivedSID st) (staleToken st) (loaded st) (exists_ st) (record_ st) (cells st)
    (cellsDecoded st) (envErr st) (staged st) (stagedSeq st) (destroyed st) v (renew st)
    (promote st) (promotedID st) (tokenNeeded st) (responseStarted st).
Definition set_renew (v : bool) (st : state) : state :=
  mkState (arrivedSID st) (staleToken st) (loaded st) (exists_ st) (record_ st) (cells st)
    (cellsDecoded st) (envErr st) (staged st) (stagedSeq st) (destroyed st) (destroyedSID st) v
    (promote st) (promotedID st) (tokenNeeded st) (responseStarted st).
Definition set_promote (v : bool) (st : state) : state :=
  mkState (arrivedSID st) (staleToken st) (loaded st) (exists_ st) (record_ st) (cells st)
    (cellsDecoded st) (envErr st) (staged st) (stagedSeq st) (destroyed st) (destroyedSID st)
    (renew st) v (promotedID st) (tokenNeeded st) (responseStarted st).
Definition set_promotedID (v : string) (st : state) : state :=
  mkState (arrivedSID st) (staleToken st) (loaded st) (exists_ st) (record_ st) (cells st)
    (cellsDecoded st) (envErr st) (staged st) (stagedSeq st) (destroyed st) (destroyedSID st)
    (renew st) (promote st) v (tokenNeeded st) (responseStarted st).
Definition set_tokenNeeded (v : bool) (st : state) : state :=
  mkState (arrivedSID st) (staleToken st) (loaded st) (exists_ st) (record_ st) (cells st)
    (cellsDecoded st) (envErr st) (staged st) (stagedSeq st) (destroyed st) (destroyedSID st)
    (renew st) (promote st) (promotedID st) v (responseStarted st).
Definition set_responseStarted (v : bool) (st : state) : state :=
  mkState (arrivedSID st) (staleToken st) (loaded st) (exists_ st) (record_ st) (cells st)
    (cellsDecoded st) (envErr st) (staged st) (stagedSeq st) (destroyed st) (destroyedSID st)
    (renew st) (promote st) (promotedID st) (tokenNeeded st) v.

Definition no_record : Rec := mkRec "" 0 "" zero_time zero_time "".

(** The state the middleware attaches to a request that carries [sid]. *)
Definition newState (sid : string) : state :=
  mkState sid false false false no_record ∅ false None None ∅ false "" false false "" false false.

Definition staged_map (st : state) : gmap string (option string) := default ∅ (staged st).

(** [pendingMint] *)
Definition pendingMint (st : state) : bool :=
  promote st || existsb (fun p => match p.2 with Some _ => true | None => false end)
                  (map_to_list (staged_map st)).

(** [mergedView]: staged writes over stored cells, tombstones removing. *)
Definition overlay (stored : option string) (write : option (option string)) : option string :=
  match write with Some w => w | None => stored end.
Definition mergedView (st : state) : gmap string string := merge overlay (cells st) (staged_map st).

(** [stage] *)
Definition stage (key : string) (raw : option string) (st : state) : state :=
  let st := match staged st with None => set_stagedSeq ∅ (set_staged (Some ∅) st) | Some _ => st end in
  set_stagedSeq (<[key := S (default O (stagedSeq st !! key))]> (stagedSeq st))
    (set_staged (Some (<[key := raw]> (staged_map st))) st).

Definition with_payload (p : string) (r : Rec) : Rec :=
  mkRec (SID r) (Version r) (UserID r) (AbsoluteExpiry r) (IdleExpiry r) p.
Definition with_user (u : string) (r : Rec) : Rec :=
  mkRec (SID r) (Version r) u (AbsoluteExpiry r) (IdleExpiry r) (Payload r).
Definition fresh_rec (sid : string) (r : Rec) : Rec :=
  mkRec sid 0 (UserID r) (AbsoluteExpiry r) (IdleExpiry r) (Payload r).

(** [tokenExpiry] *)
Definition tokenExpiry (r : Rec) : Time :=
  if IsZero (AbsoluteExpiry r) then IdleExpiry r
  else if IsZero (IdleExpiry r) then AbsoluteExpiry r
  else if Before (IdleExpiry r) (AbsoluteExpiry r) then IdleExpiry r
  else AbsoluteExpiry r.

(** What a commit asks of the token transport. *)
Inductive TokenInstr :=
| TWrite (sid : string) (expiry now : Time)
| TClear.

Definition appKey : string := "app".

Section manager.
Context {St : Type} `{Store St}.
Context (json_decode : string -> option (gmap string string)).
Context (json_encode : gmap string string -> option string).

(** ** A request among other clients *)

(** A store call: the store as the call found it, its arguments and its answer. *)
Inductive Event :=
| ELoad (before : St) (sid : string) (r : result Error Rec)
| ESave (before : St) (r : Rec) (res : result Error Rec)
| EDelete (before : St) (sid : string) (res : option Error)
| EBump (before : St) (sid : string) (until : Time) (res : option Error).

Record World := mkWorld { w_store : St; w_tick : nat; w_trace : list Event }.

Record Env := mkEnv {
  e_step : nat -> St -> St;           (** what the other clients did before action [n] *)
  e_call : nat -> Call;
  e_now : nat -> Time;
  e_sid : nat -> option string
}.

(** Code that runs with the request state, performs actions and may fail. State changes
    made before a failure stay. *)
Definition M (A : Type) : Type := Env -> state -> World -> state * World * result Error A.

Definition ret {A} (x : A) : M A := fun _ st w => (st, w, Ok x).
Definition fail {A} (e : Error) : M A := fun _ st w => (st, w, Err e).
Definition bind {A B} (m : M A) (k : A -> M B) : M B := fun env st w =>
  match m env st w with
  | (st, w, Ok x) => k x env st w
  | (st, w, Err e) => (st, w, Err e)
  end.
(** The error as a value, for code that inspects it. *)
Definition try {A} (m : M A) : M (result Error A) := fun env st w =>
  let '(st, w, r) := m env st w in (st, w, Ok r).
Definition get : M state := fun _ st w => (st, w, Ok st).
Definition modify (f : state -> state) : M unit := fun _ st w => (f st, w, Ok tt).

Local Notation "'let!' x ':=' m 'in' k" := (bind m (fun x => k))
  (at level 10, x pattern, m at level 100, k at level 200).
Local Notation "m ';;' k" := (bind m (fun _ => k)) (at level 100, k at level 200, right associativity).

(** A store call answered with [r]; [log] is its record. *)
Definition action {A} (f : Call -> St -> St * A) (log : St -> A -> Event) (r : A -> result Error A)
  : M A := fun env st w =>
  let s := e_step env (w_tick w) (w_store w) in
  let '(s', a) := f (e_call env (w_tick w)) s in
  (st, mkWorld s' (S (w_tick w)) (log s a :: w_trace w), r a).

Definition lift {A} (m : M (result Error A)) : M A := fun env st w =>
  match m env st w with
  | (st, w, Ok r) => (st, w, r)
  | (st, w, Err e) => (st, w, Err e)
  end.
Definition lift_err (m : M (option Error)) : M unit := fun env st w =>
  match m env st w with
  | (st, w, Ok None) => (st, w, Ok tt)
  | (st, w, Ok (Some e)) => (st, w, Err e)
  | (st, w, Err e) => (st, w, Err e)
  end.

Definition store_Load (sid : string) : M Rec :=
  lift (action (fun c => s_Load c sid) (fun s => ELoad s sid) Ok).
Definition store_Save (r : Rec) : M Rec :=
  lift (action (fun c => s_Save c r) (fun s => ESave s r) Ok).
Definition store_Delete (sid : string) : M unit :=
  lift_err (action (fun c => s_Delete c sid) (fun s => EDelete s sid) Ok).

Definition now : M Time := fun env st w =>
  (st, mkWorld (w_store w) (S (w_tick w)) (w_trace w), Ok (e_now env (w_tick w))).

(** [mintSID] *)
Definition mintSID : M string := fun env st w =>
  (st, mkWorld (w_store w) (S (w_tick w)) (w_trace w),
   match e_sid env (w_tick w) with
   | Some sid => if bool_decide (sid = ""%string) then Err EGenerate else Ok sid
   | None => Err EGenerate
   end).

Definition fail_if (b : bool) (e : Error) : M unit := if b then fail e else ret tt.
Definition of_option {A} (o : option A) (e : Error) : M A :=
  match o with Some x => ret x | None => fail e end.

(** ** The payload envelope *)

Definition decodeEnvelope (p : string) : option (gmap string string) := json_decode p.
Definition encodeEnvelope (m : gmap string string) : option string :=
  if bool_decide (m = ∅) then Some "{}"%string else json_encode m.
Definition freshPayload (r : Rec) : string :=
  if bool_decide (Payload r = ""%string) then "{}" else Payload r.

(** [ensureLoaded] *)
Definition ensureLoaded : M unit :=
  let! st := get in
  if loaded st then ret tt
  else if bool_decide (arrivedSID st = ""%string) then modify (set_loaded true)
  else
    let! r := try (store_Load (arrivedSID st)) in
    match r with
    | Err e =>
        if is_not_found e
        then modify (fun st => set_loaded true (set_arrivedSID "" (set_staleToken true st)))
        else fail e
    | Ok rec => modify (fun st => set_loaded true (set_exists_ true (set_record_ rec st)))
    end.

(** [decodeCells] *)
Definition decodeCells : M unit :=
  let! st := get in
  if cellsDecoded st then match envErr st with Some e => fail e | None => ret tt end
  else
    modify (set_cellsDecoded true);;
    if negb (exists_ st) || bool_decide (Payload (record_ st) = ""%string)
    then modify (set_cells ∅)
    else match decodeEnvelope (Payload (record_ st)) with
         | None => modify (set_envErr (Some EMalformed));; fail EMalformed
         | Some c => modify (set_cells c)
         end.

(** ** Reading and staging *)

Definition cellGet (key : string) : M (option string) :=
  ensureLoaded;;
  let! st := get in
  match staged_map st !! key with
  | Some v => ret v
  | None => decodeCells;; let! st := get in ret (cells st !! key)
  end.

Definition cellHas (key : string) : M bool :=
  ensureLoaded;;
  let! st := get in
  match staged_map st !! key with
  | Some v => ret (bool_decide (is_Some v))
  | None => decodeCells;; let! st := get in ret (bool_decide (is_Some (cells st !! key)))
  end.

Definition checkStageable : M unit :=
  let! st := get in fail_if (responseStarted st) ErrAlreadyCommitted.

Definition cellSave (key raw : string) : M unit :=
  let! st := get in
  fail_if (responseStarted st) ErrAlreadyCommitted;;
  ensureLoaded;;
  let! st := get in
  (if exists_ st then decodeCells else ret tt);;
  modify (stage key (Some raw)).

Definition cellClear (key : string) : M unit :=
  let! st := get in
  fail_if (responseStarted st) ErrAlreadyCommitted;;
  ensureLoaded;;
  let! st := get in
  match staged_map st !! key with
  | Some (Some _) => modify (stage key None)
  | Some None => ret tt
  | None =>
      if negb (exists_ st) then ret tt
      else
        decodeCells;;
        let! st := get in
        match cells st !! key with Some _ => modify (stage key None) | None => ret tt end
  end.

Definition Has : M bool := cellHas appKey.
Definition Clear : M unit := cellClear appKey.

(** ** Lifecycle *)

Definition SID_ : M string := ensureLoaded;; let! st := get in ret (arrivedSID st).

Definition UserID_ : M string :=
  ensureLoaded;;
  let! st := get in
  ret (if promote st then promotedID st else if exists_ st then UserID (record_ st) else ""%string).

Definition Renew : M unit :=
  let! st := get in
  fail_if (responseStarted st) ErrAlreadyCommitted;;
  ensureLoaded;;
  let! st := get in
  fail_if (negb (exists_ st) && negb (pendingMint st)) ErrNotFound;;
  modify (set_renew true).

Definition Promote (u : string) : M unit :=
  let! st := get in
  fail_if (responseStarted st) ErrAlreadyCommitted;;
  ensureLoaded;;
  modify (fun st =>
    let st := set_promotedID u (set_promote true st) in
    if exists_ st then set_renew true st else st).

Definition Destroy : M unit :=
  let! st := get in
  fail_if (responseStarted st) ErrAlreadyCommitted;;
  ensureLoaded;;
  modify (fun st =>
    let st := if exists_ st then set_destroyedSID (SID (record_ st)) (set_destroyed true st) else st in
    set_tokenNeeded false (set_promotedID "" (set_promote false (set_renew false (set_staged None
      (set_envErr None (set_cellsDecoded false (set_cells ∅ (set_record_ no_record
        (set_exists_ false st)))))))))).

(** ** Writing *)

Context (cfg : Config).

Definition maxRetries : nat := Z.to_nat (cMaxRetries cfg).

(** [rec.IdleExpiry = now + IdleExpiry], when idle expiry is enabled. *)
Definition slideIdle (r : Rec) : M Rec :=
  if 0 <? cIdleExpiry cfg
  then let! t := now in ret (with_idle (Add t (cIdleExpiry cfg)) r)
  else ret r.

(** [insertFresh]: a new SID per attempt; [tries] attempts may still follow. *)
Fixpoint insertLoop (tries : nat) (r : Rec) : M Rec :=
  let! sid := mintSID in
  let! res := try (store_Save (fresh_rec sid r)) in
  match res with
  | Ok stored => ret stored
  | Err e =>
      match tries with
      | O => fail (EMint e)
      | S tries => if is_conflict e then insertLoop tries r else fail (EMint e)
      end
  end.

Definition insertFresh (r : Rec) : M Rec := insertLoop maxRetries r.

(** A record for a new session: the request's user, the deadlines from one clock sample. *)
Definition newRecord (payload : string) : M Rec :=
  let! t := now in
  let! st := get in
  ret (mkRec "" 0 (if promote st then promotedID st else "") (Add t (cAbsoluteExpiry cfg))
         (if 0 <? cIdleExpiry cfg then Add t (cIdleExpiry cfg) else zero_time) payload).

(** A logout that is still pending deletes its session first. *)
Definition deleteDestroyed : M bool :=
  let! st := get in
  if destroyed st && negb (bool_decide (destroyedSID st = ""%string)) then
    store_Delete (destroyedSID st);;
    modify (fun st => set_destroyedSID "" (set_destroyed false st));;
    ret true
  else ret false.

Definition mintForUpdate (key out : string) : M unit :=
  deleteDestroyed;;
  let! st := get in
  let cells := <[key := out]> (mergedView st) in
  let! payload := of_option (encodeEnvelope cells) EEncode in
  let! r := newRecord payload in
  let! stored := insertFresh r in
  modify (fun st => set_staged None (set_tokenNeeded true (set_cellsDecoded true (set_cells cells
    (set_exists_ true (set_record_ stored st)))))).

(** [updateBase]: the closure's input, whether it is a staged value, and its sequence. *)
Definition updateBase (key : string) : M (option string * bool * nat) :=
  let! st := get in
  match staged_map st !! key with
  | Some v => ret (v, true, default O (stagedSeq st !! key))
  | None =>
      if exists_ st then decodeCells;; let! st := get in ret (cells st !! key, false, O)
      else ret (None, false, O)
  end.

Definition reloadCells : M unit :=
  let! st := get in
  let! fresh := store_Load (SID (record_ st)) in
  let! c := of_option (decodeEnvelope (freshPayload fresh)) EMalformed in
  modify (fun st => set_cells c (set_record_ fresh st)).

(** The retry loop of [cellUpdate]; the closure may act on the session itself. *)
Fixpoint updateLoop (tries : nat) (key : string) (fn : option string -> M string) : M unit :=
  let! ((base, stagedBase), seq) := updateBase key in
  let! out := fn base in
  let! st := get in
  if negb (exists_ st) then mintForUpdate key out
  else
    let merged := <[key := out]> (cells st) in
    let! payload := of_option (encodeEnvelope merged) EEncode in
    let! r := slideIdle (with_payload payload (record_ st)) in
    let! res := try (store_Save r) in
    match res with
    | Ok stored =>
        modify (fun st =>
          let st := set_tokenNeeded true (set_cells merged (set_record_ stored st)) in
          if stagedBase && bool_decide (default O (stagedSeq st !! key) = seq)
          then set_staged (delete key <$> staged st) st else st)
    | Err e =>
        match tries with
        | O => fail e
        | S tries => if is_conflict e then reloadCells;; updateLoop tries key fn else fail e
        end
    end.

Definition cellUpdate (key : string) (fn : option string -> M string) : M unit :=
  ensureLoaded;;
  let! st := get in
  fail_if (negb (exists_ st) && responseStarted st) ErrAlreadyCommitted;;
  (if exists_ st then decodeCells else ret tt);;
  updateLoop maxRetries key fn.

(** ** The commit *)

(** [rotateAtCommit]: the new session is stored before the old one is deleted, and a
    failing deletion is only logged. *)
Definition rotateAtCommit : M unit :=
  let! d := try decodeCells in
  let! st := get in
  let cells := match d with Ok _ => Some (mergedView st) | Err _ => None end in
  let! payload :=
    match cells with
    | Some c => of_option (encodeEnvelope c) EEncode
    | None => ret (Payload (record_ st))
    end in
  let old := record_ st in
  let r := mkRec "" 0 (if promote st then promotedID st else UserID old) (AbsoluteExpiry old)
             zero_time payload in
  let! r := slideIdle r in
  let! stored := insertFresh r in
  try (store_Delete (SID old));;
  modify (fun st =>
    let st := set_record_ stored st in
    set_staged None (match cells with Some c => set_cells c st | None => st end)).

Fixpoint dirtyLoop (tries : nat) : M unit :=
  let! st := get in
  let cells := mergedView st in
  let! payload := of_option (encodeEnvelope cells) EEncode in
  let! r := slideIdle (with_payload payload (record_ st)) in
  let! res := try (store_Save r) in
  match res with
  | Ok stored => modify (fun st => set_staged None (set_cells cells (set_record_ stored st)))
  | Err e =>
      match tries with
      | O => fail e
      | S tries => if is_conflict e then reloadCells;; dirtyLoop tries else fail e
      end
  end.

Definition commitDirty : M unit := decodeCells;; dirtyLoop maxRetries.

Definition mintAtCommit : M unit :=
  let! st := get in
  let cells := mergedView st in
  let! payload := of_option (encodeEnvelope cells) EEncode in
  let! r := newRecord payload in
  let! stored := insertFresh r in
  modify (fun st => set_staged None (set_cellsDecoded true (set_cells cells
    (set_exists_ true (set_record_ stored st))))).

(** [maybeBumpIdle]: whether the server-side expiry moved. *)
Definition maybeBumpIdle : M bool :=
  if (cIdleBumpInterval cfg <=? 0) || (cIdleExpiry cfg <=? 0) then ret false
  else match s_BumpTTL with
  | None => ret false
  | Some bump =>
      let! t := now in
      let! st := get in
      if sub64 (cIdleExpiry cfg) (cIdleBumpInterval cfg) <? Sub (IdleExpiry (record_ st)) t
      then ret false
      else
        let until := Add t (cIdleExpiry cfg) in
        let sid := SID (record_ st) in
        let! res := action (fun c => bump c sid until) (fun s => EBump s sid until) Ok in
        match res with
        | Some _ => ret false
        | None => modify (fun st => set_record_ (with_idle until (record_ st)) st);; ret true
        end
  end.

(** [len(st.staged) > 0] *)
Definition dirty (st : state) : bool := negb (bool_decide (staged_map st = ∅)).

(** [commit]: one token instruction at most; a write supersedes a clear. *)
Definition commit : M (option TokenInstr) :=
  modify (set_responseStarted true);;
  let! st := get in
  let stale := staleToken st in
  let! deleted := deleteDestroyed in
  let! st := get in
  let! tokenWrite :=
    (if exists_ st && renew st then rotateAtCommit;; ret true
     else if exists_ st && dirty st then commitDirty;; ret true
     else if negb (exists_ st) && pendingMint st then mintAtCommit;; ret true
     else if exists_ st then let! bumped := maybeBumpIdle in ret (bumped || tokenNeeded st)
     else ret false) in
  if (tokenWrite : bool) then
    let! t := now in
    let! st := get in
    ret (Some (TWrite (SID (record_ st)) (tokenExpiry (record_ st)) t))
  else if stale || deleted then ret (Some TClear)
  else ret None.

(** ** Out of band, by session ID *)

Definition loadCell (sid key : string) : M (option string) :=
  let! r := store_Load sid in
  let! c := of_option (decodeEnvelope (freshPayload r)) EMalformed in
  ret (c !! key).

(** [mutate] gives the new cells, or [None] when nothing is to be written. *)
Fixpoint mutateLoop (tries : nat) (sid : string)
    (mutate : gmap string string -> result Error (option (gmap string string))) : M unit :=
  let! r := store_Load sid in
  let! c := of_option (decodeEnvelope (freshPayload r)) EMalformed in
  match mutate c with
  | Err e => fail e
  | Ok None => ret tt
  | Ok (Some c) =>
      let! payload := of_option (encodeEnvelope c) EEncode in
      let! res := try (store_Save (with_payload payload r)) in
      match res with
      | Ok _ => ret tt
      | Err e =>
          match tries with
          | O => fail e
          | S tries => if is_conflict e then mutateLoop tries sid mutate else fail e
          end
      end
  end.

Definition mutateCellsSID sid mutate : M unit := mutateLoop maxRetries sid mutate.

Definition updateCellSID (sid key : string) (fn : option string -> result Error string) : M unit :=
  mutateCellsSID sid (fun c =>
    match fn (c !! key) with Ok out => Ok (Some (<[key := out]> c)) | Err e => Err e end).

Definition clearCellSID (sid key : string) : M unit :=
  mutateCellsSID sid (fun c =>
    Ok (match c !! key with Some _ => Some (delete key c) | None => None end)).

Definition ClearSID (sid : string) : M unit := clearCellSID sid appKey.
Definition DestroySID (sid : string) : M unit := store_Delete sid.
End manager.

Arguments Event : clear implicits.
Arguments World : clear implicits.
Arguments Env : clear implicits.
