(* ===== verification/SessionSpec.v ===== *)
(** What a request's session operations guarantee, whatever the other clients do: a login
    gets a fresh session, a logout deletes the old one before the response starts, an
    update replaces its own cell only, over what the store held at that moment.

    The proofs use Hoare triples over the request state and the trace of store calls. *)

From S2P Require Import Prelude.
From S2P Require Import GoTime.
From S2P Require Import SessionStore.
From S2P Require Import SessionManager.

Local Open Scope Z_scope.

(** What the manager relies on: loads answer with the record under the session ID, a
    successful save replaced the record of the version it names, or none. *)
Class LawfulStore (St : Type) `{Store St} := {
  row : string -> St -> option Rec;
  row_sid sid s r : row sid s = Some r -> SID r = sid;
  load_row c sid s r : (s_Load c sid s).2 = Ok r -> row sid s = Some r;
  save_cas c r s r' :
    (s_Save c r s).2 = Ok r' ->
    r' = with_version (uint64_succ (Version r)) r /\
    match row (SID r) s with Some p => Version p = Version r | None => Version r = 0 end
}.

Section spec.
Context {St : Type} `{LawfulStore St}.
Context (json_decode : string -> option (gmap string string)).
Context (json_encode : gmap string string -> option string).
Context (cfg : Config).

Local Abbreviation Event := (Event St).
Local Abbreviation World := (World St).
Local Abbreviation Env := (Env St).
Local Abbreviation M := (M (St := St)).
Local Abbreviation encodeEnvelope := (encodeEnvelope json_encode).

(** ** Triples *)

Abbreviation assertion := (state -> list Event -> Prop).

Definition triple {A} (P : assertion) (m : M A) (Q : A -> assertion) (E : assertion) : Prop :=
forall env st w st' w' r,
  P st (w_trace w) -> m env st w = (st', w', r) ->
  match r with Ok x => Q x st' (w_trace w') | Err _ => E st' (w_trace w') end.

Lemma t_bind {A B} P (m : M A) R (k : A -> M B) Q E :
  triple P m R E -> (forall x, triple (R x) (k x) Q E) -> triple P (bind m k) Q E.
Proof.
  intros Hm Hk env st w st' w' r HP Hr. unfold bind in Hr.
  destruct (m env st w) as [[st1 w1] [x|e]] eqn:Em; pose proof (Hm _ _ _ _ _ _ HP Em) as HR.
  - exact (Hk _ _ _ _ _ _ _ HR Hr).
  - by simplify_eq.
Qed.

Lemma t_get {B} P (k : state -> M B) Q E :
  (forall st0, triple (fun st tr => st = st0 /\ P st tr) (k st0) Q E) -> triple P (bind get k) Q E.
Proof. intros Hk env st w st' w' r HP Hr. exact (Hk st env st w st' w' r (conj eq_refl HP) Hr). Qed.

Lemma t_modify (P : assertion) f (Q : unit -> assertion) E :
  (forall st tr, P st tr -> Q tt (f st) tr) -> triple P (modify f) Q E.
Proof. intros HQ env st w st' w' r HP [= <- <- <-]. by apply HQ. Qed.

Lemma t_ret {A} (P : assertion) (x : A) (Q : A -> assertion) E :
  (forall st tr, P st tr -> Q x st tr) -> triple P (ret x) Q E.
Proof. intros HQ env st w st' w' r HP [= <- <- <-]. by apply HQ. Qed.

Lemma t_fail {A} (P : assertion) e (Q : A -> assertion) (E : assertion) :
  (forall st tr, P st tr -> E st tr) -> triple P (fail e) Q E.
Proof. intros HQ env st w st' w' r HP [= <- <- <-]. by apply HQ. Qed.

Lemma t_try {A} P (m : M A) (Q : result Error A -> assertion) E :
  triple P m (fun x => Q (Ok x)) (fun st tr => forall e, Q (Err e) st tr) -> triple P (try m) Q E.
Proof.
  intros Hm env st w st' w' r HP. unfold try.
  destruct (m env st w) as [[st1 w1] r1] eqn:Em. intros [= <- <- <-].
  specialize (Hm _ _ _ _ _ _ HP Em). by destruct r1.
Qed.

Lemma t_weaken {A} (P P' : assertion) (m : M A) (Q Q' : A -> assertion) (E E' : assertion) :
  triple P' m Q' E' -> (forall st tr, P st tr -> P' st tr) ->
  (forall x st tr, Q' x st tr -> Q x st tr) -> (forall st tr, E' st tr -> E st tr) -> triple P m Q E.
Proof.
  intros Hm HP HQ HE env st w st' w' r Hp Hr. specialize (Hm _ _ _ _ _ _ (HP _ _ Hp) Hr).
  destruct r; auto.
Qed.

(** A fact that does not depend on the state moves out of the precondition. *)
Lemma t_pure {A} (F : Prop) (P : assertion) (m : M A) Q E :
  (F -> triple P m Q E) -> triple (fun st tr => F /\ P st tr) m Q E.
Proof. intros Hm env st w st' w' r [HF HP]. by apply Hm. Qed.

(** The starting state by name. *)
Lemma t_exists {A} (P : assertion) (m : M A) Q E :
  (forall st1, triple (fun st tr => st = st1 /\ P st tr) m Q E) -> triple P m Q E.
Proof. intros Hm env st w st' w' r HP. by apply (Hm st). Qed.

Lemma t_load (P : assertion) sid (Q : Rec -> assertion) (E : assertion) :
  (forall st tr before r, P st tr -> row sid before = Some r -> Q r st (ELoad before sid (Ok r) :: tr)) ->
  (forall st tr before e, P st tr -> E st (ELoad before sid (Err e) :: tr)) ->
  triple P (store_Load sid) Q E.
Proof.
  intros HQ HE env st w st' w' r HP. unfold store_Load, lift, action.
  set (s := e_step _ _ _). pose proof (load_row (e_call env (w_tick w)) sid s) as Hl.
  destruct (s_Load _ _ _) as [s' [r0|e]]; intros [= <- <- <-]; simpl.
  - by apply HQ; [|apply Hl].
  - by apply HE.
Qed.

(** What a successful save says. *)
Definition replaced (before : St) (r stored : Rec) : Prop :=
stored = with_version (uint64_succ (Version r)) r /\
match row (SID r) before with Some p => Version p = Version r | None => Version r = 0 end.

Lemma t_save (P : assertion) r (Q : Rec -> assertion) (E : assertion) :
  (forall st tr before stored, P st tr -> replaced before r stored ->
     Q stored st (ESave before r (Ok stored) :: tr)) ->
  (forall st tr before e, P st tr -> E st (ESave before r (Err e) :: tr)) ->
  triple P (store_Save r) Q E.
Proof.
  intros HQ HE env st w st' w' res HP. unfold store_Save, lift, action.
  set (s := e_step _ _ _). pose proof (save_cas (e_call env (w_tick w)) r s) as Hl.
  destruct (s_Save _ _ _) as [s' [r0|e]]; intros [= <- <- <-]; simpl.
  - apply HQ; [done|]. by apply Hl.
  - by apply HE.
Qed.

Lemma t_delete (P : assertion) sid (Q : unit -> assertion) (E : assertion) :
  (forall st tr before, P st tr -> Q tt st (EDelete before sid None :: tr)) ->
  (forall st tr before e, P st tr -> E st (EDelete before sid (Some e) :: tr)) ->
  triple P (store_Delete sid) Q E.
Proof.
  intros HQ HE env st w st' w' res HP. unfold store_Delete, lift_err, action.
  destruct (s_Delete _ _ _) as [s' [e|]]; intros [= <- <- <-]; simpl; [by apply HE|by apply HQ].
Qed.

Lemma t_now (P : assertion) (Q : Time -> assertion) E :
  (forall t st tr, P st tr -> Q t st tr) -> triple P now Q E.
Proof. intros HQ env st w st' w' r HP [= <- <- <-]. by apply HQ. Qed.

Lemma t_mintSID (P : assertion) (Q : string -> assertion) (E : assertion) :
  (forall sid st tr, P st tr -> sid <> ""%string -> Q sid st tr) ->
  (forall st tr, P st tr -> E st tr) -> triple P mintSID Q E.
Proof.
  intros HQ HE env st w st' w' r HP. unfold mintSID.
  destruct (e_sid env (w_tick w)); [case_bool_decide|]; intros [= <- <- <-]; simpl; auto.
Qed.

Lemma t_of_option {A} (P : assertion) (o : option A) e (Q : A -> assertion) (E : assertion) :
  (forall x st tr, o = Some x -> P st tr -> Q x st tr) -> (forall st tr, P st tr -> E st tr) ->
  triple P (of_option o e) Q E.
Proof. intros HQ HE. destruct o; simpl; [apply t_ret|apply t_fail]; auto. Qed.

Lemma t_fail_if (P : assertion) b e (Q : unit -> assertion) (E : assertion) :
  (forall st tr, b = false -> P st tr -> Q tt st tr) -> (forall st tr, P st tr -> E st tr) ->
  triple P (fail_if b e) Q E.
Proof. intros HQ HE. destruct b; simpl; [apply t_fail|apply t_ret]; auto. Qed.

(** ** The invariant of a request *)

Definition returned (r : Rec) (tr : list Event) : Prop :=
(exists s sid, ELoad s sid (Ok r) ∈ tr) \/ exists s r0, ESave s r0 (Ok r) ∈ tr.

(** A new session was inserted, and its record satisfied [F]. *)
Definition inserted (sid : string) (F : Rec -> Prop) (tr : list Event) : Prop :=
exists before r stored, ESave before r (Ok stored) ∈ tr /\ replaced before r stored /\
  SID r = sid /\ Version r = 0 /\ F r.

Definition for_user (u : string) (r : Rec) : Prop := UserID r = u.

Definition deleted (sid : string) (tr : list Event) : Prop := exists s, EDelete s sid None ∈ tr.

(** The cells of a record: its payload decodes to them, or encodes them. *)
Definition holds (r : Rec) (m : gmap string string) : Prop :=
json_decode (freshPayload r) = Some m \/ encodeEnvelope m = Some (Payload r) \/
(Payload r = ""%string /\ m = ∅).

Record ok (st : state) (tr : list Event) : Prop := {
  k_destroyed : destroyed st = true ->
    loaded st = true /\ exists_ st = false /\ destroyedSID st <> ""%string;
  k_exists : exists_ st = true ->
    loaded st = true /\ SID (record_ st) <> ""%string /\ returned (record_ st) tr;
  k_promote : promote st = true -> loaded st = true;
  k_login : promote st = true -> exists_ st = true -> renew st = false ->
    tokenNeeded st = true /\ inserted (SID (record_ st)) (for_user (promotedID st)) tr;
  k_decoded : cellsDecoded st = true -> loaded st = true;
  k_cells : exists_ st = true -> cellsDecoded st = true -> envErr st = None ->
    holds (record_ st) (cells st);
  k_env : cellsDecoded st = false -> envErr st = None
}.

Lemma returned_cons r tr ev : returned r tr -> returned r (ev :: tr).
Proof. intros [(s & sid & Hin)|(s & r0 & Hin)]; [left|right]; eexists _, _; right; exact Hin. Qed.
Lemma inserted_cons sid F tr ev : inserted sid F tr -> inserted sid F (ev :: tr).
Proof. intros (b & r & s & Hin & Hr). exists b, r, s. split; [by right|done]. Qed.
Lemma deleted_cons sid tr ev : deleted sid tr -> deleted sid (ev :: tr).
Proof. intros [s Hin]. exists s. by right. Qed.
Lemma ok_cons st tr ev : ok st tr -> ok st (ev :: tr).
Proof.
  intros [H1 H2 H3 H4 H5 H6 H7]. constructor; [done| |done| |done|done|done].
  - intros He. destruct (H2 He) as (? & ? & ?). split_and!; [done..|]. by apply returned_cons.
  - intros Hp He Hr. destruct (H4 Hp He Hr). split; [done|]. by apply inserted_cons.
Qed.

(** A logout of session [d], if any, has deleted it or will. *)
Definition logout (d : option string) (st : state) (tr : list Event) : Prop :=
match d with
| None => True
| Some d => d <> ""%string /\ (deleted d tr \/ destroyed st = true /\ destroyedSID st = d)
end.

Lemma logout_cons d st tr ev : logout d st tr -> logout d st (ev :: tr).
Proof. destruct d; simpl; [|done]. intros (? & [?|?]); auto using deleted_cons. Qed.

(** The invariant only reads some fields. *)
Definition I (d : option string) (st : state) (tr : list Event) : Prop := ok st tr /\ logout d st tr.

Lemma I_cons d st tr ev : I d st tr -> I d st (ev :: tr).
Proof. intros [? ?]. split; [by apply ok_cons|by apply logout_cons]. Qed.
#[local] Hint Resolve I_cons ok_cons logout_cons returned_cons inserted_cons : core.

(** ** Decoding is a function of the state *)

Definition decode_to (st : state) : state * result Error unit :=
if cellsDecoded st then (st, match envErr st with Some e => Err e | None => Ok tt end)
else
  let st := set_cellsDecoded true st in
  if negb (exists_ st) || bool_decide (Payload (record_ st) = ""%string) then (set_cells ∅ st, Ok tt)
  else match json_decode (Payload (record_ st)) with
       | None => (set_envErr (Some EMalformed) st, Err EMalformed)
       | Some c => (set_cells c st, Ok tt)
       end.

Lemma decodeCells_eq env st (w : World) :
  decodeCells json_decode env st w = ((decode_to st).1, w, (decode_to st).2).
Proof.
  unfold decodeCells, decode_to, bind, get, modify, ret, fail, decodeEnvelope.
  repeat (case_match; simplify_eq/=); congruence.
Qed.

Lemma decode_keeps st :
  let st' := (decode_to st).1 in
  exists_ st' = exists_ st /\ record_ st' = record_ st /\ staged st' = staged st /\
  stagedSeq st' = stagedSeq st /\ promote st' = promote st /\ promotedID st' = promotedID st /\
  renew st' = renew st /\ tokenNeeded st' = tokenNeeded st /\ loaded st' = loaded st /\
  destroyed st' = destroyed st /\ destroyedSID st' = destroyedSID st /\ cellsDecoded st' = true /\
  responseStarted st' = responseStarted st.
Proof. unfold decode_to. repeat case_match; simplify_eq/=; by split_and!. Qed.

Lemma decode_ok st : (decode_to st).2 = Ok tt -> envErr st = None -> envErr (decode_to st).1 = None.
Proof. unfold decode_to. repeat case_match; simplify_eq/=; done. Qed.

Lemma decode_I d st tr : I d st tr -> loaded st = true -> I d (decode_to st).1 tr.
Proof.
  intros [[H1 H2 H3 H4 H5 H6 H7] HK] Hl.
  destruct (decode_keeps st) as (E1 & E2 & E3 & E4 & E5 & E6 & E7 & E8 & E9 & E10 & E11 & _).
  split.
  - constructor; rewrite ?E1, ?E2, ?E5, ?E6, ?E7, ?E8, ?E9, ?E10, ?E11; try done;
      [|destruct (decode_keeps st) as (_ & _ & _ & _ & _ & _ & _ & _ & _ & _ & _ & E12 & _); by rewrite E12].
    intros He _ Hn. revert Hn. unfold decode_to.
    destruct (cellsDecoded st) eqn:Ed; [by intros Hn; apply H6|].
    simpl. rewrite He. simpl. case_bool_decide as Hp; [intros _; right; by right|].
    destruct (json_decode (Payload (record_ st))) eqn:Ej; [|done]. intros _. left.
    unfold freshPayload. by rewrite bool_decide_eq_false_2.
  - unfold logout in *. destruct d; [|done]. by rewrite E10, E11.
Qed.

Lemma t_decode (P : assertion) (Q : unit -> assertion) (E : assertion) :
  (forall st tr, P st tr -> (decode_to st).2 = Ok tt -> Q tt (decode_to st).1 tr) ->
  (forall st tr, P st tr -> E (decode_to st).1 tr) ->
  triple P (decodeCells json_decode) Q E.
Proof.
  intros HQ HE env st w st' w' r HP. rewrite decodeCells_eq. intros [= <- <- <-].
  destruct (decode_to st).2 as [[]|e] eqn:Er; [by apply HQ|by apply HE].
Qed.

(** ** Every operation keeps the invariant *)

Lemma ensureLoaded_I d :
  triple (I d) ensureLoaded (fun _ st tr => I d st tr /\ loaded st = true) (I d).
Proof.
  unfold ensureLoaded. apply t_get. intros st0. destruct (loaded st0) eqn:El.
  { apply t_ret. by intros st tr [-> ?]. }
  assert (Hun : forall tr, I d st0 tr -> exists_ st0 = false /\ destroyed st0 = false /\
    promote st0 = false /\ cellsDecoded st0 = false).
  { intros tr [[H1 H2 H3 _ H5 _ H7] _]. split_and!; apply not_true_is_false; intros Hx;
      [destruct (H2 Hx)|destruct (H1 Hx)|pose proof (H3 Hx)|pose proof (H5 Hx)]; congruence. }
  case_bool_decide as Ha.
  { apply t_modify. intros st tr [-> HI]. destruct (Hun _ HI) as (E1 & E2 & E3 & E4).
    destruct HI as [[_ _ _ _ _ _ H7] HK]. split; [|done]. split; [|exact HK].
    constructor; simpl; (congruence || exact H7). }
  eapply t_bind.
  - apply t_try, (t_load _ _ (fun r => _)).
    + intros st tr before r [-> HI] Hrow.
      pattern (Ok (E := Error) r), st0, (ELoad before (arrivedSID st0) (Ok r) :: tr).
      instantiate (1 := fun res st tr => st = st0 /\ I d st0 tr /\
        match res with Ok r => SID r = arrivedSID st0 /\ returned r tr | Err _ => True end).
      simpl. split_and!; [done|by apply I_cons|by eapply row_sid|]. left. eexists _, _. left.
    + intros st tr before e [-> HI] e'. simpl. split_and!; [done|by apply I_cons|done].
  - intros [r|e].
    + apply t_modify. intros st tr (-> & HI & Hs & Hr). destruct (Hun _ HI) as (E1 & E2 & E3 & E4).
      destruct HI as [[_ _ _ _ _ _ H7] HK]. split; [|done]. split; [|exact HK].
      constructor; simpl; try (congruence || exact H7). intros _. rewrite Hs. done.
    + destruct (is_not_found e).
      * apply t_modify. intros st tr (-> & HI & _). destruct (Hun _ HI) as (E1 & E2 & E3 & E4).
        destruct HI as [[_ _ _ _ _ _ H7] HK]. split; [|done]. split; [|exact HK]. constructor; simpl; (congruence || exact H7).
      * apply t_fail. by intros st tr (-> & HI & _).
Qed.

(** Staging touches none of the fields the invariant reads. *)
Lemma stage_I d key raw st tr : I d st tr -> I d (stage key raw st) tr.
Proof. intros [[H1 H2 H3 H4 H5 H6 H7] HK]. unfold stage. destruct (staged st); by split. Qed.

Lemma decode_inv d :
  triple (fun st tr => I d st tr /\ loaded st = true) (decodeCells json_decode)
    (fun _ st tr => I d st tr /\ loaded st = true) (I d).
Proof.
  apply t_decode.
  - intros st tr [HI Hl] _. split; [by apply decode_I|]. by destruct (decode_keeps st) as (_ & _ & _ & _ & _ & _ & _ & _ & -> & _).
  - intros st tr [HI Hl]. by apply decode_I.
Qed.

Definition keeps {A} (d : option string) (m : M A) : Prop := triple (I d) m (fun _ => I d) (I d).

Lemma ret_inv {A} d (P : assertion) (x : A) :
  (forall st tr, P st tr -> I d st tr) -> triple P (ret x) (fun _ => I d) (I d).
Proof. intros HP. by apply t_ret. Qed.

Lemma cellGet_keeps d key : keeps d (cellGet json_decode key).
Proof.
  eapply t_bind; [apply ensureLoaded_I|intros []]. apply t_get. intros st0.
  destruct (staged_map st0 !! key); [apply ret_inv; tauto|].
  eapply t_bind; [eapply t_weaken; [apply (decode_inv d)|tauto|..]; done|intros []].
  apply t_get. intros st1. apply ret_inv; tauto.
Qed.

Lemma cellHas_keeps d key : keeps d (cellHas json_decode key).
Proof.
  eapply t_bind; [apply ensureLoaded_I|intros []]. apply t_get. intros st0.
  destruct (staged_map st0 !! key); [apply ret_inv; tauto|].
  eapply t_bind; [eapply t_weaken; [apply (decode_inv d)|tauto|..]; done|intros []].
  apply t_get. intros st1. apply ret_inv; tauto.
Qed.

(** The common opening of the staging operations. *)
Lemma open_keeps {A} d (k : M A) :
  triple (fun st tr => I d st tr /\ loaded st = true) k (fun _ => I d) (I d) ->
  keeps d (bind get (fun st0 =>
    bind (fail_if (responseStarted st0) ErrAlreadyCommitted) (fun _ => bind ensureLoaded (fun _ => k)))).
Proof.
  intros Hk. apply t_get. intros st0. eapply (t_bind _ _ (fun _ => I d)); [apply t_fail_if; tauto|intros []].
  by eapply t_bind; [apply ensureLoaded_I|intros []].
Qed.

Lemma cellSave_keeps d key raw : keeps d (cellSave json_decode key raw).
Proof.
  apply open_keeps, t_get. intros st0. eapply (t_bind _ _ (fun _ => I d)).
  - destruct (exists_ st0); [eapply t_weaken; [apply (decode_inv d)|cbv beta; tauto..]|apply ret_inv; tauto].
  - intros []. apply t_modify. intros. by apply stage_I.
Qed.

Lemma cellClear_keeps d key : keeps d (cellClear json_decode key).
Proof.
  apply open_keeps, t_get. intros st0. destruct (staged_map st0 !! key) as [[]|].
  - apply t_modify. intros st tr (_ & ? & _). by apply stage_I.
  - apply ret_inv; tauto.
  - destruct (negb (exists_ st0)); [apply ret_inv; tauto|].
    eapply t_bind; [eapply t_weaken; [apply (decode_inv d)|tauto|..]; done|intros []].
    apply t_get. intros st1. destruct (cells st1 !! key); [|apply ret_inv; tauto].
    apply t_modify. intros st tr (_ & ? & _). by apply stage_I.
Qed.

Lemma UserID_keeps d : keeps d UserID_.
Proof. eapply t_bind; [apply ensureLoaded_I|intros []]. apply t_get. intros st0. apply ret_inv; tauto. Qed.

Lemma SID_keeps d : keeps d SID_.
Proof. eapply t_bind; [apply ensureLoaded_I|intros []]. apply t_get. intros st0. apply ret_inv; tauto. Qed.

Lemma Renew_keeps d : keeps d Renew.
Proof.
  apply open_keeps, t_get. intros st0.
  eapply (t_bind _ _ (fun _ => I d)); [apply t_fail_if; tauto|intros []].
  apply t_modify. intros st tr [[H1 H2 H3 H4 H5 H6 H7] HK]. by split.
Qed.

Lemma Promote_keeps d u : keeps d (Promote u).
Proof.
  apply open_keeps, t_modify. intros st tr [[Hok HK] Hl]. simpl.
  destruct (exists_ st) eqn:He; destruct Hok as [H1 H2 H3 H4 H5 H6 H7];
    (split; [constructor; simpl; auto; congruence|exact HK]).
Qed.

Lemma Destroy_keeps d : keeps d Destroy.
Proof.
  apply open_keeps, t_modify. intros st tr [[Hok HK] Hl]. split.
  - destruct (exists_ st) eqn:He; constructor; simpl; try done; try congruence; intros Hx.
    + split_and!; [done|done|]. by apply (k_exists _ _ Hok).
    + split_and!; [done|done|]. by apply (k_destroyed _ _ Hok).
  - destruct Hok as [H1 _ _ _ _ _ _]. destruct d as [d|]; [|done]. destruct HK as [Hd HK]. split; [done|].
    destruct HK as [?|[Hds ?]]; [by left|]. right. destruct (H1 Hds) as (_ & He & _). by rewrite He.
Qed.

(** ** New records *)

(** An assertion that later store calls leave alone. *)
Definition stable (P : assertion) : Prop := forall st tr ev, P st tr -> P st (ev :: tr).

Lemma slideIdle_spec (P : assertion) r (Q : Rec -> assertion) (E : assertion) :
  (forall t st tr, P st tr -> Q (with_idle t r) st tr) -> triple P (slideIdle cfg r) Q E.
Proof.
  intros HQ. unfold slideIdle. destruct (0 <? cIdleExpiry cfg).
  - eapply (t_bind _ _ (fun _ => P)); [by apply t_now|]. intros t. apply t_ret. auto.
  - apply t_ret. intros st tr HP. specialize (HQ (IdleExpiry r) st tr HP). by destruct r.
Qed.

(** What [insertFresh] gives back: the record it was asked to insert, under a new session
    ID that no stored record had. *)
Definition inserted_as (r0 stored : Rec) (tr : list Event) : Prop :=
SID stored <> ""%string /\ returned stored tr /\ Payload stored = Payload r0 /\
inserted (SID stored) (fun r => r = fresh_rec (SID stored) r0) tr.

Lemma insertLoop_spec (P : assertion) n r :
  stable P ->
  triple P (insertLoop n r) (fun stored st tr => P st tr /\ inserted_as r stored tr) P.
Proof.
  intros HP. induction n as [|n IH]; simpl.
  all: eapply (t_bind _ _ (fun sid st tr => sid <> ""%string /\ P st tr)); [by apply t_mintSID|].
  all: intros sid; apply t_pure; intros Hsid.
  all: eapply (t_bind _ _ (fun res st tr => P st tr /\
         forall stored, res = Ok stored -> inserted_as r stored tr)).
  1,3: apply t_try, t_save; [|by intros; split; [apply HP|]].
  1,2: intros st tr before stored Hst [-> Hrow]; split; [by apply HP|]; intros ? [= <-];
    split_and!; [done|right; eexists _, _; left|done|];
    exists before, (fresh_rec sid r), (with_version (uint64_succ (Version (fresh_rec sid r))) (fresh_rec sid r));
    split_and!; [left|done|done|done|done].
  all: intros [stored|e]; [by apply t_ret; intros st tr [? Hin]; split; [|apply Hin]|].
  - by apply t_fail; intros st tr [? _].
  - destruct (is_conflict e); [|by apply t_fail; intros st tr [? _]].
    by eapply t_weaken; [exact IH|intros st tr [? _]|..].
Qed.

Lemma inserted_as_user r0 stored tr :
  inserted_as r0 stored tr -> inserted (SID stored) (for_user (UserID r0)) tr.
Proof. intros (_ & _ & _ & b & r & s & ? & ? & ? & ? & ->). by exists b, (fresh_rec (SID stored) r0), s. Qed.

(** [newRecord] reads the user of the request. *)
Lemma newRecord_spec (P : assertion) payload E :
  triple P (newRecord cfg payload)
    (fun r st tr => P st tr /\ Payload r = payload /\
       UserID r = (if promote st then promotedID st else ""%string)) E.
Proof.
  eapply (t_bind _ _ (fun _ => P)); [by apply t_now|]. intros t. apply t_get. intros st0.
  apply t_ret. by intros st tr [-> ?].
Qed.

(** ** Pending logouts *)

Definition logged_out (d : option string) (tr : list Event) : Prop :=
match d with Some d => deleted d tr | None => True end.

Lemma logged_out_cons d tr ev : logged_out d tr -> logged_out d (ev :: tr).
Proof. destruct d; [apply deleted_cons|done]. Qed.

(** After it nothing is pending; [F] is what else the code knows of the state. *)
Lemma deleteDestroyed_from d (F : state -> Prop) st1 :
  (forall st, F st -> F (set_destroyedSID "" (set_destroyed false st))) ->
  triple (fun st tr => st = st1 /\ I d st tr /\ F st) deleteDestroyed
    (fun b st tr => b = destroyed st1 /\ I d st tr /\ F st /\ destroyed st = false /\ logged_out d tr)
    (fun st tr => I d st tr /\ F st).
Proof.
  intros HF. apply t_get. intros st0. destruct (destroyed st0 && _) eqn:Ed.
  - apply andb_true_iff in Ed as [Ed Hne%negb_true_iff%bool_decide_eq_false].
    eapply (t_bind _ _ (fun _ st tr => st0 = st1 /\ st = st0 /\ (I d st tr /\ F st) /\ deleted (destroyedSID st0) tr)).
    { apply t_delete.
      - intros st tr before (-> & -> & HI & Hf). split_and!; [done|done|by apply I_cons|done|]. exists before. left.
      - intros st tr before e (-> & -> & HI & Hf). split; [by apply I_cons|done]. }
    intros []. apply t_pure. intros <-.
    eapply (t_bind _ _ (fun _ st tr => I d st tr /\ F st /\ destroyed st = false /\ logged_out d tr));
      [|intros []; by apply t_ret].
    apply t_modify. intros st tr (-> & [[[H1 H2 H3 H4 H5 H6 H7] HK] Hf] & Hdel).
    assert (logged_out d tr) as Hlo.
    { destruct d as [d|]; [|done]. destruct HK as [_ [?|[_ <-]]]; done. }
    split_and!; [split|by apply HF|done|done].
    + constructor; simpl; done.
    + destruct d as [d|]; [|done]. split; [apply HK|by left].
  - apply t_ret. intros st tr (-> & -> & [Hok HK] & Hf).
    assert (Hd : destroyed st1 = false).
    { destruct (destroyed st1) eqn:E; [|done]. destruct (k_destroyed _ _ Hok E) as (_ & _ & Hne).
      simpl in Ed. by rewrite bool_decide_eq_false_2 in Ed. }
    split_and!; [done|by split|done|done|].
    destruct d as [d|]; [|done]. destruct HK as [_ [?|[? _]]]; [done|congruence].
Qed.

Lemma deleteDestroyed_spec d (F : state -> Prop) :
  (forall st, F st -> F (set_destroyedSID "" (set_destroyed false st))) ->
  triple (fun st tr => I d st tr /\ F st) deleteDestroyed
    (fun b st tr => I d st tr /\ F st /\ destroyed st = false /\ logged_out d tr)
    (fun st tr => I d st tr /\ F st).
Proof.
  intros HF. apply t_exists. intros st1.
  eapply t_weaken; [by apply (deleteDestroyed_from d F st1)|done| |done]. by intros b st tr [_ ?].
Qed.

(** A session established from the merged view. *)
Lemma established_I d st tr r0 stored c tn :
  I d st tr -> loaded st = true -> destroyed st = false -> inserted_as r0 stored tr ->
  UserID r0 = (if promote st then promotedID st else ""%string) ->
  encodeEnvelope c = Some (Payload r0) -> (tn = false -> tokenNeeded st = false -> promote st = false) ->
  I d (set_staged None (set_tokenNeeded (tn || tokenNeeded st) (set_cellsDecoded true (set_cells c
        (set_exists_ true (set_record_ stored st)))))) tr.
Proof.
  intros [[H1 H2 H3 H4 H5 H6 H7] HK] Hl Hd Hin Hu Hc Htn. split; [|exact HK].
  pose proof (inserted_as_user _ _ _ Hin) as Hins. destruct Hin as (Hs & Hr & Hp & _).
  constructor; simpl; try done.
  - by rewrite Hd.
  - intros Hpr _ _. rewrite Hpr in Hu. split; [|by rewrite <-Hu].
    destruct tn, (tokenNeeded st); try done. by rewrite Htn in Hpr.
  - intros _ _ _. right. left. by rewrite Hp.
Qed.

Definition idle_session (st : state) : Prop := loaded st = true /\ exists_ st = false.

Lemma mintForUpdate_keeps d key out :
  triple (fun st tr => I d st tr /\ idle_session st) (mintForUpdate json_encode cfg key out)
    (fun _ => I d) (I d).
Proof.
  unfold mintForUpdate. eapply t_bind; [eapply t_weaken; [by apply (deleteDestroyed_spec d idle_session)|done|done|by intros ? ? [? _]]|].
  intros b. apply t_get. intros st0.
  set (c := <[key := out]> (mergedView st0)).
  set (P := fun st tr => st = st0 /\ I d st tr /\ idle_session st /\ destroyed st = false).
  assert (HP : stable P) by (intros st tr ev (-> & ? & ? & ?); split_and!; auto).
  eapply (t_bind _ _ (fun payload st tr => encodeEnvelope c = Some payload /\ P st tr)).
  { apply t_of_option; [intros; unfold P; tauto|tauto]. }
  intros payload. apply t_pure. intros Hp.
  eapply t_bind; [apply newRecord_spec|]. intros r.
  eapply (t_bind _ _ (fun stored st tr => (P st tr /\ Payload r = payload /\
      UserID r = (if promote st then promotedID st else ""%string)) /\ inserted_as r stored tr)).
  { eapply t_weaken; [apply (insertLoop_spec (fun st tr => P st tr /\ Payload r = payload /\
      UserID r = (if promote st then promotedID st else ""%string)))|done|done|].
    - intros st tr ev (HPs & ? & ?). split_and!; [by apply HP|done..].
    - by intros st tr ((_ & ? & _) & _). }
  intros stored. apply t_modify. intros st tr (((-> & HI & [Hl He] & Hd) & Hpay & Hu) & Hin).
  apply (established_I d st0 tr r stored c true); [done|done|done|done|done| |done].
  by rewrite Hpay.
Qed.

(** ** Updates of an established session *)

(** Cells are at hand, once a session exists. *)
Definition ready (st : state) : Prop :=
loaded st = true /\ (exists_ st = true -> cellsDecoded st = true /\ envErr st = None).

Lemma decode_ready st : cellsDecoded st = true -> envErr st = None -> decode_to st = (st, Ok tt).
Proof. unfold decode_to. by intros -> ->. Qed.

(** [updateBase] reads the staged value, or the stored cell. *)
Lemma updateBase_spec (P : assertion) key :
  (forall st tr, P st tr -> ready st) ->
  triple P (updateBase json_decode key)
    (fun b st tr => P st tr /\
       b.1.1 = match staged_map st !! key with
               | Some v => v
               | None => if exists_ st then cells st !! key else None end) P.
Proof.
  intros HP. apply t_get. intros st0. destruct (staged_map st0 !! key) eqn:Es.
  { apply t_ret. intros st tr [-> ?]. by rewrite Es. }
  destruct (exists_ st0) eqn:Ex.
  - eapply (t_bind _ _ (fun _ st tr => st = st0 /\ P st tr)).
    { apply t_decode; intros st tr [-> HPs]; destruct (HP _ _ HPs) as [_ Hr];
        destruct (Hr Ex); rewrite decode_ready by done; done. }
    intros []. apply t_get. intros st1. apply t_ret. intros st tr [-> [-> ?]]. by rewrite Es, Ex.
  - apply t_ret. intros st tr [-> ?]. by rewrite Es, Ex.
Qed.

(** A session whose record a store call returned, with its cells. *)
Lemma reload_I d st tr r c :
  I d st tr -> ready st -> exists_ st = true -> SID r = SID (record_ st) -> returned r tr -> holds r c ->
  I d (set_cells c (set_record_ r st)) tr.
Proof.
  intros [[H1 H2 H3 H4 H5 H6 H7] HK] Hr He Hs Hret Hh. destruct (H2 He) as (? & ? & ?).
  split; [|exact HK]. constructor; simpl; rewrite ?Hs; try done.
Qed.

Lemma reloadCells_spec d (F : state -> Prop) :
  (forall st r c, F st -> F (set_cells c (set_record_ r st))) ->
  triple (fun st tr => I d st tr /\ (ready st /\ exists_ st = true) /\ F st) (reloadCells json_decode)
    (fun _ st tr => I d st tr /\ (ready st /\ exists_ st = true) /\ F st) (I d).
Proof.
  intros HF. apply t_get. intros st0.
  eapply (t_bind _ _ (fun r st tr => (SID r = SID (record_ st0) /\ returned r tr) /\
    st = st0 /\ I d st tr /\ (ready st /\ exists_ st = true) /\ F st)).
  { apply t_load.
    - intros st tr before r (-> & HI & Hr & Hf) Hrow. split_and!; [by eapply row_sid|..]; try done.
      + left. eexists _, _. left.
      + by apply I_cons.
      + apply Hr. + apply Hr.
    - intros st tr before e (-> & HI & _). by apply I_cons. }
  intros r. eapply (t_bind _ _ (fun c st tr => holds r c /\ (SID r = SID (record_ st0) /\ returned r tr) /\
    st = st0 /\ I d st tr /\ (ready st /\ exists_ st = true) /\ F st)).
  { apply t_of_option; [|tauto]. intros c st tr Hc HP. split; [by left|done]. }
  intros c. apply t_modify. intros st tr (Hh & (Hs & Hret) & -> & HI & [Hr He] & Hf).
  split_and!; [by apply reload_I| |done|by apply HF]. done.
Qed.

(** A closure without effects on the session, as [Handle.Update] asks for. *)
Definition pure_fn (fn : option string -> result Error string) (base : option string) : M string :=
match fn base with Ok out => ret out | Err e => fail e end.

(** An update was written: over the cells [m] of a record [r1] a store call returned, at
    that record's version, and the new value was computed from [m] or from the staged value. *)
Definition updated (sv : option (option string)) (key : string)
  (fn : option string -> result Error string) (tr : list Event) : Prop :=
exists before r stored r1 m out,
  ESave before r (Ok stored) ∈ tr /\ replaced before r stored /\
  returned r1 tr /\ SID r1 = SID r /\ Version r1 = Version r /\ holds r1 m /\
  fn (match sv with Some v => v | None => m !! key end) = Ok out /\
  encodeEnvelope (<[key := out]> m) = Some (Payload r).

Definition established d (st : state) (tr : list Event) : Prop :=
I d st tr /\ (ready st /\ exists_ st = true).

Lemma established_cons d st tr ev : established d st tr -> established d st (ev :: tr).
Proof. intros [? ?]. split; [by apply I_cons|done]. Qed.

Lemma saved_I d st tr before r stored m payload t :
  established d st tr -> r = with_idle t (with_payload payload (record_ st)) ->
  encodeEnvelope m = Some payload -> replaced before r stored ->
  I d (set_cells m (set_record_ stored st)) (ESave before r (Ok stored) :: tr).
Proof.
  intros [HI [Hr He]] -> Hm [-> _]. apply reload_I; [by apply I_cons|done|done|done| |].
  - right. eexists _, _. left.
  - right. by left.
Qed.

(** One attempt of the loop; [retry] follows a failed save. *)
Definition attempt key (fn : option string -> M string) (retry : Error -> M unit) : M unit :=
bind (updateBase json_decode key) (fun '(base, stagedBase, seq) =>
bind (fn base) (fun out =>
bind get (fun st =>
if negb (exists_ st) then mintForUpdate json_encode cfg key out
else
  let merged := <[key := out]> (cells st) in
  bind (of_option (encodeEnvelope merged) EEncode) (fun payload =>
  bind (slideIdle cfg (with_payload payload (record_ st))) (fun r =>
  bind (try (store_Save r)) (fun res =>
  match res with
  | Ok stored =>
      modify (fun st =>
        let st := set_tokenNeeded true (set_cells merged (set_record_ stored st)) in
        if stagedBase && bool_decide (default O (stagedSeq st !! key) = seq)
        then set_staged (delete key <$> staged st) st else st)
  | Err e => retry e
  end)))))).

Definition retry key fn n (e : Error) : M unit :=
match n with
| O => fail e
| S n => if is_conflict e
         then bind (reloadCells json_decode) (fun _ => updateLoop json_decode json_encode cfg n key fn)
         else fail e
end.

Lemma updateLoop_eq n key fn :
  updateLoop json_decode json_encode cfg n key fn = attempt key fn (retry key fn n).
Proof. by destruct n. Qed.

Definition with_staged d key sv (st : state) (tr : list Event) : Prop :=
established d st tr /\ staged_map st !! key = sv.

(** The state and the trace after an attempt's successful save. *)
Lemma attempt_saved d st tr before r stored payload out key fn sv t base :
  with_staged d key sv st tr ->
  fn base = Ok out -> base = match sv with Some v => v | None => cells st !! key end ->
  encodeEnvelope (<[key := out]> (cells st)) = Some payload ->
  r = with_idle t (with_payload payload (record_ st)) -> replaced before r stored ->
  I d (set_cells (<[key := out]> (cells st)) (set_record_ stored st)) (ESave before r (Ok stored) :: tr) /\
  updated sv key fn (ESave before r (Ok stored) :: tr).
Proof.
  intros [Hest Hsv] Hfn Hb Hpl Hr Hrep. split; [by eapply saved_I|].
  exists before, r, stored, (record_ st), (cells st), out.
  destruct Hest as [[Hok _] [[_ Hrdy] He]]. destruct (Hrdy He), (k_exists _ _ Hok He) as (_ & _ & ?).
  split_and!; [left|done|by apply returned_cons|by rewrite Hr|by rewrite Hr|by apply (k_cells _ _ Hok)
              |by rewrite <-Hb|by rewrite Hr].
Qed.

(** Clearing the token flag's and the staged value's bookkeeping keeps the invariant. *)
Lemma settled_I d st tr (b : bool) key :
  I d st tr ->
  I d (let st := set_tokenNeeded true st in
       if b then set_staged (delete key <$> staged st) st else st) tr.
Proof.
  intros [[H1 H2 H3 H4 H5 H6 H7] HK]. destruct b; (split; [constructor; simpl; try done|exact HK]);
    intros Hpr Hex Hrn; (split; [done|by apply (H4 Hpr Hex Hrn)]).
Qed.

Lemma attempt_spec d key fn sv k :
  (forall e, triple (with_staged d key sv) (k e) (fun _ st tr => I d st tr /\ updated sv key fn tr) (I d)) ->
  triple (with_staged d key sv) (attempt key (pure_fn fn) k)
    (fun _ st tr => I d st tr /\ updated sv key fn tr) (I d).
Proof.
  intros Hk. assert (Hdrop : forall st tr, with_staged d key sv st tr -> I d st tr) by (intros st tr [[? _] _]; done).
  eapply t_bind; [eapply t_weaken; [apply (updateBase_spec (with_staged d key sv));
    by intros st tr [[_ [? _]] _]|done|done|done]|].
  intros [[base stagedBase] seq]; cbn [fst].
  eapply (t_bind _ _ (fun out st tr => fn base = Ok out /\ with_staged d key sv st tr /\
    base = match sv with Some v => v | None => cells st !! key end)).
  { unfold pure_fn. destruct (fn base) eqn:Ef; [apply t_ret|apply t_fail; by intros st tr [? _]; apply Hdrop].
    intros st tr [Hws Hb]. destruct Hws as [[? [? He]] Hsv]. rewrite Hsv, He in Hb. done. }
  intros out. apply t_pure. intros Hfn. apply t_get. intros st0.
  destruct (exists_ st0) eqn:Ex; cbn [negb].
  2: { intros env st w st' w' r (-> & [[_ [_ He]] _] & _). congruence. }
  set (m := <[key := out]> (cells st0)).
  set (P := fun st tr => st = st0 /\ with_staged d key sv st tr /\
    base = match sv with Some v => v | None => cells st !! key end).
  assert (HP : stable P)
    by (intros st tr ev (? & [? ?] & ?); split_and!; [done|split; [by apply established_cons|done]|done]).
  assert (HPI : forall st tr, P st tr -> I d st tr) by (intros st tr (_ & ? & _); auto).
  eapply (t_bind _ _ (fun payload st tr => encodeEnvelope m = Some payload /\ P st tr)); [by apply t_of_option|].
  intros payload. apply t_pure. intros Hpl.
  eapply (t_bind _ _ (fun r st tr => (exists t, r = with_idle t (with_payload payload (record_ st0))) /\ P st tr)).
  { apply slideIdle_spec. intros t st tr Hst. split; [by exists t|done]. }
  intros r. apply t_pure. intros [t Hr].
  eapply (t_bind _ _ (fun res st tr => P st tr /\ match res with
    | Ok stored => I d (set_cells m (set_record_ stored st)) tr /\ updated sv key fn tr
    | Err _ => True end)).
  { apply t_try, t_save; [|by intros st tr before e Hst e'; split; [apply HP|]].
    intros st tr before stored Hst Hrep. split; [by apply HP|]. destruct Hst as (-> & Hws & Hb).
    by eapply attempt_saved. }
  intros [stored|e].
  - apply t_modify. intros st tr (_ & HI & Hup). split; [|done]. by apply (settled_I _ _ _ (stagedBase && _)).
  - eapply t_weaken; [apply Hk| |done|done]. by intros st tr ((_ & ? & _) & _).
Qed.

Lemma updateLoop_spec d n key fn sv :
  triple (with_staged d key sv) (updateLoop json_decode json_encode cfg n key (pure_fn fn))
    (fun _ st tr => I d st tr /\ updated sv key fn tr) (I d).
Proof.
  induction n as [|n IH]; rewrite updateLoop_eq; apply attempt_spec; intros e; simpl.
  - apply t_fail. by intros st tr [[? _] _].
  - destruct (is_conflict e); [|apply t_fail; by intros st tr [[? _] _]].
    eapply t_bind; [|intros []; eapply t_weaken; [exact IH| |done|done]].
    + eapply t_weaken; [apply (reloadCells_spec d (fun st => staged_map st !! key = sv)); done| |done|done].
      by intros st tr [[? ?] ?].
    + by intros st tr (? & ? & ?).
Qed.

(** Without a session an update mints one, in its first attempt. *)
Lemma updateLoop_mints d n key fn :
  triple (fun st tr => I d st tr /\ idle_session st)
    (updateLoop json_decode json_encode cfg n key (pure_fn fn)) (fun _ => I d) (I d).
Proof.
  rewrite updateLoop_eq. set (P := fun st tr => I d st tr /\ idle_session st).
  assert (Hdrop : forall st tr, P st tr -> I d st tr) by (intros st tr [? _]; done).
  eapply t_bind; [eapply t_weaken; [apply (updateBase_spec P)|done|done|done]|].
  { intros st tr (_ & ? & He). split; [done|]. congruence. }
  intros [[base stagedBase] seq].
  eapply (t_bind _ _ (fun _ => P)).
  { unfold pure_fn. destruct (fn base); [apply t_ret|apply t_fail]; intros st tr [? _]; auto. }
  intros out. apply t_get. intros st0. destruct (exists_ st0) eqn:Ex; cbn [negb].
  - intros env st w st' w' r (-> & _ & _ & He). congruence.
  - eapply t_weaken; [apply mintForUpdate_keeps|by intros st tr [_ ?]|done|done].
Qed.

(** [cellUpdate] before its loop. *)
Lemma cellUpdate_ready d :
  triple (I d)
    (bind ensureLoaded (fun _ => bind get (fun st =>
       bind (fail_if (negb (exists_ st) && responseStarted st) ErrAlreadyCommitted) (fun _ =>
       if exists_ st then decodeCells json_decode else ret tt))))
    (fun _ st tr => I d st tr /\ ready st) (I d).
Proof.
  eapply t_bind; [apply ensureLoaded_I|intros []]. apply t_get. intros st0.
  eapply (t_bind _ _ (fun _ st tr => st = st0 /\ I d st tr /\ loaded st = true)); [apply t_fail_if; tauto|].
  intros []. destruct (exists_ st0) eqn:Ex.
  - apply t_decode; intros st tr (-> & HI & Hl); [intros Hd|by apply decode_I]. split; [by apply decode_I|].
    destruct (decode_keeps st0) as (_ & _ & _ & _ & _ & _ & _ & _ & E9 & _ & _ & E12 & _).
    split; [by rewrite E9|]. intros _. split; [done|]. revert Hd. unfold decode_to.
    destruct (cellsDecoded st0) eqn:Ec; [by destruct (envErr st0) eqn:Ee|].
    pose proof (k_env _ _ (proj1 HI) Ec).
    destruct (negb _ || _); simpl; [done|]. by destruct (json_decode _).
  - apply t_ret. intros st tr (-> & HI & Hl). split; [done|]. split; [done|]. congruence.
Qed.

(** The loop runs from a ready state. *)
Lemma cellUpdate_split key fn env st w :
  cellUpdate json_decode json_encode cfg key fn env st w =
  bind (bind ensureLoaded (fun _ => bind get (fun st =>
     bind (fail_if (negb (exists_ st) && responseStarted st) ErrAlreadyCommitted) (fun _ =>
     if exists_ st then decodeCells json_decode else ret tt))))
   (fun _ => updateLoop json_decode json_encode cfg (maxRetries cfg) key fn) env st w.
Proof.
  unfold cellUpdate, bind, get, fail_if, fail, ret.
  destruct (ensureLoaded env st w) as [[st1 w1] []]; [|done]. by destruct (_ && _).
Qed.

Lemma cellUpdate_keeps d key fn :
  keeps d (cellUpdate json_decode json_encode cfg key (pure_fn fn)).
Proof.
  intros env st w st' w' r HI. rewrite cellUpdate_split. revert env st w st' w' r HI.
  change (triple (I d) (bind (bind ensureLoaded (fun _ => bind get (fun st =>
     bind (fail_if (negb (exists_ st) && responseStarted st) ErrAlreadyCommitted) (fun _ =>
     if exists_ st then decodeCells json_decode else ret tt))))
   (fun _ => updateLoop json_decode json_encode cfg (maxRetries cfg) key (pure_fn fn))) (fun _ => I d) (I d)).
  eapply t_bind; [apply cellUpdate_ready|]. intros [] env st w st' w' r [HI Hr] E.
  destruct (exists_ st) eqn:Ex.
  - pose proof (updateLoop_spec d (maxRetries cfg) key fn (staged_map st !! key) env st w st' w' r
      (conj (conj HI (conj Hr Ex)) eq_refl) E) as Hsp. destruct r; [apply Hsp|done].
  - destruct Hr as [Hl _]. exact (updateLoop_mints d _ key fn _ _ _ _ _ _ (conj HI (conj Hl Ex)) E).
Qed.

(** ** Requests *)

Inductive Req :=
| QGet (key : string)
| QHas (key : string)
| QSave (key raw : string)
| QClear (key : string)
| QUpdate (key : string) (fn : option string -> result Error string)
| QRenew
| QPromote (u : string)
| QDestroy
| QUserID
| QSID.

(** The handler may ignore what an operation answers. *)
Definition run_req (q : Req) (env : Env) (st : state) (w : World) : state * World :=
match q with
| QGet key => (cellGet json_decode key env st w).1
| QHas key => (cellHas json_decode key env st w).1
| QSave key raw => (cellSave json_decode key raw env st w).1
| QClear key => (cellClear json_decode key env st w).1
| QUpdate key fn => (cellUpdate json_decode json_encode cfg key (pure_fn fn) env st w).1
| QRenew => (Renew env st w).1
| QPromote u => (Promote u env st w).1
| QDestroy => (Destroy env st w).1
| QUserID => (UserID_ env st w).1
| QSID => (SID_ env st w).1
end.

Fixpoint run_reqs (qs : list Req) (env : Env) (st : state) (w : World) : state * World :=
match qs with
| [] => (st, w)
| q :: qs => let '(st, w) := run_req q env st w in run_reqs qs env st w
end.

Lemma keeps_run {A} d (m : M A) env st w :
  keeps d m -> I d st (w_trace w) -> I d (m env st w).1.1 (w_trace (m env st w).1.2).
Proof.
  intros Hm HI. destruct (m env st w) as [[st' w'] r] eqn:E.
  specialize (Hm _ _ _ _ _ _ HI E). by destruct r.
Qed.

Lemma run_req_I d q env st w :
  I d st (w_trace w) -> I d (run_req q env st w).1 (w_trace (run_req q env st w).2).
Proof.
  intros HI. destruct q; apply keeps_run; try done;
    auto using cellGet_keeps, cellHas_keeps, cellSave_keeps, cellClear_keeps, cellUpdate_keeps,
      Renew_keeps, Promote_keeps, Destroy_keeps, UserID_keeps, SID_keeps.
Qed.

Lemma run_reqs_I d qs env st w :
  I d st (w_trace w) -> I d (run_reqs qs env st w).1 (w_trace (run_reqs qs env st w).2).
Proof.
  revert st w. induction qs as [|q qs IH]; intros st w HI; [done|]. cbn [run_reqs].
  pose proof (run_req_I d q env st w HI). destruct (run_req q env st w). by apply IH.
Qed.

Lemma newState_I sid tr : I None (newState sid) tr.
Proof. split; [|done]. by constructor. Qed.

(** ** What a request leaves alone

    A property of the request that survives loading, reads, staging and renewal survives
    every operation but an update, a promotion and a logout. *)

Section frame.
Context (P : assertion).

Definition frame {A} (m : M A) : Prop := triple P m (fun _ => P) P.

(** The fields such a property may read. *)
Definition view (st : state) :=
(arrivedSID st, loaded st, exists_ st, record_ st, promote st, promotedID st, renew st).

Context (P_load : frame ensureLoaded) (P_view : forall st st' tr, view st' = view st -> P st tr -> P st' tr)
  (P_renew : forall st tr, P st tr -> P (set_renew true st) tr).

Definition reads_or_stages (q : Req) : bool :=
match q with QUpdate _ _ | QPromote _ | QDestroy => false | _ => true end.

Lemma decode_view st : view (decode_to st).1 = view st.
Proof. unfold decode_to. by repeat case_match; simplify_eq/=. Qed.

Lemma stage_view key raw st : view (stage key raw st) = view st.
Proof. unfold stage. by destruct (staged st). Qed.

Lemma f_bind {A B} (m : M A) (k : A -> M B) : frame m -> (forall x, frame (k x)) -> frame (bind m k).
Proof. intros. by eapply t_bind. Qed.

Lemma f_get {A} (k : state -> M A) : (forall st, frame (k st)) -> frame (bind get k).
Proof. intros Hk. apply t_get. intros st0. eapply t_weaken; [apply Hk|by intros ? ? [_ ?]|done|done]. Qed.

Lemma f_ret {A} (x : A) : frame (ret x).
Proof. by apply t_ret. Qed.

Lemma f_fail_if b e : frame (fail_if b e).
Proof. by apply t_fail_if. Qed.

Lemma f_decode : frame (decodeCells json_decode).
Proof. apply t_decode; intros st tr HP; intros; (eapply P_view; [apply decode_view|done]). Qed.

Lemma f_stage key raw : frame (modify (stage key raw)).
Proof. apply t_modify. intros st tr HP. eapply P_view; [apply stage_view|done]. Qed.

Lemma f_renew : frame (modify (set_renew true)).
Proof. apply t_modify. auto. Qed.

#[local] Hint Resolve f_renew f_bind f_get f_ret f_fail_if f_decode f_stage : frame.
#[local] Hint Extern 1 (frame ensureLoaded) => exact P_load : frame.
#[local] Hint Extern 2 (frame (match ?x with _ => _ end)) => destruct x : frame.
#[local] Hint Extern 2 (forall _, frame _) => intros ? : frame.

Lemma req_frame q env st w :
  reads_or_stages q = true -> P st (w_trace w) ->
  P (run_req q env st w).1 (w_trace (run_req q env st w).2).
Proof.
  assert (Hr : forall A (m : M A), frame m -> P st (w_trace w) ->
    P (m env st w).1.1 (w_trace (m env st w).1.2)).
  { intros A m Hm HP. destruct (m env st w) as [[st' w'] r] eqn:E.
    specialize (Hm _ _ _ _ _ _ HP E). by destruct r. }
  intros Hq. destruct q; try done; apply Hr;
    unfold cellGet, cellHas, cellSave, cellClear, Renew, UserID_, SID_; auto 12 with frame.
Qed.
End frame.

(** A property of a loaded request is not changed by loading it. *)
Definition while_loaded (F : state -> Prop) : assertion := fun st _ => loaded st = true /\ F st.

Lemma while_loaded_load F : frame (while_loaded F) ensureLoaded.
Proof.
  apply t_get. intros st0. destruct (loaded st0) eqn:El.
  - apply t_ret. by intros st tr [-> ?].
  - intros env st w st' w' r [-> [Hl _]]. congruence.
Qed.

(** ** A login under way *)

(** The user to log in is [u], and the session it had when it was promoted, if any, is
    still the one with the ID [old] and will be rotated. *)
Definition promoted (u : string) (old : option string) (st : state) : Prop :=
promote st = true /\ promotedID st = u /\
match old with
| Some sid => exists_ st = true /\ renew st = true /\ SID (record_ st) = sid
| None => True
end.

Definition login_pending u old : assertion := while_loaded (promoted u old).

Lemma login_pending_fields u old st st' tr tr' :
  loaded st' = loaded st -> exists_ st' = exists_ st -> SID (record_ st') = SID (record_ st) ->
  promote st' = promote st -> promotedID st' = promotedID st -> renew st' = renew st ->
  login_pending u old st tr -> login_pending u old st' tr'.
Proof. unfold login_pending, while_loaded, promoted. by intros -> -> -> -> -> ->. Qed.

Lemma login_pending_any u old st tr tr' : login_pending u old st tr -> login_pending u old st tr'.
Proof. done. Qed.

#[local] Hint Resolve login_pending_any : core.

Lemma login_pending_decode u old : frame (login_pending u old) (decodeCells json_decode).
Proof.
  apply f_decode. intros st st' tr Hv. unfold view in Hv. injection Hv as ? ? ? ? ? ? ?.
  apply login_pending_fields; congruence.
Qed.

Lemma deleteDestroyed_pending u old : frame (login_pending u old) deleteDestroyed.
Proof.
  apply f_get. intros st0. destruct (destroyed st0 && _); [|apply f_ret].
  apply f_bind; [apply t_delete; by intros|]. intros _. apply f_bind; [|intros _; apply f_ret].
  apply t_modify. intros st tr. by apply login_pending_fields.
Qed.

Lemma reloadCells_pending u old : frame (login_pending u old) (reloadCells json_decode).
Proof.
  apply t_get. intros st0.
  eapply (t_bind _ _ (fun r st tr => SID r = SID (record_ st0) /\ st = st0 /\ login_pending u old st tr)).
  { apply t_load; [|by intros st tr before e [-> ?]]. intros st tr before r [-> HP] Hrow.
    split_and!; [by eapply row_sid|done|done]. }
  intros r. apply t_pure. intros Hs.
  eapply (t_bind _ _ (fun _ st tr => st = st0 /\ login_pending u old st tr));
    [apply t_of_option; [tauto|by intros ? ? [_ ?]]|].
  intros c. apply t_modify. intros st tr [-> HP]. by eapply login_pending_fields; [..|exact HP].
Qed.

Lemma mintForUpdate_pending u old key out :
  triple (fun st tr => login_pending u old st tr /\ exists_ st = false)
    (mintForUpdate json_encode cfg key out) (fun _ => login_pending u old) (login_pending u old).
Proof.
  destruct old as [sid|].
  { intros env st w st' w' r [(_ & _ & _ & He & _) Hne]. congruence. }
  eapply t_weaken; [|by intros st tr [HP _]; exact HP|by intros ? ? ? HP; exact HP|done].
  set (P := login_pending u None). apply (f_bind P); [apply deleteDestroyed_pending|]. intros _.
  apply f_get. intros st0. apply f_bind; [by apply t_of_option|]. intros payload.
  apply f_bind.
  { eapply t_weaken; [apply (newRecord_spec P payload P)|done|by intros ? ? ? [? _]|done]. }
  intros r. apply f_bind.
  { eapply t_weaken; [apply (insertLoop_spec P); by intros st tr ev|done|by intros ? ? ? [? _]|done]. }
  intros stored. apply t_modify. intros st tr (Hl & Hp & Hu & _). by split_and!.
Qed.

Lemma updateLoop_pending u old n key fn :
  frame (login_pending u old) (updateLoop json_decode json_encode cfg n key (pure_fn fn)).
Proof.
  induction n as [|n IH]; rewrite updateLoop_eq.
  all: apply f_bind.
  1,3: unfold updateBase; apply f_get; intros st0; destruct (staged_map st0 !! key); [apply f_ret|];
    destruct (exists_ st0); [|apply f_ret]; apply f_bind; [apply login_pending_decode|]; intros _;
    apply f_get; intros; apply f_ret.
  all: intros [[base stagedBase] seq]; apply f_bind; [unfold pure_fn; destruct (fn base); [apply f_ret|by apply t_fail]|].
  all: intros out; apply t_get; intros st0; destruct (exists_ st0) eqn:He; simpl;
    [|eapply t_weaken; [apply mintForUpdate_pending|by intros st tr [-> ?]|done|done]].
  all: set (P0 := fun st tr => st = st0 /\ login_pending u old st tr).
  all: eapply (t_bind _ _ (fun _ => P0)); [by apply t_of_option; [|intros ? ? [_ ?]]|]; intros payload.
  all: eapply (t_bind _ _ (fun r st tr => SID r = SID (record_ st0) /\ P0 st tr)); [by apply slideIdle_spec|].
  all: intros r; apply t_pure; intros Hs.
  all: eapply (t_bind _ _ (fun res st tr => (forall stored, res = Ok stored -> SID stored = SID (record_ st0)) /\ P0 st tr)).
  1,3: apply t_try, t_save; [|by intros]; intros st tr before stored HP [-> _]; split; [by intros ? [= <-]|done].
  all: intros [stored|e]; apply t_pure; intros Hst.
  1,3: apply t_modify; intros st tr [-> HP]; eapply login_pending_fields; [..|exact HP];
    destruct (stagedBase && _); try done; by apply Hst.
  - apply t_fail. by intros ? ? [_ ?].
  - simpl. eapply t_weaken; [|by intros ? ? [_ HP]; exact HP|by intros ? ? ? HP; exact HP|done].
    destruct (is_conflict e); [|by apply t_fail]. apply f_bind; [apply reloadCells_pending|]. intros _. exact IH.
Qed.

Lemma cellUpdate_pending u old key fn :
  frame (login_pending u old) (cellUpdate json_decode json_encode cfg key (pure_fn fn)).
Proof.
  apply f_bind; [apply while_loaded_load|]. intros _. apply f_get. intros st0.
  apply f_bind; [apply f_fail_if|]. intros _. apply f_bind; [|intros _; apply updateLoop_pending].
  destruct (exists_ st0); [apply login_pending_decode|apply f_ret].
Qed.

(** The operations that leave a promotion in place. *)
Definition keeps_login (q : Req) : Prop :=
match q with QPromote _ | QDestroy => False | _ => True end.

Lemma run_reqs_pending u old qs env st w :
  Forall keeps_login qs -> login_pending u old st (w_trace w) ->
  login_pending u old (run_reqs qs env st w).1 (w_trace (run_reqs qs env st w).2).
Proof.
  intros Hqs. revert st w. induction Hqs as [|q qs Hq _ IH]; intros st w HP; [done|]. cbn [run_reqs].
  assert (Hone : login_pending u old (run_req q env st w).1 (w_trace (run_req q env st w).2)).
  { destruct (reads_or_stages q) eqn:Hr.
    - apply (req_frame (login_pending u old)); [apply while_loaded_load|..|done|done].
      + intros s s' tr Hv. unfold view in Hv. injection Hv as ? ? ? ? ? ? ?.
        apply login_pending_fields; congruence.
      + intros s tr (Hl & Hp & Hu & Ho). split_and!; [done..|]. destruct old; [|done]. destruct Ho as (? & _ & ?). by split_and!.
    - destruct q; try done. simpl.
      destruct (cellUpdate _ _ _ _ _ _ _ _) as [[st' w'] r] eqn:E.
      pose proof (cellUpdate_pending u old key fn _ _ _ _ _ _ HP E). by destruct r. }
  destruct (run_req q env st w) as [st1 w1]. by apply IH.
Qed.

(** ** The session of the request's token *)

(** The store answered the load of the request's session. *)
Definition found (sid : string) (tr : list Event) : Prop := exists before r, ELoad before sid (Ok r) ∈ tr.

Definition at_token (sid : string) : assertion := fun st tr =>
(exists_ st = true -> loaded st = true /\ SID (record_ st) = sid) /\
(loaded st = false -> arrivedSID st = sid) /\ (found sid tr -> exists_ st = true).

Lemma at_token_load sid : frame (at_token sid) ensureLoaded.
Proof.
  apply t_get. intros st0. destruct (loaded st0) eqn:El; [by apply t_ret; intros st tr [-> ?]|].
  case_bool_decide as Ha.
  { apply t_modify. intros st tr [-> (H1 & H2 & H3)]. split_and!; simpl; [|done|done].
    intros He. split; [done|]. by apply H1. }
  eapply (t_bind _ _ (fun res st tr => st = st0 /\ match res with
    | Ok r => SID r = arrivedSID st0 /\ arrivedSID st0 = sid
    | Err _ => at_token sid st0 tr end)).
  - apply t_try, t_load.
    + intros st tr before r [-> (H1 & H2 & H3)] Hrow. split_and!; [done|by eapply row_sid|by apply H2].
    + intros st tr before e [-> (H1 & H2 & H3)] e'. split; [done|]. split; [exact H1|split; [exact H2|]].
      intros (b & r & Hin). apply H3. exists b, r. apply elem_of_cons in Hin as [[=]|Hin]; done.
  - intros [r|e].
    + apply t_modify. intros st tr (-> & Hs & Ha'). split_and!; simpl; [|done|done]. intros _. by rewrite Hs.
    + destruct (is_not_found e); [apply t_modify|apply t_fail]; intros st tr [-> HP]; [|done].
      destruct HP as (H1 & H2 & H3). split_and!; [|done|done]. intros He. destruct (H1 He). congruence.
Qed.

Lemma at_token_fields sid st st' tr :
  arrivedSID st' = arrivedSID st -> loaded st' = loaded st -> exists_ st' = exists_ st ->
  record_ st' = record_ st -> at_token sid st tr -> at_token sid st' tr.
Proof. unfold at_token. by intros -> -> -> ->. Qed.

(** The operations that keep the session of the token. *)
Definition keeps_token (q : Req) : Prop :=
match q with QUpdate _ _ | QDestroy => False | _ => True end.

Lemma Promote_token sid u : frame (at_token sid) (Promote u).
Proof.
  apply f_get. intros st0. apply f_bind; [apply f_fail_if|]. intros _.
  apply f_bind; [apply at_token_load|]. intros _. apply t_modify. intros st tr.
  apply at_token_fields; simpl; by case_match.
Qed.

Lemma run_reqs_token sid qs env st w :
  Forall keeps_token qs -> at_token sid st (w_trace w) ->
  at_token sid (run_reqs qs env st w).1 (w_trace (run_reqs qs env st w).2).
Proof.
  intros Hqs. revert st w. induction Hqs as [|q qs Hq _ IH]; intros st w HP; [done|]. cbn [run_reqs].
  assert (Hone : at_token sid (run_req q env st w).1 (w_trace (run_req q env st w).2)).
  { destruct (reads_or_stages q) eqn:Hr.
    - apply (req_frame (at_token sid)); [apply at_token_load|..|done|done].
      + intros s s' tr Hv. unfold view in Hv. injection Hv as ? ? ? ? ? ? ?. by apply at_token_fields.
      + intros s tr. by apply at_token_fields.
    - destruct q; try done. simpl. destruct (Promote u env st w) as [[st' w'] r] eqn:E.
      pose proof (Promote_token sid u _ _ _ _ _ _ HP E). by destruct r. }
  destruct (run_req q env st w) as [st1 w1]. by apply IH.
Qed.

Lemma newState_token sid : at_token sid (newState sid) [].
Proof. split_and!; [done|done|]. intros (b & r & Hin). by apply not_elem_of_nil in Hin. Qed.

(** What a successful promotion and a successful logout leave. *)
Lemma Promote_promotes u env st w st' w' :
  Promote u env st w = (st', w', Ok tt) ->
  login_pending u (if exists_ st' then Some (SID (record_ st')) else None) st' (w_trace w').
Proof.
  unfold Promote, bind, get, fail_if, ret, fail, modify. destruct (responseStarted st); [done|].
  destruct (ensureLoaded env st w) as [[stl wl] [[]|e]] eqn:El; [|done]. intros [= <- <-].
  assert (Hl : loaded stl = true).
  { revert El. clear. unfold ensureLoaded, bind, get, ret, modify, try, fail. destruct (loaded st) eqn:E; [by intros [= <- <-]|].
    case_bool_decide; [by intros [= <- <-]|].
    destruct (store_Load _ _ _ _) as [[s1 w1] [r|e]]; [by intros [= <- <-]|].
    destruct (is_not_found e); [by intros [= <- <-]|done]. }
  unfold login_pending, while_loaded, promoted.
  destruct (exists_ stl) eqn:He; simpl; rewrite ?He; simpl; tauto.
Qed.



(** ** The commit *)

Lemma inserted_mono sid (F G : Rec -> Prop) tr :
  (forall r, F r -> G r) -> inserted sid F tr -> inserted sid G tr.
Proof. intros HFG (b & r & s & ? & ? & ? & ? & ?). exists b, r, s. split_and!; auto. Qed.

Section commit.
(** A fact of the trace that later calls keep. *)
Context (X : list Event -> Prop) (Xcons : forall ev tr, X tr -> X (ev :: tr)).

Definition none : assertion := fun _ _ => True.

(** An established session keeps its session ID. *)
Definition same_session (sid : string) : assertion := fun st tr =>
SID (record_ st) = sid /\ exists_ st = true /\ X tr.

Lemma same_session_stable sid : stable (same_session sid).
Proof. intros st tr ev (? & ? & ?). split_and!; auto. Qed.

Lemma reload_same sid : triple (same_session sid) (reloadCells json_decode) (fun _ => same_session sid) none.
Proof.
  apply t_get. intros st0.
  eapply (t_bind _ _ (fun r st tr => SID r = sid /\ same_session sid st tr)).
  { apply t_load; [|done]. intros st tr before r (-> & Hs & ? & ?) Hrow. split_and!; auto; [|].
    - by rewrite (row_sid _ _ _ Hrow).
    - split_and!; auto. }
  intros r. eapply (t_bind _ _ (fun _ st tr => SID r = sid /\ same_session sid st tr)); [by apply t_of_option|].
  intros c. apply t_modify. intros st tr (? & _ & ? & ?). by split_and!.
Qed.

Lemma dirtyLoop_same n sid :
  triple (same_session sid) (dirtyLoop json_decode json_encode cfg n) (fun _ => same_session sid) none.
Proof.
  induction n as [|n IH]; cbn [dirtyLoop]; apply t_get; intros st0.
  all: eapply (t_bind _ _ (fun _ st tr => st = st0 /\ same_session sid st tr)); [by apply t_of_option|].
  all: intros payload; eapply (t_bind _ _ (fun r st tr => SID r = sid /\ same_session sid st tr));
    [apply slideIdle_spec; intros t st tr [-> Hs]; split; [apply Hs|done]|].
  all: intros r; apply t_pure; intros Hr.
  all: eapply (t_bind _ _ (fun res st tr => same_session sid st tr /\
         forall stored, res = Ok stored -> SID stored = sid)).
  1,3: apply t_try, t_save; [|by intros st tr before e Hs e'; split; [apply same_session_stable|]];
    intros st tr before stored Hs [-> _]; split; [by apply same_session_stable|by intros ? [= <-]].
  all: intros [stored|e].
  1,3: apply t_modify; intros st tr ((_ & ? & ?) & Hst); split_and!; [by apply Hst|done|done].
  - by apply t_fail.
  - destruct (is_conflict e); [|by apply t_fail].
    eapply t_bind; [eapply t_weaken; [apply reload_same|by intros st tr [? _]|done|done]|]. intros []. exact IH.
Qed.

Lemma commitDirty_same sid :
  triple (same_session sid) (commitDirty json_decode json_encode cfg) (fun _ => same_session sid) none.
Proof.
  eapply (t_bind _ _ (fun _ => same_session sid)); [|intros []; apply dirtyLoop_same].
  apply t_decode; [|done]. intros st tr (? & ? & ?) _. destruct (decode_keeps st) as (E1 & E2 & _).
  split_and!; [by rewrite E2|by rewrite E1|done].
Qed.

Lemma maybeBumpIdle_same sid :
  triple (same_session sid) (maybeBumpIdle cfg) (fun _ => same_session sid) none.
Proof.
  unfold maybeBumpIdle. destruct (_ || _); [by apply t_ret|]. destruct s_BumpTTL as [bump|]; [|by apply t_ret].
  eapply (t_bind _ _ (fun _ => same_session sid)); [by apply t_now|]. intros t. apply t_get. intros st0.
  destruct (_ <? _); [by apply t_ret; intros st tr [_ ?]|].
  eapply (t_bind _ _ (fun _ => same_session sid)).
  - intros env st w st' w' r [_ Hs]. unfold action. destruct (bump _ _ _ _) as [s' a].
    intros [= <- <- <-]. by apply same_session_stable.
  - intros [e|]; [by apply t_ret|].
    eapply (t_bind _ _ (fun _ => same_session sid)); [|intros []; by apply t_ret].
    apply t_modify. intros st tr (? & ? & ?). by split_and!.
Qed.

(** The commit of a request whose state is [st1] minted a session whose record satisfies [F]. *)
Definition minted (F : Rec -> Prop) : assertion := fun st tr =>
exists_ st = true /\ X tr /\ inserted (SID (record_ st)) F tr.

Lemma mintAtCommit_spec st1 :
  triple (fun st tr => st = st1 /\ X tr) (mintAtCommit json_encode cfg)
    (fun _ => minted (for_user (if promote st1 then promotedID st1 else ""%string))) none.
Proof.
  set (P := fun st tr => st = st1 /\ X tr).
  assert (HP : stable P) by (intros st tr ev [-> ?]; split; auto).
  apply t_get. intros st0. eapply (t_bind _ _ (fun _ => P)); [apply t_of_option; [tauto|done]|].
  intros payload. eapply t_bind; [apply newRecord_spec|]. intros r.
  set (P' := fun st tr => P st tr /\ UserID r = (if promote st1 then promotedID st1 else ""%string)).
  eapply (t_bind _ _ (fun stored st tr => P' st tr /\ inserted_as r stored tr)).
  - eapply t_weaken; [apply (insertLoop_spec P')|..]; [|by intros st tr ([-> ?] & _ & ?)|done|done].
    intros st tr ev [? ?]. split; [by apply HP|done].
  - intros stored. apply t_modify. intros st tr [[[-> ?] Hu] Hin]. split_and!; [done|done|].
    simpl. rewrite <-Hu. by apply inserted_as_user.
Qed.

(** The record a rotation inserts: the session's deadline, and its user unless promoted. *)
Definition rotated (st1 : state) (r : Rec) : Prop :=
UserID r = (if promote st1 then promotedID st1 else UserID (record_ st1)) /\
AbsoluteExpiry r = AbsoluteExpiry (record_ st1).

Lemma rotateAtCommit_spec st1 :
  exists_ st1 = true ->
  triple (fun st tr => st = st1 /\ X tr) (rotateAtCommit json_decode json_encode cfg)
    (fun _ st tr => minted (rotated st1) st tr /\
       exists before res, EDelete before (SID (record_ st1)) res ∈ tr) none.
Proof.
  intros He. destruct (decode_keeps st1) as (E1 & E2 & _ & _ & E5 & E6 & _).
  set (P := fun st tr => st = (decode_to st1).1 /\ X tr).
  assert (HP : stable P) by (intros st tr ev [-> ?]; split; auto).
  eapply (t_bind _ _ (fun _ => P)); [by apply t_try, t_decode; intros st tr [-> ?]|].
  intros d. apply t_get. intros st0.
  eapply (t_bind _ _ (fun _ st tr => st0 = (decode_to st1).1 /\ P st tr)).
  { destruct d; [apply t_of_option; [|done]|apply t_ret]; by intros; destruct_and?; unfold P in *; destruct_and?; subst. }
  intros payload. apply t_pure. intros ->.
  eapply (t_bind _ _ (fun r st tr => rotated st1 r /\ P st tr)).
  { apply slideIdle_spec. intros t st tr HPs. split; [|done]. unfold rotated. simpl. by rewrite E2, E5, E6. }
  intros r. apply t_pure. intros Hrot.
  eapply t_bind; [eapply t_weaken; [by apply (insertLoop_spec P)|done|done|done]|]. intros stored.
  eapply (t_bind _ _ (fun _ st tr => P st tr /\ inserted_as r stored tr /\
    exists before res, EDelete before (SID (record_ st1)) res ∈ tr)).
  { assert (Hc : forall st tr ev, P st tr /\ inserted_as r stored tr -> P st (ev :: tr) /\ inserted_as r stored (ev :: tr)).
    { intros st tr ev (? & ? & ? & ? & ?). split; [by apply HP|]. split_and!; auto. }
    apply t_try. rewrite E2. apply t_delete; intros.
    - split; [apply HP; tauto|]. split; [by apply (Hc st tr)|]. eexists _, _. left.
    - split; [apply HP; tauto|]. split; [by apply (Hc st tr)|]. eexists _, _. left. }
  intros _. apply t_modify. intros st tr ([-> ?] & Hin & Hdel). split; [|done].
  assert (Hi : inserted (SID stored) (rotated st1) tr).
  { destruct Hin as (_ & _ & _ & Hi). eapply inserted_mono; [|exact Hi]. by intros ? ->. }
  destruct d; (split_and!; [simpl; by rewrite E1|done|done]).
Qed.
End commit.

(** What a login's record has: the user, and no later deadline than the session it replaces. *)
Definition login_record (st1 : state) (r : Rec) : Prop :=
UserID r = promotedID st1 /\
(exists_ st1 = true -> renew st1 = true -> AbsoluteExpiry r = AbsoluteExpiry (record_ st1)).

Definition committed (d : option string) (st1 : state) (tok : option TokenInstr) (st : state)
  (tr : list Event) : Prop :=
logged_out d tr /\
(promote st1 = true ->
   exists sid e t, tok = Some (TWrite sid e t) /\ inserted sid (login_record st1) tr) /\
(exists_ st1 = true -> renew st1 = true ->
   exists before res, EDelete before (SID (record_ st1)) res ∈ tr) /\
(destroyed st1 = true -> pendingMint st1 = false -> tok = Some TClear).

(** The part of the state a pending logout leaves alone. *)
Definition outline (st : state) :=
(exists_ st, renew st, record_ st, promote st, promotedID st, staged st, tokenNeeded st).

Lemma outline_pendingMint st st' : outline st = outline st' -> pendingMint st = pendingMint st'.
Proof. unfold outline, pendingMint, staged_map. intros [=]. congruence. Qed.

(** The token decision, once the logout is done. *)
Definition decide_write (st : state) : M bool :=
if exists_ st && renew st then
  bind (rotateAtCommit json_decode json_encode cfg) (fun _ => ret true)
else if exists_ st && dirty st then
  bind (commitDirty json_decode json_encode cfg) (fun _ => ret true)
else if negb (exists_ st) && pendingMint st then
  bind (mintAtCommit json_encode cfg) (fun _ => ret true)
else if exists_ st then bind (maybeBumpIdle cfg) (fun bumped => ret (bumped || tokenNeeded st))
else ret false.

(** Facts about a decision that writes a token for [sid] = the record's session. *)
Definition decided d (st1 : state) (b : bool) (st : state) (tr : list Event) : Prop :=
logged_out d tr /\
(promote st1 = true -> b = true /\ inserted (SID (record_ st)) (login_record st1) tr) /\
(exists_ st1 = true -> renew st1 = true ->
   exists before res, EDelete before (SID (record_ st1)) res ∈ tr) /\
(exists_ st1 = false -> pendingMint st1 = false -> b = false).

Lemma promote_pending st : promote st = true -> pendingMint st = true.
Proof. unfold pendingMint. by intros ->. Qed.

(** A session of this request that is not renewed was inserted for the user already. *)
Lemma kept_login d st1 sid st tr (b : bool) :
  exists_ st1 = true -> renew st1 = false ->
  same_session (fun tr => logged_out d tr /\
    (promote st1 = true -> inserted sid (for_user (promotedID st1)) tr)) sid st tr ->
  (promote st1 = true -> b = true) -> decided d st1 b st tr.
Proof.
  intros He Hr (Hs & _ & Hlo & Hin) Hb. split_and!; [done| |congruence|congruence].
  intros Hp. split; [by apply Hb|]. rewrite Hs. eapply inserted_mono; [|by apply Hin].
  intros r ?. split; [done|congruence].
Qed.

Lemma decide_write_spec d st1 :
  triple (fun st tr => st = st1 /\ I d st tr /\ logged_out d tr) (decide_write st1) (decided d st1) none.
Proof.
  unfold decide_write. destruct (exists_ st1) eqn:He; [destruct (renew st1) eqn:Hr|]; cbn [andb negb].
  - eapply t_bind; [eapply t_weaken; [apply (rotateAtCommit_spec (logged_out d)); [by intros; apply logged_out_cons|done]
      |by intros st tr (-> & _ & ?)|done|done]|].
    intros []. apply t_ret. intros st tr [(_ & Hlo & Hin) Hdel]. split_and!; [done| |done|congruence].
    intros Hp. split; [done|]. eapply inserted_mono; [|exact Hin]. intros r [Hu Ha]. rewrite Hp in Hu. by split.
  - set (X := fun tr => logged_out d tr /\
      (promote st1 = true -> inserted (SID (record_ st1)) (for_user (promotedID st1)) tr)).
    assert (HX : forall ev tr, X tr -> X (ev :: tr)) by (intros ev tr [? ?]; split; auto using logged_out_cons).
    eapply (t_weaken _ (fun st tr => (promote st1 = true -> tokenNeeded st1 = true) /\
      same_session X (SID (record_ st1)) st tr) _ _ (decided d st1) _ none); [|..|done|done].
    2: { intros st tr (-> & [Hok _] & Hlo).
      assert (Hl : promote st1 = true -> tokenNeeded st1 = true /\ inserted (SID (record_ st1)) (for_user (promotedID st1)) tr)
        by (intros Hp; by apply (k_login _ _ Hok)).
      split; [apply Hl|]. split_and!; [done|done|split; [done|apply Hl]]. }
    apply t_pure. intros Htn. destruct (dirty st1).
    + eapply t_bind; [by apply (commitDirty_same X HX)|]. intros []. apply t_ret. intros st tr Hs.
      by eapply kept_login.
    + eapply t_bind; [by apply (maybeBumpIdle_same X HX)|]. intros b. apply t_ret. intros st tr Hs.
      eapply kept_login; [done|done|done|]. intros Hp. rewrite Htn by done. apply orb_true_r.
  - destruct (pendingMint st1) eqn:Hpm.
    + eapply t_bind; [eapply t_weaken; [apply (mintAtCommit_spec (logged_out d))|by intros st tr (-> & _ & ?)|done|done];
        by intros; apply logged_out_cons|].
      intros []. apply t_ret. intros st tr (_ & Hlo & Hin). split_and!; [done| |congruence|congruence].
      intros Hp. split; [done|]. rewrite Hp in Hin. eapply inserted_mono; [|exact Hin]. intros r ?. split; [done|congruence].
    + apply t_ret. intros st tr (-> & _ & Hlo). split_and!; [done| |congruence|done].
      intros Hp%promote_pending. congruence.
Qed.

Lemma set_responseStarted_I d b st tr : I d st tr -> I d (set_responseStarted b st) tr.
Proof. intros [[H1 H2 H3 H4 H5 H6 H7] HK]. by split. Qed.

(** The rest of the commit depends on the outline of the state only. *)
Lemma decided_outline d st1 st2 b st tr :
  outline st2 = outline st1 -> decided d st2 b st tr -> decided d st1 b st tr.
Proof.
  intros Ho (Hlo & Hp & Hr & Hm). pose proof (outline_pendingMint _ _ Ho) as Hpm.
  unfold outline in Ho. injection Ho as E1 E2 E3 E4 E5 _ _.
  unfold decided, login_record in *. rewrite E1, E2, E3, E4, E5, Hpm in *. done.
Qed.

(** The token instruction the commit ends with. *)
Definition instruct (b stale del : bool) : M (option TokenInstr) :=
if b then bind now (fun t => bind get (fun st =>
  ret (Some (TWrite (SID (record_ st)) (tokenExpiry (record_ st)) t))))
else if stale || del then ret (Some TClear) else ret None.

Lemma instruct_spec d st1 b stale :
  triple (fun st tr => (destroyed st1 = true -> exists_ st1 = false) /\ decided d st1 b st tr)
    (instruct b stale (destroyed st1)) (committed d st1) none.
Proof.
  apply t_pure. intros Hde. unfold instruct. destruct b.
  - eapply (t_bind _ _ (fun _ => decided d st1 true)); [by apply t_now|]. intros t. apply t_get. intros st0.
    apply t_ret. intros st tr (-> & Hlo & Hp & Hr & Hm). split_and!; [done| |done|].
    + intros Hpr. destruct (Hp Hpr) as [_ ?]. by eexists _, _, _.
    + intros Hd Hpm. by specialize (Hm (Hde Hd) Hpm).
  - assert (Hno : forall tok, (destroyed st1 = true -> tok = Some TClear) ->
      triple (decided d st1 false) (ret tok) (committed d st1) none); [|destruct (stale || _) eqn:E; apply Hno].
    + intros tok Htok. apply t_ret. intros st tr (Hlo & Hp & Hr & Hm). split_and!; [done| |done|by auto].
      intros Hpr. by destruct (Hp Hpr).
    + done.
    + intros Hd. rewrite Hd, orb_true_r in E. done.
Qed.

Lemma commit_spec d st1 :
  triple (fun st tr => st = st1 /\ I d st tr) (commit json_decode json_encode cfg) (committed d st1) none.
Proof.
  eapply (t_bind _ _ (fun _ st tr => st = set_responseStarted true st1 /\ I d st tr)).
  { apply t_modify. intros st tr [-> ?]. split; [done|]. by apply set_responseStarted_I. }
  intros []. apply t_get. intros st0.
  set (F := fun st => outline st = outline st1).
  eapply (t_bind _ _ (fun b st tr => (b = destroyed st1 /\ (destroyed st1 = true -> exists_ st1 = false)) /\
    I d st tr /\ F st /\ logged_out d tr)).
  { eapply t_weaken; [apply (deleteDestroyed_from d (fun st => F st /\ (destroyed st1 = true -> exists_ st1 = false))
      (set_responseStarted true st1))| | |done].
    - by intros st [? ?].
    - intros st tr (_ & -> & HI). split_and!; [done|done|done|]. intros Hd. by apply (k_destroyed _ _ (proj1 HI)).
    - by intros b st tr (-> & ? & [? ?] & _ & ?). }
  intros del. apply t_pure. intros [-> Hde]. apply t_get. intros st2.
  eapply (t_bind _ _ (fun b => decided d st1 b)).
  { apply (t_weaken _ (fun st tr => F st2 /\ st = st2 /\ I d st tr /\ logged_out d tr) _ _
      (decided d st1) _ none); [|by intros st tr (-> & ? & ? & ?)|done|done].
    apply t_pure. intros HF2. eapply t_weaken; [apply (decide_write_spec d st2)|done| |done].
    intros b st tr. by apply decided_outline. }
  intros b. eapply t_weaken; [apply (instruct_spec d st1 b (staleToken st0))|done|done|done].
Qed.

(** ** The theorems *)

(** The world as the request finds it. *)
Definition arrival (s : St) (n : nat) : World := mkWorld s n [].

(** C3: a login gets a fresh session for the user it promoted. If a handler promoted the
    request's session to the user [u], whatever the request did before and did afterwards
    short of another promotion or a logout, and the commit succeeded, then the response
    carries the ID of a session this request inserted under that ID where no session was,
    for the user [u]; so a session ID somebody knew before the login never becomes a
    logged-in one. A session the request had at the promotion keeps its ID until the
    commit, which tells the store to delete it and lets the new session inherit its
    absolute deadline; it is the token's session when the store answered the token's load
    and the request had made no update and no logout before. *)
Theorem login_gets_a_fresh_session qs1 qs2 env sid s n st1 w1 u st2 w2 st3 w3 tok st' w' :
  run_reqs qs1 env (newState sid) (arrival s n) = (st1, w1) ->
  Promote u env st1 w1 = (st2, w2, Ok tt) ->
  Forall keeps_login qs2 -> run_reqs qs2 env st2 w2 = (st3, w3) ->
  commit json_decode json_encode cfg env st3 w3 = (st', w', Ok tok) ->
  exists sid' e t before r stored,
    tok = Some (TWrite sid' e t) /\ ESave before r (Ok stored) ∈ w_trace w' /\
    SID stored = sid' /\ UserID stored = u /\
    (forall p, row sid' before = Some p -> Version p = 0) /\
    (exists_ st2 = true ->
       SID (record_ st3) = SID (record_ st2) /\ AbsoluteExpiry stored = AbsoluteExpiry (record_ st3) /\
       exists before' res, EDelete before' (SID (record_ st2)) res ∈ w_trace w') /\
    (Forall keeps_token qs1 -> found sid (w_trace w2) ->
       exists_ st2 = true /\ SID (record_ st2) = sid).
Proof.
  intros H1 HP Hqs H2 Hc.
  pose proof (run_reqs_I None qs1 env _ (arrival s n) (newState_I sid [])) as HI. rewrite H1 in HI.
  pose proof (Promote_keeps None u env st1 w1 _ _ _ HI HP) as HI2.
  pose proof (run_reqs_I None qs2 env st2 w2 HI2) as HI3. rewrite H2 in HI3.
  pose proof (run_reqs_pending u _ qs2 env st2 w2 Hqs (Promote_promotes u env st1 w1 _ _ HP)) as HL.
  rewrite H2 in HL. destruct HL as (_ & Hp & Hu' & Hold). cbn [fst] in *.
  destruct (commit_spec None st3 env st3 w3 st' w' _ (conj eq_refl HI3) Hc) as (_ & Hlogin & Hren & _).
  destruct (Hlogin Hp) as (sid' & e & t & -> & before & r & stored & Hin & [-> Hrow] & Hs & Hv & Hu & Ha).
  eexists sid', e, t, before, r, _. split_and!; [done|exact Hin|done|by rewrite <-Hu'| | |].
  - intros p Hpr. rewrite Hs, Hpr in Hrow. congruence.
  - intros He. rewrite He in Hold. destruct Hold as (He3 & Hr3 & Hs3). split; [done|]. rewrite <-Hs3.
    split; [by apply Ha|by apply Hren].
  - intros Hq1 Hf. pose proof (run_reqs_token sid qs1 env _ (arrival s n) Hq1 (newState_token sid)) as HT.
    rewrite H1 in HT. destruct (Promote_token sid u env st1 w1 _ _ _ HT HP) as (Hex & _ & Hfe).
    split; [by apply Hfe|by apply Hex, Hfe].
Qed.


(** A version of a stored session names one payload, and it is never 0: what stores that
    count saves and session IDs that are not reused give, short of 2^64 saves. *)
Definition coherent (tr : list Event) : Prop :=
forall r1, returned r1 tr -> Version r1 <> 0 /\
forall before r res cur, ESave before r res ∈ tr -> row (SID r1) before = Some cur ->
  Version cur = Version r1 -> Payload cur = Payload r1.

Lemma holds_payload r1 r2 m : Payload r1 = Payload r2 -> holds r1 m -> holds r2 m.
Proof. unfold holds, freshPayload. by intros ->. Qed.

(** C32: no other client's change is lost to an [Update]. Take a request that has a
    session, a closure that does not itself act on the session, and a store whose versions
    name one payload each ([coherent]). If the update succeeded, then at the moment it was
    stored the stored session held cells [m], whatever other clients had stored in
    between, and it now holds [m] with only the updated cell replaced. The new value is
    the closure's answer to that cell of [m] when the request had nothing staged for the
    cell; when it had, it is the closure's answer to the staged value (or to none, for a
    staged deletion), and the cell of [m] is overwritten by it. *)
Theorem updates_are_not_lost qs env sid s n st w key fn st' w' :
  run_reqs qs env (newState sid) (arrival s n) = (st, w) -> exists_ st = true ->
  cellUpdate json_decode json_encode cfg key (pure_fn fn) env st w = (st', w', Ok tt) ->
  coherent (w_trace w') ->
  exists before cur r stored m out,
    ESave before r (Ok stored) ∈ w_trace w' /\ row (SID r) before = Some cur /\ holds cur m /\
    fn (match staged_map st !! key with Some v => v | None => m !! key end) = Ok out /\
    holds stored (<[key := out]> m) /\ Version stored = uint64_succ (Version cur).
Proof.
  intros Hrun He Hup Hcoh. pose proof (run_reqs_I None qs env _ (arrival s n) (newState_I sid [])) as HI.
  rewrite Hrun in HI. cbn [fst snd] in HI. rewrite cellUpdate_split in Hup.
  destruct (k_exists _ _ (proj1 HI) He) as (Hl & _ & _). revert Hup. unfold bind at 1.
  destruct (bind ensureLoaded _ env st w) as [[st1 w1] []] eqn:E1; [|done]. intros Hup.
  destruct (cellUpdate_ready None env st w _ _ _ HI E1) as [HI1 Hr1].
  assert (Hst1 : st1 = (decode_to st).1).
  { revert E1. unfold bind, ensureLoaded, bind, get, fail_if, ret. simpl. rewrite Hl. simpl. rewrite He. simpl.
    rewrite decodeCells_eq. intros E1. by destruct (decode_to st) as [? []]; simplify_eq/=. }
  destruct (decode_keeps st) as (Ex & _ & Es & _).
  destruct (updateLoop_spec None (maxRetries cfg) key fn (staged_map st !! key) env st1 w1 st' w' _
    ltac:(split; [split; [exact HI1|split; [exact Hr1|by rewrite Hst1, Ex]]|by unfold staged_map; rewrite Hst1, Es]) Hup)
    as (_ & before & r & stored & r1 & m & out & Hin & [-> Hrow] & Hret & Hs & Hv & Hm & Hfn & Henc).
  destruct (Hcoh r1 Hret) as [Hne Hpay]. destruct (row (SID r) before) as [cur|] eqn:Ecur; [|congruence].
  exists before, cur, r, (with_version (uint64_succ (Version r)) r), m, out. split_and!; [done|done| |done| |].
  - eapply holds_payload; [|exact Hm]. symmetry. eapply Hpay; [done|by rewrite Hs|congruence].
  - right. by left.
  - simpl. congruence.
Qed.
End spec.
