(* ===== verification/SessionRun.v ===== *)
(** The in-process session store implements the interface the session manager relies on,
    and requests that run on it: a login, a logout, an update that meets a concurrent one. *)

From S2P Require Import Prelude.
From S2P Require Import GoTime.
From S2P Require Import SessionStore.
From S2P Require Import SessionManager.
From S2P Require Import SessionSpec.

Local Open Scope Z_scope.

(** ** The store, in the states its methods reach *)

Definition ValidStore : Type := { s : MemoryStore | index_ok s }.

Definition valid (s : MemoryStore) (H : index_ok s) : ValidStore := exist _ s H.

#[export] Instance memory_store : Store ValidStore := {
  s_Load c sid s :=
    (valid _ (Load_ok (canceled c) (at_ c) (later c) sid _ (proj2_sig s)),
     (SessionStore.Load (canceled c) (at_ c) (later c) sid (proj1_sig s)).2);
  s_Save c r s :=
    (valid _ (Save_ok (canceled c) r _ (proj2_sig s)), (SessionStore.Save (canceled c) r (proj1_sig s)).2);
  s_Delete c sid s :=
    (valid _ (run_op_ok (ODelete (canceled c) sid) _ (proj2_sig s)),
     (SessionStore.Delete (canceled c) sid (proj1_sig s)).2);
  s_BumpTTL := Some (fun c sid until s =>
    (valid _ (BumpTTL_ok (canceled c) (at_ c) sid until _ (proj2_sig s)),
     (SessionStore.BumpTTL (canceled c) (at_ c) sid until (proj1_sig s)).2))
}.

#[export] Instance memory_lawful : LawfulStore ValidStore.
Proof.
  refine {| row sid s := records (proj1_sig s) !! sid |}.
  - intros sid [s H] r. apply (io_sid s H).
  - intros c sid [s H] r. simpl. unfold SessionStore.Load.
    destruct (canceled c); [done|]. destruct (records s !! sid) as [r0|]; [|done].
    destruct (expired r0 (at_ c)); simpl; congruence.
  - intros c r [s H] r'. simpl. unfold SessionStore.Save.
    destruct (canceled c); [done|]. case_bool_decide; [done|].
    destruct (records s !! SID r) as [p|] eqn:E.
    + destruct (Version p =? Version r) eqn:Ev; simpl; [|done]. intros [= <-]. split; [done|]. by zbool.
    + destruct (Version r =? 0) eqn:Ev; simpl; [|done]. intros [= <-]. split; [done|]. by zbool.
Defined.

(** ** A manager *)

Definition settings : Config := mkConfig Hour (30 * Minute) Minute 3.

Example settings_valid : New settings = Ok settings.
Proof. reflexivity. Qed.

(** A codec for sessions that only have the app's cell. *)
Definition one_cell_decode (p : string) : option (gmap string string) :=
  if bool_decide (p = "{}"%string) then Some ∅ else Some {[ appKey := p ]}.
Definition one_cell_encode (m : gmap string string) : option string := m !! appKey.

(** Names drawn by action number; the other clients do nothing, or what [step] says. *)
Definition sid_no (n : nat) : option string := Some ("sid" +:+ pretty.pretty n).

Definition quiet (step : nat -> ValidStore -> ValidStore) : Env ValidStore :=
  mkEnv step (fun n => mkCall false Minute Minute) (fun _ => Minute) sid_no.

Definition alone : Env ValidStore := quiet (fun _ s => s).

Definition empty : ValidStore := valid NewMemoryStore New_index_ok.

Definition guest : Rec := mkRec "guest" 0 "" Hour Hour "cart".
Definition with_guest : ValidStore := (s_Save (mkCall false Minute Minute) guest empty).1.

Lemma split3 {A B C} (x : A * B * C) r : x.2 = r -> x = (x.1.1, x.1.2, r).
Proof. by destruct x as [[a b] c]; simpl; intros ->. Qed.

Definition dec := one_cell_decode.
Definition enc := one_cell_encode.

Abbreviation reqs := (run_reqs dec enc settings).
Abbreviation finish := (commit dec enc settings).

(** ** A login *)

Definition login_read := reqs [QGet appKey] alone (newState "guest") (arrival with_guest 0).
Definition login_promoted := Promote "ann" alone login_read.1 login_read.2.
Definition login_run := reqs [QSave appKey "cart2"] alone login_promoted.1.1 login_promoted.1.2.
Definition login_commit := finish alone login_run.1 login_run.2.

Lemma login_witness :
  records (proj1_sig (w_store login_commit.1.2)) !! "guest"%string = None /\
  (exists before r stored, ESave before r (Ok stored) ∈ w_trace login_commit.1.2 /\ UserID stored = "ann"%string) /\
  SID (record_ login_promoted.1.1) = "guest"%string.
Proof.
  split; [vm_compute; reflexivity|].
  destruct (login_gets_a_fresh_session dec enc settings [QGet appKey] [QSave appKey "cart2"] alone "guest" with_guest 0
    login_read.1 login_read.2 "ann" login_promoted.1.1 login_promoted.1.2 login_run.1 login_run.2
    (Some (TWrite "sid2" (Minute + 30 * Minute) Minute)) login_commit.1.1 login_commit.1.2)
    as (sid' & e & t & before & r & stored & _ & Hin & _ & Hu & _ & _ & Htok).
  - apply surjective_pairing.
  - apply split3. vm_compute. reflexivity.
  - by repeat constructor.
  - apply surjective_pairing.
  - apply split3. vm_compute. reflexivity.
  - split; [by exists before, r, stored|]. apply Htok; [by repeat constructor|].
    exists with_guest, (with_version 1 guest). vm_compute. left.
Defined.

(** ** A logout *)



(** ** An update that meets another client's *)

(** Coherence is decidable on a trace. *)
Definition returned_by (ev : Event ValidStore) : list Rec :=
  match ev with ELoad _ _ (Ok r) | ESave _ _ (Ok r) => [r] | _ => [] end.
Definition agrees (r1 : Rec) (ev : Event ValidStore) : bool :=
  match ev with
  | ESave before _ _ =>
      match records (proj1_sig before) !! SID r1 with
      | Some cur => negb (Version cur =? Version r1) || bool_decide (Payload cur = Payload r1)
      | None => true
      end
  | _ => true
  end.
Definition coherentb (tr : list (Event ValidStore)) : bool :=
  forallb (fun ev => forallb (fun r1 => negb (Version r1 =? 0) && forallb (agrees r1) tr) (returned_by ev)) tr.

Lemma coherentb_ok tr : coherentb tr = true -> coherent tr.
Proof.
  unfold coherentb. rewrite forallb_forall. intros Hall r1 Hr1.
  assert (exists ev, ev ∈ tr /\ In r1 (returned_by ev)) as (ev & Hev & Hin).
  { destruct Hr1 as [(s & sid & ?)|(s & r0 & ?)]; eexists; (split; [done|by left]). }
  specialize (Hall ev (proj1 (list_elem_of_In _ _) Hev)). rewrite forallb_forall in Hall.
  specialize (Hall r1 Hin). apply andb_true_iff in Hall as [Hv Hsaves]. zbool. split; [done|].
  intros before r res cur Hs Hcur Hver. rewrite forallb_forall in Hsaves.
  specialize (Hsaves _ (proj1 (list_elem_of_In _ _) Hs)). simpl in Hsaves. simpl in Hcur. rewrite Hcur in Hsaves.
  apply orb_true_iff in Hsaves as [Hne|Heq]; [zbool; done|by apply bool_decide_eq_true in Heq].
Qed.

(** Between the load and the first save of the update, another client stores the cell. *)
Definition other : Rec := mkRec "guest" 1 "" Hour Hour "theirs".
Definition racing : Env ValidStore :=
  quiet (fun n s => if bool_decide (n = 2%nat) then (s_Save (mkCall false Minute Minute) other s).1 else s).

Definition add_item (prev : option string) : result Error string := Ok (default "" prev +:+ "+item")%string.

Definition race_run := reqs [QGet appKey] racing (newState "guest") (arrival with_guest 0).
Definition race_update := cellUpdate dec enc settings appKey (pure_fn add_item) racing race_run.1 race_run.2.

Example race_outcome :
  Payload <$> records (proj1_sig (w_store race_update.1.2)) !! "guest"%string = Some "theirs+item"%string.
Proof. vm_compute. reflexivity. Qed.

Lemma update_witness :
  coherent (w_trace race_update.1.2) /\
  exists before r stored, ESave before r (Ok stored) ∈ w_trace race_update.1.2 /\
    exists m out, holds dec enc stored (<[appKey := out]> m).
Proof.
  assert (Hc : coherent (w_trace race_update.1.2)) by (apply coherentb_ok; vm_compute; reflexivity).
  split; [exact Hc|].
  destruct (updates_are_not_lost dec enc settings [QGet appKey] racing "guest" with_guest 0 race_run.1 race_run.2
    appKey add_item race_update.1.1 race_update.1.2)
    as (before & cur & r & stored & m & out & Hin & _ & _ & _ & Hh & _).
  - apply surjective_pairing.
  - vm_compute. reflexivity.
  - apply split3. vm_compute. reflexivity.
  - exact Hc.
  - exists before, r, stored. split; [exact Hin|]. exists m, out. exact Hh.
Defined.

(** ** Two corners *)

(** An out-of-band update writes back the idle deadline it loaded: the extension another
    request gave the session in between is lost, for it changes no version. *)
Definition idle_guest : ValidStore :=
  (s_Save (mkCall false Minute Minute) (mkRec "guest" 0 "" Hour (10 * Minute) "cart") empty).1.
Definition bumping : Env ValidStore :=
  quiet (fun n s => if bool_decide (n = 1%nat)
                    then valid _ (BumpTTL_ok false Minute "guest" (40 * Minute) _ (proj2_sig s)) else s).

Example out_of_band_update_reverts_the_bump :
  let w := (updateCellSID dec enc settings "guest" appKey add_item bumping (newState "")
              (arrival idle_guest 0)).1.2 in
  IdleExpiry <$> records (proj1_sig (e_step bumping 1 idle_guest)) !! "guest"%string = Some (40 * Minute) /\
  IdleExpiry <$> records (proj1_sig (w_store w)) !! "guest"%string = Some (10 * Minute).
Proof. split; vm_compute; reflexivity. Qed.

(** A closure that saves its own cell: on an established session the save stays staged and
    wins at commit, on a session the update mints it is dropped. *)
Definition saving (prev : option string) : M (St := ValidStore) string :=
  bind (cellSave dec appKey "saved") (fun _ => ret "returned"%string).

Definition save_wins (sid : string) : option string :=
  let r := cellUpdate dec enc settings appKey saving alone (newState sid) (arrival with_guest 0) in
  let r := commit dec enc settings alone r.1.1 r.1.2 in
  match r.2 with
  | Ok (Some (TWrite sid _ _)) => Payload <$> records (proj1_sig (w_store r.1.2)) !! sid
  | _ => None
  end.

Example save_in_closure_wins_or_not :
  save_wins "guest" = Some "saved"%string /\ save_wins "" = Some "returned"%string.
Proof. split; vm_compute; reflexivity. Qed.
