(* ===== verification/Strings.v ===== *)
(** The text functions of Go's standard library that the components share: UTF-8 as the
    language converts between strings and runes, with U+FFFD for each byte that starts no
    valid encoding; the strings package; and the path package. *)

From S2P Require Import Prelude.
From S2P Require Import Strconv.

Local Open Scope Z_scope.

Definition RuneError : Z := 65533.

Definition valid_rune (r : Z) : bool :=
  ((0 <=? r) && (r <? 55296) || (57344 <=? r) && (r <=? 1114111)).

Definition cont (z : Z) : Ascii.ascii := ascii_of (128 + z mod 64).

(** [string(r)]: an invalid rune is encoded as U+FFFD. *)
Definition encode_rune (r0 : Z) : string :=
  let r := if valid_rune r0 then r0 else RuneError in
  if r <? 128 then String (ascii_of r) EmptyString
  else if r <? 2048 then String (ascii_of (192 + r / 64)) (String (cont r) EmptyString)
  else if r <? 65536 then
    String (ascii_of (224 + r / 4096)) (String (cont (r / 64)) (String (cont r) EmptyString))
  else
    String (ascii_of (240 + r / 262144)) (String (cont (r / 4096))
      (String (cont (r / 64)) (String (cont r) EmptyString))).

Definition is_cont (a : Ascii.ascii) : bool := (128 <=? byte_of a) && (byte_of a <=? 191).
Definition payload (a : Ascii.ascii) : Z := byte_of a - 128.

(** The bytes allowed after a lead byte: overlong forms, surrogates and values past
    U+10FFFF are excluded here. *)
Definition second_ok (lead b : Z) : bool :=
  if lead =? 224 then (160 <=? b) && (b <=? 191)
  else if lead =? 237 then (128 <=? b) && (b <=? 159)
  else if lead =? 240 then (144 <=? b) && (b <=? 191)
  else if lead =? 244 then (128 <=? b) && (b <=? 143)
  else (128 <=? b) && (b <=? 191).

(** The first rune of [a :: s] and what follows it. *)
Definition decode_rune (a : Ascii.ascii) (s : string) : Z * string :=
  let p := byte_of a in
  if p <? 128 then (p, s)
  else if (194 <=? p) && (p <=? 223) then
    match s with
    | String b s1 =>
        if is_cont b then ((p - 192) * 64 + payload b, s1) else (RuneError, s)
    | _ => (RuneError, s)
    end
  else if (224 <=? p) && (p <=? 239) then
    match s with
    | String b (String c s2) =>
        if second_ok p (byte_of b) && is_cont c
        then ((p - 224) * 4096 + payload b * 64 + payload c, s2) else (RuneError, s)
    | _ => (RuneError, s)
    end
  else if (240 <=? p) && (p <=? 244) then
    match s with
    | String b (String c (String d s3)) =>
        if second_ok p (byte_of b) && is_cont c && is_cont d
        then ((p - 240) * 262144 + payload b * 4096 + payload c * 64 + payload d, s3)
        else (RuneError, s)
    | _ => (RuneError, s)
    end
  else (RuneError, s).

(** [[]rune(s)]; every rune takes at least one byte, so the length is fuel enough. *)
Fixpoint runes_fuel (fuel : nat) (s : string) : list Z :=
  match fuel, s with
  | S fuel, String a s => let '(r, s') := decode_rune a s in r :: runes_fuel fuel s'
  | _, _ => []
  end.
Definition runes (s : string) : list Z := runes_fuel (String.length s) s.

Lemma byte_of_cont z : byte_of (cont z) = 128 + z mod 64.
Proof. apply byte_of_ascii_of. pose proof (Z.mod_pos_bound z 64). lia. Qed.

Lemma is_cont_cont z : is_cont (cont z) = true.
Proof. unfold is_cont. rewrite byte_of_cont. pose proof (Z.mod_pos_bound z 64). lia. Qed.

Lemma payload_cont z : payload (cont z) = z mod 64.
Proof. unfold payload. rewrite byte_of_cont. lia. Qed.

Lemma div_div_split r : r = r / 4096 * 4096 + (r / 64) mod 64 * 64 + r mod 64.
Proof.
  pose proof (Z.div_mod r 64). pose proof (Z.div_mod (r / 64) 64).
  rewrite Z.div_div in * by lia. change (64 * 64) with 4096 in *. lia.
Qed.

(** Encoding a rune and decoding it back. *)
Lemma runes_encode_rune r : valid_rune r = true -> runes (encode_rune r) = [r].
Proof.
  intros Hv. unfold encode_rune. rewrite Hv. unfold valid_rune in Hv.
  assert (Hr : 0 <= r < 55296 \/ 57344 <= r <= 1114111) by lia. clear Hv.
  pose proof (Z.mod_pos_bound r 64). pose proof (Z.mod_pos_bound (r / 64) 64).
  pose proof (div_div_split r). pose proof (Z.div_mod r 64).
  pose proof (Z.mod_pos_bound (r / 4096) 64). pose proof (Z.div_mod (r / 4096) 64).
  assert (r / 4096 / 64 = r / 262144) by (rewrite Z.div_div by lia; done).
  destruct (Z.ltb_spec r 128); [|destruct (Z.ltb_spec r 2048); [|destruct (Z.ltb_spec r 65536)]];
    unfold runes, decode_rune; cbn [String.length runes_fuel]; unfold decode_rune;
    rewrite byte_of_ascii_of by lia.
  - by destruct (Z.ltb_spec r 128); [|lia].
  - destruct (Z.ltb_spec (192 + r / 64) 128); [lia|].
    replace ((194 <=? 192 + r / 64) && (192 + r / 64 <=? 223)) with true by lia.
    rewrite is_cont_cont, payload_cont. f_equal. lia.
  - destruct (Z.ltb_spec (224 + r / 4096) 128); [lia|].
    replace ((194 <=? 224 + r / 4096) && (224 + r / 4096 <=? 223)) with false by lia.
    replace ((224 <=? 224 + r / 4096) && (224 + r / 4096 <=? 239)) with true by lia.
    rewrite is_cont_cont, !payload_cont, byte_of_cont, andb_true_r.
    replace (second_ok (224 + r / 4096) (128 + (r / 64) mod 64)) with true; [f_equal; lia|].
    symmetry. unfold second_ok.
    repeat match goal with |- context [if ?x =? ?y then _ else _] => destruct (Z.eqb_spec x y) end; lia.
  - destruct (Z.ltb_spec (240 + r / 262144) 128); [lia|].
    replace ((194 <=? 240 + r / 262144) && (240 + r / 262144 <=? 223)) with false by lia.
    replace ((224 <=? 240 + r / 262144) && (240 + r / 262144 <=? 239)) with false by lia.
    replace ((240 <=? 240 + r / 262144) && (240 + r / 262144 <=? 244)) with true by lia.
    rewrite !is_cont_cont, !payload_cont, byte_of_cont, !andb_true_r.
    replace (second_ok (240 + r / 262144) (128 + (r / 4096) mod 64)) with true; [f_equal; lia|].
    symmetry. unfold second_ok.
    repeat match goal with |- context [if ?x =? ?y then _ else _] => destruct (Z.eqb_spec x y) end; lia.
Qed.

(** ** The strings package *)

Local Open Scope Z_scope.

(** ** [strings.Split] and [strings.SplitSeq] at a one-byte separator *)

Fixpoint split (sep : Ascii.ascii) (s : string) : list string :=
  match s with
  | EmptyString => [EmptyString]
  | String a s =>
      if bool_decide (a = sep) then EmptyString :: split sep s
      else match split sep s with
           | part :: parts => String a part :: parts
           | [] => [String a EmptyString]
           end
  end.

Definition free_of (sep : Ascii.ascii) (s : string) : bool := string_forall (fun a => bool_decide (a <> sep)) s.

Lemma split_cons sep s : exists part parts, split sep s = part :: parts.
Proof.
  induction s as [|a s (part & parts & IH)]; simpl; [eauto|]. case_bool_decide; [eauto|]. rewrite IH. eauto.
Qed.

Lemma split_free sep s : free_of sep s = true -> split sep s = [s].
Proof.
  induction s as [|a s IH]; [done|]. intros H. unfold free_of in *. simpl in *.
  apply andb_true_iff in H as [Ha%bool_decide_eq_true Hs]. rewrite bool_decide_false by done. by rewrite (IH Hs).
Qed.

Lemma split_app sep s t : free_of sep s = true -> split sep (s +:+ String sep t) = s :: split sep t.
Proof.
  induction s as [|a s IH]; intros H.
  - change (EmptyString +:+ String sep t) with (String sep t). simpl. by rewrite bool_decide_true.
  - change (String a s +:+ String sep t) with (String a (s +:+ String sep t)). unfold free_of in *. simpl in *.
    apply andb_true_iff in H as [Ha%bool_decide_eq_true Hs]. rewrite bool_decide_false by done. by rewrite (IH Hs).
Qed.

(** ** Runes *)

(** [unicode.IsSpace] *)
Definition IsSpace (r : Z) : bool :=
  ((9 <=? r) && (r <=? 13)) || (r =? 32) || (r =? 133) || (r =? 160) || (r =? 5760) ||
  ((8192 <=? r) && (r <=? 8202)) || (r =? 8232) || (r =? 8233) || (r =? 8239) || (r =? 8287) || (r =? 12288).

(** The runes with the bytes each was read from; every rune takes at least one byte. *)
Fixpoint rune_bytes (fuel : nat) (s : string) : list (Z * string) :=
  match fuel, s with
  | S fuel, String a s0 =>
      let '(r, s') := decode_rune a s0 in
      (r, String.substring 0 (String.length s - String.length s') s) :: rune_bytes fuel s'
  | _, _ => []
  end.

Definition joined (l : list (Z * string)) : string := String.concat EmptyString l.*2.

Fixpoint drop_space (l : list (Z * string)) : list (Z * string) :=
  match l with
  | [] => []
  | x :: l' => if IsSpace x.1 then drop_space l' else l
  end.

(** [strings.TrimSpace] *)
Definition TrimSpace (s : string) : string :=
  joined (rev (drop_space (rev (drop_space (rune_bytes (String.length s) s))))).

(** [strings.Fields]: the runs of runes that are not spaces. *)
Fixpoint fields_from (cur : string) (l : list (Z * string)) : list string :=
  match l with
  | [] => if bool_decide (cur = EmptyString) then [] else [cur]
  | (r, b) :: l =>
      if IsSpace r then
        if bool_decide (cur = EmptyString) then fields_from EmptyString l else cur :: fields_from EmptyString l
      else fields_from (cur +:+ b) l
  end.
Definition Fields (s : string) : list string := fields_from EmptyString (rune_bytes (String.length s) s).

(** [strings.ToLower], for the table [lower] of [unicode.ToLower]. *)
Definition ToLower (lower : Z -> Z) (s : string) : string :=
  String.concat EmptyString ((fun r => encode_rune (lower r)) <$> runes s).

(** [unicode.ToLower] of an ASCII rune. *)
Definition ascii_lower (r : Z) : Z := if (65 <=? r) && (r <=? 90) then r + 32 else r.

Example trim_lower : ToLower ascii_lower (TrimSpace "	 Ann@Example.ORG ") = "ann@example.org"%string.
Proof. vm_compute. reflexivity. Qed.

Example fields_split : Fields " read  write	admin " = ["read"; "write"; "admin"]%string.
Proof. vm_compute. reflexivity. Qed.

Local Close Scope Z_scope.

(** ** The path package *)

(** [strings.SplitSeq(p, "/")] *)
Definition segments (p : string) : list string := split "/" p.

(** [strings.HasSuffix] *)
Definition HasSuffix (s suffix : string) : bool :=
  (String.length suffix <=? String.length s)%nat &&
  bool_decide (String.substring (String.length s - String.length suffix) (String.length suffix) s = suffix).

Definition TrimPrefix (s prefix : string) : string :=
  match CutPrefix s prefix with Some rest => rest | None => s end.

Definition TrimSuffix (s suffix : string) : string :=
  if HasSuffix s suffix then String.substring 0 (String.length s - String.length suffix) s else s.

(** ** [path.Clean] *)

(** The elements kept, last first; at the root [..] goes nowhere. *)
Fixpoint clean_segments (rooted : bool) (segs out : list string) : list string :=
  match segs with
  | [] => out
  | seg :: segs =>
      if bool_decide (seg = EmptyString) || bool_decide (seg = ".") then clean_segments rooted segs out
      else if bool_decide (seg = "..") then
        match out with
        | prev :: rest => if bool_decide (prev = "..") then clean_segments rooted segs (seg :: out)
                          else clean_segments rooted segs rest
        | [] => clean_segments rooted segs (if rooted then [] else [seg])
        end
      else clean_segments rooted segs (seg :: out)
  end.

Definition Clean (p : string) : string :=
  let rooted := HasPrefix p "/" in
  let joined := String.concat "/" (rev (clean_segments rooted (segments p) [])) in
  if rooted then "/" +:+ joined
  else if bool_decide (joined = EmptyString) then "." else joined.

(** [path.Join] of two elements. *)
Definition Join (a b : string) : string :=
  if bool_decide (a = EmptyString) then if bool_decide (b = EmptyString) then EmptyString else Clean b
  else if bool_decide (b = EmptyString) then Clean a
  else Clean (a +:+ "/" +:+ b).

(** The text before and after the last [sep]. *)
Fixpoint cut_last (sep : Ascii.ascii) (s : string) : option (string * string) :=
  match s with
  | EmptyString => None
  | String a s =>
      match cut_last sep s with
      | Some (l, r) => Some (String a l, r)
      | None => if bool_decide (a = sep) then Some (EmptyString, s) else None
      end
  end.

(** [path.Split] *)
Definition Split (p : string) : string * string :=
  match cut_last "/" p with Some (dir, file) => (dir +:+ "/", file) | None => (EmptyString, p) end.

(** [path.Dir] *)
Definition Dir (p : string) : string := Clean (Split p).1.

(** [path.Ext] *)
Definition Ext (p : string) : string :=
  match cut_last "." (Split p).2 with Some (_, ext) => "." +:+ ext | None => EmptyString end.

(** ** Lemmas *)

Lemma string_length_app (s t : string) : String.length (s +:+ t) = String.length s + String.length t.
Proof. induction s as [|a s IH]; [done|]. exact (f_equal S IH). Qed.

Lemma string_app_nil (s : string) : s +:+ EmptyString = s.
Proof. induction s as [|a s IH]; [done|]. exact (f_equal (String a) IH). Qed.

Lemma substring_app_l (s t : string) : String.substring 0 (String.length s) (s +:+ t) = s.
Proof. induction s as [|a s IH]; [by destruct t|]. exact (f_equal (String a) IH). Qed.

Lemma substring_full (s : string) : String.substring 0 (String.length s) s = s.
Proof. induction s as [|a s IH]; [done|]. exact (f_equal (String a) IH). Qed.

Lemma substring_app_r (s t : string) : String.substring (String.length s) (String.length t) (s +:+ t) = t.
Proof. induction s as [|a s IH]; [apply substring_full|exact IH]. Qed.

Lemma HasSuffix_app s t : HasSuffix (s +:+ t) t = true.
Proof.
  unfold HasSuffix. rewrite string_length_app, (proj2 (Nat.leb_le _ _)) by lia.
  replace (String.length s + String.length t - String.length t) with (String.length s) by lia.
  by rewrite substring_app_r, bool_decide_true.
Qed.

Lemma TrimSuffix_app s t : TrimSuffix (s +:+ t) t = s.
Proof.
  unfold TrimSuffix. rewrite HasSuffix_app, string_length_app.
  replace (String.length s + String.length t - String.length t) with (String.length s) by lia. apply substring_app_l.
Qed.

Lemma CutPrefix_Some s p r : CutPrefix s p = Some r -> s = p +:+ r.
Proof.
  revert s. induction p as [|b p IH]; intros [|a s]; cbn [CutPrefix]; [by intros [= <-]..|done|].
  case_bool_decide as E; [|done]. intros ->%IH. by rewrite E.
Qed.

Lemma cut_last_Some sep s l r : cut_last sep s = Some (l, r) -> s = l +:+ String sep r /\ free_of sep r = true.
Proof.
  revert l. induction s as [|a s IH]; intros l; cbn [cut_last]; [done|].
  destruct (cut_last sep s) as [[l1 r1]|] eqn:E.
  - intros [= <- <-]. destruct (IH l1 eq_refl) as [-> Hf]. done.
  - case_bool_decide as Ea; [|done]. intros [= <- <-]. subst a. split; [done|].
    clear IH. induction s as [|b s IH]; [done|]. cbn [cut_last] in E. destruct (cut_last sep s) as [[? ?]|]; [done|].
    case_bool_decide; [done|]. unfold free_of in *. cbn. rewrite bool_decide_true by done. by apply IH.
Qed.

Lemma cut_last_None sep s : cut_last sep s = None <-> free_of sep s = true.
Proof.
  induction s as [|a s IH]; [done|]. cbn [cut_last]. unfold free_of in *. cbn.
  destruct (cut_last sep s) as [[l r]|].
  - split; [done|]. intros [_ H]%andb_true_iff. by apply IH in H.
  - case_bool_decide as Ea; subst; [rewrite bool_decide_false by (by intros []); done|].
    rewrite bool_decide_true by done. cbn. tauto.
Qed.

Lemma cut_last_app sep l r : free_of sep r = true -> cut_last sep (l +:+ String sep r) = Some (l, r).
Proof.
  intros Hf%cut_last_None. induction l as [|a l IH].
  - change (EmptyString +:+ String sep r) with (String sep r). cbn [cut_last]. by rewrite Hf, bool_decide_true.
  - change (String a l +:+ String sep r) with (String a (l +:+ String sep r)). cbn [cut_last]. by rewrite IH.
Qed.

(** ** What [Clean] keeps *)

(** A name that a path may go through. *)
Definition proper (seg : string) : Prop :=
  seg <> EmptyString /\ seg <> "." /\ seg <> ".." /\ free_of "/" seg = true.

Lemma split_free_of sep s x : x ∈ split sep s -> free_of sep x = true.
Proof.
  revert x. induction s as [|a s IH]; intros x; cbn [split]; [by intros ->%list_elem_of_singleton|].
  case_bool_decide as Ea; [by intros [->|?%IH]%elem_of_cons|].
  destruct (split_cons sep s) as (p & ps & E). rewrite E in *.
  intros [->|Hx]%elem_of_cons; [|apply IH; by right].
  unfold free_of. cbn. rewrite bool_decide_true by done. apply IH. left.
Qed.

(** The elements kept of a path that is not rooted: proper names after some [..]. *)
Lemma clean_segments_shape segs out n names :
  (forall s, s ∈ segs -> free_of "/" s = true) -> Forall proper names -> out = rev (replicate n ".." ++ names) ->
  exists n' names', clean_segments false segs out = rev (replicate n' ".." ++ names') /\ Forall proper names'.
Proof.
  revert out n names. induction segs as [|seg segs IH]; intros out n names Hf Hn ->; cbn [clean_segments]; [by exists n, names|].
  assert (Hf' : forall s, s ∈ segs -> free_of "/" s = true) by (intros s Hs; apply Hf; by right).
  destruct (_ || _) eqn:Ee; [by eapply IH|]. apply orb_false_iff in Ee as [E1%bool_decide_eq_false E2%bool_decide_eq_false].
  case_bool_decide as E3.
  - subst seg. destruct names as [|x names _] using rev_ind.
    + rewrite app_nil_r. destruct n as [|n].
      * cbn [replicate rev]. apply (IH _ 1 []); [done|constructor|done].
      * assert (Er : rev (replicate (S n) "..") = ".." :: rev (replicate n "..")).
        { rewrite replicate_S_end, rev_app_distr. done. }
        rewrite Er, bool_decide_true by done. rewrite <-Er.
        apply (IH _ (S (S n)) []); [done|constructor|]. rewrite app_nil_r.
        rewrite (replicate_S_end (S n)), rev_app_distr. done.
    + rewrite app_assoc, rev_app_distr. cbn [rev app]. apply Forall_app in Hn as [Hn Hx].
      apply Forall_cons in Hx as [Hx _]. rewrite bool_decide_false by apply Hx. by eapply IH.
  - apply (IH _ n (names ++ [seg])); [done| |by rewrite app_assoc, (rev_app_distr _ [seg])].
    apply Forall_app. split; [done|]. apply Forall_singleton. split_and!; try done. apply Hf. left.
Qed.

Lemma split_concat (l : list string) :
  l <> [] -> (forall s, s ∈ l -> free_of "/" s = true) -> segments (String.concat "/" l) = l.
Proof.
  induction l as [|s l IH]; [done|]. intros _ Hf. assert (Hs : free_of "/" s = true) by (apply Hf; left).
  destruct l as [|s2 l]; [by apply split_free|]. change (String.concat "/" (s :: s2 :: l)) with (s +:+ String "/" (String.concat "/" (s2 :: l))).
  unfold segments in *. rewrite split_app by done. rewrite IH; [done|done|]. intros x Hx. apply Hf. by right.
Qed.

(** Cleaning a path that is not rooted: [.], or some [..] and then proper names. *)
Lemma Clean_relative p :
  HasPrefix p "/" = false ->
  Clean p = "." \/ exists n names, Clean p = String.concat "/" (replicate n ".." ++ names) /\
    segments (Clean p) = replicate n ".." ++ names /\ Forall proper names.
Proof.
  intros Hr. unfold Clean. rewrite Hr. cbv zeta.
  destruct (clean_segments_shape (segments p) [] 0 []) as (n & names & -> & Hn);
    [intros s; apply split_free_of|constructor|done|].
  rewrite rev_involutive. case_bool_decide as Ee; [by left|]. right. exists n, names. split; [done|]. split; [|done].
  apply split_concat; [by intros E; rewrite E in Ee|]. intros s [Hs|Hs]%elem_of_app.
  - apply elem_of_replicate in Hs as [-> _]. done.
  - rewrite Forall_forall in Hn. by apply Hn.
Qed.
