(* ===== verification/EditDistance.v ===== *)
(** Edit distance, the suggestion heuristic of src/cli/parse.go: the two-row
    dynamic program of [levenshtein] and its correctness against the declarative
    notion of an edit script. *)

From S2P Require Import Prelude.

(** ** The dynamic program *)

Definition min3 (a b c : nat) : nat := c `min` (b `min` a).

(** The inner loop: [left] is [curr[j-1]], [prev] starts at [prev[j-1]]. *)
Fixpoint inner (ai : Ascii.ascii) (left : nat) (prev : list nat) (b : list Ascii.ascii) : list nat :=
  match b, prev with
  | bj :: b, diag :: ((up :: _) as prev) =>
      let cost := if bool_decide (ai = bj) then 0 else 1 in
      let v := min3 (left + 1) (up + 1) (diag + cost) in
      v :: inner ai v prev b
  | _, _ => []
  end.

(** The outer loop: [i] is the 1-based index of the byte [a[i-1]]. The rows swap
    at each iteration; every cell of [curr] is written before it is read. *)
Fixpoint outer (i : nat) (a : list Ascii.ascii) (prev : list nat) (b : list Ascii.ascii) : list nat :=
  match a with
  | [] => prev
  | ai :: a => outer (S i) a (i :: inner ai i prev b) b
  end.

Definition levenshtein (sa sb : string) : nat :=
  let a := String.list_ascii_of_string sa in
  let b := String.list_ascii_of_string sb in
  if bool_decide (a = b) then 0
  else if length a =? 0 then length b
  else if length b =? 0 then length a
  else default 0 (outer 1 a (seq 0 (S (length b))) b !! length b).

(** ** Edit scripts *)

(** [edits a b n]: [n] single-byte substitutions, deletions and insertions turn
    [a] into [b]. *)
Inductive edits : list Ascii.ascii -> list Ascii.ascii -> nat -> Prop :=
| edits_nil : edits [] [] 0
| edits_keep x a b n : edits a b n -> edits (x :: a) (x :: b) n
| edits_subst x y a b n : edits a b n -> edits (x :: a) (y :: b) (S n)
| edits_delete x a b n : edits a b n -> edits (x :: a) b (S n)
| edits_insert y a b n : edits a b n -> edits a (y :: b) (S n).
#[local] Hint Constructors edits : core.

Lemma edits_app a b n a' b' m : edits a b n -> edits a' b' m -> edits (a ++ a') (b ++ b') (n + m).
Proof. induction 1; simpl; auto. Qed.

Lemma edits_rev a b n : edits a b n -> edits (rev a) (rev b) n.
Proof.
  induction 1 as [|x a b n H IH|x y a b n H IH|x a b n H IH|y a b n H IH]; simpl; [constructor|..].
  - rewrite <-(Nat.add_0_r n). apply edits_app; auto.
  - rewrite <-Nat.add_1_r. apply edits_app; auto.
  - rewrite <-Nat.add_1_r, <-(app_nil_r (rev b)). apply edits_app; auto.
  - rewrite <-Nat.add_1_r, <-(app_nil_r (rev a)). apply edits_app; auto.
Qed.

(** The recurrence the table tabulates, on the reversed prefixes. *)
Fixpoint dist (a : list Ascii.ascii) : list Ascii.ascii -> nat :=
  match a with
  | [] => length
  | x :: a' =>
      fix go (b : list Ascii.ascii) : nat :=
        match b with
        | [] => S (length a')
        | y :: b' => min3 (go b' + 1) (dist a' b + 1)
                       (dist a' b' + if bool_decide (x = y) then 0 else 1)
        end
  end.

Lemma dist_cons x a y b :
  dist (x :: a) (y :: b) =
  min3 (dist (x :: a) b + 1) (dist a (y :: b) + 1) (dist a b + if bool_decide (x = y) then 0 else 1).
Proof. done. Qed.

Lemma dist_nil_r a : dist a [] = length a.
Proof. by destruct a. Qed.

Lemma edits_nil_l b : edits [] b (length b).
Proof. induction b; simpl; auto. Qed.
Lemma edits_nil_r a : edits a [] (length a).
Proof. induction a; simpl; auto. Qed.

Lemma dist_attained a b : edits a b (dist a b).
Proof.
  revert b. induction a as [|x a IHa]; intros b; [apply edits_nil_l|].
  induction b as [|y b IHb]; [rewrite dist_nil_r; apply edits_nil_r|].
  rewrite dist_cons. unfold min3.
  destruct (Nat.min_dec (dist a b + if bool_decide (x = y) then 0 else 1)
    ((dist a (y :: b) + 1) `min` (dist (x :: a) b + 1))) as [-> | ->].
  - case_bool_decide; subst; rewrite ?Nat.add_0_r, ?Nat.add_1_r; auto.
  - destruct (Nat.min_dec (dist a (y :: b) + 1) (dist (x :: a) b + 1)) as [-> | ->];
      rewrite Nat.add_1_r; auto.
Qed.

(** Adding a byte on one side moves the distance by at most one. *)
Lemma dist_del x a b : dist (x :: a) b <= S (dist a b).
Proof. destruct b as [|y b]; [by rewrite !dist_nil_r|]. rewrite dist_cons. unfold min3. lia. Qed.
Lemma dist_ins y a b : dist a (y :: b) <= S (dist a b).
Proof. destruct a as [|x a]; [done|]. rewrite dist_cons. unfold min3. lia. Qed.

Lemma dist_minimal a b n : edits a b n -> dist a b <= n.
Proof.
  induction 1 as [|x a b n H IH|x y a b n H IH|x a b n H IH|y a b n H IH]; [done|..].
  - rewrite dist_cons. unfold min3. rewrite bool_decide_true by done. lia.
  - rewrite dist_cons. unfold min3. case_bool_decide; lia.
  - pose proof (dist_del x a b). lia.
  - pose proof (dist_ins y a b). lia.
Qed.

(** ** The table *)

(** The row of [dist] for the consumed (reversed) bytes [ra]: one cell per prefix of
    what is left of the columns, starting after the reversed prefix [rb]. *)
Fixpoint row (ra rb b : list Ascii.ascii) : list nat :=
  dist ra rb :: match b with [] => [] | y :: b => row ra (y :: rb) b end.

Lemma inner_row x ra rb b :
  inner x (dist (x :: ra) rb) (row ra rb b) b = tail (row (x :: ra) rb b).
Proof.
  revert rb. induction b as [|y b IH]; intros rb; [done|].
  specialize (IH (y :: rb)). destruct b as [|z b]; cbn [row inner tail] in *;
    rewrite <-dist_cons; [done|]. f_equal. apply IH.
Qed.

Lemma outer_row a ra b : outer (S (length ra)) a (row ra [] b) b = row (rev a ++ ra) [] b.
Proof.
  revert ra. induction a as [|x a IH]; intros ra; [done|]. cbn [outer].
  assert (E : S (length ra) = dist (x :: ra) []) by done.
  rewrite E at 2 3. rewrite inner_row.
  assert (E2 : dist (x :: ra) [] :: tail (row (x :: ra) [] b) = row (x :: ra) [] b) by by destruct b.
  rewrite E2. pose proof (IH (x :: ra)) as IH'. simpl length in IH'. rewrite IH'.
  simpl. by rewrite <-app_assoc.
Qed.

Lemma row_nil rb b : row [] rb b = seq (length rb) (S (length b)).
Proof.
  revert rb. induction b as [|y b IH]; intros rb; [done|]. cbn [row]. rewrite IH. done.
Qed.

Lemma row_last ra rb b : row ra rb b !! length b = Some (dist ra (rev b ++ rb)).
Proof.
  revert rb. induction b as [|y b IH]; intros rb; [done|].
  cbn [row length lookup list_lookup]. rewrite IH. simpl. by rewrite <-app_assoc.
Qed.

Lemma levenshtein_dist sa sb :
  let a := String.list_ascii_of_string sa in
  let b := String.list_ascii_of_string sb in
  levenshtein sa sb = dist (rev a) (rev b).
Proof.
  simpl. unfold levenshtein. set (a := String.list_ascii_of_string sa). set (b := String.list_ascii_of_string sb).
  case_bool_decide as E.
  { rewrite E. assert (dist (rev b) (rev b) <= 0); [|lia].
    apply dist_minimal, edits_rev. clear. induction b; auto. }
  destruct (length a =? 0) eqn:Ea.
  { apply Nat.eqb_eq in Ea. destruct a; [|done]. simpl. by rewrite length_rev. }
  destruct (length b =? 0) eqn:Eb.
  { apply Nat.eqb_eq in Eb. destruct b; [|done]. simpl. by rewrite dist_nil_r, length_rev. }
  change (seq 0 (S (length b))) with (seq (length (@nil Ascii.ascii)) (S (length b))).
  rewrite <-row_nil. pose proof (outer_row a [] b) as Ho. simpl length in Ho. rewrite Ho.
  rewrite row_last, !app_nil_r. done.
Qed.

Lemma levenshtein_empty s : levenshtein s EmptyString = String.length s.
Proof.
  rewrite levenshtein_dist. simpl. rewrite dist_nil_r, length_rev.
  induction s; simpl; auto.
Qed.

(** [levenshtein] is the edit distance: some script of that many single-byte
    insertions, deletions and substitutions turns the first string into the second,
    and no shorter one does. *)
Lemma levenshtein_attained sa sb :
  edits (String.list_ascii_of_string sa) (String.list_ascii_of_string sb) (levenshtein sa sb).
Proof.
  rewrite levenshtein_dist.
  rewrite <-(rev_involutive (String.list_ascii_of_string sa)),
    <-(rev_involutive (String.list_ascii_of_string sb)) at 1.
  apply edits_rev, dist_attained.
Qed.

Lemma levenshtein_minimal sa sb n :
  edits (String.list_ascii_of_string sa) (String.list_ascii_of_string sb) n -> levenshtein sa sb <= n.
Proof. rewrite levenshtein_dist. intros H. by apply dist_minimal, edits_rev. Qed.

Example levenshtein_runs : levenshtein "servr" "server" = 1 /\ levenshtein "kitten" "sitting" = 3.
Proof. split; reflexivity. Qed.
