(* ===== verification/Cli.v ===== *)
(** Commands, flags, arguments and the argument parser: src/cli/cli.go, flag.go,
    arg.go and parse.go.

    A flag or argument is identified in Go by its pointer, which keys the map of
    parsed values; the model gives each accessor an [id]. The dynamic values of that
    map ([any]) are the parameter [V]: an accessor of type [T] holds the boxed zero
    value, default, parser and validator of its [T], and only ever reads back what it
    wrote under its own key, so the assertions [raw.(T)] of the code cannot fail.
    Errors are kept structured ([Msg]) instead of rendered, with the chain
    [errors.Is] walks. *)

From S2P Require Import Prelude.
From S2P Require Import Strconv.
From S2P Require Import Strings.
From S2P Require Import EditDistance.

Local Open Scope Z_scope.

(** ** Errors *)

(** The package's sentinels, [context.Canceled] and any other error value. *)
Inductive Sentinel :=
| ErrUsage | ErrValidation | ErrUnknownCmd | ErrMissingArg | ErrMissingSubcommand
| Canceled
| OtherError (n : Z).

#[export] Instance Sentinel_eq_dec : EqDecision Sentinel.
Proof. solve_decision. Defined.

(** The declaration errors of [validateArgsDecl]; the first field is the command. *)
Inductive DeclError :=
| NilFlag (cmd : string)
| ReservedHelp (cmd : string)
| ReservedShortHelp (cmd : string)
| DuplicateFlag (cmd name : string)
| DuplicateShort (cmd : string) (r : Z)
| ReservedVersion (cmd : string)
| NilArg (cmd : string)
| VariadicNotLast (cmd arg : string)
| RequiredAfterOptional (cmd arg : string)
| SliceNotVariadic (cmd arg : string)
| VariadicNotSlice (cmd arg : string)
| NilSubcommand (cmd : string)
| DuplicateSubcommand (cmd name : string).

(** What an error says: one constructor per message of the package. *)
Inductive Msg :=
| MText (s : string)
| MSentinel (s : Sentinel)
| MDecl (d : DeclError)
| MRequiredFlag (name : string)
| MUnknownLong (name : string)
| MBareDash
| MCombinedShort (name : string)
| MUnknownShort (short : string)
| MMissingValue (name : string)
| MFlagParse (name s cause : string)
| MFlagInvalid (name cause : string)
| MArgParse (name s cause : string)
| MArgInvalid (name cause : string)
| MMissingArgument (name : string)
| MUnexpectedArgument (tok : string)
| MUnknownSubcommand (attempted suggestion : string)
| MNoRun (cmd : string)
| MNoEmitter (shell : string).

(** A Go error: a message, the sentinels the node itself matches (its identity or
    its [Is] method), and what its [Unwrap] method returns if it has one. *)
Inductive error :=
| Leaf (m : Msg) (self : list Sentinel)
| Wrap (m : Msg) (self : list Sentinel) (e : option error)
| Joined (m : Msg) (self : list Sentinel) (es : list (option error)).

Definition sentinel_error (s : Sentinel) : error := Leaf (MSentinel s) [s].

(** [fmt.Errorf("...: %w", ..., s)] *)
Definition errorf (m : Msg) (s : Sentinel) : error := Wrap m [] (Some (sentinel_error s)).

(** [errors.Is] *)
Fixpoint error_is (e : error) (s : Sentinel) : bool :=
  match e with
  | Leaf _ self => bool_decide (s ∈ self)
  | Wrap _ self None => bool_decide (s ∈ self)
  | Wrap _ self (Some e) => bool_decide (s ∈ self) || error_is e s
  | Joined _ self es =>
      bool_decide (s ∈ self) ||
      (fix any (es : list (option error)) : bool :=
         match es with
         | [] => false
         | None :: es => any es
         | Some e :: es => error_is e s || any es
         end) es
  end.

(** ** Completion callbacks *)

Record CompleteContext := { cc_Word : string; cc_Args : list string }.
Definition CompleteFn : Type := CompleteContext -> list string.
Definition StaticValues (vs : list string) : CompleteFn := fun _ => vs.

(** ** Flags and arguments *)

Record Flag (V : Type) := mkFlag {
  f_id : nat;
  f_name : string;
  f_short : Z;
  f_help : string;
  f_env : string;
  f_placeholder : string;
  f_group : string;
  f_required : bool;
  f_hidden : bool;
  f_isBool : bool;
  f_isSlice : bool;
  f_zero : V;
  f_defaultVal : V;
  f_hasDefault : bool;
  f_defaultStr : string;
  f_parse : string -> result string V;
  f_appendOne : V -> string -> result string V;
  f_validate : option (V -> option string);
  f_completer : option CompleteFn
}.
Arguments mkFlag {V}.
Arguments f_id {V}. Arguments f_name {V}. Arguments f_short {V}. Arguments f_help {V}.
Arguments f_env {V}. Arguments f_placeholder {V}. Arguments f_group {V}.
Arguments f_required {V}. Arguments f_hidden {V}. Arguments f_isBool {V}.
Arguments f_isSlice {V}. Arguments f_zero {V}. Arguments f_defaultVal {V}.
Arguments f_hasDefault {V}. Arguments f_defaultStr {V}. Arguments f_parse {V}.
Arguments f_appendOne {V}. Arguments f_validate {V}. Arguments f_completer {V}.

Record Arg (V : Type) := mkArg {
  a_id : nat;
  a_name : string;
  a_help : string;
  a_required : bool;
  a_variadic : bool;
  a_isSlice : bool;
  a_zero : V;
  a_defaultVal : V;
  a_hasDefault : bool;
  a_parse : string -> result string V;
  a_appendOne : V -> string -> result string V;
  a_validate : option (V -> option string);
  a_completer : option CompleteFn
}.
Arguments mkArg {V}.
Arguments a_id {V}. Arguments a_name {V}. Arguments a_help {V}. Arguments a_required {V}.
Arguments a_variadic {V}. Arguments a_isSlice {V}. Arguments a_zero {V}.
Arguments a_defaultVal {V}. Arguments a_hasDefault {V}. Arguments a_parse {V}.
Arguments a_appendOne {V}. Arguments a_validate {V}. Arguments a_completer {V}.

(** [values map[any]any], keyed by accessor identity. *)
Notation values := (gmap nat).

(** The context a handler receives; its output is what it writes to [Stdout]. *)
Record Context (V : Type) := mkContext { ctx_values : values V; ctx_CommandPath : list string }.
Arguments mkContext {V}. Arguments ctx_values {V}. Arguments ctx_CommandPath {V}.

Definition Handler (V : Type) : Type := Context V -> list string * option error.
Definition Middleware (V : Type) : Type := Handler V -> Handler V.

(** A command's body: the application's, or one of the two built-in commands
    [withInjectedCompletion] adds, whose closures over the root are kept as tags. *)
Inductive RunFn (V : Type) :=
| UserRun (h : Handler V)
| CompletionRun (shellArg : Arg V)
| CompleteRun (words : Arg V).
Arguments UserRun {V}. Arguments CompletionRun {V}. Arguments CompleteRun {V}.

Record Example_ := { ex_Cmd : string; ex_Help : string }.

Inductive Command (V : Type) := mkCommand {
  Name : string;
  Help : string;
  Long : string;
  Version : string;
  Usage : string;
  Aliases : list string;
  Flags : list (option (Flag V));
  Args : list (option (Arg V));
  Subcommands : list (option (Command V));
  Use : list (Middleware V);
  Run : option (RunFn V);
  Examples : list Example_;
  Hidden : bool;
  injected : bool
}.
Arguments mkCommand {V}.
Arguments Name {V}. Arguments Help {V}. Arguments Long {V}. Arguments Version {V}.
Arguments Usage {V}. Arguments Aliases {V}. Arguments Flags {V}. Arguments Args {V}.
Arguments Subcommands {V}. Arguments Use {V}. Arguments Run {V}. Arguments Examples {V}.
Arguments Hidden {V}. Arguments injected {V}.

(** The non-nil entries: once [validateArgsDecl] accepted a tree it has no others. *)
Definition flags_of {V} (c : Command V) : list (Flag V) := omap id (Flags c).
Definition args_of {V} (c : Command V) : list (Arg V) := omap id (Args c).
Definition subs_of {V} (c : Command V) : list (Command V) := omap id (Subcommands c).

Section Accessors.
  Context {V : Type}.
  Implicit Types (f : Flag V) (a : Arg V) (v : values V).

(** *** Flags *)

Definition hasValue f v : bool := bool_decide (is_Some (v !! f_id f)).

(** [Get]: the parsed value, else the default, else the zero value. *)
Definition flag_Get f v : V :=
  match v !! f_id f with
  | Some raw => raw
  | None => if f_hasDefault f then f_defaultVal f else f_zero f
  end.

Definition flag_Lookup f v : V * bool :=
  match v !! f_id f with
  | Some raw => (raw, true)
  | None => (f_zero f, false)
  end.

Definition flag_parseErr f (s cause : string) : error := errorf (MFlagParse (f_name f) s cause) ErrUsage.

(** The first value of a slice flag replaces the default; later ones are appended. *)
Definition flagApplyString f v (s : string) : result error (values V) :=
  let parsed :=
    if f_isSlice f then
      match v !! f_id f with
      | None => f_parse f s
      | Some prev => f_appendOne f prev s
      end
    else f_parse f s in
  match parsed with
  | Ok val => Ok (<[f_id f := val]> v)
  | Err cause => Err (flag_parseErr f s cause)
  end.

Definition flagApplyEnv f v (getenv : string -> option string) : result error (values V) :=
  if bool_decide (f_env f = EmptyString) || hasValue f v then Ok v
  else match getenv (f_env f) with
       | None => Ok v
       | Some s => flagApplyString f v s
       end.

Definition flagValidate f v : option error :=
  match f_validate f with
  | None => None
  | Some validate =>
      let check (val : V) :=
        match validate val with
        | Some cause => Some (errorf (MFlagInvalid (f_name f) cause) ErrValidation)
        | None => None
        end in
      match v !! f_id f with
      | Some raw => check raw
      | None => if f_hasDefault f then check (f_defaultVal f) else None
      end
  end.

Definition flagPresent f v : bool := hasValue f v.

(** *** Arguments *)

Definition arg_Get a v : V :=
  match v !! a_id a with
  | Some raw => raw
  | None => if a_hasDefault a then a_defaultVal a else a_zero a
  end.

Definition arg_Lookup a v : V * bool :=
  match v !! a_id a with
  | Some raw => (raw, true)
  | None => (a_zero a, false)
  end.

Definition arg_parseErr a (s cause : string) : error := errorf (MArgParse (a_name a) s cause) ErrUsage.

Definition argApplyString a v (s : string) : result error (values V) :=
  let parsed :=
    if a_isSlice a then
      match v !! a_id a with
      | None => a_parse a s
      | Some prev => a_appendOne a prev s
      end
    else a_parse a s in
  match parsed with
  | Ok val => Ok (<[a_id a := val]> v)
  | Err cause => Err (arg_parseErr a s cause)
  end.

Definition argPresent a v : bool := bool_decide (is_Some (v !! a_id a)).

Definition argValidate a v : option error :=
  match a_validate a with
  | None => None
  | Some validate =>
      let check (val : V) :=
        match validate val with
        | Some cause => Some (errorf (MArgInvalid (a_name a) cause) ErrValidation)
        | None => None
        end in
      match v !! a_id a with
      | Some raw => check raw
      | None => if a_hasDefault a then check (a_defaultVal a) else None
      end
  end.

(** ** The declaration check *)

(** The loop over [c.Flags]; the result is [longSeen] after it. *)
Fixpoint checkFlags (cname : string) (longSeen : gset string) (shortSeen : gset Z)
    (fs : list (option (Flag V))) : result DeclError (gset string) :=
  match fs with
  | [] => Ok longSeen
  | None :: _ => Err (NilFlag cname)
  | Some f :: fs =>
      let name := f_name f in
      let r := f_short f in
      if bool_decide (name = "help") then Err (ReservedHelp cname)
      else if r =? 104 then Err (ReservedShortHelp cname)
      else if bool_decide (name ∈ longSeen) then Err (DuplicateFlag cname name)
      else if r =? 0 then checkFlags cname ({[name]} ∪ longSeen) shortSeen fs
      else if bool_decide (r ∈ shortSeen) then Err (DuplicateShort cname r)
      else checkFlags cname ({[name]} ∪ longSeen) ({[r]} ∪ shortSeen) fs
  end.

(** The loop over [c.Args]; an argument is last when nothing follows it. *)
Fixpoint checkArgs (cname : string) (seenOptional : bool) (args : list (option (Arg V)))
    : option DeclError :=
  match args with
  | [] => None
  | None :: _ => Some (NilArg cname)
  | Some a :: args =>
      if a_variadic a && negb (bool_decide (args = [])) then Some (VariadicNotLast cname (a_name a))
      else if a_required a && seenOptional then Some (RequiredAfterOptional cname (a_name a))
      else if a_isSlice a && negb (a_variadic a) then Some (SliceNotVariadic cname (a_name a))
      else if a_variadic a && negb (a_isSlice a) then Some (VariadicNotSlice cname (a_name a))
      else checkArgs cname (seenOptional || negb (a_required a) && negb (a_variadic a)) args
  end.

Fixpoint checkAliases (cname : string) (nameSeen : gset string) (aliases : list string)
    : result DeclError (gset string) :=
  match aliases with
  | [] => Ok nameSeen
  | a :: aliases =>
      if bool_decide (a ∈ nameSeen) then Err (DuplicateSubcommand cname a)
      else checkAliases cname ({[a]} ∪ nameSeen) aliases
  end.

(** The loop over [c.Subcommands] that looks at names only. *)
Fixpoint checkSubNames (cname : string) (nameSeen : gset string) (subs : list (option (Command V)))
    : option DeclError :=
  match subs with
  | [] => None
  | None :: _ => Some (NilSubcommand cname)
  | Some s :: subs =>
      if bool_decide (Name s ∈ nameSeen) then Some (DuplicateSubcommand cname (Name s))
      else match checkAliases cname ({[Name s]} ∪ nameSeen) (Aliases s) with
           | Err e => Some e
           | Ok nameSeen => checkSubNames cname nameSeen subs
           end
  end.

Definition inherited_longs (inherited : list (Flag V)) : gset string :=
  list_to_set (f_name <$> inherited).
Definition inherited_shorts (inherited : list (Flag V)) : gset Z :=
  list_to_set (filter (fun r => r <> 0) (f_short <$> inherited)).

(** The checks of one command, in the order of the code. *)
Definition checkCommand (c : Command V) (inherited : list (Flag V)) : option DeclError :=
  match checkFlags (Name c) (inherited_longs inherited) (inherited_shorts inherited) (Flags c) with
  | Err e => Some e
  | Ok longSeen =>
      if negb (bool_decide (Version c = EmptyString)) && bool_decide ("version" ∈ longSeen)
      then Some (ReservedVersion (Name c))
      else match checkArgs (Name c) false (Args c) with
           | Some e => Some e
           | None => checkSubNames (Name c) ∅ (Subcommands c)
           end
  end.

Fixpoint validateArgsDecl (c : Command V) (inherited : list (Flag V)) {struct c} : option DeclError :=
  match checkCommand c inherited with
  | Some e => Some e
  | None =>
      let childInherited := inherited ++ flags_of c in
      (fix children (subs : list (option (Command V))) : option DeclError :=
         match subs with
         | [] => None
         | None :: subs => children subs
         | Some s :: subs =>
             match validateArgsDecl s childInherited with
             | Some e => Some e
             | None => children subs
             end
         end) (Subcommands c)
  end.

(** ** Lookups *)

Definition answersTo (c : Command V) (tok : string) : bool :=
  bool_decide (Name c = tok) || bool_decide (tok ∈ Aliases c).

Definition findSub (c : Command V) (name : string) : option (Command V) :=
  head (filter (fun s => answersTo s name = true) (subs_of c)).

Definition commandHasVariadic (c : Command V) : bool := existsb a_variadic (args_of c).

Fixpoint findFlagLong (flags : list (Flag V)) (name : string) : option (Flag V) :=
  match flags with
  | [] => None
  | f :: flags => if bool_decide (f_name f = name) then Some f else findFlagLong flags name
  end.

Fixpoint findFlagShort (flags : list (Flag V)) (r : Z) : option (Flag V) :=
  match flags with
  | [] => None
  | f :: flags => if (f_short f =? r) && negb (r =? 0) then Some f else findFlagShort flags r
  end.

Definition isFlagToken (tok : string) : bool :=
  match tok with
  | String a (String _ _) => bool_decide (a = "-"%char) && negb (bool_decide (tok = "--"))
  | _ => false
  end.

(** [strings.Cut(body, "=")] *)
Definition Cut (body : string) : string * string * bool :=
  match cut "=" body with
  | Some (name, val) => (name, val, true)
  | None => (body, EmptyString, false)
  end.

(** The flag a token names, before its value is looked at. *)
Definition resolveFlag (isLong : bool) (name : string) (flags : list (Flag V))
    : result error (Flag V) :=
  if isLong then
    match findFlagLong flags name with
    | Some f => Ok f
    | None => Err (errorf (MUnknownLong name) ErrUsage)
    end
  else
    match runes name with
    | [] => Err (errorf MBareDash ErrUsage)
    | [r] =>
        match findFlagShort flags r with
        | Some f => Ok f
        | None => Err (errorf (MUnknownShort (encode_rune r)) ErrUsage)
        end
    | _ => Err (errorf (MCombinedShort name) ErrUsage)
    end.

(** The result tells whether the following token was consumed as a value. *)
Definition applyFlagToken (tok : string) (next : option string) (flags : list (Flag V)) (vs : values V)
    : result error (bool * values V) :=
  let isLong := HasPrefix tok "--" in
  let body := String.substring (if isLong then 2 else 1) (String.length tok) tok in
  let '(name, valIn, hasInline) := Cut body in
  let applied (consumed : bool) (r : result error (values V)) :=
    match r with Ok vs => Ok (consumed, vs) | Err e => Err e end in
  match resolveFlag isLong name flags with
  | Err e => Err e
  | Ok f =>
      if f_isBool f then applied false (flagApplyString f vs (if hasInline then valIn else "true"))
      else if hasInline then applied false (flagApplyString f vs valIn)
      else match next with
           | None => Err (errorf (MMissingValue (f_name f)) ErrUsage)
           | Some next => applied true (flagApplyString f vs next)
           end
  end.

(** [bindPositionals] mutates the values map, up to the failing argument: the map is
    returned with the error. *)
Fixpoint bindVariadic (a : Arg V) (positional : list string) (vs : values V) : values V * option error :=
  match positional with
  | [] => (vs, None)
  | p :: positional =>
      match argApplyString a vs p with
      | Ok vs => bindVariadic a positional vs
      | Err e => (vs, Some e)
      end
  end.

Fixpoint bindPositionals (args : list (Arg V)) (positional : list string) (vs : values V)
    : values V * option error :=
  match args with
  | [] =>
      match positional with
      | [] => (vs, None)
      | p :: _ => (vs, Some (errorf (MUnexpectedArgument p) ErrUsage))
      end
  | a :: args =>
      if a_variadic a then
        match bindVariadic a positional vs with
        | (vs, Some e) => (vs, Some e)
        | (vs, None) =>
            if a_required a && bool_decide (positional = [])
            then (vs, Some (errorf (MMissingArgument (a_name a)) ErrMissingArg)) else (vs, None)
        end
      else
        match positional with
        | [] =>
            if a_required a then (vs, Some (errorf (MMissingArgument (a_name a)) ErrMissingArg))
            else bindPositionals args [] vs
        | p :: positional =>
            match argApplyString a vs p with
            | Ok vs => bindPositionals args positional vs
            | Err e => (vs, Some e)
            end
        end
  end.

(** ** Suggestions *)

(** The loop over the candidate names of one visible subcommand. *)
Fixpoint closest (attempted : string) (cands : list string) (best : string * nat) : string * nat :=
  match cands with
  | [] => best
  | cand :: cands =>
      let d := levenshtein attempted cand in
      closest attempted cands (if (d <? snd best)%nat then (cand, d) else best)
  end.

Definition visibleNames (c : Command V) : list string :=
  concat ((fun s => Name s :: Aliases s) <$> filter (fun s => Hidden s = false) (subs_of c)).

Definition suggestSub (c : Command V) (attempted : string) : string :=
  fst (closest attempted (visibleNames c) (EmptyString, String.length attempted `min` 4)%nat).

Definition unknownSubcommand (c : Command V) (attempted : string) : error :=
  errorf (MUnknownSubcommand attempted (suggestSub c attempted)) ErrUnknownCmd.

(** ** The parser *)

Record ParseResult := mkParseResult {
  r_cmd : Command V;
  r_path : list (Command V);
  r_values : values V;
  r_help : bool;
  r_version : bool
}.

(** The variables of the token loop. *)
Record scanState := mkScan {
  s_cmd : Command V;
  s_path : list (Command V);
  s_known : list (Flag V);
  s_values : values V;
  s_positional : list string;
  s_started : bool;
  s_locked : bool
}.

Inductive scanEnd :=
| ScanDone
| ScanHelp
| ScanVersion
| ScanError (e : error).

Definition groupingOnly (c : Command V) : bool :=
  bool_decide (Run c = None) && (0 <? length (Subcommands c))%nat.

Definition set_values (st : scanState) (vs : values V) : scanState :=
  mkScan (s_cmd st) (s_path st) (s_known st) vs (s_positional st) (s_started st) (s_locked st).
Definition descend (st : scanState) (sub : Command V) : scanState :=
  mkScan sub (s_path st ++ [sub]) (s_known st ++ flags_of sub) (s_values st) (s_positional st)
    (s_started st) (s_locked st).
Definition add_positional (st : scanState) (tok : string) : scanState :=
  mkScan (s_cmd st) (s_path st) (s_known st) (s_values st) (s_positional st ++ [tok])
    true (s_locked st || commandHasVariadic (s_cmd st)).
Definition rest_positional (st : scanState) (toks : list string) : scanState :=
  mkScan (s_cmd st) (s_path st) (s_known st) (s_values st) (s_positional st ++ toks)
    (s_started st) (s_locked st).

(** One iteration of the token loop that does not return: [consumed] says whether the
    following token was used up with this one. *)
Inductive scanStep :=
| StepNext (consumed : bool) (st : scanState)
| StepStop (st : scanState) (e : scanEnd).

Definition scan1 (st : scanState) (tok : string) (rest : list string) : scanStep :=
  if bool_decide (tok = "--") then StepStop (rest_positional st rest) ScanDone
  else if bool_decide (tok = "--help") || bool_decide (tok = "-h") then StepStop st ScanHelp
  else if bool_decide (tok = "--version") && negb (bool_decide (Version (s_cmd st) = EmptyString))
  then StepStop st ScanVersion
  else if negb (s_locked st) && isFlagToken tok then
    match applyFlagToken tok (head rest) (s_known st) (s_values st) with
    | Err e => StepStop st (ScanError e)
    | Ok (consumed, vs) => StepNext consumed (set_values st vs)
    end
  else
    let positional := StepNext false (add_positional st tok) in
    if s_started st then positional
    else match findSub (s_cmd st) tok with
         | Some sub => StepNext false (descend st sub)
         | None =>
             if groupingOnly (s_cmd st)
             then StepStop st (ScanError (unknownSubcommand (s_cmd st) tok))
             else positional
         end.

Fixpoint scan (st : scanState) (tokens : list string) : scanState * scanEnd :=
  match tokens with
  | [] => (st, ScanDone)
  | tok :: rest =>
      match scan1 st tok rest with
      | StepStop st e => (st, e)
      | StepNext consumed st =>
          match consumed, rest with
          | true, _ :: rest => scan st rest
          | _, _ => scan st rest
          end
      end
  end.

Fixpoint applyEnvs (known : list (Flag V)) (env : string -> option string) (vs : values V)
    : values V * option error :=
  match known with
  | [] => (vs, None)
  | f :: known =>
      match flagApplyEnv f vs env with
      | Ok vs => applyEnvs known env vs
      | Err e => (vs, Some e)
      end
  end.

Fixpoint checkKnown (known : list (Flag V)) (vs : values V) : option error :=
  match known with
  | [] => None
  | f :: known =>
      if f_required f && negb (flagPresent f vs) && negb (f_hasDefault f)
      then Some (errorf (MRequiredFlag (f_name f)) ErrUsage)
      else match flagValidate f vs with
           | Some e => Some e
           | None => checkKnown known vs
           end
  end.

Fixpoint validateArgs (args : list (Arg V)) (vs : values V) : option error :=
  match args with
  | [] => None
  | a :: args =>
      match argValidate a vs with
      | Some e => Some e
      | None => validateArgs args vs
      end
  end.

(** Environment, required flags and flag validators, skipped for injected commands. *)
Definition flagPolicy (cmd : Command V) (known : list (Flag V)) (env : string -> option string)
    (vs : values V) : values V * option error :=
  if injected cmd then (vs, None)
  else match applyEnvs known env vs with
       | (vs, Some e) => (vs, Some e)
       | (vs, None) => (vs, checkKnown known vs)
       end.

(** What follows the token loop. *)
Definition finish (cmd : Command V) (known : list (Flag V)) (positional : list string)
    (env : string -> option string) (vs : values V) : values V * option error :=
  match flagPolicy cmd known env vs with
  | (vs, Some e) => (vs, Some e)
  | (vs, None) =>
      if groupingOnly cmd then (vs, Some (sentinel_error ErrMissingSubcommand))
      else match bindPositionals (args_of cmd) positional vs with
           | (vs, Some e) => (vs, Some e)
           | (vs, None) => (vs, validateArgs (args_of cmd) vs)
           end
  end.

Definition scan_init (root : Command V) : scanState :=
  mkScan root [root] (flags_of root) ∅ [] false false.

(** The partial state is returned with the error, for the error renderer. *)
Definition parseArgs (root : Command V) (tokens : list string) (env : string -> option string)
    : ParseResult * list (Flag V) * option error :=
  match validateArgsDecl root [] with
  | Some d => (mkParseResult root [root] ∅ false false, flags_of root, Some (Leaf (MDecl d) []))
  | None =>
      let '(st, e) := scan (scan_init root) tokens in
      let res vs help version := mkParseResult (s_cmd st) (s_path st) vs help version in
      match e with
      | ScanHelp => (res (s_values st) true false, s_known st, None)
      | ScanVersion => (res (s_values st) false true, s_known st, None)
      | ScanError e => (res (s_values st) false false, s_known st, Some e)
      | ScanDone =>
          let '(vs, e) := finish (s_cmd st) (s_known st) (s_positional st) env (s_values st) in
          (res vs false false, s_known st, e)
      end
  end.

(** [Command.Parse]; [os.LookupEnv] is the argument [env]. *)
Definition Parse (c : Command V) (args : list string) (env : string -> option string)
    : ParseResult * option error :=
  let '(res, _, err) := parseArgs c args env in (res, err).

Definition commandNames (path : list (Command V)) : list string := Name <$> path.

End Accessors.
Arguments scanState : clear implicits.
Arguments ParseResult : clear implicits.
Arguments scanStep : clear implicits.
