(* ===== verification/CliSpec.v ===== *)
(** The declaration check of Cli.v accepts exactly the well-formed command trees: names,
    flags against those of the ancestors, arguments, subcommands. *)

From S2P Require Import Prelude.
From S2P Require Import Strconv.
From S2P Require Import Strings.
From S2P Require Import EditDistance.
From S2P Require Import Cli.

Local Open Scope Z_scope.

(** ** Trees of commands *)

Section CommandInd.
  Context {V : Type} (P : Command V -> Prop).
  Hypothesis Pcmd : forall c, (forall s, Some s ∈ Subcommands c -> P s) -> P c.

Fixpoint Command_ind' (c : Command V) : P c.
  Proof.
    apply Pcmd. destruct c as [? ? ? ? ? ? ? ? subs]. simpl. clear Pcmd.
    induction subs as [|[s'|] subs IH]; intros s Hs.
    - destruct (not_elem_of_nil _ Hs).
    - apply elem_of_cons in Hs as [E|Hs]; [|exact (IH s Hs)]. injection E as ->. apply Command_ind'.
    - apply elem_of_cons in Hs as [E|Hs]; [discriminate E|exact (IH s Hs)].
  Qed.
End CommandInd.

Section Declarations.
Context {V : Type}.
Implicit Types (c root : Command V) (inh : list (Flag V)).

(** [reaches root inh c]: [c] is in the tree of [root], and [inh] lists the flags its
    proper ancestors declare. *)
Inductive reaches root : list (Flag V) -> Command V -> Prop :=
| reaches_root : reaches root [] root
| reaches_sub inh c s :
    reaches root inh c -> Some s ∈ Subcommands c -> reaches root (inh ++ flags_of c) s.

(** Required arguments, then optional ones, then at most one variadic, which is not
    required when an optional one precedes it; slices are exactly the variadics. *)
Definition args_shape (args : list (Arg V)) : Prop :=
  exists req opt var, args = req ++ opt ++ var /\
    Forall (fun a => a_required a = true /\ a_variadic a = false /\ a_isSlice a = false) req /\
    Forall (fun a => a_required a = false /\ a_variadic a = false /\ a_isSlice a = false) opt /\
    Forall (fun a => a_variadic a = true /\ a_isSlice a = true /\ (opt = [] \/ a_required a = false)) var /\
    (length var <= 1)%nat.

Definition shorts (fs : list (Flag V)) : list Z := filter (fun r => r <> 0) (f_short <$> fs).

(** The tokens that select a subcommand. *)
Definition tokensOf c : list string := Name c :: Aliases c.

Record well_declared inh c : Prop := {
  wd_no_nil : None ∉ Flags c /\ None ∉ Args c /\ None ∉ Subcommands c;
  wd_names : NoDup (f_name <$> flags_of c) /\
             forall n, n ∈ f_name <$> flags_of c -> n <> "help" /\ n ∉ f_name <$> inh;
  wd_shorts : NoDup (shorts (flags_of c)) /\
              forall r, r ∈ shorts (flags_of c) -> r <> 104 /\ r ∉ shorts inh;
  wd_version : Version c <> EmptyString -> "version" ∉ f_name <$> (inh ++ flags_of c);
  wd_args : args_shape (args_of c);
  wd_subs : NoDup (concat (tokensOf <$> subs_of c))
}.

(** *** The loops *)

Lemma no_nil_omap {A} (l : list (option A)) : None ∉ l -> l = Some <$> omap id l.
Proof.
  induction l as [|[x|] l IH]; intros H; [done|..].
  - cbn. f_equal. apply IH. intros Hn. apply H. by right.
  - destruct H. left.
Qed.

Lemma shorts_cons f fs :
  shorts (f :: fs) = if decide (f_short f <> 0) then f_short f :: shorts fs else shorts fs.
Proof. unfold shorts. rewrite fmap_cons, filter_cons. done. Qed.

Lemma shorts_app fs gs : shorts (fs ++ gs) = shorts fs ++ shorts gs.
Proof. unfold shorts. by rewrite fmap_app, filter_app. Qed.

(** One more name, one more short: what the sets of the loop stand for. *)
Lemma fresh_cons {A} `{Countable A} (bad x : A) (seen : gset A) (l : list A) :
  (NoDup (x :: l) /\ forall y, y ∈ x :: l -> y <> bad /\ y ∉ seen) <->
  x <> bad /\ x ∉ seen /\ (NoDup l /\ forall y, y ∈ l -> y <> bad /\ y ∉ {[x]} ∪ seen).
Proof.
  rewrite NoDup_cons. split.
  - intros [[Hx Hl] Hs]. destruct (Hs x) as [? ?]; [left|]. split_and!; [done..|].
    intros y Hy. destruct (Hs y) as [? ?]; [by right|]. split; [done|].
    rewrite elem_of_union, elem_of_singleton. naive_solver.
  - intros (Hb & Hn & Hl & Hs). split_and!; [|done|].
    + intros Hx. apply (Hs x) in Hx as [_ Hx]. apply Hx. set_solver.
    + intros y [->|Hy]%elem_of_cons; [done|]. apply Hs in Hy as [? Hy].
      split; [done|]. rewrite elem_of_union in Hy. naive_solver.
Qed.

Lemma checkFlags_ok cname longSeen shortSeen fs :
  (forall L, checkFlags cname longSeen shortSeen fs = Ok L ->
     L = list_to_set (f_name <$> omap id fs) ∪ longSeen) /\
  (is_ok (checkFlags cname longSeen shortSeen fs) = true <->
     None ∉ fs /\
     (NoDup (f_name <$> omap id fs) /\
      forall n, n ∈ f_name <$> omap id fs -> n <> "help" /\ n ∉ longSeen) /\
     (NoDup (shorts (omap id fs)) /\ forall r, r ∈ shorts (omap id fs) -> r <> 104 /\ r ∉ shortSeen)).
Proof.
  revert longSeen shortSeen. induction fs as [|[f|] fs IH]; intros longSeen shortSeen; cbn [checkFlags].
  - split; [intros ? [= <-]; cbn; set_solver|]. split; [|done]. intros _.
    split; [apply not_elem_of_nil|].
    split; (split; [constructor|]); intros ? H; by apply not_elem_of_nil in H.
  - change (omap id (Some f :: fs)) with (f :: omap id fs). rewrite shorts_cons, fmap_cons.
    assert (HN : None ∉ Some f :: fs <-> None ∉ fs).
    { rewrite not_elem_of_cons. naive_solver. }
    rewrite HN, fresh_cons.
    assert (HU : forall L, L = list_to_set (f_name <$> omap id fs) ∪ ({[f_name f]} ∪ longSeen) ->
      L = list_to_set (f_name f :: (f_name <$> omap id fs)) ∪ longSeen).
    { intros L ->. rewrite list_to_set_cons. set_solver. }
    case_bool_decide as E1; [split; [done|]; split; [done|]; naive_solver|].
    destruct (Z.eqb_spec (f_short f) 104) as [E2|E2].
    { split; [done|]. split; [done|]. rewrite decide_True by lia.
      intros (_ & _ & _ & Hs). destruct (Hs (f_short f)); [left|done]. }
    case_bool_decide as E3; [split; [done|]; split; [done|]; naive_solver|].
    destruct (Z.eqb_spec (f_short f) 0) as [E4|E4].
    { destruct (IH ({[f_name f]} ∪ longSeen) shortSeen) as [IH1 IH2].
      split; [intros L HL; auto|]. rewrite IH2, decide_False by auto. naive_solver. }
    rewrite decide_True, (fresh_cons 104) by done.
    case_bool_decide as E5; [split; [done|]; split; [done|]; naive_solver|].
    destruct (IH ({[f_name f]} ∪ longSeen) ({[f_short f]} ∪ shortSeen)) as [IH1 IH2].
    split; [intros L HL; auto|]. rewrite IH2. naive_solver.
  - split; [done|]. split; [done|]. intros [H _]. destruct H. left.
Qed.

(** [args_shape] from the middle of the loop. *)
Definition shape_from (seenOptional : bool) (args : list (Arg V)) : Prop :=
  exists req opt var, args = req ++ opt ++ var /\ (seenOptional = true -> req = []) /\
    Forall (fun a => a_required a = true /\ a_variadic a = false /\ a_isSlice a = false) req /\
    Forall (fun a => a_required a = false /\ a_variadic a = false /\ a_isSlice a = false) opt /\
    Forall (fun a => a_variadic a = true /\ a_isSlice a = true /\
                     (opt = [] /\ seenOptional = false \/ a_required a = false)) var /\
    (length var <= 1)%nat.

Lemma args_shape_from args : args_shape args <-> shape_from false args.
Proof.
  split.
  - intros (req & opt & var & -> & Hr & Ho & Hv & Hl). exists req, opt, var. split_and!; try done.
    eapply Forall_impl; [exact Hv|]. naive_solver.
  - intros (req & opt & var & -> & _ & Hr & Ho & Hv & Hl). exists req, opt, var. split_and!; try done.
    eapply Forall_impl; [exact Hv|]. naive_solver.
Qed.

Lemma shape_cons so a args :
  shape_from so (a :: args) <->
  if a_variadic a then args = [] /\ a_isSlice a = true /\ (so = false \/ a_required a = false)
  else a_isSlice a = false /\
       if a_required a then so = false /\ shape_from false args else shape_from true args.
Proof.
  unfold shape_from. split.
  - intros (req & opt & var & E & Hso & Hr & Ho & Hv & Hl). destruct req as [|a' req].
    + destruct opt as [|a' opt].
      * destruct var as [|a' [|]]; simpl in *; [done| |lia]. simplify_eq.
        apply Forall_cons in Hv as [(-> & -> & Hreq) _]. naive_solver.
      * simpl in E. simplify_eq. apply Forall_cons in Ho as [(-> & -> & ->) Ho].
        split; [done|]. exists [], opt, var. split_and!; try done.
        eapply Forall_impl; [exact Hv|]. naive_solver.
    + simpl in E. simplify_eq. apply Forall_cons in Hr as [(-> & -> & ->) Hr].
      destruct so; [by specialize (Hso eq_refl)|]. split_and!; try done.
      exists req, opt, var. split_and!; try done.
  - destruct (a_variadic a) eqn:Ev.
    + intros (-> & Es & Hreq). exists [], [], [a]. split_and!; try (by constructor); try done.
      apply Forall_singleton. naive_solver.
    + intros [Es Hargs]. destruct (a_required a) eqn:Er.
      * destruct Hargs as (-> & req & opt & var & -> & _ & Hr & Ho & Hv & Hl).
        exists (a :: req), opt, var. split_and!; try done. apply Forall_cons; auto.
      * destruct Hargs as (req & opt & var & -> & Hso & Hr & Ho & Hv & Hl).
        rewrite (Hso eq_refl). exists [], (a :: opt), var. split_and!; try done.
        -- apply Forall_cons; auto.
        -- eapply Forall_impl; [exact Hv|]. naive_solver.
Qed.

Lemma checkArgs_ok cname so args :
  checkArgs cname so args = None <-> None ∉ args /\ shape_from so (omap id args).
Proof.
  revert so. induction args as [|[a|] args IH]; intros so; cbn [checkArgs].
  - split; [intros _|done]. split; [apply not_elem_of_nil|]. exists [], [], [].
    split_and!; try done; simpl; lia.
  - change (omap id (Some a :: args)) with (a :: omap id args). rewrite shape_cons.
    assert (HN : None ∉ Some a :: args <-> None ∉ args) by (rewrite not_elem_of_cons; naive_solver).
    rewrite HN. clear HN.
    destruct (a_variadic a) eqn:Ev; simpl.
    + case_bool_decide as E; simpl.
      * subst args. destruct (a_required a), so, (a_isSlice a); simpl;
          split; intros H; try done; try naive_solver;
          (split; [apply not_elem_of_nil|naive_solver]).
      * split; [done|]. intros (HNone & HO & _). destruct E.
        rewrite (no_nil_omap args) by done. by rewrite HO.
    + rewrite andb_true_r. destruct (a_required a) eqn:Er, so, (a_isSlice a); simpl;
        try (split; [done|naive_solver]); rewrite IH; naive_solver.
  - split; [done|]. intros [H _]. destruct H. left.
Qed.

Lemma checkAliases_ok cname seen l :
  (forall L, checkAliases cname seen l = Ok L -> L = list_to_set l ∪ seen) /\
  (is_ok (checkAliases cname seen l) = true <-> NoDup l /\ forall n, n ∈ l -> n ∉ seen).
Proof.
  revert seen. induction l as [|x l IH]; intros seen; cbn [checkAliases].
  - split; [intros ? [= <-]; cbn; set_solver|]. split; [|done]. intros _.
    split; [constructor|]. intros ? H. by apply not_elem_of_nil in H.
  - rewrite NoDup_cons. case_bool_decide as E.
    { split; [done|]. split; [done|]. intros [_ Hs]. destruct (Hs x); [left|done]. }
    destruct (IH ({[x]} ∪ seen)) as [IH1 IH2]. split.
    + intros L HL. rewrite (IH1 L HL). rewrite list_to_set_cons. set_solver.
    + rewrite IH2. set_solver.
Qed.

Lemma NoDup_app_fresh {A} `{Countable A} (l k : list A) (seen : gset A) :
  (NoDup (l ++ k) /\ forall n, n ∈ l ++ k -> n ∉ seen) <->
  (NoDup l /\ forall n, n ∈ l -> n ∉ seen) /\
  (NoDup k /\ forall n, n ∈ k -> n ∉ list_to_set l ∪ seen).
Proof.
  rewrite NoDup_app. setoid_rewrite elem_of_app. setoid_rewrite not_elem_of_union.
  setoid_rewrite elem_of_list_to_set. naive_solver.
Qed.

Lemma checkSubNames_ok cname seen subs :
  checkSubNames cname seen subs = None <->
  None ∉ subs /\ NoDup (concat (tokensOf <$> omap id subs)) /\
  forall n, n ∈ concat (tokensOf <$> omap id subs) -> n ∉ seen.
Proof.
  revert seen. induction subs as [|[s|] subs IH]; intros seen; cbn [checkSubNames].
  - split; [intros _|done]. split; [apply not_elem_of_nil|].
    split; [constructor|]. intros ? H. by apply not_elem_of_nil in H.
  - change (concat (tokensOf <$> omap id (Some s :: subs)))
      with (tokensOf s ++ concat (tokensOf <$> omap id subs)).
    assert (HN : None ∉ Some s :: subs <-> None ∉ subs) by (rewrite not_elem_of_cons; naive_solver).
    rewrite HN, NoDup_app_fresh. clear HN.
    destruct (checkAliases_ok cname seen (tokensOf s)) as [HA1 HA2].
    unfold tokensOf at 1 in HA1. unfold tokensOf at 1 in HA2. cbn [checkAliases] in HA1, HA2.
    rewrite <-HA2. case_bool_decide as E; [split; [done|]; naive_solver|].
    destruct (checkAliases cname ({[Name s]} ∪ seen) (Aliases s)) as [L|e] eqn:EA.
    + rewrite (HA1 L eq_refl), IH. naive_solver.
    + split; [done|]. naive_solver.
  - split; [done|]. intros [H _]. destruct H. left.
Qed.

Lemma checkCommand_ok c inh : checkCommand c inh = None <-> well_declared inh c.
Proof.
  unfold checkCommand.
  destruct (checkFlags_ok (Name c) (inherited_longs inh) (inherited_shorts inh) (Flags c)) as [HF1 HF2].
  unfold inherited_longs, inherited_shorts in HF2.
  setoid_rewrite elem_of_list_to_set in HF2. fold (shorts inh) (flags_of c) in HF2.
  destruct (checkFlags _ _ _ (Flags c)) as [L|e].
  2:{ split; [done|]. intros [(? & ? & ?) ? ? ? ? ?]. destruct HF2 as [_ HF2]. discriminate HF2. auto. }
  destruct HF2 as [HF2 _]. destruct (HF2 eq_refl) as (Hnil & Hnames & Hshorts). clear HF2.
  assert (HV : "version" ∈ L <-> "version" ∈ f_name <$> (inh ++ flags_of c)).
  { rewrite (HF1 L eq_refl). unfold inherited_longs.
    rewrite elem_of_union, !elem_of_list_to_set, fmap_app, elem_of_app. tauto. }
  pose proof (checkArgs_ok (Name c) false (Args c)) as HA. fold (args_of c) in HA.
  rewrite <-args_shape_from in HA.
  pose proof (checkSubNames_ok (Name c) ∅ (Subcommands c)) as HS. fold (subs_of c) in HS.
  case_bool_decide as E1; simpl; [|case_bool_decide as E2; simpl].
  2:{ split; [done|]. intros H. apply wd_version in H; [|done]. tauto. }
  all: destruct (checkArgs (Name c) false (Args c)) eqn:EA.
  1,3: (split; [done|]; intros H; apply HA; split; [apply (wd_no_nil _ _ H)|apply (wd_args _ _ H)]).
  all: destruct HA as [HA _]; destruct (HA eq_refl) as [HA1 HA2]; rewrite HS; split;
    [intros (? & ? & _); constructor; naive_solver
    |intros [(? & ? & ?) ? ? ? ? ?]; split_and!; [done..|]; intros; apply not_elem_of_empty].
Qed.

Lemma reaches_step root inh c s :
  Some s ∈ Subcommands root -> reaches s inh c -> reaches root (flags_of root ++ inh) c.
Proof.
  intros Hs. induction 1 as [|inh c s' H IH Hs'].
  - rewrite app_nil_r. change (flags_of root) with ([] ++ flags_of root).
    by apply reaches_sub; [apply reaches_root|].
  - rewrite app_assoc. by apply reaches_sub.
Qed.

Lemma reaches_inv root inh c :
  reaches root inh c ->
  inh = [] /\ c = root \/
  exists s inh', Some s ∈ Subcommands root /\ inh = flags_of root ++ inh' /\ reaches s inh' c.
Proof.
  induction 1 as [|inh c s H IH Hs]; [by left|]. right.
  destruct IH as [[-> ->]|(s0 & inh' & Hs0 & -> & H0)].
  - exists s, []. rewrite app_nil_r. split_and!; [done..|constructor].
  - exists s0, (inh' ++ flags_of c). rewrite app_assoc. split_and!; [done..|]. by apply reaches_sub.
Qed.

Definition validateChildren (childInherited : list (Flag V)) : list (option (Command V)) -> option DeclError :=
  fix children (subs : list (option (Command V))) : option DeclError :=
    match subs with
    | [] => None
    | None :: subs => children subs
    | Some s :: subs =>
        match validateArgsDecl s childInherited with
        | Some e => Some e
        | None => children subs
        end
    end.

Lemma validateArgsDecl_eq c inh :
  validateArgsDecl c inh =
  match checkCommand c inh with
  | Some e => Some e
  | None => validateChildren (inh ++ flags_of c) (Subcommands c)
  end.
Proof. by destruct c. Qed.

Lemma validateChildren_None inh subs :
  validateChildren inh subs = None <-> forall s, Some s ∈ subs -> validateArgsDecl s inh = None.
Proof.
  induction subs as [|[s|] subs IH]; cbn [validateChildren].
  - split; [|done]. intros _ s Hs. by apply not_elem_of_nil in Hs.
  - fold (validateChildren inh). setoid_rewrite elem_of_cons. destruct (validateArgsDecl s inh) eqn:E.
    + split; [done|]. intros H. rewrite <-E. apply H. by left.
    + rewrite IH. split; [|auto]. intros H s' [[= ->]|Hs']; auto.
  - fold (validateChildren inh). rewrite IH. setoid_rewrite elem_of_cons. naive_solver.
Qed.

Lemma validateArgsDecl_ok c inh :
  validateArgsDecl c inh = None <-> forall inh' c', reaches c inh' c' -> well_declared (inh ++ inh') c'.
Proof.
  revert inh. induction c as [c IH] using Command_ind'. intros inh. rewrite validateArgsDecl_eq.
  destruct (checkCommand c inh) as [e|] eqn:EC.
  { split; [done|]. intros H. specialize (H [] c (reaches_root c)). rewrite app_nil_r in H.
    apply checkCommand_ok in H. congruence. }
  apply checkCommand_ok in EC. rewrite validateChildren_None. split.
  - intros H inh' c' [[-> ->]|(s & inh'' & Hs & -> & Hr)]%reaches_inv; [by rewrite app_nil_r|].
    rewrite app_assoc. specialize (H s Hs). rewrite (IH s Hs) in H. auto.
  - intros H s Hs. apply (IH s Hs). intros inh' c' Hr. rewrite <-app_assoc. apply H.
    by eapply reaches_step.
Qed.

Lemma declaration_ok root inh c :
  validateArgsDecl root [] = None -> reaches root inh c -> well_declared inh c.
Proof. intros H. by apply (validateArgsDecl_ok root []). Qed.

(** The declaration check accepts a command tree exactly when every command of
    it is well declared against the flags of its ancestors: no nil entries, flag names
    and shorts unique along every path and none of them taken by the built-in help, no
    [version] flag under a declared version, arguments in the order required, optional,
    one final variadic, and sibling names and aliases pairwise distinct. *)
Theorem declaration_check_is_exact root :
  validateArgsDecl root [] = None <->
  forall inh c, reaches root inh c -> well_declared inh c.
Proof. apply validateArgsDecl_ok. Qed.
End Declarations.
