(* ===== verification/CliRoundTrip.v ===== *)
(** Rendering an invocation and scanning it back: the token loop of src/cli/parse.go ends
    in the command, the flag values and the positionals that a command line was rendered
    from. What the parse makes of them is in CliPolicy.v. *)

From S2P Require Import Prelude.
From S2P Require Import Strconv.
From S2P Require Import Strings.
From S2P Require Import EditDistance.
From S2P Require Import Cli.
From S2P Require Import CliSpec.

Local Open Scope Z_scope.

(** ** Tokens *)

Definition no_eq (s : string) : bool := string_forall (fun a => bool_decide (a <> "="%char)) s.

Lemma substring_all s n : (String.length s <= n)%nat -> String.substring 0 n s = s.
Proof.
  revert n. induction s as [|a s IH]; intros [|n] H; simpl in *; try done; [lia|]. rewrite IH by lia. done.
Qed.

Lemma cut_none s : no_eq s = true -> cut "=" s = None.
Proof.
  induction s as [|a s IH]; [done|]. simpl. intros [H1%bool_decide_eq_true H2]%andb_true_iff.
  rewrite bool_decide_false by done. by rewrite IH.
Qed.

Lemma Cut_plain s : no_eq s = true -> Cut s = (s, EmptyString, false).
Proof. intros H. unfold Cut. by rewrite cut_none. Qed.

Lemma Cut_inline s v : no_eq s = true -> Cut (s +:+ String "=" v) = (s, v, true).
Proof. intros H. unfold Cut. by rewrite (cut_app "=" s v H). Qed.

Lemma HasPrefix_app p s : HasPrefix (p +:+ s) p = true.
Proof. unfold HasPrefix. by rewrite CutPrefix_app. Qed.

Lemma ascii_ne_eq z : 0 <= z < 256 -> z <> 61 -> bool_decide (ascii_of z <> "="%char) = true.
Proof.
  intros H Hz. apply bool_decide_eq_true. intros E. apply (f_equal byte_of) in E.
  rewrite byte_of_ascii_of in E by done. change (byte_of "=") with 61 in E. lia.
Qed.

Lemma encode_rune_no_eq r : valid_rune r = true -> r <> 61 -> no_eq (encode_rune r) = true.
Proof.
  intros Hv Hr. unfold encode_rune. rewrite Hv. unfold valid_rune in Hv.
  assert (0 <= r <= 1114111) by lia. clear Hv.
  assert (Hc : forall z, bool_decide (cont z <> "="%char) = true).
  { intros z. pose proof (Z.mod_pos_bound z 64). apply ascii_ne_eq; lia. }
  assert (r < 65536 -> 0 <= r / 4096 < 16) by (intros; split; [apply Z.div_pos|apply Z.div_lt_upper_bound]; lia).
  assert (0 <= r / 262144 < 5) by (split; [apply Z.div_pos|apply Z.div_lt_upper_bound]; lia).
  assert (r < 2048 -> 0 <= r / 64 < 32) by (intros; split; [apply Z.div_pos|apply Z.div_lt_upper_bound]; lia).
  destruct (Z.ltb_spec r 128); [|destruct (Z.ltb_spec r 2048); [|destruct (Z.ltb_spec r 65536)]];
    cbn [no_eq string_forall]; unfold no_eq; cbn [string_forall]; rewrite ?Hc, ascii_ne_eq by lia; done.
Qed.

(** The first byte of a rune's encoding is a dash only for the dash itself. *)
Lemma encode_rune_head r : valid_rune r = true -> r <> 45 ->
  exists a s, encode_rune r = String a s /\ a <> "-"%char.
Proof.
  intros Hv Hr. unfold encode_rune. rewrite Hv. unfold valid_rune in Hv.
  assert (0 <= r <= 1114111) by lia. clear Hv.
  assert (r < 65536 -> 0 <= r / 4096 < 16) by (intros; split; [apply Z.div_pos|apply Z.div_lt_upper_bound]; lia).
  assert (0 <= r / 262144 < 5) by (split; [apply Z.div_pos|apply Z.div_lt_upper_bound]; lia).
  assert (r < 2048 -> 0 <= r / 64 < 32) by (intros; split; [apply Z.div_pos|apply Z.div_lt_upper_bound]; lia).
  assert (Hd : forall z, 0 <= z < 256 -> z <> 45 -> ascii_of z <> "-"%char).
  { intros z Hz Hne E. apply (f_equal byte_of) in E. rewrite byte_of_ascii_of in E by done.
    change (byte_of "-") with 45 in E. lia. }
  destruct (Z.ltb_spec r 128); [|destruct (Z.ltb_spec r 2048); [|destruct (Z.ltb_spec r 65536)]];
    do 2 eexists; (split; [reflexivity|]); apply Hd; lia.
Qed.

(** ** Rendered flags *)

Inductive style := LongInline | LongNext | LongBare | ShortInline | ShortNext | ShortBare.

Section RoundTrip.
Context {V : Type}.
Implicit Types (f : Flag V) (known : list (Flag V)) (vs : values V) (st : scanState V).

Record occ := mkOcc { o_flag : Flag V; o_style : style; o_value : string }.

Definition long_token f : string := "--" +:+ f_name f.
Definition short_token f : string := String "-" (encode_rune (f_short f)).

Definition render_occ (o : occ) : list string :=
  let f := o_flag o in
  let v := o_value o in
  match o_style o with
  | LongInline => [long_token f +:+ String "=" v]
  | LongNext => [long_token f; v]
  | LongBare => [long_token f]
  | ShortInline => [short_token f +:+ String "=" v]
  | ShortNext => [short_token f; v]
  | ShortBare => [short_token f]
  end.

Definition nameable f : Prop := no_eq (f_name f) = true.
Definition shortable f : Prop :=
  valid_rune (f_short f) = true /\ f_short f <> 0 /\ f_short f <> 61 /\ f_short f <> 45.

(** What a style needs: a name or a short that tokens can carry, and the value in the
    following token only for flags that take one. *)
Definition occ_ok known (o : occ) : Prop :=
  let f := o_flag o in
  f ∈ known /\
  match o_style o with
  | LongInline => nameable f
  | LongNext => nameable f /\ f_name f <> EmptyString /\ f_isBool f = false
  | LongBare => nameable f /\ f_name f <> EmptyString /\ f_isBool f = true /\ o_value o = "true"
  | ShortInline => shortable f
  | ShortNext => shortable f /\ f_isBool f = false
  | ShortBare => shortable f /\ f_isBool f = true /\ o_value o = "true"
  end.

(** What the declaration check guarantees of the flags visible to a command. *)
Record visible (version : string) known : Prop := {
  vis_names : NoDup (f_name <$> known);
  vis_shorts : NoDup (shorts known);
  vis_help : "help" ∉ f_name <$> known;
  vis_short_help : 104 ∉ shorts known;
  vis_version : version <> EmptyString -> "version" ∉ f_name <$> known
}.

Lemma findFlagLong_unique known f :
  NoDup (f_name <$> known) -> f ∈ known -> findFlagLong known (f_name f) = Some f.
Proof.
  induction known as [|g known IH]; intros Hd Hf; [by apply not_elem_of_nil in Hf|].
  cbn [findFlagLong]. rewrite fmap_cons in Hd. apply NoDup_cons in Hd as [Hn Hd].
  apply elem_of_cons in Hf as [->|Hf]; [by rewrite bool_decide_true|].
  rewrite bool_decide_false; [by apply IH|]. intros E. apply Hn. rewrite E. by apply list_elem_of_fmap_2.
Qed.

Lemma elem_of_shorts known f : f ∈ known -> f_short f <> 0 -> f_short f ∈ shorts known.
Proof. intros Hf Hz. apply list_elem_of_filter. split; [done|]. by apply list_elem_of_fmap_2. Qed.

Lemma findFlagShort_unique known f :
  NoDup (shorts known) -> f ∈ known -> f_short f <> 0 -> findFlagShort known (f_short f) = Some f.
Proof.
  intros Hd Hf Hz. induction known as [|g known IH]; [by apply not_elem_of_nil in Hf|].
  cbn [findFlagShort]. destruct (Z.eqb_spec (f_short f) 0); [done|]. rewrite andb_true_r.
  rewrite shorts_cons in Hd. apply elem_of_cons in Hf as [->|Hf]; [by rewrite Z.eqb_refl|].
  destruct (Z.eqb_spec (f_short g) (f_short f)) as [E|E].
  - rewrite decide_True in Hd by congruence. apply NoDup_cons in Hd as [Hn _].
    destruct Hn. rewrite E. by apply elem_of_shorts.
  - apply IH; [|done]. case_decide; [by apply NoDup_cons in Hd as [_ Hd]|done].
Qed.

(** *** Reading one rendered flag *)

Definition consume (consumed : bool) (r : result error (values V)) : result error (bool * values V) :=
  match r with Ok vs => Ok (consumed, vs) | Err e => Err e end.

Lemma applyFlagToken_long body name val inl next known vs f :
  Cut body = (name, val, inl) -> findFlagLong known name = Some f ->
  applyFlagToken ("--" +:+ body) next known vs =
  if f_isBool f then consume false (flagApplyString f vs (if inl then val else "true"))
  else if inl then consume false (flagApplyString f vs val)
  else match next with
       | None => Err (errorf (MMissingValue (f_name f)) ErrUsage)
       | Some next => consume true (flagApplyString f vs next)
       end.
Proof.
  intros HC Hf. unfold applyFlagToken. rewrite HasPrefix_app.
  change (String.substring 2 (String.length ("--" +:+ body)) ("--" +:+ body))
    with (String.substring 0 (S (S (String.length body))) body).
  rewrite substring_all, HC by lia. unfold resolveFlag. by rewrite Hf.
Qed.

Lemma applyFlagToken_short a body name val inl next known vs f r :
  a <> "-"%char -> Cut (String a body) = (name, val, inl) -> runes name = [r] ->
  findFlagShort known r = Some f ->
  applyFlagToken (String "-" (String a body)) next known vs =
  if f_isBool f then consume false (flagApplyString f vs (if inl then val else "true"))
  else if inl then consume false (flagApplyString f vs val)
  else match next with
       | None => Err (errorf (MMissingValue (f_name f)) ErrUsage)
       | Some next => consume true (flagApplyString f vs next)
       end.
Proof.
  intros Ha HC Hr Hf. unfold applyFlagToken.
  assert (HP : HasPrefix (String "-" (String a body)) "--" = false).
  { unfold HasPrefix. cbn [CutPrefix]. by rewrite bool_decide_true, bool_decide_false. }
  rewrite HP.
  change (String.substring 1 (String.length (String "-" (String a body))) (String "-" (String a body)))
    with (String.substring 0 (S (S (String.length body))) (String a body)).
  rewrite substring_all, HC by (simpl; lia). unfold resolveFlag. by rewrite Hr, Hf.
Qed.

(** The tokens the loop hands to [applyFlagToken]. *)
Record flag_token (version tok : string) : Prop := {
  ft_dashes : tok <> "--";
  ft_help : tok <> "--help";
  ft_short_help : tok <> "-h";
  ft_version : version <> EmptyString -> tok <> "--version";
  ft_flag : isFlagToken tok = true
}.

Lemma scan1_flag st tok rest :
  flag_token (Version (s_cmd st)) tok -> s_locked st = false ->
  scan1 st tok rest =
  match applyFlagToken tok (head rest) (s_known st) (s_values st) with
  | Err e => StepStop st (ScanError e)
  | Ok (consumed, vs) => StepNext consumed (set_values st vs)
  end.
Proof.
  intros [H1 H2 H3 H4 H5] HL. unfold scan1. rewrite !bool_decide_false by done. cbn [orb].
  rewrite HL, H5. cbn [negb andb].
  destruct (bool_decide (tok = "--version")) eqn:E1; [|done]. apply bool_decide_eq_true in E1.
  destruct (bool_decide (Version (s_cmd st) = EmptyString)) eqn:E2; [done|].
  apply bool_decide_eq_false in E2. by destruct (H4 E2).
Qed.

Lemma no_eq_inline s v : no_eq (s +:+ String "=" v) = false.
Proof. unfold no_eq. rewrite string_forall_app. simpl. by rewrite andb_false_r. Qed.

Lemma inline_ne s v x : no_eq x = true -> s +:+ String "=" v <> x.
Proof. intros Hx E. pose proof (no_eq_inline s v). congruence. Qed.

Lemma long_flag_token version known f :
  visible version known -> f ∈ known -> f_name f <> EmptyString -> flag_token version (long_token f).
Proof.
  intros [_ _ Hh _ Hv] Hf Hn. unfold long_token. change ("--" +:+ f_name f)
    with (String "-" (String "-" (f_name f))).
  assert (Hin : f_name f ∈ f_name <$> known) by by apply list_elem_of_fmap_2.
  constructor.
  - intros [= E]. done.
  - intros [= E]. by rewrite E in Hin.
  - done.
  - intros Hver [= E]. rewrite E in Hin. by apply Hv.
  - cbn. apply negb_true_iff, bool_decide_eq_false. intros [= E]. done.
Qed.

Lemma long_inline_token version f v : flag_token version (long_token f +:+ String "=" v).
Proof.
  unfold long_token. change (("--" +:+ f_name f) +:+ String "=" v)
    with (String "-" (String "-" (f_name f +:+ String "=" v))).
  constructor; [| |done| |].
  1,2: intros [= E]; revert E; by apply inline_ne.
  1: intros _ [= E]; revert E; by apply inline_ne.
  cbn. apply negb_true_iff, bool_decide_eq_false. intros [= E]. revert E. by apply inline_ne.
Qed.

Lemma short_flag_token version known f :
  visible version known -> f ∈ known -> shortable f -> flag_token version (short_token f).
Proof.
  intros [_ _ _ Hh _] Hf (Hv & Hz & He & Hd). unfold short_token.
  destruct (encode_rune_head (f_short f) Hv Hd) as (a & s & E & Ha).
  constructor.
  - rewrite E. by intros [= -> ->].
  - rewrite E. by intros [= -> ->].
  - intros [= E2]. apply Hh. pose proof (runes_encode_rune _ Hv) as HR. rewrite E2 in HR.
    change (runes "h") with [104] in HR. injection HR as ->. by apply elem_of_shorts.
  - intros _. rewrite E. by intros [= -> ->].
  - rewrite E. cbn. apply negb_true_iff, bool_decide_eq_false. by intros [= -> ->].
Qed.

Lemma short_inline_token version f v :
  shortable f -> flag_token version (short_token f +:+ String "=" v).
Proof.
  intros (Hv & Hz & He & Hd). unfold short_token.
  destruct (encode_rune_head (f_short f) Hv Hd) as (a & s & E & Ha). rewrite E.
  change (String "-" (String a s) +:+ String "=" v) with (String "-" (String a (s +:+ String "=" v))).
  constructor.
  - by intros [= -> _].
  - by intros [= -> _].
  - intros [= _ E2]. revert E2. by apply inline_ne.
  - intros _. by intros [= -> _].
  - cbn. apply negb_true_iff, bool_decide_eq_false. by intros [= -> _].
Qed.

(** The token of a flag in either form, without and with an inline value. *)
Lemma apply_long known vs f next :
  NoDup (f_name <$> known) -> f ∈ known -> nameable f ->
  applyFlagToken (long_token f) next known vs =
  if f_isBool f then consume false (flagApplyString f vs "true")
  else match next with
       | None => Err (errorf (MMissingValue (f_name f)) ErrUsage)
       | Some next => consume true (flagApplyString f vs next)
       end.
Proof.
  intros Hd Hf Hn. unfold long_token.
  by rewrite (applyFlagToken_long _ (f_name f) EmptyString false _ _ _ f)
    by (by apply Cut_plain || by apply findFlagLong_unique).
Qed.

Lemma apply_long_inline known vs f v next :
  NoDup (f_name <$> known) -> f ∈ known -> nameable f ->
  applyFlagToken (long_token f +:+ String "=" v) next known vs = consume false (flagApplyString f vs v).
Proof.
  intros Hd Hf Hn.
  change (long_token f +:+ String "=" v) with ("--" +:+ (f_name f +:+ String "=" v)).
  rewrite (applyFlagToken_long _ (f_name f) v true _ _ _ f)
    by (by apply Cut_inline || by apply findFlagLong_unique).
  by destruct (f_isBool f).
Qed.

Lemma apply_short known vs f next :
  NoDup (shorts known) -> f ∈ known -> shortable f ->
  applyFlagToken (short_token f) next known vs =
  if f_isBool f then consume false (flagApplyString f vs "true")
  else match next with
       | None => Err (errorf (MMissingValue (f_name f)) ErrUsage)
       | Some next => consume true (flagApplyString f vs next)
       end.
Proof.
  intros Hd Hf (Hv & Hz & He & Hdash). unfold short_token.
  pose proof (runes_encode_rune _ Hv) as HR. pose proof (encode_rune_no_eq _ Hv He) as HN.
  destruct (encode_rune_head (f_short f) Hv Hdash) as (a & s & E & Ha). rewrite E in *.
  by rewrite (applyFlagToken_short a s (String a s) EmptyString false _ _ _ f (f_short f))
    by (done || by apply Cut_plain || by apply findFlagShort_unique).
Qed.

Lemma apply_short_inline known vs f v next :
  NoDup (shorts known) -> f ∈ known -> shortable f ->
  applyFlagToken (short_token f +:+ String "=" v) next known vs = consume false (flagApplyString f vs v).
Proof.
  intros Hd Hf (Hv & Hz & He & Hdash). unfold short_token.
  pose proof (runes_encode_rune _ Hv) as HR. pose proof (encode_rune_no_eq _ Hv He) as HN.
  destruct (encode_rune_head (f_short f) Hv Hdash) as (a & s & E & Ha). rewrite E in *.
  change (String "-" (String a s) +:+ String "=" v) with (String "-" (String a (s +:+ String "=" v))).
  assert (HC : Cut (String a (s +:+ String "=" v)) = (String a s, v, true)).
  { change (String a (s +:+ String "=" v)) with (String a s +:+ String "=" v). by apply Cut_inline. }
  rewrite (applyFlagToken_short a _ (String a s) v true _ _ _ f (f_short f))
    by (done || by apply findFlagShort_unique).
  by destruct (f_isBool f).
Qed.

(** One rendered flag anywhere before a variadic has begun. *)
Lemma scan_occ st o rest :
  visible (Version (s_cmd st)) (s_known st) -> occ_ok (s_known st) o -> s_locked st = false ->
  scan st (render_occ o ++ rest) =
  match flagApplyString (o_flag o) (s_values st) (o_value o) with
  | Ok vs => scan (set_values st vs) rest
  | Err e => (st, ScanError e)
  end.
Proof.
  intros Hvis [Hf Hok] HL. destruct o as [f sty v]. cbn [o_flag o_style o_value] in *.
  destruct sty; cbn [render_occ o_flag o_style o_value app scan].
  - rewrite scan1_flag, apply_long_inline by (done || apply long_inline_token || apply Hvis).
    by destruct (flagApplyString f (s_values st) v).
  - destruct Hok as (Hn & Hne & Hb).
    rewrite scan1_flag, apply_long, Hb by (done || (by eapply long_flag_token) || apply Hvis).
    cbn [head]. by destruct (flagApplyString f (s_values st) v).
  - destruct Hok as (Hn & Hne & Hb & ->).
    rewrite scan1_flag, apply_long, Hb by (done || (by eapply long_flag_token) || apply Hvis).
    by destruct (flagApplyString f (s_values st) "true").
  - rewrite scan1_flag, apply_short_inline by (done || (by apply short_inline_token) || apply Hvis).
    by destruct (flagApplyString f (s_values st) v).
  - destruct Hok as (Hs & Hb).
    rewrite scan1_flag, apply_short, Hb by (done || (by eapply short_flag_token) || apply Hvis).
    cbn [head]. by destruct (flagApplyString f (s_values st) v).
  - destruct Hok as (Hs & Hb & ->).
    rewrite scan1_flag, apply_short, Hb by (done || (by eapply short_flag_token) || apply Hvis).
    by destruct (flagApplyString f (s_values st) "true").
Qed.

(** ** Rendered invocations *)

Inductive item :=
| ISub (tok : string)
| IFlag (o : occ)
| IWord (tok : string).

Definition render_item (i : item) : list string :=
  match i with
  | ISub tok => [tok]
  | IFlag o => render_occ o
  | IWord tok => [tok]
  end.

(** The command line: the items, then optionally [--] and tokens taken literally. *)
Definition render (items : list item) (extra : option (list string)) : list string :=
  concat (render_item <$> items) ++ match extra with Some toks => "--" :: toks | None => [] end.

Definition subs_in (items : list item) : list string :=
  omap (fun i => match i with ISub tok => Some tok | _ => None end) items.
Definition occs_in (items : list item) : list occ :=
  omap (fun i => match i with IFlag o => Some o | _ => None end) items.
Definition words_in (items : list item) : list string :=
  omap (fun i => match i with IWord tok => Some tok | _ => None end) items.

(** A token that is neither intercepted nor, before a variadic has begun, read as a
    flag. *)
Definition plain (version : string) (locked : bool) (tok : string) : Prop :=
  tok <> "--" /\ tok <> "--help" /\ tok <> "-h" /\ (version <> EmptyString -> tok <> "--version") /\
  (locked = true \/ isFlagToken tok = false).

(** Subcommands come first but flags may stand anywhere after the command that
    declares them, up to the first value of a variadic; a first positional must not be
    the name of a subcommand. *)
Inductive well_placed : Command V -> list (Flag V) -> bool -> list item -> Prop :=
| wp_nil c known started : well_placed c known started []
| wp_sub c known tok s items :
    plain (Version c) false tok -> findSub c tok = Some s ->
    well_placed s (known ++ flags_of s) false items ->
    well_placed c known false (ISub tok :: items)
| wp_flag c known started o items :
    occ_ok known o -> started && commandHasVariadic c = false ->
    well_placed c known started items ->
    well_placed c known started (IFlag o :: items)
| wp_word c known started tok items :
    plain (Version c) (started && commandHasVariadic c) tok ->
    (started = false -> findSub c tok = None /\ groupingOnly c = false) ->
    well_placed c known true items ->
    well_placed c known started (IWord tok :: items).

(** The commands the subcommand tokens lead through. *)
Fixpoint pathFrom (c : Command V) (toks : list string) : list (Command V) :=
  c :: match toks with
       | [] => []
       | tok :: toks => match findSub c tok with Some s => pathFrom s toks | None => [] end
       end.

Fixpoint applyAll (occs : list occ) (vs : values V) : result error (values V) :=
  match occs with
  | [] => Ok vs
  | o :: occs =>
      match flagApplyString (o_flag o) vs (o_value o) with
      | Ok vs => applyAll occs vs
      | Err e => Err e
      end
  end.

Lemma visible_reaches root inh c :
  validateArgsDecl root [] = None -> reaches root inh c -> visible (Version c) (inh ++ flags_of c).
Proof.
  intros Hd Hr. assert (Hw : well_declared inh c) by (by eapply declaration_ok).
  destruct (wd_names _ _ Hw) as [Hn1 Hn2]. destruct (wd_shorts _ _ Hw) as [Hs1 Hs2].
  assert (Hinh : NoDup (f_name <$> inh) /\ NoDup (shorts inh) /\ "help" ∉ f_name <$> inh /\ 104 ∉ shorts inh).
  { clear -Hd Hr. induction Hr as [|inh c s Hr IH Hs].
    - cbn. split_and!; try constructor; apply not_elem_of_nil.
    - assert (Hw : well_declared inh c) by (by eapply declaration_ok).
      destruct (wd_names _ _ Hw) as [Hn1 Hn2]. destruct (wd_shorts _ _ Hw) as [Hs1 Hs2].
      destruct IH as (IH1 & IH2 & IH3 & IH4). rewrite fmap_app, shorts_app, !NoDup_app.
      rewrite !not_elem_of_app. naive_solver. }
  destruct Hinh as (H1 & H2 & H3 & H4).
  constructor; rewrite ?fmap_app, ?shorts_app, ?NoDup_app, ?not_elem_of_app; [naive_solver..|].
  intros Hver. pose proof (wd_version _ _ Hw Hver) as Hv. by rewrite fmap_app, not_elem_of_app in Hv.
Qed.

Lemma findSub_elem (c : Command V) tok s : findSub c tok = Some s -> Some s ∈ Subcommands c.
Proof.
  unfold findSub, subs_of. intros H.
  assert (Hin : s ∈ filter (fun s => answersTo s tok = true) (omap id (Subcommands c))).
  { destruct (filter _ _); [done|]. injection H as ->. left. }
  apply list_elem_of_filter in Hin as [_ Hin]. by apply list_elem_of_omap in Hin as (y & Hy & [= ->]).
Qed.

Lemma plain_locked version locked tok : plain version false tok -> plain version locked tok.
Proof. unfold plain. naive_solver. Qed.

Lemma scan1_plain st tok rest :
  plain (Version (s_cmd st)) (s_locked st) tok ->
  scan1 st tok rest =
  if s_started st then StepNext false (add_positional st tok)
  else match findSub (s_cmd st) tok with
       | Some sub => StepNext false (descend st sub)
       | None =>
           if groupingOnly (s_cmd st)
           then StepStop st (ScanError (unknownSubcommand (s_cmd st) tok))
           else StepNext false (add_positional st tok)
       end.
Proof.
  intros (H1 & H2 & H3 & H4 & H5). unfold scan1. rewrite !bool_decide_false by done. cbn [orb].
  replace (bool_decide (tok = "--version") && negb (bool_decide (Version (s_cmd st) = EmptyString)))
    with false.
  2:{ symmetry. apply andb_false_iff. destruct (decide (Version (s_cmd st) = EmptyString)) as [E|E].
      - right. by rewrite bool_decide_true.
      - left. apply bool_decide_eq_false. auto. }
  by replace (negb (s_locked st) && isFlagToken tok) with false
    by (destruct H5 as [-> | ->]; [done|by rewrite andb_false_r]).
Qed.

Lemma scan_sub st tok s rest :
  plain (Version (s_cmd st)) false tok -> s_started st = false -> findSub (s_cmd st) tok = Some s ->
  scan st (tok :: rest) = scan (descend st s) rest.
Proof.
  intros Hp Hs Hf. cbn [scan]. rewrite scan1_plain by by apply plain_locked. by rewrite Hs, Hf.
Qed.

Lemma scan_word st tok rest :
  plain (Version (s_cmd st)) (s_locked st) tok ->
  (s_started st = false -> findSub (s_cmd st) tok = None /\ groupingOnly (s_cmd st) = false) ->
  scan st (tok :: rest) = scan (add_positional st tok) rest.
Proof.
  intros Hp Hs. cbn [scan]. rewrite scan1_plain by done.
  destruct (s_started st); [done|]. by destruct (Hs eq_refl) as [-> ->].
Qed.

(** The state the loop is in after some items. *)
Definition tracks (root : Command V) (started : bool) st : Prop :=
  s_started st = started /\ s_locked st = started && commandHasVariadic (s_cmd st) /\
  exists inh, reaches root inh (s_cmd st) /\ s_known st = inh ++ flags_of (s_cmd st).

Definition scanned st (items : list item) vs : scanState V :=
  let path := pathFrom (s_cmd st) (subs_in items) in
  mkScan (default (s_cmd st) (last path)) (s_path st ++ tail path)
    (s_known st ++ concat (flags_of <$> tail path)) vs (s_positional st ++ words_in items)
    (s_started st || negb (bool_decide (words_in items = [])))
    (s_locked st || negb (bool_decide (words_in items = [])) &&
                    commandHasVariadic (default (s_cmd st) (last path))).

Lemma pathFrom_ne c toks : pathFrom c toks = c :: tail (pathFrom c toks).
Proof. by destruct toks. Qed.

Lemma last_pathFrom c s toks : last (c :: pathFrom s toks) = last (pathFrom s toks).
Proof. by rewrite (pathFrom_ne s). Qed.

Lemma started_no_subs c known items : well_placed c known true items -> subs_in items = [].
Proof.
  remember true as started eqn:E. induction 1; try done; [by apply IHwell_placed|].
  by destruct started; [apply IHwell_placed|].
Qed.

Lemma scanned_sub st tok s items vs :
  findSub (s_cmd st) tok = Some s -> scanned st (ISub tok :: items) vs = scanned (descend st s) items vs.
Proof.
  intros Hs. unfold scanned.
  change (subs_in (ISub tok :: items)) with (tok :: subs_in items).
  change (words_in (ISub tok :: items)) with (words_in items).
  cbn [pathFrom descend s_cmd s_path s_known s_positional s_started s_locked]. rewrite Hs, last_pathFrom.
  destruct (last (pathFrom s (subs_in items))) as [x|] eqn:EL.
  2:{ apply last_None in EL. by rewrite pathFrom_ne in EL. }
  rewrite (pathFrom_ne s (subs_in items)) at 1 2. cbn [tail default fmap list_fmap concat app].
  by rewrite <-!app_assoc.
Qed.

Lemma scanned_flag st o items vs vs' : scanned st (IFlag o :: items) vs = scanned (set_values st vs') items vs.
Proof. done. Qed.

Lemma scanned_word st tok items vs :
  subs_in items = [] -> scanned st (IWord tok :: items) vs = scanned (add_positional st tok) items vs.
Proof.
  intros Hn. unfold scanned.
  change (subs_in (IWord tok :: items)) with (subs_in items).
  change (words_in (IWord tok :: items)) with (tok :: words_in items). rewrite Hn.
  cbn [pathFrom add_positional s_cmd s_path s_known s_positional s_started s_locked last default tail].
  rewrite <-app_assoc, bool_decide_false by done. simpl.
  destruct (s_started st), (s_locked st), (commandHasVariadic (s_cmd st)), (bool_decide _);
    simpl; by rewrite ?andb_false_r.
Qed.

(** The loop over well-placed items. *)
Lemma scan_items root c known started items :
  well_placed c known started items ->
  forall st vs toks,
  validateArgsDecl root [] = None -> s_cmd st = c -> s_known st = known -> tracks root started st ->
  applyAll (occs_in items) (s_values st) = Ok vs ->
  scan st (concat (render_item <$> items) ++ toks) = scan (scanned st items vs) toks.
Proof.
  intros Hwp. induction Hwp as [c known started
    |c known tok s items Hp Hs Hwp IH|c known started o items Ho Hl Hwp IH
    |c known started tok items Hp Hw Hwp IH];
    intros st vs toks Hd <- <- (Hst & Hlk & inh & Hr & Hk) Ha.
  - injection Ha as <-. cbn. unfold scanned. cbn. rewrite !app_nil_r, !orb_false_r. by destruct st.
  - change (concat (render_item <$> ISub tok :: items)) with (tok :: concat (render_item <$> items)).
    rewrite <-app_comm_cons, (scan_sub st tok s), (scanned_sub st tok s) by done.
    apply IH; try done. split; [done|]. split; [cbn; by rewrite Hlk|].
    exists (inh ++ flags_of (s_cmd st)). split; [|cbn; by rewrite Hk].
    apply reaches_sub; [done|]. by eapply findSub_elem.
  - change (concat (render_item <$> IFlag o :: items))
      with (render_occ o ++ concat (render_item <$> items)).
    rewrite <-app_assoc, scan_occ; [|rewrite Hk; by eapply visible_reaches|done|by rewrite Hlk].
    change (occs_in (IFlag o :: items)) with (o :: occs_in items) in Ha. cbn [applyAll] in Ha.
    destruct (flagApplyString _ _ _) as [vs1|]; [|done]. rewrite (scanned_flag st o items vs vs1).
    apply IH; try done. split; [done|]. split; [done|]. by exists inh.
  - change (concat (render_item <$> IWord tok :: items)) with (tok :: concat (render_item <$> items)).
    rewrite <-app_comm_cons, scan_word, scanned_word by
      (try (by rewrite Hlk); try (by eapply started_no_subs); naive_solver).
    apply IH; try done. split; [done|]. split; [|by exists inh].
    cbn. rewrite Hlk. by destruct started, (commandHasVariadic _).
Qed.

(** The token loop ends in the command, path, flag set, values and positionals that were
    written out. *)
Lemma render_parse root items extra env vs :
  validateArgsDecl root [] = None ->
  well_placed root (flags_of root) false items ->
  applyAll (occs_in items) ∅ = Ok vs ->
  let path := pathFrom root (subs_in items) in
  let cmd := default root (last path) in
  let known := concat (flags_of <$> path) in
  parseArgs root (render items extra) env =
  let '(vs', e) := finish cmd known (words_in items ++ default [] extra) env vs in
  (mkParseResult cmd path vs' false false, known, e).
Proof.
  intros Hd Hwp Ha path cmd known.
  assert (HP : path = root :: tail path) by apply pathFrom_ne.
  assert (HK : flags_of root ++ concat (flags_of <$> tail path) = known).
  { unfold known. by rewrite HP. }
  assert (HS : scan (scan_init root) (render items extra) =
    (rest_positional (scanned (scan_init root) items vs) (default [] extra), ScanDone)).
  { unfold render. rewrite (scan_items root root (flags_of root) false items) with (vs := vs); try done.
    - destruct extra as [toks|]; [done|]. cbn. unfold rest_positional. rewrite app_nil_r. done.
    - split_and!; try done. exists []. split; [constructor|done]. }
  destruct (finish cmd known _ env vs) as [vs' e] eqn:EF.
  unfold parseArgs. rewrite Hd, HS. unfold rest_positional, scanned. cbn [scan_init s_cmd s_path s_known
    s_values s_positional s_started s_locked]. fold path. fold cmd. rewrite HK, app_nil_l, EF.
  cbn [app]. by rewrite <-HP.
Qed.
End RoundTrip.
Arguments occ : clear implicits.
Arguments item : clear implicits.
