(* ===== verification/CliExec.v ===== *)
(** Running an invocation: src/cli/exec.go and complete.go. Middleware composition,
    the injected completion commands, completion itself, error classification and exit
    codes.

    What is written is kept structured: a help screen and a completion script are
    values of [Output], not text. The standard output of an invocation either works or
    fails with one error on every write. The signal-aware parent context is not
    modelled. *)

From S2P Require Import Prelude.
From S2P Require Import Strconv.
From S2P Require Import Strings.
From S2P Require Import EditDistance.
From S2P Require Import Cli.

Local Open Scope Z_scope.

(** The boxes the built-in commands use: a [string] and a [[]string] as [any]. *)
Class Boxes (V : Type) := {
  box_string : string -> V;
  unbox_string : V -> string;
  box_strings : list string -> V;
  unbox_strings : V -> list string;
  unbox_box_string s : unbox_string (box_string s) = s;
  unbox_box_strings l : unbox_strings (box_strings l) = l
}.

(** ** Accessors over strings *)

Section Boxed.
Context {V : Type} `{Boxes V}.

(** The identity of the new accessor is the [id] argument. *)
Definition StringArg (id : nat) (name : string) : Arg V :=
  mkArg id name EmptyString false false false (box_string EmptyString) (box_string EmptyString) false
    (fun s => Ok (box_string s)) (fun prev _ => Ok prev) None None.

Definition StringSliceArg (id : nat) (name : string) : Arg V :=
  mkArg id name EmptyString false false true (box_strings []) (box_strings []) false
    (fun s => Ok (box_strings [s])) (fun prev s => Ok (box_strings (unbox_strings prev ++ [s])))
    None None.

Definition arg_Help (a : Arg V) (s : string) : Arg V :=
  mkArg (a_id a) (a_name a) s (a_required a) (a_variadic a) (a_isSlice a) (a_zero a) (a_defaultVal a)
    (a_hasDefault a) (a_parse a) (a_appendOne a) (a_validate a) (a_completer a).
Definition arg_Required (a : Arg V) : Arg V :=
  mkArg (a_id a) (a_name a) (a_help a) true (a_variadic a) (a_isSlice a) (a_zero a) (a_defaultVal a)
    (a_hasDefault a) (a_parse a) (a_appendOne a) (a_validate a) (a_completer a).
Definition arg_Variadic (a : Arg V) : Arg V :=
  mkArg (a_id a) (a_name a) (a_help a) (a_required a) true (a_isSlice a) (a_zero a) (a_defaultVal a)
    (a_hasDefault a) (a_parse a) (a_appendOne a) (a_validate a) (a_completer a).

(** [OneOf] at type [string], where [fmt.Sprint] is the identity. *)
Definition arg_OneOf (a : Arg V) (allowed : list string) : Arg V :=
  if bool_decide (allowed = []) then a
  else
    mkArg (a_id a) (a_name a) (a_help a) (a_required a) (a_variadic a) (a_isSlice a) (a_zero a)
      (a_defaultVal a) (a_hasDefault a) (a_parse a) (a_appendOne a)
      (Some (fun v => if bool_decide (unbox_string v ∈ allowed) then None
                      else Some ("value " +:+ unbox_string v +:+ " is not one of ["
                                 +:+ String.concat ", " allowed +:+ "]")))
      (Some (StaticValues allowed)).

(** ** The injected commands *)

Definition completionCmd (shellId : nat) : Command V :=
  let shellArg :=
    arg_OneOf (arg_Help (arg_Required (StringArg shellId "shell")) "bash | zsh | fish")
      ["bash"; "zsh"; "fish"] in
  mkCommand "completion" "print a shell completion script"
    ("Emit a shell completion script for the given shell. " +:+
     "Source the output from your shell's rc file, or save it " +:+
     "to the appropriate per-shell completion directory.")
    EmptyString EmptyString [] [] [Some shellArg] [] [] (Some (CompletionRun shellArg)) [] true true.

Definition completeCmd (wordsId : nat) : Command V :=
  let words := arg_Variadic (StringSliceArg wordsId "words") in
  mkCommand "__complete" EmptyString EmptyString EmptyString EmptyString [] [] [Some words] [] []
    (Some (CompleteRun words)) [] true true.

Definition hasSub (c : Command V) (name : string) : bool :=
  existsb (fun s => bool_decide (Name s = name)) (subs_of c).

Definition with_Subcommands (c : Command V) (subs : list (option (Command V))) : Command V :=
  mkCommand (Name c) (Help c) (Long c) (Version c) (Usage c) (Aliases c) (Flags c) (Args c) subs
    (Use c) (Run c) (Examples c) (Hidden c) (injected c).

(** The new root; the ids are those of the two freshly allocated arguments. *)
Definition withInjectedCompletion (shellId wordsId : nat) (c : Command V) : Command V :=
  let root := c in
  let root := if hasSub root "completion" then root
              else with_Subcommands root (Subcommands root ++ [Some (completionCmd shellId)]) in
  if hasSub root "__complete" then root
  else with_Subcommands root (Subcommands root ++ [Some (completeCmd wordsId)]).

End Boxed.

(** ** Completion *)

Section Completion.
Context {V : Type}.

(** [strings.TrimLeft(tok, "-")] *)
Fixpoint trim_dashes (tok : string) : string :=
  match tok with
  | String a rest => if bool_decide (a = "-"%char) then trim_dashes rest else tok
  | EmptyString => EmptyString
  end.

Definition lookupFlagToken (flags : list (Flag V)) (tok : string) : option (Flag V) :=
  let body := trim_dashes tok in
  let body := match cut "=" body with Some (before, _) => before | None => body end in
  if HasPrefix tok "--" then findFlagLong flags body
  else if (String.length body =? 1)%nat
       then match runes body with r :: _ => findFlagShort flags r | [] => None end
       else None.

Record pathWalk := mkWalk {
  w_cmd : Command V;
  w_known : list (Flag V);
  w_positionalCount : nat;
  w_pendingFlag : option (Flag V);
  w_positionalsStarted : bool;
  w_positionalLocked : bool
}.

Definition contains_eq (tok : string) : bool := match cut "=" tok with Some _ => true | None => false end.

Definition walk_positional (w : pathWalk) : pathWalk :=
  mkWalk (w_cmd w) (w_known w) (S (w_positionalCount w)) (w_pendingFlag w) true
    (w_positionalLocked w || commandHasVariadic (w_cmd w)).

Fixpoint walkFrom (w : pathWalk) (tokens : list string) : pathWalk :=
  match tokens with
  | [] => w
  | tok :: rest =>
      if bool_decide (tok = "--") then
        walkFrom (mkWalk (w_cmd w) (w_known w) (w_positionalCount w) (w_pendingFlag w) true true) rest
      else if negb (w_positionalLocked w) && isFlagToken tok then
        if contains_eq tok then walkFrom w rest
        else match lookupFlagToken (w_known w) tok with
             | Some f =>
                 if f_isBool f then walkFrom w rest
                 else match rest with
                      | _ :: rest => walkFrom w rest
                      | [] => mkWalk (w_cmd w) (w_known w) (w_positionalCount w) (Some f)
                                (w_positionalsStarted w) (w_positionalLocked w)
                      end
             | None => walkFrom w rest
             end
      else
        match (if w_positionalsStarted w then None else findSub (w_cmd w) tok) with
        | Some sub =>
            walkFrom (mkWalk sub (w_known w ++ flags_of sub) (w_positionalCount w) (w_pendingFlag w)
                        (w_positionalsStarted w) (w_positionalLocked w)) rest
        | None => walkFrom (walk_positional w) rest
        end
  end.

Definition walkPath (root : Command V) (tokens : list string) : pathWalk :=
  walkFrom (mkWalk root (flags_of root) 0 None false false) tokens.

Definition emitCandidates (fn : option CompleteFn) (partial : list string)
    (valPrefix displayPrefix : string) : list string :=
  match fn with
  | None => []
  | Some fn =>
      (fun c => displayPrefix +:+ c) <$>
        filter (fun c => HasPrefix c valPrefix = true)
          (fn {| cc_Word := valPrefix; cc_Args := partial |})
  end.

(** The candidates after a flag context was ruled out. *)
Definition wordCandidates (w : pathWalk) (partial : list string) (cur : string) : list string :=
  (if w_positionalsStarted w then []
   else concat ((fun s => filter (fun n => HasPrefix n cur = true) (Name s :: Aliases s)) <$>
          filter (fun s => Hidden s = false) (subs_of (w_cmd w))))
  ++
  match args_of (w_cmd w) !! w_positionalCount w with
  | Some a => emitCandidates (a_completer a) partial cur EmptyString
  | None =>
      match last (args_of (w_cmd w)) with
      | Some a => if a_variadic a then emitCandidates (a_completer a) partial cur EmptyString else []
      | None => []
      end
  end.

(** What [--name=value] completes to, when the name is known. *)
Definition inlineCandidates (w : pathWalk) (partial : list string) (cur : string) : option (list string) :=
  if HasPrefix cur "--" then
    match cut "=" cur with
    | Some (before, valPrefix) =>
        let name := default before (CutPrefix before "--") in
        match findFlagLong (w_known w) name with
        | Some f =>
            let display := "--" +:+ name +:+ "=" in
            if f_isBool f
            then Some ((fun c => display +:+ c) <$>
                       filter (fun c => HasPrefix c valPrefix = true) ["true"; "false"])
            else Some (emitCandidates (f_completer f) partial valPrefix display)
        | None => None
        end
    | None => None
    end
  else None.

Definition visibleFlags (known : list (Flag V)) : list (Flag V) := filter (fun f => f_hidden f = false) known.

Definition candidates (root : Command V) (partial : list string) : list string :=
  let cur := default EmptyString (last partial) in
  let rest := removelast partial in
  let w := walkPath root rest in
  if w_positionalLocked w then wordCandidates w partial cur
  else match inlineCandidates w partial cur with
       | Some l => l
       | None =>
           match w_pendingFlag w with
           | Some f => emitCandidates (f_completer f) partial cur EmptyString
           | None =>
               match CutPrefix cur "--" with
               | Some prefix =>
                   (fun f => "--" +:+ f_name f) <$>
                     filter (fun f => HasPrefix (f_name f) prefix = true) (visibleFlags (w_known w))
               | None =>
                   if bool_decide (cur = "-") then
                     concat ((fun f =>
                       (if f_short f =? 0 then [] else ["-" +:+ encode_rune (f_short f)])
                       ++ ["--" +:+ f_name f]) <$> visibleFlags (w_known w))
                   else wordCandidates w partial cur
               end
           end
       end.

End Completion.
Arguments pathWalk : clear implicits.

(** ** Errors and exit codes *)

(** [onlyCanceled]; [None] is a nil entry of a joined error, which matches nothing. *)
Fixpoint onlyCanceled (e : error) : bool :=
  match e with
  | Leaf _ self => bool_decide (Canceled ∈ self)
  | Wrap _ self None => bool_decide (Canceled ∈ self)
  | Wrap _ _ (Some child) => onlyCanceled child
  | Joined _ _ [] => false
  | Joined _ _ es =>
      (fix all (es : list (option error)) : bool :=
         match es with
         | [] => true
         | None :: _ => false
         | Some e :: es => onlyCanceled e && all es
         end) es
  end.

Section Exec.
Context {V : Type} `{Boxes V}.

(** What the package writes. *)
Inductive Output :=
| Text (s : string)
| HelpScreen (path : list (Command V)) (known : list (Flag V))
| Script (shell prog : string)
| ErrorLine (prog : string) (e : error).

Definition programName (path : list string) : string := default "cli" (head path).

Definition usageError (err : error) : bool :=
  error_is err ErrUsage || error_is err ErrValidation || error_is err ErrUnknownCmd
  || error_is err ErrMissingArg.

(** The result: what is written to [Stderr], and the exit code. *)
Definition DefaultOnError (path : list (Command V)) (known : list (Flag V)) (err : option error)
    : list Output * Z :=
  match err with
  | None => ([], 0)
  | Some err =>
      let help := if bool_decide (path = []) then [] else [HelpScreen path known] in
      if onlyCanceled err then ([], 130)
      else if error_is err ErrMissingSubcommand then (help, 2)
      else if usageError err then (ErrorLine (programName (commandNames path)) err :: help, 2)
      else ([ErrorLine (programName (commandNames path)) err], 1)
  end.

(** ** Handlers *)

(** The handler of a run body: an application's, or a built-in one over the root. *)
Definition runBody (root : Command V) (stdout_err : option error) (r : RunFn V)
    : Context V -> list Output * option error :=
  fun ctx =>
  match r with
  | UserRun h => let '(out, e) := h ctx in (Text <$> out, e)
  | CompletionRun shellArg =>
      let s := unbox_string (arg_Get shellArg (ctx_values ctx)) in
      if bool_decide (s = "bash") || bool_decide (s = "zsh") || bool_decide (s = "fish")
      then match stdout_err with
           | None => ([Script s (Name root)], None)
           | Some e => ([], Some e)
           end
      else ([], Some (Leaf (MNoEmitter s) []))
  | CompleteRun words =>
      let partial := unbox_strings (arg_Get words (ctx_values ctx)) in
      match stdout_err with
      | None => (Text <$> candidates root partial, None)
      | Some e => ([], if bool_decide (candidates root partial = []) then None else Some e)
      end
  end.

(** [for _, m := range slices.Backward(ms) { handler = m(handler) }] *)
Definition wrapAll (ms : list (Middleware V)) (h : Handler V) : Handler V :=
  fold_right (fun m h => m h) h ms.

(** The middleware of the path around an application's handler, the root outermost;
    injected commands run outside it. *)
Definition composeHandler (root : Command V) (stdout_err : option error) (res : ParseResult V)
    : Context V -> list Output * option error :=
  match Run (r_cmd res) with
  | None => fun _ => ([], Some (errorf (MNoRun (Name (r_cmd res))) ErrUsage))
  | Some (UserRun h) =>
      if injected (r_cmd res) then runBody root stdout_err (UserRun h)
      else runBody root stdout_err
             (UserRun (fold_right (fun c h => wrapAll (Use c) h) h (r_path res)))
  | Some r => runBody root stdout_err r
  end.

(** ** Exec *)

Record execConfig := {
  cfg_stdout : option error;
  cfg_env : string -> option string;
  cfg_onError : list (Command V) -> list (Flag V) -> option error -> list Output * Z
}.

Record execResult := { exit : Z; stdout : list Output; stderr : list Output }.

Definition Exec (shellId wordsId : nat) (cfg : execConfig) (c : Command V) (args : list string)
    : execResult :=
  let root := withInjectedCompletion shellId wordsId c in
  let '(res, known, parseErr) := parseArgs root args (cfg_env cfg) in
  let failed (out : list Output) (e : error) :=
    let '(err, code) := cfg_onError cfg (r_path res) known (Some e) in
    {| exit := code; stdout := out; stderr := err |} in
  match parseErr with
  | Some e => failed [] e
  | None =>
      if r_help res then {| exit := 0; stdout := [HelpScreen (r_path res) known]; stderr := [] |}
      else if r_version res then
        match cfg_stdout cfg with
        | Some e => failed [] e
        | None => {| exit := 0; stdout := [Text (Version (r_cmd res))]; stderr := [] |}
        end
      else
        let ctx := mkContext (r_values res) (commandNames (r_path res)) in
        match composeHandler root (cfg_stdout cfg) res ctx with
        | (out, Some e) => failed out e
        | (out, None) => {| exit := 0; stdout := out; stderr := [] |}
        end
  end.

End Exec.
Arguments Output : clear implicits.
