(* ===== verification/CliPolicy.v ===== *)
(** The typed flags of src/cli/flag.go over a concrete universe of dynamic values, with
    the configuration methods of [Flag], and what holds of every parse of
    src/cli/parse.go. Float, duration and time flags, whose parsers are not modelled, are
    instances of [CustomFlag] with that parser. The cause text of a [strconv] error is a
    constant. *)

From S2P Require Import Prelude.
From S2P Require Import Strconv.
From S2P Require Import Strings.
From S2P Require Import EditDistance.
From S2P Require Import Cli.
From S2P Require Import CliExec.
From S2P Require Import CliSpec.
From S2P Require Import CliRoundTrip.

Local Open Scope Z_scope.

(** ** Dynamic values *)

Inductive Any :=
| AString (s : string)
| AInt (z : Z)
| AInt64 (z : Z)
| ABool (b : bool)
| AStrings (l : list string)
| AInts (l : list Z)
| ACustom (ty : string) (repr : string).

#[export] Instance Any_eq_dec : EqDecision Any.
Proof. solve_decision. Defined.

#[export, refine] Instance Any_boxes : Boxes Any := {
  box_string := AString;
  unbox_string v := match v with AString s => s | _ => EmptyString end;
  box_strings := AStrings;
  unbox_strings v := match v with AStrings l => l | _ => [] end;
  unbox_box_string := _;
  unbox_box_strings := _
}.
Proof. all: done. Defined.

(** [fmt.Sprint]; a custom value prints as its representation. *)
Definition Sprint (v : Any) : string :=
  match v with
  | AString s => s
  | AInt z | AInt64 z => FormatInt z
  | ABool b => if b then "true" else "false"
  | AStrings l => "[" +:+ String.concat " " l +:+ "]"
  | AInts l => "[" +:+ String.concat " " (FormatInt <$> l) +:+ "]"
  | ACustom _ repr => repr
  end.

(** [strconv.ParseBool] *)
Definition ParseBool (s : string) : option bool :=
  if bool_decide (s ∈ ["1"; "t"; "T"; "TRUE"; "true"; "True"]) then Some true
  else if bool_decide (s ∈ ["0"; "f"; "F"; "FALSE"; "false"; "False"]) then Some false
  else None.

Definition strconv_error : string := "invalid syntax".
Definition checked {A B} (r : option A) (box : A -> B) : result string B :=
  match r with Some x => Ok (box x) | None => Err strconv_error end.

(** ** Constructors; [id] is the identity of the new flag *)

Definition newFlag (id : nat) (name : string) (isBool isSlice : bool) (zero : Any)
    (parse : string -> result string Any) (appendOne : Any -> string -> result string Any) : Flag Any :=
  mkFlag id name 0 EmptyString EmptyString EmptyString EmptyString false false isBool isSlice zero zero
    false EmptyString parse appendOne None None.

(** [appendOne] is nil for a flag that is not a slice, and never called. *)
Definition noAppend : Any -> string -> result string Any := fun prev _ => Ok prev.

Definition StringFlag (id : nat) (name : string) : Flag Any :=
  newFlag id name false false (AString EmptyString) (fun s => Ok (AString s)) noAppend.

Definition IntFlag (id : nat) (name : string) : Flag Any :=
  newFlag id name false false (AInt 0) (fun s => checked (ParseInt s) AInt) noAppend.

Definition Int64Flag (id : nat) (name : string) : Flag Any :=
  newFlag id name false false (AInt64 0) (fun s => checked (ParseInt s) AInt64) noAppend.

Definition BoolFlag (id : nat) (name : string) : Flag Any :=
  newFlag id name true false (ABool false) (fun s => checked (ParseBool s) ABool) noAppend.

Definition StringSliceFlag (id : nat) (name : string) : Flag Any :=
  newFlag id name false true (AStrings []) (fun s => Ok (AStrings [s]))
    (fun prev s => Ok (AStrings (match prev with AStrings l => l | _ => [] end ++ [s]))).

Definition IntSliceFlag (id : nat) (name : string) : Flag Any :=
  newFlag id name false true (AInts []) (fun s => checked (ParseInt s) (fun v => AInts [v]))
    (fun prev s => checked (ParseInt s) (fun v => AInts (match prev with AInts l => l | _ => [] end ++ [v]))).

Definition CustomFlag (id : nat) (name : string) (zero : Any) (parse : string -> result string Any) : Flag Any :=
  newFlag id name false false zero parse noAppend.

Definition IntArg (id : nat) (name : string) : Arg Any :=
  mkArg id name EmptyString false false false (AInt 0) (AInt 0) false
    (fun s => checked (ParseInt s) AInt) noAppend None None.

(** ** Configuration: each method mutates the flag and returns it *)

Definition Default (v : Any) (f : Flag Any) : Flag Any :=
  mkFlag (f_id f) (f_name f) (f_short f) (f_help f) (f_env f) (f_placeholder f) (f_group f) (f_required f)
    (f_hidden f) (f_isBool f) (f_isSlice f) (f_zero f) v true (Sprint v) (f_parse f) (f_appendOne f)
    (f_validate f) (f_completer f).

Definition Env (name : string) (f : Flag Any) : Flag Any :=
  mkFlag (f_id f) (f_name f) (f_short f) (f_help f) name (f_placeholder f) (f_group f) (f_required f)
    (f_hidden f) (f_isBool f) (f_isSlice f) (f_zero f) (f_defaultVal f) (f_hasDefault f) (f_defaultStr f)
    (f_parse f) (f_appendOne f) (f_validate f) (f_completer f).

Definition Short (r : Z) (f : Flag Any) : Flag Any :=
  mkFlag (f_id f) (f_name f) r (f_help f) (f_env f) (f_placeholder f) (f_group f) (f_required f)
    (f_hidden f) (f_isBool f) (f_isSlice f) (f_zero f) (f_defaultVal f) (f_hasDefault f) (f_defaultStr f)
    (f_parse f) (f_appendOne f) (f_validate f) (f_completer f).

Definition Required (f : Flag Any) : Flag Any :=
  mkFlag (f_id f) (f_name f) (f_short f) (f_help f) (f_env f) (f_placeholder f) (f_group f) true
    (f_hidden f) (f_isBool f) (f_isSlice f) (f_zero f) (f_defaultVal f) (f_hasDefault f) (f_defaultStr f)
    (f_parse f) (f_appendOne f) (f_validate f) (f_completer f).

Definition Validate (fn : Any -> option string) (f : Flag Any) : Flag Any :=
  mkFlag (f_id f) (f_name f) (f_short f) (f_help f) (f_env f) (f_placeholder f) (f_group f) (f_required f)
    (f_hidden f) (f_isBool f) (f_isSlice f) (f_zero f) (f_defaultVal f) (f_hasDefault f) (f_defaultStr f)
    (f_parse f) (f_appendOne f) (Some fn) (f_completer f).

Definition Complete (fn : CompleteFn) (f : Flag Any) : Flag Any :=
  mkFlag (f_id f) (f_name f) (f_short f) (f_help f) (f_env f) (f_placeholder f) (f_group f) (f_required f)
    (f_hidden f) (f_isBool f) (f_isSlice f) (f_zero f) (f_defaultVal f) (f_hasDefault f) (f_defaultStr f)
    (f_parse f) (f_appendOne f) (f_validate f) (Some fn).

(** [OneOf] compares values by their printed form. *)
Definition OneOf (allowed : list Any) (f : Flag Any) : Flag Any :=
  if bool_decide (allowed = []) then f
  else
    let keys := Sprint <$> allowed in
    Complete (StaticValues keys)
      (Validate (fun v => if bool_decide (Sprint v ∈ keys) then None
                          else Some ("value " +:+ Sprint v +:+ " is not one of ["
                                     +:+ String.concat ", " keys +:+ "]")) f).

(** ** What holds of every parse of src/cli/parse.go, however the tokens were written:
    where values come from, what a successful parse has checked, and how failures are
    classified into exit codes (src/cli/exec.go). *)

Local Open Scope Z_scope.

Section Policy.
Context {V : Type}.
Implicit Types (f : Flag V) (a : Arg V) (vs : values V) (known : list (Flag V)).

(** ** Keys *)

Lemma flagApplyString_lookup f vs s vs' id :
  flagApplyString f vs s = Ok vs' -> id <> f_id f -> vs' !! id = vs !! id.
Proof.
  unfold flagApplyString. intros H Hid.
  destruct (if f_isSlice f then _ else _); [|done]. injection H as <-. by rewrite lookup_insert_ne.
Qed.

Lemma argApplyString_lookup a vs s vs' id :
  argApplyString a vs s = Ok vs' -> id <> a_id a -> vs' !! id = vs !! id.
Proof.
  unfold argApplyString. intros H Hid.
  destruct (if a_isSlice a then _ else _); [|done]. injection H as <-. by rewrite lookup_insert_ne.
Qed.

Lemma bindVariadic_lookup a positional vs id :
  id <> a_id a -> fst (bindVariadic a positional vs) !! id = vs !! id.
Proof.
  intros Hid. revert vs. induction positional as [|p positional IH]; intros vs; [done|].
  cbn [bindVariadic]. destruct (argApplyString a vs p) eqn:E; [|done].
  rewrite IH. by eapply argApplyString_lookup.
Qed.

Lemma bindPositionals_lookup args positional vs id :
  id ∉ a_id <$> args -> fst (bindPositionals args positional vs) !! id = vs !! id.
Proof.
  revert positional vs. induction args as [|a args IH]; intros positional vs Hid.
  - by destruct positional.
  - rewrite fmap_cons, not_elem_of_cons in Hid. destruct Hid as [Hid Hids]. cbn [bindPositionals].
    destruct (a_variadic a).
    + pose proof (bindVariadic_lookup a positional vs id Hid) as HB.
      destruct (bindVariadic a positional vs) as [vs1 [e|]]; [done|]. by case_match.
    + destruct positional as [|p positional]; [case_match; [done|]; by apply IH|].
      destruct (argApplyString a vs p) eqn:E; [|done]. rewrite IH by done.
      by eapply argApplyString_lookup.
Qed.

(** ** Where values come from *)

(** The value the environment supplies. *)
Definition from_env f (env : string -> option string) : option string :=
  if bool_decide (f_env f = EmptyString) then None else env (f_env f).

Lemma flagApplyEnv_own f vs env vs' :
  flagApplyEnv f vs env = Ok vs' ->
  match vs !! f_id f, from_env f env with
  | Some v, _ => vs' !! f_id f = Some v
  | None, Some s => exists v, f_parse f s = Ok v /\ vs' !! f_id f = Some v
  | None, None => vs' !! f_id f = None
  end.
Proof.
  unfold flagApplyEnv, from_env, hasValue. intros H.
  destruct (vs !! f_id f) as [v|] eqn:EV.
  - rewrite (bool_decide_true (is_Some (Some v))), orb_true_r in H by eauto. by injection H as <-.
  - rewrite (bool_decide_false (is_Some None)), orb_false_r in H by (by intros []).
    case_bool_decide; [by injection H as <-|]. destruct (env (f_env f)) as [s|]; [|by injection H as <-].
    unfold flagApplyString in H. rewrite EV in H.
    destruct (f_isSlice f), (f_parse f s) as [v|]; try done; injection H as <-; exists v;
      by rewrite lookup_insert_eq.
Qed.

Lemma flagApplyEnv_other f vs env vs' id :
  flagApplyEnv f vs env = Ok vs' -> id <> f_id f -> vs' !! id = vs !! id.
Proof.
  unfold flagApplyEnv. intros H Hid. case_match; [by injection H as <-|].
  case_match; [|by injection H as <-]. by eapply flagApplyString_lookup.
Qed.

Lemma applyEnvs_other known env vs vs' e id :
  applyEnvs known env vs = (vs', e) -> id ∉ f_id <$> known -> vs' !! id = vs !! id.
Proof.
  revert vs. induction known as [|f known IH]; intros vs H Hid; [by injection H as <- _|].
  rewrite fmap_cons, not_elem_of_cons in Hid. destruct Hid as [Hid Hids]. cbn [applyEnvs] in H.
  destruct (flagApplyEnv f vs env) as [vs1|] eqn:E; [|by injection H as <- _].
  rewrite (IH vs1) by done. by eapply flagApplyEnv_other.
Qed.

Lemma applyEnvs_own known env vs vs' f :
  applyEnvs known env vs = (vs', None) -> NoDup (f_id <$> known) -> f ∈ known ->
  match vs !! f_id f, from_env f env with
  | Some v, _ => vs' !! f_id f = Some v
  | None, Some s => exists v, f_parse f s = Ok v /\ vs' !! f_id f = Some v
  | None, None => vs' !! f_id f = None
  end.
Proof.
  revert vs. induction known as [|g known IH]; intros vs H Hd Hf; [by apply not_elem_of_nil in Hf|].
  rewrite fmap_cons, NoDup_cons in Hd. destruct Hd as [Hg Hd]. cbn [applyEnvs] in H.
  destruct (flagApplyEnv g vs env) as [vs1|] eqn:E; [|done].
  apply elem_of_cons in Hf as [->|Hf].
  - rewrite (applyEnvs_other _ _ _ _ _ _ H Hg). by apply flagApplyEnv_own.
  - assert (Hne : f_id f <> f_id g). { intros Heq. apply Hg. rewrite <-Heq. by apply list_elem_of_fmap_2. }
    rewrite <-(flagApplyEnv_other _ _ _ _ _ E Hne). by apply IH.
Qed.

(** ** Success *)

Lemma checkKnown_ok known vs f :
  checkKnown known vs = None -> f ∈ known ->
  (f_required f = true -> flagPresent f vs = true \/ f_hasDefault f = true) /\ flagValidate f vs = None.
Proof.
  induction known as [|g known IH]; intros H Hf; [by apply not_elem_of_nil in Hf|].
  cbn [checkKnown] in H. destruct (f_required g && _ && _) eqn:ER; [done|].
  destruct (flagValidate g vs) eqn:EV; [done|]. apply elem_of_cons in Hf as [->|Hf]; [|by apply IH].
  split; [|done]. intros Hr. rewrite Hr in ER. simpl in ER.
  destruct (flagPresent g vs), (f_hasDefault g); auto.
Qed.

Lemma validateArgs_ok args vs a : validateArgs args vs = None -> a ∈ args -> argValidate a vs = None.
Proof.
  induction args as [|b args IH]; intros H Ha; [by apply not_elem_of_nil in Ha|].
  cbn [validateArgs] in H. destruct (argValidate b vs) eqn:E; [done|].
  apply elem_of_cons in Ha as [->|Ha]; auto.
Qed.

(** The value a validator is shown: the one [Get] returns, when there is one. *)
Definition effective f vs : option V :=
  match vs !! f_id f with
  | Some v => Some v
  | None => if f_hasDefault f then Some (f_defaultVal f) else None
  end.

Lemma flagValidate_ok f vs validate v :
  flagValidate f vs = None -> f_validate f = Some validate -> effective f vs = Some v -> validate v = None.
Proof.
  unfold flagValidate, effective. intros H Hv He. rewrite Hv in H.
  destruct (vs !! f_id f) as [w|]; [|destruct (f_hasDefault f); [|done]]; injection He as <-;
    by destruct (validate _).
Qed.

Lemma flagValidate_ext f vs vs' : vs' !! f_id f = vs !! f_id f -> flagValidate f vs' = flagValidate f vs.
Proof. unfold flagValidate. by intros ->. Qed.

(** ** The values of a rendered invocation *)

(** The texts the command line gives to [f], in order. *)
Definition given f (occs : list (occ V)) : list string :=
  o_value <$> filter (fun o => f_id (o_flag o) = f_id f) occs.

(** What they mean: the last one, or all of them for a slice flag. *)
Fixpoint gather f (prev : V) (line : list string) : result string V :=
  match line with
  | [] => Ok prev
  | s :: line => match f_appendOne f prev s with Ok v => gather f v line | Err e => Err e end
  end.
Definition line_value f (line : list string) : option (result string V) :=
  if f_isSlice f
  then match line with
       | [] => None
       | s :: line => Some (match f_parse f s with Ok v => gather f v line | Err e => Err e end)
       end
  else f_parse f <$> last line.

(** One step of a value, as [flagApplyString] takes it. *)
Definition apply_one f (prev : option V) (s : string) : result string V :=
  if f_isSlice f then match prev with None => f_parse f s | Some p => f_appendOne f p s end
  else f_parse f s.

Lemma flagApplyString_own f vs s vs' :
  flagApplyString f vs s = Ok vs' -> exists v, apply_one f (vs !! f_id f) s = Ok v /\ vs' !! f_id f = Some v.
Proof.
  unfold flagApplyString, apply_one. intros H.
  destruct (if f_isSlice f then _ else _) as [v|]; [|done]. injection H as <-.
  exists v. by rewrite lookup_insert_eq.
Qed.

Fixpoint fold_value f (prev : option V) (line : list string) : result string (option V) :=
  match line with
  | [] => Ok prev
  | s :: line => match apply_one f prev s with Ok v => fold_value f (Some v) line | Err e => Err e end
  end.

Lemma applyAll_own f occs vs vs' :
  (forall o, o ∈ occs -> f_id (o_flag o) = f_id f -> o_flag o = f) ->
  applyAll occs vs = Ok vs' -> fold_value f (vs !! f_id f) (given f occs) = Ok (vs' !! f_id f).
Proof.
  revert vs. induction occs as [|o occs IH]; intros vs Hid H; [by injection H as <-|].
  cbn [applyAll] in H. destruct (flagApplyString _ _ _) as [vs1|] eqn:E; [|done].
  unfold given. rewrite filter_cons. case_decide as D.
  - rewrite fmap_cons. cbn [fold_value]. assert (Hf : o_flag o = f) by (apply Hid; [left|done]).
    rewrite Hf in E. apply flagApplyString_own in E as (v & -> & E2).
    rewrite <-E2. apply IH; [|done]. intros o' Ho'. apply Hid. by right.
  - rewrite <-(flagApplyString_lookup _ _ _ _ _ E) by done.
    apply IH; [|done]. intros o' Ho'. apply Hid. by right.
Qed.

Lemma fold_slice f v line : f_isSlice f = true ->
  fold_value f (Some v) line = match gather f v line with Ok v => Ok (Some v) | Err e => Err e end.
Proof.
  intros Hs. revert v. induction line as [|s line IH]; intros v; [done|].
  cbn [fold_value gather]. unfold apply_one. rewrite Hs. by destruct (f_appendOne f v s).
Qed.

Lemma fold_value_line f line w :
  fold_value f None line = Ok w ->
  match line_value f line with
  | None => line = [] /\ w = None
  | Some r => exists v, r = Ok v /\ w = Some v
  end.
Proof.
  unfold line_value. destruct (f_isSlice f) eqn:Hs.
  - destruct line as [|s line]; [by intros [= <-]|]. cbn [fold_value]. unfold apply_one. rewrite Hs.
    destruct (f_parse f s) as [v|]; [|done]. rewrite fold_slice by done.
    destruct (gather f v line) as [v'|]; [|done]. intros [= <-]. eauto.
  - assert (HG : forall p, fold_value f p line = Ok w ->
      match f_parse f <$> last line with
      | None => line = [] /\ w = p
      | Some r => exists v, r = Ok v /\ w = Some v
      end); [|apply HG].
    induction line as [|s line IH]; intros p; [by intros [= <-]|].
    cbn [fold_value]. unfold apply_one at 1. rewrite Hs. destruct (f_parse f s) as [v|] eqn:EP; [|done].
    intros H. apply IH in H. destruct line as [|s' line].
    + cbn in H. destruct H as [_ ->]. cbn. eauto.
    + change (last (s :: s' :: line)) with (last (s' :: line)).
      destruct (last (s' :: line)) eqn:EL; [done|]. by apply last_None in EL.
Qed.

(** ** Accessor identities *)

(** Distinct accessors of one command line are distinct pointers. *)
Definition distinct_ids known (args : list (Arg V)) : Prop :=
  NoDup ((f_id <$> known) ++ (a_id <$> args)).

Lemma finish_success (cmd : Command V) known positional env vs vs' :
  finish cmd known positional env vs = (vs', None) ->
  groupingOnly cmd = false /\
  exists vs1, flagPolicy cmd known env vs = (vs1, None) /\
    bindPositionals (args_of cmd) positional vs1 = (vs', None) /\
    validateArgs (args_of cmd) vs' = None.
Proof.
  unfold finish. destruct (flagPolicy cmd known env vs) as [vs1 [e|]]; [done|].
  destruct (groupingOnly cmd); [done|].
  destruct (bindPositionals (args_of cmd) positional vs1) as [vs2 [e|]] eqn:EB; [done|].
  intros [= -> HV]. eauto.
Qed.

Lemma known_lookup (cmd : Command V) known positional vs1 vs' f :
  bindPositionals (args_of cmd) positional vs1 = (vs', None) ->
  distinct_ids known (args_of cmd) -> f ∈ known -> vs' !! f_id f = vs1 !! f_id f.
Proof.
  intros HB Hd Hf. apply NoDup_app in Hd as (_ & Hd & _).
  pose proof (bindPositionals_lookup (args_of cmd) positional vs1 (f_id f)) as HL.
  rewrite HB in HL. apply HL, Hd. by apply list_elem_of_fmap_2.
Qed.

(** Flag values by precedence. After a successful parse of a rendered invocation
    every visible flag reads the command line's value (the last one given, or all of
    them in order for a slice flag); without one, its environment variable's; without
    that, its default; and the zero value last. [Lookup] tells the first two from the
    rest. *)
Theorem flag_values_by_precedence root items extra env vs res known f :
  validateArgsDecl root [] = None ->
  well_placed root (flags_of root) false items ->
  applyAll (occs_in items) ∅ = Ok vs ->
  parseArgs root (render items extra) env = (res, known, None) ->
  injected (r_cmd res) = false ->
  distinct_ids known (args_of (r_cmd res)) ->
  (forall o, o ∈ occs_in items -> o_flag o ∈ known) ->
  f ∈ known ->
  match line_value f (given f (occs_in items)), from_env f env with
  | Some r, _ => exists v, r = Ok v /\ flag_Lookup f (r_values res) = (v, true)
  | None, Some s => exists v, f_parse f s = Ok v /\ flag_Lookup f (r_values res) = (v, true)
  | None, None =>
      flag_Lookup f (r_values res) = (f_zero f, false) /\
      flag_Get f (r_values res) = if f_hasDefault f then f_defaultVal f else f_zero f
  end.
Proof.
  intros Hd Hwp Ha HP Hinj Hids Hoccs Hf. rewrite (render_parse _ _ _ _ _ Hd Hwp Ha) in HP.
  destruct (finish _ _ _ _ _) as [vs' e] eqn:EF. injection HP as <- <- ->. cbn [r_cmd r_values] in *.
  apply finish_success in EF as (_ & vs1 & HFP & HB & _).
  unfold flag_Lookup, flag_Get. rewrite (known_lookup _ _ _ _ _ _ HB Hids Hf).
  unfold flagPolicy in HFP. rewrite Hinj in HFP.
  destruct (applyEnvs _ env vs) as [vs2 [e|]] eqn:EE; [done|]. injection HFP as -> _.
  pose proof Hids as Hids'. apply NoDup_app in Hids' as (Hd1 & _).
  pose proof (applyEnvs_own _ _ _ _ _ EE Hd1 Hf) as HE.
  assert (HL : fold_value f None (given f (occs_in items)) = Ok (vs !! f_id f)).
  { rewrite <-(lookup_empty (f_id f)). apply applyAll_own; [|done]. intros o Ho Hid.
    by apply (NoDup_key_inj f_id _ _ _ Hd1); [apply Hoccs|..]. }
  apply fold_value_line in HL. destruct (line_value f _) as [r|].
  - destruct HL as (v & -> & HV). rewrite HV in HE. exists v. by rewrite HE.
  - destruct HL as [_ HV]. rewrite HV in HE. destruct (from_env f env) as [s|].
    + destruct HE as (v & Hp & HE). exists v. by rewrite HE.
    + by rewrite HE.
Qed.

(** ** What a successful parse has checked *)

Lemma argApplyString_present a vs s vs' b :
  argApplyString a vs s = Ok vs' -> b = a \/ argPresent b vs = true -> argPresent b vs' = true.
Proof.
  unfold argApplyString, argPresent. intros H Hb.
  destruct (if a_isSlice a then _ else _) as [v|]; [|done]. injection H as <-.
  apply bool_decide_eq_true. destruct (decide (a_id b = a_id a)) as [E|E].
  - rewrite E, lookup_insert_eq. eauto.
  - rewrite lookup_insert_ne by done. destruct Hb as [->|Hb]; [done|]. by apply bool_decide_eq_true in Hb.
Qed.

Lemma bindVariadic_present a positional vs vs' b :
  bindVariadic a positional vs = (vs', None) ->
  (b = a /\ positional <> []) \/ argPresent b vs = true -> argPresent b vs' = true.
Proof.
  revert vs. induction positional as [|p positional IH]; intros vs H Hb.
  - injection H as <-. by destruct Hb as [[_ []]|].
  - cbn [bindVariadic] in H. destruct (argApplyString a vs p) as [vs1|] eqn:E; [|done].
    apply (IH vs1 H). right. eapply argApplyString_present; [done|]. naive_solver.
Qed.

Lemma bindPositionals_keeps args positional vs vs' b :
  bindPositionals args positional vs = (vs', None) -> argPresent b vs = true -> argPresent b vs' = true.
Proof.
  revert positional vs. induction args as [|a args IH]; intros positional vs H Hb.
  - destruct positional; [by injection H as <-|done].
  - cbn [bindPositionals] in H. destruct (a_variadic a).
    + destruct (bindVariadic a positional vs) as [vs1 [e|]] eqn:EB; [done|].
      case_match; [done|]. injection H as <-. eapply bindVariadic_present; eauto.
    + destruct positional as [|p positional].
      * destruct (a_required a); [done|]. by eapply IH.
      * destruct (argApplyString a vs p) as [vs1|] eqn:E; [|done]. eapply IH; [done|].
        eapply argApplyString_present; eauto.
Qed.

Lemma bindPositionals_required args so positional vs vs' a :
  shape_from so args -> bindPositionals args positional vs = (vs', None) -> a ∈ args ->
  a_required a = true -> argPresent a vs' = true.
Proof.
  revert so positional vs. induction args as [|b args IH]; intros so positional vs Hs H Ha Hr.
  { by apply not_elem_of_nil in Ha. }
  apply shape_cons in Hs. cbn [bindPositionals] in H. destruct (a_variadic b) eqn:Ev.
  - destruct Hs as (-> & _ & _). apply list_elem_of_singleton in Ha as ->.
    destruct (bindVariadic b positional vs) as [vs1 [e|]] eqn:EB; [done|].
    rewrite Hr in H. case_bool_decide as EP; [done|]. simpl in H. injection H as <-.
    eapply bindVariadic_present; eauto.
  - assert (Hrest : exists so', shape_from so' args) by (destruct Hs as [_ Hs], (a_required b); naive_solver).
    destruct Hrest as [so' Hs']. destruct positional as [|p positional].
    + destruct (a_required b) eqn:Er; [done|]. apply elem_of_cons in Ha as [->|Ha]; [congruence|].
      by eapply IH.
    + destruct (argApplyString b vs p) as [vs1|] eqn:E; [|done].
      apply elem_of_cons in Ha as [->|Ha]; [|by eapply IH].
      eapply bindPositionals_keeps; [done|]. eapply argApplyString_present; eauto.
Qed.

Lemma argValidate_ok a vs validate v :
  argValidate a vs = None -> a_validate a = Some validate ->
  (vs !! a_id a = Some v \/ vs !! a_id a = None /\ a_hasDefault a = true /\ v = a_defaultVal a) ->
  validate v = None.
Proof.
  unfold argValidate. intros H Hv He. rewrite Hv in H.
  destruct He as [He|(He & Hd & ->)]; rewrite He, ?Hd in H; by destruct (validate _).
Qed.

(** An induction principle for the token loop: [P] is kept by every iteration and [Q]
    holds wherever it ends. *)
Lemma scan_ind (P : scanState V -> Prop) (Q : scanState V -> scanEnd -> Prop) :
  (forall st, P st -> Q st ScanDone) ->
  (forall st tok rest, P st ->
     match scan1 st tok rest with StepNext _ st' => P st' | StepStop st' e => Q st' e end) ->
  forall tokens st, P st -> Q (fst (scan st tokens)) (snd (scan st tokens)).
Proof.
  intros Hdone Hstep tokens. remember (length tokens) as n eqn:Hn.
  revert tokens Hn. induction n as [n IH] using lt_wf_ind. intros [|tok rest] -> st HP; [by apply Hdone|].
  cbn [scan]. specialize (Hstep st tok rest HP). destruct (scan1 st tok rest) as [consumed st'|st' e]; [|done].
  destruct consumed, rest as [|next rest];
    (eapply IH; [|reflexivity|done]; simpl; lia).
Qed.

(** The command the loop ends in is one of the tree. *)
Definition in_tree (root c : Command V) : Prop := exists inh, reaches root inh c.

Lemma scan_in_tree (root : Command V) st tokens : in_tree root (s_cmd st) -> in_tree root (s_cmd (fst (scan st tokens))).
Proof.
  intros H0. apply (scan_ind (fun st => in_tree root (s_cmd st)) (fun st _ => in_tree root (s_cmd st)));
    [done| |done].
  clear. intros st tok rest [inh Hr]. unfold scan1.
  repeat (case_match; simplify_eq/=); try (by exists inh).
  exists (inh ++ flags_of (s_cmd st)). apply reaches_sub; [done|]. by eapply findSub_elem.
Qed.

(** A successful parse has checked the declaration. Unless it answers --help or
    --version or ends in an injected command, the command can be run, every required
    flag has a value or a default, every required argument has a value, and every
    validator accepts the value its flag or argument reads. *)
Theorem successful_parse_meets_the_declaration root tokens env res known :
  parseArgs root tokens env = (res, known, None) ->
  r_help res = false -> r_version res = false -> injected (r_cmd res) = false ->
  distinct_ids known (args_of (r_cmd res)) ->
  groupingOnly (r_cmd res) = false /\
  (forall f, f ∈ known ->
     (f_required f = true -> flagPresent f (r_values res) = true \/ f_hasDefault f = true) /\
     (forall validate v, f_validate f = Some validate -> effective f (r_values res) = Some v ->
        validate v = None)) /\
  (forall a, a ∈ args_of (r_cmd res) ->
     (a_required a = true -> argPresent a (r_values res) = true) /\
     (forall validate v, a_validate a = Some validate ->
        (r_values res !! a_id a = Some v \/
         r_values res !! a_id a = None /\ a_hasDefault a = true /\ v = a_defaultVal a) ->
        validate v = None)).
Proof.
  unfold parseArgs. destruct (validateArgsDecl root []) as [d|] eqn:Hd; [done|].
  assert (Htree : in_tree root (s_cmd (fst (scan (scan_init root) tokens)))).
  { apply scan_in_tree. exists []. apply reaches_root. }
  destruct (scan (scan_init root) tokens) as [st e] eqn:ES. cbn [fst] in Htree.
  destruct e; [|by intros [= <- <-]..|done].
  destruct (finish _ _ _ _ _) as [vs' e] eqn:EF. intros [= <- <- ->] _ _ Hinj Hids.
  cbn [r_cmd r_values] in *. apply finish_success in EF as (Hg & vs1 & HFP & HB & HV).
  split; [done|]. split.
  - intros f Hf. unfold flagPolicy in HFP. rewrite Hinj in HFP.
    destruct (applyEnvs _ _ _) as [vs2 [e|]]; [done|]. injection HFP as -> HC.
    pose proof (known_lookup _ _ _ _ _ _ HB Hids Hf) as HL.
    destruct (checkKnown_ok _ _ _ HC Hf) as [Hr Hval]. split.
    + intros Hreq. unfold flagPresent, hasValue in *. rewrite HL. by apply Hr.
    + intros validate v Hva He. rewrite <-(flagValidate_ext _ _ _ HL) in Hval. by eapply flagValidate_ok.
  - intros a Ha. destruct Htree as [inh Hr]. pose proof (declaration_ok _ _ _ Hd Hr) as Hw.
    pose proof (wd_args _ _ Hw) as Hshape. rewrite args_shape_from in Hshape. split.
    + intros Hreq. by eapply bindPositionals_required.
    + intros validate v Hva He. eapply argValidate_ok; [|done..]. by eapply validateArgs_ok.
Qed.

(** ** What an invocation means *)

(** What a flag reads: the command line, else the environment. *)
Definition flag_reads f (occs : list (occ V)) (env : string -> option string) : option (result string V) :=
  match line_value f (given f occs), from_env f env with
  | Some r, _ => Some r
  | None, Some s => Some (f_parse f s)
  | None, None => None
  end.

Definition accepted (validate : option (V -> option string)) (v : V) : Prop :=
  match validate with None => True | Some check => check v = None end.

(** The text of a flag is one of its type and its validator accepts the value; without a
    text there is a default that the validator accepts, or the flag is not required. *)
Definition flag_fine f (r : option (result string V)) : Prop :=
  match r with
  | Some (Ok v) => accepted (f_validate f) v
  | Some (Err _) => False
  | None => if f_hasDefault f then accepted (f_validate f) (f_defaultVal f) else f_required f = false
  end.

(** Every argument takes one word, as long as there are words, and a variadic one, which
    is the last, all that are left; no word is left over. *)
Fixpoint assigned (args : list (Arg V)) (words : list string) : option (list (Arg V * list string)) :=
  match args with
  | [] => match words with [] => Some [] | _ => None end
  | a :: args =>
      if a_variadic a then Some [(a, words)]
      else match words with
           | [] => cons (a, []) <$> assigned args []
           | w :: words => cons (a, [w]) <$> assigned args words
           end
  end.

(** What an argument reads from its words. *)
Fixpoint arg_value a (prev : option V) (words : list string) : result string (option V) :=
  match words with
  | [] => Ok prev
  | w :: words =>
      match (if a_isSlice a then match prev with None => a_parse a w | Some p => a_appendOne a p w end else a_parse a w) with
      | Ok v => arg_value a (Some v) words
      | Err e => Err e
      end
  end.

Definition arg_fine a (words : list string) : Prop :=
  (a_required a = true -> words <> []) /\
  match arg_value a None words with
  | Ok (Some v) => accepted (a_validate a) v
  | Ok None => if a_hasDefault a then accepted (a_validate a) (a_defaultVal a) else True
  | Err _ => False
  end.

(** *** Flags *)

Lemma applyEnvs_succeeds known env vs :
  NoDup (f_id <$> known) ->
  (forall f s, f ∈ known -> vs !! f_id f = None -> from_env f env = Some s -> exists v, f_parse f s = Ok v) ->
  snd (applyEnvs known env vs) = None.
Proof.
  revert vs. induction known as [|f known IH]; intros vs Hd H; [done|].
  rewrite fmap_cons, NoDup_cons in Hd. destruct Hd as [Hn Hd]. cbn [applyEnvs].
  destruct (flagApplyEnv f vs env) as [vs1|e] eqn:E.
  - apply IH; [done|]. intros g s Hg Hv Hs. apply (H g s); [by right| |done].
    rewrite <-(flagApplyEnv_other _ _ _ _ _ E); [done|]. intros Eid. apply Hn. rewrite <-Eid. by apply list_elem_of_fmap_2.
  - exfalso. unfold flagApplyEnv, hasValue in E. destruct (vs !! f_id f) as [v|] eqn:EV.
    + by rewrite (bool_decide_true (is_Some (Some v))), orb_true_r in E by eauto.
    + rewrite (bool_decide_false (is_Some None)), orb_false_r in E by (by intros []).
      destruct (bool_decide (f_env f = EmptyString)) eqn:Eb; [done|]. destruct (env (f_env f)) as [s|] eqn:Es; [|done].
      destruct (H f s) as [v Hv]; [left|done|unfold from_env; by rewrite Eb|].
      unfold flagApplyString in E. rewrite EV, Hv in E. by destruct (f_isSlice f).
Qed.

Lemma flagValidate_accepted f vs : flagValidate f vs = None <->
  match effective f vs with Some v => accepted (f_validate f) v | None => True end.
Proof.
  unfold flagValidate, effective, accepted. destruct (f_validate f) as [check|]; [|by repeat case_match].
  destruct (vs !! f_id f) as [v|]; [by destruct (check v)|]. destruct (f_hasDefault f); [by destruct (check _)|done].
Qed.

Lemma argValidate_accepted a vs : argValidate a vs = None <->
  match vs !! a_id a with
  | Some v => accepted (a_validate a) v
  | None => if a_hasDefault a then accepted (a_validate a) (a_defaultVal a) else True
  end.
Proof.
  unfold argValidate, accepted. destruct (a_validate a) as [check|]; [|by repeat case_match].
  destruct (vs !! a_id a) as [v|]; [by destruct (check v)|]. destruct (a_hasDefault a); [by destruct (check _)|done].
Qed.

Lemma checkKnown_iff known vs : checkKnown known vs = None <->
  forall f, f ∈ known -> (f_required f = true -> flagPresent f vs = true \/ f_hasDefault f = true) /\ flagValidate f vs = None.
Proof.
  split; [intros H f Hf; by eapply checkKnown_ok|]. induction known as [|f known IH]; intros H; [done|]. cbn [checkKnown].
  destruct (H f ltac:(left)) as [Hr ->]. rewrite IH by (intros g Hg; apply H; by right).
  destruct (f_required f); [|done]. by destruct (Hr eq_refl) as [-> | ->]; rewrite ?andb_false_r.
Qed.

Lemma validateArgs_iff args vs : validateArgs args vs = None <-> forall a, a ∈ args -> argValidate a vs = None.
Proof.
  split; [intros H a Ha; by eapply validateArgs_ok|]. induction args as [|a args IH]; intros H; [done|]. cbn [validateArgs].
  rewrite (H a ltac:(left)). apply IH. intros b Hb. apply H. by right.
Qed.

(** The flag policy succeeds exactly when the flags are fine; then it leaves what they read. *)
Lemma flagPolicy_spec (cmd : Command V) known occs env vs :
  injected cmd = false -> NoDup (f_id <$> known) ->
  (forall f, f ∈ known -> fold_value f None (given f occs) = Ok (vs !! f_id f)) ->
  let '(vs1, e) := flagPolicy cmd known env vs in
  (e = None <-> forall f, f ∈ known -> flag_fine f (flag_reads f occs env)) /\
  (e = None -> forall f, f ∈ known ->
     match flag_reads f occs env with
     | Some r => exists v, r = Ok v /\ vs1 !! f_id f = Some v
     | None => vs1 !! f_id f = None
     end) /\
  (forall id, id ∉ f_id <$> known -> vs1 !! id = vs !! id).
Proof.
  intros Hinj Hd HV. unfold flagPolicy. rewrite Hinj.
  assert (Hline : forall f, f ∈ known -> match line_value f (given f occs) with
    | None => vs !! f_id f = None | Some r => exists v, r = Ok v /\ vs !! f_id f = Some v end).
  { intros f Hf. specialize (HV f Hf). apply fold_value_line in HV. destruct (line_value f _); naive_solver. }
  destruct (applyEnvs known env vs) as [vs1 eo] eqn:EE.
  assert (Hother : forall id, id ∉ f_id <$> known -> vs1 !! id = vs !! id) by (intros id Hid; by eapply applyEnvs_other).
  destruct eo as [e|].
  - split; [|by split]. split; [done|]. intros Hall. exfalso. pose proof (applyEnvs_succeeds known env vs Hd) as HE.
    rewrite EE in HE. discriminate HE. intros f s Hf Hv Hs. specialize (Hall f Hf). specialize (Hline f Hf).
    unfold flag_reads in Hall. destruct (line_value f _) as [r|]; [destruct Hline as (v & _ & Hv'); congruence|].
    rewrite Hs in Hall. cbn in Hall. destruct (f_parse f s) as [v|]; [by exists v|done].
  - assert (Hreads : forall f, f ∈ known -> match flag_reads f occs env with
      | Some r => exists v, r = Ok v /\ vs1 !! f_id f = Some v | None => vs1 !! f_id f = None end).
    { intros f Hf. pose proof (applyEnvs_own _ _ _ _ _ EE Hd Hf) as HE. specialize (Hline f Hf). unfold flag_reads.
      destruct (line_value f _) as [r|]; [destruct Hline as (v & -> & Hv); rewrite Hv in HE; by exists v|].
      rewrite Hline in HE. by destruct (from_env f env). }
    split; [|by split]. rewrite checkKnown_iff. apply forall_proper. intros f. apply forall_proper. intros Hf.
    specialize (Hreads f Hf). rewrite flagValidate_accepted. unfold effective, flagPresent, hasValue, flag_fine.
    destruct (flag_reads f occs env) as [r|].
    + destruct Hreads as (v & -> & ->). rewrite bool_decide_true by eauto. tauto.
    + rewrite Hreads, bool_decide_false by (by intros []). destruct (f_hasDefault f); [tauto|].
      destruct (f_required f); split; try done; intros [H _]; by destruct (H eq_refl).
Qed.

(** *** Arguments *)

Lemma argApplyString_spec a vs w :
  match (if a_isSlice a then match vs !! a_id a with None => a_parse a w | Some p => a_appendOne a p w end else a_parse a w) with
  | Ok v => argApplyString a vs w = Ok (<[a_id a := v]> vs)
  | Err _ => exists e, argApplyString a vs w = Err e
  end.
Proof. unfold argApplyString. destruct (if a_isSlice a then _ else _); [done|by eexists]. Qed.

Lemma bindVariadic_spec a words vs :
  let '(vs', e) := bindVariadic a words vs in
  match arg_value a (vs !! a_id a) words with
  | Ok w => e = None /\ vs' !! a_id a = w
  | Err _ => is_Some e
  end.
Proof.
  revert vs. induction words as [|w words IH]; intros vs; cbn [bindVariadic arg_value]; [done|].
  pose proof (argApplyString_spec a vs w) as HA.
  destruct (if a_isSlice a then _ else _) as [v|]; [|destruct HA as [x ->]; by eexists]. rewrite HA.
  specialize (IH (<[a_id a := v]> vs)). by rewrite lookup_insert_eq in IH.
Qed.

Definition arg_bound a (words : list string) : Prop :=
  (a_required a = true -> words <> []) /\ is_ok (arg_value a None words) = true.

(** What binding does, by the words assigned. *)
Definition binds (ol : option (list (Arg V * list string))) vs' (e : option error) : Prop :=
  match ol with
  | None => is_Some e
  | Some l => (e = None <-> forall a ws, (a, ws) ∈ l -> arg_bound a ws) /\
      (e = None -> forall a ws, (a, ws) ∈ l -> arg_value a None ws = Ok (vs' !! a_id a))
  end.

Lemma binds_cons a ws ol vs' e :
  binds ol vs' e -> arg_bound a ws -> (e = None -> arg_value a None ws = Ok (vs' !! a_id a)) ->
  binds (cons (a, ws) <$> ol) vs' e.
Proof.
  destruct ol as [l|]; [|done]. intros [H1 H2] Ha Hv. split.
  - rewrite H1. split; [|intros H b ws' Hb; apply H; by right]. intros H b ws' [[= -> ->]|Hb]%elem_of_cons; [done|auto].
  - intros He b ws' [[= -> ->]|Hb]%elem_of_cons; auto.
Qed.

Lemma binds_fail a ws ol vs' e : ~ arg_bound a ws -> is_Some e -> binds (cons (a, ws) <$> ol) vs' e.
Proof.
  intros Ha [x ->]. destruct ol as [l|]; [|by eexists]. split; [|done]. split; [done|].
  intros H. destruct Ha. apply H. left.
Qed.

Lemma bindPositionals_spec so args words vs :
  shape_from so args -> NoDup (a_id <$> args) -> (forall a, a ∈ args -> vs !! a_id a = None) ->
  let '(vs', e) := bindPositionals args words vs in binds (assigned args words) vs' e.
Proof.
  revert so words vs. induction args as [|a args IH]; intros so words vs Hs Hd Hv; cbn [bindPositionals assigned].
  { destruct words; [|by eexists]. split; [|by intros _ a ws ?%not_elem_of_nil].
    split; [by intros _ a ws ?%not_elem_of_nil|done]. }
  apply shape_cons in Hs. rewrite fmap_cons, NoDup_cons in Hd. destruct Hd as [Hn Hd].
  assert (Hva : vs !! a_id a = None) by (apply Hv; left).
  assert (Hvs : forall b, b ∈ args -> vs !! a_id b = None) by (intros b Hb; apply Hv; by right).
  destruct (a_variadic a) eqn:Evar.
  - pose proof (bindVariadic_spec a words vs) as HB. rewrite Hva in HB.
    change (Some [(a, words)]) with (cons (a, words) <$> Some []).
    assert (H0 : forall vs', binds (Some []) vs' None) by (intros vs'; split; [split; [by intros _ b ws ?%not_elem_of_nil|done]|by intros _ b ws ?%not_elem_of_nil]).
    destruct (bindVariadic a words vs) as [vs1 e1]. destruct (arg_value a None words) as [w|] eqn:Ew.
    + destruct HB as [-> Hw]. destruct (a_required a && bool_decide (words = [])) eqn:Er.
      * apply andb_true_iff in Er as [Er1 Er2%bool_decide_eq_true]. apply binds_fail; [|by eexists]. intros [Hne _]. by apply Hne.
      * apply binds_cons; [done| |intros _; by rewrite Ew, Hw]. split; [|by rewrite Ew]. intros Hr Hw0.
        by rewrite Hr, Hw0 in Er.
    + destruct HB as [x ->]. apply binds_fail; [|by eexists]. intros [_ H]. by rewrite Ew in H.
  - assert (Hrest : exists so', shape_from so' args) by (destruct Hs as [_ Hs], (a_required a); naive_solver).
    destruct Hrest as [so' Hs']. destruct words as [|w words].
    + destruct (a_required a) eqn:Er; [apply binds_fail; [intros [Hne _]; by apply Hne|by eexists]|].
      pose proof (IH so' [] vs Hs' Hd Hvs) as HI. pose proof (bindPositionals_lookup args [] vs (a_id a) Hn) as HL.
      destruct (bindPositionals args [] vs) as [vs' e]. cbn in HL. apply binds_cons; [done|split; [congruence|done]|].
      intros _. by rewrite HL, Hva.
    + pose proof (argApplyString_spec a vs w) as HA. rewrite Hva in HA.
      destruct (if a_isSlice a then _ else _) as [v|] eqn:Ep.
      * rewrite HA. pose proof (IH so' words (<[a_id a := v]> vs) Hs' Hd) as HI.
        pose proof (bindPositionals_lookup args words (<[a_id a := v]> vs) (a_id a) Hn) as HL.
        destruct (bindPositionals args words (<[a_id a := v]> vs)) as [vs' e]. cbn in HL. rewrite lookup_insert_eq in HL.
        assert (Hval : arg_value a None [w] = Ok (Some v)) by (cbn [arg_value]; by rewrite Ep).
        apply binds_cons; [|split; [done|by rewrite Hval]|intros _; by rewrite HL].
        apply HI. intros b Hb. rewrite lookup_insert_ne; [auto|]. intros Eid. apply Hn. rewrite Eid. by apply list_elem_of_fmap_2.
      * destruct HA as [x ->]. apply binds_fail; [|by eexists]. intros [_ H]. cbn [arg_value] in H. by rewrite Ep in H.
Qed.

(** Every argument is assigned its words. *)
Lemma assigned_all so args words l : shape_from so args -> assigned args words = Some l -> l.*1 = args.
Proof.
  revert so words l. induction args as [|a args IH]; intros so words l Hs; cbn [assigned]; [by destruct words; [intros [= <-]|]|].
  apply shape_cons in Hs. destruct (a_variadic a); [destruct Hs as [-> _]; by intros [= <-]|].
  assert (Hrest : exists so', shape_from so' args) by (destruct Hs as [_ Hs], (a_required a); naive_solver).
  destruct Hrest as [so' Hs'].
  destruct words as [|w words]; intros (l' & El & ->)%fmap_Some; rewrite fmap_cons; f_equal; by eapply IH.
Qed.

(** *** The whole invocation *)

Lemma applyAll_other occs vs vs' id :
  (forall o, o ∈ occs -> f_id (o_flag o) <> id) -> applyAll occs vs = Ok vs' -> vs' !! id = vs !! id.
Proof.
  revert vs. induction occs as [|o occs IH]; intros vs Hid H; [by injection H as <-|]. cbn [applyAll] in H.
  destruct (flagApplyString _ _ _) as [vs1|] eqn:E; [|done].
  rewrite (IH vs1) by (try done; intros o' Ho'; apply Hid; by right).
  eapply flagApplyString_lookup; [done|]. intros Eid. by apply (Hid o); [left|].
Qed.

(** The arguments are fine when their words are bound and the validators pass. *)
Lemma args_fine so args words l vs :
  shape_from so args -> assigned args words = Some l ->
  (forall a ws, (a, ws) ∈ l -> arg_bound a ws) ->
  (forall a ws, (a, ws) ∈ l -> arg_value a None ws = Ok (vs !! a_id a)) ->
  validateArgs args vs = None <-> forall a ws, (a, ws) ∈ l -> arg_fine a ws.
Proof.
  intros Hs Hl Hb Hv. rewrite validateArgs_iff. setoid_rewrite argValidate_accepted.
  pose proof (assigned_all so args words l Hs Hl) as Hall. split.
  - intros H a ws Hin. split; [by apply Hb|]. rewrite (Hv a ws Hin). specialize (H a).
    apply H. rewrite <-Hall. apply list_elem_of_fmap. by exists (a, ws).
  - intros H a Ha. rewrite <-Hall in Ha. apply list_elem_of_fmap in Ha as ([a' ws] & -> & Hin).
    destruct (H a' ws Hin) as [_ Hf]. by rewrite (Hv a' ws Hin) in Hf.
Qed.

Lemma arg_fine_bound a ws : arg_fine a ws -> arg_bound a ws.
Proof. intros [H1 H2]. split; [done|]. by destruct (arg_value a None ws). Qed.

Lemma parsed_declared (root : Command V) tokens env res known e :
  validateArgsDecl root [] = None -> parseArgs root tokens env = (res, known, e) ->
  exists inh, well_declared inh (r_cmd res).
Proof.
  intros Hd. unfold parseArgs. rewrite Hd.
  assert (Htree : in_tree root (s_cmd (fst (scan (scan_init root) tokens)))).
  { apply scan_in_tree. exists []. apply reaches_root. }
  destruct (scan (scan_init root) tokens) as [st o]. cbn [fst] in Htree. destruct Htree as [inh Hr].
  destruct o; [destruct (finish _ _ _ _ _)| | |]; intros [= <- <- <-]; exists inh; by eapply declaration_ok.
Qed.

(** C35: an invocation written out as tokens is parsed back as itself. Subcommand names
    lead to a command; flags, each in any of its spellings (--name=v, --name v, -x=v, -x v,
    bare for booleans), may stand anywhere after the command that declares them; words are
    positionals, and everything after [--] is one too. The parse answers with that command,
    its path and the flags in sight. It succeeds exactly when the command can be run, every
    flag has a text that its parser and its validator accept, or none and a default the
    validator accepts or no need of one, and the words can be given out to the arguments
    likewise. Then every flag has the value of its texts on the command line, or else of
    its environment variable, or else none; and every argument that of the words that fall
    to it. The texts on the command line are to be ones the flags' parsers accept, the
    command none of the built-in ones, which check no flags, and distinct flags and
    arguments distinct values. *)
Theorem rendered_invocation_parses_back root items extra env vs :
  validateArgsDecl root [] = None ->
  well_placed root (flags_of root) false items ->
  applyAll (occs_in items) ∅ = Ok vs ->
  let path := pathFrom root (subs_in items) in
  let cmd := default root (last path) in
  let known := concat (flags_of <$> path) in
  let words := words_in items ++ default [] extra in
  injected cmd = false -> distinct_ids known (args_of cmd) ->
  (forall o, o ∈ occs_in items -> o_flag o ∈ known) ->
  exists vs' e, parseArgs root (render items extra) env = (mkParseResult cmd path vs' false false, known, e) /\
    (e = None <->
       groupingOnly cmd = false /\
       (forall f, f ∈ known -> flag_fine f (flag_reads f (occs_in items) env)) /\
       exists l, assigned (args_of cmd) words = Some l /\ forall a ws, (a, ws) ∈ l -> arg_fine a ws) /\
    (e = None ->
       (forall f, f ∈ known ->
          match flag_reads f (occs_in items) env with
          | Some r => exists v, r = Ok v /\ vs' !! f_id f = Some v
          | None => vs' !! f_id f = None
          end) /\
       (forall l a ws, assigned (args_of cmd) words = Some l -> (a, ws) ∈ l -> arg_value a None ws = Ok (vs' !! a_id a))).
Proof.
  intros Hd Hwp Ha path cmd known words Hinj Hids Hoccs.
  pose proof (render_parse root items extra env vs Hd Hwp Ha) as HP. cbv zeta in HP. fold path cmd known words in HP.
  destruct (finish cmd known words env vs) as [vs' e] eqn:EF. exists vs', e. split; [done|].
  destruct (parsed_declared _ _ _ _ _ _ Hd HP) as [inh Hw]. cbn [r_cmd] in Hw.
  pose proof (wd_args _ _ Hw) as Hshape. rewrite args_shape_from in Hshape.
  pose proof Hids as Hids'. apply NoDup_app in Hids' as (Hdf & Hdis & Hda).
  assert (HV : forall f, f ∈ known -> fold_value f None (given f (occs_in items)) = Ok (vs !! f_id f)).
  { intros f Hf. rewrite <-(lookup_empty (f_id f)). apply applyAll_own; [|done]. intros o Ho Hid.
    by apply (NoDup_key_inj f_id _ _ _ Hdf); [apply Hoccs|..]. }
  pose proof (flagPolicy_spec cmd known (occs_in items) env vs Hinj Hdf HV) as HF. unfold finish in EF.
  destruct (flagPolicy cmd known env vs) as [vs1 e1]. destruct HF as (HF1 & HF2 & HF3).
  assert (Hfree : forall a, a ∈ args_of cmd -> vs1 !! a_id a = None).
  { intros a Hain. assert (Hn : a_id a ∉ f_id <$> known) by (intros Hin; apply (Hdis _ Hin); by apply list_elem_of_fmap_2).
    rewrite HF3 by done. rewrite <-(lookup_empty (a_id a)). eapply applyAll_other; [|done]. intros o Ho Eid. apply Hn.
    rewrite <-Eid. by apply list_elem_of_fmap_2, Hoccs. }
  destruct e1 as [e1|].
  { injection EF as <- <-. split; [|done]. split; [done|]. intros (_ & Hfl & _). by discriminate (proj2 HF1 Hfl). }
  specialize (HF2 eq_refl). pose proof (proj1 HF1 eq_refl) as Hfl. clear HF1.
  destruct (groupingOnly cmd); [injection EF as <- <-; split; [|done]; split; [done|]; by intros [? _]|].
  pose proof (bindPositionals_spec false (args_of cmd) words vs1 Hshape Hda Hfree) as HB.
  pose proof (bindPositionals_lookup (args_of cmd) words vs1) as HL.
  destruct (bindPositionals (args_of cmd) words vs1) as [vs2 e2]. cbn [fst] in HL.
  assert (Hkeep : forall f, f ∈ known -> vs2 !! f_id f = vs1 !! f_id f).
  { intros f Hf. apply HL, Hdis. by apply list_elem_of_fmap_2. }
  destruct (assigned (args_of cmd) words) as [l|] eqn:El.
  2: { destruct HB as [x ->]. injection EF as <- <-. split; [|done]. split; [done|]. by intros (_ & _ & l & ? & _). }
  destruct HB as [HB1 HB2]. destruct e2 as [e2|].
  { injection EF as <- <-. split; [|done]. split; [done|]. intros (_ & _ & l' & [= <-] & Hfine).
    discriminate (proj2 HB1). intros a ws Hin. by apply arg_fine_bound, Hfine. }
  injection EF as <- <-. specialize (HB2 eq_refl). pose proof (proj1 HB1 eq_refl) as Hbound.
  pose proof (args_fine false (args_of cmd) words l vs2 Hshape El Hbound HB2) as Hargs. split.
  - rewrite Hargs. split; [intros H; split; [done|]; split; [done|]; by exists l|]. by intros (_ & _ & l' & [= <-] & H).
  - intros _. split; [intros f Hf; rewrite Hkeep by done; by apply HF2|]. intros l' a ws [= <-]. apply HB2.
Qed.

(** ** Failures *)

(** The errors the parser makes once the declaration is accepted: a sentinel of the
    package, bare or wrapped once. *)
Definition usage_sentinel (s : Sentinel) : Prop :=
  s = ErrUsage \/ s = ErrValidation \/ s = ErrUnknownCmd \/ s = ErrMissingArg \/ s = ErrMissingSubcommand.
Definition parse_error (e : error) : Prop :=
  exists s, usage_sentinel s /\ (e = sentinel_error s \/ exists m, e = errorf m s).

Lemma parse_errorf m s : usage_sentinel s -> parse_error (errorf m s).
Proof. intros H. exists s. eauto. Qed.

Ltac usage := unfold usage_sentinel; tauto.

Lemma flagApplyString_error f vs s e : flagApplyString f vs s = Err e -> parse_error e.
Proof.
  unfold flagApplyString. destruct (if f_isSlice f then _ else _); [done|]. intros [= <-].
  apply parse_errorf. usage.
Qed.

Lemma argApplyString_error a vs s e : argApplyString a vs s = Err e -> parse_error e.
Proof.
  unfold argApplyString. destruct (if a_isSlice a then _ else _); [done|]. intros [= <-].
  apply parse_errorf. usage.
Qed.

Lemma applyFlagToken_error tok next known vs e : applyFlagToken tok next known vs = Err e -> parse_error e.
Proof.
  unfold applyFlagToken, resolveFlag. intros H.
  repeat (case_match; simplify_eq/=); try (apply parse_errorf; usage); by eapply flagApplyString_error.
Qed.

Lemma scan_error (st : scanState V) tokens e : snd (scan st tokens) = ScanError e -> parse_error e.
Proof.
  apply (scan_ind (fun _ => True) (fun _ s => s = ScanError e -> parse_error e)); [done| |done].
  clear st. intros st tok rest _. unfold scan1.
  repeat (case_match; simplify_eq/=); try done; intros [= <-].
  - by eapply applyFlagToken_error.
  - apply parse_errorf. usage.
Qed.

Lemma checkKnown_error known vs e : checkKnown known vs = Some e -> parse_error e.
Proof.
  induction known as [|f known IH]; [done|]. cbn [checkKnown]. intros H. case_match.
  - injection H as <-. apply parse_errorf. usage.
  - destruct (flagValidate f vs) as [e'|] eqn:E; [|by apply IH]. injection H as ->.
    unfold flagValidate in E. repeat (case_match; simplify_eq/=); apply parse_errorf; usage.
Qed.

Lemma applyEnvs_error known env vs vs' e : applyEnvs known env vs = (vs', Some e) -> parse_error e.
Proof.
  revert vs. induction known as [|f known IH]; [done|]. intros vs. cbn [applyEnvs].
  destruct (flagApplyEnv f vs env) as [vs1|e'] eqn:E; [apply IH|]. intros [= _ ->].
  unfold flagApplyEnv in E. repeat (case_match; simplify_eq/=). by eapply flagApplyString_error.
Qed.

Lemma bindVariadic_error a positional vs vs' e :
  bindVariadic a positional vs = (vs', Some e) -> parse_error e.
Proof.
  revert vs. induction positional as [|p positional IH]; [done|]. intros vs. cbn [bindVariadic].
  destruct (argApplyString a vs p) eqn:E; [apply IH|]. intros [= _ ->]. by eapply argApplyString_error.
Qed.

Lemma bindPositionals_error args positional vs vs' e :
  bindPositionals args positional vs = (vs', Some e) -> parse_error e.
Proof.
  revert positional vs. induction args as [|a args IH]; intros positional vs; cbn [bindPositionals].
  - destruct positional; [done|]. intros [= _ <-]. apply parse_errorf. usage.
  - destruct (a_variadic a).
    + destruct (bindVariadic a positional vs) as [vs1 [e'|]] eqn:EB.
      * intros [= _ ->]. by eapply bindVariadic_error.
      * case_match; [|done]. intros [= _ <-]. apply parse_errorf. usage.
    + destruct positional as [|p positional].
      * case_match; [|apply IH]. intros [= _ <-]. apply parse_errorf. usage.
      * destruct (argApplyString a vs p) eqn:E; [apply IH|]. intros [= _ ->].
        by eapply argApplyString_error.
Qed.

Lemma validateArgs_error args vs e : validateArgs args vs = Some e -> parse_error e.
Proof.
  induction args as [|a args IH]; [done|]. cbn [validateArgs]. intros H.
  destruct (argValidate a vs) as [e'|] eqn:E; [|by apply IH]. injection H as ->.
  unfold argValidate in E. repeat (case_match; simplify_eq/=); apply parse_errorf; usage.
Qed.

Lemma finish_error (cmd : Command V) known positional env vs vs' e :
  finish cmd known positional env vs = (vs', Some e) -> parse_error e.
Proof.
  unfold finish, flagPolicy. intros H.
  repeat (case_match; simplify_eq/=);
    eauto using checkKnown_error, applyEnvs_error, bindPositionals_error, validateArgs_error.
  all: exists ErrMissingSubcommand; split; [usage|by left].
Qed.

Lemma parse_error_exit `{Boxes V} (path : list (Command V)) known e :
  parse_error e -> snd (DefaultOnError path known (Some e)) = 2.
Proof.
  intros (s & Hs & [-> | [m ->]]); by destruct Hs as [->|[->|[->|[->| ->]]]].
Qed.

(** The exit code of a failed parse says whose fault it was: 1 when the
    application declared its command tree wrongly, 2 (with the help screen) for every
    failure of the invocation, whatever the application's own parsers and validators
    returned. *)
Theorem parse_failures_exit_by_kind `{Boxes V} root tokens env res known e :
  parseArgs root tokens env = (res, known, Some e) ->
  snd (DefaultOnError (r_path res) known (Some e)) =
  if decide (validateArgsDecl root [] = None) then 2 else 1.
Proof.
  unfold parseArgs. destruct (validateArgsDecl root []) as [d|] eqn:Hd.
  - intros [= <- <- <-]. by rewrite decide_False by done.
  - rewrite decide_True by done. intros HP. apply parse_error_exit.
    pose proof (scan_error (scan_init root) tokens) as HS.
    destruct (scan (scan_init root) tokens) as [st [| | |e']]; [|done..|].
    + destruct (finish _ _ _ _ _) as [vs' e'] eqn:EF. injection HP as _ _ ->. by eapply finish_error.
    + injection HP as _ _ ->. by apply HS.
Qed.
End Policy.
