(* ===== verification/CliExecSpec.v ===== *)
(** Exit codes, completion and suggestions of src/cli: the error tree decides the exit
    code, completion stands where the parser would stand, and a suggestion is the
    closest visible name. *)

From S2P Require Import Prelude.
From S2P Require Import Strconv.
From S2P Require Import Strings.
From S2P Require Import EditDistance.
From S2P Require Import Cli.
From S2P Require Import CliSpec.
From S2P Require Import CliRoundTrip.
From S2P Require Import CliExec.
From S2P Require Import CliPolicy.

Local Open Scope Z_scope.

(** ** The error tree *)

Section ErrorInd.
  Context (P : error -> Prop).
  Hypothesis Pleaf : forall m self, P (Leaf m self).
  Hypothesis Pnil : forall m self, P (Wrap m self None).
  Hypothesis Pwrap : forall m self e, P e -> P (Wrap m self (Some e)).
  Hypothesis Pjoin : forall m self es, (forall e, Some e ∈ es -> P e) -> P (Joined m self es).

Fixpoint error_ind' (e : error) : P e.
  Proof.
    destruct e as [m self|m self [e|]|m self es].
    - apply Pleaf.
    - apply Pwrap, error_ind'.
    - apply Pnil.
    - apply Pjoin. clear -error_ind'. induction es as [|[e'|] es IH]; intros e He.
      + destruct (not_elem_of_nil _ He).
      + apply elem_of_cons in He as [E|He]; [|exact (IH e He)]. injection E as ->. apply error_ind'.
      + apply elem_of_cons in He as [E|He]; [discriminate E|exact (IH e He)].
  Qed.
End ErrorInd.

(** [node self e]: a node of the tree of [e] matches the sentinels [self] itself. *)
Inductive node : list Sentinel -> error -> Prop :=
| node_leaf m self : node self (Leaf m self)
| node_wrap m self e : node self (Wrap m self e)
| node_joined m self es : node self (Joined m self es)
| node_under_wrap l m self e : node l e -> node l (Wrap m self (Some e))
| node_under_joined l m self es e : Some e ∈ es -> node l e -> node l (Joined m self es).

(** The leaves of the tree, with what they match; an empty group and a nil entry
    match nothing. *)
Inductive leaf : list Sentinel -> error -> Prop :=
| leaf_leaf m self : leaf self (Leaf m self)
| leaf_wrap_nil m self : leaf self (Wrap m self None)
| leaf_wrap l m self e : leaf l e -> leaf l (Wrap m self (Some e))
| leaf_empty m self : leaf [] (Joined m self [])
| leaf_nil m self es : None ∈ es -> leaf [] (Joined m self es)
| leaf_joined l m self es e : Some e ∈ es -> leaf l e -> leaf l (Joined m self es).

Definition any_is (s : Sentinel) : list (option error) -> bool :=
  fix any (es : list (option error)) : bool :=
    match es with
    | [] => false
    | None :: es => any es
    | Some e :: es => error_is e s || any es
    end.

Lemma any_is_true s es : any_is s es = true <-> exists e, Some e ∈ es /\ error_is e s = true.
Proof.
  induction es as [|[e|] es IH]; cbn [any_is]; fold (any_is s).
  - split; [done|]. intros (e & He & _). by apply not_elem_of_nil in He.
  - rewrite orb_true_iff, IH. setoid_rewrite elem_of_cons. naive_solver.
  - rewrite IH. setoid_rewrite elem_of_cons. naive_solver.
Qed.

Lemma error_is_node e s : error_is e s = true <-> exists self, node self e /\ s ∈ self.
Proof.
  induction e as [m self|m self|m self e IH|m self es IH] using error_ind'; cbn [error_is].
  - rewrite bool_decide_eq_true. split; [eauto using node|]. intros (l & Hl & Hs). by inversion Hl; subst.
  - rewrite bool_decide_eq_true. split; [eauto using node|]. intros (l & Hl & Hs). by inversion Hl; subst.
  - rewrite orb_true_iff, bool_decide_eq_true, IH. split.
    + intros [Hs|(l & Hl & Hs)]; eauto using node.
    + intros (l & Hl & Hs). inversion Hl; subst; eauto.
  - fold (any_is s es). rewrite orb_true_iff, bool_decide_eq_true, any_is_true. split.
    + intros [Hs|(e & He & Hs)]; [eauto using node|].
      apply (IH e He) in Hs as (l & Hl & Hs). eauto using node.
    + intros (l & Hl & Hs). inversion Hl; subst; [by left|]. right. eexists. split; [done|].
      apply IH; eauto.
Qed.

Definition all_canceled : list (option error) -> bool :=
  fix all (es : list (option error)) : bool :=
    match es with
    | [] => true
    | None :: _ => false
    | Some e :: es => onlyCanceled e && all es
    end.

Lemma all_canceled_true es :
  all_canceled es = true <-> None ∉ es /\ forall e, Some e ∈ es -> onlyCanceled e = true.
Proof.
  induction es as [|[e|] es IH]; cbn [all_canceled]; fold all_canceled.
  - split; [|done]. intros _. split; [apply not_elem_of_nil|]. intros e He. by apply not_elem_of_nil in He.
  - rewrite andb_true_iff, IH, not_elem_of_cons. setoid_rewrite elem_of_cons. naive_solver.
  - split; [done|]. intros [H _]. destruct H. left.
Qed.

Lemma onlyCanceled_leaves e : onlyCanceled e = true <-> forall l, leaf l e -> Canceled ∈ l.
Proof.
  induction e as [m self|m self|m self e IH|m self es IH] using error_ind'; cbn [onlyCanceled].
  - rewrite bool_decide_eq_true. split; [|eauto using leaf]. intros Hs l Hl. by inversion Hl; subst.
  - rewrite bool_decide_eq_true. split; [|eauto using leaf]. intros Hs l Hl. by inversion Hl; subst.
  - rewrite IH. split; [|eauto using leaf]. intros Hs l Hl. inversion Hl; subst. auto.
  - assert (E : match es with [] => false | _ :: _ => all_canceled es end = true <->
      forall l, leaf l (Joined m self es) -> Canceled ∈ l); [|by destruct es].
    destruct es as [|x es'] eqn:Ees.
    { split; [done|]. intros H. destruct (not_elem_of_nil Canceled). by apply H, leaf_empty. }
    rewrite <-Ees in *. rewrite all_canceled_true. split.
    + intros [Hn Hall] l Hl. inversion Hl; subst; try done.
      match goal with He : Some ?e ∈ _, Hl : leaf l ?e |- _ => by apply (proj1 (IH e He) (Hall e He)) end.
    + intros H. split.
      * intros Hn. destruct (not_elem_of_nil Canceled). by apply H, leaf_nil.
      * intros e He. apply (IH e He). intros l Hl. by apply H; eapply leaf_joined.
Qed.

(** The exit code is decided by the error tree: 130 exactly when every leaf of it
    is a cancellation (a cancellation joined with anything else is not enough);
    otherwise 2 exactly when some node of it is one of the five usage sentinels; 1 for
    every other error, and 0 for none. *)
Theorem exit_codes_classify_the_error_tree {V} `{Boxes V} (path : list (Command V)) known e :
  let code := snd (DefaultOnError path known (Some e)) in
  (code = 130 <-> forall l, leaf l e -> Canceled ∈ l) /\
  (code = 2 <-> ~ (forall l, leaf l e -> Canceled ∈ l) /\
                exists self s, node self e /\ s ∈ self /\ usage_sentinel s) /\
  (code = 130 \/ code = 2 \/ code = 1) /\
  snd (DefaultOnError path known None) = 0.
Proof.
  cbv zeta. rewrite <-onlyCanceled_leaves.
  assert (HU : (exists self s, node self e /\ s ∈ self /\ usage_sentinel s) <->
    error_is e ErrMissingSubcommand = true \/ usageError e = true).
  { unfold usageError. rewrite !orb_true_iff, !error_is_node. unfold usage_sentinel. naive_solver. }
  rewrite HU. cbn [DefaultOnError].
  destruct (onlyCanceled e), (error_is e ErrMissingSubcommand), (usageError e); cbn; naive_solver.
Qed.

(** ** Suggestions *)

Section Suggest.
Context {V : Type}.

Lemma closest_spec attempted cands best :
  let '(n, d) := closest attempted cands best in
  (d <= snd best)%nat /\ (forall v, v ∈ cands -> (d <= levenshtein attempted v)%nat) /\
  ((n, d) = best \/ n ∈ cands /\ d = levenshtein attempted n /\ (d < snd best)%nat).
Proof.
  revert best. induction cands as [|c cands IH]; intros best; cbn [closest].
  - destruct best as [n d]. cbn. split_and!; [lia| |by left]. intros v Hv. by apply not_elem_of_nil in Hv.
  - destruct (Nat.ltb_spec (levenshtein attempted c) (snd best)) as [Hlt|Hge].
    + specialize (IH (c, levenshtein attempted c)).
      destruct (closest attempted cands _) as [n d]. cbn [snd] in *. destruct IH as (H1 & H2 & H3).
      split; [lia|]. split.
      { intros v [->|Hv]%elem_of_cons; [lia|auto]. }
      right. destruct H3 as [[= -> ->]|(Hn & Hd & Hl)]; split_and!; try done; try lia; [left|by right].
    + specialize (IH best). destruct (closest attempted cands best) as [n d].
      destruct IH as (H1 & H2 & H3). split; [lia|]. split.
      { intros v [->|Hv]%elem_of_cons; [lia|auto]. }
      destruct H3 as [H3|(Hn & Hd & Hl)]; [by left|]. right. split_and!; try done. by right.
Qed.

(** The "did you mean" suggestion is a visible name or alias of the command that
    the fewest single-byte edits separate from what was typed, and there is one exactly
    when fewer edits than both four and the length typed are enough. *)
Theorem suggestion_is_the_closest_visible_name (c : Command V) attempted :
  let limit := (String.length attempted `min` 4)%nat in
  let best := suggestSub c attempted in
  let typed := String.list_ascii_of_string attempted in
  (best <> EmptyString <->
     exists v n, v ∈ visibleNames c /\ edits typed (String.list_ascii_of_string v) n /\ (n < limit)%nat) /\
  (best <> EmptyString ->
     best ∈ visibleNames c /\
     exists d, edits typed (String.list_ascii_of_string best) d /\
       forall v n, v ∈ visibleNames c -> edits typed (String.list_ascii_of_string v) n -> (d <= n)%nat).
Proof.
  cbv zeta. unfold suggestSub.
  set (limit := (String.length attempted `min` 4)%nat).
  pose proof (closest_spec attempted (visibleNames c) (EmptyString, limit)) as HC.
  destruct (closest _ _ _) as [n d]. cbn [fst snd] in *. destruct HC as (H1 & H2 & H3).
  assert (Hempty : (limit <= levenshtein attempted EmptyString)%nat).
  { rewrite levenshtein_empty. unfold limit. lia. }
  assert (Hmin : forall v m, v ∈ visibleNames c ->
    edits (String.list_ascii_of_string attempted) (String.list_ascii_of_string v) m -> (d <= m)%nat).
  { intros v m Hv Hm. apply levenshtein_minimal in Hm. specialize (H2 v Hv). lia. }
  destruct H3 as [[= -> ->]|(Hn & -> & Hl)].
  - split; [|done]. split; [done|]. intros (v & m & Hv & Hm & Hlt). specialize (Hmin v m Hv Hm). lia.
  - assert (Hne : n <> EmptyString) by (intros ->; lia). split; [|intros _; split; [done|]].
    + split; [intros _|done]. exists n, (levenshtein attempted n).
      split_and!; [done|apply levenshtein_attained|done].
    + exists (levenshtein attempted n). split; [apply levenshtein_attained|done].
Qed.
End Suggest.

(** ** Completion stands where the parser stands *)

Section Mirror.
Context {V : Type}.
Implicit Types (f : Flag V) (known : list (Flag V)) (st : scanState V) (w : pathWalk V).

(** Names and shorts that [lookupFlagToken] resolves as the parser does: a name does
    not begin with a dash, a short is a single byte. *)
Definition simple_flag f : Prop :=
  (forall s, f_name f <> String "-" s) /\ f_short f < 128.

Definition mirrors w st : Prop :=
  w = mkWalk (s_cmd st) (s_known st) (length (s_positional st)) None (s_started st) (s_locked st).

Lemma findFlagLong_name known name f : findFlagLong known name = Some f -> f ∈ known /\ f_name f = name.
Proof.
  induction known as [|g known IH]; [done|]. cbn [findFlagLong]. case_bool_decide as E.
  - intros [= <-]. split; [left|done].
  - intros H. destruct (IH H). split; [by right|done].
Qed.

Lemma findFlagShort_short known r f :
  findFlagShort known r = Some f -> f ∈ known /\ f_short f = r /\ r <> 0.
Proof.
  induction known as [|g known IH]; [done|]. cbn [findFlagShort].
  destruct (Z.eqb_spec (f_short g) r), (Z.eqb_spec r 0); simpl; intros H;
    try (destruct (IH H) as (? & ? & ?); split; [by right|done]).
  injection H as <-. split; [left|done].
Qed.

(** A single one-byte rune is a single byte. *)
Lemma runes_byte s r : runes s = [r] -> r < 128 -> exists a, s = String a EmptyString /\ runes s = [r].
Proof.
  intros H Hr. exists (ascii_of r). split; [|done]. revert H. unfold runes.
  destruct s as [|a s]; [done|]. cbn [String.length runes_fuel]. unfold decode_rune.
  pose proof (byte_of_range a). destruct (Z.ltb_spec (byte_of a) 128) as [Hlt|Hge].
  - destruct s; [|cbn [String.length runes_fuel]; by destruct (decode_rune _ _)].
    intros [= <-]. by rewrite ascii_of_byte_of.
  - unfold RuneError, is_cont, second_ok, payload. intros H0.
    repeat (case_match; simplify_eq/=); unfold is_cont, second_ok, payload, RuneError in *; zbool;
      exfalso; repeat match goal with
      | H : (if ?x then _ else _) = true |- _ => destruct x eqn:?; zbool
      end; lia.
Qed.

Lemma cut_dash tok : cut "=" (String "-" tok) = match cut "=" tok with
  | Some (l, r) => Some (String "-" l, r) | None => None end.
Proof. reflexivity. Qed.

Lemma trim_dashes_head a s : a <> "-"%char -> trim_dashes (String a s) = String a s.
Proof. intros H. cbn [trim_dashes]. by rewrite bool_decide_false. Qed.

(** Reading one flag token: what the parser consumes is what completion skips. *)
Lemma flag_token_agrees tok next known vs consumed vs' :
  isFlagToken tok = true -> (forall f, f ∈ known -> simple_flag f) ->
  applyFlagToken tok next known vs = Ok (consumed, vs') ->
  if contains_eq tok then consumed = false
  else exists f, lookupFlagToken known tok = Some f /\ consumed = negb (f_isBool f) /\
                 (consumed = true -> is_Some next).
Proof.
  intros Hft Hknown H. destruct tok as [|a tok]; [done|].
  assert (Ha : a = "-"%char).
  { destruct tok; [done|]. cbn in Hft. apply andb_true_iff in Hft as [Hft _].
    by apply bool_decide_eq_true in Hft. }
  subst a. unfold applyFlagToken in H.
  set (isLong := HasPrefix (String "-" tok) "--") in *.
  assert (HB : exists body, String.substring (if isLong then 2 else 1) (String.length (String "-" tok))
      (String "-" tok) = body /\ String "-" tok = (if isLong then "--" else "-") +:+ body).
  { subst isLong. unfold HasPrefix. cbn [CutPrefix]. rewrite bool_decide_true by done.
    destruct tok as [|b tok]; [exists EmptyString; split; reflexivity|]. cbn [CutPrefix]. case_bool_decide as Eb.
    - subst b. assert (EP : CutPrefix tok "" = Some tok) by by destruct tok. rewrite EP.
      exists tok. split; [|done]. cbn. by apply substring_all; lia.
    - exists (String b tok). split; [|done]. cbn. f_equal. by apply substring_all; lia. }
  destruct HB as (body & HB1 & HB2). rewrite HB1 in H.
  assert (HC : contains_eq (String "-" tok) = match cut "=" body with Some _ => true | None => false end).
  { unfold contains_eq. rewrite HB2. destruct isLong.
    - change ("--" +:+ body) with (String "-" (String "-" body)). rewrite !cut_dash.
      by destruct (cut "=" body) as [[]|].
    - change ("-" +:+ body) with (String "-" body). rewrite cut_dash.
      by destruct (cut "=" body) as [[]|]. }
  rewrite HC. unfold Cut in H. destruct (cut "=" body) as [[name val]|] eqn:EC.
  { destruct (resolveFlag isLong name known) as [f|]; [|done].
    by destruct (f_isBool f), (flagApplyString f vs val); simplify_eq/=. }
  destruct (resolveFlag isLong body known) as [f|] eqn:ER; [|done]. exists f.
  assert (HL : lookupFlagToken known (String "-" tok) = Some f).
  { unfold lookupFlagToken. fold isLong. unfold resolveFlag in ER. destruct isLong eqn:EL.
    - destruct (findFlagLong known body) as [g|] eqn:EF; [|done]. injection ER as ->.
      destruct (findFlagLong_name _ _ _ EF) as [Hf Hn]. destruct (Hknown f Hf) as [Hd _].
      rewrite HB2. change (trim_dashes ("--" +:+ body)) with (trim_dashes body).
      assert (HT : trim_dashes body = body).
      { destruct body as [|b body]; [done|]. apply trim_dashes_head. intros ->. by apply (Hd body). }
      rewrite HT, EC. done.
    - destruct (runes body) as [|r [|]] eqn:ERu; [done| |done].
      destruct (findFlagShort known r) as [g|] eqn:EF; [|done]. injection ER as ->.
      destruct (findFlagShort_short _ _ _ EF) as (Hf & Hn & _). destruct (Hknown f Hf) as [_ Hs].
      destruct (runes_byte body r ERu) as (b & -> & _); [lia|].
      rewrite HB2. change (trim_dashes ("-" +:+ String b "")) with (trim_dashes (String b "")).
      assert (HT : trim_dashes (String b "") = String b "").
      { apply trim_dashes_head. intros ->. cbn in HB2. injection HB2 as ->. done. }
      rewrite HT, EC. cbn [String.length Nat.eqb]. by rewrite ERu. }
  split; [done|]. destruct (f_isBool f).
  - by destruct (flagApplyString f vs "true"); simplify_eq/=.
  - destruct next as [next|]; [|done]. destruct (flagApplyString f vs next); simplify_eq/=. eauto.
Qed.

Lemma scan_known_grows st tokens f : f ∈ s_known st -> f ∈ s_known (fst (scan st tokens)).
Proof.
  intros H0. apply (scan_ind (fun st => f ∈ s_known st) (fun st _ => f ∈ s_known st)); [done| |done].
  clear. intros st tok rest Hf. unfold scan1.
  repeat (case_match; simplify_eq/=); try done. apply elem_of_app. by left.
Qed.

(** After [--] every token but another [--] fills a positional slot. *)
Lemma walk_literal w rest :
  w_positionalsStarted w = true -> w_positionalLocked w = true -> "--" ∉ rest ->
  walkFrom w rest =
  mkWalk (w_cmd w) (w_known w) (w_positionalCount w + length rest) (w_pendingFlag w) true true.
Proof.
  revert w. induction rest as [|tok rest IH]; intros w Hs Hl Hn.
  - destruct w; cbn in *. subst. by rewrite Nat.add_0_r.
  - apply not_elem_of_cons in Hn as [Htok Hn]. cbn [walkFrom].
    rewrite bool_decide_false, Hl, Hs by done. cbn [negb andb].
    rewrite IH by (done || (cbn; by rewrite Hl)). cbn. f_equal. lia.
Qed.

Definition separators (tokens : list string) : nat := length (filter (fun tok => tok = "--") tokens).

Lemma separators_none tokens : separators tokens = 0%nat -> "--" ∉ tokens.
Proof.
  unfold separators. intros H Hin. apply nil_length_inv in H.
  assert (Hf : "--" ∈ filter (fun tok => tok = "--") tokens) by by apply list_elem_of_filter.
  rewrite H in Hf. by apply not_elem_of_nil in Hf.
Qed.

Lemma separators_cons tok tokens : 
  separators (tok :: tokens) = ((if decide (tok = "--") then 1 else 0) + separators tokens)%nat.
Proof. unfold separators. rewrite filter_cons. by case_decide. Qed.

Lemma scan_walk tokens st st' w :
  scan st tokens = (st', ScanDone) -> (forall f, f ∈ s_known st' -> simple_flag f) ->
  (separators tokens <= 1)%nat -> mirrors w st ->
  let w' := walkFrom w tokens in
  w_cmd w' = s_cmd st' /\ w_known w' = s_known st' /\
  w_positionalCount w' = length (s_positional st') /\ w_pendingFlag w' = None /\
  ("--" ∉ tokens -> mirrors w' st').
Proof.
  remember (length tokens) as n eqn:Hlen. revert tokens Hlen st w.
  induction n as [n IH] using lt_wf_ind. intros [|tok rest] -> st w Hscan Hsimple Hsep ->.
  { injection Hscan as <-. done. }
  rewrite separators_cons in Hsep.
  assert (Hknown : forall f, f ∈ s_known st -> simple_flag f).
  { intros f Hf. apply Hsimple. pose proof (scan_known_grows st (tok :: rest) f Hf) as Hg.
    by rewrite Hscan in Hg. }
  cbv zeta. cbn [walkFrom w_cmd w_known w_positionalCount w_pendingFlag w_positionalsStarted
    w_positionalLocked]. cbn [scan] in Hscan. unfold scan1 in Hscan.
  case_bool_decide as E1.
  { subst tok. injection Hscan as <-. rewrite decide_True in Hsep by done.
    rewrite walk_literal by (try done; apply separators_none; lia). cbn. rewrite length_app.
    split_and!; try done; try lia. intros H. destruct H. left. }
  rewrite decide_False in Hsep by done.
  destruct (_ || bool_decide (tok = "-h")); [done|].
  destruct (_ && negb (bool_decide (Version (s_cmd st) = ""))); [done|].
  destruct (negb (s_locked st) && isFlagToken tok) eqn:EF.
  - apply andb_true_iff in EF as [_ EF].
    destruct (applyFlagToken tok (head rest) (s_known st) (s_values st)) as [[consumed vs]|] eqn:EA; [|done].
    pose proof (flag_token_agrees _ _ _ _ _ _ EF Hknown EA) as Hag.
    assert (Hnext : consumed = false -> scan (set_values st vs) rest = (st', ScanDone)).
    { intros ->. by destruct rest. }
    pose proof (fun (rest' : list string) (Hl : (length rest' < S (length rest))%nat)
      (Hs : (separators rest' <= 1)%nat) (Hsc : scan (set_values st vs) rest' = (st', ScanDone)) =>
      IH (length rest') Hl rest' eq_refl (set_values st vs) _ Hsc Hsimple Hs eq_refl) as Hcons.
    destruct (contains_eq tok).
    + rewrite not_elem_of_cons. destruct (Hcons rest) as (H1 & H2 & H3 & H4 & H5); auto; try lia.
      split_and!; try done. intros [_ Hn]. auto.
    + destruct Hag as (f & -> & Hc & Hsome). destruct (f_isBool f).
      * rewrite not_elem_of_cons. destruct (Hcons rest) as (H1 & H2 & H3 & H4 & H5); auto; try lia.
        split_and!; try done. intros [_ Hn]. auto.
      * subst consumed. destruct rest as [|next rest]; [by destruct (Hsome eq_refl)|].
        rewrite separators_cons in Hsep. rewrite !not_elem_of_cons. cbn [length] in *.
        destruct (Hcons rest) as (H1 & H2 & H3 & H4 & H5); auto; try lia.
        split_and!; try done. intros [_ [_ Hn]]. auto.
  - assert (Hpos : scan (add_positional st tok) rest = (st', ScanDone) ->
      let w' := walkFrom (walk_positional (mkWalk (s_cmd st) (s_known st) (length (s_positional st)) None
                            (s_started st) (s_locked st))) rest in
      w_cmd w' = s_cmd st' /\ w_known w' = s_known st' /\
      w_positionalCount w' = length (s_positional st') /\ w_pendingFlag w' = None /\
      ("--" ∉ rest -> mirrors w' st')).
    { intros Hsc. apply (IH (length rest)) with (st := add_positional st tok); auto; try lia.
      unfold mirrors, walk_positional. cbn. by rewrite length_app, Nat.add_1_r. }
    rewrite not_elem_of_cons. cbn [w_positionalsStarted].
    destruct (s_started st) eqn:ES.
    + assert (Hsc : scan (add_positional st tok) rest = (st', ScanDone)) by by destruct rest.
      destruct (Hpos Hsc) as (H1 & H2 & H3 & H4 & H5). split_and!; try done. intros [_ Hn]; auto.
    + destruct (findSub (s_cmd st) tok) as [sub|].
      * assert (Hsc : scan (descend st sub) rest = (st', ScanDone)) by by destruct rest.
        edestruct (IH (length rest)) with (st := descend st sub) as (H1 & H2 & H3 & H4 & H5);
          [simpl; lia|done|exact Hsc|done|lia|reflexivity|].
        cbn [descend s_cmd s_known s_positional s_started s_locked] in *. rewrite ES in *.
        split_and!; try done. intros [_ Hn]; auto.
      * destruct (groupingOnly (s_cmd st)); [done|].
        assert (Hsc : scan (add_positional st tok) rest = (st', ScanDone)) by by destruct rest.
        destruct (Hpos Hsc) as (H1 & H2 & H3 & H4 & H5). split_and!; try done. intros [_ Hn]; auto.
Qed.

(** Completion stands where the parser stands. When the parser accepts the words
    before the cursor, [walkPath] has reached the same command, the same visible flags
    and the same positional slot, with no flag value pending; without a [--] among
    them it also agrees on whether subcommands and flags may still follow. It asks that
    no visible flag has a name beginning with a dash or a multi-byte short, and that
    [--] occurs at most once. *)
Theorem completion_mirrors_the_parser root tokens st :
  scan (scan_init root) tokens = (st, ScanDone) ->
  (forall f, f ∈ s_known st -> simple_flag f) ->
  (separators tokens <= 1)%nat ->
  let w := walkPath root tokens in
  w_cmd w = s_cmd st /\ w_known w = s_known st /\
  w_positionalCount w = length (s_positional st) /\ w_pendingFlag w = None /\
  ("--" ∉ tokens -> w_positionalsStarted w = s_started st /\ w_positionalLocked w = s_locked st).
Proof.
  intros Hscan Hsimple Hsep.
  destruct (scan_walk tokens (scan_init root) st _ Hscan Hsimple Hsep eq_refl) as (H1 & H2 & H3 & H4 & H5).
  split_and!; try done. intros Hn. by rewrite (H5 Hn).
Qed.
End Mirror.
