(* ===== verification/CliRun.v ===== *)
(** A concrete command line, run through the parser: the hypotheses of the theorems
    of CliSpec.v, CliRoundTrip.v, CliPolicy.v and CliExecSpec.v hold together on it. *)

From S2P Require Import Prelude.
From S2P Require Import Strconv.
From S2P Require Import Strings.
From S2P Require Import EditDistance.
From S2P Require Import Cli.
From S2P Require Import CliSpec.
From S2P Require Import CliRoundTrip.
From S2P Require Import CliExec.
From S2P Require Import CliPolicy.
From S2P Require Import CliExecSpec.

Local Open Scope Z_scope.

(** tool [--verbose|-v] ; tool serve [--port N | -p N] [--tag T]... [--host H] <dir> [name] *)
Definition verbose : Flag Any := Short 118 (BoolFlag 1 "verbose").
Definition port : Flag Any :=
  Short 112 (Env "PORT" (Validate (fun v => match v with
    | AInt z => if (0 <? z) && (z <? 65536) then None else Some "out of range"
    | _ => None end) (Default (AInt 8080) (IntFlag 2 "port")))).
Definition tag : Flag Any := StringSliceFlag 3 "tag".
Definition host : Flag Any := Required (Env "HOST" (StringFlag 4 "host")).
Definition dir : Arg Any := arg_Required (StringArg 10 "dir").
Definition name : Arg Any := StringArg 11 "name".

Definition serve : Command Any :=
  mkCommand "serve" "serve a directory" EmptyString EmptyString EmptyString ["s"]
    [Some port; Some tag; Some host] [Some dir; Some name] [] []
    (Some (UserRun (fun ctx => ([Sprint (flag_Get port (ctx_values ctx))], None)))) [] false false.
Definition status : Command Any :=
  mkCommand "status" EmptyString EmptyString EmptyString EmptyString [] [] [] [] []
    (Some (UserRun (fun _ => ([], None)))) [] false false.
Definition tool : Command Any :=
  mkCommand "tool" EmptyString EmptyString "1.2" EmptyString [] [Some verbose] []
    [Some serve; Some status] [] None [] false false.

Definition getenv (s : string) : option string :=
  if bool_decide (s = "HOST") then Some "localhost" else None.

Example tool_declared : validateArgsDecl tool [] = None.
Proof. reflexivity. Qed.

(** tool -v serve --tag=a www -p 81 --tag b -- -x *)
Definition items : list (item Any) :=
  [IFlag (mkOcc verbose ShortBare "true"); ISub "serve"; IFlag (mkOcc tag LongInline "a"); IWord "www";
   IFlag (mkOcc port ShortNext "81"); IFlag (mkOcc tag LongNext "b")].

Example items_rendered :
  render items (Some ["-x"]) =
  ["-v"; "serve"; "--tag=a"; "www"; "-p"; "81"; "--tag"; "b"; "--"; "-x"].
Proof. reflexivity. Qed.

Ltac in_list := repeat first [apply elem_of_cons; left; reflexivity | apply elem_of_cons; right].

Lemma items_placed : well_placed tool (flags_of tool) false items.
Proof.
  apply wp_flag; [|done|].
  { split; [in_list|]. done. }
  apply wp_sub with (s := serve); [|done|].
  { unfold plain. cbn. naive_solver. }
  apply wp_flag; [|done|].
  { split; [in_list|]. done. }
  apply wp_word; [|done|].
  { unfold plain. cbn. naive_solver. }
  apply wp_flag; [|done|].
  { split; [in_list|]. done. }
  apply wp_flag; [|done|apply wp_nil].
  split; [in_list|]. done.
Qed.

Definition line_values : values Any :=
  <[2%nat := AInt 81]> (<[3%nat := AStrings ["a"; "b"]]> (<[1%nat := ABool true]> ∅)).
Definition final_values : values Any :=
  <[11%nat := AString "-x"]> (<[10%nat := AString "www"]> (<[4%nat := AString "localhost"]> line_values)).

Example items_values : applyAll (occs_in items) ∅ = Ok line_values.
Proof. reflexivity. Qed.

Lemma declaration_check_is_exact_witness :
  validateArgsDecl tool [] = None /\ (forall inh c, reaches tool inh c -> well_declared inh c).
Proof. split; [reflexivity|]. by apply (declaration_check_is_exact tool). Defined.

Definition words : list string := ["-v"; "serve"; "--tag=a"; "www"; "-p"; "81"; "--tag"; "b"; "--"; "-x"].
Definition parsed : ParseResult Any := mkParseResult serve [tool; serve] final_values false false.

Example words_parse : parseArgs tool words getenv = (parsed, [verbose; port; tag; host], None).
Proof. reflexivity. Qed.

Lemma ids_distinct : distinct_ids [verbose; port; tag; host] (args_of serve).
Proof. unfold distinct_ids. apply (bool_decide_unpack _). by vm_compute. Qed.

(** The host comes from the environment, the tags from the line. *)
Lemma items_known o : o ∈ occs_in items -> o_flag o ∈ [verbose; port; tag; host].
Proof.
  intros Ho. cbn in Ho. repeat (apply elem_of_cons in Ho as [->|Ho]; [in_list|]). by apply not_elem_of_nil in Ho.
Qed.

Lemma rendered_invocation_parses_back_witness :
  exists vs', parseArgs tool words getenv =
      (mkParseResult serve [tool; serve] vs' false false, [verbose; port; tag; host], None) /\
    vs' !! f_id port = Some (AInt 81) /\ vs' !! a_id name = Some (AString "-x").
Proof.
  destruct (rendered_invocation_parses_back tool items (Some ["-x"]) getenv line_values
    eq_refl items_placed eq_refl eq_refl ids_distinct items_known) as (vs' & e & HP & _ & Hv).
  change (parseArgs tool words getenv = (mkParseResult serve [tool; serve] vs' false false, [verbose; port; tag; host], e)) in HP.
  assert (He : e = None) by (rewrite words_parse in HP; congruence). subst e.
  destruct (Hv eq_refl) as [Hf Ha]. exists vs'. split; [exact HP|]. split.
  - destruct (Hf port) as (v & Ev & E); [in_list|]. rewrite E. f_equal. by injection Ev as <-.
  - assert (E : arg_value name None ["-x"] = Ok (vs' !! a_id name)) by (eapply Ha; [reflexivity|right; left]).
    injection E as E. symmetry. exact E.
Defined.

Lemma flag_values_by_precedence_witness :
  (exists v, f_parse host "localhost" = Ok v /\ flag_Lookup host final_values = (v, true)) /\
  (exists v, line_value tag ["a"; "b"] = Some (Ok v) /\ flag_Lookup tag final_values = (v, true)).
Proof.
  assert (Ho : forall o, o ∈ occs_in items -> o_flag o ∈ [verbose; port; tag; host]).
  { intros o Ho. cbn in Ho. repeat (apply elem_of_cons in Ho as [->|Ho]; [in_list|]).
    by apply not_elem_of_nil in Ho. }
  split.
  - exact (flag_values_by_precedence tool items (Some ["-x"]) getenv line_values parsed _ host
      eq_refl items_placed eq_refl words_parse eq_refl ids_distinct Ho ltac:(in_list)).
  - destruct (flag_values_by_precedence tool items (Some ["-x"]) getenv line_values parsed _ tag
      eq_refl items_placed eq_refl words_parse eq_refl ids_distinct Ho ltac:(in_list)) as (v & Hv & HL).
    exists v. split; [|exact HL]. by rewrite <-Hv.
Defined.

Lemma successful_parse_meets_the_declaration_witness :
  groupingOnly serve = false /\ flagPresent host final_values = true /\
  argPresent dir final_values = true.
Proof.
  destruct (successful_parse_meets_the_declaration tool words getenv parsed _ words_parse
    eq_refl eq_refl eq_refl ids_distinct) as (Hg & Hf & Ha).
  split; [exact Hg|]. split.
  - destruct (Hf host) as [Hr _]; [in_list|]. by destruct (Hr eq_refl).
  - destruct (Ha dir) as [Hr _]; [in_list|]. by apply Hr.
Defined.

(** Without HOST the required flag is missing: the usage exit code. *)
Lemma parse_failures_exit_by_kind_witness :
  exists res known e,
    parseArgs tool ["serve"; "www"] (fun _ => None) = (res, known, Some e) /\
    snd (DefaultOnError (r_path res) known (Some e)) = 2.
Proof.
  do 3 eexists. split; [reflexivity|].
  exact (parse_failures_exit_by_kind tool ["serve"; "www"] (fun _ => None) _ _ _ eq_refl).
Defined.

Lemma suggestion_is_the_closest_visible_name_witness :
  suggestSub tool "serv" = "serve" /\ "serve" ∈ visibleNames tool.
Proof.
  split; [reflexivity|].
  destruct (suggestion_is_the_closest_visible_name tool "serv") as [_ H]. by apply H.
Defined.

Definition typed : list string := ["serve"; "--tag"; "a"; "www"; "-p"; "81"].

Lemma completion_mirrors_the_parser_witness :
  exists st, scan (scan_init tool) typed = (st, ScanDone) /\
    w_positionalCount (walkPath tool typed) = 1%nat /\ w_cmd (walkPath tool typed) = serve.
Proof.
  eexists. split; [reflexivity|].
  destruct (completion_mirrors_the_parser tool typed _ eq_refl) as (H1 & _ & H3 & _).
  - intros f Hf. cbn in Hf. repeat (apply elem_of_cons in Hf as [->|Hf]; [split; [by intros s|cbn; lia]|]).
    by apply not_elem_of_nil in Hf.
  - by apply Nat.leb_le.
  - split; [exact H3|exact H1].
Defined.

(** ** Where completion and the parser part *)

(** A second [--] is a positional to the parser and nothing to completion. *)
Example second_separator_not_counted :
  length (s_positional (fst (scan (scan_init tool) ["serve"; "--"; "--"]))) = 1%nat /\
  w_positionalCount (walkPath tool ["serve"; "--"; "--"]) = 0%nat.
Proof. split; reflexivity. Qed.

(** A flag with a two-byte short takes its value for the parser, while completion
    counts that value as a positional. *)
Definition accented : Command Any :=
  mkCommand "tool" EmptyString EmptyString EmptyString EmptyString []
    [Some (Short 233 (StringFlag 1 "elan"))] [Some name] [] [] (Some (UserRun (fun _ => ([], None)))) []
    false false.
Definition e_acute : string := "-" +:+ encode_rune 233.

Example multibyte_short_not_resolved :
  snd (scan (scan_init accented) [e_acute; "v"]) = ScanDone /\
  s_positional (fst (scan (scan_init accented) [e_acute; "v"])) = [] /\
  w_positionalCount (walkPath accented [e_acute; "v"]) = 1%nat.
Proof. split_and!; reflexivity. Qed.
