(* ===== verification/Digraph.v ===== *)
(** Dependency graphs over numbered nodes: orders that put every node after what it
    needs, closed walks, and the two characterisations of a graph that can be ordered. *)

From S2P Require Import Prelude.

(** ** Adjacency lists *)

Definition deps_of (deps : list (list nat)) (i : nat) : list nat := default [] (deps !! i).

(** [i] needs [j]. *)
Definition dep (deps : list (list nat)) (i j : nat) : Prop := j ∈ deps_of deps i.

Definition in_range (n : nat) (deps : list (list nat)) : Prop :=
  forall i j, j ∈ deps_of deps i -> j < n.

(** ** Lists *)

(** The first place of [j] in the list, 0 when it is not there. *)
Definition index_in (j : nat) (l : list nat) : nat :=
  match list_find (fun v => v = j) l with Some (k, _) => k | None => 0 end.

Lemma index_in_first j l : j ∈ l -> exists l1 l2, l = l1 ++ j :: l2 /\ length l1 = index_in j l /\ j ∉ l1.
Proof.
  intros Hj. unfold index_in. destruct (list_find (fun v => v = j) l) as [[k v]|] eqn:EF.
  2:{ apply list_find_None in EF. rewrite Forall_forall in EF. by destruct (EF j Hj). }
  apply list_find_Some in EF as (Hk & -> & Hfirst). exists (take k l), (drop (S k) l).
  split_and!.
  - by rewrite take_drop_middle.
  - rewrite length_take. apply lookup_lt_Some in Hk. lia.
  - intros (i & Hi)%list_elem_of_lookup. apply lookup_take_Some in Hi as [Hi Hlt]. by eapply Hfirst.
Qed.

(** [j] comes before [i] in the list. *)
Definition before {A} (l : list A) (j i : A) : Prop := exists l1 l2 l3, l = l1 ++ j :: l2 ++ i :: l3.

Lemma before_trans {A} (l : list A) x y z : NoDup l -> before l x y -> before l y z -> before l x z.
Proof.
  intros Hd (l1 & l2 & l3 & E1) (k1 & k2 & k3 & E2).
  assert (E : (l1 ++ x :: l2) ++ y :: l3 = k1 ++ y :: k2 ++ z :: k3).
  { rewrite <-E2, E1, <-app_assoc. done. }
  assert (Hk : k1 = l1 ++ x :: l2 /\ k2 ++ z :: k3 = l3).
  { rewrite E1 in Hd. change (l1 ++ x :: l2 ++ y :: l3) with (l1 ++ (x :: l2) ++ y :: l3) in Hd.
    rewrite app_assoc in Hd. clear E1 E2. revert E Hd. generalize (l1 ++ x :: l2). intros p. revert k1.
    induction p as [|a p IH]; intros [|b k1] E Hd; cbn [app] in E, Hd.
    - injection E as ->. done.
    - injection E as -> ->. apply NoDup_cons in Hd as [Hn _]. destruct Hn.
      apply elem_of_app. right. left.
    - injection E as -> _. apply NoDup_cons in Hd as [Hn _]. destruct Hn.
      apply elem_of_app. right. left.
    - injection E as -> E. apply NoDup_cons in Hd as [_ Hd]. by destruct (IH k1 E Hd) as [-> ->]. }
  destruct Hk as [-> <-]. exists l1, (l2 ++ y :: k2), k3. rewrite E1, <-app_assoc. done.
Qed.

Lemma before_app_l {A} (l l' : list A) x y : before l x y -> before (l ++ l') x y.
Proof. intros (l1 & l2 & l3 & ->). exists l1, l2, (l3 ++ l'). by rewrite <-!app_assoc, <-!app_comm_cons, <-app_assoc. Qed.

Lemma before_app_r {A} (l l' : list A) x y : before l' x y -> before (l ++ l') x y.
Proof. intros (l1 & l2 & l3 & ->). exists (l ++ l1), l2, l3. by rewrite <-app_assoc. Qed.

Lemma before_app {A} (l l' : list A) x y : x ∈ l -> y ∈ l' -> before (l ++ l') x y.
Proof.
  intros (l1 & l2 & ->)%list_elem_of_split (k1 & k2 & ->)%list_elem_of_split.
  exists l1, (l2 ++ k1), k2. by rewrite <-!app_assoc.
Qed.

Lemma index_in_unique l1 x l2 : NoDup (l1 ++ x :: l2) -> index_in x (l1 ++ x :: l2) = length l1.
Proof.
  intros Hd. destruct (index_in_first x (l1 ++ x :: l2)) as (m1 & m2 & E2 & <- & _).
  { apply elem_of_app. right. left. }
  assert (H1 : (l1 ++ x :: l2) !! length l1 = Some x) by by apply list_lookup_middle.
  assert (H2 : (l1 ++ x :: l2) !! length m1 = Some x) by (rewrite E2; by apply list_lookup_middle).
  by apply (NoDup_lookup _ _ _ _ Hd H2 H1).
Qed.

Lemma before_index_lt l x y : NoDup l -> before l x y -> index_in y l < length l.
Proof.
  intros Hd (l1 & l2 & l3 & E). rewrite app_comm_cons, app_assoc in E. rewrite E in *.
  rewrite index_in_unique, !length_app by done. simpl. lia.
Qed.

Lemma before_index l x y : NoDup l -> before l x y -> index_in x l < index_in y l.
Proof.
  intros Hd (l1 & l2 & l3 & E).
  assert (E2 : l = (l1 ++ x :: l2) ++ y :: l3) by by rewrite E, <-app_assoc.
  assert (Hx : index_in x l = length l1) by (rewrite E in *; by apply index_in_unique).
  assert (Hy : index_in y l = length (l1 ++ x :: l2)) by (rewrite E2 in *; by apply index_in_unique).
  rewrite Hx, Hy, length_app. simpl. lia.
Qed.

Lemma NoDup_split_unique (l1 l2 k1 k2 : list nat) x :
  NoDup (l1 ++ x :: l2) -> l1 ++ x :: l2 = k1 ++ x :: k2 -> l1 = k1 /\ l2 = k2.
Proof.
  intros Hd E. pose proof (index_in_unique l1 x l2 Hd) as H1.
  assert (H2 : index_in x (l1 ++ x :: l2) = length k1).
  { rewrite E in *. by apply index_in_unique. }
  apply app_inj_1 in E as [-> E]; [by injection E as ->|congruence].
Qed.

Lemma before_total (l : list nat) x y : x ∈ l -> y ∈ l -> x <> y -> before l x y \/ before l y x.
Proof.
  intros (l1 & l2 & ->)%list_elem_of_split Hy Hne. rewrite elem_of_app, elem_of_cons in Hy.
  destruct Hy as [(k1 & k2 & ->)%list_elem_of_split|[->|(k1 & k2 & ->)%list_elem_of_split]]; [|done|].
  - right. exists k1, k2, l2. by rewrite <-app_assoc.
  - left. by exists l1, k1, k2.
Qed.

Lemma StronglySorted_before (R : nat -> nat -> Prop) l x y : StronglySorted R l -> before l x y -> R x y.
Proof.
  intros HS (l1 & l2 & l3 & ->). apply StronglySorted_app_1_r in HS. apply StronglySorted_inv in HS as [_ HF].
  rewrite Forall_forall in HF. apply HF. apply elem_of_app. right. left.
Qed.

(** ** Graphs *)

Section Graph.
Context (R : nat -> nat -> Prop).

(** Every element comes after what it needs. *)
Definition closed_in (l : list nat) : Prop :=
  forall l1 i l2, l = l1 ++ i :: l2 -> forall j, R i j -> j ∈ l1.

Lemma closed_in_snoc l i :
  closed_in l -> (forall j, R i j -> j ∈ l) -> closed_in (l ++ [i]).
Proof.
  intros Hl Hi l1 k l2 E j Hj. destruct l2 as [|x l2 _] using rev_ind.
  - apply app_inj_tail in E as [<- <-]. auto.
  - rewrite app_comm_cons, app_assoc in E. apply app_inj_tail in E as [E _]. by eapply Hl.
Qed.

Lemma closed_in_before l i j : closed_in l -> i ∈ l -> R i j -> before l j i.
Proof.
  intros Hl Hi Hj. apply list_elem_of_split in Hi as (l1 & l2 & ->).
  pose proof (Hl l1 i l2 eq_refl j Hj) as Hin. apply list_elem_of_split in Hin as (k1 & k2 & ->).
  exists k1, k2, l2. by rewrite <-app_assoc.
Qed.

(** Some numbering of the nodes goes up along the needs. *)
Definition acyclic_in : Prop :=
  exists rank : nat -> nat, forall i j, R i j -> rank j < rank i.

(** An order that has every needy node gives the numbering. *)
Lemma closed_in_acyclic fin :
  closed_in fin -> (forall i j, R i j -> i ∈ fin) -> acyclic_in.
Proof.
  intros HC Hall. exists (fun i => index_in i fin). intros i j Hj.
  destruct (index_in_first i fin (Hall i j Hj)) as (l1 & l2 & E & <- & _).
  pose proof (HC l1 i l2 E j Hj) as Hj1.
  assert (Hjf : j ∈ fin) by (rewrite E; apply elem_of_app; by left).
  destruct (index_in_first j fin Hjf) as (k1 & k2 & E2 & <- & Hn).
  apply list_elem_of_split in Hj1 as (m1 & m2 & ->). rewrite length_app. simpl.
  destruct (decide (length k1 <= length m1)) as [|Hgt]; [lia|]. exfalso. apply Hn.
  assert (Hl : fin !! length m1 = Some j).
  { rewrite E, <-app_assoc. by apply list_lookup_middle. }
  rewrite E2, lookup_app_l in Hl by lia. by apply list_elem_of_lookup_2 in Hl.
Qed.

(** Each element needs the next. *)
Definition path_in (l : list nat) : Prop :=
  forall l1 x y l2, l = l1 ++ x :: y :: l2 -> R x y.

(** A closed walk along the needs. *)
Definition cycle_in (c : list nat) : Prop :=
  path_in c /\ exists i mid, c = i :: mid ++ [i].

Lemma path_in_removelast l i : path_in (l ++ [i]) -> path_in l.
Proof. intros Hl l1 x y l2 ->. apply (Hl l1 x y (l2 ++ [i])). by rewrite <-app_assoc. Qed.

Lemma path_in_cons x y l : R x y -> path_in (y :: l) -> path_in (x :: y :: l).
Proof.
  intros Hxy Hl [|a l1] u v l2 E; simplify_eq/=; [done|]. by apply (Hl l1 u v l2).
Qed.

Lemma path_in_one x : path_in [x].
Proof. intros [|a [|b l1]] u v l2 E; simplify_eq/=. Qed.

Lemma cycle_in_not_acyclic c : cycle_in c -> ~ acyclic_in.
Proof.
  intros [Hp (i & mid & ->)] [rank Hr].
  assert (Hdec : forall l x, path_in (i :: l ++ [x]) -> rank x < rank i).
  { intros l. induction l as [|a l IH] using rev_ind; intros x Hpath.
    - apply Hr. by apply (Hpath [] i x []).
    - assert (Hax : R a x).
      { apply (Hpath (i :: l) a x []). cbn. by rewrite <-app_assoc. }
      apply Hr in Hax. assert (rank a < rank i); [|lia]. apply IH.
      apply (path_in_removelast _ x). cbn. done. }
  specialize (Hdec mid i Hp). lia.
Qed.

(** Finitely many nodes each of which one of them needs cannot be ordered. *)
Lemma sourceless_not_acyclic (l : list nat) :
  l <> [] -> (forall k, k ∈ l -> exists i, i ∈ l /\ R i k) -> ~ acyclic_in.
Proof.
  intros Hne Hs [rank Hr].
  assert (Hmax : exists k, k ∈ l /\ forall i, i ∈ l -> rank i <= rank k).
  { clear Hs Hr. induction l as [|x l IH]; [done|]. destruct (decide (l = [])) as [->|Hl].
    - exists x. split; [left|]. intros i ->%list_elem_of_singleton. lia.
    - destruct (IH Hl) as (k & Hk & Hm). destruct (decide (rank k <= rank x)).
      + exists x. split; [left|]. intros i [->|Hi]%elem_of_cons; [lia|]. specialize (Hm i Hi). lia.
      + exists k. split; [by right|]. intros i [->|Hi]%elem_of_cons; [lia|]. by apply Hm. }
  destruct Hmax as (k & Hk & Hm). destruct (Hs k Hk) as (i & Hi & HR).
  specialize (Hm i Hi). specialize (Hr i k HR). lia.
Qed.

(** An order that has what comes first earlier, in either direction. *)
Lemma before_acyclic (l : list nat) :
  NoDup l -> (forall i j, R i j -> before l i j) \/ (forall i j, R i j -> before l j i) -> acyclic_in.
Proof.
  intros Hd [HR|HR].
  - exists (fun i => length l - index_in i l). intros i j Hij%HR.
    pose proof (before_index l i j Hd Hij). pose proof (before_index_lt l i j Hd Hij). lia.
  - exists (fun i => index_in i l). intros i j Hij%HR. by apply before_index.
Qed.
End Graph.

Lemma path_in_mono (R R' : nat -> nat -> Prop) l :
  (forall i j, R i j -> R' i j) -> path_in R l -> path_in R' l.
Proof. intros H Hl l1 x y l2 E. by eapply H, Hl. Qed.

Lemma cycle_in_mono (R R' : nat -> nat -> Prop) c :
  (forall i j, R i j -> R' i j) -> cycle_in R c -> cycle_in R' c.
Proof. intros H [Hp Hc]. split; [|done]. by eapply path_in_mono. Qed.

Lemma acyclic_in_mono (R R' : nat -> nat -> Prop) :
  (forall i j, R' i j -> R i j) -> acyclic_in R -> acyclic_in R'.
Proof. intros H [rank Hr]. exists rank. auto. Qed.

(** ** The same for adjacency lists *)

Definition closed_order (deps : list (list nat)) : list nat -> Prop := closed_in (dep deps).
Definition acyclic (deps : list (list nat)) : Prop := acyclic_in (dep deps).
Definition is_path (deps : list (list nat)) : list nat -> Prop := path_in (dep deps).
Definition is_cycle (deps : list (list nat)) : list nat -> Prop := cycle_in (dep deps).

Lemma closed_snoc deps l i :
  closed_order deps l -> (forall j, j ∈ deps_of deps i -> j ∈ l) -> closed_order deps (l ++ [i]).
Proof. apply (closed_in_snoc (dep deps)). Qed.

Lemma closed_before deps l i j :
  closed_order deps l -> i ∈ l -> j ∈ deps_of deps i -> before l j i.
Proof. apply (closed_in_before (dep deps)). Qed.

Lemma deps_of_length deps i j : j ∈ deps_of deps i -> i < length deps.
Proof.
  unfold deps_of. destruct (deps !! i) eqn:E; [intros _|by intros ?%not_elem_of_nil].
  by apply lookup_lt_Some in E.
Qed.

Lemma closed_acyclic n deps fin :
  length deps = n -> closed_order deps fin -> (forall i, i < n -> i ∈ fin) -> acyclic deps.
Proof.
  intros Hlen HC Hall. apply (closed_in_acyclic _ fin HC).
  intros i j Hj%deps_of_length. apply Hall. lia.
Qed.
