(* ===== verification/CycleSearch.v ===== *)
(** The depth-first cycle search of the generator. The code writes it three times, over
    the data dependencies of a section (src/gen/validate.go) and over the requires= and
    the ordering edges of middleware (src/router/directive/ordering.go); the three differ
    only in the arcs they follow, so it is modelled once over the arcs of a node and the
    target of an arc.

    The state has the colors, the chain of nodes being visited and the path of arcs
    between them. A search of a graph of [n] nodes is never deeper than [n] visits, so
    that is the fuel. It finds a closed walk exactly when the searched part has one. *)

From S2P Require Import Prelude.
From S2P Require Import Digraph.

(** ** The search *)

Inductive Color := White | Gray | Black.

#[export] Instance Color_eq_dec : EqDecision Color.
Proof. solve_decision. Defined.

Record search {E : Type} := mkSearch {
  d_color : gmap nat Color;
  d_chain : list nat;
  d_path : list E;
  d_cycle : option (list nat * list E)
}.
Arguments search : clear implicits.

Definition color {E} (st : search E) (i : nat) : Color := default White (d_color st !! i).

Section Search.
Context {E : Type} (tgt : E -> nat) (arcs : nat -> list E).

(** A node is on the path from here on. *)
Definition push (st : search E) (e : E) : search E :=
  mkSearch E (d_color st) (d_chain st) (d_path st ++ [e]) (d_cycle st).
Definition pop (st : search E) : search E :=
  mkSearch E (d_color st) (d_chain st) (removelast (d_path st)) (d_cycle st).

(** Entering a node turns it gray and puts it on the chain; leaving it makes it black. *)
Definition entered (st : search E) (i : nat) : search E :=
  mkSearch E (<[i := Gray]> (d_color st)) (d_chain st ++ [i]) (d_path st) (d_cycle st).
Definition left_node (st : search E) (i : nat) : search E :=
  mkSearch E (<[i := Black]> (d_color st)) (removelast (d_chain st)) (d_path st) (d_cycle st).

(** An arc back into the chain closes a cycle: the chain from its target on. *)
Definition close (st : search E) (e : E) : search E :=
  let k := index_in (tgt e) (d_chain st) in
  mkSearch E (d_color st) (d_chain st) (d_path st)
    (Some (drop k (d_chain st) ++ [tgt e], drop k (d_path st) ++ [e])).

Fixpoint visit (fuel : nat) (i : nat) (st : search E) : bool * search E :=
  match fuel with
  | O => (false, st)
  | S fuel =>
      (fix loop (es : list E) (st : search E) : bool * search E :=
         match es with
         | [] => (false, left_node st i)
         | e :: es =>
             match color st (tgt e) with
             | Gray => (true, close st e)
             | White => match visit fuel (tgt e) (push st e) with
                        | (true, st) => (true, st)
                        | (false, st) => loop es (pop st)
                        end
             | Black => loop es st
             end
         end)
        (arcs i) (entered st i)
  end.

(** Each unvisited node in turn, until a cycle is found. *)
Fixpoint visitAll (fuel : nat) (nodes : list nat) (st : search E) : search E :=
  match nodes with
  | [] => st
  | i :: nodes =>
      match color st i with
      | White => match visit fuel i st with
                 | (true, st) => st
                 | (false, st) => visitAll fuel nodes st
                 end
      | _ => visitAll fuel nodes st
      end
  end.

(** The cycle found from [nodes] in a graph of [n] nodes: its nodes, the first repeated
    at the end, and its arcs. *)
Definition cycleFrom (n : nat) (nodes : list nat) : option (list nat * list E) :=
  d_cycle (visitAll n nodes (mkSearch E ∅ [] [] None)).

(** ** Walks *)

Definition arrow (i j : nat) : Prop := exists e, e ∈ arcs i /\ tgt e = j.

(** The arcs follow each other from node [x] on. *)
Fixpoint walk (x : nat) (es : list E) : Prop :=
  match es with [] => True | e :: es => e ∈ arcs x /\ walk (tgt e) es end.

(** Where they lead. *)
Definition stop (x : nat) (es : list E) : nat := default x (tgt <$> last es).

Lemma stop_snoc x es e : stop x (es ++ [e]) = tgt e.
Proof. unfold stop. by rewrite last_snoc. Qed.

Lemma stop_cons x e es : stop x (e :: es) = stop (tgt e) es.
Proof.
  unfold stop. destruct es as [|a es _] using rev_ind; [done|].
  by rewrite app_comm_cons, !last_snoc.
Qed.

Lemma walk_snoc x es e : walk x es -> e ∈ arcs (stop x es) -> walk x (es ++ [e]).
Proof.
  revert x. induction es as [|a es IH]; intros x; cbn; [done|].
  intros [Ha Hw] He. split; [done|]. apply IH; [done|]. by rewrite stop_cons in He.
Qed.

Lemma walk_removelast x es e : walk x (es ++ [e]) -> walk x es.
Proof. revert x. induction es as [|a es IH]; intros x; cbn; [done|]. intros [? ?]. eauto. Qed.

Lemma walk_path x es : walk x es -> path_in arrow (x :: (tgt <$> es)).
Proof.
  revert x. induction es as [|e es IH]; intros x; cbn [walk fmap list_fmap]; [intros _; apply path_in_one|].
  intros [He Hw]. apply path_in_cons; [by exists e|]. by apply IH.
Qed.

Lemma walk_drop x es k y :
  walk x es -> (x :: (tgt <$> es)) !! k = Some y ->
  walk y (drop k es) /\ stop y (drop k es) = stop x es /\
  drop k (x :: (tgt <$> es)) = y :: (tgt <$> drop k es).
Proof.
  revert x k. induction es as [|e es IH]; intros x [|k]; cbn; try naive_solver.
  intros [He Hw] Hk. rewrite stop_cons. by apply IH.
Qed.

(** A closed walk: its nodes and its arcs. *)
Definition closed_walk (ns : list nat) (es : list E) : Prop :=
  exists j, ns = j :: (tgt <$> es) /\ walk j es /\ stop j es = j /\ es <> [].

Lemma closed_walk_cycle ns es : closed_walk ns es -> cycle_in arrow ns.
Proof.
  intros (j & -> & Hw & Hs & Hn). split; [by apply walk_path|].
  destruct es as [|e es _] using rev_ind; [done|].
  rewrite fmap_app. exists j, (tgt <$> es). cbn. by rewrite <-(stop_snoc j es e), Hs.
Qed.

Lemma walk_within (P : nat -> Prop) x es :
  (forall e y, e ∈ arcs y -> P (tgt e)) -> walk x es -> Forall P (tgt <$> es).
Proof.
  intros HP. revert x. induction es as [|e es IH]; intros x; cbn; [constructor|].
  intros [He Hw]. constructor; [by eapply HP|]. by eapply IH.
Qed.

(** The nodes of a closed walk are all where some arc leads. *)
Lemma closed_walk_within (P : nat -> Prop) ns es :
  (forall e y, e ∈ arcs y -> P (tgt e)) -> closed_walk ns es -> Forall P ns.
Proof.
  intros HP (j & -> & Hw & Hs & Hn). pose proof (walk_within P j es HP Hw) as HF.
  constructor; [|done]. destruct es as [|e es _] using rev_ind; [done|].
  rewrite stop_snoc in Hs. subst j. rewrite fmap_app, Forall_app in HF. destruct HF as [_ HF].
  by inversion HF.
Qed.

(** ** The invariant *)

(** The chain is the nodes of the path. *)
Definition chain_of (st : search E) (i : nat) : Prop :=
  exists r, d_chain st ++ [i] = r :: (tgt <$> d_path st) /\ walk r (d_path st) /\ stop r (d_path st) = i.

Record search_inv (st : search E) : Prop := {
  si_nodup : NoDup (d_chain st);
  si_gray : forall x, color st x = Gray <-> x ∈ d_chain st;
  si_done : exists fin, (forall x, color st x = Black <-> x ∈ fin) /\ closed_in arrow fin
}.

Definition whites (n : nat) (st : search E) : list nat := filter (fun x => color st x = White) (seq 0 n).

Lemma color_insert m i c ch p cy x :
  color (mkSearch E (<[i := c]> m) ch p cy) x = if decide (x = i) then c else default White (m !! x).
Proof.
  unfold color. cbn. case_decide as Ex; [subst; by rewrite lookup_insert_eq|by rewrite lookup_insert_ne].
Qed.

Lemma color_entered st i x : color (entered st i) x = if decide (x = i) then Gray else color st x.
Proof. apply color_insert. Qed.

Lemma color_left st i x : color (left_node st i) x = if decide (x = i) then Black else color st x.
Proof. apply color_insert. Qed.

Lemma white_off_chain st i : search_inv st -> color st i = White -> i ∉ d_chain st.
Proof. intros I Hw Hin. apply (si_gray _ I) in Hin. congruence. Qed.

Lemma entered_inv st i : search_inv st -> color st i = White -> search_inv (entered st i).
Proof.
  intros I Hw. pose proof (white_off_chain _ _ I Hw) as Hi. constructor; cbn [d_chain entered].
  - apply NoDup_app. split_and!; [apply (si_nodup _ I)| |apply NoDup_singleton].
    intros x Hx ->%list_elem_of_singleton. done.
  - intros x. rewrite color_entered, elem_of_app, list_elem_of_singleton, <-(si_gray _ I).
    case_decide; naive_solver.
  - destruct (si_done _ I) as (fin & HF & HC). exists fin. split; [|done]. intros x.
    rewrite color_entered, <-HF. case_decide as Ex; [subst; rewrite Hw; naive_solver|done].
Qed.

Lemma entered_fewer_whites n st i :
  i < n -> color st i = White -> length (whites n (entered st i)) < length (whites n st).
Proof.
  intros Hi Hw. apply (filter_length_lt _ _ _ i); [|apply elem_of_seq; lia|done|].
  - intros y. rewrite color_entered. by case_decide.
  - rewrite color_entered, decide_True by done. done.
Qed.

(** Leaving a node, with all it leads to done. *)
Lemma left_inv st i st1 :
  search_inv st -> i ∉ d_chain st -> search_inv st1 -> d_chain st1 = d_chain st ++ [i] ->
  (forall j, arrow i j -> color st1 j = Black) -> search_inv (left_node st1 i).
Proof.
  intros I Hi I1 Hc Hd. constructor; cbn [d_chain left_node]; rewrite ?Hc, ?removelast_last.
  - apply (si_nodup _ I).
  - intros x. rewrite color_left. case_decide as Ex; [subst; naive_solver|].
    rewrite (si_gray _ I1), Hc, elem_of_app, list_elem_of_singleton. naive_solver.
  - destruct (si_done _ I1) as (fin & HF & HC). exists (fin ++ [i]). split.
    + intros x. rewrite color_left, elem_of_app, list_elem_of_singleton, <-HF.
      case_decide; naive_solver.
    + apply closed_in_snoc; [done|]. intros j Hj. by apply HF, Hd.
Qed.

(** What the search has done between two states. *)
Record search_ext (st st' : search E) : Prop := {
  se_cycle : d_cycle st' = d_cycle st;
  se_chain : d_chain st' = d_chain st;
  se_path : d_path st' = d_path st;
  se_black : forall x, color st x = Black -> color st' x = Black;
  se_white : forall x, color st' x = White -> color st x = White
}.

Definition visited (i : nat) (st : search E) (r : bool * search E) : Prop :=
  let '(found, st') := r in
  if found then exists ns es, d_cycle st' = Some (ns, es) /\ closed_walk ns es
  else search_inv st' /\ color st' i = Black /\ search_ext st st'.

Lemma close_cycle st i e :
  chain_of st i -> d_chain (entered st i) !! index_in (tgt e) (d_chain (entered st i)) = Some (tgt e) ->
  e ∈ arcs i ->
  let c := default ([], []) (d_cycle (close (entered st i) e)) in closed_walk c.1 c.2.
Proof.
  intros (r & Hch & Hw & Hs) Hk He. cbn in Hk |- *. rewrite Hch in Hk |- *.
  destruct (walk_drop _ _ _ _ Hw Hk) as (Hw' & Hs' & ->). exists (tgt e).
  rewrite fmap_app, stop_snoc. split_and!; [done| |done|by intros []%app_eq_nil].
  apply walk_snoc; [done|]. by rewrite Hs', Hs.
Qed.

Lemma index_in_lookup j l : j ∈ l -> l !! index_in j l = Some j.
Proof. intros (l1 & l2 & -> & <- & _)%index_in_first. by apply list_lookup_middle. Qed.

(** What a visit of a white node does. *)
Lemma visit_spec n fuel i st :
  (forall x y, arrow x y -> y < n) -> i < n -> search_inv st -> color st i = White -> chain_of st i ->
  length (whites n st) <= fuel -> visited i st (visit fuel i st).
Proof.
  intros Hrange. revert i st. induction fuel as [|fuel IH]; intros i st Hi I Hw Hch Hfuel;
    pose proof (entered_fewer_whites n st i Hi Hw) as Hfew; [lia|].
  cbn [visit]. pose proof (entered_inv st i I Hw) as I0.
  assert (E0 : search_ext (entered st i) (entered st i)) by by constructor.
  assert (Hsub : forall e, e ∈ arcs i -> e ∈ arcs i) by done.
  assert (Hcover : forall j, arrow i j -> (exists e, e ∈ arcs i /\ tgt e = j) \/ color (entered st i) j = Black) by (by left).
  assert (Hf0 : length (whites n (entered st i)) <= fuel) by lia.
  revert I0 E0 Hf0 Hcover. generalize (entered st i) at 1 3 4 5 6 as st0.
  revert Hsub. generalize (arcs i) at 1 3 4 as es.
  induction es as [|e es IHes]; intros Hsub st0 I0 E0 Hf0 Hcover.
  - pose proof (white_off_chain _ _ I Hw) as Hoff.
    assert (Hdone : forall j, arrow i j -> color st0 j = Black).
    { intros j Hj. destruct (Hcover j Hj) as [(e & H & _)|]; [by apply not_elem_of_nil in H|done]. }
    destruct E0 as [Ec Ech Ep Eb Ew]. split_and!.
    + by apply (left_inv st).
    + by rewrite color_left, decide_True.
    + constructor; cbn [left_node d_cycle d_chain d_path]; [done|by rewrite Ech; apply removelast_last|done|..].
      * intros x Hx. rewrite color_left. case_decide; [done|]. apply Eb. rewrite color_entered. by rewrite decide_False.
      * intros x. rewrite color_left. case_decide; [done|]. intros Hx%Ew. rewrite color_entered in Hx.
        by rewrite decide_False in Hx.
  - assert (He : e ∈ arcs i) by (apply Hsub; left).
    assert (Hsub' : forall k, k ∈ es -> k ∈ arcs i) by (intros k Hk; apply Hsub; by right).
    assert (Hj : arrow i (tgt e)) by by exists e.
    assert (Hcover' : forall st1 : search E, color st1 (tgt e) = Black -> (forall x, color st0 x = Black -> color st1 x = Black) ->
              forall j, arrow i j -> (exists e, e ∈ es /\ tgt e = j) \/ color st1 j = Black).
    { intros st1 Hb Hm j Hij. destruct (Hcover j Hij) as [(k & [->|Hk]%elem_of_cons & <-)|]; eauto. }
    destruct E0 as [Ec Ech Ep Eb Ew]. destruct (color st0 (tgt e)) eqn:EC.
    + specialize (IH (tgt e) (push st0 e) (Hrange _ _ Hj)).
      assert (Ip : search_inv (push st0 e)) by (destruct I0; by constructor).
      assert (Hchp : chain_of (push st0 e) (tgt e)).
      { destruct Hch as (r & Hr & Hwk & Hs). exists r.
        cbn [push d_chain d_path]. rewrite Ech, Ep, fmap_app, stop_snoc. cbn [d_chain entered d_path] in Hr |- *.
        rewrite Hr. split_and!; [done| |done]. apply walk_snoc; [done|]. by rewrite Hs. }
      specialize (IH Ip EC Hchp Hf0).
      destruct (visit fuel (tgt e) (push st0 e)) as [found st1] eqn:EV.
      destruct found; [done|]. destruct IH as (I1 & Hb1 & [E1 E2 E3 E4 E5]).
      apply (IHes Hsub' (pop st1)).
      * destruct I1; by constructor.
      * constructor; cbn [pop d_cycle d_chain d_path].
        -- by rewrite E1.
        -- by rewrite E2.
        -- rewrite E3. cbn [push d_path]. by rewrite removelast_last.
        -- intros x Hx. apply E4, Eb, Hx.
        -- intros x Hx. apply Ew, E5, Hx.
      * etrans; [|exact Hf0]. apply filter_length_le. exact E5.
      * apply Hcover'; [exact Hb1|exact E4].
    + pose proof (close_cycle st i e Hch) as HC.
      cbn in HC. eexists _, _. split; [cbn; rewrite Ech, Ep; done|]. apply HC; [|done].
      apply index_in_lookup. change (tgt e ∈ d_chain (entered st i)). rewrite <-Ech. by apply (si_gray _ I0).
    + apply (IHes Hsub' st0); auto. by constructor.
Qed.

Lemma visitAll_spec n nodes st :
  (forall x y, arrow x y -> y < n) -> (forall i, i ∈ nodes -> i < n) -> search_inv st -> d_chain st = [] ->
  d_path st = [] -> d_cycle st = None ->
  let st' := visitAll n nodes st in
  match d_cycle st' with
  | Some (ns, es) => closed_walk ns es
  | None => search_inv st' /\ (forall i, i ∈ nodes \/ color st i = Black -> color st' i = Black)
  end.
Proof.
  intros Hrange. revert st. induction nodes as [|i nodes IH]; intros st Hn I Hc Hp Hy.
  { cbn. rewrite Hy. split_and!; try done. intros i [Hi|]; [by apply not_elem_of_nil in Hi|done]. }
  cbn [visitAll]. cbv zeta in *.
  assert (Hn' : forall k, k ∈ nodes -> k < n) by (intros k Hk; apply Hn; by right).
  destruct (color st i) eqn:EC.
  - pose proof (visit_spec n n i st Hrange) as HV.
    assert (Hi : i < n) by (apply Hn; left).
    assert (Hch : chain_of st i) by (exists i; by rewrite Hc, Hp).
    assert (Hlen : length (whites n st) <= n).
    { unfold whites. etrans; [apply length_filter|]. by rewrite length_seq. }
    specialize (HV Hi I EC Hch Hlen). destruct (visit n i st) as [found st1] eqn:EV. destruct found.
    + destruct HV as (ns & es & -> & HC). done.
    + destruct HV as (I1 & Hb1 & [Hy1 Hc1 Hp1 Hmb _]).
      specialize (IH st1 Hn' I1). rewrite Hc1, Hp1, Hy1 in IH. specialize (IH Hc Hp Hy).
      destruct (d_cycle (visitAll n nodes st1)); [done|].
      destruct IH as (I2 & Hb2). split_and!; try done.
      intros k [[->|Hk]%elem_of_cons|Hk]; apply Hb2; auto.
  - apply (si_gray _ I) in EC. rewrite Hc in EC. by apply not_elem_of_nil in EC.
  - specialize (IH st Hn' I Hc Hp Hy). destruct (d_cycle (visitAll n nodes st)); [done|].
    destruct IH as (I2 & Hb2). split_and!; try done.
    intros k [[->|Hk]%elem_of_cons|Hk]; apply Hb2; auto.
Qed.

Lemma search_init_inv : search_inv (mkSearch E ∅ [] [] None).
Proof.
  assert (Hw : forall x c, color (mkSearch E ∅ [] [] None) x = c -> c = White).
  { intros x c <-. unfold color. cbn. by rewrite lookup_empty. }
  constructor; cbn; [constructor| |].
  - intros x. split; [intros H; by apply Hw in H|intros H; by apply not_elem_of_nil in H].
  - exists []. split; [|intros l1 i l2 El; by destruct l1]. intros x.
    split; [intros H; by apply Hw in H|intros H; by apply not_elem_of_nil in H].
Qed.

(** The search is exact on the arcs of the searched nodes. *)
Lemma cycleFrom_spec n nodes :
  (forall x y, arrow x y -> y < n) -> (forall i, i ∈ nodes -> i < n) ->
  match cycleFrom n nodes with
  | Some (ns, es) => closed_walk ns es
  | None => acyclic_in (fun x y => x ∈ nodes /\ arrow x y)
  end.
Proof.
  intros Hrange Hn. unfold cycleFrom.
  pose proof (visitAll_spec n nodes (mkSearch E ∅ [] [] None) Hrange Hn search_init_inv eq_refl eq_refl eq_refl) as HV.
  cbv zeta in HV. destruct (d_cycle _) as [[ns es]|]; [done|].
  destruct HV as (I & Hb). destruct (si_done _ I) as (fin & HF & HC).
  apply (closed_in_acyclic _ fin).
  - intros l1 i l2 El j [_ Hj]. by eapply HC.
  - intros i j [Hi _]. apply HF, Hb. by left.
Qed.
End Search.
