(* ===== verification/GenNode.v ===== *)
(** The abstract syntax of Go expressions and statements, as go/ast has it, and the
    generation nodes and dependencies of src/gen/node.go and graph.go. Optional children of
    the syntax are options, a nil [FieldList] is the empty list, and what no client reads
    (positions, literals' values, operators) is left out. *)

From S2P Require Import Prelude.

(** The token of an assignment or range clause: [:=] or another one. *)
Inductive AssignTok := DEFINE | ASSIGN.
Inductive DeclTok := VAR | CONST | TYPE | IMPORT.

Inductive Expr :=
| BadExpr
| Ident (name : string)
| BasicLit
| SelectorExpr (x : Expr) (sel : string)
| CompositeLit (type : option Expr) (elts : list Expr)
| FuncLit (params results : list Field) (body : list Stmt)
| CallExpr (fn : Expr) (args : list Expr)
| IndexExpr (x index : Expr)
| IndexListExpr (x : Expr) (indices : list Expr)
| StarExpr (x : Expr)
| UnaryExpr (x : Expr)
| BinaryExpr (x y : Expr)
| ParenExpr (x : Expr)
| TypeAssertExpr (x : Expr) (type : option Expr)
| SliceExpr (x : Expr) (low high max : option Expr)
| KeyValueExpr (key value : Expr)
| ArrayType (len : option Expr) (elt : Expr)
| MapType (key value : Expr)
| ChanType (value : Expr)
| FuncType (params results : list Field)
| StructType (fields : list Field)
| InterfaceType (methods : list Field)
| Ellipsis (elt : option Expr)
with Field := mkField (names : list string) (type : Expr)
with Stmt :=
| BlockStmt (l : list Stmt)
| AssignStmt (lhs : list Expr) (tok : AssignTok) (rhs : list Expr)
| DeclStmt (decl : DeclTok) (specs : list Spec)
| ExprStmt (x : Expr)
| ReturnStmt (results : list Expr)
| IfStmt (init : option Stmt) (cond : Expr) (body : Stmt) (els : option Stmt)
| ForStmt (init : option Stmt) (cond : option Expr) (post : option Stmt) (body : Stmt)
| RangeStmt (key value : option Expr) (tok : AssignTok) (x : Expr) (body : Stmt)
| SwitchStmt (init : option Stmt) (tag : option Expr) (body : Stmt)
| TypeSwitchStmt (init : option Stmt) (assign : Stmt) (clauses : list Stmt)
| SelectStmt (body : Stmt)
| CaseClause (l : list Expr) (body : list Stmt)
| CommClause (comm : option Stmt) (body : list Stmt)
| SendStmt (chan value : Expr)
| IncDecStmt (x : Expr)
| GoStmt (call : Expr)
| DeferStmt (call : Expr)
| LabeledStmt (label : string) (stmt : Stmt)
| BranchStmt
| EmptyStmt
| BadStmt
with Spec :=
| ValueSpec (names : list string) (type : option Expr) (values : list Expr)
| TypeSpec (name : string) (type : Expr)
| ImportSpec.

(** ** Generation nodes and their dependencies: src/gen/node.go and graph.go.

    A node is one emission of the generator; its dependencies are the variables its
    rendered expressions mention free, found by walking the parsed expressions with a
    stack of scopes. The Go parser is the argument [ParseExpr]. A node is a pointer in
    Go: its identity is [b_ptr]. *)

(** ** Nodes *)

Inductive Phase := PhaseConfig | PhaseSetup | PhaseWire | PhaseMiddleware | PhaseRegister.

#[export] Instance Phase_eq_dec : EqDecision Phase.
Proof. solve_decision. Defined.

(** [token.Position]; it is valid when its line is positive. *)
Record Position := { Filename : string; Line : Z; Column : Z }.
Definition IsValid (p : Position) : bool := (0 <? Line p)%Z.

#[export] Instance Position_eq_dec : EqDecision Position.
Proof. solve_decision. Defined.

Record Base := mkBase {
  b_ptr : nat;
  b_Directive : string;
  b_Pos : Position;
  b_Phase : Phase;
  b_Label : string;
  b_Uses : list string;
  b_Batch : string;
  b_Seq : Z;
  b_Group : string
}.

Inductive ErrStyle := ErrNone | ErrReturn | ErrInline.

#[export] Instance ErrStyle_eq_dec : EqDecision ErrStyle.
Proof. solve_decision. Defined.

(** [Type], graph-only metadata, is left out. *)
Record Call := mkCall {
  c_base : Base;
  c_Var : string;
  c_Fn : string;
  c_Args : list string;
  c_Err : ErrStyle;
  c_BindingName : string;
  c_Cleanup : string;
  c_ErrsPkg : string
}.

Inductive RouteKind := RouteMethod | RouteHandle | RouteHandleFunc.

Inductive Node :=
| NRaw (b : Base) (Lines Defines : list string) (Check_ : bool)
| NAssign (b : Base) (Var Expr_ : string)
| NCall (c : Call)
| NConfigLoad (b : Base) (Var Pkg Type_ Prefix : string) (Options : list string)
| NStructLit (b : Base) (Var Type_ : string) (Fields : list (string * string))
| NSelect (b : Base) (Var Iface KeyExpr FmtPkg : string) (Cases : list Case)
| NRoute (b : Base) (Router : string) (Kind : RouteKind) (Method Pattern Handler : string)
         (Chain : list string)
with Case := mkCase (Value : string) (Body : list Node) (Result : Call).

Definition base (n : Node) : Base :=
  match n with
  | NRaw b _ _ _ | NAssign b _ _ | NConfigLoad b _ _ _ _ _ | NStructLit b _ _ _
  | NSelect b _ _ _ _ _ | NRoute b _ _ _ _ _ _ => b
  | NCall c => c_base c
  end.

(** The variables a node introduces in the surrounding scope. *)
Definition defines (n : Node) : list string :=
  match n with
  | NRaw _ _ ds _ => ds
  | NAssign _ v _ => [v]
  | NCall c =>
      if bool_decide (c_Var c <> EmptyString) && bool_decide (c_Err c <> ErrInline)
      then if bool_decide (c_Cleanup c <> EmptyString) then [c_Var c; c_Cleanup c] else [c_Var c]
      else []
  | NConfigLoad _ v _ _ _ _ => [v]
  | NStructLit _ v _ _ => [v]
  | NSelect _ v _ _ _ _ => [v]
  | NRoute _ _ _ _ _ _ _ => []
  end.

Definition exprFields (n : Node) : list string :=
  match n with
  | NRaw _ _ _ _ => []
  | NAssign _ _ e => [e]
  | NCall c => c_Fn c :: c_Args c
  | NConfigLoad _ _ _ _ prefix opts =>
      if bool_decide (prefix <> EmptyString) then prefix :: opts else opts
  | NStructLit _ _ _ fields => snd <$> fields
  | NSelect _ _ _ key _ _ => [key]
  | NRoute _ router _ _ _ handler chain => router :: handler :: chain
  end.

(** ** Scopes *)

(** [scopeStack]: the innermost frame first. *)
Definition scope : Type := list (gset string).

Definition bind (name : string) (sc : scope) : scope :=
  match sc with
  | fr :: frs =>
      if bool_decide (name = EmptyString) || bool_decide (name = "_") then sc
      else ({[name]} ∪ fr) :: frs
  | [] => []
  end.

Definition bound (name : string) (sc : scope) : bool := existsb (fun fr => bool_decide (name ∈ fr)) sc.

Definition push (sc : scope) : scope := ∅ :: sc.
Definition pop (sc : scope) : scope := tail sc.

Definition bindFieldList (fl : list Field) (sc : scope) : scope :=
  fold_left (fun sc f => match f with mkField names _ => fold_left (fun sc n => bind n sc) names sc end)
    fl sc.

(** ** Walking expressions: the names passed to [add], in order *)

(** A statement's walk also gives the stack it leaves. *)
Definition walked : Type := list string * scope.

Definition seqw (a : walked) (k : scope -> walked) : walked :=
  let '(out, sc) := a in let '(out', sc') := k sc in (out ++ out', sc').

Definition popw (a : walked) : walked := let '(out, sc) := a in (out, pop sc).

Definition opt_names {A} (f : A -> list string) (o : option A) : list string :=
  match o with Some x => f x | None => [] end.

(** [:=] binds its identifiers; anything else on the left is walked. *)
Definition is_define (e : Expr) (tok : AssignTok) : option string :=
  match e, tok with Ident n, DEFINE => Some n | _, _ => None end.

(** An identifier key of a struct literal is a field name. *)
Definition skip_key (type : option Expr) (key : Expr) : bool :=
  match type, key with
  | Some (MapType _ _), _ | Some (ArrayType _ _), _ => false
  | _, Ident _ => true
  | _, _ => false
  end.

Fixpoint walkExpr (e : Expr) (sc : scope) {struct e} : list string :=
  let walkExprs := fix go (l : list Expr) : list string :=
    match l with [] => [] | e :: l => walkExpr e sc ++ go l end in
  let walkOpt (o : option Expr) : list string :=
    match o with Some e => walkExpr e sc | None => [] end in
  let walkTypes := fix go (l : list Field) : list string :=
    match l with [] => [] | mkField _ t :: l => walkExpr t sc ++ go l end in
  match e with
  | BadExpr | BasicLit => []
  | Ident n => if bound n sc then [] else [n]
  | SelectorExpr x _ => walkExpr x sc
  | CompositeLit type elts =>
      walkOpt type ++
      (fix go (l : list Expr) : list string :=
         match l with
         | [] => []
         | KeyValueExpr k v :: l =>
             (if skip_key type k then [] else walkExpr k sc) ++ walkExpr v sc ++ go l
         | e :: l => walkExpr e sc ++ go l
         end) elts
  | FuncLit params results body =>
      walkTypes params ++ walkTypes results ++
      fst ((fix go (l : list Stmt) (sc : scope) : walked :=
              match l with [] => ([], sc) | s :: l => seqw (walkStmt s sc) (go l) end)
             body (bindFieldList results (bindFieldList params (push sc))))
  | CallExpr fn args => walkExpr fn sc ++ walkExprs args
  | IndexExpr x i => walkExpr x sc ++ walkExpr i sc
  | IndexListExpr x l => walkExpr x sc ++ walkExprs l
  | StarExpr x | UnaryExpr x | ParenExpr x => walkExpr x sc
  | BinaryExpr x y => walkExpr x sc ++ walkExpr y sc
  | TypeAssertExpr x t => walkExpr x sc ++ walkOpt t
  | SliceExpr x l h m => walkExpr x sc ++ walkOpt l ++ walkOpt h ++ walkOpt m
  | KeyValueExpr k v => walkExpr k sc ++ walkExpr v sc
  | ArrayType l e => walkOpt l ++ walkExpr e sc
  | MapType k v => walkExpr k sc ++ walkExpr v sc
  | ChanType v => walkExpr v sc
  | FuncType p r => walkTypes p ++ walkTypes r
  | StructType fs => walkTypes fs
  | InterfaceType ms => walkTypes ms
  | Ellipsis o => walkOpt o
  end
with walkStmt (s : Stmt) (sc : scope) {struct s} : walked :=
  let walkExprs := fix go (l : list Expr) (sc : scope) : list string :=
    match l with [] => [] | e :: l => walkExpr e sc ++ go l sc end in
  let walkOptE (o : option Expr) (sc : scope) : list string :=
    match o with Some e => walkExpr e sc | None => [] end in
  let walkStmts := fix go (l : list Stmt) (sc : scope) : walked :=
    match l with [] => ([], sc) | s :: l => seqw (walkStmt s sc) (go l) end in
  let walkOptS (o : option Stmt) (sc : scope) : walked :=
    match o with Some s => walkStmt s sc | None => ([], sc) end in
  let assignTo := fix go (tok : AssignTok) (l : list Expr) (sc : scope) : walked :=
    match l with
    | [] => ([], sc)
    | e :: l =>
        match is_define e tok with
        | Some n => go tok l (bind n sc)
        | None => seqw (walkExpr e sc, sc) (go tok l)
        end
    end in
  let assignToOpt (tok : AssignTok) (o : option Expr) (sc : scope) : walked :=
    match o with
    | None => ([], sc)
    | Some e => match is_define e tok with
                | Some n => ([], bind n sc)
                | None => (walkExpr e sc, sc)
                end
    end in
  match s with
  | BlockStmt l => popw (walkStmts l (push sc))
  | AssignStmt lhs tok rhs => seqw (walkExprs rhs sc, sc) (assignTo tok lhs)
  | DeclStmt _ specs =>
      (fix go (l : list Spec) (sc : scope) : walked :=
         match l with
         | [] => ([], sc)
         | ValueSpec names type values :: l =>
             seqw (walkOptE type sc ++ walkExprs values sc,
                   fold_left (fun sc n => bind n sc) names sc) (go l)
         | TypeSpec name type :: l =>
             let sc := bind name sc in seqw (walkExpr type sc, sc) (go l)
         | ImportSpec :: l => go l sc
         end) specs sc
  | ExprStmt x => (walkExpr x sc, sc)
  | ReturnStmt l => (walkExprs l sc, sc)
  | IfStmt init cond body els =>
      popw (seqw (walkOptS init (push sc)) (fun sc =>
            seqw (walkExpr cond sc, sc) (fun sc =>
            seqw (walkStmt body sc) (walkOptS els))))
  | ForStmt init cond post body =>
      popw (seqw (walkOptS init (push sc)) (fun sc =>
            seqw (walkOptE cond sc, sc) (fun sc =>
            seqw (walkOptS post sc) (walkStmt body))))
  | RangeStmt key value tok x body =>
      popw (seqw (walkExpr x (push sc), push sc) (fun sc =>
            seqw (assignToOpt tok key sc) (fun sc =>
            seqw (assignToOpt tok value sc) (walkStmt body))))
  | SwitchStmt init tag body =>
      popw (seqw (walkOptS init (push sc)) (fun sc =>
            seqw (walkOptE tag sc, sc) (walkStmt body)))
  | TypeSwitchStmt init assign clauses =>
      let guard := match assign with
                   | AssignStmt (Ident n :: _) _ _ => n
                   | _ => EmptyString
                   end in
      popw (seqw (walkOptS init (push sc)) (fun sc =>
            seqw (match assign with
                  | AssignStmt _ _ rhs => walkExprs rhs sc
                  | ExprStmt x => walkExpr x sc
                  | _ => []
                  end, sc)
            ((fix go (l : list Stmt) (sc : scope) : walked :=
               match l with
               | [] => ([], sc)
               | CaseClause es body :: l =>
                   seqw (popw (seqw (walkExprs es (push sc), bind guard (push sc)) (walkStmts body))) (go l)
               | _ :: l => go l sc
               end) clauses)))
  | SelectStmt body => walkStmt body sc
  | CaseClause es body => popw (seqw (walkExprs es (push sc), push sc) (walkStmts body))
  | CommClause comm body => popw (seqw (walkOptS comm (push sc)) (walkStmts body))
  | SendStmt c v => (walkExpr c sc ++ walkExpr v sc, sc)
  | IncDecStmt x => (walkExpr x sc, sc)
  | GoStmt c | DeferStmt c => (walkExpr c sc, sc)
  | LabeledStmt _ s => walkStmt s sc
  | BranchStmt | EmptyStmt | BadStmt => ([], sc)
  end.

(** ** Dependencies *)

(** Keep the first occurrence of each element: the [seen] maps of the code. *)
Fixpoint firsts {A} `{EqDecision A} (seen l : list A) : list A :=
  match l with
  | [] => []
  | x :: l => if bool_decide (x ∈ seen) then firsts seen l else x :: firsts (x :: seen) l
  end.

Lemma elem_of_firsts {A} `{EqDecision A} (x : A) seen l : x ∈ firsts seen l <-> x ∈ l /\ x ∉ seen.
Proof.
  revert seen. induction l as [|y l IH]; intros seen; cbn [firsts].
  - split; [intros H; by apply not_elem_of_nil in H|intros [H _]; by apply not_elem_of_nil in H].
  - case_bool_decide as E.
    + rewrite IH, elem_of_cons. naive_solver.
    + rewrite !elem_of_cons, IH, not_elem_of_cons. destruct (decide (x = y)); naive_solver.
Qed.

Section Uses.
Context (ParseExpr : string -> option Expr).

(** An unparsable expression contributes nothing here; rendering rejects it. *)
Definition freeIdents (src : string) : list string :=
  match ParseExpr src with
  | Some e => walkExpr e []
  | None => []
  end.

(** [markOwn]: what a node and, for a selection, its branches define. *)
Fixpoint ownNames (n : Node) : list string :=
  defines n ++
  match n with
  | NSelect _ _ _ _ _ cases =>
      (fix go (l : list Case) : list string :=
         match l with
         | [] => []
         | mkCase _ body result :: l =>
             (fix gob (b : list Node) : list string :=
                match b with [] => [] | c :: b => ownNames c ++ gob b end) body
             ++ defines (NCall result) ++ go l
         end) cases
  | _ => []
  end.

(** [collect]: every name a node mentions, in the order of the code. *)
Definition mentionedHere (n : Node) : list string :=
  concat (freeIdents <$> exprFields n) ++ b_Uses (base n).

Fixpoint mentioned (n : Node) : list string :=
  mentionedHere n ++
  match n with
  | NSelect _ _ _ _ _ cases =>
      (fix go (l : list Case) : list string :=
         match l with
         | [] => []
         | mkCase _ body result :: l =>
             (fix gob (b : list Node) : list string :=
                match b with [] => [] | c :: b => mentioned c ++ gob b end) body
             ++ mentionedHere (NCall result) ++ go l
         end) cases
  | _ => []
  end.

(** [uses]: explicit dependencies, then the mentioned names the node does not define
    itself, among [vars]. *)
Definition uses (n : Node) (vars : list string) : list string :=
  firsts [] (filter (fun x => x ∈ vars)
    (b_Uses (base n) ++ filter (fun x => x ∉ ownNames n) (mentioned n))).

Lemma elem_of_uses x n vars :
  x ∈ uses n vars <-> x ∈ vars /\ (x ∈ b_Uses (base n) \/ x ∈ mentioned n /\ x ∉ ownNames n).
Proof.
  unfold uses. rewrite elem_of_firsts, list_elem_of_filter, elem_of_app, list_elem_of_filter.
  pose proof (not_elem_of_nil x). tauto.
Qed.
End Uses.
