(* ===== verification/GenLayout.v ===== *)
(** The order and grouping of the statements of one section: the layout of
    src/gen/render.go. Nodes are named by their index in the section; the affinity
    scores only choose among the nodes that are ready. [filepath.Dir] is the argument
    [dir]. *)

From S2P Require Import Prelude.
From S2P Require Import Order.
From S2P Require Import GenNode.
From S2P Require Import Digraph.

(** ** Affinity *)

Definition affGroup : Z := 100.
Definition affBatch : Z := 90.
Definition affExclusive : Z := 80.
Definition affSmallFan : Z := 60.
Definition affSharedCons : Z := 55.
Definition affDirective : Z := 50.
Definition affNearby : Z := 40.
Definition affSameFile : Z := 30.
Definition affSamePkg : Z := 25.
Definition affHub : Z := 15.
Definition affThreshold : Z := 40.
Definition layoutBlockMax : nat := 10.
Definition hubFanout : nat := 3.

Record phaseNode := mkPhaseNode { pn_n : Node; pn_emit : nat }.

(** [anchorLess]: source position, then emission index. *)
Definition anchorLess (a b : phaseNode) : bool :=
  let ap := b_Pos (base (pn_n a)) in
  let bp := b_Pos (base (pn_n b)) in
  if negb (Bool.eqb (IsValid ap) (IsValid bp)) then IsValid ap
  else if bool_decide (Filename ap <> Filename bp)
       then match cmp_string (Filename ap) (Filename bp) with Lt => true | _ => false end
  else if bool_decide (Line ap <> Line bp) then (Line ap <? Line bp)%Z
  else if bool_decide (Column ap <> Column bp) then (Column ap <? Column bp)%Z
  else (pn_emit a <? pn_emit b)%nat.

Section Layout.
Context (ParseExpr : string -> option Expr) (dir : string -> string).

Record layoutCtx := mkLayoutCtx {
  lc_universe : list Node;
  lc_vars : list string;
  lc_consumers : gmap string (list nat);
  lc_next : list (list nat)
}.

(** [lc.nodeIx]: the first place of the node in the universe. *)
Definition nodeIx (universe : list Node) (n : Node) : option nat :=
  fst <$> list_find (fun m => b_ptr (base m) = b_ptr (base n)) universe.

Definition consumersOf (lc : gmap string (list nat)) (v : string) : list nat := default [] (lc !! v).
Definition fanout (lc : gmap string (list nat)) (v : string) : nat := length (consumersOf lc v).

(** The loop that fills [consumers], node by node. *)
Fixpoint index_consumers (i : nat) (ns : list Node) (vars : list string)
    (m : gmap string (list nat)) : gmap string (list nat) :=
  match ns with
  | [] => m
  | n :: ns =>
      index_consumers (S i) ns vars
        (fold_left (fun m u => <[u := consumersOf m u ++ [i]]> m) (uses ParseExpr n vars) m)
  end.

Definition newLayoutCtx (universe : list Node) : layoutCtx :=
  let vars := concat (defines <$> universe) in
  let consumers := index_consumers 0 universe vars ∅ in
  let next := imap (fun i n =>
    if bool_decide (nodeIx universe n = Some i)
    then firsts [] (concat ((fun d => if (hubFanout <? fanout consumers d)%nat then []
                                      else consumersOf consumers d) <$> defines n))
    else []) universe in
  mkLayoutCtx universe vars consumers next.

(** [lc.roots], the memo of [featureRoots]: it is read and filled as the layout goes. *)
Definition memo : Type := gmap nat (gset nat).

(** The entry for [i] exists before its children are visited, which is what breaks
    cycles: a node met again contributes what it has found so far. *)
Fixpoint featureRoots (fuel : nat) (lc : layoutCtx) (i : nat) (m : memo) : gset nat * memo :=
  match fuel with
  | O => (∅, m)
  | S fuel =>
      match m !! i with
      | Some out => (out, m)
      | None =>
          match lc_next lc !! i with
          | Some ((_ :: _) as cs) =>
              let m := fold_left (fun m c =>
                let '(rs, m) := featureRoots fuel lc c m in
                <[i := default ∅ (m !! i) ∪ rs]> m) cs (<[i := ∅]> m) in
              let out := default ∅ (m !! i) in
              if bool_decide (out = ∅) then ({[i]}, <[i := {[i]}]> m) else (out, m)
          | _ => ({[i]}, <[i := {[i]}]> m)
          end
      end
  end.

Definition roots_of (lc : layoutCtx) (i : nat) (m : memo) : gset nat * memo :=
  featureRoots (S (length (lc_universe lc))) lc i m.

(** [producerConsumer]: the first exclusive edge decides, else the best score. *)
Fixpoint edge_scores (fans : list nat) (best : Z) : Z :=
  match fans with
  | [] => best
  | f :: fans =>
      if (f =? 1)%nat then affExclusive
      else if (f <=? hubFanout)%nat then edge_scores fans (Z.max affSmallFan best)
      else edge_scores fans (Z.max affHub best)
  end.

Definition producerConsumer (lc : layoutCtx) (producer consumer : Node) : Z :=
  match nodeIx (lc_universe lc) consumer with
  | None => 0%Z
  | Some ci =>
      edge_scores
        (concat ((fun d => (fun _ => fanout (lc_consumers lc) d) <$>
                          filter (fun u => u = ci) (consumersOf (lc_consumers lc) d))
                 <$> defines producer)) 0
  end.

Definition sharedConsumer (lc : layoutCtx) (a b : Node) (m : memo) : Z * memo :=
  match nodeIx (lc_universe lc) a, nodeIx (lc_universe lc) b with
  | Some ai, Some bi =>
      match lc_next lc !! ai, lc_next lc !! bi with
      | Some [], Some [] => (0%Z, m)
      | _, _ =>
          let '(ar, m) := roots_of lc ai m in
          let '(br, m) := roots_of lc bi m in
          (if bool_decide (br ∩ ar ∖ {[ai; bi]} = ∅) then 0%Z else affSharedCons, m)
      end
  | _, _ => (0%Z, m)
  end.

Definition affinity (lc : layoutCtx) (a b : Node) (m : memo) : Z * memo :=
  let ab := base a in
  let bb := base b in
  if bool_decide (b_Group ab <> EmptyString /\ b_Group ab = b_Group bb) then (affGroup, m)
  else if bool_decide (b_Batch ab <> EmptyString /\ b_Batch ab = b_Batch bb) then (affBatch, m)
  else
    let best := Z.max (producerConsumer lc b a) (Z.max (producerConsumer lc a b) 0) in
    let '(best, m) :=
      if (best <? affSharedCons)%Z
      then let '(s, m) := sharedConsumer lc a b m in (Z.max s best, m)
      else (best, m) in
    let best :=
      if (best <? affDirective)%Z && IsValid (b_Pos ab) && bool_decide (b_Directive ab <> EmptyString) &&
         bool_decide (b_Directive ab = b_Directive bb) && bool_decide (b_Pos ab = b_Pos bb)
      then affDirective else best in
    let best :=
      if (best <? affNearby)%Z && IsValid (b_Pos ab) && IsValid (b_Pos bb) then
        if bool_decide (Filename (b_Pos ab) = Filename (b_Pos bb)) then
          Z.max (if (Z.abs (Line (b_Pos ab) - Line (b_Pos bb)) <=? 10)%Z then affNearby else affSameFile) best
        else if bool_decide (dir (Filename (b_Pos ab)) = dir (Filename (b_Pos bb))) && (best <? affSamePkg)%Z
             then affSamePkg else best
      else best in
    (best, m).

(** ** Constraints among the nodes of a section *)

(** [owner]: the last node of the section that defines the variable. *)
Definition owners (nodes : list phaseNode) : gmap string nat :=
  fold_left (fun m '(i, pn) => fold_left (fun m d => <[d := i]> m) (defines (pn_n pn)) m)
    (imap pair nodes) ∅.

Definition dataDeps (nodes : list phaseNode) : list (list nat) :=
  let owner := owners nodes in
  let vars := (map_to_list owner).*1 in
  imap (fun i pn => omap (fun u => match owner !! u with
                                   | Some j => if (j =? i)%nat then None else Some j
                                   | None => None end) (uses ParseExpr (pn_n pn) vars)) nodes.

Definition seq_of (nodes : list phaseNode) (i : nat) : Z :=
  match nodes !! i with Some pn => b_Seq (base (pn_n pn)) | None => 0%Z end.

(** The members of a batch, stably sorted by sequence number. *)
Definition batchMembers (nodes : list phaseNode) (b : string) : list nat :=
  sort_by (cmp_then (cmp_on (seq_of nodes) cmp_Z) (cmp_on Z.of_nat cmp_Z))
    (filter (fun i => (fun pn => b_Batch (base (pn_n pn))) <$> nodes !! i = Some b) (seq 0 (length nodes))).

Fixpoint predecessor (i : nat) (l : list nat) : list nat :=
  match l with
  | j :: ((k :: _) as l) => if (k =? i)%nat then [j] else predecessor i l
  | _ => []
  end.

Definition batchDeps (nodes : list phaseNode) (i : nat) : list nat :=
  match nodes !! i with
  | Some pn =>
      let b := b_Batch (base (pn_n pn)) in
      if bool_decide (b = EmptyString) then [] else predecessor i (batchMembers nodes b)
  | None => []
  end.

Definition layoutDeps (nodes : list phaseNode) : list (list nat) :=
  imap (fun i ds => ds ++ batchDeps nodes i) (dataDeps nodes).

(** ** The loop *)

Definition readyNodes (n : nat) (deps : list (list nat)) (emitted : gset nat) : list nat :=
  let ready := filter (fun i => i ∉ emitted /\ Forall (fun j => j ∈ emitted) (deps_of deps i)) (seq 0 n) in
  match ready with
  | [] => match filter (fun i => i ∉ emitted) (seq 0 n) with i :: _ => [i] | [] => [] end
  | _ => ready
  end.

Definition less (nodes : list phaseNode) (i j : nat) : bool :=
  match nodes !! i, nodes !! j with Some a, Some b => anchorLess a b | _, _ => false end.

Definition affinity_ix (lc : layoutCtx) (nodes : list phaseNode) (i j : nat) (m : memo) : Z * memo :=
  match nodes !! i, nodes !! j with
  | Some a, Some b => affinity lc (pn_n a) (pn_n b) m
  | _, _ => (0%Z, m)
  end.

(** The best affinity of a candidate to the current block. *)
Fixpoint block_affinity (lc : layoutCtx) (nodes : list phaseNode) (i : nat) (block : list nat)
    (aff : Z) (m : memo) : Z * memo :=
  match block with
  | [] => (aff, m)
  | j :: block =>
      let '(a, m) := affinity_ix lc nodes i j m in
      block_affinity lc nodes i block (Z.max a aff) m
  end.

Fixpoint pickAffine (lc : layoutCtx) (nodes : list phaseNode) (block ready : list nat)
    (pick : option nat) (bestAff : Z) (m : memo) : option nat * memo :=
  match ready with
  | [] => (pick, m)
  | i :: ready =>
      let '(aff, m) := block_affinity lc nodes i block 0 m in
      let better :=
        match pick with
        | None => true
        | Some p => (bestAff <? aff)%Z || (aff =? bestAff)%Z && less nodes i p
        end in
      if (aff <? affThreshold)%Z then pickAffine lc nodes block ready pick bestAff m
      else if better then pickAffine lc nodes block ready (Some i) aff m
           else pickAffine lc nodes block ready pick bestAff m
  end.

Fixpoint pickAnchor (nodes : list phaseNode) (ready : list nat) (pick : option nat) : option nat :=
  match ready with
  | [] => pick
  | i :: ready =>
      pickAnchor nodes ready
        (match pick with
         | None => Some i
         | Some p => if less nodes i p then Some i else Some p
         end)
  end.

(** [remaining] counts down; [blocks] are finished and [block] is open. *)
Fixpoint layoutLoop (remaining : nat) (lc : layoutCtx) (nodes : list phaseNode) (deps : list (list nat))
    (emitted : gset nat) (blocks : list (list nat)) (block : list nat) (m : memo)
    : list (list nat) * memo :=
  match remaining with
  | O => (if bool_decide (block = []) then blocks else blocks ++ [block], m)
  | S remaining =>
      let ready := readyNodes (length nodes) deps emitted in
      let '(pick, m) :=
        if negb (bool_decide (block = [])) && (length block <? layoutBlockMax)%nat
        then pickAffine lc nodes block ready None 0 m else (None, m) in
      match pick with
      | Some i => layoutLoop remaining lc nodes deps ({[i]} ∪ emitted) blocks (block ++ [i]) m
      | None =>
          let blocks := if bool_decide (block = []) then blocks else blocks ++ [block] in
          match pickAnchor nodes ready None with
          | Some i => layoutLoop remaining lc nodes deps ({[i]} ∪ emitted) blocks [i] m
          | None => (blocks, m)
          end
      end
  end.

(** The blocks, as indices into the section, and the memo for the next section. *)
Definition layout (lc : layoutCtx) (nodes : list phaseNode) (m : memo) : list (list nat) * memo :=
  layoutLoop (length nodes) lc nodes (layoutDeps nodes) ∅ [] [] m.

(** [emitPhaseNodes]: the statements of a flow, section by section in phase order. *)
Definition phaseLabels : list Phase :=
  [PhaseConfig; PhaseSetup; PhaseWire; PhaseMiddleware; PhaseRegister].

Definition phaseNodes (allNodes : list Node) (p : Phase) : list phaseNode :=
  filter (fun pn => b_Phase (base (pn_n pn)) = p) (imap (fun i n => mkPhaseNode n i) allNodes).

Fixpoint emitSections (lc : layoutCtx) (allNodes : list Node) (phases : list Phase) (m : memo)
    : list (Phase * list (list Node)) :=
  match phases with
  | [] => []
  | p :: phases =>
      let nodes := phaseNodes allNodes p in
      match nodes with
      | [] => emitSections lc allNodes phases m
      | _ =>
          let '(blocks, m) := layout lc nodes m in
          (p, (fun b : list nat => omap (fun i => pn_n <$> nodes !! i) b) <$> blocks) :: emitSections lc allNodes phases m
      end
  end.

Definition emitPhaseNodes (allNodes : list Node) : list (Phase * list (list Node)) :=
  emitSections (newLayoutCtx allNodes) allNodes phaseLabels ∅.

End Layout.
