(* ===== verification/GenLayoutSpec.v ===== *)
(** The layout of GenLayout.v is a valid order of the section's nodes: nothing is
    lost or repeated, blocks stay small, variables are defined before they are used and
    batches keep their sequence, whenever those constraints can be met at all. *)

From S2P Require Import Prelude.
From S2P Require Import Order.
From S2P Require Import GenNode.
From S2P Require Import Digraph.
From S2P Require Import GenLayout.

(** ** Picking *)

Section Spec.
Context (ParseExpr : string -> option Expr) (dir : string -> string).

Lemma pickAffine_in lc nodes block ready pick bestAff m i m' :
  pickAffine dir lc nodes block ready pick bestAff m = (Some i, m') ->
  i ∈ ready \/ pick = Some i.
Proof.
  revert pick bestAff m. induction ready as [|r ready IH]; intros pick bestAff m; cbn [pickAffine].
  { intros [= -> _]. by right. }
  destruct (block_affinity _ _ _ _ _ _ _) as [aff m1].
  match goal with |- context [if ?b then pickAffine _ _ _ _ _ (Some r) _ _ else _] => destruct b end;
    destruct (aff <? affThreshold)%Z; intros H; apply IH in H as [H|H];
    try (by right); try (left; by right). simplify_eq. left. left.
Qed.

Lemma pickAnchor_in nodes ready pick i :
  pickAnchor nodes ready pick = Some i -> i ∈ ready \/ pick = Some i.
Proof.
  revert pick. induction ready as [|r ready IH]; intros pick; cbn [pickAnchor]; [by right|].
  intros H. apply IH in H as [H|H]; [left; by right|].
  destruct pick as [p|]; [destruct (less nodes r p)|]; simplify_eq; auto; left; left.
Qed.

Lemma pickAnchor_some nodes ready pick :
  ready <> [] \/ is_Some pick -> is_Some (pickAnchor nodes ready pick).
Proof.
  revert pick. induction ready as [|r ready IH]; intros pick; cbn [pickAnchor]; [by intros [[]|]|].
  intros _. apply IH. right. destruct pick as [p|]; [destruct (less nodes r p)|]; eauto.
Qed.

Lemma readyNodes_in n deps emitted i :
  i ∈ readyNodes n deps emitted -> i < n /\ i ∉ emitted.
Proof.
  unfold readyNodes. intros H.
  destruct (filter _ (seq 0 n)) as [|r rs] eqn:E in H.
  - destruct (filter (fun i => i ∉ emitted) (seq 0 n)) as [|k ks] eqn:E2 in H.
    { by apply not_elem_of_nil in H. }
    apply list_elem_of_singleton in H as ->.
    assert (Hk : k ∈ filter (fun i => i ∉ emitted) (seq 0 n)) by (rewrite E2; left).
    apply list_elem_of_filter in Hk as [Hk ?%elem_of_seq]. split; [lia|done].
  - rewrite <-E in H. apply list_elem_of_filter in H as [[Hk _] ?%elem_of_seq]. split; [lia|done].
Qed.

(** While something is left to emit, a node is ready; under meetable constraints its
    dependencies are all out. *)
Lemma readyNodes_some n deps emitted k :
  k < n -> k ∉ emitted -> readyNodes n deps emitted <> [].
Proof.
  intros Hk Hn. unfold readyNodes. destruct (filter _ (seq 0 n)); [|done].
  assert (Hin : k ∈ filter (fun i => i ∉ emitted) (seq 0 n)).
  { apply list_elem_of_filter. split; [done|]. apply elem_of_seq. lia. }
  destruct (filter _ (seq 0 n)); [|done]. by apply not_elem_of_nil in Hin.
Qed.

Lemma least_unemitted (rank : nat -> nat) n (emitted : gset nat) k :
  k < n -> k ∉ emitted ->
  exists i, i < n /\ i ∉ emitted /\ forall j, j < n -> j ∉ emitted -> rank i <= rank j.
Proof.
  remember (rank k) as r eqn:Er. revert k Er. induction r as [r IH] using lt_wf_ind. intros k -> Hk Hn.
  destruct (decide (Exists (fun j => j ∉ emitted /\ rank j < rank k) (seq 0 n))) as [Hex|Hex].
  - apply Exists_exists in Hex as (j & ?%elem_of_seq & Hj & Hr). eapply (IH (rank j)); eauto. lia.
  - exists k. split_and!; [done..|]. intros j Hj Hjn. apply not_Exists_Forall in Hex; [|apply _].
    rewrite Forall_forall in Hex. assert (Hin : j ∈ seq 0 n) by (apply elem_of_seq; lia).
    specialize (Hex j Hin). cbn in Hex. destruct (decide (rank j < rank k)); [tauto|lia].
Qed.

Lemma readyNodes_closed n deps emitted i :
  acyclic deps -> in_range n deps -> i ∈ readyNodes n deps emitted ->
  forall j, j ∈ deps_of deps i -> j ∈ emitted.
Proof.
  intros [rank Hrank] Hrange Hi j Hj. destruct (readyNodes_in _ _ _ _ Hi) as [Hlt Hnot].
  unfold readyNodes in Hi. destruct (filter _ (seq 0 n)) as [|r rs] eqn:E in Hi.
  - exfalso. destruct (least_unemitted rank n emitted i Hlt Hnot) as (k & Hk & Hkn & Hmin).
    assert (Hin : k ∈ filter (fun i => i ∉ emitted /\ Forall (fun j => j ∈ emitted) (deps_of deps i)) (seq 0 n)).
    { apply list_elem_of_filter. split; [|apply elem_of_seq; lia]. split; [done|].
      apply Forall_forall. intros x Hx. destruct (decide (x ∈ emitted)) as [|Hxe]; [done|].
      specialize (Hmin x (Hrange _ _ Hx) Hxe). specialize (Hrank _ _ Hx). lia. }
    rewrite E in Hin. by apply not_elem_of_nil in Hin.
  - rewrite <-E in Hi. apply list_elem_of_filter in Hi as [[_ Hall] _].
    rewrite Forall_forall in Hall. auto.
Qed.

(** ** The loop *)

Definition block_ok (b : list nat) : Prop := b <> [] /\ length b <= layoutBlockMax.

Lemma full_permutation n (l : list nat) :
  NoDup l -> (forall x, x ∈ l -> x < n) -> length l = n -> l ≡ₚ seq 0 n.
Proof.
  intros Hd Hlt Hlen. apply submseteq_length_Permutation.
  - apply NoDup_submseteq; [done|]. intros x Hx. apply elem_of_seq. specialize (Hlt x Hx). lia.
  - rewrite length_seq. lia.
Qed.

Lemma missing_index n (l : list nat) :
  NoDup l -> (forall x, x ∈ l -> x < n) -> length l < n -> exists k, k < n /\ k ∉ l.
Proof.
  intros Hd Hlt Hlen. destruct (decide (Forall (fun k => k ∈ l) (seq 0 n))) as [Hall|Hex].
  - rewrite Forall_forall in Hall.
    assert (Hs : seq 0 n ⊆+ l) by (apply NoDup_submseteq; [apply NoDup_seq|done]).
    apply submseteq_length in Hs. rewrite length_seq in Hs. lia.
  - apply not_Forall_Exists in Hex; [|apply _]. apply Exists_exists in Hex as (k & ?%elem_of_seq & Hk).
    exists k. split; [lia|done].
Qed.

(** What the loop keeps: the order so far, the set of its elements, the blocks. *)
Record loop_inv (n remaining : nat) (deps : list (list nat)) (emitted : gset nat)
    (blocks : list (list nat)) (block : list nat) : Prop := {
  li_nodup : NoDup (concat blocks ++ block);
  li_range : forall x, x ∈ concat blocks ++ block -> x < n;
  li_emitted : forall x, x ∈ emitted <-> x ∈ concat blocks ++ block;
  li_length : length (concat blocks ++ block) + remaining = n;
  li_blocks : Forall block_ok blocks;
  li_block : length block <= layoutBlockMax;
  li_closed : acyclic deps -> in_range n deps -> closed_order deps (concat blocks ++ block)
}.

Lemma loop_inv_emit n remaining deps emitted blocks block i blocks' block' :
  loop_inv n (S remaining) deps emitted blocks block -> i ∈ readyNodes n deps emitted ->
  concat blocks' ++ block' = (concat blocks ++ block) ++ [i] ->
  Forall block_ok blocks' -> length block' <= layoutBlockMax ->
  loop_inv n remaining deps ({[i]} ∪ emitted) blocks' block'.
Proof.
  intros [H1 H2 H3 H4 H5 H6 H7] Hi E Hb Hl. pose proof (readyNodes_in _ _ _ _ Hi) as [Hlt Hn].
  rewrite H3 in Hn. constructor; rewrite ?E; try done.
  - apply NoDup_app. split_and!; [done| |apply NoDup_singleton].
    intros x Hx ->%list_elem_of_singleton. done.
  - intros x [Hx| ->%list_elem_of_singleton]%elem_of_app; auto.
  - intros x. rewrite elem_of_union, elem_of_singleton, elem_of_app, list_elem_of_singleton, H3. tauto.
  - rewrite length_app. simpl. lia.
  - intros Ha Hr. apply closed_snoc; [auto|]. intros j Hj. apply H3. by eapply readyNodes_closed.
Qed.

Lemma close_block blocks block :
  Forall block_ok blocks -> length block <= layoutBlockMax ->
  let blocks' := if bool_decide (block = []) then blocks else blocks ++ [block] in
  concat blocks' = concat blocks ++ block /\ Forall block_ok blocks'.
Proof.
  intros Hb Hl. cbv zeta. case_bool_decide as E.
  - subst. by rewrite app_nil_r.
  - rewrite concat_app. simpl. rewrite app_nil_r. split; [done|]. apply Forall_app. split; [done|].
    apply Forall_singleton. done.
Qed.

Lemma layoutLoop_spec lc nodes deps remaining emitted blocks block m :
  loop_inv (length nodes) remaining deps emitted blocks block ->
  let result := fst (layoutLoop dir remaining lc nodes deps emitted blocks block m) in
  concat result ≡ₚ seq 0 (length nodes) /\ Forall block_ok result /\
  (acyclic deps -> in_range (length nodes) deps -> closed_order deps (concat result)).
Proof.
  revert emitted blocks block m. induction remaining as [|remaining IH]; intros emitted blocks block m I.
  - pose proof (close_block blocks block (li_blocks _ _ _ _ _ _ I) (li_block _ _ _ _ _ _ I)) as [E Hb].
    cbn [layoutLoop fst]. cbv zeta in *. rewrite E. split_and!; [|done|apply (li_closed _ _ _ _ _ _ I)].
    apply full_permutation; [apply (li_nodup _ _ _ _ _ _ I)|apply (li_range _ _ _ _ _ _ I)|].
    pose proof (li_length _ _ _ _ _ _ I). lia.
  - cbn [layoutLoop]. cbv zeta.
    pose proof (close_block blocks block (li_blocks _ _ _ _ _ _ I) (li_block _ _ _ _ _ _ I)) as [E Hb].
    cbv zeta in E, Hb.
    destruct (if negb (bool_decide (block = [])) && (length block <? layoutBlockMax) then _ else _)
      as [pick m1] eqn:EP.
    destruct pick as [i|].
    + destruct (negb (bool_decide (block = [])) && (length block <? layoutBlockMax)) eqn:EB; [|done].
      apply andb_true_iff in EB as [_ EB%Nat.ltb_lt]. apply pickAffine_in in EP as [Hi|]; [|done].
      apply IH. eapply loop_inv_emit; [done|done|by rewrite app_assoc|apply (li_blocks _ _ _ _ _ _ I)|].
      rewrite length_app. simpl. lia.
    + destruct (missing_index (length nodes) (concat blocks ++ block)) as (k & Hk & Hkn).
      { apply (li_nodup _ _ _ _ _ _ I). } { apply (li_range _ _ _ _ _ _ I). }
      { pose proof (li_length _ _ _ _ _ _ I). lia. }
      rewrite <-(li_emitted _ _ _ _ _ _ I) in Hkn.
      destruct (pickAnchor_some nodes (readyNodes (length nodes) deps emitted) None) as [i Hi].
      { left. by apply (readyNodes_some _ _ _ k). }
      rewrite Hi. apply pickAnchor_in in Hi as [Hi|]; [|done].
      apply IH. eapply loop_inv_emit; [done|done| |done|unfold layoutBlockMax; simpl; lia].
      by rewrite E.
Qed.

(** ** Where the constraints come from *)

Lemma define_all_lookup (ds : list string) (i : nat) (m : gmap string nat) u k :
  fold_left (fun m d => <[d := i]> m) ds m !! u = Some k ->
  m !! u = Some k \/ k = i /\ u ∈ ds.
Proof.
  revert m. induction ds as [|d ds IH]; intros m H; [by left|]. cbn in H.
  apply IH in H as [H|[-> H]]; [|right; split; [done|by right]].
  apply lookup_insert_Some in H as [[-> <-]|[_ H]]; [right; split; [done|left]|by left].
Qed.

Lemma define_all_some (ds : list string) (i : nat) (m : gmap string nat) u :
  is_Some (m !! u) \/ u ∈ ds -> is_Some (fold_left (fun m d => <[d := i]> m) ds m !! u).
Proof.
  revert m. induction ds as [|d ds IH]; intros m H; cbn.
  - destruct H as [H|H]; [done|by apply not_elem_of_nil in H].
  - apply IH. destruct (decide (d = u)) as [->|Hne]; [left; rewrite lookup_insert_eq; eauto|].
    destruct H as [H|[->|H]%elem_of_cons]; [left; by rewrite lookup_insert_ne|done|by right].
Qed.

Lemma owners_fold (l : list (nat * phaseNode)) (m : gmap string nat) u k :
  fold_left (fun m '(i, pn) => fold_left (fun m d => <[d := i]> m) (defines (pn_n pn)) m) l m !! u = Some k ->
  m !! u = Some k \/ exists pn, (k, pn) ∈ l /\ u ∈ defines (pn_n pn).
Proof.
  revert m. induction l as [|[i pn] l IH]; intros m H; [by left|]. cbn in H.
  apply IH in H as [H|(pn' & H & Hu)]; [|right; exists pn'; split; [by right|done]].
  apply define_all_lookup in H as [H|[-> H]]; [by left|]. right. exists pn. split; [left|done].
Qed.

Lemma owners_fold_some (l : list (nat * phaseNode)) (m : gmap string nat) u :
  is_Some (m !! u) \/ (exists k pn, (k, pn) ∈ l /\ u ∈ defines (pn_n pn)) ->
  is_Some (fold_left (fun m '(i, pn) => fold_left (fun m d => <[d := i]> m) (defines (pn_n pn)) m) l m !! u).
Proof.
  revert m. induction l as [|[i pn] l IH]; intros m H; cbn.
  - destruct H as [H|(k & pn & H & _)]; [done|by apply not_elem_of_nil in H].
  - apply IH. destruct H as [H|(k & pn' & [H|H]%elem_of_cons & Hu)].
    + left. apply define_all_some. by left.
    + injection H as -> ->. left. apply define_all_some. by right.
    + right. eauto.
Qed.

Lemma elem_of_indexed {A} (l : list A) k x : (k, x) ∈ imap pair l <-> l !! k = Some x.
Proof.
  rewrite elem_of_lookup_imap. split.
  - intros (i & y & [= -> ->] & H). done.
  - intros H. eauto.
Qed.

Lemma owners_Some nodes u k :
  owners nodes !! u = Some k -> exists pn, nodes !! k = Some pn /\ u ∈ defines (pn_n pn).
Proof.
  intros H. apply owners_fold in H as [H|(pn & H & Hu)]; [by rewrite lookup_empty in H|].
  apply elem_of_indexed in H. eauto.
Qed.

Lemma owners_defined nodes u k pn :
  nodes !! k = Some pn -> u ∈ defines (pn_n pn) -> is_Some (owners nodes !! u).
Proof.
  intros Hk Hu. apply owners_fold_some. right. exists k, pn. split; [|done]. by apply elem_of_indexed.
Qed.

Lemma elem_of_owner_vars nodes u : u ∈ (map_to_list (owners nodes)).*1 <-> is_Some (owners nodes !! u).
Proof.
  rewrite list_elem_of_fmap. split.
  - intros ([v k] & -> & H%elem_of_map_to_list). eauto.
  - intros [k Hk]. exists (u, k). split; [done|]. by apply elem_of_map_to_list.
Qed.

Lemma dataDeps_lookup nodes i j :
  j ∈ deps_of (dataDeps ParseExpr nodes) i <->
  exists pn u, nodes !! i = Some pn /\ u ∈ uses ParseExpr (pn_n pn) (map_to_list (owners nodes)).*1 /\
    owners nodes !! u = Some j /\ j <> i.
Proof.
  unfold deps_of, dataDeps. rewrite list_lookup_imap. destruct (nodes !! i) as [pn|] eqn:E; cbn.
  - rewrite list_elem_of_omap. split.
    + intros (u & Hu & H). destruct (owners nodes !! u) as [k|] eqn:EO; [|done].
      destruct (Nat.eqb_spec k i); [done|]. injection H as ->. eauto 10.
    + intros (pn' & u & [= <-] & Hu & HO & Hne). exists u. rewrite HO.
      destruct (Nat.eqb_spec j i); [done|]. done.
  - split; [intros H; by apply not_elem_of_nil in H|]. intros (? & ? & ? & _). done.
Qed.

Lemma predecessor_cons i a b l :
  predecessor i (a :: b :: l) = if (b =? i)%nat then [a] else predecessor i (b :: l).
Proof. done. Qed.

Lemma predecessor_in i l j : j ∈ predecessor i l -> j ∈ l /\ i ∈ l.
Proof.
  induction l as [|a l IH]; [intros H; by apply not_elem_of_nil in H|].
  destruct l as [|b l]; [intros H; by apply not_elem_of_nil in H|]. rewrite predecessor_cons.
  destruct (Nat.eqb_spec b i) as [->|_].
  - intros ->%list_elem_of_singleton. split; [left|right; left].
  - intros H. apply IH in H as [H1 H2]. split; by right.
Qed.

Lemma predecessor_tail i a l j : j ∈ predecessor i (a :: l) -> i ∈ l.
Proof.
  destruct l as [|b l]; [intros H; by apply not_elem_of_nil in H|]. rewrite predecessor_cons.
  destruct (Nat.eqb_spec b i) as [->|_]; [left|]. intros H. by apply predecessor_in in H as [_ H].
Qed.

Lemma elem_of_batch nodes b i :
  i ∈ batchMembers nodes b <-> exists pn, nodes !! i = Some pn /\ b_Batch (base (pn_n pn)) = b.
Proof.
  unfold batchMembers. rewrite elem_of_sort_by, list_elem_of_filter, elem_of_seq, fmap_Some.
  split.
  - intros [(pn & H & ->) _]. eauto.
  - intros (pn & H & <-). split; [eauto|]. apply lookup_lt_Some in H. lia.
Qed.

Lemma layoutDeps_lookup nodes i j :
  j ∈ deps_of (layoutDeps ParseExpr nodes) i <->
  j ∈ deps_of (dataDeps ParseExpr nodes) i \/ j ∈ batchDeps nodes i.
Proof.
  unfold layoutDeps, deps_of at 1. rewrite list_lookup_imap. unfold deps_of.
  destruct (dataDeps ParseExpr nodes !! i) as [ds|] eqn:E; cbn.
  - by rewrite elem_of_app.
  - assert (Hi : nodes !! i = None).
    { apply lookup_ge_None in E. unfold dataDeps in E. rewrite length_imap in E. by apply lookup_ge_None. }
    unfold batchDeps. rewrite Hi. pose proof (not_elem_of_nil j). tauto.
Qed.

Lemma layoutDeps_range nodes : in_range (length nodes) (layoutDeps ParseExpr nodes).
Proof.
  intros i j [H|H]%layoutDeps_lookup.
  - apply dataDeps_lookup in H as (pn & u & _ & _ & HO & _).
    apply owners_Some in HO as (pn' & Hj & _). by apply lookup_lt_Some in Hj.
  - unfold batchDeps in H. destruct (nodes !! i) as [pn|]; [|by apply not_elem_of_nil in H].
    case_bool_decide; [by apply not_elem_of_nil in H|]. apply predecessor_in in H as [H _].
    apply elem_of_batch in H as (pn' & Hj & _). by apply lookup_lt_Some in Hj.
Qed.

(** Consecutive members of a list that respects [predecessor] come in order. *)
Lemma chain_before order l :
  NoDup order -> NoDup l ->
  (forall i j, j ∈ predecessor i l -> before order j i) ->
  forall j i, before l j i -> before order j i.
Proof.
  intros Hd. induction l as [|a l IH]; intros Hl Hp j i (l1 & l2 & l3 & E); [by destruct l1|].
  apply NoDup_cons in Hl as [Ha Hl]. destruct l as [|b l]; [destruct l1 as [|? [|]]; destruct l2; done|].
  assert (Hrest : forall j i, before (b :: l) j i -> before order j i).
  { apply IH; [done|]. intros i' j' H. apply Hp. rewrite predecessor_cons.
    destruct (Nat.eqb_spec b i') as [->|_]; [|done].
    exfalso. apply NoDup_cons in Hl as [Hb _]. by apply Hb, (predecessor_tail i' i' l j'). }
  destruct l1 as [|a' l1]; cbn [app] in E; injection E as E1 E.
  - subst j. assert (Hab : before order a b).
    { apply Hp. rewrite predecessor_cons, Nat.eqb_refl. left. }
    destruct l2 as [|b' l2]; cbn [app] in E; injection E as -> E; [done|].
    eapply before_trans; [done|exact Hab|]. apply Hrest. exists [], l2, l3. by rewrite E.
  - apply Hrest. exists l1, l2, l3. done.
Qed.

Definition batch_cmp (nodes : list phaseNode) : nat -> nat -> comparison :=
  cmp_then (cmp_on (seq_of nodes) cmp_Z) (cmp_on Z.of_nat cmp_Z).

Lemma batch_order nodes b i j :
  i ∈ batchMembers nodes b -> j ∈ batchMembers nodes b -> batch_cmp nodes i j = Lt ->
  before (batchMembers nodes b) i j.
Proof.
  intros Hi Hj Hlt. assert (Hne : i <> j).
  { intros ->. by rewrite (cmp_refl (batch_cmp nodes)) in Hlt. }
  destruct (before_total _ _ _ Hi Hj Hne) as [H|H]; [done|]. exfalso.
  apply (StronglySorted_before (cmp_le (batch_cmp nodes))) in H; [|apply sort_by_sorted; apply _].
  apply H. by apply (cmp_Lt_Gt (batch_cmp nodes)).
Qed.

Lemma batchMembers_NoDup nodes b : NoDup (batchMembers nodes b).
Proof. unfold batchMembers. rewrite sort_by_perm. apply NoDup_filter, NoDup_seq. Qed.

(** [u] is a dependency of the node: declared, or mentioned and not its own. *)
Definition depends_on (n : Node) (u : string) : Prop :=
  u ∈ b_Uses (base n) \/ u ∈ mentioned ParseExpr n /\ u ∉ ownNames n.

(** The constraints of the sections as facts on the order. *)
Definition defined_before_use (nodes : list phaseNode) (order : list nat) : Prop :=
  forall i j pi pj u, nodes !! i = Some pi -> nodes !! j = Some pj -> i <> j ->
    depends_on (pn_n pi) u -> u ∈ defines (pn_n pj) ->
    (forall k pk, nodes !! k = Some pk -> u ∈ defines (pn_n pk) -> k = j) -> before order j i.

Definition batches_in_sequence (nodes : list phaseNode) (order : list nat) : Prop :=
  forall i j pi pj, nodes !! i = Some pi -> nodes !! j = Some pj ->
    b_Batch (base (pn_n pi)) = b_Batch (base (pn_n pj)) -> b_Batch (base (pn_n pi)) <> EmptyString ->
    batch_cmp nodes i j = Lt -> before order i j.

Lemma closed_defined_before_use nodes order :
  order ≡ₚ seq 0 (length nodes) -> closed_order (layoutDeps ParseExpr nodes) order ->
  defined_before_use nodes order.
Proof.
  intros HP HC i j pi pj u Hi Hj Hne Hdep Hdef Huniq. eapply closed_before; [done| |].
  { rewrite HP. apply elem_of_seq. apply lookup_lt_Some in Hi. lia. }
  apply layoutDeps_lookup. left. apply dataDeps_lookup.
  destruct (owners_defined nodes u j pj Hj Hdef) as [k HO].
  destruct (owners_Some _ _ _ HO) as (pk & Hk & Hu). assert (k = j) as -> by by eapply Huniq.
  exists pi, u. split_and!; try done. apply elem_of_uses. split; [|done].
  apply elem_of_owner_vars. eauto.
Qed.

Lemma closed_batches_in_sequence nodes order :
  order ≡ₚ seq 0 (length nodes) -> closed_order (layoutDeps ParseExpr nodes) order ->
  batches_in_sequence nodes order.
Proof.
  intros HP HC i j pi pj Hi Hj Hb Hne Hlt.
  apply (chain_before _ (batchMembers nodes (b_Batch (base (pn_n pi)))));
    [rewrite HP; apply NoDup_seq|apply batchMembers_NoDup| |].
  - intros i' j' Hp. pose proof (predecessor_in _ _ _ Hp) as [_ Hi'].
    apply elem_of_batch in Hi' as (pi' & Hi' & Hb'). eapply closed_before; [done| |].
    { rewrite HP. apply elem_of_seq. apply lookup_lt_Some in Hi'. lia. }
    apply layoutDeps_lookup. right. unfold batchDeps. rewrite Hi'.
    rewrite bool_decide_false by congruence. by rewrite Hb'.
  - apply batch_order; [..|done]; apply elem_of_batch; eauto.
Qed.

Lemma layout_facts lc nodes m :
  let blocks := fst (layout ParseExpr dir lc nodes m) in
  concat blocks ≡ₚ seq 0 (length nodes) /\ Forall block_ok blocks /\
  (acyclic (layoutDeps ParseExpr nodes) -> closed_order (layoutDeps ParseExpr nodes) (concat blocks)).
Proof.
  cbv zeta. unfold layout.
  destruct (layoutLoop_spec lc nodes (layoutDeps ParseExpr nodes) (length nodes) ∅ [] [] m) as (HP & HB & HC).
  { constructor; cbn; try done; try lia; [constructor| | |].
    - intros x Hx. by apply not_elem_of_nil in Hx.
    - intros x. rewrite elem_of_nil. set_solver.
    - intros _ _ l1 i l2 E. by destruct l1. }
  split_and!; [done..|]. intros Hac. apply (HC Hac), layoutDeps_range.
Qed.

(** The statements of a section are laid out in a valid order. Every node comes
    out exactly once, in blocks of one to ten. When the section's constraints can be met
    at all, a variable is defined before any other node uses it and the members of a
    batch come in their sequence. *)
Theorem layout_is_a_valid_order lc nodes m :
  let blocks := fst (layout ParseExpr dir lc nodes m) in
  let order := concat blocks in
  order ≡ₚ seq 0 (length nodes) /\ Forall block_ok blocks /\
  (acyclic (layoutDeps ParseExpr nodes) ->
   defined_before_use nodes order /\ batches_in_sequence nodes order).
Proof.
  cbv zeta. destruct (layout_facts lc nodes m) as (HP & HB & HC). split_and!; [done..|].
  intros Hac. split; [apply closed_defined_before_use|apply closed_batches_in_sequence]; auto.
Qed.
End Spec.
