(* ===== verification/GenCheck.v ===== *)
(** The dependency-cycle check of src/gen/validate.go and its correctness: the
    depth-first search finds a cycle exactly when the section's data dependencies have
    one, and a section that passes and has no batches is laid out with every definition
    before its uses. *)

From S2P Require Import Prelude.
From S2P Require Import Order.
From S2P Require Import GenNode.
From S2P Require Import Digraph.
From S2P Require Import CycleSearch.
From S2P Require Import GenLayout.
From S2P Require Import GenLayoutSpec.

(** ** The search *)

Definition sorted_deps (deps : list (list nat)) (i : nat) : list nat :=
  sort_by (cmp_on Z.of_nat cmp_Z) (deps_of deps i).

(** The search of CycleSearch.v along the dependencies; the target of a dependency is
    the dependency itself. *)
Definition findCycle (n : nat) (deps : list (list nat)) : option (list nat) :=
  fst <$> cycleFrom id (sorted_deps deps) n (seq 0 n).

(** [validatePhaseCycles], one phase of one flow: the indices of a cycle among the
    phase's nodes. *)
Definition phaseCycle (ParseExpr : string -> option Expr) (nodes : list Node) (p : Phase)
    : option (list nat) :=
  let phase := phaseNodes nodes p in
  if (length phase <? 2)%nat then None
  else findCycle (length phase) (dataDeps ParseExpr phase).

(** The phases with a cycle, in the order they are reported. *)
Definition validatePhaseCycles (ParseExpr : string -> option Expr) (nodes : list Node)
    : list (Phase * list nat) :=
  omap (fun p => pair p <$> phaseCycle ParseExpr nodes p) phaseLabels.

(** ** Exactness *)

Lemma sorted_arrow deps i j : arrow id (sorted_deps deps) i j <-> dep deps i j.
Proof.
  unfold arrow, dep, sorted_deps. setoid_rewrite elem_of_sort_by. naive_solver.
Qed.

Lemma findCycle_spec n deps :
  length deps = n -> in_range n deps ->
  match findCycle n deps with Some c => is_cycle deps c | None => acyclic deps end.
Proof.
  intros Hlen Hrange. unfold findCycle.
  pose proof (cycleFrom_spec id (sorted_deps deps) n (seq 0 n)) as H.
  assert (Hr : forall x y, arrow id (sorted_deps deps) x y -> y < n).
  { intros x y Hxy%sorted_arrow. by apply (Hrange x). }
  assert (Hn : forall i, i ∈ seq 0 n -> i < n) by (intros i Hi%elem_of_seq; lia).
  specialize (H Hr Hn). destruct (cycleFrom id (sorted_deps deps) n (seq 0 n)) as [[ns es]|]; cbn.
  - eapply cycle_in_mono; [intros i j; apply sorted_arrow|]. by eapply closed_walk_cycle.
  - eapply acyclic_in_mono; [|exact H]. cbn. intros i j Hij. split; [|by apply sorted_arrow].
    apply deps_of_length in Hij. apply elem_of_seq. lia.
Qed.

Section Validated.
Context (ParseExpr : string -> option Expr) (dir : string -> string).

Lemma dataDeps_range nodes : in_range (length nodes) (dataDeps ParseExpr nodes).
Proof. intros i j H. eapply (layoutDeps_range ParseExpr). apply layoutDeps_lookup. by left. Qed.

Lemma phaseCycle_spec nodes p :
  match phaseCycle ParseExpr nodes p with
  | Some c => is_cycle (dataDeps ParseExpr (phaseNodes nodes p)) c
  | None => acyclic (dataDeps ParseExpr (phaseNodes nodes p))
  end.
Proof.
  unfold phaseCycle. set (ns := phaseNodes nodes p).
  assert (Hlen : length (dataDeps ParseExpr ns) = length ns) by apply length_imap.
  destruct (Nat.ltb_spec (length ns) 2).
  - exists (fun _ => 0). intros i j Hj. exfalso.
    apply dataDeps_lookup in Hj as (pn & u & Hi & _ & HO & Hne).
    apply owners_Some in HO as (pj & Hj & _). apply lookup_lt_Some in Hi, Hj. lia.
  - apply findCycle_spec; [done|apply dataDeps_range].
Qed.

(** The cycle check is exact. It reports a cycle of a section only when the
    listed nodes do depend on one another around it, and reports none only when the
    section's data dependencies can be put in order. *)
Theorem cycle_check_is_exact nodes p :
  match phaseCycle ParseExpr nodes p with
  | Some c => is_cycle (dataDeps ParseExpr (phaseNodes nodes p)) c /\
              ~ acyclic (dataDeps ParseExpr (phaseNodes nodes p))
  | None => acyclic (dataDeps ParseExpr (phaseNodes nodes p))
  end.
Proof.
  pose proof (phaseCycle_spec nodes p) as H.
  destruct (phaseCycle ParseExpr nodes p); [|done]. split; [done|]. by eapply cycle_in_not_acyclic.
Qed.

Definition batch_free (nodes : list phaseNode) : Prop :=
  forall i pn, nodes !! i = Some pn -> b_Batch (base (pn_n pn)) = EmptyString.

Lemma batch_free_acyclic nodes :
  batch_free nodes -> acyclic (dataDeps ParseExpr nodes) -> acyclic (layoutDeps ParseExpr nodes).
Proof.
  intros Hb [rank Hr]. exists rank. intros i j [H|H]%layoutDeps_lookup; [auto|].
  unfold batchDeps in H. destruct (nodes !! i) as [pn|] eqn:E; [|by apply not_elem_of_nil in H].
  rewrite (Hb i pn E), bool_decide_true in H by done. by apply not_elem_of_nil in H.
Qed.

(** C34: a section that validation accepts is generated in an order that compiles. If no
    cycle is reported and the section has no batches, the layout puts the definition of
    every variable before each other node that needs it. *)
Theorem validated_section_defines_before_use lc nodes p m :
  phaseCycle ParseExpr nodes p = None -> batch_free (phaseNodes nodes p) ->
  defined_before_use ParseExpr (phaseNodes nodes p)
    (concat (fst (layout ParseExpr dir lc (phaseNodes nodes p) m))).
Proof.
  intros Hc Hb. pose proof (phaseCycle_spec nodes p) as H. rewrite Hc in H.
  apply (batch_free_acyclic _ Hb) in H.
  destruct (layout_facts ParseExpr dir lc (phaseNodes nodes p) m) as (HP & _ & HC).
  apply closed_defined_before_use; auto.
Qed.
End Validated.
