(* ===== verification/GenArgs.v ===== *)
(** Directive arguments: the lexer and the parser of src/gen/args.go.

    Strings are lists of bytes here, since the code indexes them byte by byte. A
    diagnostic is a constructor with its offset in the argument text ([None] for one at
    the directive itself) and the values its message shows; help texts are left out. *)

From S2P Require Import Prelude.

Definition bytes : Type := list Ascii.ascii.

Definition dquote : Ascii.ascii := "034"%char.
Definition backslash : Ascii.ascii := "\"%char.

(** ** The lexer *)

Record lexToken := mkToken {
  t_Text : bytes;
  t_Col : nat;
  t_srcCols : list nat
}.

(** The locals of [lexArgs]; -1 is [None]. *)
Record lexer := mkLexer {
  x_out : list lexToken;
  x_cur : bytes;
  x_cols : list nat;
  x_start : option nat;
  x_open : option nat
}.

Definition isBlank (b : Ascii.ascii) : bool := bool_decide (b = " "%char) || bool_decide (b = "009"%char).

Definition flush (x : lexer) : lexer :=
  match x_start x with
  | Some start => mkLexer (x_out x ++ [mkToken (x_cur x) start (x_cols x)]) [] [] None (x_open x)
  | None => x
  end.

Definition put (b : Ascii.ascii) (col : nat) (x : lexer) : lexer :=
  mkLexer (x_out x) (x_cur x ++ [b]) (x_cols x ++ [col]) (x_start x) (x_open x).

Definition begin (i : nat) (x : lexer) : lexer :=
  mkLexer (x_out x) (x_cur x) (x_cols x) (Some (default i (x_start x))) (x_open x).

(** The cases of the switch after the escape. *)
Definition lexByte (b : Ascii.ascii) (i : nat) (x : lexer) : lexer :=
  if bool_decide (b = dquote) then
    let x := begin i x in
    mkLexer (x_out x) (x_cur x) (x_cols x) (x_start x)
      (match x_open x with None => Some i | Some _ => None end)
  else if isBlank b && bool_decide (x_open x = None) then flush x
  else put b i (begin i x).

Definition escapes (b c : Ascii.ascii) (x : lexer) : bool :=
  bool_decide (b = backslash) && bool_decide (x_open x <> None) &&
  (bool_decide (c = dquote) || bool_decide (c = backslash)).

Fixpoint lexFrom (s : bytes) (i : nat) (x : lexer) : lexer :=
  match s with
  | [] => x
  | b :: s1 =>
      match s1 with
      | c :: s2 => if escapes b c x then lexFrom s2 (S (S i)) (put c (S i) x)
                   else lexFrom s1 (S i) (lexByte b i x)
      | [] => lexFrom s1 (S i) (lexByte b i x)
      end
  end.

Definition lexer0 : lexer := mkLexer [] [] [] None None.

Definition lexArgs (s : bytes) : list lexToken * option nat :=
  let x := flush (lexFrom s 0 lexer0) in (x_out x, x_open x).

(** ** Options *)

Definition isIdentByte (b : Ascii.ascii) : bool :=
  byte_in "a" "z" b || byte_in "A" "Z" b || byte_in "0" "9" b || bool_decide (b = "_"%char).

Definition isIdentChars (s : bytes) : bool := forallb isIdentByte s && negb (bool_decide (s = [])).

Definition isIdent (s : bytes) : bool :=
  isIdentChars s && match s with a :: _ => negb (byte_in "0" "9" a) | [] => true end.

Record Arg := mkArg { a_Text : bytes; a_Col : nat }.

(** [strings.IndexByte(s, '=')] *)
Definition indexEq (s : bytes) : option nat := fst <$> list_find (fun b => b = "="%char) s.

Definition cutOption (tok : lexToken) : option (bytes * Arg) :=
  match indexEq (t_Text tok) with
  | Some (S _ as i) =>
      let key := take i (t_Text tok) in
      if isIdentChars key then
        let col := if (S i <? length (t_Text tok))%nat then default 0 (t_srcCols tok !! S i)
                   else S (default 0 (t_srcCols tok !! i)) in
        Some (key, mkArg (drop (S i) (t_Text tok)) col)
      else None
  | _ => None
  end.

(** ** The parser *)

Record PosSpec := mkPosSpec { p_Name : bytes; p_Optional : bool }.
Record AttrSpec := mkAttrSpec { s_Key : bytes; s_Required : bool }.
Record Meta := mkMeta { m_Pos : list PosSpec; m_Attrs : list AttrSpec }.

Record Args := mkArgs { g_Pos : list Arg; g_Attr : gmap bytes Arg }.

Inductive argDiag :=
| UnterminatedQuote (col : nat)
| InvalidKey (col : nat) (key : bytes)
| UnknownOption (col : nat) (key : bytes)
| DuplicateOption (col : nat) (key : bytes)
| PositionalAfterOptions (col : nat) (text : bytes)
| TakesNoArguments (col : nat) (text : bytes)
| UnexpectedArgument (col : nat) (text : bytes)
| RequiresPos (missing : bytes) (got : option bytes)
| RequiresAttr (key : bytes).

Fixpoint requiredCount (ps : list PosSpec) : nat :=
  match ps with
  | p :: ps => if p_Optional p then 0 else S (requiredCount ps)
  | [] => 0
  end.
Definition requiredPos (m : Meta) : nat := requiredCount (m_Pos m).

(** The loop over the tokens. *)
Fixpoint parseTokens (m : Meta) (toks : list lexToken) (inOptions : bool) (out : Args)
    (ds : list argDiag) : Args * list argDiag :=
  match toks with
  | [] => (out, ds)
  | tok :: toks =>
      match cutOption tok with
      | Some (key, val) =>
          if negb (isIdent key) then parseTokens m toks true out (ds ++ [InvalidKey (t_Col tok) key])
          else if negb (bool_decide (key ∈ s_Key <$> m_Attrs m))
               then parseTokens m toks true out (ds ++ [UnknownOption (t_Col tok) key])
          else if bool_decide (is_Some (g_Attr out !! key))
               then parseTokens m toks true out (ds ++ [DuplicateOption (t_Col tok) key])
          else parseTokens m toks true (mkArgs (g_Pos out) (<[key := val]> (g_Attr out))) ds
      | None =>
          if inOptions
          then parseTokens m toks inOptions out (ds ++ [PositionalAfterOptions (t_Col tok) (t_Text tok)])
          else if (length (m_Pos m) <=? length (g_Pos out))%nat
               then parseTokens m toks inOptions out
                      (ds ++ [if bool_decide (m_Pos m = []) then TakesNoArguments (t_Col tok) (t_Text tok)
                              else UnexpectedArgument (t_Col tok) (t_Text tok)])
          else parseTokens m toks inOptions
                 (mkArgs (g_Pos out ++ [mkArg (t_Text tok) (t_Col tok)]) (g_Attr out)) ds
      end
  end.

Definition missingPos (m : Meta) (out : Args) : list argDiag :=
  if (length (g_Pos out) <? requiredPos m)%nat
  then [RequiresPos (default [] (p_Name <$> m_Pos m !! length (g_Pos out)))
                    (a_Text <$> last (g_Pos out))]
  else [].

Definition missingAttrs (m : Meta) (out : Args) : list argDiag :=
  (fun s => RequiresAttr (s_Key s)) <$>
    filter (fun s => s_Required s = true /\ g_Attr out !! s_Key s = None) (m_Attrs m).

Definition ParseArgs (args : bytes) (m : Meta) : Args * list argDiag :=
  let '(toks, openQuote) := lexArgs args in
  let ds := match openQuote with Some col => [UnterminatedQuote col] | None => [] end in
  let '(out, ds) := parseTokens m toks false (mkArgs [] ∅) ds in
  (out, ds ++ missingPos m out ++ missingAttrs m out).

(** ** Source positions *)

(** A token under construction over the first [i] bytes of [s]. *)
Definition maps_to (s : bytes) (text : bytes) (cols : list nat) : Prop :=
  Forall2 (fun b c => s !! c = Some b) text cols.

Definition token_ok (s : bytes) (t : lexToken) : Prop :=
  maps_to s (t_Text t) (t_srcCols t) /\ Forall (fun c => t_Col t <= c) (t_srcCols t).

Record lex_inv (s : bytes) (i : nat) (x : lexer) : Prop := {
  lx_out : Forall (token_ok s) (x_out x);
  lx_cur : maps_to s (x_cur x) (x_cols x);
  lx_start : forall k, x_start x = Some k -> k <= i /\ Forall (fun c => k <= c) (x_cols x);
  lx_idle : x_start x = None -> x_cur x = [];
  lx_open : x_open x <> None -> x_start x <> None;
  lx_below : Forall (fun c => c < i) (concat (t_srcCols <$> x_out x) ++ x_cols x);
  lx_sorted : StronglySorted lt (concat (t_srcCols <$> x_out x) ++ x_cols x)
}.

Lemma sorted_snoc (l : list nat) i : StronglySorted lt l -> Forall (fun c => c < i) l -> StronglySorted lt (l ++ [i]).
Proof.
  induction l as [|x l IH]; intros Hs Hb; cbn; [by repeat constructor|].
  apply StronglySorted_inv in Hs as [Hs Hx]. apply Forall_cons in Hb as [Hi Hb]. constructor; [by apply IH|].
  apply Forall_app. split; [done|]. by apply Forall_singleton.
Qed.

Lemma lex_inv_le s i j x : lex_inv s i x -> i <= j -> lex_inv s j x.
Proof.
  intros [H1 H2 H3 H4 H7 H5 H6] Hle. constructor; try done.
  - intros k Hk. destruct (H3 k Hk). split; [lia|done].
  - eapply Forall_impl; [exact H5|]. cbn. lia.
Qed.

Lemma flush_inv s i x : lex_inv s i x -> x_open x = None -> lex_inv s i (flush x).
Proof.
  intros I Ho. unfold flush. destruct (x_start x) as [k|] eqn:E; [|done].
  destruct I as [H1 H2 H3 H4 H7 H5 H6]. constructor; cbn; try done.
  - apply Forall_app. split; [done|]. apply Forall_singleton. split; [done|]. by apply H3.
  - constructor.
  - rewrite fmap_app, concat_app. cbn. by rewrite !app_nil_r.
  - rewrite fmap_app, concat_app. cbn. by rewrite !app_nil_r.
Qed.

Lemma begin_inv s i x : lex_inv s i x -> lex_inv s i (begin i x).
Proof.
  intros [H1 H2 H3 H4 H7 H5 H6]. constructor; cbn; try done.
  intros k [= <-]. destruct (x_start x) as [k|] eqn:E; cbn; [by apply H3|].
  split; [lia|]. rewrite H4 in H2 by done. apply Forall2_nil_inv_l in H2 as ->. constructor.
Qed.

Lemma put_inv s i j b x :
  lex_inv s i x -> i <= j -> s !! j = Some b -> x_start x <> None -> lex_inv s (S j) (put b j x).
Proof.
  intros I Hij Hb Hs. pose proof (lex_inv_le s i j x I Hij) as [H1 H2 H3 H4 H7 H5 H6].
  constructor; cbn; try done.
  - apply Forall2_app; [done|]. by constructor.
  - intros k Hk. destruct (H3 k Hk). split; [lia|]. apply Forall_app. split; [done|].
    apply Forall_singleton. lia.
  - rewrite app_assoc. apply Forall_app. split; [|by apply Forall_singleton; lia].
    eapply Forall_impl; [exact H5|]. cbn. lia.
  - rewrite app_assoc. by apply sorted_snoc.
Qed.

Lemma lexByte_inv s i b x : lex_inv s i x -> s !! i = Some b -> lex_inv s (S i) (lexByte b i x).
Proof.
  intros I Hb. unfold lexByte. pose proof (begin_inv s i x I) as IB. case_bool_decide.
  - eapply lex_inv_le; [|apply Nat.le_succ_diag_r]. destruct IB as [H1 H2 H3 H4 H7 H5 H6]. by constructor.
  - destruct (isBlank b) eqn:EB; cbn [andb]; [case_bool_decide as EO|].
    + eapply lex_inv_le; [|apply Nat.le_succ_diag_r]. apply flush_inv; [done|by rewrite EO].
    + by apply (put_inv s i).
    + by apply (put_inv s i).
Qed.

Lemma lexFrom_inv s1 : forall s0 x,
  lex_inv (s0 ++ s1) (length s0) x ->
  lex_inv (s0 ++ s1) (length (s0 ++ s1)) (lexFrom s1 (length s0) x).
Proof.
  induction s1 as [s1 IH] using (induction_ltof1 _ length). unfold ltof in IH. intros s0 x I.
  assert (Hskip : forall l s2 x, s1 = l ++ s2 -> 0 < length l ->
    lex_inv (s0 ++ s1) (length l + length s0) x ->
    lex_inv (s0 ++ s1) (length (s0 ++ s1)) (lexFrom s2 (length l + length s0) x)).
  { intros l s2 x' -> Hl I'. rewrite length_app in IH. specialize (IH s2 ltac:(lia) (s0 ++ l) x').
    rewrite length_app, (Nat.add_comm (length s0)), <-app_assoc in IH. auto. }
  destruct s1 as [|b s1]; cbn [lexFrom]; [by rewrite app_nil_r in *|].
  assert (Hb : (s0 ++ b :: s1) !! length s0 = Some b) by by apply list_lookup_middle.
  pose proof (lexByte_inv _ _ b x I Hb) as IB.
  destruct s1 as [|c s2]; [apply (Hskip [b] []); [done|simpl; lia|done]|].
  destruct (escapes b c x) eqn:EE; [|apply (Hskip [b] (c :: s2)); [done|simpl; lia|done]].
  apply (Hskip [b; c] s2); [done|simpl; lia|]. apply (put_inv _ (length s0)); [done|lia| |].
  - change (s0 ++ b :: c :: s2) with (s0 ++ [b] ++ c :: s2). rewrite app_assoc.
    apply list_lookup_middle. rewrite length_app. simpl. lia.
  - unfold escapes in EE. apply (lx_open _ _ _ I). apply andb_true_iff in EE as [EE _].
    apply andb_true_iff in EE as [_ EE]. by apply bool_decide_eq_true in EE.
Qed.

(** Every byte of an argument is traced to the source byte it came from. For each
    token of any argument text, [srcCols] names for each byte of the token a place of
    the text that holds that byte, at or after the token's own column; quotes and
    escapes are skipped, and the places increase through all the tokens. *)
Theorem argument_bytes_map_to_source s :
  Forall (token_ok s) (fst (lexArgs s)) /\
  StronglySorted lt (concat (t_srcCols <$> fst (lexArgs s))).
Proof.
  unfold lexArgs. cbn.
  assert (I0 : lex_inv s 0 lexer0) by (constructor; cbn; try done; constructor).
  pose proof (lexFrom_inv s [] lexer0 I0) as I. cbn in I. unfold flush.
  destruct (x_start (lexFrom s 0 lexer0)) as [k|] eqn:E; cbn.
  - split.
    + apply Forall_app. split; [apply (lx_out _ _ _ I)|]. apply Forall_singleton. split; [apply (lx_cur _ _ _ I)|].
      by apply (lx_start _ _ _ I).
    + rewrite fmap_app, concat_app. cbn. rewrite app_nil_r. apply (lx_sorted _ _ _ I).
  - split; [apply (lx_out _ _ _ I)|]. pose proof (lx_sorted _ _ _ I) as H.
    pose proof (lx_cur _ _ _ I) as Hc. rewrite (lx_idle _ _ _ I E) in Hc.
    apply Forall2_nil_inv_l in Hc. by rewrite Hc, app_nil_r in H.
Qed.

(** ** What the directive arguments mean: written arguments are read back, and
    the parser accepts exactly the arguments its directive declares. *)

(** ** Writing arguments *)

(** A word is written in pieces, bare or quoted. *)
Inductive piece := Bare (l : bytes) | Quoted (l : bytes).

Definition escape (b : Ascii.ascii) : bytes :=
  if bool_decide (b = dquote) || bool_decide (b = backslash) then [backslash; b] else [b].

Definition piece_text (p : piece) : bytes := match p with Bare l | Quoted l => l end.
Definition write_piece (p : piece) : bytes :=
  match p with Bare l => l | Quoted l => dquote :: concat (escape <$> l) ++ [dquote] end.

Definition word_text (w : list piece) : bytes := concat (piece_text <$> w).
Definition write_word (w : list piece) : bytes := concat (write_piece <$> w).

(** A bare piece holds no quote and no blank. *)
Definition piece_ok (p : piece) : Prop :=
  match p with Bare l => Forall (fun b => b <> dquote /\ isBlank b = false) l | Quoted _ => True end.
Definition word_ok (w : list piece) : Prop := Forall piece_ok w /\ write_word w <> [].

(** Words with the blanks that follow them; only the last may have none. *)
Fixpoint write_line (ws : list (list piece * bytes)) : bytes :=
  match ws with [] => [] | (w, gap) :: ws => write_word w ++ gap ++ write_line ws end.

Fixpoint line_ok (ws : list (list piece * bytes)) : Prop :=
  match ws with
  | [] => True
  | (w, gap) :: ws => word_ok w /\ Forall (fun b => isBlank b = true) gap /\ (ws <> [] -> gap <> []) /\ line_ok ws
  end.

(** [lexFrom] over [l] reads its text into the current token and leaves quotes as it
    found them. *)
Definition reads (l text : bytes) (q q' : lexer -> Prop) : Prop :=
  forall s i x, q x -> exists j x',
    lexFrom (l ++ s) i x = lexFrom s j x' /\ x_out x' = x_out x /\ x_cur x' = x_cur x ++ text /\
    q' x' /\ (x_start x' = None -> x_start x = None /\ l = []).

Definition closed (x : lexer) : Prop := x_open x = None.
Definition opened (x : lexer) : Prop := x_open x <> None /\ x_start x <> None.

Lemma reads_nil q : reads [] [] q q.
Proof. intros s i x Hq. exists i, x. by rewrite app_nil_r. Qed.

Lemma reads_app l1 l2 t1 t2 q1 q2 q3 :
  reads l1 t1 q1 q2 -> reads l2 t2 q2 q3 -> reads (l1 ++ l2) (t1 ++ t2) q1 q3.
Proof.
  intros R1 R2 s i x Hq. rewrite <-app_assoc.
  destruct (R1 (l2 ++ s) i x Hq) as (j & x1 & -> & Ho1 & Hc1 & Hq1 & Hs1).
  destruct (R2 s j x1 Hq1) as (k & x2 & -> & Ho2 & Hc2 & Hq2 & Hs2).
  exists k, x2. rewrite Ho2, Hc2, Ho1, Hc1, app_assoc. split_and!; try done.
  intros Hn. destruct (Hs2 Hn) as [Hn1 ->]. destruct (Hs1 Hn1) as [? ->]. done.
Qed.

Lemma reads_concat {A} (f g : A -> bytes) (q : lexer -> Prop) l :
  Forall (fun a => reads (f a) (g a) q q) l -> reads (concat (f <$> l)) (concat (g <$> l)) q q.
Proof. induction 1; cbn; [apply reads_nil|by eapply reads_app]. Qed.

(** A byte that is no escape in the present state. *)
Lemma lexFrom_step b s i x :
  b <> backslash \/ closed x -> lexFrom (b :: s) i x = lexFrom s (S i) (lexByte b i x).
Proof.
  intros Hb. cbn [lexFrom]. destruct s as [|c s]; [done|].
  assert (escapes b c x = false) as ->; [|done]. unfold escapes, closed in *.
  destruct Hb as [Hb|Hb]; [by rewrite bool_decide_false|]. rewrite Hb.
  by rewrite andb_false_r.
Qed.

Lemma reads_byte b (q q' : lexer -> Prop) :
  (forall x i, q x -> (b <> backslash \/ closed x) /\
     lexByte b i x = put b i (begin i x) /\ q' (put b i (begin i x))) ->
  reads [b] [b] q q'.
Proof.
  intros H s i x Hq. destruct (H x i Hq) as (Hb & E & Hq'). exists (S i), (put b i (begin i x)).
  split; [|done]. change ([b] ++ s) with (b :: s). rewrite lexFrom_step by done. by rewrite E.
Qed.

Lemma reads_bare b : b <> dquote -> isBlank b = false -> reads [b] [b] closed closed.
Proof.
  intros Hq Hb. apply reads_byte. intros x i Hc. split_and!; [by right| |done].
  unfold lexByte. by rewrite bool_decide_false, Hb.
Qed.

Lemma reads_literal b : b <> dquote -> b <> backslash -> reads [b] [b] opened opened.
Proof.
  intros Hq Hb. apply reads_byte. intros x i Ho. split_and!; [by left| |by split; [apply Ho|]].
  unfold lexByte. rewrite bool_decide_false by done.
  destruct Ho as [Ho _]. rewrite (bool_decide_false (x_open x = None)) by done. by rewrite andb_false_r.
Qed.

Lemma reads_escape b : reads (escape b) [b] opened opened.
Proof.
  unfold escape. destruct (bool_decide (b = dquote) || bool_decide (b = backslash)) eqn:E.
  - intros s i x Ho. exists (S (S i)), (put b (S i) x).
    change ([backslash; b] ++ s) with (backslash :: b :: s). cbn [lexFrom].
    assert (escapes backslash b x = true) as ->.
    { unfold escapes. rewrite (bool_decide_true (x_open x <> None)) by apply Ho. by rewrite E. }
    split_and!; [done..|]. intros Hn. by destruct Ho.
  - apply orb_false_iff in E as [E1 E2]. apply bool_decide_eq_false in E1, E2. by apply reads_literal.
Qed.

Lemma reads_quote (q q' : lexer -> Prop) :
  (forall x i, q x -> q' (lexByte dquote i x)) -> reads [dquote] [] q q'.
Proof.
  intros H s i x Hq. eexists (S i), _. split; [apply lexFrom_step; by left|].
  split_and!; [done|by rewrite app_nil_r|by apply H|done].
Qed.

Lemma reads_piece p : piece_ok p -> reads (write_piece p) (piece_text p) closed closed.
Proof.
  destruct p as [l|l]; cbn.
  - intros Hl. induction Hl as [|b l [Hb1 Hb2] _ IH]; [apply reads_nil|].
    apply (reads_app [b] l [b] l _ closed); [by apply reads_bare|done].
  - intros _. rewrite <-(app_nil_r l) at 2. apply (reads_app [dquote] _ [] _ _ opened).
    { apply reads_quote. intros x i Hx. unfold opened, lexByte. rewrite bool_decide_true by done. cbn. by rewrite Hx. }
    apply (reads_app _ _ _ _ _ opened).
    + induction l as [|b l IH]; [apply reads_nil|]. cbn.
      apply (reads_app _ _ [b] _ _ opened); [apply reads_escape|done].
    + apply reads_quote. intros x i [Hx _]. unfold closed, lexByte. rewrite bool_decide_true by done. cbn. by destruct (x_open x).
Qed.

Lemma reads_word w : Forall piece_ok w -> reads (write_word w) (word_text w) closed closed.
Proof.
  intros Hw. apply reads_concat. eapply Forall_impl; [exact Hw|]. intros p. apply reads_piece.
Qed.

(** ** Reading them back *)

Definition texts (ts : list lexToken) : list bytes := t_Text <$> ts.

(** Between words: nothing is pending. *)
Definition idle (x : lexer) : Prop := x_start x = None /\ x_cur x = [] /\ closed x.

Lemma lex_blank s i x b :
  isBlank b = true -> closed x -> lexFrom (b :: s) i x = lexFrom s (S i) (flush x).
Proof.
  intros Hb Ho. rewrite lexFrom_step by (by right). unfold lexByte.
  rewrite bool_decide_false by (intros ->; done). rewrite Hb, bool_decide_true by done. done.
Qed.

Lemma idle_flush x : idle x -> flush x = x.
Proof. intros (E & _ & _). unfold flush. by rewrite E. Qed.

Lemma lex_gap gap s i x :
  Forall (fun b => isBlank b = true) gap -> idle x -> lexFrom (gap ++ s) i x = lexFrom s (length gap + i) x.
Proof.
  intros Hg Hx. revert i. induction Hg as [|b gap Hb _ IH]; intros i; [done|].
  cbn [app]. rewrite lex_blank by (done || apply Hx). rewrite idle_flush by done. rewrite IH. f_equal. simpl. lia.
Qed.

Lemma flush_word x :
  x_start x <> None -> closed x ->
  texts (x_out (flush x)) = texts (x_out x) ++ [x_cur x] /\ idle (flush x).
Proof.
  intros Hs Ho. unfold flush. destruct (x_start x); [|done]. unfold texts. cbn. by rewrite fmap_app.
Qed.

Lemma lex_line ws i x :
  line_ok ws -> idle x ->
  let x' := flush (lexFrom (write_line ws) i x) in
  texts (x_out x') = texts (x_out x) ++ (word_text ∘ fst <$> ws) /\ x_open x' = None.
Proof.
  revert i x. induction ws as [|[w gap] ws IH]; intros i x Hok Hx; cbn zeta.
  { cbn. rewrite idle_flush by done. rewrite app_nil_r. split; [done|apply Hx]. }
  destruct Hok as ([Hw Hne] & Hgap & Hlast & Hok). destruct Hx as (Hs & Hc & Ho). cbn [write_line].
  destruct (reads_word w Hw (gap ++ write_line ws) i x Ho) as (j & x1 & -> & Ho1 & Hc1 & Hq1 & Hs1).
  rewrite Hc in Hc1. cbn in Hc1.
  assert (Hs1' : x_start x1 <> None) by (intros E; by destruct (Hs1 E)).
  destruct (flush_word x1 Hs1' Hq1) as [Ht Hidle].
  destruct gap as [|b gap].
  - destruct ws; [|by destruct Hlast]. cbn. rewrite Ht, Ho1, Hc1. split; [done|apply Hidle].
  - apply Forall_cons in Hgap as [Hb Hgap]. cbn [app]. rewrite lex_blank by done.
    rewrite lex_gap by done. destruct (IH (length gap + S j) (flush x1) Hok Hidle) as [-> ->].
    rewrite Ht, Ho1, Hc1, <-app_assoc. done.
Qed.

(** The arguments written on a directive line are read back. Words written bare,
    in quotes or in a mix of both, with any byte inside the quotes, and separated by
    blanks, lex to exactly their texts with no quote left open. *)
Theorem written_arguments_lex_back ws lead :
  Forall (fun b => isBlank b = true) lead -> line_ok ws ->
  let '(toks, openQuote) := lexArgs (lead ++ write_line ws) in
  texts toks = (word_text ∘ fst <$> ws) /\ openQuote = None.
Proof.
  intros Hl Hok. unfold lexArgs. assert (Hi : idle lexer0) by done.
  rewrite lex_gap by done. exact (lex_line ws _ lexer0 Hok Hi).
Qed.

(** ** Accepting exactly what is declared *)

Definition option_of (m : Meta) (t : lexToken) (kv : bytes * Arg) : Prop :=
  cutOption t = Some kv /\ isIdent (kv.1) = true /\ kv.1 ∈ s_Key <$> m_Attrs m.

(** Positional arguments, then options with different known keys, given [npos]
    positional arguments and the options [seen] already. *)
Definition shaped (m : Meta) (toks : list lexToken) (inOptions : bool) (npos : nat)
    (seen : gmap bytes Arg) (pos : list Arg) (opts : list (bytes * Arg)) : Prop :=
  exists ptoks otoks, toks = ptoks ++ otoks /\
    pos = (fun t => mkArg (t_Text t) (t_Col t)) <$> ptoks /\
    Forall (fun t => cutOption t = None) ptoks /\ Forall2 (option_of m) otoks opts /\
    (inOptions = true -> ptoks = []) /\ (ptoks <> [] -> npos + length ptoks <= length (m_Pos m)) /\
    NoDup (opts.*1) /\ Forall (fun k => seen !! k = None) (opts.*1).

Lemma parseTokens_grows m toks inO out ds :
  exists ds', snd (parseTokens m toks inO out ds) = ds ++ ds'.
Proof.
  revert inO out ds. induction toks as [|tok toks IH]; intros inO out ds; cbn [parseTokens].
  { exists []. by rewrite app_nil_r. }
  assert (Hsnoc : forall inO out d, exists ds', snd (parseTokens m toks inO out (ds ++ [d])) = ds ++ ds').
  { intros inO' out' d. destruct (IH inO' out' (ds ++ [d])) as [ds' ->]. exists (d :: ds'). by rewrite <-app_assoc. }
  destruct (cutOption tok) as [[key val]|]; repeat case_match; auto.
Qed.

Lemma parseTokens_nil m toks inO out d ds :
  snd (parseTokens m toks inO out (ds ++ [d])) <> [].
Proof. destruct (parseTokens_grows m toks inO out (ds ++ [d])) as [ds' ->]. by destruct ds. Qed.

Definition insert_all (opts : list (bytes * Arg)) (a : gmap bytes Arg) : gmap bytes Arg :=
  fold_left (fun a kv => <[kv.1 := kv.2]> a) opts a.

Lemma insert_all_lookup opts a k :
  insert_all opts a !! k = None <-> a !! k = None /\ k ∉ opts.*1.
Proof.
  revert a. induction opts as [|[k' v] opts IH]; intros a; cbn.
  - pose proof (not_elem_of_nil k). tauto.
  - unfold insert_all in *. cbn. rewrite IH, lookup_insert_None, not_elem_of_cons. naive_solver.
Qed.

Lemma shaped_option m tok toks inO n seen pos opts key val :
  cutOption tok = Some (key, val) ->
  shaped m (tok :: toks) inO n seen pos opts <->
  isIdent key = true /\ key ∈ s_Key <$> m_Attrs m /\ seen !! key = None /\ pos = [] /\
  exists opts', opts = (key, val) :: opts' /\ shaped m toks true n (<[key := val]> seen) [] opts'.
Proof.
  intros E. split.
  - intros (ptoks & otoks & Et & -> & Hp & Ho & _ & _ & Hd & Hf).
    destruct ptoks as [|t ptoks].
    2:{ injection Et as <- _. apply Forall_cons in Hp as [Hp _]. congruence. }
    cbn in Et. subst otoks. apply Forall2_cons_inv_l in Ho as (kv & opts' & (E' & Hi & Hk) & Ho & ->).
    rewrite E in E'. injection E' as <-. cbn in *. apply NoDup_cons in Hd as [Hn Hd].
    apply Forall_cons in Hf as [Hs Hf]. split_and!; try done. exists opts'. split; [done|].
    exists [], toks. split_and!; try done. rewrite Forall_forall in Hf |- *. intros k Hk'.
    rewrite lookup_insert_ne by congruence. by apply Hf.
  - intros (Hi & Hk & Hs & -> & opts' & -> & ptoks & otoks & -> & Ep & Hp & Ho & _ & _ & Hd & Hf).
    symmetry in Ep. apply fmap_nil_inv in Ep as ->. exists [], (tok :: otoks).
    rewrite Forall_forall in Hf. split_and!; try done; cbn.
    + constructor; [|done]. by split_and!.
    + apply NoDup_cons. split; [|done]. intros Hin. specialize (Hf _ Hin). by rewrite lookup_insert_eq in Hf.
    + apply Forall_cons. split; [done|]. apply Forall_forall. intros k Hin. specialize (Hf k Hin).
      by apply lookup_insert_None in Hf as [? _].
Qed.

Lemma shaped_pos m tok toks inO n seen pos opts :
  cutOption tok = None ->
  shaped m (tok :: toks) inO n seen pos opts <->
  inO = false /\ n < length (m_Pos m) /\
  exists pos', pos = mkArg (t_Text tok) (t_Col tok) :: pos' /\ shaped m toks false (S n) seen pos' opts.
Proof.
  intros E. split.
  - intros (ptoks & otoks & Et & -> & Hp & Ho & Hin & Hlen & Hd & Hf).
    destruct ptoks as [|t ptoks].
    { cbn in Et. subst otoks. apply Forall2_cons_inv_l in Ho as (kv & ? & (E' & _) & _). congruence. }
    injection Et as <- ->. specialize (Hlen ltac:(done)). simpl in Hlen. apply Forall_cons in Hp as [_ Hp].
    split_and!; [by destruct inO; [specialize (Hin eq_refl)|]|lia|]. eexists. split; [done|].
    exists ptoks, otoks. split_and!; try done. lia.
  - intros (-> & Hn & pos' & -> & ptoks & otoks & -> & -> & Hp & Ho & _ & Hlen & Hd & Hf).
    exists (tok :: ptoks), otoks. split_and!; try done; [by constructor|]. simpl. destruct ptoks; simpl in *; [lia|].
    specialize (Hlen ltac:(done)). lia.
Qed.

Lemma parseTokens_spec m toks inO out r :
  parseTokens m toks inO out [] = (r, []) <->
  exists pos opts, shaped m toks inO (length (g_Pos out)) (g_Attr out) pos opts /\
    r = mkArgs (g_Pos out ++ pos) (insert_all opts (g_Attr out)).
Proof.
  assert (Hbad : forall toks inO out d, parseTokens m toks inO out [d] <> (r, [])).
  { intros toks' inO' out' d H. apply (parseTokens_nil m toks' inO' out' d []). cbn [app]. by rewrite H. }
  revert inO out. induction toks as [|tok toks IH]; intros inO out; cbn [parseTokens].
  { split.
    - intros [= <-]. exists [], []. rewrite app_nil_r. split; [|by destruct out].
      exists [], []. split_and!; try done; constructor.
    - intros (pos & opts & (ptoks & otoks & Et & -> & _ & Ho & _) & ->).
      symmetry in Et. apply app_nil in Et as [-> ->]. apply Forall2_nil_inv_l in Ho as ->.
      cbn. rewrite app_nil_r. by destruct out. }
  destruct (cutOption tok) as [[key val]|] eqn:EC.
  - setoid_rewrite (shaped_option m tok toks inO _ _ _ _ _ _ EC).
    destruct (isIdent key) eqn:EI; cbn [negb]; [|split; [by intros ?%Hbad|naive_solver]].
    case_bool_decide as EK; cbn [negb]; [|split; [by intros ?%Hbad|naive_solver]].
    case_bool_decide as ED.
    { split; [by intros ?%Hbad|]. intros (pos & opts & (_ & _ & Hs & _) & _). rewrite Hs in ED. by destruct ED. }
    rewrite IH. cbn. rewrite <-eq_None_not_Some in ED. split.
    + intros (pos & opts & Hsh & ->). assert (pos = []) as ->.
      { destruct Hsh as (ptoks & ? & _ & -> & _ & _ & Hn & _). by rewrite Hn. }
      exists [], ((key, val) :: opts). split; [|done]. split_and!; try done. eauto.
    + intros (pos & opts & (_ & _ & _ & -> & opts' & -> & Hsh) & ->). eauto.
  - setoid_rewrite (shaped_pos m tok toks inO _ _ _ _ EC).
    destruct inO; [split; [by intros ?%Hbad|naive_solver]|].
    destruct (Nat.leb_spec (length (m_Pos m)) (length (g_Pos out))) as [Hle|Hlt].
    { split; [by intros ?%Hbad|]. intros (? & ? & (_ & ? & _) & _). lia. }
    rewrite IH. cbn. rewrite length_app, Nat.add_1_r. split.
    + intros (pos & opts & Hsh & ->). rewrite <-app_assoc. exists (mkArg (t_Text tok) (t_Col tok) :: pos), opts.
      split; [|done]. eauto 10.
    + intros (pos & opts & (_ & _ & pos' & -> & Hsh) & ->). exists pos', opts. by rewrite <-app_assoc.
Qed.

(** A directive accepts exactly the arguments it declares. Parsing reports nothing
    iff no quote is left open, the words are positional arguments followed by options
    with distinct declared identifier keys, the positional arguments are no fewer than
    the required and no more than the declared ones, and every required option is
    there; the result then holds those arguments. *)
Theorem arguments_are_accepted_exactly args m out :
  ParseArgs args m = (out, []) <->
  exists pos opts, snd (lexArgs args) = None /\ shaped m (fst (lexArgs args)) false 0 ∅ pos opts /\
    requiredPos m <= length pos /\
    (forall s, s ∈ m_Attrs m -> s_Required s = true -> s_Key s ∈ opts.*1) /\
    out = mkArgs pos (insert_all opts ∅).
Proof.
  unfold ParseArgs. destruct (lexArgs args) as [toks openQuote]. cbn [fst snd].
  assert (Hattrs : forall pos opts, missingAttrs m (mkArgs pos (insert_all opts ∅)) = [] <->
            forall s, s ∈ m_Attrs m -> s_Required s = true -> s_Key s ∈ opts.*1).
  { intros pos opts. unfold missingAttrs. cbn. split.
    - intros H%fmap_nil_inv s Hs Hr. destruct (decide (s_Key s ∈ opts.*1)) as [|Hn]; [done|].
      destruct (not_elem_of_nil s). rewrite <-H. apply list_elem_of_filter. split; [|done].
      split; [done|]. apply insert_all_lookup. split; [apply lookup_empty|done].
    - intros H. destruct (filter _ _) as [|s l] eqn:E; [done|]. exfalso.
      assert (Hs : s ∈ s :: l) by left. rewrite <-E in Hs. apply list_elem_of_filter in Hs as [[Hr Hl] Hs].
      apply insert_all_lookup in Hl as [_ Hl]. by apply Hl, H. }
  assert (Hpos : forall pos a, missingPos m (mkArgs pos a) = [] <-> requiredPos m <= length pos).
  { intros pos a. unfold missingPos. cbn [g_Pos]. destruct (Nat.ltb_spec (length pos) (requiredPos m)); split; intros; (done || lia || (exfalso; lia)). }
  destruct openQuote as [col|].
  - destruct (parseTokens_grows m toks false (mkArgs [] ∅) [UnterminatedQuote col]) as [ds' E].
    destruct (parseTokens m toks false (mkArgs [] ∅) [UnterminatedQuote col]) as [r ds]. cbn in E. subst ds.
    split; [done|]. by intros (? & ? & ? & _).
  - destruct (parseTokens m toks false (mkArgs [] ∅) []) as [r ds] eqn:E. split.
    + intros [= <- [-> [H1 H2]%app_nil]%app_nil]. apply parseTokens_spec in E as (pos & opts & Hsh & ->).
      exists pos, opts. cbn in *. rewrite <-Hpos, <-Hattrs. by split_and!.
    + intros (pos & opts & _ & Hsh & Hp & Ha & ->).
      assert (E' : parseTokens m toks false (mkArgs [] ∅) [] = (mkArgs pos (insert_all opts ∅), [])).
      { apply parseTokens_spec. eauto. }
      rewrite E in E'. injection E' as -> ->. apply (Hattrs pos opts) in Ha. apply (Hpos pos (insert_all opts ∅)) in Hp.
      by rewrite Hp, Ha.
Qed.
