(* ===== verification/GenUsage.v ===== *)
(** Which flows reach a demand: src/gen/usage.go and the demand stack of
    src/gen/fragment.go.

    A demand made while another is being built is an edge of a graph; after the walk the
    flows are spread along the edges until nothing changes. Go ranges over maps in an
    order of its own, so the orders of the rounds are an argument. *)

From S2P Require Import Prelude.
From S2P Require Import Order.

(** ** Demands *)

Inductive demandKind := demandType | demandPath | demandCallback | demandSingleton.

#[export] Instance demandKind_eq_dec : EqDecision demandKind.
Proof. solve_decision. Defined.

#[export] Instance demandKind_countable : Countable demandKind.
Proof.
  refine (inj_countable'
    (fun k => match k with demandType => 0 | demandPath => 1 | demandCallback => 2 | demandSingleton => 3 end)
    (fun n => match n with 0 => demandType | 1 => demandPath | 2 => demandCallback | _ => demandSingleton end) _).
  by intros [].
Defined.

Record demandKey := mkDemand { k_kind : demandKind; k_key : string; k_name : string; k_ord : nat }.

#[export] Instance demandKey_eq_dec : EqDecision demandKey.
Proof. solve_decision. Defined.

#[export] Instance demandKey_countable : Countable demandKey.
Proof.
  refine (inj_countable' (fun k => (k_kind k, k_key k, k_name k, k_ord k))
    (fun '(a, b, c, d) => mkDemand a b c d) _).
  by intros [].
Defined.

(** The store's demand fields. *)
Record fragState := mkFrag {
  fr_order : list demandKey;
  fr_index : gmap demandKey nat;
  fr_active : list nat;
  fr_flow : string;
  fr_noFlow : bool
}.

(** [g.scope]: the build function, and whether this is the validation pass. *)
Record scopeState := mkScope { sc_fn : string; sc_validation : bool }.

Notation flowMap := (gmap demandKey (gset string)).
Notation edgeMap := (gmap demandKey (gset demandKey)).

Record genUsage := mkUsage {
  u_scope : option scopeState;
  u_frag : option fragState;
  u_demands : flowMap;
  u_edges : edgeMap
}.

Definition demandID (st : fragState) (k : demandKey) : nat * fragState :=
  match fr_index st !! k with
  | Some i => (i, st)
  | None =>
      let i := length (fr_order st) in
      (i, mkFrag (fr_order st ++ [k]) (<[k := i]> (fr_index st)) (fr_active st) (fr_flow st) (fr_noFlow st))
  end.

Definition currentDemand (st : fragState) : option nat := last (fr_active st).

Definition set_active (st : fragState) (l : list nat) : fragState :=
  mkFrag (fr_order st) (fr_index st) l (fr_flow st) (fr_noFlow st).

Definition set_frag (g : genUsage) (st : fragState) : genUsage :=
  mkUsage (u_scope g) (Some st) (u_demands g) (u_edges g).

Definition pushDemand (g : genUsage) (k : demandKey) : genUsage :=
  match u_frag g with
  | None => g
  | Some st => let '(id, st) := demandID st k in set_frag g (set_active st (fr_active st ++ [id]))
  end.

(** The function [pushDemand] returns. *)
Definition popDemand (g : genUsage) : genUsage :=
  match u_frag g with
  | None => g
  | Some st => set_frag g (set_active st (removelast (fr_active st)))
  end.

Definition flowID (g : genUsage) : string :=
  match u_scope g with
  | Some sc => if sc_validation sc then EmptyString else sc_fn sc
  | None =>
      match u_frag g with
      | Some st =>
          if bool_decide (fr_flow st <> EmptyString) then fr_flow st
          else if fr_noFlow st then EmptyString else "default"
      | None => "default"
      end
  end.

Definition flows_of (d : flowMap) (k : demandKey) : gset string := default ∅ (d !! k).
Definition edges_of (e : edgeMap) (k : demandKey) : gset demandKey := default ∅ (e !! k).

(** The demand being built, if any. *)
Definition parentDemand (g : genUsage) : option demandKey :=
  match u_frag g with
  | Some st => match currentDemand st with Some i => fr_order st !! i | None => None end
  | None => None
  end.

Definition recordDemand (g : genUsage) (k : demandKey) : genUsage :=
  let edges :=
    match parentDemand g with
    | Some pk => if bool_decide (pk <> k) then <[pk := {[k]} ∪ edges_of (u_edges g) pk]> (u_edges g)
                 else u_edges g
    | None => u_edges g
    end in
  let flow := flowID g in
  mkUsage (u_scope g) (u_frag g)
    (if bool_decide (flow = EmptyString) then u_demands g
     else <[k := {[flow]} ∪ flows_of (u_demands g) k]> (u_demands g))
    edges.

(** ** Propagation *)

Definition edge : Type := demandKey * demandKey.

(** One edge of the inner loops; the flag says whether a flow was added. *)
Definition spread (e : edge) (dc : flowMap * bool) : flowMap * bool :=
  let '(d, changed) := dc in
  let '(parent, child) := e in
  let pf := flows_of d parent in
  if bool_decide (pf = ∅) then dc
  else (<[child := flows_of d child ∪ pf]> d, changed || negb (bool_decide (pf ⊆ flows_of d child))).

Definition round (order : list edge) (d : flowMap) : flowMap * bool :=
  fold_left (fun dc e => spread e dc) order (d, false).

Fixpoint propagate (fuel : nat) (orders : nat -> list edge) (d : flowMap) : option flowMap :=
  match fuel with
  | O => None
  | S fuel =>
      let '(d, changed) := round (orders fuel) d in
      if changed then propagate fuel orders d else Some d
  end.

Definition edge_list (e : edgeMap) : list edge :=
  concat ((fun '(p, cs) => (fun c => (p, c)) <$> elements cs) <$> map_to_list e).

(** Each round adds a flow to a key, and there are only so many of both. *)
Definition all_flows (d : flowMap) : gset string := ⋃ (map_to_list d).*2.
Definition keys_of (d : flowMap) (e : edgeMap) : gset demandKey :=
  dom d ∪ list_to_set (snd <$> edge_list e).
Definition propagate_fuel (d : flowMap) (e : edgeMap) : nat :=
  S (size (keys_of d e) * size (all_flows d)).

Definition propagateDemandUsage (orders : nat -> list edge) (g : genUsage) : option genUsage :=
  d ← propagate (propagate_fuel (u_demands g) (u_edges g)) orders (u_demands g);
  Some (mkUsage (u_scope g) (u_frag g) d (u_edges g)).

(** ** Reading the result *)

Definition demandFlows (g : genUsage) (k : demandKey) : list string :=
  sort_by cmp_string (elements (flows_of (u_demands g) k)).

Definition demanded (g : genUsage) (k : demandKey) : bool :=
  negb (bool_decide (flows_of (u_demands g) k = ∅)).

Definition SingletonDemanded (g : genUsage) (key : string) : bool :=
  let m := flows_of (u_demands g) (mkDemand demandSingleton key EmptyString 0) in
  if bool_decide (m = ∅) then false
  else let f := flowID g in
       if bool_decide (f <> EmptyString) then bool_decide (f ∈ m) else true.

(** [nodeUsage]: the flows that need a stored node. *)
Record storeUse := mkStoreUse { su_demand : option nat; su_flow : string }.

Definition nodeUsage (g : genUsage) (st : fragState) (sn : storeUse) : list string :=
  match su_demand sn with
  | Some i => match fr_order st !! i with Some k => demandFlows g k | None => [] end
  | None => if bool_decide (su_flow sn <> EmptyString) then [su_flow sn] else ["default"]
  end.

(** ** Correctness of the propagation *)

Definition edge_rel (e : edgeMap) (p c : demandKey) : Prop := c ∈ edges_of e p.

(** Flow [f] uses [k] when it demands something that leads to [k]. *)
Definition reaches (d : flowMap) (e : edgeMap) (f : string) (k : demandKey) : Prop :=
  exists k0, f ∈ flows_of d k0 /\ rtc (edge_rel e) k0 k.

Lemma elem_of_edge_list e p c : (p, c) ∈ edge_list e <-> edge_rel e p c.
Proof.
  unfold edge_list, edge_rel, edges_of. rewrite list_elem_of_In, in_concat. split.
  - intros (l & Hl & Hin). apply list_elem_of_In in Hl, Hin.
    apply list_elem_of_fmap in Hl as ([p' cs] & -> & Hp%elem_of_map_to_list).
    apply list_elem_of_fmap in Hin as (c' & [= -> ->] & Hc%elem_of_elements). by rewrite Hp.
  - intros H. destruct (e !! p) as [cs|] eqn:E; [|set_solver].
    exists ((fun c => (p, c)) <$> elements cs). rewrite <-!list_elem_of_In. split.
    + apply list_elem_of_fmap. exists (p, cs). split; [done|]. by apply elem_of_map_to_list.
    + apply list_elem_of_fmap. exists c. split; [done|]. by apply elem_of_elements.
Qed.

Lemma flows_of_insert d k fs k' : flows_of (<[k := fs]> d) k' = if decide (k' = k) then fs else flows_of d k'.
Proof. unfold flows_of. case_decide; [subst; by rewrite lookup_insert_eq|by rewrite lookup_insert_ne]. Qed.

(** What a round has done so far. *)
Record round_inv (d0 : flowMap) (e : edgeMap) (d : flowMap) (changed : bool) : Prop := {
  ri_mono : forall k, flows_of d0 k ⊆ flows_of d k;
  ri_sound : forall k f, f ∈ flows_of d k -> reaches d0 e f k;
  ri_grow : changed = true -> exists k, edge_rel e k.1 k.2 /\ ~ flows_of d k.2 ⊆ flows_of d0 k.2;
  ri_same : changed = false -> forall k, flows_of d k = flows_of d0 k
}.

Lemma spread_inv d0 e d changed ed :
  round_inv d0 e d changed -> edge_rel e ed.1 ed.2 ->
  let '(d', changed') := spread ed (d, changed) in
  round_inv d0 e d' changed' /\ (changed' = false -> flows_of d' ed.1 ⊆ flows_of d' ed.2).
Proof.
  intros [Hm Hs Hg He] Hed. destruct ed as [p c]. cbn in *.
  case_bool_decide as E.
  { split; [by constructor|]. rewrite E. set_solver. }
  set (d' := <[c := flows_of d c ∪ flows_of d p]> d).
  assert (Hd' : forall k, flows_of d' k = if decide (k = c) then flows_of d c ∪ flows_of d p else flows_of d k)
    by (intros; apply flows_of_insert).
  assert (Hsame : flows_of d p ⊆ flows_of d c -> forall k, flows_of d' k = flows_of d k).
  { intros H k. rewrite Hd'. case_decide; subst; set_solver. }
  split.
  - constructor.
    + intros k. rewrite Hd'. case_decide as Ek; [subst|done]. specialize (Hm c). set_solver.
    + intros k f. rewrite Hd'. case_decide as Ek; [subst|apply Hs]. rewrite elem_of_union. intros [H|H]; [by apply Hs|].
      destruct (Hs p f H) as (k0 & H0 & Hr). exists k0. split; [done|]. by eapply rtc_r.
    + intros [Hc|Hn]%orb_true_iff.
      * destruct (Hg Hc) as (k & Hk & Hf). exists k. split; [done|]. rewrite Hd'. case_decide as Ek; [|done].
        rewrite Ek in Hf. set_solver.
      * apply negb_true_iff, bool_decide_eq_false in Hn. exists (p, c). split; [done|]. cbn.
        rewrite Hd', decide_True by done. specialize (Hm c). set_solver.
    + intros [-> Hn%negb_false_iff%bool_decide_eq_true]%orb_false_iff k. rewrite Hsame by done. auto.
  - intros [-> Hn%negb_false_iff%bool_decide_eq_true]%orb_false_iff. by rewrite !Hsame.
Qed.

Lemma round_spec e order d :
  (forall ed, ed ∈ order -> edge_rel e ed.1 ed.2) ->
  let '(d', changed) := round order d in
  round_inv d e d' changed /\
  (changed = false -> forall p c, (p, c) ∈ order -> flows_of d' p ⊆ flows_of d' c).
Proof.
  intros Ho. unfold round.
  cut (forall seen ds changed, round_inv d e ds changed ->
    (changed = false -> forall p c, (p, c) ∈ seen -> flows_of ds p ⊆ flows_of ds c) ->
    let '(d', changed) := fold_left (fun dc e => spread e dc) order (ds, changed) in
    round_inv d e d' changed /\
    (changed = false -> forall p c, (p, c) ∈ seen ++ order -> flows_of d' p ⊆ flows_of d' c)).
  { intros H. apply (H [] d false); [|intros _ p c Hin; by apply not_elem_of_nil in Hin].
    constructor; [done|intros k f Hf; exists k; split; [done|reflexivity]|done|done]. }
  revert Ho. induction order as [|ed order IH]; intros Ho seen ds changed I Hseen; cbn [fold_left].
  { by rewrite app_nil_r. }
  pose proof (spread_inv d e ds changed ed I (Ho ed ltac:(left))) as H.
  destruct (spread ed (ds, changed)) as [d1 changed1] eqn:ES. destruct H as [I1 H1].
  specialize (IH ltac:(intros x Hx; apply Ho; by right) (seen ++ [ed]) d1 changed1 I1).
  assert (Hs1 : changed1 = false -> forall p c, (p, c) ∈ seen ++ [ed] -> flows_of d1 p ⊆ flows_of d1 c).
  { intros Hc p c [Hin|E%list_elem_of_singleton]%elem_of_app; [|subst ed; by apply H1].
    pose proof (ri_same _ _ _ _ I1 Hc) as E1.
    assert (Hc0 : changed = false).
    { destruct ed as [a b]. cbn in ES. case_bool_decide; injection ES as _ <-; [done|].
      by apply orb_false_iff in Hc as [-> _]. }
    pose proof (ri_same _ _ _ _ I Hc0) as E0. rewrite !E1, <-!E0. by apply Hseen. }
  specialize (IH Hs1).
  destruct (fold_left _ order (d1, changed1)) as [d2 changed2]. rewrite <-app_assoc in IH. done.
Qed.

(** A round that adds a flow leaves fewer pairs missing. *)
Definition missing (d : flowMap) (l : list (demandKey * string)) : list (demandKey * string) :=
  filter (fun kf => kf.2 ∉ flows_of d kf.1) l.

Lemma missing_decreases d e d' (K : gset demandKey) (F : gset string) :
  round_inv d e d' true -> (forall p c, edge_rel e p c -> c ∈ K) ->
  (forall f k, reaches d e f k -> f ∈ F) ->
  length (missing d' (list_prod (elements K) (elements F))) <
  length (missing d (list_prod (elements K) (elements F))).
Proof.
  intros [Hm Hs Hg _] HK HF. destruct (Hg eq_refl) as ([p c] & Hpc & Hn). cbn in Hn, Hpc.
  destruct (decide (Exists (fun f => f ∉ flows_of d c) (elements (flows_of d' c)))) as [Hex|Hex].
  - apply Exists_exists in Hex as (f & Hf%elem_of_elements & Hfn).
    apply (filter_length_lt _ _ _ (c, f)).
    + intros [k f'] H. cbn in *. specialize (Hm k). set_solver.
    + apply list_elem_of_In, in_prod; apply list_elem_of_In, elem_of_elements; [by eapply HK|].
      by eapply HF, Hs.
    + done.
    + cbn. by intros [].
  - destruct Hn. apply not_Exists_Forall in Hex; [|apply _]. rewrite Forall_forall in Hex.
    intros f Hf. destruct (decide (f ∈ flows_of d c)) as [|Hfn]; [done|].
    destruct (Hex f); [by apply elem_of_elements|done].
Qed.

Lemma propagate_spec fuel orders d e (K : gset demandKey) (F : gset string) :
  (forall n, orders n ≡ₚ edge_list e) -> (forall p c, edge_rel e p c -> c ∈ K) ->
  (forall f k, reaches d e f k -> f ∈ F) ->
  length (missing d (list_prod (elements K) (elements F))) < fuel ->
  exists d', propagate fuel orders d = Some d' /\ forall k f, f ∈ flows_of d' k <-> reaches d e f k.
Proof.
  intros Ho HK. revert d. induction fuel as [|fuel IH]; intros d HF Hfuel; [lia|]. cbn [propagate].
  pose proof (round_spec e (orders fuel) d) as HR.
  destruct (round (orders fuel) d) as [d1 changed].
  destruct HR as [I Hclosed].
  { intros [p c] Hin. rewrite Ho in Hin. by apply elem_of_edge_list. }
  assert (Hreach : forall f k, reaches d1 e f k <-> reaches d e f k).
  { intros f k. split.
    - intros (k0 & H0 & Hr). destruct (ri_sound _ _ _ _ I k0 f H0) as (k1 & H1 & Hr1).
      exists k1. split; [done|]. by etrans.
    - intros (k0 & H0 & Hr). exists k0. split; [by apply (ri_mono _ _ _ _ I)|done]. }
  destruct changed.
  - pose proof (missing_decreases d e d1 K F I HK HF).
    destruct (IH d1) as (d' & -> & Hd'); [intros f k; rewrite Hreach; apply HF|lia|].
    exists d'. split; [done|]. intros k f. by rewrite Hd', Hreach.
  - exists d1. split; [done|]. intros k f. split; [apply (ri_sound _ _ _ _ I)|].
    rewrite <-Hreach. intros (k0 & H0 & Hr). induction Hr as [k|k0 k1 k Hk _ IHr]; [done|]. apply IHr.
    apply (Hclosed eq_refl k0 k1); [|done]. rewrite Ho. by apply elem_of_edge_list.
Qed.

(** C36: demand usage is the least fixed point of the demand graph. Spreading the flows
    ends, in whatever order the edges are visited in each round, and a flow then uses
    exactly the demands that it makes or that something it makes leads to. *)
Theorem propagation_is_the_least_fixed_point orders g :
  (forall n, orders n ≡ₚ edge_list (u_edges g)) ->
  exists g', propagateDemandUsage orders g = Some g' /\ u_edges g' = u_edges g /\
    forall k f, f ∈ flows_of (u_demands g') k <-> reaches (u_demands g) (u_edges g) f k.
Proof.
  intros Ho. set (d := u_demands g). set (e := u_edges g).
  destruct (propagate_spec (propagate_fuel d e) orders d e (keys_of d e) (all_flows d)) as (d' & E & Hd'); [done|..].
  - intros p c Hpc. unfold keys_of. apply elem_of_union. right. apply elem_of_list_to_set, list_elem_of_fmap.
    exists (p, c). split; [done|]. by apply elem_of_edge_list.
  - intros f k (k0 & H0 & _). unfold flows_of in H0. destruct (d !! k0) as [fs|] eqn:E; [|set_solver].
    apply elem_of_union_list. exists fs. split; [|done]. apply list_elem_of_fmap. exists (k0, fs).
    split; [done|]. by apply elem_of_map_to_list.
  - unfold propagate_fuel, missing. apply Nat.lt_succ_r. etrans; [apply length_filter|].
    by rewrite length_prod.
  - exists (mkUsage (u_scope g) (u_frag g) d' e). unfold propagateDemandUsage. fold d e. rewrite E. done.
Qed.
