(* ===== verification/GenUnionFind.v ===== *)
(** The union-find of [formComponents] in src/gen/fragment.go: a parent array, [find]
    with path halving, and the assignment [parent[find(i)] = find(j)]. Two nodes have
    the same root exactly when the joined pairs connect them. *)

From S2P Require Import Prelude.

(** ** The code *)

(** An index outside the array is its own root; the code never uses one. *)
Definition par (parent : list nat) (x : nat) : nat := default x (parent !! x).

Fixpoint find (fuel : nat) (parent : list nat) (x : nat) : nat * list nat :=
  match fuel with
  | O => (x, parent)
  | S fuel =>
      let p := par parent x in
      if (p =? x)%nat then (x, parent)
      else let parent := <[x := par parent p]> parent in find fuel parent (par parent x)
  end.

Definition find_root (parent : list nat) (x : nat) : nat * list nat :=
  find (S (length parent)) parent x.

(** [parent[find(i)] = find(j)] *)
Definition join_roots (parent : list nat) (i j : nat) : list nat :=
  let '(ri, parent) := find_root parent i in
  let '(rj, parent) := find_root parent j in
  <[ri := rj]> parent.

Definition join_all (parent : list nat) (pairs : list (nat * nat)) : list nat :=
  fold_left (fun parent '(i, j) => join_roots parent i j) pairs parent.

(** ** Paths to a root *)

Inductive path (parent : list nat) : nat -> list nat -> nat -> Prop :=
| path_root x : par parent x = x -> path parent x [] x
| path_step x p l r : par parent x = p -> p <> x -> path parent p l r -> path parent x (x :: l) r.

Definition rep (parent : list nat) (x r : nat) : Prop := exists l, path parent x l r.

Lemma path_det parent x l1 r1 l2 r2 : path parent x l1 r1 -> path parent x l2 r2 -> l1 = l2 /\ r1 = r2.
Proof.
  intros H1. revert l2 r2. induction H1 as [x Hx|x p l r Hp Hne H1 IH]; intros l2 r2 H2.
  - inversion H2 as [|? ? ? ? Hp Hne]; subst; [done|]. congruence.
  - inversion H2 as [|? ? l' ? Hp' Hne' H2']; subst; [congruence|]. by destruct (IH _ _ H2') as [-> ->].
Qed.

Lemma rep_det parent x r1 r2 : rep parent x r1 -> rep parent x r2 -> r1 = r2.
Proof. intros [l1 H1] [l2 H2]. by destruct (path_det _ _ _ _ _ _ H1 H2). Qed.

Lemma path_par_root parent x l r : path parent x l r -> par parent r = r.
Proof. by induction 1. Qed.

Lemma rep_root parent r : par parent r = r -> rep parent r r.
Proof. intros H. exists []. by apply path_root. Qed.

Lemma rep_self parent x r : rep parent x r -> rep parent r r.
Proof. intros [l H]. by eapply rep_root, path_par_root. Qed.

(** From a node on the path the rest of it leads on. *)
Lemma path_suffix parent x l r y : path parent x l r -> y ∈ l -> exists l1 l2, l = l1 ++ y :: l2 /\ path parent y (y :: l2) r.
Proof.
  induction 1 as [x Hx|x p l r Hp Hne H IH]; intros Hy; [by apply not_elem_of_nil in Hy|].
  apply elem_of_cons in Hy as [->|Hy].
  - exists [], l. split; [done|]. by eapply path_step.
  - destruct (IH Hy) as (l1 & l2 & -> & H2). by exists (x :: l1), l2.
Qed.

Lemma path_head_fresh parent x p l r : par parent x = p -> p <> x -> path parent p l r -> x ∉ l /\ x <> r.
Proof.
  intros Hp Hne H. split.
  - intros Hin. destruct (path_suffix _ _ _ _ _ H Hin) as (l1 & l2 & -> & H2).
    assert (Hx : path parent x (x :: l1 ++ x :: l2) r) by (by eapply path_step).
    destruct (path_det _ _ _ _ _ _ Hx H2) as [E _]. apply (f_equal length) in E. simpl in E.
    rewrite length_app in E. simpl in E. lia.
  - intros ->. apply Hne. by rewrite <-Hp, (path_par_root _ _ _ _ H).
Qed.

Lemma path_NoDup parent x l r : path parent x l r -> NoDup l.
Proof.
  induction 1 as [|x p l r Hp Hne H IH]; [constructor|]. apply NoDup_cons. split; [|done].
  by apply (path_head_fresh parent x p l r).
Qed.

(** The nodes of a path are in the array: elsewhere a node is its own parent. *)
Lemma path_bound parent x l r : path parent x l r -> Forall (fun y => y < length parent) l.
Proof.
  induction 1 as [|x p l r Hp Hne H IH]; constructor; [|done].
  unfold par in Hp. destruct (parent !! x) eqn:E; [by apply lookup_lt_Some in E|done].
Qed.

Lemma path_length parent x l r : path parent x l r -> length l <= length parent.
Proof.
  intros H. rewrite <-(length_seq (length parent) 0). apply submseteq_length, NoDup_submseteq.
  - by eapply path_NoDup.
  - intros y Hy. apply elem_of_seq. pose proof (path_bound _ _ _ _ H) as Hb. rewrite Forall_forall in Hb.
    specialize (Hb y Hy). lia.
Qed.

(** ** Updates *)

Lemma par_insert parent x q y :
  x < length parent -> par (<[x := q]> parent) y = if decide (y = x) then q else par parent y.
Proof.
  intros Hx. unfold par. case_decide as E; [subst; by rewrite list_lookup_insert_eq|].
  by rewrite list_lookup_insert_ne.
Qed.

Lemma path_insert_other parent x q y l r :
  x < length parent -> path parent y l r -> x ∉ l -> x <> r -> path (<[x := q]> parent) y l r.
Proof.
  intros Hx. induction 1 as [y Hy|y p l r Hp Hne H IH]; intros Hn Hr.
  - apply path_root. by rewrite par_insert, decide_False.
  - apply not_elem_of_cons in Hn as [Hxy Hn]. apply (path_step _ _ p); [|done|by apply IH].
    by rewrite par_insert, decide_False.
Qed.

(** Every node has a root, inside the array for a node of the array. *)
Definition forest (parent : list nat) : Prop :=
  forall x, exists r, rep parent x r /\ (x < length parent -> r < length parent).

(** The same roots. *)
Definition same_reps (p1 p2 : list nat) : Prop :=
  length p2 = length p1 /\ forall x r, rep p1 x r <-> rep p2 x r.

#[export] Instance same_reps_equiv : Equivalence same_reps.
Proof.
  split.
  - by intros p.
  - intros p1 p2 [H1 H2]. split; [done|]. intros. by rewrite H2.
  - intros p1 p2 p3 [H1 H2] [H3 H4]. split; [congruence|]. intros. by rewrite H2, H4.
Qed.

#[export] Instance forest_proper : Proper (same_reps ==> iff) forest.
Proof. intros p1 p2 [Hl H]. unfold forest. setoid_rewrite H. by rewrite Hl. Qed.

Lemma halve_same_reps parent x p l r :
  forest parent -> par parent x = p -> p <> x -> path parent p l r ->
  same_reps parent (<[x := par parent p]> parent) /\
  path (<[x := par parent p]> parent) (par parent p) (tail l) r.
Proof.
  intros HF Hp Hne H. destruct (path_head_fresh parent x p l r Hp Hne H) as [Hn Hr].
  assert (Hx : x < length parent).
  { unfold par in Hp. destruct (parent !! x) eqn:E; [by apply lookup_lt_Some in E|done]. }
  set (parent' := <[x := par parent p]> parent).
  assert (Hup : path parent (par parent p) (tail l) r).
  { inversion H as [y Hy|y q l' r' Hq Hneq H']; subst; cbn; [rewrite Hy; by apply path_root|done]. }
  assert (Hup' : path parent' (par parent p) (tail l) r).
  { apply path_insert_other; try done. intros Hin. apply Hn. destruct l; [done|by right]. }
  split; [|done].
  assert (Hto : forall y r0, rep parent y r0 -> rep parent' y r0).
  { intros y r0 [l0 H0]. induction H0 as [y Hy|y q l0 r0 Hq Hneq H0 [l1 IH]].
    - apply rep_root. unfold parent'. rewrite par_insert by done. case_decide; [congruence|done].
    - destruct (decide (y = x)) as [->|Hyx].
      + assert (q = p) as -> by congruence. destruct (path_det _ _ _ _ _ _ H H0) as [-> ->].
        exists (x :: tail l0). apply (path_step _ _ (par parent p)); [|intros E|done].
        * unfold parent'. by rewrite par_insert, decide_True.
        * apply Hn. inversion H0 as [z Hz|z w l2 r2 Hw Hnew H2]; subst; [congruence|].
          right. rewrite E in H2. inversion H2; subst; [by destruct Hr|left].
      + exists (y :: l1). apply (path_step _ _ q); [|done|done]. unfold parent'. by rewrite par_insert, decide_False. }
  split; [apply length_insert|]. intros y r0. split; [apply Hto|]. intros H0.
  destruct (HF y) as (r1 & H1 & _). by rewrite (rep_det _ _ _ _ H0 (Hto _ _ H1)).
Qed.

Lemma find_spec fuel parent x l r :
  forest parent -> path parent x l r -> length l < fuel ->
  fst (find fuel parent x) = r /\ same_reps parent (snd (find fuel parent x)).
Proof.
  revert parent x l. induction fuel as [|fuel IH]; intros parent x l HF H Hl; [lia|]. cbn [find].
  inversion H as [y Hy|y p l' r' Hp Hne H']; subst.
  - rewrite Hy, Nat.eqb_refl. done.
  - destruct (Nat.eqb_spec (par parent x) x) as [|_]; [done|].
    destruct (halve_same_reps parent x _ l' r HF eq_refl Hne H') as [HS Hpath].
    assert (E : par (<[x := par parent (par parent x)]> parent) x = par parent (par parent x)).
    { rewrite par_insert, decide_True; [done..|]. pose proof (path_bound _ _ _ _ H) as Hb.
      by apply Forall_cons in Hb as [Hb _]. }
    rewrite E. destruct (IH _ _ (tail l') (proj1 (forest_proper _ _ HS) HF) Hpath) as [-> HS'].
    { simpl in Hl. destruct l'; simpl in *; lia. }
    split; [done|]. by etrans.
Qed.

Lemma find_root_spec parent x r :
  forest parent -> rep parent x r ->
  fst (find_root parent x) = r /\ same_reps parent (snd (find_root parent x)).
Proof.
  intros HF [l H]. apply (find_spec _ _ _ l); [done..|]. pose proof (path_length _ _ _ _ H). lia.
Qed.

(** ** Joining *)

Lemma link_reps parent a b y r :
  forest parent -> a < length parent -> par parent a = a -> par parent b = b ->
  rep parent y r -> rep (<[a := b]> parent) y (if decide (r = a) then b else r).
Proof.
  intros HF Ha Hra Hrb [l H]. destruct (decide (a = b)) as [<-|Hab].
  { rewrite list_insert_id; [case_decide; subst; by exists l|]. unfold par in Hra.
    destruct (lookup_lt_is_Some_2 _ _ Ha) as [v E]. rewrite E in Hra. simpl in Hra. by subst. }
  induction H as [y Hy|y p l r Hp Hne H [l' IH]].
  - case_decide as E; [subst y|].
    + exists [a]. apply (path_step _ _ b); [by rewrite par_insert, decide_True|done|].
      apply path_root. by rewrite par_insert, decide_False.
    + apply rep_root. by rewrite par_insert, decide_False.
  - exists (y :: l'). apply (path_step _ _ p); [|done|done].
    rewrite par_insert, decide_False; [done|congruence|done].
Qed.

Definition same (parent : list nat) (x y : nat) : Prop := exists r, rep parent x r /\ rep parent y r.

Lemma same_refl parent x : forest parent -> same parent x x.
Proof. intros HF. destruct (HF x) as (r & H & _). by exists r. Qed.
Lemma same_sym parent x y : same parent x y -> same parent y x.
Proof. intros (r & H1 & H2). by exists r. Qed.
Lemma same_trans parent x y z : same parent x y -> same parent y z -> same parent x z.
Proof. intros (r & H1 & H2) (r' & H3 & H4). rewrite (rep_det _ _ _ _ H3 H2) in H4. by exists r. Qed.

Lemma linked_same parent a b :
  forest parent -> a < length parent -> b < length parent -> par parent a = a -> par parent b = b ->
  let parent' := <[a := b]> parent in
  forest parent' /\
  (forall x y, same parent x y -> same parent' x y) /\
  (forall x y, same parent' x y -> same parent x y \/
     (rep parent x a /\ rep parent y b) \/ (rep parent x b /\ rep parent y a)).
Proof.
  intros HF Ha Hb Hra Hrb. cbv zeta.
  assert (Hlink : forall y r, rep parent y r -> rep (<[a := b]> parent) y (if decide (r = a) then b else r)).
  { intros y r. by apply link_reps. }
  split_and!.
  - intros x. destruct (HF x) as (r & Hr & Hlt). eexists. split; [by apply Hlink|]. rewrite length_insert.
    case_decide; auto.
  - intros x y (r & Hx & Hy). eexists. split; by apply Hlink.
  - intros x y (r & Hx & Hy). destruct (HF x) as (rx & Hrx & _), (HF y) as (ry & Hry & _).
    pose proof (rep_det _ _ _ _ Hx (Hlink _ _ Hrx)) as Ex. pose proof (rep_det _ _ _ _ Hy (Hlink _ _ Hry)) as Ey.
    assert (same parent x y <-> rx = ry).
    { split; [|intros ->; by exists ry]. intros (r' & H1 & H2).
      by rewrite (rep_det _ _ _ _ Hrx H1), (rep_det _ _ _ _ Hry H2). }
    repeat case_decide; subst; naive_solver.
Qed.

Lemma join_roots_spec parent i j :
  forest parent -> i < length parent -> j < length parent ->
  let parent' := join_roots parent i j in
  forest parent' /\ length parent' = length parent /\ same parent' i j /\
  (forall x y, same parent x y -> same parent' x y) /\
  (forall x y, same parent' x y -> same parent x y \/
     (same parent x i /\ same parent j y) \/ (same parent x j /\ same parent i y)).
Proof.
  intros HF Hi Hj. cbv zeta. unfold join_roots.
  destruct (HF i) as (ri & Hri & Hbi), (HF j) as (rj & Hrj & Hbj).
  destruct (find_root_spec parent i ri HF Hri) as [E1 HS1].
  destruct (find_root parent i) as [ri' p1]. cbn in E1, HS1. subst ri'.
  destruct (find_root_spec p1 j rj (proj1 (forest_proper _ _ HS1) HF) (proj1 (proj2 HS1 j rj) Hrj)) as [E2 HS2].
  destruct (find_root p1 j) as [rj' p2]. cbn in E2, HS2. subst rj'.
  assert (HS : same_reps parent p2) by (by etrans). destruct HS as [Hlen HR].
  assert (HF2 : forest p2) by (by apply (proj1 (forest_proper _ _ (conj Hlen HR)))).
  assert (Hroot : forall y r, rep parent y r -> par p2 r = r).
  { intros y r H. apply HR in H as [l H]. by eapply path_par_root. }
  destruct (linked_same p2 ri rj HF2) as (HF3 & Hm & Hs); [rewrite Hlen; auto..|by eapply Hroot|by eapply Hroot|].
  assert (Hsame : forall x y, same parent x y <-> same p2 x y) by (intros x y; unfold same; by setoid_rewrite HR).
  split_and!.
  - done.
  - by rewrite length_insert.
  - exists rj. apply HR in Hri, Hrj. split.
    + assert (Hl : rep (<[ri := rj]> p2) i (if decide (ri = ri) then rj else ri)).
      { apply link_reps; try done; [rewrite Hlen; auto|by eapply Hroot, HR|by eapply Hroot, HR]. }
      by rewrite decide_True in Hl.
    + assert (Hl : rep (<[ri := rj]> p2) j (if decide (rj = ri) then rj else rj)).
      { apply link_reps; try done; [rewrite Hlen; auto|by eapply Hroot, HR|by eapply Hroot, HR]. }
      by destruct (decide (rj = ri)).
  - intros x y H. apply Hm. by apply Hsame.
  - intros x y H. destruct (Hs x y H) as [H'|[[H1 H2]|[H1 H2]]].
    + left. by apply Hsame.
    + right. left. split; [exists ri|exists rj]; split; try done; by apply HR.
    + right. right. split; [exists rj|exists ri]; split; try done; by apply HR.
Qed.

Definition joined (pairs : list (nat * nat)) (x y : nat) : Prop := (x, y) ∈ pairs.

Lemma join_all_spec parent pairs :
  forest parent -> Forall (fun p => p.1 < length parent /\ p.2 < length parent) pairs ->
  let parent' := join_all parent pairs in
  forest parent' /\ length parent' = length parent /\
  (forall x y, same parent x y -> same parent' x y) /\
  (forall x y, joined pairs x y -> same parent' x y) /\
  (forall (R : nat -> nat -> Prop), Equivalence R -> (forall x y, same parent x y -> R x y) ->
     (forall x y, joined pairs x y -> R x y) -> forall x y, same parent' x y -> R x y).
Proof.
  revert parent. induction pairs as [|[i j] pairs IH]; intros parent HF Hb; cbv zeta.
  { split_and!; try done; auto. intros x y H. by apply not_elem_of_nil in H. }
  apply Forall_cons in Hb as [[Hi Hj] Hb]. cbn in Hi, Hj.
  destruct (join_roots_spec parent i j HF Hi Hj) as (HF1 & Hl1 & Hij & Hm1 & Hs1).
  cbn [join_all fold_left]. fold (join_all (join_roots parent i j) pairs).
  destruct (IH (join_roots parent i j) HF1) as (HF2 & Hl2 & Hm2 & Hp2 & Hs2); [by rewrite Hl1|].
  split_and!; [done|congruence|auto| |].
  - intros x y [[= -> ->]|H]%elem_of_cons; auto.
  - intros R HR HR0 HRj. apply Hs2; [done| |intros x y H; apply HRj; by right].
    assert (Rij : R i j) by (apply HRj; left).
    intros x y H. destruct (Hs1 x y H) as [H'|[[H1 H2]|[H1 H2]]]; [auto| |].
    + etrans; [by apply HR0|]. etrans; [exact Rij|]. auto.
    + etrans; [by apply HR0|]. etrans; [symmetry; exact Rij|]. auto.
Qed.

(** The array the code starts from: every node its own root. *)
Lemma seq_forest n : forest (seq 0 n) /\ forall x y, same (seq 0 n) x y -> x = y.
Proof.
  assert (Hp : forall x, par (seq 0 n) x = x).
  { intros x. unfold par. destruct (seq 0 n !! x) as [v|] eqn:E; [|done].
    apply lookup_seq in E as [-> _]. done. }
  split.
  - intros x. exists x. split; [by apply rep_root|done].
  - intros x y (r & H1 & H2). by rewrite (rep_det _ _ _ _ H1 (rep_root _ _ (Hp x))), (rep_det _ _ _ _ H2 (rep_root _ _ (Hp y))) in *.
Qed.

(** Two nodes have the same root iff joined pairs connect them. *)
Lemma join_all_connects n pairs x y :
  Forall (fun p => p.1 < n /\ p.2 < n) pairs ->
  same (join_all (seq 0 n) pairs) x y <-> rtsc (joined pairs) x y.
Proof.
  intros Hb. destruct (seq_forest n) as [HF Hs].
  destruct (join_all_spec (seq 0 n) pairs HF) as (HF' & _ & _ & Hj & HR); [by rewrite length_seq|]. split.
  - apply HR; [apply _|intros a b ->%Hs; done|]. intros a b H. by apply rtc_once; left.
  - induction 1 as [a|a b c [H|H] _ IH]; [by apply same_refl| |].
    + eapply same_trans; [by apply Hj|done].
    + eapply same_trans; [apply same_sym; by apply Hj|done].
Qed.
