(* ===== verification/GenFragment.v ===== *)
(** Planning the shared build functions: src/gen/fragment.go.

    A region is a pointer in Go: here it is a place in the heap [ps_heap], and the slices
    and maps of regions hold places. A store node is known by its index. The values that
    need go/types (signatures, names, shared compound roots) are left out. *)

From S2P Require Import Prelude.
From S2P Require Import Order.
From S2P Require Import GenNode.
From S2P Require Import GenUsage.
From S2P Require Import GenUnionFind.

(** ** The plan *)

Record storeNode := mkStoreNode { sn_n : Node; sn_use : storeUse }.

Record flowScope := mkFlowScope { fs_fn : string; fs_rootExprs : list string }.

Record region := mkRegion {
  r_usage : list string;
  r_members : list nat;
  r_primaryExpr : string;
  r_primaryVar : string
}.

Notation placeMap := (gmap nat (list nat)).

Record planState := mkPlan {
  ps_flowsOf : list (list string);
  ps_usage : list string;
  ps_isConfig : list bool;
  ps_definedBy : gmap string nat;
  ps_memberOf : placeMap;
  ps_heap : list region
}.

Definition usageKey (flows : list string) : string := String.concat "+" flows.

Definition isConfigLoad (n : Node) : bool := match n with NConfigLoad _ _ _ _ _ _ => true | _ => false end.

Definition identByte (first : bool) (b : Ascii.ascii) : bool :=
  byte_in "a" "z" b || byte_in "A" "Z" b || bool_decide (b = "_"%char) || negb first && byte_in "0" "9" b.

Definition isIdentifierExpr (s : string) : bool :=
  match s with
  | EmptyString => false
  | String a s => identByte true a && string_forall (identByte false) s
  end.

Definition define_nodes (nodes : list storeNode) : gmap string nat :=
  fold_left (fun m '(i, sn) => fold_left (fun m d => <[d := i]> m) (defines (sn_n sn)) m)
    (imap pair nodes) ∅.

(** The plan [planRegions] starts from. *)
Definition newPlan (gu : genUsage) (st : fragState) (nodes : list storeNode) : planState :=
  let flowsOf := (fun sn => nodeUsage gu st (sn_use sn)) <$> nodes in
  mkPlan flowsOf (usageKey <$> flowsOf) ((fun sn => isConfigLoad (sn_n sn)) <$> nodes)
    (define_nodes nodes) ∅ [].

Definition flowsAt (ps : planState) (i : nat) : list string := default [] (ps_flowsOf ps !! i).
Definition usageAt (ps : planState) (i : nat) : string := default EmptyString (ps_usage ps !! i).
Definition configAt (ps : planState) (i : nat) : bool := default false (ps_isConfig ps !! i).
Definition regionAt (ps : planState) (r : nat) : region := default (mkRegion [] [] EmptyString EmptyString) (ps_heap ps !! r).
Definition memberOf (ps : planState) (i : nat) : list nat := default [] (ps_memberOf ps !! i).

Definition runs (reg : region) (flow : string) : bool := bool_decide (flow ∈ r_usage reg).

Definition homeFor (ps : planState) (i : nat) (flow : string) : option nat :=
  snd <$> list_find (fun r => runs (regionAt ps r) flow = true) (memberOf ps i).

Section Fragment.
Context (ParseExpr : string -> option Expr).

Definition allVars (ps : planState) : list string := (map_to_list (ps_definedBy ps)).*1.

Definition usesOf (ps : planState) (n : Node) : list string := uses ParseExpr n (allVars ps).

(** ** Connected components *)

(** The node at [j] may share a region with one of usage [key]. *)
Definition joinable (ps : planState) (key : string) (name : string) : option nat :=
  match ps_definedBy ps !! name with
  | Some j => if negb (configAt ps j) && bool_decide (usageAt ps j = key) then Some j else None
  | None => None
  end.

Definition usePairs (ps : planState) (nodes : list storeNode) : list (nat * nat) :=
  concat (imap (fun i sn =>
    if configAt ps i then []
    else omap (fun u => pair i <$> joinable ps (usageAt ps i) u) (usesOf ps (sn_n sn))) nodes).

(** [rootFlows[e]]: the flows with the compound root [e]. *)
Definition rootFlows (scopes : list flowScope) (e : string) : list string :=
  concat ((fun s => (fun _ => fs_fn s) <$> filter (fun x => x = e) (fs_rootExprs s)) <$> scopes).

Definition compound (e : string) : bool := negb (bool_decide (e = EmptyString)) && negb (isIdentifierExpr e).

Definition rootExprs (scopes : list flowScope) : list string :=
  filter (fun e => compound e = true) (firsts [] (concat (fs_rootExprs <$> scopes))).

Definition rootPairs1 (ps : planState) (scopes : list flowScope) (e : string) : list (nat * nat) :=
  let flows := rootFlows scopes e in
  if (length flows <? 2)%nat then []
  else match omap (joinable ps (usageKey (sort_by cmp_string flows))) (freeIdents ParseExpr e) with
       | first :: js => pair first <$> js
       | [] => []
       end.

(** [exprs] are the keys of [rootFlows] in the order the map is ranged over. *)
Definition rootPairs (ps : planState) (scopes : list flowScope) (exprs : list string) : list (nat * nat) :=
  concat (rootPairs1 ps scopes <$> exprs).

Fixpoint add_member (r i : nat) (comps : list (nat * list nat)) : list (nat * list nat) :=
  match comps with
  | [] => [(r, [i])]
  | (r', ms) :: comps => if (r' =? r)%nat then (r', ms ++ [i]) :: comps else (r', ms) :: add_member r i comps
  end.

(** The nodes by root, roots in the order of their first node. *)
Fixpoint collect (ps : planState) (idx : list nat) (parent : list nat) (comps : list (nat * list nat))
    : list (nat * list nat) :=
  match idx with
  | [] => comps
  | i :: idx =>
      if configAt ps i then collect ps idx parent comps
      else let '(r, parent) := find_root parent i in collect ps idx parent (add_member r i comps)
  end.

Definition components (ps : planState) (nodes : list storeNode) (scopes : list flowScope)
    (exprs : list string) : list (list nat) :=
  let parent := join_all (seq 0 (length nodes)) (usePairs ps nodes ++ rootPairs ps scopes exprs) in
  (fun c => sort_by (cmp_on Z.of_nat cmp_Z) c.2) <$> collect ps (seq 0 (length nodes)) parent [].

Definition push_home (m : placeMap) (i r : nat) : placeMap :=
  <[i := default [] (m !! i) ++ [r]]> m.

(** A region for each component; gives the places of the new regions. *)
Definition formComponents (ps : planState) (nodes : list storeNode) (scopes : list flowScope)
    (exprs : list string) : planState * list nat :=
  fold_left (fun '(ps, regions) members =>
      let r := length (ps_heap ps) in
      let usage := match members with i :: _ => flowsAt ps i | [] => [] end in
      (mkPlan (ps_flowsOf ps) (ps_usage ps) (ps_isConfig ps) (ps_definedBy ps)
         (fold_left (fun m i => push_home m i r) members (ps_memberOf ps))
         (ps_heap ps ++ [mkRegion usage members EmptyString EmptyString]), regions ++ [r]))
    (components ps nodes scopes exprs) (ps, []).

(** ** Configuration loads *)

(** [rootRefs]: the variables the roots of each flow mention. *)
Definition rootRefs (ps : planState) (scopes : list flowScope) : gmap string (list string) :=
  fold_left (fun m s =>
    <[fs_fn s := concat ((fun e => if isIdentifierExpr e then [e]
                                   else filter (fun x => x ∈ allVars ps) (freeIdents ParseExpr e))
                         <$> fs_rootExprs s)]> m) scopes ∅.

(** Where the load at [i] is consumed: the flow, and the consumer's region in it. *)
Definition consumerHomes (ps : planState) (nodes : list storeNode) (refs : gmap string (list string))
    (i : nat) (v : string) : list (string * option nat) :=
  concat (imap (fun j sn =>
    if (j =? i)%nat || negb (bool_decide (v ∈ usesOf ps (sn_n sn))) then []
    else (fun f => (f, homeFor ps j f)) <$> flowsAt ps j) nodes) ++
  ((fun f => (f, None)) <$> filter (fun f => v ∈ default [] (refs !! f)) (flowsAt ps i)).

(** Every flow has its consumers in one place. *)
Definition agreed (notes : list (string * option nat)) : bool :=
  bool_decide (Forall (fun n1 => Forall (fun n2 => n1.1 = n2.1 -> n1.2 = n2.2) notes) notes).

Definition sortMembers (l : list nat) : list nat := sort_by (cmp_on Z.of_nat cmp_Z) l.

Definition embed (ps : planState) (i r : nat) : planState :=
  let reg := regionAt ps r in
  mkPlan (ps_flowsOf ps) (ps_usage ps) (ps_isConfig ps) (ps_definedBy ps)
    (push_home (ps_memberOf ps) i r)
    (<[r := mkRegion (r_usage reg) (sortMembers (r_members reg ++ [i])) (r_primaryExpr reg) (r_primaryVar reg)]>
       (ps_heap ps)).

(** One load. The regions are visited in the order of a map, [shuffle] of the order in
    which they were noted. *)
Definition colocate1 (shuffle : list nat -> list nat) (nodes : list storeNode)
    (refs : gmap string (list string)) (ps : planState) (i : nat) (v : string) : planState :=
  let notes := consumerHomes ps nodes refs i v in
  if agreed notes
  then fold_left (fun ps r => embed ps i r) (shuffle (firsts [] (omap snd notes))) ps
  else ps.

Definition colocateConfigs (shuffle : list nat -> list nat) (ps : planState) (nodes : list storeNode)
    (scopes : list flowScope) : planState :=
  let refs := rootRefs ps scopes in
  fold_left (fun ps '(i, sn) =>
    match sn_n sn with
    | NConfigLoad _ v _ _ _ _ => colocate1 shuffle nodes refs ps i v
    | _ => ps
    end) (imap pair nodes) ps.

(** ** Which regions stay *)

Definition rootVars (scopes : list flowScope) : list string :=
  filter (fun e => isIdentifierExpr e = true) (concat (fs_rootExprs <$> scopes)).

(** A member that gives the region a name; the names themselves are left out. *)
Definition anchors (st : fragState) (roots : list string) (sn : storeNode) : bool :=
  existsb (fun d => bool_decide (d ∈ roots)) (defines (sn_n sn)) ||
  bool_decide (b_Phase (base (sn_n sn)) = PhaseSetup) ||
  match su_demand (sn_use sn) with
  | None => false
  | Some i =>
      match fr_order st !! i with
      | Some k =>
          match k_kind k with
          | demandType => negb (bool_decide (k_name k = EmptyString))
          | demandSingleton => true
          | _ => false
          end
      | None => false
      end
  end.

Definition regionAnchored (st : fragState) (roots : list string) (nodes : list storeNode) (reg : region) : bool :=
  negb (bool_decide (r_primaryExpr reg = EmptyString)) ||
  existsb (fun m => match nodes !! m with Some sn => anchors st roots sn | None => false end) (r_members reg).

Definition regionEligible (st : fragState) (roots : list string) (nodes : list storeNode) (reg : region) : bool :=
  (2 <=? length (r_usage reg))%nat && (2 <=? length (r_members reg))%nat && regionAnchored st roots nodes reg.

(** ** Ordering a flow *)

Record unit_ := mkUnit { un_reg : option nat; un_nodes : list nat; un_first : nat }.

Fixpoint add_unit (r i : nat) (units : list unit_) : list unit_ :=
  match units with
  | [] => [mkUnit (Some r) [i] i]
  | u :: units => if bool_decide (un_reg u = Some r) then mkUnit (un_reg u) (un_nodes u ++ [i]) (un_first u) :: units
                  else u :: add_unit r i units
  end.

Definition unitsOf (ps : planState) (flow : string) (n : nat) : list unit_ :=
  fold_left (fun units i =>
    if bool_decide (flow ∈ flowsAt ps i) then
      match homeFor ps i flow with
      | Some r => add_unit r i units
      | None => units ++ [mkUnit None [i] i]
      end
    else units) (seq 0 n) [].

Definition phaseAt (nodes : list storeNode) (i : nat) : option Phase := (fun sn => b_Phase (base (sn_n sn))) <$> nodes !! i.

Definition unit_hook (nodes : list storeNode) (u : unit_) : bool :=
  existsb (fun i => bool_decide (phaseAt nodes i = Some PhaseSetup)) (un_nodes u).
Definition unit_prov (nodes : list storeNode) (u : unit_) : bool :=
  existsb (fun i => match phaseAt nodes i with
                    | Some (PhaseWire | PhaseMiddleware | PhaseRegister) => true
                    | _ => false end) (un_nodes u).

(** The unit that supplies node [j] in the flow: its own, or that of the region it
    lives in. *)
Definition nodeUnit (units : list unit_) (j : nat) : option nat :=
  fst <$> list_find (fun u => j ∈ un_nodes u) units.
Definition regUnit (units : list unit_) (r : nat) : option nat :=
  fst <$> list_find (fun u => un_reg u = Some r) units.

Definition supplier (ps : planState) (units : list unit_) (flow : string) (j : nat) : option nat :=
  match nodeUnit units j with
  | Some du => Some du
  | None => match homeFor ps j flow with Some r => regUnit units r | None => None end
  end.

Definition unitDeps (ps : planState) (nodes : list storeNode) (units : list unit_) (flow : string)
    : list (list nat) :=
  imap (fun k u =>
    concat ((fun i => match nodes !! i with
                      | Some sn => omap (fun use =>
                          match ps_definedBy ps !! use with
                          | Some j => match supplier ps units flow j with
                                      | Some du => if (du =? k)%nat then None else Some du
                                      | None => None end
                          | None => None end) (usesOf ps (sn_n sn))
                      | None => [] end) <$> un_nodes u)) units.

Inductive planStep := StepRegion (r : nat) | StepNode (i : nat).

Definition step_of (u : unit_) : planStep :=
  match un_reg u with Some r => StepRegion r | None => StepNode (default 0 (un_nodes u !! 0)) end.

(** The flags of the units, their dependencies, and what the loop keeps. *)
Record scheduler := mkScheduler { s_hook : list bool; s_prov : list bool; s_deps : list (list nat) }.

Definition hookAt (s : scheduler) (k : nat) : bool := default false (s_hook s !! k).
Definition provAt (s : scheduler) (k : nat) : bool := default false (s_prov s !! k).
Definition depsAt (s : scheduler) (k : nat) : list nat := default [] (s_deps s !! k).

Definition can_emit (s : scheduler) (emitted : gset nat) (hooksLeft : nat) (k : nat) : Prop :=
  k ∉ emitted /\ Forall (fun d => d ∈ emitted) (depsAt s k) /\
  ~ (provAt s k = true /\ hookAt s k = false /\ 0 < hooksLeft).

#[export] Instance can_emit_dec s emitted hooksLeft k : Decision (can_emit s emitted hooksLeft k).
Proof. unfold can_emit. apply _. Defined.

(** Emits the first unit that can go until none can; [true] when all are out. *)
Fixpoint orderLoop (remaining : nat) (s : scheduler) (emitted : gset nat) (hooksLeft : nat)
    (out : list nat) : bool * list nat :=
  match remaining with
  | O => (true, out)
  | S remaining =>
      match list_find (can_emit s emitted hooksLeft) (seq 0 (length (s_hook s))) with
      | Some (_, k) =>
          orderLoop remaining s ({[k]} ∪ emitted) (if hookAt s k then pred hooksLeft else hooksLeft) (out ++ [k])
      | None => (false, out)
      end
  end.

Definition hooks_of (s : scheduler) : list nat := filter (fun k => hookAt s k = true) (seq 0 (length (s_hook s))).

Definition runSchedule (s : scheduler) : bool * list nat :=
  orderLoop (length (s_hook s)) s ∅ (length (hooks_of s)) [].

Definition sortUnits (units : list unit_) : list unit_ := sort_by (cmp_on (fun u => Z.of_nat (un_first u)) cmp_Z) units.

Definition schedulerOf (ps : planState) (nodes : list storeNode) (flow : string) (units : list unit_) : scheduler :=
  mkScheduler (unit_hook nodes <$> units) (unit_prov nodes <$> units) (unitDeps ps nodes units flow).

(** [orderFlow]: the region that cannot be scheduled, if any, and the steps. The sort is
    stable; the units are numbered after it, since they are pointers before. *)
Definition orderFlow (ps : planState) (nodes : list storeNode) (flow : string)
    : option nat * list planStep :=
  let units := sortUnits (unitsOf ps flow (length nodes)) in
  let '(complete, out) := runSchedule (schedulerOf ps nodes flow units) in
  (if complete then None
   else head (omap (fun k => u ← units !! k; un_reg u) (filter (fun k => k ∉ out) (seq 0 (length units)))),
   omap (fun k => step_of <$> units !! k) out).

(** ** Dissolving regions *)

Definition drop_home (m : placeMap) (r i : nat) : placeMap :=
  let rs := filter (fun x => x <> r) (default [] (m !! i)) in
  if bool_decide (rs = []) then delete i m else <[i := rs]> m.

Definition dissolve (ps : planState) (scopes : list flowScope) (r : nat) : planState * list flowScope :=
  let reg := regionAt ps r in
  let named := negb (bool_decide (r_primaryVar reg = EmptyString)) in
  (mkPlan (ps_flowsOf ps) (ps_usage ps) (ps_isConfig ps) (ps_definedBy ps)
     (fold_left (fun m i => drop_home m r i) (r_members reg) (ps_memberOf ps))
     (<[r := mkRegion (r_usage reg) []
               (if named then EmptyString else r_primaryExpr reg)
               (if named then EmptyString else r_primaryVar reg)]> (ps_heap ps)),
   if named then
     (fun s => mkFlowScope (fs_fn s)
        ((fun e => if bool_decide (e = r_primaryVar reg) then r_primaryExpr reg else e) <$> fs_rootExprs s)) <$> scopes
   else scopes).

Definition findUnschedulable (ps : planState) (nodes : list storeNode) (scopes : list flowScope) : option nat :=
  head (omap (fun s => fst (orderFlow ps nodes (fs_fn s))) scopes).

(** The loop that dissolves regions until every flow can be ordered. *)
Fixpoint dissolveLoop (fuel : nat) (ps : planState) (nodes : list storeNode) (scopes : list flowScope)
    (regions : list nat) : option (planState * list flowScope * list nat) :=
  match fuel with
  | O => None
  | S fuel =>
      match findUnschedulable ps nodes scopes with
      | None => Some (ps, scopes, regions)
      | Some broken =>
          let '(ps, scopes) := dissolve ps scopes broken in
          dissolveLoop fuel ps nodes scopes (filter (fun r => r <> broken) regions)
      end
  end.

(** [keep]: drops the regions that do not pass. *)
Fixpoint keep (pass : planState -> nat -> bool) (regions : list nat) (ps : planState)
    (scopes : list flowScope) : planState * list flowScope * list nat :=
  match regions with
  | [] => (ps, scopes, [])
  | r :: regions =>
      if pass ps r
      then let '(ps, scopes, out) := keep pass regions ps scopes in (ps, scopes, r :: out)
      else let '(ps, scopes) := dissolve ps scopes r in keep pass regions ps scopes
  end.

(** The steps of every flow, as the renderer reads them. *)
Definition planSteps (ps : planState) (nodes : list storeNode) (scopes : list flowScope)
    : gmap string (list planStep) :=
  fold_left (fun m s => <[fs_fn s := snd (orderFlow ps nodes (fs_fn s))]> m) scopes ∅.

(** [planRegions] up to the regions that can be scheduled, and without the shared roots
    that [embedSharedRoots] finds by their types; the loop that then dissolves regions with
    too many parameters is left out too. [exprs] and [shuffle] are the orders of two map loops; the fuel of the loop is the number of regions and one. *)
Definition planRegions (gu : genUsage) (st : fragState) (nodes : list storeNode) (scopes : list flowScope)
    (exprs : list string) (shuffle : list nat -> list nat)
    : option (planState * list flowScope * list nat) :=
  let roots := rootVars scopes in
  let '(ps, regions) := formComponents (newPlan gu st nodes) nodes scopes exprs in
  let ps := colocateConfigs shuffle ps nodes scopes in
  let '(ps, scopes, regions) :=
    keep (fun ps r => regionEligible st roots nodes (regionAt ps r)) regions ps scopes in
  dissolveLoop (S (length regions)) ps nodes scopes regions.

End Fragment.
