(* ===== verification/GenFragmentSpec.v ===== *)
(** What the regions of GenFragment.v are: at the start the connected components of the
    nodes with the same usage; at the end pieces around which the steps of every flow
    are in order; and what that order is. *)

From S2P Require Import Prelude.
From S2P Require Import Order.
From S2P Require Import GenNode.
From S2P Require Import GenUsage.
From S2P Require Import GenUnionFind.
From S2P Require Import GenLayoutSpec.
From S2P Require Import GenFragment.
From S2P Require Import Digraph.
From S2P Require Import GenLayout.
From S2P Require Import GenCheck.

(** ** Grouping by root *)

(** The groups hold the nodes seen so far, each under its root. *)
Record grouped (parent : list nat) (seen : list nat) (comps : list (nat * list nat)) : Prop := {
  gr_roots : NoDup (comps.*1);
  gr_perm : concat (comps.*2) ≡ₚ seen;
  gr_rep : forall r ms i, (r, ms) ∈ comps -> i ∈ ms -> rep parent i r
}.

Lemma add_member_roots r i comps x : x ∈ (add_member r i comps).*1 <-> x = r \/ x ∈ comps.*1.
Proof.
  induction comps as [|[r' ms] comps IH]; cbn [add_member].
  - cbn. rewrite list_elem_of_singleton. pose proof (not_elem_of_nil x). tauto.
  - destruct (Nat.eqb_spec r' r) as [->|Hne]; rewrite !fmap_cons, !elem_of_cons; cbn; [tauto|].
    rewrite IH. tauto.
Qed.

Lemma add_member_grouped parent seen comps r i :
  grouped parent seen comps -> rep parent i r -> grouped parent (seen ++ [i]) (add_member r i comps).
Proof.
  intros [Hd HP HR] Hi. constructor.
  - clear HP HR. induction comps as [|[r' ms] comps IH]; cbn [add_member]; [apply NoDup_singleton|].
    rewrite fmap_cons, NoDup_cons in Hd. destruct Hd as [Hn Hd]. cbn in Hn.
    destruct (Nat.eqb_spec r' r) as [->|Hne]; rewrite fmap_cons, NoDup_cons; cbn; [done|].
    split; [|auto]. rewrite add_member_roots. intros [->|]; done.
  - rewrite <-HP. clear Hd HP HR Hi. induction comps as [|[r' ms] comps IH]; cbn [add_member]; [done|].
    destruct (r' =? r)%nat; cbn; [|by rewrite <-app_assoc, IH]. rewrite <-!app_assoc. f_equiv. apply Permutation_app_comm.
  - clear Hd HP. induction comps as [|[r' ms] comps IH]; cbn [add_member]; intros r0 ms0 j.
    + intros [= -> ->]%list_elem_of_singleton ->%list_elem_of_singleton. done.
    + destruct (Nat.eqb_spec r' r) as [->|Hne]; intros [[= -> ->]|Hin]%elem_of_cons Hj.
      * apply elem_of_app in Hj as [Hj| ->%list_elem_of_singleton]; [|done]. apply (HR r ms); [left|done].
      * apply (HR r0 ms0); [by right|done].
      * apply (HR r' ms); [left|done].
      * apply (IH ltac:(intros r1 ms1 j1 H1; apply HR; by right) r0 ms0 j Hin Hj).
Qed.

Lemma collect_grouped ps P0 idx parent seen comps :
  forest P0 -> same_reps P0 parent -> grouped P0 seen comps ->
  grouped P0 (seen ++ filter (fun i => configAt ps i = false) idx) (collect ps idx parent comps).
Proof.
  intros HF. revert parent seen comps. induction idx as [|i idx IH]; intros parent seen comps HS G; cbn [collect].
  { cbn. by rewrite app_nil_r. }
  rewrite filter_cons. destruct (configAt ps i) eqn:EC.
  - rewrite decide_False by done. by apply IH.
  - rewrite decide_True by done. destruct (HF i) as (r & Hr & _).
    destruct (find_root_spec parent i r (proj1 (forest_proper _ _ HS) HF) (proj1 (proj2 HS i r) Hr)) as [E HS'].
    destruct (find_root parent i) as [r' parent']. cbn in E, HS'. subst r'.
    change (filter (λ i, configAt ps i = false) idx) with (filter (λ i, configAt ps i = false) idx).
    rewrite cons_middle, app_assoc. apply IH; [by etrans|]. by apply add_member_grouped.
Qed.

(** Two nodes in groups are together iff they have the same root. *)
Lemma grouped_together parent seen comps r ms i j :
  grouped parent seen comps -> (r, ms) ∈ comps -> i ∈ ms -> j ∈ seen ->
  j ∈ ms <-> same parent i j.
Proof.
  intros [Hd HP HR] Hc Hi Hj. split.
  - intros Hjm. exists r. split; by eapply HR.
  - intros (r' & H1 & H2). rewrite <-HP in Hj. apply list_elem_of_In, in_concat in Hj as (ms' & Hms & Hjm).
    apply list_elem_of_In in Hms, Hjm. apply list_elem_of_fmap in Hms as ([r2 ms2] & -> & Hc2). cbn in Hjm.
    assert (r2 = r) as ->.
    { rewrite (rep_det _ _ _ _ (HR _ _ _ Hc2 Hjm) H2). by rewrite (rep_det _ _ _ _ H1 (HR _ _ _ Hc Hi)). }
    assert (ms2 = ms) as ->; [|done].
    pose proof (NoDup_key_inj fst comps (r, ms2) (r, ms) Hd Hc2 Hc eq_refl). congruence.
Qed.

(** ** The components *)

Section Components.
Context (ParseExpr : string -> option Expr).

Lemma define_nodes_range nodes u k : define_nodes nodes !! u = Some k -> k < length nodes.
Proof.
  unfold define_nodes.
  cut (forall (l : list (nat * storeNode)) (m : gmap string nat),
    (forall u k, m !! u = Some k -> k < length nodes) -> (forall i sn, (i, sn) ∈ l -> i < length nodes) ->
    forall u k, fold_left (fun m '(i, sn) => fold_left (fun m d => <[d := i]> m) (defines (sn_n sn)) m) l m !! u = Some k ->
    k < length nodes).
  { intros H. apply H; [intros u' k'; by rewrite lookup_empty|].
    intros i sn Hin. apply elem_of_indexed in Hin. by apply lookup_lt_Some in Hin. }
  intros l. induction l as [|[i sn] l IH]; intros m Hm Hl; [done|]. cbn [fold_left]. apply IH.
  - intros u' k' H'. apply define_all_lookup in H' as [H'|[-> _]]; [by eapply Hm|]. apply (Hl i sn). left.
  - intros j sn' Hin. apply (Hl j sn'). by right.
Qed.

Lemma joinable_spec ps key name j :
  joinable ps key name = Some j ->
  ps_definedBy ps !! name = Some j /\ configAt ps j = false /\ usageAt ps j = key.
Proof.
  unfold joinable. destruct (ps_definedBy ps !! name) as [k|]; [|done].
  destruct (configAt ps k) eqn:EC; cbn; [done|]. case_bool_decide; [|done]. by intros [= ->].
Qed.

Definition pairs_of (ps : planState) (nodes : list storeNode) (scopes : list flowScope) (exprs : list string)
    : list (nat * nat) := usePairs ParseExpr ps nodes ++ rootPairs ParseExpr ps scopes exprs.

(** Only nodes of the store that are no loads are joined, and only within a usage. *)
Lemma pairs_of_spec gu st nodes scopes exprs i j :
  let ps := newPlan gu st nodes in
  (i, j) ∈ pairs_of ps nodes scopes exprs ->
  (i < length nodes /\ configAt ps i = false) /\ (j < length nodes /\ configAt ps j = false) /\
  usageAt ps i = usageAt ps j.
Proof.
  cbv zeta. set (ps := newPlan gu st nodes). intros [H|H]%elem_of_app; apply elem_of_concat in H as (l & Hl & H).
  - apply elem_of_lookup_imap in Hl as (k & sn & -> & Hk). destruct (configAt ps k) eqn:EC; [by apply not_elem_of_nil in H|].
    apply list_elem_of_omap in H as (u & _ & H). destruct (joinable ps (usageAt ps k) u) as [j'|] eqn:EJ; [|done].
    injection H as -> ->. apply joinable_spec in EJ as (Hd & Hc & Hu). apply define_nodes_range in Hd.
    apply lookup_lt_Some in Hk. done.
  - apply list_elem_of_fmap in Hl as (e & -> & _). unfold rootPairs1 in H.
    destruct (length (rootFlows scopes e) <? 2)%nat; [by apply not_elem_of_nil in H|].
    set (key := usageKey _) in H.
    assert (Hall : forall x, x ∈ omap (joinable ps key) (freeIdents ParseExpr e) ->
              (x < length nodes /\ configAt ps x = false) /\ usageAt ps x = key).
    { intros x (name & _ & EJ)%list_elem_of_omap. apply joinable_spec in EJ as (Hd & Hc & Hu).
      by apply define_nodes_range in Hd. }
    destruct (omap _ _) as [|first js]; [by apply not_elem_of_nil in H|].
    apply list_elem_of_fmap in H as (x & [= -> ->] & Hx).
    destruct (Hall first ltac:(left)) as [? ?], (Hall x ltac:(by right)) as [? ?].
    split_and!; try tauto; congruence.
Qed.

Lemma connected_usage gu st nodes scopes exprs i j :
  let ps := newPlan gu st nodes in
  rtsc (joined (pairs_of ps nodes scopes exprs)) i j -> usageAt ps i = usageAt ps j.
Proof.
  cbv zeta. induction 1 as [a|a b c [Hab|Hab] _ IH]; [done| |]; apply pairs_of_spec in Hab as (_ & _ & E); congruence.
Qed.

(** The regions start as the connected components. Every stored node that is no
    configuration load is in exactly one component; two are in the same one iff a chain
    of uses between nodes of equal usage, or a compound root the flows share, connects
    them; so a component has one usage. *)
Theorem components_are_the_connected_nodes gu st nodes scopes exprs :
  let ps := newPlan gu st nodes in
  let comps := components ParseExpr ps nodes scopes exprs in
  concat comps ≡ₚ filter (fun i => configAt ps i = false) (seq 0 (length nodes)) /\
  (forall c i j, c ∈ comps -> i ∈ c -> j < length nodes -> configAt ps j = false ->
     j ∈ c <-> rtsc (joined (pairs_of ps nodes scopes exprs)) i j) /\
  (forall c i j, c ∈ comps -> i ∈ c -> j ∈ c -> usageAt ps i = usageAt ps j).
Proof.
  cbv zeta. set (ps := newPlan gu st nodes). unfold components. fold (pairs_of ps nodes scopes exprs).
  set (pairs := pairs_of ps nodes scopes exprs). set (n := length nodes). set (parent := join_all (seq 0 n) pairs).
  assert (Hb : Forall (fun p => p.1 < n /\ p.2 < n) pairs).
  { apply Forall_forall. intros [i j] H. by apply pairs_of_spec in H as ([? _] & [? _] & _). }
  assert (HF : forest parent).
  { apply join_all_spec; [apply seq_forest|by rewrite length_seq]. }
  assert (G : grouped parent (filter (fun i => configAt ps i = false) (seq 0 n)) (collect ps (seq 0 n) parent [])).
  { apply (collect_grouped ps parent (seq 0 n) parent [] []); [done..|]. constructor; [constructor|done|].
    intros r ms i H. by apply not_elem_of_nil in H. }
  assert (Hin : forall c i, c ∈ (fun c => sort_by (cmp_on Z.of_nat cmp_Z) c.2) <$> collect ps (seq 0 n) parent [] ->
    exists r ms, (r, ms) ∈ collect ps (seq 0 n) parent [] /\ (i ∈ c <-> i ∈ ms)).
  { intros c i H. apply list_elem_of_fmap in H as ([r ms] & -> & H). exists r, ms. split; [done|]. apply elem_of_sort_by. }
  assert (Hconn : forall c i j, c ∈ (fun c => sort_by (cmp_on Z.of_nat cmp_Z) c.2) <$> collect ps (seq 0 n) parent [] ->
    i ∈ c -> j < n -> configAt ps j = false -> j ∈ c <-> rtsc (joined pairs) i j).
  { intros c i j Hc Hi Hj Hcj. apply list_elem_of_fmap in Hc as ([r ms] & -> & Hc). cbn [snd] in *.
    rewrite elem_of_sort_by in Hi |- *. rewrite <-(join_all_connects n pairs i j Hb).
    apply (grouped_together _ _ _ r ms i j G Hc Hi). apply list_elem_of_filter. split; [done|]. apply elem_of_seq. lia. }
  split_and!; [|done|].
  - rewrite <-(gr_perm _ _ _ G). generalize (collect ps (seq 0 n) parent []) as l. induction l as [|[r ms] l IH]; [done|].
    rewrite !fmap_cons, !concat_cons, IH. cbn [snd]. by rewrite sort_by_perm.
  - intros c i j Hc Hi Hj.
    assert (HJ : j < n /\ configAt ps j = false).
    { apply list_elem_of_fmap in Hc as ([r ms] & -> & Hc). cbn [snd] in Hj. rewrite elem_of_sort_by in Hj.
      assert (Hjin : j ∈ concat ((collect ps (seq 0 n) parent []).*2)).
      { apply elem_of_concat. exists ms. split; [|done]. apply list_elem_of_fmap. by exists (r, ms). }
      rewrite (gr_perm _ _ _ G), list_elem_of_filter, elem_of_seq in Hjin. split; [lia|tauto]. }
    destruct HJ as [HJ1 HJ2]. apply (Hconn c i j Hc Hi HJ1 HJ2) in Hj.
    by apply (connected_usage gu st nodes scopes exprs).
Qed.
End Components.

(** ** The order of a flow's build steps (GenFragment.v): dependencies first, every hook
    before the providers, and complete exactly when those constraints can be met. *)

(** ** The barrier as dependencies *)

(** A unit that provides and has no hook waits for all hooks. *)
Definition waits (s : scheduler) (k : nat) : bool := provAt s k && negb (hookAt s k).

Definition barrier (s : scheduler) : list (list nat) :=
  imap (fun k ds => ds ++ (if waits s k then hooks_of s else [])) (s_deps s).

Definition units_count (s : scheduler) : nat := length (s_hook s).

(** The lists of a scheduler have one entry for each unit. *)
Record sched_ok (s : scheduler) : Prop := {
  so_prov : length (s_prov s) = units_count s;
  so_deps : length (s_deps s) = units_count s;
  so_range : in_range (units_count s) (s_deps s)
}.

Lemma elem_of_hooks s k : k ∈ hooks_of s <-> k < units_count s /\ hookAt s k = true.
Proof.
  unfold hooks_of, units_count. rewrite list_elem_of_filter, elem_of_seq. intuition lia.
Qed.

Lemma barrier_lookup s k d : sched_ok s -> k < units_count s ->
  d ∈ deps_of (barrier s) k <-> d ∈ depsAt s k \/ waits s k = true /\ d ∈ hooks_of s.
Proof.
  intros [_ Hd _] Hk. unfold deps_of, barrier, depsAt. rewrite list_lookup_imap.
  destruct (lookup_lt_is_Some_2 (s_deps s) k) as [ds ->]; [lia|]. cbn. rewrite elem_of_app.
  pose proof (not_elem_of_nil d). destruct (waits s k); naive_solver.
Qed.

Lemma barrier_length s : sched_ok s -> length (barrier s) = units_count s.
Proof. intros [_ Hd _]. unfold barrier. by rewrite length_imap. Qed.

Lemma barrier_range s : sched_ok s -> in_range (units_count s) (barrier s).
Proof.
  intros Ok k d H. destruct (decide (k < units_count s)) as [Hk|Hk].
  - apply barrier_lookup in H as [H|[_ H]]; [|by apply elem_of_hooks in H as [H _]|done|done].
    by apply (so_range _ Ok) in H.
  - unfold deps_of in H. rewrite lookup_ge_None_2 in H by (rewrite barrier_length by done; lia).
    by apply not_elem_of_nil in H.
Qed.

(** ** The loop *)

Record order_inv (s : scheduler) (emitted : gset nat) (hooksLeft remaining : nat) (out : list nat) : Prop := {
  oi_nodup : NoDup out;
  oi_range : forall k, k ∈ out -> k < units_count s;
  oi_emitted : forall k, k ∈ emitted <-> k ∈ out;
  oi_hooks : hooksLeft = length (filter (fun k => k ∉ emitted) (hooks_of s));
  oi_count : length out + remaining = units_count s;
  oi_closed : closed_order (barrier s) out
}.

Lemma can_emit_barrier s emitted hooksLeft remaining out k :
  sched_ok s -> order_inv s emitted hooksLeft remaining out -> k < units_count s ->
  can_emit s emitted hooksLeft k <-> k ∉ out /\ forall d, d ∈ deps_of (barrier s) k -> d ∈ out.
Proof.
  intros Ok I Hk. unfold can_emit. rewrite Forall_forall, (oi_emitted _ _ _ _ _ I).
  setoid_rewrite (oi_emitted _ _ _ _ _ I). setoid_rewrite (barrier_lookup s k _ Ok Hk).
  assert (Hl : 0 < hooksLeft <-> exists h, h ∈ hooks_of s /\ h ∉ out).
  { rewrite (oi_hooks _ _ _ _ _ I). setoid_rewrite <-(oi_emitted _ _ _ _ _ I).
    destruct (filter (fun k => k ∉ emitted) (hooks_of s)) as [|h l] eqn:E; simpl.
    - split; [lia|]. intros (h & Hh & Hn). exfalso. apply (not_elem_of_nil h). rewrite <-E.
      apply list_elem_of_filter. split; [exact Hn|done].
    - split; [|lia]. intros _. exists h. assert (Hin : h ∈ h :: l) by left. rewrite <-E in Hin.
      by apply list_elem_of_filter in Hin as [? ?]. }
  assert (Hw : waits s k = true <-> provAt s k = true /\ hookAt s k = false).
  { unfold waits. rewrite andb_true_iff, negb_true_iff. done. }
  rewrite Hl. split.
  - intros (Hn & Hd & Hb). split; [done|]. intros d [H|[H1 H2]]; [auto|].
    destruct (decide (d ∈ out)) as [|Hdn]; [done|]. destruct Hb. apply Hw in H1 as [? ?]. eauto.
  - intros (Hn & Hd). split_and!; [done|auto|]. intros (H1 & H2 & h & Hh & Hnh). apply Hnh, Hd. right.
    split; [by apply Hw|done].
Qed.

Lemma hooks_left s emitted k :
  k ∉ emitted -> k < units_count s ->
  length (filter (fun h => h ∉ ({[k]} ∪ emitted : gset nat)) (hooks_of s)) =
  (let left := length (filter (fun h => h ∉ emitted) (hooks_of s)) in
   if hookAt s k then pred left else left).
Proof.
  intros Hk Hlt. cbv zeta. assert (Hd : NoDup (hooks_of s)) by apply NoDup_filter, NoDup_seq.
  destruct (hookAt s k) eqn:E.
  - assert (Hin : k ∈ hooks_of s) by by apply elem_of_hooks.
    apply list_elem_of_split in Hin as (l1 & l2 & El). rewrite El in Hd |- *.
    apply NoDup_app in Hd as (_ & Hd1 & Hd2). apply NoDup_cons in Hd2 as [Hd2 _].
    rewrite !filter_app, !filter_cons, decide_False, decide_True by set_solver.
    rewrite !length_app. simpl. rewrite Nat.add_succ_r. simpl.
    f_equal; f_equal; apply list_filter_ext; intros x Hx; rewrite not_elem_of_union, not_elem_of_singleton.
    + split; [by intros [_ ?]|]. intros ?. split; [|done]. intros ->. apply (Hd1 k Hx). left.
    + split; [by intros [_ ?]|]. intros ?. split; [|done]. by intros ->.
  - f_equal. apply list_filter_ext. intros x Hx. rewrite not_elem_of_union, not_elem_of_singleton.
    apply elem_of_hooks in Hx as [_ Hx]. split; [by intros [_ ?]|]. intros ?. split; [congruence|done].
Qed.

(** What the loop ends with: a closed order of distinct units, and when it is not
    complete every unit left over lacks something it waits for. *)
Definition stuck (s : scheduler) (out : list nat) : Prop :=
  forall k, k < units_count s -> k ∉ out -> ~ (forall d, d ∈ deps_of (barrier s) k -> d ∈ out).

Lemma orderLoop_spec s remaining emitted hooksLeft out :
  sched_ok s -> order_inv s emitted hooksLeft remaining out ->
  let '(complete, out') := orderLoop remaining s emitted hooksLeft out in
  NoDup out' /\ (forall k, k ∈ out' -> k < units_count s) /\ closed_order (barrier s) out' /\
  if complete then length out' = units_count s
  else stuck s out' /\ length out' < units_count s.
Proof.
  intros Ok. revert emitted hooksLeft out. induction remaining as [|remaining IH]; intros emitted hooksLeft out I;
    cbn [orderLoop].
  { destruct I. split_and!; try done. lia. }
  destruct (list_find _ _) as [[p k]|] eqn:EF.
  - apply list_find_Some in EF as (Hp & Hc & _). apply lookup_seq in Hp as [-> Hk].
    assert (Hk' : 0 + p < units_count s) by (unfold units_count; lia). clear Hk. cbn [plus] in *.
    pose proof Hc as (Hne & _). apply (can_emit_barrier _ _ _ _ _ _ Ok I Hk') in Hc as [Hn Hd].
    apply IH. constructor.
    + apply NoDup_app. split_and!; [apply (oi_nodup _ _ _ _ _ I)| |apply NoDup_singleton].
      intros x Hx ->%list_elem_of_singleton. done.
    + intros x [Hx| ->%list_elem_of_singleton]%elem_of_app; [by apply (oi_range _ _ _ _ _ I)|done].
    + intros x. rewrite elem_of_union, elem_of_singleton, elem_of_app, list_elem_of_singleton, (oi_emitted _ _ _ _ _ I).
      tauto.
    + rewrite hooks_left by done. by rewrite <-(oi_hooks _ _ _ _ _ I).
    + rewrite length_app. simpl. pose proof (oi_count _ _ _ _ _ I). lia.
    + apply closed_snoc; [apply (oi_closed _ _ _ _ _ I)|done].
  - apply list_find_None in EF. rewrite Forall_forall in EF. pose proof (oi_count _ _ _ _ _ I).
    split_and!; [apply (oi_nodup _ _ _ _ _ I)|apply (oi_range _ _ _ _ _ I)|apply (oi_closed _ _ _ _ _ I)| |lia].
    intros k Hk Hn Hd. apply (EF k).
    + apply elem_of_seq. unfold units_count in Hk. lia.
    + by apply (can_emit_barrier _ _ _ _ _ _ Ok I Hk).
Qed.

Lemma runSchedule_spec s :
  sched_ok s ->
  let '(complete, out) := runSchedule s in
  NoDup out /\ (forall k, k ∈ out -> k < units_count s) /\ closed_order (barrier s) out /\
  if complete then length out = units_count s
  else stuck s out /\ length out < units_count s.
Proof.
  intros Ok. apply orderLoop_spec; [done|]. constructor; try done.
  - constructor.
  - intros k Hk. by apply not_elem_of_nil in Hk.
  - intros k. pose proof (not_elem_of_nil k). set_solver.
  - unfold hooks_of. rewrite list_filter_filter. f_equal. apply list_filter_ext. intros k _. set_solver.
  - intros l1 k l2 E. by destruct l1.
Qed.

(** An order is complete iff the waiting relation has no cycle. *)
Lemma runSchedule_complete s :
  sched_ok s ->
  let '(complete, out) := runSchedule s in complete = true <-> acyclic (barrier s).
Proof.
  intros Ok. pose proof (runSchedule_spec s Ok) as H. destruct (runSchedule s) as [complete out].
  destruct H as (Hd & Hr & HC & H). destruct complete; split; try done.
  - intros _. apply (closed_acyclic (units_count s) _ out); [by apply barrier_length|done|].
    intros k Hk. assert (HP : out ≡ₚ seq 0 (units_count s)) by by apply full_permutation.
    rewrite HP. apply elem_of_seq. lia.
  - intros [rank Hrank]. destruct H as [Hstuck Hlen]. exfalso.
    destruct (missing_index (units_count s) out Hd Hr Hlen) as (k & Hk & Hn).
    destruct (least_unemitted rank (units_count s) (list_to_set out) k) as (i & Hi & Hin & Hmin);
      [done|by rewrite elem_of_list_to_set|].
    rewrite elem_of_list_to_set in Hin. apply (Hstuck i Hi Hin). intros d Hdi.
    destruct (decide (d ∈ out)) as [|Hdn]; [done|]. pose proof (Hrank _ _ Hdi).
    assert (rank i <= rank d); [|lia]. apply Hmin; [by apply (barrier_range s Ok i)|].
    by rewrite elem_of_list_to_set.
Qed.

(** ** Flows *)

Section Flow.
Context (ParseExpr : string -> option Expr).

Definition flowUnits (ps : planState) (nodes : list storeNode) (flow : string) : list unit_ :=
  sortUnits (unitsOf ps flow (length nodes)).

Lemma list_find_index {A} (P : A -> Prop) `{!forall x, Decision (P x)} (l : list A) k :
  fst <$> list_find P l = Some k -> exists x, l !! k = Some x /\ P x.
Proof. destruct (list_find P l) as [[i x]|] eqn:E; [|done]. intros [= <-]. apply list_find_Some in E as (? & ? & _). eauto. Qed.

Lemma supplier_range ps units flow j d : supplier ps units flow j = Some d -> d < length units.
Proof.
  assert (Hlt : forall (P : unit_ -> Prop) `{!forall x, Decision (P x)}, fst <$> list_find P units = Some d -> d < length units).
  { intros P ? H. apply list_find_index in H as (u & Hu & _). by apply lookup_lt_Some in Hu. }
  unfold supplier, nodeUnit, regUnit. destruct (fst <$> list_find _ units) eqn:E.
  - intros [= ->]. by apply Hlt in E.
  - destruct (homeFor ps j flow); [|done]. apply Hlt.
Qed.

Lemma schedulerOf_ok ps nodes flow units : sched_ok (schedulerOf ParseExpr ps nodes flow units).
Proof.
  assert (Hc : units_count (schedulerOf ParseExpr ps nodes flow units) = length units)
    by (unfold units_count; cbn; by rewrite length_fmap).
  constructor; rewrite ?Hc; cbn.
  - by rewrite length_fmap.
  - by unfold unitDeps; rewrite length_imap.
  - intros k d H. unfold deps_of, unitDeps in H. rewrite list_lookup_imap in H.
    destruct (units !! k) as [u|] eqn:Eu; [|by apply not_elem_of_nil in H]. cbn in H.
    rewrite list_elem_of_In, in_concat in H. destruct H as (l & Hl & Hd).
    apply list_elem_of_In in Hl, Hd. apply list_elem_of_fmap in Hl as (i & -> & _).
    destruct (nodes !! i) as [sn|]; [|by apply not_elem_of_nil in Hd].
    apply list_elem_of_omap in Hd as (use & _ & Hd). destruct (ps_definedBy ps !! use) as [j|]; [|done].
    destruct (supplier ps units flow j) as [du|] eqn:ES; [|done].
    destruct (du =? k)%nat; [done|]. injection Hd as ->. by eapply supplier_range.
Qed.

(** The build steps of a flow are ordered exactly when they can be. The steps are
    distinct units of the flow, each after the units that supply what it uses, and a
    unit that only provides after every setup hook. All units are out iff those
    constraints have no cycle; a region is reported only when they have one, and the
    region is one of those left over. *)
Theorem flow_order_is_exact ps nodes flow :
  let units := flowUnits ps nodes flow in
  let waiting := barrier (schedulerOf ParseExpr ps nodes flow units) in
  exists out, snd (orderFlow ParseExpr ps nodes flow) = omap (fun k => step_of <$> units !! k) out /\
    NoDup out /\ (forall k, k ∈ out -> k < length units) /\ closed_order waiting out /\
    (acyclic waiting <-> out ≡ₚ seq 0 (length units)) /\
    (forall r, fst (orderFlow ParseExpr ps nodes flow) = Some r ->
       ~ acyclic waiting /\ exists k u, units !! k = Some u /\ k ∉ out /\ un_reg u = Some r).
Proof.
  cbv zeta. set (units := flowUnits ps nodes flow). set (s := schedulerOf ParseExpr ps nodes flow units).
  assert (Ok : sched_ok s) by apply schedulerOf_ok.
  assert (Hc : units_count s = length units) by (unfold units_count; cbn; by rewrite length_fmap).
  pose proof (runSchedule_spec s Ok) as HS. pose proof (runSchedule_complete s Ok) as HA.
  unfold orderFlow. fold (flowUnits ps nodes flow). fold units. fold s.
  destruct (runSchedule s) as [complete out]. destruct HS as (Hd & Hr & HC & H). rewrite Hc in *.
  exists out. split_and!; try done.
  - rewrite <-HA. destruct complete.
    + split; [intros _; by apply full_permutation|done].
    + split; [done|]. intros HP. apply Permutation_length in HP. rewrite length_seq in HP. destruct H. lia.
  - cbn [fst]. intros r E. destruct complete; [done|]. split; [by rewrite <-HA|].
    apply head_Some_elem_of in E. apply list_elem_of_omap in E as (k & Hk & E).
    apply list_elem_of_filter in Hk as [Hk _]. destruct (units !! k) as [u|] eqn:Eu; [|done]. eauto.
Qed.

(** A region reported by [orderFlow] is the home of a node. *)
Lemma add_unit_regs r i us u x :
  u ∈ add_unit r i us -> un_reg u = Some x -> x = r \/ exists u', u' ∈ us /\ un_reg u' = Some x.
Proof.
  induction us as [|u0 us IH]; cbn [add_unit].
  - intros ->%list_elem_of_singleton [= ->]. by left.
  - case_bool_decide as E.
    + intros [->|Hu]%elem_of_cons Hx; [cbn in Hx; left; congruence|]. right. exists u. split; [by right|done].
    + intros [->|Hu]%elem_of_cons Hx; [right; exists u0; split; [left|done]|].
      destruct (IH Hu Hx) as [|(u' & ? & ?)]; [by left|]. right. exists u'. split; [by right|done].
Qed.

Lemma unitsOf_regs ps flow n u r :
  u ∈ unitsOf ps flow n -> un_reg u = Some r -> exists i, homeFor ps i flow = Some r.
Proof.
  unfold unitsOf.
  cut (forall idx us, (forall u r, u ∈ us -> un_reg u = Some r -> exists i, homeFor ps i flow = Some r) ->
    forall u r, u ∈ fold_left (fun units i => if bool_decide (flow ∈ flowsAt ps i) then
      match homeFor ps i flow with Some r => add_unit r i units | None => units ++ [mkUnit None [i] i] end
      else units) idx us -> un_reg u = Some r -> exists i, homeFor ps i flow = Some r).
  { intros H. apply H. intros u' r' Hu. by apply not_elem_of_nil in Hu. }
  induction idx as [|i idx IH]; intros us Hus; [done|]. cbn [fold_left]. apply IH.
  case_bool_decide; [|done]. destruct (homeFor ps i flow) as [r0|] eqn:EH.
  - intros u' r' Hu Hr. destruct (add_unit_regs _ _ _ _ _ Hu Hr) as [->|(u0 & H0 & E0)]; eauto.
  - intros u' r' [Hu| ->%list_elem_of_singleton]%elem_of_app Hr; [eauto|done].
Qed.

Lemma orderFlow_home ps nodes flow r :
  fst (orderFlow ParseExpr ps nodes flow) = Some r -> exists i, r ∈ memberOf ps i.
Proof.
  unfold orderFlow. destruct (runSchedule _) as [complete out]. cbn. destruct complete; [done|].
  intros E. apply head_Some_elem_of, list_elem_of_omap in E as (k & _ & E).
  destruct (sortUnits _ !! k) as [u|] eqn:Eu; [|done]. apply list_elem_of_lookup_2 in Eu.
  unfold sortUnits in Eu. apply elem_of_sort_by in Eu.
  destruct (unitsOf_regs _ _ _ _ _ Eu E) as [i Hi]. exists i. unfold homeFor in Hi.
  destruct (list_find _ (memberOf ps i)) as [[p x]|] eqn:EF; [|done]. injection Hi as ->.
  apply list_find_Some in EF as (EF & _). by apply list_elem_of_lookup_2 in EF.
Qed.
End Flow.

(** ** What an order of a flow is *)

(** The step that runs a node in a flow: its region's, or its own. *)
Definition place (ps : planState) (flow : string) (i : nat) : planStep :=
  match homeFor ps i flow with Some r => StepRegion r | None => StepNode i end.

Definition in_flow (ps : planState) (nodes : list storeNode) (flow : string) (i : nat) : Prop :=
  i < length nodes /\ flow ∈ flowsAt ps i.

Definition earlier {A} (l : list A) (x y : A) : Prop := exists l1 l2 l3, l = l1 ++ x :: l2 ++ y :: l3.

Definition setup_node (nodes : list storeNode) (i : nat) : Prop := phaseAt nodes i = Some PhaseSetup.
Definition provider_node (nodes : list storeNode) (i : nat) : Prop :=
  phaseAt nodes i = Some PhaseWire \/ phaseAt nodes i = Some PhaseMiddleware \/ phaseAt nodes i = Some PhaseRegister.

(** Node [i] uses a variable that node [j] defines. *)
Definition node_uses (ParseExpr : string -> option Expr) (ps : planState) (nodes : list storeNode) (i j : nat) : Prop :=
  exists sn v, nodes !! i = Some sn /\ v ∈ usesOf ParseExpr ps (sn_n sn) /\ ps_definedBy ps !! v = Some j.

(** A flow is in order: every node of it has its step, once, every step comes after those
    of the definitions it uses, and a step that provides and has no setup of its own after
    all setup. *)
Record in_order (ParseExpr : string -> option Expr) (ps : planState) (nodes : list storeNode) (flow : string)
    (steps : list planStep) : Prop := {
  io_once : NoDup steps;
  io_steps : forall x, x ∈ steps <-> exists i, in_flow ps nodes flow i /\ x = place ps flow i;
  io_uses : forall i j, in_flow ps nodes flow i -> node_uses ParseExpr ps nodes i j ->
    place ps flow j ∈ steps -> place ps flow j <> place ps flow i ->
    earlier steps (place ps flow j) (place ps flow i);
  io_setup : forall i j, in_flow ps nodes flow i -> in_flow ps nodes flow j ->
    provider_node nodes i -> setup_node nodes j ->
    (forall i', in_flow ps nodes flow i' -> place ps flow i' = place ps flow i -> ~ setup_node nodes i') ->
    earlier steps (place ps flow j) (place ps flow i)
}.

(** What a node of a flow waits for when no regions are formed. *)
Definition node_waits (ParseExpr : string -> option Expr) (ps : planState) (nodes : list storeNode) (flow : string)
    (i j : nat) : Prop :=
  i <> j /\ in_flow ps nodes flow i /\ in_flow ps nodes flow j /\
  (node_uses ParseExpr ps nodes i j \/ (provider_node nodes i /\ setup_node nodes j)).

(** ** The units of a flow *)

Record units_ok (ps : planState) (flow : string) (seen : list nat) (us : list unit_) : Prop := {
  uo_node : forall i, i ∈ seen -> flow ∈ flowsAt ps i -> exists u, u ∈ us /\ i ∈ un_nodes u;
  uo_unit : forall u i, u ∈ us -> i ∈ un_nodes u ->
    i ∈ seen /\ flow ∈ flowsAt ps i /\ step_of u = place ps flow i /\ un_reg u = homeFor ps i flow;
  uo_some : forall u, u ∈ us -> exists i, i ∈ un_nodes u;
  uo_once : NoDup (step_of <$> us);
  uo_single : forall u, u ∈ us -> un_reg u = None -> exists i, un_nodes u = [i]
}.

Lemma add_unit_spec r i us :
  (exists l1 u l2, us = l1 ++ u :: l2 /\ un_reg u = Some r /\
     add_unit r i us = l1 ++ mkUnit (Some r) (un_nodes u ++ [i]) (un_first u) :: l2) \/
  ((forall u, u ∈ us -> un_reg u <> Some r) /\ add_unit r i us = us ++ [mkUnit (Some r) [i] i]).
Proof.
  induction us as [|u us IH]; cbn [add_unit]; [right; split; [by intros u ?%not_elem_of_nil|done]|].
  case_bool_decide as E.
  - left. exists [], u, us. by rewrite E.
  - destruct IH as [(l1 & u' & l2 & -> & Hr & ->)|[Hn ->]]; [left; by exists (u :: l1), u', l2|].
    right. split; [|done]. intros u' [->|Hu]%elem_of_cons; [done|auto].
Qed.

Lemma place_node ps flow i j : place ps flow i = StepNode j -> i = j /\ homeFor ps i flow = None.
Proof. unfold place. destruct (homeFor ps i flow); [done|]. by intros [= ->]. Qed.

Lemma units_ok_new ps flow seen us i u :
  units_ok ps flow seen us -> flow ∈ flowsAt ps i ->
  un_nodes u = [i] -> step_of u = place ps flow i -> un_reg u = homeFor ps i flow ->
  (forall u', u' ∈ us -> step_of u' <> step_of u) ->
  units_ok ps flow (seen ++ [i]) (us ++ [u]).
Proof.
  intros [U1 U2 U3 U4 U5] Hi Hn Hs Hr Hfresh. constructor.
  - intros x [Hx| ->%list_elem_of_singleton]%elem_of_app Hf.
    + destruct (U1 x Hx Hf) as (u' & ? & ?). exists u'. split; [apply elem_of_app; by left|done].
    + exists u. rewrite Hn. split; [apply elem_of_app; right; left|left].
  - intros u' x [Hu| ->%list_elem_of_singleton]%elem_of_app Hx.
    + destruct (U2 u' x Hu Hx) as (? & ? & ? & ?). split_and!; [apply elem_of_app; by left|done..].
    + rewrite Hn in Hx. apply list_elem_of_singleton in Hx as ->. split_and!; [apply elem_of_app; right; left|done..].
  - intros u' [Hu| ->%list_elem_of_singleton]%elem_of_app; [auto|]. exists i. rewrite Hn. left.
  - rewrite fmap_app. apply NoDup_app. split_and!; [done| |apply NoDup_singleton].
    intros x (u' & -> & Hu)%list_elem_of_fmap Hx%list_elem_of_singleton. by apply (Hfresh u' Hu).
  - intros u' [Hu| ->%list_elem_of_singleton]%elem_of_app; [auto|]. by exists i.
Qed.

Lemma units_ok_grow ps flow seen l1 u l2 i r :
  units_ok ps flow seen (l1 ++ u :: l2) -> flow ∈ flowsAt ps i -> un_reg u = Some r -> homeFor ps i flow = Some r ->
  units_ok ps flow (seen ++ [i]) (l1 ++ mkUnit (Some r) (un_nodes u ++ [i]) (un_first u) :: l2).
Proof.
  set (u2 := mkUnit _ _ _). intros [U1 U2 U3 U4 U5] Hi Hr Hh.
  assert (Hs : step_of u2 = step_of u) by (unfold step_of; by rewrite Hr).
  assert (Hold : forall v, v ∈ l1 ++ u2 :: l2 -> v = u2 \/ v ∈ l1 ++ u :: l2).
  { intros v. rewrite !elem_of_app, !elem_of_cons. tauto. }
  assert (Hu : u ∈ l1 ++ u :: l2) by (apply elem_of_app; right; left).
  assert (Hu2 : u2 ∈ l1 ++ u2 :: l2) by (apply elem_of_app; right; left).
  constructor.
  - intros x [Hx| ->%list_elem_of_singleton]%elem_of_app Hf.
    + destruct (U1 x Hx Hf) as (v & [Hv|[->|Hv]%elem_of_cons]%elem_of_app & Hxv).
      * exists v. split; [apply elem_of_app; by left|done].
      * exists u2. split; [done|]. apply elem_of_app. by left.
      * exists v. split; [apply elem_of_app; right; by right|done].
    + exists u2. split; [done|]. apply elem_of_app. right. left.
  - intros v x [->|Hv]%Hold Hx.
    + apply elem_of_app in Hx as [Hx| ->%list_elem_of_singleton].
      * destruct (U2 u x Hu Hx) as (? & ? & ? & ?). rewrite Hs. split_and!; [apply elem_of_app; by left|done..|]. cbn. congruence.
      * split_and!; [apply elem_of_app; right; left|done| |done]. unfold place. by rewrite Hh.
    + destruct (U2 v x Hv Hx) as (? & ? & ? & ?). split_and!; [apply elem_of_app; by left|done..].
  - intros v [->|Hv]%Hold; [|auto]. exists i. apply elem_of_app. right. left.
  - rewrite fmap_app, fmap_cons in U4 |- *. by rewrite Hs.
  - intros v [->|Hv]%Hold; [done|auto].
Qed.

Lemma unitsOf_ok ps flow n : units_ok ps flow (seq 0 n) (unitsOf ps flow n).
Proof.
  unfold unitsOf. cut (forall idx seen us, NoDup (seen ++ idx) -> units_ok ps flow seen us ->
    units_ok ps flow (seen ++ idx) (fold_left (fun units i => if bool_decide (flow ∈ flowsAt ps i) then
      match homeFor ps i flow with Some r => add_unit r i units | None => units ++ [mkUnit None [i] i] end
      else units) idx us)).
  { intros H. apply (H (seq 0 n) [] []); [apply NoDup_seq|].
    constructor; try (by intros ? ?%not_elem_of_nil); [by intros ? ? ?%not_elem_of_nil|constructor]. }
  induction idx as [|i idx IH]; intros seen us Hd U; cbn [fold_left]; [by rewrite app_nil_r|].
  rewrite cons_middle, app_assoc in Hd |- *. apply IH; [done|].
  assert (Hi : i ∉ seen).
  { apply NoDup_app in Hd as (Hd & _). apply NoDup_app in Hd as (_ & Hd & _). intros Hi. apply (Hd i Hi). left. }
  case_bool_decide as Hf.
  2: { destruct U as [U1 U2 U3 U4 U5]. constructor; [|intros u x Hu Hx|done..].
       - intros x [Hx| ->%list_elem_of_singleton]%elem_of_app Hxf; [by apply U1|done].
       - destruct (U2 u x Hu Hx) as (? & ? & ? & ?). split_and!; [apply elem_of_app; by left|done..]. }
  destruct (homeFor ps i flow) as [r|] eqn:EH.
  - destruct (add_unit_spec r i us) as [(l1 & u & l2 & -> & Hr & ->)|[Hn ->]]; [by apply units_ok_grow|].
    apply units_ok_new; [done..| |done|]; [unfold place; by rewrite EH|].
    intros u' Hu E. apply (Hn u' Hu). unfold step_of in E. cbn in E. destruct (un_reg u'); congruence.
  - apply units_ok_new; [done..| |done|]; [unfold place; by rewrite EH|]. intros u' Hu E.
    destruct (uo_some _ _ _ _ U u' Hu) as [x Hx]. destruct (uo_unit _ _ _ _ U u' x Hu Hx) as (Hxs & _ & Hs & _).
    rewrite E in Hs. apply eq_sym, place_node in Hs as [-> _]. by apply Hi.
Qed.

(** ** The order of a flow *)

Section InOrder.
Context (ParseExpr : string -> option Expr) (ps : planState) (nodes : list storeNode) (flow : string).
Notation units := (flowUnits ps nodes flow).
Notation sched := (schedulerOf ParseExpr ps nodes flow units).
Notation node_uses := (node_uses ParseExpr ps nodes).

Lemma flowUnits_ok : units_ok ps flow (seq 0 (length nodes)) units.
Proof.
  pose proof (unitsOf_ok ps flow (length nodes)) as [U1 U2 U3 U4 U5].
  assert (HP : units ≡ₚ unitsOf ps flow (length nodes)) by apply sort_by_perm.
  constructor; [| | |by rewrite HP|]; setoid_rewrite HP; done.
Qed.

Lemma unit_in_flow k u i : units !! k = Some u -> i ∈ un_nodes u -> in_flow ps nodes flow i /\ step_of u = place ps flow i.
Proof.
  intros Hu%list_elem_of_lookup_2 Hi. destruct (uo_unit _ _ _ _ flowUnits_ok u i Hu Hi) as (Hs & Hf & E & _).
  apply elem_of_seq in Hs. split; [split; [lia|done]|done].
Qed.

Lemma in_flow_unit i : in_flow ps nodes flow i -> exists k u, units !! k = Some u /\ i ∈ un_nodes u.
Proof.
  intros [Hi Hf]. destruct (uo_node _ _ _ _ flowUnits_ok i) as (u & Hu & Hin); [apply elem_of_seq; lia|done|].
  apply list_elem_of_lookup in Hu as [k Hk]. by exists k, u.
Qed.

(** Units are told apart by their steps. *)
Lemma unit_by_step k k' u u' : units !! k = Some u -> units !! k' = Some u' -> step_of u = step_of u' -> k = k'.
Proof.
  intros Hu Hu' E. apply (NoDup_lookup (step_of <$> units) k k' (step_of u)); [apply (uo_once _ _ _ _ flowUnits_ok)| |].
  - by rewrite list_lookup_fmap, Hu.
  - by rewrite list_lookup_fmap, Hu', E.
Qed.

Lemma list_find_is_Some {A} (P : A -> Prop) `{!forall x, Decision (P x)} (l : list A) x :
  x ∈ l -> P x -> exists k y, list_find P l = Some (k, y) /\ l !! k = Some y /\ P y.
Proof.
  intros Hx HP. destruct (list_find_elem_of P l x Hx HP) as [[k y] E]. exists k, y. split; [done|].
  apply list_find_Some in E. tauto.
Qed.

(** The supplier of a definition is the unit of its place, when that has a step. *)
Lemma supplier_place j d : supplier ps units flow j = Some d -> exists u, units !! d = Some u /\ step_of u = place ps flow j.
Proof.
  unfold supplier, nodeUnit, regUnit. destruct (fst <$> list_find (fun u => j ∈ un_nodes u) units) as [k|] eqn:E.
  - intros [= <-]. apply list_find_index in E as (u & Hu & Hj). exists u. split; [done|]. by apply (unit_in_flow k).
  - unfold place. destruct (homeFor ps j flow) as [r|]; [|done]. intros (u & Hu & Hr)%list_find_index.
    exists u. split; [done|]. unfold step_of. by rewrite Hr.
Qed.

Lemma place_supplier j i : in_flow ps nodes flow i -> place ps flow j = place ps flow i -> is_Some (supplier ps units flow j).
Proof.
  intros Hi E. unfold supplier, nodeUnit, regUnit. destruct (fst <$> list_find (fun u => j ∈ un_nodes u) units) as [k|] eqn:EF; [done|].
  destruct (in_flow_unit i Hi) as (k & u & Hu & Hin). destruct (unit_in_flow k u i Hu Hin) as [_ Hs].
  apply list_elem_of_lookup_2 in Hu as Hin'. unfold place in E. destruct (homeFor ps j flow) as [r|] eqn:EH.
  - assert (Hr : un_reg u = Some r).
    { unfold step_of, place in Hs. rewrite <-E in Hs. by destruct (un_reg u); [injection Hs as ->|]. }
    destruct (list_find_is_Some (fun u => un_reg u = Some r) units u Hin' Hr) as (k' & y & -> & _). by eexists.
  - fold (place ps flow i) in E. apply eq_sym, place_node in E as [-> _].
    destruct (list_find_is_Some (fun u => j ∈ un_nodes u) units u Hin' Hin) as (k' & y & E' & _). by rewrite E' in EF.
Qed.

Lemma depsAt_elem k d : d ∈ depsAt sched k <->
  exists u i j, units !! k = Some u /\ i ∈ un_nodes u /\ node_uses i j /\ supplier ps units flow j = Some d /\ d <> k.
Proof.
  unfold depsAt. cbn [schedulerOf s_deps]. unfold unitDeps. rewrite list_lookup_imap. split.
  - destruct (units !! k) as [u|]; [|by intros ?%not_elem_of_nil]. cbn. intros H.
    apply elem_of_concat in H as (l & (i & -> & Hi)%list_elem_of_fmap & Hd). exists u, i.
    destruct (nodes !! i) as [sn|] eqn:Hn; [|by apply not_elem_of_nil in Hd].
    apply list_elem_of_omap in Hd as (v & Hv & Hd). destruct (ps_definedBy ps !! v) as [j|] eqn:Ev; [|done].
    exists j. destruct (supplier ps units flow j) as [du|]; [|done]. destruct (Nat.eqb_spec du k); [done|].
    injection Hd as ->. split_and!; [done..| |done|done]. by exists sn, v.
  - intros (u & i & j & -> & Hi & (sn & v & Hn & Hv & Ev) & Hs & Hne). cbn. apply elem_of_concat.
    eexists. split; [by apply list_elem_of_fmap_2|]. cbv beta. rewrite Hn. apply list_elem_of_omap.
    exists v. split; [done|]. rewrite Ev, Hs. by rewrite (proj2 (Nat.eqb_neq d k)).
Qed.

Lemma hookAt_spec k u : units !! k = Some u -> hookAt sched k = true <-> exists i, i ∈ un_nodes u /\ setup_node nodes i.
Proof.
  intros Hu. unfold hookAt. cbn [schedulerOf s_hook]. rewrite list_lookup_fmap, Hu. cbn. unfold unit_hook, setup_node.
  rewrite existsb_exists. setoid_rewrite bool_decide_eq_true. setoid_rewrite list_elem_of_In. done.
Qed.

Lemma provAt_spec k u : units !! k = Some u -> provAt sched k = true <-> exists i, i ∈ un_nodes u /\ provider_node nodes i.
Proof.
  intros Hu. unfold provAt. cbn [schedulerOf s_prov]. rewrite list_lookup_fmap, Hu. cbn. unfold unit_prov, provider_node.
  rewrite existsb_exists. setoid_rewrite list_elem_of_In.
  assert (H : forall i, (match phaseAt nodes i with Some (PhaseWire | PhaseMiddleware | PhaseRegister) => true | _ => false end = true)
    <-> phaseAt nodes i = Some PhaseWire \/ phaseAt nodes i = Some PhaseMiddleware \/ phaseAt nodes i = Some PhaseRegister).
  { intros i. destruct (phaseAt nodes i) as [[]|]; split; try done; try tauto; intros [|[|]]; congruence. }
  by setoid_rewrite H.
Qed.
(** What single nodes wait for as units they wait for as nodes. *)
Lemma waits_on_nodes k d u v i j :
  units !! k = Some u -> units !! d = Some v -> un_nodes u = [i] -> un_nodes v = [j] -> un_reg v = None ->
  d ∈ depsAt sched k \/ waits sched k = true /\ d ∈ hooks_of sched ->
  node_waits ParseExpr ps nodes flow i j.
Proof.
  intros Hu Hv Hi Hj Hrv Hdep. assert (Hii : i ∈ un_nodes u) by (rewrite Hi; left). assert (Hjj : j ∈ un_nodes v) by (rewrite Hj; left).
  destruct (unit_in_flow k u i Hu Hii) as [Hfi Hsi], (unit_in_flow d v j Hv Hjj) as [Hfj Hsj].
  unfold node_waits. destruct Hdep as [Hdep|[Hw Hh]].
  - apply depsAt_elem in Hdep as (u' & i' & j' & Hu' & Hi' & Huse & Hs & Hne). simplify_eq.
    rewrite Hi in Hi'. apply list_elem_of_singleton in Hi' as ->.
    destruct (supplier_place j' d Hs) as (v' & Hv' & Hs'). simplify_eq.
    assert (j' = j) as ->.
    { unfold supplier in Hs. destruct (nodeUnit units j') as [d'|] eqn:E.
      - injection Hs as ->. apply list_find_index in E as (v'' & Hv'' & Hj'). simplify_eq.
        rewrite Hj in Hj'. by apply list_elem_of_singleton in Hj'.
      - destruct (homeFor ps j' flow) as [r|]; [|done]. apply list_find_index in Hs as (v'' & Hv'' & Hr). congruence. }
    split; [|by split_and!; [..|left]]. intros ->. apply Hne, eq_sym, (unit_by_step k d u v Hu Hv). congruence.
  - apply elem_of_hooks in Hh as [_ Hh]. unfold waits in Hw. apply andb_true_iff in Hw as [Hp Hnh%negb_true_iff].
    rewrite (hookAt_spec d v Hv), Hj in Hh. destruct Hh as (j' & ->%list_elem_of_singleton & Hsj').
    rewrite (provAt_spec k u Hu), Hi in Hp. destruct Hp as (i' & ->%list_elem_of_singleton & Hpi).
    split; [|by split_and!; [..|right]]. intros ->.
    assert (Hhk : hookAt sched k = true); [|congruence]. apply (hookAt_spec k u Hu). exists j. by rewrite Hi; split; [left|].
Qed.

(** A flow whose nodes could be ordered one by one and that reports no region is complete:
    what is left over would be single nodes that wait for each other. *)
Lemma runSchedule_all :
  acyclic_in (node_waits ParseExpr ps nodes flow) -> fst (orderFlow ParseExpr ps nodes flow) = None ->
  exists out, runSchedule sched = (true, out).
Proof.
  intros [rank Hrank] HN. pose proof (schedulerOf_ok ParseExpr ps nodes flow units) as Ok.
  assert (Hc : units_count sched = length units) by (unfold units_count; cbn; by rewrite length_fmap).
  pose proof (runSchedule_spec sched Ok) as HS. unfold orderFlow in HN. fold units in HN.
  destruct (runSchedule sched) as [[] out]; [by exists out|]. exfalso. destruct HS as (Hd & Hr & _ & Hstuck & Hlen).
  rewrite Hc in *. cbn in HN.
  assert (Hsingle : forall k, k < length units -> k ∉ out -> exists u i, units !! k = Some u /\ un_nodes u = [i] /\ un_reg u = None).
  { intros k Hk Hn. destruct (lookup_lt_is_Some_2 units k Hk) as [u Hu]. exists u.
    destruct (un_reg u) as [r|] eqn:Er.
    - exfalso. assert (Hin : r ∈ omap (fun k => u ← units !! k; un_reg u) (filter (fun k => k ∉ out) (seq 0 (length units)))).
      { apply list_elem_of_omap. exists k. split; [|by rewrite Hu]. apply list_elem_of_filter. split; [done|].
        apply elem_of_seq. lia. }
      destruct (omap _ _) in HN, Hin; [by apply not_elem_of_nil in Hin|done].
    - destruct (uo_single _ _ _ _ flowUnits_ok u) as [i Hi]; [by eapply list_elem_of_lookup_2|done|]. by exists i. }
  set (rank' := fun k => match units !! k with Some u => rank (default 0 (head (un_nodes u))) | None => 0 end).
  destruct (missing_index (length units) out Hd Hr Hlen) as (k0 & Hk0 & Hn0).
  destruct (least_unemitted rank' (length units) (list_to_set out) k0) as (k & Hk & Hn & Hmin);
    [done|by rewrite elem_of_list_to_set|]. rewrite elem_of_list_to_set in Hn.
  destruct (Hsingle k Hk Hn) as (u & i & Hu & Hi & _). apply (Hstuck k); [by rewrite Hc|done|]. intros d Hdep.
  destruct (decide (d ∈ out)) as [|Hdn]; [done|]. exfalso.
  assert (Hdl : d < length units) by (rewrite <-Hc; by eapply barrier_range).
  destruct (Hsingle d Hdl Hdn) as (v & j & Hv & Hj & Hrv).
  assert (Hw : node_waits ParseExpr ps nodes flow i j).
  { apply (waits_on_nodes k d u v i j); try done. apply barrier_lookup in Hdep; [done..|]. by rewrite Hc. }
  apply Hrank in Hw. assert (Hle : rank' k <= rank' d) by (apply Hmin; [done|by rewrite elem_of_list_to_set]).
  unfold rank' in Hle. rewrite Hu, Hv, Hi, Hj in Hle. cbn in Hle. lia.
Qed.
Lemma omap_seq {A B} (f : A -> B) (l : list A) : omap (fun k => f <$> l !! k) (seq 0 (length l)) = f <$> l.
Proof.
  induction l as [|x l IH] using rev_ind; [done|].
  rewrite length_app, seq_app, omap_app, fmap_app. cbn [length plus seq]. f_equal.
  - rewrite <-IH. apply list_omap_ext, Forall2_same_length_lookup_2; [done|]. intros i k k' H1 H2.
    assert (k' = k) as -> by congruence. apply lookup_seq in H1 as [-> Hlt]. by rewrite lookup_app_l.
  - cbn. by rewrite list_lookup_middle.
Qed.

(** With a barrier that is respected, what is supplied and what sets up comes earlier. *)
Lemma emitted_earlier out k d u v :
  closed_order (barrier sched) out -> k ∈ out -> units !! k = Some u -> units !! d = Some v ->
  d ∈ depsAt sched k \/ waits sched k = true /\ d ∈ hooks_of sched ->
  earlier (omap (fun k => step_of <$> units !! k) out) (step_of v) (step_of u).
Proof.
  intros HC Hk Hu Hv Hd. pose proof (schedulerOf_ok ParseExpr ps nodes flow units) as Ok.
  apply (barrier_lookup sched k d Ok) in Hd.
  - destruct (closed_before _ _ _ _ HC Hk Hd) as (l1 & l2 & l3 & ->).
    exists (omap (fun k => step_of <$> units !! k) l1), (omap (fun k => step_of <$> units !! k) l2),
      (omap (fun k => step_of <$> units !! k) l3).
    rewrite omap_app. cbn. rewrite Hv. cbn. f_equal. f_equal. rewrite omap_app. cbn. by rewrite Hu.
  - unfold units_count. cbn. rewrite length_fmap. by eapply lookup_lt_Some.
Qed.

Lemma orderFlow_in_order :
  acyclic_in (node_waits ParseExpr ps nodes flow) -> fst (orderFlow ParseExpr ps nodes flow) = None ->
  in_order ParseExpr ps nodes flow (snd (orderFlow ParseExpr ps nodes flow)).
Proof.
  intros HA HN. destruct (runSchedule_all HA HN) as [out Eout]. unfold orderFlow. fold units. rewrite Eout. cbn [snd].
  pose proof (runSchedule_spec sched (schedulerOf_ok ParseExpr ps nodes flow units)) as HS. rewrite Eout in HS.
  destruct HS as (Hd & Hr & HC & Hlen).
  assert (Hc : units_count sched = length units) by (unfold units_count; cbn; by rewrite length_fmap). rewrite Hc in *.
  assert (HP : out ≡ₚ seq 0 (length units)) by by apply full_permutation.
  assert (Hin : forall k u, units !! k = Some u -> k ∈ out).
  { intros k u Hu%lookup_lt_Some. rewrite HP. apply elem_of_seq. lia. }
  assert (Hst : omap (fun k => step_of <$> units !! k) out ≡ₚ step_of <$> units) by by rewrite HP, omap_seq.
  assert (Hat : forall x, x ∈ omap (fun k => step_of <$> units !! k) out <-> exists i, in_flow ps nodes flow i /\ x = place ps flow i).
  { intros x. rewrite Hst, list_elem_of_fmap. split.
    - intros (u & -> & Hu). destruct (uo_some _ _ _ _ flowUnits_ok u Hu) as [i Hi].
      apply list_elem_of_lookup in Hu as [k Hu]. exists i. by apply (unit_in_flow k).
    - intros (i & Hi & ->). destruct (in_flow_unit i Hi) as (k & u & Hu & Hiu). exists u.
      split; [symmetry; by apply (unit_in_flow k)|by eapply list_elem_of_lookup_2]. }
  constructor; [rewrite Hst; apply (uo_once _ _ _ _ flowUnits_ok)|done| |].
  - intros i j Hi Huse Hj Hne. destruct (in_flow_unit i Hi) as (k & u & Hu & Hiu). destruct (unit_in_flow k u i Hu Hiu) as [_ Es].
    apply Hat in Hj as (i' & Hi' & Ej). destruct (place_supplier j i' Hi' Ej) as [d Hsd].
    destruct (supplier_place j d Hsd) as (v & Hv & Ev). rewrite <-Es, <-Ev in *.
    apply (emitted_earlier out k d); [done|by eapply Hin|done|done|]. left. apply depsAt_elem.
    exists u, i, j. split_and!; [done..|]. intros ->. congruence.
  - intros i j Hi Hj Hpi Hsj Hno. destruct (in_flow_unit i Hi) as (k & u & Hu & Hiu). destruct (unit_in_flow k u i Hu Hiu) as [_ Es].
    destruct (in_flow_unit j Hj) as (d & v & Hv & Hjv). destruct (unit_in_flow d v j Hv Hjv) as [_ Ev].
    rewrite <-Es, <-Ev. apply (emitted_earlier out k d); [done|by eapply Hin|done|done|]. right. split.
    + unfold waits. rewrite (proj2 (provAt_spec k u Hu)) by (by exists i). cbn. apply negb_true_iff.
      destruct (hookAt sched k) eqn:EH; [|done]. apply (hookAt_spec k u Hu) in EH as (i' & Hi' & Hs').
      destruct (unit_in_flow k u i' Hu Hi') as [Hf' Es']. destruct (Hno i' Hf'); [congruence|done].
    + apply elem_of_hooks. split; [rewrite Hc; by eapply lookup_lt_Some|]. apply (hookAt_spec d v Hv). by exists j.
Qed.
End InOrder.
(** ** Region planning as a whole (GenFragment.v): the loop that dissolves regions ends,
    with flows that can all be ordered and regions worth extracting. *)

(** ** Homes *)

(** The homes of the nodes are live regions that list them. *)
Definition homes_ok (ps : planState) (regions : list nat) : Prop :=
  forall i r, r ∈ memberOf ps i -> r ∈ regions /\ r < length (ps_heap ps) /\ i ∈ r_members (regionAt ps r).

Definition homes (m : placeMap) (i : nat) : list nat := default [] (m !! i).

Lemma push_homes m members r i x :
  x ∈ homes (fold_left (fun m i => push_home m i r) members m) i <-> x ∈ homes m i \/ x = r /\ i ∈ members.
Proof.
  revert m. induction members as [|j members IH]; intros m; cbn [fold_left].
  { pose proof (not_elem_of_nil i). tauto. }
  rewrite IH, elem_of_cons. unfold homes, push_home. destruct (decide (i = j)) as [->|Hne].
  - rewrite lookup_insert_eq. cbn. rewrite elem_of_app, list_elem_of_singleton. tauto.
  - rewrite lookup_insert_ne by done. tauto.
Qed.

Lemma drop_homes m members r i x :
  x ∈ homes (fold_left (fun m i => drop_home m r i) members m) i <-> x ∈ homes m i /\ ~ (x = r /\ i ∈ members).
Proof.
  revert m. induction members as [|j members IH]; intros m; cbn [fold_left].
  { pose proof (not_elem_of_nil i). tauto. }
  rewrite IH, elem_of_cons. unfold homes, drop_home.
  destruct (decide (i = j)) as [->|Hne].
  - assert (E : x ∈ default [] ((if bool_decide (filter (fun x => x <> r) (default [] (m !! j)) = []) then delete j m
                 else <[j := filter (fun x => x <> r) (default [] (m !! j))]> m) !! j) <->
                x ∈ filter (fun x => x <> r) (default [] (m !! j))).
    { case_bool_decide as E; [rewrite lookup_delete_eq, E|rewrite lookup_insert_eq]; done. }
    rewrite E, list_elem_of_filter. tauto.
  - assert (E : (if bool_decide (filter (fun x => x <> r) (default [] (m !! j)) = []) then delete j m
                 else <[j := filter (fun x => x <> r) (default [] (m !! j))]> m) !! i = m !! i).
    { case_bool_decide; [rewrite lookup_delete_ne|rewrite lookup_insert_ne]; done. }
    rewrite E. tauto.
Qed.

Lemma homes_ok_weaken ps l1 l2 : homes_ok ps l1 -> (forall r, r ∈ l1 -> r ∈ l2) -> homes_ok ps l2.
Proof. intros H Hs i r Hr. destruct (H i r Hr) as (? & ? & ?). auto. Qed.

Lemma regionAt_insert (heap : list region) r r' reg d :
  r < length heap -> default d (<[r := reg]> heap !! r') = if decide (r' = r) then reg else default d (heap !! r').
Proof.
  intros Hr. case_decide as E; [subst; by rewrite list_lookup_insert_eq|by rewrite list_lookup_insert_ne].
Qed.

(** ** Each pass keeps them *)

Lemma dissolve_homes ps scopes r regions :
  homes_ok ps regions -> homes_ok (fst (dissolve ps scopes r)) (filter (fun x => x <> r) regions).
Proof.
  intros H i x Hx. unfold memberOf in Hx. cbn in Hx. fold (homes (fold_left (fun m i => drop_home m r i)
    (r_members (regionAt ps r)) (ps_memberOf ps)) i) in Hx. apply drop_homes in Hx as [Hx Hn].
  destruct (H i x Hx) as (Hin & Hlt & Hm). assert (Hne : x <> r) by (intros ->; by apply Hn).
  split_and!; [by apply list_elem_of_filter|cbn; by rewrite length_insert|].
  unfold regionAt. cbn. by rewrite list_lookup_insert_ne.
Qed.

Lemma dissolve_region ps scopes r r' :
  r' <> r -> regionAt (fst (dissolve ps scopes r)) r' = regionAt ps r'.
Proof. intros Hne. unfold regionAt. cbn. by rewrite list_lookup_insert_ne. Qed.

Lemma embed_homes ps i r regions :
  homes_ok ps regions -> r ∈ regions -> r < length (ps_heap ps) -> homes_ok (embed ps i r) regions.
Proof.
  intros H Hr Hlt j x Hx. unfold memberOf, embed in Hx. cbn in Hx.
  pose proof (push_homes (ps_memberOf ps) [i] r j x) as HP. cbn in HP. unfold homes in HP. apply HP in Hx. clear HP.
  unfold embed, regionAt. cbn. rewrite length_insert, regionAt_insert by done. cbn.
  destruct Hx as [Hx|[-> ->%list_elem_of_singleton]].
  - destruct (H j x Hx) as (? & ? & Hm). split_and!; [done..|]. case_decide as E; [subst|done].
    unfold sortMembers. cbn. apply elem_of_sort_by, elem_of_app. by left.
  - split_and!; [done..|]. rewrite decide_True by done. unfold sortMembers. cbn.
    apply elem_of_sort_by, elem_of_app. right. left.
Qed.

Lemma formComponents_homes ParseExpr ps nodes scopes exprs :
  ps_memberOf ps = ∅ -> ps_heap ps = [] ->
  let '(ps', regions) := formComponents ParseExpr ps nodes scopes exprs in
  homes_ok ps' regions /\ NoDup regions.
Proof.
  intros Hm Hh. unfold formComponents.
  cut (forall cs ps regions, homes_ok ps regions -> NoDup regions ->
    (forall r, r ∈ regions -> r < length (ps_heap ps)) ->
    let '(ps', regions') := fold_left (fun '(ps, regions) members =>
      let r := length (ps_heap ps) in
      let usage := match members with i :: _ => flowsAt ps i | [] => [] end in
      (mkPlan (ps_flowsOf ps) (ps_usage ps) (ps_isConfig ps) (ps_definedBy ps)
         (fold_left (fun m i => push_home m i r) members (ps_memberOf ps))
         (ps_heap ps ++ [mkRegion usage members EmptyString EmptyString]), regions ++ [r])) cs (ps, regions) in
    homes_ok ps' regions' /\ NoDup regions').
  { intros H. apply H; [|constructor|intros r Hr; by apply not_elem_of_nil in Hr].
    intros i r Hr. unfold memberOf in Hr. rewrite Hm, lookup_empty in Hr. by apply not_elem_of_nil in Hr. }
  intros cs. induction cs as [|members cs IH]; intros ps1 regions H Hd Hlt; [done|]. cbn [fold_left]. apply IH.
  - intros i r Hr. unfold memberOf in Hr. cbn in Hr.
    apply (push_homes (ps_memberOf ps1) members (length (ps_heap ps1)) i r) in Hr.
    unfold regionAt. cbn. rewrite length_app. simpl. destruct Hr as [Hr|[-> Hi]].
    + destruct (H i r Hr) as (Hin & Hl & Hmem). split_and!; [apply elem_of_app; by left|lia|].
      by rewrite lookup_app_l.
    + split_and!; [apply elem_of_app; right; left|lia|]. by rewrite list_lookup_middle.
  - apply NoDup_app. split_and!; [done| |apply NoDup_singleton].
    intros r Hr ->%list_elem_of_singleton. apply Hlt in Hr. lia.
  - intros r [Hr| ->%list_elem_of_singleton]%elem_of_app; cbn; rewrite length_app; simpl; [apply Hlt in Hr|]; lia.
Qed.

Lemma colocateConfigs_homes ParseExpr shuffle ps nodes scopes regions :
  (forall l, shuffle l ≡ₚ l) -> homes_ok ps regions ->
  homes_ok (colocateConfigs ParseExpr shuffle ps nodes scopes) regions.
Proof.
  intros Hsh. unfold colocateConfigs. generalize (rootRefs ParseExpr ps scopes) as refs. intros refs.
  generalize (imap pair nodes) as l. intros l. revert ps. induction l as [|[i sn] l IH]; intros ps H; [done|].
  cbn [fold_left]. apply IH. destruct (sn_n sn); try done. unfold colocate1. destruct (agreed _); [|done].
  assert (Hall : forall r, r ∈ shuffle (firsts [] (omap snd (consumerHomes ParseExpr ps nodes refs i Var))) ->
            r ∈ regions /\ r < length (ps_heap ps)).
  { intros r Hr. rewrite Hsh in Hr. apply elem_of_firsts in Hr as [Hr _].
    apply list_elem_of_omap in Hr as ([f o] & Hn & Ho). cbn in Ho. subst o.
    apply elem_of_app in Hn as [Hn|Hn].
    - apply elem_of_concat in Hn as (l' & Hl & Hn). apply elem_of_lookup_imap in Hl as (j & sn' & -> & _).
      destruct (_ || _); [by apply not_elem_of_nil in Hn|]. apply list_elem_of_fmap in Hn as (f' & [= -> E] & _).
      unfold homeFor in E. destruct (list_find _ (memberOf ps j)) as [[p x]|] eqn:EF; [|done]. injection E as ->.
      apply list_find_Some in EF as (EF & _). apply list_elem_of_lookup_2 in EF.
      destruct (H j x EF) as (? & ? & _). done.
    - apply list_elem_of_fmap in Hn as (f' & [=] & _). }
  revert Hall. generalize (shuffle (firsts [] (omap snd (consumerHomes ParseExpr ps nodes refs i Var)))) as rs.
  intros rs. revert ps H. induction rs as [|r rs IHr]; intros ps H Hall; [done|]. cbn [fold_left]. apply IHr.
  - by apply embed_homes; [|apply Hall; left|apply Hall; left].
  - intros x Hx. unfold embed. cbn. rewrite length_insert. apply Hall. by right.
Qed.

Lemma keep_spec pass regions done_ ps scopes :
  homes_ok ps (done_ ++ regions) -> NoDup (done_ ++ regions) ->
  (forall ps r r' scopes, r <> r' -> pass (fst (dissolve ps scopes r')) r = pass ps r) ->
  let '(ps', scopes', out) := keep pass regions ps scopes in
  homes_ok ps' (done_ ++ out) /\ NoDup (done_ ++ out) /\ Forall (fun r => pass ps' r = true) out /\
  forall r, r ∈ done_ -> pass ps' r = pass ps r.
Proof.
  intros H Hd Hp. revert done_ ps scopes H Hd. induction regions as [|r regions IH]; intros done_ ps scopes H Hd;
    cbn [keep]; [by split_and!|].
  destruct (pass ps r) eqn:EP.
  - rewrite cons_middle, app_assoc in H, Hd. specialize (IH (done_ ++ [r]) ps scopes H Hd).
    destruct (keep pass regions ps scopes) as [[ps' scopes'] out]. destruct IH as (H1 & H2 & H3 & H4).
    rewrite <-app_assoc in H1, H2. split_and!; [done..| |].
    + constructor; [|done]. rewrite H4; [done|]. apply elem_of_app. right. left.
    + intros x Hx. apply H4, elem_of_app. by left.
  - pose proof (dissolve_homes ps scopes r _ H) as H'. destruct (dissolve ps scopes r) as [ps1 scopes1] eqn:ED.
    cbn in H'. pose proof (NoDup_app done_ (r :: regions)) as Hsplit. apply Hsplit in Hd as (Hd1 & Hd2 & Hd3).
    apply NoDup_cons in Hd3 as [Hn Hd3].
    assert (Hd' : NoDup (done_ ++ regions)).
    { apply NoDup_app. split_and!; [done| |done]. intros x Hx Hin. apply (Hd2 x Hx). by right. }
    specialize (IH done_ ps1 scopes1). destruct (keep pass regions ps1 scopes1) as [[ps' scopes'] out].
    destruct IH as (H1 & H2 & H3 & H4); [|done|].
    + eapply homes_ok_weaken; [exact H'|]. intros x [Hx Hin]%list_elem_of_filter.
      apply elem_of_app in Hin as [Hin|[->|Hin]%elem_of_cons]; [|done|]; apply elem_of_app; auto.
    + split_and!; [done..|]. intros x Hx. rewrite H4 by done. assert (x <> r) by (intros ->; apply (Hd2 r Hx); left).
      specialize (Hp ps x r scopes ltac:(done)). by rewrite ED in Hp.
Qed.

Section Planning.
Context (ParseExpr : string -> option Expr).

Lemma findUnschedulable_spec ps nodes scopes :
  match findUnschedulable ParseExpr ps nodes scopes with
  | Some r => exists i, r ∈ memberOf ps i
  | None => forall s, s ∈ scopes -> fst (orderFlow ParseExpr ps nodes (fs_fn s)) = None
  end.
Proof.
  unfold findUnschedulable. destruct (head _) as [r|] eqn:E.
  - apply head_Some_elem_of, list_elem_of_omap in E as (s & _ & E). by eapply orderFlow_home.
  - intros s Hs. destruct (fst (orderFlow ParseExpr ps nodes (fs_fn s))) as [r|] eqn:EO; [|done]. exfalso.
    assert (Hin : r ∈ omap (fun s => fst (orderFlow ParseExpr ps nodes (fs_fn s))) scopes).
    { apply list_elem_of_omap. eauto. }
    destruct (omap _ scopes); [by apply not_elem_of_nil in Hin|done].
Qed.

Lemma dissolveLoop_spec pass fuel ps nodes scopes regions :
  homes_ok ps regions -> length regions < fuel ->
  (forall ps r r' scopes, r <> r' -> pass (fst (dissolve ps scopes r')) r = pass ps r) ->
  Forall (fun r => pass ps r = true) regions ->
  exists ps' scopes' regions',
    dissolveLoop ParseExpr fuel ps nodes scopes regions = Some (ps', scopes', regions') /\
    homes_ok ps' regions' /\ Forall (fun r => pass ps' r = true) regions' /\
    forall s, s ∈ scopes' -> fst (orderFlow ParseExpr ps' nodes (fs_fn s)) = None.
Proof.
  intros H Hf Hp Hall. revert ps scopes regions H Hf Hall. induction fuel as [|fuel IH]; intros ps scopes regions H Hf Hall; [lia|].
  cbn [dissolveLoop]. pose proof (findUnschedulable_spec ps nodes scopes) as HU.
  destruct (findUnschedulable ParseExpr ps nodes scopes) as [broken|]; [|by exists ps, scopes, regions].
  destruct HU as [i Hi]. destruct (H i broken Hi) as (Hin & _ & _).
  pose proof (dissolve_homes ps scopes broken regions H) as H'. specialize (Hp ps).
  destruct (dissolve ps scopes broken) as [ps1 scopes1] eqn:ED. apply IH; [done| |].
  - assert (length (filter (fun x => x <> broken) regions) < length (filter (fun _ => True) regions)).
    { apply (filter_length_lt _ _ _ broken); try done. by intros []. }
    pose proof (length_filter (fun _ : nat => True) regions). lia.
  - apply Forall_forall. intros r [Hne Hr]%list_elem_of_filter. rewrite Forall_forall in Hall.
    specialize (Hp r broken scopes Hne). rewrite ED in Hp. cbn in Hp. rewrite Hp. auto.
Qed.

(** ** What the passes leave alone *)

(** Which flows a node is in, and who defines a variable. *)
Definition same_flows (ps ps' : planState) : Prop :=
  ps_flowsOf ps' = ps_flowsOf ps /\ ps_definedBy ps' = ps_definedBy ps.

#[local] Instance same_flows_preorder : PreOrder same_flows.
Proof. split; [by split|]. intros x y z [E1 E2] [E3 E4]. split; congruence. Qed.

Lemma fold_same_flows {A} (f : planState -> A -> planState) l ps :
  (forall ps x, same_flows ps (f ps x)) -> same_flows ps (fold_left f l ps).
Proof. intros Hf. revert ps. induction l as [|x l IH]; intros ps; cbn [fold_left]; [done|]. etrans; [apply Hf|apply IH]. Qed.

Lemma formComponents_same ps nodes scopes exprs : same_flows ps (fst (formComponents ParseExpr ps nodes scopes exprs)).
Proof.
  unfold formComponents. match goal with |- context [fold_left ?f _ _] => set (F := f) end.
  cut (forall cs ps regions, same_flows ps (fst (fold_left F cs (ps, regions)))); [auto|].
  induction cs as [|c cs IH]; intros ps1 regions; cbn [fold_left]; [done|].
  eapply transitivity; [|apply IH]. by split.
Qed.

Lemma colocateConfigs_same shuffle ps nodes scopes : same_flows ps (colocateConfigs ParseExpr shuffle ps nodes scopes).
Proof.
  unfold colocateConfigs. apply fold_same_flows. intros ps0 [i sn]. destruct (sn_n sn); try done.
  unfold colocate1. destruct (agreed _); [|done]. apply fold_same_flows. by intros ps1 r.
Qed.

(** Passes that dissolve also leave the names of the flows. *)
Definition same_plan (ps : planState) (scopes : list flowScope) (ps' : planState) (scopes' : list flowScope) : Prop :=
  same_flows ps ps' /\ fs_fn <$> scopes' = fs_fn <$> scopes.

Lemma dissolve_same ps scopes r : same_plan ps scopes (fst (dissolve ps scopes r)) (snd (dissolve ps scopes r)).
Proof.
  split; [by split|]. cbn. destruct (negb _); [|done]. by rewrite <-list_fmap_compose.
Qed.

Lemma same_plan_trans ps1 s1 ps2 s2 ps3 s3 : same_plan ps1 s1 ps2 s2 -> same_plan ps2 s2 ps3 s3 -> same_plan ps1 s1 ps3 s3.
Proof. intros [H1 E1] [H2 E2]. split; [by etrans|congruence]. Qed.

Lemma keep_same pass regions ps scopes ps' scopes' out :
  keep pass regions ps scopes = (ps', scopes', out) -> same_plan ps scopes ps' scopes'.
Proof.
  revert ps scopes out. induction regions as [|r regions IH]; intros ps scopes out; cbn [keep]; [by intros [= <- <- <-]|].
  destruct (pass ps r).
  - destruct (keep pass regions ps scopes) as [[ps1 s1] o1] eqn:E. intros [= <- <- <-]. by eapply IH.
  - pose proof (dissolve_same ps scopes r) as HD. destruct (dissolve ps scopes r) as [ps1 s1].
    intros E%IH. by eapply same_plan_trans.
Qed.

Lemma dissolveLoop_same fuel ps nodes scopes regions ps' scopes' out :
  dissolveLoop ParseExpr fuel ps nodes scopes regions = Some (ps', scopes', out) -> same_plan ps scopes ps' scopes'.
Proof.
  revert ps scopes regions. induction fuel as [|fuel IH]; intros ps scopes regions; cbn [dissolveLoop]; [done|].
  destruct (findUnschedulable ParseExpr ps nodes scopes) as [r|]; [|by intros [= <- <- <-]].
  pose proof (dissolve_same ps scopes r) as HD. destruct (dissolve ps scopes r) as [ps1 s1].
  intros E%IH. by eapply same_plan_trans.
Qed.

Lemma node_waits_same ps ps' nodes flow : same_flows ps ps' ->
  acyclic_in (node_waits ParseExpr ps nodes flow) -> acyclic_in (node_waits ParseExpr ps' nodes flow).
Proof.
  intros [E1 E2]. apply acyclic_in_mono. intros i j. unfold node_waits, in_flow, flowsAt, node_uses, usesOf, allVars.
  by rewrite E1, E2.
Qed.

Lemma planSteps_lookup ps nodes scopes flow : flow ∈ fs_fn <$> scopes ->
  planSteps ParseExpr ps nodes scopes !! flow = Some (snd (orderFlow ParseExpr ps nodes flow)).
Proof.
  unfold planSteps. cut (forall m : gmap string (list planStep), flow ∈ fs_fn <$> scopes \/ m !! flow = Some (snd (orderFlow ParseExpr ps nodes flow)) ->
    fold_left (fun m s => <[fs_fn s := snd (orderFlow ParseExpr ps nodes (fs_fn s))]> m) scopes m !! flow =
      Some (snd (orderFlow ParseExpr ps nodes flow))); [auto|].
  induction scopes as [|s scopes IH]; intros m; cbn [fold_left].
  - intros [Hf|Hm]; [by apply not_elem_of_nil in Hf|done].
  - intros H. apply IH. rewrite fmap_cons, elem_of_cons in H. destruct (decide (fs_fn s = flow)) as [<-|Hne].
    + right. by rewrite lookup_insert_eq.
    + rewrite lookup_insert_ne by done. destruct H as [[->|?]|?]; [done|by left|by right].
Qed.

Lemma regionEligible_spec st roots nodes reg : regionEligible st roots nodes reg = true <->
  2 <= length (r_usage reg) /\ 2 <= length (r_members reg) /\ regionAnchored st roots nodes reg = true.
Proof. unfold regionEligible. rewrite !andb_true_iff, !Nat.leb_le. tauto. Qed.

(** C33: region planning, up to the regions that can be scheduled, ends with flows that
    are in order. Whatever the order of the map loops, the regions that cannot be scheduled
    are dissolved after finitely many rounds. Then the nodes live in regions that are left
    and list them, and every one of these is shared by two flows and has two nodes and an
    anchor; and in every flow whose nodes could be ordered one by one, as the validation of
    the sections has made sure, the steps are the places of its nodes, each once, every step
    comes after those that define what it uses, and a step that provides and sets nothing up
    comes after all setup. What [PlanFragments] does next, the dissolving of regions with
    too many parameters, is not modelled, nor are the regions' roots. *)
Theorem region_planning_ends_schedulable gu st nodes scopes exprs shuffle :
  (forall l, shuffle l ≡ₚ l) ->
  exists ps' scopes' regions',
    planRegions ParseExpr gu st nodes scopes exprs shuffle = Some (ps', scopes', regions') /\
    homes_ok ps' regions' /\
    (forall r, r ∈ regions' -> 2 <= length (r_usage (regionAt ps' r)) /\ 2 <= length (r_members (regionAt ps' r)) /\
       regionAnchored st (rootVars scopes) nodes (regionAt ps' r) = true) /\
    same_plan (newPlan gu st nodes) scopes ps' scopes' /\
    forall flow, flow ∈ fs_fn <$> scopes -> acyclic_in (node_waits ParseExpr (newPlan gu st nodes) nodes flow) ->
      exists steps, planSteps ParseExpr ps' nodes scopes' !! flow = Some steps /\ in_order ParseExpr ps' nodes flow steps.
Proof.
  intros Hsh. unfold planRegions.
  pose proof (formComponents_homes ParseExpr (newPlan gu st nodes) nodes scopes exprs eq_refl eq_refl) as HF.
  pose proof (formComponents_same (newPlan gu st nodes) nodes scopes exprs) as HS1.
  destruct (formComponents ParseExpr (newPlan gu st nodes) nodes scopes exprs) as [ps1 regions1].
  destruct HF as [H1 Hd1]. apply (colocateConfigs_homes ParseExpr shuffle ps1 nodes scopes) in H1; [|done].
  pose proof (colocateConfigs_same shuffle ps1 nodes scopes) as HS2.
  set (ps2 := colocateConfigs ParseExpr shuffle ps1 nodes scopes) in *.
  set (pass := fun ps r => regionEligible st (rootVars scopes) nodes (regionAt ps r)).
  assert (Hp : forall ps r r' scopes, r <> r' -> pass (fst (dissolve ps scopes r')) r = pass ps r).
  { intros ps r r' sc Hne. unfold pass. by rewrite dissolve_region. }
  pose proof (keep_spec pass regions1 [] ps2 scopes H1 Hd1 Hp) as HK. fold pass.
  destruct (keep pass regions1 ps2 scopes) as [[ps3 scopes3] regions3] eqn:EK. destruct HK as (H3 & _ & Hall & _).
  destruct (dissolveLoop_spec pass (S (length regions3)) ps3 nodes scopes3 regions3) as (ps' & scopes' & regions' & E & HH & HE & HN);
    [done|lia|done|done|]. exists ps', scopes', regions'.
  assert (HS : same_plan (newPlan gu st nodes) scopes ps' scopes').
  { eapply same_plan_trans; [|by eapply dissolveLoop_same]. eapply same_plan_trans; [|by eapply keep_same].
    split; [by etrans|done]. }
  split_and!; [done|done| |done|].
  - intros r Hr. apply regionEligible_spec. rewrite Forall_forall in HE. by apply HE.
  - intros flow Hf HA. assert (Hf' : flow ∈ fs_fn <$> scopes') by by rewrite (proj2 HS).
    eexists. split; [by apply planSteps_lookup|]. apply list_elem_of_fmap in Hf' as (s & -> & Hs).
    apply orderFlow_in_order; [|by apply HN]. eapply node_waits_same; [apply HS|done].
Qed.
End Planning.
