(* ===== verification/GenBind.v ===== *)
(** Dependency resolution of the generator: the bindings of src/gen/gen.go and the
    validation pass of src/gen/scope.go.

    A type is its printed form, [types.TypeString(t, nil)]; [display] prints it with
    package names instead of paths, as the cycle traces do. A lazy binding is a pointer:
    an index into [g_heap]. Its build is a callback that works on the generator, so it is
    a program of the calls it makes, each answered with what the call returns. A build
    that panics is recovered where it was materialized. The active flow is the default
    one or that of [g.scope]. Types of variables, source positions of nodes and the text
    of messages are left out. *)

From S2P Require Import Prelude.
From S2P Require Import Order.
From S2P Require Import Strconv.
From S2P Require Import GenNode.
From S2P Require Import GenUsage.

(** ** Diagnostics *)

Inductive bindDiag :=
| ProviderCycle (trace : list string)
| LazyPanic (owner : string)
| OwnDiag (fatal : bool) (message : string).

#[export] Instance bindDiag_eq_dec : EqDecision bindDiag.
Proof. solve_decision. Defined.

Definition HasFatal (ds : list bindDiag) : bool :=
  existsb (fun d => match d with OwnDiag fatal _ => fatal | _ => true end) ds.

(** A registration that collides with an earlier one. *)
Inductive bindConflict :=
| DuplicateBind (t name owner first : string)
| DuplicateLazy (t name owner first : string) (pos firstPos : Position)
| DuplicateLazyPath (path owner first : string) (pos firstPos : Position).

#[export] Instance bindConflict_eq_dec : EqDecision bindConflict.
Proof. solve_decision. Defined.

(** ** Builds *)

Inductive Build : Type :=
| BReturn (expr : string) (ds : list bindDiag)
| BPanic
| BInstance (t name : string) (k : string * list bindDiag * bool -> Build)
| BInstancePath (path : string) (k : string * list bindDiag * bool -> Build)
| BBind (t name expr : string) (k : Build)
| BBindPath (path expr : string) (k : Build)
| BVar (base : string) (k : string -> Build)
| BNode (n : Node) (k : Build)
| BSingleton (key varName ctor : string) (k : string -> Build)
| BOnce (key : string) (build : Build) (k : string * list bindDiag -> Build).

Record lazyBind := mkLazy { lz_build : Build; lz_owner : string; lz_pos : Position }.

(** ** State *)

(** What the default flow and each scope have of their own. *)
Record flowState := mkFlow {
  fl_binds : gmap (string * string) string;
  fl_origins : gmap (string * string) string;
  fl_paths : gmap string string;
  fl_singletons : gmap string string;
  fl_once : gmap string string;
  fl_running : gset nat;
  fl_idents : gset string;
  fl_reserved : gset string;
  fl_bindOrder : list string;
  fl_nodes : list Node
}.

Record gen := mkGen {
  g_lazy : gmap (string * string) nat;
  g_lazyByPath : gmap string nat;
  g_heap : list lazyBind;
  g_diagnosed : gmap nat string;
  g_materializing : list string;
  g_current : string;
  g_conflicts : list bindConflict;
  g_conflictSeen : list bindConflict;
  g_usage : genUsage;
  g_default : flowState;
  g_scoped : flowState;
  g_aliasIdents : gset string;
  g_store : list (Node * storeUse);
  g_batchID : string;
  g_batchSeq : Z
}.

Definition inScope (g : gen) : bool := match u_scope (g_usage g) with Some _ => true | None => false end.
Definition InValidationScope (g : gen) : bool :=
  match u_scope (g_usage g) with Some sc => sc_validation sc | None => false end.

(** The maps of the active flow. *)
Definition flow (g : gen) : flowState := if inScope g then g_scoped g else g_default g.

Definition set_flow (f : flowState) (g : gen) : gen :=
  mkGen (g_lazy g) (g_lazyByPath g) (g_heap g) (g_diagnosed g) (g_materializing g) (g_current g) (g_conflicts g)
    (g_conflictSeen g) (g_usage g) (if inScope g then g_default g else f) (if inScope g then f else g_scoped g)
    (g_aliasIdents g) (g_store g) (g_batchID g) (g_batchSeq g).
Definition set_usage (u : genUsage) (g : gen) : gen :=
  mkGen (g_lazy g) (g_lazyByPath g) (g_heap g) (g_diagnosed g) (g_materializing g) (g_current g) (g_conflicts g)
    (g_conflictSeen g) u (g_default g) (g_scoped g) (g_aliasIdents g) (g_store g) (g_batchID g) (g_batchSeq g).
Definition set_diagnosed (d : gmap nat string) (g : gen) : gen :=
  mkGen (g_lazy g) (g_lazyByPath g) (g_heap g) d (g_materializing g) (g_current g) (g_conflicts g)
    (g_conflictSeen g) (g_usage g) (g_default g) (g_scoped g) (g_aliasIdents g) (g_store g) (g_batchID g) (g_batchSeq g).
Definition set_chain (chain : list string) (current : string) (g : gen) : gen :=
  mkGen (g_lazy g) (g_lazyByPath g) (g_heap g) (g_diagnosed g) chain current (g_conflicts g)
    (g_conflictSeen g) (g_usage g) (g_default g) (g_scoped g) (g_aliasIdents g) (g_store g) (g_batchID g) (g_batchSeq g).
Definition set_conflicts (cs seen : list bindConflict) (g : gen) : gen :=
  mkGen (g_lazy g) (g_lazyByPath g) (g_heap g) (g_diagnosed g) (g_materializing g) (g_current g) cs
    seen (g_usage g) (g_default g) (g_scoped g) (g_aliasIdents g) (g_store g) (g_batchID g) (g_batchSeq g).
Definition set_lazies (lz : gmap (string * string) nat) (paths : gmap string nat) (heap : list lazyBind) (g : gen) : gen :=
  mkGen lz paths heap (g_diagnosed g) (g_materializing g) (g_current g) (g_conflicts g)
    (g_conflictSeen g) (g_usage g) (g_default g) (g_scoped g) (g_aliasIdents g) (g_store g) (g_batchID g) (g_batchSeq g).
Definition set_nodes (store : list (Node * storeUse)) (seq : Z) (g : gen) : gen :=
  mkGen (g_lazy g) (g_lazyByPath g) (g_heap g) (g_diagnosed g) (g_materializing g) (g_current g) (g_conflicts g)
    (g_conflictSeen g) (g_usage g) (g_default g) (g_scoped g) (g_aliasIdents g) store (g_batchID g) seq.
Definition set_scoped (f : flowState) (g : gen) : gen :=
  mkGen (g_lazy g) (g_lazyByPath g) (g_heap g) (g_diagnosed g) (g_materializing g) (g_current g) (g_conflicts g)
    (g_conflictSeen g) (g_usage g) (g_default g) f (g_aliasIdents g) (g_store g) (g_batchID g) (g_batchSeq g).

Definition upd_running (r : gset nat) (f : flowState) : flowState :=
  mkFlow (fl_binds f) (fl_origins f) (fl_paths f) (fl_singletons f) (fl_once f) r (fl_idents f) (fl_reserved f)
    (fl_bindOrder f) (fl_nodes f).
Definition upd_binds (b o : gmap (string * string) string) (order : list string) (f : flowState) : flowState :=
  mkFlow b o (fl_paths f) (fl_singletons f) (fl_once f) (fl_running f) (fl_idents f) (fl_reserved f) order (fl_nodes f).
Definition upd_paths (p : gmap string string) (order : list string) (f : flowState) : flowState :=
  mkFlow (fl_binds f) (fl_origins f) p (fl_singletons f) (fl_once f) (fl_running f) (fl_idents f) (fl_reserved f)
    order (fl_nodes f).
Definition upd_singletons (s : gmap string string) (f : flowState) : flowState :=
  mkFlow (fl_binds f) (fl_origins f) (fl_paths f) s (fl_once f) (fl_running f) (fl_idents f) (fl_reserved f)
    (fl_bindOrder f) (fl_nodes f).
Definition upd_once (o : gmap string string) (f : flowState) : flowState :=
  mkFlow (fl_binds f) (fl_origins f) (fl_paths f) (fl_singletons f) o (fl_running f) (fl_idents f) (fl_reserved f)
    (fl_bindOrder f) (fl_nodes f).
Definition upd_idents (i : gset string) (f : flowState) : flowState :=
  mkFlow (fl_binds f) (fl_origins f) (fl_paths f) (fl_singletons f) (fl_once f) (fl_running f) i (fl_reserved f)
    (fl_bindOrder f) (fl_nodes f).
Definition upd_nodes (n : list Node) (f : flowState) : flowState :=
  mkFlow (fl_binds f) (fl_origins f) (fl_paths f) (fl_singletons f) (fl_once f) (fl_running f) (fl_idents f)
    (fl_reserved f) (fl_bindOrder f) n.

Definition emptyFlow (idents reserved : gset string) : flowState :=
  mkFlow ∅ ∅ ∅ ∅ ∅ ∅ idents reserved [] [].

Definition NewGen : gen :=
  mkGen ∅ ∅ [] ∅ [] EmptyString [] []
    (mkUsage None (Some (mkFrag [] ∅ [] EmptyString false)) ∅ ∅)
    (emptyFlow ∅ ∅) (emptyFlow ∅ ∅) ∅ [] EmptyString 0.

(** ** Registration *)

(** Ordinals of the graph's bindings: each expression at its first bind. *)
Definition recordBindExpr (expr : string) (order : list string) : list string :=
  if bool_decide (expr ∈ order) then order else order ++ [expr].

(** One logical conflict is reported once, across drains. *)
Definition recordBindConflict (c : bindConflict) (g : gen) : gen :=
  if bool_decide (c ∈ g_conflictSeen g) then g
  else set_conflicts (g_conflicts g ++ [c]) (g_conflictSeen g ++ [c]) g.

Definition BindConflicts (g : gen) : list bindConflict * gen :=
  (g_conflicts g, set_conflicts [] (g_conflictSeen g) g).

Definition Bind (t name expr : string) (g : gen) : gen :=
  let f := flow g in
  match fl_binds f !! (t, name) with
  | Some _ =>
      recordBindConflict (DuplicateBind t name (g_current g) (default EmptyString (fl_origins f !! (t, name)))) g
  | None =>
      set_flow (upd_binds (<[(t, name) := expr]> (fl_binds f)) (<[(t, name) := g_current g]> (fl_origins f))
                  (recordBindExpr expr (fl_bindOrder f)) f) g
  end.

Definition BindLazyAt (t name : string) (pos : Position) (build : Build) (g : gen) : gen :=
  match g_lazy g !! (t, name) with
  | Some i =>
      let first := g_heap g !! i in
      recordBindConflict (DuplicateLazy t name (g_current g)
        (default EmptyString (lz_owner <$> first)) pos
        (default (Build_Position EmptyString 0 0) (lz_pos <$> first))) g
  | None => set_lazies (<[(t, name) := length (g_heap g)]> (g_lazy g)) (g_lazyByPath g)
              (g_heap g ++ [mkLazy build (g_current g) pos]) g
  end.

Definition BindLazyPathAt (path : string) (pos : Position) (build : Build) (g : gen) : gen :=
  match g_lazyByPath g !! path with
  | Some i =>
      let first := g_heap g !! i in
      recordBindConflict (DuplicateLazyPath path (g_current g)
        (default EmptyString (lz_owner <$> first)) pos
        (default (Build_Position EmptyString 0 0) (lz_pos <$> first))) g
  | None => set_lazies (g_lazy g) (<[path := length (g_heap g)]> (g_lazyByPath g))
              (g_heap g ++ [mkLazy build (g_current g) pos]) g
  end.

Definition BindPath (path expr : string) (g : gen) : gen :=
  let f := flow g in
  set_flow (upd_paths (<[path := expr]> (fl_paths f)) (recordBindExpr expr (fl_bindOrder f)) f) g.

(** ** Identifiers *)

(** [base], then [base2], [base3] and so on, up to the first one free; among one more
    candidates than there are taken names, one is. *)
Definition candidates (base : string) (n : nat) : list string :=
  base :: map (fun i => base +:+ FormatInt (Z.of_nat i)) (seq 2 n).

Definition freshIdent (taken : gset string) (base : string) : string :=
  match list_find (fun c => c ∉ taken) (candidates base (size taken)) with
  | Some (_, c) => c
  | None => base
  end.

Definition Var (base : string) (g : gen) : string * gen :=
  let f := flow g in
  let name := freshIdent (if inScope g then fl_idents f ∪ fl_reserved f else fl_idents f) base in
  (name, set_flow (upd_idents ({[name]} ∪ fl_idents f) f) g).

(** ** Nodes *)

Definition stampBase (directive batch : string) (seq : Z) (b : Base) : Base :=
  let dir := if bool_decide (b_Directive b = EmptyString) then directive else b_Directive b in
  let stamp := bool_decide (batch <> EmptyString) && bool_decide (b_Batch b = EmptyString) in
  mkBase (b_ptr b) dir (b_Pos b) (b_Phase b) (b_Label b) (b_Uses b)
    (if stamp then batch else b_Batch b) (if stamp then seq else b_Seq b) (b_Group b).

Definition mapBase (f : Base -> Base) (n : Node) : Node :=
  match n with
  | NRaw b l d c => NRaw (f b) l d c
  | NAssign b v e => NAssign (f b) v e
  | NCall c =>
      NCall (mkCall (f (c_base c)) (c_Var c) (c_Fn c) (c_Args c) (c_Err c) (c_BindingName c) (c_Cleanup c)
               (c_ErrsPkg c))
  | NConfigLoad b v p t x o => NConfigLoad (f b) v p t x o
  | NStructLit b v t fs => NStructLit (f b) v t fs
  | NSelect b v i k p cs => NSelect (f b) v i k p cs
  | NRoute b r k m p h c => NRoute (f b) r k m p h c
  end.

(** [Node]. The phases of a select's cases are taken as already set. *)
Definition EmitNode (n : Node) (g : gen) : gen :=
  let batched := bool_decide (g_batchID g <> EmptyString) && bool_decide (b_Batch (base n) = EmptyString) in
  let seq := if batched then (g_batchSeq g + 1)%Z else g_batchSeq g in
  let n := mapBase (stampBase (g_current g) (g_batchID g) seq) n in
  if InValidationScope g then
    set_nodes (g_store g) seq (set_flow (upd_nodes (fl_nodes (flow g) ++ [n]) (flow g)) g)
  else
    set_nodes (g_store g ++ [(n, match u_frag (g_usage g) with
                              | Some st => mkStoreUse (currentDemand st) (fr_flow st)
                              | None => mkStoreUse None EmptyString
                              end)]) seq g.

(** ** Demands *)

Definition demand (k : demandKey) (g : gen) : gen := set_usage (recordDemand (g_usage g) k) g.
Definition pushDemand_ (k : demandKey) (g : gen) : gen := set_usage (pushDemand (g_usage g) k) g.
Definition popDemand_ (g : gen) : gen := set_usage (popDemand (g_usage g)) g.

Definition typeDemand (t name : string) : demandKey := mkDemand demandType t name 0.
Definition pathDemand (path : string) : demandKey := mkDemand demandPath path EmptyString 0.
Definition singletonDemand (key : string) : demandKey := mkDemand demandSingleton key EmptyString 0.

(** [SingletonIn]: one variable per key in the active flow. *)
Definition Singleton (key varName ctor : string) (g : gen) : string * gen :=
  let g := pushDemand_ (singletonDemand key) (demand (singletonDemand key) g) in
  match fl_singletons (flow g) !! key with
  | Some v => (v, popDemand_ g)
  | None =>
      let '(v, g) := Var varName g in
      let g := set_flow (upd_singletons (<[key := v]> (fl_singletons (flow g))) (flow g)) g in
      let g := EmitNode (NAssign (mkBase 0 EmptyString (Build_Position EmptyString 0 0) PhaseWire EmptyString []
                                    EmptyString 0 EmptyString) v ctor) g in
      (v, popDemand_ g)
  end.

(** ** Resolution *)

(** A path binding is materialized for itself or for the type it prints. *)
Inductive target := TType (t name : string) (dk : demandKey) | TPath (path : string).

Definition lazyRunning (i : nat) (g : gen) : bool := bool_decide (i ∈ fl_running (flow g)).
Definition setRunning (i : nat) (v : bool) (g : gen) : gen :=
  let r := fl_running (flow g) in
  set_flow (upd_running (if v then {[i]} ∪ r else r ∖ {[i]}) (flow g)) g.

Definition typeBound (t name : string) (g : gen) : bool := bool_decide (is_Some (fl_binds (flow g) !! (t, name))).

(** The chain of what is being built, from the first time [key] was asked for. *)
Fixpoint from_key (key : string) (chain : list string) : option (list string) :=
  match chain with
  | [] => None
  | k :: rest => if bool_decide (k = key) then Some chain else from_key key rest
  end.

Definition cycleDiag (key : string) (g : gen) : bindDiag :=
  ProviderCycle (default (g_materializing g) (from_key key (g_materializing g)) ++ [key]).

Definition answer : Type := string * list bindDiag * bool.

Section Resolve.
Context (display : string -> string).

Definition chainKey (t name : string) : string :=
  if bool_decide (name <> EmptyString) then display t +:+ " (" +:+ name +:+ ")" else display t.

(** What [materialize] and [materializePath] do around a build, given how to
    materialize what the build asks for; [None] when that runs out of fuel. *)
Section Run.
Context (mat : target -> nat -> gen -> option (gen * answer)).

(** [Instance] *)
Definition Instance_ (t name : string) (g : gen) : option (gen * answer) :=
  let byLazy (g : gen) :=
    match g_lazy g !! (t, name) with
    | Some i => mat (TType t name (typeDemand t name)) i g
    | None => Some (g, (EmptyString, [], false))
    end in
  match fl_binds (flow g) !! (t, name) with
  | Some expr =>
      let g :=
        if inScope g then g
        else
          let g := match g_lazy g !! (t, name) with Some _ => demand (typeDemand t name) g | None => g end in
          if bool_decide (name = EmptyString)
          then match g_lazyByPath g !! t with Some _ => demand (pathDemand t) g | None => g end
          else g in
      Some (g, (expr, [], true))
  | None =>
      if bool_decide (name = EmptyString) then
        match fl_paths (flow g) !! t with
        | Some expr =>
            let g := if inScope g then g else demand (pathDemand t) g in
            Some (Bind t name expr g, (expr, [], true))
        | None =>
            match g_lazyByPath g !! t with
            | Some i =>
                match mat (TType t name (pathDemand t)) i g with
                | Some (g, (expr, ds, ok)) =>
                    let g := if ok && bool_decide (ds = []) then BindPath t expr g else g in
                    Some (g, (expr, ds, ok))
                | None => None
                end
            | None => byLazy g
            end
        end
      else byLazy g
  end.

(** [InstancePath] *)
Definition InstancePath_ (path : string) (g : gen) : option (gen * answer) :=
  match fl_paths (flow g) !! path with
  | Some expr => Some (if inScope g then g else demand (pathDemand path) g, (expr, [], true))
  | None =>
      match g_lazyByPath g !! path with
      | Some i => mat (TPath path) i g
      | None => Some (g, (EmptyString, [], false))
      end
  end.

(** A build: the state it leaves, and what it returns unless it panics. *)
Fixpoint run (b : Build) (g : gen) : option (gen * option (string * list bindDiag)) :=
  match b with
  | BReturn expr ds => Some (g, Some (expr, ds))
  | BPanic => Some (g, None)
  | BInstance t name k => match Instance_ t name g with Some (g, a) => run (k a) g | None => None end
  | BInstancePath path k => match InstancePath_ path g with Some (g, a) => run (k a) g | None => None end
  | BBind t name expr k => run k (Bind t name expr g)
  | BBindPath path expr k => run k (BindPath path expr g)
  | BVar base k => let '(v, g) := Var base g in run (k v) g
  | BNode n k => run k (EmitNode n g)
  | BSingleton key v ctor k => let '(v, g) := Singleton key v ctor g in run (k v) g
  | BOnce key build k =>
      match fl_once (flow g) !! key with
      | Some v => run (k (v, [])) g
      | None =>
          match run build g with
          | None => None
          | Some (g, None) => Some (g, None)
          | Some (g, Some (v, ds)) =>
              run (k (v, ds)) (set_flow (upd_once (<[key := v]> (fl_once (flow g))) (flow g)) g)
          end
      end
  end.
End Run.

(** A build has panicked or reported a fatal diagnostic: outside the validation pass its
    expression is kept, so later flows neither run it again nor report again. *)
Definition diagnose (i : nat) (expr : string) (g : gen) : gen :=
  if InValidationScope g then g else set_diagnosed (<[i := expr]> (g_diagnosed g)) g.

(** The bookkeeping of a build around [run], restored however it ends. *)
Definition enter (i : nat) (key : string) (dk : demandKey) (owner : string) (g : gen) : gen :=
  pushDemand_ dk (set_chain (g_materializing g ++ [key]) owner (setRunning i true g)).
Definition leave (i : nat) (prev : string) (g : gen) : gen :=
  setRunning i false (set_chain (removelast (g_materializing g)) prev (popDemand_ g)).

(** [materialize] and [materializePath]. The fuel bounds the depth of builds inside
    builds; each has a binding of its own running. *)
Fixpoint materialize (fuel : nat) (tg : target) (i : nat) (g : gen) : option (gen * answer) :=
  let key := match tg with TType t name _ => chainKey t name | TPath path => path end in
  let dk := match tg with TType _ _ dk => dk | TPath path => pathDemand path end in
  let g := match tg with TType _ _ _ => g | TPath path => demand dk g end in
  match g_diagnosed g !! i with
  | Some expr =>
      Some (match tg with
            | TType t name _ => if typeBound t name g then g else Bind t name expr g
            | TPath _ => g
            end, (expr, [], true))
  | None =>
      if lazyRunning i g then Some (g, (EmptyString, [cycleDiag key g], false))
      else
        match fuel, g_heap g !! i with
        | S fuel, Some lb =>
            let prev := g_current g in
            let g := match tg with TType _ _ _ => demand dk g | TPath _ => g end in
            match run (materialize fuel) (lz_build lb) (enter i key dk (lz_owner lb) g) with
            | None => None
            | Some (g, None) =>
                Some (leave i prev (diagnose i EmptyString g), (EmptyString, [LazyPanic (lz_owner lb)], false))
            | Some (g, Some (expr, ds)) =>
                let g := if HasFatal ds then diagnose i expr g else g in
                let g := match tg with
                         | TType t name _ => if typeBound t name g then g else Bind t name expr g
                         | TPath path => if bool_decide (ds = []) then BindPath path expr g else g
                         end in
                Some (leave i prev g, (expr, ds, true))
            end
        | _, _ => None
        end
  end.

Definition Instance (fuel : nat) : string -> string -> gen -> option (gen * answer) := Instance_ (materialize fuel).
Definition InstancePath (fuel : nat) : string -> gen -> option (gen * answer) := InstancePath_ (materialize fuel).

Definition HasBinding (t name : string) (g : gen) : bool :=
  typeBound t name g
  || bool_decide (name = EmptyString)
     && (bool_decide (is_Some (fl_paths (flow g) !! t)) || bool_decide (is_Some (g_lazyByPath g !! t)))
  || bool_decide (is_Some (g_lazy g !! (t, name))).

Definition HasBindingPath (path : string) (g : gen) : bool :=
  bool_decide (is_Some (fl_paths (flow g) !! path)) || bool_decide (is_Some (g_lazyByPath g !! path)).

(** ** Scopes *)

Definition lateAliases : list string := ["os"; "fmt"; "errors"; "signal"; "syscall"; "cli"; "context"].

Definition set_scope (sc : option scopeState) (g : gen) : gen :=
  set_usage (mkUsage sc (u_frag (g_usage g)) (u_demands (g_usage g)) (u_edges (g_usage g))) g.

Definition enterScope (fn : string) (validation : bool) (g : gen) : gen :=
  set_scope (Some (mkScope fn validation))
    (set_scoped (emptyFlow (g_aliasIdents g ∪ list_to_set ["err"; "cleanup"; "unwind"; "ctx"])
                   (list_to_set lateAliases)) g).

(** The bindings in a fixed order: by printed type, then name. *)
Definition lazyEntries (g : gen) : list (string * string) :=
  sort_by (cmp_then (cmp_on fst cmp_string) (cmp_on snd cmp_string)) (map_to_list (g_lazy g)).*1.
Definition pathEntries (g : gen) : list string := sort_by cmp_string (map_to_list (g_lazyByPath g)).*1.

Fixpoint validateEntries (fuel : nat) (es : list (string * string)) (g : gen) : option (gen * list bindDiag) :=
  match es with
  | [] => Some (g, [])
  | (t, name) :: es =>
      if demanded (g_usage g) (typeDemand t name) then validateEntries fuel es g
      else match Instance fuel t name g with
           | None => None
           | Some (g, (_, ds, _)) =>
               match validateEntries fuel es g with Some (g, ds') => Some (g, ds ++ ds') | None => None end
           end
  end.

Fixpoint validatePaths (fuel : nat) (ps : list string) (g : gen) : option (gen * list bindDiag) :=
  match ps with
  | [] => Some (g, [])
  | p :: ps =>
      if demanded (g_usage g) (pathDemand p) then validatePaths fuel ps g
      else match InstancePath fuel p g with
           | None => None
           | Some (g, (_, ds, _)) =>
               match validatePaths fuel ps g with Some (g, ds') => Some (g, ds ++ ds') | None => None end
           end
  end.

(** [RunValidationPass], without the callbacks registered by directives. *)
Definition RunValidationPass (fuel : nat) (g : gen) : option (gen * list bindDiag) :=
  let g := enterScope EmptyString true g in
  match validateEntries fuel (lazyEntries g) g with
  | None => None
  | Some (g, ds) =>
      match validatePaths fuel (pathEntries g) g with
      | None => None
      | Some (g, ds') => Some (set_scope None g, ds ++ ds')
      end
  end.
End Resolve.
