(* ===== verification/GenBindSpec.v ===== *)
(** Resolution of the bindings of GenBind.v: it always ends and leaves the bookkeeping as
    it was, even when builds panic; a binding that resolved stays resolved and is not
    built again; a cycle is reported only when the bindings do need each other in a
    circle; the validation pass leaves no trace; generated identifiers are fresh. *)

From S2P Require Import Prelude.
From S2P Require Import Order.
From S2P Require Import Strconv.
From S2P Require Import Digraph.
From S2P Require Import GenNode.
From S2P Require Import GenUsage.
From S2P Require Import GenBind.

(** ** What a call may do to the generator *)

Definition demandStack (g : gen) : option (list nat) := fr_active <$> u_frag (g_usage g).

Record evolves (g g' : gen) : Prop := {
  ev_lazy : g_lazy g' = g_lazy g;
  ev_paths : g_lazyByPath g' = g_lazyByPath g;
  ev_heap : g_heap g' = g_heap g;
  ev_scope : u_scope (g_usage g') = u_scope (g_usage g);
  ev_running : fl_running (flow g') = fl_running (flow g);
  ev_chain : g_materializing g' = g_materializing g;
  ev_current : g_current g' = g_current g;
  ev_stack : demandStack g' = demandStack g;
  ev_binds : forall k e, fl_binds (flow g) !! k = Some e -> fl_binds (flow g') !! k = Some e;
  ev_singletons : forall k e, fl_singletons (flow g) !! k = Some e -> fl_singletons (flow g') !! k = Some e;
  ev_diagnosed : forall i e, g_diagnosed g !! i = Some e -> g_diagnosed g' !! i = Some e;
  ev_busy : forall i, i ∈ fl_running (flow g) -> g_diagnosed g' !! i = g_diagnosed g !! i;
  ev_default : inScope g = true -> g_default g' = g_default g;
  ev_isolated : InValidationScope g = true -> g_diagnosed g' = g_diagnosed g /\ g_store g' = g_store g
}.

Lemma inScope_scope g g' : u_scope (g_usage g') = u_scope (g_usage g) -> inScope g' = inScope g.
Proof. intros E. unfold inScope. by rewrite E. Qed.

Lemma validation_scope g g' : u_scope (g_usage g') = u_scope (g_usage g) -> InValidationScope g' = InValidationScope g.
Proof. intros E. unfold InValidationScope. by rewrite E. Qed.

#[export] Instance evolves_preorder : PreOrder evolves.
Proof.
  constructor.
  - intros g. by constructor.
  - intros g1 g2 g3 [] []. constructor; try congruence; auto.
    + intros i Hi. rewrite <-ev_busy0 by done. apply ev_busy1. by rewrite ev_running0.
    + intros H. rewrite ev_default1, ev_default0; [done|done|]. by rewrite (inScope_scope g1 g2).
    + intros H. destruct (ev_isolated0 H) as [E1 E2].
      rewrite <-(validation_scope g1 g2) in H by done. destruct (ev_isolated1 H) as [E3 E4]. split; congruence.
Qed.

Lemma flow_set_flow f g : flow (set_flow f g) = f.
Proof. unfold flow, set_flow, inScope. cbn. by destruct (u_scope (g_usage g)). Qed.

Lemma inScope_set_flow f g : inScope (set_flow f g) = inScope g.
Proof. done. Qed.

Lemma default_set_flow f g : inScope g = true -> g_default (set_flow f g) = g_default g.
Proof. unfold set_flow. cbn. by intros ->. Qed.

(** A change of the active flow that keeps what it must. *)
Lemma set_flow_evolves f g :
  fl_running f = fl_running (flow g) ->
  (forall k e, fl_binds (flow g) !! k = Some e -> fl_binds f !! k = Some e) ->
  (forall k e, fl_singletons (flow g) !! k = Some e -> fl_singletons f !! k = Some e) ->
  evolves g (set_flow f g).
Proof.
  intros Hr Hb Hs. constructor; rewrite ?flow_set_flow; try done. apply default_set_flow.
Qed.

(** A change of the demands that keeps the scope and the stack. *)
Lemma set_usage_evolves u g :
  u_scope u = u_scope (g_usage g) -> fr_active <$> u_frag u = fr_active <$> u_frag (g_usage g) ->
  evolves g (set_usage u g).
Proof.
  intros Hs Ha. assert (Ef : flow (set_usage u g) = flow g) by (unfold flow, inScope; cbn; by rewrite Hs).
  constructor; rewrite ?Ef; try done.
Qed.

Lemma demand_evolves k g : evolves g (demand k g).
Proof. unfold demand. by apply set_usage_evolves. Qed.

Lemma insert_new_mono {K} `{Countable K} (m : gmap K string) k v k' e :
  m !! k = None -> m !! k' = Some e -> <[k := v]> m !! k' = Some e.
Proof. intros Hk H'. rewrite lookup_insert_ne; [done|]. by intros ->; congruence. Qed.

Lemma recordBindConflict_evolves c g : evolves g (recordBindConflict c g).
Proof. unfold recordBindConflict. case_bool_decide; [reflexivity|]. by constructor. Qed.

Lemma Bind_evolves t name expr g : evolves g (Bind t name expr g).
Proof.
  unfold Bind. destruct (fl_binds (flow g) !! (t, name)) eqn:E; [apply recordBindConflict_evolves|].
  apply set_flow_evolves; [done| |done]. intros k e. by apply insert_new_mono.
Qed.

Lemma BindPath_evolves path expr g : evolves g (BindPath path expr g).
Proof. unfold BindPath. by apply set_flow_evolves. Qed.

Lemma Var_evolves base g : evolves g (Var base g).2.
Proof. unfold Var. cbn [snd]. by apply set_flow_evolves. Qed.

Lemma EmitNode_evolves n g : evolves g (EmitNode n g).
Proof.
  unfold EmitNode. destruct (InValidationScope g) eqn:EV.
  - match goal with |- evolves g (set_nodes _ _ (set_flow ?f g)) => transitivity (set_flow f g) end.
    + by apply set_flow_evolves.
    + by constructor.
  - constructor; try done. by rewrite EV.
Qed.

Lemma pushDemand_stack k g :
  u_scope (g_usage (pushDemand_ k g)) = u_scope (g_usage g) /\
  exists id, demandStack (pushDemand_ k g) = (fun l => l ++ [id]) <$> demandStack g.
Proof.
  unfold pushDemand_, demandStack, pushDemand. cbn [g_usage set_usage].
  destruct (u_frag (g_usage g)) as [st|] eqn:E; cbn; [|split; [done|exists 0; by rewrite E]].
  destruct (demandID st k) as [id st'] eqn:ED. cbn. split; [done|]. exists id. f_equal. f_equal.
  unfold demandID in ED. destruct (fr_index st !! k); by injection ED as <- <-.
Qed.

Lemma popDemand_stack g :
  u_scope (g_usage (popDemand_ g)) = u_scope (g_usage g) /\
  demandStack (popDemand_ g) = (fun l => removelast l) <$> demandStack g.
Proof.
  unfold popDemand_, demandStack, popDemand. cbn [g_usage set_usage].
  destruct (u_frag (g_usage g)) as [st|] eqn:E; cbn; [done|by rewrite E].
Qed.

(** The same but for what is pushed: [evolves] up to the demand stack. *)
Record evolves_but_stack (g g' : gen) : Prop := {
  eb_flow : flow g' = flow g;
  eb_scope : u_scope (g_usage g') = u_scope (g_usage g);
  eb_rest : g_lazy g' = g_lazy g /\ g_lazyByPath g' = g_lazyByPath g /\ g_heap g' = g_heap g /\
            g_materializing g' = g_materializing g /\ g_current g' = g_current g /\
            g_diagnosed g' = g_diagnosed g /\ g_default g' = g_default g /\ g_store g' = g_store g
}.

Lemma flow_of_parts g g' :
  u_scope (g_usage g') = u_scope (g_usage g) -> g_default g' = g_default g -> g_scoped g' = g_scoped g ->
  flow g' = flow g.
Proof. intros H1 H2 H3. unfold flow. by rewrite (inScope_scope g g' H1), H2, H3. Qed.

Lemma push_but k g : evolves_but_stack g (pushDemand_ k g).
Proof. constructor; [apply flow_of_parts; try done| |done]; apply pushDemand_stack. Qed.

Lemma pop_but g : evolves_but_stack g (popDemand_ g).
Proof. constructor; [apply flow_of_parts; try done| |done]; apply popDemand_stack. Qed.

(** Calls between a push and its pop leave the stack as it was. *)
Lemma pushed_evolves k g g' : evolves (pushDemand_ k g) g' -> evolves g (popDemand_ g').
Proof.
  intros I. pose proof (push_but k g) as [A1 A2 (B1 & B2 & B3 & B4 & B5 & B6 & B7 & B8)].
  pose proof (pop_but g') as [C1 C2 (D1 & D2 & D3 & D4 & D5 & D6 & D7 & D8)].
  destruct (pushDemand_stack k g) as [_ (id & ES)]. destruct (popDemand_stack g') as [_ EP].
  destruct I. constructor; rewrite ?C1, <-?A1; try congruence; try done.
  - rewrite EP, ev_stack0, ES. destruct (demandStack g) as [l|]; [|done]. cbn. by rewrite removelast_last.
  - intros H. rewrite D7, <-B7. apply ev_default0. by rewrite (inScope_scope g).
  - intros H. rewrite D6, D8, <-B6, <-B8. apply ev_isolated0. by rewrite (validation_scope g).
Qed.

Lemma Singleton_evolves key v ctor g : evolves g (Singleton key v ctor g).2.
Proof.
  unfold Singleton. set (g1 := demand _ g). assert (H1 : evolves g g1) by apply demand_evolves.
  destruct (fl_singletons (flow (pushDemand_ _ g1)) !! key) as [w|] eqn:E; cbn [snd].
  - etransitivity; [exact H1|]. eapply (pushed_evolves (singletonDemand key)). reflexivity.
  - destruct (Var v _) as [w g2] eqn:EV. cbn [snd]. etransitivity; [exact H1|].
    apply (pushed_evolves (singletonDemand key)).
    pose proof (Var_evolves v (pushDemand_ (singletonDemand key) g1)) as H2. rewrite EV in H2. cbn [snd] in H2.
    etransitivity; [exact H2|]. etransitivity; [|apply EmitNode_evolves].
    apply set_flow_evolves; [done|done|]. cbn. intros k e. apply insert_new_mono.
    assert (Es : fl_singletons (flow g2) = fl_singletons (flow (pushDemand_ (singletonDemand key) g1))).
    { unfold Var in EV. injection EV as _ <-. by rewrite flow_set_flow. }
    by rewrite Es.
Qed.

(** ** Entering and leaving a build *)

Definition diagnose_opt (i : nat) (x : option string) (g : gen) : gen :=
  match x with Some e => diagnose i e g | None => g end.

Lemma diagnose_parts i e g :
  flow (diagnose i e g) = flow g /\ g_usage (diagnose i e g) = g_usage g /\ g_default (diagnose i e g) = g_default g /\
  g_store (diagnose i e g) = g_store g /\ g_lazy (diagnose i e g) = g_lazy g /\
  g_lazyByPath (diagnose i e g) = g_lazyByPath g /\ g_heap (diagnose i e g) = g_heap g /\
  g_materializing (diagnose i e g) = g_materializing g /\ g_current (diagnose i e g) = g_current g /\
  g_diagnosed (diagnose i e g) = if InValidationScope g then g_diagnosed g else <[i := e]> (g_diagnosed g).
Proof. unfold diagnose. by destruct (InValidationScope g). Qed.

Lemma enter_parts i key dk owner g :
  let g' := enter i key dk owner g in
  flow g' = upd_running ({[i]} ∪ fl_running (flow g)) (flow g) /\
  u_scope (g_usage g') = u_scope (g_usage g) /\ g_materializing g' = g_materializing g ++ [key] /\
  g_current g' = owner /\ g_lazy g' = g_lazy g /\ g_lazyByPath g' = g_lazyByPath g /\ g_heap g' = g_heap g /\
  g_diagnosed g' = g_diagnosed g /\ g_store g' = g_store g /\
  (inScope g = true -> g_default g' = g_default g) /\
  exists id, demandStack g' = (fun l => l ++ [id]) <$> demandStack g.
Proof.
  cbv zeta. unfold enter. set (g1 := set_chain _ _ _).
  pose proof (push_but dk g1) as [A1 A2 (B1 & B2 & B3 & B4 & B5 & B6 & B7 & B8)].
  destruct (pushDemand_stack dk g1) as [_ (id & ES)].
  assert (Ef : flow g1 = upd_running ({[i]} ∪ fl_running (flow g)) (flow g)).
  { unfold g1. change (flow (set_chain _ _ (setRunning i true g))) with (flow (setRunning i true g)).
    unfold setRunning. by rewrite flow_set_flow. }
  rewrite A1, A2, B1, B2, B3, B4, B5, B6, B7, B8. split_and!; try done.
  - intros H. by apply (default_set_flow _ g).
  - exists id. exact ES.
Qed.

Lemma leave_parts i prev g :
  let g' := leave i prev g in
  flow g' = upd_running (fl_running (flow g) ∖ {[i]}) (flow g) /\
  u_scope (g_usage g') = u_scope (g_usage g) /\ g_materializing g' = removelast (g_materializing g) /\
  g_current g' = prev /\ g_lazy g' = g_lazy g /\ g_lazyByPath g' = g_lazyByPath g /\ g_heap g' = g_heap g /\
  g_diagnosed g' = g_diagnosed g /\ g_store g' = g_store g /\
  (inScope g = true -> g_default g' = g_default g) /\
  demandStack g' = (fun l => removelast l) <$> demandStack g.
Proof.
  cbv zeta. unfold leave. set (g1 := popDemand_ g). set (g2 := set_chain _ _ g1).
  pose proof (pop_but g) as [A1 A2 (B1 & B2 & B3 & B4 & B5 & B6 & B7 & B8)].
  destruct (popDemand_stack g) as [_ EP].
  assert (Ef : flow g2 = flow g) by exact A1.
  unfold setRunning. rewrite flow_set_flow, Ef.
  split_and!; try done. intros H. rewrite default_set_flow; [done|].
  change (inScope g2) with (inScope g1). by rewrite (inScope_scope g).
Qed.

Lemma framed_evolves i key dk owner g g2 x :
  i ∉ fl_running (flow g) -> g_diagnosed g !! i = None -> evolves (enter i key dk owner g) g2 ->
  evolves g (leave i (g_current g) (diagnose_opt i x g2)).
Proof.
  intros Hi Hd I.
  destruct (enter_parts i key dk owner g) as (E1 & E2 & E3 & E4 & E5 & E6 & E7 & E8 & E9 & E10 & id & E11).
  set (g3 := diagnose_opt i x g2).
  assert (Hp : flow g3 = flow g2 /\ g_usage g3 = g_usage g2 /\ g_default g3 = g_default g2 /\ g_store g3 = g_store g2 /\
            g_lazy g3 = g_lazy g2 /\ g_lazyByPath g3 = g_lazyByPath g2 /\ g_heap g3 = g_heap g2 /\
            g_materializing g3 = g_materializing g2 /\
            (forall j, j <> i -> g_diagnosed g3 !! j = g_diagnosed g2 !! j) /\
            (InValidationScope g2 = true -> g_diagnosed g3 = g_diagnosed g2)).
  { unfold g3, diagnose_opt. destruct x as [e|]; [|by split_and!].
    destruct (diagnose_parts i e g2) as (P1 & P2 & P3 & P4 & P5 & P6 & P7 & P8 & P9 & P10).
    split_and!; try done; rewrite P10.
    - intros j Hj. destruct (InValidationScope g2); [done|]. by rewrite lookup_insert_ne.
    - by intros ->. }
  destruct Hp as (P1 & P2 & P3 & P4 & P5 & P6 & P7 & P8 & P9 & P10).
  destruct (leave_parts i (g_current g) g3) as (L1 & L2 & L3 & L4 & L5 & L6 & L7 & L8 & L9 & L10 & L11).
  destruct I. rewrite E1 in *. cbn [fl_running upd_running fl_binds fl_singletons] in *.
  assert (Esc : inScope g3 = inScope g) by (apply inScope_scope; rewrite P2; congruence).
  assert (Eval : InValidationScope g2 = InValidationScope g) by (apply validation_scope; congruence).
  constructor; rewrite ?L1; cbn [fl_running upd_running fl_binds fl_singletons]; rewrite ?P1;
    try congruence; try done.
  - rewrite ev_running0. apply leibniz_equiv. set_solver.
  - rewrite L3, P8, ev_chain0, E3. by rewrite removelast_last.
  - rewrite L11. unfold demandStack in *. rewrite P2, ev_stack0, E11.
    destruct (u_frag (g_usage g)) as [st|]; [|done]. cbn. by rewrite removelast_last.
  - intros j e Hj. rewrite L8, P9 by congruence. apply ev_diagnosed0. by rewrite E8.
  - intros j Hj. rewrite L8, P9 by (intros ->; done). rewrite ev_busy0 by set_solver. by rewrite E8.
  - intros H. rewrite L10 by congruence. rewrite P3, ev_default0, E10; [done|done|]. by rewrite (inScope_scope g).
  - intros H. rewrite L8, L9, P10, P4 by congruence.
    assert (Hv : InValidationScope (enter i key dk owner g) = true) by by rewrite (validation_scope g).
    destruct (ev_isolated0 Hv) as [H1 H2]. split; congruence.
Qed.

Lemma Bind_diagnose t name expr i x g :
  Bind t name expr (diagnose_opt i x g) = diagnose_opt i x (Bind t name expr g).
Proof.
  destruct x as [e|]; [|done]. cbn [diagnose_opt]. unfold diagnose.
  rewrite (validation_scope g (Bind t name expr g)) by apply Bind_evolves.
  destruct (InValidationScope g); [done|]. unfold Bind.
  change (flow (set_diagnosed (<[i := e]> (g_diagnosed g)) g)) with (flow g).
  destruct (fl_binds (flow g) !! (t, name)); [|done]. unfold recordBindConflict. cbn. by case_bool_decide.
Qed.

(** ** Resolution ends *)

Record heap_ok (g : gen) : Prop := {
  ho_lazy : forall k i, g_lazy g !! k = Some i -> i < length (g_heap g);
  ho_paths : forall p i, g_lazyByPath g !! p = Some i -> i < length (g_heap g)
}.

Lemma evolves_heap_ok g g' : evolves g g' -> heap_ok g -> heap_ok g'.
Proof.
  intros [E1 E2 E3 _ _ _ _ _ _ _ _ _ _ _] [H1 H2]. constructor; rewrite ?E1, ?E2, E3; done.
Qed.

(** The bindings that are not being built. *)
Definition idle (g : gen) : list nat := filter (fun i => i ∉ fl_running (flow g)) (seq 0 (length (g_heap g))).

Lemma evolves_idle g g' : evolves g g' -> idle g' = idle g.
Proof. intros I. unfold idle. by rewrite (ev_running _ _ I), (ev_heap _ _ I). Qed.

Definition bound (t name : string) (g : gen) : Prop := is_Some (fl_binds (flow g) !! (t, name)).

Lemma evolves_bound t name g g' : evolves g g' -> bound t name g -> bound t name g'.
Proof. intros I [e He]. exists e. by apply (ev_binds _ _ I). Qed.

Lemma Bind_bound t name expr g : bound t name (Bind t name expr g).
Proof.
  unfold bound, Bind. destruct (fl_binds (flow g) !! (t, name)) as [e|] eqn:E.
  - exists e. apply (ev_binds _ _ (recordBindConflict_evolves _ g)), E.
  - rewrite flow_set_flow. cbn. rewrite lookup_insert_eq. by eexists.
Qed.

(** What an answer means: an expression was found, and for a type it is bound. *)
Definition settled (tg : target) (a : answer) (g : gen) : Prop :=
  a.2 = true -> match tg with TType t name _ => bound t name g | TPath _ => True end.

Definition mat_ok (n : nat) (mat : target -> nat -> gen -> option (gen * answer)) : Prop :=
  forall tg i g, heap_ok g -> i < length (g_heap g) -> length (idle g) <= n ->
  exists g' a, mat tg i g = Some (g', a) /\ evolves g g' /\ settled tg a g'.

Section Total.
Context (n : nat) (mat : target -> nat -> gen -> option (gen * answer)).
Hypothesis Hmat : mat_ok n mat.

Lemma Instance_total t name g :
  heap_ok g -> length (idle g) <= n ->
  exists g' a, Instance_ mat t name g = Some (g', a) /\ evolves g g' /\ (a.2 = true -> bound t name g').
Proof.
  intros Ho Hi. unfold Instance_. destruct (fl_binds (flow g) !! (t, name)) as [expr|] eqn:EB.
  - eexists _, _. split; [done|]. assert (I : evolves g
      (if inScope g then g
       else let g := match g_lazy g !! (t, name) with Some _ => demand (typeDemand t name) g | None => g end in
            if bool_decide (name = EmptyString)
            then match g_lazyByPath g !! t with Some _ => demand (pathDemand t) g | None => g end else g)).
    { destruct (inScope g); [done|]. cbv zeta. set (g1 := match g_lazy g !! (t, name) with Some _ => demand (typeDemand t name) g | None => g end).
      assert (I1 : evolves g g1) by (unfold g1; destruct (g_lazy g !! (t, name)); [apply demand_evolves|done]).
      case_bool_decide; [|done]. destruct (g_lazyByPath g1 !! t); [|done]. etransitivity; [exact I1|apply demand_evolves]. }
    split; [exact I|]. intros _. eapply evolves_bound; [exact I|]. by exists expr.
  - assert (Hlazy : exists g' a, match g_lazy g !! (t, name) with
              | Some i => mat (TType t name (typeDemand t name)) i g
              | None => Some (g, (EmptyString, [], false)) end = Some (g', a) /\ evolves g g' /\ (a.2 = true -> bound t name g')).
    { destruct (g_lazy g !! (t, name)) as [i|] eqn:EL.
      - destruct (Hmat (TType t name (typeDemand t name)) i g Ho (ho_lazy _ Ho _ _ EL) Hi) as (g' & a & -> & I & S_).
        by exists g', a.
      - by eexists _, _. }
    case_bool_decide as En; [|done]. destruct (fl_paths (flow g) !! t) as [expr|].
    { eexists _, _. split; [done|]. split; [|intros _; apply Bind_bound].
      etransitivity; [|apply Bind_evolves]. destruct (inScope g); [done|apply demand_evolves]. }
    destruct (g_lazyByPath g !! t) as [i|] eqn:EP; [|done].
    destruct (Hmat (TType t name (pathDemand t)) i g Ho (ho_paths _ Ho _ _ EP) Hi) as (g' & [[expr ds] ok] & -> & I & S_).
    eexists _, _. split; [done|]. assert (I2 : evolves g' (if ok && bool_decide (ds = []) then BindPath t expr g' else g')).
    { destruct (ok && _); [apply BindPath_evolves|done]. }
    split; [by etransitivity|]. intros Hok. eapply evolves_bound; [exact I2|]. by apply S_.
Qed.

Lemma InstancePath_total path g :
  heap_ok g -> length (idle g) <= n -> exists g' a, InstancePath_ mat path g = Some (g', a) /\ evolves g g'.
Proof.
  intros Ho Hi. unfold InstancePath_. destruct (fl_paths (flow g) !! path) as [expr|].
  { eexists _, _. split; [done|]. destruct (inScope g); [done|apply demand_evolves]. }
  destruct (g_lazyByPath g !! path) as [i|] eqn:EP; [|by eexists _, _].
  destruct (Hmat (TPath path) i g Ho (ho_paths _ Ho _ _ EP) Hi) as (g' & a & -> & I & _). by exists g', a.
Qed.

Lemma run_total b g :
  heap_ok g -> length (idle g) <= n -> exists g' r, run mat b g = Some (g', r) /\ evolves g g'.
Proof.
  assert (Hstep : forall g g', evolves g g' -> heap_ok g -> length (idle g) <= n -> heap_ok g' /\ length (idle g') <= n).
  { intros g1 g2 I Ho Hi. split; [by eapply evolves_heap_ok|by rewrite (evolves_idle g1)]. }
  revert g. induction b as [expr ds| |t name k IH|path k IH|t name expr b IH|path expr b IH|base k IH|nd b IH
                           |key v ctor k IH|key b IHb k IH]; intros g Ho Hi; cbn [run].
  - by eexists _, _.
  - by eexists _, _.
  - destruct (Instance_total t name g Ho Hi) as (g1 & a & -> & I & _).
    destruct (Hstep _ _ I Ho Hi) as [Ho1 Hi1]. destruct (IH a g1 Ho1 Hi1) as (g2 & r & -> & I2).
    eexists _, _. split; [done|]. by etransitivity.
  - destruct (InstancePath_total path g Ho Hi) as (g1 & a & -> & I).
    destruct (Hstep _ _ I Ho Hi) as [Ho1 Hi1]. destruct (IH a g1 Ho1 Hi1) as (g2 & r & -> & I2).
    eexists _, _. split; [done|]. by etransitivity.
  - pose proof (Bind_evolves t name expr g) as I. destruct (Hstep _ _ I Ho Hi) as [Ho1 Hi1].
    destruct (IH _ Ho1 Hi1) as (g2 & r & -> & I2). eexists _, _. split; [done|]. by etransitivity.
  - pose proof (BindPath_evolves path expr g) as I. destruct (Hstep _ _ I Ho Hi) as [Ho1 Hi1].
    destruct (IH _ Ho1 Hi1) as (g2 & r & -> & I2). eexists _, _. split; [done|]. by etransitivity.
  - pose proof (Var_evolves base g) as I. destruct (Var base g) as [v g1]. cbn [snd] in I.
    destruct (Hstep _ _ I Ho Hi) as [Ho1 Hi1].
    destruct (IH v g1 Ho1 Hi1) as (g2 & r & -> & I2). eexists _, _. split; [done|]. by etransitivity.
  - pose proof (EmitNode_evolves nd g) as I. destruct (Hstep _ _ I Ho Hi) as [Ho1 Hi1].
    destruct (IH _ Ho1 Hi1) as (g2 & r & -> & I2). eexists _, _. split; [done|]. by etransitivity.
  - pose proof (Singleton_evolves key v ctor g) as I. destruct (Singleton key v ctor g) as [w g1]. cbn [snd] in I.
    destruct (Hstep _ _ I Ho Hi) as [Ho1 Hi1].
    destruct (IH w g1 Ho1 Hi1) as (g2 & r & -> & I2). eexists _, _. split; [done|]. by etransitivity.
  - destruct (fl_once (flow g) !! key) as [v|].
    + destruct (IH (v, []) g Ho Hi) as (g2 & r & -> & I2). eauto.
    + destruct (IHb g Ho Hi) as (g1 & r1 & -> & I). destruct r1 as [[v ds]|]; [|eauto].
      set (g1' := set_flow _ g1). assert (I1 : evolves g g1') by (etransitivity; [exact I|by apply set_flow_evolves]).
      destruct (Hstep _ _ I1 Ho Hi) as [Ho1 Hi1].
      destruct (IH (v, ds) g1' Ho1 Hi1) as (g2 & r & -> & I2). eexists _, _. split; [done|]. by etransitivity.
Qed.
End Total.

Lemma typeBound_bound t name g : typeBound t name g = true <-> bound t name g.
Proof. unfold typeBound. by rewrite bool_decide_eq_true. Qed.

Lemma Bind_once t name expr g :
  let g' := if typeBound t name g then g else Bind t name expr g in evolves g g' /\ bound t name g'.
Proof.
  cbv zeta. destruct (typeBound t name g) eqn:E; [by apply typeBound_bound in E|].
  split; [apply Bind_evolves|apply Bind_bound].
Qed.

Lemma leave_bound t name i prev x g : bound t name g -> bound t name (leave i prev (diagnose_opt i x g)).
Proof.
  unfold bound. destruct (leave_parts i prev (diagnose_opt i x g)) as (-> & _). cbn [fl_binds upd_running].
  destruct x as [e|]; [|done]. cbn [diagnose_opt]. by destruct (diagnose_parts i e g) as (-> & _).
Qed.

Section Resolve.
Context (display : string -> string).

Lemma materialize_total fuel : mat_ok fuel (materialize display fuel).
Proof.
  induction fuel as [|fuel IH]; intros tg i g0 Ho0 Hi0 Hf0; cbn [materialize].
  - set (g := match tg with TType _ _ _ => g0 | TPath path => _ end).
    assert (I0 : evolves g0 g) by (unfold g; destruct tg; [done|apply demand_evolves]).
    destruct (g_diagnosed g !! i) as [expr|].
    + eexists _, _. split; [done|]. destruct tg as [t name dk|path]; [|by split].
      destruct (Bind_once t name expr g) as [I1 B]. split; [by etransitivity|]. by intros _.
    + destruct (lazyRunning i g) eqn:ER; [by eexists _, _|]. exfalso.
      assert (Hin : i ∈ idle g0).
      { unfold idle. apply list_elem_of_filter. split; [|apply elem_of_seq; lia].
        rewrite <-(ev_running _ _ I0). unfold lazyRunning in ER. by apply bool_decide_eq_false in ER. }
      destruct (idle g0); [by apply not_elem_of_nil in Hin|simpl in Hf0; lia].
  - set (g := match tg with TType _ _ _ => g0 | TPath path => _ end).
    set (dk := match tg with TType _ _ dk => dk | TPath path => _ end).
    set (key := match tg with TType t name _ => chainKey display t name | TPath path => path end).
    assert (I0 : evolves g0 g) by (unfold g; destruct tg; [done|apply demand_evolves]).
    destruct (g_diagnosed g !! i) as [expr|] eqn:ED.
    + eexists _, _. split; [done|]. destruct tg as [t name dk'|path]; [|by split].
      destruct (Bind_once t name expr g) as [I1 B]. split; [by etransitivity|]. by intros _.
    + destruct (lazyRunning i g) eqn:ER; [by eexists _, _|].
      unfold lazyRunning in ER. apply bool_decide_eq_false in ER.
      destruct (lookup_lt_is_Some_2 (g_heap g) i) as [lb EH]; [by rewrite (ev_heap _ _ I0)|]. rewrite EH.
      set (g1 := match tg with TType _ _ _ => demand dk g | TPath _ => g end).
      assert (I1 : evolves g g1) by (unfold g1; destruct tg; [apply demand_evolves|done]).
      assert (Ec : g_current g = g_current g1) by (symmetry; apply (ev_current _ _ I1)).
      assert (Hr1 : i ∉ fl_running (flow g1)) by by rewrite (ev_running _ _ I1).
      assert (Hd1 : g_diagnosed g1 !! i = None) by (unfold g1; by destruct tg).
      destruct (enter_parts i key dk (lz_owner lb) g1) as (E1 & _ & _ & _ & E5 & E6 & E7 & _).
      assert (Ho1 : heap_ok g1) by (by eapply evolves_heap_ok, evolves_heap_ok).
      assert (Ho2 : heap_ok (enter i key dk (lz_owner lb) g1)).
      { destruct Ho1. constructor; rewrite ?E5, ?E6, E7; done. }
      assert (Hi2 : length (idle (enter i key dk (lz_owner lb) g1)) <= fuel).
      { enough (length (idle (enter i key dk (lz_owner lb) g1)) < length (idle g1)).
        { rewrite (evolves_idle g g1), (evolves_idle g0 g) in H by done. lia. }
        unfold idle. rewrite E1, E7. cbn [fl_running upd_running].
        apply (filter_length_lt _ _ _ i); [set_solver|apply elem_of_seq|done|set_solver].
        rewrite (ev_heap _ _ I1), (ev_heap _ _ I0). lia. }
      destruct (run_total fuel _ IH (lz_build lb) _ Ho2 Hi2) as (g2 & r & -> & I2).
      assert (Hend : forall g3 x, evolves g2 g3 -> evolves g0 (leave i (g_current g) (diagnose_opt i x g3))).
      { intros g3 x I3. transitivity g; [done|]. transitivity g1; [done|]. rewrite Ec.
        eapply (framed_evolves i key dk (lz_owner lb) g1); [done|done|]. by etransitivity. }
      destruct r as [[expr ds]|].
      * eexists _, _. split; [done|].
        assert (Ex : exists x, (if HasFatal ds then diagnose i expr g2 else g2) = diagnose_opt i x g2).
        { destruct (HasFatal ds); [by exists (Some expr)|by exists None]. }
        destruct Ex as [x ->]. destruct tg as [t name dk'|path].
        -- assert (Eb : typeBound t name (diagnose_opt i x g2) = typeBound t name g2).
           { unfold typeBound. destruct x; [|done]. cbn. by destruct (diagnose_parts i s g2) as (-> & _). }
           rewrite Eb. destruct (Bind_once t name expr g2) as [I3 B].
           assert (Eg : (if typeBound t name g2 then diagnose_opt i x g2 else Bind t name expr (diagnose_opt i x g2)) =
                        diagnose_opt i x (if typeBound t name g2 then g2 else Bind t name expr g2)).
           { destruct (typeBound t name g2); [done|]. apply Bind_diagnose. }
           rewrite Eg. split; [by apply Hend|]. intros _. by apply leave_bound.
        -- assert (Eg : (if bool_decide (ds = []) then BindPath path expr (diagnose_opt i x g2) else diagnose_opt i x g2) =
                        diagnose_opt i x (if bool_decide (ds = []) then BindPath path expr g2 else g2)).
           { case_bool_decide; [|done]. destruct x as [e|]; [|done]. cbn. unfold diagnose.
             rewrite (validation_scope g2 (BindPath path expr g2)) by apply BindPath_evolves.
             by destruct (InValidationScope g2). }
           rewrite Eg. split; [|done]. apply Hend. case_bool_decide; [apply BindPath_evolves|done].
      * eexists _, _. split; [done|]. split; [by apply (Hend g2 (Some EmptyString))|done].
Qed.
End Resolve.

(** ** Cycles *)

(** What a build may ask for, under some answers. *)
Inductive asks : Build -> (string * string) + string -> Prop :=
| asks_Instance t name k : asks (BInstance t name k) (inl (t, name))
| asks_Instance_k t name k a x : asks (k a) x -> asks (BInstance t name k) x
| asks_Path path k : asks (BInstancePath path k) (inr path)
| asks_Path_k path k a x : asks (k a) x -> asks (BInstancePath path k) x
| asks_Bind t name expr b x : asks b x -> asks (BBind t name expr b) x
| asks_BindPath path expr b x : asks b x -> asks (BBindPath path expr b) x
| asks_Var base k v x : asks (k v) x -> asks (BVar base k) x
| asks_Node nd b x : asks b x -> asks (BNode nd b) x
| asks_Singleton key v ctor k w x : asks (k w) x -> asks (BSingleton key v ctor k) x
| asks_Once key b k x : asks b x -> asks (BOnce key b k) x
| asks_Once_k key b k a x : asks (k a) x -> asks (BOnce key b k) x.

(** The binding that answers. *)
Definition resolves (g : gen) (x : (string * string) + string) (i : nat) : Prop :=
  match x with
  | inl (t, name) => g_lazy g !! (t, name) = Some i \/ name = EmptyString /\ g_lazyByPath g !! t = Some i
  | inr path => g_lazyByPath g !! path = Some i
  end.

(** The build of [i] may ask for what [j] builds. *)
Definition needs (g : gen) (i j : nat) : Prop :=
  exists lb x, g_heap g !! i = Some lb /\ asks (lz_build lb) x /\ resolves g x j.

Definition no_cycle (ds : list bindDiag) : Prop := forall trace, ProviderCycle trace ∉ ds.

(** A build passes a cycle on but does not make one up. *)
Inductive honest : Build -> Prop :=
| honest_Return expr ds : no_cycle ds -> honest (BReturn expr ds)
| honest_Panic : honest BPanic
| honest_Instance t name k : (forall e ds ok, no_cycle ds -> honest (k (e, ds, ok))) -> honest (BInstance t name k)
| honest_Path path k : (forall e ds ok, no_cycle ds -> honest (k (e, ds, ok))) -> honest (BInstancePath path k)
| honest_Bind t name expr b : honest b -> honest (BBind t name expr b)
| honest_BindPath path expr b : honest b -> honest (BBindPath path expr b)
| honest_Var base k : (forall v, honest (k v)) -> honest (BVar base k)
| honest_Node nd b : honest b -> honest (BNode nd b)
| honest_Singleton key v ctor k : (forall w, honest (k w)) -> honest (BSingleton key v ctor k)
| honest_Once key b k : honest b -> (forall v ds, no_cycle ds -> honest (k (v, ds))) -> honest (BOnce key b k).

Definition all_honest (g : gen) : Prop := forall i lb, g_heap g !! i = Some lb -> honest (lz_build lb).

(** The same registrations. *)
Definition like (g0 g : gen) : Prop :=
  g_lazy g = g_lazy g0 /\ g_lazyByPath g = g_lazyByPath g0 /\ g_heap g = g_heap g0.

Lemma evolves_like g0 g g' : evolves g g' -> like g0 g -> like g0 g'.
Proof. intros I (E1 & E2 & E3). unfold like. by rewrite (ev_lazy _ _ I), (ev_paths _ _ I), (ev_heap _ _ I). Qed.

Lemma like_resolves g0 g x i : like g0 g -> resolves g x i <-> resolves g0 x i.
Proof. intros (E1 & E2 & _). unfold resolves. by rewrite E1, E2. Qed.

Section Rank.
Context (g0 : gen) (rank : nat -> nat).
Hypothesis Ho0 : heap_ok g0.
Hypothesis Hhonest : all_honest g0.
Hypothesis Hrank : forall i j, needs g0 i j -> rank j < rank i.

(** [j] is below all that is being built. *)
Definition below (g : gen) (j : nat) : Prop := forall r, r ∈ fl_running (flow g) -> rank j < rank r.

Lemma evolves_below g g' j : evolves g g' -> below g j -> below g' j.
Proof. intros I H r. rewrite (ev_running _ _ I). apply H. Qed.

Lemma like_heap_ok g : like g0 g -> heap_ok g.
Proof. intros (E1 & E2 & E3). destruct Ho0. constructor; rewrite ?E1, ?E2, E3; done. Qed.

Definition mat_clear (n : nat) (mat : target -> nat -> gen -> option (gen * answer)) : Prop :=
  forall tg i g g' a, like g0 g -> i < length (g_heap g) -> length (idle g) <= n -> below g i ->
    mat tg i g = Some (g', a) -> no_cycle a.1.2.

Section Clear.
Context (n : nat) (mat : target -> nat -> gen -> option (gen * answer)).
Hypothesis Hmat : mat_ok n mat.
Hypothesis Hclear : mat_clear n mat.

Lemma no_cycle_nil : no_cycle [].
Proof. intros tr. apply not_elem_of_nil. Qed.

Lemma Instance_clear t name g g' a :
  like g0 g -> length (idle g) <= n -> (forall j, resolves g0 (inl (t, name)) j -> below g j) ->
  Instance_ mat t name g = Some (g', a) -> no_cycle a.1.2.
Proof.
  intros HL Hi Hb. pose proof (like_heap_ok g HL) as Ho. unfold Instance_.
  destruct (fl_binds (flow g) !! (t, name)); [intros [= _ <-]; apply no_cycle_nil|].
  assert (Hlazy : match g_lazy g !! (t, name) with
              | Some i => mat (TType t name (typeDemand t name)) i g
              | None => Some (g, (EmptyString, [], false)) end = Some (g', a) -> no_cycle a.1.2).
  { destruct (g_lazy g !! (t, name)) as [i|] eqn:EL; [|intros [= _ <-]; apply no_cycle_nil].
    apply Hclear; [done|by eapply ho_lazy|done|]. apply Hb, (like_resolves g0 g _ i HL). by left. }
  case_bool_decide as En; [|done]. destruct (fl_paths (flow g) !! t); [intros [= _ <-]; apply no_cycle_nil|].
  destruct (g_lazyByPath g !! t) as [i|] eqn:EP; [|done].
  destruct (mat (TType t name (pathDemand t)) i g) as [[g1 [[e ds] ok]]|] eqn:EM; [|done]. intros [= _ <-].
  change (no_cycle (e, ds, ok).1.2). eapply Hclear; [exact HL|by eapply ho_paths|done| |exact EM].
  apply Hb, (like_resolves g0 g _ i HL). by right.
Qed.

Lemma InstancePath_clear path g g' a :
  like g0 g -> length (idle g) <= n -> (forall j, resolves g0 (inr path) j -> below g j) ->
  InstancePath_ mat path g = Some (g', a) -> no_cycle a.1.2.
Proof.
  intros HL Hi Hb. pose proof (like_heap_ok g HL) as Ho. unfold InstancePath_.
  destruct (fl_paths (flow g) !! path); [intros [= _ <-]; apply no_cycle_nil|].
  destruct (g_lazyByPath g !! path) as [i|] eqn:EP; [|intros [= _ <-]; apply no_cycle_nil].
  apply Hclear; [done|by eapply ho_paths|done|]. by apply Hb, (like_resolves g0 g _ i HL).
Qed.

Lemma run_clear b g g' e ds :
  honest b -> like g0 g -> length (idle g) <= n ->
  (forall x j, asks b x -> resolves g0 x j -> below g j) ->
  run mat b g = Some (g', Some (e, ds)) -> no_cycle ds.
Proof.
  intros Hh. revert g g' e ds.
  assert (Hnext : forall g g1, evolves g g1 -> like g0 g -> length (idle g) <= n ->
            like g0 g1 /\ length (idle g1) <= n).
  { intros g g1 I HL Hi. split; [by eapply evolves_like|by rewrite (evolves_idle g)]. }
  assert (Hdown : forall (b b' : Build) g g1, evolves g g1 -> (forall x, asks b' x -> asks b x) ->
            (forall x j, asks b x -> resolves g0 x j -> below g j) ->
            forall x j, asks b' x -> resolves g0 x j -> below g1 j).
  { intros b1 b2 g g1 I Ha Hb x j Hx Hj. eapply evolves_below; [exact I|]. eauto. }
  induction Hh as [expr ds Hds| |t name k _ IH|path k _ IH|t name expr b _ IH|path expr b _ IH|base k _ IH|nd b _ IH
                  |key v ctor k _ IH|key b k _ IHb _ IH]; intros g g' e ds' HL Hi Hb; cbn [run].
  - by intros [= _ _ <-].
  - done.
  - destruct (Instance_total n mat Hmat t name g (like_heap_ok g HL) Hi) as (g1 & [[e1 ds1] ok] & E & I & _). rewrite E.
    destruct (Hnext _ _ I HL Hi) as [HL1 Hi1]. apply IH; try done.
    + apply (Instance_clear t name g g1 (e1, ds1, ok)); try done. intros j. apply Hb. constructor.
    + eapply Hdown; [exact I| |exact Hb]. intros x. by apply asks_Instance_k.
  - destruct (InstancePath_total n mat Hmat path g (like_heap_ok g HL) Hi) as (g1 & [[e1 ds1] ok] & E & I). rewrite E.
    destruct (Hnext _ _ I HL Hi) as [HL1 Hi1]. apply IH; try done.
    + apply (InstancePath_clear path g g1 (e1, ds1, ok)); try done. intros j. apply Hb. constructor.
    + eapply Hdown; [exact I| |exact Hb]. intros x. by apply asks_Path_k.
  - pose proof (Bind_evolves t name expr g) as I. destruct (Hnext _ _ I HL Hi) as [HL1 Hi1]. apply IH; try done.
    eapply Hdown; [exact I| |exact Hb]. intros x. by constructor.
  - pose proof (BindPath_evolves path expr g) as I. destruct (Hnext _ _ I HL Hi) as [HL1 Hi1]. apply IH; try done.
    eapply Hdown; [exact I| |exact Hb]. intros x. by constructor.
  - pose proof (Var_evolves base g) as I. destruct (Var base g) as [v g1]. cbn [snd] in I.
    destruct (Hnext _ _ I HL Hi) as [HL1 Hi1]. apply IH; try done.
    eapply Hdown; [exact I| |exact Hb]. intros x. by econstructor.
  - pose proof (EmitNode_evolves nd g) as I. destruct (Hnext _ _ I HL Hi) as [HL1 Hi1]. apply IH; try done.
    eapply Hdown; [exact I| |exact Hb]. intros x. by constructor.
  - pose proof (Singleton_evolves key v ctor g) as I. destruct (Singleton key v ctor g) as [w g1]. cbn [snd] in I.
    destruct (Hnext _ _ I HL Hi) as [HL1 Hi1]. apply IH; try done.
    eapply Hdown; [exact I| |exact Hb]. intros x. by econstructor.
  - destruct (fl_once (flow g) !! key) as [v|].
    + apply IH; [apply no_cycle_nil|done|done|]. eapply Hdown; [reflexivity| |exact Hb]. intros x. by apply asks_Once_k.
    + assert (Hbb : forall x j, asks b x -> resolves g0 x j -> below g j).
      { eapply Hdown; [reflexivity| |exact Hb]. intros x. by apply asks_Once. }
      destruct (run_total n mat Hmat b g (like_heap_ok g HL) Hi) as (g1 & r & E & I). rewrite E.
      destruct r as [[v ds1]|]; [|done]. set (g1' := set_flow _ g1).
      assert (I1 : evolves g g1') by (etransitivity; [exact I|by apply set_flow_evolves]).
      destruct (Hnext _ _ I1 HL Hi) as [HL1 Hi1]. apply IH; try done.
      * by apply (IHb g g1 v ds1).
      * eapply Hdown; [exact I1| |exact Hb]. intros x. by apply asks_Once_k.
Qed.
End Clear.

Lemma materialize_clear display fuel : mat_clear fuel (materialize display fuel).
Proof.
  induction fuel as [|fuel IH]; intros tg i g1 g' a HL1 Hi1 Hf1 Hb1; cbn [materialize];
    set (g := match tg with TType _ _ _ => g1 | TPath path => demand _ g1 end);
    assert (I0 : evolves g1 g) by (unfold g; destruct tg; [done|apply demand_evolves]);
    (destruct (g_diagnosed g !! i) as [expr|]; [intros [= _ <-]; apply no_cycle_nil|]);
    destruct (lazyRunning i g) eqn:ER; try done;
    try (unfold lazyRunning in ER; apply bool_decide_eq_true in ER; rewrite (ev_running _ _ I0) in ER;
         specialize (Hb1 i ER); lia).
  unfold lazyRunning in ER. apply bool_decide_eq_false in ER.
  destruct (g_heap g !! i) as [lb|] eqn:EH; [|done].
  set (dk := match tg with TType _ _ dk => dk | TPath path => _ end).
  set (key := match tg with TType t name _ => chainKey display t name | TPath path => path end).
  set (g2 := match tg with TType _ _ _ => demand dk g | TPath _ => g end).
  assert (I1 : evolves g1 g2) by (unfold g2; destruct tg; [etransitivity; [exact I0|apply demand_evolves]|done]).
  destruct (enter_parts i key dk (lz_owner lb) g2) as (E1 & _ & _ & _ & E5 & E6 & E7 & _).
  pose proof (evolves_like g0 _ _ I1 HL1) as HL2.
  assert (HL3 : like g0 (enter i key dk (lz_owner lb) g2)).
  { destruct HL2 as (F1 & F2 & F3). unfold like. by rewrite E5, E6, E7. }
  assert (Hi3 : length (idle (enter i key dk (lz_owner lb) g2)) <= fuel).
  { enough (length (idle (enter i key dk (lz_owner lb) g2)) < length (idle g2)).
    { rewrite (evolves_idle g1 g2) in H by done. lia. }
    unfold idle. rewrite E1, E7. cbn [fl_running upd_running].
    assert (Hr2 : i ∉ fl_running (flow g2)).
    { rewrite (ev_running _ _ I1), <-(ev_running _ _ I0). done. }
    apply (filter_length_lt _ _ _ i); [set_solver|apply elem_of_seq|done|set_solver].
    rewrite (ev_heap _ _ I1). lia. }
  assert (EH0 : g_heap g0 !! i = Some lb).
  { destruct HL1 as (_ & _ & F3). by rewrite <-F3, <-(ev_heap _ _ I0). }
  assert (Hb3 : forall x j, asks (lz_build lb) x -> resolves g0 x j -> below (enter i key dk (lz_owner lb) g2) j).
  { intros x j Hx Hj r. rewrite E1. cbn [fl_running upd_running]. rewrite (ev_running _ _ I1).
    assert (Hji : rank j < rank i) by (apply Hrank; by exists lb, x).
    intros [->%elem_of_singleton|Hr]%elem_of_union; [done|]. specialize (Hb1 r Hr). lia. }
  destruct (run (materialize display fuel) (lz_build lb) _) as [[g3 [[expr ds]|]]|] eqn:ERun; [| |done].
  - pose proof (run_clear fuel _ (materialize_total display fuel) IH (lz_build lb) _ _ _ _ (Hhonest _ _ EH0) HL3 Hi3 Hb3 ERun) as HN.
    intros [= _ <-]. exact HN.
  - intros [= _ <-]. intros tr Htr. by apply list_elem_of_singleton in Htr.
Qed.
End Rank.

(** ** Calls and states between them *)

(** Registrations. *)
Lemma BindLazyAt_heap t name pos b g :
  heap_ok g -> heap_ok (BindLazyAt t name pos b g) /\ flow (BindLazyAt t name pos b g) = flow g /\
  g_usage (BindLazyAt t name pos b g) = g_usage g /\ g_default (BindLazyAt t name pos b g) = g_default g.
Proof.
  intros [H1 H2]. unfold BindLazyAt. destruct (g_lazy g !! (t, name)) as [i|].
  - unfold recordBindConflict. case_bool_decide; by split_and!.
  - split_and!; try done. constructor; cbn; rewrite length_app; simpl.
    + intros k i. rewrite lookup_insert_Some. intros [[_ <-]|[_ Hk%H1]]; lia.
    + intros p i Hp%H2. lia.
Qed.

Lemma BindLazyPathAt_heap path pos b g :
  heap_ok g -> heap_ok (BindLazyPathAt path pos b g) /\ flow (BindLazyPathAt path pos b g) = flow g /\
  g_usage (BindLazyPathAt path pos b g) = g_usage g /\ g_default (BindLazyPathAt path pos b g) = g_default g.
Proof.
  intros [H1 H2]. unfold BindLazyPathAt. destruct (g_lazyByPath g !! path) as [i|].
  - unfold recordBindConflict. case_bool_decide; by split_and!.
  - split_and!; try done. constructor; cbn; rewrite length_app; simpl.
    + intros k i Hk%H1. lia.
    + intros p i. rewrite lookup_insert_Some. intros [[_ <-]|[_ Hp%H2]]; lia.
Qed.

Section Calls.
Context (display : string -> string).

(** Enough fuel for any build, as [idle_le] says. *)
Definition fuelOf (g : gen) : nat := length (g_heap g).

Lemma idle_le g : length (idle g) <= fuelOf g.
Proof. unfold idle. rewrite length_filter. by rewrite length_seq. Qed.

(** What a directive calls in a flow. *)
Inductive call : gen -> gen -> Prop :=
| call_Bind t name expr g : call g (Bind t name expr g)
| call_BindPath path expr g : call g (BindPath path expr g)
| call_BindLazyAt t name pos b g : call g (BindLazyAt t name pos b g)
| call_BindLazyPathAt path pos b g : call g (BindLazyPathAt path pos b g)
| call_BindConflicts g : call g (BindConflicts g).2
| call_Var base g : call g (Var base g).2
| call_Node n g : call g (EmitNode n g)
| call_Singleton key v ctor g : call g (Singleton key v ctor g).2
| call_SetDirective name g : call g (set_chain (g_materializing g) name g)
| call_Instance t name g g' a : Instance display (fuelOf g) t name g = Some (g', a) -> call g g'
| call_InstancePath path g g' a : InstancePath display (fuelOf g) path g = Some (g', a) -> call g g'.

(** A flow is entered and left between calls. *)
Inductive between : gen -> Prop :=
| between_New : between NewGen
| between_call g g' : between g -> call g g' -> between g'
| between_enter fn v g : between g -> inScope g = false -> between (enterScope fn v g)
| between_exit g : between g -> between (set_scope None g).

Lemma Instance_evolves fuel t name g :
  heap_ok g -> fuelOf g <= fuel ->
  exists g' a, Instance display fuel t name g = Some (g', a) /\ evolves g g' /\ (a.2 = true -> bound t name g').
Proof.
  intros Ho Hf. apply (Instance_total fuel _ (materialize_total display fuel)); [done|].
  pose proof (idle_le g). lia.
Qed.

Lemma InstancePath_evolves fuel path g :
  heap_ok g -> fuelOf g <= fuel ->
  exists g' a, InstancePath display fuel path g = Some (g', a) /\ evolves g g'.
Proof.
  intros Ho Hf. apply (InstancePath_total fuel _ (materialize_total display fuel)); [done|].
  pose proof (idle_le g). lia.
Qed.

(** A call either resolves, and only evolves, or leaves the flow alone. *)
Lemma call_effect g g' :
  heap_ok g -> call g g' ->
  heap_ok g' /\ u_scope (g_usage g') = u_scope (g_usage g) /\ fl_running (flow g') = fl_running (flow g) /\
  (inScope g = true -> g_default g' = g_default g) /\
  (forall k e, fl_binds (flow g) !! k = Some e -> fl_binds (flow g') !! k = Some e).
Proof.
  intros Ho.
  assert (Hev : forall g', evolves g g' -> heap_ok g' /\ u_scope (g_usage g') = u_scope (g_usage g) /\
            fl_running (flow g') = fl_running (flow g) /\ (inScope g = true -> g_default g' = g_default g) /\
            (forall k e, fl_binds (flow g) !! k = Some e -> fl_binds (flow g') !! k = Some e)).
  { intros g1 I. split; [by eapply evolves_heap_ok|]. destruct I. by split_and!. }
  assert (Hsame : forall g', heap_ok g' -> flow g' = flow g -> g_usage g' = g_usage g -> g_default g' = g_default g ->
            heap_ok g' /\ u_scope (g_usage g') = u_scope (g_usage g) /\
            fl_running (flow g') = fl_running (flow g) /\ (inScope g = true -> g_default g' = g_default g) /\
            (forall k e, fl_binds (flow g) !! k = Some e -> fl_binds (flow g') !! k = Some e)).
  { intros g1 H0 -> -> ->. by split_and!. }
  intros HC. destruct HC as [t name expr g|path expr g|t name pos b g|path pos b g|g|base g|n g|key v ctor g|name g
                            |t name g g' a E|path g g' a E].
  - apply Hev, Bind_evolves.
  - apply Hev, BindPath_evolves.
  - destruct (BindLazyAt_heap t name pos b g Ho) as (? & ? & ? & ?). by apply Hsame.
  - destruct (BindLazyPathAt_heap path pos b g Ho) as (? & ? & ? & ?). by apply Hsame.
  - apply Hsame; try done. destruct Ho. by constructor.
  - apply Hev, Var_evolves.
  - apply Hev, EmitNode_evolves.
  - apply Hev, Singleton_evolves.
  - apply Hsame; try done. destruct Ho. by constructor.
  - destruct (Instance_evolves (fuelOf g) t name g Ho (le_n _)) as (g1 & a1 & E1 & I & _).
    rewrite E in E1. injection E1 as <- <-. by apply Hev.
  - destruct (InstancePath_evolves (fuelOf g) path g Ho (le_n _)) as (g1 & a1 & E1 & I).
    rewrite E in E1. injection E1 as <- <-. by apply Hev.
Qed.

(** Between calls no build is running and every binding is where it was registered. *)
Lemma between_ok g :
  between g -> heap_ok g /\ fl_running (flow g) = ∅ /\ (inScope g = true -> fl_running (g_default g) = ∅).
Proof.
  induction 1 as [|g g' _ (Ho & Hr & Hd) HC|fn v g _ (Ho & Hr & Hd) Hs|g _ (Ho & Hr & Hd)].
  - by split_and!.
  - destruct (call_effect g g' Ho HC) as (Ho' & Hs & Hr' & Hd' & _). split_and!; [done|congruence|].
    rewrite (inScope_scope g g' Hs). intros Hi. rewrite Hd' by done. by apply Hd.
  - split_and!; [|done|].
    + destruct Ho. by constructor.
    + intros _. cbn. revert Hr. unfold flow. by rewrite Hs.
  - split_and!; [destruct Ho; by constructor| |done]. cbn. unfold flow in Hr. destruct (inScope g) eqn:E; [by apply Hd|].
    done.
Qed.

(** C10: resolving a type or a path at any point between calls returns: builds inside
    builds are at most as deep as there are bindings, and a build that panics ends too.
    Afterwards nothing is running, and the chain of builds, the directive in charge and
    the stack of demands are what they were; what was bound before is bound to the same
    expression. *)
Theorem resolution_terminates g fuel :
  between g -> fuelOf g <= fuel ->
  (forall t name, exists g' a, Instance display fuel t name g = Some (g', a) /\
     fl_running (flow g') = ∅ /\ g_materializing g' = g_materializing g /\ g_current g' = g_current g /\
     demandStack g' = demandStack g /\ fl_binds (flow g) ⊆ fl_binds (flow g')) /\
  (forall path, exists g' a, InstancePath display fuel path g = Some (g', a) /\
     fl_running (flow g') = ∅ /\ g_materializing g' = g_materializing g /\ g_current g' = g_current g /\
     demandStack g' = demandStack g /\ fl_binds (flow g) ⊆ fl_binds (flow g')).
Proof.
  intros (Ho & Hr & _)%between_ok Hf.
  assert (Hq : forall g', evolves g g' -> fl_running (flow g') = ∅ /\ g_materializing g' = g_materializing g /\
     g_current g' = g_current g /\ demandStack g' = demandStack g /\ fl_binds (flow g) ⊆ fl_binds (flow g')).
  { intros g' []. split_and!; try done; [congruence|]. by apply map_subseteq_spec. }
  split.
  - intros t name. destruct (Instance_evolves fuel t name g Ho Hf) as (g' & a & E & I & _). exists g', a. auto.
  - intros path. destruct (InstancePath_evolves fuel path g Ho Hf) as (g' & a & E & I). exists g', a. auto.
Qed.

(** The answer for what is bound, and the state it leaves. *)
Lemma Instance_bound fuel t name e g :
  fl_binds (flow g) !! (t, name) = Some e ->
  exists g', Instance display fuel t name g = Some (g', (e, [], true)) /\ flow g' = flow g /\ g_store g' = g_store g.
Proof.
  intros E. unfold Instance, Instance_. rewrite E. eexists. split; [done|].
  destruct (inScope g) eqn:Es; [done|]. cbv zeta. case_bool_decide.
  - destruct (g_lazy g !! (t, name)); destruct (g_lazyByPath _ !! t); unfold flow, inScope in *; cbn; by rewrite Es.
  - destruct (g_lazy g !! (t, name)); [|done]. unfold flow, inScope in *. cbn. by rewrite Es.
Qed.

Lemma calls_binds g g' k e :
  rtc call g g' -> heap_ok g -> fl_binds (flow g) !! k = Some e ->
  heap_ok g' /\ fl_binds (flow g') !! k = Some e.
Proof.
  induction 1 as [|g1 g2 g3 HC _ IH]; [done|]. intros Ho E.
  destruct (call_effect g1 g2 Ho HC) as (Ho2 & _ & _ & _ & Hb). auto.
Qed.

(** C11: a binding is built once per flow. When a resolution has answered, every later one
    in the flow, whatever was called in between, answers with one and the same expression
    and no diagnostics, and emits no nodes: the flow and the fragments stay as they are. *)
Theorem bindings_are_built_once g fuel t name g1 a :
  between g -> fuelOf g <= fuel -> Instance display fuel t name g = Some (g1, a) -> a.2 = true ->
  exists e, forall fuel' g3, rtc call g1 g3 ->
    exists g4, Instance display fuel' t name g3 = Some (g4, (e, [], true)) /\ flow g4 = flow g3 /\ g_store g4 = g_store g3.
Proof.
  intros (Ho & _)%between_ok Hf E Ha. destruct (Instance_evolves fuel t name g Ho Hf) as (g1' & a' & E' & I & Hb).
  rewrite E in E'. injection E' as <- <-. destruct (Hb Ha) as [e He]. exists e. intros fuel' g3 HC.
  apply Instance_bound. by eapply (calls_binds g1 g3 _ e HC), He; apply (evolves_heap_ok g).
Qed.

(** No cycle is reported that is not there. If the bindings can be ranked so that a
    build only ever asks for what ranks below it, and builds pass diagnostics on but make
    no cycles up, a resolution between calls reports no provider cycle, whatever the
    bindings' builds do otherwise. *)
Theorem acyclic_bindings_report_no_cycle g fuel g' t name a :
  between g -> all_honest g -> acyclic_in (needs g) -> fuelOf g <= fuel ->
  Instance display fuel t name g = Some (g', a) -> no_cycle a.1.2.
Proof.
  intros (Ho & Hr & _)%between_ok Hh [rank Hrank] Hf E. pose proof (idle_le g) as Hi.
  eapply (Instance_clear g rank Ho fuel (materialize display fuel)); [|done|lia| |exact E].
  - by apply materialize_clear.
  - intros j _ r. rewrite Hr. by intros ?%elem_of_empty.
Qed.

(** ** The validation pass *)

(** What the pass keeps: all but its own scope and the demand edges. *)
Record isolated (g g' : gen) : Prop := {
  is_default : g_default g' = g_default g;
  is_diagnosed : g_diagnosed g' = g_diagnosed g;
  is_store : g_store g' = g_store g;
  is_regs : g_lazy g' = g_lazy g /\ g_lazyByPath g' = g_lazyByPath g /\ g_heap g' = g_heap g;
  is_chain : g_materializing g' = g_materializing g;
  is_current : g_current g' = g_current g;
  is_stack : demandStack g' = demandStack g
}.

Lemma evolves_isolated g g' : InValidationScope g = true -> evolves g g' -> isolated g g'.
Proof.
  intros Hv []. destruct (ev_isolated0 Hv). constructor; try done. apply ev_default0.
  revert Hv. unfold InValidationScope, inScope. by destruct (u_scope (g_usage g)).
Qed.

Lemma validateEntries_evolves fuel es g :
  heap_ok g -> fuelOf g <= fuel -> exists g' ds, validateEntries display fuel es g = Some (g', ds) /\ evolves g g'.
Proof.
  revert g. induction es as [|[t name] es IH]; intros g Ho Hf; cbn [validateEntries]; [by eexists _, _|].
  destruct (demanded (g_usage g) (typeDemand t name)); [by apply IH|].
  destruct (Instance_evolves fuel t name g Ho Hf) as (g1 & [[e ds] ok] & -> & I & _).
  destruct (IH g1) as (g2 & ds' & -> & I2); [by eapply evolves_heap_ok|unfold fuelOf; by rewrite (ev_heap _ _ I)|].
  eexists _, _. split; [done|by etransitivity].
Qed.

Lemma validatePaths_evolves fuel ps g :
  heap_ok g -> fuelOf g <= fuel -> exists g' ds, validatePaths display fuel ps g = Some (g', ds) /\ evolves g g'.
Proof.
  revert g. induction ps as [|p ps IH]; intros g Ho Hf; cbn [validatePaths]; [by eexists _, _|].
  destruct (demanded (g_usage g) (pathDemand p)); [by apply IH|].
  destruct (InstancePath_evolves fuel p g Ho Hf) as (g1 & [[e ds] ok] & -> & I).
  destruct (IH g1) as (g2 & ds' & -> & I2); [by eapply evolves_heap_ok|unfold fuelOf; by rewrite (ev_heap _ _ I)|].
  eexists _, _. split; [done|by etransitivity].
Qed.

(** The validation pass ends and leaves no trace in what is generated. It resolves
    every binding no flow has asked for, yet afterwards the default flow, the stored
    nodes, the record of bindings already reported, the registrations and the chain of
    builds are as before, and no scope is active: a build that fails or panics in the
    pass is reported by it and can still be built by a flow. *)
Theorem validation_pass_is_isolated g fuel :
  between g -> inScope g = false -> fuelOf g <= fuel ->
  exists g' ds, RunValidationPass display fuel g = Some (g', ds) /\ inScope g' = false /\ isolated g g'.
Proof.
  intros (Ho & _)%between_ok _ Hf. unfold RunValidationPass. set (g1 := enterScope EmptyString true g).
  assert (Ho1 : heap_ok g1) by (destruct Ho; by constructor).
  destruct (validateEntries_evolves fuel (lazyEntries g1) g1 Ho1 Hf) as (g2 & ds & -> & I1).
  destruct (validatePaths_evolves fuel (pathEntries g2) g2) as (g3 & ds' & -> & I2);
    [by eapply evolves_heap_ok|unfold fuelOf; by rewrite (ev_heap _ _ I1)|].
  eexists _, _. split; [done|]. split; [done|].
  destruct (evolves_isolated g1 g3) as [E1 E2 E3 E4 E5 E6 E7]; [done|by etransitivity|]. by constructor.
Qed.
End Calls.

(** ** Identifiers *)

Lemma FormatInt_inj z z' : in_int64 z -> in_int64 z' -> FormatInt z = FormatInt z' -> z = z'.
Proof.
  intros H1%ParseInt_FormatInt H2%ParseInt_FormatInt E. rewrite E, H2 in H1. by injection H1.
Qed.

Lemma FormatInt_nonempty z : in_int64 z -> FormatInt z <> EmptyString.
Proof. intros H%ParseInt_FormatInt E. by rewrite E in H. Qed.

Lemma append_inj (p s s' : string) : p +:+ s = p +:+ s' -> s = s'.
Proof. induction p as [|a p IH]; [done|]. by intros [= ?%IH]. Qed.

Lemma append_self (p s : string) : p = p +:+ s -> s = EmptyString.
Proof. induction p as [|a p IH]; [done|]. by intros [= ?%IH]. Qed.

Lemma candidates_distinct b n : (Z.of_nat n < 2 ^ 62)%Z -> NoDup (candidates b n).
Proof.
  intros Hn. assert (Hi : forall i, i ∈ seq 2 n -> in_int64 (Z.of_nat i)).
  { intros i [? ?]%elem_of_seq. unfold in_int64, int64_min, int64_max. lia. }
  unfold candidates. apply NoDup_cons. split.
  - intros (i & E & Hin)%list_elem_of_fmap. apply append_self in E. by apply (FormatInt_nonempty (Z.of_nat i)); auto.
  - assert (Hd : NoDup (seq 2 n)) by apply NoDup_seq. revert Hd Hi. generalize (seq 2 n).
    induction l as [|i l IH]; cbn [map]; [constructor|]. intros [Hni Hd]%NoDup_cons Hi. apply NoDup_cons. split.
    + intros (j & E & Hj)%list_elem_of_fmap. apply append_inj, FormatInt_inj in E; [|apply Hi; set_solver..].
      apply Nat2Z.inj in E. by subst.
    + apply IH; [done|]. intros j Hj. apply Hi. by right.
Qed.

(** With more candidates than taken names one is free. *)
Lemma freshIdent_fresh taken b : (Z.of_nat (size taken) < 2 ^ 62)%Z -> freshIdent taken b ∉ taken.
Proof.
  intros Hs. unfold freshIdent. destruct (list_find _ _) as [[k c]|] eqn:E.
  { by apply list_find_Some in E as (_ & ? & _). }
  apply list_find_None in E. rewrite Forall_forall in E. exfalso.
  assert (Hsub : (list_to_set (candidates b (size taken)) : gset string) ⊆ taken).
  { intros c Hc%elem_of_list_to_set. by destruct (decide (c ∈ taken)); [|destruct (E c Hc)]. }
  apply subseteq_size in Hsub. rewrite size_list_to_set in Hsub by by apply candidates_distinct.
  unfold candidates in Hsub. cbn [length] in Hsub. rewrite length_map, length_seq in Hsub. lia.
Qed.

(** Identifiers are fresh. [Var] answers with its base, or the base and a number, that
    is none of the identifiers of the active flow, and in a scope none of the names kept
    for late imports; it takes the base itself when that is free, and records what it
    gives, so a second call answers differently. *)
Theorem generated_names_are_fresh b b' g :
  (Z.of_nat (size (fl_idents (flow g) ∪ fl_reserved (flow g))) < 2 ^ 61)%Z ->
  let '(v, g') := Var b g in
  v ∉ fl_idents (flow g) /\ (inScope g = true -> v ∉ fl_reserved (flow g)) /\
  (v = b \/ exists n, v = b +:+ FormatInt (Z.of_nat n) /\ 2 <= n) /\
  (b ∉ fl_idents (flow g) ∪ fl_reserved (flow g) -> v = b) /\
  (Var b' g').1 <> v.
Proof.
  intros Hs. unfold Var. set (taken := if inScope g then _ else _).
  assert (Hsub : taken ⊆ fl_idents (flow g) ∪ fl_reserved (flow g)) by (unfold taken; destruct (inScope g); set_solver).
  assert (Hle : fl_idents (flow g) ⊆ taken) by (unfold taken; destruct (inScope g); set_solver).
  pose proof (subseteq_size _ _ Hsub) as Hsz. pose proof (freshIdent_fresh taken b ltac:(lia)) as Hf.
  split_and!.
  - set_solver.
  - intros Hi. unfold taken in *. rewrite Hi in *. set_solver.
  - unfold freshIdent. destruct (list_find _ _) as [[k c]|] eqn:E; [|by left].
    apply list_find_Some in E as (Hk%list_elem_of_lookup_2 & _ & _).
    unfold candidates in Hk. apply elem_of_cons in Hk as [->|(n & -> & [? ?]%elem_of_seq)%list_elem_of_fmap]; [by left|].
    right. by exists n.
  - intros Hb. unfold freshIdent, candidates. cbn [list_find]. rewrite decide_True by set_solver. done.
  - rewrite inScope_set_flow, flow_set_flow. cbn [fst fl_idents fl_reserved upd_idents].
    set (v := freshIdent taken b) in *. set (taken' := if inScope g then _ else _).
    assert (Hv : v ∈ taken') by (unfold taken'; destruct (inScope g); set_solver).
    assert (Hsz' : (size taken' <= S (size (fl_idents (flow g) ∪ fl_reserved (flow g))))%nat).
    { etransitivity; [apply (subseteq_size _ ({[v]} ∪ (fl_idents (flow g) ∪ fl_reserved (flow g))));
        unfold taken'; destruct (inScope g); set_solver|].
      rewrite size_union_alt. rewrite size_singleton.
      pose proof (subseteq_size ((fl_idents (flow g) ∪ fl_reserved (flow g)) ∖ {[v]})
                    (fl_idents (flow g) ∪ fl_reserved (flow g)) ltac:(set_solver)). lia. }
    intros E. apply (freshIdent_fresh taken' b'); [lia|]. by rewrite E.
Qed.
