(* ===== verification/GenRun.v ===== *)
(** The generator on concrete inputs: the theorems of the Gen files at a small
    application, what the cycle check does not see, and the resolution of bindings on
    small provider graphs. *)

From S2P Require Import Prelude.
From S2P Require Import Order.
From S2P Require Import GenNode.
From S2P Require Import GenLayout.
From S2P Require Import GenLayoutSpec.
From S2P Require Import GenCheck.
From S2P Require Import GenArgs.
From S2P Require Import GenUsage.
From S2P Require Import GenUnionFind.
From S2P Require Import GenFragment.
From S2P Require Import GenFragmentSpec.
From S2P Require Import Strconv.
From S2P Require Import Digraph.
From S2P Require Import GenBind.
From S2P Require Import GenBindSpec.

(** A parser for identifiers only: enough for the expressions below. *)
Definition identParser (s : string) : option Expr := if isIdentifierExpr s then Some (Ident s) else None.
Definition noDir (s : string) : string := EmptyString.

Definition at_line (line : Z) : Position := Build_Position "app.go" line 1.
Definition node_base (ptr : nat) (line : Z) (p : Phase) (batch : string) (seq : Z) : Base :=
  mkBase ptr "provider" (at_line line) p EmptyString [] batch seq EmptyString.

(** ** Layout *)

(** Declared against their dependencies: the service first, then its database. *)
Definition service : Node := NAssign (node_base 1 10 PhaseWire EmptyString 0) "svc" "db".
Definition database : Node := NAssign (node_base 2 20 PhaseWire EmptyString 0) "db" "cfg".
Definition config : Node := NConfigLoad (node_base 3 5 PhaseConfig EmptyString 0) "cfg" "config" "Config" EmptyString [].

(** The variables the sections define, block by block. *)
Definition defined_vars (sections : list (Phase * list (list Node))) : list (Phase * list (list (list string))) :=
  (fun s : Phase * list (list Node) => (s.1, (fun b : list Node => defines <$> b) <$> s.2)) <$> sections.

Example sections_in_order :
  defined_vars (emitPhaseNodes identParser noDir [service; database; config]) =
  [(PhaseConfig, [[["cfg"]]]); (PhaseWire, [[["db"]; ["svc"]]])].
Proof. vm_compute. reflexivity. Qed.

Lemma validated_section_witness :
  let nodes := [service; database] in
  defined_before_use identParser (phaseNodes nodes PhaseWire)
    (concat (fst (layout identParser noDir (newLayoutCtx identParser nodes) (phaseNodes nodes PhaseWire) ∅))).
Proof.
  apply validated_section_defines_before_use; [vm_compute; reflexivity|].
  intros [|[|i]] pn E; vm_compute in E; [by injection E as <-|by injection E as <-|by destruct i].
Defined.

Lemma layout_witness :
  let nodes := phaseNodes [service; database] PhaseWire in
  defined_before_use identParser nodes
    (concat (fst (layout identParser noDir (newLayoutCtx identParser [service; database]) nodes ∅))).
Proof.
  apply layout_is_a_valid_order. exists (fun i => match i with 0 => 1 | _ => 0 end).
  intros [|[|i]] j Hj; vm_compute in Hj.
  - inversion Hj as [? ? E|? ? ? H E]; subst; [vm_compute; lia|inversion H].
  - inversion Hj.
  - inversion Hj.
Defined.

(** Two nodes that need each other are reported. *)
Definition left_half : Node := NAssign (node_base 1 1 PhaseWire EmptyString 0) "a" "b".
Definition right_half : Node := NAssign (node_base 2 2 PhaseWire EmptyString 0) "b" "a".

Example cycles_are_reported :
  validatePhaseCycles identParser [left_half; right_half] = [(PhaseWire, [0; 1; 0])].
Proof. vm_compute. reflexivity. Qed.

(** A batch whose sequence runs against its data: the first member uses what the second
    defines. The cycle check sees data only and reports nothing; the layout sees a cycle,
    falls back to the order of emission, and puts the use first. *)
Definition batched_use : Node := NAssign (node_base 1 1 PhaseWire "chain" 1) "a" "b".
Definition batched_def : Node := NAssign (node_base 2 2 PhaseWire "chain" 2) "b" "c".

Example batch_cycle_is_not_reported :
  let nodes := [batched_use; batched_def] in
  validatePhaseCycles identParser nodes = [] /\
  defined_vars (emitPhaseNodes identParser noDir nodes) =
    [(PhaseWire, [[["a"]; ["b"]]])] /\
  uses identParser batched_use ["b"] = ["b"].
Proof. split_and!; vm_compute; reflexivity. Qed.

(** ** Arguments *)

Definition b_ (s : string) : bytes := String.list_ascii_of_string s.

(** [GET  "/a b" name=x] *)
Lemma written_arguments_witness :
  let line := [([Bare (b_ "GET")], b_ "  "); ([Quoted (b_ "/a b")], b_ " "); ([Bare (b_ "name="); Quoted (b_ "x")], [])] in
  texts (fst (lexArgs (write_line line))) = [b_ "GET"; b_ "/a b"; b_ "name=x"].
Proof.
  cbv zeta. pose proof (written_arguments_lex_back
    [([Bare (b_ "GET")], b_ "  "); ([Quoted (b_ "/a b")], b_ " "); ([Bare (b_ "name="); Quoted (b_ "x")], [])] []) as H.
  cbn [app] in H. destruct (lexArgs _) as [toks o]. cbn [fst]. apply H.
  - constructor.
  - cbn. unfold word_ok. split_and!; try done; repeat constructor; done.
Defined.

Example options_are_read :
  ParseArgs (b_ "GET /x name=" ++ [dquote]++b_ "a b"++[dquote]) (mkMeta [mkPosSpec (b_ "METHOD") false; mkPosSpec (b_ "PATH") true]
    [mkAttrSpec (b_ "name") true]) =
  (mkArgs [mkArg (b_ "GET") 0; mkArg (b_ "/x") 4] {[b_ "name" := mkArg (b_ "a b") 13]}, []).
Proof. vm_compute. reflexivity. Qed.

(** ** Flows and regions *)

(** Two entry points that share a repository over a named database. *)
Definition d_cfg : demandKey := mkDemand demandType "Config" EmptyString 0.
Definition d_db : demandKey := mkDemand demandType "DB" "main" 0.
Definition d_repo : demandKey := mkDemand demandType "Repo" EmptyString 0.
Definition d_web : demandKey := mkDemand demandType "Web" EmptyString 0.
Definition d_job : demandKey := mkDemand demandType "Job" EmptyString 0.

Definition store0 : fragState := mkFrag [] ∅ [] "buildWeb" false.

(** [build k deps]: the demand is recorded, then built while its own demands are. *)
Definition build_web (g : genUsage) : genUsage :=
  let g := pushDemand (recordDemand g d_web) d_web in
  let g := pushDemand (recordDemand g d_repo) d_repo in
  let g := pushDemand (recordDemand g d_db) d_db in
  let g := pushDemand (recordDemand g d_cfg) d_cfg in
  popDemand (popDemand (popDemand (popDemand g))).

(** The second flow finds the repository built: only its own demands are recorded. *)
Definition build_job (g : genUsage) : genUsage :=
  let g := match u_frag g with
           | Some st => set_frag g (mkFrag (fr_order st) (fr_index st) (fr_active st) "buildJob" false)
           | None => g
           end in
  popDemand (recordDemand (pushDemand (recordDemand g d_job) d_job) d_repo).

Definition walked_usage : genUsage := build_job (build_web (mkUsage None (Some store0) ∅ ∅)).

Definition any_order (_ : nat) : list edge := edge_list (u_edges walked_usage).

Lemma propagation_witness :
  exists g', propagateDemandUsage any_order walked_usage = Some g' /\ u_edges g' = u_edges walked_usage /\
    forall k f, f ∈ flows_of (u_demands g') k <-> reaches (u_demands walked_usage) (u_edges walked_usage) f k.
Proof. apply propagation_is_the_least_fixed_point. intros n. reflexivity. Defined.

Definition final_usage : genUsage := default walked_usage (propagateDemandUsage any_order walked_usage).
Definition final_store : fragState := default store0 (u_frag final_usage).

Example flows_reach_shared_demands :
  (fun k => demandFlows final_usage k) <$> [d_web; d_job; d_repo; d_db; d_cfg] =
  [["buildWeb"]; ["buildJob"]; ["buildJob"; "buildWeb"]; ["buildJob"; "buildWeb"]; ["buildJob"; "buildWeb"]].
Proof. vm_compute. reflexivity. Qed.

Definition assign (ptr : nat) (v e : string) : Node := NAssign (node_base ptr (Z.of_nat ptr) PhaseWire EmptyString 0) v e.

Definition stored (i : nat) (n : Node) : storeNode := mkStoreNode n (mkStoreUse (Some i) EmptyString).

Definition app_nodes : list storeNode :=
  [stored 3 config; stored 2 (assign 4 "db" "cfg"); stored 1 (assign 5 "repo" "db");
   stored 0 (assign 6 "web" "repo"); stored 4 (assign 7 "job" "repo")].
Definition app_scopes : list flowScope := [mkFlowScope "buildWeb" ["web"]; mkFlowScope "buildJob" ["job"]].

Example repository_is_a_component :
  components identParser (newPlan final_usage final_store app_nodes) app_nodes app_scopes [] = [[1; 2]; [3]; [4]].
Proof. vm_compute. reflexivity. Qed.

Lemma components_witness :
  usageAt (newPlan final_usage final_store app_nodes) 1 = usageAt (newPlan final_usage final_store app_nodes) 2.
Proof.
  apply (components_are_the_connected_nodes identParser final_usage final_store app_nodes app_scopes []) with (c := [1; 2]);
    [rewrite repository_is_a_component; left|left|right; left].
Defined.

(** The nodes are listed after those they wait for. *)
Definition listed_in_order (ps : planState) (nodes : list storeNode) (flow : string) : bool :=
  forallb (fun i =>
    match nodes !! i with
    | None => true
    | Some sn =>
        forallb (fun v => match ps_definedBy ps !! v with Some j => (j <=? i)%nat | None => true end)
          (usesOf identParser ps (sn_n sn)) &&
        (negb (unit_prov nodes (mkUnit None [i] i)) || forallb (fun j => negb (unit_hook nodes (mkUnit None [j] j)) || (j <=? i)%nat)
           (seq 0 (length nodes)))
    end) (seq 0 (length nodes)).

Lemma listed_in_order_acyclic ps nodes flow :
  listed_in_order ps nodes flow = true -> Digraph.acyclic_in (node_waits identParser ps nodes flow).
Proof.
  unfold listed_in_order. rewrite forallb_forall. intros H. exists (fun i => i). intros i j (Hne & [Hi _] & [Hj _] & Hw).
  specialize (H i (proj2 (in_seq _ _ _) (conj (Nat.le_0_l i) Hi))).
  assert (Hle : j <= i); [|lia]. destruct (nodes !! i) as [sn|] eqn:Hn; [|apply lookup_ge_None in Hn; lia].
  apply andb_true_iff in H as [H1 H2]. destruct Hw as [(sn' & v & Hn' & Hv & Hd)|[Hp Hs]].
  - simplify_eq. rewrite forallb_forall in H1. specialize (H1 v (proj1 (list_elem_of_In _ _) Hv)). rewrite Hd in H1.
    by apply Nat.leb_le.
  - apply orb_true_iff in H2 as [H2|H2].
    + exfalso. apply negb_true_iff in H2. unfold unit_prov in H2. cbn in H2. rewrite orb_false_r in H2.
      destruct Hp as [E|[E|E]]; by rewrite E in H2.
    + rewrite forallb_forall in H2. specialize (H2 j (proj2 (in_seq _ _ _) (conj (Nat.le_0_l j) Hj))).
      unfold unit_hook in H2. cbn in H2. by rewrite Hs in H2; apply Nat.leb_le.
Qed.

Lemma region_planning_witness :
  exists ps' scopes' regions' steps,
    planRegions identParser final_usage final_store app_nodes app_scopes [] (fun l => l) = Some (ps', scopes', regions') /\
    planSteps identParser ps' app_nodes scopes' !! "buildWeb" = Some steps /\
    in_order identParser ps' app_nodes "buildWeb" steps.
Proof.
  destruct (region_planning_ends_schedulable identParser final_usage final_store app_nodes app_scopes [] (fun l => l)
    (fun l => Permutation_refl l)) as (ps' & scopes' & regions' & E & _ & _ & _ & H).
  destruct (H "buildWeb") as (steps & Hs & Ho).
  - left.
  - apply listed_in_order_acyclic. vm_compute. reflexivity.
  - exists ps', scopes', regions', steps. split; [exact E|]. split; [exact Hs|exact Ho].
Defined.

(** The shared region stays, with the load it alone consumes, and both flows call it
    before what they add. *)
Example repository_region_is_extracted :
  match planRegions identParser final_usage final_store app_nodes app_scopes [] (fun l => l) with
  | Some (ps, scopes, regions) =>
      regions = [0] /\ r_members (regionAt ps 0) = [0; 1; 2] /\
      planSteps identParser ps app_nodes scopes =
        {["buildWeb" := [StepRegion 0; StepNode 3]; "buildJob" := [StepRegion 0; StepNode 4]]}
  | None => False
  end.
Proof. vm_compute. split_and!; reflexivity. Qed.

(** ** The resolution of GenBind.v on small provider graphs: a repository on a database, two
    services that need each other, a build that panics; and the theorems of
    GenBindSpec.v at these states. *)

Definition pos0 : Position := Build_Position "app.go" 3 1.

(** A constructor call on the expressions of what it needs. *)
Definition construct (v fn arg : string) : Build :=
  BVar v (fun v =>
    BNode (NAssign (mkBase 0 EmptyString pos0 PhaseWire EmptyString [] EmptyString 0 EmptyString) v
             (fn +:+ "(" +:+ arg +:+ ")"))
      (BReturn v [])).

Definition needing (v fn t : string) : Build :=
  BInstance t EmptyString (fun '(expr, ds, ok) =>
    if ok && bool_decide (ds = []) then construct v fn expr else BReturn EmptyString ds).

(** The package names of the paths used here. *)
Definition short (t : string) : string :=
  if String.prefix "example.com/" t then String.substring 12 (String.length t - 12) t else t.

Definition provided (t : string) (b : Build) (g : gen) : gen :=
  BindLazyAt t EmptyString pos0 b (set_chain (g_materializing g) "provide" g).

Definition repoGen : gen :=
  provided "example.com/app.Repo" (needing "repo" "app.NewRepo" "example.com/app.DB")
    (provided "example.com/app.DB" (construct "db" "app.Open" EmptyString) NewGen).

Definition knotGen : gen :=
  provided "example.com/app.B" (needing "b" "app.NewB" "example.com/app.A")
    (provided "example.com/app.A" (needing "a" "app.NewA" "example.com/app.B")
       (provided "example.com/app.P" BPanic NewGen)).

Lemma provided_between t b g : between short g -> between short (provided t b g).
Proof. intros H. unfold provided. eapply between_call; [|constructor]. eapply between_call; [exact H|constructor]. Qed.

Lemma repoGen_between : between short repoGen.
Proof. unfold repoGen. do 2 apply provided_between. constructor. Qed.

Lemma knotGen_between : between short knotGen.
Proof. unfold knotGen. do 3 apply provided_between. constructor. Qed.

Definition answer_of (r : option (gen * answer)) : option (answer * list string) :=
  match r with
  | Some (g, a) => Some (a, map (fun x => match x.1 with NAssign _ v e => v +:+ " := " +:+ e | _ => EmptyString end) (g_store g))
  | None => None
  end.

(** The database is opened first, once for both lookups. *)
Example repo_is_built :
  answer_of (Instance short 2 "example.com/app.Repo" EmptyString repoGen) =
    Some (("repo", [], true), ["db := app.Open()"; "repo := app.NewRepo(db)"]) /\
  answer_of (match Instance short 2 "example.com/app.Repo" EmptyString repoGen with
             | Some (g, _) => Instance short 2 "example.com/app.DB" EmptyString g
             | None => None
             end) =
    Some (("db", [], true), ["db := app.Open()"; "repo := app.NewRepo(db)"]).
Proof. split; vm_compute; reflexivity. Qed.

(** Two services that need each other: the trace says how, in package names. The first
    is left bound to no expression, and is not built again. *)
Example knot_is_reported :
  answer_of (Instance short 3 "example.com/app.A" EmptyString knotGen) =
    Some ((EmptyString, [ProviderCycle ["app.A"; "app.B"; "app.A"]], true), []) /\
  answer_of (match Instance short 3 "example.com/app.A" EmptyString knotGen with
             | Some (g, _) => Instance short 3 "example.com/app.A" EmptyString g
             | None => None
             end) =
    Some ((EmptyString, [], true), []).
Proof. split; vm_compute; reflexivity. Qed.

(** A panic in the pass is reported there, and again by the flow that asks. *)
Example panics_are_recovered :
  (match RunValidationPass short 3 knotGen with
   | Some (g, ds) => Some (ds, answer_of (Instance short 3 "example.com/app.P" EmptyString g))
   | None => None
   end) =
    Some ([ProviderCycle ["app.A"; "app.B"; "app.A"]; LazyPanic "provide"],
          Some ((EmptyString, [LazyPanic "provide"], false), [])).
Proof. vm_compute. reflexivity. Qed.

(** Through a path the chain holds full paths, through a type package names: the trace of
    a cycle met through both starts at the first key, even when that is not on it. *)
Definition mixedGen : gen :=
  BindLazyPathAt "example.com/app.A" pos0 (needing "a" "app.NewA" "example.com/app.B")
    (provided "example.com/app.B"
       (BInstancePath "example.com/app.A" (fun '(expr, ds, ok) => BReturn EmptyString ds))
       (provided "example.com/app.Root" (needing "root" "app.NewRoot" "example.com/app.A") NewGen)).

Example mixed_trace :
  answer_of (Instance short 3 "example.com/app.Root" EmptyString mixedGen) =
    Some ((EmptyString,
           [ProviderCycle ["app.Root"; "app.A"; "app.B"; "example.com/app.A"]], true), []).
Proof. vm_compute. reflexivity. Qed.

(** ** The theorems at these states *)

Lemma resolution_terminates_witness :
  between short knotGen /\ fuelOf knotGen = 3 /\
  (exists g' a, Instance short 3 "example.com/app.A" EmptyString knotGen = Some (g', a) /\ fl_running (flow g') = ∅).
Proof.
  split; [exact knotGen_between|]. split; [reflexivity|].
  destruct (resolution_terminates short knotGen 3 knotGen_between (le_n _)) as [H _].
  destruct (H "example.com/app.A" EmptyString) as (g' & a & E & Hr & _). exists g', a. split; [exact E|exact Hr].
Defined.

(** The result of a resolution that ends. *)
Definition result_of (o : option (gen * answer)) : gen * answer :=
  match o with Some x => x | None => (NewGen, (EmptyString, [], false)) end.

Definition ends {A} (o : option A) : bool := match o with Some _ => true | None => false end.

Lemma ends_result o : ends o = true -> o = Some ((result_of o).1, (result_of o).2).
Proof. by destruct o as [[g a]|]. Qed.

Definition repoDone : gen * answer := result_of (Instance short 2 "example.com/app.Repo" EmptyString repoGen).

Lemma repoDone_eq : Instance short 2 "example.com/app.Repo" EmptyString repoGen = Some (repoDone.1, repoDone.2).
Proof. apply ends_result. vm_compute. reflexivity. Qed.

Lemma bindings_are_built_once_witness :
  exists e, forall fuel' g3, rtc (call short) repoDone.1 g3 ->
    exists g4, Instance short fuel' "example.com/app.Repo" EmptyString g3 = Some (g4, (e, [], true)) /\
      flow g4 = flow g3 /\ g_store g4 = g_store g3.
Proof.
  apply (bindings_are_built_once short repoGen 2 "example.com/app.Repo" EmptyString repoDone.1 repoDone.2).
  - exact repoGen_between.
  - exact (le_n _).
  - exact repoDone_eq.
  - vm_compute. reflexivity.
Defined.

Lemma construct_asks v fn arg x : ~ asks (construct v fn arg) x.
Proof.
  unfold construct. intros H. inversion H as [| | | | | |? ? w ? H1| | | |]; subst.
  inversion H1 as [| | | | | | |? ? ? H2| | |]; subst. inversion H2.
Qed.

Lemma needing_asks v fn t x : asks (needing v fn t) x -> x = inl (t, EmptyString).
Proof.
  unfold needing. intros H. inversion H as [|? ? ? [[e ds] ok] ? H1| | | | | | | | |]; subst; [done|].
  destruct (ok && bool_decide (ds = [])); [by apply construct_asks in H1|inversion H1].
Qed.

Lemma repoGen_needs i j : needs repoGen i j -> i = 1 /\ j = 0.
Proof.
  intros (lb & x & Hlb & Ha & Hr).
  assert (Hh : g_heap repoGen = [mkLazy (construct "db" "app.Open" EmptyString) "provide" pos0;
                                 mkLazy (needing "repo" "app.NewRepo" "example.com/app.DB") "provide" pos0])
    by reflexivity.
  rewrite Hh in Hlb. destruct i as [|[|i]]; cbn in Hlb; [| |done]; injection Hlb as <-; cbn [lz_build] in Ha.
  - by apply construct_asks in Ha.
  - apply needing_asks in Ha. subst x. split; [done|]. cbn [resolves] in Hr.
    destruct Hr as [Hr|[_ Hr]]; vm_compute in Hr; congruence.
Qed.

Lemma construct_honest v fn arg : honest (construct v fn arg).
Proof. unfold construct. constructor. intros w. constructor. constructor. intros tr. apply not_elem_of_nil. Qed.

Lemma repoGen_honest : all_honest repoGen.
Proof.
  intros i lb H. destruct i as [|[|i]]; cbn in H; [| |done]; injection H as <-; cbn [lz_build].
  - apply construct_honest.
  - unfold needing. constructor. intros e ds ok Hds. cbv beta iota.
    destruct (ok && bool_decide (ds = [])); [apply construct_honest|by constructor].
Qed.

Lemma acyclic_bindings_report_no_cycle_witness :
  between short repoGen /\ acyclic_in (needs repoGen) /\ no_cycle repoDone.2.1.2.
Proof.
  split; [exact repoGen_between|].
  assert (HA : acyclic_in (needs repoGen)).
  { exists (fun i => i). intros i j [-> ->]%repoGen_needs. lia. }
  split; [exact HA|].
  exact (acyclic_bindings_report_no_cycle short repoGen 2 repoDone.1 "example.com/app.Repo" EmptyString repoDone.2
           repoGen_between repoGen_honest HA (le_n _) repoDone_eq).
Defined.

Lemma validation_pass_is_isolated_witness :
  exists g' ds, RunValidationPass short 3 knotGen = Some (g', ds) /\ inScope g' = false /\ isolated knotGen g'.
Proof. exact (validation_pass_is_isolated short knotGen 3 knotGen_between eq_refl (le_n _)). Defined.

(** A scope keeps the names of late imports free. *)
Definition scoped : gen := enterScope "buildServe" false repoGen.

Lemma generated_names_are_fresh_witness :
  (Var "os" scoped).1 = "os2" /\ (Var "os" scoped).1 ∉ fl_reserved (flow scoped) /\
  (Var "os" (Var "os" scoped).2).1 = "os3".
Proof.
  assert (Hs : (Z.of_nat (size (fl_idents (flow scoped) ∪ fl_reserved (flow scoped))) < 2 ^ 61)%Z)
    by (vm_compute; reflexivity).
  pose proof (generated_names_are_fresh "os" "os" scoped Hs) as H.
  split; [vm_compute; reflexivity|]. split; [|vm_compute; reflexivity].
  destruct (Var "os" scoped) as [v g']. destruct H as (_ & H & _). apply H. reflexivity.
Defined.
