(* ===== verification/MwOrder.v ===== *)
(** The order of the global HTTP middleware: src/router/directive/ordering.go and the
    parts of middleware.go that declare middleware, resolve a route's chain and validate
    the declarations.

    A declaration is a pointer in the code; here it is its index in the list [decls] of
    the checked declarations. Names map to indices, the globals are a list of indices in
    the order they were emitted. A diagnostic is a constructor with its position and the
    declarations its message names; message and help texts are left out, and so are the
    fields of a declaration that only the rendering of constructors reads. *)

From S2P Require Import Prelude.
From S2P Require Import Order.
From S2P Require Import GenNode.
From S2P Require Import Digraph.
From S2P Require Import CycleSearch.

(** ** Declarations *)

Record mwRef := mkRef { ref_name : string; ref_pos : Position }.

Record mwNode := mkMw {
  mw_pos : Position;
  mw_name : string;
  mw_global : bool;
  mw_requires : list mwRef;
  mw_after : list mwRef;
  mw_before : list mwRef;
  mw_afterAll : bool;
  mw_beforeAll : bool
}.

#[export] Instance mwNode_inhabited : Inhabited mwNode :=
  populate (mkMw (Build_Position EmptyString 0 0) EmptyString false [] [] [] false false).

Inductive mwDiag :=
| DuplicateName (pos : Position) (name : string)
| AfterNotGlobal (pos : Position) (name : string)
| BeforeNotGlobal (pos : Position) (name : string)
| BandContradiction (pos : Position) (opt : string) (decl : nat)
| OrderCycle (pos : Position) (trace : list nat)
| UnknownRequire (pos : Position) (name : string)
| RequireNotGlobal (pos : Position) (decl : nat) (name : string)
| Inert (pos : Position) (decl : nat)
| NeverReferenced (pos : Position) (name : string)
| RequiresCycle (pos : Position) (trace : list nat)
| UnknownMiddleware (pos : Position) (name : string)
| GlobalInChain (pos : Position) (name : string)
| RequireNotEarlier (pos : Position) (name require : string).

(** The fields of [Middleware] that the order depends on, and the [used] flags of the
    declarations. *)
Record Middleware := mkMiddleware {
  m_byName : gmap string nat;
  m_globals : list nat;
  m_decls : list mwNode;
  m_used : gset nat
}.

Definition NewMiddleware : Middleware := mkMiddleware ∅ [] [] ∅.

(** The end of [Check]: the declaration is recorded unless its name is taken. *)
Definition declare (m : Middleware) (nd : mwNode) : Middleware * list mwDiag :=
  let recorded byName := (mkMiddleware byName (m_globals m) (m_decls m ++ [nd]) (m_used m), []) in
  if bool_decide (mw_name nd = EmptyString) then recorded (m_byName m)
  else match m_byName m !! mw_name nd with
       | Some _ => (m, [DuplicateName (mw_pos nd) (mw_name nd)])
       | None => recorded (<[mw_name nd := length (m_decls m)]> (m_byName m))
       end.

(** [Emit] puts a global declaration on the list. *)
Definition emit (m : Middleware) (i : nat) : Middleware :=
  if mw_global (m_decls m !!! i)
  then mkMiddleware (m_byName m) (m_globals m ++ [i]) (m_decls m) (m_used m) else m.

Definition declCmp : mwNode -> mwNode -> comparison :=
  cmp_then (cmp_on (fun nd => Filename (mw_pos nd)) cmp_string)
           (cmp_on (fun nd => Line (mw_pos nd)) cmp_Z).

Definition declLess (a b : mwNode) : bool :=
  match declCmp a b with Lt => true | _ => false end.

(** Wildcards split globals into outer, middle and inner bands. *)
Definition bandOuter : nat := 0.
Definition bandMiddle : nat := 1.
Definition bandInner : nat := 2.

Definition band (nd : mwNode) : nat :=
  if mw_beforeAll nd then bandOuter else if mw_afterAll nd then bandInner else bandMiddle.

(** ** Constraint edges *)

Record mwEdge := mkEdge {
  e_from : nat;
  e_to : nat;
  e_decl : nat;
  e_opt : string;
  e_pos : Position;
  e_hard : bool
}.

(** An unresolved soft reference, kept for inspection output. *)
Record inactiveEdge := mkInactive { i_nd : nat; i_opt : string; i_pos : Position }.

Record collected := mkCollected {
  c_edges : list mwEdge;
  c_inactive : list inactiveEdge;
  c_ds : list mwDiag
}.

Section Ordering.
Context (byName : gmap string nat) (decls : list mwNode).

Definition nodeAt (i : nat) : mwNode := decls !!! i.
Definition sortDecls (l : list nat) : list nat := sort_by (cmp_on nodeAt declCmp) l.

Definition addEdge (e : mwEdge) (c : collected) : collected :=
  mkCollected (c_edges c ++ [e]) (c_inactive c) (c_ds c).
Definition inactive (g : nat) (opt : string) (pos : Position) (c : collected) : collected :=
  mkCollected (c_edges c) (c_inactive c ++ [mkInactive g opt pos]) (c_ds c).
Definition report (d : mwDiag) (c : collected) : collected :=
  mkCollected (c_edges c) (c_inactive c) (c_ds c ++ [d]).

Definition addRequires (g : nat) (c : collected) (r : mwRef) : collected :=
  match byName !! ref_name r with
  | Some target =>
      if mw_global (nodeAt target)
      then addEdge (mkEdge target g g ("requires=" +:+ ref_name r) (ref_pos r) true) c else c
  | None => c
  end.

Definition addAfter (g : nat) (c : collected) (r : mwRef) : collected :=
  match byName !! ref_name r with
  | None => inactive g ("after=" +:+ ref_name r) (ref_pos r) c
  | Some target =>
      if mw_global (nodeAt target)
      then addEdge (mkEdge target g g ("after=" +:+ ref_name r) (ref_pos r) false) c
      else report (AfterNotGlobal (ref_pos r) (ref_name r)) c
  end.

Definition addBefore (g : nat) (c : collected) (r : mwRef) : collected :=
  match byName !! ref_name r with
  | None => inactive g ("before=" +:+ ref_name r) (ref_pos r) c
  | Some target =>
      if mw_global (nodeAt target)
      then addEdge (mkEdge g target g ("before=" +:+ ref_name r) (ref_pos r) false) c
      else report (BeforeNotGlobal (ref_pos r) (ref_name r)) c
  end.

Definition addGlobal (c : collected) (g : nat) : collected :=
  let c := fold_left (addRequires g) (mw_requires (nodeAt g)) c in
  let c := fold_left (addAfter g) (mw_after (nodeAt g)) c in
  fold_left (addBefore g) (mw_before (nodeAt g)) c.

Definition collect (globals : list nat) : collected :=
  fold_left addGlobal globals (mkCollected [] [] []).

(** ** Bands *)

Record banded := mkBanded {
  b_graph : gmap nat (list mwEdge);
  b_indeg : gmap nat Z;
  b_incoming : gmap nat (list string);
  b_ds : list mwDiag
}.

Definition arcs_of (graph : gmap nat (list mwEdge)) (i : nat) : list mwEdge := default [] (graph !! i).
Definition degree (deg : gmap nat Z) (i : nat) : Z := default 0%Z (deg !! i).

(** The far end of an edge learns of it, unless the edge is its own declaration's. *)
Definition noteIncoming (labels : nat -> string) (e : mwEdge) (incoming : gmap nat (list string))
    : gmap nat (list string) :=
  let '(other, rel) :=
    if bool_decide (e_decl e = e_from e) then (e_to e, "after " +:+ labels (e_from e))
    else (e_from e, "before " +:+ labels (e_to e)) in
  if bool_decide (other = e_decl e) then incoming
  else <[other := default [] (incoming !! other) ++ [rel]]> incoming.

Definition addBanded (labels : nat -> string) (b : banded) (e : mwEdge) : banded :=
  match Nat.compare (band (nodeAt (e_from e))) (band (nodeAt (e_to e))) with
  | Lt => mkBanded (b_graph b) (b_indeg b) (noteIncoming labels e (b_incoming b)) (b_ds b)
  | Gt => mkBanded (b_graph b) (b_indeg b) (b_incoming b)
            (b_ds b ++ [BandContradiction (e_pos e) (e_opt e) (e_decl e)])
  | Eq => mkBanded (<[e_from e := arcs_of (b_graph b) (e_from e) ++ [e]]> (b_graph b))
            (<[e_to e := (degree (b_indeg b) (e_to e) + 1)%Z]> (b_indeg b))
            (noteIncoming labels e (b_incoming b)) (b_ds b)
  end.

Definition bandEdges (labels : nat -> string) (edges : list mwEdge) : banded :=
  fold_left (addBanded labels) edges (mkBanded ∅ ∅ ∅ []).

(** ** Cycles of requires= *)

(** The requirements of [i] among [members]. *)
Definition requiresArcs (members : list nat) (i : nat) : list nat :=
  omap (fun r => match byName !! ref_name r with
                 | Some target => if bool_decide (target ∈ members) then Some target else None
                 | None => None
                 end) (mw_requires (nodeAt i)).

(** One cycle within [members], each node once. *)
Definition requiresCycle (members : list nat) : option (list nat) :=
  (fun c => removelast (fst c)) <$> cycleFrom id (requiresArcs members) (length decls) (sortDecls members).

(** Every cycle in turn, each without the nodes of those before. A cycle takes at least
    one node, so there are no more of them than members. *)
Fixpoint requiresCycles (fuel : nat) (remaining : list nat) : list (list nat) * list nat :=
  match fuel with
  | O => ([], remaining)
  | S fuel =>
      match requiresCycle remaining with
      | None => ([], remaining)
      | Some cyc =>
          let '(cycles, rest) := requiresCycles fuel (filter (fun nd => nd ∉ cyc) remaining) in
          (cyc :: cycles, rest)
      end
  end.

Definition allDecls : list nat := seq 0 (length decls).
Definition allCycles : list (list nat) := fst (requiresCycles (length decls) allDecls).
Definition condemned : list nat := concat allCycles.

(** ** The sort of one band *)

(** [deg[e.to]--] for the edges that stay in the band. *)
Definition release (b : nat) (deg : gmap nat Z) (e : mwEdge) : gmap nat Z :=
  if bool_decide (band (nodeAt (e_to e)) = b)
  then <[e_to e := (degree deg (e_to e) - 1)%Z]> deg else deg.

(** Each round emits the first member that waits for nothing, so there are at most as
    many rounds as members. *)
Fixpoint emitReady (fuel : nat) (graph : gmap nat (list mwEdge)) (b : nat) (members : list nat)
    (deg : gmap nat Z) (out : list nat) : gmap nat Z * list nat :=
  match fuel with
  | O => (deg, out)
  | S fuel =>
      match list_find (fun nd => degree deg nd = 0%Z) members with
      | None => (deg, out)
      | Some (_, next) =>
          emitReady fuel graph b members
            (fold_left (release b) (arcs_of graph next) (<[next := (-1)%Z]> deg)) (out ++ [next])
      end
  end.

(** One cycle of the members that could not be emitted. *)
Definition stuckCycle (stuck : list nat) (graph : gmap nat (list mwEdge)) : option (list mwEdge) :=
  snd <$> cycleFrom e_to (fun nd => filter (fun e => e_to e ∈ stuck) (arcs_of graph nd))
            (length decls) (sortDecls stuck).

Definition cycleDiag (cycle : list mwEdge) : mwDiag :=
  match cycle with
  | e :: _ => OrderCycle (e_pos e) ((e_from <$> cycle) ++ [e_from e])
  | [] => OrderCycle (Build_Position EmptyString 0 0) []
  end.

Definition bandMembers (globals : list nat) (b : nat) : list nat :=
  sortDecls (filter (fun g => band (nodeAt g) = b) globals).

Definition indegrees (indeg : gmap nat Z) (members : list nat) : gmap nat Z :=
  fold_left (fun deg nd => <[nd := degree indeg nd]> deg) members ∅.

Record sorted := mkSorted {
  o_stack : list nat;
  o_ds : list mwDiag;
  o_reported : bool
}.

(** The stack stays complete when members are stuck; one cycle is reported in all. *)
Definition sortBand (bd : banded) (globals : list nat) (o : sorted) (b : nat) : sorted :=
  let members := bandMembers globals b in
  let '(deg, out) := emitReady (length members) (b_graph bd) b members (indegrees (b_indeg bd) members) [] in
  if (length out <? length members)%nat then
    let left := filter (fun nd => (0 < degree deg nd)%Z) members in
    let stuck := filter (fun nd => nd ∉ condemned) left in
    let '(ds, reported) :=
      if o_reported o then ([], true)
      else match stuckCycle stuck (b_graph bd) with
           | Some cycle => ([cycleDiag cycle], true)
           | None => ([], false)
           end in
    mkSorted (o_stack o ++ out ++ left) (o_ds o ++ ds) reported
  else mkSorted (o_stack o ++ out) (o_ds o) (o_reported o).

(** ** The whole order *)

Record orderResult := mkOrder {
  r_stack : list (nat * string);
  r_inactive : list inactiveEdge
}.

(** [slices.Compact] *)
Fixpoint compact (l : list string) : list string :=
  match l with
  | x :: ((y :: _) as l) => if bool_decide (x = y) then compact l else x :: compact l
  | _ => l
  end.

Definition reasonLabel (i : nat) (incoming : list string) (inactives : list inactiveEdge) : string :=
  let nd := nodeAt i in
  let dead opt := existsb (fun ie => bool_decide (i_nd ie = i) && bool_decide (i_opt ie = opt)) inactives in
  let soft key r :=
    let opt := key +:+ ref_name r in if dead opt then opt +:+ " (inactive)" else opt in
  let parts :=
    incoming
    ++ (if mw_beforeAll nd then ["before=*"] else [])
    ++ (if mw_afterAll nd then ["after=*"] else [])
    ++ map (fun r => "requires=" +:+ ref_name r) (mw_requires nd)
    ++ map (soft "after=") (mw_after nd)
    ++ map (soft "before=") (mw_before nd) in
  match parts with
  | [] => "unconstrained (file order)"
  | _ => String.concat "; " (compact (sort_by cmp_string parts))
  end.

Definition resolveOrder (globals : list nat) (labels : nat -> string) : orderResult * list mwDiag :=
  let c := collect globals in
  let bd := bandEdges labels (c_edges c) in
  let o := fold_left (sortBand bd globals) [bandOuter; bandMiddle; bandInner] (mkSorted [] [] false) in
  let label nd := reasonLabel nd (default [] (b_incoming bd !! nd)) (c_inactive c) in
  (mkOrder (map (fun nd => (nd, label nd)) (o_stack o)) (c_inactive c), c_ds c ++ b_ds bd ++ o_ds o).

(** ** Declaration checks *)

Definition requireDiags (i : nat) : list mwDiag :=
  omap (fun r => match byName !! ref_name r with
                 | None => Some (UnknownRequire (ref_pos r) (ref_name r))
                 | Some target =>
                     if mw_global (nodeAt i) && negb (mw_global (nodeAt target))
                     then Some (RequireNotGlobal (ref_pos r) i (ref_name r)) else None
                 end) (mw_requires (nodeAt i)).

Definition declDiags (used : gset nat) (i : nat) : list mwDiag :=
  let nd := nodeAt i in
  requireDiags i
  ++ (if bool_decide (mw_name nd = EmptyString) && negb (mw_global nd) then [Inert (mw_pos nd) i] else [])
  ++ (if bool_decide (mw_name nd <> EmptyString) && negb (mw_global nd) && bool_decide (i ∉ used)
      then [NeverReferenced (mw_pos nd) (mw_name nd)] else []).

(** A requires= cycle is reported at the reference that leads on along it. *)
Definition requiresCycleDiag (cycle : list nat) : mwDiag :=
  let first := default 0%nat (head cycle) in
  let next := default first (cycle !! (1 mod length cycle)) in
  let pos := match list_find (fun r => byName !! ref_name r = Some next) (mw_requires (nodeAt first)) with
             | Some (_, r) => ref_pos r
             | None => mw_pos (nodeAt first)
             end in
  RequiresCycle pos (cycle ++ [first]).

Definition validateDecls (used : gset nat) : list mwDiag :=
  concat (map (declDiags used) allDecls) ++ map requiresCycleDiag allCycles.

(** ** Route chains *)

(** [resolve]: the middleware of one chain, with the declarations it marks as used. *)
Definition resolveRef (names : list nat * gset nat * list mwDiag) (ref : mwRef)
    : list nat * gset nat * list mwDiag :=
  let '(out, used, ds) := names in
  match byName !! ref_name ref with
  | None => (out, used, ds ++ [UnknownMiddleware (ref_pos ref) (ref_name ref)])
  | Some nd =>
      if mw_global (nodeAt nd) then (out, used, ds ++ [GlobalInChain (ref_pos ref) (ref_name ref)])
      else
        let missing :=
          omap (fun req => match byName !! ref_name req with
                           | None => None
                           | Some target =>
                               if mw_global (nodeAt target) then None
                               else if bool_decide (target ∈ out) then None
                               else Some (RequireNotEarlier (ref_pos ref) (ref_name ref) (ref_name req))
                           end) (mw_requires (nodeAt nd)) in
        (out ++ [nd], {[nd]} ∪ used, ds ++ missing)
  end.

Definition resolve (refs : list mwRef) (used : gset nat) : list nat * gset nat * list mwDiag :=
  fold_left resolveRef refs ([], used, []).
End Ordering.

(** [Validate]: the ordering diagnostics, then those of the declarations. *)
Definition Validate (m : Middleware) (labels : nat -> string) : list mwDiag :=
  snd (resolveOrder (m_byName m) (m_decls m) (m_globals m) labels)
  ++ validateDecls (m_byName m) (m_decls m) (m_used m).
