(* ===== verification/MwOrderSpec.v ===== *)
(** The middleware order of MwOrder.v is right: the stack has every global once, in an
    order that meets every band, requires=, after= and before= whenever some order does,
    and an error is reported exactly when none does. A route's chain then runs each
    middleware after all it requires. *)

From S2P Require Import Prelude.
From S2P Require Import Order.
From S2P Require Import GenNode.
From S2P Require Import Digraph.
From S2P Require Import CycleSearch.
From S2P Require Import MwOrder.

(** ** What the order is to meet *)

#[export] Instance declCmp_ok : Cmp declCmp.
Proof. unfold declCmp. apply _. Qed.

Section Spec.
Context (byName : gmap string nat) (decls : list mwNode).
Notation nodeAt := (nodeAt decls).
Notation bandAt i := (band (nodeAt i)).

(** A reference of [g] to the global [t]. *)
Definition refers (refs : mwNode -> list mwRef) (g t : nat) : Prop :=
  exists r, r ∈ refs (nodeAt g) /\ byName !! ref_name r = Some t /\ mw_global (nodeAt t) = true.

(** [x] is to run before [y]. *)
Definition must_precede (globals : list nat) (x y : nat) : Prop :=
  y ∈ globals /\ (refers mw_requires y x \/ refers mw_after y x) \/ x ∈ globals /\ refers mw_before x y.

Record ordered (globals l : list nat) : Prop := {
  or_perm : l ≡ₚ globals;
  or_bands : StronglySorted (fun x y => bandAt x <= bandAt y) l;
  or_constraints : forall x y, must_precede globals x y -> before l x y
}.

(** Ties go to the earlier declaration: what is declared earlier and placed later waits
    for something that is not placed before the other. *)
Definition by_declaration (globals l : list nat) : Prop :=
  forall l1 x l2 y, l = l1 ++ x :: l2 -> y ∈ l2 -> bandAt y = bandAt x ->
    declLess (nodeAt y) (nodeAt x) = true ->
    exists z, z ∈ x :: l2 /\ must_precede globals z y.

(** Names lead to declarations of that name, and the globals are the global
    declarations. *)
Record names_ok : Prop := {
  no_range : forall n i, byName !! n = Some i -> i < length decls /\ mw_name (nodeAt i) = n
}.
Definition globals_ok (globals : list nat) : Prop :=
  NoDup globals /\ forall i, i ∈ globals <-> i < length decls /\ mw_global (nodeAt i) = true.

(** ** The edges *)

Definition isEdge (edges : list mwEdge) (x y : nat) : Prop :=
  exists e, e ∈ edges /\ e_from e = x /\ e_to e = y.

Lemma isEdge_app l1 l2 x y : isEdge (l1 ++ l2) x y <-> isEdge l1 x y \/ isEdge l2 x y.
Proof. unfold isEdge. setoid_rewrite elem_of_app. naive_solver. Qed.

Lemma isEdge_one e x y : isEdge [e] x y <-> e_from e = x /\ e_to e = y.
Proof. unfold isEdge. setoid_rewrite list_elem_of_singleton. naive_solver. Qed.

Lemma isEdge_nil x y : ~ isEdge [] x y.
Proof. intros (e & H & _). by apply not_elem_of_nil in H. Qed.

(** A pass over one option's references adds the edges [P] of each of them. *)
Lemma pass_edges (add : collected -> mwRef -> collected) (P : mwRef -> nat -> nat -> Prop) rs c x y :
  (forall c r, isEdge (c_edges (add c r)) x y <-> isEdge (c_edges c) x y \/ P r x y) ->
  isEdge (c_edges (fold_left add rs c)) x y <-> isEdge (c_edges c) x y \/ exists r, r ∈ rs /\ P r x y.
Proof.
  intros H. revert c. induction rs as [|r rs IH]; intros c; simpl.
  - setoid_rewrite elem_of_nil. naive_solver.
  - rewrite IH, H. setoid_rewrite elem_of_cons. naive_solver.
Qed.

Definition meets (r : mwRef) (t : nat) : Prop :=
  byName !! ref_name r = Some t /\ mw_global (nodeAt t) = true.

Lemma addRequires_edges g c r x y :
  isEdge (c_edges (addRequires byName decls g c r)) x y <-> isEdge (c_edges c) x y \/ meets r x /\ y = g.
Proof.
  unfold addRequires, meets. destruct (byName !! ref_name r) as [t|]; [|naive_solver].
  destruct (mw_global (nodeAt t)) eqn:EG; [|naive_solver congruence].
  cbn [addEdge c_edges]. rewrite isEdge_app, isEdge_one. cbn. naive_solver.
Qed.

Lemma addAfter_edges g c r x y :
  isEdge (c_edges (addAfter byName decls g c r)) x y <-> isEdge (c_edges c) x y \/ meets r x /\ y = g.
Proof.
  unfold addAfter, meets. destruct (byName !! ref_name r) as [t|]; [|naive_solver].
  destruct (mw_global (nodeAt t)) eqn:EG; [|cbn; naive_solver congruence].
  cbn [addEdge c_edges]. rewrite isEdge_app, isEdge_one. cbn. naive_solver.
Qed.

Lemma addBefore_edges g c r x y :
  isEdge (c_edges (addBefore byName decls g c r)) x y <-> isEdge (c_edges c) x y \/ meets r y /\ x = g.
Proof.
  unfold addBefore, meets. destruct (byName !! ref_name r) as [t|]; [|naive_solver].
  destruct (mw_global (nodeAt t)) eqn:EG; [|cbn; naive_solver congruence].
  cbn [addEdge c_edges]. rewrite isEdge_app, isEdge_one. cbn. naive_solver.
Qed.

Lemma addGlobal_edges c g x y :
  isEdge (c_edges (addGlobal byName decls c g)) x y <->
  isEdge (c_edges c) x y \/ must_precede [g] x y.
Proof.
  unfold addGlobal.
  rewrite (pass_edges _ (fun r x y => meets r y /\ x = g)) by (intros; apply addBefore_edges).
  rewrite (pass_edges _ (fun r x y => meets r x /\ y = g)) by (intros; apply addAfter_edges).
  rewrite (pass_edges _ (fun r x y => meets r x /\ y = g)) by (intros; apply addRequires_edges).
  unfold must_precede, refers, meets. rewrite !list_elem_of_singleton. naive_solver.
Qed.

(** The edges are the constraints. *)
Lemma collect_edges globals x y :
  isEdge (c_edges (collect byName decls globals)) x y <-> must_precede globals x y.
Proof.
  unfold collect.
  assert (H : forall c, isEdge (c_edges (fold_left (addGlobal byName decls) globals c)) x y <->
                        isEdge (c_edges c) x y \/ must_precede globals x y).
  { induction globals as [|g globals IH]; intros c; simpl.
    - unfold must_precede. setoid_rewrite elem_of_nil. naive_solver.
    - rewrite IH, addGlobal_edges. unfold must_precede. rewrite !elem_of_cons, !elem_of_nil.
      naive_solver. }
  rewrite H. cbn. pose proof (isEdge_nil x y). naive_solver.
Qed.

Lemma must_precede_globals globals x y :
  names_ok -> globals_ok globals -> must_precede globals x y -> x ∈ globals /\ y ∈ globals.
Proof.
  intros [Hn] [_ Hg].
  assert (HR : forall refs g t, refers refs g t -> t ∈ globals).
  { intros refs g t (r & _ & H1 & H2). apply Hg. split; [|done]. by apply Hn in H1 as [? _]. }
  intros [[Hy [H|H]]|[Hx H]]; eauto.
Qed.

(** ** Bands *)

Definition same (e : mwEdge) : Prop := bandAt (e_from e) = bandAt (e_to e).

Definition into (edges : list mwEdge) (x : nat) : list mwEdge := filter (fun e => same e /\ e_to e = x) edges.

Record banded_spec (edges : list mwEdge) (b : banded) : Prop := {
  bs_graph : forall i, arcs_of (b_graph b) i = filter (fun e => same e /\ e_from e = i) edges;
  bs_indeg : forall i, degree (b_indeg b) i = Z.of_nat (length (into edges i));
  bs_ds : forall d, d ∈ b_ds b -> exists e, e ∈ edges /\ bandAt (e_to e) < bandAt (e_from e) /\
            d = BandContradiction (e_pos e) (e_opt e) (e_decl e);
  bs_bands : b_ds b = [] -> forall e, e ∈ edges -> bandAt (e_from e) <= bandAt (e_to e)
}.

Lemma degree_insert (deg : gmap nat Z) i d x : degree (<[i := d]> deg) x = if decide (x = i) then d else degree deg x.
Proof.
  unfold degree. case_decide as E; [subst; by rewrite lookup_insert_eq|by rewrite lookup_insert_ne].
Qed.

Lemma arcs_of_insert (graph : gmap nat (list mwEdge)) i es x :
  arcs_of (<[i := es]> graph) x = if decide (x = i) then es else arcs_of graph x.
Proof.
  unfold arcs_of. case_decide as E; [subst; by rewrite lookup_insert_eq|by rewrite lookup_insert_ne].
Qed.

Lemma filter_snoc {A} (P : A -> Prop) `{!forall x, Decision (P x)} l x :
  filter P (l ++ [x]) = filter P l ++ if decide (P x) then [x] else [].
Proof. rewrite filter_app, filter_cons, filter_nil. by case_decide. Qed.

Lemma bandEdges_spec labels edges : banded_spec edges (bandEdges decls labels edges).
Proof.
  induction edges as [|e edges IH] using rev_ind.
  { constructor; try done; [intros d H; by apply not_elem_of_nil in H|intros _ e H; by apply not_elem_of_nil in H]. }
  unfold bandEdges in *. rewrite fold_left_app. cbn [fold_left].
  set (b := fold_left _ edges _) in *. destruct IH as [HG HI HD HB].
  unfold addBanded. destruct (Nat.compare_spec (bandAt (e_from e)) (bandAt (e_to e))) as [E|E|E];
    constructor; cbn [b_graph b_indeg b_ds]; intros i; unfold into; rewrite ?filter_snoc.
  - rewrite arcs_of_insert, !HG. destruct (decide (i = e_from e)) as [->|Hne].
    + by rewrite (decide_True (P := same e /\ _)).
    + rewrite (decide_False (P := same e /\ _)) by (intros [_ ?]; by subst). by rewrite app_nil_r.
  - rewrite degree_insert, !HI, length_app. unfold into. destruct (decide (i = e_to e)) as [->|Hne].
    + rewrite (decide_True (P := same e /\ _)) by done. simpl. lia.
    + rewrite (decide_False (P := same e /\ _)) by (intros [_ ?]; by subst). simpl. lia.
  - intros (e' & He & H)%HD. exists e'. split; [apply elem_of_app; by left|done].
  - intros e' [He| ->%list_elem_of_singleton]%elem_of_app; [by apply HB|lia].
  - rewrite HG. rewrite (decide_False (P := same e /\ _)) by (unfold same; lia). by rewrite app_nil_r.
  - rewrite HI. rewrite (decide_False (P := same e /\ _)) by (unfold same; lia). by rewrite app_nil_r.
  - intros (e' & He & H)%HD. exists e'. split; [apply elem_of_app; by left|done].
  - intros e' [He| ->%list_elem_of_singleton]%elem_of_app; [by apply HB|lia].
  - rewrite HG. rewrite (decide_False (P := same e /\ _)) by (unfold same; lia). by rewrite app_nil_r.
  - rewrite HI. rewrite (decide_False (P := same e /\ _)) by (unfold same; lia). by rewrite app_nil_r.
  - intros [(e' & He & H)%HD| ->%list_elem_of_singleton]%elem_of_app.
    + exists e'. split; [apply elem_of_app; by left|done].
    + exists e. split_and!; [apply elem_of_app; right; left|lia|done].
  - by apply app_eq_nil in i as [_ ?].
Qed.

(** ** The sort of a band *)

Section Band.
Context (edges : list mwEdge) (graph : gmap nat (list mwEdge)) (b : nat) (members : list nat).
Hypothesis graph_spec : forall i, arcs_of graph i = filter (fun e => same e /\ e_from e = i) edges.
Hypothesis members_nodup : NoDup members.
Hypothesis members_band : forall x, x ∈ members -> bandAt x = b.

(** The edges into [x] from what is not out yet. *)
Definition waitsFor (out : list nat) (x : nat) : list mwEdge :=
  filter (fun e => e_from e ∉ out) (into edges x).

Record emit_inv (deg : gmap nat Z) (out : list nat) : Prop := {
  ei_nodup : NoDup out;
  ei_members : forall x, x ∈ out -> x ∈ members;
  ei_open : forall x, x ∈ members -> x ∉ out -> degree deg x = Z.of_nat (length (waitsFor out x));
  ei_out : forall x, x ∈ out -> (degree deg x < 0)%Z;
  ei_closed : forall l1 x l2, out = l1 ++ x :: l2 -> waitsFor l1 x = [];
  ei_ties : forall l1 x l2 y, out = l1 ++ x :: l2 -> before members y x -> y ∉ l1 -> waitsFor l1 y <> []
}.

Lemma degree_release deg es x :
  degree (fold_left (release decls b) es deg) x =
    if decide (bandAt x = b) then (degree deg x - Z.of_nat (length (filter (fun e => e_to e = x) es)))%Z
    else degree deg x.
Proof.
  revert deg. induction es as [|e es IH]; intros deg; cbn [fold_left]; [case_decide; cbn; lia|].
  rewrite IH, filter_cons. unfold release. case_bool_decide as EB.
  - rewrite degree_insert. repeat case_decide; simplify_eq/=; try lia; congruence.
  - repeat case_decide; simplify_eq/=; try lia; congruence.
Qed.

Lemma waitsFor_snoc out i x :
  i ∉ out -> length (waitsFor out x) =
    length (waitsFor (out ++ [i]) x) + length (filter (fun e => e_to e = x) (arcs_of graph i)).
Proof.
  intros Hi. rewrite graph_spec. unfold waitsFor.
  assert (E : filter (fun e => e_to e = x) (filter (fun e => same e /\ e_from e = i) edges) =
              filter (fun e => e_from e = i) (into edges x)).
  { unfold into. rewrite !list_filter_filter. apply list_filter_iff. tauto. }
  rewrite E. clear E. induction (into edges x) as [|e es IH]; [done|]. rewrite !filter_cons.
  assert (Ha : e_from e ∈ out ++ [i] <-> e_from e ∈ out \/ e_from e = i).
  { by rewrite elem_of_app, list_elem_of_singleton. }
  destruct (decide (e_from e = i)) as [Hf|Hf].
  - rewrite decide_True by congruence. rewrite decide_False by tauto. simpl. lia.
  - destruct (decide (e_from e ∉ out)) as [Ho|Ho].
    + rewrite decide_True by tauto. simpl. lia.
    + rewrite decide_False by tauto. done.
Qed.

Lemma list_find_before (P : nat -> Prop) `{!forall x, Decision (P x)} (l : list nat) k x y :
  NoDup l -> list_find P l = Some (k, x) -> before l y x -> ~ P y.
Proof.
  intros Hd (Hk & _ & Hf)%list_find_Some (l1 & l2 & l3 & ->).
  assert (Hk' : (l1 ++ y :: l2 ++ x :: l3) !! (length (l1 ++ y :: l2)) = Some x).
  { rewrite app_comm_cons, app_assoc. by apply list_lookup_middle. }
  pose proof (NoDup_lookup _ _ _ _ Hd Hk Hk') as ->.
  apply (Hf (length l1)); [by apply list_lookup_middle|]. rewrite length_app. simpl. lia.
Qed.

Lemma emit_step deg out k next :
  emit_inv deg out -> list_find (fun nd => degree deg nd = 0%Z) members = Some (k, next) ->
  emit_inv (fold_left (release decls b) (arcs_of graph next) (<[next := (-1)%Z]> deg)) (out ++ [next]).
Proof.
  intros [H1 H2 H3 H4 H5 H6] Hfind. pose proof Hfind as (Hk & Hz & Hfirst)%list_find_Some.
  assert (Hm : next ∈ members) by by eapply list_elem_of_lookup_2.
  assert (Ho : next ∉ out) by (intros ?%H4; lia).
  constructor.
  - apply NoDup_app. split_and!; [done| |apply NoDup_singleton]. by intros x Hx ->%list_elem_of_singleton.
  - intros x [Hx| ->%list_elem_of_singleton]%elem_of_app; auto.
  - intros x Hx Hn. rewrite elem_of_app, list_elem_of_singleton in Hn.
    rewrite degree_release, decide_True, degree_insert, decide_False by naive_solver.
    rewrite H3 by naive_solver. rewrite (waitsFor_snoc out next x Ho). lia.
  - intros x Hx. rewrite degree_release, decide_True, degree_insert.
    2:{ apply members_band. apply elem_of_app in Hx as [Hx| ->%list_elem_of_singleton]; auto. }
    case_decide; [lia|]. apply elem_of_app in Hx as [Hx| ->%list_elem_of_singleton]; [|done].
    specialize (H4 x Hx). lia.
  - intros l1 x l2 E. destruct l2 as [|z l2 _] using rev_ind.
    + apply app_inj_tail in E as [<- <-]. apply length_zero_iff_nil. specialize (H3 next Hm Ho). lia.
    + rewrite app_comm_cons, app_assoc in E. apply app_inj_tail in E as [E _]. by eapply H5.
  - intros l1 x l2 y E Hy Hn. destruct l2 as [|z l2 _] using rev_ind.
    + apply app_inj_tail in E as [<- <-].
      assert (Hym : y ∈ members).
      { destruct Hy as (k1 & k2 & k3 & ->). apply elem_of_app. right. left. }
      pose proof (list_find_before _ _ _ _ _ members_nodup Hfind Hy) as Hd. cbn in Hd.
      rewrite H3 in Hd by done. intros E. rewrite E in Hd. done.
    + rewrite app_comm_cons, app_assoc in E. apply app_inj_tail in E as [E _]. by eapply H6.
Qed.

Lemma emitReady_inv fuel deg out :
  emit_inv deg out -> length members <= fuel + length out ->
  let '(deg', out') := emitReady decls fuel graph b members deg out in
  emit_inv deg' out' /\ forall x, x ∈ members -> degree deg' x <> 0%Z.
Proof.
  revert deg out. induction fuel as [|fuel IH]; intros deg out I Hf; cbn [emitReady].
  - split; [done|]. intros x Hx.
    assert (Hp : out ≡ₚ members).
    { apply submseteq_length_Permutation; [|simpl in Hf; lia].
      apply NoDup_submseteq; [apply (ei_nodup _ _ I)|]. intros y. apply (ei_members _ _ I). }
    rewrite <-Hp in Hx. apply (ei_out _ _ I) in Hx. lia.
  - destruct (list_find _ members) as [[k next]|] eqn:EF.
    + apply IH; [by eapply emit_step|]. rewrite length_app. simpl. lia.
    + split; [done|]. apply list_find_None in EF. by rewrite Forall_forall in EF.
Qed.

(** What waits for nothing it is not given yet is not left. *)
Lemma emit_left deg out :
  emit_inv deg out -> (forall x, x ∈ members -> degree deg x <> 0%Z) ->
  let left := filter (fun nd => (0 < degree deg nd)%Z) members in
  out ++ left ≡ₚ members /\ (length out <? length members) = negb (bool_decide (left = [])) /\
  forall x, x ∈ left -> exists e, e ∈ into edges x /\ e_from e ∉ out.
Proof.
  intros I Hz left.
  assert (HL : forall x, x ∈ left <-> x ∈ members /\ x ∉ out).
  { intros x. unfold left. rewrite list_elem_of_filter. split.
    - intros [Hp Hm]. split; [done|]. intros Ho%(ei_out _ _ I). lia.
    - intros [Hm Ho]. split; [|done]. specialize (Hz x Hm). rewrite (ei_open _ _ I x Hm Ho) in *. lia. }
  assert (HP : out ++ left ≡ₚ members).
  { apply NoDup_Permutation; [|done|].
    - apply NoDup_app. split_and!; [apply (ei_nodup _ _ I)| |by apply NoDup_filter].
      intros x Hx [_ ?]%HL. done.
    - intros x. rewrite elem_of_app, HL. pose proof (ei_members _ _ I x). destruct (decide (x ∈ out)); tauto. }
  split_and!; [done| |].
  - apply Permutation_length in HP. rewrite length_app in HP.
    case_bool_decide as E; cbn [negb].
    + rewrite E in HP. simpl in HP. apply Nat.ltb_ge. lia.
    + apply Nat.ltb_lt. destruct left; [done|]. simpl in HP. lia.
  - intros x [Hm Ho]%HL. specialize (Hz x Hm). rewrite (ei_open _ _ I x Hm Ho) in Hz.
    destruct (waitsFor out x) as [|e es] eqn:E; [done|]. exists e.
    assert (He : e ∈ waitsFor out x) by (rewrite E; left). by apply list_elem_of_filter in He as [? ?].
Qed.
End Band.

(** ** One band *)

Lemma bandMembers_spec globals b x :
  x ∈ bandMembers decls globals b <-> x ∈ globals /\ bandAt x = b.
Proof.
  unfold bandMembers, sortDecls. rewrite elem_of_sort_by, list_elem_of_filter. tauto.
Qed.

Lemma bandMembers_nodup globals b : NoDup globals -> NoDup (bandMembers decls globals b).
Proof. intros H. unfold bandMembers, sortDecls. rewrite sort_by_perm. by apply NoDup_filter. Qed.

Lemma degree_indegrees indeg members deg x :
  x ∈ members \/ degree deg x = degree indeg x ->
  degree (fold_left (fun deg nd => <[nd := degree indeg nd]> deg) members deg) x = degree indeg x.
Proof.
  revert deg. induction members as [|m members IH]; intros deg; cbn [fold_left].
  { intros [H|H]; [by apply not_elem_of_nil in H|done]. }
  intros H. apply IH. rewrite degree_insert. case_decide; [subst; by right|].
  rewrite elem_of_cons in H. tauto.
Qed.

Lemma waitsFor_nil edges x : waitsFor edges [] x = into edges x.
Proof.
  unfold waitsFor. induction (into edges x) as [|e l IH]; [done|].
  rewrite filter_cons, decide_True by apply not_elem_of_nil. by rewrite IH.
Qed.

Lemma emit_init edges indeg members :
  (forall i, degree indeg i = Z.of_nat (length (into edges i))) -> emit_inv edges members (indegrees indeg members) [].
Proof.
  intros HI. constructor.
  - by apply NoDup_nil.
  - by intros x Hx%not_elem_of_nil.
  - intros x Hx _. unfold indegrees. rewrite degree_indegrees by by left. by rewrite waitsFor_nil.
  - by intros x Hx%not_elem_of_nil.
  - by intros [|? ?] ? ? E.
  - by intros [|? ?] ? ? ? E.
Qed.

(** The members of a band in an order that meets its edges, ties by declaration. *)
Definition band_good (edges : list mwEdge) (members added : list nat) : Prop :=
  forall l1 x l2, added = l1 ++ x :: l2 ->
    waitsFor edges l1 x = [] /\ forall y, before members y x -> y ∉ l1 -> waitsFor edges l1 y <> [].

Definition is_order_cycle (d : mwDiag) : Prop := match d with OrderCycle _ _ => True | _ => False end.

Section Cycles.
Context (globals : list nat) (edges : list mwEdge) (graph : gmap nat (list mwEdge)).
Hypothesis graph_spec : forall i, arcs_of graph i = filter (fun e => same e /\ e_from e = i) edges.
Hypothesis edges_globals : forall e, e ∈ edges -> e_from e ∈ globals /\ e_to e ∈ globals.
Hypothesis globals_range : forall i, i ∈ globals -> i < length decls.

Lemma stuck_arrow (stuck : list nat) x y :
  arrow e_to (fun nd => filter (fun e => e_to e ∈ stuck) (arcs_of graph nd)) x y ->
  isEdge edges x y /\ y ∈ stuck.
Proof.
  intros (e & [Hs He]%list_elem_of_filter & <-). rewrite graph_spec in He.
  apply list_elem_of_filter in He as [[_ Hf] He]. split; [by exists e|done].
Qed.

Lemma stuckCycle_spec (stuck : list nat) :
  (forall x, x ∈ stuck -> x ∈ globals) ->
  match stuckCycle decls stuck graph with
  | Some _ => exists c, cycle_in (isEdge edges) c
  | None => acyclic_in (fun x y => x ∈ stuck /\ y ∈ stuck /\ exists e, e ∈ into edges y /\ e_from e = x)
  end.
Proof.
  intros Hsub. unfold stuckCycle.
  set (arcs := fun nd => filter _ (arcs_of graph nd)).
  pose proof (cycleFrom_spec e_to arcs (length decls) (sortDecls decls stuck)) as H.
  assert (Hr : forall x y, arrow e_to arcs x y -> y < length decls).
  { intros x y [_ Hy]%stuck_arrow. by apply globals_range, Hsub. }
  assert (Hn : forall i, i ∈ sortDecls decls stuck -> i < length decls).
  { intros i Hi. unfold sortDecls in Hi. apply elem_of_sort_by in Hi. by apply globals_range, Hsub. }
  specialize (H Hr Hn). destruct (cycleFrom e_to arcs _ _) as [[ns es]|]; cbn.
  - exists ns. apply closed_walk_cycle in H. eapply cycle_in_mono; [|exact H].
    by intros i j [? _]%stuck_arrow.
  - eapply acyclic_in_mono; [|exact H]. cbn. intros i j (Hi & Hj & e & He & <-). split.
    + unfold sortDecls. by apply elem_of_sort_by.
    + apply list_elem_of_filter in He as [[Hs <-] He]. exists e. split; [|done].
      apply list_elem_of_filter. split; [done|]. rewrite graph_spec. by apply list_elem_of_filter.
Qed.

(** Members that are left and not condemned have a cycle. *)
Lemma left_cycle (members out left : list nat) :
  (forall x, x ∈ members <-> x ∈ globals /\ exists y, y ∈ members /\ bandAt x = bandAt y) ->
  out ++ left ≡ₚ members -> left <> [] ->
  (forall x, x ∈ left -> exists e, e ∈ into edges x /\ e_from e ∉ out) ->
  is_Some (stuckCycle decls left graph).
Proof.
  intros Hm HP Hne Hl.
  assert (Hsub : forall x, x ∈ left -> x ∈ members).
  { intros x Hx. rewrite <-HP. apply elem_of_app. by right. }
  pose proof (stuckCycle_spec left) as H.
  destruct (stuckCycle decls left graph); [by eexists|]. exfalso.
  eapply (sourceless_not_acyclic _ left); [done| |apply H].
  - cbn. intros x Hx. destruct (Hl x Hx) as (e & He & Ho). pose proof He as He'.
    apply list_elem_of_filter in He' as [[Hs <-] Hin].
    assert (e_from e ∈ left).
    { assert (Hf : e_from e ∈ members).
      { apply Hm. split; [by apply edges_globals|]. exists (e_to e). split; [by apply Hsub|done]. }
      rewrite <-HP in Hf. by apply elem_of_app in Hf as [?|?]. }
    exists (e_from e). split_and!; [done|done|done|by exists e].
  - intros x Hx%Hsub. by apply Hm in Hx as [? _].
Qed.

Definition reported_ok (o : sorted) : Prop :=
  o_reported o = true -> exists d, d ∈ o_ds o /\ is_order_cycle d.

Lemma cycleDiag_is cycle : is_order_cycle (cycleDiag cycle).
Proof. by destruct cycle. Qed.

Record band_sorted (members : list nat) (o o' : sorted) (added : list nat) : Prop := {
  bo_stack : o_stack o' = o_stack o ++ added;
  bo_perm : added ≡ₚ members;
  bo_old : forall d, d ∈ o_ds o -> d ∈ o_ds o';
  bo_new : forall d, d ∈ o_ds o' -> d ∈ o_ds o \/ is_order_cycle d /\ exists c, cycle_in (isEdge edges) c;
  bo_reported : reported_ok o -> reported_ok o';
  bo_good : condemned byName decls = [] -> reported_ok o ->
            (forall d, d ∈ o_ds o' -> ~ is_order_cycle d) -> band_good edges members added
}.

Lemma sortBand_spec bd b o :
  NoDup globals -> graph = b_graph bd ->
  (forall i, degree (b_indeg bd) i = Z.of_nat (length (into edges i))) ->
  exists added, band_sorted (bandMembers decls globals b) o (sortBand byName decls bd globals o b) added.
Proof.
  intros Hd Eg HI. unfold sortBand. rewrite <-Eg. clear Eg. set (members := bandMembers decls globals b).
  assert (Hb : forall x, x ∈ members -> bandAt x = b) by by intros x [_ ?]%bandMembers_spec.
  assert (Hmd : NoDup members) by by apply bandMembers_nodup.
  pose proof (emitReady_inv edges graph b members graph_spec Hmd Hb (length members) _ []
                (emit_init edges (b_indeg bd) members HI)) as HE.
  destruct (emitReady _ _ _ _ _ _ _) as [deg out]. destruct HE as [I Hz]; [simpl; lia|].
  destruct (emit_left edges members Hmd deg out I Hz) as (HP & HL & Hw). cbv zeta in *.
  set (left := filter _ members) in *. rewrite HL. case_bool_decide as EL; cbn [negb].
  - exists out. rewrite EL, app_nil_r in HP. constructor; cbn [o_stack o_ds o_reported]; auto.
    intros _ _ _ l1 x l2 E. split; [by eapply (ei_closed _ _ _ _ I)|]. intros y. by eapply (ei_ties _ _ _ _ I).
  - set (stuck := filter _ left). exists (out ++ left).
    assert (Hsub : forall x, x ∈ left -> x ∈ globals).
    { intros x [_ Hx]%list_elem_of_filter. by apply bandMembers_spec in Hx as [? _]. }
    assert (Hsub' : forall x, x ∈ stuck -> x ∈ globals).
    { intros x [_ Hx]%list_elem_of_filter. auto. }
    pose proof (stuckCycle_spec stuck Hsub') as HS.
    assert (Hfound : condemned byName decls = [] -> is_Some (stuckCycle decls stuck graph)).
    { intros Hc. assert (stuck = left) as ->.
      { unfold stuck. rewrite Hc. clear. induction left as [|x l IH]; [done|].
        rewrite filter_cons, decide_True by apply not_elem_of_nil. by rewrite IH. }
      apply (left_cycle members out); auto. intros x. unfold members. rewrite bandMembers_spec. split.
      - intros [Hx Hbx]. split; [done|]. exists x. rewrite bandMembers_spec. tauto.
      - intros [Hx (y & [_ Hy]%bandMembers_spec & E)]. split; [done|congruence]. }
    destruct (o_reported o) eqn:ER.
    + constructor; unfold reported_ok; cbn [o_stack o_ds o_reported]; rewrite ?app_nil_r; auto.
      intros _ HR Hno. destruct (HR ER) as (d & Hin & Hoc). by destruct (Hno d Hin).
    + destruct (stuckCycle decls stuck graph) as [cyc|]; constructor; unfold reported_ok;
        cbn [o_stack o_ds o_reported]; rewrite ?app_nil_r; auto; try done.
      * intros d Hin. apply elem_of_app. by left.
      * intros d [Hin| ->%list_elem_of_singleton]%elem_of_app; [by left|right].
        split; [apply cycleDiag_is|done].
      * intros _ _. exists (cycleDiag cyc). split; [apply elem_of_app; right; left|apply cycleDiag_is].
      * intros _ _ Hno. exfalso. apply (Hno (cycleDiag cyc)); [apply elem_of_app; right; left|apply cycleDiag_is].
      * intros Hc. by destruct (Hfound Hc).
Qed.
End Cycles.

(** ** The stack *)

Section Stack.
Context (globals : list nat) (labels : nat -> string).
Hypothesis Hn : names_ok.
Hypothesis Hg : globals_ok globals.

Let edges := c_edges (collect byName decls globals).
Let bd := bandEdges decls labels edges.
Notation members b := (bandMembers decls globals b).

Definition sortedBands : sorted :=
  fold_left (sortBand byName decls bd globals) [bandOuter; bandMiddle; bandInner] (mkSorted [] [] false).

Lemma edges_globals e : e ∈ edges -> e_from e ∈ globals /\ e_to e ∈ globals.
Proof.
  intros He. apply must_precede_globals; [done|done|]. apply collect_edges. by exists e.
Qed.

Lemma bands_sorted :
  exists a0 a1 a2, o_stack sortedBands = a0 ++ a1 ++ a2 /\
    a0 ≡ₚ members 0 /\ a1 ≡ₚ members 1 /\ a2 ≡ₚ members 2 /\
    (forall d, d ∈ o_ds sortedBands -> is_order_cycle d /\ exists c, cycle_in (isEdge edges) c) /\
    (condemned byName decls = [] -> (forall d, d ∈ o_ds sortedBands -> ~ is_order_cycle d) ->
       band_good edges (members 0) a0 /\ band_good edges (members 1) a1 /\ band_good edges (members 2) a2).
Proof.
  unfold sortedBands. cbn [fold_left]. destruct (bandEdges_spec labels edges) as [HG HI _ _]. fold bd in HG, HI.
  assert (Hr : forall i, i ∈ globals -> i < length decls) by (intros i Hi; by apply Hg in Hi as [? _]).
  pose proof (fun b o => sortBand_spec globals edges (b_graph bd) HG edges_globals Hr bd b o (proj1 Hg) eq_refl HI) as HS.
  destruct (HS bandOuter (mkSorted [] [] false)) as (a0 & B0).
  set (o0 := sortBand _ _ _ _ _ bandOuter) in *. destruct (HS bandMiddle o0) as (a1 & B1).
  set (o1 := sortBand _ _ _ _ _ bandMiddle) in *. destruct (HS bandInner o1) as (a2 & B2).
  set (o2 := sortBand _ _ _ _ _ bandInner) in *.
  assert (R0 : reported_ok (mkSorted [] [] false)) by done.
  pose proof (bo_reported _ _ _ _ _ B0 R0) as R1. pose proof (bo_reported _ _ _ _ _ B1 R1) as R2.
  exists a0, a1, a2. split_and!.
  - rewrite (bo_stack _ _ _ _ _ B2), (bo_stack _ _ _ _ _ B1), (bo_stack _ _ _ _ _ B0). cbn. by rewrite <-app_assoc.
  - apply B0.
  - apply B1.
  - apply B2.
  - intros d Hd. apply (bo_new _ _ _ _ _ B2) in Hd as [Hd|]; [|done].
    apply (bo_new _ _ _ _ _ B1) in Hd as [Hd|]; [|done].
    apply (bo_new _ _ _ _ _ B0) in Hd as [Hd|]; [|done]. by apply not_elem_of_nil in Hd.
  - intros Hc Hno. split_and!.
    + apply (bo_good _ _ _ _ _ B0); [done..|]. intros d Hd. apply Hno.
      by apply (bo_old _ _ _ _ _ B2), (bo_old _ _ _ _ _ B1).
    + apply (bo_good _ _ _ _ _ B1); [done..|]. intros d Hd. apply Hno. by apply (bo_old _ _ _ _ _ B2).
    + by apply (bo_good _ _ _ _ _ B2).
Qed.

Lemma band_range i : bandAt i = 0 \/ bandAt i = 1 \/ bandAt i = 2.
Proof. unfold band. destruct (mw_beforeAll (nodeAt i)), (mw_afterAll (nodeAt i)); auto. Qed.

Lemma bands_perm : members 0 ++ members 1 ++ members 2 ≡ₚ globals.
Proof.
  destruct Hg as [Hd _]. apply NoDup_Permutation; [|done|].
  - rewrite !NoDup_app. split_and!; try by apply bandMembers_nodup.
    + by intros x [_ E1]%bandMembers_spec [[_ E2]%bandMembers_spec|[_ E2]%bandMembers_spec]%elem_of_app; lia.
    + by intros x [_ E1]%bandMembers_spec [_ E2]%bandMembers_spec; lia.
  - intros x. rewrite !elem_of_app, !bandMembers_spec. pose proof (band_range x). tauto.
Qed.

Lemma stack_perm : o_stack sortedBands ≡ₚ globals.
Proof.
  destruct bands_sorted as (a0 & a1 & a2 & -> & H0 & H1 & H2 & _). by rewrite H0, H1, H2, bands_perm.
Qed.

Lemma band_members_perm b a x : a ≡ₚ members b -> x ∈ a <-> x ∈ globals /\ bandAt x = b.
Proof. intros ->. apply bandMembers_spec. Qed.

(** An edge within a band is met by a good order of it. *)
Lemma band_good_before b a x y :
  a ≡ₚ members b -> band_good edges (members b) a -> isEdge edges x y ->
  bandAt x = b -> bandAt y = b -> before a x y.
Proof.
  intros HP HB (e & He & <- & <-) Hx Hy.
  assert (Hin : e_to e ∈ a) by (apply (band_members_perm b); [done|]; by split; [apply edges_globals|]).
  apply list_elem_of_split in Hin as (l1 & l2 & ->). destruct (HB l1 (e_to e) l2 eq_refl) as [Hw _].
  destruct (decide (e_from e ∈ l1)) as [Hl|Hl].
  - apply list_elem_of_split in Hl as (k1 & k2 & ->). exists k1, k2, l2. by rewrite <-app_assoc.
  - exfalso. apply (not_elem_of_nil e). rewrite <-Hw. apply list_elem_of_filter. split; [done|].
    apply list_elem_of_filter. split; [|done]. split; [unfold same; congruence|done].
Qed.

Lemma StronglySorted_const (f : nat -> nat) b l :
  (forall x, x ∈ l -> f x = b) -> StronglySorted (fun x y => f x <= f y) l.
Proof.
  induction l as [|x l IH]; intros H; [constructor|]. constructor.
  - apply IH. intros y Hy. apply H. by right.
  - rewrite Forall_forall. intros y Hy. rewrite (H x), (H y); [done|by right|left].
Qed.

Lemma stack_ordered :
  condemned byName decls = [] -> b_ds bd = [] -> o_ds sortedBands = [] -> ordered globals (o_stack sortedBands).
Proof.
  intros Hc Hb Ho. pose proof stack_perm as HSP.
  destruct bands_sorted as (a0 & a1 & a2 & E & H0 & H1 & H2 & _ & HB). rewrite Ho in HB.
  destruct HB as (B0 & B1 & B2); [done|by intros d ?%not_elem_of_nil|].
  pose proof (band_members_perm 0 a0) as M0. pose proof (band_members_perm 1 a1) as M1.
  pose proof (band_members_perm 2 a2) as M2. constructor; [done|..].
  - rewrite E, !StronglySorted_app. split_and!.
    + intros x y [_ Hx]%M0; [|done]. rewrite elem_of_app, (M1 y H1), (M2 y H2). lia.
    + apply (StronglySorted_const _ 0). intros x [_ ?]%M0; done.
    + intros x y [_ Hx]%M1; [|done]. rewrite (M2 y H2). lia.
    + apply (StronglySorted_const _ 1). intros x [_ ?]%M1; done.
    + apply (StronglySorted_const _ 2). intros x [_ ?]%M2; done.
  - intros x y Hxy. destruct (must_precede_globals globals x y Hn Hg Hxy) as [Hx Hy].
    apply collect_edges in Hxy. fold edges in Hxy.
    assert (Hle : bandAt x <= bandAt y).
    { destruct Hxy as (e & He & <- & <-). by apply (bs_bands _ _ (bandEdges_spec labels edges)). }
    rewrite E. destruct (band_range x) as [Ex|[Ex|Ex]], (band_range y) as [Ey|[Ey|Ey]]; try lia.
    + by apply before_app_l, (band_good_before 0).
    + apply before_app; [by apply M0|]. apply elem_of_app. left. by apply M1.
    + apply before_app; [by apply M0|]. apply elem_of_app. right. by apply M2.
    + by apply before_app_r, before_app_l, (band_good_before 1).
    + apply before_app_r, before_app; [by apply M1|by apply M2].
    + by apply before_app_r, before_app_r, (band_good_before 2).
Qed.

Lemma members_earlier b x y :
  x ∈ members b -> y ∈ members b -> declLess (nodeAt y) (nodeAt x) = true -> before (members b) y x.
Proof.
  intros Hx Hy Hl. assert (Hyx : declCmp (nodeAt y) (nodeAt x) = Lt) by (unfold declLess in Hl; by destruct (declCmp _ _)).
  destruct (decide (x = y)) as [->|Hne]; [by rewrite (cmp_refl declCmp) in Hyx|].
  destruct (before_total (members b) x y Hx Hy Hne) as [H|H]; [|done]. exfalso.
  pose proof (sort_by_sorted (cmp_on nodeAt declCmp) (filter (fun g => bandAt g = b) globals)) as HS.
  eapply StronglySorted_before in HS; [|exact H]. apply HS. by apply (cmp_Lt_Gt declCmp).
Qed.

Lemma band_good_ties b pre a post l1 x l2 y :
  a ≡ₚ members b -> band_good edges (members b) a -> NoDup (pre ++ a ++ post) ->
  pre ++ a ++ post = l1 ++ x :: l2 -> bandAt x = b -> x ∈ a -> y ∈ a -> y ∈ l2 ->
  declLess (nodeAt y) (nodeAt x) = true -> exists z, z ∈ x :: l2 /\ must_precede globals z y.
Proof.
  intros HP HB Hd E Hbx Hx Hya Hy Hl. pose proof Hx as (k1 & k2 & ->)%list_elem_of_split.
  assert (E' : (pre ++ k1) ++ x :: k2 ++ post = l1 ++ x :: l2) by (rewrite <-E, <-!app_assoc; done).
  assert (Hd' : NoDup ((pre ++ k1) ++ x :: k2 ++ post)) by (rewrite <-app_assoc in Hd |- *; done).
  destruct (NoDup_split_unique _ _ _ _ _ Hd' E') as [<- <-].
  rewrite HP in Hx, Hya. destruct (HB k1 x k2 eq_refl) as [_ Ht].
  assert (Hyk : y ∉ k1).
  { intros Hin. apply NoDup_app in Hd' as (_ & Hdis & _). apply (Hdis y); [apply elem_of_app; by right|by right]. }
  specialize (Ht y (members_earlier b x y Hx Hya Hl) Hyk).
  destruct (waitsFor edges k1 y) as [|e es] eqn:EW; [done|].
  assert (He : e ∈ waitsFor edges k1 y) by (rewrite EW; left).
  apply list_elem_of_filter in He as [Hf [[Hs Hto] He]%list_elem_of_filter].
  exists (e_from e). split.
  - assert (Hin : e_from e ∈ k1 ++ x :: k2).
    { apply (band_members_perm b); [done|]. split; [by apply edges_globals|].
      apply bandMembers_spec in Hya as [_ Hby]. unfold same in Hs. congruence. }
    apply elem_of_app in Hin as [?|Hin]; [done|]. rewrite app_comm_cons. apply elem_of_app. by left.
  - apply collect_edges. by exists e.
Qed.

Lemma stack_ties :
  condemned byName decls = [] -> o_ds sortedBands = [] -> by_declaration globals (o_stack sortedBands).
Proof.
  intros Hc Ho l1 x l2 y E Hy Hb Hl. pose proof stack_perm as HSP.
  assert (Hd : NoDup (o_stack sortedBands)) by (rewrite HSP; apply Hg).
  assert (Hxg : x ∈ globals) by (rewrite <-HSP, E; apply elem_of_app; right; left).
  assert (Hyg : y ∈ globals) by (rewrite <-HSP, E; apply elem_of_app; right; by right).
  destruct bands_sorted as (a0 & a1 & a2 & E0 & H0 & H1 & H2 & _ & HB). rewrite Ho in HB.
  destruct HB as (B0 & B1 & B2); [done|by intros d ?%not_elem_of_nil|].
  rewrite E0 in E, Hd. destruct (band_range x) as [Ex|[Ex|Ex]]; rewrite Ex in Hb.
  - apply (band_good_ties 0 [] a0 (a1 ++ a2) l1 x l2 y); try done; by apply (band_members_perm 0).
  - apply (band_good_ties 1 a0 a1 a2 l1 x l2 y); try done; by apply (band_members_perm 1).
  - apply (band_good_ties 2 (a0 ++ a1) a2 [] l1 x l2 y); rewrite ?app_nil_r, <-?app_assoc; try done;
      by apply (band_members_perm 2).
Qed.
End Stack.

(** ** Cycles of requires= *)

Definition requiring (i j : nat) : Prop :=
  exists r, r ∈ mw_requires (nodeAt i) /\ byName !! ref_name r = Some j.

(** The trace of a cycle: its first node again at the end. *)
Definition closed_trace (cyc : list nat) : list nat := cyc ++ [default 0 (head cyc)].

Lemma requires_arrow ms i j : arrow id (requiresArcs byName decls ms) i j <-> requiring i j /\ j ∈ ms.
Proof.
  unfold arrow, requiresArcs, requiring. setoid_rewrite list_elem_of_omap. split.
  - intros (e & (r & Hr & H) & <-). destruct (byName !! ref_name r) as [t|] eqn:E; [|done].
    case_bool_decide; simplify_eq/=. eauto.
  - intros [(r & Hr & H) Hj]. exists j. split; [|done]. exists r. rewrite H, bool_decide_true by done. done.
Qed.

Lemma requiresCycle_spec ms :
  (forall x, x ∈ ms -> x < length decls) ->
  match requiresCycle byName decls ms with
  | Some cyc => cyc <> [] /\ (forall x, x ∈ cyc -> x ∈ ms) /\ cycle_in requiring (closed_trace cyc)
  | None => acyclic_in (fun i j => i ∈ ms /\ j ∈ ms /\ requiring i j)
  end.
Proof.
  intros Hr. unfold requiresCycle.
  pose proof (cycleFrom_spec id (requiresArcs byName decls ms) (length decls) (sortDecls decls ms)) as H.
  assert (HR : forall x y, arrow id (requiresArcs byName decls ms) x y -> y < length decls).
  { intros x y [_ Hy]%requires_arrow. auto. }
  assert (HN : forall i, i ∈ sortDecls decls ms -> i < length decls).
  { intros i Hi. unfold sortDecls in Hi. rewrite elem_of_sort_by in Hi. auto. }
  specialize (H HR HN). destruct (cycleFrom _ _ _ _) as [[ns es]|]; cbn.
  - assert (HF : Forall (fun x => x ∈ ms) ns).
    { eapply closed_walk_within; [|exact H]. intros e y He. eapply (proj1 (requires_arrow ms y e)). by exists e. }
    apply closed_walk_cycle in H. destruct H as [Hp (i & mid & ->)].
    rewrite app_comm_cons, removelast_last. split_and!; [done| |].
    + intros x Hx. rewrite Forall_forall in HF. apply HF. rewrite app_comm_cons. apply elem_of_app. by left.
    + split; [|by exists i, mid]. eapply path_in_mono; [|exact Hp]. by intros x y [? _]%requires_arrow.
  - eapply acyclic_in_mono; [|exact H]. cbn. intros i j (Hi & Hj & Hij). split.
    + unfold sortDecls. by rewrite elem_of_sort_by.
    + by apply requires_arrow.
Qed.

Definition disjoint_lists (c d : list nat) : Prop := forall x, x ∈ c -> x ∉ d.

Lemma requiresCycles_spec fuel ms :
  (forall x, x ∈ ms -> x < length decls) -> length ms <= fuel ->
  let '(cycles, rest) := requiresCycles byName decls fuel ms in
  (forall cyc, cyc ∈ cycles -> cyc <> [] /\ (forall x, x ∈ cyc -> x ∈ ms) /\ cycle_in requiring (closed_trace cyc)) /\
  StronglySorted disjoint_lists cycles /\
  (forall x, x ∈ rest <-> x ∈ ms /\ x ∉ concat cycles) /\
  acyclic_in (fun i j => i ∈ rest /\ j ∈ rest /\ requiring i j).
Proof.
  revert ms. induction fuel as [|fuel IH]; intros ms Hr Hf; cbn [requiresCycles].
  { destruct ms as [|m ms]; simpl in Hf; [|lia]. split_and!; [by intros c ?%not_elem_of_nil|constructor| |].
    - intros x. cbn. pose proof (not_elem_of_nil x). tauto.
    - exists (fun _ => 0). by intros i j [?%not_elem_of_nil _]. }
  pose proof (requiresCycle_spec ms Hr) as HC. destruct (requiresCycle byName decls ms) as [cyc|].
  - destruct HC as (Hne & Hin & Hcyc).
    assert (Hlt : length (filter (fun nd => nd ∉ cyc) ms) < length ms).
    { destruct cyc as [|c cyc]; [done|]. assert (Hc : c ∈ ms) by (apply Hin; left).
      clear -Hc. induction ms as [|m ms IH]; [by apply not_elem_of_nil in Hc|]. rewrite filter_cons.
      pose proof (length_filter (fun nd => nd ∉ c :: cyc) ms).
      case_decide as E; simpl; [|lia]. apply elem_of_cons in Hc as [<-|Hc]; [by destruct E; left|].
      specialize (IH Hc). lia. }
    assert (Hr' : forall x, x ∈ filter (fun nd => nd ∉ cyc) ms -> x < length decls).
    { intros x [_ Hx]%list_elem_of_filter. auto. }
    specialize (IH _ Hr' ltac:(lia)).
    destruct (requiresCycles byName decls fuel (filter (fun nd => nd ∉ cyc) ms)) as [cycles rest].
    destruct IH as (H1 & H2 & H3 & H4). split_and!; [| | |done].
    + intros c [->|Hc]%elem_of_cons; [done|]. destruct (H1 c Hc) as (? & Hc1 & ?). split_and!; [done| |done].
      intros x Hx%Hc1. by apply list_elem_of_filter in Hx as [_ ?].
    + constructor; [done|]. rewrite Forall_forall. intros c Hc x Hx Hxc. destruct (H1 c Hc) as (_ & Hc1 & _).
      apply Hc1 in Hxc. by apply list_elem_of_filter in Hxc as [? _].
    + intros x. rewrite H3, list_elem_of_filter. cbn. rewrite elem_of_app. tauto.
  - split_and!; [by intros c ?%not_elem_of_nil|constructor| |done].
    intros x. cbn. pose proof (not_elem_of_nil x). tauto.
Qed.

Lemma allCycles_spec :
  (forall cyc, cyc ∈ allCycles byName decls ->
     cyc <> [] /\ (forall x, x ∈ cyc -> x < length decls) /\ cycle_in requiring (closed_trace cyc)) /\
  StronglySorted disjoint_lists (allCycles byName decls) /\
  acyclic_in (fun i j => (i < length decls /\ i ∉ condemned byName decls) /\
                         (j < length decls /\ j ∉ condemned byName decls) /\ requiring i j).
Proof.
  pose proof (requiresCycles_spec (length decls) (allDecls decls)) as H.
  assert (Hr : forall x, x ∈ allDecls decls -> x < length decls) by (intros x ?%elem_of_seq; lia).
  specialize (H Hr). unfold allDecls at 1 in H. rewrite length_seq in H. specialize (H ltac:(lia)).
  unfold condemned, allCycles. destruct (requiresCycles byName decls (length decls) (allDecls decls)) as [cycles rest].
  destruct H as (H1 & H2 & H3 & H4). cbn [fst]. split_and!; [|done|].
  - intros c Hc. destruct (H1 c Hc) as (? & ? & ?). eauto.
  - eapply acyclic_in_mono; [|exact H4]. cbn. intros i j ([Hi1 Hi2] & [Hj1 Hj2] & Hij).
    rewrite !H3. unfold allDecls. rewrite !elem_of_seq. split_and!; try done; lia.
Qed.

(** ** Diagnostics *)

Lemma pass_ds (add : collected -> mwRef -> collected) (P : mwDiag -> Prop) rs c :
  (forall c r d, d ∈ c_ds (add c r) -> d ∈ c_ds c \/ P d) ->
  forall d, d ∈ c_ds (fold_left add rs c) -> d ∈ c_ds c \/ P d.
Proof.
  intros H. revert c. induction rs as [|r rs IH]; intros c d; cbn [fold_left]; [by left|].
  intros [Hd|]%IH; [|by right]. eauto.
Qed.

Definition soft_error (d : mwDiag) : Prop :=
  match d with AfterNotGlobal _ _ | BeforeNotGlobal _ _ => True | _ => False end.

Lemma collect_ds globals d : d ∈ c_ds (collect byName decls globals) -> soft_error d.
Proof.
  unfold collect.
  assert (H : forall gs c, d ∈ c_ds (fold_left (addGlobal byName decls) gs c) -> d ∈ c_ds c \/ soft_error d).
  { induction gs as [|g gs IH]; intros c; cbn [fold_left]; [by left|]. intros [Hd|]%IH; [|by right].
    unfold addGlobal in Hd. repeat (apply (pass_ds _ soft_error) in Hd as [Hd|]; [|by right|]); [by left|..];
      clear; intros c r d; unfold addRequires, addAfter, addBefore; destruct (byName !! ref_name r) as [t|];
      try destruct (mw_global (nodeAt t)); cbn; rewrite ?elem_of_app, ?list_elem_of_singleton; try tauto;
      intros [?| ->]; [by left|by right|by left|by right]. }
  intros [Hd|]%H; [|done]. cbn in Hd. by apply not_elem_of_nil in Hd.
Qed.

Lemma validateDecls_cases used d :
  d ∈ validateDecls byName decls used <->
  (exists i, i < length decls /\ d ∈ declDiags byName decls used i) \/
  (exists cyc, cyc ∈ allCycles byName decls /\ d = requiresCycleDiag byName decls cyc).
Proof.
  unfold validateDecls. rewrite elem_of_app, list_elem_of_fmap.
  assert (H : d ∈ concat (map (declDiags byName decls used) (allDecls decls)) <->
              exists i, i < length decls /\ d ∈ declDiags byName decls used i).
  { rewrite list_elem_of_In, in_concat. split.
    - intros (l & (i & <- & Hi)%in_map_iff & Hd). exists i. rewrite list_elem_of_In. split; [|done].
      apply in_seq in Hi. lia.
    - intros (i & Hi & Hd). exists (declDiags byName decls used i). rewrite list_elem_of_In in Hd. split; [|done].
      apply in_map_iff. exists i. split; [done|]. apply in_seq. lia. }
  rewrite H. naive_solver.
Qed.

Lemma declDiags_cases used i d :
  d ∈ declDiags byName decls used i ->
  match d with
  | UnknownRequire _ _ | RequireNotGlobal _ _ _ | Inert _ _ | NeverReferenced _ _ => True
  | _ => False
  end.
Proof.
  unfold declDiags, requireDiags. rewrite !elem_of_app, list_elem_of_omap.
  intros [(r & _ & Hd)|[Hd|Hd]].
  - destruct (byName !! _); [destruct (_ && _)|]; by simplify_eq/=.
  - destruct (_ && _); [apply list_elem_of_singleton in Hd as ->; done|by apply not_elem_of_nil in Hd].
  - destruct (_ && _); [apply list_elem_of_singleton in Hd as ->; done|by apply not_elem_of_nil in Hd].
Qed.

(** A declaration without errors requires what is declared, a global what is global. *)
Lemma requireDiags_none used i :
  (forall d, d ∈ declDiags byName decls used i -> match d with UnknownRequire _ _ | RequireNotGlobal _ _ _ => False | _ => True end) ->
  forall r, r ∈ mw_requires (nodeAt i) ->
  exists t, byName !! ref_name r = Some t /\ (mw_global (nodeAt i) = true -> mw_global (nodeAt t) = true).
Proof.
  intros H r Hr.
  assert (HD : forall d, (match byName !! ref_name r with
                 | None => Some (UnknownRequire (ref_pos r) (ref_name r))
                 | Some target =>
                     if mw_global (nodeAt i) && negb (mw_global (nodeAt target))
                     then Some (RequireNotGlobal (ref_pos r) i (ref_name r)) else None
                 end) = Some d -> d ∈ declDiags byName decls used i).
  { intros d E. unfold declDiags, requireDiags. apply elem_of_app. left. apply list_elem_of_omap. eauto. }
  destruct (byName !! ref_name r) as [t|]; [|by destruct (H _ (HD _ eq_refl))].
  exists t. split; [done|]. intros Hi. rewrite Hi in HD.
  destruct (mw_global (nodeAt t)); [done|]. by destruct (H _ (HD _ eq_refl)).
Qed.

(** ** Chains *)

Definition resolved (out : list nat) : Prop :=
  forall l1 nd l2, out = l1 ++ nd :: l2 -> forall r t, r ∈ mw_requires (nodeAt nd) ->
    byName !! ref_name r = Some t -> mw_global (nodeAt t) = true \/ t ∈ l1.

Lemma resolve_spec refs used out used' :
  resolve byName decls refs used = (out, used', []) ->
  resolved out /\
  Forall2 (fun ref i => byName !! ref_name ref = Some i /\ mw_global (nodeAt i) = false) refs out /\
  used' = list_to_set out ∪ used.
Proof.
  revert out used'. induction refs as [|ref refs IH] using rev_ind; intros out used'.
  { unfold resolve. cbn. intros [= <- <-]. split_and!; [by intros [|? ?]|constructor|set_solver]. }
  unfold resolve in *. rewrite fold_left_app. cbn [fold_left].
  destruct (fold_left (resolveRef byName decls) refs ([], used, [])) as [[out0 used0] ds0].
  unfold resolveRef. destruct (byName !! ref_name ref) as [nd|] eqn:EN.
  2:{ intros [= _ _ E]. by apply app_eq_nil in E as [_ ?]. }
  destruct (mw_global (nodeAt nd)) eqn:EG; [intros [= _ _ E]; by apply app_eq_nil in E as [_ ?]|].
  intros [= <- <- E]. apply app_eq_nil in E as [-> Hm].
  destruct (IH out0 used0 eq_refl) as (HR & HF & ->). split_and!.
  - intros l1 x l2 E r t Hr Ht. destruct l2 as [|y l2 _] using rev_ind.
    + apply app_inj_tail in E as [<- <-].
      destruct (mw_global (nodeAt t)) eqn:Et; [by left|right].
      destruct (decide (t ∈ out0)) as [|Hn]; [done|]. exfalso.
      eapply not_elem_of_nil. rewrite <-Hm. apply list_elem_of_omap. exists r. split; [done|].
      rewrite Ht, Et, bool_decide_false by done. done.
    + rewrite app_comm_cons, app_assoc in E. apply app_inj_tail in E as [E _]. by eapply HR.
  - apply Forall2_app; [done|]. by repeat constructor.
  - rewrite list_to_set_app_L. set_solver.
Qed.
End Spec.

(** ** The middleware of a program *)

(** The names and globals of a program's middleware agree with its declarations. *)
Definition mw_ok (m : Middleware) : Prop :=
  names_ok (m_byName m) (m_decls m) /\ globals_ok (m_decls m) (m_globals m).

(** The checked declarations, emitted in some order. *)
Definition declared (nds : list mwNode) : Middleware :=
  fold_left (fun m nd => fst (declare m nd)) nds NewMiddleware.
Definition built (nds : list mwNode) (order : list nat) : Middleware := fold_left emit order (declared nds).

Definition stack (m : Middleware) (labels : nat -> string) : list nat :=
  map fst (r_stack (fst (resolveOrder (m_byName m) (m_decls m) (m_globals m) labels))).

Definition is_order_error (d : mwDiag) : Prop :=
  match d with BandContradiction _ _ _ | OrderCycle _ _ | RequiresCycle _ _ => True | _ => False end.

Definition is_error (d : mwDiag) : Prop := match d with NeverReferenced _ _ => False | _ => True end.

Lemma lookup_total_snoc_l (l : list mwNode) x i : i < length l -> (l ++ [x]) !!! i = l !!! i.
Proof. intros H. by rewrite lookup_total_app_l. Qed.

Lemma declared_ok nds :
  let m := declared nds in names_ok (m_byName m) (m_decls m) /\ m_globals m = [] /\ m_used m = ∅.
Proof.
  induction nds as [|nd nds (IH & HG & HU)] using rev_ind.
  { done. }
  unfold declared in *. rewrite fold_left_app. cbn [fold_left].
  set (m := fold_left _ nds NewMiddleware) in *. cbv zeta in *. unfold declare.
  assert (Hold : forall n i, m_byName m !! n = Some i ->
            i < length (m_decls m ++ [nd]) /\ mw_name (nodeAt (m_decls m ++ [nd]) i) = n).
  { intros n i [Hi Hn]%IH. rewrite length_app. split; [lia|]. unfold nodeAt in *. by rewrite lookup_total_snoc_l. }
  case_bool_decide; [cbn; split_and!; [by constructor|done|done]|].
  destruct (m_byName m !! mw_name nd) eqn:E; [done|]. cbn. split_and!; [constructor|done|done].
  intros n i [[<- <-]|[Hne Hi]]%lookup_insert_Some; [|by apply Hold].
  rewrite length_app. simpl. split; [lia|]. unfold nodeAt. by rewrite list_lookup_total_middle.
Qed.

Lemma emits_spec order m :
  let m' := fold_left emit order m in
  m_byName m' = m_byName m /\ m_decls m' = m_decls m /\
  m_globals m' = m_globals m ++ filter (fun i => mw_global (m_decls m !!! i) = true) order.
Proof.
  revert m. induction order as [|i order IH]; intros m; cbn [fold_left]; [by rewrite app_nil_r|].
  destruct (IH (emit m i)) as (-> & -> & ->). unfold emit. rewrite filter_cons.
  destruct (mw_global (m_decls m !!! i)) eqn:E; cbn.
  - rewrite decide_True by done. by rewrite <-app_assoc.
  - rewrite decide_False by congruence. done.
Qed.

Lemma built_ok nds order :
  order ≡ₚ seq 0 (length (m_decls (declared nds))) -> mw_ok (built nds order).
Proof.
  intros HP. unfold built. destruct (emits_spec order (declared nds)) as (E1 & E2 & E3).
  destruct (declared_ok nds) as (Hn & HG & _). unfold mw_ok. rewrite E1, E2, E3, HG. split; [done|].
  cbn [app]. split.
  - apply NoDup_filter. rewrite HP. apply NoDup_seq.
  - intros i. rewrite list_elem_of_filter, HP, elem_of_seq. unfold nodeAt. intuition lia.
Qed.

Section Validated.
Context (m : Middleware) (labels : nat -> string).
Hypothesis Hok : mw_ok m.

Notation globals := (m_globals m).
Notation precedes := (must_precede (m_byName m) (m_decls m) globals).
Notation edges := (c_edges (collect (m_byName m) (m_decls m) globals)).

Lemma stack_sorted : stack m labels = o_stack (sortedBands (m_byName m) (m_decls m) globals labels).
Proof. unfold stack, resolveOrder. cbn [fst r_stack]. rewrite map_map. by rewrite map_id. Qed.

Lemma Validate_cases d :
  d ∈ Validate m labels <->
  d ∈ c_ds (collect (m_byName m) (m_decls m) globals) \/
  d ∈ b_ds (bandEdges (m_decls m) labels edges) \/
  d ∈ o_ds (sortedBands (m_byName m) (m_decls m) globals labels) \/
  d ∈ validateDecls (m_byName m) (m_decls m) (m_used m).
Proof.
  unfold Validate, resolveOrder. cbn [snd]. rewrite !elem_of_app.
  change (fold_left _ _ _) with (sortedBands (m_byName m) (m_decls m) globals labels). tauto.
Qed.

Lemma requiresCycleDiag_is cyc :
  exists pos, requiresCycleDiag (m_byName m) (m_decls m) cyc = RequiresCycle pos (closed_trace cyc).
Proof. by eexists. Qed.

Lemma no_order_error :
  (forall d, d ∈ Validate m labels -> ~ is_order_error d) ->
  ordered (m_byName m) (m_decls m) globals (stack m labels) /\
  by_declaration (m_byName m) (m_decls m) globals (stack m labels).
Proof.
  intros H. destruct Hok as [Hn Hg]. rewrite stack_sorted.
  assert (Hc : condemned (m_byName m) (m_decls m) = []).
  { unfold condemned. destruct (allCycles (m_byName m) (m_decls m)) as [|cyc cs] eqn:E; [done|]. exfalso.
    apply (H (requiresCycleDiag (m_byName m) (m_decls m) cyc)); [|done].
    apply Validate_cases. do 3 right. apply validateDecls_cases. right. exists cyc. rewrite E. split; [left|done]. }
  assert (Hb : b_ds (bandEdges (m_decls m) labels edges) = []).
  { destruct (b_ds _) as [|d ds] eqn:E; [done|]. exfalso.
    assert (Hd : d ∈ b_ds (bandEdges (m_decls m) labels edges)) by (rewrite E; left).
    apply (H d); [apply Validate_cases; tauto|].
    by apply (bs_ds _ _ _ (bandEdges_spec (m_decls m) labels edges)) in Hd as (e & _ & _ & ->). }
  assert (Ho : o_ds (sortedBands (m_byName m) (m_decls m) globals labels) = []).
  { destruct (o_ds _) as [|d ds] eqn:E; [done|]. exfalso.
    assert (Hd : d ∈ o_ds (sortedBands (m_byName m) (m_decls m) globals labels)) by (rewrite E; left).
    apply (H d); [apply Validate_cases; tauto|].
    destruct (bands_sorted _ _ globals labels Hn Hg) as (_ & _ & _ & _ & _ & _ & _ & Hd' & _).
    apply Hd' in Hd as [Hoc _]. by destruct d. }
  split; [by apply stack_ordered|by apply stack_ties].
Qed.

Lemma ordered_nodup l : ordered (m_byName m) (m_decls m) globals l -> NoDup l.
Proof. intros HO. rewrite (or_perm _ _ _ _ HO). apply Hok. Qed.

(** An order that meets the constraints rules the order errors out. *)
Lemma no_edge_cycle l c :
  ordered (m_byName m) (m_decls m) globals l -> ~ cycle_in (isEdge edges) c.
Proof.
  intros HO HC. eapply (cycle_in_not_acyclic precedes).
  - eapply cycle_in_mono; [|exact HC]. intros x y. apply collect_edges.
  - apply (before_acyclic _ l); [by apply ordered_nodup|]. left. apply (or_constraints _ _ _ _ HO).
Qed.

Lemma no_global_requires_cycle l cyc :
  ordered (m_byName m) (m_decls m) globals l -> cyc ∈ allCycles (m_byName m) (m_decls m) ->
  exists x, x ∈ closed_trace cyc /\ mw_global (nodeAt (m_decls m) x) = false.
Proof.
  intros HO Hcyc. destruct (allCycles_spec (m_byName m) (m_decls m)) as (HA & _ & _).
  destruct (HA cyc Hcyc) as (Hne & Hr & Hp & Hsh).
  destruct (decide (Exists (fun x => mw_global (nodeAt (m_decls m) x) = false) (closed_trace cyc))) as [HE|HE].
  { by apply Exists_exists in HE. }
  exfalso. apply (cycle_in_not_acyclic (fun i j => precedes j i) (closed_trace cyc)).
  - split; [|done]. intros l1 x y l2 E. left.
    assert (Hg : forall z, z ∈ closed_trace cyc -> z ∈ globals /\ mw_global (nodeAt (m_decls m) z) = true).
    { intros z Hz. assert (Ez : mw_global (nodeAt (m_decls m) z) = true).
      { destruct (mw_global (nodeAt (m_decls m) z)) eqn:Ez; [done|]. destruct HE. apply Exists_exists. eauto. }
      split; [|done]. apply Hok. split; [|done]. apply elem_of_app in Hz as [Hz|Hz]; [auto|].
      apply list_elem_of_singleton in Hz as ->. destruct cyc; [done|]. apply Hr. left. }
    split; [apply Hg; rewrite E; apply elem_of_app; right; left|]. left.
    destruct (Hp l1 x y l2 E) as (r & Hr1 & Hr2). exists r. split_and!; [done|done|].
    apply Hg. rewrite E. apply elem_of_app. right. right. left.
  - apply (before_acyclic _ l); [by apply ordered_nodup|]. right. intros i j Hij.
    by apply (or_constraints _ _ _ _ HO).
Qed.

Lemma ordered_no_error l d :
  ordered (m_byName m) (m_decls m) globals l -> d ∈ Validate m labels -> is_order_error d ->
  exists pos trace x, d = RequiresCycle pos trace /\ x ∈ trace /\ mw_global (nodeAt (m_decls m) x) = false.
Proof.
  intros HO [Hd|[Hd|[Hd|Hd]]]%Validate_cases He.
  - apply collect_ds in Hd. by destruct d.
  - exfalso. apply (bs_ds _ _ _ (bandEdges_spec (m_decls m) labels edges)) in Hd as (e & He' & Hlt & ->).
    assert (HB : before l (e_from e) (e_to e)).
    { apply (or_constraints _ _ _ _ HO), collect_edges. by exists e. }
    pose proof (StronglySorted_before _ _ _ _ (or_bands _ _ _ _ HO) HB) as Hle. cbn in Hle. lia.
  - exfalso. destruct Hok as [Hn Hg].
    destruct (bands_sorted _ _ globals labels Hn Hg) as (_ & _ & _ & _ & _ & _ & _ & Hd' & _).
    apply Hd' in Hd as (_ & c & Hc). by apply (no_edge_cycle l c).
  - apply validateDecls_cases in Hd as [(i & _ & Hd%declDiags_cases)|(cyc & Hcyc & ->)]; [by destruct d|].
    destruct (no_global_requires_cycle l cyc HO Hcyc) as (x & Hx & Hg). eexists _, _, x. by split_and!.
Qed.
End Validated.

(** C8: the global middleware stack is exact. It has every global once. When no
    contradiction or cycle is reported, it meets every band, requires=, after= and
    before=, and ties go to the earlier declaration; and when some order of the globals
    meets them all, none is reported but for a requires= cycle through middleware that
    is not global. *)
Theorem middleware_order_is_exact m labels :
  mw_ok m ->
  stack m labels ≡ₚ m_globals m /\
  ((forall d, d ∈ Validate m labels -> ~ is_order_error d) ->
   ordered (m_byName m) (m_decls m) (m_globals m) (stack m labels) /\
   by_declaration (m_byName m) (m_decls m) (m_globals m) (stack m labels)) /\
  (forall l, ordered (m_byName m) (m_decls m) (m_globals m) l ->
   forall d, d ∈ Validate m labels -> is_order_error d ->
   exists pos trace x, d = RequiresCycle pos trace /\ x ∈ trace /\ mw_global (nodeAt (m_decls m) x) = false).
Proof.
  intros Hok. split_and!.
  - rewrite stack_sorted. destruct Hok as [Hn Hg]. by apply stack_perm.
  - by apply no_order_error.
  - intros l HO d. by apply (ordered_no_error m labels Hok l).
Qed.

Lemma app_split {A} (a b l1 l2 : list A) x :
  a ++ b = l1 ++ x :: l2 ->
  (exists k, a = l1 ++ x :: k /\ l2 = k ++ b) \/ (exists k, l1 = a ++ k /\ b = k ++ x :: l2).
Proof.
  revert a. induction l1 as [|y l1 IH]; intros [|z a] E.
  - right. by exists [].
  - injection E as -> E. left. by exists a.
  - right. by exists (y :: l1).
  - injection E as -> E. destruct (IH a E) as [(k & -> & ->)|(k & -> & ->)]; [left|right]; by exists k.
Qed.

(** Middleware runs after what it requires. When validation reports no error and a
    route's chain resolves, every middleware of the route's whole run (the global stack,
    then its chain) comes after each middleware it requires. *)
Theorem requirements_run_earlier m labels refs out used :
  mw_ok m -> (forall d, d ∈ Validate m labels -> ~ is_error d) ->
  resolve (m_byName m) (m_decls m) refs (m_used m) = (out, used, []) ->
  forall l1 nd l2 r, stack m labels ++ out = l1 ++ nd :: l2 -> r ∈ mw_requires (nodeAt (m_decls m) nd) ->
  exists t, m_byName m !! ref_name r = Some t /\ t ∈ l1.
Proof.
  intros Hok Hno HR l1 nd l2 r E Hr. pose proof Hok as [[Hn] [_ Hg]].
  destruct (resolve_spec _ _ _ _ _ _ HR) as (Hres & HF & _).
  assert (Hord : ordered (m_byName m) (m_decls m) (m_globals m) (stack m labels)).
  { apply no_order_error; [done|]. intros d Hd. specialize (Hno d Hd). by destruct d. }
  pose proof (or_perm _ _ _ _ Hord) as HP.
  assert (Hreq : nd < length (m_decls m) -> exists t, m_byName m !! ref_name r = Some t /\
            (mw_global (nodeAt (m_decls m) nd) = true -> mw_global (nodeAt (m_decls m) t) = true)).
  { intros Hlt. apply (requireDiags_none _ _ (m_used m)); [|done]. intros d Hd.
    specialize (Hno d). assert (Hd' : d ∈ Validate m labels).
    { apply Validate_cases. do 3 right. apply validateDecls_cases. left. by exists nd. }
    specialize (Hno Hd'). by destruct d. }
  apply app_split in E as [(k & E & ->)|(k & -> & E)].
  - assert (Hnd : nd ∈ m_globals m) by (rewrite <-HP, E; apply elem_of_app; right; left).
    pose proof Hnd as [Hlt Hgl]%Hg. destruct (Hreq Hlt) as (t & Ht & Htg). exists t. split; [done|].
    assert (HB : before (stack m labels) t nd).
    { apply (or_constraints _ _ _ _ Hord). left. split; [done|]. left. exists r. auto. }
    assert (HD : NoDup (stack m labels)) by (rewrite HP; apply Hok).
    destruct HB as (m1 & m2 & m3 & E2). rewrite E2 in HD.
    change (m1 ++ t :: m2 ++ nd :: m3) with (m1 ++ (t :: m2) ++ nd :: m3) in *.
    rewrite app_assoc in HD, E2. rewrite E in E2.
    destruct (NoDup_split_unique _ _ _ _ _ HD (eq_sym E2)) as [<- _].
    apply elem_of_app. right. left.
  - assert (Hnd : nd ∈ out) by (rewrite E; apply elem_of_app; right; left).
    apply list_elem_of_lookup in Hnd as (p & Hp).
    destruct (Forall2_lookup_r _ _ _ _ _ HF Hp) as (ref & _ & Href & _).
    destruct (Hn _ _ Href) as [Hlt _]. destruct (Hreq Hlt) as (t & Ht & _). exists t. split; [done|].
    apply elem_of_app. destruct (Hres k nd l2 E r t Hr Ht) as [Htg|Hk]; [left|by right].
    rewrite HP. apply Hg. split; [|done]. by destruct (Hn _ _ Ht).
Qed.

Lemma closed_trace_elem cyc x : cyc <> [] -> x ∈ closed_trace cyc <-> x ∈ cyc.
Proof.
  intros Hne. unfold closed_trace. rewrite elem_of_app, list_elem_of_singleton.
  split; [|by left]. intros [?| ->]; [done|]. destruct cyc; [done|]. left.
Qed.

Definition requires_trace (d : mwDiag) : option (list nat) :=
  match d with RequiresCycle _ trace => Some trace | _ => None end.

Lemma traces_spec byName decls used :
  omap requires_trace (validateDecls byName decls used) = closed_trace <$> allCycles byName decls.
Proof.
  unfold validateDecls. rewrite omap_app.
  assert (HD : forall ds, (forall d, d ∈ ds -> requires_trace d = None) -> omap requires_trace ds = []).
  { intros ds. induction ds as [|d ds IH]; intros H; [done|]. cbn. rewrite (H d) by left.
    apply IH. intros d' Hd'. apply H. by right. }
  rewrite HD.
  - cbn. induction (allCycles byName decls) as [|c cs IH]; [done|]. cbn. by rewrite <-IH.
  - intros d (l & (i & -> & _)%list_elem_of_fmap & Hd)%elem_of_concat.
    apply declDiags_cases in Hd. by destruct d.
Qed.

(** Every cycle of requires= is reported. The reported cycles are real and share no
    node, and what they leave of the declarations has no cycle. *)
Theorem requires_cycles_are_reported m :
  let traces := omap requires_trace (validateDecls (m_byName m) (m_decls m) (m_used m)) in
  (forall trace, trace ∈ traces -> cycle_in (requiring (m_byName m) (m_decls m)) trace) /\
  StronglySorted disjoint_lists traces /\
  acyclic_in (fun i j => i < length (m_decls m) /\ j < length (m_decls m) /\
    i ∉ concat traces /\ j ∉ concat traces /\ requiring (m_byName m) (m_decls m) i j).
Proof.
  rewrite traces_spec. destruct (allCycles_spec (m_byName m) (m_decls m)) as (H1 & H2 & H3).
  assert (Hel : forall cyc x, cyc ∈ allCycles (m_byName m) (m_decls m) -> x ∈ closed_trace cyc <-> x ∈ cyc).
  { intros cyc x Hc. apply closed_trace_elem. by apply H1. }
  cbv zeta. split_and!.
  - intros trace (cyc & -> & Hc)%list_elem_of_fmap. by apply H1.
  - clear H3. induction H2 as [|c cs HS IH HF]; [constructor|]. constructor.
    + apply IH; [intros d Hd; apply H1; by right|intros d x Hd; apply Hel; by right].
    + rewrite Forall_forall in HF |- *. intros t (d & -> & Hd)%list_elem_of_fmap x Hx Hxd.
      rewrite Hel in Hx, Hxd by (by left || by right). by apply (HF d Hd x).
  - eapply acyclic_in_mono; [|exact H3]. cbn. intros i j (Hi & Hj & Hni & Hnj & Hij).
    assert (HC : forall x, x ∈ condemned (m_byName m) (m_decls m) -> x ∈ concat (closed_trace <$> allCycles (m_byName m) (m_decls m))).
    { intros x (c & Hc & Hx)%elem_of_concat. apply elem_of_concat. exists (closed_trace c).
      split; [by apply list_elem_of_fmap_2|]. by apply Hel. }
    split_and!; auto.
Qed.
