(* ===== verification/Router.v ===== *)
(** The router of src/router/router.go: registration on scopes, mounting, the chains of
    middleware, the error hooks and the freeze on first use.

    A handler is what it calls on its ResponseWriter for a request; a nil handler and a
    typed nil are both [None]. A middleware is a function of handlers, a nil one [None].
    A call that panics leaves the state it had reached, so every operation gives a state
    and perhaps a panic. [http.ServeMux] is used through the class [ServeMux]. Scopes are
    values: a child has its own copy of the middleware in scope. Response writer
    interfaces (flushing, hijacking) are not modelled. *)

From S2P Require Import Prelude.
From S2P Require Import Strconv.

(** ** Handlers *)

(** The calls of a handler on its [ResponseWriter]. *)
Inductive wcall :=
| SetHeader (key value : string)
| WriteHeader (code : Z)
| Write (data : string).

#[export] Instance wcall_eq_dec : EqDecision wcall.
Proof. solve_decision. Defined.

Section Handlers.
Context {Req : Type}.

Definition serveFn : Type := Req -> list wcall.
Definition Handler : Type := option serveFn.
Definition Middleware : Type := option (Handler -> Handler).

Inductive Panic :=
| NilMiddleware
| NilFromMiddleware
| InvalidMethod (m : string)
| NilHandler (m pattern : string)
| PatternStart (pattern : string)
| PrefixStart (prefix : string)
| MuxPanic (key : string)
| Sealed
| NilCallback
| NilSubrouter (prefix : string)
| InvalidSubrouter (prefix : string)
| MountSelf
| NilErrorHandler.

Definition isNilHandler (h : Handler) : bool := match h with None => true | Some _ => false end.

(** [chain]: outermost first, so the last is applied first. *)
Fixpoint chain (mw : list (Handler -> Handler)) (h : Handler) : result Panic Handler :=
  match mw with
  | [] => Ok h
  | m :: mw =>
      match chain mw h with
      | Ok h => let h := m h in if isNilHandler h then Err NilFromMiddleware else Ok h
      | Err p => Err p
      end
  end.

(** [checkMiddleware], giving the functions. *)
Fixpoint checkMiddleware (mw : list Middleware) : result Panic (list (Handler -> Handler)) :=
  match mw with
  | [] => Ok []
  | None :: _ => Err NilMiddleware
  | Some m :: mw => match checkMiddleware mw with Ok ms => Ok (m :: ms) | Err p => Err p end
  end.
End Handlers.
Arguments serveFn : clear implicits.
Arguments Handler : clear implicits.
Arguments Middleware : clear implicits.

(** ** Patterns and methods *)

Definition joinPattern (base pattern : string) : string :=
  if bool_decide (base <> EmptyString) && bool_decide (pattern = "/{$}") then base else base +:+ pattern.

(** [strings.TrimSuffix(s, "/")] *)
Fixpoint trimSlash (s : string) : string :=
  match s with
  | EmptyString => EmptyString
  | String a EmptyString => if bool_decide (a = "/"%char) then EmptyString else s
  | String a s => String a (trimSlash s)
  end.

Definition in_byte_range (lo hi : Ascii.ascii) (c : Ascii.ascii) : bool :=
  ((N_of_ascii lo <=? N_of_ascii c) && (N_of_ascii c <=? N_of_ascii hi))%N.

Definition tokenSymbols : list Ascii.ascii :=
  ["!"; "#"; "$"; "%"; "&"; "'"; "*"; "+"; "-"; "."; "^"; "_"; "`"; "|"; "~"]%char.

Definition isTokenByte (c : Ascii.ascii) : bool :=
  in_byte_range "a" "z" c || in_byte_range "A" "Z" c || in_byte_range "0" "9" c
  || bool_decide (c ∈ tokenSymbols).

Fixpoint all_bytes (p : Ascii.ascii -> bool) (s : string) : bool :=
  match s with EmptyString => true | String a s => p a && all_bytes p s end.

Definition validMethod (m : string) : bool :=
  bool_decide (m <> EmptyString) && all_bytes isTokenByte m.

(** ** The mux *)

(** What the router uses of [http.ServeMux]: registering a pattern, which panics on a bad,
    a conflicting or a repeated one, finding the handler and the pattern for a request, and serving,
    which answers [OPTIONS *] itself and otherwise runs the handler found. A pattern
    found was registered with that handler; no pattern means the mux's own answer. *)
Class ServeMux (Req M : Type) := {
  mux_new : M;
  mux_Handle : string -> serveFn Req -> M -> option M;
  mux_Handler : M -> Req -> serveFn Req * string;
  mux_star : serveFn Req;
  mux_entries : M -> list (string * serveFn Req);
  is_star : Req -> bool;
  mux_entries_new : mux_entries mux_new = [];
  mux_entries_Handle k h m m' : mux_Handle k h m = Some m' -> mux_entries m' = mux_entries m ++ [(k, h)];
  mux_Handle_new k h m m' : mux_Handle k h m = Some m' -> k ∉ (mux_entries m).*1;
  mux_Handler_found m r h k :
    mux_Handler m r = (h, k) -> k <> EmptyString -> (k, h) ∈ mux_entries m
}.

Section Router.
Context {Req M : Type} `{!ServeMux Req M}.
Notation Handler := (Handler Req).
Notation Middleware := (Middleware Req).
Notation serveFn := (serveFn Req).

Definition mux_ServeHTTP (m : M) : serveFn :=
  fun r => if is_star r then mux_star r else fst (mux_Handler m r) r.

(** ** State *)

Record Route := mkRoute { r_Method : string; r_Pattern : string }.

Record entry := mkEntry {
  e_method : string;
  e_pattern : string;
  e_handler : Handler;
  e_wrapped : Handler;
  e_mws : list (Handler -> Handler)
}.

(** The state of one router; [s_ptr] is its identity. *)
Record state := mkState {
  s_ptr : nat;
  s_mux : M;
  s_entries : list entry;
  s_global : list (Handler -> Handler);
  s_notFound : option serveFn;
  s_methodNotAllowed : option serveFn;
  s_handler : Handler;
  s_sealed : bool;
  s_built : bool
}.

Record Scope := mkScope { sc_prefix : string; sc_inline : list (Handler -> Handler) }.

Definition New (ptr : nat) : state := mkState ptr mux_new [] [] None None None false false.

Definition set_routes (mux : M) (entries : list entry) (st : state) : state :=
  mkState (s_ptr st) mux entries (s_global st) (s_notFound st) (s_methodNotAllowed st) (s_handler st)
    (s_sealed st) (s_built st).
Definition set_global (global : list (Handler -> Handler)) (st : state) : state :=
  mkState (s_ptr st) (s_mux st) (s_entries st) global (s_notFound st) (s_methodNotAllowed st) (s_handler st)
    (s_sealed st) (s_built st).
Definition set_hooks (notFound methodNotAllowed : option serveFn) (st : state) : state :=
  mkState (s_ptr st) (s_mux st) (s_entries st) (s_global st) notFound methodNotAllowed (s_handler st)
    (s_sealed st) (s_built st).
Definition set_frozen (h : Handler) (sealed built : bool) (st : state) : state :=
  mkState (s_ptr st) (s_mux st) (s_entries st) (s_global st) (s_notFound st) (s_methodNotAllowed st) h
    sealed built.

(** A call on a router: the state it leaves, with a panic or a result. *)
Definition call (A : Type) : Type := state -> state * result Panic A.
Definition ret {A} (a : A) : call A := fun st => (st, Ok a).
Definition panic {A} (p : Panic) : call A := fun st => (st, Err p).
Definition bind {A B} (c : call A) (k : A -> call B) : call B :=
  fun st => let '(st, r) := c st in match r with Ok a => k a st | Err p => (st, Err p) end.
Definition lift {A} (r : result Panic A) : call A := fun st => (st, r).
Definition unsealed : call unit := fun st => if s_sealed st then (st, Err Sealed) else (st, Ok tt).

Notation "'do' x <- c ; k" := (bind c (fun x => k)) (at level 200, x name, c at level 100, k at level 200).
Notation "'do_' c ; k" := (bind c (fun _ => k)) (at level 200, c at level 100, k at level 200).

(** ** Registration *)

(** [add]: the mux validates the pattern at the call. *)
Definition add (method pattern : string) (h : Handler) (mws : list (Handler -> Handler)) : call unit :=
  do_ unsealed;
  let key := if bool_decide (method <> EmptyString) then method +:+ " " +:+ pattern else pattern in
  do wrapped <- lift (chain mws h);
  fun st =>
    match wrapped with
    | None => (st, Err (MuxPanic key))
    | Some f =>
        match mux_Handle key f (s_mux st) with
        | None => (st, Err (MuxPanic key))
        | Some mux => (set_routes mux (s_entries st ++ [mkEntry method pattern h wrapped mws]) st, Ok tt)
        end
    end.

Definition register (s : Scope) (method pattern : string) (h : Handler) (mw : list Middleware) : call unit :=
  if negb (HasPrefix pattern "/") then panic (PatternStart pattern)
  else do mws <- lift (checkMiddleware mw);
       add method (joinPattern (sc_prefix s) pattern) h (sc_inline s ++ mws).

Definition Method (s : Scope) (verb pattern : string) (h : Handler) (mw : list Middleware) : call unit :=
  if negb (validMethod verb) then panic (InvalidMethod verb)
  else if isNilHandler h then panic (NilHandler verb pattern)
  else register s verb pattern h mw.

Definition Get (s : Scope) (pattern : string) (h : Handler) : call unit := Method s "GET" pattern h [].
Definition Post (s : Scope) (pattern : string) (h : Handler) : call unit := Method s "POST" pattern h [].
Definition Put (s : Scope) (pattern : string) (h : Handler) : call unit := Method s "PUT" pattern h [].
Definition Patch (s : Scope) (pattern : string) (h : Handler) : call unit := Method s "PATCH" pattern h [].
Definition Delete (s : Scope) (pattern : string) (h : Handler) : call unit := Method s "DELETE" pattern h [].
Definition Head (s : Scope) (pattern : string) (h : Handler) : call unit := Method s "HEAD" pattern h [].
Definition Options (s : Scope) (pattern : string) (h : Handler) : call unit := Method s "OPTIONS" pattern h [].

(** A function or a handler value: the two differ in how nil is found only. *)
Definition MethodHandle (s : Scope) (method pattern : string) (h : Handler) : call unit := Method s method pattern h [].

Definition Handle (s : Scope) (pattern : string) (h : Handler) : call unit :=
  if isNilHandler h then panic (NilHandler EmptyString pattern) else register s EmptyString pattern h [].

Definition HandleFunc (s : Scope) (pattern : string) (h : Handler) : call unit := Handle s pattern h.

(** [Scope.Use] changes the scope, for the routes registered afterward. *)
Definition Use (s : Scope) (mw : list Middleware) : call Scope :=
  do_ unsealed;
  do mws <- lift (checkMiddleware mw);
  ret (mkScope (sc_prefix s) (sc_inline s ++ mws)).

Definition child (s : Scope) (prefix : string) : Scope := mkScope (trimSlash prefix) (sc_inline s).

Definition With (s : Scope) (mw : list Middleware) : call Scope :=
  do_ unsealed;
  do mws <- lift (checkMiddleware mw);
  let c := child s (sc_prefix s) in ret (mkScope (sc_prefix c) (sc_inline c ++ mws)).

Definition Group (s : Scope) (fn : option (Scope -> call unit)) : call unit :=
  do_ unsealed;
  match fn with None => panic NilCallback | Some fn => fn (child s (sc_prefix s)) end.

Definition RouteUnder (s : Scope) (prefix : string) (fn : option (Scope -> call unit)) : call unit :=
  do_ unsealed;
  match fn with
  | None => panic NilCallback
  | Some fn =>
      if negb (HasPrefix prefix "/") then panic (PrefixStart prefix)
      else fn (child s (sc_prefix s +:+ prefix))
  end.

(** A subrouter: nil, built without [New], or a router with its state. *)
Inductive subrouter := NilRouter | ZeroRouter | SubRouter (sub : state).

Fixpoint mountEntries (s : Scope) (base : string) (global : list (Handler -> Handler)) (es : list entry)
    : call unit :=
  match es with
  | [] => ret tt
  | e :: es =>
      do_ add (e_method e) (joinPattern base (e_pattern e)) (e_handler e) (sc_inline s ++ global ++ e_mws e);
      mountEntries s base global es
  end.

Definition Mount (s : Scope) (prefix : string) (sub : subrouter) : call unit :=
  do_ unsealed;
  if negb (HasPrefix prefix "/") then panic (PrefixStart prefix)
  else match sub with
       | NilRouter => panic (NilSubrouter prefix)
       | ZeroRouter => panic (InvalidSubrouter prefix)
       | SubRouter sub =>
           fun st =>
             if bool_decide (s_ptr sub = s_ptr st) then (st, Err MountSelf)
             else mountEntries s (trimSlash (sc_prefix s +:+ prefix)) (s_global sub) (s_entries sub) st
       end.

(** [Router.Use]: global middleware, around every request. *)
Definition UseGlobal (mw : list Middleware) : call unit :=
  do_ unsealed;
  do mws <- lift (checkMiddleware mw);
  fun st => (set_global (s_global st ++ mws) st, Ok tt).

Definition NotFound (h : option serveFn) : call unit :=
  do_ unsealed;
  match h with
  | None => panic NilErrorHandler
  | Some h => fun st => (set_hooks (Some h) (s_methodNotAllowed st) st, Ok tt)
  end.

Definition MethodNotAllowed (h : option serveFn) : call unit :=
  do_ unsealed;
  match h with
  | None => panic NilErrorHandler
  | Some h => fun st => (set_hooks (s_notFound st) (Some h) st, Ok tt)
  end.

Definition Routes (st : state) : list Route :=
  map (fun e => mkRoute (e_method e) (e_pattern e)) (s_entries st).

Definition Walk (st : state) : list (string * string * Handler * Handler) :=
  map (fun e => (e_method e, e_pattern e, e_handler e, e_wrapped e)) (s_entries st).

(** ** Error hooks *)

(** [errorProbe]: the status and the headers of an answer, without its body. *)
Record errorProbe := mkProbe { p_header : gmap string string; p_status : Z }.

Definition probe_call (p : errorProbe) (c : wcall) : errorProbe :=
  match c with
  | SetHeader k v => mkProbe (<[k := v]> (p_header p)) (p_status p)
  | WriteHeader code => if bool_decide (p_status p = 0%Z) then mkProbe (p_header p) code else p
  | Write _ => if bool_decide (p_status p = 0%Z) then mkProbe (p_header p) 200 else p
  end.

Definition probe (calls : list wcall) : errorProbe := fold_left probe_call calls (mkProbe ∅ 0).

(** [defaultStatusWriter]: what reaches the writer below, and whether a status was sent. *)
Definition default_call (code : Z) (below : list wcall * bool) (c : wcall) : list wcall * bool :=
  let '(out, wrote) := below in
  match c with
  | SetHeader k v => (out ++ [c], wrote)
  | WriteHeader _ => if wrote then (out, wrote) else (out ++ [c], true)
  | Write _ => (out ++ (if wrote then [] else [WriteHeader code]) ++ [c], true)
  end.

Definition runErrorHandler (code : Z) (calls : list wcall) : list wcall :=
  let '(out, wrote) := fold_left (default_call code) calls ([], false) in
  if wrote then out else out ++ [WriteHeader code].

Definition serveWithErrorHooks (st : state) : serveFn :=
  fun r =>
    if is_star r then mux_ServeHTTP (s_mux st) r
    else
      let '(h, pattern) := mux_Handler (s_mux st) r in
      if bool_decide (pattern <> EmptyString) then mux_ServeHTTP (s_mux st) r
      else
        let p := probe (h r) in
        if bool_decide (p_status p = 405%Z) then
          match s_methodNotAllowed st with
          | Some hook =>
              let allow := default EmptyString (p_header p !! "Allow") in
              (if bool_decide (allow <> EmptyString) then [SetHeader "Allow" allow] else [])
              ++ runErrorHandler 405 (hook r)
          | None => h r
          end
        else if bool_decide (p_status p = 404%Z) then
          match s_notFound st with Some hook => runErrorHandler 404 (hook r) | None => h r end
        else h r.

Definition core (st : state) : serveFn :=
  match s_notFound st, s_methodNotAllowed st with
  | None, None => mux_ServeHTTP (s_mux st)
  | _, _ => serveWithErrorHooks st
  end.

(** ** Serving *)

(** [freeze]: registration is closed before the chain is built, and stays closed when
    building panics. *)
Definition freeze : call unit :=
  fun st =>
    let st := set_frozen (s_handler st) true (s_built st) st in
    if s_built st then (st, Ok tt)
    else match chain (s_global st) (Some (core st)) with
         | Ok h => (set_frozen h true true st, Ok tt)
         | Err p => (st, Err p)
         end.

(** The calls made on the writer of a request. *)
Definition ServeHTTP (r : Req) : call (list wcall) :=
  fun st =>
    let '(st, fz) := if s_built st then (st, Ok tt) else freeze st in
    match fz with
    | Err p => (st, Err p)
    | Ok _ => (st, match s_handler st with Some f => Ok (f r) | None => Err NilFromMiddleware end)
    end.
End Router.
