(* ===== verification/RouterSpec.v ===== *)
(** The router of Router.v keeps its promises: what a request runs is the global
    middleware around the route's own middleware around its handler; a mounted router's
    routes run as they did there, inside the scope's middleware; the first request closes
    registration for good; error hooks change nothing but the misses they are for. *)

From S2P Require Import Prelude.
From S2P Require Import Strconv.
From S2P Require Import Router.

Section Spec.
Context {Req M : Type} `{!ServeMux Req M}.
Notation Handler := (Handler Req).
Notation Middleware := (Middleware Req).
Notation state := (state (Req := Req) (M := M)).
Notation entry := (entry (Req := Req)).
Notation Scope := (Scope (Req := Req)).
Notation call := (call (Req := Req) (M := M)).

(** ** Chains *)

Lemma chain_app (a b : list (Handler -> Handler)) h :
  chain (a ++ b) h = result_bind (chain b h) (chain a).
Proof.
  induction a as [|m a IH]; cbn [chain app]; [by destruct (chain b h)|].
  rewrite IH. by destruct (chain b h).
Qed.

Lemma chain_some mws (h : Handler) w : isNilHandler h = false -> chain mws h = Ok w -> is_Some w.
Proof.
  destruct mws as [|m mws]; cbn [chain]; intros Hh.
  - intros [= <-]. destruct h; [by eexists|done].
  - destruct (chain mws h) as [h'|]; [|done]. destruct (m h') eqn:E; cbn; [|done]. intros [= <-]. by eexists.
Qed.



(** ** Calls *)

(** What can be written against a router: its operations in sequence, with callbacks. *)
Inductive program : forall {A : Type}, call A -> Prop :=
| prog_ret A (a : A) : program (ret a)
| prog_bind A B (c : call A) (k : A -> call B) : program c -> (forall a, program (k a)) -> program (bind c k)
| prog_Method s verb p h mw : program (Method s verb p h mw)
| prog_Handle s p h : program (Handle s p h)
| prog_Use s mw : program (Use s mw)
| prog_With s mw : program (With s mw)
| prog_Group s fn : (forall f s', fn = Some f -> program (f s')) -> program (Group s fn)
| prog_RouteUnder s p fn : (forall f s', fn = Some f -> program (f s')) -> program (RouteUnder s p fn)
| prog_Mount s p sub : program (Mount s p sub)
| prog_UseGlobal mw : program (UseGlobal mw)
| prog_NotFound h : program (NotFound h)
| prog_MethodNotAllowed h : program (MethodNotAllowed h)
| prog_ServeHTTP r : program (ServeHTTP r).

(** A relation between the states before and after. *)
Definition keeps {A} (R : state -> state -> Prop) (c : call A) : Prop := forall st, R st (fst (c st)).

Section Keeps.
Context (R : state -> state -> Prop) `{!PreOrder R}.

Lemma keeps_ret A (a : A) : keeps R (ret a).
Proof. intros st. reflexivity. Qed.

Lemma keeps_panic A p : keeps R (panic (A := A) p).
Proof. intros st. reflexivity. Qed.

Lemma keeps_lift A (r : result Panic A) : keeps R (lift r).
Proof. intros st. reflexivity. Qed.

Lemma keeps_unsealed : keeps R unsealed.
Proof. intros st. unfold unsealed. destruct (s_sealed st); reflexivity. Qed.

Lemma keeps_bind A B (c : call A) (k : A -> call B) :
  keeps R c -> (forall a, keeps R (k a)) -> keeps R (bind c k).
Proof.
  intros Hc Hk st. unfold bind. specialize (Hc st). destruct (c st) as [st' [a|p]]; [|done].
  etransitivity; [exact Hc|]. apply Hk.
Qed.
End Keeps.

(** Once a call is known to be open, [R] may use it. *)
Lemma keeps_guarded {A} (R : state -> state -> Prop) `{!PreOrder R} (c : call A) :
  (forall st, s_sealed st = false -> R st (fst (c st))) -> keeps R (bind unsealed (fun _ => c)).
Proof.
  intros H st. unfold bind, unsealed. destruct (s_sealed st) eqn:E; [reflexivity|]. cbn. auto.
Qed.

(** ** The invariant *)

Definition route_key (e : entry) : string :=
  if bool_decide (e_method e <> EmptyString) then e_method e +:+ " " +:+ e_pattern e else e_pattern e.

Record router_ok (st : state) : Prop := {
  ro_mux : Forall2 (fun kh e => kh.1 = route_key e /\ e_wrapped e = Some kh.2) (mux_entries (s_mux st)) (s_entries st);
  ro_wrapped : forall e, e ∈ s_entries st -> chain (e_mws e) (e_handler e) = Ok (e_wrapped e);
  ro_built : s_built st = true -> s_sealed st = true /\ chain (s_global st) (Some (core st)) = Ok (s_handler st);
  ro_keys : NoDup (mux_entries (s_mux st)).*1
}.

Lemma router_New_ok ptr : router_ok (New ptr).
Proof.
  constructor; cbn.
  - rewrite mux_entries_new. constructor.
  - intros e H. by apply not_elem_of_nil in H.
  - done.
  - rewrite mux_entries_new. constructor.
Qed.

(** What a call may do to a router: keep it sound; add routes and global middleware at the
    end; and nothing at all to a sealed one but compose its handler. *)
Record evolves (st st' : state) : Prop := {
  ev_ok : router_ok st -> router_ok st';
  ev_ptr : s_ptr st' = s_ptr st;
  ev_entries : exists new, s_entries st' = s_entries st ++ new;
  ev_global : exists more, s_global st' = s_global st ++ more;
  ev_sealed : s_sealed st = true ->
    s_sealed st' = true /\ s_mux st' = s_mux st /\ s_entries st' = s_entries st /\ s_global st' = s_global st /\
    s_notFound st' = s_notFound st /\ s_methodNotAllowed st' = s_methodNotAllowed st;
  ev_built : s_built st = true -> s_sealed st = true -> st' = st
}.

#[local] Instance evolves_preorder : PreOrder evolves.
Proof.
  constructor.
  - intros st. constructor; try done; exists []; by rewrite app_nil_r.
  - intros st1 st2 st3 [A1 A2 [n1 A3] [g1 AG] A4 A5] [B1 B2 [n2 B3] [g2 BG] B4 B5]. constructor.
    + auto.
    + congruence.
    + exists (n1 ++ n2). by rewrite B3, A3, app_assoc.
    + exists (g1 ++ g2). by rewrite BG, AG, app_assoc.
    + intros H. destruct (A4 H) as (H1 & E1 & E2 & E3 & E4 & E5).
      destruct (B4 H1) as (H2 & F1 & F2 & F3 & F4 & F5). split_and!; congruence.
    + intros Hb Hs. specialize (A5 Hb Hs). subst st2. auto.
Qed.

Lemma add_open method pattern h mws st :
  s_sealed st = false ->
  let '(st', r) := add method pattern h mws st in
  match r with
  | Err _ => st' = st
  | Ok _ => exists w m, chain mws h = Ok (Some w) /\
      mux_Handle (route_key (mkEntry method pattern h (Some w) mws)) w (s_mux st) = Some m /\
      st' = set_routes m (s_entries st ++ [mkEntry method pattern h (Some w) mws]) st
  end.
Proof.
  intros Hs. unfold add, bind, unsealed. rewrite Hs. unfold lift.
  destruct (chain mws h) as [[w|]|p]; [|done|done].
  unfold route_key. cbn [e_method e_pattern].
  destruct (mux_Handle _ w (s_mux st)) as [m|] eqn:E; [|done]. eauto.
Qed.

Lemma add_sealed method pattern h mws st : s_sealed st = true -> add method pattern h mws st = (st, Err Sealed).
Proof. intros Hs. unfold add, bind, unsealed. by rewrite Hs. Qed.

Lemma add_evolves method pattern h mws : keeps evolves (add method pattern h mws).
Proof.
  intros st. destruct (s_sealed st) eqn:Hs; [rewrite add_sealed by done; reflexivity|].
  pose proof (add_open method pattern h mws st Hs) as H.
  destruct (add method pattern h mws st) as [st' [[]|p]]; cbn [fst]; [|subst; reflexivity].
  destruct H as (w & m & Hw & Hm & ->). constructor; cbn; [|done| | |congruence|congruence].
  - intros [H1 H2 H3 H4]. constructor; cbn.
    + rewrite (mux_entries_Handle _ _ _ _ Hm). apply Forall2_app; [done|]. by repeat constructor.
    + intros e [He| ->%list_elem_of_singleton]%elem_of_app; [auto|]. done.
    + intros Hb. destruct (H3 Hb). congruence.
    + rewrite (mux_entries_Handle _ _ _ _ Hm), fmap_app. apply NoDup_app. split; [done|].
      split; [|apply NoDup_singleton]. intros k Hk ->%list_elem_of_singleton.
      by apply (mux_Handle_new _ _ _ _ Hm).
  - by eexists.
  - exists []. by rewrite app_nil_r.
Qed.

#[local] Hint Resolve keeps_ret keeps_panic keeps_lift keeps_unsealed keeps_bind add_evolves : keeps.
#[local] Hint Extern 1 (PreOrder _) => exact evolves_preorder : keeps.

Lemma register_evolves s method pattern h mw : keeps evolves (register s method pattern h mw).
Proof. unfold register. destruct (negb _); [apply keeps_panic, _|]. apply keeps_bind; [apply _|apply keeps_lift, _|]. auto with keeps. Qed.

Lemma mountEntries_evolves s base global es : keeps evolves (mountEntries s base global es).
Proof.
  induction es as [|e es IH]; cbn [mountEntries]; [apply keeps_ret, _|].
  apply keeps_bind; [apply _|apply add_evolves|]. auto.
Qed.

Lemma open_evolves st st' :
  s_sealed st = false -> s_sealed st' = s_sealed st -> s_built st' = s_built st -> s_ptr st' = s_ptr st ->
  s_mux st' = s_mux st -> s_entries st' = s_entries st ->
  (exists more, s_global st' = s_global st ++ more) -> evolves st st'.
Proof.
  intros Hs Hs' Hb Hp Hm He Hg.
  constructor; [|done|exists []; by rewrite app_nil_r|done|congruence|congruence].
  intros [H1 H2 H3 H4]. constructor; [by rewrite Hm, He|by rewrite He| |by rewrite Hm].
  rewrite Hb. intros H. destruct (H3 H). congruence.
Qed.

Lemma core_set_frozen h sealed built st : core (set_frozen h sealed built st) = core st.
Proof. done. Qed.

Lemma freeze_evolves : keeps evolves freeze.
Proof.
  intros st. unfold freeze. cbn [s_built set_frozen s_global].
  destruct (s_built st) eqn:Hb.
  - cbn [fst]. constructor; cbn; try done; [|exists []; by rewrite app_nil_r..|].
    + intros [H1 H2 H3 H4]. destruct (H3 Hb) as [Hs Hh]. constructor; cbn; auto.
    + intros _ Hs. destruct st; cbn in *. by subst.
  - change (core _) with (core st). destruct (chain (s_global st) (Some (core st))) as [h|p] eqn:EC; cbn [fst];
      constructor; cbn; try done; try congruence; try (exists []; by rewrite app_nil_r);
      intros [H1 H2 H3 H4]; constructor; cbn; auto; by rewrite ?Hb.
Qed.

Lemma ServeHTTP_evolves r : keeps evolves (ServeHTTP r).
Proof.
  intros st. unfold ServeHTTP. destruct (s_built st) eqn:Hb; [cbn; reflexivity|].
  pose proof (freeze_evolves st) as H. by destruct (freeze st) as [st' [[]|p]].
Qed.

Lemma program_evolves A (c : call A) : program c -> keeps evolves c.
Proof.
  induction 1 as [A a|A B c k _ IHc _ IHk|s v p h mw|s p h|s mw|s mw|s fn _ IH|s p fn _ IH|s p sub|mw|h|h|r].
  - apply keeps_ret, _.
  - by apply keeps_bind; [apply _| |].
  - unfold Method. destruct (negb _); [apply keeps_panic, _|]. destruct (isNilHandler h); [apply keeps_panic, _|].
    apply register_evolves.
  - unfold Handle. destruct (isNilHandler h); [apply keeps_panic, _|]. apply register_evolves.
  - unfold Use. apply keeps_bind; [apply _|apply keeps_unsealed, _|]. intros _.
    apply keeps_bind; [apply _|apply keeps_lift, _|]. intros a. apply keeps_ret, _.
  - unfold With. apply keeps_bind; [apply _|apply keeps_unsealed, _|]. intros _.
    apply keeps_bind; [apply _|apply keeps_lift, _|]. intros a. apply keeps_ret, _.
  - unfold Group. apply keeps_bind; [apply _|apply keeps_unsealed, _|]. intros _.
    destruct fn as [f|]; [by apply IH|apply keeps_panic, _].
  - unfold RouteUnder. apply keeps_bind; [apply _|apply keeps_unsealed, _|]. intros _.
    destruct fn as [f|]; [|apply keeps_panic, _]. destruct (negb _); [apply keeps_panic, _|]. by apply IH.
  - unfold Mount. apply keeps_bind; [apply _|apply keeps_unsealed, _|]. intros _.
    destruct (negb _); [apply keeps_panic, _|]. destruct sub as [| |sub]; try apply keeps_panic, _.
    intros st. case_bool_decide; [cbn; reflexivity|]. apply mountEntries_evolves.
  - apply keeps_guarded; [apply _|]. intros st Hs. unfold bind, lift. destruct (checkMiddleware mw); cbn; [|reflexivity].
    apply open_evolves; try done. by eexists.
  - apply keeps_guarded; [apply _|]. intros st Hs. destruct h; cbn; [|reflexivity].
    apply open_evolves; try done. exists []. by rewrite app_nil_r.
  - apply keeps_guarded; [apply _|]. intros st Hs. destruct h; cbn; [|reflexivity].
    apply open_evolves; try done. exists []. by rewrite app_nil_r.
  - apply ServeHTTP_evolves.
Qed.

(** ** Serving *)

Lemma program_ok A (c : call A) ptr : program c -> router_ok (fst (c (New ptr))).
Proof. intros Hc. apply (ev_ok _ _ (program_evolves A c Hc (New ptr))), router_New_ok. Qed.








(** ** Mounting *)

Definition mounted (s : Scope) (base : string) (global : list (Handler -> Handler)) (e e' : entry) : Prop :=
  e_method e' = e_method e /\ e_pattern e' = joinPattern base (e_pattern e) /\ e_handler e' = e_handler e /\
  e_mws e' = sc_inline s ++ global ++ e_mws e /\ chain (e_mws e') (e_handler e') = Ok (e_wrapped e').

Lemma mountEntries_spec s base global es st st' :
  mountEntries s base global es st = (st', Ok tt) ->
  exists new, s_entries st' = s_entries st ++ new /\ Forall2 (mounted s base global) es new /\
    s_global st' = s_global st /\ s_notFound st' = s_notFound st /\ s_methodNotAllowed st' = s_methodNotAllowed st.
Proof.
  revert st. induction es as [|e es IH]; intros st; cbn [mountEntries].
  - intros [= <-]. exists []. by rewrite app_nil_r.
  - unfold bind. destruct (s_sealed st) eqn:Hs; [by rewrite add_sealed|].
    pose proof (add_open (e_method e) (joinPattern base (e_pattern e)) (e_handler e)
                  (sc_inline s ++ global ++ e_mws e) st Hs) as HA.
    destruct (add _ _ _ _ st) as [st1 [[]|p]]; [|done]. destruct HA as (w & m & Hw & _ & ->).
    intros H. destruct (IH _ H) as (new & He & HF & Hg & Hn & Hm). cbn in He, Hg, Hn, Hm.
    eexists (_ :: new). split_and!; [by rewrite He, <-app_assoc| |done|done|done].
    constructor; [|done]. by split_and!.
Qed.

Lemma string_app_nil_r (s : string) : s +:+ EmptyString = s.
Proof. induction s as [|c s IH]; [done|]. change (String c (s +:+ EmptyString) = String c s). by rewrite IH. Qed.

Lemma joinPattern_assoc a b p :
  HasPrefix p "/" = true -> b <> "/{$}" -> joinPattern a (joinPattern b p) = joinPattern (a +:+ b) p.
Proof.
  intros Hp Hb. unfold joinPattern. destruct (decide (p = "/{$}")) as [->|Hne].
  - rewrite !(bool_decide_true ("/{$}" = "/{$}")), !andb_true_r by done.
    destruct (decide (b = EmptyString)) as [->|Hbe].
    + rewrite (bool_decide_false (EmptyString <> EmptyString)) by naive_solver.
      change (EmptyString +:+ "/{$}") with "/{$}". rewrite (bool_decide_true ("/{$}" = "/{$}")), andb_true_r by done.
      by rewrite string_app_nil_r.
    + rewrite (bool_decide_true (b <> EmptyString)) by done. rewrite (bool_decide_false (b = "/{$}")), andb_false_r by done.
      rewrite bool_decide_true; [done|]. by destruct a, b.
  - rewrite !(bool_decide_false (p = "/{$}")), !andb_false_r by done.
    assert (E : b +:+ p <> "/{$}").
    { destruct b as [|y b]; [done|]. destruct p as [|x p]; [done|].
      assert (x = "/"%char) as ->.
      { unfold HasPrefix in Hp. cbn [CutPrefix] in Hp. by destruct (bool_decide_reflect (x = "/"%char)). }
      intros E. change (String y b +:+ String "/" p) with (String y (b +:+ String "/" p)) in E.
      injection E as -> E. destruct b as [|c1 b]; [done|]. injection E as -> E.
      destruct b as [|c2 b]; [done|]. injection E as -> E. destruct b as [|c3 b]; [done|].
      injection E as -> E. by destruct b. }
    rewrite (bool_decide_false (_ = "/{$}")) by done. rewrite andb_false_r. by rewrite string_app_assoc.
Qed.

(** ** Scopes *)

(** A prefix without its trailing slashes. *)
Fixpoint strip (s : string) : string :=
  match s with
  | EmptyString => EmptyString
  | String a s =>
      match strip s with
      | EmptyString => if bool_decide (a = "/"%char) then EmptyString else String a EmptyString
      | t => String a t
      end
  end.

Definition has_prefix (p s : string) : Prop := exists t, s = p +:+ t.

#[local] Instance has_prefix_preorder : PreOrder has_prefix.
Proof.
  constructor.
  - intros s. exists EmptyString. by rewrite string_app_nil_r.
  - intros a b c (t & ->) (u & ->). exists (t +:+ u). by rewrite string_app_assoc.
Qed.

Lemma has_prefix_cons a p s : has_prefix p s -> has_prefix (String a p) (String a s).
Proof. intros (t & ->). by exists t. Qed.

Lemma strip_app s t : has_prefix (strip s) (strip (s +:+ t)).
Proof.
  induction s as [|a s (u & IH)]; [by eexists|].
  change (String a s +:+ t) with (String a (s +:+ t)). cbn [strip]. rewrite IH.
  destruct (strip s) as [|b v].
  - change (EmptyString +:+ u) with u. destruct u as [|c u]; [reflexivity|].
    case_bool_decide; [by exists (String a (String c u))|by exists (String c u)].
  - exists u. reflexivity.
Qed.

Lemma strip_prefix s : has_prefix (strip s) s.
Proof.
  induction s as [|a s IH]; [reflexivity|]. cbn [strip]. destruct (strip s) as [|b v].
  - case_bool_decide; [by eexists|]. by exists s.
  - by apply has_prefix_cons.
Qed.

Lemma strip_trimSlash s : strip (trimSlash s) = strip s.
Proof.
  induction s as [|a s IH]; [done|]. destruct s as [|b s].
  - cbn [trimSlash]. case_bool_decide as E; [by subst|done].
  - change (trimSlash (String a (String b s))) with (String a (trimSlash (String b s))).
    cbn [strip] in *. by rewrite IH.
Qed.

(** What registers routes through a scope and the scopes made from it only. *)
Inductive scoped : Scope -> call unit -> Prop :=
| scoped_ret s : scoped s (ret tt)
| scoped_seq s c1 c2 : scoped s c1 -> scoped s c2 -> scoped s (bind c1 (fun _ => c2))
| scoped_Method s verb p h mw : scoped s (Method s verb p h mw)
| scoped_Handle s p h : scoped s (Handle s p h)
| scoped_Mount s p sub : scoped s (Mount s p sub)
| scoped_Use s mw k : (forall s', scoped s' (k s')) -> scoped s (bind (Use s mw) k)
| scoped_With s mw k : (forall s', scoped s' (k s')) -> scoped s (bind (With s mw) k)
| scoped_Group s fn : (forall s', scoped s' (fn s')) -> scoped s (Group s (Some fn))
| scoped_RouteUnder s p fn : (forall s', scoped s' (fn s')) -> scoped s (RouteUnder s p (Some fn)).

Definition in_scope (s : Scope) (e : entry) : Prop :=
  (exists own, e_mws e = sc_inline s ++ own) /\ has_prefix (strip (sc_prefix s)) (e_pattern e).

(** A scope inside another. *)
Definition inner (s s' : Scope) : Prop :=
  (exists own, sc_inline s' = sc_inline s ++ own) /\ has_prefix (strip (sc_prefix s)) (strip (sc_prefix s')).

Lemma inner_in_scope s s' e : inner s s' -> in_scope s' e -> in_scope s e.
Proof.
  intros [(o1 & E1) H1] [(o2 & E2) H2]. split; [|by etransitivity].
  exists (o1 ++ o2). by rewrite E2, E1, app_assoc.
Qed.

Definition adds_in (s : Scope) (st st' : state) : Prop :=
  exists new, s_entries st' = s_entries st ++ new /\ Forall (in_scope s) new.

#[local] Instance adds_in_preorder s : PreOrder (adds_in s).
Proof.
  constructor.
  - intros st. exists []. by rewrite app_nil_r.
  - intros a b c (n1 & E1 & F1) (n2 & E2 & F2). exists (n1 ++ n2). rewrite E2, E1, app_assoc.
    split; [done|]. by apply Forall_app.
Qed.

Lemma adds_inner s s' st st' : inner s s' -> adds_in s' st st' -> adds_in s st st'.
Proof.
  intros Hi (new & E & F). exists new. split; [done|]. eapply Forall_impl; [exact F|].
  intros e. by apply inner_in_scope.
Qed.

Lemma join_prefix base p : has_prefix base (joinPattern base p).
Proof. unfold joinPattern. destruct (_ && _); [reflexivity|by eexists]. Qed.

Lemma add_in s method base p h own :
  has_prefix (strip (sc_prefix s)) base ->
  keeps (adds_in s) (add method (joinPattern base p) h (sc_inline s ++ own)).
Proof.
  intros Hb st. destruct (s_sealed st) eqn:Hs; [rewrite add_sealed by done; reflexivity|].
  pose proof (add_open method (joinPattern base p) h (sc_inline s ++ own) st Hs) as H.
  destruct (add _ _ _ _ st) as [st' [[]|e]]; cbn [fst]; [|subst; reflexivity].
  destruct H as (w & m & _ & _ & ->). eexists. split; [done|]. constructor; [|constructor].
  split; [by exists own|]. cbn. etransitivity; [exact Hb|apply join_prefix].
Qed.

Lemma register_in s method p h mw : keeps (adds_in s) (register s method p h mw).
Proof.
  unfold register. destruct (negb _); [apply keeps_panic, _|].
  apply keeps_bind; [apply _|apply keeps_lift, _|]. intros own. apply add_in, strip_prefix.
Qed.

Lemma child_inner s own prefix :
  has_prefix (strip (sc_prefix s)) (strip prefix) ->
  inner s (mkScope (trimSlash prefix) (sc_inline s ++ own)).
Proof. intros H. split; [by exists own|]. cbn. by rewrite strip_trimSlash. Qed.

Lemma scoped_adds s c : scoped s c -> keeps (adds_in s) c.
Proof.
  induction 1 as [s|s c1 c2 _ IH1 _ IH2|s verb p h mw|s p h|s p sub|s mw k _ IH|s mw k _ IH|s fn _ IH|s p fn _ IH].
  - apply keeps_ret, _.
  - by apply keeps_bind; [apply _| |].
  - unfold Method. destruct (negb _); [apply keeps_panic, _|]. destruct (isNilHandler h); [apply keeps_panic, _|].
    apply register_in.
  - unfold Handle. destruct (isNilHandler h); [apply keeps_panic, _|]. apply register_in.
  - unfold Mount. apply keeps_bind; [apply _|apply keeps_unsealed, _|]. intros _.
    destruct (negb _); [apply keeps_panic, _|]. destruct sub as [| |sub]; try apply keeps_panic, _.
    intros st. case_bool_decide as Hp; [cbn; reflexivity|]. clear Hp. revert st.
    change (keeps (adds_in s) (mountEntries s (trimSlash (sc_prefix s +:+ p)) (s_global sub) (s_entries sub))).
    induction (s_entries sub) as [|e es IHe]; cbn [mountEntries]; [apply keeps_ret, _|].
    apply keeps_bind; [apply _| |by intros _]. apply add_in.
    etransitivity; [apply (strip_app _ p)|]. rewrite <-strip_trimSlash. apply strip_prefix.
  - intros st. unfold Use, bind, unsealed, lift. destruct (s_sealed st); [reflexivity|].
    destruct (checkMiddleware mw) as [own|]; [|reflexivity]. cbn. eapply adds_inner; [|apply IH].
    split; [by exists own|reflexivity].
  - intros st. unfold With, bind, unsealed, lift. destruct (s_sealed st); [reflexivity|].
    destruct (checkMiddleware mw) as [own|]; [|reflexivity]. cbn. eapply adds_inner; [|apply IH].
    apply child_inner. reflexivity.
  - intros st. unfold Group, bind, unsealed. destruct (s_sealed st); [reflexivity|]. cbn.
    eapply adds_inner; [|apply IH]. unfold child. rewrite <-(app_nil_r (sc_inline s)). by apply child_inner.
  - intros st. unfold RouteUnder, bind, unsealed. destruct (s_sealed st); [reflexivity|]. cbn.
    destruct (negb _); [reflexivity|]. eapply adds_inner; [|apply IH].
    unfold child. rewrite <-(app_nil_r (sc_inline s)). apply child_inner, strip_app.
Qed.

(** ** Error hooks *)

(** net/http sends an informational status at once and goes on to the next one. *)
Definition informational (code : Z) : bool := ((100 <=? code) && (code <=? 199) && negb (code =? 101))%Z.

(** The status a client sees. *)
Fixpoint final_status (calls : list wcall) : Z :=
  match calls with
  | [] => 200
  | SetHeader _ _ :: calls => final_status calls
  | WriteHeader code :: calls => if informational code then final_status calls else code
  | Write _ :: _ => 200
  end.

(** The status a handler sends itself, before its body. *)
Fixpoint own_status (calls : list wcall) : option Z :=
  match calls with
  | [] => None
  | SetHeader _ _ :: calls => own_status calls
  | WriteHeader code :: calls => if informational code then own_status calls else Some code
  | Write _ :: _ => None
  end.

Definition plain (calls : list wcall) : Prop :=
  forall code, WriteHeader code ∈ calls -> informational code = false.

Definition body (calls : list wcall) : list string :=
  omap (fun c => match c with Write d => Some d | _ => None end) calls.

Definition is_status (c : wcall) : bool := match c with WriteHeader _ => true | _ => false end.

Fixpoint defaulted (code : Z) (calls : list wcall) : list wcall :=
  match calls with
  | [] => [WriteHeader code]
  | SetHeader k v :: calls => SetHeader k v :: defaulted code calls
  | WriteHeader c :: calls => WriteHeader c :: filter (fun c => is_status c = false) calls
  | Write d :: calls => WriteHeader code :: Write d :: filter (fun c => is_status c = false) calls
  end.

Lemma default_fold_wrote code calls out :
  fold_left (default_call code) calls (out, true) = (out ++ filter (fun c => is_status c = false) calls, true).
Proof.
  revert out. induction calls as [|[k v|c|d] calls IH]; intros out; cbn [fold_left default_call].
  - by rewrite app_nil_r.
  - rewrite IH, filter_cons_True by done. by rewrite <-app_assoc.
  - rewrite IH, filter_cons_False by done. done.
  - rewrite IH, filter_cons_True by done. by rewrite <-app_assoc.
Qed.

Lemma runErrorHandler_eq code calls : runErrorHandler code calls = defaulted code calls.
Proof.
  unfold runErrorHandler.
  assert (H : forall out, (let '(out, wrote) := fold_left (default_call code) calls (out, false) in
                           if wrote then out else out ++ [WriteHeader code]) = out ++ defaulted code calls).
  { induction calls as [|[k v|c|d] calls IH]; intros out; cbn [fold_left default_call defaulted].
    - done.
    - rewrite IH. by rewrite <-app_assoc.
    - rewrite default_fold_wrote. by rewrite <-app_assoc.
    - rewrite default_fold_wrote. by rewrite <-!app_assoc. }
  apply (H []).
Qed.

Lemma defaulted_status code calls :
  informational code = false -> plain calls -> final_status (defaulted code calls) = default code (own_status calls).
Proof.
  intros Hc. induction calls as [|[k v|c|d] calls IH]; intros Hp; cbn.
  - by rewrite Hc.
  - apply IH. intros c' H. apply Hp. by right.
  - rewrite (Hp c) by left. done.
  - by rewrite Hc.
Qed.

Lemma body_filter calls : body (filter (fun c => is_status c = false) calls) = body calls.
Proof.
  induction calls as [|[k v|c|d] calls IH]; [done|..].
  - rewrite filter_cons_True by done. exact IH.
  - rewrite filter_cons_False by done. exact IH.
  - rewrite filter_cons_True by done. unfold body in *. cbn. by f_equal.
Qed.

Lemma defaulted_body code calls : body (defaulted code calls) = body calls.
Proof.
  induction calls as [|[k v|c|d] calls IH]; [done|exact IH|exact (body_filter calls)|].
  unfold body. cbn. f_equal. exact (body_filter calls).
Qed.

(** A miss that a hook is set for, with the calls the hook adds before its own. *)
Definition hooked (st : state) (r : Req) : option (Z * list wcall * serveFn Req) :=
  let '(h, pattern) := mux_Handler (s_mux st) r in
  if is_star r || bool_decide (pattern <> EmptyString) then None
  else
    let p := probe (h r) in
    if bool_decide (p_status p = 405%Z) then
      let allow := default EmptyString (p_header p !! "Allow") in
      pair (405%Z, if bool_decide (allow <> EmptyString) then [SetHeader "Allow" allow] else []) <$> s_methodNotAllowed st
    else if bool_decide (p_status p = 404%Z) then pair (404%Z, []) <$> s_notFound st
    else None.

Lemma core_hooked st r :
  core st r = match hooked st r with
              | Some (code, pre, hook) => pre ++ runErrorHandler code (hook r)
              | None => mux_ServeHTTP (s_mux st) r
              end.
Proof.
  unfold core, hooked, serveWithErrorHooks, mux_ServeHTTP.
  destruct (mux_Handler (s_mux st) r) as [h k] eqn:EM. cbn [fst].
  destruct (s_notFound st) as [nf|], (s_methodNotAllowed st) as [mna|]; destruct (is_star r);
    cbn [orb]; rewrite ?EM; cbn [fst]; try done; repeat case_bool_decide; done.
Qed.


(** Mounting keeps what the routes do. A mounted router's routes are added in
    order under the prefix, each answering as in its own router, the globals of that
    router around its wrapped handler, and around that the middleware of the scope. *)
Theorem mounted_routes_behave_alike A (c : call A) ptr s prefix st st' :
  program c -> let sub := fst (c (New ptr)) in Mount s prefix (SubRouter sub) st = (st', Ok tt) ->
  exists new, s_entries st' = s_entries st ++ new /\
    s_global st' = s_global st /\ s_notFound st' = s_notFound st /\ s_methodNotAllowed st' = s_methodNotAllowed st /\
    Forall2 (fun e e' =>
      e_method e' = e_method e /\ e_pattern e' = joinPattern (trimSlash (sc_prefix s +:+ prefix)) (e_pattern e) /\
      result_bind (chain (s_global sub) (e_wrapped e)) (chain (sc_inline s)) = Ok (e_wrapped e'))
      (s_entries sub) new.
Proof.
  intros Hc sub H. pose proof (program_ok A c ptr Hc) as Ok_. fold sub in Ok_.
  unfold Mount, bind, unsealed in H. destruct (s_sealed st); [done|].
  destruct (negb (HasPrefix prefix "/")); [done|]. case_bool_decide; [done|].
  destruct (mountEntries_spec _ _ _ _ _ _ H) as (new & He & HF & Hg & Hn & Hm).
  exists new. split_and!; [done..|]. apply Forall2_same_length_lookup_2; [by eapply Forall2_length|].
  intros i e e' H1 H2. pose proof (Forall2_lookup_lr _ _ _ _ _ _ HF H1 H2) as (E1 & E2 & E3 & E4 & E5).
  split_and!; [done|done|]. rewrite E4, E3, !chain_app in E5.
  rewrite (ro_wrapped _ Ok_ e) in E5 by by eapply list_elem_of_lookup_2. exact E5.
Qed.

(** Registration closes at the first request, even one whose freeze panics. After
    it, no program changes the routes, the middleware or the hooks, registering a route
    panics, and once the handler is built nothing changes at all. *)
Theorem registration_closes_at_first_request A B (c1 : call A) (c2 : call B) ptr r :
  program c1 -> program c2 ->
  let st := fst (ServeHTTP r (fst (c1 (New ptr)))) in
  let st' := fst (c2 st) in
  Routes st' = Routes st /\ s_mux st' = s_mux st /\ s_global st' = s_global st /\
  s_notFound st' = s_notFound st /\ s_methodNotAllowed st' = s_methodNotAllowed st /\
  (s_built st = true -> st' = st) /\
  (forall s verb p h mw, exists e, Method s verb p h mw st = (st, Err e)).
Proof.
  intros H1 H2 st st'.
  assert (Hs : s_sealed st = true).
  { pose proof (program_ok A c1 ptr H1) as Ok_. unfold st, ServeHTTP.
    destruct (s_built (fst (c1 (New ptr)))) eqn:Hb; [by apply (ro_built _ Ok_)|].
    unfold freeze. cbn [s_built set_frozen]. rewrite Hb.
    destruct (chain _ _); done. }
  destruct (program_evolves B c2 H2 st) as [_ _ _ _ Hsl Hbl]. fold st' in Hsl, Hbl.
  destruct (Hsl Hs) as (_ & E1 & E2 & E3 & E4 & E5). unfold Routes. rewrite E2.
  split_and!; try done; [by intros Hb; apply Hbl|].
  intros s verb p h mw. unfold Method. destruct (negb (validMethod verb)); [by eexists|].
  destruct (isNilHandler h); [by eexists|]. unfold register. destruct (negb _); [by eexists|].
  unfold bind, lift. destruct (checkMiddleware mw); [|by eexists]. rewrite add_sealed by done. by eexists.
Qed.

(** Error hooks answer misses only. With or without hooks, a request is answered as
    the mux answers it, unless the mux misses with a status a hook is set for; then the
    hook's whole body is sent, and, when it sends no informational status, under its own
    status or else the miss's. *)
Theorem error_hooks_answer_misses st r :
  match hooked st r with
  | None => core st r = mux_ServeHTTP (s_mux st) r
  | Some (code, pre, hook) =>
      body (core st r) = body (hook r) /\
      (plain (hook r) -> final_status (core st r) = default code (own_status (hook r))) /\
      (code = 404 \/ code = 405)%Z /\ p_status (probe (fst (mux_Handler (s_mux st) r) r)) = code
  end.
Proof.
  rewrite core_hooked. destruct (hooked st r) as [[[code pre] hook]|] eqn:E; [|done].
  assert (Hpre : body pre = [] /\ (forall l, final_status (pre ++ l) = final_status l) /\
            (code = 404 \/ code = 405)%Z /\ p_status (probe (fst (mux_Handler (s_mux st) r) r)) = code).
  { unfold hooked in E. destruct (mux_Handler (s_mux st) r) as [h k]. cbn [fst].
    destruct (_ || _); [done|]. case_bool_decide as E5.
    - destruct (s_methodNotAllowed st); [|done]. cbn in E. injection E as <- <- <-.
      case_bool_decide; split_and!; auto.
    - case_bool_decide as E4; [|done]. destruct (s_notFound st); [|done]. cbn in E. injection E as <- <- <-.
      split_and!; auto. }
  destruct Hpre as (Hb & Hst & Hc & Hp). split_and!; [| |done|done].
  - unfold body in *. rewrite omap_app, Hb, runErrorHandler_eq. apply defaulted_body.
  - intros Hplain. rewrite Hst, runErrorHandler_eq. apply defaulted_status; [|done].
    by destruct Hc as [->| ->].
Qed.

(** A scope's middleware wraps every route registered in it. Whatever registers
    through a scope, its children and its callbacks, adds routes at the end whose
    middleware starts with that of the scope and whose pattern starts with its prefix. *)
Theorem scopes_wrap_their_routes s c st :
  scoped s c ->
  exists new, s_entries (fst (c st)) = s_entries st ++ new /\
    Forall (fun e => (exists own, e_mws e = sc_inline s ++ own) /\
                     has_prefix (strip (sc_prefix s)) (e_pattern e)) new.
Proof. intros Hc. apply (scoped_adds s c Hc st). Qed.
End Spec.
