(* ===== verification/RouterRun.v ===== *)
(** The router run over a small mux that matches a method and a path exactly, and the
    middleware order run on small programs; the theorems of RouterSpec.v and MwOrderSpec.v
    applied to them. *)

From S2P Require Import Prelude.
From S2P Require Import GenNode.
From S2P Require Import Digraph.
From S2P Require Import MwOrder.
From S2P Require Import MwOrderSpec.
From S2P Require Import Router.
From S2P Require Import RouterSpec.

(** ** A mux *)

Record request := mkReq { q_method : string; q_path : string; q_star : bool }.

Definition exact_mux : Type := list (string * serveFn request).

Definition mux_find (m : exact_mux) (k : string) : option (string * serveFn request) :=
  snd <$> list_find (fun kh => kh.1 = k) m.

Definition method_key (method path : string) : string := method +:+ " " +:+ path.

(** The methods under which a path is known, for the Allow header. *)
Definition allowed (m : exact_mux) (path : string) : list string :=
  filter (fun method => is_Some (mux_find m (method_key method path))) ["GET"; "POST"; "PUT"].

Definition exact_Handler (m : exact_mux) (r : request) : serveFn request * string :=
  match mux_find m (method_key (q_method r) (q_path r)), mux_find m (q_path r) with
  | Some (k, h), _ => (h, k)
  | None, Some (k, h) => (h, k)
  | None, None =>
      match allowed m (q_path r) with
      | [] => (fun _ => [WriteHeader 404; Write "404 page not found"], EmptyString)
      | ms => (fun _ => [SetHeader "Allow" (String.concat ", " ms); WriteHeader 405; Write "Method Not Allowed"], EmptyString)
      end
  end.

Lemma mux_find_in m k k' h : mux_find m k = Some (k', h) -> (k', h) ∈ m.
Proof.
  unfold mux_find. destruct (list_find _ m) as [[i [k0 h0]]|] eqn:E; [|done]. cbn. intros [= <- <-].
  apply list_find_Some in E as (E & _). by eapply list_elem_of_lookup_2.
Qed.

#[export, program] Instance exact_ServeMux : ServeMux request exact_mux := {
  mux_new := [];
  mux_Handle k h m := match mux_find m k with Some _ => None | None => Some (m ++ [(k, h)]) end;
  mux_Handler := exact_Handler;
  mux_star := fun _ => [WriteHeader 400];
  mux_entries m := m;
  is_star := q_star
}.
Next Obligation. done. Qed.
Next Obligation. cbn. intros k h m m'. destruct (mux_find m k); [done|]. by intros [= <-]. Qed.
Next Obligation.
  cbn. intros k h m m'. unfold mux_find. destruct (list_find _ m) as [?|] eqn:E; [done|]. intros _.
  intros ([k' h'] & -> & Hin)%list_elem_of_fmap. apply list_find_None in E.
  rewrite Forall_forall in E. by apply (E _ Hin).
Qed.
Next Obligation.
  cbn. intros m r h k. unfold exact_Handler.
  destruct (mux_find m (method_key (q_method r) (q_path r))) as [[k1 h1]|] eqn:E1.
  - intros [= <- <-] _. by apply mux_find_in in E1.
  - destruct (mux_find m (q_path r)) as [[k2 h2]|] eqn:E2.
    + intros [= <- <-] _. by apply mux_find_in in E2.
    + by destruct (allowed m (q_path r)); intros [= <- <-].
Qed.

(** ** An application *)

(** A middleware and a handler that write their names. *)
Definition named_mw (n : string) : Middleware request :=
  Some (fun h => match h with Some f => Some (fun r => Write n :: f r) | None => None end).
Definition page (n : string) : Handler request := Some (fun _ => [Write n]).
Definition root : Scope (Req := request) := mkScope EmptyString [].

Definition api_program : call (Req := request) (M := exact_mux) unit :=
  bind (UseGlobal [named_mw "api"]) (fun _ =>
  bind (Method root "GET" "/users" (page "users") [named_mw "auth"]) (fun _ =>
  Method root "GET" "/{$}" (page "index") [])).

Definition api : state (Req := request) (M := exact_mux) := fst (api_program (New 1)).

Definition admin_routes (s : Scope (Req := request)) : call (Req := request) (M := exact_mux) unit :=
  bind (Use s [named_mw "admin"]) (fun s => bind (Get s "/stats" (page "stats")) (fun _ =>
  bind (Mount s "/api" (SubRouter api)) (fun _ => ret tt))).

Definition app_program : call (Req := request) (M := exact_mux) unit :=
  bind (UseGlobal [named_mw "log"; named_mw "recover"]) (fun _ =>
  bind (Get root "/" (page "home")) (fun _ =>
  bind (RouteUnder root "/admin/" (Some admin_routes)) (fun _ =>
  NotFound (Some (fun _ => [Write "nothing here"]))))).

(** A program is recognised by its operations, the sequence last. *)
Ltac is_program :=
  repeat first
    [ apply prog_Method | apply prog_Handle | apply prog_Use | apply prog_With | apply prog_Mount
    | apply prog_UseGlobal | apply prog_NotFound | apply prog_MethodNotAllowed | apply prog_ServeHTTP
    | apply prog_RouteUnder; intros ? ? [= <-] | apply prog_Group; intros ? ? [= <-]
    | apply prog_bind; [|intros ?] ].

Lemma api_is_program : program api_program.
Proof. unfold api_program. is_program. Qed.

Lemma admin_is_scoped s : scoped s (admin_routes s).
Proof.
  unfold admin_routes. apply scoped_Use. intros s'. apply scoped_seq; [apply scoped_Method|].
  apply scoped_seq; [apply scoped_Mount|]. apply scoped_ret.
Qed.

Lemma app_is_program : program app_program.
Proof. unfold app_program. is_program. all: unfold admin_routes; is_program. apply prog_ret. Qed.

Definition app : state (Req := request) (M := exact_mux) := fst (app_program (New 2)).
Definition get (path : string) : request := mkReq "GET" path false.
Definition answer (r : request) : result Panic (list wcall) := snd (ServeHTTP r app).

Example app_routes :
  Routes app = [ mkRoute "GET" "/"; mkRoute "GET" "/admin/stats"; mkRoute "GET" "/admin/api/users";
                 mkRoute "GET" "/admin/api" ].
Proof. vm_compute. reflexivity. Qed.

Example app_answers :
  map answer [get "/"; get "/admin/api/users"; get "/nowhere"; mkReq "POST" "/" false] =
  [ Ok [Write "log"; Write "recover"; Write "home"];
    Ok [Write "log"; Write "recover"; Write "admin"; Write "api"; Write "auth"; Write "users"];
    Ok [Write "log"; Write "recover"; WriteHeader 404; Write "nothing here"];
    Ok [Write "log"; Write "recover"; SetHeader "Allow" "GET"; WriteHeader 405; Write "Method Not Allowed"] ].
Proof. vm_compute. reflexivity. Qed.



Definition app0 : state (Req := request) (M := exact_mux) := New 3.

Lemma mounted_routes_witness :
  exists new, s_entries (fst (Mount (mkScope "/v1" [] : Scope (Req := request)) "/x" (SubRouter api) app0)) = [] ++ new /\ length new = 2.
Proof.
  destruct (mounted_routes_behave_alike unit api_program 1 (mkScope "/v1" [] : Scope (Req := request)) "/x" app0
    (fst (Mount (mkScope "/v1" [] : Scope (Req := request)) "/x" (SubRouter api) app0)) api_is_program) as (new & He & _ & _ & _ & HF).
  - vm_compute. reflexivity.
  - exists new. split; [exact He|]. exact (eq_sym (Forall2_length _ _ _ HF)).
Defined.

Lemma registration_closes_witness :
  s_built (fst (ServeHTTP (get "/") app)) = true /\
  fst (api_program (fst (ServeHTTP (get "/") app))) = fst (ServeHTTP (get "/") app).
Proof.
  split; [vm_compute; reflexivity|].
  apply (registration_closes_at_first_request unit unit app_program api_program 2 (get "/") app_is_program api_is_program).
  vm_compute. reflexivity.
Defined.

Lemma scopes_wrap_witness :
  exists new, s_entries (fst (admin_routes (mkScope "/a" []) app0)) = [] ++ new.
Proof.
  destruct (scopes_wrap_their_routes (mkScope "/a" []) (admin_routes (mkScope "/a" [])) app0
    (admin_is_scoped _)) as (new & He & _).
  exists new. exact He.
Defined.

(** An informational status before the final one: the writer around an error hook takes
    it for the response's status, so the hook's own 410 is dropped and the client is sent
    200. *)
Definition hinting : list wcall := [WriteHeader 103; WriteHeader 410; Write "gone"].

Example informational_status_is_taken_for_final :
  own_status hinting = Some 410%Z /\ final_status hinting = 410%Z /\
  runErrorHandler 404 hinting = [WriteHeader 103; Write "gone"] /\
  final_status (runErrorHandler 404 hinting) = 200%Z.
Proof. vm_compute. split_and!; reflexivity. Qed.

(** ** The middleware order *)

Definition at_ (file : string) (line : Z) : Position := Build_Position file line 1.
Definition refs_at (p : Position) (names : list string) : list mwRef := map (fun n => mkRef n p) names.

(** A global middleware with its requires=, after= and before= names. *)
Definition global_mw (name file : string) (line : Z) (requires after before : list string)
    (afterAll beforeAll : bool) : mwNode :=
  let p := at_ file line in
  mkMw p name true (refs_at p requires) (refs_at p after) (refs_at p before) afterAll beforeAll.
Definition route_mw (name file : string) (line : Z) (requires : list string) : mwNode :=
  let p := at_ file line in mkMw p name false (refs_at p requires) [] [] false false.

(** A logger outermost, a session declared after the login check that requires it, and
    two route middleware of which one requires the other. *)
Definition app_mw : list mwNode :=
  [ global_mw "login" "a.go" 1 ["session"] [] [] false false;
    global_mw "session" "b.go" 5 [] ["metrics"] ["login"] false false;
    global_mw "logger" "z.go" 9 [] [] [] false true;
    global_mw "metrics" "b.go" 9 [] ["absent"] [] false false;
    route_mw "tenant" "r.go" 1 ["session"];
    route_mw "admin" "r.go" 2 ["tenant"; "login"] ].

Definition app_m : MwOrder.Middleware := built app_mw (seq 0 6).
Definition app_labels (i : nat) : string := mw_name (app_mw !!! i).

Lemma app_m_ok : mw_ok app_m.
Proof. apply built_ok. vm_compute. reflexivity. Qed.

Example app_stack_names :
  map (fun nl => (app_labels (fst nl), snd nl))
    (r_stack (fst (resolveOrder (m_byName app_m) (m_decls app_m) (m_globals app_m) app_labels))) =
  [ ("logger", "before=*"); ("metrics", "after=absent (inactive); before session");
    ("session", "after=metrics; before login; before=login"); ("login", "after session; requires=session") ].
Proof. vm_compute. reflexivity. Qed.

(** The order is tried out with and without errors. *)
Lemma middleware_order_witness :
  stack app_m app_labels = [2; 3; 1; 0] /\
  ordered (m_byName app_m) (m_decls app_m) (m_globals app_m) (stack app_m app_labels).
Proof.
  split; [vm_compute; reflexivity|].
  apply (proj1 (proj2 (middleware_order_is_exact app_m app_labels app_m_ok))).
  intros d Hd. apply (proj1 (list_elem_of_In _ _)) in Hd. vm_compute in Hd.
  repeat destruct Hd as [<-|Hd]; try exact (fun H => H); destruct Hd.
Defined.

Definition app_chain : list mwRef := refs_at (at_ "h.go" 3) ["tenant"; "admin"].
Definition app_used : MwOrder.Middleware :=
  mkMiddleware (m_byName app_m) (m_globals app_m) (m_decls app_m) {[4; 5]}.

Lemma requirements_witness :
  Validate app_used app_labels = [] /\
  stack app_used app_labels ++ [4; 5] = [2; 3; 1; 0; 4] ++ 5 :: [] /\
  exists t, m_byName app_used !! "tenant" = Some t /\ t ∈ [2; 3; 1; 0; 4].
Proof.
  split; [vm_compute; reflexivity|]. split; [vm_compute; reflexivity|].
  apply (requirements_run_earlier app_used app_labels app_chain [4; 5] {[4; 5]} app_m_ok) with (nd := 5) (l2 := [])
    (r := mkRef "tenant" (at_ "r.go" 2)).
  - intros d Hd. apply (proj1 (list_elem_of_In _ _)) in Hd. vm_compute in Hd. destruct Hd.
  - vm_compute. reflexivity.
  - vm_compute. reflexivity.
  - vm_compute. left.
Defined.

(** Two soft edges against each other, and an inner middleware that a middle one must
    follow: both are reported, and the stack is still complete. *)
Definition bad_mw : list mwNode :=
  [ global_mw "a" "a.go" 1 [] ["b"] [] false false;
    global_mw "b" "a.go" 2 [] ["a"] [] false false;
    global_mw "tail" "a.go" 3 [] [] [] true false;
    global_mw "mid" "a.go" 4 ["tail"] [] [] false false;
    route_mw "x" "a.go" 5 ["y"]; route_mw "y" "a.go" 6 ["x"] ].
Definition bad_m : MwOrder.Middleware := built bad_mw (seq 0 6).

Example bad_diags :
  Validate bad_m app_labels =
  [ BandContradiction (at_ "a.go" 4) "requires=tail" 3; OrderCycle (at_ "a.go" 2) [0; 1; 0];
    NeverReferenced (at_ "a.go" 5) "x"; NeverReferenced (at_ "a.go" 6) "y";
    RequiresCycle (at_ "a.go" 5) [4; 5; 4] ] /\
  stack bad_m app_labels = [3; 0; 1; 2].
Proof. vm_compute. split; reflexivity. Qed.
