(* ===== verification/Migrate.v ===== *)
(** Forward-only SQL migrations: src/migrations/migrations.go and driver.go.

    A source tree is what [fs.ReadDir] and [fs.ReadFile] give for it, the checksum of a
    body is an argument, and a driver is any implementation of the [Driver] interface over
    a database [D]. Errors keep the sentinel they wrap and what their text names. *)

From S2P Require Import Prelude.
From S2P Require Import GoTime.
From S2P Require Import Order.
From S2P Require Import Strconv.
From S2P Require Import Strings.

(** ** Migrations and their sources *)

Record Migration := mkMigration { m_Version : Z; m_Name : string; m_Body : string; m_Checksum : string }.

(** A directory entry; the body is [None] when the file cannot be read. *)
Record dirEntry := mkEntry { e_Name : string; e_IsDir : bool; e_Body : option string }.

Inductive fsError := SubFailed | ReadDirFailed.

(** [FS] gives, for a directory, its entries; a nil [FS] is [None]. *)
Record Source := mkSource {
  src_Stream : string;
  src_FS : option (string -> result fsError (list dirEntry));
  src_Dir : string
}.

Inductive pathFault := LeadingSlash | TrailingSlash | EmptySegment | DotSegment (seg : string) | NotNormalised.

Inductive sourceFault :=
| NoSource
| NilFS (i : nat)
| BadDir (i : nat) (f : pathFault)
| BadStream (i : nat) (f : pathFault)
| LongStream (i : nat)
| SubFault (i : nat)
| NestedDir (name : string).

(** The errors by the sentinel they wrap; the last five wrap none. *)
Inductive migrateError (E : Type) :=
| ErrInvalidSource (f : sourceFault)
| ErrDuplicateStream (stream : string)
| ErrInvalidFilename (name : string)
| ErrDuplicateVersion (version : Z) (prev name : string)
| ErrOrphan (stream : string) (version : Z)
| ErrDrift (stream : string) (version : Z)
| BadVersion (name : string)
| ReadFailed (stream : string)
| ReadFileFailed (name : string)
| DriverError (e : E)
| ApplyError (stream : string) (version : Z) (e : E)
| JoinErrors (e1 e2 : migrateError E).
Arguments ErrInvalidSource {E}. Arguments ErrDuplicateStream {E}. Arguments ErrInvalidFilename {E}.
Arguments ErrDuplicateVersion {E}. Arguments ErrOrphan {E}. Arguments ErrDrift {E}. Arguments BadVersion {E}.
Arguments ReadFailed {E}. Arguments ReadFileFailed {E}. Arguments DriverError {E}. Arguments ApplyError {E}.
Arguments JoinErrors {E}.

(** ** Paths *)

Fixpoint badSegment (segs : list string) : option pathFault :=
  match segs with
  | [] => None
  | seg :: segs =>
      if bool_decide (seg = EmptyString) then Some EmptySegment
      else if bool_decide (seg = ".") || bool_decide (seg = "..") then Some (DotSegment seg)
      else badSegment segs
  end.

Definition validateCleanRel (p : string) : option pathFault :=
  if bool_decide (p = EmptyString) then None
  else if HasPrefix p "/" then Some LeadingSlash
  else if HasSuffix p "/" then Some TrailingSlash
  else match badSegment (segments p) with
       | Some f => Some f
       | None => if bool_decide (Clean p <> p) then Some NotNormalised else None
       end.

Definition maxIdentBytes : nat := 191.
Definition identTooLong (s : string) : bool := (maxIdentBytes <? String.length s)%nat.

(** ** Filenames: [^(\d+)_([A-Za-z0-9_-]+)\.sql$] *)

Definition isDigit (a : Ascii.ascii) : bool := byte_in "0" "9" a.
Definition isNameByte (a : Ascii.ascii) : bool :=
  byte_in "A" "Z" a || byte_in "a" "z" a || isDigit a || bool_decide (a = "_"%char) || bool_decide (a = "-"%char).

(** The longest prefix of bytes that satisfy [p], and the rest. *)
Fixpoint span (p : Ascii.ascii -> bool) (s : string) : string * string :=
  match s with
  | EmptyString => (EmptyString, EmptyString)
  | String a s' => if p a then let '(l, r) := span p s' in (String a l, r) else (EmptyString, s)
  end.

(** No name byte is a dot, so each group takes all it can. *)
Definition matchFilename (s : string) : option (string * string) :=
  match span isDigit s with
  | (String _ _ as version, String a s) =>
      if bool_decide (a = "_"%char) then
        match span isNameByte s with
        | (String _ _ as name, rest) => if bool_decide (rest = ".sql") then Some (version, name) else None
        | _ => None
        end
      else None
  | _ => None
  end.

(** ** Loading the streams *)

Section Migrate.
Context (E : Type) (checksum : string -> string).

Fixpoint loadEntries (stream : string) (entries : list dirEntry) (seen : gmap Z string)
    (migs : list Migration) : result (migrateError E) (list Migration) :=
  match entries with
  | [] => Ok migs
  | e :: entries =>
      let name := e_Name e in
      if e_IsDir e then Err (ErrInvalidSource (NestedDir name))
      else if negb (HasSuffix name ".sql") then loadEntries stream entries seen migs
      else match matchFilename name with
           | None => Err (ErrInvalidFilename name)
           | Some (digits, mname) =>
               if identTooLong mname then Err (ErrInvalidFilename name)
               else match ParseInt digits with
                    | None => Err (BadVersion name)
                    | Some version =>
                        match seen !! version with
                        | Some prev => Err (ErrDuplicateVersion version prev name)
                        | None =>
                            match e_Body e with
                            | None => Err (ReadFileFailed name)
                            | Some body =>
                                loadEntries stream entries (<[version := name]> seen)
                                  (migs ++ [mkMigration version mname body (checksum body)])
                            end
                        end
                    end
           end
  end.

Definition loadMigrations (stream : string) (entries : list dirEntry) : result (migrateError E) (list Migration) :=
  match loadEntries stream entries ∅ [] with
  | Ok migs => Ok (sort_by (cmp_on m_Version cmp_Z) migs)
  | Err e => Err e
  end.

Record stream_ := mkStream { st_name : string; st_migs : list Migration }.

Fixpoint loadSources (i : nat) (sources : list Source) (seen : gset string) (streams : list stream_)
    : result (migrateError E) (list stream_) :=
  match sources with
  | [] => Ok streams
  | src :: sources =>
      match src_FS src with
      | None => Err (ErrInvalidSource (NilFS i))
      | Some fsys =>
          match validateCleanRel (src_Dir src) with
          | Some f => Err (ErrInvalidSource (BadDir i f))
          | None =>
              match validateCleanRel (src_Stream src) with
              | Some f => Err (ErrInvalidSource (BadStream i f))
              | None =>
                  if identTooLong (src_Stream src) then Err (ErrInvalidSource (LongStream i))
                  else if bool_decide (src_Stream src ∈ seen) then Err (ErrDuplicateStream (src_Stream src))
                  else match fsys (src_Dir src) with
                       | Err SubFailed => Err (ErrInvalidSource (SubFault i))
                       | Err ReadDirFailed => Err (ReadFailed (src_Stream src))
                       | Ok entries =>
                           match loadMigrations (src_Stream src) entries with
                           | Err e => Err e
                           | Ok migs => loadSources (S i) sources ({[src_Stream src]} ∪ seen)
                                          (streams ++ [mkStream (src_Stream src) migs])
                           end
                       end
              end
          end
      end
  end.

Definition loadStreams (sources : list Source) : result (migrateError E) (list stream_) :=
  match sources with
  | [] => Err (ErrInvalidSource NoSource)
  | _ => match loadSources 0 sources ∅ [] with
         | Ok streams => Ok (sort_by (cmp_on st_name cmp_string) streams)
         | Err e => Err e
         end
  end.

(** [Sources.Check] *)
Definition Check_ (sources : list Source) : option (migrateError E) :=
  match loadStreams sources with Ok _ => None | Err e => Some e end.

(** ** The driver *)

Record appliedRow := mkRow { a_name : string; a_checksum : string; a_appliedAt : Time }.

Definition appliedKey : Type := string * Z.
Notation appliedMap := (gmap appliedKey appliedRow).

(** What the engine calls: [OpenSession], the schema statement, the query of
    schema_migrations, [Apply] and [Close]. A session acts on the database it is of. *)
Record Driver (D : Type) := mkDriver {
  drv_OpenSession : D -> result E D;
  drv_TableExists : D -> result E bool;
  drv_CreateTable : D -> option E * D;
  drv_LoadApplied : D -> result E appliedMap;
  drv_Apply : string -> Migration -> D -> option E * D;
  drv_Close : D -> option E * D
}.
Arguments drv_OpenSession {D}. Arguments drv_TableExists {D}. Arguments drv_CreateTable {D}.
Arguments drv_LoadApplied {D}. Arguments drv_Apply {D}. Arguments drv_Close {D}.

(** ** Migrate *)

Definition key_cmp : appliedKey -> appliedKey -> comparison := cmp_then (cmp_on fst cmp_string) (cmp_on snd cmp_Z).

Definition sortedKeys (applied : appliedMap) : list appliedKey :=
  sort_by key_cmp (map_to_list applied).*1.

(** The migrations of all streams in the order they are applied. *)
Definition allMigrations (streams : list stream_) : list (appliedKey * Migration) :=
  concat ((fun st => (fun m => ((st_name st, m_Version m), m)) <$> st_migs st) <$> streams).

Definition inSource (streams : list stream_) : gmap appliedKey Migration :=
  fold_left (fun s km => <[km.1 := km.2]> s) (allMigrations streams) ∅.

Fixpoint checkApplied (applied : appliedMap) (source : gmap appliedKey Migration) (keys : list appliedKey)
    : option (migrateError E) :=
  match keys with
  | [] => None
  | k :: keys =>
      match applied !! k, source !! k with
      | Some row, Some m => if bool_decide (a_checksum row <> m_Checksum m) then Some (ErrDrift k.1 k.2)
                            else checkApplied applied source keys
      | _, _ => Some (ErrOrphan k.1 k.2)
      end
  end.

Fixpoint applyPending {D} (drv : Driver D) (applied : appliedMap) (migs : list (appliedKey * Migration)) (d : D)
    : option (migrateError E) * D :=
  match migs with
  | [] => (None, d)
  | (k, m) :: migs =>
      match applied !! k with
      | Some _ => applyPending drv applied migs d
      | None =>
          match drv_Apply drv k.1 m d with
          | (Some e, d) => (Some (ApplyError k.1 k.2 e), d)
          | (None, d) => applyPending drv applied migs d
          end
      end
  end.

Definition migrateSession {D} (drv : Driver D) (streams : list stream_) (d : D) : option (migrateError E) * D :=
  match drv_CreateTable drv d with
  | (Some e, d) => (Some (DriverError e), d)
  | (None, d) =>
      match drv_LoadApplied drv d with
      | Err e => (Some (DriverError e), d)
      | Ok applied =>
          match checkApplied applied (inSource streams) (sortedKeys applied) with
          | Some e => (Some e, d)
          | None => applyPending drv applied (allMigrations streams) d
          end
      end
  end.

Definition join_close (rerr : option (migrateError E)) (cerr : option E) : option (migrateError E) :=
  match cerr, rerr with
  | None, _ => rerr
  | Some c, None => Some (DriverError c)
  | Some c, Some r => Some (JoinErrors r (DriverError c))
  end.

(** [Sources.Migrate], for a driver that is not nil. *)
Definition Migrate {D} (drv : Driver D) (sources : list Source) (d : D) : option (migrateError E) * D :=
  match loadStreams sources with
  | Err e => (Some e, d)
  | Ok streams =>
      match drv_OpenSession drv d with
      | Err e => (Some (DriverError e), d)
      | Ok d =>
          let '(rerr, d) := migrateSession drv streams d in
          let '(cerr, d) := drv_Close drv d in
          (join_close rerr cerr, d)
      end
  end.

(** ** Status *)

Inductive State := StatePending | StateApplied | StateDrifted | StateOrphan.

Record MigrationStatus := mkStatus {
  s_Stream : string;
  s_Version : Z;
  s_Name : string;
  s_Checksum : string;
  s_FileChecksum : string;
  s_AppliedAt : option Time;
  s_State : State
}.

Definition sourceStatus (applied : appliedMap) (km : appliedKey * Migration) : MigrationStatus :=
  let '(k, m) := km in
  match applied !! k with
  | None => mkStatus k.1 k.2 (m_Name m) EmptyString (m_Checksum m) None StatePending
  | Some row =>
      mkStatus k.1 k.2 (m_Name m) (a_checksum row) (m_Checksum m) (Some (a_appliedAt row))
        (if bool_decide (a_checksum row <> m_Checksum m) then StateDrifted else StateApplied)
  end.

Definition orphanStatus (kr : appliedKey * appliedRow) : MigrationStatus :=
  let '(k, row) := kr in
  mkStatus k.1 k.2 (a_name row) (a_checksum row) EmptyString (Some (a_appliedAt row)) StateOrphan.

Definition status_key (s : MigrationStatus) : appliedKey := (s_Stream s, s_Version s).

(** [applied] is the empty map when the table does not exist. *)
Definition statusRows (streams : list stream_) (applied : appliedMap) : list MigrationStatus :=
  let migs := allMigrations streams in
  sort_by (cmp_on status_key key_cmp)
    ((sourceStatus applied <$> migs) ++
     (orphanStatus <$> filter (fun kr => kr.1 ∉ migs.*1) (map_to_list applied))).

Definition Status {D} (drv : Driver D) (sources : list Source) (d : D)
    : result (migrateError E) (list MigrationStatus) :=
  match loadStreams sources with
  | Err e => Err e
  | Ok streams =>
      match drv_TableExists drv d with
      | Err e => Err (DriverError e)
      | Ok false => Ok (statusRows streams ∅)
      | Ok true =>
          match drv_LoadApplied drv d with
          | Err e => Err (DriverError e)
          | Ok applied => Ok (statusRows streams applied)
          end
      end
  end.

End Migrate.

Arguments drv_OpenSession {E D}. Arguments drv_TableExists {E D}. Arguments drv_CreateTable {E D}.
Arguments drv_LoadApplied {E D}. Arguments drv_Apply {E D}. Arguments drv_Close {E D}.

(** ** The files of a migration stream: which names are migrations, and that a directory is
    loaded exactly when all its SQL files are well named and no two share a version. *)

(** ** Names *)

Lemma span_app p l r :
  string_forall p l = true -> (forall a r', r = String a r' -> p a = false) -> span p (l +:+ r) = (l, r).
Proof.
  induction l as [|a l IH]; intros Hl Hr; cbn [String.append span].
  - destruct r as [|a r]; [done|]. specialize (Hr a r eq_refl). simpl. by rewrite Hr.
  - simpl in Hl. apply andb_prop in Hl as [Ha Hl]. simpl. by rewrite Ha, (IH Hl Hr).
Qed.

Lemma span_split p s l r : span p s = (l, r) -> s = l +:+ r /\ string_forall p l = true.
Proof.
  revert l r. induction s as [|a s IH]; intros l r; cbn [span]; [by intros [= <- <-]|].
  destruct (p a) eqn:Ha; [|by intros [= <- <-]]. destruct (span p s) as [l' r'].
  destruct (IH _ _ eq_refl) as [-> Hl]. intros [= <- <-]. cbn. by rewrite Ha, Hl.
Qed.

Lemma matchFilename_spec s version name :
  matchFilename s = Some (version, name) <->
  s = version +:+ "_" +:+ name +:+ ".sql" /\
  (version <> EmptyString /\ string_forall isDigit version = true) /\
  (name <> EmptyString /\ string_forall isNameByte name = true).
Proof.
  unfold matchFilename. split.
  - destruct (span isDigit s) as [[|d digits] [|a rest]] eqn:E1; try done. case_bool_decide as Ha; [subst a|done].
    destruct (span isNameByte rest) as [[|c cs] tail] eqn:E2; [done|]. case_bool_decide as Ht; [subst tail|done].
    intros [= <- <-]. apply span_split in E1 as [-> Hd], E2 as [-> Hn]. done.
  - intros (-> & [Hv Hd] & [Hne Hn]). rewrite (span_app _ _ _ Hd) by (by intros a r [= <- _]).
    destruct version as [|d version]; [done|]. change ("_" +:+ (name +:+ ".sql")) with (String "_" (name +:+ ".sql")). cbn match.
    rewrite bool_decide_eq_true_2, (span_app _ _ _ Hn) by (done || (by intros a r [= <- _])). by destruct name.
Qed.

(** ** Directories *)

Section Files.
Context (E : Type) (checksum : string -> string).

(** The entry is the file of the migration. *)
Definition file_of (e : dirEntry) (m : Migration) : Prop :=
  exists digits,
    (digits <> EmptyString /\ string_forall isDigit digits = true) /\ ParseInt digits = Some (m_Version m) /\
    (m_Name m <> EmptyString /\ string_forall isNameByte (m_Name m) = true) /\ String.length (m_Name m) <= 191 /\
    e_Name e = digits +:+ "_" +:+ m_Name m +:+ ".sql" /\
    e_Body e = Some (m_Body m) /\ m_Checksum m = checksum (m_Body m).

Definition sql_files (entries : list dirEntry) : list dirEntry :=
  filter (fun e => HasSuffix (e_Name e) ".sql" = true) entries.

Lemma file_of_entry e m :
  file_of e m <->
  exists digits name version body,
    matchFilename (e_Name e) = Some (digits, name) /\ identTooLong name = false /\
    ParseInt digits = Some version /\ e_Body e = Some body /\ m = mkMigration version name body (checksum body).
Proof.
  unfold file_of, identTooLong, maxIdentBytes. split.
  - intros (digits & Hd & Hv & Hn & Hl & He & Hb & Hc). destruct m as [v n b c]. cbn [m_Version m_Name m_Body m_Checksum] in *. subst c.
    exists digits, n, v, b. rewrite matchFilename_spec. destruct Hd, Hn. rewrite Nat.ltb_ge. done.
  - intros (digits & name & version & body & HM & Hl & Hv & Hb & ->). apply matchFilename_spec in HM as (He & Hd & Hn).
    exists digits. cbn [m_Version m_Name m_Body m_Checksum]. apply Nat.ltb_ge in Hl. done.
Qed.

Lemma loadEntries_spec stream entries seen migs migs' :
  (forall v, is_Some (seen !! v) <-> v ∈ m_Version <$> migs) -> NoDup (m_Version <$> migs) ->
  loadEntries E checksum stream entries seen migs = Ok migs' <->
  exists ms, migs' = migs ++ ms /\ Forall2 file_of (sql_files entries) ms /\
    Forall (fun e => e_IsDir e = false) entries /\ NoDup (m_Version <$> migs').
Proof.
  revert seen migs. induction entries as [|e entries IH]; intros seen migs Hs Hd; cbn [loadEntries].
  { split.
    - intros [= <-]. exists []. rewrite app_nil_r. repeat split; [constructor|constructor|done].
    - intros (ms & -> & HF & _). inversion HF. by rewrite app_nil_r. }
  destruct (e_IsDir e) eqn:EI.
  { split; [done|]. intros (ms & _ & _ & HF & _). apply Forall_cons in HF as [HF _]. congruence. }
  unfold sql_files. rewrite filter_cons. fold (sql_files entries).
  destruct (HasSuffix (e_Name e) ".sql") eqn:EH; cbn [negb].
  2:{ rewrite decide_False by done. rewrite (IH seen migs Hs Hd). split; intros (ms & ? & ? & HI & ?); exists ms.
      - repeat split; try done. by constructor.
      - by apply Forall_cons in HI as [_ HI]. }
  rewrite decide_True by done.
  assert (Hbad : (forall m, ~ file_of e m) -> ~ exists ms, migs' = migs ++ ms /\ Forall2 file_of (e :: sql_files entries) ms /\
    Forall (fun e => e_IsDir e = false) (e :: entries) /\ NoDup (m_Version <$> migs')).
  { intros Hf (ms & _ & HF & _). inversion HF; subst. by eapply Hf. }
  assert (Hfile : ~ (exists digits name version body,
    matchFilename (e_Name e) = Some (digits, name) /\ identTooLong name = false /\
    ParseInt digits = Some version /\ e_Body e = Some body /\ True) -> forall m, ~ file_of e m).
  { intros Hn m (digits & name & version & body & ? & ? & ? & ? & _)%file_of_entry. apply Hn. eauto 10. }
  destruct (matchFilename (e_Name e)) as [[digits name]|] eqn:EM.
  2:{ split; [done|]. intros H. exfalso. revert H. apply Hbad, Hfile.
    intros (? & ? & ? & ? & ? & ? & ? & ? & _). congruence. }
  destruct (identTooLong name) eqn:EL.
  { split; [done|]. intros H. exfalso. revert H. apply Hbad, Hfile.
    intros (? & ? & ? & ? & ? & ? & ? & ? & _). congruence. }
  destruct (ParseInt digits) as [version|] eqn:EP.
  2:{ split; [done|]. intros H. exfalso. revert H. apply Hbad, Hfile.
    intros (? & ? & ? & ? & ? & ? & ? & ? & _). congruence. }
  destruct (seen !! version) as [prev|] eqn:ES.
  { split; [done|]. intros (ms & -> & HF & _ & Hnd). exfalso. inversion HF as [|? m ? ms' Hm]; subst.
    apply file_of_entry in Hm as (? & ? & version' & ? & Hm & _ & Hp & _ & ->).
    assert (version' = version) as -> by naive_solver.
    rewrite fmap_app, NoDup_app in Hnd. destruct Hnd as (_ & Hnd & _). apply (Hnd version); [by apply Hs; rewrite ES|].
    rewrite fmap_cons. left. }
  destruct (e_Body e) as [body|] eqn:EB.
  2:{ split; [done|]. intros H. exfalso. revert H. apply Hbad, Hfile.
    intros (? & ? & ? & ? & ? & ? & ? & ? & _). congruence. }
  set (m := mkMigration version name body (checksum body)).
  assert (Hm : file_of e m) by (apply file_of_entry; exists digits, name, version, body; done).
  assert (Hnew : version ∉ m_Version <$> migs) by (rewrite <-Hs, ES; by intros []).
  rewrite IH.
  - split.
    + intros (ms & -> & HF & HI & Hnd). exists (m :: ms). rewrite <-app_assoc in *. auto.
    + intros (ms & -> & HF & [_ HI]%Forall_cons & Hnd). inversion HF as [|? m' ? ms' Hm' HF']; subst.
      assert (m' = m) as ->. { apply file_of_entry in Hm' as (? & ? & ? & ? & ? & ? & ? & ? & ->). unfold m. congruence. }
      exists ms'. by rewrite <-app_assoc.
  - intros v. rewrite fmap_app, elem_of_app, <-Hs. cbn. rewrite list_elem_of_singleton.
    destruct (decide (v = version)) as [->|Hne]; [rewrite lookup_insert_eq|rewrite lookup_insert_ne by done]; naive_solver.
  - rewrite fmap_app. apply NoDup_app. split_and!; [done| |apply NoDup_singleton].
    by intros v Hv ->%list_elem_of_singleton.
Qed.

(** A directory is loaded exactly when it is a migration directory. It has no
    directories, every entry that ends in .sql is named by digits, an underscore, a name of
    letters, digits, dashes and underscores of at most 191 bytes, its digits are a 64-bit
    version no other file has, and it can be read; the migrations are those files with
    their contents, in the order of their versions. *)
Theorem migration_files_are_loaded_exactly stream entries migs :
  loadMigrations E checksum stream entries = Ok migs <->
  exists ms, Forall2 file_of (sql_files entries) ms /\ Forall (fun e => e_IsDir e = false) entries /\
    NoDup (m_Version <$> ms) /\ migs = sort_by (cmp_on m_Version cmp_Z) ms.
Proof.
  unfold loadMigrations.
  assert (H : forall ms, loadEntries E checksum stream entries ∅ [] = Ok ms <->
    Forall2 file_of (sql_files entries) ms /\ Forall (fun e => e_IsDir e = false) entries /\ NoDup (m_Version <$> ms)).
  { intros ms. rewrite loadEntries_spec; [|intros v; rewrite lookup_empty|constructor].
    - cbn. naive_solver.
    - split; [by intros []|intros H; by apply not_elem_of_nil in H]. }
  destruct (loadEntries _ _ _ _ _ _) as [ms|err].
  - split.
    + intros [= <-]. exists ms. destruct (proj1 (H ms) eq_refl) as (? & ? & ?). done.
    + intros (ms' & HF & HI & Hn & ->). by injection (proj2 (H ms') (conj HF (conj HI Hn))) as ->.
  - split; [done|]. intros (ms' & HF & HI & Hn & ->). discriminate (proj2 (H ms') (conj HF (conj HI Hn))).
Qed.
End Files.
