(* ===== verification/MigrateSpec.v ===== *)
(** What the migration engine of Migrate.v promises over any transactional driver: a run
    applies a prefix of what is pending, in order; a run that succeeds brings the database
    to the source; runs can be repeated and resumed; Status foretells what a run does. *)

From S2P Require Import Prelude.
From S2P Require Import GoTime.
From S2P Require Import Order.
From S2P Require Import Strconv.
From S2P Require Import Migrate.

Notation appliedMap := (gmap appliedKey appliedRow).

(** ** Streams *)

Lemma sorted_strict {A} (c : A -> A -> comparison) `{!Cmp c} (l : list A) x y l1 l2 l3 :
  StronglySorted (cmp_le c) l -> l = l1 ++ x :: l2 ++ y :: l3 -> c x y <> Gt.
Proof.
  intros Hs ->. induction l1 as [|a l1 IH]; cbn in Hs; apply StronglySorted_inv in Hs as [Hs Ha]; [|auto].
  rewrite Forall_forall in Ha. apply (Ha y), elem_of_app. right. left.
Qed.

Section Spec.
Context (E : Type) (checksum : string -> string).

(** The migrations of a stream have distinct versions. *)
Definition migs_ok (migs : list Migration) : Prop := NoDup (m_Version <$> migs).

Lemma loadEntries_versions stream entries seen migs migs' :
  loadEntries E checksum stream entries seen migs = Ok migs' ->
  migs_ok migs -> (forall v, is_Some (seen !! v) <-> v ∈ m_Version <$> migs) -> migs_ok migs'.
Proof.
  revert seen migs. induction entries as [|e entries IH]; intros seen migs; cbn [loadEntries].
  { by intros [= ->]. }
  destruct (e_IsDir e); [done|]. destruct (negb _); [apply IH|].
  destruct (matchFilename (e_Name e)) as [[digits name]|]; [|done]. destruct (identTooLong name); [done|].
  destruct (ParseInt digits) as [version|]; [|done]. destruct (seen !! version) as [prev|] eqn:ES; [done|].
  destruct (e_Body e) as [body|]; [|done]. intros H Hd Hs. apply IH in H; [done| |].
  - unfold migs_ok. rewrite fmap_app. apply NoDup_app. split_and!; [done| |apply NoDup_singleton].
    intros v Hv ->%list_elem_of_singleton. apply Hs in Hv. cbn in Hv. rewrite ES in Hv. by destruct Hv.
  - intros v. rewrite fmap_app, elem_of_app, <-Hs. cbn. rewrite list_elem_of_singleton.
    destruct (decide (v = version)) as [->|Hne].
    + rewrite lookup_insert_eq. naive_solver.
    + rewrite lookup_insert_ne by done. naive_solver.
Qed.

(** Loaded streams: distinct names in order, distinct versions in order. *)
Record streams_ok (streams : list stream_) : Prop := {
  so_names : NoDup (st_name <$> streams);
  so_versions : Forall (fun st => migs_ok (st_migs st)) streams;
  so_sorted : StronglySorted (cmp_le (cmp_on st_name cmp_string)) streams;
  so_msorted : Forall (fun st => StronglySorted (cmp_le (cmp_on m_Version cmp_Z)) (st_migs st)) streams
}.

Lemma loadSources_ok i sources seen streams streams' :
  loadSources E checksum i sources seen streams = Ok streams' ->
  NoDup (st_name <$> streams) -> (forall n, n ∈ seen <-> n ∈ st_name <$> streams) ->
  Forall (fun st => migs_ok (st_migs st)) streams ->
  Forall (fun st => StronglySorted (cmp_le (cmp_on m_Version cmp_Z)) (st_migs st)) streams ->
  NoDup (st_name <$> streams') /\ Forall (fun st => migs_ok (st_migs st)) streams' /\
  Forall (fun st => StronglySorted (cmp_le (cmp_on m_Version cmp_Z)) (st_migs st)) streams'.
Proof.
  revert i seen streams. induction sources as [|src sources IH]; intros i seen streams; cbn [loadSources].
  { by intros [= ->]. }
  destruct (src_FS src) as [fsys|]; [|done]. destruct (validateCleanRel (src_Dir src)); [done|].
  destruct (validateCleanRel (src_Stream src)); [done|]. destruct (identTooLong _); [done|].
  case_bool_decide as ES; [done|]. destruct (fsys (src_Dir src)) as [entries|[]]; [|done..].
  unfold loadMigrations. destruct (loadEntries _ _ _ _ _ _) as [migs|e] eqn:EL; [|done].
  apply loadEntries_versions in EL; [|constructor|].
  2:{ intros v. rewrite lookup_empty. split; [by intros []|intros H; by apply not_elem_of_nil in H]. }
  intros H Hd Hs Hv Hm. apply IH in H; [done|..].
  - rewrite fmap_app. apply NoDup_app. split_and!; [done| |apply NoDup_singleton].
    intros n Hn ->%list_elem_of_singleton. by apply ES, Hs.
  - intros n. rewrite fmap_app, elem_of_app, elem_of_union, elem_of_singleton, Hs. cbn.
    rewrite list_elem_of_singleton. tauto.
  - apply Forall_app. split; [done|]. apply Forall_singleton. cbn. unfold migs_ok in *. by rewrite sort_by_perm.
  - apply Forall_app. split; [done|]. apply Forall_singleton. apply sort_by_sorted. apply _.
Qed.

Lemma loadStreams_ok sources streams : loadStreams E checksum sources = Ok streams -> streams_ok streams.
Proof.
  unfold loadStreams. destruct sources as [|src sources]; [done|].
  destruct (loadSources _ _ _ _ _ _) as [ss|e] eqn:EL; [|done]. intros [= <-].
  apply loadSources_ok in EL as (H1 & H2 & H3); [|constructor|set_solver|done|done]. constructor.
  - by rewrite sort_by_perm.
  - by rewrite sort_by_perm.
  - apply sort_by_sorted. apply _.
  - by rewrite sort_by_perm.
Qed.

(** The keys of all migrations are distinct and in order. *)
Lemma allMigrations_keys streams : streams_ok streams -> NoDup ((allMigrations streams).*1).
Proof.
  intros [Hn Hv _ _]. unfold allMigrations. induction streams as [|st streams IH]; [constructor|].
  rewrite fmap_cons, concat_cons, fmap_app. rewrite fmap_cons, NoDup_cons in Hn. destruct Hn as [Hn Hn'].
  apply Forall_cons in Hv as [Hv Hv']. apply NoDup_app. split_and!; [| |by apply IH].
  - rewrite <-list_fmap_compose. unfold compose. cbn. rewrite (list_fmap_compose m_Version (pair (st_name st))).
    apply NoDup_fmap_2; [by intros ?? [= ->]|done].
  - intros k Hk Hk'. apply list_elem_of_fmap in Hk as ([k0 m] & -> & Hk).
    apply list_elem_of_fmap in Hk as (m0 & [= -> ->] & _). cbn in Hk'.
    apply list_elem_of_fmap in Hk' as ([k1 m1] & E1 & Hk1). cbn in E1. subst k1.
    apply elem_of_concat in Hk1 as (l & Hl & Hk1). apply list_elem_of_fmap in Hl as (st' & -> & Hst').
    apply list_elem_of_fmap in Hk1 as (m2 & E2 & _). apply Hn. apply list_elem_of_fmap.
    exists st'. split; [congruence|done].
Qed.

Lemma inSource_lookup streams k m :
  streams_ok streams -> inSource streams !! k = Some m <-> (k, m) ∈ allMigrations streams.
Proof.
  intros Hs%allMigrations_keys. unfold inSource.
  assert (H : forall l (s : gmap appliedKey Migration), NoDup (l.*1) -> (forall k', k' ∈ l.*1 -> s !! k' = None) ->
    fold_left (fun s km => <[km.1 := km.2]> s) l s !! k = Some m <-> s !! k = Some m \/ (k, m) ∈ l).
  { intros l. induction l as [|[k1 m1] l IH]; intros s Hd Hf; cbn [fold_left].
    - pose proof (not_elem_of_nil (k, m)). tauto.
    - rewrite fmap_cons, NoDup_cons in Hd. destruct Hd as [Hn Hd]. rewrite IH; [|done|].
      + rewrite elem_of_cons, lookup_insert_Some. cbn. split.
        * intros [[[-> ->]|[? ?]]|?]; auto.
        * intros [H|[[= -> ->]|H]]; auto. destruct (decide (k1 = k)) as [->|]; [|auto].
          rewrite (Hf k) in H by left. done.
      + intros k' Hk'. cbn. apply lookup_insert_None. split; [apply Hf; by right|]. intros ->. done. }
  rewrite H; [|done|intros k' _; apply lookup_empty]. rewrite lookup_empty. naive_solver.
Qed.

(** ** Drivers *)

(** A transactional driver over a database whose bookkeeping table and committed
    migrations [view] shows: [Apply] commits a body together with its row, or nothing;
    the row's key is a primary key; the table is created empty. This is what the SQLite and
    PostgreSQL drivers document; MySQL commits the schema changes of a failed body. *)
Record LawfulDriver {D} (drv : Driver E D) (view : D -> option appliedMap * list (appliedKey * Migration)) : Prop := {
  law_open : forall d d', drv_OpenSession drv d = Ok d' -> view d' = view d;
  law_exists : forall d b, drv_TableExists drv d = Ok b -> b = true <-> is_Some ((view d).1);
  law_create : forall d e d', drv_CreateTable drv d = (e, d') ->
    view d' = view d \/ (view d).1 = None /\ view d' = (Some ∅, (view d).2);
  law_created : forall d d', drv_CreateTable drv d = (None, d') -> is_Some ((view d').1);
  law_load : forall d m, drv_LoadApplied drv d = Ok m -> (view d).1 = Some m;
  law_apply : forall d s m e d', drv_Apply drv s m d = (Some e, d') -> view d' = view d;
  law_applied : forall d s m d', drv_Apply drv s m d = (None, d') ->
    exists t row, (view d).1 = Some t /\ t !! (s, m_Version m) = None /\
      a_checksum row = m_Checksum m /\ a_name row = m_Name m /\
      view d' = (Some (<[(s, m_Version m) := row]> t), (view d).2 ++ [((s, m_Version m), m)]);
  law_close : forall d e d', drv_Close drv d = (e, d') -> view d' = view d
}.

Section Runs.
Context {D : Type} (drv : Driver E D) (view : D -> option appliedMap * list (appliedKey * Migration)).
Context (law : LawfulDriver drv view).

Definition table (d : D) : appliedMap := default ∅ ((view d).1).
Definition committed (d : D) : list (appliedKey * Migration) := (view d).2.

(** What is left to apply, in order. *)
Definition pending (streams : list stream_) (t : appliedMap) : list (appliedKey * Migration) :=
  filter (fun km => t !! km.1 = None) (allMigrations streams).

(** The rows a list of migrations adds to a table. *)
Definition extended (t t' : appliedMap) (ms : list (appliedKey * Migration)) : Prop :=
  t ⊆ t' /\ dom t' = dom t ∪ list_to_set (ms.*1) /\
  forall k m, (k, m) ∈ ms -> exists row, t' !! k = Some row /\ a_checksum row = m_Checksum m /\ a_name row = m_Name m.

Lemma extended_refl t : extended t t [].
Proof.
  split; [done|]. split.
  - cbn. by rewrite union_empty_r_L.
  - intros k m H. by apply not_elem_of_nil in H.
Qed.

Lemma extended_nil t t' : extended t t' [] -> t' = t.
Proof.
  intros (Hsub & Hdom & _). cbn in Hdom. rewrite union_empty_r_L in Hdom. apply map_eq. intros k.
  destruct (t !! k) as [row|] eqn:Er; [by eapply lookup_weaken|].
  apply not_elem_of_dom. rewrite Hdom. by apply not_elem_of_dom.
Qed.

Lemma extended_step t r k m t' ms :
  t !! k = None -> a_checksum r = m_Checksum m -> a_name r = m_Name m ->
  extended (<[k := r]> t) t' ms -> extended t t' ((k, m) :: ms).
Proof.
  intros Hf Hc Hn (Hsub & Hdom & Hrows). split_and!.
  - etrans; [|exact Hsub]. by apply insert_subseteq.
  - rewrite Hdom, dom_insert_L. cbn. set_solver.
  - intros k' m' [[= -> ->]|Hin]%elem_of_cons; [|auto]. exists r. split; [|done].
    eapply lookup_weaken; [|exact Hsub]. apply lookup_insert_eq.
Qed.

(** The rows of the table agree with the source: no orphan, no drift. *)
Definition clean (streams : list stream_) (t : appliedMap) : Prop :=
  forall k row, t !! k = Some row -> exists m, (k, m) ∈ allMigrations streams /\ a_checksum row = m_Checksum m.

Lemma checkApplied_spec streams applied keys :
  streams_ok streams -> (forall k, k ∈ keys -> is_Some (applied !! k)) ->
  match checkApplied E applied (inSource streams) keys with
  | None => forall k row, k ∈ keys -> applied !! k = Some row ->
              exists m, (k, m) ∈ allMigrations streams /\ a_checksum row = m_Checksum m
  | Some (ErrOrphan s v) => (s, v) ∈ keys /\ forall m, ((s, v), m) ∉ allMigrations streams
  | Some (ErrDrift s v) => exists row m, applied !! (s, v) = Some row /\ ((s, v), m) ∈ allMigrations streams /\
                             a_checksum row <> m_Checksum m
  | Some _ => False
  end.
Proof.
  intros Hs. induction keys as [|k keys IH]; intros Hk; cbn [checkApplied].
  { intros k row H. by apply not_elem_of_nil in H. }
  destruct (Hk k ltac:(left)) as [row Er]. rewrite Er.
  destruct (inSource streams !! k) as [m|] eqn:Em.
  - apply (inSource_lookup streams k m Hs) in Em. case_bool_decide as Ec.
    + destruct k as [s v]. eauto.
    + specialize (IH ltac:(intros k' H'; apply Hk; by right)).
      destruct (checkApplied E applied (inSource streams) keys) as [[]|]; try done.
      * destruct IH as [? ?]. split; [by right|done].
      * intros k' row' [->|H']%elem_of_cons Er'; [|by eapply IH]. rewrite Er in Er'. injection Er' as <-.
        exists m. split; [done|]. by destruct (decide (a_checksum row = m_Checksum m)).
  - destruct k as [s v]. split; [left|]. intros m Hm. apply (inSource_lookup streams (s, v) m Hs) in Hm. congruence.
Qed.

(** [applyPending] commits a prefix of the pending migrations, all of them when it
    succeeds. *)
Lemma applyPending_spec applied migs d e d' :
  applyPending E drv applied migs d = (e, d') -> is_Some ((view d).1) -> NoDup (migs.*1) ->
  (forall km, km ∈ migs -> km.1 = (km.1.1, m_Version km.2)) ->
  let todo := filter (fun km => applied !! km.1 = None) migs in
  exists n, committed d' = committed d ++ take n todo /\ extended (table d) (table d') (take n todo) /\
    is_Some ((view d').1) /\
    match e with
    | None => take n todo = todo
    | Some err => exists s v x, err = ApplyError s v x
    end.
Proof.
  intros H Ht Hd Hkey. cbv zeta. revert d H Ht.
  induction migs as [|[k m] migs IH]; intros d H Ht; cbn [applyPending] in H.
  { injection H as <- <-. exists 0. rewrite app_nil_r. by split_and!; [|apply extended_refl| |]. }
  rewrite fmap_cons, NoDup_cons in Hd. destruct Hd as [Hn Hd].
  assert (Hkey' : forall km, km ∈ migs -> km.1 = (km.1.1, m_Version km.2)) by (intros km Hin; apply Hkey; by right).
  specialize (IH Hd Hkey'). rewrite filter_cons. cbn [fst].
  destruct (applied !! k) as [row|] eqn:EA.
  { rewrite decide_False by done. by apply IH. }
  rewrite decide_True by done.
  destruct (drv_Apply drv k.1 m d) as [[err|] d1] eqn:EP.
  - injection H as <- <-. pose proof (law_apply _ _ law _ _ _ _ _ EP) as Hv. exists 0.
    unfold committed, table. rewrite Hv, app_nil_r. split_and!; [done|apply extended_refl|done|eauto].
  - destruct (law_applied _ _ law _ _ _ _ EP) as (t & r & Et & Hfresh & Hck & Hnm & Hv).
    assert (Ek : (k.1, m_Version m) = k).
    { symmetry. apply (Hkey (k, m)). left. }
    rewrite Ek in *. destruct (IH d1 H) as (n & Hc & (Hsub & Hdom & Hrows) & Hs & He); [by rewrite Hv|].
    exists (S n). unfold committed, table in *. rewrite Hv in Hc, Hsub, Hdom. cbn in *.
    rewrite Et. cbn [default]. split_and!; try done.
    + by rewrite Hc, <-app_assoc.
    + by apply (extended_step t r k m).
    + destruct e; [done|]. by rewrite He.
Qed.
(** ** Whole runs *)

Lemma allMigrations_versions streams km : km ∈ allMigrations streams -> km.1 = (km.1.1, m_Version km.2).
Proof.
  intros H. apply elem_of_concat in H as (l & Hl & H). apply list_elem_of_fmap in Hl as (st & -> & _).
  by apply list_elem_of_fmap in H as (m & -> & _).
Qed.

Lemma checkApplied_clean streams applied :
  streams_ok streams ->
  checkApplied E applied (inSource streams) (sortedKeys applied) = None <-> clean streams applied.
Proof.
  intros Hs.
  assert (Hkeys : forall k, k ∈ sortedKeys applied <-> is_Some (applied !! k)).
  { intros k. unfold sortedKeys. rewrite elem_of_sort_by, list_elem_of_fmap. split.
    - intros ([k' r] & -> & H%elem_of_map_to_list). eauto.
    - intros [r Hr]. exists (k, r). split; [done|]. by apply elem_of_map_to_list. }
  pose proof (checkApplied_spec streams applied (sortedKeys applied) Hs (fun k Hk => proj1 (Hkeys k) Hk)) as HC.
  destruct (checkApplied E applied (inSource streams) (sortedKeys applied)) as [err|].
  - split; [done|]. intros Hcl. exfalso. destruct err; try done.
    + destruct HC as [Hin Hno]. apply Hkeys in Hin as [row Hr]. destruct (Hcl _ _ Hr) as (m & Hm & _). by apply (Hno m).
    + destruct HC as (row & m & Hr & Hm & Hne). destruct (Hcl _ _ Hr) as (m' & Hm' & Hc). apply Hne.
      apply (inSource_lookup streams _ _ Hs) in Hm, Hm'. congruence.
  - split; [|done]. intros _ k row Hr. apply HC; [|done]. apply Hkeys. eauto.
Qed.

(** What a run does: a prefix of the pending migrations, nothing when the table does not
    agree with the source, and everything when it succeeds. *)
Definition ran (streams : list stream_) (d : D) (e : option (migrateError E)) (d' : D) : Prop :=
  exists n, let done_ := take n (pending streams (table d)) in
    committed d' = committed d ++ done_ /\ extended (table d) (table d') done_ /\
    (done_ <> [] -> clean streams (table d)) /\
    (e = None -> clean streams (table d) /\ done_ = pending streams (table d)).

Lemma ran_nothing streams d err d' :
  committed d' = committed d -> table d' = table d -> ran streams d (Some err) d'.
Proof.
  intros Hc Ht. exists 0. cbv zeta. rewrite Hc, Ht, app_nil_r. by split_and!; [|apply extended_refl| |].
Qed.

Lemma ran_view streams d1 e1 d1' d2 e2 d2' :
  view d2 = view d1 -> view d2' = view d1' -> (e2 = None -> e1 = None) ->
  ran streams d1 e1 d1' -> ran streams d2 e2 d2'.
Proof.
  intros H1 H2 He. unfold ran, committed, table. rewrite H1, H2. intros (n & Hc & Hx & Hcl & HN).
  exists n. cbv zeta in *. split_and!; auto.
Qed.

Lemma migrateSession_ran streams d e d' :
  streams_ok streams -> migrateSession E drv streams d = (e, d') -> ran streams d e d'.
Proof.
  intros Hs. unfold migrateSession. destruct (drv_CreateTable drv d) as [cerr d1] eqn:EC.
  assert (Hv : committed d1 = committed d /\ table d1 = table d).
  { unfold committed, table. destruct (law_create _ _ law _ _ _ EC) as [->|[E1 ->]]; [done|]. by rewrite E1. }
  destruct Hv as [Hc Ht]. destruct cerr as [c|]; [intros [= <- <-]; by apply ran_nothing|].
  apply (law_created _ _ law) in EC. destruct (drv_LoadApplied drv d1) as [applied|err] eqn:EL.
  2:{ intros [= <- <-]. by apply ran_nothing. }
  apply (law_load _ _ law) in EL. assert (Ha : applied = table d1) by (unfold table; by rewrite EL).
  pose proof (checkApplied_clean streams applied Hs) as HCk.
  destruct (checkApplied E applied (inSource streams) (sortedKeys applied)) as [err|]; [intros [= <- <-]; by apply ran_nothing|].
  assert (Hcl : clean streams (table d)) by (rewrite <-Ht, <-Ha; by apply HCk).
  intros EA. apply applyPending_spec in EA as (n & H1 & H2 & _ & H3);
    [|done|by apply allMigrations_keys|apply allMigrations_versions].
  rewrite Ha, Ht, Hc in *. exists n. split_and!; [done..|]. intros ->. done.
Qed.

Lemma Migrate_ran sources d e d' :
  Migrate E checksum drv sources d = (e, d') ->
  match loadStreams E checksum sources with
  | Err err => e = Some err /\ d' = d
  | Ok streams => ran streams d e d'
  end.
Proof.
  unfold Migrate. destruct (loadStreams E checksum sources) as [streams|err] eqn:EL; [|by intros [= <- <-]].
  apply loadStreams_ok in EL as Hs. destruct (drv_OpenSession drv d) as [d0|err] eqn:EO.
  2:{ intros [= <- <-]. by apply ran_nothing. }
  apply (law_open _ _ law) in EO. destruct (migrateSession E drv streams d0) as [rerr d1] eqn:EM.
  destruct (drv_Close drv d1) as [cerr d2] eqn:EC. intros [= <- <-]. apply (law_close _ _ law) in EC.
  apply (ran_view streams d0 rerr d1); [done..| |by apply migrateSession_ran].
  by destruct rerr, cerr.
Qed.

(** *** After a run *)

Definition source_keys (streams : list stream_) : gset appliedKey := list_to_set ((allMigrations streams).*1).

(** The table holds exactly the source, with the checksums of its files. *)
Definition up_to_date (streams : list stream_) (t : appliedMap) : Prop :=
  dom t = source_keys streams /\
  forall k m, (k, m) ∈ allMigrations streams -> exists row, t !! k = Some row /\ a_checksum row = m_Checksum m.

Lemma extended_up_to_date streams t t' :
  streams_ok streams -> clean streams t -> extended t t' (pending streams t) -> up_to_date streams t'.
Proof.
  intros Hs Hcl (Hsub & Hdom & Hrows). split.
  - rewrite Hdom. apply set_eq. intros k. unfold source_keys.
    rewrite elem_of_union, !elem_of_list_to_set, elem_of_dom, !list_elem_of_fmap. split.
    + intros [[row Hr]|(km & -> & H)].
      * destruct (Hcl k row Hr) as (m & Hm & _). by exists (k, m).
      * apply list_elem_of_filter in H as [_ H]. eauto.
    + intros (km & -> & H). destruct (t !! km.1) as [row|] eqn:Er; [left; eauto|right].
      exists km. split; [done|]. by apply list_elem_of_filter.
  - intros k m Hm. destruct (t !! k) as [row|] eqn:Er.
    + exists row. split; [by eapply lookup_weaken|]. destruct (Hcl k row Er) as (m' & Hm' & ->).
      apply (inSource_lookup streams _ _ Hs) in Hm, Hm'. congruence.
    + destruct (Hrows k m) as (row & ? & ? & _); [by apply list_elem_of_filter|]. eauto.
Qed.

(** A successful migration brings the database to the source. It succeeds only when
    every recorded migration is in the source with its checksum; then the table holds
    exactly the source's migrations, and what was committed is what was pending, in the
    order of streams and versions. *)
Theorem successful_migration_reaches_the_source sources d d' :
  Migrate E checksum drv sources d = (None, d') ->
  exists streams, loadStreams E checksum sources = Ok streams /\ clean streams (table d) /\
    up_to_date streams (table d') /\ table d ⊆ table d' /\
    committed d' = committed d ++ pending streams (table d).
Proof.
  intros H. apply Migrate_ran in H. destruct (loadStreams E checksum sources) as [streams|err] eqn:EL; [|by destruct H].
  destruct H as (n & Hc & Hx & _ & HN). destruct (HN eq_refl) as [Hcl Hall]. cbv zeta in *. rewrite Hall in *.
  exists streams. split_and!; [done..| |by destruct Hx|done].
  apply (extended_up_to_date streams (table d)); try done. by eapply loadStreams_ok.
Qed.

Lemma filter_drop_taken (l : list (appliedKey * Migration)) n :
  NoDup (l.*1) -> filter (fun km => km.1 ∉ (take n l).*1) l = drop n l.
Proof.
  revert n. induction l as [|[k m] l IH]; intros n Hd; [by destruct n|].
  rewrite fmap_cons, NoDup_cons in Hd. destruct Hd as [Hn Hd]. destruct n as [|n]; cbn [take drop].
  - clear. generalize ((k, m) :: l) as l'. induction l' as [|x l' IH]; [done|]. rewrite filter_cons, decide_True; [by rewrite IH|].
    apply not_elem_of_nil.
  - rewrite filter_cons, decide_False by (intros H; apply H; left). rewrite <-(IH n Hd).
    apply list_filter_ext. intros km Hkm. cbn. rewrite not_elem_of_cons.
    split; [by intros [_ ?]|]. intros ?. split; [|done]. intros <-. apply Hn, list_elem_of_fmap. by exists km.
Qed.

Lemma pending_after streams t t' n :
  streams_ok streams -> extended t t' (take n (pending streams t)) ->
  pending streams t' = drop n (pending streams t).
Proof.
  intros Hs (Hsub & Hdom & _).
  assert (Hd : NoDup ((pending streams t).*1)).
  { unfold pending. pose proof (allMigrations_keys streams Hs) as H. revert H.
    generalize (allMigrations streams) as l. induction l as [|km l IH]; intros H; [constructor|].
    rewrite fmap_cons, NoDup_cons in H. destruct H as [Hn H]. rewrite filter_cons. case_decide; [|auto].
    rewrite fmap_cons, NoDup_cons. split; [|auto]. intros Hin. apply Hn.
    apply list_elem_of_fmap in Hin as (x & E1 & Hx). apply list_elem_of_filter in Hx as [_ Hx].
    apply list_elem_of_fmap. eauto. }
  rewrite <-(filter_drop_taken _ n Hd). clear Hd. revert Hdom.
  generalize (take n (pending streams t)) as l. intros l Hdom. unfold pending.
  rewrite list_filter_filter. apply list_filter_ext. intros km _.
  assert (H : km.1 ∉ dom t' <-> km.1 ∉ dom t /\ km.1 ∉ l.*1).
  { by rewrite Hdom, not_elem_of_union, elem_of_list_to_set. }
  rewrite !not_elem_of_dom in H. tauto.
Qed.

(** C25: a migration can be interrupted and repeated. Whatever a first run did before it
    failed, a later run that succeeds leaves the same migrations committed in the same
    order as one run would have; and after a success a further run commits nothing and
    changes no row. *)
Theorem migrations_resume_and_repeat sources streams d e1 d1 d2 :
  loadStreams E checksum sources = Ok streams ->
  Migrate E checksum drv sources d = (e1, d1) -> Migrate E checksum drv sources d1 = (None, d2) ->
  committed d2 = committed d ++ pending streams (table d) /\ up_to_date streams (table d2) /\
  forall e3 d3, Migrate E checksum drv sources d2 = (e3, d3) ->
    committed d3 = committed d2 /\ table d3 = table d2.
Proof.
  intros EL H1 H2. pose proof (loadStreams_ok _ _ EL) as Hs.
  apply Migrate_ran in H1, H2. rewrite EL in H1, H2.
  destruct H1 as (n & Hc1 & Hx1 & _ & _), H2 as (n2 & Hc2 & Hx2 & _ & HN). cbv zeta in *.
  destruct (HN eq_refl) as [Hcl Hall]. rewrite Hall in *.
  pose proof (pending_after streams _ _ n Hs Hx1) as HP.
  assert (HU : up_to_date streams (table d2)) by by apply (extended_up_to_date streams (table d1)).
  split_and!; [|done|].
  - by rewrite Hc2, Hc1, HP, <-app_assoc, take_drop.
  - intros e3 d3 H3. apply Migrate_ran in H3. rewrite EL in H3. destruct H3 as (n3 & Hc3 & Hx3 & _). cbv zeta in *.
    assert (Hnil : pending streams (table d2) = []).
    { destruct (pending streams (table d2)) as [|km l] eqn:EP; [done|]. exfalso.
      assert (Hin : km ∈ pending streams (table d2)) by (rewrite EP; left).
      apply list_elem_of_filter in Hin as [Hf Hin]. destruct km as [k m]. destruct (proj2 HU k m Hin) as (row & Hr & _).
      cbn in Hf. congruence. }
    rewrite Hnil, take_nil in Hc3, Hx3. rewrite app_nil_r in Hc3. split; [done|].
    by apply extended_nil.
Qed.

(** *** Status *)

Lemma key_cmp_eq x y : key_cmp x y = Eq -> x = y.
Proof.
  destruct x as [s v], y as [s' v']. unfold key_cmp, cmp_then, cmp_on, cmp_string, cmp_Z. cbn.
  destruct (String.compare s s') eqn:Es; try done. intros Hv%Z.compare_eq.
  apply String.compare_eq_iff in Es. congruence.
Qed.

#[local] Instance key_antisymm : AntiSymm (=) (cmp_le key_cmp).
Proof.
  intros x y Hxy Hyx. apply key_cmp_eq. unfold cmp_le in *. destruct (key_cmp x y) eqn:Ec; [done| |done].
  by apply (cmp_Lt_Gt key_cmp) in Ec.
Qed.

Lemma StronglySorted_sublist {A} (R : A -> A -> Prop) l l' :
  l `sublist_of` l' -> StronglySorted R l' -> StronglySorted R l.
Proof.
  induction 1 as [|x l l' Hl IH|x l l' Hl IH]; intros Hs; [done| |]; apply StronglySorted_inv in Hs as [Hs Hx]; [|auto].
  constructor; [auto|]. rewrite Forall_forall in *. intros y Hy. apply Hx. eapply elem_of_sublist; eauto.
Qed.

Lemma allMigrations_sorted streams :
  streams_ok streams -> StronglySorted (cmp_le key_cmp) ((allMigrations streams).*1).
Proof.
  intros [Hn _ Hs Hm]. induction streams as [|st streams IH]; [constructor|].
  unfold allMigrations. rewrite fmap_cons, concat_cons, fmap_app.
  rewrite fmap_cons, NoDup_cons in Hn. destruct Hn as [Hn Hn'].
  apply StronglySorted_inv in Hs as [Hs Hst]. apply Forall_cons in Hm as [Hm1 Hm].
  specialize (IH Hn' Hs Hm).
  apply StronglySorted_app_2; [|rewrite <-list_fmap_compose; apply (StronglySorted_fmap _ (cmp_le (cmp_on m_Version cmp_Z)))|done].
  - intros k k' Hk Hk'. apply list_elem_of_fmap in Hk as (km0 & -> & Hk). apply list_elem_of_fmap in Hk as (m & -> & _).
    apply list_elem_of_fmap in Hk' as (km & -> & Hk'). apply elem_of_concat in Hk' as (l & Hl & Hk').
    apply list_elem_of_fmap in Hl as (st' & -> & Hst'). apply list_elem_of_fmap in Hk' as (m' & -> & _).
    rewrite Forall_forall in Hst. specialize (Hst st' Hst'). unfold cmp_le, key_cmp, cmp_then, cmp_on, cmp_string in *.
    cbn. destruct (String.compare (st_name st) (st_name st')) eqn:Ec; try done.
    apply String.compare_eq_iff in Ec. exfalso. apply Hn, list_elem_of_fmap. by exists st'.
  - intros m m'. unfold cmp_le, key_cmp, cmp_then, cmp_on, cmp_string. cbn.
    by rewrite (cmp_refl cmp_string).
  - done.
Qed.

Lemma sourceStatus_key t km : status_key (sourceStatus t km) = km.1.
Proof. destruct km as [[s v] m]. unfold sourceStatus, status_key. by case_match. Qed.

Lemma sourceStatus_state t k m :
  s_State (sourceStatus t (k, m)) =
  match t !! k with
  | None => StatePending
  | Some row => if bool_decide (a_checksum row <> m_Checksum m) then StateDrifted else StateApplied
  end.
Proof. unfold sourceStatus. by destruct (t !! k). Qed.

Lemma status_keys_perm streams t :
  status_key <$> statusRows streams t
  ≡ₚ (allMigrations streams).*1 ++ (filter (fun kr => kr.1 ∉ (allMigrations streams).*1) (map_to_list t)).*1.
Proof.
  unfold statusRows. rewrite sort_by_perm, fmap_app, <-!list_fmap_compose.
  match goal with |- ?l ≡ₚ ?l' => enough (l = l') as -> by done end. f_equal.
  - apply list_fmap_ext. intros i km _. apply sourceStatus_key.
  - apply list_fmap_ext. by intros i [[s v] r] _.
Qed.

Lemma status_key_elem streams t k :
  k ∈ status_key <$> statusRows streams t <-> k ∈ (allMigrations streams).*1 \/ is_Some (t !! k).
Proof.
  rewrite status_keys_perm, elem_of_app. split.
  - intros [H|H]; [by left|]. right. apply list_elem_of_fmap in H as ([k' r] & -> & H).
    apply list_elem_of_filter in H as [_ H%elem_of_map_to_list]. eauto.
  - intros [H|[r H]]; [by left|]. destruct (decide (k ∈ (allMigrations streams).*1)) as [|Hn]; [by left|].
    right. apply list_elem_of_fmap. exists (k, r). split; [done|]. apply list_elem_of_filter.
    split; [done|]. by apply elem_of_map_to_list.
Qed.

Lemma status_keys_nodup streams t :
  streams_ok streams -> NoDup (status_key <$> statusRows streams t).
Proof.
  intros Hs. rewrite status_keys_perm. apply NoDup_app. split_and!; [by apply allMigrations_keys| |].
  - intros k Hk H. apply list_elem_of_fmap in H as (kr & -> & H). by apply list_elem_of_filter in H as [H _].
  - eapply sublist_NoDup; [apply (NoDup_fst_map_to_list t)|]. apply fmap_sublist, sublist_filter.
Qed.

#[local] Instance State_eq_dec : EqDecision State.
Proof. solve_decision. Defined.

(** The keys of the rows in a state, in the order shown. *)
Definition keys_in (st : State) (rows : list MigrationStatus) : list appliedKey :=
  status_key <$> filter (fun r => s_State r = st) rows.

Lemma keys_in_nil st rows : keys_in st rows = [] <-> forall row, row ∈ rows -> s_State row <> st.
Proof.
  unfold keys_in. induction rows as [|row rows IH]; [split; [intros _ row H; by apply not_elem_of_nil in H|done]|].
  rewrite filter_cons. case_decide as Hd.
  - split; [done|]. intros H. exfalso. apply (H row); [left|done].
  - rewrite IH. split; intros H r; [intros [->|Hr]%elem_of_cons; auto|]. intros Hr. apply H. by right.
Qed.

(** No row is drifted or orphaned. *)
Definition agreeing (rows : list MigrationStatus) : Prop :=
  forall row, row ∈ rows -> s_State row <> StateDrifted /\ s_State row <> StateOrphan.

Lemma agreeing_dec rows :
  agreeing rows \/ exists row, row ∈ rows /\ (s_State row = StateDrifted \/ s_State row = StateOrphan).
Proof.
  induction rows as [|row rows IH]; [left; intros row H; by apply not_elem_of_nil in H|].
  destruct IH as [IH|(r & Hr & H)]; [|right; exists r; by split; [right|]].
  destruct (decide (s_State row = StateDrifted \/ s_State row = StateOrphan)) as [Hy|Hn].
  - right. exists row. by split; [left|].
  - left. intros r [->|Hr]%elem_of_cons; [tauto|auto].
Qed.

Lemma keys_in_elem streams t st k :
  k ∈ keys_in st (statusRows streams t) <->
  (exists m, (k, m) ∈ allMigrations streams /\ s_State (sourceStatus t (k, m)) = st) \/
  (exists r, t !! k = Some r /\ k ∉ (allMigrations streams).*1 /\ st = StateOrphan).
Proof.
  unfold keys_in, statusRows. rewrite list_elem_of_fmap. split.
  - intros (row & -> & H). apply list_elem_of_filter in H as [Hst H].
    rewrite elem_of_sort_by, elem_of_app in H. destruct H as [H|H]; apply list_elem_of_fmap in H.
    + destruct H as ([[s v] m] & -> & H). left. exists m. by rewrite sourceStatus_key.
    + destruct H as ([[s v] r] & -> & H). apply list_elem_of_filter in H as [Hn H%elem_of_map_to_list].
      right. exists r. by subst st.
  - intros [(m & H & Hst)|(r & H & Hn & ->)].
    + exists (sourceStatus t (k, m)). split.
      * by rewrite sourceStatus_key.
      * apply list_elem_of_filter. split; [done|]. rewrite elem_of_sort_by, elem_of_app, !list_elem_of_fmap. eauto.
    + exists (orphanStatus (k, r)). destruct k as [s v]. split; [done|]. apply list_elem_of_filter. split; [done|].
      rewrite elem_of_sort_by, elem_of_app, !list_elem_of_fmap. right. exists ((s, v), r). split; [done|].
      apply list_elem_of_filter. split; [done|]. by apply elem_of_map_to_list.
Qed.

Lemma pending_of_source t migs :
  status_key <$> filter (fun r => s_State r = StatePending) (sourceStatus t <$> migs)
  = (filter (fun km => t !! km.1 = None) migs).*1.
Proof.
  induction migs as [|[k m] migs IH]; [done|]. rewrite fmap_cons, !filter_cons.
  assert (H : s_State (sourceStatus t (k, m)) = StatePending <-> t !! k = None).
  { rewrite sourceStatus_state. destruct (t !! k); [|done]. by case_bool_decide. }
  case_decide as H1; case_decide as H2; cbn [fst] in H2; [|tauto..|done].
  by rewrite !fmap_cons, sourceStatus_key, IH.
Qed.

Lemma pending_rows streams t :
  streams_ok streams -> keys_in StatePending (statusRows streams t) = (pending streams t).*1.
Proof.
  intros Hs. unfold keys_in, pending. apply (StronglySorted_unique (cmp_le key_cmp)).
  - apply (StronglySorted_fmap _ (cmp_le (cmp_on status_key key_cmp))); [done|].
    apply StronglySorted_filter, sort_by_sorted. apply _.
  - eapply StronglySorted_sublist; [|by apply allMigrations_sorted]. apply fmap_sublist, sublist_filter.
  - unfold statusRows. rewrite sort_by_perm, filter_app, fmap_app, pending_of_source.
    match goal with |- ?l ++ ?l' ≡ₚ _ => enough (l' = []) as -> by by rewrite app_nil_r end.
    generalize (filter (fun kr => kr.1 ∉ (allMigrations streams).*1) (map_to_list t)) as l.
    induction l as [|[[s v] r] l IH]; [done|]. rewrite fmap_cons, filter_cons. by rewrite decide_False by done.
Qed.

Lemma clean_rows streams t :
  streams_ok streams ->
  clean streams t <-> agreeing (statusRows streams t).
Proof.
  intros Hs. split.
  - intros Hcl. assert (Hno : forall st, st = StateDrifted \/ st = StateOrphan -> keys_in st (statusRows streams t) = []).
    2:{ intros row Hrow. split; [apply (keys_in_nil StateDrifted (statusRows streams t))|
        apply (keys_in_nil StateOrphan (statusRows streams t))]; auto. }
    intros st Hst. apply elem_of_nil_inv. intros k Hk. apply keys_in_elem in Hk as [(m & Hm & E1)|(r & Hr & Hn & _)].
    + rewrite sourceStatus_state in E1. destruct (t !! k) as [r|] eqn:Er; [|naive_solver].
      destruct (Hcl _ _ Er) as (m' & Hm' & Hc). apply (inSource_lookup streams _ _ Hs) in Hm, Hm'.
      assert (m' = m) as -> by congruence. rewrite bool_decide_eq_false_2 in E1 by (by intros []). naive_solver.
    + destruct (Hcl _ _ Hr) as (m & Hm & _). apply Hn, list_elem_of_fmap. by exists (k, m).
  - intros Ha k r Hr.
    assert (HD : keys_in StateDrifted (statusRows streams t) = []) by (apply keys_in_nil; intros row Hrow; by apply Ha).
    assert (HO : keys_in StateOrphan (statusRows streams t) = []) by (apply keys_in_nil; intros row Hrow; by apply Ha).
    destruct (decide (k ∈ (allMigrations streams).*1)) as [Hin|Hn].
    + apply list_elem_of_fmap in Hin as ([k' m] & -> & Hm). exists m. split; [done|].
      destruct (decide (a_checksum r = m_Checksum m)) as [|Hne]; [done|]. exfalso.
      assert (Hk : k' ∈ keys_in StateDrifted (statusRows streams t)); [|rewrite HD in Hk; by apply not_elem_of_nil in Hk].
      apply keys_in_elem. left. exists m. split; [done|]. destruct k' as [s v]. rewrite sourceStatus_state.
      cbn in Hr. rewrite Hr. by rewrite bool_decide_eq_true_2.
    + exfalso. assert (Hk : k ∈ keys_in StateOrphan (statusRows streams t)); [|rewrite HO in Hk; by apply not_elem_of_nil in Hk].
      apply keys_in_elem. right. eauto.
Qed.

(** The row that is shown for a migration of the source: with its file's checksum, and
    with the checksum and the time of the table when the table has it. *)
Definition shows_source (t : appliedMap) (stream : string) (m : Migration) (row : MigrationStatus) : Prop :=
  s_Stream row = stream /\ s_Version row = m_Version m /\ s_Name row = m_Name m /\ s_FileChecksum row = m_Checksum m /\
  match t !! ((stream, m_Version m) : appliedKey) with
  | None => s_Checksum row = EmptyString /\ s_AppliedAt row = None /\ s_State row = StatePending
  | Some r => s_Checksum row = a_checksum r /\ s_AppliedAt row = Some (a_appliedAt r) /\
      (a_checksum r = m_Checksum m -> s_State row = StateApplied) /\
      (a_checksum r <> m_Checksum m -> s_State row = StateDrifted)
  end.

(** The row that is shown for a row of the table that no source has. *)
Definition shows_orphan (stream : string) (version : Z) (r : appliedRow) (row : MigrationStatus) : Prop :=
  row = mkStatus stream version (a_name r) (a_checksum r) EmptyString (Some (a_appliedAt r)) StateOrphan.

Definition of_streams (streams : list stream_) (stream : string) (m : Migration) : Prop :=
  exists st, st ∈ streams /\ st_name st = stream /\ m ∈ st_migs st.

Lemma allMigrations_elem streams k m :
  (k, m) ∈ allMigrations streams <-> exists stream, k = (stream, m_Version m) /\ of_streams streams stream m.
Proof.
  unfold allMigrations, of_streams. rewrite elem_of_concat. split.
  - intros (l & (st & -> & Hst)%list_elem_of_fmap & (m' & Ek & Hm)%list_elem_of_fmap). simplify_eq.
    exists (st_name st). split; [done|]. by exists st.
  - intros (stream & -> & st & Hst & <- & Hm).
    exists ((fun m => ((st_name st, m_Version m), m)) <$> st_migs st). split.
    + by apply (list_elem_of_fmap_2 (fun st => (fun m => ((st_name st, m_Version m), m)) <$> st_migs st)).
    + by apply (list_elem_of_fmap_2 (fun m => ((st_name st, m_Version m), m))).
Qed.

Lemma sourceStatus_shows t stream m row :
  row = sourceStatus t ((stream, m_Version m), m) <-> shows_source t stream m row.
Proof.
  unfold sourceStatus, shows_source. cbn [fst snd]. destruct (t !! ((stream, m_Version m) : appliedKey)) as [r|].
  - split.
    + intros ->. cbn. split_and!; [done..| |]; intros Hx; case_bool_decide; done.
    + intros (E1 & E2 & E3 & E4 & E5 & E6 & H1 & H2). destruct row. cbn in *. subst.
      case_bool_decide as Hd; [by rewrite H2|]. by rewrite (H1 Hd).
  - split; [by intros ->|]. intros (E1 & E2 & E3 & E4 & E5 & E6 & E7). destruct row. cbn in *. by subst.
Qed.

Lemma statusRows_elem streams t row :
  row ∈ statusRows streams t <->
  (exists stream m, of_streams streams stream m /\ shows_source t stream m row) \/
  (exists stream version r, t !! (stream, version) = Some r /\
     (forall m, of_streams streams stream m -> m_Version m <> version) /\ shows_orphan stream version r row).
Proof.
  unfold statusRows. rewrite elem_of_sort_by, elem_of_app, !list_elem_of_fmap. split.
  - intros [([k m] & -> & (stream & -> & Hm)%allMigrations_elem)|([[s v] r] & -> & [Hn Hr%elem_of_map_to_list]%list_elem_of_filter)].
    + left. exists stream, m. split; [done|]. by apply sourceStatus_shows.
    + right. exists s, v, r. split_and!; [done| |done]. intros m Hm Hv. apply Hn, list_elem_of_fmap.
      exists ((s, v), m). split; [done|]. apply allMigrations_elem. exists s. by rewrite Hv.
  - intros [(stream & m & Hm & Hs)|(s & v & r & Hr & Hn & Hs)].
    + left. eexists. split; [by apply sourceStatus_shows|]. apply allMigrations_elem. by exists stream.
    + right. exists ((s, v), r). split; [done|]. apply list_elem_of_filter. split; [|by apply elem_of_map_to_list].
      intros ([k m] & Ek & (stream & -> & Hm)%allMigrations_elem)%list_elem_of_fmap. simpl in Ek. simplify_eq. by apply (Hn m).
Qed.

(** C26: Status foretells what Migrate does. Its rows are exactly these, each once, in the
    order of streams and versions: for every migration of the sources one row with its
    name and checksum, applied, pending or drifted as the table has it with the same
    checksum, not at all, or with another; and for every other row of the table one that is
    orphaned. When no row is drifted or orphaned, the pending rows are, in the order shown,
    exactly what a successful run commits; when one is, every run fails and changes
    nothing. *)
Theorem status_foretells_the_run sources d rows e d' :
  Status E checksum drv sources d = Ok rows -> Migrate E checksum drv sources d = (e, d') ->
  (exists streams, loadStreams E checksum sources = Ok streams /\
    NoDup (status_key <$> rows) /\ StronglySorted (cmp_le (cmp_on status_key key_cmp)) rows /\
    forall row, row ∈ rows <->
      (exists stream m, of_streams streams stream m /\ shows_source (table d) stream m row) \/
      (exists stream version r, table d !! (stream, version) = Some r /\
         (forall m, of_streams streams stream m -> m_Version m <> version) /\ shows_orphan stream version r row)) /\
  (agreeing rows /\
     (e = None -> exists ms, committed d' = committed d ++ ms /\ ms.*1 = keys_in StatePending rows)
   \/ ~ agreeing rows /\ e <> None /\ committed d' = committed d /\ table d' = table d).
Proof.
  intros HS HM%Migrate_ran. unfold Status in HS.
  destruct (loadStreams E checksum sources) as [streams|err] eqn:EL; [|done].
  pose proof (loadStreams_ok _ _ EL) as Hs.
  assert (Hrows : rows = statusRows streams (table d)).
  { destruct (drv_TableExists drv d) as [ex|] eqn:EX; [|done]. apply (law_exists _ _ law) in EX. unfold table.
    destruct ex.
    - destruct (drv_LoadApplied drv d) as [applied|] eqn:ELd; [|done]. apply (law_load _ _ law) in ELd.
      rewrite ELd. by injection HS as <-.
    - injection HS as <-. destruct (view d).1 as [t|]; [|done]. discriminate (proj2 EX (ex_intro _ t eq_refl)). }
  subst rows. clear HS. destruct HM as (n & Hc & Hx & Hcl & HN). cbv zeta in *.
  pose proof (clean_rows streams (table d) Hs) as Hclean.
  assert (Hno : ~ clean streams (table d) -> take n (pending streams (table d)) = []).
  { intros Hn. by destruct (take n (pending streams (table d))) as [|km l]; [|exfalso; apply Hn, Hcl]. }
  split.
  { exists streams. split_and!; [done|by apply status_keys_nodup|apply sort_by_sorted; apply _|].
    intros row. apply statusRows_elem. }
  destruct (agreeing_dec (statusRows streams (table d))) as [Ha|(row & Hrow & Hst)].
  - left. split; [done|]. intros ->. destruct (HN eq_refl) as [_ Hall]. eexists. split; [exact Hc|].
    by rewrite Hall, pending_rows.
  - right. assert (Ha : ~ agreeing (statusRows streams (table d))) by (intros Ha; destruct (Ha row Hrow); naive_solver).
    rewrite <-Hclean in Ha. rewrite (Hno Ha) in *. split_and!.
    + by rewrite <-Hclean.
    + intros ->. by apply Ha, HN.
    + by rewrite app_nil_r in Hc.
    + by apply extended_nil.
Qed.
End Runs.
End Spec.
