(* ===== verification/MigrateRun.v ===== *)
(** A database in memory as a driver of the migration engine, and runs on it: a migration
    that fails half way and is resumed, and a status report before and after. *)

From S2P Require Import Prelude.
From S2P Require Import GoTime.
From S2P Require Import Order.
From S2P Require Import Strconv.
From S2P Require Import Migrate.
From S2P Require Import MigrateSpec.

Local Open Scope string_scope.

(** ** The driver *)

(** The table, what was committed, whether a session holds the lock, and which of the
    next calls to [Apply] fail. *)
Record Db := mkDb {
  db_table : option (gmap appliedKey appliedRow);
  db_log : list (appliedKey * Migration);
  db_locked : bool;
  db_faults : list bool
}.

Definition db_view (d : Db) : option (gmap appliedKey appliedRow) * list (appliedKey * Migration) :=
  (db_table d, db_log d).

Definition db_driver : Driver string Db := {|
  drv_OpenSession d :=
    if db_locked d then Err "lock held" else Ok (mkDb (db_table d) (db_log d) true (db_faults d));
  drv_TableExists d := Ok (bool_decide (is_Some (db_table d)));
  drv_CreateTable d := (None, mkDb (Some (default ∅ (db_table d))) (db_log d) (db_locked d) (db_faults d));
  drv_LoadApplied d := match db_table d with Some t => Ok t | None => Err "no such table" end;
  drv_Apply stream m d :=
    match db_faults d, db_table d with
    | true :: faults, _ => (Some "syntax error", mkDb (db_table d) (db_log d) (db_locked d) faults)
    | _, None => (Some "no such table", d)
    | _, Some t =>
        let k := (stream, m_Version m) in
        if bool_decide (is_Some (t !! k)) then (Some "duplicate key", d)
        else (None, mkDb (Some (<[k := mkRow (m_Name m) (m_Checksum m) 0%Z]> t)) (db_log d ++ [(k, m)])
                      (db_locked d) (tail (db_faults d)))
    end;
  drv_Close d := (None, mkDb (db_table d) (db_log d) false (db_faults d))
|}.

Lemma db_lawful : LawfulDriver string db_driver db_view.
Proof.
  split; cbn [db_driver drv_OpenSession drv_TableExists drv_CreateTable drv_LoadApplied drv_Apply drv_Close];
    unfold db_view; intros.
  - destruct (db_locked d); [done|]. by injection H as <-.
  - injection H as <-. apply bool_decide_eq_true.
  - injection H as <- <-. cbn. destruct (db_table d); [by left|by right].
  - injection H as <-. cbn. eauto.
  - destruct (db_table d); [|done]. by injection H as <-.
  - destruct (db_faults d) as [|[] faults], (db_table d) as [t|] eqn:Et;
      try (by injection H as _ <-; cbn; rewrite ?Et); case_bool_decide; try done; by injection H as _ <-; cbn; rewrite Et.
  - destruct (db_faults d) as [|[] faults], (db_table d) as [t|] eqn:Et; try done; case_bool_decide as Hk; try done;
      injection H as <-; exists t, (mkRow (m_Name m) (m_Checksum m) 0%Z); cbn; split_and!; try done; by apply eq_None_not_Some.
  - by injection H as <- <-.
Qed.

(** ** Sources *)

Definition digest (body : string) : string := "sha256:" +:+ body.

Definition file (name body : string) : dirEntry := mkEntry name false (Some body).

Definition tree (entries : list dirEntry) : option (string -> result fsError (list dirEntry)) :=
  Some (fun dir => if bool_decide (dir = "") then Ok entries else Err ReadDirFailed).

Definition app_files : list dirEntry :=
  [file "0010_index.sql" "create index"; file "0002_users.sql" "create table"; file "README.md" "notes"].

Definition app_source : list Source :=
  [mkSource "jobs" (tree [file "1_jobs.sql" "create jobs"]) ""; mkSource "app" (tree app_files) ""].

Definition fresh (faults : list bool) : Db := mkDb None [] false faults.

Definition go (d : Db) : option (migrateError string) * Db := Migrate string digest db_driver app_source d.
Definition report (d : Db) := Status string digest db_driver app_source d.

Definition app_streams : list stream_ :=
  match loadStreams string digest app_source with Ok streams => streams | Err _ => [] end.

(** The second of three migrations fails. *)
Definition broken : Db := (go (fresh [false; true])).2.

Lemma files_witness :
  loadMigrations string digest "app" app_files =
    Ok [mkMigration 2 "users" "create table" (digest "create table");
        mkMigration 10 "index" "create index" (digest "create index")].
Proof.
  apply (migration_files_are_loaded_exactly string digest "app" app_files).
  exists [mkMigration 10 "index" "create index" (digest "create index");
          mkMigration 2 "users" "create table" (digest "create table")].
  split; [|split; [|split; [|reflexivity]]].
  - apply Forall2_cons_2; [exists "0010"|apply Forall2_cons_2; [exists "0002"|apply Forall2_nil_2]];
      (split; [split; [discriminate|reflexivity]|]); (split; [reflexivity|]);
      (split; [split; [discriminate|reflexivity]|]); (split; [cbn; lia|]); repeat split.
  - repeat constructor.
  - apply (bool_decide_unpack (NoDup _)). vm_compute. exact I.
Defined.

Lemma success_witness : exists streams,
  loadStreams string digest app_source = Ok streams /\ up_to_date streams (table db_view (go (fresh [])).2).
Proof.
  destruct (successful_migration_reaches_the_source string digest db_driver db_view db_lawful app_source (fresh [])
    (go (fresh [])).2) as (streams & EL & _ & HU & _).
  - vm_compute. reflexivity.
  - exists streams. split; [exact EL|exact HU].
Defined.

(** The failed run committed one migration; the next one commits the other two. *)
Lemma resume_witness :
  (fst <$> db_log broken = [("app", 2%Z)]) /\
  committed db_view (go broken).2 = pending app_streams ∅ /\
  (fst <$> pending app_streams ∅ = [("app", 2%Z); ("app", 10%Z); ("jobs", 1%Z)]).
Proof.
  split; [vm_compute; reflexivity|]. split; [|vm_compute; reflexivity].
  refine (proj1 (migrations_resume_and_repeat string digest db_driver db_view db_lawful app_source app_streams
    (fresh [false; true]) (go (fresh [false; true])).1 broken (go broken).2 _ _ _)).
  - vm_compute. reflexivity.
  - apply surjective_pairing.
  - vm_compute. reflexivity.
Defined.

(** A table with a row of another file's contents: status says drifted, Migrate refuses. *)
Definition edited : Db :=
  mkDb (Some {[ ("app", 2%Z) := mkRow "users" "sha256:other" 0%Z; ("gone", 1%Z) := mkRow "old" "sha256:old" 0%Z ]}) [] false [].

Definition rows_of (r : result (migrateError string) (list MigrationStatus)) : list MigrationStatus :=
  match r with Ok rows => rows | Err _ => [] end.

Lemma status_witness :
  (s_State <$> rows_of (report edited) = [StateDrifted; StatePending; StateOrphan; StatePending]) /\
  StronglySorted (cmp_le (cmp_on status_key key_cmp)) (rows_of (report edited)) /\
  (go edited).1 = Some (ErrDrift "app" 2).
Proof.
  split; [vm_compute; reflexivity|]. split; [|vm_compute; reflexivity].
  assert (HS : report edited = Ok (rows_of (report edited))) by (vm_compute; reflexivity).
  destruct (status_foretells_the_run string digest db_driver db_view db_lawful app_source edited
    (rows_of (report edited)) (go edited).1 (go edited).2 HS (surjective_pairing _)) as [(_ & _ & _ & Hsorted & _) _].
  exact Hsorted.
Defined.
