(* ===== verification/Password.v ===== *)
(** Password hashes: src/auth/password/hasher.go.

    The Argon2 key derivation is an argument of the model, and so is the salt each call
    draws. Lengths are counted in bytes. *)

From S2P Require Import Prelude.
From S2P Require Import Strconv.
From S2P Require Import Strings.

Local Open Scope Z_scope.

Definition blen (s : string) : Z := Z.of_nat (String.length s).

Definition MaxPasswordLen : Z := 512.

(** ** Profiles *)

Record Argon2id := mkArgon2id { Time : Z; MemoryKiB : Z; Parallelism : Z }.
Record profile := mkProfile { time : Z; memory : Z; lanes : Z }.

#[export] Instance profile_eq_dec : EqDecision profile.
Proof. solve_decision. Defined.

Definition defaultTime : Z := 2.
Definition defaultMemoryKiB : Z := 19456.
Definition defaultLanes : Z := 1.
Definition saltLen : Z := 16.
Definition keyLen : Z := 32.

Definition minTime : Z := 1.
Definition maxTime : Z := 16.
Definition minMemoryKiB : Z := 8192.
Definition maxMemoryKiB : Z := 131072.
Definition minLanes : Z := 1.
Definition maxLanes : Z := 16.
Definition minSaltLen : Z := 8.
Definition maxSaltLen : Z := 64.
Definition minKeyLen : Z := 16.
Definition maxKeyLen : Z := 64.

Definition phcVersion : Z := 19.

Local Open Scope string_scope.
Local Open Scope go_scope.

Definition maxEncodedLen : Z :=
  (blen "$argon2id$v=19$m=131072,t=16,p=16$" + 2 * ((maxSaltLen * 8 + 5) / 6) + 1 + 16)%Z.

Inductive phcFault :=
| TooLong
| Segments (got : Z)
| Algorithm (name : string)
| NotField (field name : string)
| BadNumber (name : string)
| WrongVersion (v : Z)
| Parameters (got : Z)
| OutOfRange (name : string) (v : Z)
| BadLength (name : string)
| BadBase64 (name : string).

Inductive hashError :=
| ErrMismatch
| ErrInvalidHash (f : phcFault)
| BadProfile (name : string) (v : Z)
| InputTooLong.

Definition outside (v lo hi : Z) : bool := ((v <? lo) || (v >? hi))%Z.

Definition resolve (a : Argon2id) : result hashError profile :=
  let p := mkProfile (if (Time a =? 0)%Z then defaultTime else Time a)
                     (if (MemoryKiB a =? 0)%Z then defaultMemoryKiB else MemoryKiB a)
                     (if (Parallelism a =? 0)%Z then defaultLanes else Parallelism a) in
  if outside (time p) minTime maxTime then Err (BadProfile "t" (time p))
  else if outside (memory p) minMemoryKiB maxMemoryKiB then Err (BadProfile "m" (memory p))
  else if outside (lanes p) minLanes maxLanes then Err (BadProfile "p" (lanes p))
  else Ok p.

(** ** base64.RawStdEncoding: the URL alphabet with its last two characters replaced *)

Fixpoint map_string (f : Ascii.ascii -> Ascii.ascii) (s : string) : string :=
  match s with EmptyString => EmptyString | String a s => String (f a) (map_string f s) end.

Definition url_to_std (a : Ascii.ascii) : Ascii.ascii :=
  if bool_decide (a = "-"%char) then "+"%char else if bool_decide (a = "_"%char) then "/"%char else a.
Definition std_to_url (a : Ascii.ascii) : Ascii.ascii :=
  if bool_decide (a = "+"%char) then "-"%char else if bool_decide (a = "/"%char) then "_"%char else a.

Definition EncodeToString (s : string) : string := map_string url_to_std (b64_encode s).
Definition DecodeString (s : string) : option string :=
  if free_of "-" s && free_of "_" s then b64_decode (map_string std_to_url s) else None.
Definition DecodedLen (n : Z) : Z := (n * 6 / 8)%Z.

(** ** The PHC string *)

Definition format (p : profile) (salt key : string) : string :=
  "$argon2id$v=" +:+ FormatInt phcVersion +:+ "$m=" +:+ FormatInt (memory p) +:+ ",t=" +:+ FormatInt (time p)
    +:+ ",p=" +:+ FormatInt (lanes p) +:+ "$" +:+ EncodeToString salt +:+ "$" +:+ EncodeToString key.

(** [strconv.ParseUint(s, 10, 32)] *)
Definition ParseUint32 (s : string) : option Z :=
  match s with
  | EmptyString => None
  | _ => match parse_digits 0 s with
         | Some z => if (z <? 4294967296)%Z then Some z else None
         | None => None
         end
  end.

Definition numField (s name : string) : result phcFault Z :=
  match CutPrefix s (name +:+ "=") with
  | None => Err (NotField s name)
  | Some rest => match ParseUint32 rest with None => Err (BadNumber name) | Some n => Ok n end
  end.

Definition decodeBounded (s name : string) (minLen maxLen : Z) : result phcFault string :=
  if outside (DecodedLen (blen s)) minLen maxLen then Err (BadLength name)
  else match DecodeString s with
       | None => Err (BadBase64 name)
       | Some out => if outside (blen out) minLen maxLen then Err (BadLength name) else Ok out
       end.

(** The checks of the costs and what follows them. *)
Definition decodeCosts (costs : list string) (salt key : string) : result phcFault (profile * string * string) :=
  match costs with
  | [c0; c1; c2] =>
      let? memory := numField c0 "m" in let? time := numField c1 "t" in let? lanes := numField c2 "p" in
      if outside memory minMemoryKiB maxMemoryKiB then Err (OutOfRange "m" memory)
      else if outside time minTime maxTime then Err (OutOfRange "t" time)
      else if outside lanes minLanes maxLanes then Err (OutOfRange "p" lanes)
      else let? salt := decodeBounded salt "salt" minSaltLen maxSaltLen in
           let? key := decodeBounded key "hash" minKeyLen maxKeyLen in
           Ok (mkProfile time memory lanes, salt, key)
  | _ => Err (Parameters (Z.of_nat (length costs)))
  end.

Definition decode_ (encoded : string) : result phcFault (profile * string * string) :=
  if (blen encoded >? maxEncodedLen)%Z then Err TooLong
  else match split "$" encoded with
       | [f0; f1; f2; f3; f4; f5] =>
           if bool_decide (f0 <> EmptyString) then Err (Segments 5)
           else if bool_decide (f1 <> "argon2id") then Err (Algorithm f1)
           else let? v := numField f2 "v" in
                if bool_decide (v <> phcVersion) then Err (WrongVersion v)
                else decodeCosts (split "," f3) f4 f5
       | fields => Err (Segments (Z.of_nat (length fields) - 1))
       end.

(** ** Hashing *)

Section Hasher.
Context (IDKey : string -> string -> Z -> Z -> Z -> Z -> string).

(** [Hash], with the salt it draws. *)
Definition Hash (a : Argon2id) (salt password : string) : result hashError string :=
  let? p := resolve a in
  if (blen password >? MaxPasswordLen)%Z then Err InputTooLong
  else Ok (format p salt (IDKey password salt (time p) (memory p) (lanes p) keyLen)).

(** [nil] is [None]. *)
Definition Compare (a : Argon2id) (encoded password : string) : option hashError :=
  match resolve a with
  | Err e => Some e
  | Ok _ =>
      if (blen password >? MaxPasswordLen)%Z then Some InputTooLong
      else match decode_ encoded with
           | Err f => Some (ErrInvalidHash f)
           | Ok (stored, salt, key) =>
               let got := IDKey password salt (time stored) (memory stored) (lanes stored) (blen key) in
               if bool_decide (got = key) then None else Some ErrMismatch
           end
  end.

Definition NeedsRehash (a : Argon2id) (encoded : string) : bool :=
  match resolve a with
  | Err _ => true
  | Ok p =>
      match decode_ encoded with
      | Err _ => true
      | Ok (stored, salt, key) => bool_decide (stored <> p) || negb (blen salt =? saltLen)%Z || negb (blen key =? keyLen)%Z
      end
  end.

End Hasher.

Example format_default :
  decode_ (format (mkProfile 2 19456 1) "0123456789abcdef" "0123456789abcdef0123456789abcdef")
  = Ok (mkProfile 2 19456 1, "0123456789abcdef", "0123456789abcdef0123456789abcdef").
Proof. vm_compute. reflexivity. Qed.

Local Close Scope go_scope.

(** ** What the password hasher promises: a PHC string holds its profile, salt
    and key, and a hash verifies the password it was made of. *)

Local Open Scope Z_scope.

(** ** Lengths and alphabets *)

Lemma blen_app s t : blen (s +:+ t) = blen s + blen t.
Proof.
  unfold blen. induction s as [|a s IH]; [done|].
  change (String a s +:+ t) with (String a (s +:+ t)). cbn [String.length]. lia.
Qed.

Lemma blen_nonneg s : 0 <= blen s.
Proof. unfold blen. lia. Qed.

Lemma blen_cons a s : blen (String a s) = 1 + blen s.
Proof. unfold blen. cbn [String.length]. lia. Qed.

Lemma string_forall_map p f s : string_forall p (map_string f s) = string_forall (fun a => p (f a)) s.
Proof. induction s as [|a s IH]; [done|]. simpl. by rewrite IH. Qed.

Lemma map_string_map f g s : map_string f (map_string g s) = map_string (fun a => f (g a)) s.
Proof. induction s as [|a s IH]; [done|]. simpl. by rewrite IH. Qed.

Lemma map_string_id f s : string_forall (fun a => bool_decide (f a = a)) s = true -> map_string f s = s.
Proof.
  induction s as [|a s IH]; [done|]. simpl. rewrite andb_true_iff, bool_decide_eq_true. intros [-> ?]. by rewrite IH.
Qed.

Lemma blen_map f s : blen (map_string f s) = blen s.
Proof. unfold blen. f_equal. induction s as [|a s IH]; [done|]. simpl. by rewrite IH. Qed.

Definition in_alphabet (a : Ascii.ascii) : bool := bool_decide (a ∈ alphabet).

Lemma b64_char_in v : in_alphabet (b64_char v) = true.
Proof.
  unfold in_alphabet, b64_char. apply bool_decide_eq_true.
  destruct (nth_in_or_default (Z.to_nat v) alphabet "A"%char) as [H| ->]; [by apply list_elem_of_In|].
  apply (bool_decide_unpack _). vm_compute. exact I.
Qed.

Lemma b64_encode_shape n s :
  (String.length s <= n)%nat ->
  string_forall in_alphabet (b64_encode s) = true /\ blen (b64_encode s) = (blen s * 8 + 5) / 6.
Proof.
  revert s. induction n as [|n IH]; intros [|a [|b [|c s]]] Hn; simpl in Hn; try lia;
    [done|done| | |].
  - cbn [b64_encode string_forall]. rewrite !b64_char_in. done.
  - cbn [b64_encode string_forall]. rewrite !b64_char_in. done.
  - destruct (IH s ltac:(lia)) as [IH1 IH2]. cbn [b64_encode string_forall]. rewrite !b64_char_in, IH1. split; [done|].
    rewrite !blen_cons, IH2.  Z.to_euclidean_division_equations; lia.
Qed.

Lemma alphabet_forall (p : Ascii.ascii -> bool) a :
  forallb p alphabet = true -> in_alphabet a = true -> p a = true.
Proof.
  unfold in_alphabet. rewrite bool_decide_eq_true, forallb_forall. intros H Ha. apply H. by apply list_elem_of_In.
Qed.

Lemma encode_forall p s :
  forallb (fun a => p (url_to_std a)) alphabet = true -> string_forall p (EncodeToString s) = true.
Proof.
  intros H. unfold EncodeToString. rewrite string_forall_map.
  eapply string_forall_impl; [|apply (b64_encode_shape (String.length s) s); lia].
  intros a Ha. by apply (alphabet_forall (fun a => p (url_to_std a))).
Qed.

Lemma blen_encode s : blen (EncodeToString s) = (blen s * 8 + 5) / 6.
Proof. unfold EncodeToString. rewrite blen_map. apply (b64_encode_shape (String.length s) s). lia. Qed.

Lemma DecodeString_EncodeToString s : DecodeString (EncodeToString s) = Some s.
Proof.
  unfold DecodeString, free_of. rewrite !encode_forall by (vm_compute; reflexivity). cbn [andb].
  unfold EncodeToString. rewrite map_string_map, map_string_id; [apply b64_roundtrip|].
  eapply string_forall_impl; [|apply (b64_encode_shape (String.length s) s); lia].
  intros a Ha. refine (alphabet_forall (fun a => bool_decide (std_to_url (url_to_std a) = a)) a _ Ha). vm_compute. reflexivity.
Qed.

Lemma decodeBounded_encode s name lo hi :
  lo <= blen s <= hi -> decodeBounded (EncodeToString s) name lo hi = Ok s.
Proof.
  intros H. unfold decodeBounded, DecodedLen, outside. rewrite blen_encode, DecodeString_EncodeToString.
  pose proof (blen_nonneg s).
  assert (E : (blen s * 8 + 5) / 6 * 6 / 8 = blen s) by (Z.to_euclidean_division_equations; lia).
  rewrite E. destruct (blen s <? lo) eqn:E1; [zbool; lia|]. destruct (blen s >? hi) eqn:E2; [zbool; lia|]. done.
Qed.

(** ** Numbers *)

Lemma digits_len fuel z : (String.length (digits fuel z) <= fuel)%nat.
Proof.
  revert z. induction fuel as [|fuel IH]; intros z; [done|]. cbn [digits].
  pose proof (blen_app (if z <? 10 then EmptyString else digits fuel (z / 10)) (String (ascii_of (48 + z mod 10)) EmptyString)) as H.
  unfold blen in H. cbn [String.length] in H. specialize (IH (z / 10)). destruct (z <? 10); cbn [String.length] in *; lia.
Qed.

(** Fuel past the number of digits changes nothing. *)
Lemma digits_small k fuel z : 0 <= z < 10 ^ Z.of_nat k -> (0 < k <= fuel)%nat -> digits fuel z = digits k z.
Proof.
  revert k z. induction fuel as [|fuel IH]; intros k z Hz Hk; [lia|]. destruct k as [|k]; [lia|].
  cbn [digits]. destruct (z <? 10) eqn:E; [done|]. zbool. f_equal. apply IH.
  - rewrite Nat2Z.inj_succ, Z.pow_succ_r in Hz by lia. split; [apply Z.div_pos; lia|]. apply Z.div_lt_upper_bound; lia.
  - destruct k; [|lia]. cbn in Hz. lia.
Qed.

Lemma FormatInt_len k z : 0 <= z < 10 ^ Z.of_nat k -> (0 < k <= 20)%nat -> blen (FormatInt z) <= Z.of_nat k.
Proof.
  intros Hz Hk. unfold FormatInt, blen. destruct (z <? 0) eqn:E; [zbool; lia|].
  rewrite (digits_small k 20) by lia. pose proof (digits_len k z). lia.
Qed.

Lemma ParseUint32_FormatInt z : 0 <= z < 4294967296 -> ParseUint32 (FormatInt z) = Some z.
Proof.
  intros Hz. unfold ParseUint32, FormatInt. destruct (z <? 0) eqn:E; [zbool; lia|].
  destruct (digits_head 20 z) as (a & s & E1 & _); [lia..|]. pose proof (parse_digits_digits 20 z) as HP.
  rewrite E1 in *. rewrite HP by (cbn; lia). destruct (z <? 4294967296) eqn:E2; [done|zbool; lia].
Qed.

Lemma numField_format name z s :
  0 <= z < 4294967296 -> s = (name +:+ "=") +:+ FormatInt z -> numField s name = Ok z.
Proof. intros Hz ->. unfold numField. by rewrite CutPrefix_app, ParseUint32_FormatInt. Qed.

Lemma FormatInt_free sep z :
  0 <= z -> forallb (fun q => bool_decide (ascii_of (48 + q) <> sep)) (seqZ 0 10) = true -> free_of sep (FormatInt z) = true.
Proof.
  intros Hz H. unfold FormatInt. destruct (z <? 0) eqn:E; [zbool; lia|]. apply digits_forall; [|done].
  intros q Hq. rewrite forallb_forall in H. apply H. apply list_elem_of_In, elem_of_seqZ. lia.
Qed.

(** ** The PHC string *)

Local Open Scope string_scope.

Definition profile_ok (p : profile) : Prop :=
  (minTime <= time p <= maxTime /\ minMemoryKiB <= memory p <= maxMemoryKiB /\ minLanes <= lanes p <= maxLanes)%Z.

Lemma outside_false v lo hi : outside v lo hi = false <-> (lo <= v <= hi)%Z.
Proof. unfold outside. destruct (v <? lo)%Z eqn:E1, (v >? hi)%Z eqn:E2; zbool; cbn; split; intros; (done || lia). Qed.

Lemma resolve_ok a p : resolve a = Ok p -> profile_ok p.
Proof.
  unfold resolve, profile_ok. cbv zeta. generalize (mkProfile (if (Time a =? 0)%Z then defaultTime else Time a)
    (if (MemoryKiB a =? 0)%Z then defaultMemoryKiB else MemoryKiB a)
    (if (Parallelism a =? 0)%Z then defaultLanes else Parallelism a)) as q. intros q.
  destruct (outside (time q) _ _) eqn:E1; [discriminate|]. destruct (outside (memory q) _ _) eqn:E2; [discriminate|].
  destruct (outside (lanes q) _ _) eqn:E3; [discriminate|]. intros [= <-]. by rewrite !outside_false in *.
Qed.

Definition costs (p : profile) : string :=
  ("m=" +:+ FormatInt (memory p)) +:+ String "," (("t=" +:+ FormatInt (time p)) +:+ String "," ("p=" +:+ FormatInt (lanes p))).

Lemma string_cons_app a s t : String a s +:+ t = String a (s +:+ t).
Proof. reflexivity. Qed.

Lemma format_fields p salt key :
  format p salt key = "" +:+ String "$" ("argon2id" +:+ String "$" (("v=" +:+ FormatInt phcVersion) +:+ String "$"
    (costs p +:+ String "$" (EncodeToString salt +:+ String "$" (EncodeToString key))))).
Proof.
  unfold format, costs.
  generalize (FormatInt phcVersion), (FormatInt (memory p)), (FormatInt (time p)), (FormatInt (lanes p)),
    (EncodeToString salt), (EncodeToString key). intros v m t l sa k.
  rewrite ?string_app_assoc, ?string_cons_app, ?string_app_assoc, ?string_cons_app, ?string_app_assoc. reflexivity.
Qed.

Lemma free_app sep s t : free_of sep (s +:+ t) = free_of sep s && free_of sep t.
Proof. apply string_forall_app. Qed.

Lemma free_cons sep a s : free_of sep (String a s) = bool_decide (a <> sep) && free_of sep s.
Proof. reflexivity. Qed.

Lemma split_costs p :
  profile_ok p -> split "," (costs p) = ["m=" +:+ FormatInt (memory p); "t=" +:+ FormatInt (time p); "p=" +:+ FormatInt (lanes p)].
Proof.
  intros (Ht & Hm & Hl). unfold minTime, minMemoryKiB, minLanes in *. unfold costs.
  rewrite !split_app, split_free; [done|..]; rewrite free_app, FormatInt_free; (done || lia).
Qed.

Lemma split_format p salt key :
  profile_ok p ->
  split "$" (format p salt key) =
    [""; "argon2id"; "v=" +:+ FormatInt phcVersion; costs p; EncodeToString salt; EncodeToString key].
Proof.
  intros (Ht & Hm & Hl). unfold minTime, minMemoryKiB, minLanes in *. rewrite format_fields.
  assert (He : forall s, free_of "$" (EncodeToString s) = true) by (intros s; by apply encode_forall).
  rewrite !split_app, split_free; try done.
  unfold costs. rewrite !free_app, !free_cons, !free_app, !free_cons, !free_app, !FormatInt_free; (done || lia).
Qed.

Lemma format_len p salt key :
  profile_ok p -> (blen salt <= maxSaltLen)%Z -> (blen key <= maxKeyLen)%Z -> (blen (format p salt key) <= maxEncodedLen)%Z.
Proof.
  intros (Ht & Hm & Hl) Hs Hk. unfold format. rewrite !blen_app, !blen_encode.
  unfold minTime, maxTime, minMemoryKiB, maxMemoryKiB, minLanes, maxLanes, maxSaltLen, maxKeyLen in *.
  pose proof (FormatInt_len 6 (memory p) ltac:(change (10 ^ Z.of_nat 6)%Z with 1000000%Z; lia) ltac:(lia)).
  pose proof (FormatInt_len 2 (time p) ltac:(change (10 ^ Z.of_nat 2)%Z with 100%Z; lia) ltac:(lia)).
  pose proof (FormatInt_len 2 (lanes p) ltac:(change (10 ^ Z.of_nat 2)%Z with 100%Z; lia) ltac:(lia)).
  change (blen (FormatInt phcVersion)) with 2%Z. change maxEncodedLen with 223%Z.
  repeat match goal with |- context [blen (String ?a ?s)] => let n := eval vm_compute in (blen (String a s)) in
    change (blen (String a s)) with n end.
  assert ((blen salt * 8 + 5) / 6 <= 86)%Z by (apply Z.lt_succ_r, Z.div_lt_upper_bound; lia).
  assert ((blen key * 8 + 5) / 6 <= 86)%Z by (apply Z.lt_succ_r, Z.div_lt_upper_bound; lia).
  lia.
Qed.

Lemma decode_format p salt key :
  profile_ok p -> (minSaltLen <= blen salt <= maxSaltLen)%Z -> (minKeyLen <= blen key <= maxKeyLen)%Z ->
  decode_ (format p salt key) = Ok (p, salt, key).
Proof.
  intros Hp Hs Hk. unfold decode_. pose proof (format_len p salt key Hp ltac:(lia) ltac:(lia)).
  destruct (blen (format p salt key) >? maxEncodedLen)%Z eqn:E; [zbool; lia|]. clear E. rewrite (split_format p salt key Hp).
  rewrite bool_decide_false, bool_decide_false by (intros H'; by apply H').
  rewrite (numField_format "v" phcVersion) by (done || (unfold phcVersion; lia)). cbn [result_bind].
  rewrite bool_decide_false by (intros H'; by apply H'). rewrite (split_costs p Hp).
  destruct p as [t m l]. destruct Hp as (Ht & Hm & Hl). cbn [time memory lanes] in *.
  pose proof Ht as Ht'. pose proof Hm as Hm'. pose proof Hl as Hl'. rewrite <-!outside_false in Ht', Hm', Hl'.
  unfold decodeCosts, minTime, maxTime, minMemoryKiB, maxMemoryKiB, minLanes, maxLanes in *.
  rewrite (numField_format "m" m), (numField_format "t" t), (numField_format "p" l) by (done || lia). cbn [result_bind].
  rewrite Ht', Hm', Hl'. rewrite !decodeBounded_encode by done. done.
Qed.

Lemma decodeBounded_ok s name lo hi out : decodeBounded s name lo hi = Ok out -> (lo <= blen out <= hi)%Z.
Proof.
  unfold decodeBounded. destruct (outside _ _ _); [done|]. destruct (DecodeString s) as [o|]; [|done].
  destruct (outside (blen o) lo hi) eqn:E; [done|]. intros [= <-]. by apply outside_false.
Qed.

Lemma decode_bounds s p salt key :
  decode_ s = Ok (p, salt, key) ->
  profile_ok p /\ (minSaltLen <= blen salt <= maxSaltLen)%Z /\ (minKeyLen <= blen key <= maxKeyLen)%Z.
Proof.
  unfold decode_. destruct (blen s >? maxEncodedLen)%Z; [done|].
  destruct (split "$" s) as [|f0 [|f1 [|f2 [|f3 [|f4 [|f5 [|]]]]]]]; try done.
  case_bool_decide; [done|]. case_bool_decide; [done|]. destruct (numField f2 "v") as [v|]; [|done]. cbn [result_bind].
  case_bool_decide; [done|]. unfold decodeCosts. destruct (split "," f3) as [|c0 [|c1 [|c2 [|]]]]; try done.
  destruct (numField c0 "m") as [m|]; [|done]. destruct (numField c1 "t") as [t|]; [|done].
  destruct (numField c2 "p") as [l|]; [|done]. cbn [result_bind].
  destruct (outside m _ _) eqn:E1; [done|]. destruct (outside t _ _) eqn:E2; [done|].
  destruct (outside l _ _) eqn:E3; [done|]. rewrite outside_false in *.
  destruct (decodeBounded f4 _ _ _) as [sa|] eqn:E4; [|done]. destruct (decodeBounded f5 _ _ _) as [k|] eqn:E5; [|done].
  cbn [result_bind]. intros [= <- <- <-]. apply decodeBounded_ok in E4, E5. unfold profile_ok. cbn [time memory lanes]. tauto.
Qed.

(** A stored hash holds its parameters. Every legal profile, salt and key written as a
    PHC string is within the length limit and decodes to itself; and whatever decodes has
    costs, a salt and a key within the limits, so that no stored text makes the key
    derivation use more than those. *)
Theorem phc_string_roundtrip p salt key :
  (profile_ok p -> (minSaltLen <= blen salt <= maxSaltLen)%Z -> (minKeyLen <= blen key <= maxKeyLen)%Z ->
   (blen (format p salt key) <= maxEncodedLen)%Z /\ decode_ (format p salt key) = Ok (p, salt, key)) /\
  (forall s, decode_ s = Ok (p, salt, key) ->
   profile_ok p /\ (minSaltLen <= blen salt <= maxSaltLen)%Z /\ (minKeyLen <= blen key <= maxKeyLen)%Z).
Proof.
  split; [|intros s; apply decode_bounds]. intros Hp Hs Hk. split; [|by apply decode_format]. apply format_len; [done|lia|lia].
Qed.

(** ** Verification *)

Section Hashes.
Context (IDKey : string -> string -> Z -> Z -> Z -> Z -> string).
Context (key_len : forall pw salt t m l n, (0 <= n)%Z -> blen (IDKey pw salt t m l n) = n).

Lemma hash_verified a b salt pw h pb :
  Hash IDKey a salt pw = Ok h -> blen salt = saltLen -> resolve b = Ok pb ->
  exists pa, resolve a = Ok pa /\
    let key w := IDKey w salt (time pa) (memory pa) (lanes pa) keyLen in
    (forall w, (blen w <= MaxPasswordLen)%Z ->
       Compare IDKey b h w = if decide (key w = key pw) then None else Some ErrMismatch) /\
    NeedsRehash b h = bool_decide (pa <> pb).
Proof.
  intros HH Hs Hb. unfold Hash in HH. destruct (resolve a) as [pa|e] eqn:Ha; [|done]. cbn [result_bind] in HH.
  destruct (blen pw >? MaxPasswordLen)%Z; [done|]. injection HH as <-. exists pa. split; [done|].
  assert (HD : forall k, blen k = keyLen -> decode_ (format pa salt k) = Ok (pa, salt, k)).
  { intros k Hk. apply decode_format; [by eapply resolve_ok|rewrite Hs; by vm_compute|rewrite Hk; by vm_compute]. }
  unfold Compare, NeedsRehash. rewrite Hb, !HD by (by apply key_len). cbn [result_bind]. split.
  - intros w Hw. destruct (blen w >? MaxPasswordLen)%Z eqn:E; [zbool; lia|]. rewrite key_len by done.
    case_bool_decide; by case_decide.
  - rewrite Hs, key_len by done. cbn. by rewrite !orb_false_r.
Qed.

(** A hash verifies its password. The hash an instance makes of a password, with any
    salt, is accepted by every instance for exactly the passwords with that derived key,
    and is due for a new hash exactly where the costs differ. *)
Theorem hash_verifies_its_password a b salt pw h pb :
  Hash IDKey a salt pw = Ok h -> blen salt = saltLen -> resolve b = Ok pb ->
  exists pa, resolve a = Ok pa /\
    let key w := IDKey w salt (time pa) (memory pa) (lanes pa) keyLen in
    (forall w, (blen w <= MaxPasswordLen)%Z ->
       Compare IDKey b h w = if decide (key w = key pw) then None else Some ErrMismatch) /\
    NeedsRehash b h = bool_decide (pa <> pb).
Proof. apply hash_verified. Qed.
End Hashes.
