(* ===== verification/Auth.v ===== *)
(** Claims, how a request carries them, and the route guards: src/auth/claims.go,
    context.go and guard.go. JSON forms and dates as times are left out. *)

From Stdlib Require Import Floats.SpecFloat.
From S2P Require Import Prelude.
From S2P Require Import Strconv.
From S2P Require Import Strings.

(** ** Claims *)

(** A [float64]. *)
Definition NumericDate : Type := spec_float.

Record ClaimSet := mkClaimSet {
  Issuer : string;
  Subject : string;
  Audience : list string;
  Expiry : option NumericDate;
  NotBefore : option NumericDate;
  IssuedAt : option NumericDate;
  JTI : string;
  Scope_ : string;
  ClientID : string;
  cs_Roles : list string;
  cs_Groups : list string;
  cs_Entitlements : list string
}.

Definition zeroClaims : ClaimSet := mkClaimSet "" "" [] None None None "" "" "" [] [] [].

Definition Scopes (c : ClaimSet) : list string := Fields (Scope_ c).

(** ** Contexts *)

(** The claims attached to a context, the latest first. *)
Definition Context_ : Type := list ClaimSet.

Definition WithClaims (ctx : Context_) (c : option ClaimSet) : Context_ :=
  match c with None => ctx | Some c => c :: ctx end.

Definition Claims (ctx : Context_) : option ClaimSet := head ctx.

Definition IsAuthenticated (ctx : Context_) : bool :=
  match Claims ctx with Some c => bool_decide (Subject c <> EmptyString) | None => false end.

Definition HasScope (ctx : Context_) (s : string) : bool :=
  match Claims ctx with Some c => existsb (fun have => bool_decide (have = s)) (Scopes c) | None => false end.

Definition HasRole (ctx : Context_) (r : string) : bool :=
  match Claims ctx with Some c => existsb (fun have => bool_decide (have = r)) (cs_Roles c) | None => false end.

(** ** Guards *)

(** A handler answers a request [R], whose context is [context], with a [W]; [status]
    is the answer with a bare status. *)
Section Guard.
Context {R W : Type} (context : R -> Context_) (status : Z -> W).

Definition Handler : Type := R -> W.

Record Guard := mkGuard { OnUnauthenticated : option Handler; OnForbidden : option Handler }.

Definition unauthenticated (g : Guard) : Handler := fun r =>
  match OnUnauthenticated g with Some h => h r | None => status 401 end.

Definition forbidden (g : Guard) : Handler := fun r =>
  match OnForbidden g with Some h => h r | None => status 403 end.

Definition require (g : Guard) (granted : R -> bool) (next : Handler) : Handler := fun r =>
  if negb (IsAuthenticated (context r)) then unauthenticated g r
  else if negb (granted r) then forbidden g r
  else next r.

Definition Authenticated (g : Guard) : Handler -> Handler := require g (fun _ => true).
Definition Role (g : Guard) (r : string) : Handler -> Handler := require g (fun req => HasRole (context req) r).
Definition Scope (g : Guard) (s : string) : Handler -> Handler := require g (fun req => HasScope (context req) s).

End Guard.

Lemma HasRole_spec ctx r : HasRole ctx r = true <-> exists c, Claims ctx = Some c /\ r ∈ cs_Roles c.
Proof.
  unfold HasRole. destruct (Claims ctx) as [c|]; [|naive_solver]. rewrite existsb_exists. split.
  - intros (x & Hx & ->%bool_decide_eq_true). exists c. split; [done|]. by apply list_elem_of_In.
  - intros (c' & [= <-] & Hr). exists r. split; [by apply list_elem_of_In|]. by apply bool_decide_eq_true.
Qed.

Lemma IsAuthenticated_spec ctx :
  IsAuthenticated ctx = true <-> exists c, Claims ctx = Some c /\ Subject c <> EmptyString.
Proof.
  unfold IsAuthenticated. destruct (Claims ctx) as [c|]; [|naive_solver]. rewrite bool_decide_eq_true. naive_solver.
Qed.
