(* ===== verification/AuthStore.v ===== *)
(** Identities and password credentials in process: src/auth/store/store.go and
    store_memory.go, and the email normal form of src/auth/password/password.go.

    The two credential indexes hold pointers to one record, which [UpdateHash] changes in
    place: the records live in a heap. The mutex makes a method one step; claims are
    values, so the copies at the boundary leave no trace. *)

From S2P Require Import Prelude.
From S2P Require Import Strconv.
From S2P Require Import Strings.
From S2P Require Import Password.
From S2P Require Import GoTime.
From S2P Require Import Auth.

Local Open Scope Z_scope.

(** ** Inputs *)

Definition MaxEmailLen : Z := 254.
Definition MaxIdentityIDLen : Z := 191.

Definition ValidIdentityID (id : string) : bool :=
  bool_decide (id <> EmptyString) && (blen id <=? MaxIdentityIDLen).

(** [lower] is the table of [unicode.ToLower]. *)
Definition password_NormalizeEmail (lower : Z -> Z) (email : string) : string := ToLower lower (TrimSpace email).

Definition NormalizeEmail (lower : Z -> Z) (email : string) : option string :=
  let e := password_NormalizeEmail lower email in
  if bool_decide (e <> EmptyString) && (blen e <=? MaxEmailLen) then Some e else None.

(** ** Data *)

(** Any text is a [Status]; two are valid. *)
Definition Status : Type := string.
Definition StatusActive : Status := "active".
Definition StatusDisabled : Status := "disabled".

Record IdentityClaims := mkClaims { Roles : list string; Groups : list string; Entitlements : list string }.

Record Identity := mkIdentity {
  ID : string; i_Status : Status; i_Claims : IdentityClaims; CreatedAt : Time; UpdatedAt : Time
}.

Record memIdentity := mkMem { status : Status; claims : IdentityClaims; createdAt : Time; updatedAt : Time }.

Record memCredential := mkCred { identityID : string; email : string; hash : string }.

(** [password.Credential] *)
Record Credential := mkCredential { c_Hash : string; c_Claims : ClaimSet }.

(** The claims a login gets. *)
Definition login_claims (id : string) (c : IdentityClaims) : ClaimSet :=
  mkClaimSet EmptyString id [] None None None EmptyString EmptyString EmptyString (Roles c) (Groups c) (Entitlements c).

Inductive storeError :=
| ErrNotFound | ErrExists | ErrEmailTaken | ErrInvalid
| PasswordNotFound (* password.ErrNotFound *)
| ErrHashChanged. (* password.ErrHashChanged *)

Definition pointer : Type := nat.

Record MemoryStore := mkStore {
  identities : gmap string memIdentity;
  credsByID : gmap string pointer;
  credsByEmail : gmap string pointer;
  heap : gmap pointer memCredential
}.

Definition NewMemoryStore : MemoryStore := mkStore ∅ ∅ ∅ ∅.

Definition identity (id : string) (m : memIdentity) : Identity :=
  mkIdentity id (status m) (claims m) (createdAt m) (updatedAt m).

(** ** Identities *)

Section Store.
Context (lower : Z -> Z).

Definition with_identity (s : MemoryStore) (id : string) (m : memIdentity) : MemoryStore :=
  mkStore (<[id := m]> (identities s)) (credsByID s) (credsByEmail s) (heap s).

Definition CreateIdentity (now : Time) (id : string) (c : IdentityClaims) (s : MemoryStore)
    : MemoryStore * result storeError Identity :=
  if negb (ValidIdentityID id) then (s, Err ErrInvalid)
  else match identities s !! id with
       | Some _ => (s, Err ErrExists)
       | None => let m := mkMem StatusActive c now now in (with_identity s id m, Ok (identity id m))
       end.

Definition GetIdentity (id : string) (s : MemoryStore) : result storeError Identity :=
  if negb (ValidIdentityID id) then Err ErrInvalid
  else match identities s !! id with
       | None => Err ErrNotFound
       | Some m => Ok (identity id m)
       end.

Definition SetIdentityStatus (now : Time) (id : string) (st : Status) (s : MemoryStore) : MemoryStore * option storeError :=
  if negb (ValidIdentityID id) then (s, Some ErrInvalid)
  else if negb (bool_decide (st = StatusActive)) && negb (bool_decide (st = StatusDisabled)) then (s, Some ErrInvalid)
  else match identities s !! id with
       | None => (s, Some ErrNotFound)
       | Some m => (with_identity s id (mkMem st (claims m) (createdAt m) now), None)
       end.

Definition SetIdentityClaims (now : Time) (id : string) (c : IdentityClaims) (s : MemoryStore)
    : MemoryStore * option storeError :=
  if negb (ValidIdentityID id) then (s, Some ErrInvalid)
  else match identities s !! id with
       | None => (s, Some ErrNotFound)
       | Some m => (with_identity s id (mkMem (status m) c (createdAt m) now), None)
       end.

Definition DeleteIdentity (id : string) (s : MemoryStore) : MemoryStore * option storeError :=
  if negb (ValidIdentityID id) then (s, Some ErrInvalid)
  else
    let idents := delete id (identities s) in
    match credsByID s !! id ≫= fun p => heap s !! p with
    | Some cred => (mkStore idents (delete id (credsByID s)) (delete (email cred) (credsByEmail s)) (heap s), None)
    | None => (mkStore idents (credsByID s) (credsByEmail s) (heap s), None)
    end.

(** ** Credentials *)

(** Another identity owns the email. *)
Definition taken (s : MemoryStore) (norm id : string) : bool :=
  match credsByEmail s !! norm ≫= fun p => heap s !! p with
  | Some owner => negb (bool_decide (identityID owner = id))
  | None => false
  end.

(** A new record under both indexes. *)
Definition put_credential (s : MemoryStore) (byEmail : gmap string pointer) (id norm h : string) : MemoryStore :=
  let p := fresh (dom (heap s)) in
  mkStore (identities s) (<[id := p]> (credsByID s)) (<[norm := p]> byEmail) (<[p := mkCred id norm h]> (heap s)).

Definition CreatePassword (id e h : string) (s : MemoryStore) : MemoryStore * option storeError :=
  if negb (ValidIdentityID id) then (s, Some ErrInvalid)
  else match NormalizeEmail lower e with
       | None => (s, Some ErrInvalid)
       | Some norm =>
           match identities s !! id with
           | None => (s, Some ErrNotFound)
           | Some _ =>
               if taken s norm id then (s, Some ErrEmailTaken)
               else match credsByID s !! id with
                    | Some _ => (s, Some ErrExists)
                    | None => (put_credential s (credsByEmail s) id norm h, None)
                    end
           end
       end.

Definition SetPassword (id e h : string) (s : MemoryStore) : MemoryStore * option storeError :=
  if negb (ValidIdentityID id) then (s, Some ErrInvalid)
  else match NormalizeEmail lower e with
       | None => (s, Some ErrInvalid)
       | Some norm =>
           match identities s !! id with
           | None => (s, Some ErrNotFound)
           | Some _ =>
               if taken s norm id then (s, Some ErrEmailTaken)
               else
                 let byEmail := match credsByID s !! id ≫= fun p => heap s !! p with
                                | Some old => delete (email old) (credsByEmail s)
                                | None => credsByEmail s
                                end in
                 (put_credential s byEmail id norm h, None)
           end
       end.

(** The pointer, the credential it points to and the identity. *)
Definition activeCredential (e : string) (s : MemoryStore) : option (pointer * memCredential * memIdentity) :=
  norm ← NormalizeEmail lower e;
  p ← credsByEmail s !! norm;
  cred ← heap s !! p;
  ident ← identities s !! identityID cred;
  if bool_decide (status ident <> StatusActive) then None else Some (p, cred, ident).

Definition Lookup (e : string) (s : MemoryStore) : result storeError Credential :=
  match activeCredential e s with
  | None => Err PasswordNotFound
  | Some (_, cred, ident) => Ok (mkCredential (hash cred) (login_claims (identityID cred) (claims ident)))
  end.

Definition UpdateHash (e oldHash newHash : string) (s : MemoryStore) : MemoryStore * option storeError :=
  match activeCredential e s with
  | None => (s, Some PasswordNotFound)
  | Some (p, cred, _) =>
      if bool_decide (hash cred <> oldHash) then (s, Some ErrHashChanged)
      else (mkStore (identities s) (credsByID s) (credsByEmail s)
              (<[p := mkCred (identityID cred) (email cred) newHash]> (heap s)), None)
  end.

End Store.

Local Close Scope Z_scope.

(** ** The in-process identity store implements accounts: a map from identities
    to their state and at most one credential, in which no email occurs twice. The two
    indexes and the shared records cannot be told from that map by any sequence of calls. *)

(** ** Accounts *)

Record Account := mkAccount { a_identity : memIdentity; a_cred : option (string * string) }.

Notation accounts := (gmap string Account).

(** The identity whose credential has the email. *)
Definition owner (acc : accounts) (e : string) : option string :=
  head ((map_to_list (filter (fun kv => fst <$> a_cred kv.2 = Some e) acc)).*1).

Definition distinct_emails (acc : accounts) : Prop :=
  forall id1 id2 a1 a2 e, acc !! id1 = Some a1 -> acc !! id2 = Some a2 ->
    fst <$> a_cred a1 = Some e -> fst <$> a_cred a2 = Some e -> id1 = id2.

Lemma owner_spec acc e id :
  distinct_emails acc ->
  owner acc e = Some id <-> exists a, acc !! id = Some a /\ fst <$> a_cred a = Some e.
Proof.
  intros Hu. unfold owner. set (f := filter _ acc).
  assert (Hf : forall id, id ∈ (map_to_list f).*1 <-> exists a, acc !! id = Some a /\ fst <$> a_cred a = Some e).
  { intros i. rewrite list_elem_of_fmap. split.
    - intros ([i' a] & -> & H%elem_of_map_to_list). apply map_lookup_filter_Some in H as [H1 H2]. eauto.
    - intros (a & H1 & H2). exists (i, a). split; [done|]. apply elem_of_map_to_list, map_lookup_filter_Some. done. }
  destruct ((map_to_list f).*1) as [|i l] eqn:El; cbn [head].
  - split; [done|]. intros H. apply Hf in H. by apply not_elem_of_nil in H.
  - assert (Hi : i ∈ i :: l) by left. apply Hf in Hi as (a & Ha & He). split.
    + intros [= <-]. eauto.
    + intros (a' & Ha' & He'). f_equal. by eapply Hu.
Qed.

Section Spec.
Context (lower : Z -> Z).

(** ** What a call does to accounts *)

Inductive Op :=
| OCreateIdentity (now : Time) (id : string) (c : IdentityClaims)
| OGetIdentity (id : string)
| OSetIdentityStatus (now : Time) (id : string) (st : Status)
| OSetIdentityClaims (now : Time) (id : string) (c : IdentityClaims)
| ODeleteIdentity (id : string)
| OCreatePassword (id e h : string)
| OSetPassword (id e h : string)
| OLookup (e : string)
| OUpdateHash (e oldHash newHash : string).

Inductive Out :=
| RIdentity (r : result storeError Identity)
| RError (e : option storeError)
| RCredential (r : result storeError Credential).

Definition run (op : Op) (s : MemoryStore) : MemoryStore * Out :=
  match op with
  | OCreateIdentity now id c => let '(s, r) := CreateIdentity now id c s in (s, RIdentity r)
  | OGetIdentity id => (s, RIdentity (GetIdentity id s))
  | OSetIdentityStatus now id st => let '(s, e) := SetIdentityStatus now id st s in (s, RError e)
  | OSetIdentityClaims now id c => let '(s, e) := SetIdentityClaims now id c s in (s, RError e)
  | ODeleteIdentity id => let '(s, e) := DeleteIdentity id s in (s, RError e)
  | OCreatePassword id e h => let '(s, e) := CreatePassword lower id e h s in (s, RError e)
  | OSetPassword id e h => let '(s, e) := SetPassword lower id e h s in (s, RError e)
  | OLookup e => (s, RCredential (Lookup lower e s))
  | OUpdateHash e h h' => let '(s, e) := UpdateHash lower e h h' s in (s, RError e)
  end.

(** The arguments every call checks first; [Lookup] and [UpdateHash] answer bad emails as
    unknown ones. *)
Definition valid_op (op : Op) : bool :=
  match op with
  | OCreateIdentity _ id _ | OGetIdentity id | OSetIdentityClaims _ id _ | ODeleteIdentity id => ValidIdentityID id
  | OSetIdentityStatus _ id st =>
      ValidIdentityID id && (bool_decide (st = StatusActive) || bool_decide (st = StatusDisabled))
  | OCreatePassword id e _ | OSetPassword id e _ => ValidIdentityID id && bool_decide (is_Some (NormalizeEmail lower e))
  | OLookup _ | OUpdateHash _ _ _ => true
  end.

(** The email is free for the identity. *)
Definition free_email (acc : accounts) (norm id : string) : bool :=
  match owner acc norm with Some id' => bool_decide (id' = id) | None => true end.

(** The account an active login email leads to. *)
Definition active (acc : accounts) (e : string) : option (string * Account * (string * string)) :=
  norm ← NormalizeEmail lower e;
  id ← owner acc norm;
  a ← acc !! id;
  c ← a_cred a;
  if bool_decide (status (a_identity a) = StatusActive) then Some (id, a, c) else None.

Definition on_account (acc : accounts) (id : string) (f : Account -> Account + storeError) : accounts * Out :=
  match acc !! id with
  | None => (acc, RError (Some ErrNotFound))
  | Some a => match f a with
              | inl a => (<[id := a]> acc, RError None)
              | inr e => (acc, RError (Some e))
              end
  end.

Definition spec_valid (op : Op) (acc : accounts) : accounts * Out :=
  match op with
  | OCreateIdentity now id c =>
      match acc !! id with
      | Some _ => (acc, RIdentity (Err ErrExists))
      | None => let m := mkMem StatusActive c now now in
                (<[id := mkAccount m None]> acc, RIdentity (Ok (identity id m)))
      end
  | OGetIdentity id =>
      (acc, RIdentity (match acc !! id with None => Err ErrNotFound | Some a => Ok (identity id (a_identity a)) end))
  | OSetIdentityStatus now id st => on_account acc id (fun a =>
      inl (mkAccount (mkMem st (claims (a_identity a)) (createdAt (a_identity a)) now) (a_cred a)))
  | OSetIdentityClaims now id c => on_account acc id (fun a =>
      inl (mkAccount (mkMem (status (a_identity a)) c (createdAt (a_identity a)) now) (a_cred a)))
  | ODeleteIdentity id => (delete id acc, RError None)
  | OCreatePassword id e h => on_account acc id (fun a =>
      let norm := default EmptyString (NormalizeEmail lower e) in
      if negb (free_email acc norm id) then inr ErrEmailTaken
      else match a_cred a with
           | Some _ => inr ErrExists
           | None => inl (mkAccount (a_identity a) (Some (norm, h)))
           end)
  | OSetPassword id e h => on_account acc id (fun a =>
      let norm := default EmptyString (NormalizeEmail lower e) in
      if negb (free_email acc norm id) then inr ErrEmailTaken
      else inl (mkAccount (a_identity a) (Some (norm, h))))
  | OLookup e =>
      (acc, RCredential (match active acc e with
                         | None => Err PasswordNotFound
                         | Some (id, a, (_, h)) => Ok (mkCredential h (login_claims id (claims (a_identity a))))
                         end))
  | OUpdateHash e h h' =>
      match active acc e with
      | None => (acc, RError (Some PasswordNotFound))
      | Some (id, a, (norm, h0)) =>
          if bool_decide (h0 = h) then (<[id := mkAccount (a_identity a) (Some (norm, h'))]> acc, RError None)
          else (acc, RError (Some ErrHashChanged))
      end
  end.

Definition invalid (op : Op) : Out :=
  match op with OCreateIdentity _ _ _ | OGetIdentity _ => RIdentity (Err ErrInvalid) | _ => RError (Some ErrInvalid) end.

Definition spec_run (op : Op) (acc : accounts) : accounts * Out :=
  if valid_op op then spec_valid op acc else (acc, invalid op).

(** ** The map a store stands for *)

Definition credential_of (s : MemoryStore) (id : string) : option memCredential :=
  credsByID s !! id ≫= fun p => heap s !! p.

Definition login (c : memCredential) : string * string := (email c, hash c).

Definition abs (s : MemoryStore) : accounts :=
  map_imap (fun id m => Some (mkAccount m (login <$> credential_of s id))) (identities s).

Lemma abs_lookup s id :
  abs s !! id = (fun m => mkAccount m (login <$> credential_of s id)) <$> identities s !! id.
Proof. unfold abs. rewrite map_lookup_imap. by destruct (identities s !! id). Qed.

(** Both indexes lead to one record, which names them both, and whose identity exists. *)
Record store_ok (s : MemoryStore) : Prop := {
  ok_id : forall id p, credsByID s !! id = Some p -> exists c, heap s !! p = Some c /\
    identityID c = id /\ credsByEmail s !! email c = Some p /\ is_Some (identities s !! id);
  ok_email : forall e p, credsByEmail s !! e = Some p -> exists c, heap s !! p = Some c /\
    email c = e /\ credsByID s !! identityID c = Some p
}.

Lemma New_store_ok : store_ok NewMemoryStore.
Proof. split; intros x p H; unfold NewMemoryStore in H; cbn [credsByID credsByEmail] in H; by rewrite lookup_empty in H. Qed.

Lemma distinct_abs s : store_ok s -> distinct_emails (abs s).
Proof.
  intros [H1 H2] id1 id2 a1 a2 e. rewrite !abs_lookup. unfold credential_of.
  destruct (identities s !! id1) as [m1|]; [|done]. destruct (identities s !! id2) as [m2|]; [|done].
  intros [= <-] [= <-]. cbn. destruct (credsByID s !! id1) as [p1|] eqn:E1; [|done].
  destruct (credsByID s !! id2) as [p2|] eqn:E2; [|done]. cbn.
  apply H1 in E1 as (c1 & Hp1 & <- & Ee1 & _), E2 as (c2 & Hp2 & <- & Ee2 & _). rewrite Hp1, Hp2. cbn.
  intros [= <-] [= He]. congruence.
Qed.

Lemma credential_of_spec s id c :
  store_ok s -> credential_of s id = Some c -> identityID c = id /\ is_Some (identities s !! id) /\
    credsByEmail s !! email c = credsByID s !! id.
Proof.
  intros [H1 _]. unfold credential_of. destruct (credsByID s !! id) as [p|] eqn:E; [|done]. cbn. intros Hc.
  apply H1 in E as (c' & Hc' & <- & Ee & Hi). rewrite Hc in Hc'. injection Hc' as <-. done.
Qed.

(** What the email index and the records give is the owner. *)
Lemma owner_abs s e :
  store_ok s -> owner (abs s) e = identityID <$> (credsByEmail s !! e ≫= fun p => heap s !! p).
Proof.
  intros Hs. pose proof (distinct_abs s Hs) as Hd. apply option_eq. intros id. rewrite owner_spec by done. split.
  - intros (a & Ha & He). rewrite abs_lookup in Ha. destruct (identities s !! id) as [m|] eqn:Em; [|done].
    injection Ha as <-. cbn in He. destruct (credential_of s id) as [c|] eqn:Ec; [|done].
    injection He as <-. pose proof (credential_of_spec s id c Hs Ec) as (<- & _ & Hix). rewrite Hix.
    unfold credential_of in Ec. by rewrite Ec.
  - destruct (credsByEmail s !! e) as [p|] eqn:Ep; [|done]. cbn. apply (ok_email _ Hs) in Ep as (c & Hc & <- & Hi).
    rewrite Hc. intros [= <-]. pose proof Hi as Hi'. apply (ok_id _ Hs) in Hi' as (c' & Hc' & _ & _ & [m Hm]).
    exists (mkAccount m (login <$> credential_of s (identityID c))). rewrite abs_lookup, Hm. split; [done|].
    cbn. unfold credential_of. rewrite Hi. cbn. by rewrite Hc.
Qed.

(** ** The calls *)

Lemma abs_with_identity s id m :
  abs (with_identity s id m) = <[id := mkAccount m (login <$> credential_of s id)]> (abs s).
Proof.
  apply map_eq. intros i. rewrite abs_lookup. unfold with_identity. cbn [identities].
  change (credential_of (mkStore _ (credsByID s) _ (heap s)) i) with (credential_of s i).
  destruct (decide (i = id)) as [->|Hne].
  - by rewrite !lookup_insert_eq.
  - by rewrite !lookup_insert_ne, abs_lookup by done.
Qed.

Lemma with_identity_ok s id m : store_ok s -> store_ok (with_identity s id m).
Proof.
  intros [H1 H2]. split; [|exact H2]. intros i p H. apply H1 in H as (c & ? & ? & ? & ?). exists c. split_and!; try done.
  cbn. destruct (decide (i = id)) as [->|]; [rewrite lookup_insert_eq|rewrite lookup_insert_ne by done]; eauto.
Qed.

Lemma delete_spec id s :
  store_ok s -> ValidIdentityID id = true ->
  let s' := (DeleteIdentity id s).1 in store_ok s' /\ abs s' = delete id (abs s) /\ (DeleteIdentity id s).2 = None.
Proof.
  intros Hs Hv. cbv zeta. unfold DeleteIdentity. rewrite Hv. cbn [negb].
  change (credsByID s !! id ≫= fun p => heap s !! p) with (credential_of s id).
  assert (Hother : forall s', identities s' = delete id (identities s) -> heap s' = heap s ->
    (forall i, i <> id -> credsByID s' !! i = credsByID s !! i) -> abs s' = delete id (abs s)).
  { intros s' Hi Hh Hc. apply map_eq. intros i. rewrite abs_lookup, Hi. destruct (decide (i = id)) as [->|Hne].
    - by rewrite !lookup_delete_eq.
    - rewrite !lookup_delete_ne, abs_lookup by done. unfold credential_of. by rewrite Hc, Hh. }
  destruct (credential_of s id) as [c|] eqn:Ec.
  - pose proof (credential_of_spec s id c Hs Ec) as (Hid & _ & Hix). cbn [fst snd]. split_and!; [|apply Hother; try done|done].
    + destruct Hs as [H1 H2]. split; cbn.
      * intros i p Hi. apply lookup_delete_Some in Hi as [Hne Hi]. pose proof Hi as Hi0.
        apply H1 in Hi as (c' & Hc' & Hid' & He & Hm). exists c'. split_and!; try done.
        -- rewrite lookup_delete_ne; [done|]. intros E. rewrite <-E, Hix in He. apply H1 in He as (c2 & Hc2 & <- & _). congruence.
        -- by rewrite lookup_delete_ne.
      * intros e p He. apply lookup_delete_Some in He as [Hne He]. apply H2 in He as (c' & Hc' & <- & Hi).
        exists c'. split_and!; try done. rewrite lookup_delete_ne; [done|]. intros E. apply Hne.
        unfold credential_of in Ec. rewrite E, Hi in Ec. cbn in Ec. congruence.
    + cbn. intros i Hi. by rewrite lookup_delete_ne.
  - cbn [fst snd]. split_and!; [|by apply Hother|done]. destruct Hs as [H1 H2]. split; [|exact H2].
    intros i p Hi. cbn in Hi. pose proof Hi as Hi0. apply H1 in Hi as (c & Hc & Hid & He & Hm). exists c. split_and!; try done. cbn.
    rewrite lookup_delete_ne; [done|]. intros <-. unfold credential_of in Ec. rewrite Hi0 in Ec. cbn in Ec. congruence.
Qed.

(** The email index without the identity's old email. *)
Definition without_email (s : MemoryStore) (id : string) : gmap string pointer :=
  match credential_of s id with Some old => delete (email old) (credsByEmail s) | None => credsByEmail s end.

Lemma put_spec s id norm h m :
  store_ok s -> identities s !! id = Some m -> taken s norm id = false ->
  let s' := put_credential s (without_email s id) id norm h in
  store_ok s' /\ abs s' = <[id := mkAccount m (Some (norm, h))]> (abs s).
Proof.
  intros Hs Hm Ht. cbv zeta. unfold put_credential. set (p0 := fresh (dom (heap s))).
  assert (Hp0 : heap s !! p0 = None) by (apply not_elem_of_dom, is_fresh).
  assert (Hold : forall p c, heap s !! p = Some c -> <[p0 := mkCred id norm h]> (heap s) !! p = Some c).
  { intros p c Hc. rewrite lookup_insert_ne; [done|]. intros <-. congruence. }
  split.
  - pose proof Hs as [H1 H2]. split; cbn.
    + intros i p Hi. apply lookup_insert_Some in Hi as [[<- <-]|[Hne Hi]].
      { exists (mkCred id norm h). cbn. rewrite !lookup_insert_eq. split_and!; eauto. }
      pose proof Hi as Hi0. apply H1 in Hi as (c & Hc & Hid & He & Hi). exists c. split_and!; auto.
      rewrite lookup_insert_ne.
      * unfold without_email. destruct (credential_of s id) as [old|] eqn:Eo; [|done]. rewrite lookup_delete_ne; [done|].
        intros E. apply credential_of_spec in Eo as (Ho & _ & Hix); [|done]. rewrite E, He in Hix.
        symmetry in Hix. apply H1 in Hix as (c2 & Hc2 & <- & _). congruence.
      * intros E. unfold taken in Ht. rewrite E, He in Ht. cbn in Ht. rewrite Hc in Ht.
        apply negb_false_iff, bool_decide_eq_true in Ht. congruence.
    + intros e p He. apply lookup_insert_Some in He as [[<- <-]|[Hne He]].
      { exists (mkCred id norm h). cbn. by rewrite !lookup_insert_eq. }
      assert (He' : credsByEmail s !! e = Some p /\ forall old, credential_of s id = Some old -> email old <> e).
      { unfold without_email in He. destruct (credential_of s id) as [old|]; [|naive_solver].
        apply lookup_delete_Some in He. naive_solver. }
      destruct He' as [He1 He2]. apply H2 in He1 as (c & Hc & <- & Hi). exists c. split_and!; auto.
      rewrite lookup_insert_ne; [done|]. intros E. apply (He2 c); [|done]. unfold credential_of. by rewrite E, Hi.
  - apply map_eq. intros i. rewrite abs_lookup. cbn [identities]. destruct (decide (i = id)) as [->|Hne].
    + rewrite lookup_insert_eq, Hm. unfold credential_of. cbn. rewrite lookup_insert_eq. cbn. by rewrite lookup_insert_eq.
    + rewrite lookup_insert_ne, abs_lookup by done. unfold credential_of. cbn. rewrite lookup_insert_ne by done.
      destruct (credsByID s !! i) as [p|] eqn:Ei; [|done]. cbn. apply (ok_id _ Hs) in Ei as (c & Hc & _).
      by rewrite (Hold p c Hc), Hc.
Qed.

Lemma taken_abs s norm id : store_ok s -> taken s norm id = negb (free_email (abs s) norm id).
Proof.
  intros Hs. unfold taken, free_email. rewrite owner_abs by done.
  by destruct (credsByEmail s !! norm ≫= fun p => heap s !! p).
Qed.

Lemma active_abs s e :
  store_ok s ->
  active (abs s) e = (fun '(_, c, m) => (identityID c, mkAccount m (Some (login c)), login c)) <$> activeCredential lower e s.
Proof.
  intros Hs. unfold active, activeCredential. destruct (NormalizeEmail lower e) as [norm|]; [|done]. cbn.
  rewrite owner_abs by done. destruct (credsByEmail s !! norm) as [p|] eqn:Ep; [|done]. cbn.
  apply (ok_email _ Hs) in Ep as (c & Hc & _ & Hi). rewrite Hc. cbn. rewrite abs_lookup.
  destruct (identities s !! identityID c) as [m|]; [|done]. unfold credential_of. rewrite Hi. cbn. rewrite Hc. cbn.
  by case_bool_decide as E; [rewrite bool_decide_false by tauto|rewrite bool_decide_true].
Qed.

Lemma update_spec s e p c m h' :
  store_ok s -> activeCredential lower e s = Some (p, c, m) ->
  let s' := mkStore (identities s) (credsByID s) (credsByEmail s) (<[p := mkCred (identityID c) (email c) h']> (heap s)) in
  store_ok s' /\ abs s' = <[identityID c := mkAccount m (Some (email c, h'))]> (abs s).
Proof.
  intros Hs Ha. cbv zeta. unfold activeCredential in Ha.
  destruct (NormalizeEmail lower e) as [norm|]; [|done]. cbn in Ha.
  destruct (credsByEmail s !! norm) as [p'|] eqn:Ep; [|done]. cbn in Ha.
  destruct (heap s !! p') as [c'|] eqn:Ec; [|done]. cbn in Ha.
  destruct (identities s !! identityID c') as [m'|] eqn:Em; [|done]. cbn in Ha. case_bool_decide; [done|].
  injection Ha as -> -> ->.
  assert (Hkeep : forall q d, heap s !! q = Some d ->
    exists d', <[p := mkCred (identityID c) (email c) h']> (heap s) !! q = Some d' /\ identityID d' = identityID d /\ email d' = email d).
  { intros q d Hd. destruct (decide (q = p)) as [->|]; [|rewrite lookup_insert_ne by done; eauto].
    rewrite lookup_insert_eq. rewrite Ec in Hd. injection Hd as <-. eauto. }
  split.
  - destruct Hs as [H1 H2]. split; cbn.
    + intros i q Hi. apply H1 in Hi as (d & Hd & Hid & He & Hi). apply Hkeep in Hd as (d' & Hd' & E1 & E2).
      exists d'. rewrite E1, E2. auto.
    + intros e' q He. apply H2 in He as (d & Hd & Hid & Hi). apply Hkeep in Hd as (d' & Hd' & E1 & E2).
      exists d'. rewrite E1, E2. auto.
  - apply (ok_email _ Hs) in Ep as (c' & Hc' & _ & Hi). rewrite Ec in Hc'. injection Hc' as <-.
    apply map_eq. intros i. rewrite abs_lookup. cbn [identities]. destruct (decide (i = identityID c)) as [->|Hne].
    + rewrite lookup_insert_eq, Em. unfold credential_of. cbn. rewrite Hi. cbn. by rewrite lookup_insert_eq.
    + rewrite lookup_insert_ne, abs_lookup by done. unfold credential_of. cbn.
      destruct (credsByID s !! i) as [q|] eqn:Eq; [|done]. cbn. rewrite lookup_insert_ne; [done|]. intros <-.
      apply (ok_id _ Hs) in Eq as (d & Hd & <- & _). congruence.
Qed.

Lemma put_is_spec s id norm h m :
  store_ok s -> identities s !! id = Some m -> free_email (abs s) norm id = true ->
  store_ok (put_credential s (without_email s id) id norm h) /\
  abs (put_credential s (without_email s id) id norm h) = <[id := mkAccount m (Some (norm, h))]> (abs s).
Proof. intros Hs Hm Hf. apply put_spec; [done|done|]. by rewrite taken_abs, Hf. Qed.

Lemma run_spec op s :
  store_ok s -> store_ok (run op s).1 /\ spec_run op (abs s) = (abs (run op s).1, (run op s).2).
Proof.
  intros Hs. unfold spec_run.
  destruct op as [now id c|id|now id st|now id c|id|id e h|id e h|e|e h h']; cbn [run valid_op spec_valid invalid].
  - unfold CreateIdentity. destruct (ValidIdentityID id); cbn [negb]; [|done]. rewrite abs_lookup.
    destruct (identities s !! id) as [m|] eqn:Em; [done|]. cbn [fst snd fmap option_fmap option_map].
    split; [by apply with_identity_ok|]. rewrite abs_with_identity. unfold credential_of.
    destruct (credsByID s !! id) as [p|] eqn:Ep; [|done]. exfalso.
    apply (ok_id _ Hs) in Ep as (c' & _ & _ & _ & [m' Hm']). congruence.
  - unfold GetIdentity. destruct (ValidIdentityID id); cbn [negb]; [|done]. rewrite abs_lookup.
    by destruct (identities s !! id).
  - unfold SetIdentityStatus, on_account. destruct (ValidIdentityID id); cbn [negb andb]; [|done].
    rewrite <-negb_orb. destruct (bool_decide (st = StatusActive) || bool_decide (st = StatusDisabled)); cbn [negb]; [|done].
    rewrite abs_lookup. destruct (identities s !! id) as [m|]; [|done]. cbn.
    split; [by apply with_identity_ok|]. by rewrite abs_with_identity.
  - unfold SetIdentityClaims, on_account. destruct (ValidIdentityID id); cbn [negb]; [|done].
    rewrite abs_lookup. destruct (identities s !! id) as [m|]; [|done]. cbn.
    split; [by apply with_identity_ok|]. by rewrite abs_with_identity.
  - destruct (ValidIdentityID id) eqn:Ev.
    + pose proof (delete_spec id s Hs Ev) as HD. cbv zeta in HD. destruct (DeleteIdentity id s) as [s' r].
      destruct HD as (HD1 & HD2 & HD3). cbn in *. by rewrite HD2, HD3.
    + unfold DeleteIdentity. by rewrite Ev.
  - unfold CreatePassword, on_account. destruct (ValidIdentityID id); cbn [negb andb]; [|done].
    destruct (NormalizeEmail lower e) as [norm|]; cbn; [|done]. rewrite abs_lookup.
    destruct (identities s !! id) as [m|] eqn:Em; [|done]. cbn. rewrite taken_abs by done.
    destruct (free_email (abs s) norm id) eqn:EF; cbn; [|done].
    pose proof (put_is_spec s id norm h m Hs Em EF) as [HP1 HP2].
    unfold without_email in *. unfold credential_of in *. destruct (credsByID s !! id) as [p|] eqn:Ep.
    + cbn. by apply (ok_id _ Hs) in Ep as (c' & -> & _).
    + cbn in *. by rewrite HP2.
  - unfold SetPassword, on_account. destruct (ValidIdentityID id); cbn [negb andb]; [|done].
    destruct (NormalizeEmail lower e) as [norm|]; cbn; [|done]. rewrite abs_lookup.
    destruct (identities s !! id) as [m|] eqn:Em; [|done]. cbn. rewrite taken_abs by done.
    destruct (free_email (abs s) norm id) eqn:EF; cbn; [|done].
    pose proof (put_is_spec s id norm h m Hs Em EF) as [HP1 HP2]. unfold without_email, credential_of in *.
    by rewrite HP2.
  - unfold Lookup. rewrite active_abs by done. by destruct (activeCredential lower e s) as [[[p c] m]|].
  - unfold UpdateHash. rewrite active_abs by done.
    destruct (activeCredential lower e s) as [[[p c] m]|] eqn:Ea; [|done]. cbn.
    case_bool_decide as E; [rewrite bool_decide_false by tauto; done|].
    rewrite bool_decide_true by (by destruct (decide (hash c = h))).
    pose proof (update_spec s e p c m h' Hs Ea) as [HU1 HU2]. cbn. by rewrite HU2.
Qed.

(** ** Runs *)

Fixpoint run_all (ops : list Op) (s : MemoryStore) : MemoryStore * list Out :=
  match ops with
  | [] => (s, [])
  | op :: ops => let '(s, o) := run op s in let '(s, os) := run_all ops s in (s, o :: os)
  end.

Fixpoint spec_all (ops : list Op) (acc : accounts) : accounts * list Out :=
  match ops with
  | [] => (acc, [])
  | op :: ops => let '(acc, o) := spec_run op acc in let '(acc, os) := spec_all ops acc in (acc, o :: os)
  end.

Lemma run_all_spec ops s :
  store_ok s -> store_ok (run_all ops s).1 /\ spec_all ops (abs s) = (abs (run_all ops s).1, (run_all ops s).2).
Proof.
  revert s. induction ops as [|op ops IH]; intros s Hs; cbn [run_all spec_all]; [done|].
  pose proof (run_spec op s Hs) as [HR1 HR2]. destruct (run op s) as [s1 o]. cbn [fst snd] in *. rewrite HR2.
  specialize (IH s1 HR1) as [IH1 IH2]. destruct (run_all ops s1) as [s2 os]. cbn [fst snd] in *. by rewrite IH2.
Qed.

(** C29: the identity store is a map of accounts. Any sequence of calls from an empty store
    gets the answers that one map from identities to accounts gives, where every rule is
    stated on the map: conflicts are unknown identity, then foreign email, then existing
    credential; a changed hash is found through the email and the identity alike; and in
    every reachable state no email belongs to two identities. *)
Theorem identity_store_refines_accounts ops :
  (run_all ops NewMemoryStore).2 = (spec_all ops ∅).2 /\ distinct_emails (spec_all ops ∅).1.
Proof.
  pose proof (run_all_spec ops NewMemoryStore New_store_ok) as [H1 H2].
  change (abs NewMemoryStore) with (∅ : accounts) in H2. rewrite H2. split; [done|]. by apply distinct_abs.
Qed.
End Spec.
