(* ===== verification/PasswordVerifier.v ===== *)
(** The password verifier: src/auth/password/password.go, over any hasher and store.

    A call is given the salt it would draw, whether it got a hashing slot before its
    context ended, and what other clients do to the store between its lookup and its
    write. It reports the work it gave the hasher; log lines are left out. *)

From S2P Require Import Prelude.
From S2P Require Import Strconv.
From S2P Require Import Strings.
From S2P Require Import Password.
From S2P Require Import GoTime.
From S2P Require Import Auth.
From S2P Require Import AuthStore.

Local Open Scope string_scope.

(** ** Interfaces *)

(** [Hasher], for errors [HE] of which some are [ErrMismatch]; the first argument of
    [h_Hash] is what it draws. *)
Record Hasher (HE : Type) := mkHasher {
  h_Hash : string -> string -> result HE string;
  h_Compare : string -> string -> option HE;
  h_NeedsRehash : string -> bool;
  h_mismatch : HE -> bool
}.
Arguments h_Hash {HE}. Arguments h_Compare {HE}. Arguments h_NeedsRehash {HE}. Arguments h_mismatch {HE}.

(** [Store], and [Rehasher] where the store has it. *)
Record CredentialStore (S LE : Type) := mkCredentials {
  s_Lookup : string -> S -> result LE Credential;
  s_not_found : LE -> bool;
  s_UpdateHash : option (string -> string -> string -> S -> S * option LE)
}.
Arguments s_Lookup {S LE}. Arguments s_not_found {S LE}. Arguments s_UpdateHash {S LE}.

Inductive verifierError (HE LE : Type) :=
| ErrInvalidCredentials
| ContextDone
| BadInput
| NegativeMaxConcurrent
| SelfCheckHash (e : HE) | SelfCheckCompare (e : HE) | SelfCheckWrong (e : option HE) | DecoyHash (e : HE)
| StoreError (e : LE)
| HasherError (e : HE).
Arguments ErrInvalidCredentials {HE LE}. Arguments ContextDone {HE LE}. Arguments BadInput {HE LE}.
Arguments NegativeMaxConcurrent {HE LE}. Arguments SelfCheckHash {HE LE}. Arguments SelfCheckCompare {HE LE}.
Arguments SelfCheckWrong {HE LE}. Arguments DecoyHash {HE LE}. Arguments StoreError {HE LE}. Arguments HasherError {HE LE}.

(** What a call asks of the hasher. *)
Inductive Work := WCompare (encoded : string) | WHash.

Record Verifier := mkVerifier { v_slots : Z; v_decoy : string }.

Section Verifier.
Context {HE LE S : Type} (h : Hasher HE) (st : CredentialStore S LE).

Notation error := (verifierError HE LE).

(** ** Construction *)

Definition selfCheck (salt : string) : option error :=
  let probe := "self-check probe" in
  match h_Hash h salt probe with
  | Err e => Some (SelfCheckHash e)
  | Ok encoded =>
      match h_Compare h encoded probe with
      | Some e => Some (SelfCheckCompare e)
      | None => match h_Compare h encoded (probe +:+ "x") with
                | Some e => if h_mismatch h e then None else Some (SelfCheckWrong (Some e))
                | None => Some (SelfCheckWrong None)
                end
      end
  end.

Definition defaultMaxConcurrent : Z := 4.

(** [New], with the salts of the two hashes and the hexadecimal decoy password. *)
Definition New (maxConcurrent : Z) (salt1 salt2 probe : string) : result error Verifier :=
  if (maxConcurrent <? 0)%Z then Err NegativeMaxConcurrent
  else match selfCheck salt1 with
       | Some e => Err e
       | None =>
           match h_Hash h salt2 probe with
           | Err e => Err (DecoyHash e)
           | Ok decoy => Ok (mkVerifier (if (maxConcurrent =? 0)%Z then defaultMaxConcurrent else maxConcurrent) decoy)
           end
       end.

(** ** Calls *)

(** [Verifier.Hash] *)
Definition HashPassword (acquired : bool) (salt password : string) : result error string :=
  if bool_decide (password = EmptyString) || (blen password >? MaxPasswordLen)%Z then Err BadInput
  else if negb acquired then Err ContextDone
  else match h_Hash h salt password with Err e => Err (HasherError e) | Ok encoded => Ok encoded end.

Definition maybeRehash (salt email verifiedHash password : string) (s : S) : S * list Work :=
  match s_UpdateHash st with
  | None => (s, [])
  | Some update =>
      if negb (h_NeedsRehash h verifiedHash) then (s, [])
      else match h_Hash h salt password with
           | Err _ => (s, [WHash])
           | Ok newHash => ((update email verifiedHash newHash s).1, [WHash])
           end
  end.

Definition Authenticate (v : Verifier) (acquired : bool) (others : S -> S) (salt email password : string) (s : S)
    : S * result error ClaimSet * list Work :=
  if bool_decide (email = EmptyString) || (blen email >? MaxEmailLen)%Z || bool_decide (password = EmptyString)
     || (blen password >? MaxPasswordLen)%Z
  then (s, Err ErrInvalidCredentials, [])
  else if negb acquired then (s, Err ContextDone, [])
  else match s_Lookup st email s with
       | Err e =>
           if s_not_found st e then (s, Err ErrInvalidCredentials, [WCompare (v_decoy v)])
           else (s, Err (StoreError e), [])
       | Ok cred =>
           let work := [WCompare (c_Hash cred)] in
           match h_Compare h (c_Hash cred) password with
           | Some e => if h_mismatch h e then (s, Err ErrInvalidCredentials, work) else (s, Err (HasherError e), work)
           | None =>
               let '(s, more) := maybeRehash salt email (c_Hash cred) password (others s) in
               (s, Ok (c_Claims cred), (work ++ more)%list)
           end
       end.

(** ** Properties *)

(** The email and password a call looks at. *)
Definition acceptable (email password : string) : Prop :=
  email <> EmptyString /\ (blen email <= MaxEmailLen)%Z /\ password <> EmptyString /\ (blen password <= MaxPasswordLen)%Z.

Lemma acceptable_spec email password :
  bool_decide (email = EmptyString) || (blen email >? MaxEmailLen)%Z || bool_decide (password = EmptyString)
    || (blen password >? MaxPasswordLen)%Z = false <-> acceptable email password.
Proof.
  unfold acceptable. rewrite !orb_false_iff, !bool_decide_eq_false.
  assert (H : forall x y, ((x >? y) = false <-> x <= y)%Z) by (intros x y; split; intros; zbool; lia).
  rewrite !H. tauto.
Qed.

Lemma Authenticate_acceptable v others salt email password s :
  acceptable email password ->
  Authenticate v true others salt email password s =
  match s_Lookup st email s with
  | Err e =>
      if s_not_found st e then (s, Err ErrInvalidCredentials, [WCompare (v_decoy v)])
      else (s, Err (StoreError e), [])
  | Ok cred =>
      match h_Compare h (c_Hash cred) password with
      | Some e => if h_mismatch h e then (s, Err ErrInvalidCredentials, [WCompare (c_Hash cred)])
                  else (s, Err (HasherError e), [WCompare (c_Hash cred)])
      | None =>
          let r := maybeRehash salt email (c_Hash cred) password (others s) in
          (r.1, Ok (c_Claims cred), WCompare (c_Hash cred) :: r.2)
      end
  end.
Proof.
  intros H. unfold Authenticate. rewrite (proj2 (acceptable_spec email password) H). cbn [negb].
  destruct (s_Lookup st email s) as [cred|e]; [|done]. destruct (h_Compare h (c_Hash cred) password); [done|].
  by destruct (maybeRehash _ _ _ _ _).
Qed.

(** C31: a login succeeds exactly for the right password. It returns the account's claims
    when a slot was free, the input is within its bounds, the store has the email and the
    hasher accepts the password for the stored hash, and fails otherwise; and an unknown
    email gets the answer of a wrong password, after one comparison too, and no write. *)
Theorem login_succeeds_exactly_for_the_password v acquired others salt email password s :
  let '(s', r, work) := Authenticate v acquired others salt email password s in
  (forall claims, r = Ok claims <-> acquired = true /\ acceptable email password /\
     exists cred, s_Lookup st email s = Ok cred /\ h_Compare h (c_Hash cred) password = None /\ c_Claims cred = claims) /\
  (is_ok r = false -> s' = s) /\
  (acquired = true -> acceptable email password ->
   forall e, s_Lookup st email s = Err e -> s_not_found st e = true ->
   r = Err ErrInvalidCredentials /\ work = [WCompare (v_decoy v)]) /\
  (acquired = true -> acceptable email password ->
   forall cred e, s_Lookup st email s = Ok cred -> h_Compare h (c_Hash cred) password = Some e -> h_mismatch h e = true ->
   r = Err ErrInvalidCredentials /\ work = [WCompare (c_Hash cred)]).
Proof.
  destruct (decide (acquired = true /\ acceptable email password)) as [[-> Ha]|Hn].
  - rewrite (Authenticate_acceptable v others salt email password s Ha).
    destruct (s_Lookup st email s) as [cred|e] eqn:EL.
    + destruct (h_Compare h (c_Hash cred) password) as [e|] eqn:EC; [destruct (h_mismatch h e) eqn:EM|]; cbn zeta;
        (split; [naive_solver congruence|]); split_and!; intros; try done; try congruence.
      all: by split; [done|]; congruence.
    + destruct (s_not_found st e) eqn:EN; (split; [naive_solver congruence|]);
        split_and!; intros; try done; try congruence.
  - assert (HA : exists err, Authenticate v acquired others salt email password s = (s, Err err, [])).
    { unfold Authenticate. destruct (_ || _) eqn:E; [eauto|]. apply acceptable_spec in E.
      destruct acquired; [|cbn [negb]; eauto]. exfalso. by apply Hn. }
    destruct HA as [err ->]. split_and!; try tauto; intros claims; [split; [done|tauto]|tauto..].
Qed.
End Verifier.
