(* ===== verification/SessionAuth.v ===== *)
(** Authentication from session state: src/auth/session/sessionauth.go, over the session
    manager of SessionManager.v. The request runs inside the session middleware; the JSON
    codec of the private cell is an argument; log lines are left out. *)

From Stdlib Require Import Floats.SpecFloat.
From S2P Require Import Prelude.
From S2P Require Import GoTime.
From S2P Require Import Auth.
From S2P Require Import SessionStore.
From S2P Require Import SessionManager.

Definition cellName : string := "github.com/gofabrik/fabrik/auth/session".

Inductive AuthError :=
| NoSubject
| PromoteFailed (e : Error)
| StoreClaims (e : option Error) (* [None]: the claims could not be encoded *)
| SessionError (e : Error)
| DecodeFailed
| SubjectMismatch (uid subject : string).

Section SessionAuth.
Context {St : Type} `{Store St}.
Context (json_decode : string -> option (gmap string string)).
Context (json_encode : gmap string string -> option string).
Context (claims_decode : string -> option ClaimSet) (claims_encode : ClaimSet -> option string).

Local Abbreviation World := (World St).
Local Abbreviation Env := (Env St).
Local Abbreviation M := (M (St := St)).

(** Session code run for its result; what it did stays done. *)
Definition Session (A : Type) : Type := Env -> state -> World -> state * World * A.
Definition session {A} (m : M A) : Session (result Error A) := m.

(** [Handle.Save] *)
Definition handle_Save (c : ClaimSet) : Session (option (option Error)) := fun env st w =>
  match session checkStageable env st w with
  | (st, w, Err e) => (st, w, Some (Some e))
  | (st, w, Ok _) =>
      match claims_encode c with
      | None => (st, w, Some None)
      | Some raw =>
          match session (cellSave json_decode cellName raw) env st w with
          | (st, w, Err e) => (st, w, Some (Some e))
          | (st, w, Ok _) => (st, w, None)
          end
      end
  end.

(** [Handle.Get]; the zero value of [stored] has no subject. *)
Definition handle_Get : Session (result AuthError ClaimSet) := fun env st w =>
  match session (cellGet json_decode cellName) env st w with
  | (st, w, Err e) => (st, w, Err (SessionError e))
  | (st, w, Ok None) => (st, w, Ok zeroClaims)
  | (st, w, Ok (Some raw)) =>
      (st, w, match claims_decode raw with None => Err DecodeFailed | Some c => Ok c end)
  end.

(** The snapshot a login stores. *)
Definition snapshot (c : ClaimSet) : ClaimSet :=
  mkClaimSet (Issuer c) (Subject c) (Audience c) None None (IssuedAt c) (JTI c) (Scope_ c) (ClientID c)
    (cs_Roles c) (cs_Groups c) (cs_Entitlements c).

Definition Login (c : ClaimSet) : Session (option AuthError) := fun env st w =>
  if bool_decide (Subject c = EmptyString) then (st, w, Some NoSubject)
  else match session (Promote (Subject c)) env st w with
       | (st, w, Err e) => (st, w, Some (PromoteFailed e))
       | (st, w, Ok _) =>
           match handle_Save (snapshot c) env st w with
           | (st, w, Some e) => let '(st, w, _) := session Destroy env st w in (st, w, Some (StoreClaims e))
           | (st, w, None) => (st, w, None)
           end
       end.

(** Inside the middleware there is always session state. *)
Definition Logout : Session (option AuthError) := fun env st w =>
  match session Destroy env st w with
  | (st, w, Err e) => (st, w, Some (SessionError e))
  | (st, w, Ok _) => (st, w, None)
  end.

Definition Authenticate : Session (result AuthError (option ClaimSet)) := fun env st w =>
  match handle_Get env st w with
  | (st, w, Err e) => (st, w, Err e)
  | (st, w, Ok c) =>
      if bool_decide (Subject c = EmptyString) then (st, w, Ok None)
      else match session UserID_ env st w with
           | (st, w, Err e) => (st, w, Err (SessionError e))
           | (st, w, Ok uid) =>
               if bool_decide (uid <> Subject c) then (st, w, Err (SubjectMismatch uid (Subject c)))
               else (st, w, Ok (Some c))
           end
  end.

(** [Middleware]: the context the next handler runs with. *)
Definition Middleware (ctx : Context_) : Session Context_ := fun env st w =>
  match Claims ctx with
  | Some _ => (st, w, ctx)
  | None =>
      match Authenticate env st w with
      | (st, w, Err _) => (st, w, ctx)
      | (st, w, Ok c) => (st, w, WithClaims ctx c)
      end
  end.


(** ** Properties *)

Implicit Types (env : Env) (w : World).

(** The user of the request's session, after the changes made so far. *)
Definition session_user (st : state) : string :=
  if promote st then promotedID st else if exists_ st then UserID (record_ st) else EmptyString.

Lemma ensureLoaded_run env st w st' w' r :
  ensureLoaded env st w = (st', w', r) ->
  match r with
  | Ok _ => loaded st' = true /\ (loaded st = true -> st' = st /\ w' = w) /\
            responseStarted st' = responseStarted st
  | Err _ => st' = st
  end.
Proof.
  unfold ensureLoaded, bind, get. destruct (loaded st) eqn:EL.
  { intros [= <- <- <-]. done. }
  case_bool_decide as E0; [intros [= <- <- <-]; by destruct st|].
  unfold try. destruct (store_Load (arrivedSID st) env st w) as [[st0 w0] res] eqn:ES.
  assert (st0 = st) as ->.
  { unfold store_Load, lift, action in ES. destruct (s_Load _ _ _) as [s' [rec|e]] in ES; by injection ES as <- _ _. }
  destruct res as [rec|e]; [intros [= <- <- <-]; by destruct st|].
  destruct (is_not_found e); intros [= <- <- <-]; by destruct st.
Qed.

Lemma loaded_ensure env st w : loaded st = true -> ensureLoaded env st w = (st, w, Ok tt).
Proof. intros H0. unfold ensureLoaded, bind, get. by rewrite H0. Qed.

Lemma UserID_run env st w : loaded st = true -> UserID_ env st w = (st, w, Ok (session_user st)).
Proof. intros H0. unfold UserID_, bind. by rewrite loaded_ensure. Qed.

Lemma decodeCells_run env st w st' w' r :
  decodeCells json_decode env st w = (st', w', r) ->
  loaded st' = loaded st /\ session_user st' = session_user st /\ staged st' = staged st /\ w' = w /\
  responseStarted st' = responseStarted st.
Proof.
  unfold decodeCells, bind, get. destruct (cellsDecoded st).
  { destruct (envErr st); by intros [= <- <- <-]. }
  destruct st. cbn. destruct (_ || _); [by intros [= <- <- <-]|]. destruct (decodeEnvelope _ _); by intros [= <- <- <-].
Qed.

Lemma cellGet_run env st w st' w' r :
  cellGet json_decode cellName env st w = (st', w', Ok r) -> loaded st' = true.
Proof.
  unfold cellGet, bind. destruct (ensureLoaded env st w) as [[st1 w1] [[]|e]] eqn:EE; [|done].
  apply ensureLoaded_run in EE as [HL _]. unfold get at 1. cbv beta iota. destruct (staged_map st1 !! cellName) as [v|]; [by intros [= <- <- <-]|].
  destruct (decodeCells json_decode env st1 w1) as [[st2 w2] [[]|e]] eqn:ED; [|done].
  apply decodeCells_run in ED as (HL2 & _). intros [= <- <- <-]. congruence.
Qed.

Lemma claims_of_user env st w st' w' c :
  Authenticate env st w = (st', w', Ok (Some c)) ->
  Subject c <> EmptyString /\ session_user st' = Subject c /\ UserID_ env st' w' = (st', w', Ok (Subject c)).
Proof.
  unfold Authenticate, handle_Get, session. destruct (cellGet _ _ env st w) as [[st1 w1] [raw|e]] eqn:EG; [|done].
  apply cellGet_run in EG. destruct raw as [raw|]; [|intros Hz; discriminate Hz]. destruct (claims_decode raw) as [c0|]; [|done].
  case_bool_decide as E0; [done|]. rewrite UserID_run by done. case_bool_decide as E1; [done|]. intros [= <- <- <-].
  assert (E2 : session_user st1 = Subject c0) by (by destruct (decide (session_user st1 = Subject c0))).
  split_and!; [done..|]. by rewrite UserID_run, E2.
Qed.

(** Stored claims authenticate only the session's user. Whatever the session and its
    store hold, claims are returned only when they name, as their subject, the user the
    session has at that moment. *)
Theorem claims_belong_to_the_session_user env st w st' w' c :
  Authenticate env st w = (st', w', Ok (Some c)) ->
  Subject c <> EmptyString /\ session_user st' = Subject c /\ UserID_ env st' w' = (st', w', Ok (Subject c)).
Proof. apply claims_of_user. Qed.

(** ** Logins *)

Lemma Promote_run u env st w st' w' r :
  Promote u env st w = (st', w', r) ->
  match r with
  | Ok _ => loaded st' = true /\ promote st' = true /\ promotedID st' = u /\ responseStarted st' = false
  | Err _ => st' = st
  end.
Proof.
  unfold Promote, bind, get, fail_if. destruct (responseStarted st) eqn:ER; [by intros [= <- <- <-]|]. unfold ret, modify. cbv beta iota.
  destruct (ensureLoaded env st w) as [[st1 w1] [[]|e]] eqn:EE; apply ensureLoaded_run in EE.
  - destruct EE as (HL & _ & HR). intros [= <- <- <-]. destruct st1. cbn in *. destruct exists_; by subst.
  - by intros [= <- <- <-].
Qed.

Lemma Destroy_run env st w :
  loaded st = true -> responseStarted st = false ->
  exists st', Destroy env st w = (st', w, Ok tt) /\ loaded st' = true /\ session_user st' = EmptyString /\
    staged st' = None /\ exists_ st' = false /\ cells st' = ∅ /\ cellsDecoded st' = false.
Proof.
  intros HL HR. unfold Destroy, bind, get, fail_if. rewrite HR. unfold ret, modify. cbv beta iota. rewrite loaded_ensure by done.
  eexists. split; [reflexivity|]. destruct st. cbn in *. destruct exists_; by subst.
Qed.

Lemma cellSave_run raw env st w st' w' r :
  loaded st = true -> cellSave json_decode cellName raw env st w = (st', w', r) ->
  loaded st' = true /\ session_user st' = session_user st /\ responseStarted st' = responseStarted st /\
  match r with Ok _ => staged_map st' !! cellName = Some (Some raw) | Err _ => True end.
Proof.
  intros HL. unfold cellSave, bind, get, fail_if. destruct (responseStarted st) eqn:ER; [by intros [= <- <- <-]|]. unfold ret, modify. cbv beta iota.
  rewrite loaded_ensure by done.
  assert (HS : forall s0, loaded (stage cellName (Some raw) s0) = loaded s0 /\
    session_user (stage cellName (Some raw) s0) = session_user s0 /\
    responseStarted (stage cellName (Some raw) s0) = responseStarted s0 /\
    staged_map (stage cellName (Some raw) s0) !! cellName = Some (Some raw)).
  { intros s0. unfold stage, staged_map. destruct s0. cbn. destruct staged; cbn; by rewrite lookup_insert_eq. }
  destruct (exists_ st) eqn:EX.
  - destruct (decodeCells json_decode env st w) as [[st1 w1] [[]|e]] eqn:ED; apply decodeCells_run in ED as (H1 & H2 & _ & _ & H5).
    + intros [= <- <- <-]. destruct (HS st1) as (S1 & S2 & S3 & S4). split_and!; (exact I || congruence).
    + intros [= <- <- <-]. split_and!; (exact I || congruence).
  - intros [= <- <- <-]. destruct (HS st) as (S1 & S2 & S3 & S4). split_and!; (exact I || congruence).
Qed.

Lemma Get_staged raw env st w :
  loaded st = true -> staged_map st !! cellName = Some (Some raw) ->
  cellGet json_decode cellName env st w = (st, w, Ok (Some raw)).
Proof. intros HL HS. unfold cellGet, bind. rewrite loaded_ensure by done. unfold get. by rewrite HS. Qed.

Lemma Get_anonymous env st w :
  loaded st = true -> staged st = None -> exists_ st = false -> cellsDecoded st = false ->
  exists st', cellGet json_decode cellName env st w = (st', w, Ok None).
Proof.
  intros HL HS HE HC. unfold cellGet, bind. rewrite loaded_ensure by done. unfold get, staged_map. rewrite HS. cbn.
  rewrite lookup_empty. unfold decodeCells, bind, get. rewrite HC. cbn.
  eexists. destruct st. cbn in *. subst. cbn. by rewrite lookup_empty.
Qed.

(** Strings that JSON carries as they are: of ASCII bytes. Encoding replaces what is not
    UTF-8. *)
Fixpoint ascii_only (s : string) : bool :=
  match s with EmptyString => true | String a s => (Ascii.N_of_ascii a <? 128)%N && ascii_only s end.

(** Claims that JSON carries as they are: of such strings, issued at no time or at a
    [float64] other than minus zero, which is written as zero. *)
Definition plain_claims (c : ClaimSet) : Prop :=
  Forall (fun s => ascii_only s = true)
    ([Issuer c; Subject c; JTI c; Scope_ c; ClientID c] ++ Audience c ++ cs_Roles c ++ cs_Groups c ++ cs_Entitlements c) /\
  match IssuedAt c with
  | None => True
  | Some d => valid_binary 53 1024 d = true /\ d <> S754_zero true
  end.

(** C30: a login is all or nothing. After it succeeds the session has the subject of the
    claims as its user and, where the claims are [plain_claims], the request authenticates
    with all of them but the times of expiry and of validity, which are dropped; after it
    fails the session is as before, or, when the claims could not be stored after the
    promotion, it is ended and authenticates nobody, so no claims of another user can be
    taken for the new one's. The codec is taken to give plain claims back as they were. *)
Theorem login_is_all_or_nothing env st w c st' w' r :
  (forall x raw, plain_claims x -> claims_encode x = Some raw -> claims_decode raw = Some x) ->
  Login c env st w = (st', w', r) ->
  match r with
  | None => session_user st' = Subject c /\
      (plain_claims c -> Authenticate env st' w' = (st', w', Ok (Some
         {| Issuer := Issuer c; Subject := Subject c; Audience := Audience c; Expiry := None; NotBefore := None;
            IssuedAt := IssuedAt c; JTI := JTI c; Scope_ := Scope_ c; ClientID := ClientID c;
            cs_Roles := cs_Roles c; cs_Groups := cs_Groups c; cs_Entitlements := cs_Entitlements c |})))
  | Some (StoreClaims _) => session_user st' = EmptyString /\
      exists st2, Authenticate env st' w' = (st2, w', Ok None)
  | Some _ => st' = st
  end.
Proof.
  intros Hcodec. unfold Login, session. case_bool_decide as E0; [by intros [= <- <- <-]|].
  destruct (Promote (Subject c) env st w) as [[st1 w1] [[]|e]] eqn:EP; apply Promote_run in EP; [|by intros [= <- <- <-]].
  destruct EP as (HL & Hp & Hid & HR).
  assert (Hu : session_user st1 = Subject c) by (unfold session_user; by rewrite Hp).
  assert (HF : forall e st2 w2, loaded st2 = true -> responseStarted st2 = false ->
    (let '(st, w, _) := Destroy env st2 w2 in (st, w, Some (StoreClaims e))) = (st', w', r) ->
    r = Some (StoreClaims e) /\ session_user st' = EmptyString /\
    exists st3, Authenticate env st' w' = (st3, w', Ok None)).
  { intros e st2 w2 HL2 HR2. destruct (Destroy_run env st2 w2 HL2 HR2) as (st3 & -> & HL3 & Hu3 & Hs3 & He3 & _ & Hd3).
    intros [= <- <- <-]. split_and!; [done..|]. unfold Authenticate, handle_Get, session.
    destruct (Get_anonymous env st3 w2 HL3 Hs3 He3 Hd3) as [st4 ->]. eexists. reflexivity. }
  unfold handle_Save, session, checkStageable, bind, get, fail_if. rewrite HR. unfold ret. cbv beta iota.
  destruct (claims_encode (snapshot c)) as [raw|] eqn:EC.
  2:{ intros HA. by apply HF in HA as (-> & ? & ?). }
  destruct (cellSave json_decode cellName raw env st1 w1) as [[st2 w2] [[]|e]] eqn:ES;
    apply cellSave_run in ES as (HL2 & Hu2 & HR2 & HG); [|done| |done].
  - intros [= <- <- <-]. split; [congruence|]. intros Hplain. unfold Authenticate, handle_Get, session.
    rewrite (Get_staged raw) by done. rewrite (Hcodec (snapshot c) raw Hplain EC). rewrite bool_decide_false by done.
    rewrite UserID_run by done. rewrite Hu2, Hu. rewrite bool_decide_false; [done|]. by intros [].
  - intros HA. apply HF in HA as (-> & ? & ?); [done|done|congruence].
Qed.

(** ** Guarded handlers *)

Lemma guarded {R W} (context : R -> Context_) (status : Z -> W) g role next req :
  (forall c, Claims (context req) = Some c -> Subject c <> EmptyString -> role ∈ cs_Roles c ->
     Role context status g role next req = next req) /\
  (forall c, Claims (context req) = Some c -> Subject c <> EmptyString -> role ∉ cs_Roles c ->
     Role context status g role next req = match OnForbidden g with Some h => h req | None => status 403%Z end) /\
  ((forall c, Claims (context req) = Some c -> Subject c = EmptyString) ->
     Role context status g role next req = match OnUnauthenticated g with Some h => h req | None => status 401%Z end).
Proof.
  unfold Role, require. split_and!.
  - intros c Hc Hs Hr. rewrite (proj2 (IsAuthenticated_spec _)) by (by exists c).
    by rewrite (proj2 (HasRole_spec _ _)) by (by exists c).
  - intros c Hc Hs Hr. rewrite (proj2 (IsAuthenticated_spec _)) by (by exists c). cbn.
    destruct (HasRole (context req) role) eqn:EH; [|done]. apply HasRole_spec in EH as (c' & Hc' & Hr'). congruence.
  - intros Hn. destruct (IsAuthenticated (context req)) eqn:EA; [|done].
    apply IsAuthenticated_spec in EA as (c & Hc & Hs). by destruct (Hs (Hn c Hc)).
Qed.

(** C27: a guarded handler runs only for a user of the session with the grant. The
    middleware leaves claims that an outer layer attached, and otherwise attaches those
    that the session authenticates with, whose subject is the session's user, or none. A
    route behind it that requires a role answers with its handler when the claims of the
    request have a subject and the role is among their roles, wherever it stands there;
    with what the guard has for the forbidden, or the status 403, when they have a subject
    but not the role; and with what it has for the unauthenticated, or the status 401, when
    there are no claims with a subject. *)
Theorem guarded_routes_need_the_grant {R W} (context : R -> Context_) (status : Z -> W) g role next req ctx env st w st' w' :
  Middleware ctx env st w = (st', w', context req) ->
  match Claims ctx with
  | Some _ => context req = ctx
  | None =>
      (exists c, Authenticate env st w = (st', w', Ok (Some c)) /\ Claims (context req) = Some c /\
         Subject c <> EmptyString /\ Subject c = session_user st') \/
      (Claims (context req) = None /\ forall c, Authenticate env st w <> (st', w', Ok (Some c)))
  end /\
  (forall c, Claims (context req) = Some c -> Subject c <> EmptyString -> role ∈ cs_Roles c ->
     Role context status g role next req = next req) /\
  (forall c, Claims (context req) = Some c -> Subject c <> EmptyString -> role ∉ cs_Roles c ->
     Role context status g role next req = match OnForbidden g with Some h => h req | None => status 403%Z end) /\
  ((forall c, Claims (context req) = Some c -> Subject c = EmptyString) ->
     Role context status g role next req = match OnUnauthenticated g with Some h => h req | None => status 401%Z end).
Proof.
  intros HM. split; [|apply guarded]. unfold Middleware in HM. destruct (Claims ctx) as [c0|] eqn:E0; [by injection HM|].
  destruct (Authenticate env st w) as [[st1 w1] [[c1|]|e]] eqn:EAu; injection HM as -> -> HM; rewrite <-HM.
  - left. exists c1. apply claims_of_user in EAu as (Hs & Hu & _). by split_and!.
  - right. split; [done|]. intros c. congruence.
  - right. split; [done|]. intros c. congruence.
Qed.
End SessionAuth.
