(* ===== verification/AuthRun.v ===== *)
(** Logins against the in-process identity store with Argon2id: what a login that upgrades
    the stored hash does to the accounts, whatever other clients do meanwhile. And concrete
    runs of the authentication components: a derived key and a claims codec one can compute
    with, such a login while another client logs in, and a session login. *)

From S2P Require Import Prelude.
From S2P Require Import Strconv.
From S2P Require Import Strings.
From S2P Require Import SessionStore.
From S2P Require Import SessionManager.
From S2P Require Import SessionSpec.
From S2P Require Import SessionRun.
From S2P Require Import Password.
From S2P Require Import GoTime.
From S2P Require Import Auth.
From S2P Require Import AuthStore.
From S2P Require Import PasswordVerifier.
From S2P Require Import SessionAuth.

Local Open Scope string_scope.

Section Login.
Context (lower : Z -> Z) (IDKey : string -> string -> Z -> Z -> Z -> Z -> string).

(** The hasher and the store of the package, as the interfaces the verifier sees. *)
Definition argon2id (a : Argon2id) : Hasher hashError :=
  mkHasher hashError (Hash IDKey a) (Password.Compare IDKey a) (NeedsRehash a) (fun e => match e with ErrMismatch => true | _ => false end).

Definition memory_credentials : CredentialStore MemoryStore storeError :=
  mkCredentials MemoryStore storeError (fun e s => Lookup lower e s)
    (fun e => match e with PasswordNotFound => true | _ => false end)
    (Some (fun e h h' s => UpdateHash lower e h h' s)).

Definition login (a : Argon2id) (v : Verifier) (others : MemoryStore -> MemoryStore) (salt email password : string)
    (s : MemoryStore) : MemoryStore * result (verifierError hashError storeError) ClaimSet :=
  let '(s, r, _) := PasswordVerifier.Authenticate (argon2id a) memory_credentials v true others salt email password s in (s, r).

Lemma NeedsRehash_of_hash a salt pw h :
  (forall pw salt t m l n, (0 <= n)%Z -> blen (IDKey pw salt t m l n) = n) ->
  Hash IDKey a salt pw = Ok h -> blen salt = saltLen -> (blen pw <= MaxPasswordLen)%Z ->
  Password.Compare IDKey a h pw = None /\ NeedsRehash a h = false.
Proof.
  intros HL HH Hs Hp. destruct (resolve a) as [pa|e] eqn:Ha; [|unfold Hash in HH; by rewrite Ha in HH].
  destruct (hash_verified IDKey HL a a salt pw h pa HH Hs Ha) as (pa' & Ha' & HC & HN).
  rewrite Ha in Ha'. injection Ha' as <-. split.
  - cbv zeta in HC. rewrite HC by done. by rewrite decide_True by done.
  - rewrite HN. apply bool_decide_eq_false. by intros [].
Qed.

(** C28: an upgrade of a stored hash never loses a password. After a login the store is as
    the other clients left it, except that the hash the login has just verified, if it is
    still the account's, may have become a new one: that one verifies the same password, is
    not due for another upgrade, and nothing else of the account changed. *)
Theorem rehash_never_loses_a_password a v others salt e password s claims s' :
  (forall pw salt t m l n, (0 <= n)%Z -> blen (IDKey pw salt t m l n) = n) -> blen salt = saltLen ->
  store_ok (others s) -> login a v others salt e password s = (s', Ok claims) ->
  store_ok s' /\
  (abs s' = abs (others s) \/
   exists id acc norm h h', active lower (abs (others s)) e = Some (id, acc, (norm, h)) /\
     Password.Compare IDKey a h password = None /\ NeedsRehash a h = true /\
     Password.Compare IDKey a h' password = None /\ NeedsRehash a h' = false /\
     abs s' = <[id := mkAccount (a_identity acc) (Some (norm, h'))]> (abs (others s))).
Proof.
  intros HL Hsalt Ho HA. unfold login in HA.
  destruct (decide (acceptable e password)) as [Hok|Hn].
  2:{ unfold PasswordVerifier.Authenticate in HA. destruct (_ || _) eqn:E; [done|]. by apply acceptable_spec in E. }
  rewrite (Authenticate_acceptable _ _ v others salt e password s Hok) in HA.
  destruct (s_Lookup memory_credentials e s) as [cred|err]; [|by destruct (s_not_found memory_credentials err)].
  destruct (h_Compare (argon2id a) (c_Hash cred) password) as [err|] eqn:EC; [by destruct (h_mismatch (argon2id a) err)|].
  injection HA as HA _. unfold maybeRehash in HA. cbn [s_UpdateHash memory_credentials] in HA.
  destruct (h_NeedsRehash (argon2id a) (c_Hash cred)) eqn:EN; cbn [negb] in HA; [|subst s'; by split; [|left]].
  destruct (h_Hash (argon2id a) salt password) as [h'|err] eqn:EH; [|subst s'; by split; [|left]].
  cbn [h_NeedsRehash h_Hash h_Compare argon2id] in *. cbn [fst] in HA.
  pose proof (run_spec lower (OUpdateHash e (c_Hash cred) h') (others s) Ho) as [H1 H2].
  unfold spec_run in H2. cbn [valid_op spec_valid run] in H1, H2.
  destruct (UpdateHash lower e (c_Hash cred) h' (others s)) as [s1 r]. cbn [fst snd] in *. subst s1. split; [done|].
  destruct (active lower (abs (others s)) e) as [[[id acc] [norm h0]]|]; [|left; congruence].
  case_bool_decide as Eh; [|left; congruence]. injection H2 as H2 _. right. exists id, acc, norm, h0, h'. subst h0.
  destruct (NeedsRehash_of_hash a salt password h' HL EH Hsalt) as [HC' HN']; [by destruct Hok as (_ & _ & _ & ?)|].
  by split_and!.
Qed.
End Login.

(** ** Runs *)

(** ** A derived key: the password and the salt, cut or filled up to the length *)

Fixpoint fit (n : nat) (s : string) : string :=
  match n, s with
  | O, _ => EmptyString
  | S n, EmptyString => String "." (fit n EmptyString)
  | S n, String a s => String a (fit n s)
  end.

Definition toy_key (pw salt : string) (t m l n : Z) : string := fit (Z.to_nat n) (pw +:+ salt).

Lemma toy_key_len pw salt t m l n : (0 <= n)%Z -> blen (toy_key pw salt t m l n) = n.
Proof.
  intros Hn. unfold toy_key, blen. assert (H : forall k s, String.length (fit k s) = k).
  { induction k as [|k IH]; intros [|a s]; cbn [fit String.length]; auto. }
  rewrite H. lia.
Qed.

Definition salt16 : string := "0123456789abcdef".
Definition defaults : Argon2id := mkArgon2id 0 0 0.
Definition older : Argon2id := mkArgon2id 3 8192 1.

Definition old_hash : string :=
  match Hash toy_key older salt16 "correct horse" with Ok h => h | Err _ => EmptyString end.

Lemma hash_witness :
  Password.Compare toy_key defaults old_hash "correct horse" = None /\ NeedsRehash defaults old_hash = true.
Proof.
  destruct (hash_verifies_its_password toy_key toy_key_len older defaults salt16 "correct horse" old_hash
    (mkProfile 2 19456 1)) as (pa & Hpa & HC & HN).
  - vm_compute. reflexivity.
  - vm_compute. reflexivity.
  - vm_compute. reflexivity.
  - split.
    + rewrite (HC "correct horse"); [by rewrite decide_True|]. vm_compute. discriminate.
    + rewrite HN. injection Hpa as <-. vm_compute. reflexivity.
Defined.

(** ** A login that upgrades the hash *)

Definition ann_store : MemoryStore :=
  (run_all ascii_lower [OCreateIdentity 1%Z "u1" (mkClaims ["admin"] [] []);
                        OCreatePassword "u1" " Ann@Example.org" old_hash] NewMemoryStore).1.

(** Another client adds an account between the lookup and the write. *)
Definition others (s : MemoryStore) : MemoryStore := (run ascii_lower (OCreateIdentity 2%Z "u2" (mkClaims [] [] [])) s).1.

Definition verifier : Verifier := mkVerifier 4 EmptyString.

Definition ann_login := login ascii_lower toy_key defaults verifier others salt16 "ann@example.ORG" "correct horse" ann_store.

Lemma rehash_witness :
  store_ok ann_login.1 /\ is_ok (Lookup ascii_lower "ann@example.org" ann_login.1) = true /\
  (c_Hash <$> match Lookup ascii_lower "ann@example.org" ann_login.1 with Ok c => Some c | Err _ => None end)
    <> Some old_hash.
Proof.
  split; [|split; [vm_compute; reflexivity|vm_compute; discriminate]].
  refine (proj1 (rehash_never_loses_a_password ascii_lower toy_key defaults verifier others salt16 "ann@example.ORG"
    "correct horse" ann_store (login_claims "u1" (mkClaims ["admin"] [] [])) ann_login.1 toy_key_len _ _ _)).
  - vm_compute. reflexivity.
  - apply run_spec, run_all_spec, New_store_ok.
  - vm_compute. reflexivity.
Defined.

(** ** A session login *)

(** A codec for claims that only have a subject. *)
Definition named (sub : string) : ClaimSet := mkClaimSet EmptyString sub [] None None None EmptyString EmptyString EmptyString [] [] [].

Definition subject_encode (c : ClaimSet) : option string :=
  match c with
  | mkClaimSet EmptyString sub [] None None None EmptyString EmptyString EmptyString [] [] [] => Some sub
  | _ => None
  end.
Definition subject_decode (raw : string) : option ClaimSet := Some (named raw).

Lemma subject_codec x raw : subject_encode x = Some raw -> subject_decode raw = Some x.
Proof.
  destruct x as [iss sub aud exp nbf iat jti sc cl ro gr en]. unfold subject_encode, subject_decode.
  destruct iss, aud, exp, nbf, iat, jti, sc, cl, ro, gr, en; try discriminate. by intros [= ->].
Qed.

Definition signed_in := Login one_cell_decode subject_encode (named "ann") alone (newState "guest") (arrival with_guest 0).

Lemma session_login_witness :
  session_user signed_in.1.1 = "ann" /\
  SessionAuth.Authenticate one_cell_decode subject_decode alone signed_in.1.1 signed_in.1.2 =
    (signed_in.1.1, signed_in.1.2, Ok (Some (named "ann"))).
Proof.
  destruct (login_is_all_or_nothing one_cell_decode subject_decode subject_encode alone (newState "guest")
    (arrival with_guest 0) (named "ann") signed_in.1.1 signed_in.1.2 None) as [Hu HA].
  - intros x raw _. apply subject_codec.
  - apply split3. vm_compute. reflexivity.
  - split; [exact Hu|]. apply HA. split; [|exact Logic.I]. change (Forall (fun s => ascii_only s = true) [EmptyString; "ann"; EmptyString; EmptyString; EmptyString]).
    repeat constructor.
Defined.

Definition checked := SessionAuth.Authenticate one_cell_decode subject_decode alone signed_in.1.1 signed_in.1.2.

Lemma session_user_witness :
  UserID_ alone checked.1.1 checked.1.2 = (checked.1.1, checked.1.2, Ok "ann").
Proof.
  refine (proj2 (proj2 (claims_belong_to_the_session_user one_cell_decode subject_decode alone
    signed_in.1.1 signed_in.1.2 checked.1.1 checked.1.2 (named "ann") _))).
  apply split3. vm_compute. reflexivity.
Defined.

(** A guarded route behind the middleware: requests carry only their context. *)
Definition passed := Middleware one_cell_decode subject_decode [] alone signed_in.1.1 signed_in.1.2.

Lemma guard_witness :
  Role (fun ctx : Context_ => ctx) (fun code => code) (mkGuard None None) "admin" (fun _ => 200%Z) [named "ann"] = 403%Z.
Proof.
  destruct (guarded_routes_need_the_grant one_cell_decode subject_decode (fun ctx : Context_ => ctx) (fun code => code)
    (mkGuard None None) "admin" (fun _ => 200%Z) [named "ann"] [] alone signed_in.1.1 signed_in.1.2
    passed.1.1 passed.1.2) as (_ & _ & Hf & _).
  - apply split3. vm_compute. reflexivity.
  - apply (Hf (named "ann")); [reflexivity|discriminate|apply not_elem_of_nil].
Defined.
