(* ===== verification/AssetPath.v ===== *)
(** The path rules of the asset packages: logical paths, mounts, URL prefixes and hashed
    names, from src/assets/assets.go, hash.go, handler.go and rewrite.go. *)

From S2P Require Import Prelude.
From S2P Require Import Strconv.
From S2P Require Import Strings.

(** ** Logical paths *)

(** The test both ends of [cleanLogical] and [resolveRef] make. *)
Definition outside (cleaned : string) : bool :=
  bool_decide (cleaned = ".") || HasPrefix cleaned "../" || bool_decide (cleaned = "..").

Definition cleanLogical (p : string) : string :=
  if bool_decide (p = EmptyString) then EmptyString
  else
    let p := TrimPrefix p "/" in
    if existsb (fun seg => bool_decide (seg = ".") || bool_decide (seg = "..")) (segments p) then EmptyString
    else let cleaned := Clean p in if outside cleaned then EmptyString else cleaned.

Inductive mountFault := LeadingSlash | TrailingSlash | EmptySegment | DotSegment (seg : string) | NotNormalised.

#[export] Instance mountFault_eq_dec : EqDecision mountFault.
Proof. solve_decision. Defined.

Fixpoint badSegment (segs : list string) : option mountFault :=
  match segs with
  | [] => None
  | seg :: segs =>
      if bool_decide (seg = EmptyString) then Some EmptySegment
      else if bool_decide (seg = ".") || bool_decide (seg = "..") then Some (DotSegment seg)
      else badSegment segs
  end.

Definition validateMount (m : string) : option mountFault :=
  if bool_decide (m = EmptyString) then None
  else if HasPrefix m "/" then Some LeadingSlash
  else if HasSuffix m "/" then Some TrailingSlash
  else match badSegment (segments m) with
       | Some f => Some f
       | None => if bool_decide (Clean m <> m) then Some NotNormalised else None
       end.

(** [None]: the prefix does not start with a slash. *)
Definition normalizeURLPrefix (p : string) : option string :=
  let p := if bool_decide (p = EmptyString) then "/assets/" else p in
  if HasPrefix p "/" then
    let cleaned := Clean p in Some (if HasSuffix cleaned "/" then cleaned else cleaned +:+ "/")
  else None.

(** ** Kinds *)

Inductive assetKind := kindOther | kindJS | kindCSS.

#[export] Instance assetKind_eq_dec : EqDecision assetKind.
Proof. solve_decision. Defined.

Definition kindOf (logicalPath : string) : assetKind :=
  let ext := Ext logicalPath in
  if bool_decide (ext = ".js") || bool_decide (ext = ".mjs") then kindJS
  else if bool_decide (ext = ".css") then kindCSS
  else kindOther.

(** ** Hashed names *)

Definition HashLength : nat := 20.

Definition hashedName (logicalPath hash : string) : string :=
  let '(dir, base) := Split logicalPath in
  let ext := Ext base in
  let stem := TrimSuffix base ext in
  dir +:+ stem +:+ "-" +:+ hash +:+ ext.

Definition isHexByte (c : Ascii.ascii) : bool := byte_in "0" "9" c || byte_in "a" "f" c || byte_in "A" "F" c.
Definition isHex (s : string) : bool := string_forall isHexByte s.

Definition stripHashSegment (rel : string) : string :=
  if bool_decide (rel = EmptyString) then EmptyString
  else
    let '(dir, base) := Split rel in
    if bool_decide (base = EmptyString) then EmptyString
    else
      let ext := Ext base in
      let stem := TrimSuffix base ext in
      let n := String.length stem in
      if (HashLength + 1 <? n)%nat
         && bool_decide (String.get (n - HashLength - 1) stem = Some "-"%char)
         && isHex (String.substring (n - HashLength) HashLength stem)
      then dir +:+ String.substring 0 (n - HashLength - 1) stem +:+ ext
      else rel.

(** ** Logical paths stay inside the namespace *)

Lemma HasPrefix_Some s p : HasPrefix s p = true -> exists r, s = p +:+ r.
Proof. unfold HasPrefix. destruct (CutPrefix s p) as [r|] eqn:E; [|done]. intros _. exists r. by apply CutPrefix_Some. Qed.

Lemma HasPrefix_slash s : HasPrefix s "/" = true <-> exists r, s = String "/" r.
Proof.
  split.
  - intros [r E]%HasPrefix_Some. by exists r.
  - intros [r ->]. unfold HasPrefix. cbn [CutPrefix]. rewrite bool_decide_true by done. by destruct r.
Qed.

Lemma HasPrefix_cat p s : HasPrefix (p +:+ s) p = true.
Proof. unfold HasPrefix. by rewrite CutPrefix_app. Qed.

(** All segments of a path are names. *)
Definition inside (p : string) : Prop := p <> EmptyString /\ Forall proper (segments p).

(** A path that is not rooted and cleans to nothing outside is a chain of names. *)
Lemma Clean_inside p : HasPrefix p "/" = false -> outside (Clean p) = false -> inside (Clean p).
Proof.
  intros Hr. unfold outside. intros [[Hd%bool_decide_eq_false Hp]%orb_false_iff Hdd%bool_decide_eq_false]%orb_false_iff.
  destruct (Clean_relative p Hr) as [E|(n & names & E & Es & Hn)]; [by rewrite E in Hd|]. destruct n as [|[|n]].
  - split; [|by rewrite Es]. intros E0. rewrite E0 in Es. cbn in Es. subst names.
    apply Forall_cons in Hn as [(? & _) _]. done.
  - destruct names as [|x names]; [by rewrite E in Hdd|]. exfalso.
    change (String.concat "/" (replicate 1 ".." ++ x :: names)) with ("../" +:+ String.concat "/" (x :: names)) in E.
    by rewrite E, HasPrefix_cat in Hp.
  - exfalso. change (String.concat "/" (replicate (S (S n)) ".." ++ names))
      with ("../" +:+ String.concat "/" (replicate (S n) ".." ++ names)) in E.
    by rewrite E, HasPrefix_cat in Hp.
Qed.

Lemma inside_not_rooted p : inside p -> HasPrefix p "/" = false.
Proof.
  intros [_ H]. destruct (HasPrefix p "/") eqn:E; [|done]. apply HasPrefix_slash in E as [r ->]. exfalso.
  unfold segments in H. cbn [split] in H. rewrite bool_decide_true in H by done.
  apply Forall_cons in H as [(? & _) _]. done.
Qed.

(** Names are kept as they are. *)
Lemma clean_segments_proper rooted names out :
  Forall proper names -> clean_segments rooted names out = rev names ++ out.
Proof.
  revert out. induction names as [|x names IH]; intros out; [done|]. intros [(H1 & H2 & H3 & _) Hn]%Forall_cons.
  cbn [clean_segments]. rewrite !bool_decide_false by done. cbn [orb]. rewrite IH by done. cbn [rev]. by rewrite <-app_assoc.
Qed.

Lemma concat_segments p : String.concat "/" (segments p) = p.
Proof.
  unfold segments. induction p as [|a p IH]; [done|]. cbn [split]. destruct (split_cons "/" p) as (x & xs & E).
  rewrite E in *. case_bool_decide as Ea.
  - subst a. change (String.concat "/" (EmptyString :: x :: xs)) with (String "/" (String.concat "/" (x :: xs))). by rewrite IH.
  - destruct xs as [|y xs]; [by cbn in *; rewrite IH|].
    change (String.concat "/" (String a x :: y :: xs)) with (String a (String.concat "/" (x :: y :: xs))). by rewrite IH.
Qed.

Lemma Clean_id p : inside p -> Clean p = p.
Proof.
  intros Hi. pose proof (inside_not_rooted p Hi) as Hr. destruct Hi as [Hne Hp]. unfold Clean. rewrite Hr. cbv zeta.
  rewrite (clean_segments_proper false (segments p) []) by done. rewrite app_nil_r, rev_involutive, concat_segments.
  by rewrite bool_decide_false.
Qed.

Lemma inside_outside p : inside p -> outside p = false.
Proof.
  intros [_ Hp]. unfold outside. assert (Hd : forall q, inside q -> q <> "." /\ q <> "..").
  { intros q [_ H]. split; intros ->; by apply Forall_cons in H as [(? & ? & ? & _) _]. }
  rewrite (bool_decide_false (p = ".")), (bool_decide_false (p = "..")).
  - destruct (HasPrefix p "../") eqn:E; [|done]. apply HasPrefix_Some in E as [r ->]. exfalso.
    change (segments ("../" +:+ r)) with (".." :: segments r) in Hp. by apply Forall_cons in Hp as [(_ & _ & ? & _) _].
  - intros ->. by apply Forall_cons in Hp as [(? & ? & ? & _) _].
  - intros ->. by apply Forall_cons in Hp as [(? & ? & ? & _) _].
Qed.

Lemma cleanLogical_id p : inside p -> cleanLogical p = p.
Proof.
  intros Hi. pose proof (inside_not_rooted p Hi) as Hr. pose proof Hi as [Hne Hp]. unfold cleanLogical.
  rewrite bool_decide_false by done. cbv zeta.
  assert (Ht : TrimPrefix p "/" = p).
  { unfold TrimPrefix. unfold HasPrefix in Hr. by destruct (CutPrefix p "/"). }
  rewrite Ht. destruct (existsb _ (segments p)) eqn:Ee.
  { apply existsb_exists in Ee as (s & Hs & Hd). apply list_elem_of_In in Hs. rewrite Forall_forall in Hp.
    destruct (Hp s Hs) as (_ & H1 & H2 & _). by rewrite !bool_decide_false in Hd. }
  rewrite Clean_id by done. by rewrite inside_outside.
Qed.

(** A logical path of one leading slash at most is clean or refused. *)
Lemma cleanLogical_inside p :
  HasPrefix (TrimPrefix p "/") "/" = false -> cleanLogical p = EmptyString \/ inside (cleanLogical p).
Proof.
  intros Hr. unfold cleanLogical. case_bool_decide; [by left|]. cbv zeta. destruct (existsb _ _); [by left|].
  destruct (outside (Clean (TrimPrefix p "/"))) eqn:E; [by left|]. right. by apply Clean_inside.
Qed.

(** ** Hashed names *)

Lemma isHex_free_of sep h : isHexByte sep = false -> isHex h = true -> free_of sep h = true.
Proof.
  intros Hs. apply string_forall_impl. intros a Ha. apply bool_decide_eq_true. intros ->. congruence.
Qed.

Lemma free_of_app sep s t : free_of sep (s +:+ t) = free_of sep s && free_of sep t.
Proof. apply string_forall_app. Qed.

Lemma Split_eq dir base : Split (dir +:+ "/" +:+ base) = (dir +:+ "/", base) <-> free_of "/" base = true.
Proof.
  unfold Split. split.
  - destruct (cut_last "/" (dir +:+ "/" +:+ base)) as [[l r]|] eqn:E; [|by destruct dir].
    intros [= _ <-]. by apply cut_last_Some in E as [_ ?].
  - intros Hf. change ("/" +:+ base) with (String "/" base). by rewrite cut_last_app.
Qed.

(** A path is its directory and a base without slashes; what follows the directory may be
    replaced. *)
Lemma Split_parts p : exists dir base, Split p = (dir, base) /\ p = dir +:+ base /\ free_of "/" base = true /\
  forall base', free_of "/" base' = true -> Split (dir +:+ base') = (dir, base').
Proof.
  unfold Split. destruct (cut_last "/" p) as [[l r]|] eqn:E.
  - apply cut_last_Some in E as [-> Hf]. exists (l +:+ "/"), r. split; [done|].
    split; [by rewrite string_app_assoc|]. split; [done|]. intros b Hb. rewrite string_app_assoc.
    change ("/" +:+ b) with (String "/" b). by rewrite cut_last_app.
  - exists EmptyString, p. apply cut_last_None in E as E'. split_and!; [done..|]. intros b Hb.
    change (EmptyString +:+ b) with b. by rewrite (proj2 (cut_last_None _ _)).
Qed.

Lemma Split_base base : free_of "/" base = true -> Split base = (EmptyString, base).
Proof. intros H%cut_last_None. unfold Split. by rewrite H. Qed.

Lemma Ext_base base : free_of "/" base = true ->
  Ext base = match cut_last "." base with Some (_, ext) => "." +:+ ext | None => EmptyString end.
Proof. intros Hf. unfold Ext. by rewrite Split_base. Qed.

(** A base is its stem and its extension, whatever else the stem is. *)
Lemma Ext_parts base : free_of "/" base = true ->
  base = TrimSuffix base (Ext base) +:+ Ext base /\
  forall stem', free_of "/" stem' = true -> (Ext base = EmptyString -> free_of "." stem' = true) ->
    Ext (stem' +:+ Ext base) = Ext base /\ free_of "/" (stem' +:+ Ext base) = true.
Proof.
  intros Hf. rewrite (Ext_base base) by done. destruct (cut_last "." base) as [[l r]|] eqn:E.
  - apply cut_last_Some in E as [-> Hr]. change (String "." r) with ("." +:+ r) in *. rewrite TrimSuffix_app.
    split; [done|]. intros stem' Hs _. rewrite free_of_app in Hf. apply andb_true_iff in Hf as [_ Hr2].
    assert (Hall : free_of "/" (stem' +:+ "." +:+ r) = true) by by rewrite free_of_app, Hs, Hr2.
    split; [|done]. rewrite Ext_base by done. change ("." +:+ r) with (String "." r). by rewrite cut_last_app.
  - split.
    + unfold TrimSuffix, HasSuffix. cbn [String.length]. rewrite Nat.sub_0_r, substring_full.
      destruct (_ && _); by rewrite string_app_nil.
    + intros stem' Hs Hd. rewrite string_app_nil. split; [|done]. rewrite Ext_base by done.
      by rewrite (proj2 (cut_last_None _ _)) by auto.
Qed.

Lemma string_get_app (s : string) a t : String.get (String.length s) (s +:+ String a t) = Some a.
Proof. induction s as [|b s IH]; [done|]. exact IH. Qed.

(** The hash of a public name comes off again. A logical path with a stem, given the
    hash its content has, is named so that stripping the segment that looks like a hash
    yields the path, which is how the development handler finds the source of a URL that
    [Asset] gave. *)
Lemma stripHashSegment_hashedName logical hash :
  String.length hash = HashLength -> isHex hash = true ->
  TrimSuffix (Split logical).2 (Ext (Split logical).2) <> EmptyString ->
  stripHashSegment (hashedName logical hash) = logical.
Proof.
  intros HL Hh. destruct (Split_parts logical) as (dir & base & ES & El & Hf & Hd). unfold hashedName.
  rewrite ES. cbn [snd]. destruct (Ext_parts base Hf) as [Eb Hx]. set (ext := Ext base) in *.
  set (stem := TrimSuffix base ext) in *. intros Hne.
  assert (Hs : free_of "/" stem = true).
  { rewrite Eb, free_of_app in Hf. by apply andb_true_iff in Hf as [? _]. }
  assert (Hs2 : free_of "/" (stem +:+ "-" +:+ hash) = true).
  { rewrite !free_of_app, Hs. by rewrite (isHex_free_of "/" hash). }
  destruct (Hx (stem +:+ "-" +:+ hash) Hs2) as [EX Hall].
  { intros E0. rewrite !free_of_app, (isHex_free_of "." hash) by done.
    pose proof (Ext_base base Hf) as EB. fold ext in EB. rewrite E0 in EB.
    destruct (cut_last "." base) as [[l r]|] eqn:E; [done|]. apply cut_last_None in E.
    rewrite Eb, free_of_app in E. by apply andb_true_iff in E as [-> _]. }
  assert (EN : dir +:+ stem +:+ "-" +:+ hash +:+ ext = dir +:+ (stem +:+ "-" +:+ hash) +:+ ext)
    by by rewrite !string_app_assoc.
  rewrite EN. unfold stripHashSegment. rewrite (Hd _ Hall). rewrite bool_decide_false.
  2: { rewrite <-EN. destruct dir; [by destruct stem|done]. }
  rewrite bool_decide_false by (by destruct stem). rewrite EX, TrimSuffix_app. cbv zeta.
  assert (Hn : String.length (stem +:+ "-" +:+ hash) = String.length stem + 1 + HashLength)
    by (rewrite !string_length_app, HL; simpl; lia).
  assert (Hst : 0 < String.length stem) by (destruct stem; simpl; [done|lia]).
  rewrite Hn, (proj2 (Nat.ltb_lt _ _)) by lia.
  replace (String.length stem + 1 + HashLength - HashLength - 1) with (String.length stem) by lia.
  replace (String.length stem + 1 + HashLength - HashLength) with (String.length (stem +:+ "-"))
    by (rewrite string_length_app; simpl; lia).
  change ("-" +:+ hash) with (String "-" hash). rewrite string_get_app, bool_decide_true by done.
  change (String "-" hash) with ("-" +:+ hash). rewrite <-HL, <-(string_app_assoc stem), substring_app_r, Hh. cbn [andb].
  rewrite string_app_assoc, substring_app_l. by rewrite El, <-Eb.
Qed.

(** A name that is all extension is hashed to one the handler does not strip. *)
Example dotfile_hash_stays :
  stripHashSegment (hashedName ".nojekyll" "0123456789abcdef0123") = "-0123456789abcdef0123.nojekyll".
Proof. vm_compute. reflexivity. Qed.
