(* ===== verification/AssetScan.v ===== *)
(** The reference scanners of the asset compiler: src/assets/scan.go.

    The content is the list of its bytes and a position a natural number, as the code
    indexes it. A loop [for i < len(content)] takes as fuel the bytes left, so that at
    zero the Go loop has ended too. Loops whose steps are calls ([scanCSSRefs],
    [scanJSCode]) count their steps, and may run out of them; slices may be out of range,
    which panics. *)

From S2P Require Import Prelude.
From S2P Require Import Strconv.
From S2P Require Import Strings.

Definition bytes : Type := list Ascii.ascii.

Definition rune : Type := Z.

(** [utf8.DecodeRune]: the first rune and its width. *)
Definition DecodeRune (b : bytes) : rune * nat :=
  match b with
  | [] => (RuneError, 0)
  | a :: rest =>
      let s := String.string_of_list_ascii (take 3 rest) in
      let '(r, s') := decode_rune a s in (r, S (String.length s - String.length s'))
  end.

Definition WriteRune (r : rune) : bytes := String.list_ascii_of_string (encode_rune r).

(** ** Bytes *)

(** [i < len(content) && content[i] == a] *)
Definition at_ (content : bytes) (i : nat) (a : Ascii.ascii) : bool :=
  match content !! i with Some b => Ascii.eqb b a | None => false end.

(** [content[i:i+2] == ab], in bounds. *)
Definition at2 (content : bytes) (i : nat) (a b : Ascii.ascii) : bool := at_ content i a && at_ content (S i) b.

Definition tab : Ascii.ascii := "009"%char.
Definition newline : Ascii.ascii := "010"%char.
Definition vtab : Ascii.ascii := "011"%char.
Definition formfeed : Ascii.ascii := "012"%char.
Definition creturn : Ascii.ascii := "013"%char.
Definition backspace : Ascii.ascii := "008"%char.
Definition squote : Ascii.ascii := "'"%char.
Definition dquote : Ascii.ascii := "034"%char.
Definition backquote : Ascii.ascii := "`"%char.
Definition backslash : Ascii.ascii := "\"%char.

Definition one_of (l : list Ascii.ascii) (c : Ascii.ascii) : bool := existsb (Ascii.eqb c) l.

Definition isASCIIDigit (c : Ascii.ascii) : bool := byte_in "0" "9" c.
Definition isASCIIAlpha (c : Ascii.ascii) : bool := byte_in "a" "z" c || byte_in "A" "Z" c.
Definition isASCIIHex (c : Ascii.ascii) : bool := isASCIIDigit c || byte_in "a" "f" c || byte_in "A" "F" c.
Definition asciiHexValue (c : Ascii.ascii) : Z :=
  (if isASCIIDigit c then byte_of c - byte_of "0"
   else if byte_in "a" "f" c then byte_of c - byte_of "a" + 10
   else byte_of c - byte_of "A" + 10)%Z.

(** [c >= 0x80] *)
Definition high (c : Ascii.ascii) : bool := (128 <=? byte_of c)%Z.

Definition isJSSpace (c : Ascii.ascii) : bool := one_of [" "%char; tab; newline; creturn; formfeed; vtab] c.
Definition isCSSSpace (c : Ascii.ascii) : bool := one_of [" "%char; tab; newline; creturn; formfeed] c.
Definition isJSIdentifierStart (c : Ascii.ascii) : bool := isASCIIAlpha c || one_of ["_"; "$"]%char c || high c.
Definition isJSIdentifierPart (c : Ascii.ascii) : bool := isJSIdentifierStart c || isASCIIDigit c.
Definition isCSSIdentifierStart (c : Ascii.ascii) : bool :=
  isASCIIAlpha c || one_of ["_"; "-"; "\"]%char c || high c.
Definition isCSSIdentifierPart (c : Ascii.ascii) : bool := isCSSIdentifierStart c || isASCIIDigit c.

Definition isJSUnicodeSpace (value : rune) : bool :=
  (existsb (Z.eqb value) [160; 5760; 8232; 8233; 8239; 8287; 12288; 65279]
   || (8192 <=? value) && (value <=? 8202))%Z.
Definition isJSUnicodeLineTerminator (content : bytes) : bool :=
  let value := (DecodeRune content).1 in ((value =? 8232) || (value =? 8233))%Z.

Definition jsKeywordAllowsExpression (word : string) : bool :=
  bool_decide (word ∈ ["await"; "break"; "case"; "continue"; "debugger"; "default"; "delete"; "do"; "else";
    "extends"; "in"; "instanceof"; "new"; "of"; "return"; "throw"; "typeof"; "void"; "yield"]%string).
Definition isJSControlHeader (word : string) : bool :=
  bool_decide (word ∈ ["catch"; "for"; "if"; "switch"; "while"; "with"]%string).

(** ** Skipping *)

Section Skip.
Context (content : bytes).

(** The fuel of a loop that starts at [i]. *)
Definition left_ (i : nat) : nat := length content - i.

Fixpoint skipLineComment_ (n i : nat) : nat :=
  match n, content !! i with
  | S n, Some c =>
      if one_of [newline; creturn] c then i
      else if isJSUnicodeLineTerminator (drop i content) then i
      else skipLineComment_ n (i + (DecodeRune (drop i content)).2)
  | _, _ => length content
  end.
Definition skipLineComment (start : nat) : nat := skipLineComment_ (left_ start) start.

Fixpoint skipBlockComment_ (n i : nat) : nat :=
  match n with
  | S n => if at2 content i "*" "/" then i + 2 else skipBlockComment_ n (S i)
  | O => length content
  end.
Definition skipBlockComment (start : nat) : nat := skipBlockComment_ (left_ start) start.

Fixpoint skipQuoted_ (n i : nat) (quote : Ascii.ascii) : nat :=
  match n, content !! i with
  | S n, Some c =>
      if Ascii.eqb c backslash then skipQuoted_ n (S (S i)) quote
      else if Ascii.eqb c quote then S i
      else if one_of [squote; dquote] quote && one_of [newline; creturn] c then i
      else skipQuoted_ n (S i) quote
  | _, _ => length content
  end.
Definition skipQuoted (start : nat) (quote : Ascii.ascii) : nat := skipQuoted_ (left_ (S start)) (S start) quote.

(** The first position from [i] on whose byte does not satisfy [p]. *)
Fixpoint skipWhile_ (p : Ascii.ascii -> bool) (n i : nat) : nat :=
  match n, content !! i with
  | S n, Some c => if p c then skipWhile_ p n (S i) else i
  | _, _ => i
  end.
Definition skipWhile (p : Ascii.ascii -> bool) (i : nat) : nat := skipWhile_ p (left_ i) i.

(** [skipJSRegex]; [None] is its [false]. *)
Fixpoint skipJSRegex_ (n i : nat) (inClass : bool) : option nat :=
  match n, content !! i with
  | S n, Some c =>
      if isJSUnicodeLineTerminator (drop i content) then None
      else if Ascii.eqb c backslash then skipJSRegex_ n (S (S i)) inClass
      else if Ascii.eqb c "[" then skipJSRegex_ n (S i) true
      else if Ascii.eqb c "]" then skipJSRegex_ n (S i) false
      else if Ascii.eqb c "/" && negb inClass then Some (skipWhile isJSIdentifierPart (S i))
      else if one_of [newline; creturn] c then None
      else skipJSRegex_ n (S i) inClass
  | _, _ => None
  end.
Definition skipJSRegex (start : nat) : option nat := skipJSRegex_ (left_ start) start false.

Definition skipJSNumber (start : nat) : nat :=
  skipWhile (fun c => isASCIIDigit c || isASCIIAlpha c || one_of ["."; "_"]%char c) (S start).

Fixpoint scanJSIdentifier_ (n i : nat) : nat :=
  match n, content !! i with
  | S n, Some c =>
      if high c then
        let '(value, width) := DecodeRune (drop i content) in
        if isJSUnicodeSpace value then i else scanJSIdentifier_ n (i + width)
      else if isJSIdentifierPart c then scanJSIdentifier_ n (S i)
      else i
  | _, _ => i
  end.
Definition scanJSIdentifier (start : nat) : nat := scanJSIdentifier_ (left_ start) start.

Fixpoint skipJSSpaces_ (n i : nat) : nat :=
  match n, content !! i with
  | S n, Some c =>
      if isJSSpace c then skipJSSpaces_ n (S i)
      else
        let '(value, width) := DecodeRune (drop i content) in
        if isJSUnicodeSpace value then skipJSSpaces_ n (i + width) else i
  | _, _ => i
  end.
Definition skipJSSpaces (start : nat) : nat := skipJSSpaces_ (left_ start) start.

Fixpoint skipCSSWhitespaceAndComments_ (n i : nat) : nat :=
  match n, content !! i with
  | S n, Some c =>
      if isCSSSpace c then skipCSSWhitespaceAndComments_ n (S i)
      else if at2 content i "/" "*" then skipCSSWhitespaceAndComments_ n (skipBlockComment (i + 2))
      else i
  | _, _ => i
  end.
Definition skipCSSWhitespaceAndComments (start : nat) : nat := skipCSSWhitespaceAndComments_ (left_ start) start.

(** ** Escapes *)

Fixpoint hexRun (i count : nat) (value : rune) : option (rune * nat) :=
  match count with
  | O => Some (value, i)
  | S count =>
      match content !! i with
      | Some c => if isASCIIHex c then hexRun (S i) count (value * 16 + asciiHexValue c)%Z else None
      | None => None
      end
  end.
Definition decodeFixedHex (start count : nat) : option (rune * nat) := hexRun start count 0%Z.

Fixpoint decodeBracedHex_ (n i digits : nat) (value : rune) : option (rune * nat) :=
  match n, content !! i with
  | S n, Some c =>
      if Ascii.eqb c "}" then
        if (0 <? digits) && (digits <=? 6) && (value <=? 1114111)%Z then Some (value, S i) else None
      else if negb (isASCIIHex c) || (digits =? 6) then None
      else decodeBracedHex_ n (S i) (S digits) (value * 16 + asciiHexValue c)%Z
  | _, _ => None
  end.
Definition decodeBracedHex (start : nat) : option (rune * nat) := decodeBracedHex_ (left_ start) start 0 0%Z.

(** At most [count] hexadecimal digits. *)
Fixpoint hexDigits (count i : nat) (value : rune) : rune * nat :=
  match count, content !! i with
  | S count, Some c =>
      if isASCIIHex c then hexDigits count (S i) (value * 16 + asciiHexValue c)%Z else (value, i)
  | _, _ => (value, i)
  end.

Definition decodeCSSEscape (slash : nat) : option (rune * nat) :=
  match content !! slash, content !! S slash with
  | Some s, Some c =>
      if negb (Ascii.eqb s backslash) then None
      else
        let i := S slash in
        if one_of [newline; formfeed] c then Some (0%Z, S i)
        else if Ascii.eqb c creturn then Some (0%Z, if at_ content (S i) newline then S (S i) else S i)
        else if negb (isASCIIHex c) then
          let '(value, width) := DecodeRune (drop i content) in Some (value, i + width)
        else
          let '(value, i) := hexDigits 6 i 0%Z in
          let i := match content !! i with
                   | Some c => if isCSSSpace c then if at2 content i creturn newline then S (S i) else S i else i
                   | None => i
                   end in
          Some (if ((value =? 0) || (1114111 <? value) || (55296 <=? value) && (value <=? 57343))%Z
                then RuneError else value, i)
  | _, _ => None
  end.

Fixpoint scanCSSIdentifier_ (n i : nat) (decoded : bytes) : nat * bytes :=
  match n, content !! i with
  | S n, Some c =>
      if isCSSIdentifierPart c && negb (Ascii.eqb c backslash) then scanCSSIdentifier_ n (S i) (decoded ++ [c])
      else if Ascii.eqb c backslash then
        match decodeCSSEscape i with
        | Some (value, next) => scanCSSIdentifier_ n next (decoded ++ WriteRune value)
        | None => (i, decoded)
        end
      else (i, decoded)
  | _, _ => (i, decoded)
  end.
Definition scanCSSIdentifier (start : nat) : nat * bytes := scanCSSIdentifier_ (left_ start) start [].

Fixpoint decodeCSSSpecifier_ (n i : nat) : bytes :=
  match n, content !! i with
  | S n, Some c =>
      if negb (Ascii.eqb c backslash) then c :: decodeCSSSpecifier_ n (S i)
      else
        match decodeCSSEscape i with
        | Some (value, next) => (if (value =? 0)%Z then [] else WriteRune value) ++ decodeCSSSpecifier_ n next
        | None => c :: decodeCSSSpecifier_ n (S i)
        end
  | _, _ => []
  end.

(** The [case 'u'] of [decodeJSSpecifier], at the position of the [u]. *)
Definition decodeJSUnicode (i : nat) : bytes * nat :=
  if at_ content (S i) "{" then
    match decodeBracedHex (i + 2) with
    | Some (value, next) => (WriteRune value, next)
    | None => (["u"%char], S i)
    end
  else
    match decodeFixedHex (S i) 4 with
    | Some (value, next) =>
        let '(value, next) :=
          if ((55296 <=? value) && (value <=? 56319))%Z && (next + 6 <=? length content)
             && at2 content next backslash "u" then
            match decodeFixedHex (next + 2) 4 with
            | Some (low, lowNext) =>
                if ((56320 <=? low) && (low <=? 57343))%Z
                then ((65536 + (value - 55296) * 1024 + low - 56320)%Z, lowNext) else (value, next)
            | None => (value, next)
            end
          else (value, next) in
        (WriteRune (if ((55296 <=? value) && (value <=? 57343))%Z then RuneError else value), next)
    | None => (["u"%char], S i)
    end.

(** The [switch] of [decodeJSSpecifier], at the byte [c] after a backslash. *)
Definition decodeJSEscape (c : Ascii.ascii) (i : nat) : bytes * nat :=
  if Ascii.eqb c newline then ([], S i)
  else if Ascii.eqb c creturn then ([], if at_ content (S i) newline then S (S i) else S i)
  else if Ascii.eqb c "b" then ([backspace], S i)
  else if Ascii.eqb c "f" then ([formfeed], S i)
  else if Ascii.eqb c "n" then ([newline], S i)
  else if Ascii.eqb c "r" then ([creturn], S i)
  else if Ascii.eqb c "t" then ([tab], S i)
  else if Ascii.eqb c "v" then ([vtab], S i)
  else if Ascii.eqb c "0" then (["000"%char], S i)
  else if Ascii.eqb c "x" then
    match decodeFixedHex (S i) 2 with
    | Some (value, next) => (WriteRune value, next)
    | None => (["x"%char], S i)
    end
  else if Ascii.eqb c "u" then decodeJSUnicode i
  else ([c], S i).

Fixpoint decodeJSSpecifier_ (n i : nat) : bytes :=
  match n, content !! i with
  | S n, Some c =>
      if negb (Ascii.eqb c backslash) then c :: decodeJSSpecifier_ n (S i)
      else
        match content !! S i with
        | None => [backslash]
        | Some e => let '(out, next) := decodeJSEscape e (S i) in out ++ decodeJSSpecifier_ n next
        end
  | _, _ => []
  end.
End Skip.

Definition decodeCSSSpecifier (raw : bytes) : bytes := decodeCSSSpecifier_ raw (length raw) 0.
Definition decodeJSSpecifier (raw : bytes) : bytes := decodeJSSpecifier_ raw (length raw) 0.

(** ** Outcomes *)

Inductive outcome (A : Type) : Type :=
| Done (a : A)
| Panicked
| OutOfSteps.
Arguments Done {A} a.
Arguments Panicked {A}.
Arguments OutOfSteps {A}.

Definition outcome_bind {A B} (o : outcome A) (f : A -> outcome B) : outcome B :=
  match o with Done a => f a | Panicked => Panicked | OutOfSteps => OutOfSteps end.

Notation "'let!' x ':=' o 'in' k" := (outcome_bind o (fun x => k))
  (at level 10, x pattern, o at level 100, k at level 200) : go_scope.
Local Open Scope go_scope.

(** [content[lo:hi]] *)
Definition slice (content : bytes) (lo hi : nat) : outcome bytes :=
  if (lo <=? hi) && (hi <=? length content) then Done (take (hi - lo) (drop lo content)) else Panicked.

Inductive referenceKind := referenceJSImport | referenceCSSImport | referenceCSSURL.

#[export] Instance referenceKind_eq_dec : EqDecision referenceKind.
Proof. solve_decision. Defined.

Record scannedRef := mkRef { r_start : nat; r_end : nat; r_kind : referenceKind; r_value : bytes }.

(** The end of the text in quotes that [skipQuoted] found to end at [end]. *)
Definition innerEnd (content : bytes) (i end_ : nat) (quote : Ascii.ascii) : nat :=
  if (i <? end_) && (end_ <=? length content) && at_ content (end_ - 1) quote then end_ - 1 else end_.

(** ** CSS *)

(** [strings.EqualFold] with a lower-case word of letters that no rune outside ASCII
    folds to, as those of [import] and [url] are. *)
Definition lower (c : Ascii.ascii) : Ascii.ascii :=
  if byte_in "A" "Z" c then ascii_of (byte_of c + 32) else c.
Definition EqualFold (name : bytes) (word : string) : bool :=
  bool_decide (lower <$> name = String.list_ascii_of_string word).

Section CSS.
Context (content : bytes).

(** A target in quotes. *)
Definition quotedTarget (i : nat) (quote : Ascii.ascii) (kind : referenceKind) : outcome (scannedRef * nat) :=
  let end_ := skipQuoted content i quote in
  let inner := innerEnd content i end_ quote in
  let! raw := slice content (S i) inner in
  Done (mkRef (S i) inner kind (decodeCSSSpecifier raw), end_).

(** An unquoted URL: to the closing parenthesis, a space or a comment. *)
Fixpoint urlEnd (n i : nat) : nat :=
  match n, content !! i with
  | S n, Some c =>
      if Ascii.eqb c ")" || isCSSSpace c then i
      else if at2 content i "/" "*" then i
      else if Ascii.eqb c backslash then
        match decodeCSSEscape content i with
        | Some (_, next) => urlEnd n next
        | None => urlEnd n (S i)
        end
      else urlEnd n (S i)
  | _, _ => i
  end.

(** The targets; an inner [None] is the [false] of the code. *)
Definition scanCSSURLTarget (open : nat) (kind : referenceKind) : outcome (option (scannedRef * nat)) :=
  let i := skipCSSWhitespaceAndComments content (S open) in
  match content !! i with
  | None => Done None
  | Some c =>
      if one_of [squote; dquote] c then let! x := quotedTarget i c kind in Done (Some x)
      else
        let j := urlEnd (left_ content i) i in
        if j =? i then Done None
        else let! raw := slice content i j in Done (Some (mkRef i j kind (decodeCSSSpecifier raw), j))
  end.

Definition scanCSSImportTarget (start : nat) : outcome (option (scannedRef * nat)) :=
  let i := skipCSSWhitespaceAndComments content start in
  match content !! i with
  | None => Done None
  | Some c =>
      if one_of [squote; dquote] c then let! x := quotedTarget i c referenceCSSImport in Done (Some x)
      else
        let '(nameEnd, name) := scanCSSIdentifier content i in
        if (i <? nameEnd) && EqualFold name "url" && at_ content nameEnd "("
        then scanCSSURLTarget nameEnd referenceCSSImport
        else Done None
  end.

(** One round of the loop at the byte [c]: a reference, if any, and the next position. *)
Definition cssStep (i : nat) (c : Ascii.ascii) : outcome (list scannedRef * nat) :=
  let found (target : outcome (option (scannedRef * nat))) (next : nat) : outcome (list scannedRef * nat) :=
    let! t := target in
    match t with Some (r, next) => Done ([r], next) | None => Done ([], next) end in
  if isCSSSpace c then Done ([], S i)
  else if at2 content i "/" "*" then Done ([], skipBlockComment content (i + 2))
  else if one_of [squote; dquote] c then Done ([], skipQuoted content i c)
  else if Ascii.eqb c "@" then
    let '(nameEnd, name) := scanCSSIdentifier content (S i) in
    if (S i <? nameEnd) && EqualFold name "import"
    then found (scanCSSImportTarget nameEnd) (nameEnd `max` S i)
    else Done ([], nameEnd `max` S i)
  else if isCSSIdentifierStart c then
    let '(nameEnd, name) := scanCSSIdentifier content i in
    if EqualFold name "url" && at_ content nameEnd "("
    then found (scanCSSURLTarget nameEnd referenceCSSURL) nameEnd
    else Done ([], nameEnd)
  else Done ([], S i).

Fixpoint scanCSS (steps i : nat) : outcome (list scannedRef) :=
  match content !! i with
  | None => Done []
  | Some c =>
      match steps with
      | O => OutOfSteps
      | S steps =>
          let! (found, next) := cssStep i c in
          let! refs := scanCSS steps next in
          Done (found ++ refs)
      end
  end.
End CSS.

Definition scanCSSRefs (steps : nat) (content : bytes) : outcome (list scannedRef) := scanCSS content steps 0.

(** ** JavaScript *)

Inductive jsLexemeKind := jsLexemeOther | jsLexemeIdentifier | jsLexemeString | jsLexemeTemplate | jsLexemePunct.

#[export] Instance jsLexemeKind_eq_dec : EqDecision jsLexemeKind.
Proof. solve_decision. Defined.

Record jsLexeme := mkLexeme { l_kind : jsLexemeKind; l_start : nat; l_end : nat; l_value : bytes }.

Section JS.
Context (content : bytes).

(** Spaces and comments before a lexeme. *)
Fixpoint skipTrivia (n i : nat) : nat :=
  match n, content !! i with
  | S n, Some _ =>
      let next := skipJSSpaces content i in
      if negb (next =? i) then skipTrivia n next
      else if at2 content i "/" "/" then skipTrivia n (skipLineComment content (i + 2))
      else if at2 content i "/" "*" then skipTrivia n (skipBlockComment content (i + 2))
      else i
  | _, _ => i
  end.

(** The template at [i], from [end] on. *)
Fixpoint templateLexeme (n i end_ : nat) : outcome (jsLexeme * nat) :=
  match n, content !! end_ with
  | S n, Some c =>
      if Ascii.eqb c backslash then templateLexeme n i (S (S end_))
      else if at2 content end_ "$" "{" then Done (mkLexeme jsLexemeOther i (end_ + 2) [], end_ + 2)
      else if Ascii.eqb c backquote then
        let! raw := slice content (S i) end_ in
        Done (mkLexeme jsLexemeTemplate (S i) end_ (decodeJSSpecifier raw), S end_)
      else templateLexeme n i (S end_)
  | _, _ => Done (mkLexeme jsLexemeOther i (length content) [], length content)
  end.

(** The lexeme at [i], where no space or comment is. *)
Definition lexemeAt (i : nat) : outcome (jsLexeme * nat) :=
  match content !! i with
  | None => Done (mkLexeme jsLexemeOther 0 0 [], i)
  | Some c =>
      if one_of [squote; dquote] c then
        let end_ := skipQuoted content i c in
        let inner := innerEnd content i end_ c in
        let! raw := slice content (S i) inner in
        Done (mkLexeme jsLexemeString (S i) inner (decodeJSSpecifier raw), end_)
      else if Ascii.eqb c backquote then templateLexeme (left_ content (S i)) i (S i)
      else if isJSIdentifierStart c then
        let end_ := scanJSIdentifier content i in
        let! word := slice content i end_ in
        Done (mkLexeme jsLexemeIdentifier i end_ word, end_)
      else Done (mkLexeme jsLexemePunct i (S i) [c], S i)
  end.

Definition nextJSLexeme (start : nat) : outcome (jsLexeme * nat) :=
  lexemeAt (skipTrivia (left_ content start) start).

Definition is_punct (t : jsLexeme) (c : Ascii.ascii) : bool :=
  bool_decide (l_kind t = jsLexemePunct) && bool_decide (l_value t = [c]).

Definition importRef (t : jsLexeme) : scannedRef := mkRef (l_start t) (l_end t) referenceJSImport (l_value t).

Fixpoint scanJSFromClause (steps pos : nat) : outcome (option scannedRef) :=
  if length content <=? pos then Done None
  else
    match steps with
    | O => OutOfSteps
    | S steps =>
        let! (token, next) := nextJSLexeme pos in
        if (l_end token =? 0) || is_punct token ";" then Done None
        else if bool_decide (l_kind token = jsLexemeIdentifier)
                && bool_decide (l_value token = String.list_ascii_of_string "from") then
          let! (spec, _) := nextJSLexeme next in
          if bool_decide (l_kind spec = jsLexemeString) then Done (Some (importRef spec))
          else scanJSFromClause steps next
        else scanJSFromClause steps next
    end.

Definition scanJSImportDeclaration (steps start : nat) : outcome (option scannedRef) :=
  let! (token, next) := nextJSLexeme start in
  if bool_decide (l_kind token = jsLexemeString) then Done (Some (importRef token))
  else if is_punct token "." then Done None
  else if is_punct token "(" then
    let! (token, _) := nextJSLexeme next in
    if bool_decide (l_kind token = jsLexemeString) || bool_decide (l_kind token = jsLexemeTemplate)
    then Done (Some (importRef token)) else Done None
  else scanJSFromClause steps next.

Definition scanJSExportDeclaration (steps start : nat) : outcome (option scannedRef) :=
  let! (token, next) := nextJSLexeme start in
  if negb (is_punct token "*" || is_punct token "{") then Done None
  else scanJSFromClause steps next.

(** The locals of [scanJSCode]. *)
Record jsState := mkJS {
  j_regex : bool;
  j_depth : nat;
  j_dot : bool;
  j_header : bool;
  j_parens : list bool
}.

(** [canStartRegex := regex], [previousDot := dot], [controlHeader := header]. *)
Definition flags (regex dot header : bool) (s : jsState) : jsState := mkJS regex (j_depth s) dot header (j_parens s).

(** The punctuation of the inner [switch]; [None] is the return at the closing brace. *)
Definition jsPunct (c : Ascii.ascii) (i : nat) (stopAtBrace : bool) (s : jsState) : option (jsState * nat) :=
  if Ascii.eqb c "{" then Some (mkJS true (S (j_depth s)) false false (j_parens s), S i)
  else if Ascii.eqb c "}" then
    if stopAtBrace && (j_depth s =? 0) then None
    else Some (mkJS true (pred (j_depth s)) false false (j_parens s), S i)
  else if Ascii.eqb c "(" then Some (mkJS true (j_depth s) false false (j_header s :: j_parens s), S i)
  else if Ascii.eqb c ")" then
    Some (match j_parens s with
          | p :: ps => mkJS p (j_depth s) false false ps
          | [] => mkJS false (j_depth s) false false []
          end, S i)
  else if Ascii.eqb c "]" then Some (flags false false false s, S i)
  else if one_of ["."; "#"]%char c then Some (flags false true false s, S i)
  else if one_of ["+"; "-"]%char c then
    let double := at_ content (S i) c in
    Some (flags (negb double) false false s, if double then S (S i) else S i)
  else Some (flags true false false s, S i).

(** An identifier: the reference it starts, if any, and what follows. *)
Definition jsWord (steps i : nat) (s : jsState) : outcome (list scannedRef * jsState * nat) :=
  let end_ := scanJSIdentifier content i in
  let! raw := slice content i end_ in
  let word := String.string_of_list_ascii raw in
  let! found :=
    if j_dot s then Done None
    else if String.eqb word "import" then scanJSImportDeclaration steps end_
    else if String.eqb word "export" then scanJSExportDeclaration steps end_
    else Done None in
  Done (match found with Some r => [r] | None => [] end,
        flags (jsKeywordAllowsExpression word) false
          (isJSControlHeader word || j_header s && String.eqb word "await") s,
        end_).

(** [scanJSCode] from [i] on, and [scanJSTemplate]. *)
Fixpoint scanJSCode (steps i : nat) (stopAtBrace : bool) (s : jsState) : outcome (list scannedRef * nat) :=
  match content !! i with
  | None => Done ([], length content)
  | Some c =>
      match steps with
      | O => OutOfSteps
      | S steps =>
          let continue_ (found : list scannedRef) (s : jsState) (next : nat) : outcome (list scannedRef * nat) :=
            let! (refs, end_) := scanJSCode steps next stopAtBrace s in Done (found ++ refs, end_) in
          let next := skipJSSpaces content i in
          if negb (next =? i) then continue_ [] s next
          else if at2 content i "/" "/" then continue_ [] s (skipLineComment content (i + 2))
          else if at2 content i "/" "*" then continue_ [] s (skipBlockComment content (i + 2))
          else if one_of [squote; dquote] c then continue_ [] (flags false false false s) (skipQuoted content i c)
          else if Ascii.eqb c backquote then
            let! (refs, next) := scanJSTemplate steps (S i) in
            continue_ refs (flags false false false s) next
          else if Ascii.eqb c "/" && j_regex s then
            match skipJSRegex content (S i) with
            | Some end_ => continue_ [] (flags false false false s) end_
            | None => continue_ [] (flags true false false s) (S i)
            end
          else if isJSIdentifierStart c then
            let! (found, s, next) := jsWord steps i s in continue_ found s next
          else if isASCIIDigit c then continue_ [] (flags false false false s) (skipJSNumber content i)
          else
            match jsPunct c i stopAtBrace s with
            | None => Done ([], S i)
            | Some (s, next) => continue_ [] s next
            end
      end
  end
with scanJSTemplate (steps i : nat) : outcome (list scannedRef * nat) :=
  match content !! i with
  | None => Done ([], length content)
  | Some c =>
      match steps with
      | O => OutOfSteps
      | S steps =>
          if Ascii.eqb c backslash then scanJSTemplate steps (i + 2)
          else if Ascii.eqb c backquote then Done ([], S i)
          else if at2 content i "$" "{" then
            let! (refs, next) := scanJSCode steps (i + 2) true (mkJS true 0 false false []) in
            let! (refs', end_) := scanJSTemplate steps next in
            Done (refs ++ refs', end_)
          else scanJSTemplate steps (S i)
      end
  end.

(** The position after a hashbang line, past a byte-order mark. *)
Definition hashbangEnd : nat :=
  let hashbang := if bool_decide (take 3 content = ["239"; "187"; "191"]%char) then 3 else 0 in
  if at2 content hashbang "#" "!" then skipLineComment content (hashbang + 2) else 0.
End JS.

Definition scanJSImportRefs (steps : nat) (content : bytes) : outcome (list scannedRef) :=
  let! (refs, _) := scanJSCode content steps (hashbangEnd content) false (mkJS true 0 false false []) in Done refs.
