(* ===== verification/AssetScanSpec.v ===== *)
(** What the scanners of AssetScan.v find: the loops end, every reference lies inside the
    content with the decoded text between its bounds as its value, those of a style sheet
    are in order and apart, and a slice is out of range only behind a quote that ends its
    line. *)

From S2P Require Import Prelude.
From S2P Require Import Strconv.
From S2P Require Import Strings.
From S2P Require Import AssetScan.

(** ** Runes *)

Lemma decode_rune_shrinks a s : String.length (decode_rune a s).2 <= String.length s.
Proof.
  unfold decode_rune. destruct (_ <? 128)%Z; [done|].
  destruct (_ && _); [destruct s as [|b s1]; [done|]; destruct (is_cont b); simpl; lia|].
  destruct (_ && _).
  { destruct s as [|b [|c s2]]; [done..|]. destruct (_ && _); simpl; lia. }
  destruct (_ && _); [|done].
  destruct s as [|b [|c [|d s3]]]; [done..|]. destruct (_ && _ && _); simpl; lia.
Qed.

Lemma string_of_list_ascii_length l : String.length (String.string_of_list_ascii l) = length l.
Proof. induction l as [|a l IH]; simpl; [done|]. by rewrite IH. Qed.

Lemma DecodeRune_width b : b <> [] -> 1 <= (DecodeRune b).2 <= length b.
Proof.
  destruct b as [|a rest]; [done|]. intros _. unfold DecodeRune.
  pose proof (string_of_list_ascii_length (take 3 rest)) as HL. rewrite length_take in HL.
  pose proof (decode_rune_shrinks a (String.string_of_list_ascii (take 3 rest))) as H.
  destruct (decode_rune a _) as [r s']. cbn [snd length] in *. lia.
Qed.

Section Content.
Context (content : bytes).
Implicit Types (i n : nat) (c : Ascii.ascii).

Notation len := (length content).

Lemma get_lt i c : content !! i = Some c -> i < len.
Proof. apply lookup_lt_Some. Qed.

Lemma get_ge i : content !! i = None -> len <= i.
Proof. apply lookup_ge_None. Qed.

Lemma width_at i c :
  content !! i = Some c -> 1 <= (DecodeRune (drop i content)).2 <= len - i.
Proof.
  intros H%get_lt. rewrite <-length_drop. apply DecodeRune_width. intros E.
  apply (f_equal length) in E. rewrite length_drop in E. simpl in E. lia.
Qed.

Lemma at_get i a : at_ content i a = true -> content !! i = Some a.
Proof. unfold at_. destruct (content !! i) as [b|]; [|done]. by intros ->%Ascii.eqb_eq. Qed.

Lemma at2_get i a b : at2 content i a b = true -> S i < len.
Proof. unfold at2. intros [_ H%at_get%get_lt]%andb_true_iff. done. Qed.

(** ** Bounds of the skipping loops *)

(** Where a loop that ends with the content, or not before it started, may end. *)
Definition ahead (i j : nat) : Prop := j = len \/ i <= j <= len.

Lemma ahead_le i j : i <= len -> ahead i j -> i <= j <= len.
Proof. unfold ahead. lia. Qed.

Lemma ahead_mono i i' j : i <= i' -> ahead i' j -> ahead i j.
Proof. unfold ahead. lia. Qed.

Lemma skipLineComment_ahead n i : ahead i (skipLineComment_ content n i).
Proof.
  revert i. induction n as [|n IH]; intros i; cbn [skipLineComment_]; [by left|].
  destruct (content !! i) as [c|] eqn:E; [|by left]. pose proof (get_lt _ _ E). pose proof (width_at _ _ E).
  destruct (one_of _ c); [right; lia|]. destruct (isJSUnicodeLineTerminator _); [right; lia|].
  eapply ahead_mono, IH. lia.
Qed.

Lemma skipBlockComment_ahead n i : ahead i (skipBlockComment_ content n i).
Proof.
  revert i. induction n as [|n IH]; intros i; cbn [skipBlockComment_]; [by left|].
  destruct (at2 content i "*" "/") eqn:E; [apply at2_get in E; right; lia|].
  eapply ahead_mono, IH. lia.
Qed.

Lemma skipQuoted_ahead n i quote : ahead i (skipQuoted_ content n i quote).
Proof.
  revert i. induction n as [|n IH]; intros i; cbn [skipQuoted_]; [by left|].
  destruct (content !! i) as [c|] eqn:E; [|by left]. pose proof (get_lt _ _ E).
  destruct (Ascii.eqb c backslash); [eapply ahead_mono, IH; lia|].
  destruct (Ascii.eqb c quote); [right; lia|]. destruct (_ && _); [right; lia|].
  eapply ahead_mono, IH. lia.
Qed.

(** A quoted text that ends right after its quote was not closed. *)
Lemma skipQuoted_least i quote :
  skipQuoted content i quote <= S i -> skipQuoted content i quote = len \/
  exists c, content !! S i = Some c /\ one_of [newline; creturn] c = true.
Proof.
  unfold skipQuoted. destruct (left_ content (S i)) as [|n]; cbn [skipQuoted_]; [by left|].
  destruct (content !! S i) as [c|] eqn:E; [|by left].
  destruct (Ascii.eqb c backslash).
  { destruct (skipQuoted_ahead n (S (S (S i))) quote); [by left|lia]. }
  destruct (Ascii.eqb c quote); [lia|].
  destruct (_ && one_of [newline; creturn] c) eqn:Eb; [intros _; right; exists c; by apply andb_true_iff in Eb as [_ ?]|].
  destruct (skipQuoted_ahead n (S (S i)) quote); [by left|lia].
Qed.

(** From [i] on, and inside the content if [i] is. *)
Definition onward (i j : nat) : Prop := i <= j /\ (i <= len -> j <= len).

Lemma onward_refl i : onward i i.
Proof. unfold onward. lia. Qed.

Lemma onward_trans i j k : i <= j -> (i < len -> j <= len) -> i < len -> onward j k -> onward i k.
Proof. unfold onward. lia. Qed.

Lemma skipWhile_onward p n i : onward i (skipWhile_ content p n i).
Proof.
  revert i. induction n as [|n IH]; intros i; cbn [skipWhile_]; [apply onward_refl|].
  destruct (content !! i) as [c|] eqn:E; [|apply onward_refl]. pose proof (get_lt _ _ E).
  destruct (p c); [|apply onward_refl]. eapply (onward_trans i (S i)); [lia..|apply IH].
Qed.

Lemma skipJSRegex_onward n i b j : skipJSRegex_ content n i b = Some j -> i < j <= len.
Proof.
  revert i b. induction n as [|n IH]; intros i b; cbn [skipJSRegex_]; [done|].
  destruct (content !! i) as [c|] eqn:E; [|done]. pose proof (get_lt _ _ E).
  destruct (isJSUnicodeLineTerminator _); [done|].
  destruct (Ascii.eqb c backslash); [intros ?%IH; lia|].
  destruct (Ascii.eqb c "["); [intros ?%IH; lia|]. destruct (Ascii.eqb c "]"); [intros ?%IH; lia|].
  destruct (_ && _); [|destruct (one_of _ c); [done|intros ?%IH; lia]].
  intros [= <-]. destruct (skipWhile_onward isJSIdentifierPart (left_ content (S i)) (S i)). unfold skipWhile. lia.
Qed.

Lemma scanJSIdentifier_onward n i : onward i (scanJSIdentifier_ content n i).
Proof.
  revert i. induction n as [|n IH]; intros i; cbn [scanJSIdentifier_]; [apply onward_refl|].
  destruct (content !! i) as [c|] eqn:E; [|apply onward_refl]. pose proof (get_lt _ _ E). pose proof (width_at _ _ E).
  destruct (high c).
  - destruct (DecodeRune (drop i content)) as [value width]. cbn [snd] in *.
    destruct (isJSUnicodeSpace value); [apply onward_refl|]. eapply (onward_trans i (i + width)); [lia..|apply IH].
  - destruct (isJSIdentifierPart c); [|apply onward_refl]. eapply (onward_trans i (S i)); [lia..|apply IH].
Qed.

Lemma skipJSSpaces_onward n i : onward i (skipJSSpaces_ content n i).
Proof.
  revert i. induction n as [|n IH]; intros i; cbn [skipJSSpaces_]; [apply onward_refl|].
  destruct (content !! i) as [c|] eqn:E; [|apply onward_refl]. pose proof (get_lt _ _ E). pose proof (width_at _ _ E).
  destruct (isJSSpace c); [eapply (onward_trans i (S i)); [lia..|apply IH]|].
  destruct (DecodeRune (drop i content)) as [value width]. cbn [snd] in *.
  destruct (isJSUnicodeSpace value); [|apply onward_refl]. eapply (onward_trans i (i + width)); [lia..|apply IH].
Qed.

(** Where no spaces are skipped there is none. *)
Lemma skipJSSpaces_fixed i c :
  content !! i = Some c -> skipJSSpaces content i = i ->
  isJSSpace c = false /\ isJSUnicodeSpace (DecodeRune (drop i content)).1 = false.
Proof.
  intros E. pose proof (get_lt _ _ E). pose proof (width_at _ _ E). unfold skipJSSpaces, left_.
  destruct (len - i) as [|n] eqn:En; [lia|]. cbn [skipJSSpaces_]. rewrite E.
  destruct (isJSSpace c); [destruct (skipJSSpaces_onward n (S i)); lia|].
  destruct (DecodeRune (drop i content)) as [value width]. cbn [fst snd] in *.
  destruct (isJSUnicodeSpace value); [|done]. destruct (skipJSSpaces_onward n (i + width)). lia.
Qed.

(** An identifier is at least one byte long. *)
Lemma scanJSIdentifier_progress i c :
  content !! i = Some c -> isJSIdentifierStart c = true -> skipJSSpaces content i = i ->
  i < scanJSIdentifier content i <= len.
Proof.
  intros E Hs Hk. pose proof (get_lt _ _ E). pose proof (width_at _ _ E).
  destruct (skipJSSpaces_fixed i c E Hk) as [_ Hu]. unfold scanJSIdentifier, left_.
  destruct (len - i) as [|n] eqn:En; [lia|]. cbn [scanJSIdentifier_]. rewrite E.
  destruct (high c).
  - destruct (DecodeRune (drop i content)) as [value width]. cbn [fst snd] in *. rewrite Hu.
    destruct (scanJSIdentifier_onward n (i + width)). lia.
  - unfold isJSIdentifierPart. rewrite Hs. cbn [orb]. destruct (scanJSIdentifier_onward n (S i)). lia.
Qed.

Lemma skipCSS_onward n i : onward i (skipCSSWhitespaceAndComments_ content n i).
Proof.
  revert i. induction n as [|n IH]; intros i; cbn [skipCSSWhitespaceAndComments_]; [apply onward_refl|].
  destruct (content !! i) as [c|] eqn:E; [|apply onward_refl]. pose proof (get_lt _ _ E).
  destruct (isCSSSpace c); [eapply (onward_trans i (S i)); [lia..|apply IH]|].
  destruct (at2 content i "/" "*") eqn:E2; [|apply onward_refl]. apply at2_get in E2.
  assert (H2 : ahead (i + 2) (skipBlockComment content (i + 2))) by apply skipBlockComment_ahead.
  apply ahead_le in H2; [|lia]. eapply (onward_trans i (skipBlockComment content (i + 2))); [lia..|apply IH].
Qed.

(** ** Escapes *)

Lemma hexRun_bounds i count v r j : hexRun content i count v = Some (r, j) -> j = i + count /\ (0 < count -> j <= len).
Proof.
  revert i v. induction count as [|count IH]; intros i v; cbn [hexRun]; [intros [= _ <-]; lia|].
  destruct (content !! i) as [c|] eqn:E; [|done]. pose proof (get_lt _ _ E).
  destruct (isASCIIHex c); [|done]. intros [? ?]%IH. destruct count; lia.
Qed.

Lemma decodeBracedHex_bounds n i d v r j : decodeBracedHex_ content n i d v = Some (r, j) -> i < j <= len.
Proof.
  revert i d v. induction n as [|n IH]; intros i d v; cbn [decodeBracedHex_]; [done|].
  destruct (content !! i) as [c|] eqn:E; [|done]. pose proof (get_lt _ _ E).
  destruct (Ascii.eqb c "}"); [destruct (_ && _); [intros [= _ <-]; lia|done]|].
  destruct (_ || _); [done|]. intros ?%IH. lia.
Qed.

Lemma hexDigits_onward count i v : onward i (hexDigits content count i v).2.
Proof.
  revert i v. induction count as [|count IH]; intros i v; cbn [hexDigits]; [apply onward_refl|].
  destruct (content !! i) as [c|] eqn:E; [|apply onward_refl]. pose proof (get_lt _ _ E).
  destruct (isASCIIHex c); [|apply onward_refl]. eapply (onward_trans i (S i)); [lia..|apply IH].
Qed.

Lemma hexDigits_progress count i v c :
  content !! i = Some c -> isASCIIHex c = true -> i < (hexDigits content (S count) i v).2 <= len.
Proof.
  intros E Eh. pose proof (get_lt _ _ E). cbn [hexDigits]. rewrite E, Eh.
  destruct (hexDigits_onward count (S i) (v * 16 + asciiHexValue c)%Z). lia.
Qed.

Lemma decodeCSSEscape_bounds i r j : decodeCSSEscape content i = Some (r, j) -> S i < j <= len.
Proof.
  unfold decodeCSSEscape. destruct (content !! i) as [s|]; [|done].
  destruct (content !! S i) as [c|] eqn:E; [|done]. pose proof (get_lt _ _ E). pose proof (width_at _ _ E).
  destruct (negb _); [done|]. cbv zeta. destruct (one_of _ c); [intros [= _ <-]; lia|].
  destruct (Ascii.eqb c creturn).
  { destruct (at_ content (S (S i)) newline) eqn:Ea; intros [= _ <-]; [apply at_get, get_lt in Ea|]; lia. }
  destruct (isASCIIHex c) eqn:Eh; cbn [negb].
  - pose proof (hexDigits_progress 5 (S i) 0%Z c E Eh) as H1.
    destruct (hexDigits content 6 (S i) 0%Z) as [v k]. cbn [snd] in *.
    destruct (content !! k) as [c2|] eqn:E2; [|intros [= _ <-]; lia]. pose proof (get_lt _ _ E2).
    destruct (isCSSSpace c2); [|intros [= _ <-]; lia].
    destruct (at2 content k creturn newline) eqn:Ea; intros [= _ <-]; [apply at2_get in Ea|]; lia.
  - destruct (DecodeRune (drop (S i) content)) as [v w]. cbn [snd] in *. intros [= _ <-]. lia.
Qed.

(** Only a backslash at the very end is no escape. *)
Lemma decodeCSSEscape_None i : content !! i = Some backslash -> decodeCSSEscape content i = None -> S i = len.
Proof.
  intros E. pose proof (get_lt _ _ E). unfold decodeCSSEscape. rewrite E.
  destruct (content !! S i) as [c|] eqn:E1; [|apply get_ge in E1; lia].
  change (negb (Ascii.eqb backslash backslash)) with false. cbv iota zeta.
  destruct (one_of _ c); [done|]. destruct (Ascii.eqb c creturn); [done|].
  destruct (negb (isASCIIHex c)); [by destruct (DecodeRune _)|]. by destruct (hexDigits _ _ _ _).
Qed.

Lemma scanCSSIdentifier_onward n i d : onward i (scanCSSIdentifier_ content n i d).1.
Proof.
  revert i d. induction n as [|n IH]; intros i d; cbn [scanCSSIdentifier_]; [apply onward_refl|].
  destruct (content !! i) as [c|] eqn:E; [|apply onward_refl]. pose proof (get_lt _ _ E).
  destruct (_ && _); [eapply (onward_trans i (S i)); [lia..|apply IH]|].
  destruct (Ascii.eqb c backslash); [|apply onward_refl].
  destruct (decodeCSSEscape content i) as [[v next]|] eqn:Ed; [|apply onward_refl].
  apply decodeCSSEscape_bounds in Ed. eapply (onward_trans i next); [lia..|apply IH].
Qed.

(** An identifier is at least one byte long, but for a backslash that ends the content. *)
Lemma scanCSSIdentifier_progress i c :
  content !! i = Some c -> isCSSIdentifierStart c = true ->
  i < (scanCSSIdentifier content i).1 <= len \/ c = backslash /\ S i = len.
Proof.
  intros E Hs. pose proof (get_lt _ _ E). unfold scanCSSIdentifier, left_.
  destruct (len - i) as [|n] eqn:En; [lia|]. cbn [scanCSSIdentifier_]. rewrite E.
  unfold isCSSIdentifierPart. rewrite Hs. cbn [orb andb].
  destruct (Ascii.eqb c backslash) eqn:Eb; cbn [negb].
  - apply Ascii.eqb_eq in Eb as ->. destruct (decodeCSSEscape content i) as [[v next]|] eqn:Ed.
    + apply decodeCSSEscape_bounds in Ed. destruct (scanCSSIdentifier_onward n next ([] ++ WriteRune v)). left. lia.
    + right. split; [done|]. by apply decodeCSSEscape_None.
  - destruct (scanCSSIdentifier_onward n (S i) ([] ++ [c])). left. lia.
Qed.

Lemma urlEnd_onward n i : onward i (urlEnd content n i).
Proof.
  revert i. induction n as [|n IH]; intros i; cbn [urlEnd]; [apply onward_refl|].
  destruct (content !! i) as [c|] eqn:E; [|apply onward_refl]. pose proof (get_lt _ _ E).
  destruct (_ || _); [apply onward_refl|]. destruct (at2 _ _ _ _); [apply onward_refl|].
  destruct (Ascii.eqb c backslash); [|eapply (onward_trans i (S i)); [lia..|apply IH]].
  destruct (decodeCSSEscape content i) as [[v next]|] eqn:Ed.
  - apply decodeCSSEscape_bounds in Ed. eapply (onward_trans i next); [lia..|apply IH].
  - eapply (onward_trans i (S i)); [lia..|apply IH].
Qed.

(** ** Targets *)

(** A quote that its line or the content ends right after. *)
Definition broken_quote i : Prop :=
  exists q, content !! i = Some q /\ one_of [squote; dquote] q = true /\
    (content !! S i = None \/ exists c, content !! S i = Some c /\ one_of [newline; creturn] c = true).

Definition between (lo hi : nat) : bytes := take (hi - lo) (drop lo content).

(** The bytes of [r] are in the content and decode to its value. *)
Definition ref_ok (decode : bytes -> bytes) (r : scannedRef) : Prop :=
  r_start r <= r_end r <= len /\ r_value r = decode (between (r_start r) (r_end r)).

Lemma slice_Done lo hi : lo <= hi <= len -> slice content lo hi = Done (between lo hi).
Proof. intros H. unfold slice. by rewrite (proj2 (Nat.leb_le lo hi)), (proj2 (Nat.leb_le hi len)) by lia. Qed.

Lemma innerEnd_bounds i e q : i < e <= len -> e - 1 <= innerEnd content i e q <= e.
Proof. intros H. unfold innerEnd. destruct (_ && _); lia. Qed.

Lemma skipQuoted_bounds i q : i < len -> i < skipQuoted content i q <= len.
Proof. intros H. pose proof (skipQuoted_ahead (left_ content (S i)) (S i) q) as HA. apply ahead_le in HA; [|lia]. unfold skipQuoted. lia. Qed.

(** A quoted text is read, or its quote is broken. *)
Lemma quoted_slice i q :
  content !! i = Some q -> one_of [squote; dquote] q = true ->
  let e := skipQuoted content i q in
  let inner := innerEnd content i e q in
  (slice content (S i) inner = Done (between (S i) inner) /\ S i <= inner <= e) \/
  (slice content (S i) inner = Panicked /\ broken_quote i).
Proof.
  intros E Hq e inner. pose proof (get_lt _ _ E) as Hi. pose proof (skipQuoted_bounds i q Hi) as He.
  pose proof (innerEnd_bounds i e q He) as Hn. fold inner in Hn.
  destruct (decide (S i <= inner)) as [Hle|Hlt].
  - left. split; [|lia]. apply slice_Done. unfold e in *. lia.
  - right. split.
    + unfold slice. by rewrite (proj2 (Nat.leb_gt (S i) inner)) by lia.
    + exists q. split; [done|]. split; [done|].
      destruct (skipQuoted_least i q) as [Hl|Hl]; [unfold e in *; lia| |by right].
      left. apply lookup_ge_None. unfold e in *. lia.
Qed.

(** ** Style sheets *)

Definition cssRef_ok : scannedRef -> Prop := ref_ok decodeCSSSpecifier.

(** What a target that starts from [lo] on may be. *)
Definition target_ok (lo : nat) (t : outcome (option (scannedRef * nat))) : Prop :=
  match t with
  | Done None => True
  | Done (Some (r, next)) => lo <= r_start r /\ r_end r <= next /\ next <= len /\ lo < next /\ cssRef_ok r
  | Panicked => exists i, broken_quote i
  | OutOfSteps => False
  end.

Lemma target_ok_mono lo lo' t : lo <= lo' -> target_ok lo' t -> target_ok lo t.
Proof. intros Hle. destruct t as [[[r next]|]| |]; cbn; [|done..]. intros (?&?&?&?&?). split_and!; try done; lia. Qed.

Lemma quotedTarget_ok i q kind lo :
  content !! i = Some q -> one_of [squote; dquote] q = true -> lo <= i ->
  target_ok lo (outcome_bind (quotedTarget content i q kind) (fun x => Done (Some x))).
Proof.
  intros E Hq Hlo. unfold quotedTarget. pose proof (skipQuoted_bounds i q (get_lt _ _ E)) as He.
  destruct (quoted_slice i q E Hq) as [[-> Hb]|[-> Hb]]; cbn; [|by exists i].
  split_and!; try lia. split; [|done]. cbn. lia.
Qed.

Lemma scanCSSURLTarget_ok open kind : open < len -> target_ok open (scanCSSURLTarget content open kind).
Proof.
  intros Ho. unfold scanCSSURLTarget.
  destruct (skipCSS_onward (left_ content (S open)) (S open)) as [H1 H2].
  change (skipCSSWhitespaceAndComments_ content _ (S open)) with (skipCSSWhitespaceAndComments content (S open)) in *.
  set (i := skipCSSWhitespaceAndComments content (S open)) in *.
  destruct (content !! i) as [c|] eqn:E; [|done]. destruct (one_of _ c) eqn:Eq; [apply quotedTarget_ok; [done|done|lia]|].
  pose proof (get_lt _ _ E). destruct (urlEnd_onward (left_ content i) i) as [H3 H4].
  destruct (_ =? i); [done|]. rewrite slice_Done by lia. cbn. split_and!; try lia. split; [|done]. cbn. lia.
Qed.

Lemma scanCSSImportTarget_ok start : start < len -> target_ok start (scanCSSImportTarget content start).
Proof.
  intros Ho. unfold scanCSSImportTarget. destruct (skipCSS_onward (left_ content start) start) as [H1 H2].
  change (skipCSSWhitespaceAndComments_ content _ start) with (skipCSSWhitespaceAndComments content start) in *.
  set (i := skipCSSWhitespaceAndComments content start) in *.
  destruct (content !! i) as [c|] eqn:E; [|done]. destruct (one_of _ c) eqn:Eq; [apply quotedTarget_ok; [done|done|lia]|].
  destruct (scanCSSIdentifier content i) as [nameEnd name]. destruct (_ && _) eqn:Ec; [|done].
  apply andb_true_iff in Ec as [[Hn _]%andb_true_iff Hp%at_get%get_lt]. apply Nat.ltb_lt in Hn.
  eapply target_ok_mono, scanCSSURLTarget_ok; lia.
Qed.

(** What a round may do. *)
Definition step_ok (i : nat) (o : outcome (list scannedRef * nat)) : Prop :=
  match o with
  | Done ([], next) => i < next <= len
  | Done ([r], next) => i < r_start r /\ r_end r <= next /\ i < next <= len /\ cssRef_ok r
  | Panicked => exists i, broken_quote i
  | _ => False
  end.

Lemma found_ok i lo t next :
  i < lo -> i < next <= len -> target_ok lo t ->
  step_ok i (outcome_bind t (fun t => match t with Some (r, next) => Done ([r], next) | None => Done ([], next) end)).
Proof.
  intros Hlo Hn. destruct t as [[[r k]|]| |]; cbn; [|done..]. intros (?&?&?&?&?). split_and!; try done; lia.
Qed.

Lemma cssStep_ok i c :
  content !! i = Some c ->
  step_ok i (cssStep content i c) \/
  (last content = Some backslash /\ cssStep content i c = Done ([], i)).
Proof.
  intros E. pose proof (get_lt _ _ E) as Hi. unfold cssStep. destruct (isCSSSpace c); [left; cbn; lia|].
  destruct (at2 content i "/" "*") eqn:E2.
  { apply at2_get in E2. pose proof (skipBlockComment_ahead (left_ content (i + 2)) (i + 2)) as HA.
    apply ahead_le in HA; [|lia]. left. cbn. unfold skipBlockComment. lia. }
  destruct (one_of _ c); [left; apply (skipQuoted_bounds i c Hi)|].
  destruct (Ascii.eqb c "@").
  - left. destruct (scanCSSIdentifier_onward (left_ content (S i)) (S i) []) as [H1 H2].
    change (scanCSSIdentifier_ content (left_ content (S i)) (S i) []) with (scanCSSIdentifier content (S i)) in *.
    destruct (scanCSSIdentifier content (S i)) as [nameEnd name]. cbn [fst] in *.
    destruct (_ && _) eqn:Ec; [|cbn; lia]. apply andb_true_iff in Ec as [Hn%Nat.ltb_lt _].
    destruct (decide (nameEnd < len)) as [Hlt|Hge].
    + apply (found_ok i nameEnd); [lia|lia|]. by apply scanCSSImportTarget_ok.
    + unfold scanCSSImportTarget. destruct (skipCSS_onward (left_ content nameEnd) nameEnd) as [H3 _].
      unfold skipCSSWhitespaceAndComments. rewrite (proj2 (lookup_ge_None content _)) by lia. cbn. lia.
  - destruct (isCSSIdentifierStart c) eqn:Es; [|left; cbn; lia].
    destruct (scanCSSIdentifier_progress i c E Es) as [Hp|[-> Hend]].
    2: { right. split; [rewrite last_lookup, <-Hend; exact E|].
         assert (Ei : scanCSSIdentifier content i = (i, [])).
         { unfold scanCSSIdentifier, left_. replace (len - i) with 1 by lia. cbn [scanCSSIdentifier_].
           rewrite E. change (Ascii.eqb backslash backslash) with true. rewrite andb_false_r.
           assert (En : content !! S i = None) by (apply lookup_ge_None; lia). unfold decodeCSSEscape. by rewrite E, En. }
         rewrite Ei. cbn [fst snd]. destruct (at_ content i "(") eqn:Ea; [|by rewrite andb_false_r].
         apply at_get in Ea. unfold backslash in E. congruence. }
    left. destruct (scanCSSIdentifier content i) as [nameEnd name]. cbn [fst] in *.
    destruct (_ && _) eqn:Ec; [|cbn; lia]. apply andb_true_iff in Ec as [_ Hpar%at_get%get_lt].
    apply (found_ok i nameEnd); [lia|lia|]. by apply scanCSSURLTarget_ok.
Qed.

(** References in order, each after the one before. *)
Fixpoint apart (lo : nat) (refs : list scannedRef) : Prop :=
  match refs with
  | [] => True
  | r :: refs => lo < r_start r /\ cssRef_ok r /\ apart (r_end r) refs
  end.

Lemma apart_mono lo lo' refs : lo <= lo' -> apart lo' refs -> apart lo refs.
Proof. destruct refs as [|r refs]; [done|]. cbn. intros ? (?&?&?). split_and!; [lia|done|done]. Qed.

Lemma scanCSS_ok steps i :
  last content <> Some backslash -> len - i <= steps ->
  (exists refs, scanCSS content steps i = Done refs /\ apart i refs) \/
  (scanCSS content steps i = Panicked /\ exists k, broken_quote k).
Proof.
  intros Hl. revert i. induction steps as [|steps IH]; intros i Hs; cbn [scanCSS];
    (destruct (content !! i) as [c|] eqn:E; [|left; by exists []]); pose proof (get_lt _ _ E); [lia|].
  destruct (cssStep_ok i c E) as [HS|[? _]]; [|done].
  destruct (cssStep content i c) as [[found next]| |]; [|by right|done].
  cbn [outcome_bind]. destruct found as [|r [|? ?]]; cbn [step_ok] in HS; [| |done].
  - destruct (IH next) as [(refs & -> & Ha)|[-> Hk]]; [lia| |by right].
    left. exists refs. split; [done|]. eapply apart_mono, Ha. lia.
  - destruct HS as (H1 & H2 & H3 & H4). destruct (IH next) as [(refs & -> & Ha)|[-> Hk]]; [lia| |by right].
    left. exists (r :: refs). split; [done|]. split_and!; [done|done|]. eapply apart_mono, Ha. lia.
Qed.

(** What is found is apart, however the scan came to its end. *)
Lemma scanCSS_Done steps i refs : scanCSS content steps i = Done refs -> apart i refs.
Proof.
  revert i refs. induction steps as [|steps IH]; intros i refs; cbn [scanCSS];
    (destruct (content !! i) as [c|] eqn:E; [|by intros [= <-]]); [done|].
  destruct (cssStep_ok i c E) as [HS|[_ ->]].
  2: { cbn [outcome_bind]. destruct (scanCSS content steps i) as [refs'| |] eqn:EC; [|done..]. intros [= <-]. by apply IH. }
  destruct (cssStep content i c) as [[found next]| |]; [|done..].
  cbn [outcome_bind]. destruct (scanCSS content steps next) as [refs'| |] eqn:EC; [|done..]. intros [= <-].
  apply IH in EC. destruct found as [|r [|? ?]]; cbn [step_ok] in HS; [| |done].
  - eapply apart_mono, EC. lia.
  - destruct HS as (H1 & H2 & H3 & H4). split_and!; [done|done|]. eapply apart_mono, EC. lia.
Qed.
End Content.

(** C24: scanning a style sheet ends and finds references the rewriter can splice. Unless
    the sheet ends in a backslash, as many rounds as it has bytes are enough; the
    references found are in order and apart, each inside the sheet with the decoded bytes
    between its bounds as its value. The scan panics only on a sheet with a quote that
    ends its line. *)
Theorem css_references_are_spliceable content steps :
  last content <> Some backslash -> length content <= steps ->
  (exists refs, scanCSSRefs steps content = Done refs /\ apart content 0 refs) \/
  (scanCSSRefs steps content = Panicked /\ exists i, broken_quote content i).
Proof. intros Hl Hs. apply scanCSS_ok; [done|lia]. Qed.

(** ** Scripts *)

Section Script.
Context (content : bytes).
Implicit Types (i n : nat) (c : Ascii.ascii).

Notation len := (length content).

(** A specifier: its bytes decode to the value, a quote stands before them, and it is the
    lexeme there. *)
Definition jsRef_ok (r : scannedRef) : Prop :=
  ref_ok content decodeJSSpecifier r /\ r_kind r = referenceJSImport /\ 0 < r_start r /\
  (exists q, content !! pred (r_start r) = Some q /\ one_of [squote; dquote; backquote] q = true) /\
  exists t next, lexemeAt content (pred (r_start r)) = Done (t, next) /\ r = importRef t.

(** There is one specifier to a place. *)
Lemma jsRef_unique r r' : jsRef_ok r -> jsRef_ok r' -> r_start r = r_start r' -> r = r'.
Proof.
  intros (_ & _ & _ & _ & t & n & E & ->) (_ & _ & _ & _ & t' & n' & E' & ->) Hs. rewrite Hs, E' in E. by injection E as ->.
Qed.

Lemma skipTrivia_onward n i : onward content i (skipTrivia content n i).
Proof.
  revert i. induction n as [|n IH]; intros i; cbn [skipTrivia]; [apply onward_refl|].
  destruct (content !! i) as [c|] eqn:E; [|apply onward_refl]. pose proof (get_lt _ _ _ E).
  destruct (skipJSSpaces_onward content (left_ content i) i) as [H1 H2]. fold (skipJSSpaces content i) in *.
  destruct (negb _); [eapply (onward_trans content i (skipJSSpaces content i)); [lia..|apply IH]|].
  destruct (at2 content i "/" "/") eqn:E1.
  { apply at2_get in E1. pose proof (skipLineComment_ahead content (left_ content (i + 2)) (i + 2)) as HA.
    apply ahead_le in HA; [|lia]. fold (skipLineComment content (i + 2)) in HA.
    eapply (onward_trans content i (skipLineComment content (i + 2))); [lia..|apply IH]. }
  destruct (at2 content i "/" "*") eqn:E2; [|apply onward_refl].
  apply at2_get in E2. pose proof (skipBlockComment_ahead content (left_ content (i + 2)) (i + 2)) as HA.
  apply ahead_le in HA; [|lia]. fold (skipBlockComment content (i + 2)) in HA.
  eapply (onward_trans content i (skipBlockComment content (i + 2))); [lia..|apply IH].
Qed.

(** With the bytes left as fuel it stops at no space. *)
Lemma skipTrivia_stops n i c :
  len - i <= n -> content !! skipTrivia content n i = Some c ->
  skipJSSpaces content (skipTrivia content n i) = skipTrivia content n i.
Proof.
  revert i. induction n as [|n IH]; intros i Hn; cbn [skipTrivia].
  { intros H%get_lt. lia. }
  destruct (content !! i) as [c0|] eqn:E; [|congruence]. pose proof (get_lt _ _ _ E).
  destruct (skipJSSpaces_onward content (left_ content i) i) as [H1 H2]. fold (skipJSSpaces content i) in *.
  destruct (skipJSSpaces content i =? i) eqn:Ek; cbn [negb].
  - apply Nat.eqb_eq in Ek. destruct (at2 content i "/" "/") eqn:E1.
    { apply at2_get in E1. pose proof (skipLineComment_ahead content (left_ content (i + 2)) (i + 2)) as HA.
      apply ahead_le in HA; [|lia]. fold (skipLineComment content (i + 2)) in HA. apply IH. lia. }
    destruct (at2 content i "/" "*") eqn:E2; [|done].
    apply at2_get in E2. pose proof (skipBlockComment_ahead content (left_ content (i + 2)) (i + 2)) as HA.
    apply ahead_le in HA; [|lia]. fold (skipBlockComment content (i + 2)) in HA. apply IH. lia.
  - apply Nat.eqb_neq in Ek. apply IH. lia.
Qed.

(** What a lexeme may be. *)
Definition lexeme_ok (start : nat) (o : outcome (jsLexeme * nat)) : Prop :=
  match o with
  | Done (t, next) =>
      l_end t = 0 /\ l_kind t = jsLexemeOther /\ len <= next \/
      (0 < l_end t /\ start < next <= len /\
       (l_kind t = jsLexemeString \/ l_kind t = jsLexemeTemplate -> jsRef_ok (importRef t)))
  | Panicked => exists i, broken_quote content i
  | OutOfSteps => False
  end.

Lemma templateLexeme_ok start n i e :
  start <= i -> i < e -> i < len -> content !! i = Some backquote ->
  lexemeAt content i = templateLexeme content n i e -> lexeme_ok start (templateLexeme content n i e).
Proof.
  intros Hs He Hi Hq. revert e He. induction n as [|n IH]; intros e He; cbn [templateLexeme].
  { intros _. right. cbn. split_and!; try lia. by intros [|]. }
  destruct (content !! e) as [c|] eqn:E.
  2: { intros _. right. cbn. split_and!; try lia. by intros [|]. }
  pose proof (get_lt _ _ _ E). destruct (Ascii.eqb c backslash); [apply IH; lia|].
  destruct (at2 content e "$" "{") eqn:E2.
  { intros _. apply at2_get in E2. right. cbn. split_and!; try lia. by intros [|]. }
  destruct (Ascii.eqb c backquote); [|apply IH; lia]. rewrite slice_Done by lia. cbn [outcome_bind]. intros Hat.
  right. cbn. split_and!; try lia.
  intros _. split; [split; [cbn; lia|done]|]. split; [done|]. split; [cbn; lia|]. split; [exists backquote; by cbn|].
  cbn [r_start importRef l_start pred]. eexists _, _. split; [exact Hat|done].
Qed.

Lemma lexemeAt_ok start i :
  start <= i -> (start <= len -> i <= len) ->
  (forall c, content !! i = Some c -> skipJSSpaces content i = i) -> lexeme_ok start (lexemeAt content i).
Proof.
  intros H1 H2 Hst. destruct (content !! i) as [c|] eqn:E.
  2: { unfold lexemeAt. rewrite E. left. cbn. by apply get_ge in E. }
  pose proof (get_lt _ _ _ E) as Hi. pose proof (eq_refl (lexemeAt content i)) as Hat. unfold lexemeAt at 2 in Hat. rewrite E in Hat.
  destruct (one_of [squote; dquote] c) eqn:Eq.
  - pose proof (skipQuoted_bounds content i c Hi) as He. cbv zeta in Hat.
    destruct (quoted_slice content i c E Eq) as [[Esl Hb]|[Esl Hb]]; rewrite Esl in Hat; cbn [outcome_bind] in Hat; rewrite Hat; [|by exists i].
    right. cbn. split_and!; try lia. intros _. split; [split; [cbn; lia|done]|]. split; [done|]. split; [cbn; lia|]. split.
    + exists c. cbn. split; [done|]. unfold one_of in *. cbn in *. by destruct (Ascii.eqb c squote), (Ascii.eqb c dquote).
    + cbn [r_start importRef l_start pred]. eexists _, _. split; [exact Hat|done].
  - destruct (Ascii.eqb c backquote) eqn:Eb.
    { apply Ascii.eqb_eq in Eb as ->. rewrite Hat. apply templateLexeme_ok; [lia..|done|done]. }
    destruct (isJSIdentifierStart c) eqn:Es.
    + pose proof (scanJSIdentifier_progress content i c E Es (Hst c eq_refl)) as Hp.
      cbv zeta in Hat. rewrite slice_Done in Hat by lia. rewrite Hat. right. cbn. split_and!; try lia. by intros [|].
    + rewrite Hat. right. cbn. split_and!; try lia. by intros [|].
Qed.

Lemma nextJSLexeme_ok start : lexeme_ok start (nextJSLexeme content start).
Proof.
  unfold nextJSLexeme. destruct (skipTrivia_onward (left_ content start) start) as [H1 H2].
  apply lexemeAt_ok; [done|done|]. intros c. by apply skipTrivia_stops.
Qed.

(** What a declaration may yield. *)
Definition clause_ok (o : outcome (option scannedRef)) : Prop :=
  match o with
  | Done (Some r) => jsRef_ok r
  | Done None => True
  | Panicked => exists i, broken_quote content i
  | OutOfSteps => False
  end.

Lemma scanJSFromClause_ok steps pos : len - pos <= steps -> clause_ok (scanJSFromClause content steps pos).
Proof.
  revert pos. induction steps as [|steps IH]; intros pos Hs; cbn [scanJSFromClause];
    (destruct (Nat.leb_spec len pos); [done|]); [lia|].
  pose proof (nextJSLexeme_ok pos) as HL. destruct (nextJSLexeme content pos) as [[t next]| |]; [|done|done].
  cbn [outcome_bind]. destruct (_ || _) eqn:Ee; [done|]. apply orb_false_iff in Ee as [Ee%Nat.eqb_neq _].
  destruct HL as [[? _]|(_ & Hn & _)]; [done|]. destruct (_ && _); [|apply IH; lia].
  pose proof (nextJSLexeme_ok next) as HL. destruct (nextJSLexeme content next) as [[t2 next2]| |]; [|done|done].
  cbn [outcome_bind]. case_bool_decide as Ek; [|apply IH; lia].
  destruct HL as [(_ & ? & _)|(_ & _ & HR)]; [congruence|]. apply HR. by left.
Qed.

Lemma import_export_ok steps start :
  len - start <= steps ->
  clause_ok (scanJSImportDeclaration content steps start) /\ clause_ok (scanJSExportDeclaration content steps start).
Proof.
  intros Hs. unfold scanJSImportDeclaration, scanJSExportDeclaration. pose proof (nextJSLexeme_ok start) as HL.
  destruct (nextJSLexeme content start) as [[t next]| |]; [|done|done]. cbn [outcome_bind].
  assert (Hn : len - next <= steps) by (destruct HL as [(_ & _ & ?)|(_ & ? & _)]; lia).
  pose proof (scanJSFromClause_ok steps next Hn) as HF. split; [|by destruct (negb _)].
  case_bool_decide as Ek.
  { destruct HL as [(_ & Hk & _)|(_ & _ & HR)]; [congruence|]. apply HR. by left. }
  destruct (is_punct t "."); [done|]. destruct (is_punct t "("); [|done].
  pose proof (nextJSLexeme_ok next) as HL2. destruct (nextJSLexeme content next) as [[t2 next2]| |]; [|done|done].
  cbn [outcome_bind]. destruct (_ || _) eqn:Eo; [|done].
  apply orb_true_iff in Eo as [Eo%bool_decide_eq_true|Eo%bool_decide_eq_true];
    (destruct HL2 as [(_ & Hk & _)|(_ & _ & HR)]; [congruence|]); apply HR; auto.
Qed.

(** What a scan from [i] may be. *)
Definition scan_ok (i : nat) (o : outcome (list scannedRef * nat)) : Prop :=
  match o with
  | Done (refs, end_) => i <= end_ <= len /\ Forall jsRef_ok refs
  | Panicked => exists i, broken_quote content i
  | OutOfSteps => False
  end.

Lemma scan_continue i next found o :
  i <= next -> Forall jsRef_ok found -> scan_ok next o ->
  scan_ok i (outcome_bind o (fun '(refs, end_) => Done (found ++ refs, end_))).
Proof.
  intros Hi Hf. destruct o as [[refs e]| |]; cbn; [|done..]. intros [? ?]. split; [lia|]. by apply Forall_app.
Qed.

Lemma jsWord_ok steps i s c :
  content !! i = Some c -> isJSIdentifierStart c = true -> skipJSSpaces content i = i -> len - i <= S steps ->
  match jsWord content steps i s with
  | Done (found, _, next) => i < next <= len /\ Forall jsRef_ok found
  | Panicked => exists i, broken_quote content i
  | OutOfSteps => False
  end.
Proof.
  intros E Hs Hk Hst. pose proof (scanJSIdentifier_progress content i c E Hs Hk) as Hp. unfold jsWord.
  rewrite slice_Done by lia. cbn [outcome_bind].
  destruct (import_export_ok steps (scanJSIdentifier content i)) as [HI HE]; [lia|].
  assert (HC : clause_ok
    (if j_dot s then Done None
     else if String.eqb (String.string_of_list_ascii (between content i (scanJSIdentifier content i))) "import"
          then scanJSImportDeclaration content steps (scanJSIdentifier content i)
     else if String.eqb (String.string_of_list_ascii (between content i (scanJSIdentifier content i))) "export"
          then scanJSExportDeclaration content steps (scanJSIdentifier content i)
     else Done None)).
  { destruct (j_dot s); [done|]. destruct (String.eqb _ "import"); [done|]. by destruct (String.eqb _ "export"). }
  destruct (if j_dot s then _ else _) as [[r|]| |]; cbn in HC |- *; [|by split|done|done].
  split; [lia|]. by constructor.
Qed.

Lemma jsPunct_next c i stop s s' next : i < len -> jsPunct content c i stop s = Some (s', next) -> i < next <= len.
Proof.
  intros Hi. unfold jsPunct. destruct (Ascii.eqb c "{"); [intros [= _ <-]; lia|].
  destruct (Ascii.eqb c "}"); [destruct (_ && _); [done|intros [= _ <-]; lia]|].
  destruct (Ascii.eqb c "("); [intros [= _ <-]; lia|]. destruct (Ascii.eqb c ")"); [intros [= _ <-]; lia|].
  destruct (Ascii.eqb c "]"); [intros [= _ <-]; lia|]. destruct (one_of _ c); [intros [= _ <-]; lia|].
  destruct (one_of _ c); [|intros [= _ <-]; lia].
  destruct (at_ content (S i) c) eqn:Ea; intros [= _ <-]; [apply at_get, get_lt in Ea|]; lia.
Qed.

Lemma scanJS_ok steps :
  (forall i stop s, len - i <= steps -> i <= len -> scan_ok i (scanJSCode content steps i stop s)) /\
  (forall i, len - i <= steps -> i <= len -> scan_ok i (scanJSTemplate content steps i)).
Proof.
  induction steps as [|steps [IHc IHt]].
  { split; intros; cbn; (destruct (content !! i) as [c|] eqn:E; [apply get_lt in E; lia|]); cbn; (split; [lia|constructor]). }
  split.
  - intros i stop s Hs Hi. cbn [scanJSCode]. destruct (content !! i) as [c|] eqn:E; [|cbn; split; [lia|constructor]].
    pose proof (get_lt _ _ _ E) as Hlt. cbv zeta.
    assert (Hgo : forall found s' next, i < next <= len -> Forall jsRef_ok found ->
      scan_ok i (outcome_bind (scanJSCode content steps next stop s') (fun '(refs, end_) => Done (found ++ refs, end_)))).
    { intros found s' next Hn Hf. apply (scan_continue i next); [lia|done|]. apply IHc; lia. }
    destruct (skipJSSpaces_onward content (left_ content i) i) as [H1 H2]. fold (skipJSSpaces content i) in *.
    destruct (skipJSSpaces content i =? i) eqn:Ek; cbn [negb].
    2: { apply Nat.eqb_neq in Ek. apply Hgo; [lia|constructor]. }
    apply Nat.eqb_eq in Ek.
    destruct (at2 content i "/" "/") eqn:E1.
    { apply at2_get in E1. pose proof (skipLineComment_ahead content (left_ content (i + 2)) (i + 2)) as HA.
      apply ahead_le in HA; [|lia]. fold (skipLineComment content (i + 2)) in HA. apply Hgo; [lia|constructor]. }
    destruct (at2 content i "/" "*") eqn:E2.
    { apply at2_get in E2. pose proof (skipBlockComment_ahead content (left_ content (i + 2)) (i + 2)) as HA.
      apply ahead_le in HA; [|lia]. fold (skipBlockComment content (i + 2)) in HA. apply Hgo; [lia|constructor]. }
    destruct (one_of _ c); [apply Hgo; [by apply skipQuoted_bounds|constructor]|].
    destruct (Ascii.eqb c backquote).
    { pose proof (IHt (S i) ltac:(lia) ltac:(lia)) as HT. destruct (scanJSTemplate content steps (S i)) as [[refs next]| |]; [|done|done].
      cbn [outcome_bind]. destruct HT as [? ?]. apply Hgo; [lia|done]. }
    destruct (_ && _).
    { destruct (skipJSRegex content (S i)) as [e|] eqn:Er; [apply skipJSRegex_onward in Er|]; (apply Hgo; [lia|constructor]). }
    destruct (isJSIdentifierStart c) eqn:Es.
    { pose proof (jsWord_ok steps i s c E Es Ek ltac:(lia)) as HW.
      destruct (jsWord content steps i s) as [[[found s'] next]| |]; [|done|done]. cbn [outcome_bind].
      destruct HW as [? ?]. by apply Hgo. }
    destruct (isASCIIDigit c).
    { destruct (skipWhile_onward content (fun c => isASCIIDigit c || isASCIIAlpha c || one_of ["."; "_"]%char c)
                  (left_ content (S i)) (S i)) as [H3 H4].
      apply Hgo; [|constructor]. unfold skipJSNumber, skipWhile. lia. }
    destruct (jsPunct content c i stop s) as [[s' next]|] eqn:Ep; [|cbn; split; [lia|constructor]].
    apply jsPunct_next in Ep; [|done]. apply Hgo; [lia|constructor].
  - intros i Hs Hi. cbn [scanJSTemplate]. destruct (content !! i) as [c|] eqn:E; [|cbn; split; [lia|constructor]].
    pose proof (get_lt _ _ _ E) as Hlt. destruct (Ascii.eqb c backslash).
    { destruct (decide (i + 2 <= len)) as [Hle|Hgt].
      - pose proof (IHt (i + 2) ltac:(lia) Hle) as HT. destruct (scanJSTemplate content steps (i + 2)) as [[? ?]| |]; [|done|done].
        destruct HT as [? ?]. cbn. split; [lia|done].
      - assert (En : content !! (i + 2) = None) by (apply lookup_ge_None; lia).
        destruct steps; cbn; rewrite En; cbn; (split; [lia|constructor]). }
    destruct (Ascii.eqb c backquote); [cbn; split; [lia|constructor]|].
    destruct (at2 content i "$" "{") eqn:E2.
    { apply at2_get in E2. pose proof (IHc (i + 2) true (mkJS true 0 false false []) ltac:(lia) ltac:(lia)) as HC.
      destruct (scanJSCode content steps (i + 2) true _) as [[refs next]| |]; [|done|done]. cbn [outcome_bind].
      destruct HC as [? ?]. apply (scan_continue i next); [lia|done|]. apply IHt; lia. }
    pose proof (IHt (S i) ltac:(lia) ltac:(lia)) as HT. destruct (scanJSTemplate content steps (S i)) as [[? ?]| |]; [|done|done].
    destruct HT as [? ?]. cbn. split; [lia|done].
Qed.
End Script.

Lemma js_references_ok content steps :
  length content <= steps ->
  (exists refs, scanJSImportRefs steps content = Done refs /\ Forall (jsRef_ok content) refs) \/
  (scanJSImportRefs steps content = Panicked /\ exists i, broken_quote content i).
Proof.
  intros Hs. unfold scanJSImportRefs. assert (Hh : hashbangEnd content <= length content).
  { unfold hashbangEnd. destruct (at2 content _ _ _) eqn:E; [|lia]. apply at2_get in E.
    apply (ahead_le content (S (S (if bool_decide (take 3 content = ["239"; "187"; "191"]%char) then 3 else 0))));
      [lia|]. rewrite Nat.add_comm. apply skipLineComment_ahead. }
  destruct (scanJS_ok content steps) as [HC _].
  specialize (HC (hashbangEnd content) false (mkJS true 0 false false []) ltac:(lia) Hh).
  destruct (scanJSCode content steps _ _ _) as [[refs e]| |]; cbn in HC |- *; [|by right|done].
  left. exists refs. by destruct HC.
Qed.

(** scanning a script always ends: as many rounds as it has bytes are enough, nested
    templates and the code inside them included. Every reference found is a specifier: it
    stands behind a quote, lies inside the script, and its value is what the bytes between
    its bounds decode to. The scan panics only on a script with a quote that ends its
    line. *)
Theorem js_references_are_specifiers content steps :
  length content <= steps ->
  (exists refs, scanJSImportRefs steps content = Done refs /\ Forall (jsRef_ok content) refs) \/
  (scanJSImportRefs steps content = Panicked /\ exists i, broken_quote content i).
Proof. apply js_references_ok. Qed.

(** A sheet that ends in a lone backslash in code keeps the scanner in place for good. *)
Lemma trailing_backslash_hangs steps : scanCSSRefs steps [backslash] = OutOfSteps.
Proof.
  unfold scanCSSRefs.
  induction steps as [|steps IH]; [done|]. cbn [scanCSS]. change ([backslash] !! 0) with (Some backslash). cbv iota beta.
  assert (E : cssStep [backslash] 0 backslash = Done ([], 0)) by reflexivity. rewrite E. cbn [outcome_bind]. by rewrite IH.
Qed.
