(* ===== verification/AssetRewrite.v ===== *)
(** References of assets: their resolution to logical paths and the rewriting of the
    content, from src/assets/rewrite.go. *)

From S2P Require Import Prelude.
From S2P Require Import Order.
From S2P Require Import Strconv.
From S2P Require Import Strings.
From S2P Require Import AssetPath.
From S2P Require Import AssetScan.
From S2P Require Import AssetScanSpec.

Local Open Scope go_scope.

Notation text := String.string_of_list_ascii.
Notation raw := String.list_ascii_of_string.

(** ** Resolution *)

(** [strings.IndexAny(s, "?#")]: the text before the first of them, and from it on. *)
Fixpoint cutSuffix (s : string) : string * string :=
  match s with
  | EmptyString => (EmptyString, EmptyString)
  | String a s' =>
      if one_of ["?"; "#"]%char a then (EmptyString, s)
      else let '(path, suffix) := cutSuffix s' in (String a path, suffix)
  end.

Definition schemeByte (c : Ascii.ascii) : bool := isASCIIAlpha c || isASCIIDigit c || one_of ["+"; "-"; "."]%char c.

Definition hasURLScheme (spec : string) : bool :=
  match cut ":" spec with
  | Some (String a scheme, _) => isASCIIAlpha a && string_forall schemeByte scheme
  | _ => false
  end.

Definition isLocalReference (spec : string) : bool :=
  let spec := (cutSuffix spec).1 in
  negb (bool_decide (spec = EmptyString)) && negb (HasPrefix spec "#") && negb (HasPrefix spec "/")
  && negb (HasPrefix spec "//") && negb (hasURLScheme spec).

Definition resolveRef (importerPath spec : string) : string :=
  if bool_decide (spec = EmptyString) then EmptyString
  else
    let spec := (cutSuffix spec).1 in
    if bool_decide (spec = EmptyString) then EmptyString
    else if HasPrefix spec "//" || hasURLScheme spec then EmptyString
    else if HasPrefix spec "/" then cleanLogical spec
    else if HasPrefix spec "./" || HasPrefix spec "../" then
      let dir := Dir importerPath in
      let dir := if bool_decide (dir = ".") then EmptyString else dir in
      let resolved := Join dir spec in
      if bool_decide (resolved = ".") || HasPrefix resolved "../" || bool_decide (resolved = "..") then EmptyString
      else resolved
    else EmptyString.

Record ref := mkAssetRef {
  spec : string;
  resolved : string;
  suffix : string;
  start : nat;
  end_ : nat;
  kind : referenceKind
}.

Definition refAt (importer : string) (r : scannedRef) : ref :=
  let sp := text (r_value r) in
  let res := resolveRef importer sp in
  let res :=
    if bool_decide (res = EmptyString) && negb (bool_decide (r_kind r = referenceJSImport)) && isLocalReference sp
    then resolveRef importer ("./" +:+ sp) else res in
  mkAssetRef sp res (cutSuffix sp).2 (r_start r) (r_end r) (r_kind r).

(** As many rounds as the content has bytes. *)
Definition extractRefs (importerPath : string) (content : bytes) (k : assetKind) : outcome (list ref) :=
  let! scanned :=
    match k with
    | kindJS => scanJSImportRefs (length content) content
    | kindCSS => scanCSSRefs (length content) content
    | kindOther => Done []
    end in
  Done (refAt importerPath <$> scanned).

(** ** Rewriting *)

Section Rewrite.
Context (content : bytes) (replacement : ref -> string).

(** The loop over the sorted references, from [cursor] on. *)
Fixpoint rewriteLoop (refs : list ref) (cursor : nat) : outcome bytes :=
  match refs with
  | [] => slice content cursor (length content)
  | r :: refs =>
      if bool_decide (resolved r = EmptyString) then rewriteLoop refs cursor
      else
        let repl := replacement r in
        if bool_decide (repl = spec r) then rewriteLoop refs cursor
        else if (start r <? cursor)%nat then rewriteLoop refs cursor
        else
          let! before := slice content cursor (start r) in
          let! rest := rewriteLoop refs (end_ r) in
          Done (before ++ raw repl ++ rest)
  end.

Definition cmp_start : ref -> ref -> comparison := cmp_on (fun r => Z.of_nat (start r)) Z.compare.
Definition rewriteRefs (refs : list ref) : outcome bytes := rewriteLoop (sort_by cmp_start refs) 0.
End Rewrite.

Local Close Scope go_scope.

(** ** What rewriting promises *)

(** ** Resolution *)

Lemma Clean_not_rooted p : HasPrefix p "/" = false -> HasPrefix (Clean p) "/" = false.
Proof.
  intros Hr. destruct (HasPrefix (Clean p) "/") eqn:E; [|done]. apply HasPrefix_slash in E as [r Er].
  destruct (Clean_relative p Hr) as [E|(n & names & _ & Es & Hn)]; [by rewrite E in Er|]. exfalso.
  rewrite Er in Es. unfold segments in Es. cbn [split] in Es. rewrite bool_decide_true in Es by done.
  destruct n as [|n]; cbn in Es; [|done]. subst names. by apply Forall_cons in Hn as [(? & _) _].
Qed.

Lemma HasPrefix_slash_false s : HasPrefix s "/" = false <-> forall r, s <> String "/" r.
Proof.
  split.
  - intros H r ->. assert (HasPrefix (String "/" r) "/" = true) by (apply HasPrefix_slash; by eexists). congruence.
  - intros H. destruct (HasPrefix s "/") eqn:E; [|done]. apply HasPrefix_slash in E as [r ->]. by destruct (H r).
Qed.

Lemma Dir_not_rooted p : HasPrefix p "/" = false -> HasPrefix (Dir p) "/" = false.
Proof.
  intros Hr. apply Clean_not_rooted. destruct (Split_parts p) as (dir & base & -> & -> & _). cbn [fst].
  rewrite HasPrefix_slash_false in *. intros r ->. by apply (Hr (r +:+ base)).
Qed.

Lemma Join_inside dir sp :
  HasPrefix dir "/" = false -> HasPrefix sp "/" = false -> outside (Join dir sp) = false ->
  Join dir sp = EmptyString \/ inside (Join dir sp).
Proof.
  intros Hd Hs. unfold Join. case_bool_decide as E1; [case_bool_decide; [by left|]|case_bool_decide];
    intros Ho; right; apply Clean_inside; try done.
  rewrite HasPrefix_slash_false in *. intros r E. destruct dir as [|a dir]; [done|]. injection E as -> _.
  by apply (Hd dir).
Qed.

Lemma resolveRef_inside importer sp :
  HasPrefix importer "/" = false -> resolveRef importer sp = EmptyString \/ inside (resolveRef importer sp).
Proof.
  intros Hi. unfold resolveRef. case_bool_decide; [by left|]. cbv zeta. set (path := (cutSuffix sp).1).
  case_bool_decide; [by left|]. destruct (_ || hasURLScheme _) eqn:E2; [by left|]. apply orb_false_iff in E2 as [E2 _].
  destruct (HasPrefix path "/") eqn:E1.
  - apply HasPrefix_slash in E1 as [r E]. rewrite E in *. apply cleanLogical_inside.
    change (TrimPrefix (String "/" r) "/") with (TrimPrefix ("/" +:+ r) "/").
    unfold TrimPrefix. rewrite CutPrefix_app. rewrite HasPrefix_slash_false. intros r2 ->.
    change (String "/" (String "/" r2)) with ("//" +:+ r2) in E2. by rewrite HasPrefix_cat in E2.
  - destruct (_ || _) eqn:E3; [|by left].
    set (dir := if bool_decide (Dir importer = ".") then EmptyString else Dir importer).
    change (bool_decide (Join dir path = ".") || HasPrefix (Join dir path) "../" || bool_decide (Join dir path = ".."))
      with (outside (Join dir path)).
    destruct (outside (Join dir path)) eqn:E4; [by left|]. apply Join_inside; [|done|done].
    unfold dir. case_bool_decide; [done|]. by apply Dir_not_rooted.
Qed.

(** References stay inside the asset namespace. Whatever a script or style sheet at a
    relative logical path mentions, a reference is either left unresolved or resolves to a
    path of proper names: not rooted, without empty, [.] or [..] segments. *)
Theorem resolved_references_stay_inside importer r :
  HasPrefix importer "/" = false ->
  resolved (refAt importer r) = EmptyString \/ inside (resolved (refAt importer r)).
Proof.
  intros Hi. unfold refAt. cbn [resolved]. destruct (_ && _ && _); by apply resolveRef_inside.
Qed.

(** ** Rewriting *)

Section Splice.
Context (content : bytes) (replacement : ref -> string).

Notation len := (length content).

Definition in_content (r : ref) : Prop := start r <= end_ r <= len.

(** A reference that resolved and whose replacement is not what it says already. *)
Definition changed (r : ref) : Prop := resolved r <> EmptyString /\ replacement r <> spec r.

#[export] Instance changed_dec r : Decision (changed r).
Proof. unfold changed. apply _. Defined.

(** The content from [cursor] on with the references replaced. *)
Fixpoint splice (cursor : nat) (refs : list ref) : bytes :=
  match refs with
  | [] => drop cursor content
  | r :: refs => between content cursor (start r) ++ raw (replacement r) ++ splice (end_ r) refs
  end.

(** The references that are replaced: the changed ones, but for those that start inside
    one before. *)
Fixpoint kept (cursor : nat) (refs : list ref) : list ref :=
  match refs with
  | [] => []
  | r :: refs =>
      if decide (changed r) then if decide (start r < cursor) then kept cursor refs else r :: kept (end_ r) refs
      else kept cursor refs
  end.

Lemma between_end cursor : cursor <= len -> between content cursor len = drop cursor content.
Proof. intros H. unfold between. rewrite take_ge; [done|]. rewrite length_drop. lia. Qed.

Lemma rewriteLoop_splice refs cursor :
  Forall in_content refs -> cursor <= len ->
  rewriteLoop content replacement refs cursor = Done (splice cursor (kept cursor refs)).
Proof.
  revert cursor. induction refs as [|r refs IH]; intros cursor Hin Hc; cbn [rewriteLoop kept splice].
  { rewrite slice_Done by lia. by rewrite between_end. }
  apply Forall_cons in Hin as [[Hr1 Hr2] Hin].
  destruct (decide (changed r)) as [[H1 H2]|Hn].
  - rewrite !bool_decide_false by done. cbv zeta. destruct (decide (start r < cursor)) as [Hlt|Hge].
    + rewrite (proj2 (Nat.ltb_lt _ _)) by done. by apply IH.
    + rewrite (proj2 (Nat.ltb_ge _ _)) by lia. rewrite slice_Done by lia. cbn [outcome_bind].
      rewrite IH by (done || lia). done.
  - destruct (bool_decide (resolved r = EmptyString)) eqn:E1; [by apply IH|].
    destruct (bool_decide (replacement r = spec r)) eqn:E2; [by apply IH|].
    destruct Hn. split; by eapply bool_decide_eq_false.
Qed.

(** What is kept is in order and apart, and what is not starts inside something kept. *)
Inductive disjoint_from : nat -> list ref -> Prop :=
| disjoint_nil lo : disjoint_from lo []
| disjoint_cons lo r refs : lo <= start r -> disjoint_from (end_ r) refs -> disjoint_from lo (r :: refs).

Lemma kept_disjoint cursor refs : disjoint_from cursor (kept cursor refs).
Proof.
  revert cursor. induction refs as [|r refs IH]; intros cursor; cbn [kept]; [constructor|].
  destruct (decide (changed r)); [|done]. destruct (decide (start r < cursor)); [done|]. constructor; [lia|done].
Qed.

Lemma kept_covers cursor refs r :
  StronglySorted (fun x y => start x <= start y) refs -> r ∈ refs -> changed r ->
  r ∈ kept cursor refs \/ start r < cursor \/ exists k, k ∈ kept cursor refs /\ start k <= start r < end_ k.
Proof.
  intros HS. revert cursor. induction HS as [|x refs HS IH HF]; intros cursor; [by intros ?%not_elem_of_nil|].
  intros Hr Hc. cbn [kept]. apply elem_of_cons in Hr as [->|Hr].
  - rewrite decide_True by done. destruct (decide (start x < cursor)); [by right; left|]. left. left.
  - destruct (decide (changed x)); [|by apply IH]. destruct (decide (start x < cursor)); [by apply IH|].
    destruct (IH (end_ x) Hr Hc) as [Hk|[Hlt|(k & Hk & Hb)]].
    + left. by right.
    + right. right. exists x. split; [left|]. rewrite Forall_forall in HF. specialize (HF r Hr). lia.
    + right. right. exists k. split; [by right|done].
Qed.

(** References that are apart are all kept. *)
Lemma kept_all lo cursor refs :
  disjoint_from lo refs -> cursor <= lo -> Forall in_content refs ->
  kept cursor refs = filter changed refs.
Proof.
  intros HD. revert cursor. induction HD as [lo|lo r refs Hlo HD IH]; intros cursor Hc Hin; [done|].
  apply Forall_cons in Hin as [[Hr1 Hr2] Hin]. cbn [kept]. rewrite filter_cons.
  destruct (decide (changed r)) as [Hch|Hch].
  - destruct (decide (start r < cursor)); [lia|]. f_equal. by apply IH.
  - apply IH; [lia|done].
Qed.
End Splice.

#[export] Instance cmp_start_ok : Cmp cmp_start.
Proof. unfold cmp_start. apply cmp_on_ok. exact cmp_Z_ok. Qed.

Lemma cmp_start_le r r' : cmp_start r r' <> Gt <-> start r <= start r'.
Proof. unfold cmp_start, cmp_on. rewrite Z.compare_le_iff. lia. Qed.

Lemma sort_start_sorted refs : StronglySorted (fun x y => start x <= start y) (sort_by cmp_start refs).
Proof.
  pose proof (sort_by_sorted cmp_start refs) as H. induction H as [|x l HS IH HF]; constructor; [done|].
  rewrite Forall_forall in *. intros y Hy. by apply cmp_start_le, HF.
Qed.

(** What a scan found: in the content, and one reference to a place; those of a style
    sheet apart. *)
Record scanned_ok (content : bytes) (k : assetKind) (refs : list ref) : Prop := {
  so_bounds : Forall (in_content content) refs;
  so_unique : forall r r', r ∈ refs -> r' ∈ refs -> start r = start r' -> r = r';
  so_apart : k = kindCSS -> StronglySorted (fun x y => start x < start y) refs /\ disjoint_from 0 refs
}.

Lemma apart_refs importer content lo l :
  apart content lo l ->
  let refs := refAt importer <$> l in
  Forall (in_content content) refs /\ StronglySorted (fun x y => start x < start y) refs /\
  disjoint_from lo refs /\ Forall (fun r => lo < start r) refs.
Proof.
  revert lo. induction l as [|r l IH]; intros lo; cbn [apart fmap list_fmap]; [intros _; repeat constructor|].
  intros (Hlo & [Hb _] & Ha). destruct (IH _ Ha) as (H1 & H2 & H3 & H4). cbv zeta. split_and!.
  - constructor; [exact Hb|done].
  - constructor; [done|]. eapply Forall_impl; [exact H4|]. cbn. lia.
  - constructor; [cbn; lia|exact H3].
  - constructor; [done|]. eapply Forall_impl; [exact H4|]. cbn. lia.
Qed.

Lemma strict_unique refs r r' :
  StronglySorted (fun x y => start x < start y) refs -> r ∈ refs -> r' ∈ refs -> start r = start r' -> r = r'.
Proof.
  induction 1 as [|x refs HS IH HF]; [by intros ?%not_elem_of_nil|]. rewrite Forall_forall in HF.
  intros [->|Hr]%elem_of_cons [->|Hr']%elem_of_cons; [done|..|auto].
  - specialize (HF _ Hr'). lia.
  - specialize (HF _ Hr). lia.
Qed.

Lemma extractRefs_ok importer content k refs : extractRefs importer content k = Done refs -> scanned_ok content k refs.
Proof.
  unfold extractRefs. destruct k.
  - cbn. intros [= <-]. split; [constructor|by intros r r' ?%not_elem_of_nil|done].
  - destruct (js_references_ok content (length content) (le_n _)) as [(l & -> & Hl)|[-> _]]; [|done].
    intros [= <-]. rewrite Forall_forall in Hl. split; [| |done].
    + apply Forall_fmap, Forall_forall. intros r Hr. apply Hl in Hr as [[Hb _] _]. exact Hb.
    + intros r r' (x & -> & Hx)%list_elem_of_fmap (x' & -> & Hx')%list_elem_of_fmap Es.
      f_equal. by apply (jsRef_unique content); auto.
  - unfold scanCSSRefs. destruct (scanCSS content (length content) 0) as [l| |] eqn:E; [|done..].
    intros [= <-]. apply scanCSS_Done in E. apply (apart_refs importer) in E as (H1 & H2 & H3 & _).
    split; [done| |done]. intros r r'. by apply strict_unique.
Qed.

(** Sorting by start has one outcome. *)
Lemma sort_start_unique refs l :
  (forall r r', r ∈ refs -> r' ∈ refs -> start r = start r' -> r = r') ->
  l ≡ₚ refs -> StronglySorted (fun x y => start x <= start y) l -> l = sort_by cmp_start refs.
Proof.
  intros Hu Hp HS. eapply StronglySorted_unique_strong; [|exact HS|apply sort_start_sorted|by rewrite sort_by_perm].
  intros x y Hx Hy Hxy Hyx. cbv beta in Hxy, Hyx. apply Hu; [by rewrite <-Hp|by rewrite elem_of_sort_by in Hy|lia].
Qed.

(** rewriting replaces references and nothing else. For the references found in a
    script or style sheet, however ties of the unstable sort fall, the rewrite does not
    cut out of range and yields the content with some references replaced: changed ones,
    in order and apart; every changed reference is replaced or starts inside one that is,
    and in a style sheet all of them are. *)
Theorem rewriting_is_a_splice importer content k refs replacement l :
  extractRefs importer content k = Done refs -> l ≡ₚ refs -> StronglySorted (fun x y => start x <= start y) l ->
  exists ks, rewriteLoop content replacement l 0 = Done (splice content replacement 0 ks) /\
    rewriteRefs content replacement refs = Done (splice content replacement 0 ks) /\
    Forall (fun r => r ∈ refs /\ changed replacement r) ks /\ disjoint_from 0 ks /\
    (forall r, r ∈ refs -> changed replacement r ->
       r ∈ ks \/ exists r', r' ∈ ks /\ start r' <= start r < end_ r') /\
    (k = kindCSS -> ks = filter (changed replacement) refs).
Proof.
  intros HE Hp HS. destruct (extractRefs_ok _ _ _ _ HE) as [Hb Hu Ha].
  pose proof (sort_start_unique refs l Hu Hp HS) as El.
  assert (Hbl : Forall (in_content content) l) by by rewrite Hp.
  exists (kept replacement 0 l). split; [by apply rewriteLoop_splice; [|lia]|].
  split. { unfold rewriteRefs. rewrite <-El. by apply rewriteLoop_splice; [|lia]. }
  split_and!.
  - apply Forall_forall. intros r Hr. rewrite <-Hp. revert Hr. clear. generalize 0.
    induction l as [|x l IH]; intros c; cbn [kept]; [by intros ?%not_elem_of_nil|].
    destruct (decide (changed replacement x)); [destruct (decide (start x < c))|]; intros Hr.
    + destruct (IH _ Hr). split; [by right|done].
    + apply elem_of_cons in Hr as [->|Hr]; [split; [left|done]|]. destruct (IH _ Hr). split; [by right|done].
    + destruct (IH _ Hr). split; [by right|done].
  - apply kept_disjoint.
  - intros r Hr Hc. rewrite <-Hp in Hr. destruct (kept_covers replacement 0 l r HS Hr Hc) as [?|[?|?]]; [by left|lia|by right].
  - intros ->. destruct (Ha eq_refl) as [Hss Hd].
    assert (El2 : refs = l).
    { rewrite El. apply sort_start_unique; [done|done|]. clear -Hss.
      induction Hss as [|x refs HS IH HF]; constructor; [done|]. eapply Forall_impl; [exact HF|]. cbn. lia. }
    rewrite <-El2. by apply (kept_all content replacement 0).
Qed.
