(* ===== verification/AssetGraph.v ===== *)
(** Strongly connected components of the asset graph, dependencies first:
    src/assets/graph.go.

    A graph maps a node to what it depends on; a node may be mentioned without being a
    key. The closure [connect] and its captured variables are a recursive function and
    its state; the fuel bounds the depth of the recursion. *)

From S2P Require Import Prelude.
From S2P Require Import Order.

(** ** Tarjan's algorithm *)

(** The captured variables; the top of the stack comes first. *)
Record tarjan := mkT {
  t_index : nat;
  t_indices : gmap string nat;
  t_lowlink : gmap string nat;
  t_onStack : gset string;
  t_stack : list string;
  t_components : list (list string)
}.

Definition startT : tarjan := mkT 0 ∅ ∅ ∅ [] [].

(** A missing key reads as zero. *)
Definition indexOf (st : tarjan) (x : string) : nat := default 0 (t_indices st !! x).
Definition lowOf (st : tarjan) (x : string) : nat := default 0 (t_lowlink st !! x).

Section Graph.
Context (deps : gmap string (list string)).

Definition depsOf (x : string) : list string := default [] (deps !! x).
Definition neighborsOf (x : string) : list string := sort_by cmp_string (depsOf x).

Definition enterT (node : string) (st : tarjan) : tarjan :=
  mkT (S (t_index st)) (<[node := t_index st]> (t_indices st)) (<[node := t_index st]> (t_lowlink st))
    ({[node]} ∪ t_onStack st) (node :: t_stack st) (t_components st).

(** [lowlink[node] = min(lowlink[node], v)] *)
Definition lower (node : string) (v : nat) (st : tarjan) : tarjan :=
  mkT (t_index st) (t_indices st) (<[node := lowOf st node `min` v]> (t_lowlink st)) (t_onStack st) (t_stack st)
    (t_components st).

(** The members popped, the last of them [node], and the rest of the stack. *)
Fixpoint popUntil (node : string) (stack : list string) : list string * list string :=
  match stack with
  | [] => ([], [])
  | member :: stack =>
      if bool_decide (member = node) then ([member], stack)
      else let '(component, rest) := popUntil node stack in (member :: component, rest)
  end.

(** What [connect] does after the loop over the neighbors. *)
Definition leaveT (node : string) (st : tarjan) : tarjan :=
  if bool_decide (lowOf st node <> indexOf st node) then st
  else
    let '(component, rest) := popUntil node (t_stack st) in
    mkT (t_index st) (t_indices st) (t_lowlink st) (t_onStack st ∖ list_to_set component) rest
      (t_components st ++ [sort_by cmp_string component]).

Section Visit.
Context (connect : string -> tarjan -> option tarjan).

(** The loop over the neighbors of [node]. *)
Fixpoint visitAll (node : string) (neighbors : list string) (st : tarjan) : option tarjan :=
  match neighbors with
  | [] => Some st
  | dependency :: neighbors =>
      match t_indices st !! dependency with
      | None =>
          match connect dependency st with
          | Some st => visitAll node neighbors (lower node (lowOf st dependency) st)
          | None => None
          end
      | Some _ =>
          if bool_decide (dependency ∈ t_onStack st)
          then visitAll node neighbors (lower node (indexOf st dependency) st)
          else visitAll node neighbors st
      end
  end.
End Visit.

Fixpoint connect (fuel : nat) (node : string) (st : tarjan) : option tarjan :=
  match fuel with
  | O => None
  | S fuel =>
      match visitAll (connect fuel) node (neighborsOf node) (enterT node st) with
      | Some st => Some (leaveT node st)
      | None => None
      end
  end.

(** All nodes, as keys or mentioned. *)
Definition universe : gset string := dom deps ∪ list_to_set (concat (map_to_list deps).*2).

Fixpoint connectAll (nodes : list string) (st : tarjan) : option tarjan :=
  match nodes with
  | [] => Some st
  | node :: nodes =>
      match t_indices st !! node with
      | Some _ => connectAll nodes st
      | None => match connect (size universe) node st with Some st => connectAll nodes st | None => None end
      end
  end.

Definition components : option (list (list string)) :=
  t_components <$> connectAll (sort_by cmp_string (map_to_list deps).*1) startT.

(** ** The order of the components *)

Section Condense.
Context (comps : list (list string)).

(** The last component that has the node, as the writes to the map leave it. *)
Definition componentByNode : gmap string nat :=
  fold_left (fun m '(i, members) => fold_left (fun m x => <[x := i]> m) members m)
    (imap (fun i members => (i, members)) comps) ∅.
Definition componentOf (x : string) : nat := default 0 (componentByNode !! x).

(** The dependencies between different components. *)
Definition componentEdges : list (nat * nat) :=
  filter (fun e => e.1 <> e.2)
    (concat (map (fun '(node, ds) => map (fun d => (componentOf node, componentOf d)) ds) (map_to_list deps))).
Definition componentDeps (c : nat) : gset nat := list_to_set (snd <$> filter (fun e => e.1 = c) componentEdges).
Definition dependents (c : nat) : gset nat := list_to_set (fst <$> filter (fun e => e.2 = c) componentEdges).

Definition membersOf (c : nat) : list string := default [] (comps !! c).
Definition firstOf (c : nat) : string := default EmptyString (head (membersOf c)).

Definition sortComponents (l : list nat) : list nat := sort_by (cmp_on firstOf cmp_string) l.

Record dependencyComponent := mkComp { dc_nodes : list string; dc_cyclic : bool }.

Definition componentAt (c : nat) : dependencyComponent :=
  let members := membersOf c in
  mkComp members ((1 <? length members)
                  || match members with x :: _ => bool_decide (x ∈ depsOf x) | [] => false end).

(** One dependent of the component [c] taken: the pending dependencies and the ready ones. *)
Definition release (c : nat) (s : gmap nat (gset nat) * list nat) (dependent : nat) : gmap nat (gset nat) * list nat :=
  let '(pending, ready) := s in
  let left := default ∅ (pending !! dependent) ∖ {[c]} in
  (<[dependent := left]> pending, if bool_decide (left = ∅) then ready ++ [dependent] else ready).

(** The dependents are taken in some order, which the sort that follows hides. *)
Fixpoint orderLoop (fuel : nat) (pending : gmap nat (gset nat)) (ready : list nat) : option (list nat) :=
  match ready with
  | [] => Some []
  | c :: ready =>
      match fuel with
      | O => None
      | S fuel =>
          let '(pending, ready) := fold_left (release c) (elements (dependents c)) (pending, ready) in
          match orderLoop fuel pending (sortComponents ready) with Some l => Some (c :: l) | None => None end
      end
  end.

Definition orderComponents : option (list dependencyComponent) :=
  let all := seq 0 (length comps) in
  let pending : gmap nat (gset nat) := list_to_map (map (fun c => (c, componentDeps c)) all) in
  match orderLoop (length comps) pending (sortComponents (filter (fun c => componentDeps c = ∅) all)) with
  | Some l => Some (map componentAt l)
  | None => None
  end.
End Condense.

Definition dependencyComponents : option (list dependencyComponent) :=
  match components with Some comps => orderComponents comps | None => None end.
End Graph.
