(* ===== verification/AssetGraphSpec.v ===== *)
(** The algorithm of AssetGraph.v finds the strongly connected components and orders them
    so that dependencies come first. The invariant of the search: components are closed,
    whole and in reverse order of dependency; on the stack, what lies below reaches what
    lies above, and everything reaches a node still being visited. *)

From S2P Require Import Prelude.
From S2P Require Import Order.
From S2P Require Import AssetGraph.

Section Components.
Context (deps : gmap string (list string)).

Definition edge (x y : string) : Prop := y ∈ depsOf deps x.
Definition reach : string -> string -> Prop := rtc edge.
Definition same (x y : string) : Prop := reach x y /\ reach y x.

Lemma scc_sym x y : same x y -> same y x.
Proof. intros []. by split. Qed.
Lemma scc_trans x y z : same x y -> same y z -> same x z.
Proof. intros [] []. split; by etrans. Qed.

Definition seen (st : tarjan) (x : string) : Prop := is_Some (t_indices st !! x).
Definition done_ (st : tarjan) (x : string) : Prop := x ∈ concat (t_components st).

(** ** The invariant; [gray] are the nodes being visited *)

Record Inv (gray : list string) (st : tarjan) : Prop := {
  iv_gray : forall g, g ∈ gray -> g ∈ t_stack st;
  iv_nodup : NoDup (concat (t_components st) ++ t_stack st);
  iv_seen : forall x, seen st x <-> x ∈ t_stack st \/ done_ st x;
  iv_bound : forall x i, t_indices st !! x = Some i -> i < t_index st;
  iv_onstack : forall x, x ∈ t_onStack st <-> x ∈ t_stack st;
  iv_sorted : StronglySorted (fun x y => indexOf st y < indexOf st x) (t_stack st);
  iv_order : forall i c x y, t_components st !! i = Some c -> x ∈ c -> edge x y ->
    exists j c', j <= i /\ t_components st !! j = Some c' /\ y ∈ c';
  iv_scc : forall c x y, c ∈ t_components st -> x ∈ c -> y ∈ c <-> same x y;
  iv_shape : forall c, c ∈ t_components st -> c <> [] /\ StronglySorted (cmp_le cmp_string) c;
  iv_up : forall x y, x ∈ t_stack st -> y ∈ t_stack st -> indexOf st x <= indexOf st y -> reach x y;
  iv_down : forall x, x ∈ t_stack st -> exists g, g ∈ gray /\ indexOf st g <= indexOf st x /\ reach x g;
  iv_black : forall x y, seen st x -> x ∉ gray -> edge x y -> seen st y;
  iv_known : forall x, seen st x -> x ∈ universe deps
}.

Lemma Inv_start : Inv [] startT.
Proof.
  constructor; unfold seen, done_, startT; cbn [t_index t_indices t_stack t_components t_onStack concat app].
  - by intros g ?%not_elem_of_nil.
  - constructor.
  - intros x. rewrite lookup_empty. split; [by intros []|by intros [?%not_elem_of_nil|?%not_elem_of_nil]].
  - intros x i. by rewrite lookup_empty.
  - set_solver.
  - constructor.
  - intros i c x y. by rewrite lookup_nil.
  - by intros c x y ?%not_elem_of_nil.
  - by intros c ?%not_elem_of_nil.
  - by intros x y ?%not_elem_of_nil.
  - by intros x ?%not_elem_of_nil.
  - intros x y [i Hi]. by rewrite lookup_empty in Hi.
  - intros x [i Hi]. by rewrite lookup_empty in Hi.
Qed.

Lemma indexOf_Some st x i : t_indices st !! x = Some i -> indexOf st x = i.
Proof. intros E. unfold indexOf. by rewrite E. Qed.

Section Facts.
Context (gray : list string) (st : tarjan).
Hypothesis HI : Inv gray st.

Lemma stack_seen x : x ∈ t_stack st -> seen st x.
Proof. intros H. apply (iv_seen _ _ HI). by left. Qed.

Lemma seen_bound x : seen st x -> indexOf st x < t_index st.
Proof. intros [i Hi]. rewrite (indexOf_Some _ _ _ Hi). by eapply iv_bound. Qed.

Lemma done_edge x y : done_ st x -> edge x y -> done_ st y.
Proof.
  intros (c & Hc & Hx)%elem_of_concat He. apply list_elem_of_lookup in Hc as [i Hi].
  destruct (iv_order _ _ HI i c x y Hi Hx He) as (j & c' & _ & Hj & Hy). apply elem_of_concat. exists c'.
  split; [by eapply list_elem_of_lookup_2|done].
Qed.

Lemma done_reach x y : reach x y -> done_ st x -> done_ st y.
Proof. induction 1; [done|]. intros. by eauto using done_edge. Qed.

Lemma done_not_stack x : done_ st x -> x ∈ t_stack st -> False.
Proof. intros Hd Hs. pose proof (iv_nodup _ _ HI) as (_ & H & _)%NoDup_app. by apply (H x). Qed.
End Facts.

(** The stack is sorted by index, so what is above has the larger one. *)
Lemma stack_above st pre node rest :
  StronglySorted (fun x y => indexOf st y < indexOf st x) (t_stack st) -> t_stack st = pre ++ node :: rest ->
  (forall x, x ∈ rest -> indexOf st x < indexOf st node) /\ (forall x, x ∈ pre -> indexOf st node < indexOf st x).
Proof.
  intros HS E. rewrite E in HS. split.
  - apply StronglySorted_app_1_r, StronglySorted_inv in HS as [_ HF]. rewrite Forall_forall in HF. done.
  - intros x Hx. apply list_elem_of_split in Hx as (l1 & l2 & ->). rewrite <-app_assoc in HS.
    apply StronglySorted_app_1_r in HS. cbn in HS. apply StronglySorted_inv in HS as [_ HF].
    rewrite Forall_forall in HF. apply HF. apply elem_of_app. right. left.
Qed.

(** ** What a visit changes *)

Record grows (st st' : tarjan) : Prop := {
  gr_index : t_index st <= t_index st';
  gr_indices : forall x i, t_indices st !! x = Some i -> t_indices st' !! x = Some i;
  gr_new : forall x i, t_indices st' !! x = Some i -> t_indices st !! x = Some i \/ t_index st <= i;
  gr_low : forall x, seen st x -> t_lowlink st' !! x = t_lowlink st !! x
}.

#[local] Instance grows_preorder : PreOrder grows.
Proof.
  constructor; [by constructor; [..|left|]|]. intros s1 s2 s3 [A1 A2 A3 A4] [B1 B2 B3 B4]. constructor.
  - lia.
  - auto.
  - intros x i [Hi|Hi]%B3; [|right; lia]. by apply A3.
  - intros x [i Hi]. rewrite B4; [apply A4; by eexists|]. eexists. by apply A2.
Qed.

Lemma grows_seen st st' x : grows st st' -> seen st x -> seen st' x.
Proof. intros H [i Hi]. eexists. by apply (gr_indices _ _ H). Qed.

Lemma grows_indexOf st st' x : grows st st' -> seen st x -> indexOf st' x = indexOf st x.
Proof. intros H [i Hi]. rewrite (indexOf_Some _ _ _ Hi). by apply indexOf_Some, (gr_indices _ _ H). Qed.

Lemma grows_lowOf st st' x : grows st st' -> seen st x -> lowOf st' x = lowOf st x.
Proof. intros H Hx. unfold lowOf. by rewrite (gr_low _ _ H). Qed.

(** Lowering changes no more than the link of its node. *)
Lemma lower_Inv gray node v st : Inv gray st -> Inv gray (lower node v st).
Proof. intros []. by constructor. Qed.

Lemma lower_lowOf node v st : lowOf (lower node v st) node = lowOf st node `min` v.
Proof. unfold lowOf at 1, lower. cbn. by rewrite lookup_insert_eq. Qed.

Lemma lower_grows st0 node v st : ~ seen st0 node -> grows st0 st -> grows st0 (lower node v st).
Proof.
  intros Hn [H1 H2 H3 H4]. constructor; try done. intros x Hx. cbn. rewrite lookup_insert_ne; [by apply H4|].
  by intros ->.
Qed.

(** ** The frame of a visit: [node] entered from [st0], its dependencies [ds] visited *)

Record Frame (node : string) (gray : list string) (st0 : tarjan) (ds : list string) (st : tarjan) : Prop := {
  fm_inv : Inv (node :: gray) st;
  fm_grows : grows st0 st;
  fm_stack : exists pre, t_stack st = pre ++ node :: t_stack st0 /\
    forall x y, x ∈ pre -> y ∈ t_stack st0 -> edge x y -> lowOf st node <= indexOf st y;
  fm_low : exists w, w ∈ t_stack st /\ lowOf st node = indexOf st w /\ reach node w;
  fm_le : lowOf st node <= indexOf st node;
  fm_ds : forall y, y ∈ ds -> seen st y /\ (y ∈ t_stack st0 -> lowOf st node <= indexOf st y)
}.

(** What a visit of [node] from [st0] ends with. *)
Definition visited (node : string) (gray : list string) (st0 st : tarjan) : Prop :=
  Inv gray st /\ grows st0 st /\ seen st node /\
  exists pre, t_stack st = pre ++ t_stack st0 /\
    (forall x y, x ∈ pre -> y ∈ t_stack st0 -> edge x y -> lowOf st node <= indexOf st y) /\
    ((pre = [] /\ t_index st0 <= lowOf st node) \/
     (exists w, w ∈ t_stack st0 /\ lowOf st node = indexOf st w /\ reach node w)).

Lemma enter_frame node gray st0 :
  Inv gray st0 -> ~ seen st0 node -> node ∈ universe deps -> (forall x, x ∈ t_stack st0 -> reach x node) ->
  Frame node gray st0 [] (enterT node st0).
Proof.
  intros HI Hn Hu Hr. set (st := enterT node st0).
  assert (Hns : node ∉ t_stack st0) by (intros Hs; by apply Hn, (stack_seen _ _ HI)).
  assert (Hnd : ~ done_ st0 node) by (intros Hd; apply Hn, (iv_seen _ _ HI); by right).
  assert (Eo : forall x, x <> node -> indexOf st x = indexOf st0 x).
  { intros x Hx. unfold indexOf, st, enterT. cbn. by rewrite lookup_insert_ne. }
  assert (En : indexOf st node = t_index st0) by (apply indexOf_Some; cbn; by rewrite lookup_insert_eq).
  assert (El : lowOf st node = t_index st0) by (unfold lowOf, st; cbn; by rewrite lookup_insert_eq).
  assert (Hsx : forall x, seen st x <-> x = node \/ seen st0 x).
  { intros x. unfold seen, st, enterT. cbn. rewrite lookup_insert_is_Some'. naive_solver. }
  assert (Hlt : forall x, x ∈ t_stack st0 -> indexOf st x < t_index st0).
  { intros x Hx. rewrite Eo by (by intros ->). by apply (seen_bound gray), (stack_seen gray). }
  assert (Hg : grows st0 st).
  { constructor; cbn.
    - lia.
    - intros x i Hi. rewrite lookup_insert_ne; [done|]. intros ->. apply Hn. by eexists.
    - intros x i. rewrite lookup_insert_Some. intros [[_ <-]|[_ ?]]; [right; lia|by left].
    - intros x Hx. rewrite lookup_insert_ne; [done|]. by intros ->. }
  constructor; try done.
  - constructor; cbn.
    + intros g [->|Hgr]%elem_of_cons; [left|]. right. by apply (iv_gray _ _ HI).
    + rewrite <-Permutation_middle. apply NoDup_cons. split; [|apply (iv_nodup _ _ HI)]. rewrite elem_of_app. by intros [?|?].
    + intros x. rewrite Hsx, (iv_seen _ _ HI), elem_of_cons. unfold done_, st, enterT. cbn. tauto.
    + intros x i. rewrite lookup_insert_Some. intros [[_ <-]|[_ Hi%(iv_bound _ _ HI)]]; lia.
    + intros x. rewrite elem_of_union, elem_of_singleton, elem_of_cons, (iv_onstack _ _ HI). done.
    + constructor.
      * pose proof (iv_sorted _ _ HI) as HS. revert HS. assert (Hall : forall x, x ∈ t_stack st0 -> x <> node) by (intros x Hx ->; done).
        revert Hall. generalize (t_stack st0). intros l Hall HS. induction HS as [|x l HS IH HF]; constructor.
        -- apply IH. intros y Hy. apply Hall. by right.
        -- rewrite Forall_forall in *. intros y Hy. rewrite !Eo; [by apply HF|apply Hall; left|apply Hall; by right].
      * rewrite Forall_forall. intros x Hx. rewrite En. by apply Hlt.
    + apply (iv_order _ _ HI).
    + apply (iv_scc _ _ HI).
    + apply (iv_shape _ _ HI).
    + intros x y [->|Hx]%elem_of_cons [->|Hy]%elem_of_cons Hle; [done| |by apply Hr|].
      * rewrite En in Hle. specialize (Hlt y Hy). lia.
      * apply (iv_up _ _ HI); [done|done|]. rewrite !Eo in Hle; [done|by intros ->..].
    + intros x [->|Hx]%elem_of_cons; [exists node; split; [left|done]|].
      destruct (iv_down _ _ HI x Hx) as (g & Hgr & Hle & Hrg). exists g. split; [by right|]. split; [|done].
      rewrite !Eo; [done|by intros ->|]. intros ->. apply Hns. by apply (iv_gray _ _ HI).
    + intros x y Hx Hng He. apply Hsx in Hx as [->|Hx]; [destruct Hng; left|]. apply Hsx. right.
      apply (iv_black _ _ HI x); [done| |done]. intros Hgr. apply Hng. by right.
    + intros x Hx. apply Hsx in Hx as [->|Hx]; [done|]. by apply (iv_known _ _ HI).
  - exists []. split; [done|]. by intros x y ?%not_elem_of_nil.
  - exists node. split; [left|]. split; [congruence|done].
  - lia.
  - by intros y ?%not_elem_of_nil.
Qed.

Lemma popUntil_app node pre rest :
  node ∉ pre -> popUntil node (pre ++ node :: rest) = (pre ++ [node], rest).
Proof.
  induction pre as [|x pre IH]; intros Hn; cbn [popUntil app].
  - by rewrite bool_decide_true.
  - rewrite bool_decide_false by (intros ->; apply Hn; left). rewrite IH; [done|]. intros H. apply Hn. by right.
Qed.

(** A node with all dependencies visited stays on the stack when something below is
    reachable from it. *)
Lemma leave_stays node gray st0 ds st :
  Inv gray st0 -> ~ seen st0 node -> Frame node gray st0 ds st -> (forall y, edge node y -> y ∈ ds) ->
  lowOf st node <> indexOf st node -> visited node gray st0 st.
Proof.
  intros HI0 Hn0 [HI Hg (pre & Es & Hpre) (w & Hw & Elw & Hrw) Hle Hds] Hall Hne.
  destruct (stack_above _ _ _ _ (iv_sorted _ _ HI) Es) as [Hbelow Habove].
  assert (Hws : w ∈ t_stack st0).
  { rewrite Es in Hw. apply elem_of_app in Hw as [Hw|[->|Hw]%elem_of_cons]; [|lia|done].
    specialize (Habove w Hw). lia. }
  assert (Hns : seen st node) by (apply (stack_seen _ _ HI), (iv_gray _ _ HI); left).
  split; [|split; [done|split; [done|]]].
  - constructor; try apply HI.
    + intros g Hgr. apply (iv_gray _ _ HI). by right.
    + intros x Hx. destruct (iv_down _ _ HI x Hx) as (g & [->|Hgr]%elem_of_cons & Hle1 & Hr1); [|by exists g].
      destruct (iv_down _ _ HI w Hw) as (g2 & [->|Hgr]%elem_of_cons & Hle2 & Hr2); [lia|].
      exists g2. split; [done|]. split; [lia|]. etrans; [exact Hr1|]. by etrans.
    + intros x y Hx Hng He. destruct (decide (x = node)) as [->|Hxn]; [by apply Hds, Hall|].
      apply (iv_black _ _ HI x y Hx); [|done]. by intros [?|?]%elem_of_cons.
  - exists (pre ++ [node]). rewrite <-app_assoc. split; [done|]. split.
    + intros x y [Hx|Hx]%elem_of_app Hy He; [by eapply Hpre|]. apply list_elem_of_singleton in Hx as ->.
      apply Hds; [by apply Hall|done].
    + right. by exists w.
Qed.

(** A node with all dependencies visited whose link is its own index is popped with all
    above it: a component. *)
Section Pop.
Context (node : string) (gray : list string) (st0 st : tarjan) (ds pre : list string).
Hypothesis HI : Inv (node :: gray) st.
Hypothesis HI0 : Inv gray st0.
Hypothesis Es : t_stack st = pre ++ node :: t_stack st0.
Hypothesis Hpre : forall x y, x ∈ pre -> y ∈ t_stack st0 -> edge x y -> indexOf st node <= indexOf st y.
Hypothesis Hds : forall y, edge node y -> seen st y /\ (y ∈ t_stack st0 -> indexOf st node <= indexOf st y).

Lemma pop_in x : x ∈ pre ++ [node] <-> x ∈ t_stack st /\ indexOf st node <= indexOf st x.
Proof.
  destruct (stack_above _ _ _ _ (iv_sorted _ _ HI) Es) as [Hb Ha].
  rewrite Es, !elem_of_app, list_elem_of_singleton, elem_of_cons. split.
  - intros [Hx| ->]; [specialize (Ha x Hx)|]; split; auto; lia.
  - intros [[Hx|[->|Hx]] Hle]; [by left|by right|]. specialize (Hb x Hx). lia.
Qed.

Lemma pop_not_rest x : x ∈ pre ++ [node] -> x ∉ t_stack st0.
Proof.
  intros [_ Hle]%pop_in Hx. destruct (stack_above _ _ _ _ (iv_sorted _ _ HI) Es) as [Hb _]. specialize (Hb x Hx). lia.
Qed.

Lemma pop_edge x y : x ∈ pre ++ [node] -> edge x y -> y ∈ pre ++ [node] \/ done_ st y.
Proof.
  intros Hx He. destruct (stack_above _ _ _ _ (iv_sorted _ _ HI) Es) as [Hb _].
  assert (Hgr : forall g, g ∈ gray -> g ∈ t_stack st0) by apply (iv_gray _ _ HI0).
  assert (Hy : seen st y /\ (y ∈ t_stack st0 -> indexOf st node <= indexOf st y)).
  { apply elem_of_app in Hx as [Hx|Hx]; [|apply list_elem_of_singleton in Hx as ->; by apply Hds].
    split; [|intros Hy; by apply (Hpre x y)]. apply (iv_black _ _ HI x).
    - apply (stack_seen _ _ HI). rewrite Es. apply elem_of_app. by left.
    - intros Hin. assert (Hp : x ∈ pre ++ [node]) by (apply elem_of_app; by left).
      apply elem_of_cons in Hin as [->|Hin].
      + destruct (stack_above _ _ _ _ (iv_sorted _ _ HI) Es) as [_ Ha]. specialize (Ha node Hx). lia.
      + by apply (pop_not_rest x Hp), Hgr.
    - done. }
  destruct Hy as [Hs Hle]. apply (iv_seen _ _ HI) in Hs as [Hs|Hs]; [left|by right].
  apply pop_in. split; [done|]. rewrite Es in Hs. apply elem_of_app in Hs as [Hs|[->|Hs]%elem_of_cons]; [|done|by apply Hle].
  destruct (stack_above _ _ _ _ (iv_sorted _ _ HI) Es) as [_ Ha]. specialize (Ha y Hs). lia.
Qed.

(** What is popped with [node] reaches it and is reached from it. *)
Lemma pop_same x : x ∈ pre ++ [node] -> same node x.
Proof.
  intros [Hx Hle]%pop_in. assert (Hn : node ∈ t_stack st) by (apply (iv_gray _ _ HI); left).
  split; [by apply (iv_up _ _ HI)|]. destruct (iv_down _ _ HI x Hx) as (g & Hg & Hlg & Hr).
  etrans; [exact Hr|]. apply (iv_up _ _ HI); [by apply (iv_gray _ _ HI)|done|].
  apply elem_of_cons in Hg as [->|Hg]; [done|]. apply (iv_gray _ _ HI0) in Hg.
  destruct (stack_above _ _ _ _ (iv_sorted _ _ HI) Es) as [Hb _]. specialize (Hb g Hg). lia.
Qed.

Lemma pop_whole x y : x ∈ pre ++ [node] -> y ∈ pre ++ [node] <-> same x y.
Proof.
  intros Hx. split.
  - intros Hy. eapply scc_trans; [apply scc_sym, pop_same, Hx|by apply pop_same].
  - intros [Hxy Hyx]. assert (H : y ∈ pre ++ [node] \/ done_ st y).
    { clear Hyx. revert Hx. induction Hxy as [|x z y He Hzy IH]; [by left|]. intros Hx.
      destruct (pop_edge x z Hx He) as [Hz|Hz]; [by apply IH|]. right. by eapply done_reach. }
    destruct H as [?|Hd]; [done|]. exfalso. apply (done_not_stack _ _ HI x); [by eapply done_reach|by apply pop_in].
Qed.

Lemma pop_perm : concat (t_components st ++ [sort_by cmp_string (pre ++ [node])]) ++ t_stack st0 ≡ₚ
  concat (t_components st) ++ t_stack st.
Proof.
  rewrite concat_app. cbn [concat]. rewrite app_nil_r, sort_by_perm, Es. by rewrite <-!app_assoc.
Qed.

Definition popped : tarjan :=
  mkT (t_index st) (t_indices st) (t_lowlink st) (t_onStack st ∖ list_to_set (pre ++ [node])) (t_stack st0)
    (t_components st ++ [sort_by cmp_string (pre ++ [node])]).

Lemma pop_done x : done_ popped x <-> done_ st x \/ x ∈ pre ++ [node].
Proof.
  unfold done_, popped. cbn [t_components]. rewrite concat_app. cbn [concat].
  by rewrite app_nil_r, elem_of_app, elem_of_sort_by.
Qed.

Lemma pop_Inv : Inv gray popped.
Proof.
  assert (Hsub : forall x, x ∈ t_stack st0 -> x ∈ t_stack st).
  { intros x Hx. rewrite Es. apply elem_of_app. right. by right. }
  destruct (stack_above _ _ _ _ (iv_sorted _ _ HI) Es) as [Hb _].
  constructor; cbn [popped t_stack t_indices t_index t_onStack].
  - apply (iv_gray _ _ HI0).
  - cbn [t_components]. rewrite pop_perm. apply (iv_nodup _ _ HI).
  - intros x. change (seen popped x) with (seen st x). rewrite (iv_seen _ _ HI), pop_done, Es, !elem_of_app, elem_of_cons, list_elem_of_singleton. tauto.
  - apply (iv_bound _ _ HI).
  - intros x. rewrite elem_of_difference, elem_of_list_to_set, (iv_onstack _ _ HI). split.
    + intros [Hx Hn]. rewrite Es in Hx. rewrite elem_of_app, list_elem_of_singleton in Hn.
      apply elem_of_app in Hx as [?|[->|?]%elem_of_cons]; tauto.
    + intros Hx. split; [by apply Hsub|]. intros Hp. by apply (pop_not_rest x).
  - pose proof (iv_sorted _ _ HI) as HS. rewrite Es in HS. by apply StronglySorted_app_1_r, StronglySorted_inv in HS as [? _].
  - cbn [t_components]. intros i c x y Hi Hx He. apply lookup_app_Some in Hi as [Hi|[Hle Hi]].
    + destruct (iv_order _ _ HI i c x y Hi Hx He) as (j & c' & Hj & Hc & Hy). exists j, c'.
      split; [done|]. split; [|done]. by apply lookup_app_l_Some.
    + apply list_lookup_singleton_Some in Hi as [Hi <-]. rewrite elem_of_sort_by in Hx.
      destruct (pop_edge x y Hx He) as [Hy|(c & Hc & Hy)%elem_of_concat].
      * exists i, (sort_by cmp_string (pre ++ [node])). split; [done|]. rewrite elem_of_sort_by. split; [|done].
        cbn [popped t_components]. rewrite lookup_app_r by done. replace (i - length (t_components st)) with 0 by lia. done.
      * apply list_elem_of_lookup in Hc as [j Hj]. exists j, c. pose proof (lookup_lt_Some _ _ _ Hj).
        split; [lia|]. split; [|done]. by apply lookup_app_l_Some.
  - cbn [t_components]. intros c x y [Hc|Hc]%elem_of_app; [exact (iv_scc _ _ HI c x y Hc)|].
    apply list_elem_of_singleton in Hc as ->. rewrite !elem_of_sort_by. apply pop_whole.
  - cbn [t_components]. intros c [Hc|Hc]%elem_of_app; [exact (iv_shape _ _ HI c Hc)|].
    apply list_elem_of_singleton in Hc as ->. split; [|exact (sort_by_sorted cmp_string _)]. intros E.
    assert (Hin : node ∈ sort_by cmp_string (pre ++ [node])) by (apply elem_of_sort_by, elem_of_app; right; left).
    rewrite E in Hin. by apply not_elem_of_nil in Hin.
  - intros x y Hx Hy. apply (iv_up _ _ HI); by apply Hsub.
  - intros x Hx. destruct (iv_down _ _ HI x (Hsub x Hx)) as (g & [->|Hg]%elem_of_cons & Hle & Hr); [|by exists g].
    change (indexOf popped) with (indexOf st) in *. specialize (Hb x Hx). lia.
  - intros x y Hx Hn He. change (seen popped y) with (seen st y). change (seen popped x) with (seen st x) in Hx.
    destruct (decide (x = node)) as [->|Hxn]; [by apply Hds|]. apply (iv_black _ _ HI x); [done| |done].
    by intros [?|?]%elem_of_cons.
  - apply (iv_known _ _ HI).
Qed.
End Pop.

Lemma leave_visited node gray st0 ds st :
  Inv gray st0 -> ~ seen st0 node -> Frame node gray st0 ds st -> (forall y, edge node y -> y ∈ ds) ->
  visited node gray st0 (leaveT node st).
Proof.
  intros HI0 Hn0 HF Hall. unfold leaveT. case_bool_decide as El; [by eapply leave_stays|].
  destruct HF as [HI Hg (pre & Es & Hpre) _ Hle Hds].
  assert (El' : lowOf st node = indexOf st node) by (destruct (decide (lowOf st node = indexOf st node)); tauto).
  rewrite El' in *. destruct (stack_above _ _ _ _ (iv_sorted _ _ HI) Es) as [_ Ha].
  rewrite Es, popUntil_app by (intros Hp; specialize (Ha node Hp); lia).
  assert (HP : Inv gray (popped node st0 st pre)).
  { apply pop_Inv; try done. intros y He. apply Hds. by apply Hall. }
  split; [exact HP|]. split; [destruct Hg; by constructor|].
  assert (Hns : seen st node) by (apply (stack_seen _ _ HI), (iv_gray _ _ HI); left). split; [exact Hns|].
  exists []. split; [done|]. split; [by intros x y ?%not_elem_of_nil|]. left. split; [done|].
  change (t_index st0 <= lowOf st node). rewrite El'. destruct Hns as [i Hi]. rewrite (indexOf_Some _ _ _ Hi).
  destruct (gr_new _ _ Hg node i Hi) as [H0|]; [|done]. destruct Hn0. by eexists.
Qed.

(** ** The visits *)

Definition unseen (st : tarjan) : list string := filter (fun x => t_indices st !! x = None) (elements (universe deps)).

Lemma unseen_grows st st' : grows st st' -> length (unseen st') <= length (unseen st).
Proof.
  intros H. apply filter_length_le. intros x Hx. destruct (t_indices st !! x) as [i|] eqn:E; [|done].
  apply (gr_indices _ _ H) in E. congruence.
Qed.

Lemma edge_universe x y : edge x y -> x ∈ universe deps /\ y ∈ universe deps.
Proof.
  unfold edge, depsOf, universe. destruct (deps !! x) as [l|] eqn:E; [|by intros ?%not_elem_of_nil]. cbn. intros Hy.
  rewrite !elem_of_union, !elem_of_list_to_set. split; [left; by apply elem_of_dom|]. right.
  apply elem_of_concat. exists l. split; [|done]. apply list_elem_of_fmap. exists (x, l). split; [done|]. by apply elem_of_map_to_list.
Qed.

(** A visit from any state that keeps the invariant. *)
Definition connects (fuel : nat) (con : string -> tarjan -> option tarjan) : Prop :=
  forall node gray st, Inv gray st -> ~ seen st node -> node ∈ universe deps ->
    (forall x, x ∈ t_stack st -> reach x node) -> length (unseen st) <= fuel ->
    exists st', con node st = Some st' /\ visited node gray st st'.

(** One dependency visited that was not seen. *)
Lemma frame_visit node gray st0 ds st d st1 :
  Inv gray st0 -> ~ seen st0 node -> Frame node gray st0 ds st -> edge node d -> ~ seen st d ->
  visited d (node :: gray) st st1 -> Frame node gray st0 (ds ++ [d]) (lower node (lowOf st1 d) st1).
Proof.
  intros HI0 Hn0 [HI Hg (pre & Es & Hpre) (w & Hw & Elw & Hrw) Hle Hds] Hed Hnd (HI1 & Hg1 & Hs1 & pre1 & Es1 & Hpre1 & Hcase).
  assert (Hns : seen st node) by (apply (stack_seen _ _ HI), (iv_gray _ _ HI); left).
  assert (El : lowOf st1 node = lowOf st node) by by apply grows_lowOf.
  assert (Eix : forall x, x ∈ t_stack st -> indexOf st1 x = indexOf st x).
  { intros x Hx. apply grows_indexOf; [done|by apply (stack_seen _ _ HI)]. }
  assert (H0 : forall x, x ∈ t_stack st0 -> x ∈ t_stack st).
  { intros x Hx. rewrite Es. apply elem_of_app. right. by right. }
  set (st2 := lower node (lowOf st1 d) st1).
  assert (E2 : lowOf st2 node = lowOf st node `min` lowOf st1 d) by (unfold st2; rewrite lower_lowOf; by rewrite El).
  assert (EI2 : forall x, indexOf st2 x = indexOf st1 x) by done.
  constructor.
  - by apply lower_Inv.
  - apply lower_grows; [done|]. by transitivity st.
  - exists (pre1 ++ pre). rewrite <-app_assoc, <-Es. split; [done|]. intros x y Hx Hy He. rewrite E2, EI2, Eix by auto.
    apply elem_of_app in Hx as [Hx|Hx].
    + specialize (Hpre1 x y Hx (H0 y Hy) He). rewrite Eix in Hpre1 by auto. lia.
    + specialize (Hpre x y Hx Hy He). lia.
  - rewrite E2. destruct (decide (lowOf st node <= lowOf st1 d)) as [Hmin|Hmin].
    + exists w. rewrite EI2, Eix by done. split; [|split; [lia|done]]. cbn. rewrite Es1. apply elem_of_app. by right.
    + destruct Hcase as [[_ Hb]|(w1 & Hw1 & Ew1 & Hr1)].
      * pose proof (seen_bound _ _ HI w (stack_seen _ _ HI w Hw)). lia.
      * exists w1. rewrite EI2. split; [cbn; rewrite Es1; apply elem_of_app; by right|]. split; [lia|].
        eapply rtc_l; [exact Hed|exact Hr1].
  - rewrite E2, EI2, Eix by (apply (iv_gray _ _ HI); left). lia.
  - intros y [Hy|Hy]%elem_of_app.
    + destruct (Hds y Hy) as [Hsy Hly]. split; [change (seen st1 y); by apply (grows_seen st)|]. intros Hy0. rewrite E2, EI2, Eix by auto.
      specialize (Hly Hy0). lia.
    + apply list_elem_of_singleton in Hy as ->. split; [done|]. intros Hy0. destruct Hnd. by apply (stack_seen _ _ HI), H0.
Qed.

(** One dependency that was seen. *)
Lemma frame_seen node gray st0 ds st d :
  Inv gray st0 -> ~ seen st0 node -> Frame node gray st0 ds st -> edge node d -> seen st d ->
  Frame node gray st0 (ds ++ [d]) (if bool_decide (d ∈ t_onStack st) then lower node (indexOf st d) st else st).
Proof.
  intros HI0 Hn0 [HI Hg (pre & Es & Hpre) (w & Hw & Elw & Hrw) Hle Hds] Hed Hsd.
  assert (H0 : forall x, x ∈ t_stack st0 -> x ∈ t_stack st).
  { intros x Hx. rewrite Es. apply elem_of_app. right. by right. }
  case_bool_decide as Eon.
  - apply (iv_onstack _ _ HI) in Eon. set (st2 := lower node (indexOf st d) st).
    assert (E2 : lowOf st2 node = lowOf st node `min` indexOf st d) by apply lower_lowOf.
    assert (EI2 : forall x, indexOf st2 x = indexOf st x) by done.
    constructor.
    + by apply lower_Inv.
    + by apply lower_grows.
    + exists pre. split; [done|]. intros x y Hx Hy He. specialize (Hpre x y Hx Hy He). rewrite E2, EI2. lia.
    + rewrite E2. destruct (decide (lowOf st node <= indexOf st d)).
      * exists w. rewrite EI2. split; [done|]. split; [lia|done].
      * exists d. rewrite EI2. split; [done|]. split; [lia|]. by apply rtc_once.
    + rewrite E2, EI2. lia.
    + intros y [Hy|Hy]%elem_of_app.
      * destruct (Hds y Hy) as [Hsy Hly]. split; [done|]. intros Hy0. rewrite E2, EI2. specialize (Hly Hy0). lia.
      * apply list_elem_of_singleton in Hy as ->. split; [done|]. intros _. rewrite E2, EI2. lia.
  - constructor; try done.
    + by exists pre.
    + by exists w.
    + intros y [Hy|Hy]%elem_of_app; [by apply Hds|]. apply list_elem_of_singleton in Hy as ->. split; [done|].
      intros Hy0. destruct Eon. by apply (iv_onstack _ _ HI), H0.
Qed.

Lemma visitAll_frame fuel con node gray st0 ds rest st :
  connects fuel con -> Inv gray st0 -> ~ seen st0 node -> Frame node gray st0 ds st ->
  (forall d, d ∈ rest -> edge node d) -> length (unseen st) <= fuel ->
  exists st', visitAll con node rest st = Some st' /\ Frame node gray st0 (ds ++ rest) st'.
Proof.
  intros Hcon HI0 Hn0. revert ds st. induction rest as [|d rest IH]; intros ds st HF Hed Hf; cbn [visitAll].
  { exists st. by rewrite app_nil_r. }
  assert (Hd : edge node d) by (apply Hed; left). assert (Hrest : forall d, d ∈ rest -> edge node d) by (intros; apply Hed; by right).
  assert (Hgo : forall st2, Frame node gray st0 (ds ++ [d]) st2 -> length (unseen st2) <= fuel ->
    exists st', visitAll con node rest st2 = Some st' /\ Frame node gray st0 (ds ++ d :: rest) st').
  { intros st2 HF2 Hf2. destruct (IH (ds ++ [d]) st2 HF2 Hrest Hf2) as (st' & E & HF'). exists st'. split; [done|].
    by rewrite <-app_assoc in HF'. }
  destruct (t_indices st !! d) as [i|] eqn:Ed.
  - assert (Hsd : seen st d) by by eexists. pose proof (frame_seen node gray st0 ds st d HI0 Hn0 HF Hd Hsd) as HF2.
    destruct (bool_decide (d ∈ t_onStack st)); by apply Hgo.
  - assert (Hnd : ~ seen st d) by (unfold seen; rewrite Ed; by intros []).
    pose proof (fm_inv _ _ _ _ _ HF) as HI. destruct (fm_stack _ _ _ _ _ HF) as (pre & Es & _).
    destruct (stack_above _ _ _ _ (iv_sorted _ _ HI) Es) as [Hb _].
    destruct (Hcon d (node :: gray) st) as (st1 & E1 & Hv1); [done|done|by apply (edge_universe node)| |done|].
    { intros x Hx. destruct (iv_down _ _ HI x Hx) as (g & Hgr & Hle & Hr). etrans; [exact Hr|].
      eapply rtc_r; [|exact Hd]. apply (iv_up _ _ HI); [by apply (iv_gray _ _ HI)|apply (iv_gray _ _ HI); left|].
      apply elem_of_cons in Hgr as [->|Hgr]; [done|]. apply (iv_gray _ _ HI0) in Hgr. specialize (Hb g Hgr). lia. }
    rewrite E1. pose proof (frame_visit node gray st0 ds st d st1 HI0 Hn0 HF Hd Hnd Hv1) as HF2. apply Hgo; [exact HF2|].
    destruct Hv1 as (_ & Hg1 & _). change (unseen (lower node (lowOf st1 d) st1)) with (unseen st1).
    pose proof (unseen_grows _ _ Hg1). lia.
Qed.

Lemma connect_connects fuel : connects fuel (connect deps fuel).
Proof.
  induction fuel as [|fuel IH]; intros node gray st0 HI Hn Hu Hr Hf.
  - exfalso. assert (Hin : node ∈ unseen st0).
    { apply list_elem_of_filter. split; [|by apply elem_of_elements]. destruct (t_indices st0 !! node) eqn:E; [|done].
      destruct Hn. by eexists. }
    destruct (unseen st0); [by apply not_elem_of_nil in Hin|simpl in Hf; lia].
  - cbn [connect]. pose proof (enter_frame node gray st0 HI Hn Hu Hr) as HF.
    assert (Hmem : forall d, d ∈ neighborsOf deps node <-> edge node d) by (intros d; unfold neighborsOf; apply elem_of_sort_by).
    destruct (visitAll_frame fuel _ node gray st0 [] (neighborsOf deps node) _ IH HI Hn HF) as (st1 & -> & HF1).
    + intros d. apply Hmem.
    + enough (length (unseen (enterT node st0)) < length (unseen st0)) by lia.
      unfold unseen. apply (filter_length_lt _ _ _ node).
      * intros x. cbn. rewrite lookup_insert_None. tauto.
      * by apply elem_of_elements.
      * destruct (t_indices st0 !! node) eqn:E; [|done]. destruct Hn. by eexists.
      * cbn. by rewrite lookup_insert_eq.
    + eexists. split; [done|]. eapply leave_visited; [done|done|exact HF1|]. intros y Hy. by apply Hmem.
Qed.

Lemma connectAll_ok nodes st :
  Inv [] st -> (forall x, x ∈ nodes -> x ∈ universe deps) ->
  exists st', connectAll deps nodes st = Some st' /\ Inv [] st' /\ grows st st' /\ forall x, x ∈ nodes -> seen st' x.
Proof.
  revert st. induction nodes as [|x nodes IH]; intros st HI Hu; cbn [connectAll].
  { exists st. split_and!; [done..|]. by intros x ?%not_elem_of_nil. }
  assert (Hu' : forall y, y ∈ nodes -> y ∈ universe deps) by (intros; apply Hu; by right).
  destruct (t_indices st !! x) as [i|] eqn:E.
  - destruct (IH st HI Hu') as (st' & -> & HI' & Hg & Hs). exists st'. split_and!; [done..|].
    intros y [->|Hy]%elem_of_cons; [|by apply Hs]. eapply grows_seen; [exact Hg|]. by eexists.
  - destruct (connect_connects (size (universe deps)) x [] st HI) as (st1 & -> & HI1 & Hg1 & Hs1 & _).
    + unfold seen. rewrite E. by intros [].
    + apply Hu. left.
    + intros y Hy. destruct (iv_down _ _ HI y Hy) as (g & ?%not_elem_of_nil & _). done.
    + unfold unseen. rewrite length_filter. done.
    + destruct (IH st1 HI1 Hu') as (st' & -> & HI' & Hg & Hs). exists st'. split_and!; [done|done|by transitivity st1|].
      intros y [->|Hy]%elem_of_cons; [by eapply grows_seen|by apply Hs].
Qed.

(** What the search finds. *)
Record components_ok (comps : list (list string)) : Prop := {
  co_cover : forall x, x ∈ concat comps <-> x ∈ universe deps;
  co_nodup : NoDup (concat comps);
  co_scc : forall c x y, c ∈ comps -> x ∈ c -> y ∈ c <-> same x y;
  co_shape : forall c, c ∈ comps -> c <> [] /\ StronglySorted (cmp_le cmp_string) c;
  co_order : forall i c x y, comps !! i = Some c -> x ∈ c -> edge x y ->
    exists j c', j <= i /\ comps !! j = Some c' /\ y ∈ c'
}.

Lemma components_spec : exists comps, components deps = Some comps /\ components_ok comps.
Proof.
  unfold components. destruct (connectAll_ok (sort_by cmp_string (map_to_list deps).*1) startT Inv_start) as (st & -> & HI & _ & Hs).
  { intros x Hx. rewrite elem_of_sort_by, list_elem_of_fmap in Hx. destruct Hx as ([k l] & -> & Hk%elem_of_map_to_list).
    apply elem_of_union. left. apply elem_of_dom. by eexists. }
  exists (t_components st). split; [done|].
  assert (Hst : t_stack st = []).
  { destruct (t_stack st) as [|x l] eqn:E; [done|]. destruct (iv_down _ _ HI x) as (g & Hg & _); [rewrite E; left|].
    by apply not_elem_of_nil in Hg. }
  assert (Hdone : forall x, seen st x <-> x ∈ concat (t_components st)).
  { intros x. rewrite (iv_seen _ _ HI), Hst. unfold done_. split; [by intros [?%not_elem_of_nil|]|by right]. }
  assert (Hkey : forall x l, deps !! x = Some l -> seen st x).
  { intros x l E. apply Hs, elem_of_sort_by, list_elem_of_fmap. exists (x, l). split; [done|]. by apply elem_of_map_to_list. }
  constructor.
  - intros x. rewrite <-Hdone. split; [apply (iv_known _ _ HI)|]. unfold universe.
    rewrite elem_of_union, elem_of_dom, elem_of_list_to_set. intros [[l E]|Hx]; [by eapply Hkey|].
    apply elem_of_concat in Hx as (l & Hl & Hx). apply list_elem_of_fmap in Hl as ([k l'] & -> & Hk%elem_of_map_to_list).
    apply (iv_black _ _ HI k); [by eapply Hkey|apply not_elem_of_nil|]. unfold edge, depsOf. by rewrite Hk.
  - pose proof (iv_nodup _ _ HI) as Hd. by rewrite Hst, app_nil_r in Hd.
  - apply (iv_scc _ _ HI).
  - apply (iv_shape _ _ HI).
  - apply (iv_order _ _ HI).
Qed.

(** ** The order of the components *)

Lemma concat_unique {A} (ls : list (list A)) i j l l' x :
  NoDup (concat ls) -> ls !! i = Some l -> ls !! j = Some l' -> x ∈ l -> x ∈ l' -> i = j.
Proof.
  revert i j. induction ls as [|l0 ls IH]; [done|]. cbn [concat]. intros i j (_ & Hd & Hn)%NoDup_app Hi Hj Hx Hx'.
  destruct i as [|i], j as [|j]; cbn in Hi, Hj; [done| | |].
  - injection Hi as ->. exfalso. apply (Hd x Hx). apply elem_of_concat. exists l'. split; [by eapply list_elem_of_lookup_2|done].
  - injection Hj as ->. exfalso. apply (Hd x Hx'). apply elem_of_concat. exists l. split; [by eapply list_elem_of_lookup_2|done].
  - f_equal. by eapply IH.
Qed.

Lemma insert_members_lookup (members : list string) (i : nat) (m : gmap string nat) x :
  fold_left (fun m x => <[x := i]> m) members m !! x = if decide (x ∈ members) then Some i else m !! x.
Proof.
  revert m. induction members as [|y members IH]; intros m; cbn [fold_left]; [done|]. rewrite IH.
  destruct (decide (x ∈ members)); [by rewrite decide_True by (by right)|].
  destruct (decide (x = y)) as [->|Hne]; [by rewrite lookup_insert_eq, decide_True by left|].
  rewrite lookup_insert_ne by done. rewrite decide_False; [done|]. by intros [?|?]%elem_of_cons.
Qed.

Section Condensation.
Context (comps : list (list string)).
Hypothesis HC : components_ok comps.

Notation n := (length comps).

Lemma componentByNode_lookup x i :
  componentByNode comps !! x = Some i <-> exists c, comps !! i = Some c /\ x ∈ c.
Proof.
  assert (Hf : forall (l : list (nat * list string)) (m : gmap string nat),
    let m' := fold_left (fun m '(i, members) => fold_left (fun m x => <[x := i]> m) members m) l m in
    (forall j, m' !! x = Some j -> (exists ms, (j, ms) ∈ l /\ x ∈ ms) \/ m !! x = Some j) /\
    (is_Some (m !! x) \/ (exists j ms, (j, ms) ∈ l /\ x ∈ ms) -> is_Some (m' !! x))).
  { induction l as [|[j ms] l IH]; intros m; cbn [fold_left].
    - split; [by right|]. by intros [?|(j & ms & ?%not_elem_of_nil & _)].
    - destruct (IH (fold_left (fun m x => <[x := j]> m) ms m)) as [H1 H2]. split.
      + intros k [(ms' & Hin & Hx)|Hk]%H1; [left; exists ms'; split; [by right|done]|].
        rewrite insert_members_lookup in Hk. destruct (decide (x ∈ ms)); [|by right].
        injection Hk as ->. left. exists ms. split; [left|done].
      + intros Hor. apply H2. rewrite insert_members_lookup. destruct (decide (x ∈ ms)); [left; by eexists|].
        destruct Hor as [?|(k & ms' & [[= -> ->]|Hin]%elem_of_cons & Hx)]; [by left|done|]. right. by exists k, ms'. }
  assert (Him : forall j ms, (j, ms) ∈ imap (fun i members => (i, members)) comps <-> comps !! j = Some ms).
  { intros j ms. rewrite elem_of_lookup_imap. split; [by intros (k & y & [= -> ->] & E)|]. intros E. by exists j, ms. }
  destruct (Hf (imap (fun i members => (i, members)) comps) ∅) as [H1 H2]. fold (componentByNode comps) in H1, H2. split.
  - intros [(ms & Hin%Him & Hx)|Hk]%H1; [by exists ms|]. by rewrite lookup_empty in Hk.
  - intros (c & Hc & Hx). destruct H2 as [j Hj]; [right; exists i, c; split; [by apply Him|done]|].
    destruct (H1 j Hj) as [(ms & Hin%Him & Hx')|Hk]; [|by rewrite lookup_empty in Hk].
    rewrite Hj. f_equal. by eapply concat_unique; [apply co_nodup|..].
Qed.

Lemma componentOf_in x i c : comps !! i = Some c -> x ∈ c -> componentOf comps x = i.
Proof. intros Hi Hx. unfold componentOf. rewrite (proj2 (componentByNode_lookup x i)); [done|by exists c]. Qed.

(** A dependency between components: to one found earlier. *)
Definition needsC (a b : nat) : Prop := a <> b /\ exists x y, edge x y /\ componentOf comps x = a /\ componentOf comps y = b.

Lemma componentEdges_spec a b : (a, b) ∈ componentEdges deps comps <-> needsC a b.
Proof.
  unfold componentEdges, needsC. rewrite list_elem_of_filter. cbn [fst snd]. apply and_iff_compat_l.
  rewrite elem_of_concat. split.
  - intros (l & Hl & Hab). apply list_elem_of_fmap in Hl as ([x ds] & -> & Hx%elem_of_map_to_list).
    apply list_elem_of_fmap in Hab as (y & [= -> ->] & Hy). exists x, y. split; [|done]. unfold edge, depsOf. by rewrite Hx.
  - intros (x & y & He & <- & <-). unfold edge, depsOf in He. destruct (deps !! x) as [ds|] eqn:E; [|by apply not_elem_of_nil in He].
    exists (map (fun d => (componentOf comps x, componentOf comps d)) ds). split.
    + apply list_elem_of_fmap. exists (x, ds). split; [done|]. by apply elem_of_map_to_list.
    + apply list_elem_of_fmap. by exists y.
Qed.

Lemma needsC_lt a b : needsC a b -> b < a < n.
Proof.
  intros (Hne & x & y & He & <- & <-). destruct (edge_universe x y He) as [Hx _].
  apply (co_cover _ HC) in Hx as (c & [i Hi]%list_elem_of_lookup & Hx)%elem_of_concat.
  destruct (co_order _ HC i c x y Hi Hx He) as (j & c' & Hle & Hj & Hy).
  rewrite (componentOf_in x i c Hi Hx), (componentOf_in y j c' Hj Hy) in *. pose proof (lookup_lt_Some _ _ _ Hi). lia.
Qed.

Lemma componentDeps_spec a b : b ∈ componentDeps deps comps a <-> needsC a b.
Proof.
  unfold componentDeps. rewrite elem_of_list_to_set, list_elem_of_fmap, <-componentEdges_spec. split.
  - intros ([a' b'] & -> & [Ha Hin]%list_elem_of_filter). cbn in *. by subst.
  - intros H. exists (a, b). split; [done|]. by apply list_elem_of_filter.
Qed.

Lemma dependents_spec a b : a ∈ dependents deps comps b <-> needsC a b.
Proof.
  unfold dependents. rewrite elem_of_list_to_set, list_elem_of_fmap, <-componentEdges_spec. split.
  - intros ([a' b'] & -> & [Ha Hin]%list_elem_of_filter). cbn in *. by subst.
  - intros H. exists (a, b). split; [done|]. by apply list_elem_of_filter.
Qed.

(** ** The queue *)

Definition leftOf (pending : gmap nat (gset nat)) (d : nat) : gset nat := default ∅ (pending !! d).

Lemma release_all c ds pending ready :
  NoDup ds ->
  exists pending', fold_left (release c) ds (pending, ready) =
      (pending', ready ++ filter (fun d => leftOf pending d ∖ {[c]} = ∅) ds) /\
    forall d, leftOf pending' d = if decide (d ∈ ds) then leftOf pending d ∖ {[c]} else leftOf pending d.
Proof.
  revert pending ready. induction ds as [|d ds IH]; intros pending ready; cbn [fold_left].
  { exists pending. by rewrite app_nil_r. }
  intros [Hd Hn]%NoDup_cons. unfold release at 2. fold (leftOf pending d).
  set (left_ := leftOf pending d ∖ {[c]}). set (pending1 := <[d := left_]> pending).
  assert (Hl1 : forall e, leftOf pending1 e = if decide (e = d) then left_ else leftOf pending e).
  { intros e. unfold leftOf, pending1. destruct (decide (e = d)) as [->|]; [by rewrite lookup_insert_eq|by rewrite lookup_insert_ne]. }
  destruct (IH pending1 (if bool_decide (left_ = ∅) then ready ++ [d] else ready) Hn) as (pending' & E & Hl).
  exists pending'. split.
  - rewrite E. f_equal. rewrite filter_cons. fold left_.
    assert (Ef : filter (fun e => leftOf pending1 e ∖ {[c]} = ∅) ds = filter (fun e => leftOf pending e ∖ {[c]} = ∅) ds).
    { apply list_filter_ext. intros e He. rewrite Hl1, decide_False; [done|]. by intros ->. }
    rewrite Ef. destruct (decide (left_ = ∅)); [rewrite bool_decide_true by done; by rewrite <-app_assoc|by rewrite bool_decide_false].
  - intros e. rewrite Hl, !Hl1. destruct (decide (e = d)) as [->|Hne].
    + rewrite decide_False by done. by rewrite decide_True by left.
    + destruct (decide (e ∈ ds)); [by rewrite decide_True by (by right)|]. rewrite decide_False; [done|].
      by intros [?|?]%elem_of_cons.
Qed.

Record queue_ok (out : list nat) (pending : gmap nat (gset nat)) (ready : list nat) : Prop := {
  qu_left : forall d, d < n -> leftOf pending d = componentDeps deps comps d ∖ list_to_set out;
  qu_ready : forall c, c ∈ ready <-> c < n /\ c ∉ out /\ forall b, needsC c b -> b ∈ out;
  qu_nodup : NoDup (out ++ ready);
  qu_out : forall c, c ∈ out -> c < n;
  qu_closed : forall l1 c l2, out = l1 ++ c :: l2 -> forall b, needsC c b -> b ∈ l1
}.

Lemma closed_in_out out pending ready c b : queue_ok out pending ready -> c ∈ out -> needsC c b -> b ∈ out.
Proof.
  intros HQ (l1 & l2 & E)%list_elem_of_split Hb. rewrite E. apply elem_of_app. left. by eapply qu_closed.
Qed.

Lemma queue_step out pending c ready :
  queue_ok out pending (c :: ready) ->
  exists pending' ready', fold_left (release c) (elements (dependents deps comps c)) (pending, ready) = (pending', ready') /\
    queue_ok (out ++ [c]) pending' (sortComponents comps ready').
Proof.
  intros HQ. destruct (proj1 (qu_ready _ _ _ HQ c) ltac:(left)) as (Hcn & Hco & Hcb).
  destruct (release_all c (elements (dependents deps comps c)) pending ready (NoDup_elements _)) as (pending' & -> & Hl).
  eexists _, _. split; [done|].
  assert (Hleft : forall d, d < n -> leftOf pending' d = componentDeps deps comps d ∖ list_to_set (out ++ [c])).
  { intros d Hd. rewrite Hl. destruct (decide (d ∈ elements (dependents deps comps c))) as [Hin|Hin].
    - rewrite (qu_left _ _ _ HQ) by done. apply leibniz_equiv. intros b. rewrite !elem_of_difference, !elem_of_list_to_set.
      set_solver.
    - rewrite (qu_left _ _ _ HQ) by done. rewrite elem_of_elements, dependents_spec in Hin. apply leibniz_equiv. intros b.
      rewrite !elem_of_difference, !elem_of_list_to_set, componentDeps_spec, elem_of_app, list_elem_of_singleton.
      split; [|tauto]. intros [Hb Ho]. split; [done|]. intros [?| ->]; [done|]. by apply Hin. }
  assert (Hnew : forall d, d ∈ filter (fun d => leftOf pending d ∖ {[c]} = ∅) (elements (dependents deps comps c)) <->
            needsC d c /\ forall b, needsC d b -> b ∈ out ++ [c]).
  { intros d. rewrite list_elem_of_filter, elem_of_elements, dependents_spec. split.
    - intros [He Hd]. split; [done|]. intros b Hb. destruct (needsC_lt d c Hd) as [_ Hdn].
      rewrite (qu_left _ _ _ HQ) in He by done. destruct (decide (b ∈ out ++ [c])) as [|Hnb]; [done|]. exfalso.
      assert (Hbin : b ∈ (componentDeps deps comps d ∖ list_to_set out) ∖ ({[c]} : gset nat)).
      { rewrite elem_of_app, list_elem_of_singleton in Hnb. rewrite !elem_of_difference, elem_of_list_to_set, componentDeps_spec, elem_of_singleton. tauto. }
      rewrite He in Hbin. by apply elem_of_empty in Hbin.
    - intros [Hd Hb]. split; [|done]. destruct (needsC_lt d c Hd) as [_ Hdn]. rewrite (qu_left _ _ _ HQ) by done.
      apply leibniz_equiv. intros b. rewrite !elem_of_difference, elem_of_list_to_set, componentDeps_spec, elem_of_singleton.
      split; [|by intros ?%elem_of_empty]. intros [[Hbd Ho] Hne]. specialize (Hb b Hbd).
      rewrite elem_of_app, list_elem_of_singleton in Hb. tauto. }
  assert (Hdout : forall d, needsC d c -> d ∉ out).
  { intros d Hd Ho. apply Hco. by eapply closed_in_out. }
  assert (Hnd : NoDup (out ++ c :: ready)) by apply (qu_nodup _ _ _ HQ).
  assert (Hcr : c ∉ ready).
  { apply NoDup_app in Hnd as (_ & _ & [? _]%NoDup_cons). done. }
  constructor.
  - exact Hleft.
  - intros d. unfold sortComponents. rewrite elem_of_sort_by, elem_of_app, Hnew.
    split.
    + intros [Hd|[Hd Hb]].
      * destruct (proj1 (qu_ready _ _ _ HQ d) ltac:(by right)) as (? & ? & Hb). split; [done|].
        rewrite elem_of_app, list_elem_of_singleton. split; [by intros [?| ->]|]. intros b Hb'. apply elem_of_app. left. auto.
      * destruct (needsC_lt d c Hd) as [? ?]. split; [done|]. rewrite elem_of_app, list_elem_of_singleton.
        split; [|done]. intros [?| ->]; [by apply (Hdout d)|]. by destruct Hd.
    + intros (Hdn & Hdo & Hb). rewrite elem_of_app, list_elem_of_singleton in Hdo.
      destruct (decide (d ∈ elements (dependents deps comps c))) as [Hin|Hin];
        rewrite elem_of_elements, dependents_spec in Hin; [by right|]. left.
      assert (Hr : d ∈ c :: ready).
      { apply (qu_ready _ _ _ HQ). split; [done|]. split; [tauto|]. intros b Hb'. specialize (Hb b Hb').
        rewrite elem_of_app, list_elem_of_singleton in Hb. destruct Hb as [?| ->]; [done|]. done. }
      apply elem_of_cons in Hr as [->|?]; [|done]. tauto.
  - unfold sortComponents. rewrite sort_by_perm, <-app_assoc. cbn [app].
    rewrite app_comm_cons, app_assoc. apply NoDup_app. split; [exact Hnd|]. split.
    + intros d Hd [Hdc _]%Hnew. apply elem_of_app in Hd as [Hd|[->|Hd]%elem_of_cons].
      * by apply (Hdout d).
      * by destruct Hdc.
      * destruct (proj1 (qu_ready _ _ _ HQ d) ltac:(by right)) as (_ & _ & Hb). by apply Hco, Hb.
    + apply NoDup_filter, NoDup_elements.
  - intros d [Hd|Hd]%elem_of_app; [by apply (qu_out _ _ _ HQ)|]. by apply list_elem_of_singleton in Hd as ->.
  - intros l1 d l2 E b Hb. destruct l2 as [|y l2 _] using rev_ind.
    + apply app_inj_tail in E as [<- <-]. by apply Hcb.
    + rewrite app_comm_cons, app_assoc in E. apply app_inj_tail in E as [E _]. by eapply qu_closed.
Qed.
(** While components are left one is ready: the first of them found. *)
Lemma queue_empty out pending : queue_ok out pending [] -> forall c, c < n -> c ∈ out.
Proof.
  intros HQ c. induction (lt_wf c) as [c _ IH]. intros Hc. destruct (decide (c ∈ out)) as [|Hn]; [done|].
  assert (Hr : c ∈ []); [|by apply not_elem_of_nil in Hr]. apply (qu_ready _ _ _ HQ). split; [done|]. split; [done|].
  intros b Hb. destruct (needsC_lt c b Hb). apply IH; [done|lia].
Qed.

Lemma queue_length out pending ready : queue_ok out pending ready -> length (out ++ ready) <= n.
Proof.
  intros HQ. rewrite <-(length_seq n 0). apply submseteq_length, NoDup_submseteq; [apply (qu_nodup _ _ _ HQ)|].
  intros c [Hc|Hc]%elem_of_app; apply elem_of_seq; split; [lia| |lia|].
  - by apply (qu_out _ _ _ HQ).
  - by apply (qu_ready _ _ _ HQ).
Qed.

Lemma orderLoop_ok fuel out pending ready :
  queue_ok out pending ready -> n <= length out + fuel ->
  exists l pending', orderLoop deps comps fuel pending ready = Some l /\ queue_ok (out ++ l) pending' [].
Proof.
  revert out pending ready. induction fuel as [|fuel IH]; intros out pending ready HQ Hf;
    (destruct ready as [|c ready]; [exists [], pending; by rewrite app_nil_r|]); cbn [orderLoop].
  - exfalso. pose proof (queue_length _ _ _ HQ) as HL. rewrite length_app in HL. simpl in HL. lia.
  - destruct (queue_step _ _ _ _ HQ) as (pending' & ready' & -> & HQ').
    destruct (IH _ _ _ HQ') as (l & pending2 & -> & HQ2); [rewrite length_app; simpl; lia|].
    exists (c :: l), pending2. split; [done|]. by rewrite <-app_assoc in HQ2.
Qed.

Lemma orderComponents_spec :
  exists l, orderComponents deps comps = Some (map (componentAt deps comps) l) /\ l ≡ₚ seq 0 n /\
    forall l1 c l2, l = l1 ++ c :: l2 -> forall b, needsC c b -> b ∈ l1.
Proof.
  unfold orderComponents. cbv zeta. set (pending := list_to_map _). set (ready := sortComponents comps _).
  assert (HQ : queue_ok [] pending ready).
  { constructor.
    - intros d Hd. unfold leftOf, pending. change (list_to_set [] : gset nat) with (∅ : gset nat). rewrite difference_empty_L.
      assert (E : (list_to_map (map (fun c => (c, componentDeps deps comps c)) (seq 0 n)) : gmap nat (gset nat)) !! d
                  = Some (componentDeps deps comps d)); [|by rewrite E].
      apply elem_of_list_to_map_1.
      + rewrite <-list_fmap_compose. change (NoDup ((fun c => c) <$> seq 0 n)). rewrite list_fmap_id. apply NoDup_seq.
      + apply list_elem_of_fmap. exists d. split; [done|]. apply elem_of_seq. lia.
    - intros c. unfold ready, sortComponents. rewrite elem_of_sort_by, list_elem_of_filter, elem_of_seq. split.
      + intros [He Hc]. split; [lia|]. split; [apply not_elem_of_nil|]. intros b Hb%componentDeps_spec.
        rewrite He in Hb. by apply elem_of_empty in Hb.
      + intros (Hc & _ & Hb). split; [|lia]. apply leibniz_equiv. intros b. rewrite componentDeps_spec. split.
        * intros H%Hb. by apply not_elem_of_nil in H.
        * by intros ?%elem_of_empty.
    - cbn. unfold ready, sortComponents. rewrite sort_by_perm. apply NoDup_filter, NoDup_seq.
    - by intros c ?%not_elem_of_nil.
    - intros l1 c l2 E. by destruct l1. }
  destruct (orderLoop_ok n [] pending ready HQ (le_n _)) as (l & pending' & -> & HQ').
  cbn [app] in HQ'. exists l. split; [done|]. split; [|apply (qu_closed _ _ _ HQ')].
  apply NoDup_Permutation.
  - pose proof (qu_nodup _ _ _ HQ') as Hn. by rewrite app_nil_r in Hn.
  - apply NoDup_seq.
  - intros c. rewrite elem_of_seq. split.
    + intros Hc%(qu_out _ _ _ HQ'). lia.
    + intros [_ Hc]. by apply (queue_empty _ _ HQ').
Qed.

(** ** Cycles *)

Lemma tc_reach x y : tc edge x y -> reach x y.
Proof. induction 1 as [x y He|x y z He _ IH]; [by apply rtc_once|by eapply rtc_l]. Qed.

(** A component is marked cyclic when one of its nodes comes back to itself. *)
Lemma componentAt_cyclic i c :
  comps !! i = Some c -> dc_cyclic (componentAt deps comps i) = true <-> exists x, x ∈ c /\ tc edge x x.
Proof.
  intros Hi. assert (Hc : c ∈ comps) by by eapply list_elem_of_lookup_2. unfold componentAt, membersOf. rewrite Hi. cbn [default dc_cyclic].
  destruct (co_shape _ HC c Hc) as [Hne _]. assert (Hnd : NoDup c).
  { pose proof (co_nodup _ HC) as Hn. apply list_elem_of_split in Hc as (l1 & l2 & E). rewrite E, concat_app in Hn.
    apply NoDup_app in Hn as (_ & _ & Hn). cbn in Hn. by apply NoDup_app in Hn as (? & _). }
  rewrite orb_true_iff, Nat.ltb_lt. destruct c as [|x c]; [done|]. unfold id. rewrite bool_decide_eq_true. split.
  - intros [Hl|He]; [|exists x; split; [left|by apply tc_once]]. destruct c as [|y c]; [simpl in Hl; lia|].
    exists x. split; [left|]. destruct (proj1 (co_scc _ HC (x :: y :: c) x y Hc ltac:(left)) ltac:(right; left)) as [Hxy Hyx].
    assert (Hd : x <> y) by (apply NoDup_cons in Hnd as [Hn _]; intros ->; apply Hn; left).
    eapply tc_rtc_l; [exact Hxy|]. apply rtc_tc in Hyx as [E|]; [by subst|done].
  - intros (y & Hy & Ht). destruct c as [|z c].
    + right. apply list_elem_of_singleton in Hy as ->. inversion Ht as [? ? He|? z ? He Hz]; subst; [done|].
      assert (Hin : z ∈ [x]).
      { apply (co_scc _ HC [x] x z Hc); [left|]. split; [by apply rtc_once|]. by apply tc_reach. }
      apply list_elem_of_singleton in Hin as ->. done.
    + left. simpl. lia.
Qed.
Lemma members_of_all (l : list nat) :
  l ≡ₚ seq 0 n -> map dc_nodes (map (componentAt deps comps) l) ≡ₚ comps.
Proof.
  intros ->. rewrite map_map. cbn [componentAt dc_nodes].
  enough (E : map (membersOf comps) (seq 0 n) = comps) by (rewrite <-E at 2; done).
  apply list_eq. intros i. change (map (membersOf comps) (seq 0 n)) with (membersOf comps <$> seq 0 n).
  rewrite list_lookup_fmap. destruct (decide (i < n)) as [Hi|Hi].
  - rewrite lookup_seq_lt by lia. cbn. unfold membersOf. destruct (lookup_lt_is_Some_2 comps i Hi) as [c Hc]. by rewrite Hc.
  - rewrite lookup_seq_ge by lia. symmetry. apply lookup_ge_None. lia.
Qed.
(** A dependency of a node of the component [i] is in [i] or in one that [i] needs. *)
Lemma component_edge i c x y :
  comps !! i = Some c -> x ∈ c -> edge x y ->
  exists j, y ∈ membersOf comps j /\ (j = i \/ needsC i j).
Proof.
  intros Hi Hx He. destruct (co_order _ HC i c x y Hi Hx He) as (j & c' & _ & Hj & Hy).
  exists j. unfold membersOf. rewrite Hj. split; [done|]. destruct (decide (j = i)) as [|Hne]; [by left|]. right.
  split; [done|]. exists x, y. split; [done|]. by rewrite (componentOf_in x i c), (componentOf_in y j c').
Qed.
End Condensation.
End Components.

(** What the ordered components of a graph are. *)
Record ordered_ok (deps : gmap string (list string)) (ordered : list dependencyComponent) : Prop := {
  oo_nodup : NoDup (concat (map dc_nodes ordered));
  oo_cover : forall x, x ∈ concat (map dc_nodes ordered) <-> x ∈ universe deps;
  oo_sorted : forall c, c ∈ ordered -> dc_nodes c <> [] /\ StronglySorted (cmp_le cmp_string) (dc_nodes c);
  oo_scc : forall c x y, c ∈ ordered -> x ∈ dc_nodes c -> y ∈ dc_nodes c <-> same deps x y;
  oo_cyclic : forall c, c ∈ ordered -> dc_cyclic c = true <-> exists x, x ∈ dc_nodes c /\ tc (edge deps) x x;
  oo_first : forall l1 c l2 x y, ordered = l1 ++ c :: l2 -> x ∈ dc_nodes c -> edge deps x y ->
    y ∈ dc_nodes c \/ exists c', c' ∈ l1 /\ y ∈ dc_nodes c'
}.

Lemma dependencyComponents_ok deps :
  exists ordered, dependencyComponents deps = Some ordered /\ ordered_ok deps ordered.
Proof.
  destruct (components_spec deps) as (comps & E & HC). unfold dependencyComponents. rewrite E.
  destruct (orderComponents_spec deps comps HC) as (l & -> & Hl & Hf).
  exists (map (componentAt deps comps) l). split; [done|].
  pose proof (members_of_all deps comps l Hl) as Hm.
  assert (Hin : forall c, c ∈ map (componentAt deps comps) l ->
      exists i, c = componentAt deps comps i /\ comps !! i = Some (dc_nodes c)).
  { intros c (i & -> & Hi)%list_elem_of_fmap. exists i. split; [done|]. cbn. unfold membersOf.
    rewrite Hl, elem_of_seq in Hi. destruct (lookup_lt_is_Some_2 comps i ltac:(lia)) as [m Hm']. by rewrite Hm'. }
  constructor.
  - rewrite Hm. apply (co_nodup _ _ HC).
  - intros x. rewrite Hm. apply (co_cover _ _ HC).
  - intros c (i & _ & Hi)%Hin. apply (co_shape _ _ HC). by eapply list_elem_of_lookup_2.
  - intros c x y (i & _ & Hi)%Hin. apply (co_scc _ _ HC). by eapply list_elem_of_lookup_2.
  - intros c (i & E1 & Hi)%Hin. rewrite E1 at 1. by apply componentAt_cyclic.
  - intros l1 c l2 x y E1 Hx He. apply map_eq_app in E1 as (a & b & -> & <- & E1).
    destruct b as [|i b]; [done|]. injection E1 as <- <-. destruct (Hin (componentAt deps comps i)) as (i' & E1 & Hi').
    { apply list_elem_of_fmap. exists i. split; [done|]. apply elem_of_app. right. left. }
    assert (Hi : comps !! i = Some (membersOf comps i)).
    { assert (Hin' : i ∈ seq 0 (length comps)) by (rewrite <-Hl; apply elem_of_app; right; left).
      apply elem_of_seq in Hin'. unfold membersOf. destruct (lookup_lt_is_Some_2 comps i ltac:(lia)) as [m Hm']. by rewrite Hm'. }
    destruct (component_edge deps comps HC i _ x y Hi Hx He) as (j & Hy & [->|Hj]); [by left|]. right.
    exists (componentAt deps comps j). split; [|done]. apply list_elem_of_fmap. exists j. split; [done|]. by apply (Hf a i b).
Qed.

(** C23: [dependencyComponents] takes as many steps as it has nodes and returns the
    strongly connected components of the graph: every node, as a key or mentioned, in
    exactly one, with the nodes that reach it and that it reaches, sorted; a component is
    marked cyclic exactly when a path leads from one of its nodes back to itself; and a
    dependency of a node is in the node's component or in one listed before it. *)
Theorem dependency_components_are_exact deps :
  exists ordered, dependencyComponents deps = Some ordered /\ ordered_ok deps ordered.
Proof. apply dependencyComponents_ok. Qed.
