(* ===== verification/AssetStore.v ===== *)
(** Roots, importmap entries, manifests and the [Mapper]: src/assets/assets.go, asset.go,
    handler.go, hash.go, manifest.go, and the parts of importmap.go and vendor.go they use.

    A file system is the list of its files in the order a walk visits them, each with its
    bytes or none where reading it fails. SHA-256, the mime table, JSON and base64 are
    arguments. *)

From S2P Require Import Prelude.
From S2P Require Import Order.
From S2P Require Import Strconv.
From S2P Require Import Strings.
From S2P Require Import AssetPath.
From S2P Require Import AssetScan.
From S2P Require Import AssetRewrite.

Local Open Scope go_scope.

(** ** File systems and roots *)

(** [fs_broken]: the walk itself reports an error at some directory. *)
Record fileSystem := mkFs { fs_files : list (string * option bytes); fs_broken : bool }.

(** [None]: no such file, or a directory; [Some None]: a file that cannot be read. *)
Definition fileAt (f : fileSystem) (path : string) : option (option bytes) :=
  snd <$> find (fun e => bool_decide (e.1 = path)) (fs_files f).

(** [fs.Sub(f, dir)] for a valid [dir] *)
Definition Sub (f : fileSystem) (dir : string) : fileSystem :=
  mkFs (omap (fun '(path, c) => (fun rest => (rest, c)) <$> CutPrefix path (dir +:+ "/")) (fs_files f)) (fs_broken f).

Record Root := mkRoot { FS : option fileSystem; Dir_ : string; MountAt : string }.

Inductive assetError :=
| NoRoots
| NilFS (i : nat)
| BadDir (i : nat) (f : mountFault)
| BadMount (i : nat) (f : mountFault)
| BadPrefix
| NotFound (logical : string)
| ReadFailed (path : string)
| WalkFailed
| PrefixMismatch
| BadManifestPath (p : string)
| UnknownDependency (p : string)
| TwoImportmaps
| BadImportmap
| EntryEmpty (key : string)
| EntryBoth (key : string)
| EntryType (key : string)
| EntryUnknown (key : string)
| MissingAsset (importer spec : string)
| OutsideRoots (importer spec : string)
| RootRelative (importer spec : string)
| UnknownBare (importer spec : string)
| Collision (first second output : string)
| Shadowed (logical output : string)
| SourceChanged (logical : string).

(** The roots from the [i]-th on. *)
Fixpoint normalizeRoots_ (i : nat) (roots : list Root) : result assetError (list Root) :=
  match roots with
  | [] => Ok []
  | r :: roots =>
      match FS r with
      | None => Err (NilFS i)
      | Some f =>
          match validateMount (Dir_ r) with
          | Some e => Err (BadDir i e)
          | None =>
              match validateMount (MountAt r) with
              | Some e => Err (BadMount i e)
              | None =>
                  let r := if bool_decide (Dir_ r = EmptyString) then r
                           else mkRoot (Some (Sub f (Dir_ r))) EmptyString (MountAt r) in
                  let? out := normalizeRoots_ (S i) roots in Ok (r :: out)
              end
          end
      end
  end.

Definition normalizeRoots (roots : list Root) : result assetError (list Root) :=
  match roots with [] => Err NoRoots | _ => normalizeRoots_ 0 roots end.

Definition ImportmapFilename : string := "importmap.json".
Definition VendorLockFilename : string := "vendor.lock.json".
Definition VendorTransactionFilename : string := "vendor.transaction.json".
Definition VendorDir : string := "vendor".

(** Configuration at the top of a root, which is not an asset. *)
Definition isConfig (sub : string) : bool :=
  bool_decide (sub = ImportmapFilename) || bool_decide (sub = VendorLockFilename)
  || bool_decide (sub = VendorTransactionFilename).

Definition rootFile (r : Root) (sub : string) : option (option bytes) :=
  match FS r with Some f => fileAt f sub | None => None end.

(** What [resolveFile] makes of a cleaned path under one root; [None]: it moves on. *)
Definition resolveIn (r : Root) (cleaned : string) : option string :=
  let sub :=
    if bool_decide (MountAt r = EmptyString) then Some cleaned
    else if negb (HasPrefix cleaned (MountAt r +:+ "/")) && negb (bool_decide (cleaned = MountAt r)) then None
    else let sub := TrimPrefix (TrimPrefix cleaned (MountAt r)) "/" in
         if bool_decide (sub = EmptyString) then None else Some sub in
  match sub with
  | Some sub =>
      if isConfig sub then None
      else match rootFile r sub with Some _ => Some sub | None => None end
  | None => None
  end.

Fixpoint resolveRoots (roots : list Root) (cleaned : string) : option (Root * string) :=
  match roots with
  | [] => None
  | r :: roots => match resolveIn r cleaned with Some sub => Some (r, sub) | None => resolveRoots roots cleaned end
  end.

Definition resolveFile (roots : list Root) (logicalPath : string) : result assetError (Root * string) :=
  let cleaned := cleanLogical logicalPath in
  if bool_decide (cleaned = EmptyString) then Err (NotFound logicalPath)
  else match resolveRoots roots cleaned with Some found => Ok found | None => Err (NotFound logicalPath) end.

(** ** Importmap entries *)

Record ImportmapEntry := mkEntry { Path : string; Version : string; Type_ : string; Entrypoint : bool }.
Definition Importmap : Type := gmap string ImportmapEntry.

Definition extensionOf (e : ImportmapEntry) : string := if bool_decide (Type_ e = "css") then ".css" else ".js".

Definition logicalForEntry (spec : string) (e : ImportmapEntry) : string :=
  if negb (bool_decide (Path e = EmptyString)) then Path e
  else if bool_decide (Version e = EmptyString) then EmptyString
  else "vendor/" +:+ spec +:+ extensionOf e.

(** ** Manifests *)

Record Manifest := mkManifest {
  URLPrefix : string;
  Entries : gmap string string;
  Dependencies : option (gmap string (list string))
}.

Definition NewManifest : Manifest := mkManifest EmptyString ∅ None.

Definition Lookup (m : Manifest) (logicalPath : string) : option string := Entries m !! logicalPath.

(** The fault of a manifest path, if it has one. *)
Inductive pathFault := EmptyPath | Backslash | BadPath (f : mountFault).

Definition validateManifestPath (p : string) : option pathFault :=
  if bool_decide (p = EmptyString) then Some EmptyPath
  else if negb (free_of backslash p) then Some Backslash
  else BadPath <$> validateMount p.

Definition validManifestPath (p : string) : bool := bool_decide (validateManifestPath p = None).

(** The loops take the maps' keys in some order, which decides only the error reported. *)
Fixpoint checkEntries (entries : list (string * string)) : option assetError :=
  match entries with
  | [] => None
  | (logical, output) :: entries =>
      if negb (validManifestPath logical) then Some (BadManifestPath logical)
      else if negb (validManifestPath output) then Some (BadManifestPath output)
      else checkEntries entries
  end.

Fixpoint checkNamed (known : gmap string string) (paths : list string) : option assetError :=
  match paths with
  | [] => None
  | p :: paths =>
      if negb (validManifestPath p) then Some (BadManifestPath p)
      else match known !! p with None => Some (UnknownDependency p) | Some _ => checkNamed known paths end
  end.

Fixpoint checkDependencies (known : gmap string string) (deps : list (string * list string)) : option assetError :=
  match deps with
  | [] => None
  | (logical, ds) :: deps =>
      match checkNamed known (logical :: ds) with Some e => Some e | None => checkDependencies known deps end
  end.

Definition snapshotManifest (src : option Manifest) : result assetError (option Manifest) :=
  match src with
  | None => Ok None
  | Some m =>
      check? checkEntries (map_to_list (Entries m));;
      match Dependencies m with
      | None => Ok (Some m)
      | Some deps => check? checkDependencies (Entries m) (map_to_list deps);; Ok (Some m)
      end
  end.

(** ** The mapper *)

(** No manifest: the development mode. *)
Record Mapper := mkMapper { roots : list Root; urlPrefix : string; manifest : option Manifest }.

Definition New (rs : list Root) (prefix : string) (m : option Manifest) : result assetError Mapper :=
  let? rs := normalizeRoots rs in
  match normalizeURLPrefix prefix with
  | None => Err BadPrefix
  | Some prefix =>
      let? m := snapshotManifest m in
      match m with
      | Some mf =>
          if bool_decide (URLPrefix mf = EmptyString) then Ok (mkMapper rs prefix m)
          else match normalizeURLPrefix (URLPrefix mf) with
               | None => Err BadPrefix
               | Some p => if bool_decide (p = prefix) then Ok (mkMapper rs prefix m) else Err PrefixMismatch
               end
      | None => Ok (mkMapper rs prefix m)
      end
  end.

(** [hex.EncodeToString] *)
Definition hexByte (n : N) : Ascii.ascii := Ascii.ascii_of_N (if (n <? 10)%N then 48 + n else 87 + n)%N.
Fixpoint hexEncode (b : bytes) : string :=
  match b with
  | [] => EmptyString
  | a :: b => String (hexByte (Ascii.N_of_ascii a / 16)) (String (hexByte (Ascii.N_of_ascii a mod 16)) (hexEncode b))
  end.

Lemma hexByte_hex (n : N) : (n < 16)%N -> isHexByte (hexByte n) = true.
Proof.
  intros H. assert (Hin : n ∈ map N.of_nat (seq 0 16)).
  { apply list_elem_of_fmap. exists (N.to_nat n). split; [lia|]. apply elem_of_seq. lia. }
  clear H. revert n Hin. apply (Forall_forall (fun n => isHexByte (hexByte n) = true)). cbn. by repeat constructor.
Qed.

Lemma hexEncode_hex b : isHex (hexEncode b) = true /\ String.length (hexEncode b) = 2 * length b.
Proof.
  induction b as [|a b [IH1 IH2]]; [done|]. cbn [hexEncode]. assert (Ha : (Ascii.N_of_ascii a < 256)%N) by apply Ascii.N_ascii_bounded.
  split; [|simpl; lia].
  change (isHexByte (hexByte (Ascii.N_of_ascii a / 16)) && (isHexByte (hexByte (Ascii.N_of_ascii a mod 16)) && isHex (hexEncode b)) = true).
  rewrite !hexByte_hex, IH1; [done|by apply N.mod_lt|]. apply N.Div0.div_lt_upper_bound. lia.
Qed.

(** ** HTTP *)

Record Request := mkRequest { Method : string; URLPath : string; IfNoneMatch : string }.
Record Response := mkResponse { status : Z; header : gmap string string; body : bytes }.

(** [http.Error] on the headers set so far *)
Definition httpError (header : gmap string string) (message : string) (code : Z) : Response :=
  mkResponse code
    (<["Content-Type" := "text/plain; charset=utf-8"]>
      (<["X-Content-Type-Options" := "nosniff"]> (delete "Content-Length" header)))
    (raw message ++ [newline]).

Definition httpNotFound : Response := httpError ∅ "404 page not found" 404.
Definition methodNotAllowed : Response := httpError {["Allow" := "GET, HEAD"]} "method not allowed" 405.

Definition quoted (s : string) : string := String dquote (s +:+ String dquote EmptyString).

Section Served.
Context (sha256 : bytes -> bytes) (TypeByExtension : string -> string).

Definition hashContent (b : bytes) : string := String.substring 0 HashLength (hexEncode (sha256 b)).

Definition contentTypeFor (logicalPath : string) : string :=
  let t := TypeByExtension (Ext logicalPath) in
  if bool_decide (t = EmptyString) then "application/octet-stream" else t.

Record devAsset := mkDev { da_content : bytes; da_hash : string; da_contentType : string }.

Definition loadDev (m : Mapper) (logicalPath : string) : result assetError devAsset :=
  let? (r, sub) := resolveFile (roots m) logicalPath in
  match rootFile r sub with
  | Some (Some content) => Ok (mkDev content (hashContent content) (contentTypeFor logicalPath))
  | _ => Err (ReadFailed logicalPath)
  end.

Definition Asset (m : Mapper) (logicalPath : string) : result assetError string :=
  let cleaned := cleanLogical logicalPath in
  if bool_decide (cleaned = EmptyString) then Err (NotFound logicalPath)
  else match manifest m with
       | Some mf =>
           match Lookup mf cleaned with
           | Some hashedRel => Ok (urlPrefix m +:+ hashedRel)
           | None => Err (NotFound logicalPath)
           end
       | None => let? c := loadDev m cleaned in Ok (urlPrefix m +:+ hashedName cleaned (da_hash c))
       end.

Definition isNotFound (e : assetError) : bool := match e with NotFound _ => true | _ => false end.

(** The asset a development URL names: the path itself, or with its hash taken off. *)
Definition findDev (m : Mapper) (rel : string) : result assetError devAsset :=
  match loadDev m rel with
  | Err e =>
      if isNotFound e && negb (bool_decide (stripHashSegment rel = rel)) then loadDev m (stripHashSegment rel) else Err e
  | Ok c => Ok c
  end.

(** [devHandler.ServeHTTP] *)
Definition serveDev (m : Mapper) (r : Request) : Response :=
  match manifest m with
  | Some _ => httpNotFound
  | None =>
      if negb (bool_decide (Method r = "GET")) && negb (bool_decide (Method r = "HEAD")) then methodNotAllowed
      else
        match CutPrefix (URLPath r) (urlPrefix m) with
        | None => httpNotFound
        | Some rel =>
            if bool_decide (rel = EmptyString) then httpNotFound
            else
              match findDev m rel with
              | Err e => if isNotFound e then httpNotFound else httpError ∅ "asset error" 500
              | Ok c =>
                  let header := {["Content-Type" := da_contentType c; "Cache-Control" := "no-cache"; "ETag" := quoted (da_hash c)]} in
                  if bool_decide (IfNoneMatch r = quoted (da_hash c)) then mkResponse 304 header []
                  else if bool_decide (Method r = "HEAD") then mkResponse 200 header []
                  else mkResponse 200 header (da_content c)
              end
        end
  end.
End Served.
