(* ===== verification/AssetPlan.v ===== *)
(** The build plan of the assets, src/assets/plan.go, with what build.go and importmap.go
    do for it: every asset's name, content and dependencies before anything is published.

    The result of a step is an outcome of the scanner around the value or error of the Go
    code: a Go panic and a loop without end are outcomes of their own. *)

From S2P Require Import Prelude.
From S2P Require Import Order.
From S2P Require Import Strconv.
From S2P Require Import Strings.
From S2P Require Import AssetPath.
From S2P Require Import AssetScan.
From S2P Require Import AssetRewrite.
From S2P Require Import AssetGraph.
From S2P Require Import AssetStore.

Local Open Scope go_scope.

(** ** Planning steps *)

Definition planned (A : Type) : Type := outcome (result assetError A).

Definition planned_bind {A B} (o : planned A) (f : A -> planned B) : planned B :=
  let! r := o in match r with Ok a => f a | Err e => Done (Err e) end.

Notation "'let&' x ':=' o 'in' k" := (planned_bind o (fun x => k))
  (at level 10, x pattern, o at level 100, k at level 200) : go_scope.

Definition ret {A} (a : A) : planned A := Done (Ok a).
Definition fail {A} (e : assetError) : planned A := Done (Err e).
Definition run {A} (o : outcome A) : planned A := let! a := o in ret a.
Definition try {A} (r : result assetError A) : planned A := Done r.

Notation "'ensure' c ';;' k" := (match c with Some e => fail e | None => k end)
  (at level 10, c at level 99, k at level 200) : go_scope.

(** ** Collecting *)

Record collectedAsset := mkCollected { ca_root : Root; ca_subPath : string; ca_kind : assetKind; ca_content : bytes }.

Definition rewritten (k : assetKind) : bool := bool_decide (k = kindJS) || bool_decide (k = kindCSS).

Definition logicalIn (r : Root) (path : string) : string :=
  if bool_decide (MountAt r = EmptyString) then path else MountAt r +:+ "/" +:+ path.

(** The function [collectAssets] gives to the walk, over the files that are left. *)
Fixpoint collectFiles (r : Root) (files : list (string * option bytes)) (assets : gmap string collectedAsset)
    : result assetError (gmap string collectedAsset) :=
  match files with
  | [] => Ok assets
  | (path, content) :: files =>
      if isConfig path then collectFiles r files assets
      else
        let logical := logicalIn r path in
        match assets !! logical with
        | Some _ => collectFiles r files assets
        | None =>
            let kind := kindOf logical in
            if rewritten kind then
              match content with
              | None => Err (ReadFailed path)
              | Some content => collectFiles r files (<[logical := mkCollected r path kind content]> assets)
              end
            else collectFiles r files (<[logical := mkCollected r path kind []]> assets)
        end
  end.

(** A root without a file system, which [normalizeRoots] has refused, panics. *)
Fixpoint collectRoots (roots : list Root) (assets : gmap string collectedAsset) : planned (gmap string collectedAsset) :=
  match roots with
  | [] => ret assets
  | r :: roots =>
      match FS r with
      | None => Panicked
      | Some f =>
          let& assets := try (collectFiles r (fs_files f) assets) in
          if fs_broken f then fail WalkFailed else collectRoots roots assets
      end
  end.

Definition collectAssets (roots : list Root) : planned (gmap string collectedAsset) := collectRoots roots ∅.

(** ** The importmap of a build *)

(** [found]: the importmap of an earlier root. *)
Fixpoint discoverIn (ParseImportmap : bytes -> option Importmap) (roots : list Root) (found : option Importmap)
    : result assetError Importmap :=
  match roots with
  | [] => Ok (default ∅ found)
  | r :: roots =>
      match rootFile r ImportmapFilename with
      | None => discoverIn ParseImportmap roots found
      | Some None => Err (ReadFailed ImportmapFilename)
      | Some (Some content) =>
          match found with
          | Some _ => Err TwoImportmaps
          | None =>
              match ParseImportmap content with
              | None => Err BadImportmap
              | Some im => discoverIn ParseImportmap roots (Some im)
              end
          end
      end
  end.

Definition discoverImportmap (ParseImportmap : bytes -> option Importmap) (roots : list Root) : result assetError Importmap :=
  discoverIn ParseImportmap roots None.

Definition vendorPrefix : string := VendorDir +:+ "/".

Definition entryPlaced (k : string) (e : ImportmapEntry) : option assetError :=
  if bool_decide (Path e = EmptyString) && bool_decide (Version e = EmptyString) then Some (EntryEmpty k)
  else if negb (bool_decide (Path e = EmptyString)) && negb (bool_decide (Version e = EmptyString))
          && negb (HasPrefix (Path e) vendorPrefix) then Some (EntryBoth k)
  else None.

Definition validateEntry (assets : gmap string collectedAsset) (k : string) (e : ImportmapEntry) : option assetError :=
  match entryPlaced k e with
  | Some err => Some err
  | None =>
      if negb (bool_decide (Type_ e ∈ [EmptyString; "js"; "css"])) then Some (EntryType k)
      else match assets !! cleanLogical (logicalForEntry k e) with Some _ => None | None => Some (EntryUnknown k) end
  end.

Definition sortedKeys {V} (m : gmap string V) : list string := sort_by cmp_string (map_to_list m).*1.

Fixpoint validateKeys (assets : gmap string collectedAsset) (im : Importmap) (keys : list string) : option assetError :=
  match keys with
  | [] => None
  | k :: keys =>
      match im !! k with
      | Some e => match validateEntry assets k e with Some err => Some err | None => validateKeys assets im keys end
      | None => validateKeys assets im keys
      end
  end.

Definition validateImportmap (im : Importmap) (assets : gmap string collectedAsset) : option assetError :=
  validateKeys assets im (sortedKeys im).

Definition canonicalEntry (e : ImportmapEntry) : ImportmapEntry :=
  if bool_decide (Path e = EmptyString) then e
  else mkEntry (cleanLogical (Path e)) (Version e) (Type_ e) (Entrypoint e).

Definition canonicalizeImportmapPaths (im : Importmap) : Importmap := canonicalEntry <$> im.

(** ** References *)

Definition isBareJSImport (spec : string) : bool :=
  negb (bool_decide (spec = EmptyString)) && negb (HasPrefix spec "./") && negb (HasPrefix spec "../")
  && negb (HasPrefix spec "/") && negb (HasPrefix spec "//") && negb (hasURLScheme spec).

Definition isRootRelativeReference (spec : string) : bool := HasPrefix spec "/" && negb (HasPrefix spec "//").

Definition validatePlannedReference (importer : string) (r : ref) (im : Importmap) (assets : gmap string collectedAsset)
    (strictAssetURLs : bool) : option assetError :=
  if negb (bool_decide (resolved r = EmptyString)) then
    match assets !! resolved r with
    | Some _ => None
    | None =>
        let strict :=
          match kind r with
          | referenceJSImport | referenceCSSImport => negb (HasPrefix (spec r) "/") || strictAssetURLs
          | referenceCSSURL => strictAssetURLs
          end in
        if strict then Some (MissingAsset importer (spec r)) else None
    end
  else
    match kind r with
    | referenceJSImport =>
        if HasPrefix (spec r) "./" || HasPrefix (spec r) "../" then Some (OutsideRoots importer (spec r))
        else if strictAssetURLs && isRootRelativeReference (spec r) then Some (RootRelative importer (spec r))
        else if isBareJSImport (spec r) then
          match im !! spec r with None => Some (UnknownBare importer (spec r)) | Some _ => None end
        else None
    | referenceCSSImport =>
        if strictAssetURLs && isRootRelativeReference (spec r) then Some (RootRelative importer (spec r))
        else if isLocalReference (spec r) then Some (OutsideRoots importer (spec r))
        else None
    | referenceCSSURL =>
        if strictAssetURLs && isRootRelativeReference (spec r) then Some (RootRelative importer (spec r))
        else if strictAssetURLs && isLocalReference (spec r) then Some (OutsideRoots importer (spec r))
        else None
    end.

Definition appendUnique (values : list string) (value : string) : list string :=
  if bool_decide (value ∈ values) then values else values ++ [value].

Definition plannedDependency (im : Importmap) (assets : gmap string collectedAsset) (deps : list string) (r : ref)
    : list string :=
  let logical :=
    if bool_decide (resolved r = EmptyString) then logicalForEntry (spec r) <$> im !! spec r else Some (resolved r) in
  match logical with
  | Some logical => match assets !! logical with Some _ => appendUnique deps logical | None => deps end
  | None => deps
  end.

Definition plannedDependencies (refs : list ref) (im : Importmap) (assets : gmap string collectedAsset) : list string :=
  fold_left (plannedDependency im assets) refs [].

(** ** Names *)

(** The state the loops share: the plan's entries, and the owner of each output name. *)
Record plannedAsset := mkPlanned {
  pa_logical : string;
  pa_root : Root;
  pa_subPath : string;
  pa_kind : assetKind;
  pa_outputHash : string;
  pa_etagHash : string;
  pa_output : string;
  pa_size : nat;
  pa_content : bytes
}.

Record naming := mkNaming {
  hashedNames : gmap string string;
  outputOwner : gmap string string;
  planAssets : gmap string plannedAsset;
  planOrder : list string
}.

Definition startNaming : naming := mkNaming ∅ ∅ ∅ [].

Definition checkCollision (logical output : string) (assets : gmap string collectedAsset) (outputOwner : gmap string string)
    : option assetError :=
  match outputOwner !! output with
  | Some other => Some (Collision other logical output)
  | None => match assets !! output with Some _ => Some (Shadowed logical output) | None => None end
  end.

Definition rewritePlannedContent (content : bytes) (refs : list ref) (prefix : string) (names : gmap string string)
    : outcome bytes :=
  match refs with
  | [] => Done content
  | _ => rewriteRefs content (fun r =>
           match names !! resolved r with Some target => prefix +:+ target +:+ suffix r | None => spec r end) refs
  end.

(** What both namings do after the check. *)
Definition nameAsset (logical output : string) (st : naming) : naming :=
  mkNaming (<[logical := output]> (hashedNames st)) (<[output := logical]> (outputOwner st)) (planAssets st) (planOrder st).

Definition planAsset (a : plannedAsset) (st : naming) : naming :=
  mkNaming (hashedNames st) (outputOwner st) (<[pa_logical a := a]> (planAssets st)) (planOrder st ++ [pa_logical a]).

(** A map read that the code takes to succeed: a nil pointer otherwise. *)
Definition the {V} (o : option V) : planned V := match o with Some v => ret v | None => Panicked end.

(** The bytes of a 64-bit length, the highest first. *)
Fixpoint bigEndian (n : nat) (v : N) (out : bytes) : bytes :=
  match n with
  | O => out
  | S n => bigEndian n (v / 256) (Ascii.ascii_of_N (v mod 256) :: out)
  end.

Definition hashField (value : bytes) : bytes := bigEndian 8 (N.of_nat (length value)) [] ++ value.

Section Planning.
Context (sha256 : bytes -> bytes).
Notation hashContent := (hashContent sha256).

(** [streamHash]: the hash and size of a file. *)
Definition streamHash (r : Root) (subPath : string) : result assetError (string * nat) :=
  match rootFile r subPath with
  | Some (Some content) => Ok (hashContent content, length content)
  | _ => Err (ReadFailed subPath)
  end.

Definition planPassthrough (collected : gmap string collectedAsset) (st : naming) (logical : string) : planned naming :=
  let& asset := the (collected !! logical) in
  let& (hash, size) := try (streamHash (ca_root asset) (ca_subPath asset)) in
  let output := hashedName logical hash in
  ensure checkCollision logical output collected (outputOwner st);;
  ret (planAsset (mkPlanned logical (ca_root asset) (ca_subPath asset) (ca_kind asset) hash hash output size [])
    (nameAsset logical output st)).

(** A loop of the code over the names, which stops at an error. *)
Fixpoint foldPlanned {S A} (f : S -> A -> planned S) (l : list A) (st : S) : planned S :=
  match l with
  | [] => ret st
  | x :: l => let& st := f st x in foldPlanned f l st
  end.

(** *** The graph *)

Record scanning := mkScanning {
  sc_deps : gmap string (list string);
  sc_refs : gmap string (list ref);
  sc_dependencies : gmap string (list string)
}.

(** One reference of [logical]: checked, and its target listed when it is rewritten too. *)
Definition planReference (im : Importmap) (collected : gmap string collectedAsset) (strict : bool) (logical : string)
    (deps : list string) (r : ref) : planned (list string) :=
  ensure validatePlannedReference logical r im collected strict;;
  if bool_decide (resolved r = EmptyString) then ret deps
  else match collected !! resolved r with
       | Some target => ret (if rewritten (ca_kind target) then appendUnique deps (resolved r) else deps)
       | None => ret deps
       end.

Definition scanAsset (im : Importmap) (collected : gmap string collectedAsset) (strict : bool) (st : scanning)
    (logical : string) : planned scanning :=
  let& asset := the (collected !! logical) in
  let& refs := run (extractRefs logical (ca_content asset) (ca_kind asset)) in
  let& deps := foldPlanned (planReference im collected strict logical) refs [] in
  ret (mkScanning (<[logical := deps]> (sc_deps st)) (<[logical := refs]> (sc_refs st))
    (<[logical := plannedDependencies refs im collected]> (sc_dependencies st))).

(** *** Components *)

Definition refsOf (refsByAsset : gmap string (list ref)) (logical : string) : list ref := default [] (refsByAsset !! logical).

Definition plannedRewriteAsset (logical : string) (asset : collectedAsset) (hash output : string) (content : bytes)
    : plannedAsset :=
  mkPlanned logical (ca_root asset) (ca_subPath asset) (ca_kind asset) hash (hashContent content) output
    (length content) content.

Definition internalMarker (r : ref) : string :=
  String "000" ("assets-scc:" +:+ resolved r +:+ suffix r).

Section Component.
Context (collected : gmap string collectedAsset) (refsByAsset : gmap string (list ref)) (prefix : string).

(** What a member of a cycle adds to the bytes that are hashed. *)
Definition hashedMember (members : list string) (names : gmap string string) (data : bytes) (logical : string)
    : planned bytes :=
  let& asset := the (collected !! logical) in
  let& content := run (rewriteRefs (ca_content asset) (fun r =>
      if bool_decide (resolved r ∈ members) then internalMarker r
      else match names !! resolved r with Some target => prefix +:+ target +:+ suffix r | None => spec r end)
    (refsOf refsByAsset logical)) in
  ret (data ++ hashField (raw logical) ++ hashField (ca_content asset) ++ hashField content).

Definition cyclicComponentHash (nodes : list string) (names : gmap string string) : planned string :=
  let& data := foldPlanned (hashedMember nodes names) nodes
    (hashField (raw "assets-scc-v1") ++ hashField (raw prefix)) in
  ret (String.substring 0 HashLength (hexEncode (sha256 data))).

Definition nameMember (hash : string) (st : naming) (logical : string) : planned naming :=
  let output := hashedName logical hash in
  ensure checkCollision logical output collected (outputOwner st);;
  ret (nameAsset logical output st).

Definition planMember (hash : string) (st : naming) (logical : string) : planned naming :=
  let& asset := the (collected !! logical) in
  let& content := run (rewritePlannedContent (ca_content asset) (refsOf refsByAsset logical) prefix (hashedNames st)) in
  ret (planAsset (plannedRewriteAsset logical asset hash (default EmptyString (hashedNames st !! logical)) content) st).

Definition planSingle (st : naming) (logical : string) : planned naming :=
  let& asset := the (collected !! logical) in
  let& content := run (rewritePlannedContent (ca_content asset) (refsOf refsByAsset logical) prefix (hashedNames st)) in
  let hash := hashContent content in
  let output := hashedName logical hash in
  ensure checkCollision logical output collected (outputOwner st);;
  ret (planAsset (plannedRewriteAsset logical asset hash output content) (nameAsset logical output st)).

(** [component.nodes[0]] panics on an empty component. *)
Definition planComponent (st : naming) (component : dependencyComponent) : planned naming :=
  if dc_cyclic component then
    let& hash := cyclicComponentHash (dc_nodes component) (hashedNames st) in
    let& st := foldPlanned (nameMember hash) (dc_nodes component) st in
    foldPlanned (planMember hash) (dc_nodes component) st
  else let& logical := the (head (dc_nodes component)) in planSingle st logical.
End Component.
End Planning.

(** ** The plan as a whole, Build and its handler *)

Local Open Scope go_scope.

Record buildConfig := mkBuildConfig { cfg_urlPrefix : string; cfg_strictAssetURLs : bool }.

Record buildPlan := mkPlan {
  bp_roots : list Root;
  bp_urlPrefix : string;
  bp_importmap : Importmap;
  bp_assets : gmap string plannedAsset;
  bp_order : list string;
  bp_manifest : Manifest;
  bp_cspImportmapHash : string
}.

Definition planMapper (roots : list Root) (prefix : string) (m : Manifest) : Mapper := mkMapper roots prefix (Some m).

Section Build.
Context (sha256 : bytes -> bytes) (TypeByExtension : string -> string).
Context (ParseImportmap : bytes -> option Importmap) (Marshal StdEncoding : string -> string).

(** ** The importmap's hash *)

Definition resolveEntry (m : Mapper) (key : string) (e : ImportmapEntry) : result assetError string :=
  match entryPlaced key e with
  | Some err => Err err
  | None => Asset sha256 TypeByExtension m (logicalForEntry key e)
  end.

Fixpoint resolveKeys (m : Mapper) (im : Importmap) (keys : list string) : result assetError (list (string * string)) :=
  match keys with
  | [] => Ok []
  | k :: keys =>
      let? url := match im !! k with Some e => resolveEntry m k e | None => Err (EntryEmpty k) end in
      let? resolved := resolveKeys m im keys in
      Ok ((k, url) :: resolved)
  end.

Definition importmapBody (resolved : list (string * string)) : string :=
  String "{" (quoted "imports" +:+ ":{" +:+
    String.concat "," (map (fun '(k, url) => Marshal k +:+ ":" +:+ Marshal url) resolved) +:+ "}}").

Definition importmapBodyHash (m : Mapper) (im : Importmap) : result assetError string :=
  let? resolved := resolveKeys m im (sortedKeys im) in
  Ok ("'sha256-" +:+ StdEncoding (text (sha256 (raw (importmapBody resolved)))) +:+ "'").

(** ** Planning *)

Definition keysOf (p : assetKind -> bool) (collected : gmap string collectedAsset) : list string :=
  sort_by cmp_string (filter (fun logical => p (default kindOther (ca_kind <$> collected !! logical)) = true)
    (map_to_list collected).*1).

Definition planBuild (roots : list Root) (im : option Importmap) (cfg : buildConfig) : planned buildPlan :=
  let& roots := try (normalizeRoots roots) in
  let& prefix := match normalizeURLPrefix (cfg_urlPrefix cfg) with Some p => ret p | None => fail BadPrefix end in
  let& im := match im with Some im => ret im | None => try (discoverImportmap ParseImportmap roots) end in
  let& collected := collectAssets roots in
  ensure validateImportmap im collected;;
  let im := canonicalizeImportmapPaths im in
  let& st := foldPlanned (planPassthrough sha256 collected) (keysOf (fun k => negb (rewritten k)) collected) startNaming in
  let& sc := foldPlanned (scanAsset im collected (cfg_strictAssetURLs cfg)) (keysOf rewritten collected)
    (mkScanning ∅ ∅ ∅) in
  let& components := match dependencyComponents (sc_deps sc) with Some cs => ret cs | None => OutOfSteps end in
  let& st := foldPlanned (planComponent sha256 collected (sc_refs sc) prefix) components st in
  let m := mkManifest prefix (hashedNames st) (Some (sc_dependencies sc)) in
  let& csp := try (importmapBodyHash (planMapper roots prefix m) im) in
  ret (mkPlan roots prefix im (planAssets st) (planOrder st) m csp).

(** ** Serving *)

Record serveEntry := mkServe { se_logical : string; se_hash : string; se_size : nat; se_content : bytes }.

Record Compiled := mkCompiled {
  c_mapper : Mapper;
  c_im : Importmap;
  c_entries : gmap string serveEntry;
  c_cspImportmapHash : string
}.

(** One asset of the plan, its bytes read again when the plan did not keep them. The file
    systems are [now]: what they hold at this later time. *)
Definition snapshotAsset (now : Root -> Root) (assets : gmap string plannedAsset) (entries : gmap string serveEntry)
    (logical : string) : planned (gmap string serveEntry) :=
  let& asset := the (assets !! logical) in
  let entry := mkServe (pa_logical asset) (pa_etagHash asset) (pa_size asset) in
  if rewritten (pa_kind asset) then ret (<[pa_output asset := entry (pa_content asset)]> entries)
  else
    match rootFile (now (pa_root asset)) (pa_subPath asset) with
    | Some (Some content) =>
        if bool_decide (length content <> pa_size asset) || bool_decide (hashContent sha256 content <> pa_outputHash asset)
        then fail (SourceChanged logical)
        else ret (<[pa_output asset := entry content]> entries)
    | _ => fail (ReadFailed logical)
    end.

Definition Build (now : Root -> Root) (roots : list Root) (im : option Importmap) (cfg : buildConfig) : planned Compiled :=
  let& plan := planBuild roots im cfg in
  let& entries := foldPlanned (snapshotAsset now (bp_assets plan)) (bp_order plan) ∅ in
  ret (mkCompiled (planMapper (bp_roots plan) (bp_urlPrefix plan) (bp_manifest plan)) (bp_importmap plan) entries
    (bp_cspImportmapHash plan)).

(** [Compiled.Asset] *)
Definition CompiledAsset (c : Compiled) (logical : string) : result assetError string :=
  Asset sha256 TypeByExtension (c_mapper c) logical.

(** [compiledHandler.ServeHTTP] *)
Definition serveCompiled (c : Compiled) (r : Request) : Response :=
  if negb (bool_decide (Method r = "GET")) && negb (bool_decide (Method r = "HEAD")) then methodNotAllowed
  else
    let prefix := urlPrefix (c_mapper c) in
    if (String.length (URLPath r) <=? String.length prefix)%nat
       || negb (bool_decide (String.substring 0 (String.length prefix) (URLPath r) = prefix)) then httpNotFound
    else
      match c_entries c !! String.substring (String.length prefix) (String.length (URLPath r) - String.length prefix) (URLPath r) with
      | None => httpNotFound
      | Some e =>
          let etag := quoted (se_hash e) in
          let header := {["ETag" := etag; "Cache-Control" := "public, max-age=31536000, immutable"]} in
          if bool_decide (IfNoneMatch r = etag) then mkResponse 304 header []
          else
            let header := <["Content-Length" := FormatInt (Z.of_nat (se_size e))]>
              (<["Content-Type" := contentTypeFor TypeByExtension (se_logical e)]> header) in
            if bool_decide (Method r = "HEAD") then mkResponse 200 header []
            else mkResponse 200 header (se_content e)
      end.
End Build.
