(* ===== verification/AssetPlanSpec.v ===== *)
(** What the build plan promises: names that are not ambiguous, contents whose references
    name what is published, and a plan for every set of assets whose scans end. *)

From S2P Require Import Prelude.
From S2P Require Import Order.
From S2P Require Import Strings.
From S2P Require Import AssetPath.
From S2P Require Import AssetScan.
From S2P Require Import AssetRewrite.
From S2P Require Import AssetGraph.
From S2P Require Import AssetGraphSpec.
From S2P Require Import AssetStore.
From S2P Require Import AssetPlan.

(** ** A logic of planning steps

    A step meets a postcondition when a value it returns satisfies it, and when it ends
    with a value or an error as long as [T] holds: that the scans it depends on end. *)
Section Meets.
Context (T : Prop).

Definition meets {A} (o : planned A) (Q : A -> Prop) : Prop :=
  match o with Done (Ok a) => Q a | Done (Err _) => True | _ => ~ T end.

Lemma meets_ret {A} (a : A) (Q : A -> Prop) : Q a -> meets (ret a) Q.
Proof. done. Qed.

Lemma meets_fail {A} e (Q : A -> Prop) : meets (fail e) Q.
Proof. done. Qed.

Lemma meets_try {A} (r : result assetError A) (Q : A -> Prop) : (forall a, r = Ok a -> Q a) -> meets (try r) Q.
Proof. destruct r; [|done]. intros H. by apply H. Qed.

Lemma meets_the {A} (o : option A) (Q : A -> Prop) : is_Some o -> (forall a, o = Some a -> Q a) -> meets (the o) Q.
Proof. intros [a ->] H. by apply H. Qed.

Lemma meets_run {A} (o : outcome A) (Q : A -> Prop) :
  (forall a, o = Done a -> Q a) -> (T -> exists a, o = Done a) -> meets (run o) Q.
Proof. intros HQ HT. destruct o; [by apply HQ| |]; intros Ht; by destruct (HT Ht). Qed.

Lemma meets_mono {A} (o : planned A) (Q Q' : A -> Prop) : meets o Q -> (forall a, Q a -> Q' a) -> meets o Q'.
Proof. intros Ho HQ. destruct o as [[a|e]| |]; [by apply HQ|done..]. Qed.

Lemma meets_eq {A} (o : planned A) (Q : A -> Prop) : meets o Q -> meets o (fun a => o = Done (Ok a) /\ Q a).
Proof. by destruct o as [[a|e]| |]. Qed.

Lemma meets_bind {A B} (o : planned A) (f : A -> planned B) (Q : A -> Prop) (R : B -> Prop) :
  meets o Q -> (forall a, Q a -> meets (f a) R) -> meets (planned_bind o f) R.
Proof. intros Ho Hf. destruct o as [[a|e]| |]; [by apply Hf|done..]. Qed.

Lemma meets_ensure {A} (c : option assetError) (k : planned A) (Q : A -> Prop) :
  (c = None -> meets k Q) -> meets (match c with Some e => fail e | None => k end) Q.
Proof. destruct c; [done|]. intros H. by apply H. Qed.

(** The invariant of a loop, over the names it has taken. *)
Lemma meets_fold {S A} (f : S -> A -> planned S) (P : list A -> S -> Prop) l st :
  P [] st -> (forall l1 x l2 s, l = l1 ++ x :: l2 -> P l1 s -> meets (f s x) (P (l1 ++ [x]))) ->
  meets (foldPlanned f l st) (P l).
Proof.
  intros H0 Hstep. assert (H : forall l1 l2 s, l = l1 ++ l2 -> P l1 s -> meets (foldPlanned f l2 s) (P l)).
  { intros l1 l2. revert l1. induction l2 as [|x l2 IH]; intros l1 s E Hs; cbn [foldPlanned].
    - rewrite app_nil_r in E. by subst.
    - eapply meets_bind; [by apply (Hstep l1 x l2)|]. intros s' Hs'. apply (IH (l1 ++ [x])); [|done]. by rewrite <-app_assoc. }
  by apply (H []).
Qed.

Lemma meets_Ok {A} (o : planned A) (Q : A -> Prop) a : meets o Q -> o = Done (Ok a) -> Q a.
Proof. by intros H ->. Qed.

Lemma meets_Done {A} (o : planned A) (Q : A -> Prop) : meets o Q -> T -> exists r, o = Done r.
Proof. intros H Ht. destruct o as [r| |]; [by exists r|by destruct (H Ht)..]. Qed.
End Meets.

Lemma foldPlanned_ext {S A} (f g : S -> A -> planned S) l st :
  (forall s x, x ∈ l -> f s x = g s x) -> foldPlanned f l st = foldPlanned g l st.
Proof.
  revert st. induction l as [|x l IH]; intros st H; cbn [foldPlanned]; [done|]. rewrite (H st x) by left.
  unfold planned_bind. destruct (g st x) as [[st'|]| |]; [|done..]. apply IH. intros s y Hy. apply H. by right.
Qed.

(** ** Contents *)

Section Contents.
Context (sha256 : bytes -> bytes).
Context (collected : gmap string collectedAsset) (refs : gmap string (list ref)) (prefix : string).

(** Names that may still be added to. *)
Definition extends (names names' : gmap string string) : Prop :=
  names ⊆ names' /\ (forall x, is_Some (names' !! x) -> is_Some (collected !! x)).

(** The targets of the references of [l] have their final names. *)
Definition targets_named (names : gmap string string) (l : string) : Prop :=
  forall r, r ∈ refsOf refs l -> resolved r <> EmptyString -> is_Some (collected !! resolved r) ->
    is_Some (names !! resolved r).

(** A name that is final, or that will not be given. *)
Lemma extends_lookup names names' x :
  extends names names' -> (is_Some (collected !! x) -> is_Some (names !! x)) -> names' !! x = names !! x.
Proof.
  intros [Hsub Hdom] Hx. destruct (names !! x) as [o|] eqn:E; [by eapply lookup_weaken|].
  destruct (names' !! x) as [o|] eqn:E'; [|done]. by destruct (Hx (Hdom x ltac:(by eexists))).
Qed.

Lemma rewriteLoop_ext content f g l cursor :
  (forall r, r ∈ l -> resolved r <> EmptyString -> f r = g r) ->
  rewriteLoop content f l cursor = rewriteLoop content g l cursor.
Proof.
  revert cursor. induction l as [|r l IH]; intros cursor H; cbn [rewriteLoop]; [done|].
  assert (Hl : forall r, r ∈ l -> resolved r <> EmptyString -> f r = g r) by (intros; apply H; [by right|done]).
  case_bool_decide as Er; [by apply IH|]. rewrite (H r) by (done || left).
  repeat (case_match; [by apply IH|]). by rewrite (IH (end_ r)).
Qed.

Lemma rewriteRefs_ext content f g l :
  (forall r, r ∈ l -> resolved r <> EmptyString -> f r = g r) -> rewriteRefs content f l = rewriteRefs content g l.
Proof. intros H. apply rewriteLoop_ext. intros r Hr. apply H. by rewrite elem_of_sort_by in Hr. Qed.

Lemma planned_content_ext names names' l content :
  targets_named names l -> extends names names' ->
  rewritePlannedContent content (refsOf refs l) prefix names' = rewritePlannedContent content (refsOf refs l) prefix names.
Proof.
  intros Ht He. unfold rewritePlannedContent.
  assert (H : forall r, r ∈ refsOf refs l -> resolved r <> EmptyString -> names' !! resolved r = names !! resolved r)
    by (intros r Hr Hn; apply extends_lookup; [done|by apply Ht]).
  destruct (refsOf refs l) as [|r0 rs]; [done|]. apply rewriteRefs_ext. intros r Hr Hn. by rewrite H.
Qed.

Lemma hashedMember_ext names names' members data l :
  (forall r, r ∈ refsOf refs l -> resolved r <> EmptyString -> is_Some (collected !! resolved r) ->
     resolved r ∈ members \/ is_Some (names !! resolved r)) ->
  extends names names' ->
  hashedMember collected refs prefix members names' data l = hashedMember collected refs prefix members names data l.
Proof.
  intros Ht He. unfold hashedMember. destruct (collected !! l) as [asset|]; [|done]. cbn.
  erewrite rewriteRefs_ext; [reflexivity|]. intros r Hr Hn. cbv beta. case_bool_decide as Hm; [done|].
  rewrite (extends_lookup names names'); [done|done|]. intros Hc. by destruct (Ht r Hr Hn Hc).
Qed.

(** ** Names *)

Record named (st : naming) (ns : list string) : Prop := {
  nm_dom : forall l, is_Some (hashedNames st !! l) <-> l ∈ ns;
  nm_owner : forall o l, outputOwner st !! o = Some l <-> hashedNames st !! l = Some o;
  nm_fresh : forall l o, hashedNames st !! l = Some o -> collected !! o = None /\ is_Some (collected !! l)
}.

Lemma named_start : named startNaming [].
Proof.
  split; cbn.
  - intros l. rewrite lookup_empty. split; [by intros []|by intros ?%not_elem_of_nil].
  - intros o l. by rewrite !lookup_empty.
  - intros l o. by rewrite lookup_empty.
Qed.

Lemma checkCollision_None l o owner :
  checkCollision l o collected owner = None <-> owner !! o = None /\ collected !! o = None.
Proof. unfold checkCollision. destruct (owner !! o); [naive_solver|]. destruct (collected !! o); naive_solver. Qed.

Lemma nameAsset_named st ns l o :
  named st ns -> l ∉ ns -> is_Some (collected !! l) -> checkCollision l o collected (outputOwner st) = None ->
  named (nameAsset l o st) (ns ++ [l]) /\ hashedNames st ⊆ hashedNames (nameAsset l o st).
Proof.
  intros HN Hl Hc [Ho Hs]%checkCollision_None.
  assert (Hn : hashedNames st !! l = None).
  { destruct (hashedNames st !! l) eqn:E; [|done]. destruct Hl. apply (nm_dom _ _ HN). by eexists. }
  split; [|by apply insert_subseteq]. split; cbn.
  - intros x. rewrite elem_of_app, list_elem_of_singleton, <-(nm_dom _ _ HN). destruct (decide (x = l)) as [->|Hx].
    + rewrite lookup_insert_eq. split; [by right|by eexists].
    + rewrite lookup_insert_ne by done. naive_solver.
  - intros p x. destruct (decide (p = o)) as [->|Hp], (decide (x = l)) as [->|Hx].
    + by rewrite !lookup_insert_eq.
    + rewrite lookup_insert_eq, lookup_insert_ne by done. split; [by intros [= ->]|].
      intros H%(nm_owner _ _ HN). congruence.
    + rewrite lookup_insert_eq, lookup_insert_ne by done. split; [|by intros [= ->]].
      intros H%(nm_owner _ _ HN). congruence.
    + rewrite !lookup_insert_ne by done. apply (nm_owner _ _ HN).
  - intros x p. destruct (decide (x = l)) as [->|Hx].
    + rewrite lookup_insert_eq. by intros [= <-].
    + rewrite lookup_insert_ne by done. apply (nm_fresh _ _ HN).
Qed.

(** ** Planned assets *)

(** What the plan says of an asset, whatever names are still to come. *)
Definition planned_ok (names : gmap string string) (l : string) (a : plannedAsset) : Prop :=
  pa_logical a = l /\ names !! l = Some (pa_output a) /\ pa_output a = hashedName l (pa_outputHash a) /\
  exists asset, collected !! l = Some asset /\
    pa_root a = ca_root asset /\ pa_subPath a = ca_subPath asset /\ pa_kind a = ca_kind asset /\
    if rewritten (ca_kind asset) then
      pa_etagHash a = hashContent sha256 (pa_content a) /\ pa_size a = length (pa_content a) /\
      forall names', extends names names' ->
        rewritePlannedContent (ca_content asset) (refsOf refs l) prefix names' = Done (pa_content a)
    else streamHash sha256 (ca_root asset) (ca_subPath asset) = Ok (pa_outputHash a, pa_size a) /\
      pa_etagHash a = pa_outputHash a.

Lemma extends_trans names names' names'' : extends names' names'' -> names ⊆ names' -> extends names names''.
Proof. intros [H1 H2] H. split; [by etrans|done]. Qed.

Lemma planned_ok_mono names names' l a : names ⊆ names' -> planned_ok names l a -> planned_ok names' l a.
Proof.
  intros Hs (E1 & E2 & E3 & asset & Hc & E4 & E5 & E6 & H). split_and!; [done|by eapply lookup_weaken|done|].
  exists asset. split_and!; [done..|]. destruct (rewritten _); [|done]. destruct H as (? & ? & H).
  split_and!; [done..|]. intros names'' He. apply H. by eapply extends_trans.
Qed.

Record listed (st : naming) (ps : list string) : Prop := {
  ls_order : planOrder st = ps;
  ls_dom : forall l, is_Some (planAssets st !! l) <-> l ∈ ps;
  ls_ok : forall l a, planAssets st !! l = Some a -> planned_ok (hashedNames st) l a
}.

Lemma listed_names st st' ps :
  planAssets st' = planAssets st -> planOrder st' = planOrder st -> hashedNames st ⊆ hashedNames st' ->
  listed st ps -> listed st' ps.
Proof.
  intros EA EO Hs HL. split; rewrite ?EA, ?EO; [apply HL..|]. intros l a Ha. eapply planned_ok_mono; [done|].
  by apply (ls_ok _ _ HL).
Qed.

Lemma planAsset_listed st ps a :
  listed st ps -> planned_ok (hashedNames st) (pa_logical a) a -> listed (planAsset a st) (ps ++ [pa_logical a]).
Proof.
  intros HL Ha. split; cbn.
  - by rewrite (ls_order _ _ HL).
  - intros x. rewrite elem_of_app, list_elem_of_singleton, <-(ls_dom _ _ HL). destruct (decide (x = pa_logical a)) as [->|Hx].
    + rewrite lookup_insert_eq. split; [by right|by eexists].
    + rewrite lookup_insert_ne by done. naive_solver.
  - intros x b. destruct (decide (x = pa_logical a)) as [->|Hx].
    + rewrite lookup_insert_eq. by intros [= <-].
    + rewrite lookup_insert_ne by done. apply (ls_ok _ _ HL).
Qed.

(** ** The steps *)

Context (T : Prop).
Notation meets := (meets T).

Definition planned_up_to (ns : list string) (st : naming) : Prop := named st ns /\ listed st ns.

Lemma planPassthrough_meets ns st l asset :
  planned_up_to ns st -> l ∉ ns -> collected !! l = Some asset -> rewritten (ca_kind asset) = false ->
  meets (planPassthrough sha256 collected st l) (planned_up_to (ns ++ [l])).
Proof.
  intros [HN HL] Hl Hc Hk. unfold planPassthrough. eapply meets_bind; [apply meets_the; [by eexists|intros a Ha; exact Ha]|].
  intros a Ha. assert (a = asset) as -> by congruence. eapply meets_bind; [apply meets_try; intros q Hq; exact Hq|]. intros [hash size] Hq.
  apply meets_ensure. intros Hcc. apply meets_ret.
  destruct (nameAsset_named st ns l _ HN Hl ltac:(by eexists) Hcc) as [HN' Hsub]. split; [destruct HN'; by constructor|].
  apply planAsset_listed; [by apply (listed_names st)|]. split_and!; [done|by apply lookup_insert_eq|done|].
  exists asset. rewrite Hk. by split_and!.
Qed.

Lemma planContent_meets names l asset (Q : bytes -> Prop) :
  Forall (in_content (ca_content asset)) (refsOf refs l) ->
  (forall content, rewritePlannedContent (ca_content asset) (refsOf refs l) prefix names = Done content -> Q content) ->
  meets (run (rewritePlannedContent (ca_content asset) (refsOf refs l) prefix names)) Q.
Proof.
  intros Hin HQ. apply meets_run; [done|]. intros _. unfold rewritePlannedContent.
  destruct (refsOf refs l) as [|r rs] eqn:E; [by eexists|]. rewrite <-E in *.
  eexists. apply rewriteLoop_splice; [|lia]. by rewrite sort_by_perm.
Qed.

Section Step.
Context (ns : list string) (c : dependencyComponent).

(** What the component needs of the graph: its members are new, and their references are
    to assets that have names, or to members of a cycle. *)
Record step_ok : Prop := {
  so_fresh : NoDup (ns ++ dc_nodes c);
  so_assets : forall l, l ∈ dc_nodes c -> exists asset, collected !! l = Some asset /\
    rewritten (ca_kind asset) = true /\ Forall (in_content (ca_content asset)) (refsOf refs l);
  so_targets : forall l r, l ∈ dc_nodes c -> r ∈ refsOf refs l -> resolved r <> EmptyString ->
    is_Some (collected !! resolved r) -> resolved r ∈ ns \/ (dc_cyclic c = true /\ resolved r ∈ dc_nodes c);
  so_single : dc_cyclic c = false -> exists l, dc_nodes c = [l]
}.

(** The hash in the names of a component: the content's, or one for the whole cycle, made
    of the members' sources and the final names they refer to. *)
Definition identified (st : naming) : Prop :=
  if dc_cyclic c then
    exists hash, (forall l, l ∈ dc_nodes c -> exists a, planAssets st !! l = Some a /\ pa_outputHash a = hash) /\
      forall names', extends (hashedNames st) names' ->
        cyclicComponentHash sha256 collected refs prefix (dc_nodes c) names' = Done (Ok hash)
  else forall l, l ∈ dc_nodes c -> exists a, planAssets st !! l = Some a /\ pa_outputHash a = pa_etagHash a.

Lemma identified_mono st st' :
  planAssets st ⊆ planAssets st' -> hashedNames st ⊆ hashedNames st' -> identified st -> identified st'.
Proof.
  intros Hp Hh. unfold identified. destruct (dc_cyclic c).
  - intros (hash & Hl & Hn). exists hash. split.
    + intros l Hi. destruct (Hl l Hi) as (a & Ha & E). exists a. split; [by eapply lookup_weaken|done].
    + intros names' He. apply Hn. by eapply extends_trans.
  - intros Hl l Hi. destruct (Hl l Hi) as (a & Ha & E). exists a. split; [by eapply lookup_weaken|done].
Qed.
End Step.

Lemma named_extends st ns : named st ns -> forall x, is_Some (hashedNames st !! x) -> is_Some (collected !! x).
Proof. intros HN x [o Ho]. by apply (nm_fresh _ _ HN x o). Qed.

Lemma planAssets_fresh st ps a : listed st ps -> pa_logical a ∉ ps -> planAssets st ⊆ planAssets (planAsset a st).
Proof.
  intros HL Ha. apply insert_subseteq. destruct (planAssets st !! pa_logical a) eqn:E; [|done].
  destruct Ha. apply (ls_dom _ _ HL). by eexists.
Qed.

Lemma planSingle_meets ns st c l :
  planned_up_to ns st -> step_ok ns c -> dc_cyclic c = false -> dc_nodes c = [l] ->
  meets (planSingle sha256 collected refs prefix st l) (fun st' =>
    planned_up_to (ns ++ [l]) st' /\ planAssets st ⊆ planAssets st' /\ hashedNames st ⊆ hashedNames st' /\ identified c st').
Proof.
  intros [HN HL] HS Ec El. unfold planSingle. destruct (so_assets _ _ HS l) as (asset & Hc & Hk & Hin); [rewrite El; left|].
  assert (Hl : l ∉ ns).
  { pose proof (so_fresh _ _ HS) as Hd. rewrite El in Hd. apply NoDup_app in Hd as (_ & Hd & _).
    intros Hl. apply (Hd l Hl). left. }
  assert (Ht : targets_named (hashedNames st) l).
  { intros r Hr Hn Hcr. apply (nm_dom _ _ HN). destruct (so_targets _ _ HS l r) as [?|[E _]]; [rewrite El; left|done..|].
    by rewrite Ec in E. }
  eapply meets_bind; [apply meets_the; [by eexists|intros a Ha; exact Ha]|]. intros a Ha. assert (a = asset) as -> by congruence.
  eapply meets_bind; [apply planContent_meets; [done|intros content Hq; exact Hq]|]. intros content Hq.
  apply meets_ensure. intros Hcc. apply meets_ret.
  destruct (nameAsset_named st ns l _ HN Hl ltac:(by eexists) Hcc) as [HN' Hsub].
  assert (HL' : listed (nameAsset l (hashedName l (hashContent sha256 content)) st) ns) by by apply (listed_names st).
  split; [|split; [|split; [done|]]].
  - split; [destruct HN'; by constructor|]. apply planAsset_listed; [done|]. split_and!; [done|by apply lookup_insert_eq|done|].
    exists asset. rewrite Hk. split_and!; [done..|]. intros names' He. etrans; [apply planned_content_ext; [exact Ht|]|exact Hq].
    by eapply extends_trans.
  - exact (planAssets_fresh _ ns (plannedRewriteAsset sha256 l asset (hashContent sha256 content) _ content) HL' Hl).
  - unfold identified. rewrite Ec, El. intros x ->%list_elem_of_singleton.
    eexists. split; [apply lookup_insert_eq|done].
Qed.

(** *** Cycles *)

Section Cycle.
Context (ns : list string) (c : dependencyComponent) (HS : step_ok ns c) (Ec : dc_cyclic c = true).

Lemma cyclicComponentHash_meets st :
  planned_up_to ns st ->
  meets (cyclicComponentHash sha256 collected refs prefix (dc_nodes c) (hashedNames st)) (fun hash =>
    forall names', extends (hashedNames st) names' ->
      cyclicComponentHash sha256 collected refs prefix (dc_nodes c) names' = Done (Ok hash)).
Proof.
  intros [HN _]. eapply meets_mono; [apply (meets_eq _ _ (fun _ => True))|].
  - eapply meets_bind; [apply (meets_fold _ _ (fun _ _ => True)); [done|]|by intros].
    intros l1 l l2 data E _. destruct (so_assets _ _ HS l) as (asset & Hc & _ & Hin); [rewrite E; apply elem_of_app; right; left|].
    eapply meets_bind; [apply meets_the; [by eexists|intros a Ha; exact Ha]|]. intros a Ha.
    assert (a = asset) as -> by congruence. eapply meets_bind; [|by intros].
    apply (meets_run _ _ (fun _ => True)); [done|]. intros _. eexists.
    apply rewriteLoop_splice; [by rewrite sort_by_perm|lia].
  - intros hash [<- _] names' He. unfold cyclicComponentHash. f_equal. apply foldPlanned_ext. intros data l Hl.
    apply hashedMember_ext; [|done]. intros r Hr Hn Hcr. destruct (so_targets _ _ HS l r Hl Hr Hn Hcr) as [Hin|[_ Hin]].
    + right. by apply (nm_dom _ _ HN).
    + by left.
Qed.

Lemma node_fresh l1 l l2 : dc_nodes c = l1 ++ l :: l2 -> l ∉ ns ++ l1.
Proof.
  intros E. pose proof (so_fresh _ _ HS) as Hd. rewrite E, app_assoc in Hd. apply NoDup_app in Hd as (_ & Hd & _).
  intros Hl. apply (Hd l Hl). left.
Qed.

Lemma nameMembers_meets hash st :
  planned_up_to ns st ->
  meets (foldPlanned (nameMember collected hash) (dc_nodes c) st) (fun st' =>
    named st' (ns ++ dc_nodes c) /\ listed st' ns /\ planAssets st' = planAssets st /\
    hashedNames st ⊆ hashedNames st' /\ forall l, l ∈ dc_nodes c -> hashedNames st' !! l = Some (hashedName l hash)).
Proof.
  intros [HN HL]. apply (meets_fold _ _ (fun ms st' => named st' (ns ++ ms) /\ listed st' ns /\
    planAssets st' = planAssets st /\ hashedNames st ⊆ hashedNames st' /\
    forall l, l ∈ ms -> hashedNames st' !! l = Some (hashedName l hash))).
  { rewrite app_nil_r. split_and!; [done..|]. by intros l ?%not_elem_of_nil. }
  intros l1 l l2 s E (HN' & HL' & EA & Hsub & Hl). unfold nameMember. apply meets_ensure. intros Hcc. apply meets_ret.
  destruct (so_assets _ _ HS l) as (asset & Hc & _); [rewrite E; apply elem_of_app; right; left|].
  destruct (nameAsset_named s _ l _ HN' (node_fresh l1 l l2 E) ltac:(by eexists) Hcc) as [HN2 Hs2].
  rewrite app_assoc. split_and!; [done|by apply (listed_names s)|done|by etrans|].
  intros x [Hx| ->%list_elem_of_singleton]%elem_of_app; [|by apply lookup_insert_eq].
  eapply lookup_weaken; [by apply Hl|done].
Qed.

Lemma planMembers_meets hash st :
  named st (ns ++ dc_nodes c) -> listed st ns ->
  (forall l, l ∈ dc_nodes c -> hashedNames st !! l = Some (hashedName l hash)) ->
  meets (foldPlanned (planMember sha256 collected refs prefix hash) (dc_nodes c) st) (fun st' =>
    planned_up_to (ns ++ dc_nodes c) st' /\ planAssets st ⊆ planAssets st' /\ hashedNames st' = hashedNames st /\
    forall l, l ∈ dc_nodes c -> exists a, planAssets st' !! l = Some a /\ pa_outputHash a = hash).
Proof.
  intros HN HL Hnames. eapply meets_mono; [apply (meets_fold _ _ (fun ms st' => outputOwner st' = outputOwner st /\
    listed st' (ns ++ ms) /\ planAssets st ⊆ planAssets st' /\ hashedNames st' = hashedNames st /\
    forall l, l ∈ ms -> exists a, planAssets st' !! l = Some a /\ pa_outputHash a = hash))|].
  - rewrite app_nil_r. split_and!; [done..|]. by intros l ?%not_elem_of_nil.
  - intros l1 l l2 s E (EO & HL' & Hsub & EN & Hl). unfold planMember.
    assert (Hlc : l ∈ dc_nodes c) by (rewrite E; apply elem_of_app; right; left).
    destruct (so_assets _ _ HS l Hlc) as (asset & Hc & Hk & Hin).
    eapply meets_bind; [apply meets_the; [by eexists|intros a Ha; exact Ha]|]. intros a Ha.
    assert (a = asset) as -> by congruence.
    eapply meets_bind; [apply planContent_meets; [done|intros content Hq; exact Hq]|]. intros content Hq. apply meets_ret.
    assert (Ht : targets_named (hashedNames s) l).
    { intros r Hr Hn Hcr. rewrite EN. apply (nm_dom _ _ HN). apply elem_of_app.
      destruct (so_targets _ _ HS l r Hlc Hr Hn Hcr) as [?|[_ ?]]; [by left|by right]. }
    rewrite EN, (Hnames l Hlc). cbn [default]. set (p := plannedRewriteAsset _ _ _ _ _ _).
    pose proof (planAssets_fresh s _ p HL' (node_fresh l1 l l2 E)) as Hfresh.
    split_and!; [done| |by etrans|done|].
    + rewrite app_assoc. apply (planAsset_listed s _ p HL'). split_and!; [done|rewrite EN; by apply Hnames|done|].
      exists asset. rewrite Hk. split_and!; [done..|]. intros names' He.
      etrans; [apply planned_content_ext; [exact Ht|done]|exact Hq].
    + intros x [Hx| ->%list_elem_of_singleton]%elem_of_app; [|eexists; split; [apply lookup_insert_eq|done]].
      destruct (Hl x Hx) as (b & Hb & Eb). exists b. split; [by eapply lookup_weaken|done].
  - intros st' (EO & HL' & Hsub & EN & Hl). split_and!; [|done..]. split; [|done].
    destruct HN as [H1 H2 H3]. constructor; by rewrite ?EO, ?EN.
Qed.
End Cycle.

Lemma planComponent_meets ns st c :
  planned_up_to ns st -> step_ok ns c ->
  meets (planComponent sha256 collected refs prefix st c) (fun st' =>
    planned_up_to (ns ++ dc_nodes c) st' /\ planAssets st ⊆ planAssets st' /\ hashedNames st ⊆ hashedNames st' /\
    identified c st').
Proof.
  intros HP HS. unfold planComponent. destruct (dc_cyclic c) eqn:Ec.
  - eapply meets_bind; [by apply (cyclicComponentHash_meets ns)|]. intros hash Hh.
    eapply meets_bind; [by apply (nameMembers_meets ns c HS)|]. intros st1 (HN1 & HL1 & EA & Hsub & Hn).
    eapply meets_mono; [by apply (planMembers_meets ns c HS)|]. intros st2 (HP2 & Hs2 & EN & Ha). rewrite EA in Hs2.
    split_and!; [done|done|by rewrite EN|]. unfold identified. rewrite Ec. exists hash. split; [done|].
    intros names' He. apply Hh. eapply extends_trans; [done|]. by rewrite EN.
  - destruct (so_single _ _ HS Ec) as [l El]. rewrite El. cbn [head]. apply (planSingle_meets _ _ _ _ HP HS Ec El).
Qed.
End Contents.
