(* ===== verification/AssetBuildSpec.v ===== *)
(** The plan as a whole: every asset collected is named and planned, and the compiled
    handler serves what the URLs name. *)

From S2P Require Import Prelude.
From S2P Require Import Order.
From S2P Require Import Strings.
From S2P Require Import AssetPath.
From S2P Require Import AssetScan.
From S2P Require Import AssetRewrite.
From S2P Require Import AssetGraph.
From S2P Require Import AssetGraphSpec.
From S2P Require Import AssetStore.
From S2P Require Import AssetPlan.
From S2P Require Import AssetPlanSpec.
From S2P Require Import Strconv.

(** ** The scans of all assets *)

Section Scanned.
Context (im : Importmap) (collected : gmap string collectedAsset) (strict : bool).

(** What a reference to another rewritten asset is. *)
Definition target (r : ref) (y : string) : Prop :=
  resolved r = y /\ y <> EmptyString /\ exists asset, collected !! y = Some asset /\ rewritten (ca_kind asset) = true.

Record scanned (ls : list string) (st : scanning) : Prop := {
  sd_deps : forall l, is_Some (sc_deps st !! l) <-> l ∈ ls;
  sd_refs : forall l asset refs, collected !! l = Some asset -> sc_refs st !! l = Some refs ->
    extractRefs l (ca_content asset) (ca_kind asset) = Done refs /\
    exists ds, sc_deps st !! l = Some ds /\ forall y, y ∈ ds <-> exists r, r ∈ refs /\ target r y;
  sd_found : forall l, is_Some (sc_refs st !! l) <-> l ∈ ls;
  sd_dependencies : forall l ds, sc_dependencies st !! l = Some ds ->
    l ∈ ls /\ forall y, y ∈ ds -> is_Some (collected !! y)
}.

Lemma elem_of_appendUnique values value y : y ∈ appendUnique values value <-> y ∈ values \/ y = value.
Proof.
  unfold appendUnique. case_bool_decide as H; [naive_solver|]. by rewrite elem_of_app, list_elem_of_singleton.
Qed.

Lemma plannedDependencies_known refs y : y ∈ plannedDependencies refs im collected -> is_Some (collected !! y).
Proof.
  unfold plannedDependencies. assert (H : forall l deps, (forall y, y ∈ deps -> is_Some (collected !! y)) ->
    forall y, y ∈ fold_left (plannedDependency im collected) l deps -> is_Some (collected !! y)).
  { induction l as [|r l IH]; intros deps Hd; cbn [fold_left]; [done|]. apply IH. intros z. unfold plannedDependency.
    destruct (if bool_decide _ then _ else _) as [x|]; [|apply Hd].
    destruct (collected !! x) eqn:E; [|apply Hd]. intros [Hz| ->]%elem_of_appendUnique; [by apply Hd|by eexists]. }
  apply H. by intros z ?%not_elem_of_nil.
Qed.

Context (T : Prop).
Notation meets := (meets T).

Lemma planReference_meets logical deps r seen :
  (forall y, y ∈ deps <-> exists r, r ∈ seen /\ target r y) ->
  meets (planReference im collected strict logical deps r) (fun deps' =>
    forall y, y ∈ deps' <-> exists r', r' ∈ seen ++ [r] /\ target r' y).
Proof.
  intros Hd. assert (Hsplit : forall y, (exists r', r' ∈ seen ++ [r] /\ target r' y) <-> y ∈ deps \/ target r y).
  { intros y. rewrite Hd. setoid_rewrite elem_of_app. setoid_rewrite list_elem_of_singleton. naive_solver. }
  unfold planReference. apply meets_ensure. intros _.
  apply (meets_mono _ _ (fun deps' => forall y, y ∈ deps' <-> y ∈ deps \/ target r y)); [|intros deps' H y; by rewrite Hsplit].
  unfold target. case_bool_decide as En.
  - apply meets_ret. intros y. split; [by left|]. intros [?|(<- & Hn & _)]; done.
  - destruct (collected !! resolved r) as [asset|] eqn:E; apply meets_ret; intros y.
    + destruct (rewritten (ca_kind asset)) eqn:Ek.
      * rewrite elem_of_appendUnique. split; [|naive_solver]. intros [?| ->]; [by left|]. right. eauto.
      * split; [by left|]. intros [?|(<- & _ & a & Ha & Hk)]; congruence.
    + split; [by left|]. intros [?|(<- & _ & a & Ha & Hk)]; congruence.
Qed.

Lemma scanAsset_meets ls st l asset :
  scanned ls st -> l ∉ ls -> collected !! l = Some asset ->
  (T -> exists refs, extractRefs l (ca_content asset) (ca_kind asset) = Done refs) ->
  meets (scanAsset im collected strict st l) (scanned (ls ++ [l])).
Proof.
  intros HS Hl Hc HT. unfold scanAsset. eapply meets_bind; [apply meets_the; [by eexists|intros a Ha; exact Ha]|].
  intros a Ha. assert (a = asset) as -> by congruence.
  eapply meets_bind; [apply meets_run; [intros refs Hr; exact Hr|done]|]. intros refs Hr.
  eapply meets_bind; [apply (meets_fold _ _ (fun seen deps => forall y, y ∈ deps <-> exists r, r ∈ seen /\ target r y))|].
  { intros y. split; [by intros ?%not_elem_of_nil|]. by intros (r & ?%not_elem_of_nil & _). }
  { intros l1 r l2 deps _ Hd. by apply planReference_meets. }
  intros deps Hd. apply meets_ret. constructor; cbn.
  - intros x. rewrite elem_of_app, list_elem_of_singleton, <-(sd_deps _ _ HS). destruct (decide (x = l)) as [->|Hx].
    + rewrite lookup_insert_eq. split; [by right|by eexists].
    + rewrite lookup_insert_ne by done. naive_solver.
  - intros x a rs Hx. destruct (decide (x = l)) as [->|Hn].
    + rewrite !lookup_insert_eq. intros [= <-]. assert (a = asset) as -> by congruence. split; [done|]. by exists deps.
    + rewrite !lookup_insert_ne by done. by apply (sd_refs _ _ HS).
  - intros x. rewrite elem_of_app, list_elem_of_singleton, <-(sd_found _ _ HS). destruct (decide (x = l)) as [->|Hx].
    + rewrite lookup_insert_eq. split; [by right|by eexists].
    + rewrite lookup_insert_ne by done. naive_solver.
  - intros x ds. rewrite elem_of_app, list_elem_of_singleton. destruct (decide (x = l)) as [->|Hx].
    + rewrite lookup_insert_eq. intros [= <-]. split; [by right|]. intros y. apply plannedDependencies_known.
    + rewrite lookup_insert_ne by done. intros H%(sd_dependencies _ _ HS). naive_solver.
Qed.
End Scanned.

(** ** The order of planning *)

Lemma keysOf_spec p collected l :
  l ∈ keysOf p collected <-> exists asset, collected !! l = Some asset /\ p (ca_kind asset) = true.
Proof.
  unfold keysOf. rewrite elem_of_sort_by, list_elem_of_filter, list_elem_of_fmap. split.
  - intros [Hp ([l' asset] & -> & Ha%elem_of_map_to_list)]. cbn in *. rewrite Ha in Hp. by exists asset.
  - intros (asset & Ha & Hp). rewrite Ha. split; [done|]. exists (l, asset). split; [done|]. by apply elem_of_map_to_list.
Qed.

Lemma keysOf_NoDup p collected : NoDup (keysOf p collected).
Proof. unfold keysOf. rewrite sort_by_perm. apply NoDup_filter, NoDup_fst_map_to_list. Qed.

Section Steps.
Context (collected : gmap string collectedAsset) (sc : scanning) (ordered : list dependencyComponent).
Notation keys := (keysOf rewritten collected).
Notation passed := (keysOf (fun k => negb (rewritten k)) collected).
Hypothesis HS : scanned collected keys sc.
Hypothesis HO : ordered_ok (sc_deps sc) ordered.

Lemma scanned_refs l : l ∈ keys -> exists asset ds, collected !! l = Some asset /\ rewritten (ca_kind asset) = true /\
  extractRefs l (ca_content asset) (ca_kind asset) = Done (refsOf (sc_refs sc) l) /\
  sc_deps sc !! l = Some ds /\ forall y, y ∈ ds <-> exists r, r ∈ refsOf (sc_refs sc) l /\ target collected r y.
Proof.
  intros Hl. destruct (proj2 (sd_found _ _ _ HS l) Hl) as [refs Hr]. apply keysOf_spec in Hl as (asset & Ha & Hk).
  destruct (sd_refs _ _ _ HS l asset refs Ha Hr) as (E & ds & Hds & Hy). exists asset, ds. unfold refsOf. rewrite Hr.
  by split_and!.
Qed.

Lemma edge_target x y : edge (sc_deps sc) x y <-> x ∈ keys /\ exists r, r ∈ refsOf (sc_refs sc) x /\ target collected r y.
Proof.
  unfold edge, depsOf. split.
  - destruct (sc_deps sc !! x) as [ds|] eqn:E; [|by intros ?%not_elem_of_nil]. intros Hy.
    assert (Hx : x ∈ keys) by (apply (sd_deps _ _ _ HS); by eexists). split; [done|].
    destruct (scanned_refs x Hx) as (_ & ds' & _ & _ & _ & E' & H). simplify_eq. by apply H.
  - intros [Hx Hr]. destruct (scanned_refs x Hx) as (_ & ds & _ & _ & _ & -> & H). by apply H.
Qed.

Lemma target_key r y : target collected r y -> y ∈ keys.
Proof. intros (_ & _ & asset & Ha & Hk). apply keysOf_spec. by exists asset. Qed.

Lemma universe_keys x : x ∈ universe (sc_deps sc) <-> x ∈ keys.
Proof.
  unfold universe. rewrite elem_of_union, elem_of_dom, (sd_deps _ _ _ HS), elem_of_list_to_set, elem_of_concat. split.
  - intros [Hx|(ds & Hds & Hx)]; [done|]. apply list_elem_of_fmap in Hds as ([l ds'] & -> & Hl%elem_of_map_to_list).
    assert (He : edge (sc_deps sc) l x) by (unfold edge, depsOf; by rewrite Hl).
    apply edge_target in He as (_ & r & _ & Ht). by eapply target_key.
  - by left.
Qed.

Lemma nodes_keys l : l ∈ concat (map dc_nodes ordered) <-> l ∈ keys.
Proof. by rewrite (oo_cover _ _ HO), universe_keys. Qed.

Lemma component_nodes l1 c l2 : ordered = l1 ++ c :: l2 ->
  NoDup (concat (map dc_nodes l1) ++ dc_nodes c) /\ forall l, l ∈ concat (map dc_nodes l1) ++ dc_nodes c -> l ∈ keys.
Proof.
  intros E. pose proof (oo_nodup _ _ HO) as Hn. rewrite E, map_app, concat_app in Hn. cbn [map concat] in Hn.
  rewrite app_assoc in Hn. apply NoDup_app in Hn as [Hn _]. split; [done|].
  intros l Hl. apply nodes_keys. rewrite E, map_app, concat_app. cbn [map concat]. rewrite app_assoc. apply elem_of_app. by left.
Qed.

(** A reference into the component itself is on a cycle. *)
Lemma inner_edge c x y : c ∈ ordered -> x ∈ dc_nodes c -> edge (sc_deps sc) x y -> y ∈ dc_nodes c -> dc_cyclic c = true.
Proof.
  intros Hc Hx He Hy. apply (oo_cyclic _ _ HO c Hc). exists x. split; [done|].
  apply (oo_scc _ _ HO c x y Hc Hx) in Hy as [_ Hyx]. eapply tc_rtc_r; [by apply tc_once|done].
Qed.

Lemma acyclic_single c : c ∈ ordered -> dc_cyclic c = false -> exists l, dc_nodes c = [l].
Proof.
  intros Hc Hcy. destruct (oo_sorted _ _ HO c Hc) as [Hne _]. destruct (dc_nodes c) as [|x [|y l]] eqn:E; [done|by exists x|].
  exfalso. apply list_elem_of_split in Hc as (l1 & l2 & Eo).
  assert (Hc : c ∈ ordered) by (rewrite Eo; apply elem_of_app; right; left).
  assert (Hd : x <> y).
  { destruct (component_nodes l1 c l2 Eo) as [Hn _]. rewrite E in Hn. apply NoDup_app in Hn as (_ & _ & [Hn _]%NoDup_cons).
    intros ->. apply Hn. left. }
  assert (Ht : dc_cyclic c = true); [|congruence].
  apply (oo_cyclic _ _ HO c Hc). exists x. rewrite E. split; [left|].
  destruct (proj1 (oo_scc _ _ HO c x y Hc ltac:(rewrite E; left)) ltac:(rewrite E; right; left)) as [Hxy Hyx].
  apply rtc_tc in Hxy as [?|Hxy]; [done|]. by eapply tc_rtc_r.
Qed.

Lemma component_step l1 c l2 :
  ordered = l1 ++ c :: l2 -> step_ok collected (sc_refs sc) (passed ++ concat (map dc_nodes l1)) c.
Proof.
  intros E. destruct (component_nodes l1 c l2 E) as [Hn Hk].
  assert (Hc : c ∈ ordered) by (rewrite E; apply elem_of_app; right; left). constructor.
  - rewrite <-app_assoc. apply NoDup_app. split; [apply keysOf_NoDup|]. split; [|done].
    intros l (a & Ha & Hp)%keysOf_spec Hl%Hk. apply keysOf_spec in Hl as (a' & Ha' & Hp'). simplify_eq. by rewrite Hp' in Hp.
  - intros l Hl. destruct (scanned_refs l) as (asset & _ & Ha & Hr & Hx & _); [apply Hk, elem_of_app; by right|].
    exists asset. split_and!; [done..|]. apply (so_bounds _ _ _ (extractRefs_ok _ _ _ _ Hx)).
  - intros l r Hl Hr Hne [asset Ha]. destruct (rewritten (ca_kind asset)) eqn:Er.
    + assert (He : edge (sc_deps sc) l (resolved r)).
      { apply edge_target. split; [apply Hk, elem_of_app; by right|]. exists r. split; [done|]. split_and!; [done..|eauto]. }
      destruct (oo_first _ _ HO l1 c l2 l _ E Hl He) as [Hi|(c' & Hc' & Hi)].
      * right. split; [by apply (inner_edge c l (resolved r))|done].
      * left. apply elem_of_app. right. apply elem_of_concat. exists (dc_nodes c'). split; [|done].
        by apply list_elem_of_fmap_2.
    + left. apply elem_of_app. left. apply keysOf_spec. exists asset. by rewrite Er.
  - by apply acyclic_single.
Qed.
End Steps.

(** ** The plan *)

Lemma normalizeRoots_FS rs out : normalizeRoots rs = Ok out -> Forall (fun r => is_Some (FS r)) out.
Proof.
  unfold normalizeRoots. destruct rs as [|r0 rs]; [done|]. set (l := r0 :: rs). clearbody l. generalize 0.
  revert out. induction l as [|r l IH]; intros out i; cbn [normalizeRoots_]; [by intros [= <-]|].
  destruct (FS r) as [f|] eqn:E; [|done]. destruct (validateMount (Dir_ r)); [done|].
  destruct (validateMount (MountAt r)); [done|].
  destruct (normalizeRoots_ (S i) l) as [out'|] eqn:E'; [|done]. intros [= <-]. constructor; [|by eapply IH].
  case_bool_decide; [by rewrite E|by eexists].
Qed.

Lemma collectRoots_meets T rs assets : Forall (fun r => is_Some (FS r)) rs -> meets T (collectRoots rs assets) (fun _ => True).
Proof.
  intros H. revert assets. induction H as [|r rs [f Hf] _ IH]; intros assets; cbn [collectRoots]; [done|]. rewrite Hf.
  eapply meets_bind; [apply (meets_try _ _ (fun _ => True)); done|]. intros a _. destruct (fs_broken f); [done|]. apply IH.
Qed.

Section Plan.
Context (sha256 : bytes -> bytes) (TypeByExtension : string -> string).
Context (ParseImportmap : bytes -> option Importmap) (Marshal StdEncoding : string -> string).
Notation planBuild := (planBuild sha256 TypeByExtension ParseImportmap Marshal StdEncoding).

(** The scans of the assets come to an end. *)
Definition scans_end (rs : list Root) : Prop :=
  forall out collected l asset, normalizeRoots rs = Ok out -> collectAssets out = Done (Ok collected) ->
    collected !! l = Some asset -> exists refs, extractRefs l (ca_content asset) (ca_kind asset) = Done refs.

(** What a plan was made of. *)
Record made (rs : list Root) (cfg : buildConfig) (plan : buildPlan) (im : Importmap)
    (collected : gmap string collectedAsset) (sc : scanning) (ordered : list dependencyComponent) (st : naming) : Prop := {
  md_roots : normalizeRoots rs = Ok (bp_roots plan);
  md_prefix : normalizeURLPrefix (cfg_urlPrefix cfg) = Some (bp_urlPrefix plan);
  md_collected : collectAssets (bp_roots plan) = Done (Ok collected);
  md_importmap : validateImportmap im collected = None /\ bp_importmap plan = canonicalizeImportmapPaths im;
  md_scanned : scanned collected (keysOf rewritten collected) sc;
  md_ordered : dependencyComponents (sc_deps sc) = Some ordered /\ ordered_ok (sc_deps sc) ordered;
  md_planned : planned_up_to sha256 collected (sc_refs sc) (bp_urlPrefix plan)
    (keysOf (fun k => negb (rewritten k)) collected ++ concat (map dc_nodes ordered)) st;
  md_identified : forall c, c ∈ ordered -> identified sha256 collected (sc_refs sc) (bp_urlPrefix plan) c st;
  md_plan : bp_assets plan = planAssets st /\ bp_order plan = planOrder st /\
    bp_manifest plan = mkManifest (bp_urlPrefix plan) (hashedNames st) (Some (sc_dependencies sc))
}.

Lemma meets_all {A X} T (o : planned A) (Q : X -> A -> Prop) (x : X) :
  (forall x, meets T o (Q x)) -> meets T o (fun a => forall x, Q x a).
Proof. intros H. specialize (H x) as Hx. destruct o as [[a|e]| |]; [intros y; apply (H y)|done..]. Qed.

Lemma passthrough_meets T collected prefix :
  let passed := keysOf (fun k => negb (rewritten k)) collected in
  meets T (foldPlanned (planPassthrough sha256 collected) passed startNaming) (fun st =>
    forall refs, planned_up_to sha256 collected refs prefix passed st).
Proof.
  intros passed. apply meets_all; [exact ∅|]. intros refs.
  apply (meets_fold _ _ (fun ns st => planned_up_to sha256 collected refs prefix ns st)).
  - split; [apply named_start|]. split; cbn; [done| |].
    + intros l. rewrite lookup_empty. split; [by intros []|by intros ?%not_elem_of_nil].
    + intros l a. by rewrite lookup_empty.
  - intros l1 l l2 st E HP. assert (Hl : l ∈ passed) by (rewrite E; apply elem_of_app; right; left).
    apply keysOf_spec in Hl as (asset & Ha & Hk). apply negb_true_iff in Hk. eapply planPassthrough_meets; [done| |done|done].
    pose proof (keysOf_NoDup (fun k => negb (rewritten k)) collected) as Hn. fold passed in Hn. rewrite E in Hn.
    apply NoDup_app in Hn as (_ & Hn & _). intros Hi. apply (Hn l Hi). left.
Qed.

Lemma components_meets T collected sc ordered prefix st :
  scanned collected (keysOf rewritten collected) sc -> ordered_ok (sc_deps sc) ordered ->
  let passed := keysOf (fun k => negb (rewritten k)) collected in
  planned_up_to sha256 collected (sc_refs sc) prefix passed st ->
  meets T (foldPlanned (planComponent sha256 collected (sc_refs sc) prefix) ordered st) (fun st' =>
    planned_up_to sha256 collected (sc_refs sc) prefix (passed ++ concat (map dc_nodes ordered)) st' /\
    forall c, c ∈ ordered -> identified sha256 collected (sc_refs sc) prefix c st').
Proof.
  intros HS HO passed HP. apply (meets_fold _ _ (fun cs st' =>
    planned_up_to sha256 collected (sc_refs sc) prefix (passed ++ concat (map dc_nodes cs)) st' /\
    forall c, c ∈ cs -> identified sha256 collected (sc_refs sc) prefix c st')).
  - cbn [map concat]. rewrite app_nil_r. split; [done|]. by intros c ?%not_elem_of_nil.
  - intros l1 c l2 s E [HP' Hid]. eapply meets_mono; [apply planComponent_meets; [exact HP'|by eapply component_step]|].
    intros s' (HP2 & Hp & Hh & Hc). split.
    + by rewrite map_app, concat_app, app_assoc; cbn [map concat]; rewrite app_nil_r.
    + intros c' [Hc'|Hc']%elem_of_app.
      * eapply identified_mono; [exact Hp|exact Hh|by apply Hid].
      * by apply list_elem_of_singleton in Hc' as ->.
Qed.

Lemma scans_meets im collected strict (T : Prop) :
  (T -> forall l asset, collected !! l = Some asset -> exists refs, extractRefs l (ca_content asset) (ca_kind asset) = Done refs) ->
  meets T (foldPlanned (scanAsset im collected strict) (keysOf rewritten collected) (mkScanning ∅ ∅ ∅))
    (scanned collected (keysOf rewritten collected)).
Proof.
  intros HT. apply (meets_fold _ _ (fun ls sc => scanned collected ls sc)).
  - assert (Hd : forall V (l : string), is_Some ((∅ : gmap string V) !! l) <-> l ∈ []).
    { intros V l. rewrite lookup_empty. split; [by intros []|by intros ?%not_elem_of_nil]. }
    constructor; cbn; [apply Hd|by intros l asset refs _; rewrite lookup_empty|apply Hd|by intros l ds; rewrite lookup_empty].
  - intros l1 l l2 sc E HS. assert (Hl : l ∈ keysOf rewritten collected) by (rewrite E; apply elem_of_app; right; left).
    apply keysOf_spec in Hl as (asset & Ha & Hk). eapply scanAsset_meets; [done| |done|].
    + pose proof (keysOf_NoDup rewritten collected) as Hn. rewrite E in Hn.
      apply NoDup_app in Hn as (_ & Hn & _). intros Hi. apply (Hn l Hi). left.
    + intros Ht. by eapply HT.
Qed.

Lemma planBuild_meets rs im cfg :
  meets (scans_end rs) (planBuild rs im cfg) (fun plan =>
    exists im collected sc ordered st, made rs cfg plan im collected sc ordered st).
Proof.
  unfold planBuild. eapply meets_bind; [apply meets_try; intros out H; exact H|]. intros out Hrs.
  apply (meets_bind _ _ _ (fun p => normalizeURLPrefix (cfg_urlPrefix cfg) = Some p)).
  { destruct (normalizeURLPrefix _); done. }
  intros prefix Hp. apply (meets_bind _ _ _ (fun _ => True)).
  { destruct im as [im|]; [done|]. by apply meets_try. }
  intros im' _. eapply meets_bind; [apply meets_eq, collectRoots_meets; exact (normalizeRoots_FS rs out Hrs)|].
  intros collected [Hc _]. apply meets_ensure. intros Hv.
  eapply meets_bind; [apply (passthrough_meets _ collected prefix)|]. intros st0 HP0.
  eapply meets_bind; [apply scans_meets|].
  { intros HT l asset Ha. exact (HT out collected l asset Hrs Hc Ha). }
  intros sc HS. destruct (dependencyComponents_ok (sc_deps sc)) as (ordered & EO & HO). rewrite EO.
  eapply meets_bind; [apply (meets_ret _ ordered (fun o => o = ordered)); done|]. intros o ->.
  eapply meets_bind; [by apply components_meets|]. intros st [HP Hid].
  eapply meets_bind; [apply (meets_try _ _ (fun _ => True)); done|]. intros csp _. apply meets_ret.
  by exists im', collected, sc, ordered, st.
Qed.

Lemma planBuild_made rs im cfg plan : planBuild rs im cfg = Done (Ok plan) ->
  exists im collected sc ordered st, made rs cfg plan im collected sc ordered st.
Proof. exact (meets_Ok _ _ _ plan (planBuild_meets rs im cfg)). Qed.

(** Planning comes to an end. When the scans of the assets do, [planBuild] returns a
    plan or an error: no map read is a nil pointer, no reference is cut outside its
    content, no component is empty, and the component search and the loops over it take as
    many steps as there are assets. *)
Theorem planning_ends rs im cfg : scans_end rs -> exists r, planBuild rs im cfg = Done r.
Proof. apply meets_Done with (Q := fun plan => exists im collected sc ordered st, made rs cfg plan im collected sc ordered st), planBuild_meets. Qed.

Section Made.
Context (rs : list Root) (cfg : buildConfig) (plan : buildPlan) (im : Importmap) (collected : gmap string collectedAsset).
Context (sc : scanning) (ordered : list dependencyComponent) (st : naming).
Hypothesis M : made rs cfg plan im collected sc ordered st.

Lemma all_planned l :
  l ∈ keysOf (fun k => negb (rewritten k)) collected ++ concat (map dc_nodes ordered) <-> is_Some (collected !! l).
Proof.
  rewrite elem_of_app, (nodes_keys collected sc ordered (md_scanned _ _ _ _ _ _ _ _ M)) by apply (md_ordered _ _ _ _ _ _ _ _ M).
  rewrite !keysOf_spec. split.
  - intros [(a & Ha & _)|(a & Ha & _)]; by exists a.
  - intros [a Ha]. destruct (rewritten (ca_kind a)) eqn:E; [right|left]; exists a; by rewrite E.
Qed.

Lemma made_entries : Entries (bp_manifest plan) = hashedNames st.
Proof. by destruct (md_plan _ _ _ _ _ _ _ _ M) as (_ & _ & ->). Qed.

Lemma made_entry l : is_Some (Entries (bp_manifest plan) !! l) <-> is_Some (collected !! l).
Proof. rewrite made_entries, (nm_dom _ _ _ (proj1 (md_planned _ _ _ _ _ _ _ _ M))). apply all_planned. Qed.

Lemma made_extends : extends collected (hashedNames st) (Entries (bp_manifest plan)).
Proof. split; [by rewrite made_entries|]. intros x. by rewrite made_entry. Qed.

Lemma made_asset l a : bp_assets plan !! l = Some a ->
  planned_ok sha256 collected (sc_refs sc) (bp_urlPrefix plan) (hashedNames st) l a.
Proof. destruct (md_plan _ _ _ _ _ _ _ _ M) as (-> & _). apply (ls_ok _ _ _ _ _ _ (proj2 (md_planned _ _ _ _ _ _ _ _ M))). Qed.

Lemma made_listed l : is_Some (bp_assets plan !! l) <-> is_Some (collected !! l).
Proof.
  destruct (md_plan _ _ _ _ _ _ _ _ M) as (-> & _).
  rewrite (ls_dom _ _ _ _ _ _ (proj2 (md_planned _ _ _ _ _ _ _ _ M))). apply all_planned.
Qed.

Lemma made_refs l asset : collected !! l = Some asset -> rewritten (ca_kind asset) = true ->
  extractRefs l (ca_content asset) (ca_kind asset) = Done (refsOf (sc_refs sc) l).
Proof.
  intros Ha Hk. destruct (scanned_refs collected sc (md_scanned _ _ _ _ _ _ _ _ M) l) as (a & ds & Ha' & _ & E & _).
  { apply keysOf_spec. by exists asset. }
  by simplify_eq.
Qed.

(** An output name has one owner, and is not the path of a source. *)
Lemma made_output l l' o : Entries (bp_manifest plan) !! l = Some o -> Entries (bp_manifest plan) !! l' = Some o -> l = l'.
Proof.
  rewrite made_entries. pose proof (nm_owner _ _ _ (proj1 (md_planned _ _ _ _ _ _ _ _ M))) as Ho.
  intros H%Ho H'%Ho. congruence.
Qed.

Lemma made_fresh l o : Entries (bp_manifest plan) !! l = Some o -> collected !! o = None.
Proof.
  rewrite made_entries. intros H. by destruct (nm_fresh _ _ _ (proj1 (md_planned _ _ _ _ _ _ _ _ M)) l o H).
Qed.
End Made.

(** [out] is the content with references respelled by [repl] and nothing else: some of the
    references of the scan, in order and apart, are replaced by their new spelling where
    they stand; each one that resolved and changes is replaced or starts inside one that
    is, and in a style sheet all of them are. *)
Definition respelled (content : bytes) (k : assetKind) (refs : list ref) (repl : ref -> string) (out : bytes) : Prop :=
  exists ks, out = splice content repl 0 ks /\ disjoint_from 0 ks /\
    (forall r, r ∈ ks -> r ∈ refs /\ resolved r <> EmptyString /\ repl r <> spec r) /\
    (forall r, r ∈ refs -> resolved r <> EmptyString -> repl r <> spec r ->
       r ∈ ks \/ (k <> kindCSS /\ exists r', r' ∈ ks /\ start r' <= start r < end_ r')).

Lemma rewriteRefs_respells importer content k refs repl out :
  extractRefs importer content k = Done refs -> rewriteRefs content repl refs = Done out ->
  respelled content k refs repl out.
Proof.
  intros HE Hw. destruct (rewriting_is_a_splice importer content k refs repl (sort_by cmp_start refs) HE)
    as (ks & _ & E & HF & HD & Hc & Hcss); [by rewrite sort_by_perm|apply sort_start_sorted|].
  rewrite E in Hw. injection Hw as <-. exists ks. split; [done|]. split; [done|]. rewrite Forall_forall in HF. split.
  - intros r Hr. destruct (HF r Hr) as [? [? ?]]. by split_and!.
  - intros r Hr H1 H2. destruct (decide (k = kindCSS)) as [Hk|Hk].
    + left. rewrite (Hcss Hk). apply list_elem_of_filter. by split.
    + destruct (Hc r Hr (conj H1 H2)) as [?|?]; [by left|by right].
Qed.

Lemma rewritePlanned_respells importer content k refs prefix names out :
  extractRefs importer content k = Done refs -> rewritePlannedContent content refs prefix names = Done out ->
  respelled content k refs
    (fun r => match names !! resolved r with Some o => prefix +:+ o +:+ suffix r | None => spec r end) out.
Proof.
  intros HE Hw. eapply rewriteRefs_respells; [exact HE|]. destruct refs as [|r refs]; [|exact Hw].
  injection Hw as <-. exact (rewriteLoop_splice content _ [] 0 (Forall_nil_2 _) (Nat.le_0_l _)).
Qed.

(** C21: what is published refers to what is published. The assets of a plan are those
    collected from the roots; each has one output name in the manifest, which no other
    asset and no source has; and the content of a script or style sheet is its source in
    which the references that its scan found and that resolve to an asset are replaced,
    where they stand, by the URL prefix, the name the manifest gives that asset and the
    query or fragment the reference had, those to assets planned later and to the other
    members of a cycle included, and nothing else is changed. *)
Theorem contents_refer_to_published_names rs im cfg plan :
  planBuild rs im cfg = Done (Ok plan) ->
  exists collected, collectAssets (bp_roots plan) = Done (Ok collected) /\
    normalizeURLPrefix (cfg_urlPrefix cfg) = Some (bp_urlPrefix plan) /\
    (forall l, is_Some (Entries (bp_manifest plan) !! l) <-> is_Some (collected !! l)) /\
    (forall l o, Entries (bp_manifest plan) !! l = Some o -> collected !! o = None /\
       forall l', Entries (bp_manifest plan) !! l' = Some o -> l' = l) /\
    forall l asset, collected !! l = Some asset -> exists a, bp_assets plan !! l = Some a /\
      Entries (bp_manifest plan) !! l = Some (pa_output a) /\
      (rewritten (ca_kind asset) = true ->
       exists refs, extractRefs l (ca_content asset) (ca_kind asset) = Done refs /\
         respelled (ca_content asset) (ca_kind asset) refs
           (fun r => match Entries (bp_manifest plan) !! resolved r with
                     | Some o => bp_urlPrefix plan +:+ o +:+ suffix r
                     | None => spec r end)
           (pa_content a)).
Proof.
  intros E. destruct (planBuild_made _ _ _ _ E) as (im' & collected & sc & ordered & st & M). exists collected.
  split; [apply (md_collected _ _ _ _ _ _ _ _ M)|]. split; [apply (md_prefix _ _ _ _ _ _ _ _ M)|].
  split; [by eapply made_entry|]. split.
  - intros l o Ho. split; [by eapply made_fresh|]. intros l' Ho'. by eapply made_output.
  - intros l asset Ha. destruct (proj2 (made_listed _ _ _ _ _ _ _ _ M l) ltac:(by eexists)) as [a Hpa]. exists a.
    split; [done|]. destruct (made_asset _ _ _ _ _ _ _ _ M l a Hpa) as (_ & En & _ & asset' & Ha' & _ & _ & _ & Hc).
    simplify_eq. split; [by erewrite made_entries|]. intros Hk. rewrite Hk in Hc. destruct Hc as (_ & _ & Hc).
    assert (Hr : extractRefs l (ca_content asset) (ca_kind asset) = Done (refsOf (sc_refs sc) l)) by by eapply made_refs.
    exists (refsOf (sc_refs sc) l). split; [done|].
    eapply rewritePlanned_respells; [exact Hr|]. apply Hc. by eapply made_extends.
Qed.

(** *** What a name says of the content *)

(** A reference from one script or style sheet to another. *)
Definition refers (collected : gmap string collectedAsset) (x y : string) : Prop :=
  exists asset refs r, collected !! x = Some asset /\ rewritten (ca_kind asset) = true /\
    extractRefs x (ca_content asset) (ca_kind asset) = Done refs /\ r ∈ refs /\ target collected r y.

Lemma refers_edge collected sc x y :
  scanned collected (keysOf rewritten collected) sc -> refers collected x y <-> edge (sc_deps sc) x y.
Proof.
  intros HS. rewrite (edge_target _ _ HS). split.
  - intros (asset & refs & r & Ha & Hk & Ex & Hr & Ht). split; [apply keysOf_spec; by exists asset|]. exists r.
    destruct (scanned_refs _ _ HS x) as (a & _ & Ha' & _ & E & _); [apply keysOf_spec; by exists asset|].
    assert (a = asset) as -> by congruence. assert (refs = refsOf (sc_refs sc) x) as <- by congruence. by split.
  - intros [Hx (r & Hr & Ht)]. destruct (scanned_refs _ _ HS x Hx) as (asset & _ & Ha & Hk & E & _).
    exists asset, (refsOf (sc_refs sc) x), r. by split_and!.
Qed.

Lemma tc_iff {A} (R S : A -> A -> Prop) x y : (forall a b, R a b <-> S a b) -> tc R x y <-> tc S x y.
Proof.
  intros H. split; (induction 1 as [a b Hab|a b c Hab _ IH]; [apply tc_once; by apply H|eapply tc_l; [by apply H|done]]).
Qed.

Lemma component_of collected sc ordered l :
  scanned collected (keysOf rewritten collected) sc -> ordered_ok (sc_deps sc) ordered ->
  l ∈ keysOf rewritten collected -> exists c, c ∈ ordered /\ l ∈ dc_nodes c.
Proof.
  intros HS HO Hl. rewrite <-(nodes_keys _ _ _ HS HO), elem_of_concat in Hl.
  destruct Hl as (ns & (c & -> & Hc)%list_elem_of_fmap & Hl). by exists c.
Qed.

(** The bytes of a cycle's hash, field by field. *)
Definition cycleFields (prefix : string) (collected : gmap string collectedAsset) (members : list string)
    (neutral : list bytes) : list bytes :=
  [raw "assets-scc-v1"; raw prefix] ++
  concat (zip_with (fun l out => [raw l; default [] (ca_content <$> collected !! l); out]) members neutral).

(** What a member adds: its source with references to members marked and the others published. *)
Definition neutral_of (plan : buildPlan) (collected : gmap string collectedAsset) (members : list string)
    (l : string) (out : bytes) : Prop :=
  exists asset refs, collected !! l = Some asset /\ extractRefs l (ca_content asset) (ca_kind asset) = Done refs /\
    respelled (ca_content asset) (ca_kind asset) refs
      (fun r => if bool_decide (resolved r ∈ members) then String "000" ("assets-scc:" +:+ resolved r +:+ suffix r)
                else match Entries (bp_manifest plan) !! resolved r with
                     | Some o => bp_urlPrefix plan +:+ o +:+ suffix r
                     | None => spec r end) out.

Lemma bigEndian_length n v out : length (bigEndian n v out) = n + length out.
Proof. revert v out. induction n as [|n IH]; intros v out; [done|]. cbn [bigEndian]. rewrite IH. simpl. lia. Qed.

Lemma bigEndian_inj n v w out out' :
  (v < 256 ^ N.of_nat n)%N -> (w < 256 ^ N.of_nat n)%N -> length out = length out' ->
  bigEndian n v out = bigEndian n w out' -> v = w /\ out = out'.
Proof.
  revert v w out out'. induction n as [|n IH]; intros v w out out' Hv Hw Hl; cbn [bigEndian].
  - intros ->. simpl in *. split; [lia|done].
  - rewrite Nat2N.inj_succ, N.pow_succ_r' in *. intros E. apply IH in E as [E1 E2].
    + injection E2 as E2 ->. apply (f_equal Ascii.N_of_ascii) in E2. split; [|done].
      rewrite !Ascii.N_ascii_embedding in E2 by (apply N.mod_lt; done).
      rewrite (N.div_mod v 256), (N.div_mod w 256) by done. by rewrite E1, E2.
    + by apply N.Div0.div_lt_upper_bound.
    + by apply N.Div0.div_lt_upper_bound.
    + simpl. by rewrite Hl.
Qed.

(** The fields can be told from their bytes. *)
Lemma fields_inj fs gs :
  Forall (fun f => N.of_nat (length f) < 256 ^ 8)%N fs -> Forall (fun f => N.of_nat (length f) < 256 ^ 8)%N gs ->
  concat (hashField <$> fs) = concat (hashField <$> gs) -> fs = gs.
Proof.
  intros Hf. revert gs. induction Hf as [|f fs Hf _ IH]; intros gs Hg.
  - destruct Hg as [|g gs _ _]; [done|]. intros E%(f_equal length). rewrite fmap_cons in E. cbn [concat] in E.
    rewrite length_app in E. unfold hashField in E. rewrite length_app, bigEndian_length in E. simpl in E. lia.
  - destruct Hg as [|g gs Hg Hgs].
    + intros E%(f_equal length). rewrite fmap_cons in E. cbn [concat] in E.
      rewrite length_app in E. unfold hashField in E. rewrite length_app, bigEndian_length in E. simpl in E. lia.
    + rewrite !fmap_cons. cbn [concat]. unfold hashField at 1 3. rewrite <-!(assoc_L (++)). intros E.
      apply app_inj_1 in E as [E1 E2]; [|by rewrite !bigEndian_length].
      apply bigEndian_inj in E1 as [E1 _]; [|done|done|done]. apply Nat2N.inj in E1.
      apply app_inj_1 in E2 as [-> E2]; [|done]. by rewrite (IH gs).
Qed.

Lemma Forall2_in_impl {A B} (P Q : A -> B -> Prop) l k :
  Forall2 P l k -> (forall x y, x ∈ l -> P x y -> Q x y) -> Forall2 Q l k.
Proof.
  induction 1 as [|x y l k Hx _ IH]; intros H; constructor; [apply H; [left|done]|].
  apply IH. intros x' y' Hi. apply H. by right.
Qed.

Lemma concat_three {A} (f : A -> bytes) a b c : concat (f <$> [a; b; c]) = f a ++ f b ++ f c.
Proof. simpl. by rewrite app_nil_r. Qed.

Lemma cycle_data collected refs prefix members names nodes data data' :
  foldPlanned (hashedMember collected refs prefix members names) nodes data = Done (Ok data') ->
  exists outs, Forall2 (fun l out => exists asset, collected !! l = Some asset /\
      rewriteRefs (ca_content asset) (fun r =>
        if bool_decide (resolved r ∈ members) then internalMarker r
        else match names !! resolved r with Some target => prefix +:+ target +:+ suffix r | None => spec r end)
      (refsOf refs l) = Done out) nodes outs /\
    data' = data ++ concat (hashField <$> concat (zip_with (fun l out =>
      [raw l; default [] (ca_content <$> collected !! l); out]) nodes outs)).
Proof.
  revert data. induction nodes as [|l nodes IH]; intros data; cbn [foldPlanned].
  - intros [= <-]. exists []. split; [constructor|]. by rewrite app_nil_r.
  - destruct (hashedMember collected refs prefix members names data l) as [[d|]| |] eqn:E1; [|done..].
    unfold hashedMember in E1. destruct (collected !! l) as [asset|] eqn:Ha; [|done].
    cbn [the ret planned_bind outcome_bind] in E1. destruct (rewriteRefs (ca_content asset) _ (refsOf refs l)) as [out| |] eqn:Hw; [|done..].
    assert (d = data ++ hashField (raw l) ++ hashField (ca_content asset) ++ hashField out) as ->.
    { change (ret (data ++ hashField (raw l) ++ hashField (ca_content asset) ++ hashField out) = ret d) in E1. unfold ret in E1.
      congruence. }
    cbn [planned_bind outcome_bind]. intros E. apply IH in E as (outs & HF & ->). exists (out :: outs). split; [constructor; [by exists asset|done]|].
    cbn [zip_with concat]. rewrite fmap_app, concat_app, concat_three, Ha.
    change (default [] (ca_content <$> Some asset)) with (ca_content asset). by rewrite <-!(assoc_L (++)).
Qed.

(** The hash in the name of a script or style sheet. *)
Lemma made_identity rs cfg plan im collected sc ordered st l a asset :
  made rs cfg plan im collected sc ordered st ->
  bp_assets plan !! l = Some a -> collected !! l = Some asset -> rewritten (ca_kind asset) = true ->
  (~ tc (refers collected) l l -> pa_outputHash a = pa_etagHash a) /\
  (tc (refers collected) l l -> exists members neutral,
     (forall l', l' ∈ members <-> tc (refers collected) l l' /\ tc (refers collected) l' l) /\
     NoDup members /\ StronglySorted (cmp_le cmp_string) members /\
     Forall2 (neutral_of plan collected members) members neutral /\
     pa_outputHash a = hashContent sha256
       (concat (hashField <$> cycleFields (bp_urlPrefix plan) collected members neutral))).
Proof.
  intros M Ha Hc Hk. pose proof (md_scanned _ _ _ _ _ _ _ _ M) as HS. pose proof (proj2 (md_ordered _ _ _ _ _ _ _ _ M)) as HO.
  assert (Htc : forall x y, tc (refers collected) x y <-> tc (edge (sc_deps sc)) x y)
    by (intros x y; apply tc_iff; intros; by apply refers_edge).
  destruct (component_of _ _ _ l HS HO) as (c & Hin & Hl); [apply keysOf_spec; by exists asset|].
  pose proof (md_identified _ _ _ _ _ _ _ _ M c Hin) as Hid. unfold identified in Hid.
  destruct (md_plan _ _ _ _ _ _ _ _ M) as (EA & _). rewrite <-EA in Hid.
  rewrite Htc. split.
  - intros Hn. destruct (dc_cyclic c) eqn:Ec.
    + exfalso. apply (oo_cyclic _ _ HO c Hin) in Ec as (x & Hxc & Hxx). apply Hn.
      destruct (proj1 (oo_scc _ _ HO c l x Hin Hl) Hxc) as [Hlx Hxl].
      eapply tc_rtc_l; [exact Hlx|]. by eapply tc_rtc_r.
    + destruct (Hid l Hl) as (a' & Ha' & Eh). by simplify_eq.
  - intros Hll. assert (Ec : dc_cyclic c = true) by (apply (oo_cyclic _ _ HO c Hin); by exists l).
    rewrite Ec in Hid. destruct Hid as (hash & Hid & Hh). destruct (Hid l Hl) as (b & Hb & Eb).
    assert (b = a) as -> by congruence. specialize (Hh _ (made_extends _ _ _ _ _ _ _ _ M)).
    unfold cyclicComponentHash in Hh.
    destruct (foldPlanned _ (dc_nodes c) _) as [[data|]| |] eqn:EF; [|done..]. injection Hh as Hh.
    apply cycle_data in EF as (outs & HF & ->). exists (dc_nodes c), outs. split_and!.
    + intros l'. rewrite !Htc, (oo_scc _ _ HO c l l' Hin Hl). split.
      * intros [H1 H2]. split; [by eapply tc_rtc_r|by eapply tc_rtc_l].
      * intros [H1 H2]. split; by apply tc_rtc.
    + pose proof (oo_nodup _ _ HO) as Hn. apply list_elem_of_split in Hin as (l1 & l2 & ->).
      rewrite map_app, concat_app in Hn. cbn [map concat] in Hn. apply NoDup_app in Hn as (_ & _ & Hn).
      by apply NoDup_app in Hn as (Hn & _).
    + by apply (oo_sorted _ _ HO).
    + eapply Forall2_in_impl; [exact HF|]. intros l' out Hl' (asset' & Ha' & Hw).
      assert (Hk' : rewritten (ca_kind asset') = true).
      { assert (Hkey : l' ∈ keysOf rewritten collected).
        { apply (nodes_keys _ _ _ HS HO), elem_of_concat. exists (dc_nodes c). split; [|done]. by apply list_elem_of_fmap_2. }
        apply keysOf_spec in Hkey as (asset'' & Ha'' & Hr). congruence. }
      pose proof (made_refs _ _ _ _ _ _ _ _ M l' asset' Ha' Hk') as Hex.
      exists asset', (refsOf (sc_refs sc) l'). split; [done|]. split; [done|].
      by eapply rewriteRefs_respells.
    + rewrite Eb, <-Hh. unfold AssetStore.hashContent, cycleFields. by do 3 f_equal.
Qed.

(** C22: a public name changes with what it names. A script or style sheet from which no
    chain of references leads back to it has the hash of its published content in its
    name. One on a cycle has the hash of the cycle in its name, the same for all its
    members: of the prefix and of, for every member in the order of the paths, its path,
    its source, and its source with the references inside the cycle marked and the others
    published, each with its length, so that other members, sources or contents are other
    bytes. Another file has the hash of its bytes; and the validator the handler will
    answer with is the hash of the published content in all cases. *)
Theorem names_carry_content_hashes rs im cfg plan :
  planBuild rs im cfg = Done (Ok plan) ->
  exists collected, collectAssets (bp_roots plan) = Done (Ok collected) /\
    (forall l a, bp_assets plan !! l = Some a ->
      pa_output a = hashedName l (pa_outputHash a) /\
      if rewritten (pa_kind a) then
        pa_etagHash a = hashContent sha256 (pa_content a) /\
        (~ tc (refers collected) l l -> pa_outputHash a = hashContent sha256 (pa_content a)) /\
        (tc (refers collected) l l -> exists members neutral,
           (forall l', l' ∈ members <-> tc (refers collected) l l' /\ tc (refers collected) l' l) /\
           NoDup members /\ StronglySorted (cmp_le cmp_string) members /\
           Forall2 (neutral_of plan collected members) members neutral /\
           pa_outputHash a = hashContent sha256
             (concat (hashField <$> cycleFields (bp_urlPrefix plan) collected members neutral)))
      else exists content, rootFile (pa_root a) (pa_subPath a) = Some (Some content) /\
        pa_outputHash a = hashContent sha256 content /\ pa_etagHash a = hashContent sha256 content) /\
    (forall fs gs, Forall (fun f => N.of_nat (length f) < 256 ^ 8)%N fs ->
       Forall (fun f => N.of_nat (length f) < 256 ^ 8)%N gs ->
       concat (hashField <$> fs) = concat (hashField <$> gs) -> fs = gs).
Proof.
  intros E. destruct (planBuild_made _ _ _ _ E) as (im' & collected & sc & ordered & st & M). exists collected.
  split; [apply (md_collected _ _ _ _ _ _ _ _ M)|]. split; [|exact fields_inj]. intros l a Ha.
  destruct (made_asset _ _ _ _ _ _ _ _ M l a Ha) as (_ & _ & Eo & asset & Hc & Er & Es & Ek & Hx). split; [done|].
  rewrite Ek. destruct (rewritten (ca_kind asset)) eqn:Hk.
  2: { destruct Hx as [Hx Ee]. unfold streamHash in Hx. rewrite Er, Es, Ee.
       destruct (rootFile _ _) as [[content|]|]; [|done..]. injection Hx as <- _. by exists content. }
  destruct Hx as (Ee & _ & _). split; [done|].
  destruct (made_identity _ _ _ _ _ _ _ _ l a asset M Ha Hc Hk) as [H1 H2]. rewrite <-Ee. by split.
Qed.
End Plan.

(** ** What the handlers serve *)

Section Compiled.
Context (sha256 : bytes -> bytes) (TypeByExtension : string -> string).
Context (ParseImportmap : bytes -> option Importmap) (Marshal StdEncoding : string -> string).
Notation planBuild := (planBuild sha256 TypeByExtension ParseImportmap Marshal StdEncoding).
Notation Build := (Build sha256 TypeByExtension ParseImportmap Marshal StdEncoding).
Notation hashContent := (hashContent sha256).

(** The bytes an asset is published with: what was planned for a script or style sheet,
    and for another file its bytes in the root the winning source is of, read when the
    snapshot is made. *)
Definition published (now : Root -> Root) (asset : collectedAsset) (a : plannedAsset) (content : bytes) : Prop :=
  if rewritten (ca_kind asset) then content = pa_content a
  else rootFile (now (ca_root asset)) (ca_subPath asset) = Some (Some content).

(** The entry of an asset of the plan. *)
Definition entry_of (now : Root -> Root) (plan : buildPlan) (collected : gmap string collectedAsset) (l : string)
    (entries : gmap string serveEntry) : Prop :=
  exists asset a content, collected !! l = Some asset /\ bp_assets plan !! l = Some a /\
    entries !! pa_output a = Some (mkServe l (hashContent content) (length content) content) /\
    published now asset a content.

Lemma snapshotAsset_meets T now rs cfg plan im collected sc ordered st ls l entries :
  made sha256 rs cfg plan im collected sc ordered st ->
  (forall l, l ∈ ls -> entry_of now plan collected l entries) -> is_Some (bp_assets plan !! l) ->
  meets T (snapshotAsset sha256 now (bp_assets plan) entries l) (fun entries' =>
    forall l', l' ∈ ls ++ [l] -> entry_of now plan collected l' entries').
Proof.
  intros M Hls [a Ha]. unfold snapshotAsset. rewrite Ha. cbn.
  destruct (made_asset _ _ _ _ _ _ _ _ _ M l a Ha) as (El & En & _ & asset & Hc & Er & Es & Ek & Hx).
  assert (Hins : forall content, pa_etagHash a = hashContent content -> pa_size a = length content ->
      published now asset a content ->
      forall l', l' ∈ ls ++ [l] -> entry_of now plan collected l'
        (<[pa_output a := mkServe (pa_logical a) (pa_etagHash a) (pa_size a) content]> entries)).
  { intros content Ee Ez Hw l' [Hl'| ->%list_elem_of_singleton]%elem_of_app.
    - destruct (decide (l' = l)) as [->|Hne]; [exists asset, a, content; rewrite lookup_insert_eq, El, Ee, Ez; by split_and!|].
      destruct (Hls l' Hl') as (asset' & b & content' & Hc' & Hb & Hbe & Hbw). exists asset', b, content'.
      split_and!; [done|done| |done]. rewrite lookup_insert_ne; [done|]. intros Eo. apply Hne.
      destruct (made_asset _ _ _ _ _ _ _ _ _ M l' b Hb) as (_ & En' & _).
      rewrite <-(made_entries _ _ _ _ _ _ _ _ _ M), <-Eo in En'. rewrite <-(made_entries _ _ _ _ _ _ _ _ _ M) in En.
      by apply (made_output _ _ _ _ _ _ _ _ _ M l' l (pa_output a)).
    - exists asset, a, content. rewrite lookup_insert_eq, El, Ee, Ez. by split_and!. }
  rewrite Ek in *. unfold published in Hins. destruct (rewritten (ca_kind asset)).
  - destruct Hx as (Ee & Ez & _). apply meets_ret. by apply Hins.
  - destruct Hx as [Hx Ee]. destruct (rootFile (now (pa_root a)) (pa_subPath a)) as [[content|]|] eqn:Hf; [|done..].
    destruct (_ || _) eqn:Ed; [done|]. apply orb_false_iff in Ed as [H1%bool_decide_eq_false H2%bool_decide_eq_false].
    apply meets_ret. apply Hins; [|apply dec_stable in H1; done|by rewrite <-Er, <-Es]. apply dec_stable in H2. congruence.
Qed.

Lemma hashedName_nonempty l h : hashedName l h <> EmptyString.
Proof.
  unfold hashedName. destruct (Split l) as [dir base]. destruct dir; [|done]. by destruct (TrimSuffix base (Ext base)).
Qed.

Lemma Build_has_plan now rs im cfg c : Build now rs im cfg = Done (Ok c) ->
  exists plan im' collected sc ordered st, planBuild rs im cfg = Done (Ok plan) /\
    made sha256 rs cfg plan im' collected sc ordered st /\
    c_mapper c = planMapper (bp_roots plan) (bp_urlPrefix plan) (bp_manifest plan) /\
    forall l, is_Some (collected !! l) -> entry_of now plan collected l (c_entries c).
Proof.
  unfold Build. destruct (planBuild rs im cfg) as [[plan|]| |] eqn:E; [|done..]. cbn [planned_bind outcome_bind].
  destruct (planBuild_made _ _ _ _ _ _ _ _ _ E) as (im' & collected & sc & ordered & st & M).
  destruct (foldPlanned _ _ _) as [[entries|]| |] eqn:EF; [|done..]. intros [= <-].
  exists plan, im', collected, sc, ordered, st. split_and!; [done..|]. cbn. intros l Hl.
  assert (Hfold : meets True (foldPlanned (snapshotAsset sha256 now (bp_assets plan)) (bp_order plan) ∅)
    (fun entries => forall l, l ∈ bp_order plan -> entry_of now plan collected l entries)).
  { apply (meets_fold _ _ (fun ls entries => forall l, l ∈ ls -> entry_of now plan collected l entries)); [by intros x ?%not_elem_of_nil|].
    intros l1 x l2 es Eo Hes. eapply snapshotAsset_meets; [exact M|done|].
    destruct (md_plan _ _ _ _ _ _ _ _ _ M) as (EA & EO & _). rewrite EA.
    destruct (md_planned _ _ _ _ _ _ _ _ _ M) as [_ HL]. apply (ls_dom _ _ _ _ _ _ HL).
    rewrite <-(ls_order _ _ _ _ _ _ HL), <-EO, Eo. apply elem_of_app. right. left. }
  apply (meets_Ok _ _ _ _ Hfold EF). destruct (md_plan _ _ _ _ _ _ _ _ _ M) as (EA & EO & _).
  rewrite EO, (ls_order _ _ _ _ _ _ (proj2 (md_planned _ _ _ _ _ _ _ _ _ M))).
  by eapply all_planned.
Qed.

(** C20: every URL that a compiled set of assets gives is served. A GET of the URL of a
    logical path is answered with status 200, the published content of that path and its
    length, an immutable cache entry, and the hash of the content as the validator; with
    the validator in If-None-Match it is answered with 304 and no content. The content of
    a script or style sheet is the planned one, and of another file the bytes that the
    file collected for the path holds. *)
Theorem compiled_urls_are_served now rs im cfg c logical url :
  Build now rs im cfg = Done (Ok c) -> CompiledAsset sha256 TypeByExtension c logical = Ok url ->
  exists plan collected asset a content, planBuild rs im cfg = Done (Ok plan) /\
    collectAssets (bp_roots plan) = Done (Ok collected) /\ collected !! cleanLogical logical = Some asset /\
    bp_assets plan !! cleanLogical logical = Some a /\
    (if rewritten (ca_kind asset) then content = pa_content a
     else rootFile (now (ca_root asset)) (ca_subPath asset) = Some (Some content)) /\
    let etag := quoted (hashContent content) in
    (forall inm, inm <> etag ->
       serveCompiled TypeByExtension c (mkRequest "GET" url inm) =
         mkResponse 200 {["Content-Length" := FormatInt (Z.of_nat (length content));
                         "Content-Type" := contentTypeFor TypeByExtension (cleanLogical logical);
                         "ETag" := etag; "Cache-Control" := "public, max-age=31536000, immutable"]} content) /\
    serveCompiled TypeByExtension c (mkRequest "GET" url etag) =
      mkResponse 304 {["ETag" := etag; "Cache-Control" := "public, max-age=31536000, immutable"]} [].
Proof.
  intros E. destruct (Build_has_plan _ _ _ _ _ E) as (plan & im' & collected & sc & ordered & st & EP & M & Em & Hall).
  unfold CompiledAsset, Asset. case_bool_decide; [done|]. rewrite Em. cbn. set (l := cleanLogical logical) in *.
  unfold Lookup. destruct (Entries (bp_manifest plan) !! l) as [o|] eqn:Ho; [|done]. intros [= <-].
  destruct (Hall l) as (asset & a & content & Hc & Ha & He & Hw). { apply (made_entry _ _ _ _ _ _ _ _ _ M). by eexists. }
  exists plan, collected, asset, a, content. split; [done|].
  split; [apply (md_collected _ _ _ _ _ _ _ _ _ M)|]. split; [done|]. split; [done|]. split; [done|].
  set (etag := quoted (hashContent content)).
  assert (o = pa_output a /\ o <> EmptyString) as [-> Hne].
  { destruct (made_asset _ _ _ _ _ _ _ _ _ M l a Ha) as (_ & En & EH & _).
    rewrite <-(made_entries _ _ _ _ _ _ _ _ _ M) in En. assert (o = pa_output a) as -> by congruence. split; [done|].
    rewrite EH. apply hashedName_nonempty. }
  assert (Hserve : forall inm, serveCompiled TypeByExtension c (mkRequest "GET" (bp_urlPrefix plan +:+ pa_output a) inm) =
    if bool_decide (inm = etag) then mkResponse 304 {["ETag" := etag; "Cache-Control" := "public, max-age=31536000, immutable"]} []
    else mkResponse 200 {["Content-Length" := FormatInt (Z.of_nat (length content));
                         "Content-Type" := contentTypeFor TypeByExtension l;
                         "ETag" := etag; "Cache-Control" := "public, max-age=31536000, immutable"]} content).
  { intros inm. unfold serveCompiled. rewrite Em. cbn [Method URLPath IfNoneMatch planMapper urlPrefix].
    rewrite bool_decide_true by done. cbn [negb andb]. rewrite string_length_app.
    rewrite (proj2 (Nat.leb_gt _ _)) by (destruct (pa_output a); [done|simpl; lia]).
    rewrite substring_app_l, bool_decide_true by done. cbn [negb orb].
    replace (String.length (bp_urlPrefix plan) + String.length (pa_output a) - String.length (bp_urlPrefix plan))
      with (String.length (pa_output a)) by lia.
    rewrite substring_app_r, He. cbn [se_hash se_logical se_size se_content]. fold etag.
    by rewrite (bool_decide_false ("GET" = "HEAD")%string) by done. }
  split; [|by rewrite Hserve, bool_decide_true].
  intros inm Hi. by rewrite Hserve, bool_decide_false.
Qed.
End Compiled.

Section Development.
Context (sha256 : bytes -> bytes) (TypeByExtension : string -> string).
Notation hashContent := (hashContent sha256).
Notation Asset := (Asset sha256 TypeByExtension).
Notation loadDev := (loadDev sha256 TypeByExtension).
Notation serveDev := (serveDev sha256 TypeByExtension).

Lemma isHex_substring n s : isHex s = true -> isHex (String.substring 0 n s) = true.
Proof.
  revert n. induction s as [|a s IH]; intros [|n]; try done. intros [Ha Hs]%andb_true_iff.
  change (isHexByte a && isHex (String.substring 0 n s) = true). by rewrite Ha, IH.
Qed.

Lemma length_substring n s : (n <= String.length s)%nat -> String.length (String.substring 0 n s) = n.
Proof. revert n. induction s as [|a s IH]; intros [|n] H; cbn in *; [done|lia|done|]. rewrite IH; lia. Qed.

Lemma hashContent_shape b : length (sha256 b) = 32 -> String.length (hashContent b) = HashLength /\ isHex (hashContent b) = true.
Proof.
  intros H. destruct (hexEncode_hex (sha256 b)) as [H1 H2]. unfold AssetStore.hashContent. split.
  - apply length_substring. rewrite H2, H. unfold HashLength. lia.
  - by apply isHex_substring.
Qed.

(** The development handler serves the URLs the mapper gives, as long as no source is
    named like the hashed path itself. A GET of the URL that [Asset] gives for a path with a
    stem is answered with the current content of that path, its type, and the hash of the
    content as the validator, with no way to keep it without asking again. *)
Theorem development_urls_are_served m logical url :
  manifest m = None -> (forall b, length (sha256 b) = 32) ->
  TrimSuffix (Split (cleanLogical logical)).2 (Ext (Split (cleanLogical logical)).2) <> EmptyString ->
  Asset m logical = Ok url ->
  exists content, let rel := hashedName (cleanLogical logical) (hashContent content) in
    (exists r sub, resolveFile (roots m) (cleanLogical logical) = Ok (r, sub) /\ rootFile r sub = Some (Some content)) /\
    url = urlPrefix m +:+ rel /\
    (resolveFile (roots m) rel = Err (NotFound rel) ->
     forall inm, serveDev m (mkRequest "GET" url inm) =
       let header := {["Content-Type" := contentTypeFor TypeByExtension (cleanLogical logical);
                       "Cache-Control" := "no-cache"; "ETag" := quoted (hashContent content)]} in
       if bool_decide (inm = quoted (hashContent content)) then mkResponse 304 header [] else mkResponse 200 header content).
Proof.
  intros Hm Hsum Hst. unfold AssetStore.Asset. case_bool_decide; [done|]. rewrite Hm. set (l := cleanLogical logical) in *.
  destruct (loadDev m l) as [c|] eqn:Hl; [|done]. intros [= <-]. pose proof Hl as Hl'. unfold AssetStore.loadDev in Hl'.
  destruct (resolveFile (roots m) l) as [[r sub]|] eqn:Hr; [|done]. cbn [result_bind] in Hl'.
  destruct (rootFile r sub) as [[content|]|] eqn:Hf; [|done..]. injection Hl' as <-. exists content. cbn [da_hash].
  split; [by exists r, sub|]. split; [done|]. intros Hno inm. set (rel := hashedName l (hashContent content)) in *.
  destruct (hashContent_shape content (Hsum content)) as [HL Hh].
  assert (Hstrip : stripHashSegment rel = l) by by apply stripHashSegment_hashedName.
  assert (Hne : rel <> l).
  { intros E. rewrite E in Hno. congruence. }
  assert (Hfind : findDev sha256 TypeByExtension m rel = Ok (mkDev content (hashContent content) (contentTypeFor TypeByExtension l))).
  { unfold findDev. assert (EN : loadDev m rel = Err (NotFound rel)) by (unfold AssetStore.loadDev; by rewrite Hno).
    rewrite EN. cbn [isNotFound]. rewrite Hstrip, bool_decide_false by congruence. exact Hl. }
  unfold AssetStore.serveDev. rewrite Hm. cbn [Method URLPath IfNoneMatch]. rewrite bool_decide_true by done. cbn [negb andb].
  rewrite CutPrefix_app. rewrite bool_decide_false by apply hashedName_nonempty. rewrite Hfind. cbn [da_contentType da_hash da_content].
  by rewrite (bool_decide_false ("GET" = "HEAD")%string) by done.
Qed.
End Development.
