(* ===== verification/AssetRun.v ===== *)
(** The asset pipeline on small inputs: scans of scripts and style sheets with the ones
    that panic or do not end, a build with a cycle of scripts, its handler and the
    development handler; and the theorems of the asset files at these inputs. *)

From S2P Require Import Prelude.
From S2P Require Import Order.
From S2P Require Import Strconv.
From S2P Require Import Strings.
From S2P Require Import AssetPath.
From S2P Require Import AssetScan.
From S2P Require Import AssetScanSpec.
From S2P Require Import AssetRewrite.
From S2P Require Import AssetGraph.
From S2P Require Import AssetGraphSpec.
From S2P Require Import AssetStore.
From S2P Require Import AssetPlan.
From S2P Require Import AssetPlanSpec.
From S2P Require Import AssetBuildSpec.

(** ** Scans *)

Definition sheet : bytes := raw "@import './base.css'; a { background: url(img/x.png) }".
Definition script : bytes := raw "import { a } from './a.js'; const t = `${import('./b.js')}`;".

Definition values (o : outcome (list scannedRef)) : outcome (list string) :=
  outcome_bind o (fun refs => Done (map (fun r => text (r_value r)) refs)).

Example sheet_references : values (scanCSSRefs (length sheet) sheet) = Done ["./base.css"; "img/x.png"].
Proof. vm_compute. reflexivity. Qed.

Example script_references : values (scanJSImportRefs (length script) script) = Done ["./a.js"; "./b.js"].
Proof. vm_compute. reflexivity. Qed.

(** A quote that nothing closes panics where a reference is expected. *)
Example open_import_panics : scanCSSRefs 20 (raw "@import '") = Panicked.
Proof. vm_compute. reflexivity. Qed.

Example open_script_import_panics : scanJSImportRefs 20 (raw "import '") = Panicked.
Proof. vm_compute. reflexivity. Qed.

Lemma css_references_are_spliceable_witness :
  (last sheet <> Some backslash) /\ length sheet <= length sheet /\
  ((exists refs, scanCSSRefs (length sheet) sheet = Done refs /\ apart sheet 0 refs) \/
   (scanCSSRefs (length sheet) sheet = Panicked /\ exists i, broken_quote sheet i)).
Proof.
  assert (Hl : last sheet <> Some backslash) by (vm_compute; discriminate).
  split; [exact Hl|]. split; [apply le_n|]. exact (css_references_are_spliceable sheet (length sheet) Hl (le_n _)).
Defined.

Lemma js_references_are_specifiers_witness :
  length script <= length script /\
  ((exists refs, scanJSImportRefs (length script) script = Done refs /\ Forall (jsRef_ok script) refs) \/
   (scanJSImportRefs (length script) script = Panicked /\ exists i, broken_quote script i)).
Proof. split; [apply le_n|]. exact (js_references_are_specifiers script (length script) (le_n _)). Defined.

Definition dotdot : scannedRef := mkRef 0 3 referenceJSImport (raw "../c/x.js").

Lemma resolved_references_stay_inside_witness :
  HasPrefix "a/b/m.js" "/" = false /\ resolved (refAt "a/b/m.js" dotdot) = "a/c/x.js" /\
  (resolved (refAt "a/b/m.js" dotdot) = EmptyString \/ inside (resolved (refAt "a/b/m.js" dotdot))).
Proof.
  assert (H : HasPrefix "a/b/m.js" "/" = false) by (vm_compute; reflexivity).
  split; [exact H|]. split; [vm_compute; reflexivity|]. exact (resolved_references_stay_inside "a/b/m.js" dotdot H).
Defined.

Definition sheetRefs : list ref :=
  match extractRefs "main.css" sheet kindCSS with Done refs => refs | _ => [] end.

Definition published (r : ref) : string := "/assets/" +:+ resolved r.

Lemma rewriting_is_a_splice_witness :
  extractRefs "main.css" sheet kindCSS = Done sheetRefs /\
  exists ks, rewriteRefs sheet published sheetRefs = Done (splice sheet published 0 ks).
Proof.
  assert (HE : extractRefs "main.css" sheet kindCSS = Done sheetRefs) by (vm_compute; reflexivity).
  split; [exact HE|].
  assert (HS : StronglySorted (fun x y => start x <= start y) sheetRefs)
    by (vm_compute; repeat constructor).
  destruct (rewriting_is_a_splice "main.css" sheet kindCSS sheetRefs published sheetRefs HE (Permutation_refl _) HS)
    as (ks & _ & E & _). exists ks. exact E.
Defined.

Example rewritten_sheet :
  outcome_bind (rewriteRefs sheet published sheetRefs) (fun b => Done (text b)) =
    Done "@import '/assets/base.css'; a { background: url(/assets/img/x.png) }".
Proof. vm_compute. reflexivity. Qed.

(** ** Builds *)

(** Thirty-two bytes that depend on all of the content: enough for the examples. *)
Definition checksum (b : bytes) : bytes :=
  let total := fold_left (fun s a => (31 * s + Ascii.N_of_ascii a) mod 65521)%N b 7%N in
  map (fun k => Ascii.ascii_of_N (total / (N.of_nat k + 1))) (seq 0 32).

Definition noTypes (_ : string) : string := EmptyString.
Definition noImportmap (_ : bytes) : option Importmap := None.
Definition asIs (s : string) : string := s.

Definition site : list Root :=
  [mkRoot (Some (mkFs [("a.js", Some (raw "import './b.js'")); ("b.js", Some (raw "import './a.js'; import './c.js'"));
                       ("c.js", Some (raw "export default 1")); ("logo.png", Some (raw "PNG"));
                       ("main.css", Some (raw "a { background: url(logo.png) }"))] false)) EmptyString EmptyString].

Definition config : buildConfig := mkBuildConfig EmptyString false.

Definition planSite : planned buildPlan :=
  planBuild checksum noTypes noImportmap asIs asIs site (Some ∅) config.
Definition buildSite : planned Compiled :=
  Build checksum noTypes noImportmap asIs asIs (fun r => r) site (Some ∅) config.

Definition succeeds {A} (o : planned A) : bool := match o with Done (Ok _) => true | _ => false end.

Lemma succeeds_Ok {A} (o : planned A) : succeeds o = true -> exists a, o = Done (Ok a).
Proof. destruct o as [[a|]| |]; [by exists a|done..]. Defined.

Definition view (o : planned buildPlan) : option (list string * list (string * list string)) :=
  match o with
  | Done (Ok p) => Some (bp_order p, map_to_list (default ∅ (Dependencies (bp_manifest p))))
  | _ => None
  end.

(** The cycle comes after what it needs, and its members share a hash. *)
Example site_order : fst <$> view planSite = Some ["logo.png"; "c.js"; "a.js"; "b.js"; "main.css"].
Proof. vm_compute. reflexivity. Qed.

Definition scanned_all (collected : gmap string collectedAsset) : bool :=
  forallb (fun '(l, asset) =>
    match extractRefs l (ca_content asset) (ca_kind asset) with Done _ => true | _ => false end) (map_to_list collected).

Lemma scanned_all_ok collected l asset : scanned_all collected = true -> collected !! l = Some asset ->
  exists refs, extractRefs l (ca_content asset) (ca_kind asset) = Done refs.
Proof.
  unfold scanned_all. rewrite forallb_forall. intros H Ha%elem_of_map_to_list%list_elem_of_In%H. cbn in Ha.
  destruct (extractRefs _ _ _) as [refs| |]; [by exists refs|done..].
Qed.

Lemma site_scans_end : scans_end site.
Proof.
  intros out collected l asset Hout Hc Ha.
  assert (E : match normalizeRoots site with
              | Ok out => match collectAssets out with Done (Ok c) => scanned_all c | _ => true end
              | Err _ => true
              end = true) by (vm_compute; reflexivity).
  rewrite Hout, Hc in E. by eapply scanned_all_ok.
Qed.

Lemma planning_ends_witness :
  scans_end site /\ exists r, planBuild checksum noTypes noImportmap asIs asIs site (Some ∅) config = Done r.
Proof.
  split; [exact site_scans_end|].
  exact (planning_ends checksum noTypes noImportmap asIs asIs site (Some ∅) config site_scans_end).
Defined.

(** A sheet that ends in a backslash keeps the planner from ending. *)
Example backslash_site_does_not_end :
  planBuild checksum noTypes noImportmap asIs asIs
    [mkRoot (Some (mkFs [("a.css", Some [backslash])] false)) EmptyString EmptyString] (Some ∅) config = OutOfSteps.
Proof. vm_compute. reflexivity. Qed.

Lemma contents_refer_to_published_names_witness :
  exists plan, planSite = Done (Ok plan) /\
    exists collected, collectAssets (bp_roots plan) = Done (Ok collected) /\
      forall l, is_Some (Entries (bp_manifest plan) !! l) <-> is_Some (collected !! l).
Proof.
  assert (S : succeeds planSite = true) by (vm_compute; reflexivity).
  destruct (succeeds_Ok planSite S) as [plan E]. exists plan. split; [exact E|]. unfold planSite in E.
  destruct (contents_refer_to_published_names checksum noTypes noImportmap asIs asIs site (Some ∅) config plan E)
    as (collected & Hc & _ & Hl & _). exists collected. split; [exact Hc|exact Hl].
Defined.

Lemma names_carry_content_hashes_witness :
  exists plan, planSite = Done (Ok plan) /\
    exists collected, collectAssets (bp_roots plan) = Done (Ok collected) /\
      forall l a, bp_assets plan !! l = Some a -> pa_output a = hashedName l (pa_outputHash a).
Proof.
  assert (S : succeeds planSite = true) by (vm_compute; reflexivity).
  destruct (succeeds_Ok planSite S) as [plan E]. exists plan. split; [exact E|]. unfold planSite in E.
  destruct (names_carry_content_hashes checksum noTypes noImportmap asIs asIs site (Some ∅) config plan E)
    as (collected & Hc & Hl & _). exists collected. split; [exact Hc|]. intros l a Ha. exact (proj1 (Hl l a Ha)).
Defined.

Definition site_url (logical : string) : option string :=
  match buildSite with
  | Done (Ok c) => match CompiledAsset checksum noTypes c logical with Ok url => Some url | Err _ => None end
  | _ => None
  end.

Lemma site_url_Some logical url : site_url logical = Some url ->
  exists c, buildSite = Done (Ok c) /\ CompiledAsset checksum noTypes c logical = Ok url.
Proof.
  unfold site_url. destruct buildSite as [[c|]| |]; [|done..].
  destruct (CompiledAsset checksum noTypes c logical) as [u|] eqn:E; [|done]. intros [= ->]. by exists c.
Qed.

Definition the_url : string := default EmptyString (site_url "b.js").

Lemma compiled_urls_are_served_witness :
  exists c, buildSite = Done (Ok c) /\ CompiledAsset checksum noTypes c "b.js" = Ok the_url /\
    exists content, forall inm, inm <> quoted (hashContent checksum content) ->
      body (serveCompiled noTypes c (mkRequest "GET" the_url inm)) = content.
Proof.
  assert (S : site_url "b.js" = Some the_url) by (vm_compute; reflexivity).
  destruct (site_url_Some "b.js" the_url S) as (c & E & EU). exists c. split; [exact E|]. split; [exact EU|]. unfold buildSite in E.
  destruct (compiled_urls_are_served checksum noTypes noImportmap asIs asIs (fun r => r) site (Some ∅) config c "b.js"
    the_url E EU) as (plan & collected & asset & a & content & _ & _ & _ & _ & _ & H & _). exists content. intros inm Hi. rewrite (H inm Hi). reflexivity.
Defined.

(** What a browser gets for the script of the cycle: the names of the published files. *)
Example served_script :
  match buildSite with
  | Done (Ok c) => option_map (fun url => text (body (serveCompiled noTypes c (mkRequest "GET" url EmptyString)))) (site_url "a.js")
                   = option_map (fun url => "import '" +:+ url +:+ "'") (site_url "b.js")
  | _ => False
  end.
Proof. vm_compute. reflexivity. Qed.

Definition devSite : Mapper := mkMapper site "/assets/" None.
Definition dev_url : string := match Asset checksum noTypes devSite "main.css" with Ok url => url | Err _ => EmptyString end.

Lemma checksum_length b : length (checksum b) = 32.
Proof. unfold checksum. by rewrite length_map, length_seq. Qed.

Lemma development_urls_are_served_witness :
  manifest devSite = None /\ Asset checksum noTypes devSite "main.css" = Ok dev_url /\
  exists content, dev_url = urlPrefix devSite +:+ hashedName "main.css" (hashContent checksum content).
Proof.
  assert (HA : Asset checksum noTypes devSite "main.css" = Ok dev_url) by (vm_compute; reflexivity).
  assert (HS : TrimSuffix (Split (cleanLogical "main.css")).2 (Ext (Split (cleanLogical "main.css")).2) <> EmptyString)
    by (vm_compute; discriminate).
  split; [reflexivity|]. split; [exact HA|].
  destruct (development_urls_are_served checksum noTypes devSite "main.css" dev_url (eq_refl None) checksum_length HS HA)
    as (content & _ & E & _). exists content. exact E.
Defined.
