(* ===== verification/Query.v ===== *)
(** SQL statements generated from structs, and the scans of their rows: src/query/dialect.go,
    identifier.go, write.go, scan.go, errors.go, tx.go and db.go.

    SQL text is a list of bytes. A struct type is the list of its fields as reflection
    describes them, a row the values of its fields; the cache of field maps is transparent and
    left out. The database, the formats of time, conversions of database/sql and registered
    classifiers are arguments. *)

From S2P Require Import Prelude.
From S2P Require Import Strconv.
From S2P Require Import Strings.
From S2P Require Import GoTime.

Local Open Scope go_scope.

Definition sql : Type := list Ascii.ascii.
Notation raw := String.list_ascii_of_string.
Notation text := String.string_of_list_ascii.

Definition squote : Ascii.ascii := "'"%char.
Definition dquote : Ascii.ascii := "034"%char.

Definition isDigit (c : Ascii.ascii) : bool := byte_in "0" "9" c.
Definition isLetter (c : Ascii.ascii) : bool := byte_in "a" "z" c || byte_in "A" "Z" c.
Definition isQuote (c : Ascii.ascii) : bool := Ascii.eqb c squote || Ascii.eqb c dquote.

(** ** Dialects *)

Inductive Dialect := DialectSQLite | DialectPostgres | UnknownDialect (d : Z).

Definition checkDialect (d : Dialect) : bool := match d with UnknownDialect _ => false | _ => true end.

(** The quoted text from behind its opening quote to its end, what follows, and whether
    the quote is closed. *)
Fixpoint skipQuoted (quote : Ascii.ascii) (stmt : sql) : sql * sql * bool :=
  match stmt with
  | [] => ([], [], false)
  | c :: rest =>
      if Ascii.eqb c quote then
        match rest with
        | c' :: rest' =>
            if Ascii.eqb c' quote
            then let '(quoted, rest, ok) := skipQuoted quote rest' in (c :: c' :: quoted, rest, ok)
            else ([c], rest, true)
        | [] => ([c], [], true)
        end
      else let '(quoted, rest, ok) := skipQuoted quote rest in (c :: quoted, rest, ok)
  end.

(** The loop of [rebindPostgres]; [n] placeholders are numbered already. *)
Fixpoint rebind (fuel : nat) (n : nat) (stmt : sql) : sql :=
  match fuel, stmt with
  | S fuel, c :: rest =>
      if isQuote c then let '(quoted, rest, _) := skipQuoted c rest in c :: quoted ++ rebind fuel n rest
      else if Ascii.eqb c "?" then "$"%char :: raw (FormatInt (Z.of_nat (S n))) ++ rebind fuel (S n) rest
      else c :: rebind fuel n rest
  | _, _ => []
  end.

Definition rebindPostgres (stmt : sql) : sql := rebind (length stmt) 0 stmt.

(** [None]: an unknown dialect. *)
Definition finalize (d : Dialect) (stmt : sql) : option sql :=
  match d with
  | UnknownDialect _ => None
  | DialectPostgres => Some (rebindPostgres stmt)
  | DialectSQLite => Some stmt
  end.

(** ** Where fragments *)

Inductive whereFault :=
| EmptyWhere
| EscapeString
| Unterminated (quote : Ascii.ascii)
| JSONBOperator (c : Ascii.ascii)
| NumberedMark (token : sql)
| MarkThen (c : Ascii.ascii)
| DollarNumber (token : sql)
| DollarQuote (delimiter : sql)
| LineComment
| BlockComment.

Definition isIdentChar (c : Ascii.ascii) : bool :=
  Ascii.eqb c "_" || Ascii.eqb c "$" || isLetter c || isDigit c.

Definition isSQLSpace (c : Ascii.ascii) : bool :=
  existsb (Ascii.eqb c) [" "; "009"; "010"; "013"; "012"; "011"]%char.

Definition isTagStart (c : Ascii.ascii) : bool := Ascii.eqb c "_" || isLetter c.

(** [seen]: the bytes before the quote, the nearest first. *)
Definition isEscapeStringPrefix (seen : sql) : bool :=
  match seen with
  | [] => false
  | c :: seen =>
      if negb (Ascii.eqb c "E" || Ascii.eqb c "e") then false
      else match seen with [] => true | d :: _ => negb (isIdentChar d) end
  end.

Fixpoint digitRun (s : sql) : sql :=
  match s with c :: s => if isDigit c then c :: digitRun s else [] | [] => [] end.

Fixpoint tagRun (s : sql) : option sql :=
  match s with
  | [] => None
  | c :: s =>
      if Ascii.eqb c "$" then Some [c]
      else if negb (isTagStart c) && negb (isDigit c) then None
      else cons c <$> tagRun s
  end.

(** [dollarTagEnd], on what follows the dollar: the rest of the delimiter. *)
Definition dollarTagEnd (s : sql) : option sql :=
  match s with
  | [] => None
  | c :: s' => if Ascii.eqb c "$" then Some [c] else if isTagStart c then cons c <$> tagRun s' else None
  end.

Fixpoint skipSpaces (s : sql) : sql :=
  match s with c :: s' => if isSQLSpace c then skipSpaces s' else s | [] => [] end.

(** What may not follow a placeholder. *)
Definition checkMark (rest : sql) : option whereFault :=
  let jsonb :=
    match rest with
    | c :: rest' =>
        if Ascii.eqb c "&" then Some (JSONBOperator c)
        else if Ascii.eqb c "|" then
          match rest' with d :: _ => if Ascii.eqb d "|" then None else Some (JSONBOperator c) | [] => Some (JSONBOperator c) end
        else if isDigit c then Some (NumberedMark ("?"%char :: digitRun rest))
        else None
    | [] => None
    end in
  match jsonb with
  | Some f => Some f
  | None =>
      match skipSpaces rest with
      | c :: _ => if Ascii.eqb c squote || Ascii.eqb c "?" || Ascii.eqb c "(" then Some (MarkThen c) else None
      | [] => None
      end
  end.

Definition checkDollar (rest : sql) : option whereFault :=
  if match rest with c :: _ => isDigit c | [] => false end then Some (DollarNumber ("$"%char :: digitRun rest))
  else match dollarTagEnd rest with Some delimiter => Some (DollarQuote ("$"%char :: delimiter)) | None => None end.

Definition starts (c : Ascii.ascii) (s : sql) : bool := match s with d :: _ => Ascii.eqb d c | [] => false end.

(** The cases of the loop that are not quotes, at the byte [c] before [rest]. *)
Definition checkByte (c : Ascii.ascii) (rest : sql) : option whereFault :=
  if Ascii.eqb c "?" then checkMark rest
  else if Ascii.eqb c "$" then checkDollar rest
  else if Ascii.eqb c "-" then if starts "-" rest then Some LineComment else None
  else if Ascii.eqb c "/" then if starts "*" rest then Some BlockComment else None
  else None.

Fixpoint checkLoop (fuel : nat) (seen where_ : sql) : option whereFault :=
  match fuel, where_ with
  | S fuel, c :: rest =>
      if isQuote c then
        if Ascii.eqb c squote && isEscapeStringPrefix seen then Some EscapeString
        else
          let '(quoted, rest, ok) := skipQuoted c rest in
          if negb ok then Some (Unterminated c) else checkLoop fuel (rev quoted ++ c :: seen) rest
      else match checkByte c rest with Some f => Some f | None => checkLoop fuel (c :: seen) rest end
  | _, _ => None
  end.

Definition checkWhere (where_ : sql) : option whereFault :=
  if bool_decide (TrimSpace (text where_) = EmptyString) then Some EmptyWhere
  else checkLoop (length where_) [] where_.

(** ** Identifiers *)

Fixpoint identRest (s : sql) : sql :=
  match s with c :: s' => if isIdentChar c then identRest s' else s | [] => [] end.

(** One segment of [identifierRe] and what follows it. *)
Definition segment (s : sql) : option sql :=
  match s with
  | [] => None
  | c :: s' =>
      if isTagStart c then Some (identRest s')
      else if Ascii.eqb c dquote then
        match skipQuoted dquote s' with
        | (_ :: _ :: _, rest, true) => Some rest
        | _ => None
        end
      else None
  end.

Fixpoint segmentsOf (fuel : nat) (s : sql) : bool :=
  match fuel, segment s with
  | S fuel, Some rest =>
      match rest with [] => true | c :: rest => Ascii.eqb c "." && segmentsOf fuel rest end
  | _, _ => false
  end.

Definition validIdentifier (s : sql) : bool := segmentsOf (S (length s)) s.
Definition validColumn (s : sql) : bool := match segment s with Some [] => true | _ => false end.

(** [strings.ReplaceAll] of a doubled quote by one. *)
Fixpoint undouble (s : sql) : sql :=
  match s with
  | c :: ((c' :: s'') as s') => if Ascii.eqb c dquote && Ascii.eqb c' dquote then c :: undouble s'' else c :: undouble s'
  | _ => s
  end.

Definition unquoteIdent (s : sql) : sql :=
  match s with
  | c :: s' =>
      if Ascii.eqb c dquote && bool_decide (s' <> []) && bool_decide (last s' = Some dquote)
      then undouble (removelast s') else s
  | [] => []
  end.

(** ** Columns *)

Definition isLower (c : Ascii.ascii) : bool := byte_in "a" "z" c.
Definition isUpper (c : Ascii.ascii) : bool := byte_in "A" "Z" c.

(** [snakeCase] from a byte on; field names are valid UTF-8, whose other runes are
    copied. *)
Fixpoint snakeFrom (prev : option Ascii.ascii) (name : sql) : sql :=
  match name with
  | [] => []
  | c :: name =>
      (if isUpper c then
         let bar := match prev with
                    | Some p => isLower p || isUpper p && match name with d :: _ => isLower d | [] => false end
                    | None => false
                    end in
         (if bar then ["_"%char] else []) ++ [ascii_of (byte_of c + 32)]
       else [c]) ++ snakeFrom (Some c) name
  end.
Definition snakeCase (name : sql) : sql := snakeFrom None name.

(** A field's type: a scalar behind any pointers; [time.Time] behind a number of pointers;
    another struct behind any pointers, with what [isColumnStruct] says of it and whether
    the field can be scanned and bound. *)
Inductive fieldKind := Scalar | TimeField (pointers : nat) | StructField (column readOK writeOK : bool).

Record Field := mkField { f_Name : sql; f_exported : bool; f_tag : sql; f_kind : fieldKind }.

(** The zero [time.Time] is an instant and has no location. *)
Record goTime := mkTime { instant : Time; zoned : bool }.
Definition zeroTime : goTime := mkTime zero_time false.
Definition UTC (t : goTime) : goTime := mkTime (instant t) false.

(** What a field holds or an argument is. *)
Inductive value :=
| Nil
| Int (z : Z)
| Uint (z : Z)
| Text (s : string)
| Bytes (s : string)
| TimeV (t : goTime)
| TimePtr (t : option goTime)
| Named (name : string) (v : value)
| Other (zero : bool) (n : Z).

(** [reflect.Value.IsZero] *)
Definition isZero (v : value) : bool :=
  match v with
  | Nil | TimePtr None => true
  | Int z | Uint z => (z =? 0)%Z
  | Text s => bool_decide (s = EmptyString)
  | TimeV t => IsZero (instant t) && negb (zoned t)
  | Other zero _ => zero
  | _ => false
  end.

(** [pkAsInt64] *)
Definition pkAsInt64 (v : value) : Z :=
  match v with
  | Int z => z
  | Uint u => if (int64_max <? u)%Z then 0%Z else u
  | _ => 0%Z
  end.

Record fieldInfo := mkInfo { index : nat; column : sql; colStruct : bool; readOK : bool; writeOK : bool }.

Record fieldMap := mkMap { fields : list fieldInfo; colToField : gmap string nat; pkIndex : option nat }.

(** An error of database/sql or of a driver: its message and the SQLSTATE [errors.As] finds. *)
Record driverError := mkDriverError { Error : string; SQLState : option string }.

Inductive sentinel := ErrUnique | ErrForeignKey | ErrCheck | OtherSentinel (name : string).

Inductive queryError :=
| ErrInvalidIdentifier (name : sql)
| ErrUnsupportedFieldType (name : sql)
| ErrDuplicateColumn (col prev name : sql)
| ErrNoColumns
| NotAStruct
| NotASlice
| UnknownDialectError
| BadWhere (f : whereFault)
| ErrNotFound
| AffectedRows (n : Z)
| DuplicateResult (col : sql) (prev i : nat)
| ResultColumns (n : nat)
| Classified (s : sentinel) (e : driverError)
| Driver (e : driverError)
| NilExecutor
| AlreadyDB
| NotADatabase.

Section Query.
Context (lower : Z -> Z).

Definition columnKey (col : sql) : string := ToLower lower (text (unquoteIdent col)).

Definition columnOf (f : Field) : sql := if bool_decide (f_tag f = []) then snakeCase (f_Name f) else f_tag f.

Definition infoOf (i : nat) (f : Field) (col : sql) : fieldInfo :=
  match f_kind f with
  | StructField _ r w => mkInfo i col true r w
  | _ => mkInfo i col false false false
  end.

Definition supportedField (f : Field) : bool :=
  match f_kind f with Scalar => true | TimeField pointers => (pointers <=? 1)%nat | StructField ok _ _ => ok end.

Definition skippedField (f : Field) : bool := negb (f_exported f) || bool_decide (f_tag f = ["-"%char]).

(** The loop over the fields from the [i]-th on; [owner] is [colOwner]. *)
Fixpoint buildFields (i : nat) (typ : list Field) (owner : gmap string sql) (fm : fieldMap) : result queryError fieldMap :=
  match typ with
  | [] => Ok fm
  | f :: typ =>
      if skippedField f then buildFields (S i) typ owner fm
      else if negb (supportedField f) then Err (ErrUnsupportedFieldType (f_Name f))
      else
        let col := columnOf f in
        if negb (validColumn col) then Err (ErrInvalidIdentifier col)
        else
          let key := columnKey col in
          match owner !! key with
          | Some prev => Err (ErrDuplicateColumn col prev (f_Name f))
          | None =>
              buildFields (S i) typ (<[key := f_Name f]> owner)
                (mkMap (fields fm ++ [infoOf i f col]) (<[key := i]> (colToField fm))
                   (if bool_decide (key = "id"%string) then Some (length (fields fm)) else pkIndex fm))
          end
  end.

Definition buildFieldMap (typ : list Field) : result queryError fieldMap := buildFields 0 typ ∅ (mkMap [] ∅ None).

Definition checkTable (table : sql) : option queryError :=
  if validIdentifier table then None else Some (ErrInvalidIdentifier table).

Definition checkColumns (fm : fieldMap) : option queryError :=
  match fields fm with [] => Some ErrNoColumns | _ => None end.

Definition checkWritable (fm : fieldMap) : option queryError :=
  match find (fun f => colStruct f && negb (writeOK f)) (fields fm) with
  | Some f => Some (ErrUnsupportedFieldType (column f))
  | None => None
  end.

Definition whereError (where_ : sql) : option queryError := BadWhere <$> checkWhere where_.

(** ** Values of rows and arguments *)

Context (RFC3339Nano : goTime -> string).

(** A row: the fields of the struct type, in order. *)
Definition FieldOf (val : list value) (f : fieldInfo) : value := nth (index f) val Nil.

Definition timeArg (t : goTime) : value :=
  if IsZero (instant t) then Text EmptyString else Text (RFC3339Nano (UTC t)).

Fixpoint argOf (v : value) : value :=
  match v with
  | TimeV t => timeArg t
  | TimePtr None => Nil
  | TimePtr (Some t) => timeArg t
  | Named name v => Named name (argOf v)
  | _ => v
  end.

Definition normArgs (args : list value) : list value := argOf <$> args.

(** ** The text of the writes *)

Fixpoint join {A} (sep : list A) (parts : list (list A)) : list A :=
  match parts with
  | [] => []
  | [p] => p
  | p :: parts => p ++ sep ++ join sep parts
  end.

Definition skipsPK (fm : fieldMap) (val : list value) (i : nat) (f : fieldInfo) : bool :=
  bool_decide (Some i = pkIndex fm) && isZero (FieldOf val f).

(** The columns [keep] holds of, with their positions in the struct. *)
Fixpoint chosen (keep : nat -> fieldInfo -> bool) (i : nat) (fs : list fieldInfo) : list fieldInfo :=
  match fs with
  | [] => []
  | f :: fs => (if keep i f then [f] else []) ++ chosen keep (S i) fs
  end.

Definition mark : sql := ["?"%char].

Definition buildInsertParts (fm : fieldMap) (val : list value) : list sql * list sql * list value :=
  let fs := chosen (fun i f => negb (skipsPK fm val i f)) 0 (fields fm) in
  (column <$> fs, (fun _ => mark) <$> fs, (fun f => argOf (FieldOf val f)) <$> fs).

Definition insertText (table : sql) (cols placeholders : list sql) : sql :=
  match cols with
  | [] => raw "INSERT INTO " ++ table ++ raw " DEFAULT VALUES"
  | _ => raw "INSERT INTO " ++ table ++ raw " (" ++ join (raw ", ") cols ++ raw ") VALUES ("
           ++ join (raw ", ") placeholders ++ raw ")"
  end.

Definition rowText (columns : nat) : sql :=
  raw "(" ++ concat (replicate (columns - 1) (raw "?, ")) ++ raw "?)".

Definition insertManyText (table : sql) (cols : list sql) (rows : nat) : sql :=
  raw "INSERT INTO " ++ table ++ raw " (" ++ join (raw ", ") cols ++ raw ") VALUES "
    ++ join (raw ", ") (replicate rows (rowText (length cols))).

Definition updateText (table : sql) (fm : fieldMap) (where_ : sql) : sql :=
  raw "UPDATE " ++ table ++ raw " SET " ++ join (raw ", ") ((fun f => column f ++ raw " = ?") <$> fields fm)
    ++ raw " WHERE " ++ where_.

Definition deleteText (table where_ : sql) : sql := raw "DELETE FROM " ++ table ++ raw " WHERE " ++ where_.

(** [reflect.TypeOf(row)] is a struct type or not. *)
Definition structType (typ : option (list Field)) : result queryError (list Field) :=
  match typ with Some typ => Ok typ | None => Err NotAStruct end.

(** What all writes check of a struct type. *)
Definition writableMap (typ : option (list Field)) : result queryError fieldMap :=
  let? typ := structType typ in
  let? fm := buildFieldMap typ in
  check? checkColumns fm;;
  check? checkWritable fm;;
  Ok fm.

Definition finalized (d : Dialect) (stmt : sql) : result queryError sql :=
  match finalize d stmt with Some stmt => Ok stmt | None => Err UnknownDialectError end.

(** The statement and the arguments of [Insert], and the primary key's value when it is set. *)
Definition insertStmt (d : Dialect) (table : sql) (typ : option (list Field)) (val : list value)
    : result queryError (sql * list value * option value) :=
  check? checkTable table;;
  let? fm := writableMap typ in
  let '(cols, placeholders, args) := buildInsertParts fm val in
  let? query := finalized d (insertText table cols placeholders) in
  let pk := match pkIndex fm with
            | Some i => match fields fm !! i with
                        | Some f => if isZero (FieldOf val f) then None else Some (FieldOf val f)
                        | None => None
                        end
            | None => None
            end in
  Ok (query, args, pk).

(** The columns [InsertMany] writes: without the primary key when no row sets it. *)
Definition manyColumns (fm : fieldMap) (rows : list (list value)) : list fieldInfo :=
  let includePK :=
    match pkIndex fm with
    | None => true
    | Some i => existsb (fun val => match fields fm !! i with
                                    | Some f => negb (isZero (FieldOf val f))
                                    | None => false
                                    end) rows
    end in
  chosen (fun i _ => includePK || negb (bool_decide (Some i = pkIndex fm))) 0 (fields fm).

(** [rows]: none when the argument is not a slice. No statement is needed for an empty slice. *)
Definition insertManyStmt (d : Dialect) (table : sql) (typ : option (list Field)) (rows : option (list (list value)))
    : result queryError (option (sql * list value)) :=
  check? checkTable table;;
  let? rows := match rows with Some rows => Ok rows | None => Err NotASlice end in
  let? fm := writableMap typ in
  check? (if checkDialect d then None else Some UnknownDialectError);;
  match rows with
  | [] => Ok None
  | _ =>
      let fs := manyColumns fm rows in
      match fs with
      | [] => Err ErrNoColumns
      | _ =>
          let? query := finalized d (insertManyText table (column <$> fs) (length rows)) in
          Ok (Some (query, concat ((fun val => (fun f => argOf (FieldOf val f)) <$> fs) <$> rows)))
      end
  end.

Definition updateStmt (d : Dialect) (table where_ : sql) (typ : option (list Field)) (val whereArgs : list value)
    : result queryError (sql * list value) :=
  check? checkTable table;;
  check? whereError where_;;
  let? fm := writableMap typ in
  let? query := finalized d (updateText table fm where_) in
  Ok (query, ((fun f => argOf (FieldOf val f)) <$> fields fm) ++ normArgs whereArgs).

Definition deleteStmt (d : Dialect) (table where_ : sql) (whereArgs : list value) : result queryError (sql * list value) :=
  check? checkTable table;;
  check? whereError where_;;
  let? stmt := finalized d (deleteText table where_) in
  Ok (stmt, normArgs whereArgs).

(** ** Classified errors *)

Context (strings_Contains : string -> string -> bool).

Definition classifyPostgres (e : driverError) : option sentinel :=
  match SQLState e with
  | Some state =>
      if bool_decide (state = "23505"%string) then Some ErrUnique
      else if bool_decide (state = "23503"%string) then Some ErrForeignKey
      else if bool_decide (state = "23514"%string) then Some ErrCheck
      else None
  | None => None
  end.

Definition classifySQLite (e : driverError) : option sentinel :=
  if strings_Contains (Error e) "UNIQUE constraint failed" then Some ErrUnique
  else if strings_Contains (Error e) "FOREIGN KEY constraint failed" then Some ErrForeignKey
  else if strings_Contains (Error e) "CHECK constraint failed" then Some ErrCheck
  else None.

Fixpoint firstSentinel (cs : list (driverError -> option sentinel)) (e : driverError) : option sentinel :=
  match cs with
  | [] => None
  | c :: cs => match c e with Some s => Some s | None => firstSentinel cs e end
  end.

(** [classify], for the registered classifiers. *)
Context (classifiers : list (driverError -> option sentinel)).

Definition classify (e : driverError) : queryError :=
  match firstSentinel (classifiers ++ [classifyPostgres; classifySQLite]) e with
  | Some s => Classified s e
  | None => Driver e
  end.

(** ** Writes *)

(** What a statement reports: [sql.Result], whose insert id is 0 when there is none. *)
Record sqlResult := mkResult { LastInsertId : Z; RowsAffected : result driverError Z }.

Context {D : Type}.

Definition executor : Type := sql -> list value -> D -> D * result driverError sqlResult.

Definition exec (db : executor) (query : sql) (args : list value) (d : D) : D * result queryError sqlResult :=
  let '(d, res) := db query args d in
  (d, match res with Ok res => Ok res | Err e => Err (classify e) end).

Definition Insert (db : executor) (dialect : Dialect) (table : sql) (typ : option (list Field)) (row : list value) (d : D)
    : D * result queryError Z :=
  match insertStmt dialect table typ row with
  | Err e => (d, Err e)
  | Ok (query, args, pk) =>
      let '(d, res) := exec db query args d in
      (d, let? res := res in
          Ok match pk with Some v => pkAsInt64 v | None => LastInsertId res end)
  end.

Definition InsertMany (db : executor) (dialect : Dialect) (table : sql) (typ : option (list Field))
    (rows : option (list (list value))) (d : D) : D * result queryError unit :=
  match insertManyStmt dialect table typ rows with
  | Err e => (d, Err e)
  | Ok None => (d, Ok ())
  | Ok (Some (query, args)) =>
      let '(d, res) := exec db query args d in
      (d, let? _ := res in Ok ())
  end.

(** The count of rows is the driver's; its error is passed on as it is. *)
Definition affected (res : result queryError sqlResult) : result queryError Z :=
  let? res := res in
  match RowsAffected res with Ok n => Ok n | Err e => Err (Driver e) end.

Definition Update (db : executor) (dialect : Dialect) (table where_ : sql) (typ : option (list Field))
    (row whereArgs : list value) (d : D) : D * result queryError Z :=
  match updateStmt dialect table where_ typ row whereArgs with
  | Err e => (d, Err e)
  | Ok (query, args) => let '(d, res) := exec db query args d in (d, affected res)
  end.

Definition Delete (db : executor) (dialect : Dialect) (table where_ : sql) (whereArgs : list value) (d : D)
    : D * result queryError Z :=
  match deleteStmt dialect table where_ whereArgs with
  | Err e => (d, Err e)
  | Ok (stmt, args) => let '(d, res) := exec db stmt args d in (d, affected res)
  end.

Definition exactlyOne (n : Z) : option queryError :=
  if (n =? 0)%Z then Some ErrNotFound else if (1 <? n)%Z then Some (AffectedRows n) else None.

Definition reportOne (r : D * result queryError Z) : D * result queryError unit :=
  (r.1, let? n := r.2 in check? exactlyOne n;; Ok ()).

Definition UpdateOne (db : executor) (dialect : Dialect) (table where_ : sql) (typ : option (list Field))
    (row whereArgs : list value) (d : D) : D * result queryError unit :=
  reportOne (Update db dialect table where_ typ row whereArgs d).

Definition DeleteOne (db : executor) (dialect : Dialect) (table where_ : sql) (whereArgs : list value) (d : D)
    : D * result queryError unit :=
  reportOne (Delete db dialect table where_ whereArgs d).

(** ** Transactions *)

Inductive outcome (A : Type) := Returned (r : A) | Panicked.
Arguments Returned {A} r.
Arguments Panicked {A}.

Inductive txError :=
| BeginFailed (e : driverError)
| FnFailed (e : queryError) (rollback : option driverError)
| CommitFailed (e : queryError).

(** What [Tx] uses of a database handle. *)
Record txDriver := mkTx {
  BeginTx : D -> D * option driverError;
  Commit : D -> D * option driverError;
  Rollback : D -> D * option driverError
}.

(** A panic of [fn] passes on once its transaction is rolled back. *)
Definition Tx (t : txDriver) (fn : D -> D * outcome (option queryError)) (d : D) : D * outcome (option txError) :=
  match BeginTx t d with
  | (d, Some e) => (d, Returned (Some (BeginFailed e)))
  | (d, None) =>
      match fn d with
      | (d, Panicked) => ((Rollback t d).1, Panicked)
      | (d, Returned (Some e)) =>
          let '(d, rerr) := Rollback t d in (d, Returned (Some (FnFailed e rerr)))
      | (d, Returned None) =>
          let '(d, cerr) := Commit t d in (d, Returned (CommitFailed <$> (classify <$> cerr)))
      end
  end.

(** ** Handles *)

(** What a handle wraps: an executor, with its transactions when it is a [*sql.DB]. *)
Record Raw := mkRaw { execute : executor; transactions : option txDriver }.

Record DB := mkDB { db_exec : Raw; db_dialect : Dialect }.

Inductive Handle := NilHandle | RawHandle (r : Raw) | DBHandle (q : DB).

Definition New (h : Handle) (d : Dialect) : result queryError DB :=
  match h with
  | NilHandle => Err NilExecutor
  | DBHandle _ => Err AlreadyDB
  | RawHandle r => check? (if checkDialect d then None else Some UnknownDialectError);; Ok (mkDB r d)
  end.

Definition ExecContext (q : DB) : executor := fun query args => execute (db_exec q) query (normArgs args).

Definition DB_Insert (q : DB) := Insert (execute (db_exec q)) (db_dialect q).
Definition DB_InsertMany (q : DB) := InsertMany (execute (db_exec q)) (db_dialect q).
Definition DB_Update (q : DB) := Update (execute (db_exec q)) (db_dialect q).
Definition DB_Delete (q : DB) := Delete (execute (db_exec q)) (db_dialect q).
Definition DB_UpdateOne (q : DB) := UpdateOne (execute (db_exec q)) (db_dialect q).
Definition DB_DeleteOne (q : DB) := DeleteOne (execute (db_exec q)) (db_dialect q).

(** [tx]: the executor of the transaction. *)
Definition DB_Tx (q : DB) (tx : executor) (fn : DB -> D -> D * outcome (option queryError)) (d : D)
    : D * outcome (option (queryError + txError)) :=
  match transactions (db_exec q) with
  | None => (d, Returned (Some (inl NotADatabase)))
  | Some t =>
      match Tx t (fn (mkDB (mkRaw tx None) (db_dialect q))) d with
      | (d, Returned e) => (d, Returned (inr <$> e))
      | (d, Panicked) => (d, Panicked)
      end
  end.

(** ** Reads *)

(** A result set: its columns, its rows, and what [Rows.Err] reports at its end. *)
Record Rows := mkRows { Columns : result driverError (list sql); data : list (list value); after : option driverError }.

Definition querier : Type := sql -> list value -> D -> D * result driverError Rows.

Definition QueryContext (q : querier) : querier := fun query args => q query (normArgs args).

(** [time.Parse]; the conversions of [Rows.Scan] to other types; its error for a time. *)
Context (Parse : string -> string -> option goTime) (convert : Field -> value -> result driverError value).
Context (timeScanError : value -> driverError).

Definition layouts : list string :=
  ["2006-01-02T15:04:05.999999999Z07:00"; "2006-01-02T15:04:05Z07:00"; "2006-01-02 15:04:05.999999999-07:00";
   "2006-01-02 15:04:05"; "2006-01-02"]%string.

Fixpoint firstLayout (ls : list string) (s : string) : option goTime :=
  match ls with
  | [] => None
  | l :: ls => match Parse l s with Some t => Some t | None => firstLayout ls s end
  end.

(** [timeScanner.parse] *)
Definition parse (s : string) : option goTime :=
  if bool_decide (s = EmptyString) then Some zeroTime else firstLayout layouts s.

(** [timeScanner.Scan] *)
Definition timeScanner (src : value) : result driverError goTime :=
  match
    match src with
    | TimeV t => Some t
    | Text s | Bytes s => parse s
    | Nil => Some zeroTime
    | _ => None
    end
  with Some t => Ok t | None => Err (timeScanError src) end.

(** [ptrTimeScanner.Scan] *)
Definition ptrTimeScanner (src : value) : result driverError (option goTime) :=
  match src with
  | Nil => Ok None
  | _ => let? t := timeScanner src in Ok (Some t)
  end.

Definition scanField (f : Field) (src : value) : result driverError value :=
  match f_kind f with
  | TimeField O => let? t := timeScanner src in Ok (TimeV t)
  | TimeField 1 => let? t := ptrTimeScanner src in Ok (TimePtr t)
  | _ => convert f src
  end.

(** [rowType] *)
Definition rowType (typ : option (list Field)) : result queryError (list Field * fieldMap) :=
  let? typ := structType typ in
  let? fm := buildFieldMap typ in
  match find (fun f => colStruct f && negb (readOK f)) (fields fm) with
  | Some f => Err (ErrUnsupportedFieldType (column f))
  | None => Ok (typ, fm)
  end.

Fixpoint planColumns (fm : fieldMap) (i : nat) (seen : gmap string nat) (cols : list sql)
    : result queryError (list (option nat)) :=
  match cols with
  | [] => Ok []
  | c :: cols =>
      let lc := ToLower lower (text c) in
      match seen !! lc with
      | Some prev => Err (DuplicateResult c prev i)
      | None => let? plan := planColumns fm (S i) (<[lc := i]> seen) cols in Ok (colToField fm !! lc :: plan)
      end
  end.

(** [newScanPlan] *)
Definition newScanPlan (fm : fieldMap) (rows : Rows) : result queryError (list (option nat)) :=
  match Columns rows with
  | Err e => Err (classify e)
  | Ok cols => planColumns fm 0 ∅ cols
  end.

(** [scanPlan.scan] into the struct [item]. *)
Fixpoint scan (typ : list Field) (plan : list (option nat)) (row item : list value) : result queryError (list value) :=
  match plan, row with
  | Some i :: plan, src :: row =>
      match typ !! i with
      | Some f =>
          match scanField f src with
          | Ok v => scan typ plan row (<[i := v]> item)
          | Err e => Err (classify e)
          end
      | None => scan typ plan row item
      end
  | None :: plan, _ :: row => scan typ plan row item
  | _, _ => Ok item
  end.

Context (zeroOf : Field -> value).

Fixpoint scanAll (typ : list Field) (plan : list (option nat)) (rows : list (list value))
    : result queryError (list (list value)) :=
  match rows with
  | [] => Ok []
  | row :: rows =>
      let? item := scan typ plan row (zeroOf <$> typ) in
      let? out := scanAll typ plan rows in
      Ok (item :: out)
  end.

Definition rowsErr (rows : Rows) : option queryError := classify <$> after rows.

Definition runQuery (db : querier) (query : sql) (args : list value) (d : D) : D * result queryError Rows :=
  let '(d, res) := db query (normArgs args) d in
  (d, match res with Ok rows => Ok rows | Err e => Err (classify e) end).

Definition All (db : querier) (typ : option (list Field)) (query : sql) (args : list value) (d : D)
    : D * result queryError (list (list value)) :=
  match rowType typ with
  | Err e => (d, Err e)
  | Ok (typ, fm) =>
      let '(d, res) := runQuery db query args d in
      (d, let? rows := res in
          let? plan := newScanPlan fm rows in
          let? out := scanAll typ plan (data rows) in
          check? rowsErr rows;;
          Ok out)
  end.

Definition One (db : querier) (typ : option (list Field)) (query : sql) (args : list value) (d : D)
    : D * result queryError (list value) :=
  match rowType typ with
  | Err e => (d, Err e)
  | Ok (typ, fm) =>
      let '(d, res) := runQuery db query args d in
      (d, let? rows := res in
          let? plan := newScanPlan fm rows in
          match data rows with
          | [] => check? rowsErr rows;; Err ErrNotFound
          | row :: _ => scan typ plan row (zeroOf <$> typ)
          end)
  end.

(** [t]: the type of the scalar, as a field would have it. *)
Definition Scalar_ (db : querier) (t : Field) (query : sql) (args : list value) (d : D) : D * result queryError value :=
  let '(d, res) := runQuery db query args d in
  (d, let? rows := res in
      match Columns rows with
      | Err e => Err (classify e)
      | Ok cols =>
          if bool_decide (length cols <> 1) then Err (ResultColumns (length cols))
          else
            match data rows with
            | [] => check? rowsErr rows;; Err ErrNotFound
            | row :: _ =>
                match scanField t (nth 0 row Nil) with
                | Err e => Err (classify e)
                | Ok v => check? rowsErr rows;; Ok v
                end
            end
      end).
End Query.

Arguments mkTx {D} _ _ _.
Arguments BeginTx {D} _ _.
Arguments Commit {D} _ _.
Arguments Rollback {D} _ _.
Arguments Returned {A} r.
Arguments Panicked {A}.
