(* ===== verification/QueryLex.v ===== *)
(** What PostgreSQL reads of the statements of Query.v: a byte-level lexer of its SQL, and
    the theorem that numbering the placeholders of an accepted fragment numbers the tokens
    this lexer finds. The loops of the package scan quoted text as a whole; they are shown
    equal to byte-wise automata, whose state follows the lexer's. *)

From S2P Require Import Prelude.
From S2P Require Import Strconv.
From S2P Require Import Strings.
From S2P Require Import GoTime.
From S2P Require Import Query.

Local Open Scope go_scope.

(** ** PostgreSQL's lexer, byte by byte

    Quoted text, comments (block comments nest), dollar-quoted strings, escape strings,
    words and parameters as in PostgreSQL's scan.l; letters include the bytes from 128 on.
    [?] is read as the placeholder the package means by it. A dollar sign that begins
    nothing is an error there and read as a word here. *)

Inductive item :=
| Code (c : Ascii.ascii)
| Literal (c : Ascii.ascii)
| Comment (c : Ascii.ascii)
| Mark
| Param (n : Z).

Inductive state :=
| Gap
| OneE
| InWord
| InNumber
| Digits
| Quote (q : Ascii.ascii)
| Escaped
| Backslash
| LineC
| BlockC (depth : nat)
| BlockOpen (depth : nat)
| BlockClose (depth : nat)
| Dollar (delimiter : sql)
| Skip (k : nat) (after : option sql).

Definition wordStart (c : Ascii.ascii) : bool := isTagStart c || (128 <=? byte_of c)%Z.
Definition wordByte (c : Ascii.ascii) : bool := isIdentChar c || (128 <=? byte_of c)%Z.

(** The rest of a dollar-quote delimiter, as PostgreSQL reads tags. *)
Fixpoint tagEnd (s : sql) : option sql :=
  match s with
  | [] => None
  | c :: s => if Ascii.eqb c "$" then Some [c] else if wordStart c || isDigit c then cons c <$> tagEnd s else None
  end.

Definition delimiter (s : sql) : option sql :=
  match s with
  | [] => None
  | c :: s' => if Ascii.eqb c "$" then Some [c] else if wordStart c then cons c <$> tagEnd s' else None
  end.

Fixpoint isPrefix (p s : sql) : bool :=
  match p, s with
  | [], _ => true
  | c :: p, d :: s => Ascii.eqb c d && isPrefix p s
  | _, [] => false
  end.

Definition headDigit (s : sql) : bool := match s with c :: _ => isDigit c | [] => false end.

Definition number (s : sql) : Z := from_option id 0%Z (parse_digits 0 (text (digitRun s))).

(** A byte outside words, quotes and comments. *)
Definition gapStep (c : Ascii.ascii) (rest : sql) : list item * state :=
  if isQuote c then ([Literal c], Quote c)
  else if Ascii.eqb c "?" then ([Mark], Gap)
  else if Ascii.eqb c "$" then
    if headDigit rest then ([Param (number rest)], Digits)
    else match delimiter rest with
         | Some d => ([Literal c], Skip (length d - 1) (Some (c :: d)))
         | None => ([Code c], InWord)
         end
  else if Ascii.eqb c "-" && starts "-" rest then ([Comment c], LineC)
  else if Ascii.eqb c "/" && starts "*" rest then ([Comment c], BlockOpen 0)
  else if Ascii.eqb c "E" || Ascii.eqb c "e" then ([Code c], OneE)
  else if wordStart c then ([Code c], InWord)
  else if isDigit c then ([Code c], InNumber)
  else ([Code c], Gap).

Definition step (st : state) (c : Ascii.ascii) (rest : sql) : list item * state :=
  match st with
  | Gap => gapStep c rest
  | OneE =>
      if Ascii.eqb c squote then ([Literal c], Escaped)
      else if wordByte c then ([Code c], InWord) else gapStep c rest
  | InWord => if wordByte c then ([Code c], InWord) else gapStep c rest
  | InNumber => if wordByte c && negb (Ascii.eqb c "$") then ([Code c], InNumber) else gapStep c rest
  | Digits => if isDigit c then ([], Digits) else gapStep c rest
  | Quote q => ([Literal c], if Ascii.eqb c q then Gap else Quote q)
  | Escaped => ([Literal c], if Ascii.eqb c squote then Gap else if Ascii.eqb c "\" then Backslash else Escaped)
  | Backslash => ([Literal c], Escaped)
  | LineC => ([Comment c], if Ascii.eqb c "010" || Ascii.eqb c "013" then Gap else LineC)
  | BlockC depth =>
      ([Comment c],
       if Ascii.eqb c "/" && starts "*" rest then BlockOpen depth
       else if Ascii.eqb c "*" && starts "/" rest then BlockClose depth else BlockC depth)
  | BlockOpen depth => ([Comment c], BlockC (S depth))
  | BlockClose depth => ([Comment c], match depth with S (S depth) => BlockC (S depth) | _ => Gap end)
  | Dollar d =>
      ([Literal c], if isPrefix d (c :: rest) then match length d with S (S k) => Skip k None | _ => Gap end else Dollar d)
  | Skip O after => ([Literal c], match after with Some d => Dollar d | None => Gap end)
  | Skip (S k) after => ([Literal c], Skip k after)
  end.

Fixpoint lexFrom (st : state) (s : sql) : list item :=
  match s with
  | [] => []
  | c :: rest => let '(items, st) := step st c rest in items ++ lexFrom st rest
  end.

Definition lex (s : sql) : list item := lexFrom Gap s.

(** Placeholders numbered from [n] + 1 on. *)
Fixpoint renumber (n : nat) (l : list item) : list item :=
  match l with
  | [] => []
  | Mark :: l => Param (Z.of_nat (S n)) :: renumber (S n) l
  | i :: l => i :: renumber n l
  end.

Definition isMark (i : item) : bool := match i with Mark => true | _ => false end.
Definition isParam (i : item) : bool := match i with Param _ => true | _ => false end.
Definition isComment (i : item) : bool := match i with Comment _ => true | _ => false end.
Definition marks (l : list item) : nat := length (filter (fun i => isMark i = true) l).
Definition params (l : list item) : list Z := omap (fun i => match i with Param n => Some n | _ => None end) l.
Definition literals (l : list item) : sql := omap (fun i => match i with Literal c => Some c | _ => None end) l.

(** No placeholder directly behind a word, where its dollar sign would belong to the word. *)
Fixpoint markApart (q : option Ascii.ascii) (prev : option Ascii.ascii) (s : sql) : bool :=
  match s with
  | [] => true
  | c :: rest =>
      match q with
      | Some q' => markApart (if Ascii.eqb c q' then None else q) (Some c) rest
      | None =>
          if isQuote c then markApart (Some c) (Some c) rest
          else negb (Ascii.eqb c "?" && match prev with Some p => isIdentChar p | None => false end)
               && markApart None (Some c) rest
      end
  end.

(** ** The loops of the package, byte by byte

    A doubled quote ends one quoted text and begins another, so scanning quoted texts as a
    whole and following them byte by byte agree. *)

Fixpoint rebindFrom (q : option Ascii.ascii) (n : nat) (s : sql) : sql :=
  match s with
  | [] => []
  | c :: rest =>
      match q with
      | Some q' => c :: rebindFrom (if Ascii.eqb c q' then None else q) n rest
      | None =>
          if isQuote c then c :: rebindFrom (Some c) n rest
          else if Ascii.eqb c "?" then "$"%char :: raw (FormatInt (Z.of_nat (S n))) ++ rebindFrom None (S n) rest
          else c :: rebindFrom None n rest
      end
  end.

Fixpoint checkFrom (q : option Ascii.ascii) (seen s : sql) : option whereFault :=
  match s with
  | [] => Unterminated <$> q
  | c :: rest =>
      match q with
      | Some q' => checkFrom (if Ascii.eqb c q' then None else q) (c :: seen) rest
      | None =>
          if isQuote c then
            if Ascii.eqb c squote && isEscapeStringPrefix seen then Some EscapeString
            else checkFrom (Some c) (c :: seen) rest
          else match checkByte c rest with Some f => Some f | None => checkFrom None (c :: seen) rest end
      end
  end.

#[local] Arguments isEscapeStringPrefix : simpl never.

Lemma quote_no_escape q seen : isQuote q = true -> isEscapeStringPrefix (q :: seen) = false.
Proof. unfold isQuote. by intros [->%Ascii.eqb_eq| ->%Ascii.eqb_eq]%orb_true_iff. Qed.

(** A run over quoted text from behind its opening quote: [ends] says that it is closed. *)
Inductive quotedRun (q : Ascii.ascii) : sql -> sql -> bool -> Prop :=
| run_open : quotedRun q [] [] false
| run_close rest : starts q rest = false -> quotedRun q [q] rest true
| run_doubled quoted rest ok : quotedRun q quoted rest ok -> quotedRun q (q :: q :: quoted) rest ok
| run_byte c quoted rest ok : c <> q -> quotedRun q quoted rest ok -> quotedRun q (c :: quoted) rest ok.

Lemma skipQuoted_run q s : forall quoted rest ok,
  skipQuoted q s = (quoted, rest, ok) -> s = quoted ++ rest /\ quotedRun q quoted rest ok.
Proof.
  induction s as [s IH] using (induction_ltof1 _ length). intros quoted rest ok E.
  destruct s as [|c s]; [simplify_eq/=; by split; [|constructor]|]. simpl in E.
  destruct (Ascii.eqb_spec c q) as [->|Hc].
  - destruct s as [|c' s]; [simplify_eq; by split; [|constructor]|].
    destruct (Ascii.eqb_spec c' q) as [->|Hc'].
    + destruct (skipQuoted q s) as [[quoted' rest'] ok'] eqn:E'. simplify_eq.
      destruct (IH s) with (quoted := quoted') (rest := rest) (ok := ok) as [-> ?]; [unfold ltof; simpl; lia|done|].
      by split; [|constructor].
    + simplify_eq. split; [done|]. constructor. by apply Ascii.eqb_neq.
  - destruct (skipQuoted q s) as [[quoted' rest'] ok'] eqn:E'. simplify_eq.
    destruct (IH s) with (quoted := quoted') (rest := rest) (ok := ok) as [-> ?]; [unfold ltof; simpl; lia|done|].
    by split; [|constructor].
Qed.

Lemma quotedRun_open q quoted rest : quotedRun q quoted rest false -> rest = [].
Proof. intros H. remember false as ok. induction H; naive_solver. Qed.

Lemma rebindFrom_run q n quoted rest ok :
  isQuote q = true -> quotedRun q quoted rest ok ->
  rebindFrom (Some q) n (quoted ++ rest) = quoted ++ (if ok then rebindFrom None n rest else []).
Proof.
  intros Hq H. induction H as [|rest _|quoted rest ok _ IH|c quoted rest ok Hc _ IH]; simpl.
  - done.
  - by rewrite Ascii.eqb_refl.
  - rewrite Ascii.eqb_refl, Hq. by rewrite IH.
  - apply Ascii.eqb_neq in Hc. by rewrite Hc, IH.
Qed.

Lemma rebind_from fuel n s : length s <= fuel -> rebind fuel n s = rebindFrom None n s.
Proof.
  revert n s. induction fuel as [|fuel IH]; intros n [|c s] H; simpl in *; [done|lia|done|].
  destruct (isQuote c) eqn:Hq.
  - destruct (skipQuoted c s) as [[quoted rest] ok] eqn:E. apply skipQuoted_run in E as [-> Hrun].
    rewrite (rebindFrom_run _ _ _ _ _ Hq Hrun), length_app in *.
    destruct ok; [by rewrite IH by lia|]. apply quotedRun_open in Hrun as ->. by destruct fuel.
  - by destruct (Ascii.eqb c "?"); rewrite IH by lia.
Qed.

Lemma checkFrom_run q seen quoted rest ok :
  isQuote q = true -> quotedRun q quoted rest ok ->
  checkFrom (Some q) seen (quoted ++ rest) =
    if ok then checkFrom None (rev quoted ++ seen) rest else Some (Unterminated q).
Proof.
  intros Hq H. revert seen.
  induction H as [|rest _|quoted rest ok _ IH|c quoted rest ok Hc _ IH]; intros seen; simpl.
  - done.
  - by rewrite Ascii.eqb_refl.
  - rewrite Ascii.eqb_refl, Hq.
    rewrite quote_no_escape, andb_false_r, IH by done. by rewrite <-!(assoc_L (++)).
  - apply Ascii.eqb_neq in Hc. rewrite Hc, IH. by rewrite <-!(assoc_L (++)).
Qed.

Lemma check_from fuel seen s : length s <= fuel -> checkLoop fuel seen s = checkFrom None seen s.
Proof.
  revert seen s. induction fuel as [|fuel IH]; intros seen [|c s] H; simpl in *; [done|lia|done|].
  destruct (isQuote c) eqn:Hq; [|by rewrite IH by lia].
  destruct (_ && _); [done|]. destruct (skipQuoted c s) as [[quoted rest] ok] eqn:E.
  apply skipQuoted_run in E as [-> Hrun]. rewrite length_app in H.
  rewrite (checkFrom_run _ _ _ _ _ Hq Hrun). destruct ok; simpl; [|done]. by rewrite IH by lia.
Qed.

(** ** Numbering what the lexer sees *)

Definition quoteOf (st : state) : option Ascii.ascii := match st with Quote q => Some q | _ => None end.

(** The states of text without comments, parameters, escape and dollar-quoted strings. *)
Definition simple (st : state) : bool :=
  match st with Gap | OneE | InWord | InNumber | Quote _ => true | _ => false end.

Definition allowed (c : Ascii.ascii) (rest : sql) : bool :=
  if wordByte c then negb (starts "?" rest) else if Ascii.eqb c "?" then negb (headDigit rest) else true.

(** Text that stays in them and closes its quotes, with placeholders off words and digits. *)
Fixpoint safe (st : state) (s : sql) : bool :=
  simple st &&
  match s with
  | [] => match st with Quote _ => false | _ => true end
  | c :: rest =>
      match st with Quote _ => true | _ => allowed c rest end && safe (step st c rest).2 rest
  end.

Lemma safe_simple st s : safe st s = true -> simple st = true.
Proof. destruct s; simpl; intros H; by apply andb_true_iff in H as [??]. Qed.

Lemma starts_rebind c n s :
  c <> "?"%char -> c <> "$"%char -> starts c (rebindFrom None n s) = starts c s.
Proof.
  intros H1 H2. destruct s as [|d s]; [done|]. simpl. destruct (isQuote d); [done|].
  destruct (Ascii.eqb_spec d "?") as [->|]; [|done]. cbn [starts].
  by rewrite !(proj2 (Ascii.eqb_neq _ _)) by congruence.
Qed.

Lemma headDigit_rebind n s : headDigit (rebindFrom None n s) = headDigit s.
Proof.
  destruct s as [|d s]; [done|]. simpl. destruct (isQuote d); [done|].
  by destruct (Ascii.eqb_spec d "?") as [->|].
Qed.

Lemma tag_word c : wordStart c || isDigit c = true -> wordByte c = true.
Proof.
  unfold wordStart, wordByte, isTagStart, isIdentChar. rewrite !orb_true_iff. tauto.
Qed.

Lemma word_not_quote c : wordByte c = true -> isQuote c = false /\ Ascii.eqb c "?" = false.
Proof.
  intros H. unfold isQuote. destruct (Ascii.eqb_spec c squote) as [->|]; [done|].
  destruct (Ascii.eqb_spec c dquote) as [->|]; [done|].
  by destruct (Ascii.eqb_spec c "?") as [->|].
Qed.

Lemma safe_word c s : wordByte c = true -> safe InWord (c :: s) = true -> starts "?" s = false /\ safe InWord s = true.
Proof.
  intros Hc H. simpl in H. unfold allowed in H. rewrite Hc in H. simpl in H.
  by apply andb_true_iff in H as [?%negb_true_iff ?].
Qed.

(** Numbering does not complete a tag: a placeholder in it would stand behind a word. *)
Lemma tagEnd_rebind n s :
  safe InWord s = true -> starts "?" s = false -> tagEnd s = None -> tagEnd (rebindFrom None n s) = None.
Proof.
  revert n. induction s as [|c s IH]; intros n Hsafe Hq H; [done|]. simpl in H, Hq.
  destruct (Ascii.eqb c "$") eqn:Hd; [done|]. destruct (wordStart c || isDigit c) eqn:Hw.
  - destruct (safe_word c s (tag_word c Hw) Hsafe) as [??]. apply tag_word in Hw.
    destruct (word_not_quote c Hw) as [E1 E2]. simpl. rewrite E1, E2. simpl. rewrite Hd. case_match; [|done].
    rewrite IH; try done. by destruct (tagEnd s).
  - simpl. destruct (isQuote c); simpl; rewrite ?Hq; simpl; by rewrite Hd, Hw.
Qed.

Lemma delimiter_rebind n s :
  safe InWord s = true -> starts "?" s = false -> delimiter s = None -> delimiter (rebindFrom None n s) = None.
Proof.
  destruct s as [|c s]; intros Hsafe Hq H; [done|]. simpl in H, Hq.
  destruct (Ascii.eqb c "$") eqn:Hd; [done|]. destruct (wordStart c) eqn:Hw.
  - assert (wordByte c = true) as Hb by (apply tag_word; by rewrite Hw).
    destruct (safe_word c s Hb Hsafe) as [??]. destruct (word_not_quote c Hb) as [E1 E2].
    simpl. rewrite E1, E2. simpl. rewrite Hd, Hw, tagEnd_rebind; try done. by destruct (tagEnd s).
  - simpl. destruct (isQuote c); simpl; rewrite ?Hq; simpl; by rewrite Hd, Hw.
Qed.

(** *** Parameters *)

Lemma digits_of_number k :
  (0 <= k <= int64_max)%Z ->
  exists c ds, raw (FormatInt k) = c :: ds /\ forallb isDigit (c :: ds) = true /\ parse_digits 0 (text (c :: ds)) = Some k.
Proof.
  intros Hk. assert (10 ^ Z.of_nat 20 = 100000000000000000000)%Z as Hp by done.
  unfold FormatInt. rewrite (proj2 (Z.ltb_ge _ _)) by lia.
  destruct (digits_head 20 k) as (a & s & E & _); [lia|lia|]. exists a, (raw s).
  assert (string_forall isDigit (digits 20 k) = true) as Hd.
  { apply digits_forall; [|lia]. intros z Hz. unfold isDigit, byte_in. rewrite byte_of_ascii_of by lia.
    change (byte_of "0") with 48%Z. change (byte_of "9") with 57%Z. rewrite andb_true_iff, !Z.leb_le. lia. }
  rewrite E in *. split; [done|]. split.
  - simpl in *. apply andb_true_iff in Hd as [-> Hd]. simpl. clear -Hd. induction s as [|b s IH]; [done|].
    simpl in *. apply andb_true_iff in Hd as [-> Hd]. by apply IH.
  - change (a :: raw s) with (raw (String a s)). rewrite String.string_of_list_ascii_of_string, <-E.
    apply parse_digits_digits; [int_lia|lia].
Qed.

Lemma digitRun_app ds r : forallb isDigit ds = true -> headDigit r = false -> digitRun (ds ++ r) = ds.
Proof.
  intros Hd Hr. induction ds as [|d ds IH]; simpl in *.
  - destruct r as [|c r]; [done|]. simpl in *. by rewrite Hr.
  - apply andb_true_iff in Hd as [-> Hd]. by rewrite IH.
Qed.

Lemma lex_digits ds r : forallb isDigit ds = true -> headDigit r = false -> lexFrom Digits (ds ++ r) = lexFrom Gap r.
Proof.
  intros Hd Hr. induction ds as [|d ds IH]; simpl in *.
  - destruct r as [|c r]; [done|]. simpl in *. by rewrite Hr.
  - apply andb_true_iff in Hd as [-> Hd]. by rewrite IH.
Qed.

Lemma lex_param k r :
  (0 <= k <= int64_max)%Z -> headDigit r = false ->
  lexFrom Gap ("$"%char :: raw (FormatInt k) ++ r) = Param k :: lexFrom Gap r.
Proof.
  intros Hk Hr. destruct (digits_of_number k Hk) as (c & ds & E & Hd & Hp). rewrite E.
  assert (headDigit ((c :: ds) ++ r) = true) as Hh by (simpl in Hd |- *; by apply andb_true_iff in Hd as [-> _]).
  cbn [lexFrom step]. unfold gapStep. cbn -[headDigit number app digitRun]. rewrite Hh.
  unfold number. rewrite (digitRun_app _ _ Hd Hr), Hp. cbn [app]. f_equal. exact (lex_digits (c :: ds) r Hd Hr).
Qed.

(** *** The lexer commutes with the numbering *)

Definition wordlike (st : state) : bool := match st with OneE | InWord | InNumber => true | _ => false end.

Lemma gapStep_rebind c n rest :
  (wordByte c = true -> starts "?" rest = false) -> safe (gapStep c rest).2 rest = true ->
  gapStep c (rebindFrom None n rest) = gapStep c rest.
Proof.
  intros Hq Hsafe. unfold gapStep in *.
  rewrite headDigit_rebind, !starts_rebind by done.
  destruct (isQuote c); [done|]. destruct (Ascii.eqb c "?"); [done|].
  destruct (Ascii.eqb_spec c "$") as [->|]; [|done].
  destruct (headDigit rest); [by apply safe_simple in Hsafe|].
  destruct (delimiter rest) eqn:E; [by apply safe_simple in Hsafe|].
  by rewrite delimiter_rebind by auto.
Qed.

Lemma step_rebind st c n rest :
  quoteOf st = None -> simple st = true -> (wordByte c = true -> starts "?" rest = false) ->
  safe (step st c rest).2 rest = true -> step st c (rebindFrom None n rest) = step st c rest.
Proof.
  intros E Hs Hq. destruct st; try done; unfold step; [by apply gapStep_rebind|..];
    repeat lazymatch goal with |- context [if ?b then _ else _] => destruct b eqn:? end; try done;
    intros Hsafe; apply gapStep_rebind; try done; congruence.
Qed.

Lemma gapStep_next c rest :
  isQuote c = false -> simple (gapStep c rest).2 = true ->
  quoteOf (gapStep c rest).2 = None /\ (wordlike (gapStep c rest).2 = true -> wordByte c = true).
Proof.
  intros Hq. unfold gapStep. rewrite Hq.
  destruct (Ascii.eqb c "?"); [done|]. destruct (Ascii.eqb_spec c "$") as [->|].
  { destruct (headDigit rest); [done|]. by destruct (delimiter rest). }
  destruct (_ && _); [done|]. destruct (_ && _); [done|].
  destruct (Ascii.eqb c "E" || Ascii.eqb c "e") eqn:E.
  { intros _. split; [done|]. intros _. by apply orb_true_iff in E as [->%Ascii.eqb_eq| ->%Ascii.eqb_eq]. }
  destruct (wordStart c) eqn:Hw; [intros _; split; [done|]; intros _; apply tag_word; by rewrite Hw|].
  destruct (isDigit c) eqn:Hd; [|done].
  intros _; split; [done|]; intros _; apply tag_word; by rewrite Hd, orb_true_r.
Qed.

Lemma step_next st c rest :
  quoteOf st = None -> simple st = true -> isQuote c = false -> simple (step st c rest).2 = true ->
  quoteOf (step st c rest).2 = None /\ (wordlike (step st c rest).2 = true -> wordByte c = true).
Proof.
  intros E Hst Hq. destruct st; try done; unfold step; [by apply gapStep_next|..];
    repeat lazymatch goal with |- context [if ?b then _ else _] => destruct b eqn:? end; try done;
    first [ intros Hs; destruct (gapStep_next c rest Hq Hs) as [? Hw]; split; [done|]; intros Hl; specialize (Hw Hl); congruence
          | intros _; split; [done|]; intros _; zbool; congruence ].
Qed.

(** Numbering safe text numbers the placeholders the lexer sees, and nothing else. *)
Lemma lex_rebind st n s :
  safe st s = true -> (starts "?" s = true -> wordlike st = false) ->
  (Z.of_nat n + Z.of_nat (length s) <= int64_max)%Z ->
  lexFrom st (rebindFrom (quoteOf st) n s) = renumber n (lexFrom st s).
Proof.
  revert st n. induction s as [|c s IH]; intros st n Hsafe Hq Hn; [done|].
  pose proof (safe_simple _ _ Hsafe) as Hs. simpl in Hsafe, Hn. rewrite Hs in Hsafe. simpl in Hsafe.
  apply andb_true_iff in Hsafe as [Ha Hsafe].
  destruct (quoteOf st) as [q|] eqn:Eq.
  { destruct st; simplify_eq/=. rewrite <-IH; [|done|by case_match|lia]. by case_match. }
  assert (allowed c s = true) as Hal by (by destruct st).
  simpl rebindFrom. destruct (isQuote c) eqn:Hc.
  { assert (step st c (rebindFrom (Some c) n s) = ([Literal c], Quote c) /\ step st c s = ([Literal c], Quote c)) as [E1 E2].
    { assert (wordByte c = false) as Hw.
      { destruct (wordByte c) eqn:Hw; [|done]. apply word_not_quote in Hw as [? _]. congruence. }
      clear -Hs Eq Hsafe Hc Hw. destruct st; try done; simpl in *; unfold gapStep in *; rewrite ?Hc, ?Hw in *; try done.
      destruct (Ascii.eqb c squote); [by apply safe_simple in Hsafe|done]. }
    simpl lexFrom. rewrite E1, E2 in *. simpl. f_equal. by rewrite <-IH by (done || lia). }
  destruct (Ascii.eqb_spec c "?") as [->|Hm].
  { assert (st = Gap) as -> by (specialize (Hq eq_refl); by destruct st).
    rewrite lex_param; [|lia|]; [simpl; f_equal; by rewrite <-IH by (done || lia)|].
    rewrite headDigit_rebind. unfold allowed in Hal. simpl in Hal. by apply negb_true_iff in Hal. }
  assert (wordByte c = true -> starts "?" s = false) as Hstart.
  { intros Hw. unfold allowed in Hal. rewrite Hw in Hal. by apply negb_true_iff in Hal. }
  assert (simple (step st c s).2 = true) as Hs' by (by eapply safe_simple).
  destruct (step_next st c s Eq Hs Hc Hs') as [Eq' Hw'].
  simpl lexFrom. rewrite step_rebind by done. destruct (step st c s) as [items st'] eqn:E. simpl in *.
  specialize (IH st' n). rewrite Eq' in IH. rewrite IH; [|done| |lia].
  2:{ intros Hst. destruct (wordlike st') eqn:Hl; [|done]. rewrite Hstart in Hst by auto. done. }
  assert (exists i, items = [i] /\ i <> Mark) as (i & -> & Hi); [|by destruct i].
  clear -E Hs Hs' Eq Hc Hm. destruct st; try done; simpl in E; unfold gapStep in E; rewrite Hc in E;
    rewrite (proj2 (Ascii.eqb_neq _ _) Hm) in E; repeat case_match; simplify_eq; try done; eauto.
Qed.

(** Safe text has no comments and no parameters of its own. *)
Definition plain (i : item) : bool := negb (isComment i || isParam i).

Lemma step_plain st c rest :
  simple st = true -> simple (step st c rest).2 = true -> forallb plain (step st c rest).1 = true.
Proof.
  intros Hs Hs'. destruct st; try done; unfold step, gapStep in *; repeat case_match; simplify_eq/=; done.
Qed.

Lemma safe_plain st s : safe st s = true -> forallb plain (lexFrom st s) = true.
Proof.
  revert st. induction s as [|c s IH]; intros st H; [done|].
  pose proof (safe_simple _ _ H) as Hs. simpl in *. rewrite Hs in H. apply andb_true_iff in H as [_ H].
  apply andb_true_iff in H as [_ H]. pose proof (step_plain st c s Hs (safe_simple _ _ H)) as Hp.
  destruct (step st c s) as [items st']. simpl in *. by rewrite forallb_app, Hp, IH.
Qed.

(** ** Accepted fragments are safe *)

Definition isASCII (c : Ascii.ascii) : bool := (byte_of c <? 128)%Z.

Lemma ascii_word c : isASCII c = true -> wordStart c = isTagStart c /\ wordByte c = isIdentChar c.
Proof.
  unfold isASCII, wordStart, wordByte. intros H%Z.ltb_lt. rewrite (proj2 (Z.leb_gt _ _)) by lia.
  by rewrite !orb_false_r.
Qed.

Lemma ascii_tag s : forallb isASCII s = true -> tagEnd s = tagRun s.
Proof.
  induction s as [|c s IH]; [done|]. simpl. intros [Hc Hs]%andb_true_iff. destruct (ascii_word c Hc) as [-> _].
  rewrite (IH Hs). destruct (Ascii.eqb c "$"); [done|]. by destruct (isTagStart c), (isDigit c).
Qed.

Lemma ascii_delimiter s : forallb isASCII s = true -> delimiter s = dollarTagEnd s.
Proof.
  destruct s as [|c s]; [done|]. simpl. intros [Hc Hs]%andb_true_iff. destruct (ascii_word c Hc) as [-> _].
  by rewrite ascii_tag.
Qed.

(** What the bytes already read say of the lexer's state. *)
Definition tracks (st : state) (seen : sql) : Prop :=
  match st with
  | Gap => match seen with [] => True | p :: _ => isIdentChar p = false end
  | OneE => isEscapeStringPrefix seen = true
  | InWord | InNumber => isEscapeStringPrefix seen = false /\ match seen with [] => False | p :: _ => isIdentChar p = true end
  | Quote q => isQuote q = true
  | _ => False
  end.

Lemma escape_prefix c seen :
  isEscapeStringPrefix (c :: seen) =
    (Ascii.eqb c "E" || Ascii.eqb c "e") && match seen with [] => true | d :: _ => negb (isIdentChar d) end.
Proof. unfold isEscapeStringPrefix. by destruct (_ || _). Qed.

Lemma E_word c : Ascii.eqb c "E" || Ascii.eqb c "e" = true -> isIdentChar c = true.
Proof. by intros [->%Ascii.eqb_eq| ->%Ascii.eqb_eq]%orb_true_iff. Qed.

Lemma not_word_gap c rest :
  isQuote c = false -> isIdentChar c = false -> isASCII c = true -> checkByte c rest = None ->
  gapStep c rest = (if Ascii.eqb c "?" then [Mark] else [Code c], Gap).
Proof.
  intros Hq Hi Ha Hb. pose proof Hi as Hi'. destruct (ascii_word c Ha) as [Hs _]. unfold gapStep, checkByte in *. rewrite Hq, Hs.
  destruct (Ascii.eqb c "?"); [done|]. unfold isIdentChar in Hi. unfold isTagStart. zbool.
  repeat match goal with H : ?b = false |- context [?b] => rewrite H end. simpl.
  destruct (Ascii.eqb_spec c "-") as [->|]; [by destruct (starts "-" rest)|].
  destruct (Ascii.eqb_spec c "/") as [->|]; [by destruct (starts "*" rest)|].
  simpl. destruct (Ascii.eqb c "E" || Ascii.eqb c "e") eqn:E; [|done].
  apply E_word in E. congruence.
Qed.

Lemma word_gap c rest seen :
  isIdentChar c = true -> isASCII c = true -> forallb isASCII rest = true -> checkByte c rest = None ->
  match seen with [] => True | p :: _ => isIdentChar p = false end ->
  simple (gapStep c rest).2 = true /\ tracks (gapStep c rest).2 (c :: seen).
Proof.
  intros Hi Ha Hr Hb Hp. pose proof Hi as Hi'. destruct (ascii_word c Ha) as [Hs Hw].
  assert (isQuote c = false /\ Ascii.eqb c "?" = false) as [Hq Hm] by (apply word_not_quote; congruence).
  unfold gapStep, checkByte in *. rewrite Hq, Hm in *. unfold checkDollar in Hb.
  destruct (Ascii.eqb_spec c "$") as [->|Hd].
  { fold (headDigit rest) in Hb. destruct (headDigit rest); [done|]. rewrite (ascii_delimiter _ Hr).
    destruct (dollarTagEnd rest); [done|]. simpl. by rewrite escape_prefix. }
  destruct (Ascii.eqb_spec c "-") as [->|]; [done|]. destruct (Ascii.eqb_spec c "/") as [->|]; [done|]. simpl.
  destruct (Ascii.eqb c "E" || Ascii.eqb c "e") eqn:E.
  { simpl. rewrite escape_prefix, E. destruct seen; [done|]. by rewrite Hp. }
  rewrite Hs. unfold isIdentChar in Hi. unfold isTagStart.
  destruct (Ascii.eqb c "_" || isLetter c) eqn:Hl; simpl; [by rewrite escape_prefix, E|].
  destruct (isDigit c) eqn:Hdig; simpl; [by rewrite escape_prefix, E|].
  zbool. apply Ascii.eqb_neq in Hd. repeat match goal with H : _ = false |- _ => rewrite H in Hi end. done.
Qed.

Lemma headless_start s prev : markApart None (Some prev) s = true -> isIdentChar prev = true -> starts "?" s = false.
Proof.
  destruct s as [|c s]; [done|]. simpl. intros H Hp. destruct (Ascii.eqb_spec c "?") as [->|]; [|done].
  by rewrite Hp in H.
Qed.

Lemma checkMark_digit rest : checkMark rest = None -> headDigit rest = false.
Proof.
  destruct rest as [|c rest]; [done|]. unfold checkMark. simpl headDigit. intros H.
  destruct (Ascii.eqb_spec c "&") as [->|]; [done|]. destruct (Ascii.eqb_spec c "|") as [->|]; [done|].
  by destruct (isDigit c).
Qed.

Lemma check_allowed c rest :
  isASCII c = true -> isQuote c = false -> checkByte c rest = None -> markApart None (Some c) rest = true ->
  allowed c rest = true.
Proof.
  intros Ha Hq Hb Hm. unfold allowed. destruct (ascii_word c Ha) as [_ ->].
  destruct (isIdentChar c) eqn:Hi; [by rewrite (headless_start _ _ Hm Hi)|].
  destruct (Ascii.eqb_spec c "?") as [->|]; [|done]. simpl in Hb. by rewrite checkMark_digit.
Qed.

(** One byte outside quoted text keeps the state on track. *)
Lemma step_tracks st seen c rest :
  quoteOf st = None -> tracks st seen -> isQuote c = false -> isASCII c = true -> forallb isASCII rest = true ->
  checkByte c rest = None -> quoteOf (step st c rest).2 = None /\ tracks (step st c rest).2 (c :: seen).
Proof.
  intros Eq Ht Hq Ha Hr Hb. destruct (ascii_word c Ha) as [_ Hw].
  assert (c <> squote) as Hsq%Ascii.eqb_neq by (by intros ->).
  destruct (isIdentChar c) eqn:Hi.
  2:{ assert (step st c rest = (if Ascii.eqb c "?" then [Mark] else [Code c], Gap)) as ->; [|simpl; by rewrite Hi].
      rewrite <-(not_word_gap c rest) by done. destruct st; try done; simpl; by rewrite ?Hsq, Hw. }
  assert (st <> Gap -> isEscapeStringPrefix (c :: seen) = false) as Hesc.
  { intros Hst. rewrite escape_prefix. destruct seen as [|p seen]; [by destruct st as [| | | | |?| | | | | | | |]; try done; destruct Ht|].
    assert (isIdentChar p = true) as ->; [|by rewrite andb_false_r].
    destruct st; try done; simpl in Ht; [|apply Ht..].
    rewrite escape_prefix in Ht. apply andb_true_iff in Ht as [Hp _]. by apply E_word. }
  destruct st; try done; [|specialize (Hesc ltac:(done)); simpl; rewrite ?Hsq, Hw; try done..].
  - destruct (word_gap c rest seen Hi Ha Hr Hb Ht) as [? ?]. split; [|done]. by apply gapStep_next.
  - destruct (Ascii.eqb_spec c "$") as [->|]; simpl; [|done].
    unfold gapStep. simpl. unfold checkByte, checkDollar in Hb. simpl in Hb. fold (headDigit rest) in Hb.
    destruct (headDigit rest); [done|]. rewrite (ascii_delimiter _ Hr). by destruct (dollarTagEnd rest).
Qed.

Lemma check_safe st seen s :
  checkFrom (quoteOf st) seen s = None -> forallb isASCII s = true ->
  markApart (quoteOf st) (head seen) s = true -> tracks st seen -> safe st s = true.
Proof.
  revert st seen. induction s as [|c s IH]; intros st seen Hc Ha Hm Ht.
  { by destruct st. }
  simpl in Ha. apply andb_true_iff in Ha as [Hac Ha].
  assert (simple st = true) as Hs by (by destruct st). simpl safe. rewrite Hs. simpl in Hc, Hm |- *.
  destruct (quoteOf st) as [q|] eqn:Eq.
  { destruct st; simplify_eq/=. destruct (Ascii.eqb_spec c q) as [->|]; eapply IH; try done.
    simpl in Ht |- *. unfold isIdentChar, isLetter, isDigit.
    unfold isQuote in Ht. by apply orb_true_iff in Ht as [->%Ascii.eqb_eq| ->%Ascii.eqb_eq]. }
  assert (forall b, match st with Quote _ => true | _ => b end = b) as -> by (intros; by destruct st).
  destruct (isQuote c) eqn:Hq.
  - destruct (Ascii.eqb c squote && isEscapeStringPrefix seen) eqn:Hesc; [done|].
    assert (wordByte c = false) as Hw.
    { destruct (wordByte c) eqn:Hw; [|done]. apply word_not_quote in Hw as [? _]. congruence. }
    assert (step st c s = ([Literal c], Quote c)) as ->.
    { destruct st; try done; simpl; unfold gapStep; rewrite ?Hq, ?Hw; try done. simpl in Ht. rewrite Ht in Hesc.
      by destruct (Ascii.eqb c squote). }
    unfold allowed. rewrite Hw. apply andb_true_iff. split; [|by eapply IH].
    destruct (Ascii.eqb_spec c "?") as [->|]; done.
  - destruct (checkByte c s) eqn:Hb; [done|]. apply andb_true_iff in Hm as [_ Hm].
    rewrite (check_allowed c s) by done.
    destruct (step_tracks st seen c s Eq Ht Hq Hac Ha Hb) as [Eq' Ht']. simpl.
    eapply IH; [by rewrite Eq'|done|by rewrite Eq'|done].
Qed.

(** The conditions on an accepted fragment under which numbering is exact. *)
Definition plainWhere (where_ : sql) : Prop :=
  checkWhere where_ = None /\ forallb isASCII where_ = true /\ markApart None None where_ = true.

Lemma where_safe where_ : plainWhere where_ -> safe Gap where_ = true.
Proof.
  intros (Hc & Ha & Hm). unfold checkWhere in Hc. case_bool_decide; [done|].
  rewrite check_from in Hc by done. by eapply (check_safe Gap []).
Qed.

(** C12: The placeholders of an accepted [where] are the ones PostgreSQL sees: numbering its bytes numbers
    the placeholder tokens of its lexer from left to right and changes no other token, and
    there is no comment that could swallow one. This is so for ASCII fragments whose
    placeholders do not touch the end of a word. *)
Theorem rebinding_is_lexical (where_ : sql) :
  plainWhere where_ -> (Z.of_nat (length where_) <= int64_max)%Z ->
  lex (rebindPostgres where_) = renumber 0 (lex where_) /\ forallb plain (lex where_) = true.
Proof.
  intros Hw Hn. pose proof (where_safe _ Hw) as Hsafe. unfold rebindPostgres. rewrite rebind_from by done. split.
  - by apply (lex_rebind Gap).
  - by apply safe_plain.
Qed.
