(* ===== verification/QuerySpec.v ===== *)
(** The statements of Query.v: the writes are the intended statements with their parts
    intact and their arguments at their placeholders, a row that was written is read back,
    and a failed transaction leaves nothing. At the end, runs on a table of users: what the
    writes send, where the check of [where] fragments lets a placeholder through that
    PostgreSQL does not see, a row read back, and an update undone. *)

From S2P Require Import Prelude.
From S2P Require Import Strconv.
From S2P Require Import Strings.
From S2P Require Import GoTime.
From S2P Require Import Query.
From S2P Require Import QueryLex.

Local Open Scope go_scope.

(** ** Texts that end at a separator *)

Definition separator (b : Ascii.ascii) : bool := existsb (Ascii.eqb b) [" "; ","; "("; ")"; "."]%char.

Lemma separator_cases b :
  separator b = true -> b = " "%char \/ b = ","%char \/ b = "("%char \/ b = ")"%char \/ b = "."%char.
Proof. unfold separator. simpl. rewrite !orb_true_iff, !Ascii.eqb_eq. naive_solver. Qed.

Ltac separators H := apply separator_cases in H as [->|[->|[->|[->| ->]]]].

(** A text that the lexer takes on its own, whatever follows behind a separator. *)
Definition closes (p : sql) : Prop :=
  forall b s, separator b = true ->
    lexFrom Gap (p ++ b :: s) = lex p ++ Code b :: lex s /\ safe Gap (p ++ b :: s) = safe Gap s.

Lemma lex_separator st b s :
  separator b = true -> quoteOf st = None -> simple st = true ->
  lexFrom st (b :: s) = Code b :: lex s /\ safe st (b :: s) = safe Gap s.
Proof. intros Hb. separators Hb; by destruct st. Qed.

(** A separator behind a text changes nothing the lexer looks ahead for. *)
Lemma tagEnd_space s : tagEnd (s ++ [" "%char]) = tagEnd s.
Proof. induction s as [|c s IH]; [done|]. simpl. by rewrite IH. Qed.

Lemma delimiter_space s : delimiter (s ++ [" "%char]) = delimiter s.
Proof. destruct s as [|c s]; [done|]. simpl. by rewrite tagEnd_space. Qed.

Lemma digitRun_space s : digitRun (s ++ [" "%char]) = digitRun s.
Proof. induction s as [|c s IH]; [done|]. simpl. by rewrite IH. Qed.

Lemma gapStep_space c s : gapStep c (s ++ [" "%char]) = gapStep c s.
Proof.
  unfold gapStep, number. rewrite delimiter_space, digitRun_space. by destruct s.
Qed.

Definition quoteState (st : state) : bool := match st with Quote q => isQuote q | _ => true end.

Lemma step_quote st c s : quoteState st = true -> quoteState (step st c s).2 = true.
Proof.
  intros Hst. assert (quoteState (gapStep c s).2 = true) as Hg.
  { unfold gapStep. destruct (isQuote c) eqn:Hc; [done|]. repeat case_match; done. }
  destruct st; simpl; repeat case_match; simplify_eq/=; done.
Qed.

Lemma safe_space st s : quoteState st = true -> safe st (s ++ [" "%char]) = true -> safe st s = true.
Proof.
  revert st. induction s as [|c s IH]; intros st Hst H.
  { destruct st as [| | | | |q| | | | | | | |]; try done. destruct (Ascii.eqb " " q) eqn:Hq; [by apply Ascii.eqb_eq in Hq as <-|].
    cbn -[Ascii.eqb] in H. by rewrite Hq in H. }
  assert (simple st = true) as Hs by (by apply safe_simple in H).
  assert (step st c (s ++ [" "%char]) = step st c s) as E.
  { unfold step. by rewrite !gapStep_space; destruct st. }
  simpl in H |- *. rewrite E in H. rewrite Hs in *. simpl in *. apply andb_true_iff in H as [H1 H2].
  rewrite (IH _ (step_quote _ _ _ Hst) H2), andb_true_r. destruct st; try done; unfold allowed in *; by destruct s.
Qed.

Lemma closes_safe p : closes p -> safe Gap p = true.
Proof. intros Hp. apply safe_space; [done|]. by rewrite (proj2 (Hp " "%char [] eq_refl)). Qed.

Lemma closes_nil : closes [].
Proof. intros b s Hb. by apply lex_separator. Qed.

Lemma closes_app p b q :
  closes p -> separator b = true -> closes q -> closes (p ++ b :: q) /\ lex (p ++ b :: q) = lex p ++ Code b :: lex q.
Proof.
  intros Hp Hb Hq. assert (lex (p ++ b :: q) = lex p ++ Code b :: lex q) as E by (by apply Hp).
  split; [|done]. intros b' s Hb'. rewrite E, <-!(assoc_L (++)). simpl.
  destruct (Hp b (q ++ b' :: s) Hb) as [-> ->], (Hq b' s Hb') as [E' ->]. split; [|done].
  unfold lex at 2. by rewrite E'.
Qed.

(** *** Identifiers *)

Lemma lex_quoted q quoted rest ok rest' :
  isQuote q = true -> quotedRun q quoted rest ok -> ok = true ->
  lexFrom (Quote q) (quoted ++ rest') = (Literal <$> quoted) ++ lexFrom Gap rest' /\
  safe (Quote q) (quoted ++ rest') = safe Gap rest'.
Proof.
  intros Hq H Hok. induction H as [|rest _|quoted rest ok _ IH|c quoted rest ok Hc _ IH]; [done|..]; subst.
  - simpl. by rewrite Ascii.eqb_refl.
  - destruct (IH eq_refl) as [E1 E2].
    assert (forall s, gapStep q s = ([Literal q], Quote q)) as Hg by (intros s; unfold gapStep; by rewrite Hq).
    simpl. rewrite Ascii.eqb_refl. simpl. rewrite Hg. simpl. rewrite E1, E2. split; [done|].
    unfold allowed. destruct (wordByte q) eqn:Hw; [apply word_not_quote in Hw as [? _]; congruence|].
    by destruct (Ascii.eqb_spec q "?") as [->|].
  - destruct (IH eq_refl) as [E1 E2]. apply Ascii.eqb_neq in Hc. simpl. rewrite Hc. simpl. by rewrite E1, E2.
Qed.

Definition wordRun (w : sql) : bool := forallb isIdentChar w.

Lemma ident_word c : isIdentChar c = true -> wordByte c = true.
Proof. unfold wordByte. by intros ->. Qed.

Lemma lex_word st w b s :
  wordRun w = true -> separator b = true -> st = OneE \/ st = InWord ->
  lexFrom st w = (Code <$> w) /\
  lexFrom st (w ++ b :: s) = (Code <$> w) ++ Code b :: lex s /\ safe st (w ++ b :: s) = safe Gap s.
Proof.
  intros Hw Hb. revert st. induction w as [|c w IH]; intros st Hst; simpl app.
  - destruct (lex_separator st b s Hb) as [-> ->]; [by destruct Hst as [->| ->]..|done].
  - simpl in Hw. apply andb_true_iff in Hw as [Hc%ident_word Hw].
    assert (forall s, step st c s = ([Code c], InWord)) as Hstep.
    { intros t. destruct Hst as [->| ->]; simpl; [|by rewrite Hc].
      destruct (Ascii.eqb_spec c squote) as [->|]; [done|]. by rewrite Hc. }
    destruct (IH Hw InWord) as (E1 & E2 & E3); [by right|]. simpl. rewrite !Hstep. simpl. rewrite E1, E2, E3.
    split; [done|]. split; [done|]. unfold allowed. rewrite Hc.
    assert (starts "?" (w ++ b :: s) = false) as ->.
    { destruct w as [|d w]; simpl in *; [by separators Hb|].
      destruct (Ascii.eqb_spec d "?") as [->|]; done. }
    by destruct Hst as [->| ->].
Qed.

Lemma identRest_run s : exists w, s = w ++ identRest s /\ wordRun w = true.
Proof.
  induction s as [|c s (w & E & Hw)]; [by exists []|]. simpl. destruct (isIdentChar c) eqn:Hc; [|by exists []].
  exists (c :: w). simpl. rewrite Hc. split; [by f_equal|done].
Qed.

(** No placeholder is read in the text. *)
Definition markless (p : sql) : Prop := marks (lex p) = 0.

Lemma marks_app l m : marks (l ++ m) = marks l + marks m.
Proof. unfold marks. by rewrite filter_app, length_app. Qed.

Lemma marks_code w : marks (Code <$> w) = 0.
Proof. by induction w. Qed.

Lemma marks_literal w : marks (Literal <$> w) = 0.
Proof. by induction w. Qed.

Lemma gapStep_start c s :
  isTagStart c = true -> gapStep c s = ([Code c], OneE) \/ gapStep c s = ([Code c], InWord).
Proof.
  intros Hc. assert (wordByte c = true) as [Hq Hm]%word_not_quote by (apply tag_word; unfold wordStart; by rewrite Hc).
  unfold gapStep. rewrite Hq, Hm.
  destruct (Ascii.eqb_spec c "$") as [->|]; [done|]. destruct (Ascii.eqb_spec c "-") as [->|]; [done|].
  destruct (Ascii.eqb_spec c "/") as [->|]; [done|]. simpl.
  destruct (_ || _); [by left|]. unfold wordStart. rewrite Hc. by right.
Qed.

Lemma gapStep_start_stable c s s' : isTagStart c = true -> gapStep c s = gapStep c s'.
Proof.
  intros Hc. unfold gapStep. destruct (Ascii.eqb_spec c "$") as [->|]; [done|].
  destruct (Ascii.eqb_spec c "-") as [->|]; [done|]. by destruct (Ascii.eqb_spec c "/") as [->|].
Qed.

Lemma segment_closes s rest : segment s = Some rest -> exists w, s = w ++ rest /\ closes w /\ markless w.
Proof.
  destruct s as [|c s]; [done|]. simpl. intros H. destruct (isTagStart c) eqn:Hc.
  - simplify_eq. destruct (identRest_run s) as (w & E & Hw). exists (c :: w).
    assert (exists st, (st = OneE \/ st = InWord) /\ forall s, gapStep c s = ([Code c], st)) as (st & Hst & Hg).
    { destruct (gapStep_start c [] Hc) as [E'|E']; eexists; (split; [by (left + right)|]); intros t;
        rewrite <-E'; by apply gapStep_start_stable. }
    assert (lex (c :: w) = Code <$> (c :: w)) as Elex.
    { unfold lex. simpl. rewrite Hg. simpl. by rewrite (proj1 (lex_word st w " " [] Hw eq_refl Hst)). }
    split; [simpl; by f_equal|]. split; [|unfold markless; by rewrite Elex, marks_code].
    intros b t Hb. rewrite Elex. simpl. rewrite Hg. simpl.
    destruct (lex_word st w b t Hw Hb Hst) as (_ & -> & ->). split; [done|].
    unfold allowed. rewrite (tag_word c) by (unfold wordStart; by rewrite Hc).
    destruct w as [|d w]; simpl in Hw |- *; [by separators Hb|].
    by destruct (Ascii.eqb_spec d "?") as [->|].
  - destruct (Ascii.eqb_spec c dquote) as [->|]; [|done].
    destruct (skipQuoted dquote s) as [[quoted rest'] ok] eqn:E.
    destruct quoted as [|c1 [|c2 quoted]]; [done..|]. destruct ok; [|done]. simplify_eq.
    apply skipQuoted_run in E as [-> Hrun]. remember (c1 :: c2 :: quoted) as w.
    exists (dquote :: w). split; [done|].
    assert (forall t, lexFrom Gap (dquote :: w ++ t) = (Literal <$> (dquote :: w)) ++ lexFrom Gap t /\
                      safe Gap (dquote :: w ++ t) = safe Gap t) as Hall.
    { intros t. destruct (lex_quoted dquote _ _ _ t eq_refl Hrun eq_refl) as [E1 E2]. simpl. unfold gapStep. simpl.
      by rewrite E1, E2. }
    assert (lex (dquote :: w) = Literal <$> (dquote :: w)) as Elex.
    { destruct (Hall []) as [E _]. by rewrite (app_nil_r w) in E; change (lexFrom Gap []) with (@nil item) in E; rewrite app_nil_r in E. }
    split; [|unfold markless; by rewrite Elex, marks_literal]. intros b t Hb. rewrite Elex. simpl app at 1 3.
    destruct (Hall (b :: t)) as [-> ->]. by destruct (lex_separator Gap b t Hb) as [-> ->].
Qed.

Lemma identifier_closes s : validIdentifier s = true -> closes s /\ markless s.
Proof.
  unfold validIdentifier. generalize (S (length s)). intros fuel. revert s.
  induction fuel as [|fuel IH]; intros s H; [done|]. simpl in H.
  destruct (segment s) as [rest|] eqn:E; [|done]. apply segment_closes in E as (w & -> & Hw & Hm).
  destruct rest as [|c rest]; [by rewrite app_nil_r|]. apply andb_true_iff in H as [->%Ascii.eqb_eq H].
  destruct (IH rest H) as [Hr Hmr]. destruct (closes_app w "." rest Hw eq_refl Hr) as [? E].
  split; [done|]. unfold markless in *. rewrite E, marks_app, Hm. unfold marks in *. by simpl.
Qed.

Lemma column_closes s : validColumn s = true -> closes s /\ markless s.
Proof.
  unfold validColumn. destruct (segment s) as [[|? ?]|] eqn:E; [|done..]. intros _.
  apply segment_closes in E as (w & -> & ? & ?). by rewrite app_nil_r.
Qed.

(** ** Lists of texts *)

Definition code (s : string) : list item := Code <$> raw s.

Lemma marks_text s : marks (code s) = 0.
Proof. apply marks_code. Qed.

Lemma closes_join parts :
  Forall closes parts ->
  closes (join (raw ", ") parts) /\ lex (join (raw ", ") parts) = join (code ", ") (lex <$> parts).
Proof.
  intros H. induction H as [|p parts Hp H IH]; [split; [apply closes_nil|done]|].
  destruct parts as [|p' parts]; [done|]. destruct IH as [IH1 IH2].
  change (join (raw ", ") (p :: p' :: parts)) with (p ++ ","%char :: ([] ++ " "%char :: join (raw ", ") (p' :: parts))).
  destruct (closes_app [] " " _ closes_nil eq_refl IH1) as [H1 E1].
  destruct (closes_app p "," _ Hp eq_refl H1) as [H2 E2]. split; [done|]. by rewrite E2, E1, IH2.
Qed.

Lemma marks_join parts :
  marks (join (code ", ") parts) = sum_list (marks <$> parts).
Proof.
  induction parts as [|p [|p' parts] IH]; [done|simpl; lia|].
  change (join (code ", ") (p :: p' :: parts)) with (p ++ code ", " ++ join (code ", ") (p' :: parts)).
  rewrite !marks_app, IH. done.
Qed.

Lemma closes_mark : closes mark /\ lex mark = [Mark].
Proof. split; [|done]. intros b s Hb. by separators Hb. Qed.

Lemma closes_set col : closes col -> closes (col ++ raw " = ?") /\ lex (col ++ raw " = ?") = lex col ++ code " = " ++ [Mark].
Proof.
  intros Hc. assert (closes (raw "= ?")) as H1 by (intros b s Hb; by separators Hb).
  exact (closes_app col " " _ Hc eq_refl H1).
Qed.

(** *** Field maps *)

Section Maps.
Context (lower : Z -> Z).

(** The columns of the fields from the [i]-th on that are not skipped. *)
Fixpoint visible (i : nat) (typ : list Field) : list fieldInfo :=
  match typ with
  | [] => []
  | f :: typ => (if skippedField f then [] else [infoOf i f (columnOf f)]) ++ visible (S i) typ
  end.

Definition keyOf (f : fieldInfo) : string := columnKey lower (column f).

Lemma keyOf_info i f : keyOf (infoOf i f (columnOf f)) = columnKey lower (columnOf f).
Proof. unfold keyOf, infoOf. by destruct (f_kind f). Qed.

Lemma column_info i f col : column (infoOf i f col) = col.
Proof. unfold infoOf. by destruct (f_kind f). Qed.

Lemma index_info i f col : index (infoOf i f col) = i.
Proof. unfold infoOf. by destruct (f_kind f). Qed.

(** What holds of the field map while the fields are walked. *)
Record mapped (owner : gmap string sql) (fm : fieldMap) : Prop := {
  mapped_columns : Forall (fun f => validColumn (column f) = true) (fields fm);
  mapped_owners : forall f, f ∈ fields fm -> is_Some (owner !! keyOf f);
  mapped_distinct : NoDup (keyOf <$> fields fm);
  mapped_fields : forall f, f ∈ fields fm -> colToField fm !! keyOf f = Some (index f)
}.

Lemma buildFields_mapped i typ owner fm fm' :
  mapped owner fm -> buildFields lower i typ owner fm = Ok fm' ->
  (exists owner', mapped owner' fm') /\ fields fm' = fields fm ++ visible i typ.
Proof.
  revert i owner fm. induction typ as [|f typ IH]; intros i owner fm Hm E; simpl in E.
  - simplify_eq. split; [by eexists|]. simpl. by rewrite app_nil_r.
  - simpl. destruct (skippedField f); [by eapply IH|]. destruct (supportedField f); [|done]. simpl in E.
    destruct (validColumn (columnOf f)) eqn:Hv; [|done]. simpl in E.
    destruct (owner !! columnKey lower (columnOf f)) eqn:Ho; [done|].
    apply IH in E as [? E]; [|clear E IH].
    { split; [done|]. rewrite E. simpl. by rewrite <-(assoc_L (++)). }
    destruct Hm as [H1 H2 H3 H4].
    assert (forall g, g ∈ fields fm -> keyOf g <> columnKey lower (columnOf f)) as Hne.
    { intros g Hg Eg. destruct (H2 g Hg) as [? Hs]. rewrite Eg in Hs. congruence. }
    constructor; simpl.
    + apply Forall_app. split; [done|]. constructor; [|done]. by rewrite column_info.
    + intros g [Hg|Hg%list_elem_of_singleton]%elem_of_app.
      * rewrite lookup_insert_ne by (intros ?; by eapply Hne). by apply H2.
      * subst. rewrite keyOf_info, lookup_insert_eq. by eexists.
    + rewrite fmap_app, NoDup_app. split; [done|]. split; [|simpl; apply NoDup_singleton].
      intros k Hk Hk'. apply list_elem_of_singleton in Hk'. rewrite keyOf_info in Hk'. subst.
      apply list_elem_of_fmap in Hk as (g & ? & Hg). by eapply Hne.
    + intros g [Hg|Hg%list_elem_of_singleton]%elem_of_app.
      * rewrite lookup_insert_ne by (intros ?; by eapply Hne). by apply H4.
      * subst. by rewrite keyOf_info, lookup_insert_eq, index_info.
Qed.

Lemma buildFieldMap_mapped typ fm :
  buildFieldMap lower typ = Ok fm -> (exists owner, mapped owner fm) /\ fields fm = visible 0 typ.
Proof.
  intros E. apply (buildFields_mapped 0 typ ∅ (mkMap [] ∅ None)); [|done].
  constructor; simpl; [done| |apply NoDup_nil_2|]; intros f Hf; by apply not_elem_of_nil in Hf.
Qed.

Lemma writableMap_columns typ fm :
  writableMap lower typ = Ok fm ->
  fields fm <> [] /\ Forall closes (column <$> fields fm) /\ Forall markless (column <$> fields fm).
Proof.
  unfold writableMap. destruct typ as [typ|]; simpl; [|done].
  destruct (buildFieldMap lower typ) as [fm0|] eqn:E; simpl; [|done].
  apply buildFieldMap_mapped in E as [[owner [H _ _ _]] _]. unfold checkColumns.
  destruct (fields fm0) eqn:Ef; [done|]. destruct (checkWritable fm0); [done|]. intros. simplify_eq.
  rewrite Ef. split; [done|]. rewrite !Forall_fmap. split; (eapply Forall_impl; [exact H|]; intros ?; apply column_closes).
Qed.
End Maps.

(** ** Placeholders and their numbers *)

(** The parameters [$from+1], ..., [$from+count]. *)
Definition numbers (from count : nat) : list Z := Z.of_nat <$> seq (S from) count.

Lemma params_renumber n l : forallb plain l = true -> params (renumber n l) = numbers n (marks l).
Proof.
  revert n. induction l as [|i l IH]; intros n H; [done|]. simpl in H. apply andb_true_iff in H as [Hi H].
  destruct i; try done; simpl; [apply (IH n H)..|]. unfold params in *. simpl. rewrite IH by done. done.
Qed.

Lemma rebindFrom_length q n s : length s <= length (rebindFrom q n s).
Proof.
  revert q n. induction s as [|c s IH]; intros q n; simpl; [lia|].
  pose proof (IH (if Ascii.eqb c (default c q) then None else q) n).
  destruct q as [q|]; simpl in *; [lia|].
  destruct (isQuote c); [specialize (IH (Some c) n); simpl; lia|]. destruct (Ascii.eqb c "?"); simpl; [|specialize (IH None n); lia].
  rewrite length_app. specialize (IH None (S n)). lia.
Qed.

(** What PostgreSQL reads of a safe template once its placeholders are numbered. *)
Lemma rebound_items stmt query :
  safe Gap stmt = true -> finalized DialectPostgres stmt = Ok query -> (Z.of_nat (length query) <= int64_max)%Z ->
  lex query = renumber 0 (lex stmt) /\ params (lex query) = numbers 0 (marks (lex stmt)).
Proof.
  intros Hsafe E Hn. unfold finalized, finalize, rebindPostgres in E. simplify_eq.
  rewrite rebind_from in * by done. pose proof (rebindFrom_length None 0 stmt).
  assert (lex (rebindFrom None 0 stmt) = renumber 0 (lex stmt)) as -> by (apply (lex_rebind Gap); [done|done|lia]).
  split; [done|]. by apply params_renumber, safe_plain.
Qed.

(** ** The intended statements *)

Definition updateItems (table : sql) (cols : list sql) (where_ : sql) : list item :=
  code "UPDATE " ++ lex table ++ code " SET " ++
  join (code ", ") ((fun c => lex c ++ code " = " ++ [Mark]) <$> cols) ++ code " WHERE " ++ lex where_.

Definition deleteItems (table where_ : sql) : list item :=
  code "DELETE FROM " ++ lex table ++ code " WHERE " ++ lex where_.

Definition rowItems (columns : nat) : list item :=
  code "(" ++ join (code ", ") (replicate columns [Mark]) ++ code ")".

Definition insertManyItems (table : sql) (cols : list sql) (rows : nat) : list item :=
  code "INSERT INTO " ++ lex table ++ code " (" ++ join (code ", ") (lex <$> cols) ++ code ") VALUES " ++
  join (code ", ") (replicate rows (rowItems (length cols))).

(** A step through a template: the next piece and the separator behind it. *)
Ltac keyword := let b := fresh in let s := fresh in let H := fresh in intros b s H; by separators H.

Lemma closes_lex p b s :
  closes p -> separator b = true -> lex (p ++ b :: s) = lex p ++ Code b :: lex s /\ safe Gap (p ++ b :: s) = safe Gap s.
Proof. intros Hp. apply Hp. Qed.

Ltac pieces :=
  repeat match goal with
  | H : closes ?p |- context [lex (?p ++ ?b :: ?s)] => destruct (closes_lex p b s H eq_refl) as [-> ->]
  end.

Lemma updateText_items table fm where_ :
  closes table -> Forall closes (column <$> fields fm) ->
  lex (updateText table fm where_) = updateItems table (column <$> fields fm) where_ /\
  safe Gap (updateText table fm where_) = safe Gap where_.
Proof.
  intros Ht Hc. unfold updateText, updateItems.
  assert (Forall closes ((fun f => column f ++ raw " = ?") <$> fields fm) /\
          lex <$> ((fun f => column f ++ raw " = ?") <$> fields fm) =
          (fun c => lex c ++ code " = " ++ [Mark]) <$> (column <$> fields fm)) as [Hs Es].
  { induction (fields fm) as [|f fs IH]; [done|]. rewrite fmap_cons in Hc. apply Forall_cons in Hc as [Hf Hc].
    destruct (IH Hc) as [? E], (closes_set _ Hf) as [? E']. split; [by constructor|]. rewrite !fmap_cons, E. by f_equal. }
  destruct (closes_join _ Hs) as [Hj Ej]. rewrite Es in Ej. rewrite <-Ej.
  set (sets := join (raw ", ") _) in *.
  assert (Hset : closes (raw "SET")) by keyword. assert (Hupd : closes (raw "UPDATE")) by keyword.
  change (raw "UPDATE " ++ table ++ raw " SET " ++ sets ++ raw " WHERE " ++ where_)
    with (raw "UPDATE" ++ " "%char :: (table ++ " "%char :: (raw "SET" ++ " "%char :: (sets ++ " "%char :: (raw "WHERE " ++ where_))))).
  pieces. done.
Qed.

Lemma deleteText_items table where_ :
  closes table ->
  lex (deleteText table where_) = deleteItems table where_ /\ safe Gap (deleteText table where_) = safe Gap where_.
Proof.
  intros Ht. unfold deleteText, deleteItems.
  assert (Hdel : closes (raw "DELETE")) by keyword. assert (Hfrom : closes (raw "FROM")) by keyword.
  change (raw "DELETE FROM " ++ table ++ raw " WHERE " ++ where_)
    with (raw "DELETE" ++ " "%char :: (raw "FROM" ++ " "%char :: (table ++ " "%char :: (raw "WHERE " ++ where_)))).
  pieces. done.
Qed.

Lemma concat_marks n : concat (replicate n (raw "?, ")) ++ raw "?)" = join (raw ", ") (replicate (S n) mark) ++ raw ")".
Proof.
  induction n as [|n IH]; [done|].
  change (concat (replicate (S n) (raw "?, "))) with (raw "?, " ++ concat (replicate n (raw "?, "))).
  rewrite <-(assoc_L (++)), IH. change (replicate (S (S n)) mark) with (mark :: replicate (S n) mark). by destruct n.
Qed.

Lemma rowText_closes n : n <> 0 -> closes (rowText n) /\ lex (rowText n) = rowItems n.
Proof.
  intros Hn. destruct n as [|n]; [done|]. unfold rowText, rowItems. replace (S n - 1) with n by lia. rewrite concat_marks.
  destruct (closes_join (replicate (S n) mark)) as [Hj Ej]; [apply Forall_replicate, closes_mark|].
  rewrite fmap_replicate, (proj2 closes_mark) in Ej. rewrite <-Ej. clear Ej. set (ms := join (raw ", ") _) in *.
  destruct (closes_app [] "(" ms closes_nil eq_refl Hj) as [H1 E1].
  destruct (closes_app ("("%char :: ms) ")" [] H1 eq_refl closes_nil) as [H2 E2].
  split; [exact H2|]. change (raw "(" ++ ms ++ raw ")") with (("("%char :: ms) ++ [")"%char]). rewrite E2.
  simpl in E1. by rewrite E1.
Qed.

Lemma insertManyText_items table cols rows :
  closes table -> Forall closes cols -> cols <> [] ->
  lex (insertManyText table cols rows) = insertManyItems table cols rows /\
  safe Gap (insertManyText table cols rows) = true.
Proof.
  intros Ht Hc Hne. unfold insertManyText, insertManyItems.
  assert (length cols <> 0) as Hn by (by destruct cols).
  destruct (rowText_closes _ Hn) as [Hr Er]. destruct (closes_join _ Hc) as [Hj Ej].
  destruct (closes_join (replicate rows (rowText (length cols)))) as [Hv Ev]; [by apply Forall_replicate|].
  rewrite fmap_replicate, Er in Ev. rewrite <-Ev, <-Ej. clear Ev Ej.
  set (cs := join (raw ", ") cols) in *. set (vs := join (raw ", ") (replicate rows (rowText (length cols)))) in *.
  assert (Hins : closes (raw "INSERT")) by keyword. assert (Hinto : closes (raw "INTO")) by keyword.
  assert (Hval : closes (raw " VALUES")) by keyword.
  destruct (closes_app [] "(" cs closes_nil eq_refl Hj) as [Hopen Eopen].
  change (raw "INSERT INTO " ++ table ++ raw " (" ++ cs ++ raw ") VALUES " ++ vs)
    with (raw "INSERT" ++ " "%char :: (raw "INTO" ++ " "%char :: (table ++ " "%char ::
          (([] ++ "("%char :: cs) ++ ")"%char :: (raw " VALUES" ++ " "%char :: vs))))).
  pieces. rewrite Eopen. split; [done|].
  by apply closes_safe.
Qed.

Lemma insertText_row table cols :
  cols <> [] -> insertText table cols ((fun _ => mark) <$> cols) = insertManyText table cols 1.
Proof.
  intros Hne. unfold insertText, insertManyText, rowText. destruct cols as [|c cols]; [done|]. simpl length.
  replace (S (length cols) - 1) with (length cols) by lia.
  change (join (raw ", ") (replicate 1 ?x)) with x. rewrite concat_marks.
  assert (forall l : list sql, (fun _ => mark) <$> l = replicate (length l) mark) as ->; [|done].
  intros l. induction l as [|? l IH]; [done|]. rewrite fmap_cons. simpl. by f_equal.
Qed.

Lemma marks_updateItems table cols where_ :
  markless table -> Forall markless cols ->
  marks (updateItems table cols where_) = length cols + marks (lex where_).
Proof.
  intros Ht Hc. unfold updateItems. rewrite !marks_app, marks_join, Ht, !marks_text. cbn [Nat.add]. f_equal.
  induction Hc as [|c cols Hc _ IH]; [done|]. rewrite !fmap_cons.
  change (sum_list (?m :: ?l)) with (m + sum_list l). rewrite IH, !marks_app, Hc, marks_text. done.
Qed.

Lemma marks_deleteItems table where_ : markless table -> marks (deleteItems table where_) = marks (lex where_).
Proof. intros Ht. unfold deleteItems. by rewrite !marks_app, Ht, !marks_text. Qed.

Lemma sum_replicate k n : sum_list (replicate n k) = n * k.
Proof. induction n as [|n IH]; [done|]. simpl. by rewrite IH. Qed.

Lemma marks_insertManyItems table cols rows :
  markless table -> Forall markless cols -> marks (insertManyItems table cols rows) = rows * length cols.
Proof.
  intros Ht Hc. unfold insertManyItems. rewrite !marks_app, !marks_join, Ht, !marks_text, !fmap_replicate. simpl.
  assert (sum_list (marks <$> (lex <$> cols)) = 0) as ->.
  { induction Hc as [|c cols Hc _ IH]; [done|]. rewrite !fmap_cons. change (sum_list (?m :: ?l)) with (m + sum_list l). by rewrite IH, Hc. }
  rewrite sum_replicate. simpl. f_equal. unfold rowItems.
  by rewrite !marks_app, marks_join, fmap_replicate, sum_replicate, Nat.mul_1_r, !marks_text, Nat.add_0_r.
Qed.

(** ** The writes *)

Section Writes.
Context (lower : Z -> Z) (fmt : goTime -> string).

Lemma result_bind_Ok {E A B} (r : result E A) (f : A -> result E B) b :
  result_bind r f = Ok b -> exists a, r = Ok a /\ f a = Ok b.
Proof. destruct r as [a|]; [by exists a|done]. Qed.

Lemma checkTable_closes table : checkTable table = None -> closes table /\ markless table.
Proof. unfold checkTable. destruct (validIdentifier table) eqn:E; [|done]. intros _. by apply identifier_closes. Qed.

(** C13: An accepted Update whose [where] fragment is plain, that is ASCII with no placeholder touching
    the end of a word, sends PostgreSQL the intended statement: the table, the columns and the
    [where] fragment are read as they are written, in their places, the parameters are
    exactly $1 to $n from left to right, and what is bound to them is the columns' values
    followed by the arguments of the fragment. *)
Theorem update_is_as_intended table where_ typ row args query bound :
  plainWhere where_ -> (Z.of_nat (length query) <= int64_max)%Z ->
  updateStmt lower fmt DialectPostgres table where_ typ row args = Ok (query, bound) ->
  exists fm, writableMap lower typ = Ok fm /\
    lex query = renumber 0 (updateItems table (column <$> fields fm) where_) /\
    params (lex query) = numbers 0 (length (fields fm) + marks (lex where_)) /\
    bound = ((fun f => argOf fmt (FieldOf row f)) <$> fields fm) ++ normArgs fmt args.
Proof.
  intros Hw Hn E. unfold updateStmt in E. destruct (checkTable table) eqn:Ht; [done|].
  destruct (whereError where_); [done|]. apply result_bind_Ok in E as (fm & Efm & E).
  apply result_bind_Ok in E as (q & Eq & E). simplify_eq. exists fm. split; [done|].
  apply checkTable_closes in Ht as [Ht Hm]. apply writableMap_columns in Efm as (_ & Hc & Hcm).
  destruct (updateText_items table fm where_ Ht Hc) as [Ei Es].
  destruct (rebound_items _ _ (eq_trans Es (where_safe _ Hw)) Eq Hn) as [-> Ep]. split; [by rewrite Ei|].
  rewrite Ei in *. split; [|done]. rewrite <-(length_fmap column (fields fm)), <-(marks_updateItems table) by done.
  done.
Qed.

(** A handle normalizes the arguments of a write a second time, which changes nothing. *)
Lemma argOf_idempotent v : argOf fmt (argOf fmt v) = argOf fmt v.
Proof.
  induction v as [| | | | |t|[t|]|name v IH|]; simpl; unfold timeArg; try done;
    [by destruct (IsZero (instant t))..|by rewrite IH].
Qed.

Lemma handle_binds_alike {D} (q : DB (D := D)) query args :
  ExecContext fmt q query (normArgs fmt args) = ExecContext fmt q query args.
Proof.
  unfold ExecContext, normArgs. rewrite <-list_fmap_compose. f_equal. apply list_fmap_ext.
  intros _ v _. apply argOf_idempotent.
Qed.

(** *** Inserts *)

Lemma chosen_Forall (P : sql -> Prop) keep i fs : Forall P (column <$> fs) -> Forall P (column <$> chosen keep i fs).
Proof.
  revert i. induction fs as [|f fs IH]; intros i H; [done|]. rewrite fmap_cons in H.
  apply Forall_cons in H as [Hf H]. simpl. rewrite fmap_app. apply Forall_app. split; [|by apply IH].
  destruct (keep i f); [by constructor|done].
Qed.

Lemma chosen_kept keep i fs j f : fs !! j = Some f -> f ∈ chosen keep i fs \/ keep (i + j) f = false.
Proof.
  revert i j. induction fs as [|g fs IH]; intros i j H; [done|]. simpl. destruct j as [|j]; simpl in H.
  - simplify_eq. rewrite Nat.add_0_r. destruct (keep i f) eqn:E; [|by right]. left. by left.
  - destruct (IH (S i) j H) as [Hin|Hk]; [|by right; rewrite <-Nat.add_succ_comm].
    left. apply elem_of_app. by right.
Qed.

Lemma chosen_ext keep keep' i fs :
  (forall j f, fs !! j = Some f -> keep (i + j) f = keep' (i + j) f) -> chosen keep i fs = chosen keep' i fs.
Proof.
  revert i. induction fs as [|f fs IH]; intros i H; [done|]. simpl. specialize (H 0 f eq_refl) as H0.
  rewrite Nat.add_0_r in H0. rewrite H0, (IH (S i)); [done|]. intros j g Hj.
  rewrite !Nat.add_succ_comm. by apply H.
Qed.

(** [InsertMany] leaves out the primary key only, and only when no row sets it. *)
Lemma manyColumns_kept fm rows i f :
  fields fm !! i = Some f ->
  f ∈ manyColumns fm rows \/ (pkIndex fm = Some i /\ Forall (fun val => isZero (FieldOf val f) = true) rows).
Proof.
  intros Hi. unfold manyColumns. destruct (chosen_kept
    (fun i _ => match pkIndex fm with
                | None => true
                | Some i => existsb (fun val => match fields fm !! i with Some f => negb (isZero (FieldOf val f)) | None => false end) rows
                end || negb (bool_decide (Some i = pkIndex fm))) 0 _ _ _ Hi) as [?|Hk]; [by left|right].
  apply orb_false_iff in Hk as [Hk Hp%negb_false_iff%bool_decide_eq_true]. simpl in Hp. split; [done|].
  rewrite <-Hp, Hi in Hk. apply Forall_forall. intros val Hval.
  destruct (isZero (FieldOf val f)) eqn:E; [done|].
  assert (existsb (fun val => negb (isZero (FieldOf val f))) rows = true); [|congruence].
  apply existsb_exists. exists val. rewrite E. by rewrite <-list_elem_of_In.
Qed.

Lemma concat_lookup {A B} (g : A -> list B) k (l : list A) i j a b :
  (forall x, length (g x) = k) -> l !! i = Some a -> g a !! j = Some b -> concat (g <$> l) !! (i * k + j) = Some b.
Proof.
  intros Hk. revert i. induction l as [|x l IH]; intros i Hi Hj; [done|]. rewrite fmap_cons. simpl.
  destruct i as [|i]; simpl in *.
  - simplify_eq. by rewrite lookup_app_l by (by apply lookup_lt_Some in Hj).
  - rewrite lookup_app_r by (rewrite Hk; lia). rewrite Hk. replace (k + i * k + j - k) with (i * k + j) by lia.
    by apply IH.
Qed.

Lemma concat_length {A B} (g : A -> list B) k (l : list A) :
  (forall x, length (g x) = k) -> length (concat (g <$> l)) = length l * k.
Proof. intros Hk. induction l as [|x l IH]; [done|]. rewrite fmap_cons. simpl. by rewrite length_app, IH, Hk. Qed.

Lemma finalized_postgres stmt : exists query, finalized DialectPostgres stmt = Ok query.
Proof. by eexists. Qed.

(** An accepted InsertMany of some rows sends one statement that lists its columns and a row of
    placeholders per row; the parameters are exactly $1 to $n from left to right, and the
    one of row [r] and column [j] is bound to that field of that row. A column is left out
    only when it is a primary key that no row sets. *)
Theorem insert_many_is_as_intended table typ rows query bound :
  (Z.of_nat (length query) <= int64_max)%Z ->
  insertManyStmt lower fmt DialectPostgres table typ (Some rows) = Ok (Some (query, bound)) ->
  exists fm, writableMap lower typ = Ok fm /\
    let fs := manyColumns fm rows in
    lex query = renumber 0 (insertManyItems table (column <$> fs) (length rows)) /\
    params (lex query) = numbers 0 (length bound) /\
    length bound = length rows * length fs /\
    (forall r j val f, rows !! r = Some val -> fs !! j = Some f ->
       bound !! (r * length fs + j) = Some (argOf fmt (FieldOf val f))) /\
    (forall i f, fields fm !! i = Some f ->
       f ∈ fs \/ (pkIndex fm = Some i /\ Forall (fun val => isZero (FieldOf val f) = true) rows)).
Proof.
  intros Hn E. unfold insertManyStmt in E. destruct (checkTable table) eqn:Ht; [done|].
  simpl in E. apply result_bind_Ok in E as (fm & Efm & E). exists fm. split; [done|]. intros fs. fold fs in E.
  destruct rows as [|val rows]; [done|]. set (all := val :: rows) in *.
  destruct fs as [|f fs'] eqn:Efs; [done|]. rewrite <-Efs in *.
  injection E as Eq Eb. change (concat ((fun val => (fun f => argOf fmt (FieldOf val f)) <$> fs) <$> all) = bound) in Eb.
  subst bound.
  assert (finalized DialectPostgres (insertManyText table (column <$> fs) (length all)) = Ok query) as Efin by (by rewrite <-Eq).
  apply checkTable_closes in Ht as [Ht Hm]. apply writableMap_columns in Efm as (_ & Hc & Hcm).
  assert (Forall closes (column <$> fs)) as Hcs by (by apply chosen_Forall).
  assert (Forall markless (column <$> fs)) as Hms by (by apply chosen_Forall).
  assert (column <$> fs <> []) as Hne by (by rewrite Efs).
  destruct (insertManyText_items table _ (length all) Ht Hcs Hne) as [Ei Es].
  destruct (rebound_items _ _ Es Efin Hn) as [-> ->].
  assert (forall val, length ((fun f => argOf fmt (FieldOf val f)) <$> fs) = length fs) as Hlen by (intros; by rewrite length_fmap).
  rewrite Ei, marks_insertManyItems, (concat_length _ _ _ Hlen), length_fmap by done.
  split_and!; [done..| |apply manyColumns_kept].
  intros r j v g Hr Hg. eapply concat_lookup; [done..|]. by rewrite list_lookup_fmap, Hg.
Qed.

(** Inserting a row that sets some column is inserting the slice of that row: both send the same
    statement and bind the same arguments. *)
Theorem insert_is_insert_many d table typ row query bound pk :
  bound <> [] -> insertStmt lower fmt d table typ row = Ok (query, bound, pk) ->
  insertManyStmt lower fmt d table typ (Some [row]) = Ok (Some (query, bound)).
Proof.
  intros Hb E. unfold insertStmt in E. unfold insertManyStmt.
  destruct (checkTable table); [done|]. cbn [result_bind]. apply result_bind_Ok in E as (fm & -> & E). cbn [result_bind].
  unfold buildInsertParts in E. set (fs := chosen _ 0 (fields fm)) in E.
  assert (manyColumns fm [row] = fs) as ->.
  { unfold manyColumns. apply chosen_ext. intros j f Hj. simpl. unfold skipsPK.
    case_bool_decide as Hp; rewrite ?orb_true_r; [|done]. rewrite <-Hp, Hj. by destruct (isZero _). }
  apply result_bind_Ok in E as (q & Eq & E). injection E as -> <- _.
  assert (fs <> []) as Hne by (by intros ->).
  assert (insertText table (column <$> fs) ((fun _ => mark) <$> fs) = insertManyText table (column <$> fs) 1) as Et.
  { rewrite <-insertText_row by (by destruct fs). by rewrite <-list_fmap_compose. }
  rewrite Et in Eq. assert (checkDialect d = true) as -> by (by destruct d).
  destruct fs as [|f fs0] eqn:Efs; [done|]. rewrite <-Efs in *. simpl length. rewrite Eq. simpl. by rewrite app_nil_r.
Qed.
End Writes.

(** ** Reading back what was written *)

Section ReadBack.
Context (lower : Z -> Z) (RFC3339Nano : goTime -> string) (Parse : string -> string -> option goTime).
Context (convert : Field -> value -> result driverError value) (timeScanError : value -> driverError).
Context (strings_Contains : string -> string -> bool) (classifiers : list (driverError -> option sentinel)).
Context (zeroOf : Field -> value).

(** The years 1 to 9999, which RFC 3339 has four digits for. *)
Definition inYears (t : goTime) : Prop :=
  (-62135596800 * Second <= instant t < 253402300800 * Second)%Z.

(** [time.Parse] reads what [Format] writes of a time in UTC in these years, which is not
    empty. *)
Context (format_parse : forall t, zoned t = false -> inYears t -> Parse "2006-01-02T15:04:05.999999999Z07:00" (RFC3339Nano t) = Some t).
Context (format_text : forall t, RFC3339Nano t <> EmptyString).

(** The values a field can hold, as far as they matter here: times in those years, and
    otherwise values that [database/sql] scans back from what is bound for them. *)
Definition holds (f : Field) (v : value) : Prop :=
  match f_kind f with
  | TimeField O => exists t, v = TimeV t /\ inYears t
  | TimeField 1 => exists t, v = TimePtr t /\ (forall t', t = Some t' -> inYears t')
  | _ => convert f (argOf RFC3339Nano v) = Ok v
  end.

(** A time comes back in UTC, as the same instant. *)
Definition readBack (v : value) : value :=
  match v with
  | TimeV t => TimeV (UTC t)
  | TimePtr t => TimePtr (UTC <$> t)
  | _ => v
  end.

Lemma timeScanner_arg t : inYears t -> timeScanner Parse timeScanError (timeArg RFC3339Nano t) = Ok (UTC t).
Proof.
  intros Hy. unfold timeArg, timeScanner. destruct (IsZero (instant t)) eqn:Hz.
  - apply IsZero_true in Hz. unfold parse, zeroTime, UTC. by rewrite bool_decide_true, Hz.
  - unfold parse. rewrite bool_decide_false by done. simpl. by rewrite format_parse.
Qed.

Lemma ptrTimeScanner_arg t :
  inYears t -> ptrTimeScanner Parse timeScanError (timeArg RFC3339Nano t) = Ok (Some (UTC t)).
Proof.
  intros Hy. unfold ptrTimeScanner. rewrite timeScanner_arg by done. unfold timeArg. by destruct (IsZero (instant t)).
Qed.

Lemma scanField_arg f v :
  supportedField f = true -> holds f v ->
  scanField Parse convert timeScanError f (argOf RFC3339Nano v) =
    Ok (match f_kind f with TimeField _ => readBack v | _ => v end).
Proof.
  unfold supportedField, holds, scanField. destruct (f_kind f) as [|[|[|n]]|]; try done; intros _ H.
  - destruct H as (t & -> & Hy). simpl. by rewrite timeScanner_arg.
  - destruct H as ([t|] & -> & Hy); simpl; [by rewrite ptrTimeScanner_arg by auto|done].
Qed.

Lemma planColumns_mapped owner fm i seen fs :
  mapped lower owner fm -> (forall f, f ∈ fs -> f ∈ fields fm) -> NoDup (keyOf lower <$> fs) ->
  (forall f, f ∈ fs -> seen !! keyOf lower f = None) ->
  planColumns lower fm i seen (unquoteIdent <$> (column <$> fs)) = Ok ((fun f => Some (index f)) <$> fs).
Proof.
  intros Hm. revert i seen. induction fs as [|f fs IH]; intros i seen Hin Hnd Hseen; [done|].
  rewrite !fmap_cons in *. apply NoDup_cons in Hnd as [Hf Hnd]. simpl.
  pose proof (Hseen f ltac:(left)) as Hs. unfold keyOf, columnKey in Hs. rewrite Hs.
  rewrite IH; [|intros; apply Hin; by right|done|].
  - simpl. pose proof (mapped_fields _ _ _ Hm f ltac:(apply Hin; left)) as Hc. unfold keyOf, columnKey in Hc. by rewrite Hc.
  - intros g Hg. fold (columnKey lower (column f)). rewrite lookup_insert_ne; [by apply Hseen; right|].
    intros E. apply Hf. unfold keyOf at 1. rewrite E. by apply list_elem_of_fmap_2.
Qed.

Lemma buildFields_supported i typ owner fm fm' :
  buildFields lower i typ owner fm = Ok fm' -> Forall (fun f => skippedField f = false -> supportedField f = true) typ.
Proof.
  revert i owner fm. induction typ as [|f typ IH]; intros i owner fm E; [done|]. simpl in E.
  destruct (skippedField f) eqn:Hs; [constructor; [congruence|by eapply IH]|].
  destruct (supportedField f) eqn:Hf; [|done]. simpl in E. destruct (negb _); [done|].
  destruct (owner !! _); [done|]. constructor; [done|by eapply IH].
Qed.

(** What a struct holds once the columns of [v] are scanned into it. *)
Definition scanned (f : Field) (v : value) : value :=
  if skippedField f then zeroOf f else match f_kind f with TimeField _ => readBack v | _ => v end.

Lemma scan_visible pre typ vals vs item :
  length item = length pre -> length vals = length pre ->
  Forall (fun f => skippedField f = false -> supportedField f = true) typ ->
  Forall2 (fun f v => skippedField f = false -> holds f v) typ vs ->
  let fs := visible (length pre) typ in
  scan strings_Contains classifiers Parse convert timeScanError (pre ++ typ) ((fun f => Some (index f)) <$> fs)
    ((fun f => argOf RFC3339Nano (FieldOf (vals ++ vs) f)) <$> fs) (item ++ (zeroOf <$> typ)) =
  Ok (item ++ zip_with scanned typ vs).
Proof.
  revert pre vals vs item. induction typ as [|f typ IH]; intros pre vals vs item Hi Hv Hs Hh fs; subst fs.
  { by inversion Hh. }
  apply Forall_cons in Hs as [Hf Hs]. inversion Hh as [|? v ? vs' Hfv Hh']; simplify_eq.
  assert (forall A (a : A) l m, l ++ a :: m = (l ++ [a]) ++ m) as Hsnoc by (intros; by rewrite <-(assoc_L (++))).
  specialize (IH (pre ++ [f]) (vals ++ [v]) vs' (item ++ [scanned f v])). rewrite !length_app in IH. simpl in IH.
  rewrite !Nat.add_1_r, <-!Hsnoc in IH. specialize (IH ltac:(lia) ltac:(lia) Hs Hh').
  rewrite fmap_cons. cbn [zip_with visible]. destruct (skippedField f) eqn:Hk.
  { assert (scanned f v = zeroOf f) as E by (unfold scanned; by rewrite Hk). rewrite E in *. exact IH. }
  assert (scanned f v = match f_kind f with TimeField _ => readBack v | _ => v end) as Ev by (unfold scanned; by rewrite Hk).
  simpl. rewrite index_info, lookup_app_r, Nat.sub_diag by lia. simpl. unfold FieldOf at 1.
  rewrite index_info, app_nth2, Hv, Nat.sub_diag by lia. simpl.
  rewrite (scanField_arg f v (Hf eq_refl) (Hfv eq_refl)).
  rewrite <-Ev, <-Hi, insert_app_r_alt, Nat.sub_diag by lia. simpl. rewrite Hi. exact IH.
Qed.

Context {D : Type}.

(** C14: A row that was written is read back: when a query yields the columns of a struct type under
    their names and the values an insert bound for them, [One] gives the row again, each
    value in the field of its column, with times in UTC and the fields without a column at
    their zero values. This is so for a row whose times, zero or not, are in the years 1 to
    9999, the range in which [time] parses back what it formats, and whose other values
    [database/sql] converts back from what was bound for them. *)
Theorem written_row_is_read_back (db : querier) typ fm row query args (d d' : D) :
  rowType lower (Some typ) = Ok (typ, fm) ->
  Forall2 (fun f v => skippedField f = false -> holds f v) typ row ->
  db query (normArgs RFC3339Nano args) d =
    (d', Ok (mkRows (Ok (unquoteIdent <$> (column <$> fields fm)))
               [(fun f => argOf RFC3339Nano (FieldOf row f)) <$> fields fm] None)) ->
  One lower RFC3339Nano strings_Contains classifiers Parse convert timeScanError zeroOf db (Some typ) query args d =
    (d', Ok (zip_with scanned typ row)).
Proof.
  intros Hr Hh Hq. unfold One. rewrite Hr. unfold runQuery. rewrite Hq. cbn [result_bind]. f_equal.
  unfold rowType in Hr. cbn [structType result_bind] in Hr.
  destruct (buildFieldMap lower typ) as [fm0|] eqn:E; [|done]. cbn [result_bind] in Hr.
  destruct (find _ (fields fm0)); [done|]. simplify_eq.
  pose proof (buildFields_supported _ _ _ _ _ E) as Hs.
  apply buildFieldMap_mapped in E as [[owner Hm] Ef].
  unfold newScanPlan. cbn [Columns data].
  rewrite (planColumns_mapped owner) by (done || apply Hm || (intros; apply lookup_empty)). cbn [result_bind].
  rewrite Ef. by apply (scan_visible [] typ [] row []).
Qed.
End ReadBack.

(** ** Transactions *)

Section Transactions.
Context (strings_Contains : string -> string -> bool) (classifiers : list (driverError -> option sentinel)).
Context {D S : Type} (visible : D -> S) (t : txDriver (D := D)).

(** What a database promises: nothing but a successful commit changes what is visible. *)
Class Isolated : Prop := {
  begin_hidden : forall d, visible (BeginTx t d).1 = visible d;
  rollback_hidden : forall d, visible (Rollback t d).1 = visible d;
  failed_commit_hidden : forall d e, (Commit t d).2 = Some e -> visible (Commit t d).1 = visible d
}.
Context `{!Isolated}.

(** A function that works inside a transaction. *)
Definition hidden {A} (fn : D -> D * A) : Prop := forall d, visible (fn d).1 = visible d.

(** Either the body ran to its end and was committed, or nothing is visible of it. *)
Lemma Tx_all_or_nothing fn d :
  hidden fn ->
  (Tx strings_Contains classifiers t fn d).2 = Returned None \/
  visible (Tx strings_Contains classifiers t fn d).1 = visible d.
Proof.
  intros Hfn. unfold Tx. pose proof (begin_hidden d) as Hb. destruct (BeginTx t d) as [d1 [e|]]; [by right|].
  pose proof (Hfn d1) as Hf. destruct (fn d1) as [d2 [[e|]|]]; simpl in *.
  - pose proof (rollback_hidden d2). destruct (Rollback t d2) as [d3 r]. right. simpl in *. congruence.
  - pose proof (failed_commit_hidden d2) as Hc. destruct (Commit t d2) as [d3 [e|]]; [|by left].
    right. simpl in *. rewrite (Hc e); congruence.
  - right. pose proof (rollback_hidden d2). congruence.
Qed.

Lemma Tx_failed fn d e : (BeginTx t d).2 = None -> (fn (BeginTx t d).1).2 = Returned (Some e) ->
  exists r, (Tx strings_Contains classifiers t fn d).2 = Returned (Some (FnFailed e r)).
Proof.
  intros Hb Hf. unfold Tx. destruct (BeginTx t d) as [d1 b]. simpl in *. subst b.
  destruct (fn d1) as [d2 o]. simpl in Hf. subst o. destruct (Rollback t d2) as [d3 r]. by exists r.
Qed.

(** UpdateOne in a transaction touches one row or none: unless the statement reports exactly one
    affected row, Tx fails and nothing of the statement is visible, although the statement
    has been carried out by then. *)
Theorem update_one_in_a_transaction lower fmt (db : executor) dialect table where_ typ row args d d' r :
  (forall query bound, hidden (db query bound)) ->
  (BeginTx t d).2 = None ->
  Update lower fmt strings_Contains classifiers db dialect table where_ typ row args (BeginTx t d).1 = (d', r) ->
  (forall n, r = Ok n -> (n = 0 \/ 1 < n)%Z) ->
  let fn d := let '(d, r) := UpdateOne lower fmt strings_Contains classifiers db dialect table where_ typ row args d in
              (d, Returned match r with Ok _ => None | Err e => Some e end) in
  (exists e rollback, (Tx strings_Contains classifiers t fn d).2 = Returned (Some (FnFailed e rollback))) /\
  visible (Tx strings_Contains classifiers t fn d).1 = visible d.
Proof.
  intros Hdb Hb Hu Hr fn.
  assert (hidden fn) as Hfn.
  { intros d0. subst fn. cbn beta. unfold UpdateOne, reportOne, Update.
    destruct (updateStmt _ _ _ _ _ _ _ _) as [[query bound]|]; [|done].
    unfold exec. pose proof (Hdb query bound d0). by destruct (db query bound d0). }
  assert (exists e, (fn (BeginTx t d).1).2 = Returned (Some e)) as [e He].
  { subst fn. cbn beta. unfold UpdateOne, reportOne. rewrite Hu. simpl. destruct r as [n|e]; simpl; [|by eexists].
    unfold exactlyOne. specialize (Hr n eq_refl). destruct (Z.eqb_spec n 0); simpl; [by eexists|].
    rewrite (proj2 (Z.ltb_lt _ _)) by lia. by eexists. }
  destruct (Tx_failed fn d e Hb He) as [rb Etx]. split; [by exists e, rb|].
  destruct (Tx_all_or_nothing fn d Hfn) as [E|E]; [congruence|done].
Qed.
End Transactions.

(** ** A format of times that is read back *)

Definition formatted (t : goTime) : string :=
  match instant t with Z0 => "z" | Zpos p => String "+" (bits p) | Zneg p => String "-" (bits p) end%string.

Definition parsed (layout s : string) : option goTime :=
  match s with
  | String c s => Some (mkTime (if Ascii.eqb c "+" then Zpos (ofBits s) else if Ascii.eqb c "-" then Zneg (ofBits s) else 0%Z) false)
  | EmptyString => None
  end.

Lemma parsed_formatted t :
  zoned t = false -> inYears t -> parsed "2006-01-02T15:04:05.999999999Z07:00" (formatted t) = Some t.
Proof. destruct t as [[|p|p] z]; simpl; intros -> _; by rewrite ?ofBits_bits. Qed.

Lemma formatted_text t : formatted t <> EmptyString.
Proof. by destruct t as [[|p|p] z]. Qed.

(** ** Users *)

Definition quoted (s : string) : sql := dquote :: raw s ++ [dquote].

Definition User : list Field :=
  [mkField (raw "ID") true [] Scalar;
   mkField (raw "EMail") true [] Scalar;
   mkField (raw "cache") false [] Scalar;
   mkField (raw "Full") true (quoted "Full name?") Scalar;
   mkField (raw "CreatedAt") true [] (TimeField 0);
   mkField (raw "Deleted") true [] (TimeField 1);
   mkField (raw "Note") true (raw "-") Scalar].

Definition user (id : Z) (email name : string) : list value :=
  [Int id; Text email; Nil; Text name; TimeV (mkTime 1700000000 true); TimePtr None; Text "a note"].

Definition noClassifier : list (driverError -> option sentinel) := [].
Definition contains (s sub : string) : bool := false.

Notation updateUser := (updateStmt ascii_lower formatted).
Notation insertUsers := (insertManyStmt ascii_lower formatted).

Definition where_ : sql := raw "tag = '?' AND id = ?".

Example update_text :
  (fun r => text r.1) <$> (match updateUser DialectPostgres (raw "app.users") where_ (Some User) (user 7 "a@b" "Ann") [Int 7] with
                           | Ok r => Some r | Err _ => None end)
  = Some ("UPDATE app.users SET id = $1, e_mail = $2, " +:+ text (quoted "Full name?") +:+
          " = $3, created_at = $4, deleted = $5 WHERE tag = '?' AND id = $6")%string.
Proof. vm_compute. reflexivity. Qed.

Lemma where_plain : plainWhere where_.
Proof. by repeat split; vm_compute. Qed.

Lemma rebinding_is_lexical_witness :
  plainWhere where_ /\ lex (rebindPostgres where_) = renumber 0 (lex where_) /\ params (lex (rebindPostgres where_)) = [1%Z].
Proof.
  split; [exact where_plain|]. split; [|vm_compute; reflexivity].
  apply (rebinding_is_lexical where_); [exact where_plain|vm_compute; discriminate].
Defined.

Lemma update_is_as_intended_witness :
  exists query bound,
    updateUser DialectPostgres (raw "app.users") where_ (Some User) (user 7 "a@b" "Ann") [Int 7] = Ok (query, bound) /\
    params (lex query) = [1; 2; 3; 4; 5; 6]%Z /\ length bound = 6 /\
    exists fm, writableMap ascii_lower (Some User) = Ok fm /\
      lex query = renumber 0 (updateItems (raw "app.users") (column <$> fields fm) where_) /\
      params (lex query) = numbers 0 (length (fields fm) + marks (lex where_)) /\
      bound = ((fun f => argOf formatted (FieldOf (user 7 "a@b" "Ann") f)) <$> fields fm) ++ normArgs formatted [Int 7].
Proof.
  eexists _, _. split; [vm_compute; reflexivity|]. split; [vm_compute; reflexivity|]. split; [reflexivity|].
  apply (update_is_as_intended ascii_lower formatted); [exact where_plain|vm_compute; discriminate|vm_compute; reflexivity].
Defined.

(** ** Inserts *)

Lemma insert_many_is_as_intended_witness :
  let rows := [user 0 "a@b" "Ann"; user 0 "b@c" "Bob"] in
  exists query bound,
    insertUsers DialectPostgres (raw "users") (Some User) (Some rows) = Ok (Some (query, bound)) /\
    text query = ("INSERT INTO users (e_mail, " +:+ text (quoted "Full name?") +:+
                  ", created_at, deleted) VALUES ($1, $2, $3, $4), ($5, $6, $7, $8)")%string /\
    exists fm, writableMap ascii_lower (Some User) = Ok fm /\
      let fs := manyColumns fm rows in
      lex query = renumber 0 (insertManyItems (raw "users") (column <$> fs) (length rows)) /\
      params (lex query) = numbers 0 (length bound) /\
      length bound = length rows * length fs /\
      (forall r j val f, rows !! r = Some val -> fs !! j = Some f ->
         bound !! (r * length fs + j) = Some (argOf formatted (FieldOf val f))) /\
      (forall i f, fields fm !! i = Some f ->
         f ∈ fs \/ (pkIndex fm = Some i /\ Forall (fun val => isZero (FieldOf val f) = true) rows)).
Proof.
  intros rows. eexists _, _. split; [vm_compute; reflexivity|]. split; [vm_compute; reflexivity|].
  apply (insert_many_is_as_intended ascii_lower formatted); [vm_compute; discriminate|vm_compute; reflexivity].
Defined.

Lemma insert_is_insert_many_witness :
  exists query bound pk,
    insertStmt ascii_lower formatted DialectSQLite (raw "users") (Some User) (user 7 "a@b" "Ann") = Ok (query, bound, pk) /\
    pk = Some (Int 7) /\ length bound = 5 /\
    insertUsers DialectSQLite (raw "users") (Some User) (Some [user 7 "a@b" "Ann"]) = Ok (Some (query, bound)).
Proof.
  eexists _, _, _. split; [vm_compute; reflexivity|]. split; [reflexivity|]. split; [reflexivity|].
  eapply (insert_is_insert_many ascii_lower formatted); [discriminate|vm_compute; reflexivity].
Defined.

(** ** Placeholders PostgreSQL does not see

    The check accepts a placeholder directly behind a word, which takes the dollar sign of
    its number in, and a dollar-quoted string whose tag is not ASCII, in which the
    placeholder is numbered although it is text. *)

Theorem glued_mark_is_lost :
  let where_ := raw "name LIKE? AND id = ?" in
  checkWhere where_ = None /\ marks (lex where_) = 2 /\
  text (rebindPostgres where_) = "name LIKE$1 AND id = $2"%string /\
  params (lex (rebindPostgres where_)) = [2%Z].
Proof. repeat split; vm_compute; reflexivity. Qed.

Theorem dollar_quoted_mark_is_numbered :
  let where_ := raw "note = $é$ ? $é$ AND id = ?" in
  checkWhere where_ = None /\ marks (lex where_) = 1 /\
  literals (lex where_) = raw "$é$ ? $é$" /\
  literals (lex (rebindPostgres where_)) = raw "$é$ $1 $é$" /\ params (lex (rebindPostgres where_)) = [2%Z].
Proof. repeat split; vm_compute; reflexivity. Qed.

Example rejected_fragments :
  checkWhere <$> (raw <$> ["  "; "a = E'\'"; "a = 'x"; "a ?| b"; "a = ?1"; "a ? 'k'"; "a = $1"; "a = $$x$$"; "a -- b"; "a /* b"]%string)
  = Some <$> [EmptyWhere; EscapeString; Unterminated squote; JSONBOperator "|"; NumberedMark (raw "?1"); MarkThen squote;
              DollarNumber (raw "$1"); DollarQuote (raw "$$"); LineComment; BlockComment].
Proof. vm_compute. reflexivity. Qed.

(** ** A table whose rows are read back *)

Definition rowsOf (columns : list sql) (bound : list value) : Rows :=
  mkRows (Ok (unquoteIdent <$> columns)) [bound] None.

(** The rows a statement yields, whatever it says. *)
Definition yields (rows : Rows) : querier (D := unit) := fun _ _ d => (d, Ok rows).

Definition asBound (f : Field) (v : value) : result driverError value := Ok v.
Definition noTime (v : value) : driverError := mkDriverError "cannot scan" None.
Definition zeroValue (f : Field) : value := match f_kind f with TimeField O => TimeV zeroTime | _ => Nil end.

Definition ann : list value := user 7 "a@b" "Ann".

Lemma ann_holds : Forall2 (fun f v => skippedField f = false -> holds formatted asBound f v) User ann.
Proof.
  repeat constructor; intros _; try reflexivity; eexists; (split; [reflexivity|done]).
Qed.

Lemma written_row_is_read_back_witness :
  exists typ fm,
    rowType ascii_lower (Some User) = Ok (typ, fm) /\
    One ascii_lower formatted contains noClassifier parsed asBound noTime zeroValue
      (yields (rowsOf (column <$> fields fm) ((fun f => argOf formatted (FieldOf ann f)) <$> fields fm)))
      (Some typ) (raw "SELECT * FROM users") [] () =
    ((), Ok [Int 7; Text "a@b"; Nil; Text "Ann"; TimeV (mkTime 1700000000 false); TimePtr None; Nil]).
Proof.
  eexists User, _. split; [vm_compute; reflexivity|].
  refine (eq_trans (written_row_is_read_back ascii_lower formatted parsed asBound noTime contains noClassifier zeroValue
            parsed_formatted formatted_text _ User _ ann _ [] () () _ ann_holds _) _); [vm_compute; reflexivity|reflexivity|].
  vm_compute. reflexivity.
Defined.

(** ** A database with one transaction *)

(** The committed rows and those of the open transaction; each statement adds one. *)
Record Table := mkTable { committed : nat; pending : option nat }.

Definition table_tx : txDriver (D := Table) :=
  mkTx (fun d => (mkTable (committed d) (Some (committed d)), None))
       (fun d => (mkTable (default (committed d) (pending d)) None, None))
       (fun d => (mkTable (committed d) None, None)).

(** A statement in the transaction that touches two rows. *)
Definition touchesTwo : executor (D := Table) := fun _ _ d =>
  (mkTable (committed d) (Nat.add 2 <$> pending d), Ok (mkResult 0 (Ok 2%Z))).

#[local] Instance table_isolated : Isolated committed table_tx.
Proof. split; simpl; done. Qed.

Lemma update_one_in_a_transaction_witness :
  let d := mkTable 5 None in
  let fn d := let '(d, r) := UpdateOne ascii_lower formatted contains noClassifier touchesTwo DialectPostgres (raw "users") where_
                               (Some User) ann [Int 7] d in
              (d, Returned match r with Ok _ => None | Err e => Some e end) in
  (exists e rollback, (Tx contains noClassifier table_tx fn d).2 = Returned (Some (FnFailed e rollback))) /\
  committed (Tx contains noClassifier table_tx fn d).1 = committed d.
Proof.
  intros d. eapply (update_one_in_a_transaction contains noClassifier committed table_tx ascii_lower formatted touchesTwo
                      DialectPostgres (raw "users") where_ (Some User) ann [Int 7] d);
    [done|reflexivity|vm_compute; reflexivity|].
  intros n Hn. inversion Hn. right. reflexivity.
Defined.

Example update_one_reports :
  (UpdateOne ascii_lower formatted contains noClassifier touchesTwo DialectPostgres (raw "users") where_
     (Some User) ann [Int 7] (mkTable 5 (Some 5))).2 = Err (AffectedRows 2).
Proof. vm_compute. reflexivity. Qed.
