(* ===== verification/Faults.v ===== *)
(** Programs over a system that can fail, and stop, at every call: a state, a schedule of
    events one of which each call uses up, and a result. Where the schedule ends the
    process stops in the state it has reached. The logic says what holds at the end, at
    each failure by its error, and at a stop. *)

From S2P Require Import Prelude.

Local Open Scope go_scope.

Inductive res (E A : Type) := Val (a : A) | Fail (e : E) | Crashed.
Arguments Val {E A} a.
Arguments Fail {E A} e.
Arguments Crashed {E A}.

Definition M (S Ev E A : Type) : Type := S -> list Ev -> S * list Ev * res E A.

Section Monad.
Context {S Ev E : Type}.
Notation M := (M S Ev E).

Definition sys {A} (step : Ev -> S -> S * result E A) : M A := fun s es =>
  match es with
  | [] => (s, [], Crashed)
  | ev :: es => let '(s, r) := step ev s in (s, es, match r with Ok a => Val a | Err e => Fail e end)
  end.

Definition pure {A} (a : A) : M A := fun s es => (s, es, Val a).
Definition raise {A} (e : E) : M A := fun s es => (s, es, Fail e).
Definition bind {A B} (m : M A) (f : A -> M B) : M B := fun s es =>
  match m s es with
  | (s, es, Val a) => f a s es
  | (s, es, Fail e) => (s, es, Fail e)
  | (s, es, Crashed) => (s, es, Crashed)
  end.

(** The error as a value. *)
Definition try {A} (m : M A) : M (result E A) := fun s es =>
  match m s es with
  | (s, es, Val a) => (s, es, Val (Ok a))
  | (s, es, Fail e) => (s, es, Val (Err e))
  | (s, es, Crashed) => (s, es, Crashed)
  end.

(** [_ = m]: its error is dropped. *)
Definition attempt {A} (m : M A) : M (option A) := fun s es =>
  match m s es with
  | (s, es, Val a) => (s, es, Val (Some a))
  | (s, es, Fail _) => (s, es, Val None)
  | (s, es, Crashed) => (s, es, Crashed)
  end.

(** [m], and [cleanup] when it fails. *)
Definition onFail {A B} (m : M A) (cleanup : M B) : M A := fun s es =>
  match m s es with
  | (s, es, Fail e) => bind (attempt cleanup) (fun _ => raise e) s es
  | r => r
  end.

(** [defer cleanup] around [m]. *)
Definition deferred {A B} (m : M A) (cleanup : M B) : M A := fun s es =>
  match m s es with
  | (s, es, Val a) => bind (attempt cleanup) (fun _ => pure a) s es
  | (s, es, Fail e) => bind (attempt cleanup) (fun _ => raise e) s es
  | (s, es, Crashed) => (s, es, Crashed)
  end.

(** The error of [m] as another one. *)
Definition mapFail {A} (f : E -> E) (m : M A) : M A := fun s es =>
  match m s es with (s, es, Fail e) => (s, es, Fail (f e)) | r => r end.

Fixpoint forEach {A} (f : A -> M unit) (l : list A) : M unit :=
  match l with [] => pure tt | x :: l => bind (f x) (fun _ => forEach f l) end.
End Monad.

Notation "'let*' x ':=' m 'in' k" := (bind m (fun x => k))
  (at level 10, x pattern, m at level 100, k at level 200) : go_scope.
Notation "'do' m ';;' k" := (bind m (fun _ => k)) (at level 10, m at level 99, k at level 200) : go_scope.

(** ** What holds when a program ends *)

Section Logic.
Context {S Ev E : Type} {ok : Ev -> Prop}.
Notation M := (M S Ev E).

Definition exits : Type := option E -> S -> Prop.

(** On schedules of [ok] events. *)
Definition hoare {A : Type} (X : exits) (P : S -> Prop) (m : M A) (Q : A -> S -> Prop) : Prop :=
  forall s es, P s -> Forall ok es ->
    let '(s', es', r) := m s es in
    Forall ok es' /\ match r with Val a => Q a s' | Fail e => X (Some e) s' | Crashed => X None s' end.

Context (X : exits).
Notation triple := (hoare X).

Lemma triple_sys {A : Type} (P : S -> Prop) (step : Ev -> S -> S * result E A) Q :
  (forall s, P s -> X None s) ->
  (forall ev s, P s -> ok ev -> let '(s', r) := step ev s in match r with Ok a => Q a s' | Err e => X (Some e) s' end) ->
  triple P (sys step) Q.
Proof.
  intros HX H s es Hs Hok. unfold sys. destruct es as [|ev es]; [split; [done|by apply HX]|].
  apply Forall_cons in Hok as [Hev Hok]. specialize (H ev s Hs Hev). destruct (step ev s) as [s2 [a|e]]; done.
Qed.

Lemma triple_pure {A : Type} (P : S -> Prop) (a : A) (Q : A -> S -> Prop) :
  (forall s, P s -> Q a s) -> triple P (pure a) Q.
Proof. intros H s es Hs Hok. split; [done|by apply H]. Qed.

Lemma triple_raise {A : Type} (P : S -> Prop) (e : E) (Q : A -> S -> Prop) :
  (forall s, P s -> X (Some e) s) -> triple P (raise e) Q.
Proof. intros H s es Hs Hok. split; [done|by apply H]. Qed.

Lemma triple_bind {A B : Type} P (m : M A) (f : A -> M B) Q (R : B -> S -> Prop) :
  triple P m Q -> (forall a, triple (Q a) (f a) R) -> triple P (bind m f) R.
Proof.
  intros Hm Hf s es Hs Hok. unfold bind. specialize (Hm s es Hs Hok).
  destruct (m s es) as [[s1 es1] [a|e|]]; destruct Hm as [Hok1 Hm]; [by apply Hf|done..].
Qed.

Lemma triple_conseq {A : Type} (P P' : S -> Prop) (m : M A) (Q Q' : A -> S -> Prop) :
  (forall s, P s -> P' s) -> (forall a s, Q' a s -> Q a s) -> triple P' m Q' -> triple P m Q.
Proof.
  intros HP HQ Hm s es Hs Hok. specialize (Hm s es (HP s Hs) Hok). destruct (m s es) as [[s1 es1] [a|e|]]; destruct Hm; auto.
Qed.

Lemma triple_pre {A : Type} (P P' : S -> Prop) (m : M A) Q :
  (forall s, P s -> P' s) -> triple P' m Q -> triple P m Q.
Proof. intros HP. by apply triple_conseq. Qed.

Lemma triple_post {A : Type} (P : S -> Prop) (m : M A) (Q Q' : A -> S -> Prop) :
  (forall a s, Q' a s -> Q a s) -> triple P m Q' -> triple P m Q.
Proof. by apply triple_conseq. Qed.

(** What the precondition says of more than the state. *)
Lemma triple_fact {A : Type} (F : Prop) (P : S -> Prop) (m : M A) (Q : A -> S -> Prop) :
  (forall s, P s -> F) -> (F -> triple P m Q) -> triple P m Q.
Proof. intros HF H s es Hs. exact (H (HF s Hs) s es Hs). Qed.

Lemma triple_or {A : Type} (P1 P2 : S -> Prop) (m : M A) (Q : A -> S -> Prop) :
  triple P1 m Q -> triple P2 m Q -> triple (fun s => P1 s \/ P2 s) m Q.
Proof. intros H1 H2 s es [H|H]; [exact (H1 s es H)|exact (H2 s es H)]. Qed.

Lemma triple_exists {A B : Type} (P : B -> S -> Prop) (m : M A) (Q : A -> S -> Prop) :
  (forall x, triple (P x) m Q) -> triple (fun s => exists x, P x s) m Q.
Proof. intros H s es [x Hx]. exact (H x s es Hx). Qed.

(** The exits of what runs after a failure, whose own error is dropped. *)
Definition after (P : S -> Prop) : exits := fun x => match x with None => X None | Some _ => P end.

Lemma triple_onFail {A B : Type} P (m : M A) (c : M B) (Q : A -> S -> Prop) :
  triple P m Q -> (forall e, hoare (after (X (Some e))) (X (Some e)) c (fun _ => X (Some e))) ->
  triple P (onFail m c) Q.
Proof.
  intros Hm Hc s es Hs Hok. unfold onFail. specialize (Hm s es Hs Hok).
  destruct (m s es) as [[s1 es1] [a|e|]]; destruct Hm as [Hok1 Hm]; [done| |done].
  unfold bind, attempt. specialize (Hc e s1 es1 Hm Hok1). by destruct (c s1 es1) as [[s2 es2] [b|e'|]].
Qed.

Lemma triple_deferred {A B : Type} P (m : M A) (c : M B) (Q : A -> S -> Prop) :
  triple P m Q -> (forall e, hoare (after (X (Some e))) (X (Some e)) c (fun _ => X (Some e))) ->
  (forall a, hoare (after (Q a)) (Q a) c (fun _ => Q a)) ->
  triple P (deferred m c) Q.
Proof.
  intros Hm Hc Hq s es Hs Hok. unfold deferred. specialize (Hm s es Hs Hok).
  destruct (m s es) as [[s1 es1] [a|e|]]; destruct Hm as [Hok1 Hm]; [| |done]; unfold bind, attempt.
  - specialize (Hq a s1 es1 Hm Hok1). by destruct (c s1 es1) as [[s2 es2] [b|e'|]].
  - specialize (Hc e s1 es1 Hm Hok1). by destruct (c s1 es1) as [[s2 es2] [b|e'|]].
Qed.

Lemma triple_attempt {A : Type} P P' (m : M A) (Q : option A -> S -> Prop) :
  hoare (after P') P m (fun a => Q (Some a)) -> (forall s, P' s -> Q None s) -> triple P (attempt m) Q.
Proof.
  intros Hm HN s es Hs Hok. unfold attempt. specialize (Hm s es Hs Hok).
  destruct (m s es) as [[s1 es1] [a|e|]]; destruct Hm; auto.
Qed.

(** The exits of what runs under [try]. *)
Definition caught (P : E -> S -> Prop) : exits := fun x => match x with None => X None | Some e => P e end.

Lemma triple_try {A : Type} P (m : M A) (Q : result E A -> S -> Prop) :
  hoare (caught (fun e => Q (Err e))) P m (fun a => Q (Ok a)) -> triple P (try m) Q.
Proof.
  intros Hm s es Hs Hok. unfold try. specialize (Hm s es Hs Hok).
  destruct (m s es) as [[s1 es1] [a|e|]]; destruct Hm; auto.
Qed.

Lemma triple_mapFail {A : Type} P (e : E) (m : M A) (Q : A -> S -> Prop) :
  hoare (after (X (Some e))) P m Q -> triple P (mapFail (fun _ => e) m) Q.
Proof.
  intros Hm s es Hs Hok. unfold mapFail. specialize (Hm s es Hs Hok). by destruct (m s es) as [[s1 es1] [a|e'|]].
Qed.

Lemma triple_forEach {A : Type} (f : A -> M unit) (I : list A -> S -> Prop) (l : list A) :
  (forall l1 x l2, l = l1 ++ x :: l2 -> triple (I l1) (f x) (fun _ => I (l1 ++ [x]))) ->
  triple (I []) (forEach f l) (fun _ => I l).
Proof.
  intros H. assert (forall l2 l1, l = l1 ++ l2 -> triple (I l1) (forEach f l2) (fun _ => I l)) as Hall; [|by apply Hall].
  induction l2 as [|x l2 IH]; intros l1 El; simpl.
  - rewrite app_nil_r in El. subst. by apply triple_pure.
  - eapply triple_bind; [by eapply H|]. intros ?. apply IH. by rewrite <-(assoc_L (++)).
Qed.

(** The same condition before and after every step. *)
Lemma triple_each {A : Type} (f : A -> M unit) (P : S -> Prop) (l : list A) :
  (forall x, x ∈ l -> triple P (f x) (fun _ => P)) -> triple P (forEach f l) (fun _ => P).
Proof.
  intros H. apply (triple_forEach f (fun _ => P)). intros l1 x l2 ->. apply H. apply elem_of_app. right. left.
Qed.
End Logic.
Arguments exits : clear implicits.
Arguments hoare {S Ev E} ok {A} X P m Q.

(** ** Programs end

    On a schedule of one event over and over, in a number of calls that the state they
    start in bounds. *)
Section Ending.
Context {S Ev E : Type} (calm : Ev).
Notation M := (M S Ev E).

Definition ends {A : Type} (m : M A) : Prop :=
  forall s, exists n s' r, r <> Crashed /\ forall k, m s (replicate (n + k) calm) = (s', replicate k calm, r).

Lemma ends_sys {A : Type} (step : Ev -> S -> S * result E A) : ends (sys step).
Proof.
  intros s. destruct (step calm s) as [s' r] eqn:Es. exists 1, s', (match r with Ok a => Val a | Err e => Fail e end).
  split; [by destruct r|]. intros k. simpl. by rewrite Es.
Qed.

Lemma ends_pure {A : Type} (a : A) : ends (pure a).
Proof. intros s. by exists 0, s, (Val a). Qed.

Lemma ends_raise {A : Type} (e : E) : ends (A := A) (raise e).
Proof. intros s. by exists 0, s, (Fail e). Qed.

Lemma ends_bind {A B : Type} (m : M A) (f : A -> M B) : ends m -> (forall a, ends (f a)) -> ends (bind m f).
Proof.
  intros Hm Hf s. destruct (Hm s) as (n & s1 & [a|e|] & Hr & H); [|by exists n, s1, (Fail e); split; [|intros k; unfold bind; rewrite H]|done].
  destruct (Hf a s1) as (n2 & s2 & r & Hr2 & H2). exists (n + n2), s2, r. split; [done|]. intros k. unfold bind.
  by rewrite <-Nat.add_assoc, H, H2.
Qed.

Lemma ends_try {A : Type} (m : M A) : ends m -> ends (try m).
Proof.
  intros Hm s. destruct (Hm s) as (n & s1 & [a|e|] & Hr & H); [exists n, s1, (Val (Ok a))|exists n, s1, (Val (Err e))|done];
    (split; [done|]); intros k; unfold try; by rewrite H.
Qed.

Lemma ends_attempt {A : Type} (m : M A) : ends m -> ends (attempt m).
Proof.
  intros Hm s. destruct (Hm s) as (n & s1 & [a|e|] & Hr & H); [exists n, s1, (Val (Some a))|exists n, s1, (Val None)|done];
    (split; [done|]); intros k; unfold attempt; by rewrite H.
Qed.

Lemma ends_onFail {A B : Type} (m : M A) (c : M B) : ends m -> ends c -> ends (onFail m c).
Proof.
  intros Hm Hc s. destruct (Hm s) as (n & s1 & [a|e|] & Hr & H); [|..|done].
  - exists n, s1, (Val a). split; [done|]. intros k. unfold onFail. by rewrite H.
  - destruct (ends_bind (attempt c) (fun _ => raise e) (ends_attempt c Hc) (fun _ => ends_raise (A := A) e) s1)
      as (n2 & s2 & r & Hr2 & H2). exists (n + n2), s2, r. split; [done|]. intros k. unfold onFail.
    by rewrite <-Nat.add_assoc, H.
Qed.

Lemma ends_forEach {A : Type} (f : A -> M unit) (l : list A) : (forall x, ends (f x)) -> ends (forEach f l).
Proof. intros H. induction l as [|x l IH]; [apply ends_pure|]. simpl. apply ends_bind; [done|]. by intros ?. Qed.

(** What always ends and never fails returns. *)
Lemma ends_returns {A : Type} (m : M A) (P : S -> Prop) (Q : A -> S -> Prop) s :
  ends m -> P s -> hoare (fun ev => ev = calm) (fun x _ => x = None) P m Q ->
  exists n s' a, Q a s' /\ forall k, m s (replicate (n + k) calm) = (s', replicate k calm, Val a).
Proof.
  intros Hm Hs H. destruct (Hm s) as (n & s' & r & Hr & E0). exists n, s'.
  specialize (H s (replicate (n + 0) calm) Hs ltac:(by apply Forall_replicate)). rewrite E0 in H.
  destruct H as [_ H]. destruct r as [a|e|]; [exists a; by split|discriminate H|done].
Qed.
End Ending.

Create HintDb ends discriminated.
#[export] Hint Resolve ends_sys ends_pure ends_raise ends_bind ends_try ends_attempt ends_onFail ends_forEach : ends.
