(* ===== verification/AssetCompile.v ===== *)
(** Compiling the assets to a directory, src/assets/compile.go and atomic.go, over a file
    system that can fail and crash at every call.

    A disk is what processes see and what survives a crash; the system may write any entry
    back at any time, and the directory entries and contents the code syncs are written
    back for certain. A schedule has an event per system call: the write-backs before it
    and whether it fails; where the schedule ends the machine stops. Paths are lists of
    names below the public directory; removing a tree is one call. *)

From S2P Require Import Prelude.
From S2P Require Import Faults.
From S2P Require Import Strconv.
From S2P Require Import Strings.
From S2P Require Import AssetPath.
From S2P Require Import AssetScan.
From S2P Require Import AssetRewrite.
From S2P Require Import AssetGraph.
From S2P Require Import AssetGraphSpec.
From S2P Require Import AssetStore.
From S2P Require Import AssetPlan.
From S2P Require Import AssetPlanSpec.
From S2P Require Import AssetBuildSpec.
From S2P Require Import AssetRun.

Local Open Scope go_scope.

(** ** Disks *)

Abbreviation path := (list string).

(** [synced]: the content is on the disk wherever the entry is. *)
Inductive entry := Directory | File (content : bytes) (synced : bool).

Record disk := mkDisk { live : gmap path entry; durable : gmap path entry }.

Definition setEntry (m : gmap path entry) (p : path) (e : option entry) : gmap path entry :=
  match e with Some e => <[p := e]> m | None => delete p m end.

Definition onLive (f : gmap path entry -> gmap path entry) (d : disk) : disk := mkDisk (f (live d)) (durable d).

Definition writeBack (d : disk) (p : path) : disk := mkDisk (live d) (setEntry (durable d) p (live d !! p)).

Inductive ioError :=
| IOFault
| FileExists
| NotDirectory
| NotExist
| DifferentBytes (dst : path)
| SourceChangedError (logical : string)
| IndeterminateCommitError (p : path)
| PlanError (e : assetError)
| PlanStuck.

(** A failing write leaves some bytes; [fault] says how many. *)
Record event := mkEvent { writebacks : list path; fault : option nat }.

Abbreviation M := (Faults.M disk event ioError).

(** A call: what the system writes back before it, and its effect unless it fails. *)
Definition request {A} (effect : option nat -> disk -> disk * result ioError A) : M A :=
  sys (fun ev d => effect (fault ev) (fold_left writeBack (writebacks ev) d)).

(** A call that changes nothing when it fails. *)
Definition call {A} (f : disk -> disk * result ioError A) : M A :=
  request (fun fault d => match fault with Some _ => (d, Err IOFault) | None => f d end).

(** ** System calls *)

Definition stat (p : path) : M (option entry) := call (fun d => (d, Ok (live d !! p))).

Definition mkdir (p : path) : M unit := call (fun d =>
  match live d !! p with
  | None => (onLive (<[p := Directory]>) d, Ok ())
  | Some Directory => (d, Ok ())
  | Some (File _ _) => (d, Err NotDirectory)
  end).

(** The directories above and at a path, the outermost first. *)
Fixpoint prefixes (done rest : path) : list path :=
  match rest with [] => [] | x :: rest => (done ++ [x]) :: prefixes (done ++ [x]) rest end.

(** [os.MkdirAll] *)
Definition mkdirAll (p : path) : M unit := forEach mkdir (prefixes [] p).

(** [os.OpenFile] with O_CREATE and O_EXCL *)
Definition create (p : path) : M unit := call (fun d =>
  match live d !! p with
  | None => (onLive (<[p := File [] false]>) d, Ok ())
  | Some _ => (d, Err FileExists)
  end).

Definition write (p : path) (content : bytes) : M unit := request (fun fault d =>
  match fault with
  | None => (onLive (<[p := File content false]>) d, Ok ())
  | Some n => (onLive (<[p := File (take n content) false]>) d, Err IOFault)
  end).

Definition syncFile (p : path) : M unit := call (fun d =>
  match live d !! p with
  | Some (File c _) =>
      (mkDisk (<[p := File c true]> (live d))
         (match durable d !! p with Some (File _ _) => <[p := File c true]> (durable d) | _ => durable d end), Ok ())
  | _ => (d, Err NotExist)
  end).

(** [file.Close], [file.Chmod] *)
Definition close : M unit := call (fun d => (d, Ok ())).

Definition remove (p : path) : M unit := call (fun d => (onLive (delete p) d, Ok ())).

Definition below (top : string) (p : path) : bool := match p with x :: _ => bool_decide (x = top) | [] => false end.

Definition removeAll (top : string) : M unit :=
  call (fun d => (onLive (filter (fun e => below top e.1 = false)) d, Ok ())).

Definition rename (src dst : path) : M unit := call (fun d =>
  match live d !! src with
  | Some e => (onLive (fun m => <[dst := e]> (delete src m)) d, Ok ())
  | None => (d, Err NotExist)
  end).

Definition parent (p : path) : path := removelast p.
Definition childOf (dir p : path) : bool := bool_decide (p <> []) && bool_decide (parent p = dir).

(** The disk once the entries of a directory are written back. *)
Definition syncedDir (dir : path) (d : disk) : disk :=
  mkDisk (live d) (filter (fun e => childOf dir e.1 = false) (durable d) ∪ filter (fun e => childOf dir e.1 = true) (live d)).

Definition syncDirectory (dir : path) : M unit := call (fun d => (syncedDir dir d, Ok ())).

(** The directories from [leaf] up to the public one. *)
Definition ancestors (leaf : path) : list path := rev ([] :: prefixes [] leaf).

Definition syncAncestorDirectories (leaf : path) : M unit := forEach syncDirectory (ancestors leaf).

Definition readDir : M (list (string * bool)) := call (fun d =>
  (d, Ok (omap (fun '(p, e) => match p with
                               | [name] => Some (name, match e with Directory => true | _ => false end)
                               | _ => None
                               end) (map_to_list (live d))))).

(** ** Files *)

Definition writeSyncedFile (p : path) (content : bytes) : M unit :=
  do create p;;
  do onFail (do write p content;; syncFile p) close;;
  close.

(** [tmp]: the name [os.CreateTemp] finds. *)
Definition atomicWriteFile (dir : path) (name tmp : string) (data : bytes) : M unit :=
  let temp := dir ++ [tmp] in
  do create temp;;
  do onFail (do close;; do write temp data;; syncFile temp) (do attempt close;; remove temp);;
  do onFail close (remove temp);;
  do onFail (rename temp (dir ++ [name])) (remove temp);;
  mapFail (fun _ => IndeterminateCommitError (dir ++ [name])) (syncDirectory dir).

Definition ManifestFilename : string := "manifest.json".
Definition manifestPath : path := [ManifestFilename].

Definition isStaging (name : string) : bool := HasPrefix name ".assets-build-" && HasSuffix name ".staging".
Definition isTemp (name : string) : bool := HasPrefix name ".assets-tmp-" && HasSuffix name ".tmp".

Definition cleanupEntry (e : string * bool) : M unit :=
  let '(name, isDir) := e in
  if isDir && isStaging name then do attempt (removeAll name);; pure ()
  else if negb isDir && isTemp name then do attempt (remove [name]);; pure ()
  else pure ().

Definition cleanupCompileTemps : M unit :=
  let* entries := attempt readDir in
  match entries with Some entries => forEach cleanupEntry entries | None => pure () end.

(** ** Compile *)

Section Compile.
Context (sha256 : bytes -> bytes) (TypeByExtension : string -> string).
Context (ParseImportmap : bytes -> option Importmap) (Marshal StdEncoding : string -> string).
(** [Manifest.Write]; the bytes of a source when it is staged; the names of temporaries. *)
Context (encodeManifest : Manifest -> bytes) (now : plannedAsset -> option bytes).
Context (random tmpSuffix : string).

Definition stageDir : string := ".assets-build-" +:+ random +:+ ".staging".
Definition stageTmp : string := "." +:+ ManifestFilename +:+ "." +:+ tmpSuffix +:+ ".tmp".

Definition streamHashWrite (asset : plannedAsset) (dst : path) : M string :=
  do create dst;;
  match now asset with
  | None => do attempt close;; raise NotExist
  | Some content =>
      do onFail (do write dst content;; syncFile dst) close;;
      do close;;
      pure (hashContent sha256 content)
  end.

(** [filepath.Join] cleans what it joins. *)
Definition outputPath (asset : plannedAsset) : path := segments (Clean (pa_output asset)).

Definition stageAsset (plan : buildPlan) (logical : string) : M unit :=
  match bp_assets plan !! logical with
  | None => raise PlanStuck
  | Some asset =>
      let dst := stageDir :: outputPath asset in
      do mkdirAll (parent dst);;
      if rewritten (pa_kind asset) then writeSyncedFile dst (pa_content asset)
      else
        let* hash := streamHashWrite asset dst in
        if bool_decide (hash <> pa_outputHash asset) then raise (SourceChangedError logical) else pure ()
  end.

(** [equalFiles]: sizes and hashes; the calls that read do not change the disk. *)
Definition equalFiles (left right : path) : M bool := call (fun d =>
  match live d !! left, live d !! right with
  | Some (File l _), Some (File r _) =>
      (d, Ok (bool_decide (length l = length r) && bool_decide (sha256 l = sha256 r)))
  | _, _ => (d, Err NotExist)
  end).

Definition publishAsset (plan : buildPlan) (logical : string) : M unit :=
  match bp_assets plan !! logical with
  | None => raise PlanStuck
  | Some asset =>
      let staged := stageDir :: outputPath asset in
      let dst := outputPath asset in
      let* found := stat dst in
      match found with
      | Some _ =>
          let* equal := equalFiles staged dst in
          if equal then pure () else raise (DifferentBytes dst)
      | None =>
          do mkdirAll (parent dst);;
          do rename staged dst;;
          syncAncestorDirectories (parent dst)
      end
  end.

Definition publishManifest : M unit :=
  do rename [stageDir; ManifestFilename] manifestPath;;
  mapFail (fun _ => IndeterminateCommitError manifestPath) (syncDirectory []).

Definition publishCompileStage (plan : buildPlan) : M unit :=
  do forEach (publishAsset plan) (bp_order plan);;
  publishManifest.

Definition stageAndPublish (plan : buildPlan) : M Manifest :=
  do forEach (stageAsset plan) (bp_order plan);;
  do atomicWriteFile [stageDir] ManifestFilename stageTmp (encodeManifest (bp_manifest plan));;
  do publishCompileStage plan;;
  pure (bp_manifest plan).

(** [os.MkdirTemp], which tries names until one is free *)
Definition mkStage : M unit := call (fun d =>
  match live d !! [stageDir] with
  | None => (onLive (<[[stageDir] := Directory]>) d, Ok ())
  | Some _ => (d, Err FileExists)
  end).

(** [os.MkdirAll] of the public directory, the root of the paths here. *)
Definition mkdirPublic : M unit := call (fun d => (d, Ok ())).

Definition compilePlan (plan : buildPlan) : M Manifest :=
  do mkdirPublic;;
  do cleanupCompileTemps;;
  do mkStage;;
  deferred (stageAndPublish plan) (removeAll stageDir).

Definition Compile (rs : list Root) (im : option Importmap) (cfg : buildConfig) : M Manifest :=
  match planBuild sha256 TypeByExtension ParseImportmap Marshal StdEncoding rs im cfg with
  | Done (Ok plan) => compilePlan plan
  | Done (Err e) => raise (PlanError e)
  | _ => raise PlanStuck
  end.
End Compile.

(** ** What a call may change *)

Definition temporary (name : string) : bool := isStaging name || isTemp name.

(** A path of the published tree beside the manifest. *)
Definition public (p : path) : Prop :=
  match p with x :: _ => temporary x = false /\ x <> ManifestFilename | [] => False end.

(** What calls do to the published tree but for the last rename: entries come and stay, and
    are written back as they are. *)
Record later (d d' : disk) : Prop := {
  later_live : forall p e, public p -> live d !! p = Some e -> live d' !! p = Some e;
  later_durable : forall p, public p -> durable d' !! p = durable d !! p \/ durable d' !! p = live d' !! p;
  later_manifest : live d' !! manifestPath = live d !! manifestPath;
  later_written : durable d' !! manifestPath = durable d !! manifestPath \/ durable d' !! manifestPath = live d' !! manifestPath
}.

Lemma later_refl d : later d d.
Proof. split; auto. Qed.

(** What does not touch the published tree. *)
Lemma private_later d d' :
  (forall p, public p \/ p = manifestPath -> live d' !! p = live d !! p /\ durable d' !! p = durable d !! p) -> later d d'.
Proof.
  intros H. split.
  - intros p e Hp He. by rewrite (proj1 (H p (or_introl Hp))).
  - intros p Hp. left. apply H. by left.
  - apply H. by right.
  - left. apply H. by right.
Qed.

Lemma writeBack_durable d p q : durable (writeBack d p) !! q = durable d !! q \/ durable (writeBack d p) !! q = live d !! q.
Proof.
  unfold writeBack, setEntry. simpl. destruct (decide (q = p)) as [->|Hq].
  - right. destruct (live d !! p) eqn:E; [by rewrite lookup_insert_eq|by rewrite lookup_delete_eq].
  - left. destruct (live d !! p); [by rewrite lookup_insert_ne by congruence|by rewrite lookup_delete_ne by congruence].
Qed.

Lemma writeBack_later d p : later d (writeBack d p).
Proof. split; [done| |done|]; intros; apply (writeBack_durable d). Qed.

Lemma syncedDir_durable dir d q : durable (syncedDir dir d) !! q = if childOf dir q then live d !! q else durable d !! q.
Proof.
  simpl. destruct (childOf dir q) eqn:E.
  - rewrite lookup_union_r by (apply map_lookup_filter_None_2; right; simpl; intros; congruence).
    destruct (live d !! q) eqn:El; [by apply map_lookup_filter_Some_2|]. apply map_lookup_filter_None_2. by left.
  - destruct (durable d !! q) eqn:El.
    + apply lookup_union_Some_l. by apply map_lookup_filter_Some_2.
    + apply lookup_union_None_2; apply map_lookup_filter_None_2; [by left|]. right. simpl. intros. congruence.
Qed.

Lemma syncedDir_later dir d : later d (syncedDir dir d).
Proof.
  split; [done| |done|]; intros; rewrite syncedDir_durable; destruct (childOf dir _); by (left + right).
Qed.

(** A property of the published tree that survives whatever comes later. *)
Definition lasting (K : disk -> Prop) : Prop := forall d d', later d d' -> K d -> K d'.

(** A property that survives what the system does by itself. *)
Definition steady (P : disk -> Prop) : Prop := forall d p, P d -> P (writeBack d p).

Definition assertion : Type := gmap path entry -> Prop.

Definition held (K : disk -> Prop) (F : assertion) (d : disk) : Prop := K d /\ F (live d).

Lemma held_steady K F : lasting K -> steady (held K F).
Proof. intros HK d p [Hd HF]. split; [|done]. by eapply HK, Hd; apply writeBack_later. Qed.

Lemma writeBacks_steady P ps d : steady P -> P d -> P (fold_left writeBack ps d).
Proof. intros HP. revert d. induction ps as [|p ps IH]; intros d Hd; [done|]. simpl. by apply IH, HP. Qed.

(** ** The calls *)

Abbreviation exits := (Faults.exits disk ioError).
Abbreviation hoare := (Faults.hoare (fun _ : event => True)).

Section Logic.
Context (E : exits).
Notation triple := (hoare E).

Lemma triple_request {A : Type} (P : disk -> Prop) (effect : option nat -> disk -> disk * result ioError A) Q :
  steady P -> (forall d, P d -> E None d) ->
  (forall fault d, P d -> let '(d', r) := effect fault d in match r with Ok a => Q a d' | Err e => E (Some e) d' end) ->
  triple P (request effect) Q.
Proof.
  intros HP HE H. apply triple_sys; [done|]. intros ev d Hd _.
  apply H, writeBacks_steady; [done|exact Hd].
Qed.

Lemma triple_call {A : Type} (P : disk -> Prop) (f : disk -> disk * result ioError A) Q :
  steady P -> (forall d, P d -> E None d /\ E (Some IOFault) d) ->
  (forall d, P d -> let '(d', r) := f d in match r with Ok a => Q a d' | Err e => E (Some e) d' end) -> triple P (call f) Q.
Proof. intros HP HE H. apply triple_request; [done|by apply HE|]. intros [n|] d Hd; [by apply HE|by apply H]. Qed.

Context (K : disk -> Prop) (HK : lasting K) (HE : forall x d, K d -> E x d).

Lemma held_E F x d : held K F d -> E x d.
Proof. intros [Hd _]. by apply HE. Qed.

(** A call that keeps the published tree. *)
Lemma triple_kept {A : Type} (F : assertion) (effect : option nat -> disk -> disk * result ioError A) (G : A -> assertion) :
  (forall fault d, F (live d) ->
     let '(d', r) := effect fault d in later d d' /\ match r with Ok a => G a (live d') | Err _ => True end) ->
  triple (held K F) (request effect) (fun a => held K (G a)).
Proof.
  intros H. apply triple_request; [by apply held_steady|intros d; apply held_E|]. intros fault d [Hd HF]. specialize (H fault d HF).
  destruct (effect fault d) as [d' r]. destruct H as [Hl Hr]. destruct r; [split; [by eapply HK|done]|].
  apply HE. by eapply HK.
Qed.

Lemma triple_kept_call {A : Type} (F : assertion) (f : disk -> disk * result ioError A) (G : A -> assertion) :
  (forall d, F (live d) ->
     let '(d', r) := f d in later d d' /\ match r with Ok a => G a (live d') | Err _ => True end) ->
  triple (held K F) (call f) (fun a => held K (G a)).
Proof. intros H. apply triple_kept. intros [n|] d HF; [split; [apply later_refl|done]|by apply H]. Qed.

Lemma close_spec F : triple (held K F) close (fun _ => held K F).
Proof. apply triple_kept_call. intros d HF. split; [apply later_refl|done]. Qed.

Lemma stat_spec (F : assertion) p : triple (held K F) (stat p) (fun o => held K (fun l => F l /\ l !! p = o)).
Proof. apply triple_kept_call. intros d HF. split; [apply later_refl|done]. Qed.

(** [F], with one entry more. *)
Definition extended (F : assertion) (p : path) (e : entry) : assertion := fun l =>
  exists m, F m /\ m !! p = None /\ l = <[p := e]> m.

(** A path no call below may write but the last rename. *)
Definition inStage (p : path) : Prop := match p with x :: _ => temporary x = true | [] => False end.

Lemma inStage_off p q : inStage p -> public q \/ q = manifestPath -> q <> p.
Proof.
  intros Hp Hq ->. destruct p as [|x p]; [done|]. simpl in Hp. destruct Hq as [[? _]|Hq]; [congruence|].
  injection Hq as -> ->. done.
Qed.

Lemma onLive_stage_later d p f :
  inStage p -> (forall m q, q <> p -> f m !! q = m !! q) -> later d (onLive f d).
Proof. intros Hp Hf. apply private_later. intros q Hq. simpl. by rewrite Hf by by eapply inStage_off. Qed.

Lemma create_spec F p : inStage p -> triple (held K F) (create p) (fun _ => held K (extended F p (File [] false))).
Proof.
  intros Hp. apply triple_kept_call. intros d HF. destruct (live d !! p) eqn:El; [split; [apply later_refl|done]|].
  split; [apply (onLive_stage_later d p); [done|]; intros m q ?; by rewrite lookup_insert_ne by congruence|].
  by exists (live d).
Qed.

Lemma write_spec F p e c : inStage p -> triple (held K (extended F p e)) (write p c) (fun _ => held K (extended F p (File c false))).
Proof.
  intros Hp. apply triple_kept. intros fault d (m & Hm & Hn & El).
  destruct fault; (split; [apply (onLive_stage_later d p); [done|]; intros m' q ?; by rewrite lookup_insert_ne by congruence|]);
    [done|]. exists m. split; [done|]. split; [done|]. simpl. by rewrite El, insert_insert_eq.
Qed.

Lemma syncFile_spec F p c b :
  inStage p -> triple (held K (extended F p (File c b))) (syncFile p) (fun _ => held K (extended F p (File c true))).
Proof.
  intros Hp. apply triple_kept_call. intros d (m & Hm & Hn & El). rewrite El, lookup_insert_eq. split.
  - apply private_later. intros q Hq. pose proof (inStage_off p q Hp Hq). simpl. rewrite El, lookup_insert_ne by congruence.
    split; [by rewrite lookup_insert_ne by congruence|].
    destruct (durable d !! p) as [[|]|]; [done| |done]. by rewrite lookup_insert_ne by congruence.
  - exists m. split; [done|]. split; [done|]. simpl. by rewrite insert_insert_eq.
Qed.

Lemma remove_spec (F : assertion) p :
  inStage p -> (forall m, F m -> F (delete p m)) -> triple (held K F) (remove p) (fun _ => held K F).
Proof.
  intros Hp HF. apply triple_kept_call. intros d Hd. split; [|by apply HF].
  apply (onLive_stage_later d p); [done|]. intros m q ?. by rewrite lookup_delete_ne by congruence.
Qed.

(** What a new directory does not make false. *)
Definition admits (F : assertion) (p : path) : Prop := forall m, F m -> m !! p = None -> F (<[p := Directory]> m).

Lemma mkdir_spec (F : assertion) p :
  admits F p -> p <> manifestPath -> triple (held K F) (mkdir p) (fun _ => held K (fun l => F l /\ is_Some (l !! p))).
Proof.
  intros HF Hp. apply triple_kept_call. intros d Hd. destruct (live d !! p) as [[|]|] eqn:El; [split; [apply later_refl|done]..|].
  split; [|split; [by apply HF|simpl; rewrite lookup_insert_eq; by eexists]]. split; simpl.
  - intros q e Hq He. rewrite lookup_insert_ne; [done|]. intros ->. congruence.
  - intros q Hq. by left.
  - by rewrite lookup_insert_ne.
  - by left.
Qed.

Lemma prefixes_prefix done rest q : q ∈ prefixes done rest -> exists x t, q = done ++ x :: t /\ x :: t `prefix_of` rest.
Proof.
  revert done. induction rest as [|x rest IH]; intros done Hq; simpl in Hq; [by apply not_elem_of_nil in Hq|].
  apply elem_of_cons in Hq as [->|Hq].
  - exists x, []. split; [done|]. by exists rest.
  - apply IH in Hq as (y & t & -> & [u ->]). exists x, (y :: t). rewrite <-(assoc_L (++)). split; [done|]. by exists u.
Qed.

Lemma mkdirAll_spec (F : assertion) x p :
  (forall q, q ∈ prefixes [] (x :: p) -> admits F q) -> x <> ManifestFilename ->
  triple (held K F) (mkdirAll (x :: p))
    (fun _ => held K (fun l => F l /\ forall q, q ∈ prefixes [] (x :: p) -> is_Some (l !! q))).
Proof.
  intros HF Hx. unfold mkdirAll.
  eapply triple_conseq; [| |apply (triple_forEach E mkdir (fun done => held K (fun l => F l /\ forall q, q ∈ done -> is_Some (l !! q))))].
  - intros d [Hd HFd]. split; [done|]. split; [done|]. by intros q ?%not_elem_of_nil.
  - done.
  - intros l1 q l2 El. eapply triple_conseq; [done| |apply mkdir_spec].
    + intros _ d [Hd [[HFd H1] Hq]]. split; [done|]. split; [done|].
      intros q' [Hq'| ->%list_elem_of_singleton]%elem_of_app; auto.
    + intros m [Hm H1] Hn. split; [apply HF; [|done..]|].
      * rewrite El. apply elem_of_app. right. left.
      * intros q' Hq'. destruct (decide (q' = q)) as [->|]; [rewrite lookup_insert_eq; by eexists|].
        rewrite lookup_insert_ne by congruence. by apply H1.
    + assert (q ∈ prefixes [] (x :: p)) as Hq by (rewrite El; apply elem_of_app; right; left).
      apply prefixes_prefix in Hq as (y & t & -> & [u Hu]). simpl in *. injection Hu as -> _. intros E'. by injection E' as -> _.
Qed.
End Logic.

(** ** Files *)

Section Files.
Context (E : exits) (K : disk -> Prop) (HK : lasting K) (HE : forall x d, K d -> E x d).
Context (HEl : forall x, lasting (E x)) (HEc : forall x d, E x d -> E None d).
Notation triple := (hoare E).

(** After a failure nothing but its exit is left to keep. *)
Lemma spoiled {A : Type} (P : disk -> Prop) (m : M A) :
  hoare (after E P) (held P (fun _ => True)) m (fun _ => held P (fun _ => True)) ->
  hoare (after E P) P m (fun _ => P).
Proof. apply triple_conseq; [by split|]. by intros a d [? _]. Qed.

Lemma after_exit e x d : E (Some e) d -> after E (E (Some e)) x d.
Proof. destruct x; [done|]. apply HEc. Qed.

Lemma close_spoiled e : hoare (after E (E (Some e))) (E (Some e)) close (fun _ => E (Some e)).
Proof. apply spoiled, close_spec; [apply HEl|]. intros x d. apply after_exit. Qed.

Lemma remove_spoiled e p :
  inStage p -> hoare (after E (E (Some e))) (E (Some e)) (remove p) (fun _ => E (Some e)).
Proof. intros Hp. apply spoiled, remove_spec; [apply HEl| |done|done]. intros x d. apply after_exit. Qed.

Lemma writeSynced_spec F p c :
  inStage p ->
  triple (held K (extended F p (File [] false))) (onFail (do write p c;; syncFile p) close)
    (fun _ => held K (extended F p (File c true))).
Proof.
  intros Hp. apply triple_onFail; [|apply close_spoiled]. eapply triple_bind; [by apply write_spec|].
  intros ?. by apply syncFile_spec.
Qed.

Lemma writeSyncedFile_spec F p c :
  inStage p -> triple (held K F) (writeSyncedFile p c) (fun _ => held K (extended F p (File c true))).
Proof.
  intros Hp. eapply triple_bind; [by apply create_spec|]. intros ?.
  eapply triple_bind; [by apply writeSynced_spec|]. intros ?. by apply close_spec.
Qed.

(** Where a failure has an exit of its own, the published tree is what it was. *)
Lemma atomicWriteFile_spec (F : assertion) x name tmp data :
  inStage [x] -> name <> tmp -> (forall m e, F m -> F (<[[x; name] := e]> m)) ->
  triple (held K F) (atomicWriteFile [x] name tmp data) (fun _ => held K (fun l => F l /\ l !! [x; name] = Some (File data true))).
Proof.
  intros Hx Hne HF. unfold atomicWriteFile. simpl app.
  assert (inStage [x; tmp]) as Ht by done.
  eapply triple_bind; [by apply create_spec|]. intros ?.
  eapply triple_bind; [apply triple_onFail|].
  { eapply triple_bind; [by apply close_spec|]. intros ?. eapply triple_bind; [by apply write_spec|]. intros ?. by apply syncFile_spec. }
  { intros e. eapply triple_bind; [|intros ?; by apply remove_spoiled]. apply triple_attempt with (P' := E (Some e)); [|done].
    apply (close_spoiled e). }
  intros ?. eapply triple_bind; [apply triple_onFail; [by apply close_spec|intros e; by apply remove_spoiled]|]. intros ?.
  eapply triple_bind; [apply triple_onFail; [|intros e; by apply remove_spoiled]|].
  { apply (triple_kept_call E K HK HE) with (G := fun _ l => F l /\ l !! [x; name] = Some (File data true)).
    intros d (m & Hm & Hn & El). rewrite El, lookup_insert_eq. split.
    - apply private_later. intros q Hq. split; [|done]. simpl. rewrite El.
      assert (q <> [x; name] /\ q <> [x; tmp]) as [??] by (split; by eapply inStage_off).
      by rewrite lookup_insert_ne, lookup_delete_ne by congruence.
    - simpl. rewrite El, delete_insert_eq, (delete_id m) by done. split; [by apply HF|]. by rewrite lookup_insert_eq. }
  intros ?. apply triple_mapFail. apply (triple_kept_call _ K HK); [by intros [y|] d; apply HE|].
  intros d HF'. split; [|done]. apply syncedDir_later.
Qed.
End Files.

(** ** The published tree *)

Section Published.
Context (sha256 : bytes -> bytes).
Context (encodeManifest : Manifest -> bytes) (now : plannedAsset -> option bytes) (random tmpSuffix : string).
Notation hashContent := (hashContent sha256).
Notation stageDir := (stageDir random).

(** What the publication of a plan relies on. *)
Record publishable (plan : buildPlan) : Prop := {
  pb_public : forall l a, bp_assets plan !! l = Some a -> public (outputPath a);
  pb_distinct : forall l l' a a', bp_assets plan !! l = Some a -> bp_assets plan !! l' = Some a' ->
    outputPath a = outputPath a' -> l = l';
  pb_validator : forall l a, bp_assets plan !! l = Some a ->
    if rewritten (pa_kind a) then pa_etagHash a = hashContent (pa_content a) else pa_etagHash a = pa_outputHash a;
  pb_order : forall l, l ∈ bp_order plan <-> is_Some (bp_assets plan !! l)
}.

(** A directory that earlier compiles have left in order: what it shows is on the disk. *)
Record quiescent (d : disk) : Prop := {
  qu_durable : forall p, public p \/ p = manifestPath -> durable d !! p = live d !! p;
  qu_synced : forall p c b, public p -> live d !! p = Some (File c b) -> b = true;
  qu_tree : forall p q, public p -> is_Some (live d !! p) -> q `prefix_of` p -> q <> [] -> is_Some (live d !! q)
}.

Context (plan : buildPlan) (PB : publishable plan) (d0 : disk) (Q0 : quiescent d0).

Definition assetAt (l : string) (a : plannedAsset) : Prop := bp_assets plan !! l = Some a.
Lemma assetAt_inj l a b : assetAt l a -> assetAt l b -> a = b.
Proof. unfold assetAt. congruence. Qed.

Definition manifestEntry : entry := File (encodeManifest (bp_manifest plan)) true.

(** Every earlier entry stays, and what is on the disk is what is shown. *)
Record base (d : disk) : Prop := {
  base_kept : forall p e, public p -> live d0 !! p = Some e -> live d !! p = Some e /\ durable d !! p = Some e;
  base_shown : forall p, public p -> durable d !! p = None \/ durable d !! p = live d !! p
}.

Definition unchanged (d : disk) : Prop := live d !! manifestPath = live d0 !! manifestPath /\ durable d !! manifestPath = live d0 !! manifestPath.

(** An asset is published: its content, under its validator, and the way to it. *)
Definition settled (a : plannedAsset) (d : disk) : Prop :=
  exists c, hashContent c = pa_etagHash a /\ live d !! outputPath a = Some (File c true) /\
    forall q, q `prefix_of` outputPath a -> q <> [] -> is_Some (live d !! q) /\ durable d !! q = live d !! q.

(** The first assets are published, the manifest is the previous one. *)
Definition upTo (xs : list string) (d : disk) : Prop :=
  base d /\ unchanged d /\ forall x a, x ∈ xs -> assetAt x a -> settled a d.

(** The new manifest is shown, all that it names is published. *)
Definition replaced (d : disk) : Prop :=
  base d /\ (forall x a, assetAt x a -> settled a d) /\
  live d !! manifestPath = Some manifestEntry /\
  (durable d !! manifestPath = live d0 !! manifestPath \/ durable d !! manifestPath = Some manifestEntry).

Definition complete (d : disk) : Prop :=
  base d /\ (forall x a, assetAt x a -> settled a d) /\
  live d !! manifestPath = Some manifestEntry /\ durable d !! manifestPath = Some manifestEntry.

(** A failure leaves the previous manifest but for the last sync; a crash leaves either. *)
Definition exit (x : option ioError) (d : disk) : Prop :=
  match x with
  | Some (IndeterminateCommitError p) => upTo [] d \/ (p = manifestPath /\ replaced d)
  | Some _ => upTo [] d
  | None => upTo [] d \/ replaced d
  end.

Lemma public_prefix p q : public p -> q `prefix_of` p -> q <> [] -> public q.
Proof. intros Hp [u ->] Hq. by destruct q as [|x q]. Qed.

Lemma public_manifest p : public p -> p <> manifestPath.
Proof. intros Hp ->. by destruct Hp. Qed.

Lemma base_lasting : lasting base.
Proof.
  intros d d' Hl [H1 H2]. split.
  - intros p e Hp He. destruct (H1 p e Hp He) as [Hlive Hdur]. apply (later_live _ _ Hl _ _ Hp) in Hlive as Hlive'.
    split; [done|]. destruct (later_durable _ _ Hl p Hp) as [->| ->]; congruence.
  - intros p Hp. destruct (later_durable _ _ Hl p Hp) as [E|E]; [|by right]. rewrite E.
    destruct (H2 p Hp) as [?|Es]; [by left|]. destruct (live d !! p) eqn:El; [|by left].
    right. rewrite (later_live _ _ Hl p _ Hp El). congruence.
Qed.

Lemma unchanged_lasting : lasting unchanged.
Proof.
  intros d d' Hl [H1 H2]. split; [by rewrite (later_manifest _ _ Hl)|].
  destruct (later_written _ _ Hl) as [->| ->]; [done|]. by rewrite (later_manifest _ _ Hl).
Qed.

Lemma settled_lasting x a : assetAt x a -> lasting (settled a).
Proof.
  intros Ha d d' Hl (c & Hc & Hlive & Hq). pose proof (pb_public _ PB _ _ Ha) as Hp.
  exists c. split; [done|]. split; [by apply (later_live _ _ Hl)|]. intros q Hpre Hne.
  pose proof (public_prefix _ _ Hp Hpre Hne) as Hpq. destruct (Hq q Hpre Hne) as [[e He] Hd].
  pose proof (later_live _ _ Hl _ _ Hpq He) as He'. split; [by eexists|].
  destruct (later_durable _ _ Hl q Hpq) as [->|?]; congruence.
Qed.

Lemma upTo_lasting xs : lasting (upTo xs).
Proof.
  intros d d' Hl (H1 & H2 & H3). split; [by eapply base_lasting|]. split; [by eapply unchanged_lasting|].
  intros x a Hx Ha. eapply settled_lasting; [done..|]. by eapply H3.
Qed.

Lemma replaced_lasting : lasting replaced.
Proof.
  intros d d' Hl (H1 & H2 & H3 & H4). split; [by eapply base_lasting|]. split.
  { intros x a Ha. eapply settled_lasting; [done..|]. by eapply H2. }
  rewrite (later_manifest _ _ Hl). split; [done|].
  destruct (later_written _ _ Hl) as [->| ->]; [done|]. right. by rewrite (later_manifest _ _ Hl).
Qed.

Lemma complete_lasting : lasting complete.
Proof.
  intros d d' Hl (H1 & H2 & H3 & H4). split; [by eapply base_lasting|]. split.
  { intros x a Ha. eapply settled_lasting; [done..|]. by eapply H2. }
  rewrite (later_manifest _ _ Hl). split; [done|].
  destruct (later_written _ _ Hl) as [->| ->]; [done|]. by rewrite (later_manifest _ _ Hl).
Qed.

Lemma lasting_or P Q : lasting P -> lasting Q -> lasting (fun d => P d \/ Q d).
Proof. intros HP HQ d d' Hl [H|H]; [left; by eapply HP|right; by eapply HQ]. Qed.

Lemma exit_lasting x : lasting (exit x).
Proof.
  destruct x as [[]|]; simpl; try apply upTo_lasting; apply lasting_or; try apply upTo_lasting; [|apply replaced_lasting].
  intros d d' Hl [? H]. split; [done|]. by eapply replaced_lasting.
Qed.

Lemma exit_crash x d : exit x d -> exit None d.
Proof. destruct x as [[]|]; simpl; naive_solver. Qed.

Lemma upTo_weaken xs xs' d : (forall x, x ∈ xs' -> x ∈ xs) -> upTo xs d -> upTo xs' d.
Proof. intros Hx (H1 & H2 & H3). split; [done|]. split; [done|]. intros x a ?. apply H3. auto. Qed.

Lemma upTo_exit xs x d : upTo xs d -> exit x d.
Proof.
  intros H%(upTo_weaken _ []); [|by intros ? ?%not_elem_of_nil]. destruct x as [[]|]; simpl; try done; by left.
Qed.

Lemma quiescent_upTo : upTo [] d0.
Proof.
  split; [|split].
  - split; [|intros p Hp; right; apply Q0; by left]. intros p e Hp He. split; [done|]. rewrite (qu_durable _ Q0 p); [done|by left].
  - split; [done|]. apply Q0. by right.
  - by intros x a ?%not_elem_of_nil.
Qed.

(** *** Staging *)

Definition filesKnown (xs : list string) : assertion := fun l =>
  forall p c b, public p -> l !! p = Some (File c b) ->
    live d0 !! p = Some (File c b) \/ exists x a, x ∈ xs /\ assetAt x a /\ outputPath a = p.

Definition staged (P : string -> Prop) : assertion := fun l =>
  forall x a, P x -> assetAt x a ->
    exists c, l !! (stageDir :: outputPath a) = Some (File c true) /\ hashContent c = pa_etagHash a.

Notation triple := (hoare exit).

Lemma stageDir_temporary : temporary stageDir = true.
Proof.
  unfold temporary, isStaging, stageDir. rewrite HasPrefix_cat. rewrite <-string_app_assoc, HasSuffix_app. done.
Qed.

Lemma stage_public p q : public p -> p <> stageDir :: q.
Proof. intros Hp ->. destruct Hp as [H _]. by rewrite stageDir_temporary in H. Qed.

Lemma filesKnown_stage xs l q e : filesKnown xs l -> filesKnown xs (<[stageDir :: q := e]> l).
Proof. intros H p c b Hp. rewrite lookup_insert_ne by (intros E; by apply (stage_public p q Hp)). by apply H. Qed.

Definition staging (l1 : list string) : assertion := fun l => filesKnown [] l /\ staged (fun x => x ∈ l1) l.

Lemma staging_admits l1 q : admits (staging l1) (stageDir :: q).
Proof.
  intros m [H1 H2] Hn. split; [by apply filesKnown_stage|]. intros x a Hx Ha. destruct (H2 x a Hx Ha) as (c & Hc & ?).
  exists c. rewrite lookup_insert_ne; [done|]. intros E. rewrite E in Hn. congruence.
Qed.

Lemma staging_next l1 x a c l :
  assetAt x a -> hashContent c = pa_etagHash a ->
  extended (staging l1) (stageDir :: outputPath a) (File c true) l -> staging (l1 ++ [x]) l.
Proof.
  intros Ha Hc (m & [H1 H2] & Hn & ->). split; [by apply filesKnown_stage|].
  intros y b [Hy| ->%list_elem_of_singleton]%elem_of_app Hb.
  - destruct (H2 y b Hy Hb) as (c' & Hc' & ?). exists c'. rewrite lookup_insert_ne; [done|]. intros E. rewrite E in Hn. congruence.
  - assert (b = a) as -> by by eapply assetAt_inj. exists c. by rewrite lookup_insert_eq.
Qed.

Lemma prefixes_head x p q : q ∈ prefixes [] (x :: p) -> exists t, q = x :: t.
Proof.
  intros Hq. apply prefixes_prefix in Hq as (y & t & -> & [u Hu]). simpl in *. injection Hu as -> _. by exists t.
Qed.

Lemma stageDir_manifest : stageDir <> ManifestFilename.
Proof. intros E. pose proof stageDir_temporary as H. rewrite E in H. done. Qed.

Lemma stageAsset_spec l1 x :
  triple (held (upTo []) (staging l1)) (stageAsset sha256 now random plan x) (fun _ => held (upTo []) (staging (l1 ++ [x]))).
Proof.
  unfold stageAsset. destruct (bp_assets plan !! x) as [a|] eqn:Ha.
  2:{ apply triple_raise. intros d [Hd _]. by eapply upTo_exit. }
  pose proof (pb_validator _ PB _ _ Ha) as Hv. pose proof (pb_public _ PB _ _ Ha) as Hp.
  assert (exists q, parent (stageDir :: outputPath a) = stageDir :: q) as [q ->].
  { destruct (outputPath a) as [|y p]; [done|]. by exists (removelast (y :: p)). }
  assert (inStage (stageDir :: outputPath a)) as Hst by apply stageDir_temporary.
  eapply triple_bind.
  { apply (mkdirAll_spec exit (upTo []) (upTo_lasting [])); [by intros; eapply upTo_exit| |apply stageDir_manifest].
    intros q' Hq'. apply prefixes_head in Hq' as [t ->]. apply staging_admits. }
  intros ?. eapply (triple_pre exit _ (held (upTo []) (staging l1))); [by intros d [? [? _]]|].
  destruct (rewritten (pa_kind a)).
  - eapply triple_conseq; [done| |apply writeSyncedFile_spec; [apply upTo_lasting|by intros; eapply upTo_exit|apply exit_lasting|apply exit_crash|done]].
    intros _ d [Hd HF]. split; [done|]. by eapply staging_next.
  - unfold streamHashWrite.
    eapply triple_bind with (Q := fun hash => held (upTo []) (fun l => exists c, hash = hashContent c /\
      extended (staging l1) (stageDir :: outputPath a) (File c true) l)).
    + eapply triple_bind; [apply create_spec; [apply upTo_lasting|by intros; eapply upTo_exit|done]|]. intros ?.
      destruct (now a) as [c|].
      * eapply triple_bind; [apply writeSynced_spec; [apply upTo_lasting|by intros; eapply upTo_exit|apply exit_lasting|apply exit_crash|done]|].
        intros ?. eapply triple_bind; [apply close_spec; [apply upTo_lasting|by intros; eapply upTo_exit]|].
        intros ?. apply triple_pure. intros d [Hd HF]. split; [done|]. by exists c.
      * eapply triple_bind with (Q := fun _ => upTo []); [|intros ?; apply triple_raise; intros d Hd; by eapply upTo_exit].
        apply triple_attempt with (P' := upTo []); [|done]. eapply triple_conseq; [done| |apply (close_spec _ (upTo []))].
        { by intros _ d [Hd _]. }
        { apply upTo_lasting. }
        intros [e|] d Hd; [done|by eapply upTo_exit].
    + intros hash. case_bool_decide as Hh; [apply triple_raise; intros d [Hd _]; by eapply upTo_exit|].
      apply triple_pure. intros d [Hd (c & -> & HF)]. split; [done|]. eapply staging_next; [done| |done].
      congruence.
Qed.

Lemma upTo_HE xs x d : upTo xs d -> exit x d.
Proof. apply upTo_exit. Qed.

Lemma staging_loop :
  triple (held (upTo []) (filesKnown [])) (forEach (stageAsset sha256 now random plan) (bp_order plan))
    (fun _ => held (upTo []) (staging (bp_order plan))).
Proof.
  eapply triple_pre; [|apply (triple_forEach exit _ (fun l1 => held (upTo []) (staging l1)))].
  - intros d [Hd HF]. split; [done|]. split; [done|]. by intros x a ?%not_elem_of_nil.
  - intros l1 x l2 _. apply stageAsset_spec.
Qed.

(** What is shown when publishing begins, and after each asset. *)
Definition publishing (xs : list string) : assertion := fun l =>
  filesKnown xs l /\ staged (fun x => x ∈ bp_order plan /\ x ∉ xs) l /\ l !! [stageDir; ManifestFilename] = Some manifestEntry.

Lemma tmp_manifest : ManifestFilename <> stageTmp tmpSuffix.
Proof. done. Qed.

Lemma output_manifest x a : assetAt x a -> outputPath a <> [ManifestFilename].
Proof. intros Ha E. pose proof (pb_public _ PB _ _ Ha) as Hp. rewrite E in Hp. by destruct Hp. Qed.

Lemma save_spec :
  triple (held (upTo []) (staging (bp_order plan)))
    (atomicWriteFile [stageDir] ManifestFilename (stageTmp tmpSuffix) (encodeManifest (bp_manifest plan)))
    (fun _ => held (upTo []) (publishing [])).
Proof.
  eapply triple_post; [|apply atomicWriteFile_spec with (F := staging (bp_order plan))].
  - intros _ d [Hd [[H1 H2] H3]]. split; [done|]. split; [done|]. split; [|done]. intros x a [Hx _]. by apply H2.
  - apply upTo_lasting.
  - intros x d. apply upTo_exit.
  - apply exit_lasting.
  - apply exit_crash.
  - apply stageDir_temporary.
  - apply tmp_manifest.
  - intros m e [H1 H2]. split; [by apply filesKnown_stage|]. intros x a Hx Ha. destruct (H2 x a Hx Ha) as (c & Hc & ?).
    exists c. rewrite lookup_insert_ne; [done|]. intros [= E]. symmetry in E. by apply (output_manifest x a).
Qed.

(** *** Publishing an asset *)

Lemma publishing_admits xs q : public q -> admits (publishing xs) q.
Proof.
  intros Hq m (H1 & H2 & H3) Hn. split; [|split].
  - intros p c b Hp. destruct (decide (p = q)) as [->|]; [by rewrite lookup_insert_eq|]. rewrite lookup_insert_ne by done. by apply H1.
  - intros x a Hx Ha. destruct (H2 x a Hx Ha) as (c & Hc & ?). exists c. rewrite lookup_insert_ne; [done|].
    by apply stage_public.
  - rewrite lookup_insert_ne; [done|]. by apply stage_public.
Qed.

Lemma later_rename d p q e :
  public q -> live d !! q = None -> later d (onLive (fun m => <[q := e]> (delete (stageDir :: p) m)) d).
Proof.
  intros Hq Hn. split; simpl.
  - intros r e' Hr He. rewrite lookup_insert_ne by congruence. rewrite lookup_delete_ne; [done|]. intros E. by apply (stage_public r p Hr).
  - intros r Hr. by left.
  - rewrite lookup_insert_ne by (by apply public_manifest). by rewrite lookup_delete_ne.
  - by left.
Qed.

(** After the rename the asset shows at its place, and the rest is where it was. *)
Lemma rename_spec xs x a :
  assetAt x a -> x ∈ bp_order plan -> x ∉ xs ->
  triple (held (upTo xs) (fun l => (publishing xs l /\ l !! outputPath a = None) /\
      forall q, q ∈ prefixes [] (parent (outputPath a)) -> is_Some (l !! q)))
    (rename (stageDir :: outputPath a) (outputPath a))
    (fun _ => held (upTo xs) (fun l => publishing (xs ++ [x]) l /\
      (exists c, l !! outputPath a = Some (File c true) /\ hashContent c = pa_etagHash a) /\
      forall q, q ∈ prefixes [] (parent (outputPath a)) -> is_Some (l !! q))).
Proof.
  intros Ha Hx Hnx. pose proof (pb_public _ PB _ _ Ha) as Hp.
  apply (triple_kept_call exit (upTo xs) (upTo_lasting xs) (upTo_HE xs)) with (G := fun _ l => publishing (xs ++ [x]) l /\
      (exists c, l !! outputPath a = Some (File c true) /\ hashContent c = pa_etagHash a) /\
      forall q, q ∈ prefixes [] (parent (outputPath a)) -> is_Some (l !! q)).
  intros d [[(H1 & H2 & H3) Hn] Hpre]. destruct (H2 x a (conj Hx Hnx) Ha) as (c & Hc & Hh). rewrite Hc.
  split; [by apply later_rename|]. simpl. split; [split; [|split]|split].
  - intros p c' b Hp'. destruct (decide (p = outputPath a)) as [->|Hne].
    + intros _. right. exists x, a. split; [apply elem_of_app; right; by apply list_elem_of_singleton|done].
    + rewrite lookup_insert_ne, lookup_delete_ne by (done || (intros E; by apply (stage_public p (outputPath a) Hp'))).
      intros Hl. destruct (H1 p c' b Hp' Hl) as [?|(y & b' & Hy & ?)]; [by left|right]. exists y, b'. split; [|done].
      apply elem_of_app. by left.
  - intros y b [Hy Hny] Hb. apply not_elem_of_app in Hny as [Hny Hyx].
    destruct (H2 y b (conj Hy Hny) Hb) as (c' & Hc' & ?). exists c'. split; [|done].
    rewrite lookup_insert_ne by by apply stage_public. rewrite lookup_delete_ne; [done|]. intros [= E].
    apply Hyx, list_elem_of_singleton. by eapply (pb_distinct _ PB).
  - rewrite lookup_insert_ne by by apply stage_public. rewrite lookup_delete_ne; [done|]. intros [= E].
    by apply (output_manifest x a).
  - exists c. by rewrite lookup_insert_eq.
  - intros q Hq. destruct (decide (q = outputPath a)) as [->|Hne]; [rewrite lookup_insert_eq; by eexists|].
    rewrite lookup_insert_ne, lookup_delete_ne; [by apply Hpre| |done]. intros <-.
    destruct (outputPath a) as [|y p]; [done|]. destruct p as [|z p]; simpl in Hq; [by apply not_elem_of_nil in Hq|].
    apply prefixes_head in Hq as [t E]. simpl in E. injection E as E _. destruct Hp as [Hp _]. rewrite <-E in Hp.
    by rewrite stageDir_temporary in Hp.
Qed.

Lemma prefixes_complete p q : q `prefix_of` p -> q <> [] -> q ∈ prefixes [] p.
Proof.
  assert (forall p pre t, t `prefix_of` p -> t <> [] -> pre ++ t ∈ prefixes pre p) as H; [|apply (H p [] q)].
  clear. induction p as [|x p IH]; intros pre t [u Hu] Ht; [by destruct t|]. destruct t as [|y t]; [done|].
  injection Hu as <- Hu. simpl. destruct (decide (t = [])) as [->|Hne]; [left|right].
  specialize (IH (pre ++ [x]) t). rewrite <-(assoc_L (++)) in IH. apply IH; [by exists u|done].
Qed.

Lemma parent_prefix q p : q `prefix_of` p -> q <> [] -> p <> [] -> parent q `prefix_of` parent p.
Proof.
  intros [u ->] Hq Hp. destruct (exists_last Hq) as (q' & x & ->). unfold parent. rewrite removelast_last.
  destruct (decide (u = [])) as [->|Hu]; [by rewrite app_nil_r, removelast_last|].
  rewrite removelast_app by done. exists ([x] ++ removelast u). by rewrite !(assoc_L (++)).
Qed.

Lemma parent_shorter (p : path) : p <> [] -> length (parent p) < length p.
Proof.
  intros Hp. destruct (exists_last Hp) as (q & x & ->). unfold parent. rewrite removelast_last, length_app. simpl. lia.
Qed.

Lemma ancestors_parent q p : q `prefix_of` p -> q <> [] -> parent q ∈ ancestors (parent p).
Proof.
  intros Hpre Hq. assert (p <> []) as Hp by (intros ->; apply prefix_nil_inv in Hpre; done).
  pose proof (parent_prefix q p Hpre Hq Hp) as H. unfold ancestors. rewrite list_elem_of_In, <-in_rev, <-list_elem_of_In.
  destruct (decide (parent q = [])) as [->|Hne]; [left|right]. by apply prefixes_complete.
Qed.

(** The way to a path that is shown becomes durable directory by directory. *)
Definition written (dst : path) (dirs : list path) (d : disk) : Prop :=
  forall q, q `prefix_of` dst -> q <> [] -> parent q ∈ dirs -> is_Some (live d !! q) /\ durable d !! q = live d !! q.

Definition shownWay (dst : path) (l : gmap path entry) : Prop :=
  forall q, q `prefix_of` dst -> q <> [] -> is_Some (l !! q).

Lemma written_lasting dst dirs : public dst -> lasting (written dst dirs).
Proof.
  intros Hp d d' Hl H q Hpre Hne Hq. destruct (H q Hpre Hne Hq) as [[e He] Hd].
  pose proof (public_prefix _ _ Hp Hpre Hne) as Hpq. pose proof (later_live _ _ Hl _ _ Hpq He) as He'.
  split; [by eexists|]. destruct (later_durable _ _ Hl q Hpq) as [->|?]; congruence.
Qed.

Lemma syncAncestors_spec K F dst :
  lasting K -> (forall x d, K d -> exit x d) -> public dst -> (forall l, F l -> shownWay dst l) ->
  triple (held K F) (syncAncestorDirectories (parent dst)) (fun _ d => held K F d /\ written dst (ancestors (parent dst)) d).
Proof.
  intros HK HE Hp HF. unfold syncAncestorDirectories.
  eapply triple_pre; [|apply (triple_forEach exit syncDirectory (fun dirs d => held K F d /\ written dst dirs d))].
  { intros d Hd. split; [done|]. by intros q _ _ ?%not_elem_of_nil. }
  intros l1 dir l2 _. apply triple_call.
  - intros d q [H1 H2]. split; [by apply held_steady|]. eapply written_lasting, H2; [done|]. apply writeBack_later.
  - intros d [[HKd _] _]. split; by apply HE.
  - intros d [[HKd HFd] Hw]. pose proof (syncedDir_later dir d) as Hl. split; [split; [by eapply HK|done]|].
    intros q Hpre Hne [Hq| Hq%list_elem_of_singleton]%elem_of_app; [by eapply (written_lasting dst l1 Hp d)|].
    split; [by apply (HF _ HFd)|]. rewrite syncedDir_durable. unfold childOf.
    by rewrite !bool_decide_true by done.
Qed.

Lemma publish_mkdir xs a x :
  assetAt x a ->
  triple (held (upTo xs) (fun l => publishing xs l /\ l !! outputPath a = None)) (mkdirAll (parent (outputPath a)))
    (fun _ => held (upTo xs) (fun l => (publishing xs l /\ l !! outputPath a = None) /\
       forall q, q ∈ prefixes [] (parent (outputPath a)) -> is_Some (l !! q))).
Proof.
  intros Ha. pose proof (pb_public _ PB _ _ Ha) as Hp. destruct (outputPath a) as [|y [|z p]] eqn:Eo; [done|..].
  { apply triple_pure. intros d [? ?]. split; [done|]. split; [done|]. by intros q ?%not_elem_of_nil. }
  change (parent (y :: z :: p)) with (y :: parent (z :: p)).
  apply (mkdirAll_spec exit (upTo xs) (upTo_lasting xs) (upTo_HE xs)); [|by destruct Hp].
  intros q Hq m [Hm Hn] Hnq. pose proof Hq as Hq'. apply prefixes_head in Hq as [t ->].
  split; [by apply publishing_admits|]. rewrite lookup_insert_ne; [done|]. intros [= Et]. subst t.
  apply prefixes_prefix in Hq' as (b & t & E & [u Hu]). simpl in E. injection E as <- <-. injection Hu as Hu.
  pose proof (parent_shorter (z :: p) ltac:(done)) as Hl. unfold parent in Hu, Hl.
  simpl in Hu, Hl. rewrite Hu in Hl. simpl in Hl. rewrite length_app in Hl. lia.
Qed.

Lemma prefix_parent q p : q `prefix_of` p -> q <> p -> q `prefix_of` parent p.
Proof.
  intros [u ->] Hne. destruct (decide (u = [])) as [->|Hu]; [by rewrite app_nil_r in Hne|].
  unfold parent. rewrite removelast_app by done. by exists (removelast u).
Qed.

Lemma publishing_next xs x l : publishing xs l -> publishing (xs ++ [x]) l.
Proof.
  intros (H1 & H2 & H3). split; [|split; [|done]].
  - intros p c b Hp Hl. destruct (H1 p c b Hp Hl) as [?|(y & a & Hy & ?)]; [by left|right]. exists y, a. split; [|done].
    apply elem_of_app. by left.
  - intros y a [Hy Hny] Ha. apply (H2 y a); [|done]. split; [done|]. intros Hy'. apply Hny, elem_of_app. by left.
Qed.

Lemma upTo_next xs x a d : assetAt x a -> settled a d -> upTo xs d -> upTo (xs ++ [x]) d.
Proof.
  intros Ha Hs (H1 & H2 & H3). split; [done|]. split; [done|]. intros y b [Hy| ->%list_elem_of_singleton]%elem_of_app Hb.
  - by eapply H3.
  - assert (b = a) as -> by by eapply assetAt_inj. done.
Qed.

(** An asset that is not there yet. *)
Lemma publish_new xs x a :
  assetAt x a -> x ∈ bp_order plan -> x ∉ xs ->
  triple (held (upTo xs) (fun l => publishing xs l /\ l !! outputPath a = None))
    (do mkdirAll (parent (outputPath a));; do rename (stageDir :: outputPath a) (outputPath a);;
     syncAncestorDirectories (parent (outputPath a)))
    (fun _ => held (upTo (xs ++ [x])) (publishing (xs ++ [x]))).
Proof.
  intros Ha Hx Hnx. pose proof (pb_public _ PB _ _ Ha) as Hp.
  eapply triple_bind; [by eapply publish_mkdir|]. intros ?. eapply triple_bind; [by eapply rename_spec|]. intros ?.
  eapply triple_post; [|apply (syncAncestors_spec (upTo xs)); [apply upTo_lasting|apply upTo_HE|done|]].
  - intros _ d [[Hd (Hpub & (c & Hc & Hh) & _)] Hw]. split; [|done]. eapply upTo_next; [done| |done].
    exists c. split; [done|]. split; [done|]. intros q Hpre Hne. apply Hw; [done..|]. by apply ancestors_parent.
  - intros l (_ & (c & Hc & _) & Hq) q Hpre Hne. destruct (decide (q = outputPath a)) as [->|Hqp]; [by eexists|].
    apply Hq, prefixes_complete; [by apply prefix_parent|done].
Qed.

(** A file that was there from the start is on the disk, and so is the way to it. *)
Lemma kept_settled a d c b :
  public (outputPath a) -> base d -> live d0 !! outputPath a = Some (File c b) -> hashContent c = pa_etagHash a -> settled a d.
Proof.
  intros Hp Hb Hl Hh. assert (b = true) as -> by by eapply qu_synced. exists c. split; [done|].
  split; [by apply (base_kept _ Hb)|]. intros q Hpre Hne.
  destruct (qu_tree _ Q0 _ q Hp ltac:(by eexists) Hpre Hne) as [e He].
  destruct (base_kept _ Hb q e (public_prefix _ _ Hp Hpre Hne) He) as [-> ->]. split; [by eexists|done].
Qed.

Lemma publishAsset_spec xs x :
  x ∈ bp_order plan ->
  triple (held (upTo xs) (publishing xs)) (publishAsset sha256 random plan x)
    (fun _ => held (upTo (xs ++ [x])) (publishing (xs ++ [x]))).
Proof.
  intros Hx. unfold publishAsset. destruct (bp_assets plan !! x) as [a|] eqn:Ha.
  2:{ apply triple_raise. intros d [Hd _]. by eapply upTo_exit. }
  pose proof (pb_public _ PB _ _ Ha) as Hp.
  eapply triple_bind; [apply (stat_spec exit (upTo xs) (upTo_lasting xs) (upTo_HE xs))|]. intros [e|].
  - eapply triple_bind.
    { apply (triple_kept_call exit (upTo xs) (upTo_lasting xs) (upTo_HE xs)) with (G := fun equal l => publishing xs l /\
        (equal = true -> exists c b c' b', l !! (stageDir :: outputPath a) = Some (File c b) /\
           l !! outputPath a = Some (File c' b') /\ hashContent c = hashContent c')).
      intros d [Hpub _]. destruct (live d !! (stageDir :: outputPath a)) as [[|c b]|] eqn:E1; [split; [apply later_refl|done]| |split; [apply later_refl|done]].
      destruct (live d !! outputPath a) as [[|c' b']|] eqn:E2; [split; [apply later_refl|done]| |split; [apply later_refl|done]].
      split; [apply later_refl|]. split; [done|]. intros [_ Hh%bool_decide_eq_true]%andb_true_iff. exists c, b, c', b'.
      split; [done|]. split; [done|]. unfold AssetStore.hashContent. by rewrite Hh. }
    intros [|]; [|apply triple_raise; intros d [Hd _]; by eapply upTo_exit].
    apply triple_pure. intros d [Hd [Hpub Heq]]. split; [|by apply publishing_next]. eapply upTo_next; [done| |done].
    destruct (decide (x ∈ xs)) as [Hin|Hnin]; [by eapply Hd|].
    destruct (Heq eq_refl) as (c & b & c' & b' & E1 & E2 & Hh).
    destruct Hpub as (H1 & H2 & _). destruct (H2 x a (conj Hx Hnin) Ha) as (c2 & E3 & Hh2). simplify_eq.
    destruct (H1 _ _ _ Hp E2) as [Hl|(y & a' & Hy & Ha' & Eo)].
    + eapply kept_settled; [done|apply Hd|done|congruence].
    + exfalso. apply Hnin. by rewrite <-(pb_distinct _ PB _ _ _ _ Ha' Ha Eo).
  - destruct (decide (x ∈ xs)) as [Hin|Hnin]; [|by apply publish_new].
    intros d es [Hd [_ Hn]]. exfalso. destruct Hd as (_ & _ & Hs). destruct (Hs x a Hin Ha) as (c & _ & Hl & _). congruence.
Qed.

(** *** The manifest *)

Lemma public_base d d' :
  (forall p, public p -> live d' !! p = live d !! p /\ durable d' !! p = durable d !! p) ->
  (base d -> base d') /\ forall x a, assetAt x a -> settled a d -> settled a d'.
Proof.
  intros H. split.
  - intros [H1 H2]. split; [intros p e Hp|intros p Hp]; destruct (H p Hp) as [-> ->]; auto.
  - intros x a Ha (c & Hc & Hl & Hq). pose proof (pb_public _ PB _ _ Ha) as Hp. exists c. split; [done|].
    destruct (H _ Hp) as [E _]. rewrite E. split; [done|]. intros q Hpre Hne.
    destruct (H q (public_prefix _ _ Hp Hpre Hne)) as [-> ->]. by apply Hq.
Qed.

Lemma publishManifest_spec :
  triple (held (upTo (bp_order plan)) (publishing (bp_order plan))) (publishManifest random) (fun _ => complete).
Proof.
  unfold publishManifest. eapply triple_bind with (Q := fun _ => replaced).
  - apply triple_call; [by apply held_steady, upTo_lasting|intros d [Hd _]; split; by eapply upTo_exit|].
    intros d [(Hb & [Hm1 Hm2] & Hs) (_ & _ & Hst)]. rewrite Hst.
    destruct (public_base d (onLive (fun m => <[manifestPath := manifestEntry]> (delete [stageDir; ManifestFilename] m)) d)) as [HB HS].
    { intros p Hp. simpl. split; [|done]. rewrite lookup_insert_ne by (intros E; by apply (public_manifest p Hp)).
      rewrite lookup_delete_ne; [done|]. intros E. by apply (stage_public p [ManifestFilename] Hp). }
    split; [by apply HB|]. split; [|split; [simpl; by rewrite lookup_insert_eq|by left]].
    intros x a Ha. eapply HS; [done|]. apply (Hs x); [|done]. apply (pb_order _ PB). by eexists.
  - intros ?. apply triple_mapFail. apply triple_call.
    + intros d p Hd. eapply replaced_lasting, Hd. apply writeBack_later.
    + intros d Hd. split; simpl; right; [done|by split].
    + intros d Hd. pose proof (replaced_lasting _ _ (syncedDir_later [] d) Hd) as (H1 & H2 & H3 & _).
      split; [done|]. split; [done|]. split; [done|]. rewrite syncedDir_durable. exact H3.
Qed.

Lemma publishCompileStage_spec :
  triple (held (upTo []) (publishing [])) (publishCompileStage sha256 random plan) (fun _ => complete).
Proof.
  eapply triple_bind; [|intros ?; apply publishManifest_spec].
  apply (triple_forEach exit _ (fun xs => held (upTo xs) (publishing xs))). intros l1 x l2 El. apply publishAsset_spec.
  rewrite El. apply elem_of_app. right. left.
Qed.

Lemma stageAndPublish_spec :
  triple (held (upTo []) (filesKnown [])) (stageAndPublish sha256 encodeManifest now random tmpSuffix plan)
    (fun mf d => mf = bp_manifest plan /\ complete d).
Proof.
  eapply triple_bind; [apply staging_loop|]. intros ?. eapply triple_bind; [apply save_spec|]. intros ?.
  eapply triple_bind; [apply publishCompileStage_spec|]. intros ?. by apply triple_pure.
Qed.

(** *** Before and after *)

Lemma triple_attempt_call {A : Type} (P : disk -> Prop) (f : disk -> disk * result ioError A) :
  steady P -> (forall d, P d -> exit None d) -> (forall d, P d -> P (f d).1) -> triple P (attempt (call f)) (fun _ => P).
Proof.
  intros HP HE Hf. apply triple_attempt with (P' := P); [|done]. apply triple_call; [done|intros d Hd; split; [by apply HE|done]|].
  intros d Hd. specialize (Hf d Hd). destruct (f d) as [d' [a|e]]; done.
Qed.

Definition clean : disk -> Prop := held (upTo []) (filesKnown []).

Lemma clean_steady : steady clean.
Proof. apply held_steady, upTo_lasting. Qed.

Lemma clean_exit x d : clean d -> exit x d.
Proof. intros [Hd _]. by eapply upTo_exit. Qed.

(** Removing temporaries keeps the published tree. *)
Lemma removeAll_later top d :
  temporary top = true -> later d (onLive (filter (fun e => below top e.1 = false)) d).
Proof.
  intros Ht. apply private_later. intros q Hq. split; [|done].
  simpl. destruct (live d !! q) eqn:El; [|by apply map_lookup_filter_None_2; left].
  apply map_lookup_filter_Some_2; [done|]. simpl. destruct q as [|x q]; [done|]. simpl. apply bool_decide_eq_false. intros ->.
  destruct Hq as [[? _]|Hq]; [congruence|]. by injection Hq as -> ->.
Qed.

Lemma filesKnown_filter xs (P : path * entry -> Prop) `{!forall e, Decision (P e)} l : filesKnown xs l -> filesKnown xs (filter P l).
Proof. intros HF p c b Hp [Hl _]%map_lookup_filter_Some. by apply (HF p c b). Qed.

Lemma cleanup_each e : triple clean (cleanupEntry e) (fun _ => clean).
Proof.
  destruct e as [name isDir]. unfold cleanupEntry.
  destruct (isDir && isStaging name) eqn:Es; [|destruct (negb isDir && isTemp name) eqn:Et; [|by apply triple_pure]].
  - apply andb_true_iff in Es as [_ Es]. eapply triple_bind with (Q := fun _ => clean); [|intros ?; by apply triple_pure].
    apply (triple_attempt_call clean); [apply clean_steady|apply (clean_exit None)|]. intros d [Hd HF]. simpl.
    split; [|by apply filesKnown_filter]. eapply upTo_lasting, Hd. apply removeAll_later. unfold temporary. by rewrite Es.
  - apply andb_true_iff in Et as [_ Et]. eapply triple_bind with (Q := fun _ => clean); [|intros ?; by apply triple_pure].
    assert (inStage [name]) as Hst by (simpl; unfold temporary; rewrite Et; apply orb_true_r).
    apply (triple_attempt_call clean); [apply clean_steady|apply (clean_exit None)|]. intros d [Hd HF]. simpl. split.
    + eapply upTo_lasting, Hd. apply (onLive_stage_later d [name]); [done|]. intros m q ?. by rewrite lookup_delete_ne by congruence.
    + intros p c b Hp Hl. simpl in Hl. apply lookup_delete_Some in Hl as [_ Hl]. by apply (HF p c b).
Qed.

Lemma cleanup_spec : triple clean cleanupCompileTemps (fun _ => clean).
Proof.
  eapply triple_bind; [apply (triple_attempt_call clean); [apply clean_steady|apply (clean_exit None)|done]|].
  intros [entries|]; [|by apply triple_pure]. apply triple_each. intros e _. apply cleanup_each.
Qed.

Lemma mkStage_spec : triple clean (mkStage random) (fun _ => clean).
Proof.
  apply (triple_kept_call exit (upTo []) (upTo_lasting []) (upTo_HE [])) with (G := fun _ => filesKnown []).
  intros d HF. destruct (live d !! [stageDir]) eqn:El; [split; [apply later_refl|done]|].
  assert (inStage [stageDir]) as Hst by apply stageDir_temporary. split; [|by apply filesKnown_stage].
  apply (onLive_stage_later d [stageDir]); [done|]. intros m q ?. by rewrite lookup_insert_ne by congruence.
Qed.

(** Removing the stage changes nothing of what the compile did. *)
Lemma removeStage_spec (P : disk -> Prop) :
  lasting P -> (forall d, P d -> exit None d) -> hoare (after exit P) P (removeAll stageDir) (fun _ => P).
Proof.
  intros HP HE. apply triple_call; [intros d p Hd; eapply HP, Hd; apply writeBack_later|intros d Hd; split; [by apply HE|done]|].
  intros d Hd. eapply HP, Hd. apply removeAll_later, stageDir_temporary.
Qed.

Lemma complete_replaced d : complete d -> replaced d.
Proof. intros (H1 & H2 & H3 & H4). split; [done|]. split; [done|]. split; [done|]. by right. Qed.

Lemma compilePlan_spec :
  triple clean (compilePlan sha256 encodeManifest now random tmpSuffix plan) (fun mf d => mf = bp_manifest plan /\ complete d).
Proof.
  eapply triple_bind; [apply triple_call with (Q := fun _ => clean); [apply clean_steady|intros d Hd; split; by apply clean_exit|done]|].
  intros ?. eapply triple_bind; [apply cleanup_spec|]. intros ?. eapply triple_bind; [apply mkStage_spec|]. intros ?.
  apply triple_deferred; [apply stageAndPublish_spec|intros e|intros mf].
  - apply removeStage_spec; [apply exit_lasting|]. intros d. apply exit_crash.
  - apply removeStage_spec; [|intros d [_ Hd]; right; by apply complete_replaced].
    intros d d' Hl [? Hd]. split; [done|]. by eapply complete_lasting.
Qed.

Lemma quiescent_clean : clean d0.
Proof. split; [apply quiescent_upTo|]. intros p c b _ Hl. by left. Qed.

(** *** After a crash *)

(** What survives a crash, after the system has written [ws] back. *)
Definition survives (ws : list path) (d : disk) : gmap path entry := durable (fold_left writeBack ws d).

(** The tree a manifest needs: a file under each output name whose hash is the validator
    of the asset, and the directories on the way. *)
Definition servable (m : gmap path entry) : Prop :=
  forall l a, assetAt l a ->
    exists c, hashContent c = pa_etagHash a /\ m !! outputPath a = Some (File c true) /\
      forall q, q `prefix_of` outputPath a -> q <> [] -> is_Some (m !! q).

Lemma survives_lasting (P : disk -> Prop) ws d : lasting P -> P d -> P (fold_left writeBack ws d).
Proof. intros HP. apply writeBacks_steady. intros d' p Hd. eapply HP, Hd. apply writeBack_later. Qed.

Lemma settled_servable d : (forall l a, assetAt l a -> settled a d) -> servable (durable d).
Proof.
  intros H l a Ha. destruct (H l a Ha) as (c & Hc & Hl & Hq). exists c. split; [done|].
  pose proof (pb_public _ PB _ _ Ha) as Hp. split.
  - destruct (Hq (outputPath a)) as [_ ->]; [done| |done]. by destruct (outputPath a).
  - intros q Hpre Hne. by destruct (Hq q Hpre Hne) as [? ->].
Qed.

Lemma base_survives ws d p e : base d -> public p -> live d0 !! p = Some e -> live d !! p = Some e /\ survives ws d !! p = Some e.
Proof.
  intros Hb Hp He. split; [by apply (base_kept d Hb)|].
  by apply (base_kept _ (survives_lasting _ ws d base_lasting Hb)).
Qed.

Lemma unchanged_survives ws d : unchanged d -> live d !! manifestPath = live d0 !! manifestPath /\ survives ws d !! manifestPath = live d0 !! manifestPath.
Proof. intros Hu. split; [apply Hu|]. apply (survives_lasting _ ws d unchanged_lasting Hu). Qed.

Lemma replaced_survives ws d : replaced d ->
  servable (survives ws d) /\ (survives ws d !! manifestPath = live d0 !! manifestPath \/ survives ws d !! manifestPath = Some manifestEntry).
Proof. intros (_ & H & _ & Hm)%(survives_lasting _ ws d replaced_lasting). split; [by apply settled_servable|done]. Qed.

Lemma complete_survives ws d : complete d -> servable (survives ws d) /\ survives ws d !! manifestPath = Some manifestEntry.
Proof. intros (_ & H & _ & Hm)%(survives_lasting _ ws d complete_lasting). split; [by apply settled_servable|done]. Qed.

(** What a reader finds, and what the caller may conclude. *)
Definition recoverable (d : disk) (r : res ioError Manifest) (ws : list path) : Prop :=
  let m := survives ws d in
  (forall p e, public p -> live d0 !! p = Some e -> live d !! p = Some e /\ m !! p = Some e) /\
  (live d !! manifestPath = live d0 !! manifestPath \/ (live d !! manifestPath = Some manifestEntry /\ servable (live d))) /\
  (m !! manifestPath = live d0 !! manifestPath \/ (m !! manifestPath = Some manifestEntry /\ servable m)) /\
  match r with
  | Val mf => mf = bp_manifest plan /\ live d !! manifestPath = Some manifestEntry /\ m !! manifestPath = Some manifestEntry
  | Fail e => e <> IndeterminateCommitError manifestPath ->
      live d !! manifestPath = live d0 !! manifestPath /\ m !! manifestPath = live d0 !! manifestPath
  | Crashed => True
  end.

Lemma exit_base x d : exit x d -> base d.
Proof. destruct x as [[]|]; simpl; unfold upTo, replaced; naive_solver. Qed.

Lemma exit_recovers ws x d : exit x d ->
  survives ws d !! manifestPath = live d0 !! manifestPath \/ (survives ws d !! manifestPath = Some manifestEntry /\ servable (survives ws d)).
Proof.
  intros [(_ & Hu & _)|Hr]%exit_crash; [left; by apply unchanged_survives|].
  destruct (replaced_survives ws d Hr) as [Hs [?|?]]; [by left|by right].
Qed.

Lemma settled_shown d : (forall l a, assetAt l a -> settled a d) -> servable (live d).
Proof.
  intros H l a Ha. destruct (H l a Ha) as (c & Hc & Hl & Hq). exists c. split; [done|]. split; [done|].
  intros q Hpre Hne. by apply Hq.
Qed.

Lemma exit_shows x d : exit x d ->
  live d !! manifestPath = live d0 !! manifestPath \/ (live d !! manifestPath = Some manifestEntry /\ servable (live d)).
Proof. intros [(_ & Hu & _)|(_ & Hs & Hm & _)]%exit_crash; [left; apply Hu|right; split; [done|by apply settled_shown]]. Qed.

Lemma exit_failed ws e d : exit (Some e) d -> e <> IndeterminateCommitError manifestPath ->
  live d !! manifestPath = live d0 !! manifestPath /\ survives ws d !! manifestPath = live d0 !! manifestPath.
Proof.
  intros H Hne. apply unchanged_survives. destruct e; simpl in H; try apply H.
  destruct H as [H|[-> _]]; [apply H|done].
Qed.

Lemma exit_recoverable ws x d r : exit x d -> r = match x with Some e => Fail e | None => Crashed end -> recoverable d r ws.
Proof.
  intros H ->. split; [intros; apply base_survives; [by eapply exit_base|done..]|]. split; [by eapply exit_shows|].
  split; [by eapply exit_recovers|]. destruct x; [by apply exit_failed|done].
Qed.

Lemma compilePlan_recoverable ws es :
  let '(d, _, r) := compilePlan sha256 encodeManifest now random tmpSuffix plan d0 es in recoverable d r ws.
Proof.
  pose proof (compilePlan_spec d0 es quiescent_clean (Forall_true _ _ (fun _ => I))) as H.
  destruct (compilePlan _ _ _ _ _ _ _ _) as [[d es'] [mf|e|]]; destruct H as [_ H].
  - destruct H as [-> H]. pose proof H as (Hb & Hs & Hm & _). destruct (complete_survives ws d H) as [Hds Hd].
    split; [intros; by apply base_survives|]. split; [right; split; [done|by apply settled_shown]|].
    split; [by right|done].
  - by apply (exit_recoverable ws (Some e)).
  - by apply (exit_recoverable ws None).
Qed.
End Published.

(** ** Runs without faults *)

(** No call fails; the system writes back what it wants. *)
Definition quiet (es : list event) : Prop := Forall (fun ev => fault ev = None) es.

(** In at most [n] calls. *)
Definition runs {A : Type} (n : nat) (P : assertion) (m : M A) (Q : A -> assertion) : Prop :=
  forall d es, P (live d) -> quiet es -> n <= length es ->
    exists d' es' a, m d es = (d', es', Val a) /\ Q a (live d') /\ quiet es' /\ length es <= n + length es'.

Lemma live_writeBacks ps d : live (fold_left writeBack ps d) = live d.
Proof. revert d. induction ps as [|p ps IH]; intros d; [done|]. simpl. by rewrite IH. Qed.

Lemma runs_request {A : Type} (P : assertion) (effect : option nat -> disk -> disk * result ioError A) (Q : A -> assertion) :
  (forall d, P (live d) -> exists d' a, effect None d = (d', Ok a) /\ Q a (live d')) -> runs 1 P (request effect) Q.
Proof.
  intros H d es Hd Hq Hn. destruct es as [|ev es]; [simpl in Hn; lia|]. apply Forall_cons in Hq as [Hf Hq].
  destruct (H (fold_left writeBack (writebacks ev) d)) as (d' & a & E & Ha); [by rewrite live_writeBacks|].
  exists d', es, a. unfold request, sys. rewrite Hf, E. done.
Qed.

Lemma runs_call {A : Type} (P : assertion) (f : disk -> disk * result ioError A) (Q : A -> assertion) :
  (forall d, P (live d) -> exists d' a, f d = (d', Ok a) /\ Q a (live d')) -> runs 1 P (call f) Q.
Proof. intros H. by apply runs_request. Qed.

Lemma runs_pure {A : Type} (P : assertion) (a : A) (Q : A -> assertion) : (forall l, P l -> Q a l) -> runs 0 P (pure a) Q.
Proof. intros H d es Hd Hq Hn. exists d, es, a. split; [done|]. split; [by apply H|]. split; [done|]. lia. Qed.

Lemma runs_bind {A B : Type} n1 n2 P (m : M A) (f : A -> M B) Q R :
  runs n1 P m Q -> (forall a, runs n2 (Q a) (f a) R) -> runs (n1 + n2) P (bind m f) R.
Proof.
  intros Hm Hf d es Hd Hq Hn. destruct (Hm d es Hd Hq ltac:(lia)) as (d1 & es1 & a & E & Ha & Hq1 & Hl).
  destruct (Hf a d1 es1 Ha Hq1 ltac:(lia)) as (d2 & es2 & b & E2 & Hb & Hq2 & Hl2).
  exists d2, es2, b. unfold bind. rewrite E, E2. split_and!; [done..|lia].
Qed.

Lemma runs_conseq {A : Type} n n' (P P' : assertion) (m : M A) (Q Q' : A -> assertion) :
  n' <= n -> (forall l, P l -> P' l) -> (forall a l, Q' a l -> Q a l) -> runs n' P' m Q' -> runs n P m Q.
Proof.
  intros Hn HP HQ Hm d es Hd Hq Hl. destruct (Hm d es (HP _ Hd) Hq ltac:(lia)) as (d1 & es1 & a & E & Ha & Hq1 & Hl1).
  exists d1, es1, a. split_and!; [done|by apply HQ|done|lia].
Qed.

Lemma runs_onFail {A B : Type} n P (m : M A) (c : M B) Q : runs n P m Q -> runs n P (onFail m c) Q.
Proof.
  intros Hm d es Hd Hq Hl. destruct (Hm d es Hd Hq Hl) as (d1 & es1 & a & E & H). exists d1, es1, a. unfold onFail. by rewrite E.
Qed.

Lemma runs_mapFail {A : Type} n P f (m : M A) Q : runs n P m Q -> runs n P (mapFail f m) Q.
Proof.
  intros Hm d es Hd Hq Hl. destruct (Hm d es Hd Hq Hl) as (d1 & es1 & a & E & H). exists d1, es1, a. unfold mapFail. by rewrite E.
Qed.

Lemma runs_attempt {A : Type} n P (m : M A) Q : runs n P m Q -> runs n P (attempt m) (fun o l => exists a, o = Some a /\ Q a l).
Proof.
  intros Hm d es Hd Hq Hl. destruct (Hm d es Hd Hq Hl) as (d1 & es1 & a & E & Ha & H). exists d1, es1, (Some a).
  unfold attempt. rewrite E. split; [done|]. split; [by exists a|done].
Qed.

Lemma runs_deferred {A B : Type} n k (P : assertion) (m : M A) (c : M B) (Q : A -> assertion) :
  runs n P m Q -> (forall a, runs k (Q a) c (fun _ => Q a)) -> runs (n + k) P (deferred m c) Q.
Proof.
  intros Hm Hc d es Hd Hq Hn. destruct (Hm d es Hd Hq ltac:(lia)) as (d1 & es1 & a & E & Ha & Hq1 & Hl).
  destruct (Hc a d1 es1 Ha Hq1 ltac:(lia)) as (d2 & es2 & b & E2 & Hb & Hq2 & Hl2).
  exists d2, es2, a. unfold deferred. rewrite E. unfold bind, attempt. rewrite E2. split_and!; [done..|lia].
Qed.

Lemma runs_forEach {A : Type} (f : A -> M unit) (cost : A -> nat) (I : list A -> assertion) (l : list A) :
  (forall l1 x l2, l = l1 ++ x :: l2 -> runs (cost x) (I l1) (f x) (fun _ => I (l1 ++ [x]))) ->
  runs (sum_list_with cost l) (I []) (forEach f l) (fun _ => I l).
Proof.
  intros H. assert (forall l2 l1, l = l1 ++ l2 -> runs (sum_list_with cost l2) (I l1) (forEach f l2) (fun _ => I l)) as Hall; [|by apply Hall].
  induction l2 as [|x l2 IH]; intros l1 El; simpl.
  - rewrite app_nil_r in El. subst. by apply runs_pure.
  - eapply runs_bind; [by eapply H|]. intros ?. apply IH. by rewrite <-(assoc_L (++)).
Qed.

Lemma runs_each {A : Type} (f : A -> M unit) k (P : assertion) (l : list A) :
  (forall x, x ∈ l -> runs k P (f x) (fun _ => P)) -> runs (k * length l) P (forEach f l) (fun _ => P).
Proof.
  intros H. replace (k * length l) with (sum_list_with (fun _ : A => k) l) by (clear; induction l; simpl; lia).
  apply (runs_forEach f (fun _ => k) (fun _ => P)). intros l1 x l2 ->. apply H. apply elem_of_app. right. left.
Qed.

(** *** Calls *)

Lemma runs_create P p : (forall l, P l -> l !! p = None) -> runs 1 P (create p) (fun _ => extended P p (File [] false)).
Proof.
  intros H. apply runs_call. intros d Hd. exists (onLive (<[p := File [] false]>) d), tt. rewrite (H _ Hd). split; [done|].
  by exists (live d); split; [|split; [apply H|]].
Qed.

Lemma runs_write P p e c : runs 1 (extended P p e) (write p c) (fun _ => extended P p (File c false)).
Proof.
  apply runs_request. intros d (m & Hm & Hn & El). eexists _, _. split; [done|]. exists m. simpl. rewrite El, insert_insert_eq. done.
Qed.

Lemma runs_syncFile P p c b : runs 1 (extended P p (File c b)) (syncFile p) (fun _ => extended P p (File c true)).
Proof.
  apply runs_call. intros d (m & Hm & Hn & El). rewrite El, lookup_insert_eq. eexists _, _. split; [done|].
  exists m. simpl. rewrite insert_insert_eq. done.
Qed.

Lemma runs_close P : runs 1 P close (fun _ => P).
Proof. apply runs_call. intros d Hd. by exists d, tt. Qed.

Lemma runs_syncDirectory P dir : runs 1 P (syncDirectory dir) (fun _ => P).
Proof. apply runs_call. intros d Hd. by exists (syncedDir dir d), tt. Qed.

Lemma runs_writeSynced P p c : runs 2 (extended P p (File [] false)) (onFail (do write p c;; syncFile p) close) (fun _ => extended P p (File c true)).
Proof. apply runs_onFail. apply (runs_bind 1 1) with (Q := fun _ => extended P p (File c false)); [apply runs_write|]. intros ?. apply runs_syncFile. Qed.

Lemma runs_writeSyncedFile P p c :
  (forall l, P l -> l !! p = None) -> runs 4 P (writeSyncedFile p c) (fun _ => extended P p (File c true)).
Proof.
  intros H. apply (runs_bind 1 3) with (Q := fun _ => extended P p (File [] false)); [by apply runs_create|]. intros ?.
  apply (runs_bind 2 1) with (Q := fun _ => extended P p (File c true)); [apply runs_writeSynced|]. intros ?. apply runs_close.
Qed.

Lemma runs_mkdir P p :
  admits P p -> (forall l c b, P l -> l !! p <> Some (File c b)) -> runs 1 P (mkdir p) (fun _ => P).
Proof.
  intros HA HN. apply runs_call. intros d Hd. destruct (live d !! p) as [[|c b]|] eqn:E; [by exists d, tt| |].
  - exfalso. by apply (HN _ c b Hd).
  - eexists _, _. split; [done|]. by apply HA.
Qed.

Lemma prefixes_length pre p : length (prefixes pre p) = length p.
Proof. revert pre. induction p as [|x p IH]; intros pre; simpl; [done|]. by rewrite IH. Qed.

Lemma runs_mkdirAll P p :
  (forall q, q ∈ prefixes [] p -> admits P q /\ forall l c b, P l -> l !! q <> Some (File c b)) ->
  runs (length p) P (mkdirAll p) (fun _ => P).
Proof.
  intros H. rewrite <-(prefixes_length [] p), <-(Nat.mul_1_l (length _)). apply runs_each. intros q Hq.
  apply runs_mkdir; by apply H.
Qed.

Lemma runs_ancestors P p : runs (S (length p)) P (syncAncestorDirectories p) (fun _ => P).
Proof.
  replace (S (length p)) with (1 * length (ancestors p)).
  - apply runs_each. intros q _. apply runs_syncDirectory.
  - unfold ancestors. rewrite length_rev. simpl. rewrite prefixes_length. lia.
Qed.

(** The temporary is gone when the file is there. *)
Lemma runs_atomicWriteFile P x name tmp data :
  (forall l, P l -> l !! [x; tmp] = None) ->
  runs 7 P (atomicWriteFile [x] name tmp data) (fun _ l => exists m, P m /\ l = <[[x; name] := File data true]> m).
Proof.
  intros H. unfold atomicWriteFile. simpl app.
  eapply (runs_bind 1 6); [by apply runs_create|]. intros ?. eapply (runs_bind 3 3).
  { apply runs_onFail. eapply (runs_bind 1 2); [apply runs_close|]. intros ?. eapply (runs_bind 1 1); [apply runs_write|]. intros ?. apply runs_syncFile. }
  intros ?. eapply (runs_bind 1 2); [apply runs_onFail, runs_close|]. intros ?. eapply (runs_bind 1 1).
  { apply runs_onFail. apply runs_call with (Q := fun _ l => exists m, P m /\ l = <[[x; name] := File data true]> m).
    intros d (m & Hm & Hn & El). rewrite El, lookup_insert_eq. eexists _, _. split; [done|]. exists m. split; [done|].
    simpl. by rewrite El, delete_insert_eq, (delete_id m). }
  intros ?. apply runs_mapFail, runs_syncDirectory.
Qed.

(** ** An undisturbed compile *)

Section Success.
Context (sha256 : bytes -> bytes).
Context (encodeManifest : Manifest -> bytes) (now : plannedAsset -> option bytes) (random tmpSuffix : string).
Notation hashContent := (hashContent sha256).
Notation stageDir := (stageDir random).
Context (plan : buildPlan) (PB : publishable sha256 plan) (d0 : disk).
Notation assetAt := (assetAt plan).

(** What an asset is staged as. *)
Definition contentOf (a : plannedAsset) : option bytes := if rewritten (pa_kind a) then Some (pa_content a) else now a.

Definition strictly (q p : path) : Prop := q `prefix_of` p /\ q <> [] /\ q <> p.

(** The sources are what was planned; nothing that is there is in the way. *)
Record undisturbed : Prop := {
  ud_now : forall x a, assetAt x a -> rewritten (pa_kind a) = false -> exists c, now a = Some c /\ hashContent c = pa_outputHash a;
  ud_files : forall x a e, assetAt x a -> live d0 !! outputPath a = Some e ->
    exists c b, e = File c b /\ contentOf a = Some c;
  ud_dirs : forall x a q c b, assetAt x a -> strictly q (outputPath a) -> live d0 !! q <> Some (File c b);
  ud_apart : forall x a y b, assetAt x a -> assetAt y b -> ~ strictly (outputPath a) (outputPath b);
  ud_stage : forall q, live d0 !! (stageDir :: q) = None;
  ud_temp : forall x a, assetAt x a -> head (outputPath a) <> Some (stageTmp tmpSuffix)
}.
Context (UD : undisturbed) (Once : NoDup (bp_order plan)).

Lemma asset_content x a : assetAt x a -> exists c, contentOf a = Some c.
Proof.
  intros Ha. unfold contentOf. destruct (rewritten (pa_kind a)) eqn:E; [by eexists|].
  destruct (ud_now UD x a Ha E) as (c & -> & _). by exists c.
Qed.

(** Cleaning only takes temporaries away. *)
Definition cleaned (l : gmap path entry) : Prop :=
  (forall p, public p -> l !! p = live d0 !! p) /\ (forall q, l !! (stageDir :: q) = None).

Lemma cleaned_d0 : cleaned (live d0).
Proof. split; [done|]. apply (ud_stage UD). Qed.

Lemma cleaned_filter top l : temporary top = true -> cleaned l -> cleaned (filter (fun e => below top e.1 = false) l).
Proof.
  intros Ht [H1 H2]. split.
  - intros p Hp. rewrite <-(H1 p Hp). destruct (l !! p) eqn:E; [|by apply map_lookup_filter_None_2; left].
    apply map_lookup_filter_Some_2; [done|]. simpl. destruct p as [|x p]; [done|]. simpl. apply bool_decide_eq_false.
    intros ->. destruct Hp as [? _]. congruence.
  - intros q. apply map_lookup_filter_None_2. by left.
Qed.

Lemma cleaned_delete name l : temporary name = true -> cleaned l -> cleaned (delete [name] l).
Proof.
  intros Ht [H1 H2]. split.
  - intros p Hp. rewrite lookup_delete_ne; [by apply H1|]. intros <-. destruct Hp as [? _]. congruence.
  - intros q. apply lookup_delete_None. by right.
Qed.

Lemma runs_cleanupEntry e : runs 1 cleaned (cleanupEntry e) (fun _ => cleaned).
Proof.
  destruct e as [name isDir]. unfold cleanupEntry.
  destruct (isDir && isStaging name) eqn:Es; [|destruct (negb isDir && isTemp name) eqn:Et].
  - apply andb_true_iff in Es as [_ Es]. apply (runs_bind 1 0) with (Q := fun _ => cleaned); [|intros ?; by apply runs_pure].
    eapply runs_conseq; [done|done| |apply runs_attempt, runs_call with (Q := fun _ => cleaned)].
    + by intros ? l (a & _ & H).
    + intros d Hd. eexists _, _. split; [done|]. apply cleaned_filter; [|done]. unfold temporary. by rewrite Es.
  - apply andb_true_iff in Et as [_ Et]. apply (runs_bind 1 0) with (Q := fun _ => cleaned); [|intros ?; by apply runs_pure].
    eapply runs_conseq; [done|done| |apply runs_attempt, runs_call with (Q := fun _ => cleaned)].
    + by intros ? l (a & _ & H).
    + intros d Hd. eexists _, _. split; [done|]. apply cleaned_delete; [|done]. unfold temporary. rewrite Et. apply orb_true_r.
  - apply (runs_conseq 1 0 cleaned cleaned _ _ (fun _ => cleaned)); [lia|done|done|]. by apply runs_pure.
Qed.

(** The names at the top of a tree. *)
Definition entriesOf (l : gmap path entry) : list (string * bool) :=
  omap (fun '(p, e) => match p with
                       | [name] => Some (name, match e with Directory => true | _ => false end)
                       | _ => None
                       end) (map_to_list l).

Lemma runs_cleanup :
  runs (1 + length (entriesOf (live d0))) (fun l => l = live d0) cleanupCompileTemps (fun _ => cleaned).
Proof.
  apply runs_bind with (Q := fun o l => o = Some (entriesOf (live d0)) /\ cleaned l).
  - apply (runs_conseq 1 1 _ (fun l => l = live d0) _ _ (fun o l => exists es, o = Some es /\ es = entriesOf (live d0) /\ cleaned l));
      [done|done| |apply runs_attempt, runs_call with (Q := fun es l => es = entriesOf (live d0) /\ cleaned l)].
    + by intros ? l (a & -> & -> & H).
    + intros d E. exists d, (entriesOf (live d)). split; [done|]. rewrite E. split; [done|]. apply cleaned_d0.
  - intros [entries|].
    + intros d es [[= ->] Hd]. rewrite <-(Nat.mul_1_l (length _)). revert d es Hd.
      change (runs (1 * length (entriesOf (live d0))) cleaned (forEach cleanupEntry (entriesOf (live d0))) (fun _ => cleaned)).
      apply runs_each. intros e _. apply runs_cleanupEntry.
    + by intros d es [? _].
Qed.

(** *** Staging *)

(** The stage holds the assets staged so far, and the directories that lead to outputs. *)
Definition stageHolds (xs : list string) : assertion := fun l =>
  (forall p, public p -> l !! p = live d0 !! p) /\
  (forall q e, q <> [] -> l !! (stageDir :: q) = Some e ->
     exists x a, assetAt x a /\ match e with Directory => strictly q (outputPath a) | File _ _ => x ∈ xs /\ q = outputPath a end) /\
  (forall c b, l !! [stageDir] <> Some (File c b)) /\
  (forall x a, x ∈ xs -> assetAt x a -> exists c b, contentOf a = Some c /\ l !! (stageDir :: outputPath a) = Some (File c b)).

Lemma output_nonempty x a : assetAt x a -> outputPath a <> [].
Proof. intros Ha E. pose proof (pb_public _ _ PB _ _ Ha) as Hp. by rewrite E in Hp. Qed.

Lemma stage_off p q : public p -> stageDir :: q <> p.
Proof. intros Hp E. by apply (stage_public random p q). Qed.

Lemma stageHolds_free xs x a l : assetAt x a -> x ∉ xs -> stageHolds xs l -> l !! (stageDir :: outputPath a) = None.
Proof.
  intros Ha Hx (_ & H2 & _). destruct (l !! _) as [e|] eqn:E; [|done]. exfalso.
  destruct (H2 _ e (output_nonempty x a Ha) E) as (y & b & Hb & He). destruct e as [|c' b'].
  - by apply (ud_apart UD x a y b).
  - destruct He as [Hy He]. rewrite (pb_distinct _ _ PB _ _ _ _ Ha Hb He) in Hx. done.
Qed.

Lemma stageHolds_dir xs x a q :
  assetAt x a -> q ∈ prefixes [] (stageDir :: parent (outputPath a)) ->
  admits (stageHolds xs) q /\ forall l c b, stageHolds xs l -> l !! q <> Some (File c b).
Proof.
  intros Ha Hq. pose proof Hq as Hq'. apply prefixes_head in Hq' as [t ->].
  apply prefixes_prefix in Hq as (y & t' & E & [u Hu]). simpl in E. injection E as <- <-. injection Hu as Hu.
  assert (Hs : t = [] \/ strictly t (outputPath a)).
  { destruct (decide (t = [])) as [->|Hne]; [by left|right]. pose proof (output_nonempty x a Ha) as Hn.
    destruct (exists_last Hn) as (p & z & Eo). rewrite Eo in Hu |- *. unfold parent in Hu. rewrite removelast_last in Hu.
    subst p. split; [by exists (u ++ [z]); rewrite (assoc_L (++))|]. split; [done|]. intros E.
    apply (f_equal length) in E. rewrite !length_app in E. simpl in E. lia. }
  split.
  - intros l (H1 & H2 & H3 & H4) Hn. split; [|split; [|split]].
    + intros p Hp. rewrite lookup_insert_ne; [by apply H1|by apply stage_off].
    + intros q' e Hq' Hl. destruct (decide (t = q')) as [->|Hne].
      * rewrite lookup_insert_eq in Hl. injection Hl as <-. destruct Hs as [?|Hs]; [done|]. by exists x, a.
      * rewrite lookup_insert_ne in Hl by congruence. by apply H2.
    + intros c b Hl. destruct (decide (t = [])) as [->|Hne]; [by rewrite lookup_insert_eq in Hl|].
      rewrite lookup_insert_ne in Hl by congruence. by apply (H3 c b).
    + intros y b Hy Hb. destruct (H4 y b Hy Hb) as (c & b' & Hc & Hl). exists c, b'. split; [done|].
      rewrite lookup_insert_ne; [done|]. intros [= ->]. congruence.
  - intros l c b (H1 & H2 & H3 & H4) Hl. destruct (decide (t = [])) as [->|Hne]; [by apply (H3 c b)|].
    destruct (H2 t _ Hne Hl) as (y & b' & Hb & Hy & ->). destruct Hs as [?|Hs]; [done|]. by apply (ud_apart UD y b' x a).
Qed.

Lemma stageHolds_next xs x a c b l :
  assetAt x a -> contentOf a = Some c -> extended (stageHolds xs) (stageDir :: outputPath a) (File c b) l -> stageHolds (xs ++ [x]) l.
Proof.
  intros Ha Hc (m & (H1 & H2 & H3 & H4) & Hn & ->). split; [|split; [|split]].
  - intros p Hp. rewrite lookup_insert_ne; [by apply H1|by apply stage_off].
  - intros q e Hq Hl. destruct (decide (outputPath a = q)) as [<-|Hne].
    + rewrite lookup_insert_eq in Hl. injection Hl as <-. exists x, a. split; [done|]. split; [|done]. apply elem_of_app. right. left.
    + rewrite lookup_insert_ne in Hl by congruence. destruct (H2 q e Hq Hl) as (y & a' & Hy & He). exists y, a'. split; [done|].
      destruct e; [done|]. destruct He. split; [apply elem_of_app; by left|done].
  - intros c' b' Hl. rewrite lookup_insert_ne in Hl; [by apply (H3 c' b')|]. intros [= E]. by apply (output_nonempty x a).
  - intros y a' [Hy| ->%list_elem_of_singleton]%elem_of_app Ha'.
    + destruct (H4 y a' Hy Ha') as (c' & b' & Hc' & Hl). exists c', b'. split; [done|].
      rewrite lookup_insert_ne; [done|]. intros E. rewrite E in Hn. congruence.
    + assert (a' = a) as -> by by eapply assetAt_inj. exists c, b. by rewrite lookup_insert_eq.
Qed.

Definition stageCost (x : string) : nat := match bp_assets plan !! x with Some a => length (outputPath a) + 4 | None => 0 end.

Lemma runs_stageAsset xs x :
  x ∈ bp_order plan -> x ∉ xs ->
  runs (stageCost x) (stageHolds xs) (stageAsset sha256 now random plan x) (fun _ => stageHolds (xs ++ [x])).
Proof.
  intros Hx Hnx. unfold stageAsset, stageCost. apply (pb_order _ _ PB) in Hx as [a Ha]. rewrite Ha.
  pose proof (output_nonempty x a Ha) as Hn. destruct (asset_content x a Ha) as [c Hc].
  assert (E : parent (stageDir :: outputPath a) = stageDir :: parent (outputPath a)) by (by destruct (outputPath a)).
  rewrite E. apply runs_bind with (Q := fun _ => stageHolds xs).
  { eapply runs_conseq; [| | |apply (runs_mkdirAll (stageHolds xs)); intros q Hq; by apply (stageHolds_dir xs x a)]; [|done..].
    simpl. pose proof (parent_shorter _ Hn). lia. }
  intros ?. unfold contentOf in Hc. destruct (rewritten (pa_kind a)) eqn:Ek.
  - injection Hc as <-. eapply runs_conseq; [done|done| |apply runs_writeSyncedFile; intros l; by apply (stageHolds_free xs x)].
    intros ? l. apply stageHolds_next; [done|]. unfold contentOf. by rewrite Ek.
  - destruct (ud_now UD x a Ha Ek) as (c' & Hc' & Hh). assert (c' = c) as -> by congruence. unfold streamHashWrite. rewrite Hc'.
    apply (runs_bind 4 0) with (Q := fun hash l => hash = hashContent c /\ stageHolds (xs ++ [x]) l).
    + apply (runs_bind 1 3) with (Q := fun _ => extended (stageHolds xs) (stageDir :: outputPath a) (File [] false));
        [apply runs_create; intros l; by apply (stageHolds_free xs x)|]. intros ?.
      eapply (runs_bind 2 1); [apply runs_writeSynced|]. intros ?. eapply (runs_bind 1 0); [apply runs_close|]. intros ?.
      apply runs_pure. intros l Hl. split; [done|]. eapply stageHolds_next; [done| |done]. unfold contentOf. by rewrite Ek.
    + intros hash. case_bool_decide as Hd; [by intros d es [-> _]|]. apply runs_pure. by intros l [_ ?].
Qed.

Lemma runs_staging :
  runs (sum_list_with stageCost (bp_order plan)) (stageHolds []) (forEach (stageAsset sha256 now random plan) (bp_order plan))
    (fun _ => stageHolds (bp_order plan)).
Proof.
  apply runs_forEach. intros l1 x l2 E. apply runs_stageAsset; [rewrite E; apply elem_of_app; right; left|].
  pose proof Once as Hn. rewrite E in Hn. apply NoDup_app in Hn as (_ & Hn & _). intros Hi. apply (Hn x Hi). left.
Qed.

(** *** Publishing *)

Definition publishHolds (xs : list string) : assertion := fun l =>
  (forall x a, x ∉ xs -> assetAt x a -> l !! outputPath a = live d0 !! outputPath a) /\
  (forall x a q c b, assetAt x a -> strictly q (outputPath a) -> l !! q <> Some (File c b)) /\
  (forall x a, x ∈ bp_order plan -> x ∉ xs -> assetAt x a ->
     exists c b, contentOf a = Some c /\ l !! (stageDir :: outputPath a) = Some (File c b)) /\
  is_Some (l !! [stageDir; ManifestFilename]).

Lemma strictly_public x a q : assetAt x a -> strictly q (outputPath a) -> public q.
Proof. intros Ha (Hp & Hn & _). eapply public_prefix; [by apply (pb_public _ _ PB x a)|done..]. Qed.

Lemma runs_save :
  runs 7 (stageHolds (bp_order plan))
    (atomicWriteFile [stageDir] ManifestFilename (stageTmp tmpSuffix) (encodeManifest (bp_manifest plan)))
    (fun _ => publishHolds []).
Proof.
  eapply runs_conseq; [done|done| |apply (runs_atomicWriteFile (stageHolds (bp_order plan)))].
  - intros [] l (m & (H1 & H2 & H3 & H4) & ->). split; [|split; [|split]].
    + intros x a _ Ha. pose proof (pb_public _ _ PB _ _ Ha) as Hp. rewrite lookup_insert_ne; [by apply H1|by apply stage_off].
    + intros x a q c b Ha Hq. pose proof (strictly_public x a q Ha Hq) as Hp. rewrite lookup_insert_ne; [|by apply stage_off].
      rewrite H1 by done. by apply (ud_dirs UD x a).
    + intros x a Hx _ Ha. destruct (H4 x a Hx Ha) as (c & b & Hc & Hl). exists c, b. split; [done|].
      rewrite lookup_insert_ne; [done|]. intros [= E]. pose proof (pb_public _ _ PB _ _ Ha) as Hp. rewrite <-E in Hp. by destruct Hp.
    + rewrite lookup_insert_eq. by eexists.
  - intros l (_ & H2 & _). destruct (l !! _) as [e|] eqn:E; [|done]. exfalso.
    destruct (H2 [stageTmp tmpSuffix] e ltac:(done) E) as (x & a & Ha & He). apply (ud_temp UD x a Ha).
    destruct e as [|c b]; [|by destruct He as [_ <-]]. destruct He as ([u ->] & _). done.
Qed.

Lemma prefixes_strictly p q : p <> [] -> q ∈ prefixes [] (parent p) -> strictly q p.
Proof.
  intros Hn Hq. apply prefixes_prefix in Hq as (y & t & -> & Hpre). simpl. split; [|split; [done|]].
  - etrans; [done|]. destruct (exists_last Hn) as (p' & z & ->). unfold parent. rewrite removelast_last. by exists [z].
  - intros E. apply prefix_length in Hpre. pose proof (parent_shorter p Hn). rewrite E in Hpre. lia.
Qed.

Lemma strictly_output x a q : assetAt x a -> strictly q (outputPath a) -> forall y b, assetAt y b -> q <> outputPath b.
Proof. intros Ha Hq y b Hb ->. by apply (ud_apart UD y b x a). Qed.

Lemma publishHolds_dir xs x a q :
  assetAt x a -> q ∈ prefixes [] (parent (outputPath a)) ->
  admits (fun l => publishHolds xs l /\ l !! outputPath a = None) q /\
  forall l c b, publishHolds xs l /\ l !! outputPath a = None -> l !! q <> Some (File c b).
Proof.
  intros Ha Hq. apply prefixes_strictly in Hq; [|by apply (output_nonempty x)].
  pose proof (strictly_public x a q Ha Hq) as Hp. split; [|intros l c b [(_ & H2 & _) _]; by apply (H2 x a)].
  intros l [(H1 & H2 & H3 & H4) Hno] Hn.
  split; [|rewrite lookup_insert_ne; [done|by apply (strictly_output x a q Ha Hq x a)]]. split; [|split; [|split]].
  - intros y b Hy Hb. rewrite lookup_insert_ne; [by apply (H1 y b)|by apply (strictly_output x a q Ha Hq y b)].
  - intros y b q' c b' Hb Hq' Hl. destruct (decide (q = q')) as [->|Hne]; [by rewrite lookup_insert_eq in Hl|].
    rewrite lookup_insert_ne in Hl by done. by apply (H2 y b q' c b').
  - intros y b Hy Hny Hb. destruct (H3 y b Hy Hny Hb) as (c & b' & Hc & Hl). exists c, b'. split; [done|].
    rewrite lookup_insert_ne; [done|]. intros E. by apply (stage_off q (outputPath b) Hp).
  - rewrite lookup_insert_ne; [done|]. intros E. by apply (stage_off q [ManifestFilename] Hp).
Qed.

Lemma runs_rename xs x a :
  assetAt x a -> x ∈ bp_order plan -> x ∉ xs ->
  runs 1 (publishHolds xs) (rename (stageDir :: outputPath a) (outputPath a)) (fun _ => publishHolds (xs ++ [x])).
Proof.
  intros Ha Hx Hnx. pose proof (pb_public _ _ PB _ _ Ha) as Hp. apply runs_call. intros d (H1 & H2 & H3 & H4).
  destruct (H3 x a Hx Hnx Ha) as (c & b & Hc & El). rewrite El. eexists _, _. split; [done|]. simpl. split; [|split; [|split]].
  - intros y a' [Hy Hyx]%not_elem_of_app Ha'. pose proof (pb_public _ _ PB _ _ Ha') as Hp'.
    rewrite lookup_insert_ne, lookup_delete_ne; [by apply (H1 y a')|by apply stage_off|]. intros E.
    apply Hyx, list_elem_of_singleton. by apply (pb_distinct _ _ PB _ _ _ _ Ha' Ha).
  - intros y a' q c' b' Ha' Hq. pose proof (strictly_public y a' q Ha' Hq) as Hpq. rewrite lookup_insert_ne, lookup_delete_ne;
      [by apply (H2 y a')|by apply stage_off|]. intros E. by apply (strictly_output y a' q Ha' Hq x a).
  - intros y a' Hy [Hny Hyx]%not_elem_of_app Ha'. destruct (H3 y a' Hy Hny Ha') as (c' & b' & Hc' & Hl). exists c', b'.
    split; [done|]. rewrite lookup_insert_ne by (intros E; by apply (stage_off (outputPath a) (outputPath a') Hp)).
    rewrite lookup_delete_ne; [done|]. intros [= E]. apply Hyx, list_elem_of_singleton. by apply (pb_distinct _ _ PB _ _ _ _ Ha' Ha).
  - rewrite lookup_insert_ne by (intros E; by apply (stage_off (outputPath a) [ManifestFilename] Hp)).
    rewrite lookup_delete_ne; [done|]. intros [= E]. by apply (output_manifest sha256 plan PB x a).
Qed.

Definition publishCost (x : string) : nat := match bp_assets plan !! x with Some a => 2 + 2 * length (outputPath a) | None => 0 end.

Lemma publishHolds_skip xs x a l : assetAt x a -> publishHolds xs l -> publishHolds (xs ++ [x]) l.
Proof.
  intros Ha (H1 & H2 & H3 & H4). split; [|split; [done|split; [|done]]].
  - intros y b [Hy _]%not_elem_of_app. by apply H1.
  - intros y b Hy [Hny _]%not_elem_of_app. by apply H3.
Qed.

Lemma runs_publish_new xs x a :
  assetAt x a -> x ∈ bp_order plan -> x ∉ xs ->
  runs (1 + 2 * length (outputPath a)) (fun l => publishHolds xs l /\ l !! outputPath a = None)
    (do mkdirAll (parent (outputPath a));; do rename (stageDir :: outputPath a) (outputPath a);;
     syncAncestorDirectories (parent (outputPath a)))
    (fun _ => publishHolds (xs ++ [x])).
Proof.
  intros Ha Hx Hnx. pose proof (parent_shorter _ (output_nonempty x a Ha)) as Hl.
  apply (runs_conseq _ (length (parent (outputPath a)) + (1 + S (length (parent (outputPath a)))))
    (fun l => publishHolds xs l /\ l !! outputPath a = None) (fun l => publishHolds xs l /\ l !! outputPath a = None) _ _
    (fun _ => publishHolds (xs ++ [x]))); [lia|done|done|].
  eapply runs_bind; [apply runs_mkdirAll; intros q Hq; by apply (publishHolds_dir xs x a)|]. intros ?.
  eapply runs_bind; [|intros ?; apply runs_ancestors].
  apply (runs_conseq 1 1 _ (publishHolds xs) _ _ (fun _ => publishHolds (xs ++ [x])));
    [done|by intros l [? _]|done|by apply (runs_rename xs x a)].
Qed.

Lemma runs_publishAsset xs x :
  x ∈ bp_order plan -> x ∉ xs ->
  runs (publishCost x) (publishHolds xs) (publishAsset sha256 random plan x) (fun _ => publishHolds (xs ++ [x])).
Proof.
  intros Hx Hnx. unfold publishAsset, publishCost. pose proof Hx as [a Ha]%(pb_order _ _ PB). rewrite Ha.
  apply (runs_bind 1 (1 + 2 * length (outputPath a))) with (Q := fun o l => publishHolds xs l /\ l !! outputPath a = o).
  { apply runs_call. intros d Hd. by exists d, (live d !! outputPath a). }
  intros [e|]; [|by apply runs_publish_new].
  apply (runs_conseq _ (1 + 0) (fun l => publishHolds xs l /\ l !! outputPath a = Some e)
    (fun l => publishHolds xs l /\ l !! outputPath a = Some e) _ _ (fun _ => publishHolds (xs ++ [x]))); [lia|done|done|].
  apply runs_bind with (Q := fun equal l => equal = true /\ publishHolds (xs ++ [x]) l).
  - apply runs_call. intros d [HF El]. pose proof HF as (H1 & _ & H3 & _).
    destruct (H3 x a Hx Hnx Ha) as (c & b & Hc & Es). pose proof El as E0. rewrite (H1 x a Hnx Ha) in E0.
    destruct (ud_files UD x a e Ha E0) as (c' & b' & -> & Hc'). rewrite Es, El. eexists _, _. split; [done|].
    split; [|by eapply publishHolds_skip]. by rewrite !bool_decide_true by congruence.
  - intros [|]; [|by intros d es [? _]]. apply runs_pure. by intros l [_ ?].
Qed.

Lemma runs_publishManifest : runs 2 (publishHolds (bp_order plan)) (publishManifest random) (fun _ _ => True).
Proof.
  apply (runs_bind 1 1) with (Q := fun _ _ => True); [|intros ?; apply runs_mapFail, runs_syncDirectory].
  apply runs_call. intros d (_ & _ & _ & [e El]). rewrite El. by eexists _, _.
Qed.

(** The calls a compile takes at most. *)
Definition compileCost : nat :=
  1 + (1 + length (entriesOf (live d0)) +
    (1 + (sum_list_with stageCost (bp_order plan) + (7 + (sum_list_with publishCost (bp_order plan) + 2 + 0)) + 1))).

Lemma runs_publishing :
  runs (sum_list_with publishCost (bp_order plan) + 2) (publishHolds []) (publishCompileStage sha256 random plan) (fun _ _ => True).
Proof.
  eapply runs_bind; [|intros ?; apply runs_publishManifest]. apply runs_forEach. intros l1 x l2 E.
  apply runs_publishAsset; [rewrite E; apply elem_of_app; right; left|].
  pose proof Once as Hn. rewrite E in Hn. apply NoDup_app in Hn as (_ & Hn & _). intros Hi. apply (Hn x Hi). left.
Qed.

Lemma runs_mkStage : runs 1 cleaned (mkStage random) (fun _ => stageHolds []).
Proof.
  apply runs_call. intros d [H1 H2]. rewrite H2. eexists _, _. split; [done|]. simpl. split; [|split; [|split]].
  - intros p Hp. rewrite lookup_insert_ne; [by apply H1|by apply stage_off].
  - intros q e Hq Hl. rewrite lookup_insert_ne in Hl by congruence. rewrite H2 in Hl. done.
  - intros c b Hl. by rewrite lookup_insert_eq in Hl.
  - by intros x a ?%not_elem_of_nil.
Qed.

Lemma runs_compilePlan :
  runs compileCost (fun l => l = live d0) (compilePlan sha256 encodeManifest now random tmpSuffix plan) (fun mf _ => mf = bp_manifest plan).
Proof.
  eapply runs_bind; [apply runs_call with (Q := fun _ l => l = live d0); intros d Hd; by exists d, tt|]. intros ?.
  eapply runs_bind; [apply runs_cleanup|]. intros ?. eapply runs_bind; [apply runs_mkStage|]. intros ?.
  apply runs_deferred; [|intros mf; apply runs_call; intros d Hd; by eexists _, _].
  eapply runs_bind; [apply runs_staging|]. intros ?. eapply runs_bind; [apply runs_save|]. intros ?.
  eapply runs_bind; [apply runs_publishing|]. intros ?. by apply runs_pure.
Qed.
End Success.

(** ** The plans of a build *)

Section Safety.
Context (sha256 : bytes -> bytes) (TypeByExtension : string -> string).
Context (ParseImportmap : bytes -> option Importmap) (Marshal StdEncoding : string -> string).
Context (encodeManifest : Manifest -> bytes) (now : plannedAsset -> option bytes) (random tmpSuffix : string).

(** The output names are clean paths below the public directory, and the first name of each
    is neither the manifest's nor one that the cleaning up takes for a temporary. *)
Definition placed (plan : buildPlan) : Prop :=
  forall l o, Entries (bp_manifest plan) !! l = Some o -> inside o /\ public (segments o).

Lemma segments_inj p q : segments p = segments q -> p = q.
Proof. intros E. rewrite <-(concat_segments p), <-(concat_segments q). by rewrite E. Qed.

Lemma built_publishable rs im cfg plan :
  planBuild sha256 TypeByExtension ParseImportmap Marshal StdEncoding rs im cfg = Done (Ok plan) -> placed plan ->
  publishable sha256 plan.
Proof.
  intros E HP. destruct (planBuild_made _ _ _ _ _ _ _ _ _ E) as (im' & collected & sc & ordered & st & M).
  assert (HE : forall l a, bp_assets plan !! l = Some a -> Entries (bp_manifest plan) !! l = Some (pa_output a)).
  { intros l a Ha. destruct (made_asset _ _ _ _ _ _ _ _ _ M l a Ha) as (_ & En & _).
    by rewrite (made_entries _ _ _ _ _ _ _ _ _ M). }
  assert (HO : forall l a, bp_assets plan !! l = Some a -> outputPath a = segments (pa_output a)).
  { intros l a Ha. unfold outputPath. rewrite Clean_id; [done|]. by apply (HP l), HE. }
  split.
  - intros l a Ha. rewrite (HO l a Ha). apply (HP l), HE, Ha.
  - intros l l' a a' Ha Ha' Eo. rewrite (HO l a Ha), (HO l' a' Ha') in Eo. apply segments_inj in Eo.
    apply (made_output _ _ _ _ _ _ _ _ _ M l l' (pa_output a)); [by apply HE|]. rewrite Eo. by apply HE.
  - intros l a Ha. destruct (made_asset _ _ _ _ _ _ _ _ _ M l a Ha) as (_ & _ & _ & asset & _ & _ & _ & -> & Hx).
    destruct (rewritten (ca_kind asset)); [by apply Hx|by destruct Hx].
  - intros l. destruct (md_plan _ _ _ _ _ _ _ _ _ M) as (-> & -> & _).
    pose proof (proj2 (md_planned _ _ _ _ _ _ _ _ _ M)) as HL. by rewrite (ls_order _ _ _ _ _ _ HL), <-(ls_dom _ _ _ _ _ _ HL).
Qed.

Lemma built_once rs im cfg plan :
  planBuild sha256 TypeByExtension ParseImportmap Marshal StdEncoding rs im cfg = Done (Ok plan) -> NoDup (bp_order plan).
Proof.
  intros E. destruct (planBuild_made _ _ _ _ _ _ _ _ _ E) as (im' & collected & sc & ordered & st & M).
  destruct (md_plan _ _ _ _ _ _ _ _ _ M) as (_ & -> & _).
  rewrite (ls_order _ _ _ _ _ _ (proj2 (md_planned _ _ _ _ _ _ _ _ _ M))).
  pose proof (md_scanned _ _ _ _ _ _ _ _ _ M) as HS. pose proof (proj2 (md_ordered _ _ _ _ _ _ _ _ _ M)) as HO.
  apply NoDup_app. split; [apply keysOf_NoDup|]. split; [|apply (oo_nodup _ _ HO)].
  intros l (a & Ha & Hp)%keysOf_spec Hl%(nodes_keys _ _ _ HS HO). apply keysOf_spec in Hl as (a' & Ha' & Hp').
  simplify_eq. by rewrite Hp' in Hp.
Qed.

(** C15: a compile can be stopped anywhere, under two conditions. The outputs of the plan
    are [placed]: paths inside the public directory that do not begin with the manifest's
    name or a name like a temporary's. The public directory is [quiescent] to begin with:
    every entry it shows, the manifest's included, is on the disk with its content synced
    and its directories, which a compile that failed in a sync does not leave
    ([unsynced_asset_is_lost]). Then for any sequence of system calls that succeed, fail or
    end in a crash, with the disk written back in any order: every entry published before
    stays, unless its path begins with a name like a temporary's
    ([asset_like_a_temporary_is_removed]); the manifest, as shown and as a restart finds it,
    is the previous one or the new one, and with the new one every output it names is
    there, complete and under the hash it is served with; a compile that returns has its
    manifest on the disk; and one that fails has left the previous manifest, unless the
    error says that the commit is indeterminate. *)
Theorem compile_is_crash_safe rs im cfg plan d0 es ws :
  planBuild sha256 TypeByExtension ParseImportmap Marshal StdEncoding rs im cfg = Done (Ok plan) -> placed plan -> quiescent d0 ->
  let '(d, _, r) :=
    Compile sha256 TypeByExtension ParseImportmap Marshal StdEncoding encodeManifest now random tmpSuffix rs im cfg d0 es in
  recoverable sha256 encodeManifest plan d0 d r ws.
Proof.
  intros E HP HQ. unfold Compile. rewrite E. apply compilePlan_recoverable; [|done]. by eapply built_publishable.
Qed.

(** C16: an undisturbed compile succeeds. Where the sources still have the planned hashes,
    what is at an output has its content, no file is in the place of a directory and the
    names of temporaries are free, a compile whose calls do not fail returns the manifest
    of the plan, after a number of calls that the plan and the directory bound. *)
Theorem compile_succeeds rs im cfg plan d0 es :
  planBuild sha256 TypeByExtension ParseImportmap Marshal StdEncoding rs im cfg = Done (Ok plan) -> placed plan ->
  undisturbed sha256 now random tmpSuffix plan d0 -> quiet es -> compileCost plan d0 <= length es ->
  exists d es',
    Compile sha256 TypeByExtension ParseImportmap Marshal StdEncoding encodeManifest now random tmpSuffix rs im cfg d0 es =
      (d, es', Val (bp_manifest plan)).
Proof.
  intros E HP HU Hq Hn. unfold Compile. rewrite E.
  destruct (runs_compilePlan sha256 encodeManifest now random tmpSuffix plan (built_publishable _ _ _ _ E HP) d0 HU
    (built_once _ _ _ _ E) d0 es eq_refl Hq Hn) as (d & es' & mf & -> & -> & _). by exists d, es'.
Qed.
End Safety.

(** ** Examples *)

Definition encodeEntries (m : Manifest) : bytes :=
  concat (map (fun '(k, v) => raw (k +:+ ":" +:+ v +:+ ";")) (map_to_list (Entries m))).

Definition onDisk (a : plannedAsset) : option bytes := match rootFile (pa_root a) (pa_subPath a) with Some c => c | None => None end.

Definition calm (n : nat) : list event := replicate n (mkEvent [] None).
Definition fails : list event := [mkEvent [] (Some 0)].

Definition compileSite (rs : list Root) : M Manifest :=
  Compile checksum noTypes noImportmap asIs asIs encodeEntries onDisk "1" "2" rs (Some ∅) config.

Definition emptyDisk : disk := mkDisk ∅ ∅.

(** An earlier compile has left a file and its manifest. *)
Definition earlier : gmap path entry := {[ ["old-1.css"] := File [] true; manifestPath := File (raw "{}") true ]}.
Definition usedDisk : disk := mkDisk earlier earlier.

Lemma earlier_lookup p e : earlier !! p = Some e -> (p = ["old-1.css"] /\ e = File [] true) \/ (p = manifestPath /\ e = File (raw "{}") true).
Proof. unfold earlier. rewrite lookup_insert_Some, lookup_singleton_Some. intros [[<- <-]|(_ & <- & <-)]; [by left|by right]. Qed.

Lemma usedDisk_quiescent : quiescent usedDisk.
Proof.
  split; [done| |].
  - intros p c b _ [[_ E]|[_ E]]%earlier_lookup; by injection E.
  - intros p q Hp [e [[-> _]|[-> _]]%earlier_lookup] Hq Hn; [|by destruct Hp].
    destruct Hq as [u Hu]. destruct q as [|x q]; [done|]. injection Hu as <- Hu. symmetry in Hu. apply app_nil in Hu as [-> ->].
    by eexists.
Qed.

(** The outputs of the site are names at the top, and its sources have their hashes. *)
Definition orderly (plan : buildPlan) : bool :=
  forallb (fun '(_, o) => bool_decide (o <> EmptyString /\ Forall proper (segments o)) &&
    match segments o with [x] => negb (temporary x) && negb (bool_decide (x = ManifestFilename)) | _ => false end)
    (map_to_list (Entries (bp_manifest plan))) &&
  forallb (fun '(_, a) => bool_decide (length (outputPath a) = 1) && bool_decide (head (outputPath a) <> Some (stageTmp "2")) &&
    (rewritten (pa_kind a) || match onDisk a with Some c => bool_decide (hashContent checksum c = pa_outputHash a) | None => false end))
    (map_to_list (bp_assets plan)) &&
  (compileCost plan emptyDisk <=? 200).

Lemma orderly_placed plan : orderly plan = true -> placed plan.
Proof.
  unfold orderly. rewrite !andb_true_iff, !forallb_forall. intros [[H _] _] l o Ho%elem_of_map_to_list%list_elem_of_In%H.
  cbn in Ho. apply andb_true_iff in Ho as [Hi%bool_decide_eq_true Hs]. split; [exact Hi|].
  destruct (segments o) as [|x [|? ?]]; [done| |done]. apply andb_true_iff in Hs as [Ht%negb_true_iff Hm%negb_true_iff].
  split; [done|]. by apply bool_decide_eq_false in Hm.
Qed.

Lemma orderly_undisturbed plan : orderly plan = true -> undisturbed checksum onDisk "1" "2" plan emptyDisk.
Proof.
  unfold orderly. rewrite !andb_true_iff, !forallb_forall. intros [[_ H] _].
  assert (HA : forall x a, assetAt plan x a -> length (outputPath a) = 1 /\ head (outputPath a) <> Some (stageTmp "2") /\
    (rewritten (pa_kind a) = false -> exists c, onDisk a = Some c /\ hashContent checksum c = pa_outputHash a)).
  { intros x a Ha%elem_of_map_to_list%list_elem_of_In%H. cbn in Ha.
    apply andb_true_iff in Ha as [[H1%bool_decide_eq_true H2%bool_decide_eq_true]%andb_true_iff H3]. split; [done|]. split; [done|].
    intros Hr. rewrite Hr in H3. destruct (onDisk a) as [c|]; [|done]. exists c. split; [done|]. by apply bool_decide_eq_true in H3. }
  split.
  - intros x a Ha. by apply (HA x a).
  - intros x a e _ He. done.
  - intros x a q c b _ _ He. done.
  - intros x a y b Ha Hb ([u Hu] & Hne & Hq). destruct (HA x a Ha) as [E1 _], (HA y b Hb) as [E2 _].
    pose proof (f_equal length Hu) as E. rewrite length_app, E1, E2 in E. destruct u; [|simpl in E; lia].
    rewrite app_nil_r in Hu. congruence.
  - done.
  - intros x a Ha. by apply (HA x a).
Qed.

Lemma orderly_site : exists plan, planSite = Done (Ok plan) /\ orderly plan = true.
Proof.
  assert (S : match planSite with Done (Ok plan) => orderly plan | _ => false end = true) by (vm_compute; reflexivity).
  destruct planSite as [[plan|]| |]; [by exists plan|done..].
Defined.

Lemma compile_is_crash_safe_witness :
  exists plan, planSite = Done (Ok plan) /\ placed plan /\ quiescent usedDisk /\
    let '(d, _, r) := compileSite site usedDisk (calm 30 ++ fails) in recoverable checksum encodeEntries plan usedDisk d r [[]].
Proof.
  destruct orderly_site as (plan & E & HO). exists plan. split; [exact E|]. split; [by apply orderly_placed|].
  split; [exact usedDisk_quiescent|]. unfold planSite in E.
  exact (compile_is_crash_safe checksum noTypes noImportmap asIs asIs encodeEntries onDisk "1" "2" site (Some ∅) config plan
    usedDisk (calm 30 ++ fails) [[]] E (orderly_placed plan HO) usedDisk_quiescent).
Defined.

Lemma compile_succeeds_witness :
  exists plan, planSite = Done (Ok plan) /\ quiet (calm 200) /\
    exists d es', compileSite site emptyDisk (calm 200) = (d, es', Val (bp_manifest plan)).
Proof.
  destruct orderly_site as (plan & E & HO). exists plan. split; [exact E|].
  assert (HQ : quiet (calm 200)) by (unfold quiet, calm; by apply Forall_replicate). split; [exact HQ|].
  assert (HC : compileCost plan emptyDisk <= length (calm 200)).
  { unfold orderly in HO. apply andb_true_iff in HO as [_ HC%Nat.leb_le]. exact HC. }
  unfold planSite in E.
  exact (compile_succeeds checksum noTypes noImportmap asIs asIs encodeEntries onDisk "1" "2" site (Some ∅) config plan
    emptyDisk (calm 200) E (orderly_placed plan HO) (orderly_undisturbed plan HO) HQ HC).
Defined.

(** ** What the theorem does not promise *)

Definition result_of (r : disk * list event * res ioError Manifest) : res ioError unit :=
  match r.2 with Val _ => Val tt | Fail e => Fail e | Crashed => Crashed end.

Definition imageSite : list Root := [mkRoot (Some (mkFs [("img/x.png", Some (raw "PNG"))] false)) EmptyString EmptyString].
Definition image : path := ["img"; hashedName "x.png" (hashContent checksum (raw "PNG"))].

(** A first compile shows the file and fails to sync its directory; a second finds the
    file and goes on. Its manifest survives a crash, the file does not. *)
Example unsynced_asset_is_lost :
  let r1 := compileSite imageSite emptyDisk (calm 19 ++ fails ++ calm 50) in
  let r2 := compileSite imageSite r1.1.1 (calm 100) in
  (result_of r1, result_of r2) = (Fail IOFault, Val tt) /\ is_Some (live r2.1.1 !! image) /\
  is_Some (durable r2.1.1 !! manifestPath) /\ durable r2.1.1 !! image = None.
Proof. vm_compute. split; [reflexivity|]. split; [by eexists|]. split; [by eexists|reflexivity]. Qed.

Definition tempSite : list Root := [mkRoot (Some (mkFs [(".assets-tmp-x.tmp", Some (raw "PNG"))] false)) EmptyString EmptyString].
Definition tempOutput : path := [hashedName ".assets-tmp-x.tmp" (hashContent checksum (raw "PNG"))].

(** An asset with the name of a temporary is published; the next compile removes it, and
    when it then fails the manifest in place names a file that is gone. *)
Example asset_like_a_temporary_is_removed :
  let r1 := compileSite tempSite emptyDisk (calm 100) in
  let r2 := compileSite tempSite r1.1.1 (calm 3 ++ fails ++ calm 50) in
  (result_of r1, result_of r2) = (Val tt, Fail IOFault) /\ is_Some (live r1.1.1 !! tempOutput) /\
  is_Some (live r2.1.1 !! manifestPath) /\ live r2.1.1 !! tempOutput = None.
Proof. vm_compute. split; [reflexivity|]. split; [by eexists|]. split; [by eexists|reflexivity]. Qed.
