(* ===== verification/GenFiles.v ===== *)
(** The generated files of a package, fabrik/internal/genfiles/genfiles.go: a set of files
    written as one transaction, with a manifest of what is owned and a journal that an
    interrupted run leaves for the next.

    The state is the directory, a map from names to what is there, and the number of
    temporary names drawn so far: [os.CreateTemp] is taken to draw from a sequence without
    repetitions. An event says whether a call that reads fails and whether one that
    changes the directory does; the process may be stopped between any two calls. *)

From S2P Require Import Prelude.
From S2P Require Import Order.
From S2P Require Import Strconv.
From S2P Require Import Strings.
From S2P Require Import AssetStore.
From S2P Require Import Faults.

Local Open Scope go_scope.

(** ** The directory *)

(** [Linked]: what reading through the link gives. *)
Inductive node := Regular (content : string) | Linked (content : option string) | Dir.

Record directory := mkDirectory { names : gmap string node; drawn : nat }.

Definition onNames (f : gmap string node -> gmap string node) (d : directory) : directory := mkDirectory (f (names d)) (drawn d).

Inductive genError :=
| IOFault
| NotExist
| FileExists
| IsDirectory
| NotPlain
| BadRecord (base : string)
| JournalMissing
| Stale (name : string).

(** [fault]: a failing write leaves some bytes. *)
Record event := mkEvent { readFault : bool; fault : option nat }.

Abbreviation M := (Faults.M directory event genError).

Definition look {A} (f : directory -> result genError A) : M A :=
  sys (fun ev d => (d, if readFault ev then Err IOFault else f d)).

Definition change {A} (f : directory -> directory * result genError A) : M A :=
  sys (fun ev d => match fault ev with Some _ => (d, Err IOFault) | None => f d end).

Definition reads (o : option node) : option string :=
  match o with Some (Regular c) => Some c | Some (Linked c) => c | _ => None end.

Definition readFile (p : string) : M string := look (fun d =>
  match names d !! p with
  | Some Dir => Err IsDirectory
  | o => match reads o with Some c => Ok c | None => Err NotExist end
  end).

Definition lstat (p : string) : M node := look (fun d => match names d !! p with Some n => Ok n | None => Err NotExist end).

Definition rename (src dst : string) : M unit := change (fun d =>
  match names d !! src, names d !! dst with
  | None, _ => (d, Err NotExist)
  | Some _, Some Dir => (d, Err IsDirectory)
  | Some n, _ => (onNames (fun m => <[dst := n]> (delete src m)) d, Ok tt)
  end).

(** A directory is taken to hold something. *)
Definition remove (p : string) : M unit := change (fun d =>
  match names d !! p with
  | None => (d, Err NotExist)
  | Some Dir => (d, Err IsDirectory)
  | Some _ => (onNames (delete p) d, Ok tt)
  end).

Definition writeTo (p data : string) : M unit := sys (fun ev d =>
  match fault ev with
  | None => (onNames (<[p := Regular data]>) d, Ok tt)
  | Some n => (onNames (<[p := Regular (String.substring 0 n data)]>) d, Err IOFault)
  end).

(** [File.Chmod], [File.Sync], [File.Close] *)
Definition settle : M unit := change (fun d => (d, Ok tt)).

Definition syncDir : M unit := change (fun d => (d, Ok tt)).

(** An error that the file does not exist is none. *)
Definition ignoreNotExist {A} (m : M A) (none : A) : M A :=
  let* r := try m in
  match r with
  | Ok a => pure a
  | Err NotExist => pure none
  | Err e => raise e
  end.

(** ** Names *)

Definition ManifestName : string := "fabrik.manifest.json".
Definition journalName : string := "fabrik.manifest.journal.json".

(** [filepath.Base] *)
Definition Base (p : string) : string :=
  if bool_decide (p = EmptyString) then "."
  else match last (filter (fun s => s <> EmptyString) (segments p)) with Some s => s | None => "/" end.

Definition plainName (n : string) : bool :=
  negb (bool_decide (n = EmptyString) || bool_decide (n <> Base n) || bool_decide (n = ".") || bool_decide (n = "..")).

Definition validSums {V} (files : gmap string V) : bool := forallb (fun '(name, _) => plainName name) (map_to_list files).

Definition validNames (files : gmap string string) : bool :=
  forallb (fun '(name, v) => plainName name && plainName v) (map_to_list files).

Definition validTempName (name : string) : bool :=
  bool_decide (name = Base name) && HasPrefix name ".fabrik-" && HasSuffix name ".tmp".

Definition sortedNames {V} (m : gmap string V) : list string := sort_by cmp_string (map_to_list m).*1.

Record manifest := mkManifest {
  Version : Z;
  Files : gmap string string;
  Temps : gmap string string;
  Prune : gmap string string
}.

Section GenFiles.
(** The digest; the JSON of a manifest and back; the names [os.CreateTemp] draws. *)
Context (sha256 : string -> list Ascii.ascii).
Context (Marshal : manifest -> string) (Unmarshal : string -> option manifest) (random : nat -> string).

Definition hashOf (data : string) : string := hexEncode (sha256 data).

(** ** Records *)

Definition encoded (m : manifest) : string := Marshal m +:+ String "010" EmptyString.

Definition readRecord (base : string) (valid : manifest -> bool) : M (option manifest) :=
  let* data := ignoreNotExist (let* c := readFile base in pure (Some c)) None in
  match data with
  | None => pure None
  | Some data =>
      match Unmarshal data with
      | Some m => if valid m then pure (Some m) else raise (BadRecord base)
      | None => raise (BadRecord base)
      end
  end.

Definition validManifest (m : manifest) : bool := validSums (Files m).
Definition validJournal (j : manifest) : bool := validSums (Files j) && validNames (Temps j) && validSums (Prune j).

Definition readManifest : M (option manifest) := readRecord ManifestName validManifest.
Definition readJournal : M (option manifest) := readRecord journalName validJournal.

Definition newManifest (files : gmap string string) : manifest := mkManifest 1 (hashOf <$> files) ∅ ∅.

(** ** Staging *)

Definition temp (k : nat) : string := ".fabrik-" +:+ random k +:+ ".tmp".

Definition createTemp : M string := change (fun d =>
  let name := temp (drawn d) in
  match names d !! name with
  | None => (mkDirectory (<[name := Regular EmptyString]> (names d)) (S (drawn d)), Ok name)
  | Some _ => (d, Err FileExists)
  end).

Definition writeExclusive (data : string) : M string :=
  let* name := createTemp in
  do onFail (do settle;; do writeTo name data;; settle) settle;;
  do settle;;
  pure name.

Definition publish (base data : string) : M unit :=
  let* tmp := writeExclusive data in
  do rename tmp base;;
  syncDir.

Fixpoint stageTemps (files : gmap string string) (ns : list string) (temps : gmap string string) : M (gmap string string) :=
  match ns with
  | [] => pure temps
  | name :: ns =>
      let* tmp := writeExclusive (default EmptyString (files !! name)) in
      stageTemps files ns (<[name := tmp]> temps)
  end.

Definition stagePrune (files prune : gmap string string) (withManifest : bool) : M unit :=
  let* temps := stageTemps files (sortedNames files) ∅ in
  let version := if withManifest then 1%Z else (-1)%Z in
  publish journalName (encoded (mkManifest version (Files (newManifest files)) temps prune)).

(** ** Committing *)

(** A missing temporary is in order only where the file has the content already. *)
Definition checkInstalled (name sum : string) : M unit :=
  let* r := try (readFile name) in
  match r with
  | Ok data => if bool_decide (hashOf data = sum) then pure tt else raise (Stale name)
  | Err _ => raise (Stale name)
  end.

Definition install (j : manifest) (name : string) : M unit :=
  let sum := default EmptyString (Files j !! name) in
  match Temps j !! name with
  | Some tmp =>
      if validTempName tmp then
        let* info := try (lstat tmp) in
        match info with
        | Ok (Regular _) =>
            let* data := readFile tmp in
            if bool_decide (hashOf data <> sum) then raise (Stale name) else rename tmp name
        | _ => checkInstalled name sum
        end
      else checkInstalled name sum
  | None => checkInstalled name sum
  end.

(** [pruned] and [kept] so far. *)
Fixpoint pruneAll (j : manifest) (ns pruned kept : list string) : M (list string * list string) :=
  match ns with
  | [] => pure (pruned, kept)
  | name :: ns =>
      let* data := ignoreNotExist (let* c := readFile name in pure (Some c)) None in
      match data with
      | None => pruneAll j ns pruned kept
      | Some data =>
          if bool_decide (hashOf data <> default EmptyString (Prune j !! name)) then pruneAll j ns pruned (kept ++ [name])
          else do remove name;; pruneAll j ns (pruned ++ [name]) kept
      end
  end.

Definition recordManifest (j : manifest) : M unit :=
  if (0 <? Version j)%Z then publish ManifestName (encoded (mkManifest 1 (Files j) ∅ ∅))
  else ignoreNotExist (remove ManifestName) tt.

Definition commit (j : manifest) : M (list string * list string) :=
  do forEach (install j) (sortedNames (Files j));;
  let* report := pruneAll j (sortedNames (Prune j)) [] [] in
  do recordManifest j;;
  do syncDir;;
  do remove journalName;;
  do syncDir;;
  pure report.

Definition abandon (j : manifest) : M unit :=
  do forEach (fun '(_, tmp) => if validTempName tmp then ignoreNotExist (remove tmp) tt else pure tt) (map_to_list (Temps j));;
  do ignoreNotExist (remove journalName) tt;;
  syncDir.

Definition RollForward : M (list string) :=
  let* j := readJournal in
  match j with
  | None => pure []
  | Some j =>
      let* r := try (commit j) in
      match r with
      | Ok (_, kept) => pure kept
      | Err (Stale _) => do abandon j;; pure []
      | Err e => raise e
      end
  end.

(** The names written, pruned and kept. *)
Definition WriteSet (files : gmap string string) (withManifest : bool) : M (list string * list string * list string) :=
  if validSums (Files (newManifest files)) then
    let* rkept := RollForward in
    let* prev := readManifest in
    let owned := match prev with Some m => Files m | None => ∅ end in
    let prune := filter (fun '(name, _) => files !! name = None) owned in
    do stagePrune files prune withManifest;;
    let* j := readJournal in
    match j with
    | None => raise JournalMissing
    | Some j =>
        let* report := commit j in
        pure (sortedNames files, report.1, rkept ++ report.2)
    end
  else raise NotPlain.

(** ** Checking *)

Inductive problem :=
| Pending
| Missing (name : string)
| Outdated (name : string)
| Unneeded (name : string)
| ManifestMissing
| ManifestStale
| ManifestUnneeded.

Fixpoint checkFiles (files : gmap string string) (ns : list string) (problems : list problem) : M (list problem) :=
  match ns with
  | [] => pure problems
  | name :: ns =>
      let* disk := ignoreNotExist (let* c := readFile name in pure (Some c)) None in
      let found := match disk with
                   | None => [Missing name]
                   | Some disk => if bool_decide (hashOf disk <> hashOf (default EmptyString (files !! name))) then [Outdated name] else []
                   end in
      checkFiles files ns (problems ++ found)
  end.

Fixpoint checkOwned (files owned : gmap string string) (ns : list string) (problems : list problem) (kept : list string) :
    M (list problem * list string) :=
  match ns with
  | [] => pure (problems, kept)
  | name :: ns =>
      match files !! name with
      | Some _ => checkOwned files owned ns problems kept
      | None =>
          let* disk := ignoreNotExist (let* c := readFile name in pure (Some c)) None in
          match disk with
          | Some disk =>
              if bool_decide (hashOf disk <> default EmptyString (owned !! name)) then checkOwned files owned ns problems (kept ++ [name])
              else checkOwned files owned ns (problems ++ [Unneeded name]) kept
          | None => checkOwned files owned ns (problems ++ [Unneeded name]) kept
          end
      end
  end.

Definition Check_ (files : gmap string string) (withManifest : bool) : M (list problem * list string) :=
  let* j := readJournal in
  let pending := match j with Some _ => [Pending] | None => [] end in
  let* problems := checkFiles files (sortedNames files) pending in
  let* prev := readManifest in
  let* report := match prev with
                 | Some m => checkOwned files (Files m) (sortedNames (Files m)) problems []
                 | None => pure (problems, [])
                 end in
  let about :=
    match withManifest, prev with
    | true, None => [ManifestMissing]
    | true, Some m =>
        let want := Files (newManifest files) in
        if forallb (fun name => bool_decide (default EmptyString (Files m !! name) = default EmptyString (want !! name))) (sortedNames want)
        then [] else [ManifestStale]
    | false, Some _ => [ManifestUnneeded]
    | false, None => []
    end in
  pure (report.1 ++ about, report.2).

(** An unreadable record counts as none. *)
Definition Owned : M (list string) :=
  let* m := attempt readManifest in
  let* j := attempt readJournal in
  let ofManifest := match m with Some (Some m) => (map_to_list (Files m)).*1 | _ => [] end in
  let ofJournal := match j with Some (Some j) => (map_to_list (Files j)).*1 ++ (map_to_list (Prune j)).*1 | _ => [] end in
  pure (sort_by cmp_string (remove_dups (ofManifest ++ ofJournal))).
End GenFiles.
