(* ===== verification/GenFilesSpec.v ===== *)
(** What a write of generated files guarantees: stopped at any call and with any call
    failing, it leaves the old files, the new ones, or a journal from which the next run
    finishes, however often that is stopped itself; and what was written passes the
    check. *)

From S2P Require Import Prelude.
From S2P Require Import Order.
From S2P Require Import Strconv.
From S2P Require Import Strings.
From S2P Require Import AssetPath.
From S2P Require Import AssetStore.
From S2P Require Import Faults.
From S2P Require Import GenFiles.

Local Open Scope go_scope.

(** ** A write from a directory without a journal *)

Definition ascii_text (s : string) : bool := string_forall (fun c => (Ascii.N_of_ascii c <? 128)%N) s.

Definition textual (m : manifest) : Prop :=
  forall f n v, f ∈ [Files m; Temps m; Prune m] -> f !! n = Some v -> ascii_text n = true /\ ascii_text v = true.

Section Write.
Context (sha256 : string -> list Ascii.ascii).
Context (Marshal : manifest -> string) (Unmarshal : string -> option manifest) (random : nat -> string).
Notation hashOf := (hashOf sha256).
Notation encoded := (encoded Marshal).
Notation temp := (temp random).

(** JSON keeps what it encodes as long as it is ASCII; the names drawn are without
    separators and do not repeat. *)
Context (Hjson : forall m, textual m -> Unmarshal (encoded m) = Some m).
Context (Hinj : forall k k', temp k = temp k' -> k = k') (Hplain : forall k, validTempName (temp k) = true /\ ascii_text (temp k) = true).

Context (files : gmap string string) (withManifest : bool) (d0 : gmap string node).

(** A name of the project's own, not one of the transaction's. *)
Definition ordinary (n : string) : Prop := forall k, n <> temp k.
Definition owned (n : string) : Prop :=
  plainName n = true /\ ascii_text n = true /\ n <> ManifestName /\ n <> journalName /\ ordinary n.

(** The files the previous manifest names, with their digests. *)
Definition previous : gmap string string :=
  match reads (d0 !! ManifestName) with
  | Some data => match Unmarshal data with Some m => Files m | None => ∅ end
  | None => ∅
  end.

(** There is no journal, the records can be read, no directory is in the way. *)
Record writable : Prop := {
  wr_files : forall n c, files !! n = Some c -> owned n;
  wr_previous : forall n sum, previous !! n = Some sum -> owned n /\ ascii_text sum = true;
  wr_manifest : forall data, reads (d0 !! ManifestName) = Some data -> is_Some (Unmarshal data);
  wr_directories : forall n, is_Some (files !! n) \/ is_Some (previous !! n) \/ n = ManifestName -> d0 !! n <> Some Dir;
  wr_journal : d0 !! journalName = None
}.
Context (W : writable).

Definition prune : gmap string string := filter (fun '(name, _) => files !! name = None) previous.

(** The file still has the content the previous manifest recorded. *)
Definition undrifted (n : string) : bool :=
  match reads (d0 !! n), prune !! n with Some data, Some sum => bool_decide (hashOf data = sum) | _, _ => false end.
Definition drifted (n : string) : bool :=
  match reads (d0 !! n), prune !! n with Some data, Some sum => negb (bool_decide (hashOf data = sum)) | _, _ => false end.

Definition newSums : gmap string string := hashOf <$> files.

(** What is under a name other than of a new file when the write is over. *)
Definition expected (n : string) : option node :=
  if bool_decide (n = ManifestName) then
    if withManifest then Some (Regular (encoded (mkManifest 1 newSums ∅ ∅))) else None
  else if undrifted n then None else d0 !! n.

(** A new file, or one that had the digest of the new content. *)
Definition written (d : directory) (n c : string) : Prop :=
  names d !! n = Some (Regular c) \/
  (names d !! n = d0 !! n /\ exists data, reads (d0 !! n) = Some data /\ hashOf data = hashOf c).

(** Names not drawn yet are free. *)
Definition numbered (d : directory) : Prop := forall k, drawn d <= k -> names d !! temp k = None.

Definition untouched (d : directory) : Prop := forall n, ordinary n -> names d !! n = d0 !! n.
Definition updated (d : directory) : Prop :=
  (forall n c, files !! n = Some c -> written d n c) /\
  (forall n, ordinary n -> files !! n = None -> names d !! n = expected n).

Definition idle (d : directory) : Prop := numbered d /\ untouched d.
Definition finished (d : directory) : Prop := numbered d /\ updated d.

Definition drawnName (d : directory) (t : string) : Prop := exists k, t = temp k /\ k < drawn d.

(** Some temporaries are staged under their names. *)
Record staging (temps : gmap string string) (d : directory) : Prop := {
  sg_idle : idle d;
  sg_staged : forall n t, temps !! n = Some t -> drawnName d t /\ names d !! t = Regular <$> files !! n /\ is_Some (files !! n);
  sg_distinct : forall n n' t, temps !! n = Some t -> temps !! n' = Some t -> n = n'
}.

Definition journal (temps : gmap string string) : manifest :=
  mkManifest (if withManifest then 1 else -1) newSums temps prune.

(** The journal is there: what it lists is staged or in place. [ins], [prs] and [mf]:
    what is in place for certain. *)
Record pending (temps : gmap string string) (ins prs : list string) (mf : bool) (d : directory) : Prop := {
  pe_numbered : numbered d;
  pe_journal : names d !! journalName = Some (Regular (encoded (journal temps)));
  pe_temps : forall n, is_Some (temps !! n) <-> is_Some (files !! n);
  pe_drawn : forall n t, temps !! n = Some t -> drawnName d t;
  pe_distinct : forall n n' t, temps !! n = Some t -> temps !! n' = Some t -> n = n';
  pe_file : forall n c t, files !! n = Some c -> temps !! n = Some t ->
    (names d !! t = Some (Regular c) /\ names d !! n = d0 !! n /\ (n ∈ ins -> written d n c)) \/
    (names d !! t = None /\ names d !! n = Some (Regular c));
  pe_prune : forall n, is_Some (prune !! n) -> (n ∉ prs /\ names d !! n = d0 !! n) \/ names d !! n = expected n;
  pe_manifest : (mf = false /\ names d !! ManifestName = d0 !! ManifestName) \/ names d !! ManifestName = expected ManifestName;
  pe_rest : forall n, ordinary n -> files !! n = None -> prune !! n = None -> n <> ManifestName -> n <> journalName ->
    names d !! n = d0 !! n
}.

Definition consistent (d : directory) : Prop := idle d \/ (exists temps, pending temps [] [] false d) \/ finished d.

(** *** Facts *)

Lemma ordinary_manifest : ordinary ManifestName.
Proof. intros k E. unfold GenFiles.temp in E. discriminate E. Qed.

Lemma ordinary_journal : ordinary journalName.
Proof. intros k E. unfold GenFiles.temp in E. discriminate E. Qed.

Lemma prune_previous n sum : prune !! n = Some sum <-> previous !! n = Some sum /\ files !! n = None.
Proof. unfold prune. by rewrite map_lookup_filter_Some. Qed.

Lemma prune_owned n sum : prune !! n = Some sum -> owned n.
Proof. intros [H _]%prune_previous. by destruct (wr_previous W n sum H). Qed.

Lemma owned_ordinary n : owned n -> ordinary n.
Proof. by intros (_ & _ & _ & _ & H). Qed.

Lemma previous_expected n : prune !! n = None -> n <> ManifestName -> expected n = d0 !! n.
Proof.
  intros Hn Hm. unfold expected, undrifted. rewrite Hn, bool_decide_false by done. by destruct (reads (d0 !! n)).
Qed.

Lemma expected_journal : expected journalName = None.
Proof.
  rewrite previous_expected; [apply (wr_journal W)| |done]. destruct (prune !! journalName) eqn:E; [|done].
  apply prune_owned in E as (_ & _ & _ & ? & _). done.
Qed.

(** Only temporary names differ, and [t] at most among those drawn. *)
Record privately (t : string) (d d' : directory) : Prop := {
  pv_drawn : drawn d <= drawn d';
  pv_temp : exists k, t = temp k /\ k < drawn d';
  pv_same : forall n, n <> t -> names d' !! n = names d !! n
}.

Lemma privately_numbered t d d' : privately t d d' -> numbered d -> numbered d'.
Proof.
  intros [H1 (k & -> & Hk) H3] H k' Hk'. rewrite H3; [apply H; lia|]. intros E%Hinj. lia.
Qed.

Lemma privately_ordinary t d d' n : privately t d d' -> ordinary n -> names d' !! n = names d !! n.
Proof. intros [_ (k & -> & _) H] Hn. apply H. apply Hn. Qed.

(** A condition that other temporaries do not concern; [T]: those it does. *)
Record inert (T : directory -> string -> Prop) (P : directory -> Prop) : Prop := {
  in_numbered : forall d, P d -> numbered d;
  in_consistent : forall d, P d -> consistent d;
  in_drawn : forall d t, P d -> T d t -> drawnName d t;
  in_private : forall d d' t, P d -> privately t d d' -> ~ T d t -> P d' /\ forall t', T d' t' -> T d t'
}.

Definition untracked : directory -> string -> Prop := fun _ _ => False.

Lemma idle_inert : inert untracked idle.
Proof.
  split; [by intros d []|by left|done|]. intros d d' t [H1 H2] Hp _. split; [|done]. split; [by eapply privately_numbered|].
  intros n Hn. rewrite (privately_ordinary t d d' n) by done. by apply H2.
Qed.

Definition tracked (temps : gmap string string) : directory -> string -> Prop := fun _ t => exists n, temps !! n = Some t.

Lemma drawnName_mono d d' t : drawn d <= drawn d' -> drawnName d t -> drawnName d' t.
Proof. intros Hd (k & -> & Hk). exists k. split; [done|lia]. Qed.

Lemma staging_inert temps : inert (tracked temps) (staging temps).
Proof.
  split; [by intros d [[] _ _]|by intros d []; left|intros d t [_ H _] [n Hn]; by apply (H n)|].
  intros d d' t [H1 H2 H3] Hp Ht. split; [|done]. split; [|  |done].
  - by destruct (in_private _ _ idle_inert d d' t H1 Hp (fun H => H)).
  - intros n t' Hn. destruct (H2 n t' Hn) as (H4 & H5 & H6).
    split; [eapply drawnName_mono, H4; apply Hp|]. split; [|done].
    rewrite (pv_same _ _ _ Hp); [done|]. intros ->. apply Ht. by exists n.
Qed.

Lemma written_same d d' n c : names d' !! n = names d !! n -> written d n c -> written d' n c.
Proof. intros E. unfold written. by rewrite E. Qed.

Lemma pending_inert temps ins prs mf : inert (tracked temps) (pending temps ins prs mf).
Proof.
  split; [by intros d []| |intros d t [] [n Hn]; eauto|].
  - intros d [H1 H2 H3 H4 H5 H6 H7 H8 H9]. right. left. exists temps. split; try done.
    + intros n c t Hc Ht. destruct (H6 n c t Hc Ht) as [(?&?&?)|?]; [left|by right]. split; [done|]. split; [done|]. by intros ?%not_elem_of_nil.
    + intros n Hn. destruct (H7 n Hn) as [[_ ?]|?]; [left; split; [apply not_elem_of_nil|done]|by right].
    + destruct H8 as [[_ ?]|?]; [by left|by right].
  - intros d d' t [H1 H2 H3 H4 H5 H6 H7 H8 H9] Hp Ht. split; [|done].
    assert (HO : forall n, ordinary n -> names d' !! n = names d !! n) by (intros n; by apply privately_ordinary with t).
    assert (HT : forall n t', temps !! n = Some t' -> names d' !! t' = names d !! t').
    { intros n t' Hn. apply (pv_same _ _ _ Hp). intros ->. apply Ht. by exists n. }
    split; try done.
    + by eapply privately_numbered.
    + by rewrite HO by apply ordinary_journal.
    + intros n t' Hn. eapply drawnName_mono, H4, Hn. apply Hp.
    + intros n c t' Hc Hn. rewrite (HT n t' Hn), (HO n) by by eapply owned_ordinary, (wr_files W).
      destruct (H6 n c t' Hc Hn) as [(E1 & E2 & E3)|E]; [left|by right]. split; [done|]. split; [done|].
      intros Hi. eapply written_same, E3, Hi. apply HO. by eapply owned_ordinary, (wr_files W).
    + intros n [sum Hn]. rewrite HO by by eapply owned_ordinary, prune_owned. apply H7. by exists sum.
    + by rewrite HO by apply ordinary_manifest.
    + intros n Hn Hf Hpr Hm Hj. rewrite HO by done. by apply H9.
Qed.

(** *** Calls *)

Section Calls.
Context (ok : event -> Prop) (X : exits directory genError).
Notation triple := (hoare ok X).
Definition calm : event := mkEvent false None.

(** A stop is allowed where the state is consistent; so is a failing call, where calls can
    fail, and a journal found stale, where reads can. *)
Context (HN : forall d, consistent d -> X None d) (HE : forall e d, X (Some e) d -> X None d).
Context (HF : (forall ev, ok ev -> ev = calm) \/ (forall d, consistent d -> X (Some IOFault) d)).
Definition staleAllowed : Prop := forall n d, consistent d -> X (Some (Stale n)) d.
Context (HS : (forall ev, ok ev -> readFault ev = false) \/ staleAllowed).

Lemma triple_look {A : Type} (P : directory -> Prop) (f : directory -> result genError A) (Q : A -> directory -> Prop) :
  (forall d, P d -> consistent d) ->
  (forall d, P d -> match f d with Ok a => Q a d | Err e => X (Some e) d end) -> triple P (look f) Q.
Proof.
  intros HC Hf. apply triple_sys; [by auto|]. intros ev d Hd Hok. destruct (readFault ev) eqn:E; [|by apply Hf].
  destruct HF as [H|H]; [by rewrite (H ev Hok) in E|by apply H, HC].
Qed.

Lemma triple_change {A : Type} (P : directory -> Prop) (f : directory -> directory * result genError A) (Q : A -> directory -> Prop) :
  (forall d, P d -> consistent d) ->
  (forall d, P d -> let '(d', r) := f d in match r with Ok a => Q a d' | Err e => X (Some e) d' end) -> triple P (change f) Q.
Proof.
  intros HC Hf. apply triple_sys; [by auto|]. intros ev d Hd Hok. destruct (fault ev) eqn:E; [|by apply Hf].
  destruct HF as [H|H]; [by rewrite (H ev Hok) in E|by apply H, HC].
Qed.

Lemma settle_spec (P : directory -> Prop) : (forall d, P d -> consistent d) -> triple P settle (fun _ => P).
Proof. intros HC. by apply triple_change. Qed.

Lemma syncDir_spec (P : directory -> Prop) : (forall d, P d -> consistent d) -> triple P syncDir (fun _ => P).
Proof. intros HC. by apply triple_change. Qed.

(** What a read finds under a name of which [P] knows the entry. *)
Lemma readFile_spec (P : directory -> Prop) p c :
  (forall d, P d -> consistent d) -> (forall d, P d -> names d !! p <> Some Dir /\ reads (names d !! p) = Some c) ->
  triple P (readFile p) (fun a d => a = c /\ P d).
Proof.
  intros HC Hp. apply triple_look; [done|]. intros d Hd. destruct (Hp d Hd) as [Hdir Hr].
  destruct (names d !! p) as [[c'|[c'|]|]|]; simpl in *; try done; by injection Hr as ->.
Qed.

Lemma ignoreNotExist_spec {A : Type} (P : directory -> Prop) (m : M A) none (Q : A -> directory -> Prop) :
  hoare ok (caught X (fun e d => match e with NotExist => Q none d | _ => X (Some e) d end)) P m Q ->
  triple P (ignoreNotExist m none) Q.
Proof.
  intros H. eapply triple_bind; [by apply triple_try with (Q := fun r d =>
    match r with Ok a => Q a d | Err NotExist => Q none d | Err e => X (Some e) d end)|].
  intros [a|[]]; (by apply triple_pure) || (by apply triple_raise).
Qed.

(** An optional file. *)
Lemma readOptional_spec (P : directory -> Prop) p :
  (forall d, P d -> consistent d) -> (forall d, P d -> names d !! p <> Some Dir) ->
  triple P (ignoreNotExist (let* c := readFile p in pure (Some c)) None) (fun a d => a = reads (names d !! p) /\ P d).
Proof.
  intros HC Hp. apply ignoreNotExist_spec. intros d es Hd Hok. unfold bind, readFile, look, sys.
  destruct es as [|ev es]; [split; [done|by apply HN, HC]|]. apply Forall_cons in Hok as [Hev Hok].
  destruct (readFault ev) eqn:E; simpl.
  - split; [done|]. destruct HF as [H|H]; [by rewrite (H ev Hev) in E|by apply H, HC].
  - pose proof (Hp d Hd) as Hdir. destruct (names d !! p) as [[c'|[c'|]|]|] eqn:Ep; simpl; by rewrite ?Ep.
Qed.

(** *** Temporaries *)

Lemma createTemp_spec T P :
  inert T P -> triple P (createTemp random) (fun t d =>
    P d /\ ~ T d t /\ drawnName d t /\ names d !! t = Some (Regular EmptyString)).
Proof.
  intros [I1 I2 I3 I4]. apply triple_change; [done|]. intros d Hd. cbv zeta. rewrite (I1 d Hd (drawn d)) by done.
  set (t := temp (drawn d)). set (d' := mkDirectory _ _).
  assert (Hp : privately t d d').
  { split; [simpl; lia|exists (drawn d); simpl; split; [done|lia]|]. intros n Hn. simpl. by rewrite lookup_insert_ne. }
  assert (Ht : ~ T d t). { intros HT. destruct (I3 d t Hd HT) as (k & E%Hinj & Hk). lia. }
  destruct (I4 d d' t Hd Hp Ht) as [Hd' HT]. split; [done|]. split; [by intros ?%HT|].
  split; [apply Hp|]. simpl. by rewrite lookup_insert_eq.
Qed.

(** [P], with a temporary of a content. *)
Definition holding (T : directory -> string -> Prop) (P : directory -> Prop) (t c : string) (d : directory) : Prop :=
  P d /\ ~ T d t /\ drawnName d t /\ names d !! t = Some (Regular c).

Lemma overwrite_holding T P t c c' d :
  inert T P -> holding T P t c d -> holding T P t c' (onNames (<[t := Regular c']>) d).
Proof.
  intros [I1 I2 I3 I4] (Hd & Ht & Hdr & Hn). destruct (I4 d (onNames (<[t := Regular c']>) d) t Hd) as [Hd' HT]; [|done|].
  - split; [done|done|]. intros n Hne. simpl. by rewrite lookup_insert_ne.
  - split; [done|]. split; [by intros ?%HT|]. split; [done|]. simpl. by rewrite lookup_insert_eq.
Qed.

Lemma holding_consistent T P t c d : inert T P -> holding T P t c d -> consistent d.
Proof. intros HI [Hd _]. by apply (in_consistent _ _ HI). Qed.

Lemma writeTo_spec T P t c data :
  inert T P -> triple (holding T P t c) (writeTo t data) (fun _ => holding T P t data).
Proof.
  intros HI. apply triple_sys; [intros d Hd; by eapply HN, holding_consistent|]. intros ev d Hd Hok.
  destruct (fault ev) as [n|] eqn:E; [|by eapply overwrite_holding].
  destruct HF as [H|H]; [by rewrite (H ev Hok) in E|]. apply H. eapply holding_consistent; [done|]. by eapply overwrite_holding.
Qed.

(** After a failure the directory is as it is. *)
Lemma settle_after e : hoare ok (after X (X (Some e))) (X (Some e)) settle (fun _ => X (Some e)).
Proof.
  apply triple_sys; [by apply HE|]. intros ev d Hd _. by destruct (fault ev).
Qed.

Lemma writeExclusive_spec T P data :
  inert T P -> triple P (writeExclusive random data) (fun t => holding T P t data).
Proof.
  intros HI. assert (HC : forall t c d, holding T P t c d -> consistent d) by (intros t c d; by apply holding_consistent).
  eapply triple_bind; [by apply createTemp_spec|]. intros t.
  eapply triple_bind with (Q := fun _ => holding T P t data).
  { apply triple_onFail; [|apply settle_after].
    eapply triple_bind; [apply (settle_spec (holding T P t EmptyString)), HC|]. intros ?.
    eapply triple_bind; [by apply writeTo_spec|]. intros ?. apply settle_spec, HC. }
  intros ?. eapply triple_bind; [apply settle_spec, HC|]. intros ?. by apply triple_pure.
Qed.

(** A temporary takes its name. *)
Lemma publish_spec T P base data (Q : directory -> Prop) :
  inert T P -> (forall d, P d -> names d !! base <> Some Dir) ->
  (forall t d, holding T P t data d -> Q (onNames (fun m => <[base := Regular data]> (delete t m)) d)) ->
  (forall d, Q d -> consistent d) ->
  triple P (publish random base data) (fun _ => Q).
Proof.
  intros HI Hb HQ HC. eapply triple_bind; [by apply writeExclusive_spec|]. intros t.
  eapply triple_bind with (Q := fun _ => Q); [|intros ?; by apply syncDir_spec].
  apply triple_change; [intros d; by apply holding_consistent|]. intros d Hd. pose proof Hd as (HP & _ & _ & Ht).
  rewrite Ht. pose proof (Hb d HP) as Hbd. specialize (HQ t d Hd).
  by destruct (names d !! base) as [[]|].
Qed.

(** *** Staging *)

Lemma sortedNames_in {V} (m : gmap string V) n : n ∈ sortedNames m <-> is_Some (m !! n).
Proof.
  unfold sortedNames. rewrite elem_of_sort_by, list_elem_of_fmap. split.
  - intros ([n' v] & -> & H%elem_of_map_to_list). by exists v.
  - intros [v H]. exists (n, v). split; [done|]. by apply elem_of_map_to_list.
Qed.

Lemma staged_next temps n c t d :
  files !! n = Some c -> holding (tracked temps) (staging temps) t c d -> staging (<[n := t]> temps) d.
Proof.
  intros Hn ([H1 H2 H3] & Ht & Hdr & Hc). split; [done| |].
  - intros n' t' [[<- <-]|[Hne H]]%lookup_insert_Some; [|by apply H2]. rewrite Hn. split; [done|]. split; [by rewrite Hc|done].
  - intros n' n'' t' [[<- <-]|[Hne H]]%lookup_insert_Some [[<- E]|[Hne' H']]%lookup_insert_Some.
    + done.
    + exfalso. apply Ht. by exists n''.
    + exfalso. apply Ht. exists n'. by rewrite E.
    + by eapply H3.
Qed.

Lemma stageTemps_spec ns temps :
  (forall n, n ∈ ns -> is_Some (files !! n)) ->
  triple (staging temps) (stageTemps random files ns temps)
    (fun temps' d => staging temps' d /\ forall n, is_Some (temps' !! n) <-> is_Some (temps !! n) \/ n ∈ ns).
Proof.
  revert temps. induction ns as [|n ns IH]; intros temps Hns; simpl.
  { apply triple_pure. intros d Hd. split; [done|]. intros n. rewrite elem_of_nil. tauto. }
  destruct (Hns n) as [c Hc]; [left|]. rewrite Hc. simpl.
  eapply triple_bind; [apply writeExclusive_spec, staging_inert|]. intros t.
  eapply triple_conseq; [intros d Hd; eapply staged_next; [exact Hc|exact Hd]| |apply IH; intros n' Hn'; apply Hns; by right].
  intros temps' d [Hd Hk]. split; [done|]. intros n'. rewrite Hk, lookup_insert_is_Some, elem_of_cons.
  destruct (decide (n = n')) as [->|Hne]; naive_solver.
Qed.

Definition full (temps : gmap string string) : Prop := forall n, is_Some (temps !! n) <-> is_Some (files !! n).

Lemma renamed_ordinary base data t d n :
  drawnName d t -> ordinary n -> n <> base -> names (onNames (fun m => <[base := Regular data]> (delete t m)) d) !! n = names d !! n.
Proof.
  intros (k & -> & _) Hn Hb. simpl. rewrite lookup_insert_ne by congruence. rewrite lookup_delete_ne; [done|]. intros E. by apply (Hn k).
Qed.

Lemma renamed_temp base data t d t' :
  ordinary base -> drawnName d t' -> t' <> t ->
  names (onNames (fun m => <[base := Regular data]> (delete t m)) d) !! t' = names d !! t'.
Proof.
  intros Hb (k & -> & _) Ht. simpl. rewrite lookup_insert_ne by apply Hb. by rewrite lookup_delete_ne by congruence.
Qed.

Lemma renamed_numbered base data t d :
  ordinary base -> numbered d -> numbered (onNames (fun m => <[base := Regular data]> (delete t m)) d).
Proof.
  intros Hb H k Hk. simpl. rewrite lookup_insert_ne by apply Hb. apply lookup_delete_None. right. by apply H.
Qed.

Lemma journal_published temps t d :
  full temps -> holding (tracked temps) (staging temps) t (encoded (journal temps)) d ->
  pending temps [] [] false (onNames (fun m => <[journalName := Regular (encoded (journal temps))]> (delete t m)) d).
Proof.
  intros HF' ([[Hnum Hun] H2 H3] & Ht & Hdr & Hc).
  set (d' := onNames _ d). assert (HO : forall n, ordinary n -> n <> journalName -> names d' !! n = d0 !! n).
  { intros n Hn Hj. unfold d'. rewrite renamed_ordinary by done. by apply Hun. }
  split; try done.
  - apply renamed_numbered; [apply ordinary_journal|done].
  - unfold d'. simpl. by rewrite lookup_insert_eq.
  - intros n t' Hn. by apply (H2 n t').
  - intros n c t' Hn Ht'. left. destruct (H2 n t' Ht') as (Hd' & E & _). destruct (wr_files W n c Hn) as (_ & _ & _ & Hj & Ho).
    split; [|split; [by apply HO|by intros ?%not_elem_of_nil]]. unfold d'.
    rewrite renamed_temp; [by rewrite E, Hn|apply ordinary_journal|done|]. intros ->. apply Ht. by exists n.
  - intros n [sum Hn]. left. destruct (prune_owned n sum Hn) as (_ & _ & _ & Hj & Ho). split; [apply not_elem_of_nil|by apply HO].
  - left. split; [done|]. apply HO; [apply ordinary_manifest|done].
  - intros n Hn _ _ _ Hj. by apply HO.
Qed.

Lemma stagePrune_spec :
  triple idle (stagePrune sha256 Marshal random files prune withManifest) (fun _ d => exists temps, pending temps [] [] false d).
Proof.
  eapply triple_bind.
  { eapply triple_pre; [|apply stageTemps_spec; intros n; apply sortedNames_in].
    intros d Hd. split; [done|done|done]. }
  intros temps. apply (triple_fact X (full temps)).
  { intros d [_ Hk] n. rewrite Hk, lookup_empty, sortedNames_in. split; [intros [[? ?]|?]; done|by right]. }
  intros Hf. eapply triple_pre; [by intros d [Hd _]; apply Hd|].
  eapply publish_spec; [apply staging_inert| | |].
  - intros d [[_ Hun] _ _]. rewrite Hun, (wr_journal W) by apply ordinary_journal. done.
  - intros t d Hd. exists temps. by apply journal_published.
  - intros d Hd. by right; left.
Qed.

(** *** Reading the records *)

Lemma ascii_hash b : ascii_text (hexEncode b) = true.
Proof.
  destruct (hexEncode_hex b) as [H _]. unfold ascii_text. eapply string_forall_impl; [|exact H].
  intros a. unfold isHexByte, byte_in. rewrite !orb_true_iff, !andb_true_iff, !Z.leb_le, N.ltb_lt. unfold byte_of. simpl. lia.
Qed.

Lemma newSums_ascii n v : newSums !! n = Some v -> owned n /\ ascii_text v = true.
Proof.
  unfold newSums. rewrite lookup_fmap_Some. intros (c & <- & Hn). split; [by apply (wr_files W n c)|apply ascii_hash].
Qed.

Lemma plain_temp k : plainName (temp k) = true.
Proof.
  destruct (Hplain k) as [H _]. unfold validTempName in H. apply andb_true_iff in H as [[H _]%andb_true_iff _].
  apply bool_decide_eq_true in H. unfold plainName. rewrite <-H, (bool_decide_false (temp k <> temp k)) by auto.
  by rewrite !bool_decide_false by (unfold GenFiles.temp; done).
Qed.

Lemma journal_textual temps : (forall n t, temps !! n = Some t -> is_Some (files !! n) /\ exists k, t = temp k) -> textual (journal temps).
Proof.
  intros HT f n v Hf Hn. apply elem_of_cons in Hf as [->|[->|[->|Hf%not_elem_of_nil]%elem_of_cons]%elem_of_cons]; simpl in Hn; [..|done].
  - apply newSums_ascii in Hn as [(_ & ? & _) ?]. done.
  - destruct (HT n v Hn) as [[c Hc] [k ->]]. split; [|apply Hplain]. by destruct (wr_files W n c Hc) as (_ & ? & _).
  - apply prune_previous in Hn as [Hn _]. destruct (wr_previous W n v Hn) as [(_ & ? & _) ?]. done.
Qed.

Lemma validSums_owned {V} (m : gmap string V) : (forall n v, m !! n = Some v -> owned n) -> validSums m = true.
Proof.
  intros H. apply forallb_forall. intros [n v] Hn%list_elem_of_In%elem_of_map_to_list. by destruct (H n v Hn) as [? _].
Qed.

Lemma journal_valid temps : (forall n t, temps !! n = Some t -> is_Some (files !! n) /\ exists k, t = temp k) -> validJournal (journal temps) = true.
Proof.
  intros HT. unfold validJournal. simpl. rewrite !andb_true_iff. split_and!.
  - apply validSums_owned. intros n v Hn. by apply newSums_ascii in Hn as [? _].
  - apply forallb_forall. intros [n t] Hn%list_elem_of_In%elem_of_map_to_list. destruct (HT n t Hn) as [[c Hc] [k ->]].
    rewrite plain_temp. destruct (wr_files W n c Hc) as [-> _]. done.
  - apply validSums_owned. intros n sum. apply prune_owned.
Qed.

(** A record of which [P] knows the text. *)
Lemma readRecord_spec (P : directory -> Prop) base valid o :
  (forall d, P d -> consistent d) ->
  (forall d, P d -> names d !! base <> Some Dir /\ reads (names d !! base) = encoded <$> o) ->
  (forall m, o = Some m -> textual m /\ valid m = true) ->
  triple P (readRecord Unmarshal base valid) (fun a d => a = o /\ P d).
Proof.
  intros HC Hb Hv. eapply triple_bind with (Q := fun a d => a = encoded <$> o /\ P d).
  { eapply triple_post; [|apply (readOptional_spec P base); [done|intros d Hd; by apply Hb]].
    intros a d [-> Hd]. split; [by apply Hb|done]. }
  intros data.
  destruct o as [m|]; simpl.
  - destruct (Hv m eq_refl) as [Ht Hval]. destruct data as [data|]; [|by intros d es [? _]].
    apply (triple_fact X (data = encoded m)); [by intros d [[= ->] _]|]. intros ->. rewrite Hjson, Hval by done.
    apply triple_pure. by intros d [_ ?].
  - destruct data; [by intros d es [? _]|]. apply triple_pure. by intros d [_ ?].
Qed.

Lemma pending_temps temps ins prs mf d n t :
  pending temps ins prs mf d -> temps !! n = Some t -> is_Some (files !! n) /\ exists k, t = temp k.
Proof.
  intros Hd Hn. split; [apply (pe_temps _ _ _ _ _ Hd); by exists t|]. destruct (pe_drawn _ _ _ _ _ Hd n t Hn) as (k & -> & _). by exists k.
Qed.

Lemma readJournal_pending temps :
  triple (pending temps [] [] false) (readJournal Unmarshal) (fun o d => o = Some (journal temps) /\ pending temps [] [] false d).
Proof.
  apply (triple_fact X (forall n t, temps !! n = Some t -> is_Some (files !! n) /\ exists k, t = temp k)).
  { intros d Hd n t. by eapply pending_temps. }
  intros HT. apply readRecord_spec.
  - intros d Hd. right. left. by exists temps.
  - intros d Hd. by rewrite (pe_journal _ _ _ _ _ Hd).
  - intros m [= <-]. split; [by apply journal_textual|by apply journal_valid].
Qed.

Lemma readJournal_none (P : directory -> Prop) :
  (forall d, P d -> consistent d) -> (forall d, P d -> names d !! journalName = None) ->
  triple P (readJournal Unmarshal) (fun o d => o = None /\ P d).
Proof. intros HC Hj. apply readRecord_spec; [done|intros d Hd; by rewrite (Hj d Hd)|done]. Qed.

Lemma idle_journal d : idle d -> names d !! journalName = None.
Proof. intros [_ Hu]. rewrite Hu by apply ordinary_journal. apply (wr_journal W). Qed.

Lemma finished_journal d : finished d -> names d !! journalName = None.
Proof.
  intros [_ [_ Hu]]. rewrite Hu; [apply expected_journal|apply ordinary_journal|].
  destruct (files !! journalName) as [c|] eqn:E; [|done]. apply (wr_files W) in E as (_ & _ & _ & ? & _). done.
Qed.

(** *** Installing *)

Lemma pending_consistent temps ins prs mf d : pending temps ins prs mf d -> consistent d.
Proof. apply (in_consistent _ _ (pending_inert temps ins prs mf)). Qed.

(** What a read gives as a value. *)
Lemma try_look_spec {A : Type} (P : directory -> Prop) (f : directory -> result genError A) :
  (forall d, P d -> consistent d) ->
  triple P (try (look f)) (fun r d => P d /\ (r = f d \/ (r = Err IOFault /\ staleAllowed))).
Proof.
  intros HC. apply triple_try, triple_sys; [by intros d Hd; apply HN, HC|]. intros ev d Hd Hok. destruct (readFault ev) eqn:E.
  - simpl. split; [done|]. destruct HS as [H|H]; [by rewrite (H ev Hok) in E|by right].
  - destruct (f d) as [a|e] eqn:Ef; simpl; (split; [done|by left]).
Qed.

Lemma pending_installed temps ins prs mf n c d :
  files !! n = Some c -> written d n c -> pending temps ins prs mf d -> pending temps (ins ++ [n]) prs mf d.
Proof.
  intros Hc Hw [H1 H2 H3 H4 H5 H6 H7 H8 H9]. split; try done.
  intros n' c' t Hc' Ht. destruct (H6 n' c' t Hc' Ht) as [(E1 & E2 & E3)|E]; [left|by right]. split; [done|]. split; [done|].
  intros [Hi| ->%list_elem_of_singleton]%elem_of_app; [by apply E3|]. by simplify_eq.
Qed.

Lemma checkInstalled_spec temps ins prs mf n c :
  files !! n = Some c ->
  triple (fun d => pending temps ins prs mf d /\ (names d !! n = Some (Regular c) \/ staleAllowed)) (checkInstalled sha256 n (hashOf c))
    (fun _ => pending temps (ins ++ [n]) prs mf).
Proof.
  intros Hc. set (P := fun d => _). assert (HC : forall d, P d -> consistent d) by (intros d [Hd _]; by eapply pending_consistent).
  eapply triple_bind; [by apply (try_look_spec P)|]. intros r.
  assert (Hst : forall d, P d -> names d !! n <> Some (Regular c) -> X (Some (Stale n)) d).
  { intros d [Hd [?|H]] ?; [done|]. apply H. by eapply pending_consistent. }
  assert (Hsa : forall d, P d -> staleAllowed -> X (Some (Stale n)) d) by (intros d Hd H; by apply H, HC).
  destruct r as [data|e].
  - case_bool_decide as Hh; [apply triple_pure|apply triple_raise]; intros d [Hd [E|[? _]]]; try done.
    + destruct Hd as [Hd _]. eapply pending_installed; [done| |done].
      destruct (proj1 (pe_temps _ _ _ _ _ Hd n) ltac:(by apply (pe_temps _ _ _ _ _ Hd); exists c)) as [c' Hc'].
      destruct (proj2 (pe_temps _ _ _ _ _ Hd n) ltac:(by exists c)) as [t Ht].
      destruct (pe_file _ _ _ _ _ Hd n c t Hc Ht) as [(_ & E2 & _)|[_ E2]]; [right|by left]. split; [done|].
      exists data. split; [|done]. rewrite <-E2. by destruct (names d !! n) as [[|[]|]|]; simplify_eq/=.
    + apply Hst; [done|]. intros En. rewrite En in E. simpl in E. congruence.
  - apply triple_raise. intros d [Hd [E|[_ H]]]; [|by apply Hsa]. apply Hst; [done|]. intros En. by rewrite En in E.
Qed.

Lemma installed_rename temps ins prs mf n c t d :
  files !! n = Some c -> temps !! n = Some t -> names d !! t = Some (Regular c) -> pending temps ins prs mf d ->
  pending temps (ins ++ [n]) prs mf (onNames (fun m => <[n := Regular c]> (delete t m)) d).
Proof.
  intros Hc Ht Hn Hd. set (d' := onNames _ d). destruct (wr_files W n c Hc) as (_ & _ & Hnm & Hnj & Ho).
  pose proof Hd as [H1 H2 H3 H4 H5 H6 H7 H8 H9]. pose proof (H4 n t Ht) as Hdr.
  assert (HO : forall n', ordinary n' -> n' <> n -> names d' !! n' = names d !! n') by (intros n' ??; by apply renamed_ordinary).
  assert (Hw : written d' n c) by (left; unfold d'; simpl; by rewrite lookup_insert_eq).
  assert (Hdt : names d' !! t = None).
  { unfold d'. simpl. destruct Hdr as (k & -> & _). rewrite lookup_insert_ne by apply Ho. by rewrite lookup_delete_eq. }
  split; try done.
  - by apply renamed_numbered.
  - by rewrite HO by (done || apply ordinary_journal).
  - intros n' c' t' Hc' Ht'. destruct (decide (n' = n)) as [->|Hne].
    + right. simplify_eq. split; [done|]. destruct Hw as [?|[E _]]; [done|]. unfold d'. simpl. by rewrite lookup_insert_eq.
    + destruct (wr_files W n' c' Hc') as (_ & _ & _ & _ & Ho'). rewrite (HO n') by done.
      unfold d'. rewrite renamed_temp; [|done|by eapply H4|intros ->; by apply Hne; eapply H5].
      destruct (H6 n' c' t' Hc' Ht') as [(E1 & E2 & E3)|?]; [left|by right]. split; [done|]. split; [done|].
      intros [Hi| ?%list_elem_of_singleton]%elem_of_app; [|done]. eapply written_same, E3, Hi. by apply HO.
  - intros n' [sum Hp]. rewrite HO; [apply H7; by exists sum|by eapply owned_ordinary, prune_owned|].
    intros ->. apply prune_previous in Hp as [_ Hp]. congruence.
  - by rewrite HO by (done || apply ordinary_manifest).
  - intros n' Ho' Hf Hp Hm Hj. rewrite HO; [by apply H9|done|]. intros ->. congruence.
Qed.

Lemma install_spec temps ins prs mf n :
  is_Some (files !! n) ->
  triple (pending temps ins prs mf) (install sha256 (journal temps) n) (fun _ => pending temps (ins ++ [n]) prs mf).
Proof.
  intros [c Hc]. apply (triple_fact X (exists t k, temps !! n = Some t /\ t = temp k)).
  { intros d Hd. destruct (proj2 (pe_temps _ _ _ _ _ Hd n) ltac:(by exists c)) as [t Ht]. exists t.
    destruct (pe_drawn _ _ _ _ _ Hd n t Ht) as (k & -> & _). by exists k. }
  intros (t & k & Ht & ->). unfold install. simpl. rewrite Ht, (proj1 (Hplain k)). unfold newSums. rewrite lookup_fmap, Hc. simpl.
  assert (HC := pending_consistent temps ins prs mf).
  eapply triple_bind; [by apply try_look_spec|]. intros r.
  assert (Hcase : forall d, pending temps ins prs mf d -> names d !! temp k = Some (Regular c) \/
    (names d !! temp k = None /\ names d !! n = Some (Regular c))).
  { intros d Hd. destruct (pe_file _ _ _ _ _ Hd n c (temp k) Hc Ht) as [(? & _)|?]; [by left|by right]. }
  destruct r as [[c'|l|]|e].
  - eapply triple_pre with (P' := fun d => pending temps ins prs mf d /\ names d !! temp k = Some (Regular c)).
    { intros d [Hd [E|[? _]]]; [|done]. split; [done|]. by destruct (Hcase d Hd) as [?|[En _]]; [|rewrite En in E]. }
    eapply triple_bind; [apply (readFile_spec _ (temp k) c); [by intros d [Hd _]; apply HC in Hd|intros d [_ ->]; done]|].
    intros data. apply (triple_fact X (data = c)); [by intros d [-> _]|]. intros ->.
    rewrite bool_decide_false by auto. apply triple_change; [by intros d [_ [Hd _]]; apply HC in Hd|].
    intros d [_ [Hd En]]. rewrite En.
    assert (Hdir : names d !! n <> Some Dir).
    { destruct (pe_file _ _ _ _ _ Hd n c (temp k) Hc Ht) as [(_ & -> & _)|[_ ->]]; [|done].
      apply (wr_directories W). left. by exists c. }
    pose proof (installed_rename temps ins prs mf n c (temp k) d Hc Ht En Hd) as HR. by destruct (names d !! n) as [[]|].
  - intros d es [Hd [E|[? _]]]; [|done]. destruct (Hcase d Hd) as [En|[En _]]; by rewrite En in E.
  - intros d es [Hd [E|[? _]]]; [|done]. destruct (Hcase d Hd) as [En|[En _]]; by rewrite En in E.
  - eapply triple_pre; [|by apply checkInstalled_spec]. intros d [Hd [E|[_ ?]]]; [|by split; [|right]].
    split; [done|]. left. destruct (Hcase d Hd) as [En|[_ ?]]; [by rewrite En in E|done].
Qed.

(** *** Pruning *)

Lemma expected_prune n : is_Some (prune !! n) -> expected n = if undrifted n then None else d0 !! n.
Proof.
  intros [sum Hn]. unfold expected. rewrite bool_decide_false; [done|]. apply prune_owned in Hn. by destruct Hn as (_ & _ & ? & _).
Qed.

Lemma pending_pruned temps ins prs mf n d :
  names d !! n = expected n -> pending temps ins prs mf d -> pending temps ins (prs ++ [n]) mf d.
Proof.
  intros Hn [H1 H2 H3 H4 H5 H6 H7 H8 H9]. split; try done. intros n' Hn'.
  destruct (decide (n' = n)) as [->|Hne]; [by right|]. destruct (H7 n' Hn') as [[Hi ?]|?]; [left|by right].
  split; [|done]. intros [?| ?%list_elem_of_singleton]%elem_of_app; done.
Qed.

Lemma pending_removed temps ins prs mf n d :
  is_Some (prune !! n) -> expected n = None -> pending temps ins prs mf d -> pending temps ins (prs ++ [n]) mf (onNames (delete n) d).
Proof.
  intros [sum Hp] He Hd. apply pending_pruned; [simpl; by rewrite lookup_delete_eq|].
  pose proof (prune_owned n sum Hp) as (_ & _ & Hnm & Hnj & Ho). pose proof Hd as [H1 H2 H3 H4 H5 H6 H7 H8 H9].
  assert (HO : forall n', n' <> n -> names (onNames (delete n) d) !! n' = names d !! n') by (intros n' ?; simpl; by rewrite lookup_delete_ne).
  assert (HT : forall n' t, temps !! n' = Some t -> names (onNames (delete n) d) !! t = names d !! t).
  { intros n' t Ht. destruct (H4 n' t Ht) as (k & -> & _). apply HO. intros E. by apply (Ho k). }
  assert (Hff : files !! n = None) by (apply prune_previous in Hp; tauto).
  split; try done.
  - intros k Hk. rewrite HO; [by apply H1|]. intros E. by apply (Ho k).
  - by rewrite HO.
  - intros n' c t Hc Ht. rewrite (HT n' t Ht), (HO n') by congruence.
    destruct (H6 n' c t Hc Ht) as [(?&?&Hw)|?]; [left|by right]. split; [done|]. split; [done|].
    intros Hi. eapply written_same, Hw, Hi. apply HO. congruence.
  - intros n' Hn'. destruct (decide (n' = n)) as [->|Hne]; [right; simpl; by rewrite lookup_delete_eq|]. rewrite HO by done. by apply H7.
  - by rewrite HO by done.
  - intros n' Ho' Hf Hpr Hm Hj. rewrite HO; [by apply H9|]. congruence.
Qed.

Lemma pending_prunable temps ins prs mf n d :
  is_Some (prune !! n) -> pending temps ins prs mf d -> names d !! n = d0 !! n \/ (names d !! n = None /\ undrifted n = true).
Proof.
  intros Hn Hd. destruct (pe_prune _ _ _ _ _ Hd n Hn) as [[_ ?]|E]; [by left|]. rewrite (expected_prune n Hn) in E.
  destruct (undrifted n); [by right|by left].
Qed.

Lemma prunable_dir temps ins prs mf n d : is_Some (prune !! n) -> pending temps ins prs mf d -> names d !! n <> Some Dir.
Proof.
  intros Hn Hd. destruct (pending_prunable _ _ _ _ _ _ Hn Hd) as [->|[-> _]]; [|done].
  apply (wr_directories W). right. left. destruct Hn as [sum Hn]. exists sum. by apply prune_previous in Hn as [? _].
Qed.

Lemma pruneAll_spec temps ins prs mf ns pruned kept :
  (forall n, n ∈ ns -> is_Some (prune !! n)) ->
  triple (pending temps ins prs mf) (pruneAll sha256 (journal temps) ns pruned kept)
    (fun report d => pending temps ins (prs ++ ns) mf d /\ report.2 = kept ++ filter (fun n => drifted n = true) ns /\
       forall n, n ∈ report.1 -> n ∈ pruned \/ (n ∈ ns /\ undrifted n = true)).
Proof.
  revert prs pruned kept. induction ns as [|n ns IH]; intros prs pruned kept Hns; simpl.
  { apply triple_pure. intros d Hd. rewrite !app_nil_r. split; [done|]. split; [done|]. by left. }
  assert (Hn : is_Some (prune !! n)) by (apply Hns; left). pose proof Hn as [sum Hsum]. rewrite Hsum. simpl.
  assert (Hns' : forall n, n ∈ ns -> is_Some (prune !! n)) by (intros n' ?; apply Hns; by right).
  assert (Hdr : drifted n = match reads (d0 !! n) with Some data => negb (bool_decide (hashOf data = sum)) | None => false end).
  { unfold drifted. rewrite Hsum. by destruct (reads _). }
  assert (Hun : undrifted n = match reads (d0 !! n) with Some data => bool_decide (hashOf data = sum) | None => false end).
  { unfold undrifted. rewrite Hsum. by destruct (reads _). }
  eapply triple_bind; [apply (readOptional_spec (pending temps ins prs mf)); [apply pending_consistent|by intros d; apply prunable_dir]|].
  intros [data|].
  - apply (triple_fact X (reads (d0 !! n) = Some data)).
    { intros d [E Hd]. by destruct (pending_prunable _ _ _ _ _ _ Hn Hd) as [<-|[En _]]; [|rewrite En in E]. }
    intros Hr. rewrite Hr in Hdr, Hun. cbv iota beta in Hdr, Hun. destruct (decide (hashOf data = sum)) as [Hs|Hh].
    + rewrite bool_decide_true in Hdr, Hun by done. rewrite (bool_decide_false (hashOf data <> sum)) by auto. simpl in Hdr.
      eapply triple_bind with (Q := fun _ => pending temps ins (prs ++ [n]) mf).
      * apply triple_change; [intros d [_ Hd]; by eapply pending_consistent|]. intros d [E Hd].
        pose proof (pending_removed temps ins prs mf n d Hn ltac:(by rewrite (expected_prune n Hn), Hun) Hd) as HR.
        pose proof (prunable_dir _ _ _ _ _ _ Hn Hd) as Hdir. by destruct (names d !! n) as [[]|].
      * intros ?. eapply triple_post; [|apply (IH (prs ++ [n]) (pruned ++ [n]) kept Hns')].
        intros report d (H1 & H2 & H3). rewrite <-(assoc_L (++)) in H1. split; [done|]. rewrite filter_cons_False by congruence.
        split; [done|]. intros n' Hn'. destruct (H3 n' Hn') as [[?| ->%list_elem_of_singleton]%elem_of_app|[? ?]];
          [by left|right; split; [left|done]|right; split; [by right|done]].
    + rewrite bool_decide_false in Hdr, Hun by done. rewrite (bool_decide_true (hashOf data <> sum)) by done. simpl in Hdr.
      eapply triple_conseq; [| |apply (IH (prs ++ [n]) pruned (kept ++ [n]) Hns')].
      * intros d [E Hd]. eapply pending_pruned; [|done]. rewrite (expected_prune n Hn), Hun.
        destruct (pending_prunable _ _ _ _ _ _ Hn Hd) as [?|[_ ?]]; [done|congruence].
      * intros report d (H1 & H2 & H3). rewrite <-(assoc_L (++)) in H1, H2. split; [done|]. rewrite filter_cons_True by done.
        split; [done|]. intros n' Hn'. destruct (H3 n' Hn') as [?|[? ?]]; [by left|right]. split; [by right|done].
  - apply (triple_fact X (drifted n = false)).
    { intros d [E Hd]. rewrite Hdr. destruct (pending_prunable _ _ _ _ _ _ Hn Hd) as [<-|[_ Hu]]; [by rewrite <-E|].
      rewrite Hun in Hu. destruct (reads _); [by rewrite Hu|done]. }
    intros Hdf. eapply triple_conseq; [| |apply (IH (prs ++ [n]) pruned kept Hns')].
    + intros d [E Hd]. eapply pending_pruned; [|done]. rewrite (expected_prune n Hn).
      destruct (pending_prunable _ _ _ _ _ _ Hn Hd) as [Ed|[-> ->]]; [|done]. rewrite Ed in E. by rewrite Hun, <-E.
    + intros report d (H1 & H2 & H3). rewrite <-(assoc_L (++)) in H1. split; [done|].
      split; [|intros n' Hn'; destruct (H3 n' Hn') as [?|[? ?]]; [by left|right; split; [by right|done]]].
      by rewrite H2, filter_cons_False by congruence.
Qed.

(** *** The manifest *)

Lemma expected_manifest :
  expected ManifestName = if withManifest then Some (Regular (encoded (mkManifest 1 newSums ∅ ∅))) else None.
Proof. unfold expected. by rewrite bool_decide_true. Qed.

(** A change of the manifest that leaves what it is to be. *)
Lemma pending_recorded temps ins prs mf d d' :
  numbered d' -> (forall t, drawnName d t -> (exists n, temps !! n = Some t) -> names d' !! t = names d !! t) -> drawn d <= drawn d' ->
  (forall n, ordinary n -> n <> ManifestName -> names d' !! n = names d !! n) ->
  names d' !! ManifestName = expected ManifestName -> pending temps ins prs mf d -> pending temps ins prs true d'.
Proof.
  intros Hnum HT Hdr HO Hm [H1 H2 H3 H4 H5 H6 H7 H8 H9]. split; try done.
  - by rewrite HO by (done || apply ordinary_journal).
  - intros n t Ht. by eapply drawnName_mono, H4.
  - intros n c t Hc Ht. destruct (wr_files W n c Hc) as (_ & _ & Hnm & _ & Ho).
    rewrite (HT t), (HO n) by (done || (by eapply H4) || by exists n).
    destruct (H6 n c t Hc Ht) as [(?&?&Hw)|?]; [left|by right]. split; [done|]. split; [done|].
    intros Hi. eapply written_same, Hw, Hi. by apply HO.
  - intros n Hn. pose proof Hn as [sum Hs]. destruct (prune_owned n sum Hs) as (_ & _ & Hnm & _ & Ho). rewrite HO by done. by apply H7.
  - by right.
  - intros n Ho Hf Hp Hm' Hj. rewrite HO by done. by apply H9.
Qed.

Lemma recordManifest_spec temps ins prs mf :
  triple (pending temps ins prs mf) (recordManifest Marshal random (journal temps)) (fun _ => pending temps ins prs true).
Proof.
  unfold recordManifest. simpl. assert (HC := pending_consistent temps ins prs mf). pose proof expected_manifest as HM.
  assert (Hdir : forall d, pending temps ins prs mf d -> names d !! ManifestName <> Some Dir).
  { intros d Hd. destruct (pe_manifest _ _ _ _ _ Hd) as [[_ ->]| ->].
    - apply (wr_directories W). by right; right.
    - rewrite HM. by destruct withManifest. }
  destruct withManifest; simpl.
  - apply (publish_spec (tracked temps) (pending temps ins prs mf)); [apply pending_inert|exact Hdir| |apply pending_consistent].
    intros t d (Hd & Ht & Hdr & Hc). eapply (pending_recorded temps ins prs mf d); [| | | | |exact Hd].
    + apply renamed_numbered; [apply ordinary_manifest|apply Hd].
    + intros t' Hdr' [n Hn]. apply renamed_temp; [apply ordinary_manifest|done|]. intros ->. apply Ht. by exists n.
    + done.
    + intros n Ho Hn. by apply renamed_ordinary.
    + simpl. by rewrite lookup_insert_eq.
  - apply ignoreNotExist_spec. apply triple_sys; [intros d Hd; by apply HN, HC|]. intros ev d Hd Hok.
    destruct (fault ev) as [k|] eqn:E.
    { simpl. destruct HF as [H|H]; [by rewrite (H ev Hok) in E|by apply H, HC]. }
    assert (HR : pending temps ins prs true (onNames (delete ManifestName) d)).
    { eapply (pending_recorded temps ins prs mf d); [| | | | |exact Hd].
      - intros k Hk. simpl. apply lookup_delete_None. right. by apply Hd.
      - intros t (k & -> & _) _. simpl. rewrite lookup_delete_ne; [done|]. intros En. by apply (ordinary_manifest k).
      - done.
      - intros n Ho Hn. simpl. by rewrite lookup_delete_ne.
      - simpl. by rewrite lookup_delete_eq. }
    pose proof (Hdir d Hd) as Hnd. destruct (names d !! ManifestName) as [[]|] eqn:En; try done. simpl.
    eapply (pending_recorded temps ins prs mf d); [apply Hd|done|done|done| |exact Hd]. by rewrite En, HM.
Qed.

(** *** The commit *)

Lemma journal_removed temps ins prs d :
  (forall n, is_Some (files !! n) -> n ∈ ins) -> (forall n, is_Some (prune !! n) -> n ∈ prs) ->
  pending temps ins prs true d -> finished (onNames (delete journalName) d).
Proof.
  intros Hi Hp [H1 H2 H3 H4 H5 H6 H7 H8 H9].
  assert (HO : forall n, n <> journalName -> names (onNames (delete journalName) d) !! n = names d !! n) by (intros n ?; simpl; by rewrite lookup_delete_ne).
  split; [intros k Hk; simpl; apply lookup_delete_None; right; by apply H1|]. split.
  - intros n c Hc. destruct (wr_files W n c Hc) as (_ & _ & _ & Hj & _). eapply written_same; [by apply HO|].
    destruct (proj2 (H3 n) ltac:(by exists c)) as [t Ht]. destruct (H6 n c t Hc Ht) as [(_ & _ & Hw)|[_ Hw]]; [|by left].
    apply Hw, Hi. by exists c.
  - intros n Ho Hf. destruct (decide (n = journalName)) as [->|Hj]; [simpl; by rewrite lookup_delete_eq, expected_journal|].
    rewrite HO by done. destruct (decide (n = ManifestName)) as [->|Hm]; [by destruct H8 as [[? _]|?]|].
    destruct (prune !! n) as [sum|] eqn:Ep.
    + destruct (H7 n) as [[Hni _]|?]; [by rewrite Ep| |done]. exfalso. apply Hni, Hp. by rewrite Ep.
    + rewrite previous_expected by done. by apply H9.
Qed.

Definition reported (report : list string * list string) : Prop :=
  report.2 = filter (fun n => drifted n = true) (sortedNames prune) /\ forall n, n ∈ report.1 -> is_Some (prune !! n) /\ undrifted n = true.

Lemma newSums_files n : is_Some (newSums !! n) <-> is_Some (files !! n).
Proof. unfold newSums. by rewrite lookup_fmap, fmap_is_Some. Qed.

Lemma commit_finishes temps :
  triple (pending temps [] [] false) (commit sha256 Marshal random (journal temps)) (fun report d => finished d /\ reported report).
Proof.
  eapply triple_bind.
  { apply (triple_forEach X _ (fun ins => pending temps ins [] false)). intros l1 n l2 E. apply install_spec.
    apply newSums_files, sortedNames_in. simpl in E. rewrite E. apply elem_of_app. right. left. }
  intros ?. eapply triple_bind; [apply pruneAll_spec; intros n; by rewrite sortedNames_in|]. intros report.
  apply (triple_fact X (reported report)).
  { intros d (_ & E & H). split; [done|]. intros n Hn. destruct (H n Hn) as [?%not_elem_of_nil|[Hp ?]]; [done|].
    split; [by apply sortedNames_in|done]. }
  intros Hr. simpl. eapply triple_pre; [intros d [Hd _]; exact Hd|].
  eapply triple_bind; [apply recordManifest_spec|]. intros ?.
  eapply triple_bind; [apply syncDir_spec, pending_consistent|]. intros ?.
  eapply triple_bind with (Q := fun _ => finished).
  { apply triple_change; [apply pending_consistent|]. intros d Hd. rewrite (pe_journal _ _ _ _ _ Hd).
    eapply journal_removed, Hd; intros n Hn; apply sortedNames_in; [by apply newSums_files|done]. }
  intros ?. eapply triple_bind; [apply syncDir_spec; by right; right|]. intros ?. by apply triple_pure.
Qed.

(** *** Rolling forward and writing *)

Lemma RollForward_idle : triple idle (RollForward sha256 Marshal Unmarshal random) (fun kept d => kept = [] /\ idle d).
Proof.
  eapply triple_bind; [apply (readJournal_none idle); [by left|apply idle_journal]|]. intros [j|]; [by intros d es [? _]|].
  apply triple_pure. by intros d [_ ?].
Qed.

Lemma RollForward_finished : triple finished (RollForward sha256 Marshal Unmarshal random) (fun kept d => kept = [] /\ finished d).
Proof.
  eapply triple_bind; [apply (readJournal_none finished); [by right; right|apply finished_journal]|]. intros [j|]; [by intros d es [? _]|].
  apply triple_pure. by intros d [_ ?].
Qed.

Lemma readManifest_idle :
  triple idle (readManifest Unmarshal) (fun o d => match o with Some m => Files m | None => ∅ end = previous /\ idle d).
Proof.
  assert (HO : forall d, idle d -> names d !! ManifestName = d0 !! ManifestName) by (intros d [_ H]; apply H, ordinary_manifest).
  eapply triple_bind.
  { apply (readOptional_spec idle); [by left|]. intros d Hd. rewrite HO by done. apply (wr_directories W). by right; right. }
  intros data. apply (triple_fact X (data = reads (d0 !! ManifestName))); [intros d [-> Hd]; by rewrite HO|]. intros ->.
  unfold previous. destruct (reads (d0 !! ManifestName)) as [data|] eqn:E; [|apply triple_pure; by intros d [_ ?]].
  destruct (wr_manifest W data E) as [m Hm]. rewrite Hm.
  assert (HV : validManifest m = true).
  { apply validSums_owned. intros n sum Hn. apply (wr_previous W n sum). unfold previous. by rewrite E, Hm. }
  rewrite HV. apply triple_pure. by intros d [_ ?].
Qed.

Lemma WriteSet_spec :
  triple idle (WriteSet sha256 Marshal Unmarshal random files withManifest)
    (fun report d => finished d /\ report.1.1 = sortedNames files /\ reported (report.1.2, report.2)).
Proof.
  assert (HV : validSums (Files (newManifest sha256 files)) = true).
  { apply validSums_owned. intros n v Hn. by apply newSums_ascii in Hn as [? _]. }
  unfold WriteSet. rewrite HV. eapply triple_bind; [apply RollForward_idle|]. intros kept.
  apply (triple_fact X (kept = [])); [by intros d [? _]|]. intros ->.
  eapply triple_bind; [eapply triple_pre; [by intros d [_ Hd]; exact Hd|apply readManifest_idle]|]. intros o.
  apply (triple_fact X (match o with Some m => Files m | None => ∅ end = previous)); [by intros d [? _]|]. intros ->.
  fold prune. eapply triple_bind; [eapply triple_pre; [by intros d [_ Hd]; exact Hd|apply stagePrune_spec]|]. intros ?.
  apply triple_exists. intros temps. eapply triple_bind; [apply readJournal_pending|]. intros j.
  apply (triple_fact X (j = Some (journal temps))); [by intros d [? _]|]. intros ->.
  eapply triple_bind; [eapply triple_pre; [by intros d [_ Hd]; exact Hd|apply commit_finishes]|]. intros [pruned kept].
  apply triple_pure. by intros d [? ?].
Qed.
End Calls.

(** Rolling forward where reads do not fail. *)
Lemma RollForward_spec (ok : event -> Prop) (X : exits directory genError) :
  (forall d, consistent d -> X None d) -> (forall e d, X (Some e) d -> X None d) ->
  ((forall ev, ok ev -> ev = calm) \/ (forall d, consistent d -> X (Some IOFault) d)) ->
  (forall ev, ok ev -> readFault ev = false) ->
  hoare ok X consistent (RollForward sha256 Marshal Unmarshal random) (fun _ d => idle d \/ finished d).
Proof.
  intros HN HE HF HS. assert (HSl : (forall ev, ok ev -> readFault ev = false) \/ staleAllowed X) by by left.
  apply triple_or; [|apply triple_or].
  - eapply triple_post; [|by apply RollForward_idle]. intros ? d [_ ?]. by left.
  - apply triple_exists. intros temps. eapply triple_bind; [by apply readJournal_pending|]. intros j.
    apply (triple_fact X (j = Some (journal temps))); [by intros d [? _]|]. intros ->.
    eapply triple_bind with (Q := fun r d => match r with Ok _ => finished d | Err (Stale _) => False | Err e => X (Some e) d end).
    + apply triple_try. eapply triple_conseq with (P' := pending temps [] [] false); [by intros d [_ ?]| |apply commit_finishes].
      * by intros r d [? _].
      * done.
      * intros e d. simpl. destruct e; try apply HE. done.
      * destruct HF; [by left|by right].
      * by left.
    + intros [[pruned kept]|[]]; try (apply triple_raise; done); [apply triple_pure; by right|by intros d es []].
  - eapply triple_post; [|by apply RollForward_finished]. intros ? d [_ ?]. by right.
Qed.

(** ** What a check finds *)

Section Checking.
Context (d1 : directory) (Hd1 : finished d1).
Definition standing (d : directory) : Prop := d = d1.
Definition isCalm (ev : event) : Prop := ev = calm.
Definition never : exits directory genError := fun x _ => x = None.
Notation triple := (hoare isCalm never).

Lemma never_stop d : consistent d -> never None d.
Proof. done. Qed.

Lemma never_fault : (forall ev, isCalm ev -> ev = calm) \/ (forall d, consistent d -> never (Some IOFault) d).
Proof. by left. Qed.

Lemma standing_consistent d : standing d -> consistent d.
Proof. intros ->. by right; right. Qed.

Lemma written_reads n c d : files !! n = Some c -> standing d ->
  names d !! n <> Some Dir /\ exists data, reads (names d !! n) = Some data /\ hashOf data = hashOf c.
Proof.
  intros Hc ->. destruct (proj1 (proj2 Hd1) n c Hc) as [E|[E (data & Er & Hh)]]; rewrite E.
  - split; [done|]. by exists c.
  - split; [intros En; by rewrite En in Er|]. by exists data.
Qed.

Lemma checkFiles_spec ns problems :
  (forall n, n ∈ ns -> is_Some (files !! n)) ->
  triple standing (checkFiles sha256 files ns problems) (fun r d => r = problems /\ standing d).
Proof.
  revert problems. induction ns as [|n ns IH]; intros problems Hns; simpl; [by apply triple_pure|].
  destruct (Hns n) as [c Hc]; [left|]. rewrite Hc. simpl.
  eapply triple_bind.
  { apply (readOptional_spec isCalm never never_stop never_fault standing); [apply standing_consistent|]. intros d Hd. by eapply written_reads. }
  intros disk. apply (triple_fact _ (exists data, disk = Some data /\ hashOf data = hashOf c)).
  { intros d [-> Hd]. destruct (written_reads n c d Hc Hd) as (_ & data & -> & Hh). by exists data. }
  intros (data & -> & Hh). rewrite Hh, (bool_decide_false (hashOf c <> hashOf c)) by auto. rewrite app_nil_r.
  eapply triple_pre; [by intros d [_ Hd]; exact Hd|]. apply IH. intros n' ?. apply Hns. by right.
Qed.

Lemma checkOwned_skips owned ns problems kept (P : directory -> Prop) :
  (forall n, n ∈ ns -> is_Some (files !! n)) ->
  triple P (checkOwned sha256 files owned ns problems kept) (fun r d => r = (problems, kept) /\ P d).
Proof.
  induction ns as [|n ns IH]; intros Hns; simpl; [by apply triple_pure|].
  destruct (Hns n) as [c ->]; [left|]. apply IH. intros n' ?. apply Hns. by right.
Qed.

Definition newRecord : option manifest := if withManifest then Some (mkManifest 1 newSums ∅ ∅) else None.

Lemma readManifest_new : triple standing (readManifest Unmarshal) (fun o d => o = newRecord /\ standing d).
Proof.
  apply (readRecord_spec isCalm never never_stop never_fault); [apply standing_consistent| |].
  - intros d ->. destruct Hd1 as [_ [_ H]]. rewrite H, expected_manifest by
      (apply ordinary_manifest || (destruct (files !! ManifestName) eqn:E; [by apply (wr_files W) in E as (_ & _ & ? & _)|done])).
    unfold newRecord. by destruct withManifest.
  - unfold newRecord. intros m Hm. destruct withManifest; [|done]. injection Hm as <-. split.
    + intros f n v Hf Hn. apply elem_of_cons in Hf as [->|Hf].
      * apply newSums_ascii in Hn as [(_ & ? & _) ?]. done.
      * assert (f = ∅) as -> by (apply elem_of_cons in Hf as [->|[->|Hf%not_elem_of_nil]%elem_of_cons]; done). done.
    + apply validSums_owned. intros n v Hn. by apply newSums_ascii in Hn as [? _].
Qed.

Lemma Check_spec :
  triple standing (Check_ sha256 Unmarshal files withManifest) (fun r d => r = ([], []) /\ standing d).
Proof.
  assert (HI : forall n, n ∈ sortedNames newSums -> is_Some (files !! n)) by (intros n; rewrite sortedNames_in; apply newSums_files).
  eapply triple_bind.
  { apply (readJournal_none isCalm never never_stop never_fault standing); [apply standing_consistent|]. intros d ->. by apply finished_journal. }
  intros j. apply (triple_fact _ (j = None)); [by intros d [? _]|]. intros ->.
  eapply triple_bind; [eapply triple_pre; [by intros d [_ Hd]; exact Hd|apply checkFiles_spec; intros n; by rewrite sortedNames_in]|].
  intros problems. apply (triple_fact _ (problems = [])); [by intros d [? _]|]. intros ->.
  eapply triple_bind; [eapply triple_pre; [by intros d [_ Hd]; exact Hd|apply readManifest_new]|].
  intros o. apply (triple_fact _ (o = newRecord)); [by intros d [? _]|]. intros ->. unfold newRecord.
  apply triple_bind with (Q := fun r d => r = ([], []) /\ standing d).
  { eapply triple_pre; [by intros d [_ Hd]; exact Hd|].
    destruct withManifest; [by apply checkOwned_skips|by apply triple_pure]. }
  intros report. apply triple_pure. intros d [-> Hd]. split; [|done]. destruct withManifest; [|done]. simpl.
  assert (forallb (fun name => bool_decide (default EmptyString (newSums !! name) = default EmptyString ((hashOf <$> files) !! name)))
    (sortedNames (hashOf <$> files)) = true) as ->; [|done].
  apply forallb_forall. intros n _. by apply bool_decide_eq_true.
Qed.
End Checking.

(** ** Runs end *)

Lemma ends_ignore {A : Type} (m : M A) none : ends calm m -> ends calm (ignoreNotExist m none).
Proof. intros H. apply ends_bind; [by apply ends_try|]. intros [|[]]; eauto with ends. Qed.

Lemma ends_optional p : ends calm (ignoreNotExist (let* c := readFile p in pure (Some c)) None).
Proof. apply ends_ignore. unfold readFile, look. eauto with ends. Qed.

Lemma ends_record base valid : ends calm (readRecord Unmarshal base valid).
Proof.
  apply ends_bind; [apply ends_optional|]. intros [data|]; [|eauto with ends].
  destruct (Unmarshal data) as [m|]; [|eauto with ends]. destruct (valid m); eauto with ends.
Qed.

Lemma ends_writeExclusive data : ends calm (writeExclusive random data).
Proof.
  unfold writeExclusive, createTemp, settle, writeTo, change. apply ends_bind; [apply ends_sys|]. intros t.
  apply ends_bind; [|intros ?; apply ends_bind; eauto with ends].
  apply ends_onFail; [|apply ends_sys]. apply ends_bind; [apply ends_sys|]. intros ?. apply ends_bind; eauto with ends.
Qed.

Lemma ends_publish base data : ends calm (publish random base data).
Proof.
  apply ends_bind; [apply ends_writeExclusive|]. intros t. unfold rename, syncDir, change. apply ends_bind; eauto with ends.
Qed.

Lemma ends_install j n : ends calm (install sha256 j n).
Proof.
  assert (HC : forall sum, ends calm (checkInstalled sha256 n sum)).
  { intros sum. apply ends_bind; [apply ends_try; unfold readFile, look; apply ends_sys|]. intros [data|]; [|eauto with ends].
    case_bool_decide; eauto with ends. }
  unfold install. destruct (Temps j !! n) as [t|]; [|done]. destruct (validTempName t); [|done].
  apply ends_bind; [apply ends_try; unfold lstat, look; apply ends_sys|]. intros [[]|]; try done.
  apply ends_bind; [unfold readFile, look; apply ends_sys|]. intros data. case_bool_decide; [eauto with ends|].
  unfold rename, change. apply ends_sys.
Qed.

Lemma ends_pruneAll j ns pruned kept : ends calm (pruneAll sha256 j ns pruned kept).
Proof.
  revert pruned kept. induction ns as [|n ns IH]; intros pruned kept; simpl; [apply ends_pure|].
  apply ends_bind; [apply ends_optional|]. intros [data|]; [|done]. case_bool_decide; [done|].
  apply ends_bind; [unfold remove, change; apply ends_sys|done].
Qed.

Lemma ends_commit j : ends calm (commit sha256 Marshal random j).
Proof.
  apply ends_bind; [apply ends_forEach, ends_install|]. intros ?. apply ends_bind; [apply ends_pruneAll|]. intros report.
  apply ends_bind.
  { unfold recordManifest. destruct (0 <? Version j)%Z; [apply ends_publish|]. apply ends_ignore. unfold remove, change. apply ends_sys. }
  intros ?. unfold syncDir, remove, change. repeat (apply ends_bind; [apply ends_sys|intros ?]). apply ends_pure.
Qed.

Lemma ends_RollForward : ends calm (RollForward sha256 Marshal Unmarshal random).
Proof.
  apply ends_bind; [apply ends_record|]. intros [j|]; [|apply ends_pure]. apply ends_bind; [apply ends_try, ends_commit|].
  intros [[? ?]|[]]; try (by eauto with ends). apply ends_bind; [|eauto with ends]. unfold abandon, syncDir, remove, change.
  apply ends_bind; [apply ends_forEach; intros [? t]; destruct (validTempName t); [apply ends_ignore, ends_sys|apply ends_pure]|].
  intros ?. apply ends_bind; [apply ends_ignore, ends_sys|]. intros ?. apply ends_sys.
Qed.

Lemma ends_Check : ends calm (Check_ sha256 Unmarshal files withManifest).
Proof.
  assert (HF : forall ns problems, ends calm (checkFiles sha256 files ns problems)).
  { induction ns as [|n ns IH]; intros problems; simpl; [apply ends_pure|]. apply ends_bind; [apply ends_optional|]. by intros ?. }
  assert (HO : forall owned ns problems kept, ends calm (checkOwned sha256 files owned ns problems kept)).
  { intros owned ns. induction ns as [|n ns IH]; intros problems kept; simpl; [apply ends_pure|].
    destruct (files !! n); [done|]. apply ends_bind; [apply ends_optional|]. intros [data|]; [|done]. by case_bool_decide. }
  apply ends_bind; [apply ends_record|]. intros j. apply ends_bind; [apply HF|]. intros problems.
  apply ends_bind; [apply ends_record|]. intros o. apply ends_bind; [destruct o; [apply HO|apply ends_pure]|]. intros ?. apply ends_pure.
Qed.

Lemma ends_stageTemps ns temps : ends calm (stageTemps random files ns temps).
Proof. revert temps. induction ns as [|n ns IH]; intros temps; simpl; [apply ends_pure|]. apply ends_bind; [apply ends_writeExclusive|done]. Qed.

Lemma ends_WriteSet : ends calm (WriteSet sha256 Marshal Unmarshal random files withManifest).
Proof.
  unfold WriteSet. destruct (validSums _); [|apply ends_raise]. apply ends_bind; [apply ends_RollForward|]. intros kept.
  apply ends_bind; [apply ends_record|]. intros o. apply ends_bind.
  { apply ends_bind; [apply ends_stageTemps|]. intros temps. apply ends_publish. }
  intros ?. apply ends_bind; [apply ends_record|]. intros [j|]; [|apply ends_raise]. apply ends_bind; [apply ends_commit|].
  intros ?. apply ends_pure.
Qed.

(** ** Theorems *)

(** Runs of [RollForward], each stopped where its schedule ends. *)
Definition recover (ess : list (list event)) (d : directory) : directory :=
  fold_left (fun d es => (RollForward sha256 Marshal Unmarshal random d es).1.1) ess d.

Lemma RollForward_consistent d es :
  consistent d -> Forall (fun ev => readFault ev = false) es -> consistent (RollForward sha256 Marshal Unmarshal random d es).1.1.
Proof.
  intros Hd Hok.
  pose proof (RollForward_spec (fun ev => readFault ev = false) (fun _ => consistent) ltac:(done) ltac:(done) ltac:(by right) ltac:(done) d es Hd Hok) as H.
  destruct (RollForward _ _ _ _ d es) as [[d' es'] [kept|e|]]; destruct H as [_ H]; [|done..].
  simpl. destruct H as [H|H]; [by left|by right; right].
Qed.

Lemma recover_consistent ess d :
  consistent d -> Forall (Forall (fun ev => readFault ev = false)) ess -> consistent (recover ess d).
Proof.
  revert d. induction ess as [|es ess IH]; intros d Hd Hok; [done|]. apply Forall_cons in Hok as [Hes Hok].
  simpl. apply IH; [|done]. by apply RollForward_consistent.
Qed.

Lemma RollForward_finishes d : consistent d ->
  exists n d' kept, (idle d' \/ finished d') /\
    forall k, RollForward sha256 Marshal Unmarshal random d (replicate (n + k) calm) = (d', replicate k calm, Val kept).
Proof.
  intros Hd. destruct (ends_returns calm (RollForward sha256 Marshal Unmarshal random) consistent (fun _ d => idle d \/ finished d) d)
    as (n & d' & kept & HQ & E); [apply ends_RollForward|done| |by exists n, d', kept].
  apply RollForward_spec; [done|done|by left|by intros ev ->].
Qed.

Lemma start_idle k0 : (forall k, k0 <= k -> d0 !! temp k = None) -> idle (mkDirectory d0 k0).
Proof. intros H. split; [exact H|]. by intros n _. Qed.

(** C17: a write is all or nothing. Any call may fail and the run may be stopped after any
    call; the run that rolls forward may be stopped too, at any call of its own, any
    number of times, as long as its reads do not fail. One that is left in peace then
    returns, and the directory, temporaries aside, is as it was before the write or as
    the write is to leave it: every new file in place, those of the previous manifest
    that are not among them gone unless they have drifted, the manifest that of the new
    files, everything else as it was. A write that returns has done all of this and
    reports what it kept. *)
Theorem write_set_is_atomic k0 es ess :
  (forall k, k0 <= k -> d0 !! temp k = None) -> Forall (Forall (fun ev => readFault ev = false)) ess ->
  let '(d1, _, r) := WriteSet sha256 Marshal Unmarshal random files withManifest (mkDirectory d0 k0) es in
  (exists n d2 kept, (untouched d2 \/ updated d2) /\
     forall k, RollForward sha256 Marshal Unmarshal random (recover ess d1) (replicate (n + k) calm) = (d2, replicate k calm, Val kept)) /\
  match r with
  | Val report => updated d1 /\ report.1.1 = sortedNames files /\ reported (report.1.2, report.2)
  | _ => True
  end.
Proof.
  intros Hk Hok.
  pose proof (WriteSet_spec (fun _ => True) (fun _ => consistent) ltac:(done) ltac:(done) ltac:(by right) ltac:(right; by intros n d)
    (mkDirectory d0 k0) es (start_idle k0 Hk) (Forall_true _ _ (fun _ => I))) as H.
  destruct (WriteSet _ _ _ _ _ _ _ _) as [[d1 es'] r]. destruct H as [_ H].
  assert (Hc : consistent d1) by (destruct r; [right; right; apply H|exact H|exact H]).
  split; [|destruct r as [report| |]; [|done..]; destruct H as ([_ ?] & ? & ?); done].
  destruct (RollForward_finishes (recover ess d1)) as (n & d2 & kept & HQ & E); [by apply recover_consistent|].
  exists n, d2, kept. split; [|done]. destruct HQ as [[_ ?]|[_ ?]]; [by left|by right].
Qed.

(** C18: a write succeeds. Where no call fails it returns, in a number of calls that the
    directory bounds, with the new files in place. *)
Theorem write_set_succeeds k0 :
  (forall k, k0 <= k -> d0 !! temp k = None) ->
  exists n d report, updated d /\ report.1.1 = sortedNames files /\ reported (report.1.2, report.2) /\
    forall k, WriteSet sha256 Marshal Unmarshal random files withManifest (mkDirectory d0 k0) (replicate (n + k) calm) =
      (d, replicate k calm, Val report).
Proof.
  intros Hk. destruct (ends_returns calm (WriteSet sha256 Marshal Unmarshal random files withManifest) idle
    (fun report d => finished d /\ report.1.1 = sortedNames files /\ reported (report.1.2, report.2)) (mkDirectory d0 k0))
    as (n & d & report & ([_ ?] & ? & ?) & E); [apply ends_WriteSet|by apply start_idle| |by exists n, d, report].
  apply WriteSet_spec; [done|done|by left|left; by intros ev ->].
Qed.

(** C19: what was written passes the check. After a write that returned, the check of the
    same files finds no problem and nothing kept, and changes nothing. *)
Theorem check_accepts_a_write k0 es :
  (forall k, k0 <= k -> d0 !! temp k = None) ->
  let '(d1, _, r) := WriteSet sha256 Marshal Unmarshal random files withManifest (mkDirectory d0 k0) es in
  match r with
  | Val _ => exists n, forall k, Check_ sha256 Unmarshal files withManifest d1 (replicate (n + k) calm) = (d1, replicate k calm, Val ([], []))
  | _ => True
  end.
Proof.
  intros Hk.
  pose proof (WriteSet_spec (fun _ => True) (fun _ => consistent) ltac:(done) ltac:(done) ltac:(by right) ltac:(right; by intros n d)
    (mkDirectory d0 k0) es (start_idle k0 Hk) (Forall_true _ _ (fun _ => I))) as H.
  destruct (WriteSet _ _ _ _ _ _ _ _) as [[d1 es'] [report|e|]]; [|done..]. destruct H as (_ & Hd & _).
  destruct (ends_returns calm (Check_ sha256 Unmarshal files withManifest) (standing d1) (fun r d => r = ([], []) /\ standing d1 d) d1)
    as (n & d & r & [-> ->] & E); [apply ends_Check|done|by apply Check_spec|by exists n].
Qed.
End Write.

(** ** A package with two files *)

Definition checksum (s : string) : list Ascii.ascii :=
  [Ascii.ascii_of_N (fold_left (fun h a => (31 * h + Ascii.N_of_ascii a) mod 251)%N (String.list_ascii_of_string s) 7%N)].

(** An encoding with nothing of JSON but that it can be undone. *)
Definition tupled (m : manifest) : Z * gmap string string * gmap string string * gmap string string :=
  (Version m, Files m, Temps m, Prune m).
Definition untupled (t : Z * gmap string string * gmap string string * gmap string string) : manifest :=
  let '(v, f, tm, p) := t in mkManifest v f tm p.

Fixpoint upToNewline (s : string) : string :=
  match s with
  | EmptyString => EmptyString
  | String c s => if Ascii.eqb c "010" then EmptyString else String c (upToNewline s)
  end.

Definition written_as (m : manifest) : string := bits (encode (tupled m)).
Definition read_as (s : string) : option manifest := untupled <$> decode (ofBits (upToNewline s)).

Lemma upToNewline_bits p : upToNewline (bits p +:+ String "010" EmptyString) = bits p.
Proof. induction p as [p IH|p IH|]; [..|done]; simpl; by rewrite IH. Qed.

Lemma read_written m : read_as (encoded written_as m) = Some m.
Proof.
  unfold read_as, encoded, written_as. rewrite upToNewline_bits, ofBits_bits, decode_encode. by destruct m.
Qed.

Fixpoint tally (k : nat) : string := match k with 0 => EmptyString | S k => String "1" (tally k) end.

Lemma tally_length k : String.length (temp tally k) = 12 + k.
Proof.
  unfold temp. rewrite !string_length_app. assert (String.length (tally k) = k) as -> by (induction k as [|k IH]; simpl; congruence).
  simpl. lia.
Qed.

Lemma tally_inj k k' : temp tally k = temp tally k' -> k = k'.
Proof. intros E%(f_equal String.length). rewrite !tally_length in E. lia. Qed.

Lemma tally_forall p k : p "1"%char = true -> string_forall p (tally k) = true.
Proof. intros H. induction k as [|k IH]; [done|]. simpl. by rewrite H. Qed.

Lemma split_whole sep s : string_forall (fun a => negb (bool_decide (a = sep))) s = true -> split sep s = [s].
Proof.
  induction s as [|a s IH]; [done|]. simpl. intros [Ha%negb_true_iff Hs]%andb_true_iff. by rewrite Ha, IH.
Qed.

Lemma segments_temp k : segments (temp tally k) = [temp tally k].
Proof. apply split_whole. unfold temp. by rewrite !string_forall_app, tally_forall. Qed.

Lemma Base_temp k : Base (temp tally k) = temp tally k.
Proof. unfold Base. rewrite bool_decide_false by done. rewrite segments_temp. by rewrite filter_cons_True. Qed.

Lemma tally_plain k : validTempName (temp tally k) = true /\ ascii_text (temp tally k) = true.
Proof.
  split.
  - unfold validTempName. rewrite Base_temp, bool_decide_true by done. unfold temp. rewrite HasPrefix_cat.
    by rewrite <-string_app_assoc, HasSuffix_app.
  - unfold ascii_text, temp. by rewrite !string_forall_app, tally_forall.
Qed.

Definition sources : gmap string string := {[ "a_gen.go" := "package a // new"; "b_gen.go" := "package b" ]}.

(** What the previous manifest names: one file as it was, one that has been edited, one
    that is gone from the set. *)
Definition recorded : gmap string string :=
  {[ "a_gen.go" := hashOf checksum "package a"; "c_gen.go" := hashOf checksum "package c"; "e_gen.go" := hashOf checksum "package e" ]}.
Definition before : gmap string node :=
  {[ "a_gen.go" := Regular "package a"; "c_gen.go" := Regular "package c"; "e_gen.go" := Regular "package e, edited";
     "main.go" := Regular "package main"; ManifestName := Regular (encoded written_as (mkManifest 1 recorded ∅ ∅)) ]}.

Definition ownedName (n : string) : bool :=
  plainName n && ascii_text n && negb (bool_decide (n = ManifestName)) && negb (bool_decide (n = journalName)) && negb (HasPrefix n ".fabrik-").

Lemma ownedName_owned n : ownedName n = true -> owned tally n.
Proof.
  unfold ownedName. rewrite !andb_true_iff, !negb_true_iff, !bool_decide_eq_false. intros [[[[H1 H2] H3] H4] H5].
  split; [done|]. split; [done|]. split; [done|]. split; [done|]. intros k ->. unfold temp in H5. by rewrite HasPrefix_cat in H5.
Qed.

Lemma before_previous : previous read_as before = recorded.
Proof. vm_compute. reflexivity. Qed.

Lemma before_writable : writable read_as tally sources before.
Proof.
  split.
  - intros n c Hn. apply ownedName_owned. assert (H : map_Forall (fun n _ => ownedName n = true) sources) by (apply (bool_decide_unpack _); vm_compute; done).
    exact (H n c Hn).
  - rewrite before_previous. intros n sum Hn.
    assert (H : map_Forall (fun n sum => ownedName n = true /\ ascii_text sum = true) recorded).
    { apply (bool_decide_unpack _). vm_compute. done. }
    destruct (H n sum Hn). split; [by apply ownedName_owned|done].
  - intros data Hr. vm_compute in Hr. injection Hr as <-. vm_compute. by eexists.
  - intros n _. assert (H : map_Forall (fun _ e => e <> Dir) before) by (unfold before; intros n' e; rewrite !lookup_insert_Some, lookup_singleton_Some; naive_solver).
    intros E. by apply (H n Dir).
  - vm_compute. reflexivity.
Qed.

Lemma before_numbered : forall k, 0 <= k -> before !! temp tally k = None.
Proof.
  intros k _. unfold before. rewrite !lookup_insert_None, lookup_singleton_None.
  split_and!; intros E; unfold temp in E; discriminate E.
Qed.

Notation writeSources := (WriteSet checksum written_as read_as tally sources true).
Notation rollForward := (RollForward checksum written_as read_as tally).

Definition started : directory := mkDirectory before 0.

(** The write is stopped when its journal is there, the first recovery after four calls,
    the second before any. *)
Definition recoveries : list (list event) := [replicate 4 calm; []].

Lemma recoveries_read : Forall (Forall (fun ev => readFault ev = false)) recoveries.
Proof. repeat constructor. Qed.

Lemma write_set_is_atomic_witness :
  writable read_as tally sources before /\ (forall k, 0 <= k -> before !! temp tally k = None) /\
  exists n d2 kept, (untouched tally before d2 \/ updated checksum written_as read_as tally sources true before d2) /\
    forall k, rollForward (recover checksum written_as read_as tally recoveries (writeSources started (replicate 19 calm)).1.1)
      (replicate (n + k) calm) = (d2, replicate k calm, Val kept).
Proof.
  split; [exact before_writable|]. split; [exact before_numbered|].
  pose proof (write_set_is_atomic checksum written_as read_as tally (fun m _ => read_written m) tally_inj tally_plain sources true
    before before_writable 0 (replicate 19 calm) recoveries before_numbered recoveries_read) as H.
  fold started in H. destruct (writeSources started (replicate 19 calm)) as [[d1 es'] r]. exact (proj1 H).
Defined.

Lemma write_set_succeeds_witness :
  writable read_as tally sources before /\ (forall k, 0 <= k -> before !! temp tally k = None) /\
  exists n d report, updated checksum written_as read_as tally sources true before d /\ report.1.1 = sortedNames sources /\
    forall k, writeSources started (replicate (n + k) calm) = (d, replicate k calm, Val report).
Proof.
  split; [exact before_writable|]. split; [exact before_numbered|].
  destruct (write_set_succeeds checksum written_as read_as tally (fun m _ => read_written m) tally_inj tally_plain sources true
    before before_writable 0 before_numbered) as (n & d & report & H1 & H2 & _ & H3).
  exists n, d, report. split; [exact H1|]. split; [exact H2|exact H3].
Defined.

Lemma check_accepts_a_write_witness :
  writable read_as tally sources before /\ (forall k, 0 <= k -> before !! temp tally k = None) /\
  let '(d1, _, r) := writeSources started (replicate 60 calm) in
  match r with
  | Val _ => exists n, forall k, Check_ checksum read_as sources true d1 (replicate (n + k) calm) = (d1, replicate k calm, Val ([], []))
  | _ => True
  end.
Proof.
  split; [exact before_writable|]. split; [exact before_numbered|].
  exact (check_accepts_a_write checksum written_as read_as tally (fun m _ => read_written m) tally_inj tally_plain sources true
    before before_writable 0 (replicate 60 calm) before_numbered).
Defined.

Definition report_of (r : directory * list event * res genError (list string * list string * list string)) : option (list string * list string * list string) :=
  match r.2 with Val report => Some report | _ => None end.

Definition look_at (d : directory) : list (option node) :=
  (fun n => names d !! n) <$> ["a_gen.go"; "b_gen.go"; "c_gen.go"; "e_gen.go"; "main.go"; journalName].

(** In peace: the edited file stays, the other one that is no longer generated goes. *)
Example sources_are_written :
  let r := writeSources started (replicate 60 calm) in
  report_of r = Some (["a_gen.go"; "b_gen.go"], ["c_gen.go"], ["e_gen.go"]) /\
  look_at r.1.1 = [Some (Regular "package a // new"); Some (Regular "package b"); None; Some (Regular "package e, edited");
                   Some (Regular "package main"); None].
Proof. vm_compute. by split. Qed.

(** ** What the theorems do not promise *)

Definition interrupted : directory := (writeSources started (replicate 19 calm)).1.1.

(** A look at a staged file that fails is taken for a file that is gone: the transaction
    is given up with the first file replaced and the second not. *)
Example failing_look_gives_up :
  let r := rollForward interrupted (replicate 4 calm ++ [mkEvent true None] ++ replicate 30 calm) in
  r.2 = Val [] /\
  look_at r.1.1 = [Some (Regular "package a // new"); None; Some (Regular "package c"); Some (Regular "package e, edited");
                   Some (Regular "package main"); None].
Proof. vm_compute. by split. Qed.

(** So it is when the second staged file is lost. *)
Example lost_temporary_leaves_a_mix :
  let r := rollForward (onNames (delete (temp tally 1)) interrupted) (replicate 60 calm) in
  r.2 = Val [] /\
  look_at r.1.1 = [Some (Regular "package a // new"); None; Some (Regular "package c"); Some (Regular "package e, edited");
                   Some (Regular "package main"); None].
Proof. vm_compute. by split. Qed.
